(* ===== verification/_CoqProject ===== *)
-Q . S2P
Prelude.v
Errors.v
RateLimitMemory.v
Dict.v
CircuitMemory.v
CircuitBreaker.v
CoordinationMemory.v
Lock.v
Backoff.v
PyStr.v
Match.v
Retry.v
Calendar.v
Cron.v
CronTask.v
TaskLock.v
IntervalTask.v
LeaderElection.v
OutboxMemory.v
OutboxRelay.v
CacheMemory.v
TTLCache.v
Stampede.v
Idempotency.v
RateLimiter.v
ShieldParts.v
Shield.v
IpAddress.v
ClientIP.v
Asyncio.v
Bulkhead.v
Timeout.v
Fallback.v
Kubernetes.v
HealthChecks.v
LogFilters.v
Logfmt.v
TaskRouter.v
TaskManager.v
AppRegistry.v
AppProviders.v
App.v
Sqlite.v
SqliteLimiter.v
SqliteCoordination.v
SqliteCircuit.v
IdempotentHttp.v
SqliteCache.v
Cached.v
Config.v
ExternalConfig.v
Redis.v
RedisCoordination.v
RedisLimiter.v
RedisCircuit.v
RedisCache.v
Postgres.v
PostgresCircuit.v
PostgresCoordination.v
PostgresLimiter.v
PostgresOutbox.v
PostgresCache.v
