(* ===== verification/Prelude.v ===== *)
(** * grelmicro: a verification development

    grelmicro is an asyncio toolkit of small distributed-systems primitives:
    rate limiters, circuit breakers, locks, leader election, retries and
    scheduled tasks.  Every primitive is a front-end object that resolves a
    backend and calls it; the state a primitive shares between workers lives
    in the backend.  This development models the core of those primitives with
    their in-memory backends, from the Python sources under [src/grelmicro],
    and proves what they promise.

    ** The parts and the files

    Shared:
    - [Prelude] (this file): Python floats as rationals, [min], [max], [int],
      outcomes (return or raise), a state-and-exception monad, runs of
      deterministic components, invariants of step relations, sums over maps.
    - [Errors]: the exception classes of every [errors.py], and [issubclass].
    - [Dict]: Python dictionaries where their insertion order matters.
    - [PyStr]: the string methods, [int(s)] and [range]; [Calendar]: the part of
      [datetime] that the cron code uses.

    Rate limiting ([resilience/ratelimiter/memory.py]):
    - [RateLimitMemory]: the token bucket and the GCRA sliding window.  A
      strategy is a function of its configuration, a key, a cost, the clock and
      the map of keys.  Both are proved to refine an ideal bucket (an ideal
      arrival time) that has no eviction and one state per key; the number of
      admitted requests over any span is bounded by the capacity plus the rate
      times the span; a [peek] predicts the next [acquire]; the synchronous
      [MemoryTokenBucket] agrees with the strategy.

    - [RateLimiter] ([resilience/ratelimiter/__init__.py]): the object the
      application calls, over the class [LimiterRuntime] of backends: requests,
      failing open, reconfiguration, and [wait], which ends within its budget
      and over the memory adapter needs one sleep of the announced length.

    Circuit breaking ([resilience/circuitbreaker/]):
    - [CircuitMemory]: [memory.py], the strategy over an ordered dictionary of
      circuits with expiry.  It refines a specification of independent
      circuits (a state machine per name); theorems say when a circuit opens,
      how long it blocks, when it recovers, what a forced state does and how
      many probes a half-open circuit admits.
    - [CircuitBreaker]: [__init__.py], the object the application uses, proved
      against the class [CircuitStore] of strategies (the memory strategy is
      the instance): entering and leaving a call, the classification of its
      outcome, manual transitions, the keyed circuits with their eviction and
      the reconfiguration, over a heap of circuit objects because a caller
      keeps a reference to a circuit the map has dropped.

    Coordination ([coordination/]):
    - [CoordinationMemory]: [memory.py], the lock, schedule and leader election
      adapters.  The class [LockBackend] is what a lock backend promises to
      [Lock]; the memory adapter implements it.  Fencing tokens identify the
      holder, a claim is won once, a leader's lease excludes the others.
    - [Lock]: [lock.py], the lock object with its tasks and threads, its
      waiting loop and its local bookkeeping, and a system of callers that
      interleave on one or several lock objects.  Mutual exclusion of the
      holders of a live lease, bounded waiting, and that a free lock is granted.

    - [Kubernetes] ([kubernetes.py]): the lock and election adapters over the class
      [LeaseApi] of an API server.  [kube_step] interleaves the reads and writes
      of any number of clients; fencing numbers identify the holder, and a call
      does at its write what the in-memory adapter does in one step.

    Retries ([resilience/retry.py], [backoffs/], [_match.py]):
    - [Backoff]: every backoff strategy with its jitter, over the class
      [Runtime] of what the loop asks of its environment (the clock, the random
      numbers, the sleep).
    - [Match]: the filter language of outcomes.
    - [Retry]: the decorator's loop and the block form; the number of attempts,
      the time budget, the result with its note, and that the two forms do the same.

    The shield ([resilience/shield/]):
    - [ShieldParts]: the budget of retries, the timeout estimator (the 95th
      percentile of the last 32 latencies) and the adaptive gate, a token bucket
      under a CUBIC controller, with the number of calls it lets pass.
    - [Shield]: the loop around a call, its retries and its recovery, with the task
      cancelled at any [await]; what a call can come to, and that it comes to an end
      when the gate is left to it.

    Concurrency limits and deadlines ([resilience/]):
    - [Asyncio]: [asyncio.Semaphore] and [asyncio.timeout], with the invariant of
      a semaphore's queue.
    - [Bulkhead] ([bulkhead.py]): the limit on concurrent calls, as the events of
      any number of tasks; the permits are conserved, a free permit reaches a
      waiter, and what a call that has to wait comes to.
    - [Timeout] ([timeout.py]): the deadline around a coroutine, with the blocks
      nested in it.
    - [Fallback] ([fallback.py]): the decorator and the block, and the [when=]
      argument that [Retry] shares.

    Scheduled tasks ([task/]):
    - [Cron] and [CronTask] follow [task/_cron.py].
    - [Cron]: the cron expression: the parser accepts the grammar and means what
      Vixie cron means; the two searches return the nearest matching minute.
    - [CronTask]: the tick of a cron task over the class [ScheduleBackend] (the
      memory adapter is the instance): however any number of workers interleave
      between the reading, the claim and the start of the body, the claims increase
      and a fire is started at most once; a missed fire is replayed once, every fire is
      reported once, the loop wakes for the fire it computed.
    - [TaskLock] ([coordination/tasklock.py]): the lock of a scheduled task, a
      client of [LockBackend]: no other worker takes it before the minimum has
      passed, and leaving never touches the lock of another worker.
    - [IntervalTask] ([task/_interval.py]): the primitives of an interval task
      and one iteration of its loop; the primitives nest.
    - [TaskRouter] ([task/router.py]): the tree of routers, on a heap; starting one freezes
      the tasks below it.
    - [TaskManager] ([task/_tasks.py]): the loops of the tasks and the manager that starts,
      stops and drains them in an [asyncio.TaskGroup]; [manager_step] interleaves the owner,
      the tasks and the passing of time.  A shutdown cancels no task whose turns are shorter
      than the timeout, and ends.

    Leader election ([coordination/leaderelection.py]):
    - [LeaderElection]: the candidate's loop over the leader adapter of
      [CoordinationMemory]: renewing, the confirmation deadline, stepping down,
      the waiters and the [guard].  The relation [election_step] interleaves
      several candidates, on one clock, and the failures of the backend; at most
      one running candidate says that it leads when answers are handled in time, and a
      candidate cut off from the backend steps down in time.

    Outbox ([outbox/]):
    - [OutboxMemory]: [memory.py], the store of messages and the class
      [OutboxBackend] that it and [PostgresOutbox] implement: claiming the oldest due messages,
      and the attempt number that fences a delivery whose lease has run out.
    - [OutboxRelay]: [_registry.py], [_component.py] and [_relay.py], the relay and its deliveries over that class;
      [relay_step] interleaves relays that claim, deliver, fail and die.  No
      message is lost, a lease is delivered once, and the handler of a message
      runs a bounded number of times.

    Cache ([cache/]):
    - [CacheMemory]: [memory.py], the store with tags and expiry and the class
      [CacheBackend] it implements.
    - [TTLCache]: [ttl.py], the cache object: the local bookkeeping that bounds
      the number of keys, reading, writing, tags, and [get_or_set].
    - [Stampede]: [_stampede.py], the locks and the reserve that keep concurrent misses of one
      key to one computation; [stampede_step] interleaves the callers.
    - [Cached]: [cached.py], what the decorator accepts and its wrappers; a decorated
      function is [get_or_set], a stream read to its end is [collect], and a truncated
      sequence is never stored.

    Client addresses ([clientip.py]):
    - [IpAddress]: the part of the standard library's [ipaddress] it uses, with
      the round trip from an address to its text and back.
    - [ClientIP]: the trusted set, the header and the walk over its entries.  A
      resolved address is vouched for by trusted proxies, a caller that forges
      header text cannot change it, and its key identifies it.

    Idempotency ([idempotency/]):
    - [Idempotency]: [_idempotency.py], the block that stores a response under its key and replays
      it, over a lock and a cache given as interfaces.

    Health checks ([health/]):
    - [HealthChecks]: [_checks.py], the registry of checks, the cache and single flight
      that concurrent rounds share, and the report.  [health_step] interleaves the
      rounds; a check runs once per [cache_ttl], no caller is stranded when a leader
      is cancelled, and a report is as fresh and as severe as its checks.

    The application ([_app.py]):
    - [AppRegistry]: the registry, what can be used in it, the default components a provider
      fills in, and looking a component up.
    - [AppProviders]: how providers are adopted, ordered and shared before the items are
      opened; no backend finds its provider closed.
    - [App]: entering and leaving any number of applications, whatever fails; [app_step]
      interleaves them.  Process-global state has one owner, items are closed in the reverse
      order; [override].

    Configuration ([_config.py], [config/]):
    - [Config]: [_config.py], the names of variables, the resolution from arguments or the
      environment with its reports, and the patch of live instances from a mapping: exactly
      the keys of a field change it, and one bad value stops no other instance.
    - [ExternalConfig]: [file.py] and [_external.py], the reader of mounted files with its
      detection of changes, and the component that polls two sources over the class
      [ConfigBackend]: what it applies is what each source held when it was last readable,
      and no poll ends the loop.

    HTTP ([integrations/fastapi.py]):
    - [IdempotentHttp]: [IdempotencyMiddleware] around any ASGI application; a stored
      response is replayed with its status, headers and body, a body read first is
      read again by the application unchanged, and default keys are apart.

    SQLite files (every [sqlite.py]):
    - [Sqlite]: what the SQLite adapters share, a file with one write transaction at a
      time and methods that are transactions or single statements; [file_step]
      interleaves any number of connections, whatever they are answered and whoever
      dies.  What is committed is a serial history of whole calls, and a call is all or
      nothing.
    - [SqliteLimiter] ([resilience/ratelimiter/sqlite.py]): both strategies over one table;
      they are the ideal limiters, and the sliding window keeps its bound for all the
      processes on the file although their clock readings arrive out of order.
    - [SqliteCoordination] ([coordination/sqlite.py]): the lock is a lease on a clock of
      whole seconds, with fencing numbers that order the grants of all processes; the
      schedule is a [ScheduleBackend] whatever its connection answers.
    - [SqliteCircuit] ([resilience/circuitbreaker/sqlite.py]): the strategies of all
      processes on the file, and their sweeps, drive one circuit per name.
    - [SqliteCache] ([cache/sqlite.py]): the adapters on the file are one dictionary with
      tags, whatever their prefixes, and each is a [CacheBackend], so what is proved of
      [TTLCache], [Stampede] and [Idempotency] holds over it.

    Redis (every [redis.py]):
    - [Redis]: the class [RedisServer] of a server's commands with the laws that its
      documentation gives them, and a concrete server that has them.
    - [RedisCoordination] ([coordination/redis.py]): the Lua scripts of the lock, the
      schedule and the election; the lock is a lease on a clock of milliseconds, the
      others answer what the adapters in memory answer.
    - [RedisLimiter] ([resilience/ratelimiter/redis.py]): the scripts of both strategies; they
      are the ideal limiters although their keys expire.
    - [RedisCircuit] ([resilience/circuitbreaker/redis.py]): the scripts of the circuit
      strategy; they are one circuit per name, forgotten when its key expires.
    - [RedisCache] ([cache/redis.py]): the scripts that write and delete values with their
      tags; one dictionary, in which a tag may outlive the entry that had it (so it has not
      the law of [CacheBackend] for a deletion by tags).

    PostgreSQL (every [postgres.py]):
    - [Postgres]: calls on a server, each a transaction that reads the clock when it
      starts, waits for its lock and then runs; any interleaving is one call after the
      other in the order of the locks, with instants that need not be in that order.
    - [PostgresCircuit] ([resilience/circuitbreaker/postgres.py]): the PL/pgSQL functions
      of the circuit strategy and the sweep; one circuit per name, but for the width of
      the counts.
    - [PostgresCoordination] ([coordination/postgres.py]): the statements of the lock, the
      schedule and the election; one holder at a time by the server's clock, and the
      answers of the adapters in memory.
    - [PostgresLimiter] ([resilience/ratelimiter/postgres.py]): the functions of both
      strategies; what a fleet is granted in a period, whatever waits.
    - [PostgresOutbox] ([outbox/postgres.py]): the statements over the table of messages
      and publishing in the caller's transaction, as an [OutboxBackend]; claims are
      disjoint while their leases run.
    - [PostgresCache] ([cache/postgres.py]): the statements over the tables of [SqliteCache];
      any interleaving is one dictionary, and an adapter is a [CacheBackend].

    Logging ([log/]):
    - [LogFilters]: [_dedup.py] and [_ratelimit.py]; repeated records pass in bursts
      that are one [ttl] apart.
    - [Logfmt]: the logfmt serializer of [_shared.py] with a reader; what is written
      can be read back.

    ** How the code is modelled

    An asyncio task runs between two [await]s without interruption, and the
    memory backends hold a lock over the whole of an operation.  So a backend
    operation is one function from a state to a result and a state, and a
    front-end operation is split at its [await]s wherever other callers can
    interleave there; the step relations [lstep] (Lock), [cron_step]
    (CronTask), [election_step] (LeaderElection), [relay_step] (OutboxRelay),
    [stampede_step] (Stampede), [bulkhead_step] (Bulkhead), [kube_step]
    (Kubernetes), [file_step] (Sqlite), [health_step] (HealthChecks), [manager_step] (TaskManager), [app_step] (App) and the worlds of
    [CircuitBreaker] quantify over all orders.

    Every reading of a clock is an argument of the definition, one per reading
    in the source ([now1], [now2]), so a theorem states what it needs of the
    clock, usually that successive readings do not decrease.  A random number is
    an argument too.  Floats are exact rationals, so rounding is not modelled;
    integers are unbounded in Python and are [Z] here.  The text of log and
    error messages is not modelled unless an attribute carries it.

    Fuel: [issubclass] walks as deep as the class; the eviction loop of keyed
    circuits has one turn per entry and one more; the retry loop has the
    configured number of attempts; a cron search has 2^22 turns, more than the
    minutes of the 1830 days it looks through and a month; the eviction loop of
    the TTL cache has one turn per tracked key, and the eviction of idle locks
    one per entry; a wait for a rate limit has one attempt per poll interval of
    its budget, a task's loop has as many turns as fit before the stop.  In each case a
    lemma shows that the fuel is enough.  A shielded call has four attempts, and its
    turns at the gate are bounded by an argument: two are enough when the gate is left
    to the call, and otherwise the result says that it still waits.

    ** What is not modelled

    The serializers of the cache, the drivers and connection pools, the
    exporters of logs, metrics and traces, and the web framework bindings other than the
    idempotency middleware; the virtual clock, which is for tests. *)

From stdpp Require Export base gmap strings list fin_maps relations.
From Stdlib Require Export QArith Qround Lqa.

(** ** Python floats

    A Python [float] that carries a duration, an instant or a number of
    tokens is an exact rational [Q].  Equality of floats is [==] ([Qeq]), so
    the lemmas below are the ones that let results be compared up to it. *)

Declare Scope py_scope.
Delimit Scope py_scope with py.

(** [x < y] on floats, as the boolean Python computes. *)
Definition Qlt_bool (x y : Q) : bool := negb (Qle_bool y x).

Notation "x <=? y" := (Qle_bool x y) (at level 70, no associativity) : py_scope.
Notation "x <? y" := (Qlt_bool x y) (at level 70, no associativity) : py_scope.
Notation "x >=? y" := (Qle_bool y x) (at level 70, no associativity) : py_scope.
Notation "x >? y" := (Qlt_bool y x) (at level 70, no associativity) : py_scope.

Lemma Qle_bool_spec (x y : Q) : BoolSpec (x <= y)%Q (y < x)%Q (Qle_bool x y).
Proof.
  destruct (Qle_bool x y) eqn:E; constructor.
  - by apply Qle_bool_iff.
  - apply Qnot_le_lt. intros H. apply Qle_bool_iff in H. congruence.
Qed.

Lemma Qlt_bool_spec (x y : Q) : BoolSpec (x < y)%Q (y <= x)%Q (Qlt_bool x y).
Proof. unfold Qlt_bool. by destruct (Qle_bool_spec y x); constructor. Qed.

Lemma Qeq_bool_spec (x y : Q) : BoolSpec (x == y)%Q (~ x == y)%Q (Qeq_bool x y).
Proof.
  destruct (Qeq_bool x y) eqn:E; constructor.
  - by apply Qeq_bool_iff.
  - by apply Qeq_bool_neq.
Qed.

#[export] Instance Qlt_bool_proper : Proper (Qeq ==> Qeq ==> eq) Qlt_bool.
Proof. intros a b H c d H'. unfold Qlt_bool. by rewrite H, H'. Qed.

(** Python's [min(a, b)] and [max(a, b)]: the first argument wins a tie. *)
Definition py_min (a b : Q) : Q := if (b <? a)%py then b else a.
Definition py_max (a b : Q) : Q := if (b >? a)%py then b else a.

Lemma py_min_cases (a b : Q) :
  ((b < a)%Q /\ py_min a b = b) \/ ((a <= b)%Q /\ py_min a b = a).
Proof. unfold py_min. destruct (Qlt_bool_spec b a); auto. Qed.

Lemma py_max_cases (a b : Q) :
  ((a < b)%Q /\ py_max a b = b) \/ ((b <= a)%Q /\ py_max a b = a).
Proof. unfold py_max. destruct (Qlt_bool_spec a b); auto. Qed.

#[export] Instance py_min_proper : Proper (Qeq ==> Qeq ==> Qeq) py_min.
Proof.
  intros a b H c d H'. unfold py_min. rewrite H, H'.
  by destruct (Qlt_bool d b).
Qed.

#[export] Instance py_max_proper : Proper (Qeq ==> Qeq ==> Qeq) py_max.
Proof.
  intros a b H c d H'. unfold py_max. rewrite H, H'.
  by destruct (Qlt_bool b d).
Qed.

(** Python's [int(x)] truncates towards zero; [math.floor] is [Qfloor]. *)
Definition py_int (x : Q) : Z :=
  if (0 <=? x)%py then Qfloor x else Qceiling x.

#[export] Instance py_int_proper : Proper (Qeq ==> eq) py_int.
Proof.
  intros a b H. unfold py_int. rewrite (Qfloor_comp a b H), (Qceiling_comp a b H).
  by rewrite H.
Qed.

Lemma py_int_nonneg (x : Q) : (0 <= x)%Q -> py_int x = Qfloor x.
Proof. intros H. unfold py_int. destruct (Qle_bool_spec 0 x); [done|lra]. Qed.

Lemma Qfloor_ge (x : Q) (z : Z) : (inject_Z z <= x)%Q <-> (z <= Qfloor x)%Z.
Proof.
  split; intros H.
  - rewrite <- (Qfloor_Z z). by apply Qfloor_resp_le.
  - pose proof (Qfloor_le x). rewrite Zle_Qle in H. lra.
Qed.

Lemma Qfloor_lt (x : Q) (z : Z) : (x < inject_Z z)%Q <-> (Qfloor x < z)%Z.
Proof.
  split; intros H.
  - apply Z.lt_nge. intros C. apply Qfloor_ge in C. lra.
  - apply Qnot_le_lt. intros C. apply Qfloor_ge in C. lia.
Qed.

Lemma inject_Z_le (a b : Z) : (a <= b)%Z <-> (inject_Z a <= inject_Z b)%Q.
Proof. by rewrite Zle_Qle. Qed.

Lemma inject_Z_lt (a b : Z) : (a < b)%Z <-> (inject_Z a < inject_Z b)%Q.
Proof. by rewrite Zlt_Qlt. Qed.

Lemma inject_Z_nonneg (z : Z) : (0 <= z)%Z <-> (0 <= inject_Z z)%Q.
Proof. apply (inject_Z_le 0). Qed.

Lemma inject_Z_pos (z : Z) : (0 < z)%Z <-> (0 < inject_Z z)%Q.
Proof. apply (inject_Z_lt 0). Qed.

(** Division by a positive rate, the shape of every waiting time. *)
Lemma Qdiv_le_iff (x y r : Q) : (0 < r)%Q -> (x / r <= y)%Q <-> (x <= y * r)%Q.
Proof.
  intros Hr. split; intros H.
  - apply (Qmult_le_r _ _ r Hr) in H. unfold Qdiv in H.
    rewrite <- Qmult_assoc, (Qmult_comm (/ r)), Qmult_inv_r, Qmult_1_r in H; lra.
  - apply (Qmult_le_r _ _ r Hr). unfold Qdiv.
    rewrite <- Qmult_assoc, (Qmult_comm (/ r)), Qmult_inv_r, Qmult_1_r; lra.
Qed.

Lemma Qdiv_mul (x r : Q) : (0 < r)%Q -> (x / r * r == x)%Q.
Proof. intros Hr. field. lra. Qed.

(** Case analysis on every float comparison, minimum and maximum in sight. *)
Ltac qcase1 :=
  match goal with
  | |- context [Qle_bool ?x ?y] => destruct (Qle_bool_spec x y)
  | |- context [Qlt_bool ?x ?y] => destruct (Qlt_bool_spec x y)
  | H : context [Qle_bool ?x ?y] |- _ => destruct (Qle_bool_spec x y)
  | H : context [Qlt_bool ?x ?y] |- _ => destruct (Qlt_bool_spec x y)
  | |- context [py_min ?a ?b] =>
      let L := fresh "Hmin" in let E := fresh "Emin" in
      destruct (py_min_cases a b) as [[L E]|[L E]]; rewrite ?E in *; clear E
  | H : context [py_min ?a ?b] |- _ =>
      let L := fresh "Hmin" in let E := fresh "Emin" in
      destruct (py_min_cases a b) as [[L E]|[L E]]; rewrite ?E in *; clear E
  | |- context [py_max ?a ?b] =>
      let L := fresh "Hmax" in let E := fresh "Emax" in
      destruct (py_max_cases a b) as [[L E]|[L E]]; rewrite ?E in *; clear E
  | H : context [py_max ?a ?b] |- _ =>
      let L := fresh "Hmax" in let E := fresh "Emax" in
      destruct (py_max_cases a b) as [[L E]|[L E]]; rewrite ?E in *; clear E
  end.

Ltac qcases := repeat (qcase1; simpl in *); try done; try lra.

(** Integer constants seen through [inject_Z]. *)
Ltac qz :=
  change (inject_Z 0) with 0%Q in *; change (inject_Z 1) with 1%Q in *.

(** ** Outcomes and effects

    A Python call either returns a value or raises an exception; what it did
    to the objects it mutates stays done in both cases. *)

Inductive outcome (E A : Type) : Type :=
| Return (a : A)
| Raise (e : E).
Arguments Return {E A} a.
Arguments Raise {E A} e.

Definition py (S E A : Type) : Type := S -> outcome E A * S.

Definition py_ret {S E A} (a : A) : py S E A := fun s => (Return a, s).
Definition py_raise {S E A} (e : E) : py S E A := fun s => (Raise e, s).
Definition py_bind {S E A B} (m : py S E A) (k : A -> py S E B) : py S E B :=
  fun s => match m s with
           | (Return a, s') => k a s'
           | (Raise e, s') => (Raise e, s')
           end.
(** [try: m except Exception as e: h e], where [caught] is the class test. *)
Definition py_try {S E A} (m : py S E A) (caught : E -> bool)
    (h : E -> py S E A) : py S E A :=
  fun s => match m s with
           | (Return a, s') => (Return a, s')
           | (Raise e, s') => if caught e then h e s' else (Raise e, s')
           end.
Definition py_get {S E} : py S E S := fun s => (Return s, s).
Definition py_put {S E} (s : S) : py S E unit := fun _ => (Return tt, s).
Definition py_modify {S E} (f : S -> S) : py S E unit :=
  fun s => (Return tt, f s).

#[export] Instance py_mret {S E} : MRet (py S E) := @py_ret S E.
#[export] Instance py_mbind {S E} : MBind (py S E) :=
  fun A B k m => @py_bind S E A B m k.

(** The three monad laws, pointwise. *)
Lemma py_bind_ret_l {S E A B} (a : A) (k : A -> py S E B) s :
  py_bind (py_ret a) k s = k a s.
Proof. done. Qed.

Lemma py_bind_ret_r {S E A} (m : py S E A) s : py_bind m py_ret s = m s.
Proof. unfold py_bind. by destruct (m s) as [[a|e] s']. Qed.

Lemma py_bind_assoc {S E A B C} (m : py S E A) (k : A -> py S E B)
    (h : B -> py S E C) s :
  py_bind (py_bind m k) h s = py_bind m (fun a => py_bind (k a) h) s.
Proof. unfold py_bind. by destruct (m s) as [[a|e] s']. Qed.

(** ** Invariants of step relations *)

Section Invariants.
Context {S : Type} (step : S -> S -> Prop) (I : S -> Prop).
Hypothesis I_step : forall s s', step s s' -> I s -> I s'.

Lemma invariant_rtc s s' : rtc step s s' -> I s -> I s'.
Proof. induction 1; eauto. Qed.
End Invariants.

(** A run of a deterministic component: one operation after the other. *)
Section Runs.
Context {S O R : Type} (exec : O -> S -> R * S).

Fixpoint run (ops : list O) (s : S) : list R * S :=
  match ops with
  | [] => ([], s)
  | o :: rest =>
      let '(r, s1) := exec o s in
      let '(rs, s2) := run rest s1 in
      (r :: rs, s2)
  end.

Lemma run_app ops1 ops2 s :
  run (ops1 ++ ops2) s =
  let '(rs1, s1) := run ops1 s in
  let '(rs2, s2) := run ops2 s1 in (rs1 ++ rs2, s2).
Proof.
  revert s. induction ops1 as [|o ops1 IH]; intros s; simpl.
  - by destruct (run ops2 s).
  - destruct (exec o s) as [r s1]. rewrite IH.
    destruct (run ops1 s1) as [rs1 s2]. by destruct (run ops2 s2).
Qed.

Lemma run_invariant (I : S -> Prop) (ok : O -> S -> Prop) :
  (forall o s, I s -> ok o s -> I (exec o s).2) ->
  forall ops s, I s ->
    (forall o s', I s' -> o ∈ ops -> ok o s') -> I (run ops s).2.
Proof.
  intros Hstep ops. induction ops as [|o ops IH]; intros s HI Hok; [done|].
  simpl. destruct (exec o s) as [r s1] eqn:E.
  specialize (IH s1). destruct (run ops s1) as [rs s2] eqn:E'. simpl in *.
  apply IH; [|intros; apply Hok; [done|by constructor 2]].
  replace s1 with (exec o s).2 by (by rewrite E).
  apply Hstep; [done|]. apply Hok; [done|constructor 1].
Qed.
End Runs.

(** ** Sums over maps *)

Definition msum {A} (f : A -> Z) (m : gmap nat A) : Z := map_fold (fun _ x acc => f x + acc)%Z 0%Z m.

Lemma msum_insert_fresh {A} (f : A -> Z) (m : gmap nat A) k x :
  m !! k = None -> msum f (<[k := x]> m) = (f x + msum f m)%Z.
Proof. intros H. unfold msum. rewrite map_fold_insert_L; [done| |done]. intros. lia. Qed.

Lemma msum_delete {A} (f : A -> Z) (m : gmap nat A) k :
  msum f (delete k m) = (msum f m - from_option f 0 (m !! k))%Z.
Proof.
  destruct (m !! k) as [x|] eqn:E; simpl.
  - rewrite <- (insert_delete_id m k x E) at 2.
    rewrite msum_insert_fresh by apply lookup_delete_eq. lia.
  - rewrite delete_id by done. lia.
Qed.

Lemma msum_insert {A} (f : A -> Z) (m : gmap nat A) k x :
  msum f (<[k := x]> m) = (msum f m - from_option f 0 (m !! k) + f x)%Z.
Proof.
  rewrite <- insert_delete_eq, msum_insert_fresh by apply lookup_delete_eq.
  rewrite msum_delete. lia.
Qed.

Lemma msum_nonneg {A} (f : A -> Z) (m : gmap nat A) :
  (forall k x, m !! k = Some x -> 0 <= f x)%Z -> (0 <= msum f m)%Z.
Proof.
  induction m as [|k x m Hk IH] using map_ind; intros H; [done|].
  rewrite msum_insert_fresh by done.
  assert (0 <= f x)%Z by (apply (H k), lookup_insert_eq).
  assert (0 <= msum f m)%Z; [|lia]. apply IH. intros k' y Hy. apply (H k').
  rewrite lookup_insert_ne; [done|]. congruence.
Qed.

Lemma msum_zero {A} (f : A -> Z) (m : gmap nat A) :
  (forall k x, m !! k = Some x -> f x = 0)%Z -> msum f m = 0%Z.
Proof.
  induction m as [|k x m Hk IH] using map_ind; intros H; [done|].
  rewrite msum_insert_fresh, (H k x) by (done || apply lookup_insert_eq).
  rewrite IH; [done|]. intros k' y Hy. apply (H k').
  rewrite lookup_insert_ne; [done|]. congruence.
Qed.

(** ** Hint databases

    [pyq] closes the arithmetic side conditions of the components. *)
Create HintDb pyq.
#[export] Hint Resolve Qle_refl Qlt_le_weak : pyq.
#[export] Hint Extern 2 (Qle _ _) => lra : pyq.
#[export] Hint Extern 2 (Qlt _ _) => lra : pyq.
