(* ===== verification/Errors.v ===== *)
(** * Exceptions of the package

    The class hierarchy of [grelmicro/errors.py],
    [grelmicro/coordination/errors.py], [grelmicro/resilience/errors.py],
    [grelmicro/idempotency/errors.py], [grelmicro/task/errors.py],
    [grelmicro/outbox/errors.py], [grelmicro/health/errors.py] and [grelmicro/_app.py], with the built-in classes they derive from.
    [issubclass] follows the base classes, so an [except] clause of the code
    is a boolean test here. *)

From S2P Require Import Prelude.

Local Open Scope nat_scope.

Inductive exn_class : Type :=
(* built-in classes *)
| BaseException | Exception_ | CancelledError | KeyboardInterrupt
| ValueError | TypeError | RuntimeError | LookupError | ImportError
| TimeoutError | OSError | KeyError | IndexError
| ArithmeticError | OverflowError
(* grelmicro/errors.py *)
| GrelmicroError | AdmissionError | WouldBlockError | OutOfContextError
| DependencyNotFoundError | MultipleActiveAppsError
| ProviderNotRegisteredError | AdapterNotRegisteredError
| SettingsValidationError
(* grelmicro/coordination/errors.py *)
| CoordinationError | CoordinationBackendError | LockReentrantError
| LockBackendError | LockLockedCheckError | LockOwnedCheckError
| LockAcquireError | LockReleaseError | LockNotOwnedError
| CoordinationSettingsValidationError
(* grelmicro/resilience/errors.py *)
| ResilienceError | ResilienceSettingsValidationError | BulkheadFullError
| RateLimitExceededError | CircuitBreakerError
(* grelmicro/idempotency/errors.py *)
| IdempotencyError | IdempotencySettingsValidationError
| IdempotencyKeyMakerError | IdempotencyStateError
| IdempotencyWaitTimeoutError | IdempotencyConflictError
(* grelmicro/task/errors.py *)
| TaskError | FunctionTypeError | CronError | TaskAddOperationError
(* grelmicro/outbox/errors.py *)
| OutboxError | OutboxSettingsValidationError | OutboxTransactionError
| OutboxHandleError | HandlerNotFoundError | HandlerAlreadyRegisteredError
(* grelmicro/_app.py *)
| ComponentAlreadyRegisteredError | ComponentNotRegisteredError
| NoActiveAppError | LifecycleOrderError | AmbientBindingError
| AmbiguousProviderError
(* grelmicro/health/errors.py *)
| HealthError | HealthSettingsValidationError
(* a class the application declares, with its direct base class *)
| UserError (id : nat) (base : exn_class).

#[export] Instance exn_class_eq_dec : EqDecision exn_class.
Proof. solve_decision. Defined.

(** Base classes of the built-in exceptions the package derives from. *)
Definition builtin_bases (c : exn_class) : list exn_class :=
  match c with
  | Exception_ | CancelledError | KeyboardInterrupt => [BaseException]
  | ValueError | TypeError | RuntimeError | LookupError | ImportError
  | OSError | ArithmeticError => [Exception_]
  | OverflowError => [ArithmeticError]
  | TimeoutError => [OSError]
  | KeyError | IndexError => [LookupError]
  | UserError _ b => [b]
  | _ => []
  end.

(** [grelmicro/errors.py] *)
Definition core_bases (c : exn_class) : list exn_class :=
  match c with
  | GrelmicroError => [Exception_]
  | AdmissionError => [GrelmicroError]
  | WouldBlockError => [AdmissionError; RuntimeError]
  | OutOfContextError => [GrelmicroError; RuntimeError]
  | DependencyNotFoundError => [GrelmicroError; ImportError]
  | MultipleActiveAppsError => [GrelmicroError; RuntimeError]
  | ProviderNotRegisteredError => [GrelmicroError; LookupError]
  | AdapterNotRegisteredError => [GrelmicroError; LookupError]
  | SettingsValidationError => [GrelmicroError; ValueError]
  | _ => []
  end.

(** [grelmicro/coordination/errors.py] *)
Definition coordination_bases (c : exn_class) : list exn_class :=
  match c with
  | CoordinationError => [GrelmicroError]
  | CoordinationBackendError => [CoordinationError]
  | LockReentrantError => [CoordinationError]
  | LockBackendError => [CoordinationError]
  | LockLockedCheckError => [LockBackendError]
  | LockOwnedCheckError => [LockBackendError]
  | LockAcquireError => [LockBackendError]
  | LockReleaseError => [LockBackendError]
  | LockNotOwnedError => [LockReleaseError]
  | CoordinationSettingsValidationError =>
      [CoordinationError; SettingsValidationError]
  | _ => []
  end.

(** [grelmicro/resilience/errors.py] *)
Definition resilience_bases (c : exn_class) : list exn_class :=
  match c with
  | ResilienceError => [GrelmicroError]
  | ResilienceSettingsValidationError =>
      [ResilienceError; SettingsValidationError]
  | BulkheadFullError => [ResilienceError; AdmissionError]
  | RateLimitExceededError => [ResilienceError; AdmissionError]
  | CircuitBreakerError => [ResilienceError; AdmissionError]
  | _ => []
  end.

(** [grelmicro/idempotency/errors.py] *)
Definition idempotency_bases (c : exn_class) : list exn_class :=
  match c with
  | IdempotencyError => [GrelmicroError]
  | IdempotencySettingsValidationError =>
      [IdempotencyError; SettingsValidationError]
  | IdempotencyKeyMakerError => [IdempotencyError; ValueError]
  | IdempotencyStateError => [IdempotencyError; RuntimeError]
  | IdempotencyWaitTimeoutError => [IdempotencyError; TimeoutError]
  | IdempotencyConflictError => [IdempotencyError]
  | _ => []
  end.

(** [grelmicro/task/errors.py] *)
Definition task_bases (c : exn_class) : list exn_class :=
  match c with
  | TaskError => [GrelmicroError]
  | FunctionTypeError => [TaskError; TypeError]
  | CronError => [TaskError; ValueError]
  | TaskAddOperationError => [TaskError; RuntimeError]
  | _ => []
  end.

(** [grelmicro/outbox/errors.py] *)
Definition outbox_bases (c : exn_class) : list exn_class :=
  match c with
  | OutboxError => [GrelmicroError]
  | OutboxSettingsValidationError => [OutboxError; SettingsValidationError]
  | OutboxTransactionError => [OutboxError; RuntimeError]
  | OutboxHandleError => [OutboxError; TypeError]
  | HandlerNotFoundError => [OutboxError; LookupError]
  | HandlerAlreadyRegisteredError => [OutboxError; ValueError]
  | _ => []
  end.

(** [grelmicro/_app.py] *)
Definition app_bases (c : exn_class) : list exn_class :=
  match c with
  | ComponentAlreadyRegisteredError => [GrelmicroError; RuntimeError]
  | ComponentNotRegisteredError => [GrelmicroError; LookupError]
  | NoActiveAppError => [GrelmicroError; LookupError]
  | LifecycleOrderError => [GrelmicroError; ValueError]
  | AmbientBindingError => [GrelmicroError; RuntimeError]
  | AmbiguousProviderError => [GrelmicroError; ValueError]
  | _ => []
  end.

(** [grelmicro/health/errors.py] *)
Definition health_bases (c : exn_class) : list exn_class :=
  match c with
  | HealthError => [GrelmicroError]
  | HealthSettingsValidationError => [HealthError; SettingsValidationError]
  | _ => []
  end.

(** [C.__bases__]: each module only knows its own classes. *)
Definition bases (c : exn_class) : list exn_class :=
  builtin_bases c ++ core_bases c ++ coordination_bases c ++
  resilience_bases c ++ idempotency_bases c ++ task_bases c ++ outbox_bases c ++
  app_bases c ++ health_bases c.

(** The depth of the hierarchy: a class declared by the application adds one
    level to its base. *)
Fixpoint depth (c : exn_class) : nat :=
  match c with UserError _ b => S (depth b) | _ => 8 end.

Fixpoint subclass_fuel (n : nat) (c d : exn_class) : bool :=
  bool_decide (c = d) ||
  match n with
  | O => false
  | S n => existsb (fun b => subclass_fuel n b d) (bases c)
  end.

(** Python's [issubclass(c, d)]. *)
Definition issubclass (c d : exn_class) : bool := subclass_fuel (depth c) c d.

(** The specification: the reflexive and transitive closure of "is a base
    class of". *)
Definition base_step (c b : exn_class) : Prop := b ∈ bases c.

Lemma subclass_fuel_sound n c d : subclass_fuel n c d = true -> rtc base_step c d.
Proof.
  revert c. induction n as [|n IH]; intros c; simpl.
  - rewrite orb_false_r. intros H. apply bool_decide_eq_true in H as ->. done.
  - intros [H|H]%orb_prop.
    + apply bool_decide_eq_true in H as ->. done.
    + apply existsb_exists in H as (b & Hb & H).
      econstructor; [by apply list_elem_of_In|by apply IH].
Qed.

(** Every base class is strictly shallower under this rank, so the fuel of
    [issubclass] is enough. *)
Fixpoint rank (c : exn_class) : nat :=
  match c with
  | BaseException => 0
  | Exception_ | CancelledError | KeyboardInterrupt => 1
  | ValueError | TypeError | RuntimeError | LookupError | ImportError
  | OSError | ArithmeticError | GrelmicroError => 2
  | TimeoutError | KeyError | IndexError | OverflowError => 3
  | AdmissionError | OutOfContextError | DependencyNotFoundError
  | MultipleActiveAppsError | ProviderNotRegisteredError
  | AdapterNotRegisteredError | SettingsValidationError | CoordinationError
  | ResilienceError | IdempotencyError | TaskError | OutboxError | HealthError => 3
  | LockBackendError => 4
  | LockReleaseError => 5
  | LockNotOwnedError => 6
  | UserError _ b => S (rank b)
  | _ => 5
  end.

Lemma rank_depth c : rank c <= depth c.
Proof. induction c; simpl; lia. Qed.

Lemma bases_rank c b : b ∈ bases c -> rank b < rank c.
Proof.
  destruct c; cbn; rewrite ?list_elem_of_In; simpl; intuition (subst; simpl; lia).
Qed.

Lemma subclass_fuel_complete n c d :
  rank c <= n -> rtc base_step c d -> subclass_fuel n c d = true.
Proof.
  intros Hn H. revert n Hn. induction H as [c|c b d Hb _ IH]; intros n Hn.
  - destruct n; simpl; by rewrite bool_decide_eq_true_2.
  - pose proof (bases_rank _ _ Hb). destruct n as [|n]; [lia|]. simpl.
    apply orb_true_intro. right. apply existsb_exists. exists b.
    split; [by apply list_elem_of_In|]. apply IH. lia.
Qed.

(** [issubclass] decides the closure of the base-class relation. *)
Lemma issubclass_spec c d : issubclass c d = true <-> rtc base_step c d.
Proof.
  split; [apply subclass_fuel_sound|].
  apply subclass_fuel_complete, rank_depth.
Qed.

Lemma issubclass_refl c : issubclass c c = true.
Proof. by apply issubclass_spec. Qed.

Lemma issubclass_trans c d e :
  issubclass c d = true -> issubclass d e = true -> issubclass c e = true.
Proof. rewrite !issubclass_spec. intros. by etrans. Qed.

(** ** Exception objects

    [exn_info] carries the attributes the constructors store; [exn_notes] the
    strings added by [add_note]. *)
Inductive exn_info : Type :=
| NoInfo
| Message (msg : string)
| Named (name : string)
| RateInfo (key : string) (retry_after : Q)
| BulkheadInfo (name : string) (max_concurrent : Z)
| KeyInfo (name key : string) (timeout : Q)
| ConflictInfo (name key : string)
| HealthInfo (message : string) (details : option nat)
| UserInfo (id : nat).

Record exn : Type := Exn {
  exn_cls : exn_class;
  exn_inf : exn_info;
  exn_notes : list string;
}.

Definition mk_exn (c : exn_class) (i : exn_info) : exn := Exn c i [].

(** [exc.add_note(note)] *)
Definition add_note (note : string) (e : exn) : exn :=
  Exn (exn_cls e) (exn_inf e) (exn_notes e ++ [note]).

Definition isinstance (e : exn) (c : exn_class) : bool :=
  issubclass (exn_cls e) c.

(** The test of a plain [except Exception] clause. *)
Definition is_exception (e : exn) : bool := isinstance e Exception_.

(** Catching [AdmissionError] catches exactly the rejections of the
    gatekeeping primitives: every class of the package below it is a
    rate-limit, bulkhead, circuit-breaker or would-block error. *)
Lemma admission_classes c :
  issubclass c AdmissionError = true <->
  match c with
  | AdmissionError | WouldBlockError | BulkheadFullError
  | RateLimitExceededError | CircuitBreakerError => True
  | UserError _ b => issubclass b AdmissionError = true
  | _ => False
  end.
Proof.
  destruct c; try (vm_compute; by intuition discriminate).
  rewrite !issubclass_spec. split.
  - intros H. inversion H as [|? b ? Hb H']; subst.
    unfold base_step, bases in Hb. cbn in Hb.
    apply list_elem_of_singleton in Hb. by subst.
  - intros H. econstructor; [|done]. unfold base_step, bases. cbn.
    by apply list_elem_of_singleton.
Qed.
