(* ===== verification/RateLimitMemory.v ===== *)
(** * In-memory rate limiting

    [grelmicro/resilience/ratelimiter/memory.py]: the standalone
    [MemoryTokenBucket], the token-bucket and GCRA strategies and the adapter
    that owns their two state maps, with the result type and the
    configurations they use.  Every method runs under a lock or without an
    [await], so it is one atomic step; [now] is the [monotonic()] it reads. *)

From S2P Require Import Prelude Errors.

Local Open Scope Q_scope.

Record RateLimitResult : Type := mkResult {
  allowed : bool;
  limit : Z;
  remaining : Z;
  retry_after : Q;
  reset_after : Q;
}.

(** Two results a caller cannot tell apart. *)
Definition result_equiv (r1 r2 : RateLimitResult) : Prop :=
  allowed r1 = allowed r2 /\ limit r1 = limit r2 /\
  remaining r1 = remaining r2 /\
  retry_after r1 == retry_after r2 /\ reset_after r1 == reset_after r2.

#[export] Instance result_equiv_equivalence : Equivalence result_equiv.
Proof.
  split; unfold result_equiv.
  - intros r. repeat split; reflexivity.
  - intros r1 r2 (?&?&?&?&?). repeat split; by symmetry.
  - intros r1 r2 r3 (?&?&?&?&?) (?&?&?&?&?). repeat split; by etrans.
Qed.

Record TokenBucketConfig : Type := mkTokenBucketConfig {
  capacity : Z;
  refill_rate : Q;
  tb_fail_open : bool;
}.

Record SlidingWindowConfig : Type := mkSlidingWindowConfig {
  sw_limit : Z;
  window : Q;
  sw_fail_open : bool;
}.

Inductive RateLimiterConfig : Type :=
| TokenBucket (c : TokenBucketConfig)
| SlidingWindow (c : SlidingWindowConfig).

(** The constraints pydantic enforces ([PositiveInt], [PositiveFloat]). *)
Definition tb_config_valid (c : TokenBucketConfig) : Prop :=
  (0 < capacity c)%Z /\ 0 < refill_rate c.
Definition sw_config_valid (c : SlidingWindowConfig) : Prop :=
  (0 < sw_limit c)%Z /\ 0 < window c.
Definition config_valid (c : RateLimiterConfig) : Prop :=
  match c with
  | TokenBucket c => tb_config_valid c
  | SlidingWindow c => sw_config_valid c
  end.

Definition EVICTION_THRESHOLD : nat := 1000.

(** ** The bucket shared by the two token-bucket classes *)

(** [_refill]: passive refill, capped. *)
Definition refill (cap rate tokens last now : Q) : Q :=
  py_min cap (tokens + (now - last) * rate).

(** [_maybe_evict]: above the threshold, drop the keys back at capacity. *)
Definition bucket_evict (cap rate now : Q) (st : gmap string (Q * Q)) :
    gmap string (Q * Q) :=
  if (size st <=? EVICTION_THRESHOLD)%nat then st
  else filter (fun kv => Is_true (negb
         (refill cap rate kv.2.1 kv.2.2 now >=? cap)%py)) st.

(** The stored pair of a key, or a full bucket stamped [now]. *)
Definition bucket_get (cap now : Q) (key : string)
    (st : gmap string (Q * Q)) : Q * Q :=
  default (cap, now) (st !! key).

(** *** [MemoryTokenBucket] *)
Module MemoryTokenBucket.
Record t : Type := mk {
  capacity_int : Z;
  cap : Q;
  rate : Q;
  state : gmap string (Q * Q);
}.

(** [__init__] *)
Definition init (capacity : Z) (refill_rate : Q) : outcome exn t :=
  if (capacity <=? 0)%Z then Raise (mk_exn ValueError (Message "capacity"))
  else if (refill_rate <=? 0)%py
  then Raise (mk_exn ValueError (Message "refill_rate"))
  else Return (mk capacity (inject_Z capacity) refill_rate ∅).

Definition with_state (b : t) (st : gmap string (Q * Q)) : t :=
  mk (capacity_int b) (cap b) (rate b) st.

Definition try_acquire (key : string) (cost now : Q) (b : t) :
    outcome exn bool * t :=
  if (cost <=? 0)%py || (cost >? cap b)%py
  then (Raise (mk_exn ValueError (Message "cost")), b)
  else
    let '(tokens, last) := bucket_get (cap b) now key (state b) in
    let tokens := refill (cap b) (rate b) tokens last now in
    if (tokens >=? cost)%py then
      (Return true, with_state b (bucket_evict (cap b) (rate b) now
                                    (<[key := (tokens - cost, now)]> (state b))))
    else
      (Return false, with_state b (bucket_evict (cap b) (rate b) now
                                     (<[key := (tokens, now)]> (state b)))).

Definition peek (key : string) (now : Q) (b : t) : Q :=
  let '(tokens, last) := bucket_get (cap b) now key (state b) in
  refill (cap b) (rate b) tokens last now.

Definition reset (key : string) (b : t) : t :=
  with_state b (delete key (state b)).
End MemoryTokenBucket.

(** *** [_MemoryTokenBucket] *)

Definition tb_cap (c : TokenBucketConfig) : Q := inject_Z (capacity c).

Definition tb_acquire (c : TokenBucketConfig) (key : string) (cost : Z)
    (now : Q) (st : gmap string (Q * Q)) :
    RateLimitResult * gmap string (Q * Q) :=
  let '(tokens, last) := bucket_get (tb_cap c) now key st in
  let tokens := refill (tb_cap c) (refill_rate c) tokens last now in
  if (tokens >=? inject_Z cost)%py then
    let remaining := tokens - inject_Z cost in
    let st := bucket_evict (tb_cap c) (refill_rate c) now
                (<[key := (remaining, now)]> st) in
    (mkResult true (capacity c) (py_int remaining) 0
       ((tb_cap c - remaining) / refill_rate c), st)
  else
    let st := bucket_evict (tb_cap c) (refill_rate c) now
                (<[key := (tokens, now)]> st) in
    (mkResult false (capacity c) (py_int tokens)
       ((inject_Z cost - tokens) / refill_rate c)
       ((tb_cap c - tokens) / refill_rate c), st).

Definition tb_peek (c : TokenBucketConfig) (key : string) (now : Q)
    (st : gmap string (Q * Q)) : RateLimitResult :=
  let '(tokens, last) := bucket_get (tb_cap c) now key st in
  let tokens := refill (tb_cap c) (refill_rate c) tokens last now in
  if (tokens >=? 1)%py then
    mkResult true (capacity c) (py_int tokens) 0
      ((tb_cap c - tokens) / refill_rate c)
  else
    mkResult false (capacity c) (py_int tokens)
      ((1 - tokens) / refill_rate c) ((tb_cap c - tokens) / refill_rate c).

Definition tb_reset (key : string) (st : gmap string (Q * Q)) :
    gmap string (Q * Q) := delete key st.

(** *** [_MemoryGCRA] *)

Definition emission_interval (c : SlidingWindowConfig) : Q :=
  window c / inject_Z (sw_limit c).

Definition gcra_evict (now : Q) (st : gmap string Q) : gmap string Q :=
  if (size st <=? EVICTION_THRESHOLD)%nat then st
  else filter (fun kv => Is_true (negb (kv.2 <? now)%py)) st.

Definition gcra_acquire (c : SlidingWindowConfig) (key : string) (cost : Z)
    (now : Q) (st : gmap string Q) : RateLimitResult * gmap string Q :=
  let increment := emission_interval c * inject_Z cost in
  let st := gcra_evict now st in
  let tat := default now (st !! key) in
  let new_tat := py_max tat now + increment in
  let allow_at := new_tat - window c in
  let diff := now - allow_at in
  let remaining := Qfloor (diff / emission_interval c + (1 # 2)) in
  if (remaining <? 0)%Z then
    (mkResult false (sw_limit c) 0 (py_max 0 (- diff)) (py_max 0 (tat - now)),
     st)
  else
    (mkResult true (sw_limit c) remaining 0 (new_tat - now),
     <[key := new_tat]> st).

Definition gcra_peek (c : SlidingWindowConfig) (key : string) (now : Q)
    (st : gmap string Q) : RateLimitResult :=
  let tat := default now (st !! key) in
  let new_tat := py_max tat now in
  let allow_at := new_tat - window c in
  let diff := now - allow_at in
  let remaining := Qfloor (diff / emission_interval c + (1 # 2)) in
  if (remaining <=? 0)%Z then
    let retry_after :=
      if (remaining <? 0)%Z then - diff else emission_interval c - diff in
    mkResult false (sw_limit c) 0 (py_max 0 retry_after) (py_max 0 (tat - now))
  else
    mkResult true (sw_limit c) remaining 0 (py_max 0 (new_tat - now)).

Definition gcra_reset (key : string) (st : gmap string Q) : gmap string Q :=
  delete key st.

(** *** [MemoryRateLimiterAdapter]

    [bind] picks the strategy from the configuration; the strategy keeps a
    reference to the adapter's map, so each operation of a bound strategy is
    a step on the adapter. *)
Record MemoryRateLimiterAdapter : Type := mkAdapter {
  token_bucket_state : gmap string (Q * Q);
  gcra_state : gmap string Q;
}.

Definition adapter_init : MemoryRateLimiterAdapter := mkAdapter ∅ ∅.

(** [__aexit__] *)
Definition adapter_close (a : MemoryRateLimiterAdapter) :
    MemoryRateLimiterAdapter := mkAdapter ∅ ∅.

Definition bind_acquire (c : RateLimiterConfig) (key : string) (cost : Z)
    (now : Q) (a : MemoryRateLimiterAdapter) :
    RateLimitResult * MemoryRateLimiterAdapter :=
  match c with
  | TokenBucket c =>
      let '(r, st) := tb_acquire c key cost now (token_bucket_state a) in
      (r, mkAdapter st (gcra_state a))
  | SlidingWindow c =>
      let '(r, st) := gcra_acquire c key cost now (gcra_state a) in
      (r, mkAdapter (token_bucket_state a) st)
  end.

Definition bind_peek (c : RateLimiterConfig) (key : string) (now : Q)
    (a : MemoryRateLimiterAdapter) : RateLimitResult :=
  match c with
  | TokenBucket c => tb_peek c key now (token_bucket_state a)
  | SlidingWindow c => gcra_peek c key now (gcra_state a)
  end.

Definition bind_reset (c : RateLimiterConfig) (key : string)
    (a : MemoryRateLimiterAdapter) : MemoryRateLimiterAdapter :=
  match c with
  | TokenBucket _ => mkAdapter (tb_reset key (token_bucket_state a)) (gcra_state a)
  | SlidingWindow _ => mkAdapter (token_bucket_state a) (gcra_reset key (gcra_state a))
  end.

(** ** Theory of the lazy bucket

    The level of a bucket is what [peek] would compute; the lemmas relate it
    to the stored pair through refill and eviction. *)

Section Bucket.
Context (cap rate : Q) (Hcap : 0 < cap) (Hrate : 0 < rate).
Implicit Types (st : gmap string (Q * Q)) (key : string) (now : Q).

(** Tokens available to [key] at [now]. *)
Definition level st key now : Q :=
  let '(tokens, last) := bucket_get cap now key st in
  refill cap rate tokens last now.

(** Stored tokens stay within the capacity and no stamp is in the future. *)
Definition bucket_wf now st : Prop :=
  map_Forall (fun _ p => 0 <= p.1 <= cap /\ p.2 <= now) st.

Lemma refill_bounds tokens last now :
  0 <= tokens -> last <= now -> 0 <= refill cap rate tokens last now <= cap.
Proof. intros. unfold refill. qcase1; nra. Qed.

Lemma refill_now tokens now :
  tokens <= cap -> refill cap rate tokens now now == tokens.
Proof. intros. unfold refill. qcase1; lra. Qed.

(** Refilling in two steps is refilling once. *)
Lemma refill_refill tokens last now now' :
  now <= now' ->
  refill cap rate (refill cap rate tokens last now) now now' ==
  refill cap rate tokens last now'.
Proof. intros. unfold refill. repeat qcase1; nra. Qed.

Lemma bucket_get_wf now st key :
  bucket_wf now st ->
  0 <= (bucket_get cap now key st).1 <= cap /\
  (bucket_get cap now key st).2 <= now.
Proof.
  intros Hwf. unfold bucket_get. destruct (st !! key) as [p|] eqn:E; simpl.
  - by apply (Hwf key p).
  - lra.
Qed.

Lemma level_bounds now st key : bucket_wf now st -> 0 <= level st key now <= cap.
Proof.
  intros Hwf. pose proof (bucket_get_wf now st key Hwf) as Hg.
  unfold level. destruct (bucket_get cap now key st) as [tk l]. simpl in *.
  apply refill_bounds; lra.
Qed.

Lemma bucket_wf_empty now : bucket_wf now ∅.
Proof. by intros ???%lookup_empty_Some. Qed.

Lemma bucket_wf_mono now now' st :
  now <= now' -> bucket_wf now st -> bucket_wf now' st.
Proof.
  intros Hle Hwf k p Hp. specialize (Hwf k p Hp). simpl in *. lra.
Qed.

(** Time passing refills the level, and nothing else changes it. *)
Lemma level_later now now' st key :
  bucket_wf now st -> now <= now' ->
  level st key now' == py_min cap (level st key now + (now' - now) * rate).
Proof.
  intros Hwf Hle. pose proof (bucket_get_wf now st key Hwf) as Hg.
  unfold level, bucket_get in *.
  destruct (st !! key) as [[tk l]|]; simpl in *.
  - rewrite <- (refill_refill tk l now now') by done. done.
  - rewrite !refill_now by lra. qcase1; nra.
Qed.

Lemma evict_lookup now st key :
  bucket_evict cap rate now st !! key = st !! key \/
  (exists p, st !! key = Some p /\ bucket_evict cap rate now st !! key = None
     /\ cap <= refill cap rate p.1 p.2 now).
Proof.
  unfold bucket_evict. destruct (_ <=? _)%nat; [by left|].
  rewrite map_lookup_filter. destruct (st !! key) as [p|]; [|by left]. simpl.
  case_guard as H; [by left|]. right. exists p. split; [done|]. split; [done|].
  destruct (Qle_bool_spec cap (refill cap rate p.1 p.2 now)); [done|].
  by destruct H.
Qed.

Lemma evict_wf now st :
  bucket_wf now st -> bucket_wf now (bucket_evict cap rate now st).
Proof.
  intros Hwf k p Hp. destruct (evict_lookup now st k) as [E|(?&_&E&_)];
    rewrite E in Hp; [by apply (Hwf k)|done].
Qed.

(** An evicted key is indistinguishable from a fresh one, from then on. *)
Lemma level_evict now now' st key :
  bucket_wf now st -> now <= now' ->
  level (bucket_evict cap rate now st) key now' == level st key now'.
Proof.
  intros Hwf Hle. unfold level, bucket_get.
  destruct (evict_lookup now st key) as [->|([tk l]&E1&->&Hfull)]; [done|].
  rewrite E1. simpl in *. specialize (Hwf key (tk, l) E1). simpl in Hwf.
  rewrite refill_now by lra. symmetry.
  unfold refill in *. repeat qcase1; nra.
Qed.

(** What [acquire] writes: the key's tokens, stamped [now], then eviction. *)
Lemma level_write now now' st key tokens k :
  bucket_wf now st -> 0 <= tokens <= cap -> now <= now' ->
  level (bucket_evict cap rate now (<[key := (tokens, now)]> st)) k now' ==
  (if decide (k = key) then refill cap rate tokens now now'
   else level st k now').
Proof.
  intros Hwf Ht Hle. rewrite level_evict; [|..|done].
  - unfold level, bucket_get. case_decide as E.
    + subst. by rewrite lookup_insert_eq.
    + by rewrite lookup_insert_ne.
  - apply map_Forall_insert_2; [simpl; lra|done].
Qed.

Lemma write_wf now st key tokens :
  bucket_wf now st -> 0 <= tokens <= cap ->
  bucket_wf now (bucket_evict cap rate now (<[key := (tokens, now)]> st)).
Proof.
  intros Hwf Ht. apply evict_wf, map_Forall_insert_2; [simpl; lra|done].
Qed.
End Bucket.

(** ** Runs of a strategy *)

Inductive limiter_op : Type :=
| OAcquire (key : string) (cost : Z) (now : Q)
| OPeek (key : string) (now : Q)
| OReset (key : string).

Definition tb_exec (c : TokenBucketConfig) (o : limiter_op)
    (st : gmap string (Q * Q)) : option RateLimitResult * gmap string (Q * Q) :=
  match o with
  | OAcquire key cost now =>
      let '(r, st') := tb_acquire c key cost now st in (Some r, st')
  | OPeek key now => (Some (tb_peek c key now st), st)
  | OReset key => (None, tb_reset key st)
  end.

Definition gcra_exec (c : SlidingWindowConfig) (o : limiter_op)
    (st : gmap string Q) : option RateLimitResult * gmap string Q :=
  match o with
  | OAcquire key cost now =>
      let '(r, st') := gcra_acquire c key cost now st in (Some r, st')
  | OPeek key now => (Some (gcra_peek c key now st), st)
  | OReset key => (None, gcra_reset key st)
  end.

(** The clock never goes back and costs are what [_validate_cost] lets
    through; [t] is the time of the previous operation. *)
Fixpoint ops_ok (max_cost : Z) (t : Q) (ops : list limiter_op) : Prop :=
  match ops with
  | [] => True
  | OAcquire _ cost now :: ops =>
      t <= now /\ (1 <= cost <= max_cost)%Z /\ ops_ok max_cost now ops
  | OPeek _ now :: ops => t <= now /\ ops_ok max_cost now ops
  | OReset _ :: ops => ops_ok max_cost t ops
  end.

Lemma ops_ok_mono m t t' ops : t <= t' -> ops_ok m t' ops -> ops_ok m t ops.
Proof.
  revert t t'. induction ops as [|[k x now|k now|k] ops IH]; intros t t' Hle;
    simpl; intuition (eauto; lra).
Qed.

(** The time of the last operation of a run that starts at [t]. *)
Fixpoint end_time (t : Q) (ops : list limiter_op) : Q :=
  match ops with
  | [] => t
  | OAcquire _ _ now :: ops | OPeek _ now :: ops => end_time now ops
  | OReset _ :: ops => end_time t ops
  end.

Fixpoint no_reset (key : string) (ops : list limiter_op) : Prop :=
  match ops with
  | [] => True
  | OReset k :: ops => k <> key /\ no_reset key ops
  | _ :: ops => no_reset key ops
  end.

(** Total cost admitted for [key] along a run. *)
Definition op_admitted (key : string) (o : limiter_op)
    (r : option RateLimitResult) : Z :=
  match o, r with
  | OAcquire k cost _, Some r =>
      if decide (k = key) then if allowed r then cost else 0%Z else 0%Z
  | _, _ => 0%Z
  end.

Fixpoint admitted {S} (exec : limiter_op -> S -> option RateLimitResult * S)
    (key : string) (ops : list limiter_op) (s : S) : Z :=
  match ops with
  | [] => 0
  | o :: ops =>
      let '(r, s') := exec o s in
      op_admitted key o r + admitted exec key ops s'
  end.

(** ** Specification of the token bucket

    A bucket per key, full at the start, refilled continuously; nothing is
    stored lazily and nothing is evicted. *)
Record ideal_bucket : Type := mkIdeal {
  ib_now : Q;
  ib_level : string -> Q;
}.

Definition ideal_at (c : TokenBucketConfig) (s : ideal_bucket) (key : string)
    (now : Q) : Q :=
  py_min (tb_cap c) (ib_level s key + (now - ib_now s) * refill_rate c).

Definition ideal_result (c : TokenBucketConfig) (ok : bool) (level wanted : Q) :
    RateLimitResult :=
  mkResult ok (capacity c) (Qfloor level)
    (if ok then 0 else (wanted - level) / refill_rate c)
    ((tb_cap c - level) / refill_rate c).

Definition ideal_exec (c : TokenBucketConfig) (o : limiter_op)
    (s : ideal_bucket) : option RateLimitResult * ideal_bucket :=
  match o with
  | OAcquire key cost now =>
      let lv := ideal_at c s key now in
      let ok := (lv >=? inject_Z cost)%py in
      let lv' := if ok then lv - inject_Z cost else lv in
      (Some (ideal_result c ok lv' (inject_Z cost)),
       mkIdeal now (fun k => if decide (k = key) then lv' else ideal_at c s k now))
  | OPeek key now =>
      let lv := ideal_at c s key now in
      (Some (ideal_result c (lv >=? 1)%py lv 1), s)
  | OReset key =>
      (None, mkIdeal (ib_now s)
               (fun k => if decide (k = key) then tb_cap c else ib_level s k))
  end.

Section TokenBucketTheory.
Context (c : TokenBucketConfig) (Hc : tb_config_valid c).
Implicit Types (st : gmap string (Q * Q)) (s : ideal_bucket).

Lemma tb_cap_pos : 0 < tb_cap c.
Proof. apply (proj1 (inject_Z_pos _)), Hc. Qed.

Lemma tb_rate_pos : 0 < refill_rate c.
Proof. by destruct Hc. Qed.
Hint Resolve tb_cap_pos tb_rate_pos : pyq.

Abbreviation tb_level := (level (tb_cap c) (refill_rate c)).
Abbreviation tb_wf := (bucket_wf (tb_cap c)).

(** [acquire] in terms of the level: the shape every property starts from. *)
Lemma tb_acquire_level key cost now st :
  tb_acquire c key cost now st =
  let lv := tb_level st key now in
  let ok := (lv >=? inject_Z cost)%py in
  let lv' := if ok then lv - inject_Z cost else lv in
  (mkResult ok (capacity c) (py_int lv')
     (if ok then 0 else (inject_Z cost - lv) / refill_rate c)
     ((tb_cap c - lv') / refill_rate c),
   bucket_evict (tb_cap c) (refill_rate c) now (<[key := (lv', now)]> st)).
Proof.
  unfold tb_acquire, level. destruct (bucket_get _ now key st) as [tk l].
  simpl. by destruct (_ >=? _)%py.
Qed.

Lemma tb_peek_level key now st :
  tb_peek c key now st =
  let lv := tb_level st key now in
  let ok := (lv >=? 1)%py in
  mkResult ok (capacity c) (py_int lv)
    (if ok then 0 else (1 - lv) / refill_rate c)
    ((tb_cap c - lv) / refill_rate c).
Proof.
  unfold tb_peek, level. destruct (bucket_get _ now key st) as [tk l].
  simpl. by destruct (_ >=? _)%py.
Qed.

(** The level an [acquire] leaves behind is a legal level. *)
Lemma tb_spent_bounds now st key cost :
  tb_wf now st -> (0 <= cost)%Z ->
  let lv := tb_level st key now in
  0 <= (if (lv >=? inject_Z cost)%py then lv - inject_Z cost else lv) <= tb_cap c.
Proof.
  intros Hwf Hcost lv.
  pose proof (level_bounds _ _ tb_cap_pos tb_rate_pos now st key Hwf) as Hlv.
  fold lv in Hlv. apply inject_Z_nonneg in Hcost. qcase1; lra.
Qed.

Lemma tb_acquire_wf now now' st key cost :
  tb_wf now st -> now <= now' -> (0 <= cost)%Z ->
  tb_wf now' (tb_acquire c key cost now' st).2.
Proof.
  intros Hwf Hle Hcost. rewrite tb_acquire_level. simpl.
  pose proof (bucket_wf_mono _ _ _ _ Hle Hwf).
  apply write_wf; auto using tb_spent_bounds with pyq.
Qed.

(** What a key sees after an [acquire] on the same or another key. *)
Lemma tb_acquire_later now now' st key cost k :
  tb_wf now st -> (0 <= cost)%Z -> now <= now' ->
  tb_level (tb_acquire c key cost now st).2 k now' ==
  py_min (tb_cap c)
    (tb_level st k now -
     (if decide (k = key)
      then if allowed (tb_acquire c key cost now st).1 then inject_Z cost else 0
      else 0) + (now' - now) * refill_rate c).
Proof.
  intros Hwf Hcost Hle. rewrite tb_acquire_level. simpl.
  pose proof (tb_spent_bounds now st key cost Hwf Hcost) as Hlv. simpl in Hlv.
  rewrite level_write by auto using tb_cap_pos, tb_rate_pos.
  case_decide; [subst|].
  - unfold refill. case_match; apply py_min_proper; lra.
  - rewrite (level_later _ _ tb_cap_pos tb_rate_pos now) by done.
    apply py_min_proper; lra.
Qed.

(** The relation between the stored map and the ideal bucket. *)
Definition tb_related st s : Prop :=
  tb_wf (ib_now s) st /\
  forall k, tb_level st k (ib_now s) == ib_level s k.

Lemma tb_related_at st s now k :
  tb_related st s -> ib_now s <= now -> tb_level st k now == ideal_at c s k now.
Proof.
  intros [Hwf Hlv] Hle. unfold ideal_at.
  by rewrite (level_later _ _ tb_cap_pos tb_rate_pos (ib_now s)), Hlv.
Qed.

Lemma ideal_result_equiv ok lv lv' wanted :
  0 <= lv -> lv == lv' ->
  result_equiv
    (mkResult ok (capacity c) (py_int lv)
       (if ok then 0 else (wanted - lv) / refill_rate c)
       ((tb_cap c - lv) / refill_rate c))
    (ideal_result c ok lv' wanted).
Proof.
  intros H0 E. unfold result_equiv, ideal_result; simpl.
  rewrite py_int_nonneg by done.
  split; [done|]. split; [done|]. split; [by rewrite E|].
  split; [destruct ok; [done|by rewrite E]|by rewrite E].
Qed.

(** One operation of the strategy simulates one operation of the ideal
    bucket, with an indistinguishable result. *)
Lemma tb_exec_sim o rest st s :
  tb_related st s -> ops_ok (capacity c) (ib_now s) (o :: rest) ->
  tb_related (tb_exec c o st).2 (ideal_exec c o s).2 /\
  option_Forall2 result_equiv (tb_exec c o st).1 (ideal_exec c o s).1 /\
  ops_ok (capacity c) (ib_now (ideal_exec c o s).2) rest.
Proof.
  intros HR Hok. pose proof HR as [Hwf Hlv].
  destruct o as [key cost now|key now|key]; simpl in Hok.
  - destruct Hok as (Hle & Hcost & Hok).
    pose proof (bucket_wf_mono _ _ _ _ Hle Hwf) as Hwf'.
    pose proof (tb_related_at st s now key HR Hle) as E.
    pose proof (tb_spent_bounds now st key cost Hwf' ltac:(lia)) as Hb.
    assert ((tb_level st key now >=? inject_Z cost)%py =
            (ideal_at c s key now >=? inject_Z cost)%py) as Eb by (by rewrite E).
    simpl in *. rewrite tb_acquire_level. simpl. rewrite Eb in *.
    set (ok := (ideal_at c s key now >=? inject_Z cost)%py) in *.
    assert ((if ok then tb_level st key now - inject_Z cost
             else tb_level st key now) ==
            (if ok then ideal_at c s key now - inject_Z cost
             else ideal_at c s key now)) as E' by (destruct ok; by rewrite E).
    split; [split|split; [|done]].
    + apply write_wf; auto using tb_cap_pos, tb_rate_pos.
    + intros k. simpl.
      rewrite level_write by (auto using tb_cap_pos, tb_rate_pos; lra).
      case_decide; [|by apply tb_related_at].
      rewrite refill_now by (auto using tb_cap_pos, tb_rate_pos; lra). done.
    + constructor. destruct ok.
      * apply (ideal_result_equiv true _ _ (inject_Z cost)); [apply Hb|done].
      * apply (ideal_result_equiv false _ _ (inject_Z cost)); [apply Hb|done].
  - destruct Hok as (Hle & Hok). split; [done|].
    pose proof (bucket_wf_mono _ _ _ _ Hle Hwf) as Hwf'.
    pose proof (tb_related_at st s now key HR Hle) as E.
    pose proof (level_bounds _ _ tb_cap_pos tb_rate_pos now st key Hwf').
    split.
    + constructor. rewrite tb_peek_level. simpl.
      assert ((tb_level st key now >=? 1)%py = (ideal_at c s key now >=? 1)%py)
        as -> by (by rewrite E).
      apply ideal_result_equiv; [lra|done].
    + by eapply ops_ok_mono.
  - simpl in *. split; [split|done].
    + by apply map_Forall_delete.
    + intros k. simpl. unfold level, bucket_get, tb_reset. case_decide.
      * subst. rewrite lookup_delete_eq. simpl. apply refill_now. lra.
      * rewrite lookup_delete_ne by done. apply Hlv.
Qed.

(** Every run of the lazy, evicting strategy is a run of the ideal bucket. *)
Lemma tb_run_sim ops st s :
  tb_related st s -> ops_ok (capacity c) (ib_now s) ops ->
  Forall2 (option_Forall2 result_equiv)
    (run (tb_exec c) ops st).1 (run (ideal_exec c) ops s).1.
Proof.
  revert st s. induction ops as [|o ops IH]; intros st s HR Hok; [constructor|].
  destruct (tb_exec_sim o ops st s HR Hok) as (HR' & Hres & Hok').
  simpl. destruct (tb_exec c o st) as [r st'], (ideal_exec c o s) as [r' s'].
  simpl in *. specialize (IH st' s' HR' Hok').
  destruct (run (tb_exec c) ops st'), (run (ideal_exec c) ops s').
  by constructor.
Qed.

Lemma tb_related_fresh now : tb_related ∅ (mkIdeal now (fun _ => tb_cap c)).
Proof.
  split; [by intros ???%lookup_empty_Some|]. intros k. simpl.
  unfold level, bucket_get. rewrite lookup_empty. simpl.
  apply refill_now; solve [auto using tb_cap_pos, tb_rate_pos | lra].
Qed.

(** Conservation: admitted cost plus what is left never exceeds what was
    there plus what was refilled. *)
Lemma tb_admitted_level key ops st t :
  tb_wf t st -> ops_ok (capacity c) t ops -> no_reset key ops ->
  inject_Z (admitted (tb_exec c) key ops st) <=
  tb_level st key t + (end_time t ops - t) * refill_rate c.
Proof.
  revert st t. induction ops as [|o ops IH]; intros st t Hwf Hok Hnr.
  { simpl. qz. pose proof (level_bounds _ _ tb_cap_pos tb_rate_pos t st key Hwf).
    lra. }
  destruct o as [k cost now|k now|k]; simpl in Hok, Hnr |- *.
  - destruct Hok as (Hle & Hcost & Hok).
    pose proof (bucket_wf_mono _ _ _ _ Hle Hwf) as Hwf'.
    pose proof (tb_acquire_wf t now st k cost Hwf Hle ltac:(lia)) as Hwf''.
    specialize (IH _ now Hwf'' Hok Hnr).
    pose proof (tb_acquire_later now now st k cost key Hwf' ltac:(lia)
                  (Qle_refl _)) as Hl.
    pose proof (level_later _ _ tb_cap_pos tb_rate_pos t now st key Hwf Hle) as Ht.
    destruct (tb_acquire c k cost now st) as [r st'] eqn:E. simpl in *.
    rewrite inject_Z_plus. rewrite Hl, Ht in IH. clear Hl Ht.
    destruct (decide (key = k)), (decide (k = key)); try congruence;
      destruct (allowed r); qz; repeat qcase1; lra.
  - destruct Hok as (Hle & Hok).
    specialize (IH st now (bucket_wf_mono _ _ _ _ Hle Hwf) Hok Hnr).
    rewrite (level_later _ _ tb_cap_pos tb_rate_pos t now) in IH by done.
    change (inject_Z (0 + admitted (tb_exec c) key ops st)) with
      (inject_Z (admitted (tb_exec c) key ops st)).
    qcase1; nra.
  - destruct Hnr as [Hne Hnr].
    specialize (IH (tb_reset k st) t ltac:(by apply map_Forall_delete) Hok Hnr).
    change (inject_Z (0 + ?x)) with (inject_Z x).
    unfold level, bucket_get, tb_reset in IH |- *.
    by rewrite lookup_delete_ne in IH.
Qed.
End TokenBucketTheory.

(** ** Theory of the GCRA strategy *)

Section GcraTheory.
Context (c : SlidingWindowConfig) (Hc : sw_config_valid c).
Implicit Types (st : gmap string Q) (key : string) (now : Q).
Abbreviation ei := (emission_interval c).

Lemma sw_limit_pos : 0 < inject_Z (sw_limit c).
Proof. apply (proj1 (inject_Z_pos _)), Hc. Qed.

Lemma ei_pos : 0 < ei.
Proof.
  unfold emission_interval. apply Qlt_shift_div_l; [apply sw_limit_pos|].
  destruct Hc. lra.
Qed.

Lemma window_ei : window c == ei * inject_Z (sw_limit c).
Proof.
  pose proof sw_limit_pos. unfold emission_interval. field. lra.
Qed.

(** Theoretical arrival time of a key, never in the past. *)
Definition eff_tat st key now : Q := py_max (default now (st !! key)) now.

(** Evicting a stale arrival time changes nothing from then on. *)
Lemma eff_tat_evict now now' st key :
  now <= now' -> eff_tat (gcra_evict now st) key now' == eff_tat st key now'.
Proof.
  intros Hle. unfold eff_tat, gcra_evict. case_match; [done|].
  rewrite map_lookup_filter. destruct (st !! key) as [tat|]; [|done]. simpl.
  case_guard as G; [done|]. simpl.
  destruct (Qlt_bool_spec tat now); [|by destruct G]. repeat qcase1; lra.
Qed.

Lemma eff_tat_later now now' st key :
  now <= now' -> eff_tat st key now' == py_max (eff_tat st key now) now'.
Proof.
  intros Hle. unfold eff_tat. destruct (st !! key); simpl; repeat qcase1; lra.
Qed.

(** Requests left before rejection, as the strategy rounds it. *)
Definition quota st key now : Z :=
  Qfloor ((now - (eff_tat st key now - window c)) / ei + (1 # 2)).

Lemma floor_sub_cost x cost :
  Qfloor ((x - ei * inject_Z cost) / ei + (1 # 2)) =
  (Qfloor (x / ei + (1 # 2)) - cost)%Z.
Proof.
  pose proof ei_pos.
  assert ((x - ei * inject_Z cost) / ei + (1 # 2) ==
          (x / ei + (1 # 2)) - inject_Z cost) as -> by (field; lra).
  set (y := x / ei + (1 # 2)). apply Z.le_antisymm.
  - enough (Qfloor (y - inject_Z cost) + cost <= Qfloor y)%Z by lia.
    apply Qfloor_ge. rewrite inject_Z_plus.
    pose proof (Qfloor_le (y - inject_Z cost)). lra.
  - apply Qfloor_ge. unfold Z.sub. rewrite inject_Z_plus, inject_Z_opp.
    pose proof (Qfloor_le y). lra.
Qed.

(** [acquire] in terms of the quota: cost units are taken from it. *)
Lemma gcra_acquire_quota key cost now st :
  let st1 := gcra_evict now st in
  let r := gcra_acquire c key cost now st in
  allowed r.1 = (cost <=? quota st key now)%Z /\
  remaining r.1 = Z.max 0 (quota st key now - cost) /\
  (if allowed r.1
   then exists tat, tat == eff_tat st key now + ei * inject_Z cost /\
                    r.2 = <[key := tat]> st1
   else r.2 = st1).
Proof.
  intros st1 r.
  assert (Qfloor ((now - (py_max (default now (st1 !! key)) now +
            ei * inject_Z cost - window c)) / ei + (1 # 2)) =
          (quota st key now - cost)%Z) as Eq.
  { unfold quota. rewrite <- floor_sub_cost. apply Qfloor_comp.
    rewrite <- (eff_tat_evict now now st key) by apply Qle_refl.
    unfold eff_tat, st1. apply Qplus_comp; [|done]. apply Qmult_comp; [lra|done]. }
  subst r. unfold gcra_acquire. fold st1. rewrite Eq.
  destruct (Z.ltb_spec (quota st key now - cost) 0); simpl.
  - split; [symmetry; apply Z.leb_gt; lia|]. split; [lia|done].
  - split; [symmetry; apply Z.leb_le; lia|]. split; [lia|].
    eexists. split; [|done].
    rewrite <- (eff_tat_evict now now st key) by apply Qle_refl. done.
Qed.

(** No arrival time is further away than a window and half an interval. *)
Definition gcra_wf now st : Prop :=
  map_Forall (fun _ tat => tat <= now + window c + ei * (1 # 2)) st.

Lemma gcra_wf_mono now now' st : now <= now' -> gcra_wf now st -> gcra_wf now' st.
Proof. intros Hle Hwf k tat Hk. specialize (Hwf k tat Hk). simpl in *. lra. Qed.

Lemma gcra_evict_wf now st : gcra_wf now st -> gcra_wf now (gcra_evict now st).
Proof.
  intros Hwf. unfold gcra_evict. case_match; [done|].
  intros k tat [Hk _]%map_lookup_filter_Some. by apply (Hwf k).
Qed.

(** An admitted cost fits: its arrival time is within the bound. *)
Lemma quota_admit key cost now st :
  (cost <= quota st key now)%Z ->
  eff_tat st key now + ei * inject_Z cost <= now + window c + ei * (1 # 2).
Proof.
  unfold quota. intros H%Qfloor_ge. pose proof ei_pos.
  set (x := now - (eff_tat st key now - window c)) in *.
  assert (inject_Z cost - (1 # 2) <= x / ei) as H' by lra.
  apply (Qmult_le_r _ _ ei ltac:(lra)) in H'. rewrite Qdiv_mul in H' by lra.
  unfold x in H'. lra.
Qed.

Lemma gcra_acquire_wf now now' st key cost :
  gcra_wf now st -> now <= now' ->
  gcra_wf now' (gcra_acquire c key cost now' st).2.
Proof.
  intros Hwf Hle.
  pose proof (gcra_evict_wf now' st (gcra_wf_mono _ _ _ Hle Hwf)) as Hwf'.
  destruct (gcra_acquire_quota key cost now' st) as (Ha & _ & Hst).
  destruct (allowed _) eqn:E; [|by rewrite Hst].
  destruct Hst as (tat & Ht & ->). apply map_Forall_insert_2; [|done].
  symmetry in Ha. apply Z.leb_le, quota_admit in Ha. lra.
Qed.

(** Every admitted unit pushes the arrival time by one interval, and
    nothing pulls it back. *)
Lemma gcra_admitted_tat key ops st t :
  gcra_wf t st -> ops_ok (sw_limit c) t ops -> no_reset key ops ->
  let st' := (run (gcra_exec c) ops st).2 in
  eff_tat st key t + ei * inject_Z (admitted (gcra_exec c) key ops st) <=
    eff_tat st' key (end_time t ops) /\
  gcra_wf (end_time t ops) st'.
Proof.
  pose proof ei_pos as He.
  revert st t. induction ops as [|o ops IH]; intros st t Hwf Hok Hnr.
  { simpl. qz. split; [lra|done]. }
  destruct o as [k cost now|k now|k]; simpl in Hok, Hnr |- *.
  - destruct Hok as (Hle & Hcost & Hok).
    pose proof (gcra_acquire_wf t now st k cost Hwf Hle) as Hwf'.
    destruct (gcra_acquire_quota k cost now st) as (Ha & _ & Hst).
    specialize (IH _ now Hwf' Hok Hnr).
    destruct (gcra_acquire c k cost now st) as [r st1]. simpl in *.
    destruct (run (gcra_exec c) ops st1) as [rs st2]. simpl in *.
    destruct IH as [IH Hwf2]. split; [|done].
    rewrite inject_Z_plus.
    assert (eff_tat st key t <= eff_tat st key now) as Hmono.
    { rewrite (eff_tat_later t now) by done. qcase1; lra. }
    enough (eff_tat st key now +
            ei * inject_Z (if decide (k = key) then if allowed r then cost else 0%Z
                           else 0%Z) <= eff_tat st1 key now) by lra.
    rewrite <- (eff_tat_evict now now st key) by apply Qle_refl.
    destruct (allowed r).
    + destruct Hst as (tat & Ht & ->). case_decide.
      * subst. rewrite <- (eff_tat_evict now now st key) in Ht by apply Qle_refl.
        rewrite <- Ht. unfold eff_tat at 1. rewrite lookup_insert_eq. simpl.
        qcase1; lra.
      * qz. unfold eff_tat. rewrite lookup_insert_ne by done. lra.
    + subst st1. case_decide; qz; lra.
  - destruct Hok as (Hle & Hok).
    specialize (IH st now (gcra_wf_mono _ _ _ Hle Hwf) Hok Hnr).
    destruct (run (gcra_exec c) ops st) as [rs st2]. simpl in *.
    rewrite Z.add_0_l. rewrite (eff_tat_later t now) in IH by done.
    destruct IH as [IH ?]. split; [|done]. qcase1; lra.
  - destruct Hnr as [Hne Hnr].
    specialize (IH (gcra_reset k st) t ltac:(by apply map_Forall_delete) Hok Hnr).
    destruct (run (gcra_exec c) ops (gcra_reset k st)) as [rs st2]. simpl in *.
    rewrite Z.add_0_l. unfold eff_tat at 1, gcra_reset in IH.
    by rewrite lookup_delete_ne in IH.
Qed.

Lemma gcra_wf_eff now st key : gcra_wf now st -> eff_tat st key now <= now + window c + ei * (1 # 2).
Proof.
  intros Hwf. pose proof ei_pos. destruct Hc. unfold eff_tat.
  destruct (st !! key) as [tat|] eqn:E; simpl.
  - specialize (Hwf key tat E). simpl in Hwf. qcase1; lra.
  - qcase1; lra.
Qed.

(** [peek] reads the same quota. *)
Lemma gcra_peek_quota key now st :
  let r := gcra_peek c key now st in
  allowed r = (1 <=? quota st key now)%Z /\
  remaining r = Z.max 0 (quota st key now).
Proof.
  unfold gcra_peek. fold (eff_tat st key now). fold (quota st key now). simpl.
  destruct (Z.leb_spec (quota st key now) 0); simpl.
  - split; [symmetry; apply Z.leb_gt; lia|lia].
  - split; [symmetry; apply Z.leb_le; lia|lia].
Qed.

(** A rejection writes nothing and says how long the quota takes to cover
    the cost. *)
Lemma gcra_denied_retry key cost now now' st :
  allowed (gcra_acquire c key cost now st).1 = false ->
  now + retry_after (gcra_acquire c key cost now st).1 <= now' -> now <= now' ->
  (cost <= sw_limit c)%Z ->
  (cost <= quota (gcra_acquire c key cost now st).2 key now')%Z.
Proof.
  intros Hd Hr Hle Hcost. pose proof ei_pos as He.
  destruct (gcra_acquire_quota key cost now st) as (Ha & _ & Hst).
  rewrite Hd in Ha, Hst. rewrite Hst. unfold gcra_acquire in Hd, Hr.
  set (st1 := gcra_evict now st) in *.
  change (py_max (default now (st1 !! key)) now) with (eff_tat st1 key now) in *.
  case_match; [|done]. simpl in Hr. unfold quota. apply Qfloor_ge.
  rewrite (eff_tat_later now now') by done.
  set (e := eff_tat st1 key now) in *.
  assert (inject_Z cost <= (now' - (py_max e now' - window c)) / ei) as Hg.
  { apply Qle_shift_div_l; [done|]. apply inject_Z_le in Hcost.
    pose proof window_ei. repeat qcase1; nra. }
  lra.
Qed.
End GcraTheory.

(** ** The sliding window's specification

    An arrival time per key, as a total function: nothing is evicted, and
    [None] is a key that was never used (or was reset). *)
Definition ideal_tat (s : string -> option Q) (key : string) (now : Q) : Q :=
  match s key with Some tat => py_max tat now | None => now end.

Definition ideal_quota (c : SlidingWindowConfig) (s : string -> option Q)
    (key : string) (now : Q) : Z :=
  Qfloor ((now - (ideal_tat s key now - window c)) / emission_interval c + (1 # 2)).

Definition ideal_gcra_exec (c : SlidingWindowConfig) (o : limiter_op)
    (s : string -> option Q) : option RateLimitResult * (string -> option Q) :=
  match o with
  | OAcquire key cost now =>
      let q := ideal_quota c s key now in
      let tat := ideal_tat s key now in
      let tat' := tat + emission_interval c * inject_Z cost in
      if (cost <=? q)%Z then
        (Some (mkResult true (sw_limit c) (q - cost) 0 (tat' - now)),
         fun k => if decide (k = key) then Some tat' else s k)
      else
        (Some (mkResult false (sw_limit c) 0
                 (py_max 0 (tat' - window c - now)) (tat - now)), s)
  | OPeek key now =>
      let q := ideal_quota c s key now in
      let tat := ideal_tat s key now in
      let diff := now - (tat - window c) in
      (Some (mkResult (1 <=? q)%Z (sw_limit c) (Z.max 0 q)
               (if (1 <=? q)%Z then 0
                else py_max 0 (if (q <? 0)%Z then - diff
                               else emission_interval c - diff))
               (tat - now)), s)
  | OReset key => (None, fun k => if decide (k = key) then None else s k)
  end.

Section GcraRefinement.
Context (c : SlidingWindowConfig) (Hc : sw_config_valid c).
Implicit Types (st : gmap string Q) (s : string -> option Q).

Definition gcra_related (t : Q) st s : Prop :=
  forall k now, t <= now -> eff_tat st k now == ideal_tat s k now.

Lemma quota_ideal t st s key now :
  gcra_related t st s -> t <= now -> quota c st key now = ideal_quota c s key now.
Proof.
  intros HR Hle. unfold quota, ideal_quota. apply Qfloor_comp.
  by rewrite (HR key now Hle).
Qed.

Lemma gcra_related_evict t now st s :
  gcra_related t st s -> t <= now -> gcra_related now (gcra_evict now st) s.
Proof.
  intros HR Hle k now' Hle'. rewrite (eff_tat_evict now) by done.
  apply HR. lra.
Qed.

Lemma gcra_acquire_sim t key cost now st s :
  gcra_related t st s -> t <= now ->
  gcra_related now (gcra_acquire c key cost now st).2
    (ideal_gcra_exec c (OAcquire key cost now) s).2 /\
  option_Forall2 result_equiv (Some (gcra_acquire c key cost now st).1)
    (ideal_gcra_exec c (OAcquire key cost now) s).1.
Proof.
  intros HR Hle. pose proof (gcra_related_evict _ _ _ _ HR Hle) as HR1.
  pose proof (HR1 key now (Qle_refl _)) as E.
  destruct (gcra_acquire_quota c Hc key cost now st) as (Ha & Hrem & _).
  rewrite (quota_ideal t st s) in Ha, Hrem by done.
  unfold ideal_gcra_exec. unfold gcra_acquire in *.
  set (st1 := gcra_evict now st) in *.
  change (py_max (default now (st1 !! key)) now) with (eff_tat st1 key now) in *.
  destruct (_ <? 0)%Z; simpl in *; rewrite <- Ha; simpl.
  - split; [done|]. constructor. unfold result_equiv; simpl.
    split_and!; [done|done|done| |].
    + rewrite <- E. apply py_max_proper; [done|lra].
    + rewrite <- E. unfold eff_tat. repeat qcase1; lra.
  - split.
    + intros k now' Hle'. unfold eff_tat, ideal_tat. case_decide.
      * subst. rewrite lookup_insert_eq. simpl. by rewrite E.
      * rewrite lookup_insert_ne by done. by apply HR1.
    + constructor. unfold result_equiv; simpl. rewrite Hrem.
      symmetry in Ha. apply Z.leb_le in Ha.
      split_and!; [done|done|lia|done|by rewrite E].
Qed.

Lemma gcra_peek_sim t key now st s :
  gcra_related t st s -> t <= now ->
  option_Forall2 result_equiv (Some (gcra_peek c key now st))
    (ideal_gcra_exec c (OPeek key now) s).1.
Proof.
  intros HR Hle. pose proof (HR key now Hle) as E.
  destruct (gcra_peek_quota c key now st) as (Ha & Hrem).
  rewrite (quota_ideal t st s) in Ha, Hrem by done. simpl.
  rewrite <- Ha, <- Hrem. unfold gcra_peek in *.
  change (py_max (default now (st !! key)) now) with (eff_tat st key now) in *.
  fold (quota c st key now) in *. rewrite (quota_ideal t st s) in * by done.
  assert (eff_tat st key now - now == ideal_tat s key now - now) as E' by lra.
  constructor. unfold result_equiv. destruct (_ <=? 0)%Z; simpl in *.
  - split_and!; [done|done|done| |].
    + apply py_max_proper; [done|]. destruct (_ <? 0)%Z; lra.
    + rewrite <- E. unfold eff_tat. repeat qcase1; lra.
  - split_and!; [done|done|done|done|]. rewrite <- E. unfold eff_tat. repeat qcase1; lra.
Qed.

Lemma gcra_run_sim ops t st s :
  gcra_related t st s -> ops_ok (sw_limit c) t ops ->
  Forall2 (option_Forall2 result_equiv)
    (run (gcra_exec c) ops st).1 (run (ideal_gcra_exec c) ops s).1.
Proof.
  revert t st s. induction ops as [|o ops IH]; intros t st s HR Hok; [constructor|].
  enough (exists t', gcra_related t' (gcra_exec c o st).2 (ideal_gcra_exec c o s).2
    /\ option_Forall2 result_equiv (gcra_exec c o st).1 (ideal_gcra_exec c o s).1
    /\ ops_ok (sw_limit c) t' ops) as (t' & HR' & Hres & Hok').
  { cbn [run]. destruct (gcra_exec c o st) as [r st'], (ideal_gcra_exec c o s) as [r' s'].
    simpl in *. specialize (IH t' st' s' HR' Hok').
    destruct (run (gcra_exec c) ops st'), (run (ideal_gcra_exec c) ops s').
    by constructor. }
  destruct o as [key cost now|key now|key]; simpl in Hok.
  - destruct Hok as (Hle & Hcost & Hok). exists now.
    destruct (gcra_acquire_sim t key cost now st s HR Hle) as [H1 H2].
    unfold gcra_exec. by destruct (gcra_acquire c key cost now st).
  - destruct Hok as (Hle & Hok). exists t. split; [done|].
    split; [by eapply gcra_peek_sim|by eapply ops_ok_mono].
  - exists t. split; [|by split; [constructor|]]. intros k now Hle. simpl.
    unfold eff_tat, ideal_tat, gcra_reset. case_decide.
    + subst. rewrite lookup_delete_eq. simpl. qcase1; lra.
    + rewrite lookup_delete_ne by done. by apply HR.
Qed.
End GcraRefinement.

(** ** Properties *)

Definition cfg_tb : TokenBucketConfig := mkTokenBucketConfig 3 (1 # 2) false.
Definition cfg_sw : SlidingWindowConfig := mkSlidingWindowConfig 2 10 false.

Lemma cfg_tb_valid : tb_config_valid cfg_tb.
Proof. split; vm_compute; done. Qed.
Lemma cfg_sw_valid : sw_config_valid cfg_sw.
Proof. split; vm_compute; done. Qed.

(** C11 The in-memory token-bucket strategy, which refills lazily on access and
    evicts full keys above a threshold, is observationally the ideal bucket
    that refills continuously and forgets nothing: on every sequence of
    acquires, peeks and resets with a clock that does not go back, each
    result has the same decision, limit and remaining count and equal waiting
    times. *)
Theorem tb_refines_ideal_bucket c t ops :
  tb_config_valid c -> ops_ok (capacity c) t ops ->
  Forall2 (option_Forall2 result_equiv)
    (run (tb_exec c) ops ∅).1
    (run (ideal_exec c) ops (mkIdeal t (fun _ => tb_cap c))).1.
Proof. intros Hc Hok. apply tb_run_sim; [done|by apply tb_related_fresh|done]. Qed.

Definition demo_ops : list limiter_op :=
  [OAcquire "a" 2 0; OAcquire "b" 1 1; OAcquire "a" 2 1; OPeek "a" 2;
   OReset "b"; OAcquire "a" 2 4].

Lemma tb_refines_ideal_bucket_witness :
  Forall2 (option_Forall2 result_equiv)
    (run (tb_exec cfg_tb) demo_ops ∅).1
    (run (ideal_exec cfg_tb) demo_ops (mkIdeal 0 (fun _ => tb_cap cfg_tb))).1.
Proof.
  apply (tb_refines_ideal_bucket cfg_tb 0 demo_ops); vm_compute;
    repeat split; (discriminate || done).
Defined.

(** A token bucket never admits more than its capacity plus what it
    refills: over any run without a reset of the key, whatever other keys do
    and whatever is evicted, the total admitted cost is at most
    [capacity + refill_rate * elapsed]. *)
Lemma tb_admission_bound c key t ops st :
  tb_config_valid c -> bucket_wf (tb_cap c) t st ->
  ops_ok (capacity c) t ops -> no_reset key ops ->
  inject_Z (admitted (tb_exec c) key ops st) <=
  tb_cap c + (end_time t ops - t) * refill_rate c.
Proof.
  intros Hc Hwf Hok Hnr. pose proof (tb_admitted_level c Hc key ops st t Hwf Hok Hnr).
  pose proof (level_bounds _ _ (tb_cap_pos c Hc) (tb_rate_pos c Hc) t st key Hwf).
  lra.
Qed.

Lemma tb_admission_bound_witness :
  admitted (tb_exec cfg_tb) "a" demo_ops ∅ = 4%Z /\
  inject_Z (admitted (tb_exec cfg_tb) "a" demo_ops ∅) <=
  tb_cap cfg_tb + (end_time 0 demo_ops - 0) * refill_rate cfg_tb.
Proof.
  split; [by vm_compute|].
  apply (tb_admission_bound cfg_tb "a" 0 demo_ops ∅).
  - apply cfg_tb_valid.
  - apply bucket_wf_empty.
  - vm_compute; repeat split; (discriminate || done).
  - vm_compute; repeat split; (discriminate || done).
Defined.

(** A rejected token-bucket request carries an exact [retry_after]: at any
    later instant, and with no other request on the key, the same request is
    admitted if and only if [retry_after] seconds have passed. *)
Lemma tb_retry_after_exact c key cost now now' st :
  tb_config_valid c -> bucket_wf (tb_cap c) now st ->
  (1 <= cost <= capacity c)%Z -> now <= now' ->
  allowed (tb_acquire c key cost now st).1 = false ->
  allowed (tb_acquire c key cost now' (tb_acquire c key cost now st).2).1 = true
  <-> now + retry_after (tb_acquire c key cost now st).1 <= now'.
Proof.
  intros Hc Hwf Hcost Hle Hd.
  pose proof (tb_acquire_later c Hc now now' st key cost key Hwf ltac:(lia) Hle) as Hl.
  rewrite Hd, decide_True in Hl by done.
  rewrite (tb_acquire_level c key cost now') at 1. cbn -[tb_acquire]. rewrite Hl. clear Hl.
  rewrite tb_acquire_level in Hd |- *. cbn -[level] in *. rewrite Hd.
  pose proof (tb_rate_pos c Hc) as Hr.
  assert (inject_Z cost <= tb_cap c) by (unfold tb_cap; rewrite <- inject_Z_le; lia).
  set (lv := level _ _ st key now) in *.
  assert (now + (inject_Z cost - lv) / refill_rate c <= now' <->
          inject_Z cost <= lv + (now' - now) * refill_rate c) as ->.
  { pose proof (Qdiv_le_iff (inject_Z cost - lv) (now' - now) _ Hr) as [D1 D2].
    set (d := (inject_Z cost - lv) / refill_rate c) in *. split; intros G.
    - assert (d <= now' - now) as G' by lra. apply D1 in G'. lra.
    - enough (d <= now' - now) by lra. apply D2. lra. }
  destruct (Qle_bool_spec (inject_Z cost) lv) as [|Hlt]; [done|]. clear Hd.
  destruct (Qle_bool_spec (inject_Z cost)
    (py_min (tb_cap c) (lv - 0 + (now' - now) * refill_rate c))) as [H1|H1];
    qcase1; split; intros; solve [done | lra | exfalso; lra].
Qed.

Lemma tb_retry_after_exact_witness :
  let st := (tb_acquire cfg_tb "a" 3 0 ∅).2 in
  allowed (tb_acquire cfg_tb "a" 1 4 (tb_acquire cfg_tb "a" 1 1 st).2).1 = true.
Proof.
  intros st. apply (tb_retry_after_exact cfg_tb "a" 1 1 4 st).
  - apply cfg_tb_valid.
  - apply (bucket_wf_mono _ 0); [lra|].
    apply (tb_acquire_wf cfg_tb cfg_tb_valid 0); [apply bucket_wf_empty|lra|lia].
  - vm_compute. split; discriminate.
  - vm_compute. discriminate.
  - by vm_compute.
  - vm_compute. discriminate.
Defined.

(** The synchronous [MemoryTokenBucket] rejects a cost outside
    [(0, capacity]] with [ValueError] and without touching its state, and on
    every integer cost in range takes the decision of the asynchronous
    strategy and leaves the same state. *)
Lemma sync_bucket_agrees c b key cost now :
  MemoryTokenBucket.init (capacity c) (refill_rate c) = Return b ->
  forall st,
  MemoryTokenBucket.try_acquire key (inject_Z cost) now
    (MemoryTokenBucket.with_state b st) =
  if (cost <=? 0)%Z || (capacity c <? cost)%Z
  then (Raise (mk_exn ValueError (Message "cost")),
        MemoryTokenBucket.with_state b st)
  else (Return (allowed (tb_acquire c key cost now st).1),
        MemoryTokenBucket.with_state b (tb_acquire c key cost now st).2).
Proof.
  unfold MemoryTokenBucket.init. do 2 (case_match; [done|]). intros [= <-] st.
  unfold MemoryTokenBucket.try_acquire, tb_acquire, MemoryTokenBucket.with_state.
  simpl. fold (tb_cap c).
  assert ((inject_Z cost <=? 0)%py = (cost <=? 0)%Z) as ->.
  { destruct (Qle_bool_spec (inject_Z cost) 0), (Z.leb_spec cost 0); try done.
    - pose proof (proj1 (inject_Z_pos cost) ltac:(lia)). lra.
    - pose proof (proj1 (inject_Z_le cost 0) ltac:(lia)). qz. lra. }
  assert ((tb_cap c <? inject_Z cost)%py = (capacity c <? cost)%Z) as ->.
  { unfold tb_cap.
    destruct (Qlt_bool_spec (inject_Z (capacity c)) (inject_Z cost)) as [E|E],
      (Z.ltb_spec (capacity c) cost); try done.
    - rewrite <- inject_Z_lt in E. lia.
    - rewrite <- inject_Z_le in E. lia. }
  destruct (_ || _); [done|].
  destruct (bucket_get (tb_cap c) now key st) as [tk l].
  by destruct (refill _ _ tk l now >=? inject_Z cost)%py.
Qed.

Lemma sync_bucket_agrees_witness :
  let b := MemoryTokenBucket.mk 3 3 (1 # 2) ∅ in
  MemoryTokenBucket.try_acquire "a" (inject_Z 4) 0
    (MemoryTokenBucket.with_state b ∅) =
  (Raise (mk_exn ValueError (Message "cost")), MemoryTokenBucket.with_state b ∅).
Proof. intros b. apply (sync_bucket_agrees cfg_tb b "a" 4 0 eq_refl ∅). Defined.

(** GCRA with eviction is observationally GCRA without it: over any run
    the strategy answers like a total map of arrival times that forgets
    nothing. *)
Lemma gcra_refines_ideal c t ops :
  sw_config_valid c -> ops_ok (sw_limit c) t ops ->
  Forall2 (option_Forall2 result_equiv)
    (run (gcra_exec c) ops ∅).1 (run (ideal_gcra_exec c) ops (fun _ => None)).1.
Proof.
  intros Hc Hok. apply (gcra_run_sim c Hc ops t); [|done].
  intros k now Hle. unfold eff_tat, ideal_tat. rewrite lookup_empty. simpl.
  qcase1; lra.
Qed.

Lemma gcra_refines_ideal_witness :
  Forall2 (option_Forall2 result_equiv)
    (run (gcra_exec cfg_sw) demo_ops ∅).1
    (run (ideal_gcra_exec cfg_sw) demo_ops (fun _ => None)).1.
Proof.
  apply (gcra_refines_ideal cfg_sw 0 demo_ops); vm_compute;
    repeat split; (discriminate || done).
Defined.

(** The admission bound of the sliding window: over a run of duration [d]
    without a reset of the key, the admitted cost times the emission interval
    is at most [d] plus a window plus half an interval, that is at most
    [limit + 1/2 + d / interval] units. *)
Lemma gcra_admission_bound c key t ops st :
  sw_config_valid c -> gcra_wf c t st ->
  ops_ok (sw_limit c) t ops -> no_reset key ops ->
  emission_interval c * inject_Z (admitted (gcra_exec c) key ops st) <=
  (end_time t ops - t) + window c + emission_interval c * (1 # 2).
Proof.
  intros Hc Hwf Hok Hnr.
  destruct (gcra_admitted_tat c Hc key ops st t Hwf Hok Hnr) as [H1 H2].
  pose proof (gcra_wf_eff c Hc _ _ key H2).
  assert (t <= eff_tat st key t) by (unfold eff_tat; qcase1; lra).
  lra.
Qed.

Lemma gcra_admission_bound_witness :
  emission_interval cfg_sw *
    inject_Z (admitted (gcra_exec cfg_sw) "a" demo_ops ∅) <=
  (end_time 0 demo_ops - 0) + window cfg_sw + emission_interval cfg_sw * (1 # 2).
Proof.
  apply (gcra_admission_bound cfg_sw "a" 0 demo_ops ∅).
  - apply cfg_sw_valid.
  - intros k p Hp. by rewrite lookup_empty in Hp.
  - vm_compute; repeat split; (discriminate || done).
  - vm_compute; repeat split; (discriminate || done).
Defined.

(** [peek] predicts [acquire] exactly for both strategies: at the same
    instant a token-bucket request of cost 1 is admitted iff [peek] says so,
    and a sliding-window request of any cost of at least 1 is admitted iff it
    is at most the [remaining] count [peek] reports. *)
Lemma peek_predicts_acquire (tb : TokenBucketConfig) (sw : SlidingWindowConfig)
    key cost now (st : gmap string (Q * Q)) (gs : gmap string Q) :
  sw_config_valid sw -> (1 <= cost)%Z ->
  allowed (tb_acquire tb key 1 now st).1 = allowed (tb_peek tb key now st) /\
  allowed (gcra_acquire sw key cost now gs).1 =
    (cost <=? remaining (gcra_peek sw key now gs))%Z /\
  allowed (gcra_peek sw key now gs) =
    (1 <=? remaining (gcra_peek sw key now gs))%Z.
Proof.
  intros Hsw Hcost. split_and!.
  - by rewrite tb_acquire_level, tb_peek_level.
  - destruct (gcra_acquire_quota sw Hsw key cost now gs) as (-> & _).
    destruct (gcra_peek_quota sw key now gs) as [_ ->].
    apply eq_bool_prop_intro; rewrite !Is_true_true, !Z.leb_le; lia.
  - destruct (gcra_peek_quota sw key now gs) as [-> ->].
    apply eq_bool_prop_intro; rewrite !Is_true_true, !Z.leb_le; lia.
Qed.

Lemma peek_predicts_acquire_witness :
  allowed (tb_acquire cfg_tb "a" 1 7 ∅).1 = allowed (tb_peek cfg_tb "a" 7 ∅) /\
  allowed (gcra_acquire cfg_sw "a" 2 7 (<["a" := 12%Q]> ∅)).1 =
    (2 <=? remaining (gcra_peek cfg_sw "a" 7 (<["a" := 12%Q]> ∅)))%Z /\
  allowed (gcra_peek cfg_sw "a" 7 (<["a" := 12%Q]> ∅)) =
    (1 <=? remaining (gcra_peek cfg_sw "a" 7 (<["a" := 12%Q]> ∅)))%Z.
Proof.
  apply (peek_predicts_acquire cfg_tb cfg_sw "a" 2 7 ∅ (<["a" := 12%Q]> ∅)).
  - apply cfg_sw_valid.
  - lia.
Defined.

(** A sliding window of [limit] 2 over 10 seconds admits four requests of
    one key within eight seconds: the strategy is a meter that refills at one
    request per [window / limit] and rounds half an interval in the caller's
    favour, not a count of the requests of the last window. *)
Lemma sliding_window_over_admits :
  let ops := [OAcquire "a" 1 0; OAcquire "a" 1 0;
              OAcquire "a" 1 (5 # 2); OAcquire "a" 1 (15 # 2)] in
  ops_ok (sw_limit cfg_sw) 0 ops /\ end_time 0 ops < window cfg_sw /\
  admitted (gcra_exec cfg_sw) "a" ops ∅ = 4%Z /\ sw_limit cfg_sw = 2%Z.
Proof. by vm_compute. Qed.
