(* ===== verification/Dict.v ===== *)
(** * Ordered dictionaries

    A Python [dict] (or [OrderedDict]) whose iteration order the code relies
    on: an association list in insertion order.  Setting an existing key keeps
    its place, a new key goes last, as in Python. *)

From S2P Require Import Prelude.

Local Open Scope nat_scope.

Section Dict.
Context {K V : Type} `{EqDecision K}.
Implicit Types (d : list (K * V)) (k : K) (v : V).

(** [d.get(k)] *)
Fixpoint dict_get k d : option V :=
  match d with
  | [] => None
  | (k', v) :: d => if decide (k' = k) then Some v else dict_get k d
  end.

(** [d[k] = v] *)
Fixpoint dict_set k v d : list (K * V) :=
  match d with
  | [] => [(k, v)]
  | (k', v') :: d =>
      if decide (k' = k) then (k, v) :: d else (k', v') :: dict_set k v d
  end.

(** [d.pop(k, None)], without its result *)
Fixpoint dict_del k d : list (K * V) :=
  match d with
  | [] => []
  | (k', v') :: d => if decide (k' = k) then d else (k', v') :: dict_del k d
  end.

(** [d.move_to_end(k)] *)
Definition dict_move_to_end k d : list (K * V) :=
  match dict_get k d with
  | Some v => dict_del k d ++ [(k, v)]
  | None => d
  end.

(** Keys are unique. *)
Definition dict_wf d : Prop := NoDup d.*1.

Lemma dict_get_in k v d : dict_get k d = Some v -> (k, v) ∈ d.
Proof.
  induction d as [|[k' v'] d IH]; simpl; [done|]. case_decide; intros Hg.
  - simplify_eq. left.
  - right. auto.
Qed.

Lemma dict_get_none k d : dict_get k d = None <-> k ∉ d.*1.
Proof.
  induction d as [|[k' v'] d IH]; simpl; [split; [set_solver|done]|].
  rewrite not_elem_of_cons. case_decide; [naive_solver|].
  rewrite IH. naive_solver.
Qed.

Lemma dict_in_get k v d : dict_wf d -> (k, v) ∈ d -> dict_get k d = Some v.
Proof.
  unfold dict_wf. induction d as [|[k' v'] d IH]; simpl; [set_solver|].
  intros [Hnin Hnd]%NoDup_cons [[= -> ->]|Hin]%elem_of_cons.
  - by rewrite decide_True.
  - rewrite decide_False; [by apply IH|]. intros ->. apply Hnin.
    apply list_elem_of_fmap. by exists (k, v).
Qed.

Lemma dict_get_set k k' v d :
  dict_get k (dict_set k' v d) = if decide (k' = k) then Some v else dict_get k d.
Proof.
  induction d as [|[k1 v1] d IH]; simpl; [done|].
  destruct (decide (k1 = k')) as [->|]; simpl; repeat case_decide; congruence.
Qed.

Lemma dict_get_set_eq k v d : dict_get k (dict_set k v d) = Some v.
Proof. rewrite dict_get_set. by rewrite decide_True. Qed.

Lemma dict_get_set_ne k k' v d :
  k' <> k -> dict_get k (dict_set k' v d) = dict_get k d.
Proof. intros. rewrite dict_get_set. by rewrite decide_False. Qed.

Lemma dict_get_del_ne k k' d : k' <> k -> dict_get k (dict_del k' d) = dict_get k d.
Proof.
  intros Hne. induction d as [|[k1 v1] d IH]; simpl; [done|].
  destruct (decide (k1 = k')) as [->|]; simpl; repeat case_decide; congruence.
Qed.

Lemma dict_get_del_eq k d : dict_wf d -> dict_get k (dict_del k d) = None.
Proof.
  unfold dict_wf. induction d as [|[k1 v1] d IH]; simpl; [done|].
  intros [Hnin Hnd]%NoDup_cons. case_decide as E; simpl.
  - subst. by apply dict_get_none.
  - rewrite decide_False by done. auto.
Qed.

Lemma dict_get_del k k' d :
  dict_wf d ->
  dict_get k (dict_del k' d) = if decide (k' = k) then None else dict_get k d.
Proof.
  intros. case_decide as E; [subst; by apply dict_get_del_eq|].
  by apply dict_get_del_ne.
Qed.

Lemma dict_del_none k d : dict_get k d = None -> dict_del k d = d.
Proof.
  induction d as [|[k1 v1] d IH]; simpl; [done|]. case_decide; [done|].
  intros. by rewrite IH.
Qed.

Lemma dict_keys_set k v d x : x ∈ (dict_set k v d).*1 <-> x = k \/ x ∈ d.*1.
Proof.
  induction d as [|[k1 v1] d IH]; simpl; [by rewrite list_elem_of_singleton; set_solver|].
  case_decide; simpl; rewrite !elem_of_cons, ?IH; naive_solver.
Qed.

Lemma dict_keys_del k d x : x ∈ (dict_del k d).*1 -> x ∈ d.*1.
Proof.
  induction d as [|[k1 v1] d IH]; simpl; [done|].
  case_decide; simpl; rewrite ?elem_of_cons; naive_solver.
Qed.

Lemma dict_set_wf k v d : dict_wf d -> dict_wf (dict_set k v d).
Proof.
  unfold dict_wf. induction d as [|[k1 v1] d IH]; simpl.
  - intros _. apply NoDup_singleton.
  - intros [Hnin Hnd]%NoDup_cons. case_decide as E; simpl; apply NoDup_cons.
    + by subst.
    + split; [|auto]. rewrite dict_keys_set. naive_solver.
Qed.

Lemma dict_del_wf k d : dict_wf d -> dict_wf (dict_del k d).
Proof.
  unfold dict_wf. induction d as [|[k1 v1] d IH]; simpl; [done|].
  intros [Hnin Hnd]%NoDup_cons. case_decide; simpl; [done|].
  apply NoDup_cons. split; [|auto]. by intros Hk%dict_keys_del.
Qed.

Lemma dict_wf_nil : dict_wf [].
Proof. apply NoDup_nil_2. Qed.

Lemma dict_set_length k v d :
  length (dict_set k v d) =
  match dict_get k d with Some _ => length d | None => S (length d) end.
Proof.
  induction d as [|[k1 v1] d IH]; simpl; [done|]. case_decide; [done|].
  simpl. rewrite IH. by case_match.
Qed.

Lemma dict_del_length k d :
  length (dict_del k d) =
  match dict_get k d with Some _ => pred (length d) | None => length d end.
Proof.
  induction d as [|[k1 v1] d IH]; simpl; [done|]. case_decide; [done|].
  simpl. rewrite IH. case_match eqn:E; [|done]. destruct d; simpl in *; [done|lia].
Qed.

Lemma dict_del_in k d p : p ∈ dict_del k d -> p ∈ d.
Proof.
  induction d as [|[k1 v1] d IH]; simpl; [done|].
  case_decide; rewrite ?elem_of_cons; naive_solver.
Qed.

Lemma dict_get_app k d1 d2 :
  dict_get k (d1 ++ d2) =
  match dict_get k d1 with Some v => Some v | None => dict_get k d2 end.
Proof.
  induction d1 as [|[k1 v1] d1 IH]; simpl; [done|]. by case_decide.
Qed.

Lemma dict_move_to_end_get k k' d :
  dict_wf d -> dict_get k (dict_move_to_end k' d) = dict_get k d.
Proof.
  intros Hwf. unfold dict_move_to_end.
  destruct (dict_get k' d) as [v|] eqn:E; [|done].
  rewrite dict_get_app, dict_get_del by done. simpl.
  destruct (decide (k' = k)) as [->|]; [by rewrite E|].
  by destruct (dict_get k d).
Qed.

Lemma dict_move_to_end_wf k d : dict_wf d -> dict_wf (dict_move_to_end k d).
Proof.
  intros Hwf. unfold dict_move_to_end. case_match; [|done].
  unfold dict_wf. rewrite fmap_app. apply NoDup_app. split_and!.
  - by apply dict_del_wf.
  - intros x Hx. simpl. rewrite list_elem_of_singleton. intros ->.
    apply dict_get_none in Hx; [done|]. by apply dict_get_del_eq.
  - apply NoDup_singleton.
Qed.

Lemma dict_move_to_end_length k d : length (dict_move_to_end k d) = length d.
Proof.
  unfold dict_move_to_end. case_match eqn:E; [|done].
  rewrite length_app, dict_del_length, E. simpl.
  destruct d; simpl in *; [done|lia].
Qed.
Lemma dict_filter_keys (P : K * V -> bool) d k :
  k ∈ (List.filter P d).*1 -> k ∈ d.*1.
Proof.
  rewrite !list_elem_of_fmap. intros (kv & -> & Hin). exists kv. split; [done|].
  apply list_elem_of_In in Hin. apply List.filter_In in Hin as [Hin _]. by apply list_elem_of_In.
Qed.

Lemma dict_filter_wf (P : K * V -> bool) d : dict_wf d -> dict_wf (List.filter P d).
Proof.
  unfold dict_wf. induction d as [|kv d IH]; simpl; [done|]. intros [Hnin Hnd]%NoDup_cons.
  destruct (P kv); [|by apply IH]. simpl. constructor; [|by apply IH].
  intros Hin. by apply Hnin, (dict_filter_keys P).
Qed.

Lemma dict_get_filter (P : K * V -> bool) k d :
  dict_wf d -> dict_get k (List.filter P d) =
  match dict_get k d with Some v => if P (k, v) then Some v else None | None => None end.
Proof.
  unfold dict_wf. induction d as [|[k' v'] d IH]; simpl; [done|]. intros [Hnin Hnd]%NoDup_cons.
  destruct (P (k', v')) eqn:EP; simpl; case_decide as E; subst; rewrite ?EP; auto.
  apply dict_get_none. intros Hin. by apply Hnin, (dict_filter_keys P).
Qed.

End Dict.

(** [dict] proves that keys stay unique. *)
Create HintDb dict.
#[export] Hint Resolve dict_set_wf dict_del_wf dict_move_to_end_wf dict_wf_nil : dict.
