(* ===== verification/CircuitMemory.v ===== *)
(** * In-memory circuit breaker

    [grelmicro/resilience/circuitbreaker/memory.py]: the per-name state, the
    adapter that holds the states of every breaker in one dictionary, and the
    consecutive-count strategy bound to one name of it.  The methods never
    await, so each is one atomic step on the adapter's dictionary; [now] is
    the [monotonic()] the method reads. *)

From S2P Require Import Prelude Errors Dict.

Local Open Scope Z_scope.

Inductive CircuitBreakerState : Type :=
| CLOSED | OPEN | HALF_OPEN | FORCED_OPEN | FORCED_CLOSED.

#[export] Instance CircuitBreakerState_eq_dec : EqDecision CircuitBreakerState.
Proof. solve_decision. Defined.

(** [ConsecutiveCountConfig] *)
Record ConsecutiveCountConfig : Type := mkConsecutiveCountConfig {
  ignore_exceptions : list exn_class;
  error_threshold : Z;
  success_threshold : Z;
  reset_timeout : Q;
  half_open_capacity : Z;
  log_level : string;
}.

(** What pydantic enforces on it. *)
Definition cc_valid (c : ConsecutiveCountConfig) : Prop :=
  0 < error_threshold c /\ 0 < success_threshold c /\
  (0 < reset_timeout c)%Q /\ 0 < half_open_capacity c.

Definition STATE_TTL : Q := 86400.
Definition STATE_TTL_RESET_FACTOR : Q := 10.

(** [_resolve_state_ttl] *)
Definition resolve_state_ttl (reset_timeout : Q) : Q :=
  py_max STATE_TTL (STATE_TTL_RESET_FACTOR * reset_timeout)%Q.

Definition CULL_LIMIT : nat := 32.

(** [_NEVER] is a deadline no clock reaches. *)
Inductive deadline : Type := At (t : Q) | Never.

(** [now >= expires_at] *)
Definition expired (now : Q) (d : deadline) : bool :=
  match d with At t => (now >=? t)%py | Never => false end.

(** [_BreakerState] *)
Record BreakerState : Type := mkBreaker {
  b_state : CircuitBreakerState;
  opened_at : Q;
  cool_down : Q;
  consecutive_error_count : Z;
  consecutive_success_count : Z;
  half_open_admit : Z;
  expires_at : deadline;
}.

(** The dataclass defaults with a deadline. *)
Definition fresh_state (exp : deadline) : BreakerState :=
  mkBreaker CLOSED 0 0 0 0 0 exp.

(** [CircuitBreakerSnapshot] *)
Record CircuitBreakerSnapshot : Type := mkSnapshot {
  sn_state : CircuitBreakerState;
  sn_opened_at : Q;
  sn_errors : Z;
  sn_successes : Z;
}.

Definition snapshot_of (s : BreakerState) : CircuitBreakerSnapshot :=
  mkSnapshot (b_state s) (opened_at s) (consecutive_error_count s)
    (consecutive_success_count s).

Definition DEFAULT_SNAPSHOT : CircuitBreakerSnapshot := mkSnapshot CLOSED 0 0 0.

(** The adapter's [_states]. *)
Abbreviation states := (list (string * BreakerState)).

(** [__aexit__] *)
Definition adapter_clear (st : states) : states := [].

(** [_MemoryConsecutiveCountStrategy]: what [bind] stores. *)
Record Strategy : Type := mkStrategy {
  s_name : string;
  s_config : ConsecutiveCountConfig;
  open_ttl : Q;
}.

Definition bind (name : string) (config : ConsecutiveCountConfig) : Strategy :=
  mkStrategy name config (resolve_state_ttl (reset_timeout config)).

(** [_cull], over the snapshot [list(self._states.items())]. *)
Fixpoint cull_loop (name : string) (now : Q) (items : states) (reclaimed : nat)
    (st : states) : states :=
  match items with
  | [] => st
  | (n, s) :: items =>
      if (CULL_LIMIT <=? reclaimed)%nat then st
      else if negb (bool_decide (n = name)) && expired now (expires_at s)
      then cull_loop name now items (S reclaimed) (dict_del n st)
      else cull_loop name now items reclaimed st
  end.

Definition cull (name : string) (now : Q) (st : states) : states :=
  cull_loop name now st 0 st.

(** [_live]: the live entry, created (and the map culled) when missing or
    expired.  The entry returned is the one stored under the name, so the
    callers below store back what they mutate. *)
Definition live (b : Strategy) (now : Q) (st : states) : BreakerState * states :=
  let fresh :=
    let s := fresh_state (At (now + STATE_TTL)) in
    (s, cull (s_name b) now (dict_set (s_name b) s st)) in
  match dict_get (s_name b) st with
  | None => fresh
  | Some s => if expired now (expires_at s) then fresh else (s, st)
  end.

(** [_close] *)
Definition close (b : Strategy) (st : states) : CircuitBreakerSnapshot * states :=
  (DEFAULT_SNAPSHOT, dict_del (s_name b) st).

(** [_admit_recovering] *)
Definition admit_recovering (b : Strategy) (now : Q) (s : BreakerState)
    (st : states) : bool * states :=
  if expired now (expires_at s) then (true, (live b now st).2)
  else
    let half_open :=
      match b_state s with
      | OPEN =>
          if (now <? opened_at s + cool_down s)%py then None
          else Some (mkBreaker HALF_OPEN 0 0 0 0 0 (At (now + STATE_TTL)))
      | _ => Some s
      end in
    match half_open with
    | None => (false, st)
    | Some s =>
        if (half_open_admit s <? half_open_capacity (s_config b))%Z then
          (true, dict_set (s_name b)
             (mkBreaker (b_state s) (opened_at s) (cool_down s)
                (consecutive_error_count s) (consecutive_success_count s)
                (half_open_admit s + 1) (At (now + STATE_TTL))) st)
        else (false, dict_set (s_name b) s st)
    end.

(** [try_acquire] *)
Definition try_acquire (b : Strategy) (now : Q) (st : states) : bool * states :=
  match dict_get (s_name b) st with
  | None => (true, st)
  | Some s =>
      match b_state s with
      | CLOSED | FORCED_CLOSED => (true, st)
      | FORCED_OPEN => (false, st)
      | OPEN | HALF_OPEN => admit_recovering b now s st
      end
  end.

(** [record_outcome], the branch where the call succeeded: the counters, and
    whether the circuit closes. *)
Definition on_success (b : Strategy) (now : Q) (s : BreakerState) :
    option BreakerState :=
  let succ := consecutive_success_count s + 1 in
  let slots :=
    if bool_decide (b_state s = HALF_OPEN) && (0 <? half_open_admit s)
    then half_open_admit s - 1 else half_open_admit s in
  if bool_decide (b_state s = HALF_OPEN)
     && (success_threshold (s_config b) <=? succ)
  then None
  else Some (mkBreaker (b_state s) (opened_at s) (cool_down s) 0 succ slots
               (At (now + STATE_TTL))).

(** [record_outcome], the branch where the call failed. *)
Definition on_failure (b : Strategy) (now : Q) (s : BreakerState) : BreakerState :=
  let errs := consecutive_error_count s + 1 in
  let slots :=
    if bool_decide (b_state s = HALF_OPEN) && (0 <? half_open_admit s)
    then half_open_admit s - 1 else half_open_admit s in
  if error_threshold (s_config b) <=? errs
  then mkBreaker OPEN now (reset_timeout (s_config b)) 0 0 0
         (At (now + open_ttl b))
  else mkBreaker (b_state s) (opened_at s) (cool_down s) errs 0 slots
         (At (now + STATE_TTL)).

(** [record_outcome] *)
Definition record_outcome (b : Strategy) (success : bool) (now : Q)
    (st : states) : CircuitBreakerSnapshot * states :=
  let '(s, st) := live b now st in
  match b_state s with
  | FORCED_OPEN | FORCED_CLOSED | OPEN => (snapshot_of s, st)
  | CLOSED | HALF_OPEN =>
      if success then
        match on_success b now s with
        | None => close b st
        | Some s => (snapshot_of s, dict_set (s_name b) s st)
        end
      else
        let s := on_failure b now s in
        (snapshot_of s, dict_set (s_name b) s st)
  end.

(** [transition] *)
Definition transition (b : Strategy) (desired : CircuitBreakerState)
    (cool_down : option Q) (now : Q) (st : states) : states :=
  match desired with
  | CLOSED => (close b st).2
  | OPEN =>
      let '(_, st) := live b now st in
      let cd := default (reset_timeout (s_config b)) cool_down in
      let ttl :=
        match cool_down with None => open_ttl b | Some c => resolve_state_ttl c end in
      dict_set (s_name b) (mkBreaker OPEN now cd 0 0 0 (At (now + ttl))) st
  | HALF_OPEN =>
      let '(_, st) := live b now st in
      dict_set (s_name b) (mkBreaker HALF_OPEN 0 0 0 0 0 (At (now + STATE_TTL))) st
  | FORCED_OPEN | FORCED_CLOSED =>
      let '(_, st) := live b now st in
      dict_set (s_name b) (mkBreaker desired 0 0 0 0 0 Never) st
  end.

(** [get_snapshot] *)
Definition get_snapshot (b : Strategy) (now : Q) (st : states) :
    CircuitBreakerSnapshot :=
  match dict_get (s_name b) st with
  | None => DEFAULT_SNAPSHOT
  | Some s =>
      if expired now (expires_at s) then DEFAULT_SNAPSHOT else snapshot_of s
  end.

(** ** Operations of one adapter, by any breaker bound to it *)

Inductive operation : Type :=
| Acquire
| Record_ (success : bool)
| Transition (desired : CircuitBreakerState) (cool_down : option Q)
| Snapshot.

Record event : Type := mkEvent {
  e_name : string;
  e_config : ConsecutiveCountConfig;
  e_now : Q;
  e_op : operation;
}.

Inductive result : Type :=
| Admitted_ (b : bool)
| Snap (s : CircuitBreakerSnapshot)
| Done.

Definition exec_op (b : Strategy) (now : Q) (o : operation) (st : states) :
    result * states :=
  match o with
  | Acquire => let '(r, st) := try_acquire b now st in (Admitted_ r, st)
  | Record_ success => let '(r, st) := record_outcome b success now st in (Snap r, st)
  | Transition d cd => (Done, transition b d cd now st)
  | Snapshot => (Snap (get_snapshot b now st), st)
  end.

Definition exec (e : event) (st : states) : result * states :=
  exec_op (bind (e_name e) (e_config e)) (e_now e) (e_op e) st.

(** Events happen at the instants of a clock that never goes back. *)
Fixpoint timed (now : Q) (es : list event) : Prop :=
  match es with
  | [] => True
  | e :: es => (now <= e_now e)%Q /\ cc_valid (e_config e) /\ timed (e_now e) es
  end.

(** ** The specification: one circuit per name

    What the adapter promises of one circuit, with no dictionary, no shared
    entry, no sweep and no lazily reclaimed entry in sight. *)
Inductive circuit : Type :=
| Closed (errors successes : Z)
| Tripped (since wait : Q)
| Probing (errors successes in_flight : Z)
| Held (open : bool).

Definition circuit_snapshot (c : circuit) : CircuitBreakerSnapshot :=
  match c with
  | Closed e s => mkSnapshot CLOSED 0 e s
  | Tripped since _ => mkSnapshot OPEN since 0 0
  | Probing e s _ => mkSnapshot HALF_OPEN 0 e s
  | Held true => mkSnapshot FORCED_OPEN 0 0 0
  | Held false => mkSnapshot FORCED_CLOSED 0 0 0
  end.

(** A circuit with the instant it is forgotten. *)
Definition circuit_view (t : Q) (cd : circuit * deadline) : circuit :=
  if expired t cd.2 then Closed 0 0 else cd.1.

Definition kept (now : Q) (c : circuit) : circuit * deadline :=
  (c, At (now + STATE_TTL)).

Definition circuit_acquire (cfg : ConsecutiveCountConfig) (now : Q) (c : circuit) :
    bool * option (circuit * deadline) :=
  match c with
  | Closed _ _ => (true, None)
  | Held open => (negb open, None)
  | Tripped since wait =>
      if (now <? since + wait)%py then (false, None)
      else (true, Some (kept now (Probing 0 0 1)))
  | Probing e s k =>
      if k <? half_open_capacity cfg
      then (true, Some (kept now (Probing e s (k + 1)))) else (false, None)
  end.

Definition tripped (cfg : ConsecutiveCountConfig) (now : Q) : circuit * deadline :=
  (Tripped now (reset_timeout cfg),
   At (now + resolve_state_ttl (reset_timeout cfg))).

Definition circuit_record (cfg : ConsecutiveCountConfig) (success : bool) (now : Q)
    (c : circuit) : option (circuit * deadline) :=
  match c, success with
  | Closed _ s, true => Some (kept now (Closed 0 (s + 1)))
  | Closed e _, false =>
      Some (if error_threshold cfg <=? e + 1 then tripped cfg now
            else kept now (Closed (e + 1) 0))
  | Probing _ s k, true =>
      Some (kept now (if success_threshold cfg <=? s + 1 then Closed 0 0
                      else Probing 0 (s + 1) (Z.max 0 (k - 1))))
  | Probing e _ k, false =>
      Some (if error_threshold cfg <=? e + 1 then tripped cfg now
            else kept now (Probing (e + 1) 0 (Z.max 0 (k - 1))))
  | (Tripped _ _ | Held _), _ => None
  end.

Definition circuit_transition (cfg : ConsecutiveCountConfig)
    (desired : CircuitBreakerState) (cool_down : option Q) (now : Q) :
    circuit * deadline :=
  match desired with
  | CLOSED => kept now (Closed 0 0)
  | OPEN =>
      let wait := default (reset_timeout cfg) cool_down in
      (Tripped now wait, At (now + resolve_state_ttl wait))
  | HALF_OPEN => kept now (Probing 0 0 0)
  | FORCED_OPEN => (Held true, Never)
  | FORCED_CLOSED => (Held false, Never)
  end.

(** The circuits of every name. *)
Definition circuits : Type := string -> circuit * deadline.

Definition no_circuits : circuits := fun _ => (Closed 0 0, Never).

Definition put (n : string) (cd : circuit * deadline) (m : circuits) : circuits :=
  fun n' => if decide (n' = n) then cd else m n'.

Definition put_opt (n : string) (o : option (circuit * deadline)) (m : circuits) :
    circuits :=
  match o with Some cd => put n cd m | None => m end.

Definition spec_exec (e : event) (m : circuits) : result * circuits :=
  let cfg := e_config e in
  let now := e_now e in
  let n := e_name e in
  let c := circuit_view now (m n) in
  match e_op e with
  | Acquire => let '(r, o) := circuit_acquire cfg now c in (Admitted_ r, put_opt n o m)
  | Record_ success =>
      let o := circuit_record cfg success now c in
      (Snap (circuit_snapshot (default c (fst <$> o))), put_opt n o m)
  | Transition d cd => (Done, put n (circuit_transition cfg d cd now) m)
  | Snapshot => (Snap (circuit_snapshot c), m)
  end.

(** ** Abstraction *)

Definition circuit_of (s : BreakerState) : circuit :=
  match b_state s with
  | CLOSED => Closed (consecutive_error_count s) (consecutive_success_count s)
  | OPEN => Tripped (opened_at s) (cool_down s)
  | HALF_OPEN =>
      Probing (consecutive_error_count s) (consecutive_success_count s)
        (half_open_admit s)
  | FORCED_OPEN => Held true
  | FORCED_CLOSED => Held false
  end.

Definition entry_view (t : Q) (o : option BreakerState) : circuit :=
  match o with
  | Some s => circuit_view t (circuit_of s, expires_at s)
  | None => Closed 0 0
  end.

(** What every stored entry satisfies: the fields a state does not use are
    zero, and only a forced state has no deadline. *)
Definition wf_entry (s : BreakerState) : Prop :=
  match b_state s with
  | CLOSED =>
      opened_at s = 0%Q /\ cool_down s = 0%Q /\ half_open_admit s = 0 /\
      expires_at s <> Never
  | OPEN =>
      consecutive_error_count s = 0 /\ consecutive_success_count s = 0 /\
      half_open_admit s = 0 /\ expires_at s <> Never
  | HALF_OPEN =>
      opened_at s = 0%Q /\ cool_down s = 0%Q /\ 0 <= half_open_admit s /\
      expires_at s <> Never
  | FORCED_OPEN | FORCED_CLOSED =>
      opened_at s = 0%Q /\ cool_down s = 0%Q /\ half_open_admit s = 0 /\
      consecutive_error_count s = 0 /\ consecutive_success_count s = 0 /\
      expires_at s = Never
  end.

Definition wf_states (st : states) : Prop :=
  dict_wf st /\ forall n s, dict_get n st = Some s -> wf_entry s.

(** The dictionary implements the circuits, seen from [now] on. *)
Definition implements (now : Q) (st : states) (m : circuits) : Prop :=
  wf_states st /\
  forall n t, (now <= t)%Q -> entry_view t (dict_get n st) = circuit_view t (m n).

#[local] Arguments Nat.leb : simpl never.

(** ** Frame: what an operation leaves of the other names

    An entry of another name is either untouched or, when it had expired,
    swept. *)
Definition frame (now : Q) (name : string) (st st' : states) : Prop :=
  dict_wf st' /\
  forall n, n <> name ->
    dict_get n st' = dict_get n st \/
    (dict_get n st' = None /\
     exists s, dict_get n st = Some s /\ expired now (expires_at s) = true).

Lemma frame_refl now name st : dict_wf st -> frame now name st st.
Proof. intros. split; auto. Qed.

Lemma frame_trans now name st1 st2 st3 :
  frame now name st1 st2 -> frame now name st2 st3 -> frame now name st1 st3.
Proof.
  intros [_ H1] [Hwf H2]. split; [done|]. intros n Hn.
  destruct (H2 n Hn) as [E2|[E2 (s & Es & Hs)]];
    destruct (H1 n Hn) as [E1|[E1 (s' & Es' & Hs')]];
    rewrite E2; rewrite ?E1 in *; simplify_eq; eauto.
Qed.

Lemma frame_set now name s st :
  dict_wf st -> frame now name st (dict_set name s st).
Proof.
  intros. split; [by apply dict_set_wf|]. intros n Hn. left.
  by apply dict_get_set_ne.
Qed.

Lemma frame_del now name st : dict_wf st -> frame now name st (dict_del name st).
Proof.
  intros. split; [by apply dict_del_wf|]. intros n Hn. left.
  by apply dict_get_del_ne.
Qed.

Lemma frame_set_frame now name s st st' :
  frame now name st st' -> frame now name st (dict_set name s st').
Proof. intros F. eapply frame_trans; [done|]. apply frame_set, F. Qed.

Lemma expired_mono now t d : (now <= t)%Q -> expired now d = true -> expired t d = true.
Proof. intros H. destruct d as [x|]; simpl; [|done]. rewrite !Qle_bool_iff. lra. Qed.

Lemma expired_later now ttl : (0 < ttl)%Q -> expired now (At (now + ttl)) = false.
Proof. intros. simpl. qcases. Qed.

Lemma cull_loop_frame name now items r st :
  dict_wf st ->
  (forall p, p ∈ items -> dict_get p.1 st = Some p.2 \/ dict_get p.1 st = None) ->
  frame now name st (cull_loop name now items r st) /\
  dict_get name (cull_loop name now items r st) = dict_get name st.
Proof.
  revert r st. induction items as [|[n s] items IH]; intros r st Hwf Hin; simpl.
  { auto using frame_refl. }
  destruct (CULL_LIMIT <=? r)%nat; [auto using frame_refl|].
  destruct (bool_decide_reflect (n = name)) as [->|Hne]; simpl.
  { apply IH; [done|]. intros p Hp. apply Hin. by right. }
  destruct (expired now (expires_at s)) eqn:Hx; simpl.
  - destruct (IH (S r) (dict_del n st)) as [F E].
    + by apply dict_del_wf.
    + intros p Hp. rewrite dict_get_del by done. case_decide; [by right|].
      apply Hin. by right.
    + rewrite dict_get_del_ne in E by done. split; [|done].
      eapply frame_trans; [|done]. split; [by apply dict_del_wf|].
      intros n' Hn'. rewrite dict_get_del by done.
      case_decide as En; [|by left]. subst.
      destruct (Hin (n', s)) as [Hg|Hg]; [left| |]; simpl in *.
      * right. split; [done|]. by exists s.
      * left. by rewrite Hg.
  - apply IH; [done|]. intros p Hp. apply Hin. by right.
Qed.

Lemma cull_frame name now st :
  dict_wf st ->
  frame now name st (cull name now st) /\
  dict_get name (cull name now st) = dict_get name st.
Proof.
  intros Hwf. apply cull_loop_frame; [done|]. intros [n s] Hp. left.
  by apply dict_in_get.
Qed.

(** ** The shape of one operation *)

(** [st'] is [st] where the entry of [name] became [o]. *)
Definition updates (now : Q) (name : string) (st st' : states)
    (o : option BreakerState) : Prop :=
  frame now name st st' /\ dict_get name st' = o /\
  (forall s, o = Some s -> wf_entry s).

Lemma STATE_TTL_pos : (0 < STATE_TTL)%Q.
Proof. reflexivity. Qed.

Lemma resolve_state_ttl_ge r :
  (STATE_TTL <= resolve_state_ttl r)%Q /\ (10 * r <= resolve_state_ttl r)%Q.
Proof. unfold resolve_state_ttl, STATE_TTL_RESET_FACTOR. qcases. Qed.

Lemma live_spec b now st :
  wf_states st ->
  exists s,
    (live b now st).1 = s /\ updates now (s_name b) st (live b now st).2 (Some s) /\
    circuit_of s = entry_view now (dict_get (s_name b) st) /\
    expired now (expires_at s) = false /\
    (circuit_of s = Closed 0 0 \/ dict_get (s_name b) st = Some s).
Proof.
  intros [Hwf He]. unfold live.
  assert (exists s,
    (fresh_state (At (now + STATE_TTL)),
     cull (s_name b) now (dict_set (s_name b) (fresh_state (At (now + STATE_TTL))) st)).1 = s /\
    updates now (s_name b) st
      (fresh_state (At (now + STATE_TTL)),
       cull (s_name b) now (dict_set (s_name b) (fresh_state (At (now + STATE_TTL))) st)).2 (Some s) /\
    circuit_of s = Closed 0 0 /\ expired now (expires_at s) = false /\
    (circuit_of s = Closed 0 0 \/ dict_get (s_name b) st = Some s)) as Hfresh.
  { eexists. split; [reflexivity|]. simpl.
    destruct (cull_frame (s_name b) now
      (dict_set (s_name b) (fresh_state (At (now + STATE_TTL))) st)) as [F E];
      [by apply dict_set_wf|].
    split; [split_and!|split; [done|split; [by apply (expired_later now), STATE_TTL_pos|by left]]].
    - eapply frame_trans; [by apply frame_set|done].
    - by rewrite E, dict_get_set_eq.
    - intros s [= <-]. done. }
  destruct (dict_get (s_name b) st) as [s|] eqn:E; simpl in *.
  2: { destruct Hfresh as (s' & ? & ? & ? & ? & _). exists s'. by auto 10. }
  unfold circuit_view. simpl. destruct (expired now (expires_at s)) eqn:Hx.
  - destruct Hfresh as (s' & ? & ? & ? & ? & _). exists s'. by auto 10.
  - exists s. split; [done|]. split; [|by auto]. split; [by apply frame_refl|].
    split; [done|]. intros s' [= <-]. eauto.
Qed.

Lemma implements_update now0 now name st st' m m' o :
  implements now0 st m -> (now0 <= now)%Q -> updates now name st st' o ->
  (forall t, (now <= t)%Q -> entry_view t o = circuit_view t (m' name)) ->
  (forall n, n <> name -> m' n = m n) ->
  implements now st' m'.
Proof.
  intros [[Hwf He] Hv] Hle ([Hwf' F] & Eo & Ho) Hname Hother. split.
  - split; [done|]. intros n s Hn. destruct (decide (n = name)) as [->|Hne].
    + apply Ho. congruence.
    + destruct (F n Hne) as [E|[E _]]; rewrite E in Hn; [eauto|done].
  - intros n t Ht. destruct (decide (n = name)) as [->|Hne].
    { rewrite Eo. auto. }
    rewrite (Hother n Hne), <- Hv by lra.
    destruct (F n Hne) as [E|[E (s & Es & Hs)]]; [by rewrite E|].
    rewrite E, Es. simpl. unfold circuit_view. simpl.
    by rewrite (expired_mono now t _ Ht Hs).
Qed.

Lemma implements_later now t st m :
  implements now st m -> (now <= t)%Q -> implements t st m.
Proof. intros [Hwf Hv] Ht. split; [done|]. intros n u Hu. apply Hv. lra. Qed.

Lemma put_eq n cd m : put n cd m n = cd.
Proof. unfold put. by rewrite decide_True. Qed.

Lemma put_ne n n' cd m : n' <> n -> put n cd m n' = m n'.
Proof. intros. unfold put. by rewrite decide_False. Qed.

Lemma put_opt_ne n n' o m : n' <> n -> put_opt n o m n' = m n'.
Proof. intros. destruct o; simpl; [by apply put_ne|done]. Qed.

Lemma updates_set now name s st :
  wf_states st -> wf_entry s -> updates now name st (dict_set name s st) (Some s).
Proof.
  intros [Hwf _] Hs. split; [by apply frame_set|].
  split; [by rewrite dict_get_set_eq|]. by intros s' [= <-].
Qed.

Lemma updates_set_live now name s s' st st' :
  updates now name st st' (Some s) -> wf_entry s' ->
  updates now name st (dict_set name s' st') (Some s').
Proof.
  intros (F & _ & _) Hs. split; [by apply frame_set_frame|].
  split; [by rewrite dict_get_set_eq|]. by intros s'' [= <-].
Qed.

Lemma updates_del now name st :
  wf_states st -> updates now name st (dict_del name st) None.
Proof.
  intros [Hwf _]. split; [by apply frame_del|].
  split; [by rewrite dict_get_del_eq|done].
Qed.

Lemma updates_del_live now name o st st' :
  updates now name st st' o -> updates now name st (dict_del name st') None.
Proof.
  intros (F & _ & _). split; [eapply frame_trans; [done|]; apply frame_del, F|].
  split; [by rewrite dict_get_del_eq by apply F|done].
Qed.

Lemma updates_refl now name st :
  wf_states st -> updates now name st st (dict_get name st).
Proof. intros [Hwf He]. split; [by apply frame_refl|]. eauto. Qed.

(** The snapshot of a well-formed entry is the one of its circuit. *)
Lemma snapshot_circuit s : wf_entry s -> snapshot_of s = circuit_snapshot (circuit_of s).
Proof.
  unfold wf_entry, snapshot_of, circuit_snapshot, circuit_of.
  destruct s as [[] ? ? ? ? ? ?]; simpl; naive_solver.
Qed.

Lemma circuit_view_fresh t d : circuit_view t (Closed 0 0, d) = Closed 0 0.
Proof. unfold circuit_view. by case_match. Qed.

#[local] Hint Resolve STATE_TTL_pos : core.
#[local] Arguments STATE_TTL : simpl never.

(** ** Refinement, operation by operation *)

Section Operations.
Context (name : string) (cfg : ConsecutiveCountConfig) (Hcfg : cc_valid cfg).
Context (now0 now : Q) (st : states) (m : circuits).
Hypothesis Him : implements now0 st m.
Hypothesis Hnow : (now0 <= now)%Q.

Lemma im_wf : wf_states st.
Proof. apply Him. Qed.

Lemma im_view t : (now <= t)%Q -> entry_view t (dict_get name st) = circuit_view t (m name).
Proof. intros. apply Him. lra. Qed.

Lemma lapsed_refines s :
  dict_get name st = Some s -> expired now (expires_at s) = true ->
  implements now (live (bind name cfg) now st).2 m.
Proof.
  intros E Hx.
  destruct (live_spec (bind name cfg) now st im_wf) as (s' & Es' & Hup & Hc & _).
  eapply (implements_update now0); [done..| |done]. intros t Ht.
  rewrite <- im_view by done. simpl in *. rewrite E in Hc. rewrite E. simpl in *.
  unfold circuit_view in *. simpl in *. rewrite Hx in Hc. rewrite Hc.
  rewrite (expired_mono now t _ Ht Hx). by case_match.
Qed.

Lemma acquire_refines :
  let b := bind name cfg in
  let spec := circuit_acquire cfg now (circuit_view now (m name)) in
  (try_acquire b now st).1 = spec.1 /\
  implements now (try_acquire b now st).2 (put_opt name spec.2 m).
Proof.
  destruct Hcfg as (_ & _ & _ & Hcap). intros b spec. subst spec.
  pose proof im_wf as Hwf. pose proof im_view as Hv.
  assert (implements now st m) as Hst by (by eapply implements_later).
  rewrite <- Hv by lra. unfold try_acquire. simpl.
  destruct (dict_get name st) as [s|] eqn:E; [|done].
  assert (wf_entry s) as Hs by (eapply Hwf; eauto).
  assert (forall r : BreakerState, wf_entry r -> forall d : circuit * deadline,
    (forall t, (now <= t)%Q -> entry_view t (Some r) = circuit_view t d) ->
    implements now (dict_set name r st) (put name d m)) as Hset.
  { intros r Hr d Hd. eapply (implements_update now0); [done..| | |].
    - by apply updates_set.
    - intros t Ht. rewrite put_eq. auto.
    - intros. by apply put_ne. }
  assert (expired now (expires_at s) = true -> implements now (live b now st).2 m)
    as Hlapse by (intros; by eapply lapsed_refines).
  unfold wf_entry in Hs. simpl. unfold circuit_view. simpl.
  unfold circuit_of. destruct (b_state s) eqn:Est; simpl.
  - by destruct (expired now (expires_at s)).
  - unfold admit_recovering. destruct (expired now (expires_at s)) eqn:Hx; simpl.
    + split; [done|]. by apply Hlapse.
    + rewrite Est. destruct (Qlt_bool_spec now (opened_at s + cool_down s)); simpl; [done|].
      rewrite (proj2 (Z.ltb_lt _ _)) by done. simpl. split; [done|].
      apply Hset; [|done]. split_and!; done.
  - unfold admit_recovering. destruct (expired now (expires_at s)) eqn:Hx; simpl.
    + split; [done|]. by apply Hlapse.
    + rewrite Est. destruct (_ <? _) eqn:Hlt; simpl; (split; [done|]).
      * apply Hset.
        -- unfold wf_entry. simpl. rewrite Est. destruct Hs as (-> & -> & ? & ?).
           split_and!; done || lia.
        -- intros t Ht. simpl. unfold circuit_of. simpl. by rewrite Est.
      * eapply (implements_update now0); [done..| |done|done].
        apply updates_set; [done|]. unfold wf_entry. by rewrite Est.
  - by destruct Hs as (_ & _ & _ & _ & _ & ->).
  - by destruct Hs as (_ & _ & _ & _ & _ & ->).
Qed.

(** A store of [r] after [live] stores its circuit. *)
Lemma store_refines s r d :
  updates now name st (live (bind name cfg) now st).2 (Some s) -> wf_entry r ->
  (circuit_of r, expires_at r) = d ->
  implements now (dict_set name r (live (bind name cfg) now st).2) (put name d m).
Proof.
  intros Hup Hr <-. eapply (implements_update now0); [done..| | |].
  - by eapply updates_set_live.
  - intros t _. by rewrite put_eq.
  - intros. by apply put_ne.
Qed.

(** The two branches of [record_outcome] compute the specified circuit. *)
Lemma on_success_circuit s :
  wf_entry s -> b_state s = CLOSED \/ b_state s = HALF_OPEN ->
  match on_success (bind name cfg) now s with
  | None => circuit_record cfg true now (circuit_of s) = Some (kept now (Closed 0 0))
  | Some r =>
      wf_entry r /\
      circuit_record cfg true now (circuit_of s) = Some (circuit_of r, expires_at r)
  end.
Proof.
  intros Hs Hst. unfold on_success, wf_entry, circuit_of in *. simpl.
  destruct Hst as [E|E]; rewrite E in *; simpl; [naive_solver|].
  destruct Hs as (-> & -> & Hk & _).
  destruct (_ <=? _) eqn:Hthr; simpl; [done|].
  destruct (0 <? half_open_admit s) eqn:?; (split; [split_and!; done || lia|]);
    unfold kept; do 3 f_equal; lia.
Qed.

Lemma on_failure_circuit s :
  wf_entry s -> b_state s = CLOSED \/ b_state s = HALF_OPEN ->
  let r := on_failure (bind name cfg) now s in
  wf_entry r /\
  circuit_record cfg false now (circuit_of s) = Some (circuit_of r, expires_at r).
Proof.
  intros Hs Hst. unfold on_failure, wf_entry, circuit_of in *. simpl.
  destruct (_ <=? _) eqn:Hthr; simpl.
  { destruct Hst as [E|E]; rewrite E; simpl; by rewrite Hthr. }
  destruct Hst as [E|E]; rewrite E in *; simpl; rewrite Hthr; [naive_solver|].
  destruct Hs as (-> & -> & Hk & _).
  destruct (0 <? half_open_admit s) eqn:?; (split; [split_and!; done || lia|]);
    unfold kept; do 3 f_equal; lia.
Qed.

Lemma record_refines success :
  let b := bind name cfg in
  let c := circuit_view now (m name) in
  let o := circuit_record cfg success now c in
  (record_outcome b success now st).1 = circuit_snapshot (default c (fst <$> o)) /\
  implements now (record_outcome b success now st).2 (put_opt name o m).
Proof.
  intros b c o. subst o. unfold record_outcome.
  destruct (live_spec b now st im_wf) as (s & Es & Hup & Hc & Hx & Hor).
  pose proof (store_refines s) as Hstore. fold b in Hstore.
  change (s_name b) with name in *. rewrite im_view in Hc by lra. fold c in Hc.
  destruct (live b now st) as [s' st1] eqn:El. simpl in Es, Hup, Hstore |- *. subst s'.
  assert (wf_entry s) as Hs by (by apply Hup). rewrite <- Hc.
  assert (circuit_of s <> Closed 0 0 -> circuit_record cfg success now (circuit_of s) = None ->
    snapshot_of s = circuit_snapshot (default (circuit_of s)
      (fst <$> circuit_record cfg success now (circuit_of s))) /\
    implements now st1 (put_opt name (circuit_record cfg success now (circuit_of s)) m)) as Hidle.
  { intros Hne ->. simpl. split; [by apply snapshot_circuit|].
    destruct Hor as [|Hsame]; [done|].
    eapply (implements_update now0); [done..| |done]. intros t Ht.
    rewrite <- im_view by done. by rewrite Hsame. }
  pose proof (on_success_circuit s Hs) as Hsucc.
  pose proof (on_failure_circuit s Hs) as Hfail. fold b in Hsucc, Hfail.
  assert (b_state s = CLOSED \/ b_state s = HALF_OPEN ->
    let r := if success then match on_success b now s with
               | None => close b st1
               | Some s => (snapshot_of s, dict_set name s st1) end
             else (snapshot_of (on_failure b now s), dict_set name (on_failure b now s) st1) in
    r.1 = circuit_snapshot (default (circuit_of s)
      (fst <$> circuit_record cfg success now (circuit_of s))) /\
    implements now r.2 (put_opt name (circuit_record cfg success now (circuit_of s)) m)) as Hact.
  { intros Hst. specialize (Hsucc Hst). specialize (Hfail Hst).
    destruct success; [destruct (on_success b now s) as [r|]|]; simpl.
    - destruct Hsucc as [Hr ->]. split; [by apply snapshot_circuit|]. by apply Hstore.
    - rewrite Hsucc. simpl. split; [done|]. eapply (implements_update now0); [done..| | |].
      + by eapply updates_del_live.
      + intros t _. rewrite put_eq. by apply eq_sym, circuit_view_fresh.
      + intros. by apply put_ne.
    - destruct Hfail as [Hr ->]. split; [by apply snapshot_circuit|]. by apply Hstore. }
  unfold circuit_of in Hidle. destruct (b_state s) eqn:Est; auto;
    unfold circuit_of; rewrite Est; by apply Hidle.
Qed.

Lemma transition_refines d cd :
  implements now (transition (bind name cfg) d cd now st)
    (put name (circuit_transition cfg d cd now) m).
Proof.
  destruct (live_spec (bind name cfg) now st im_wf) as (s & Es & Hup & _).
  pose proof (store_refines s) as Hstore. unfold transition.
  change (s_name (bind name cfg)) with name in *.
  destruct d; [|destruct (live (bind name cfg) now st) as [s' st1];
    simpl in *; apply Hstore; [done..|try done]..].
  - eapply (implements_update now0); [done..| | |].
    + by apply updates_del, im_wf.
    + intros t _. rewrite put_eq. by apply eq_sym, circuit_view_fresh.
    + intros. by apply put_ne.
  - by destruct cd.
Qed.

Lemma snapshot_refines :
  get_snapshot (bind name cfg) now st = circuit_snapshot (circuit_view now (m name)).
Proof.
  rewrite <- im_view by lra. unfold get_snapshot. simpl.
  destruct (dict_get name st) as [s|] eqn:E; [|done].
  simpl. unfold circuit_view. simpl. destruct (expired now (expires_at s)); [done|].
  apply snapshot_circuit. by eapply im_wf.
Qed.
End Operations.

(** ** Runs *)

Lemma exec_refines now st m e :
  implements now st m -> (now <= e_now e)%Q -> cc_valid (e_config e) ->
  (exec e st).1 = (spec_exec e m).1 /\
  implements (e_now e) (exec e st).2 (spec_exec e m).2.
Proof.
  intros Him Hle Hcfg. destruct e as [n cfg t o]. unfold exec, spec_exec. simpl in *.
  destruct o as [|success|d cd|]; simpl.
  - pose proof (acquire_refines n cfg Hcfg now t st m Him Hle) as [E F].
    destruct (try_acquire _ t st), (circuit_acquire cfg t _); simpl in *. by subst.
  - pose proof (record_refines n cfg now t st m Him Hle success) as [E F].
    destruct (record_outcome _ success t st); simpl in *. by subst.
  - split; [done|]. by eapply transition_refines.
  - split; [|by eapply implements_later]. f_equal. by eapply snapshot_refines.
Qed.

Definition last_now (now : Q) (es : list event) : Q :=
  default now (e_now <$> last es).

Lemma last_now_cons now e es : last_now now (e :: es) = last_now (e_now e) es.
Proof. unfold last_now. rewrite last_cons. by destruct (last es). Qed.

Lemma run_refines es now st m :
  implements now st m -> timed now es ->
  (run exec es st).1 = (run spec_exec es m).1 /\
  implements (last_now now es) (run exec es st).2 (run spec_exec es m).2.
Proof.
  revert now st m. induction es as [|e es IH]; intros now st m Him Ht; [done|].
  destruct Ht as (Hle & Hcfg & Ht). rewrite last_now_cons. simpl.
  destruct (exec_refines now st m e Him Hle Hcfg) as [E F].
  destruct (exec e st) as [r st1], (spec_exec e m) as [r' m1]. simpl in *. subst r'.
  destruct (IH _ _ _ F Ht) as [E' F'].
  destruct (run exec es st1), (run spec_exec es m1). simpl in *. by subst.
Qed.

(** The circuits a dictionary holds. *)
Definition circuits_of (st : states) : circuits :=
  fun n => match dict_get n st with
           | Some s => (circuit_of s, expires_at s)
           | None => (Closed 0 0, Never)
           end.

Lemma circuits_of_implements now st : wf_states st -> implements now st (circuits_of st).
Proof.
  intros Hwf. split; [done|]. intros n t _. unfold circuits_of.
  by destruct (dict_get n st).
Qed.

Lemma wf_states_nil : wf_states [].
Proof. split; [apply dict_wf_nil|done]. Qed.

Lemma spec_exec_other e m n : e_name e <> n -> (spec_exec e m).2 n = m n.
Proof.
  intros Hne. unfold spec_exec. destruct (e_op e); simpl.
  - destruct (circuit_acquire _ _ _) as [? []]; simpl; [by apply put_ne|done].
  - by apply put_opt_ne.
  - by apply put_ne.
  - done.
Qed.

(** A circuit that no event of the run changes answers each of them the same. *)
Lemma stuck_run n cd (P : event -> result -> Prop) es m :
  (forall e m, m n = cd -> e ∈ es -> e_name e = n ->
     (spec_exec e m).2 n = cd /\ P e (spec_exec e m).1) ->
  m n = cd ->
  Forall2 (fun e r => e_name e = n -> P e r) es (run spec_exec es m).1 /\
  (run spec_exec es m).2 n = cd.
Proof.
  intros HP. revert m. induction es as [|e es IH]; intros m Hm; [by split; [constructor|]|].
  simpl. pose proof (HP e m Hm ltac:(left)) as Hn.
  pose proof (spec_exec_other e m n) as Ho.
  assert (forall e m, m n = cd -> e ∈ es -> e_name e = n ->
    (spec_exec e m).2 n = cd /\ P e (spec_exec e m).1) as HP' by (intros; apply HP; [done|by right|done]).
  destruct (spec_exec e m) as [r m1]. specialize (IH HP' m1). simpl in *.
  destruct (run spec_exec es m1) as [rs m2]. simpl in *.
  destruct IH as [IH1 IH2].
  { destruct (decide (e_name e = n)); [by apply Hn|]. rewrite Ho; done. }
  split; [|done]. constructor; [|done]. intros. by apply Hn.
Qed.

(** No event of the list moves the breaker [n] by hand. *)
Definition no_transition (n : string) (es : list event) : Prop :=
  Forall (fun e => e_name e = n -> forall d cd, e_op e <> Transition d cd) es.

Definition blocked (e : event) (r : result) : Prop :=
  (e_op e = Acquire -> r = Admitted_ false) /\
  (forall success, e_op e = Record_ success \/ e_op e = Snapshot ->
     exists s, r = Snap s /\ (sn_state s = OPEN \/ sn_state s = FORCED_OPEN)).

Lemma timed_ge now es e : timed now es -> e ∈ es -> (now <= e_now e)%Q.
Proof.
  revert now. induction es as [|e' es IH]; intros now Ht; [by intros ?%not_elem_of_nil|].
  destruct Ht as (Hle & _ & Ht). intros [->|He]%elem_of_cons; [done|].
  specialize (IH _ Ht He). lra.
Qed.

Lemma breaker_runs (es : list event) (now : Q) (st : states) :
  wf_states st -> timed now es ->
  (run exec es st).1 = (run spec_exec es (circuits_of st)).1 /\
  implements (last_now now es) (run exec es st).2
    (run spec_exec es (circuits_of st)).2.
Proof. intros Hwf Ht. by apply run_refines; [apply circuits_of_implements|]. Qed.

(** C10 The adapter implements one circuit per name: whatever breakers share it,
    whatever they call and in whatever order, as long as the clock does not go
    back, every answer (admission, snapshot) is the one the circuit of that
    name alone gives; entries expired, swept, recreated or dropped on closing
    never show. *)
Theorem breaker_refines_circuits (es : list event) (now : Q) (st : states) :
  wf_states st -> timed now es ->
  (run exec es st).1 = (run spec_exec es (circuits_of st)).1 /\
  implements (last_now now es) (run exec es st).2
    (run spec_exec es (circuits_of st)).2.
Proof. intros Hwf Ht. by apply run_refines; [apply circuits_of_implements|]. Qed.

(** Only a failure trips a circuit, and it trips it for the breaker's own
    cool-down. *)
Lemma circuit_record_trips cfg success now c :
  sn_state (circuit_snapshot c) <> OPEN ->
  sn_state (circuit_snapshot
    (default c (fst <$> circuit_record cfg success now c))) = OPEN ->
  circuit_record cfg success now c = Some (tripped cfg now).
Proof.
  intros Hc. destruct c as [e s|since wait|e s k|[]], success; simpl; try done;
    destruct (_ <=? _); done.
Qed.

Lemma cool_down_before_ttl r t : (0 < r)%Q -> (t < t + r)%Q ->
  forall now, (now < t + r)%Q -> expired now (At (t + resolve_state_ttl r)) = false.
Proof.
  intros Hr _ now Hnow. simpl. pose proof (resolve_state_ttl_ge r). qcases.
Qed.

(** A tripped circuit seen by events that all come before its cool-down ends. *)
Lemma tripped_stuck n cfg t0 es m :
  cc_valid cfg -> m n = tripped cfg t0 -> no_transition n es ->
  (forall e, e ∈ es -> (e_now e < t0 + reset_timeout cfg)%Q) ->
  Forall2 (fun e r => e_name e = n -> blocked e r) es (run spec_exec es m).1 /\
  (run spec_exec es m).2 n = tripped cfg t0.
Proof.
  intros (_ & _ & Hr & _) Hm Hno Hlt. apply stuck_run; [|done].
  intros e m' Hm' He Hn. pose proof (Hlt e He) as Ht.
  unfold no_transition in Hno. rewrite Forall_forall in Hno. specialize (Hno e He Hn).
  assert (circuit_view (e_now e) (m' (e_name e)) = Tripped t0 (reset_timeout cfg)) as Hv.
  { rewrite Hn, Hm'. unfold circuit_view, tripped. simpl fst. simpl snd.
    rewrite cool_down_before_ttl; [done..|lra|done]. }
  unfold spec_exec, blocked. rewrite Hv. destruct (e_op e) as [|b|d cd|] eqn:Eo; simpl.
  - destruct (Qlt_bool_spec (e_now e) (t0 + reset_timeout cfg)); [|lra]. simpl.
    split; [done|]. split; [done|]. by intros ? [|].
  - split; [done|]. split; [done|]. intros ? _. eexists. split; [done|]. by left.
  - by destruct (Hno d cd).
  - split; [done|]. split; [done|]. intros ? _. eexists. split; [done|]. by left.
Qed.

(** A failure that opens a circuit blocks it for [reset_timeout]: whatever the
    breakers of the adapter do meanwhile, every call on that name is rejected
    and every snapshot of it says [OPEN]; once the cool-down has elapsed (and
    before the stored state lapses) the next call is admitted as a probe of a
    clean [HALF_OPEN] circuit. *)
Lemma open_blocks_until_cool_down (n : string) (cfg : ConsecutiveCountConfig)
    (success : bool) (t0 t : Q) (es : list event) (st : states) :
  wf_states st -> cc_valid cfg ->
  sn_state (get_snapshot (bind n cfg) t0 st) <> OPEN ->
  sn_state (record_outcome (bind n cfg) success t0 st).1 = OPEN ->
  timed t0 es -> no_transition n es ->
  (forall e, e ∈ es -> (e_now e < t0 + reset_timeout cfg)%Q) ->
  (t0 + reset_timeout cfg <= t < t0 + resolve_state_ttl (reset_timeout cfg))%Q ->
  let '(rs, st') := run exec es (record_outcome (bind n cfg) success t0 st).2 in
  Forall2 (fun e r => e_name e = n -> blocked e r) es rs /\
  let '(admitted, st'') := try_acquire (bind n cfg) t st' in
  admitted = true /\
  get_snapshot (bind n cfg) t st'' = mkSnapshot HALF_OPEN 0 0 0.
Proof.
  intros Hwf Hcfg Hpre Htrip Ht Hno Hlt [Ht1 Ht2].
  pose proof (circuits_of_implements t0 st Hwf) as Him.
  destruct (record_refines n cfg t0 t0 st _ Him (Qle_refl _) success) as [E F].
  rewrite (snapshot_refines n cfg t0 t0 st _ Him (Qle_refl _)) in Hpre.
  rewrite E in Htrip. rewrite (circuit_record_trips _ _ _ _ Hpre Htrip) in F.
  simpl in F. set (st1 := (record_outcome (bind n cfg) success t0 st).2) in *.
  set (m1 := put n (tripped cfg t0) (circuits_of st)) in *.
  destruct (run_refines es t0 st1 m1 F Ht) as [E' F'].
  destruct (tripped_stuck n cfg t0 es m1) as [G G2]; [done|apply put_eq|done..|].
  rewrite <- E' in G. destruct (run exec es st1) as [rs st'] eqn:Er. simpl in *.
  split; [done|].
  assert ((last_now t0 es <= t)%Q) as Hlast.
  { unfold last_now. destruct (last es) as [e|] eqn:El; simpl.
    - apply last_Some in El as [es' ->]. specialize (Hlt e). 
      assert (e ∈ es' ++ [e]) as Hin by set_solver. specialize (Hlt Hin). lra.
    - destruct Hcfg as (_ & _ & ? & _). lra. }
  destruct (acquire_refines n cfg Hcfg _ t st' _ F' Hlast) as [A B].
  assert (circuit_view t ((run spec_exec es m1).2 n) = Tripped t0 (reset_timeout cfg)) as Hv.
  { rewrite G2. unfold circuit_view, tripped. simpl fst. simpl snd.
    destruct (expired _ _) eqn:Hx; [|done]. simpl in Hx.
    apply Qle_bool_iff in Hx. exfalso. lra. }
  rewrite Hv in A, B. simpl in A, B.
  destruct (Qlt_bool_spec t (t0 + reset_timeout cfg)); [lra|]. simpl in A, B.
  pose proof (snapshot_refines n cfg t t _ _ B (Qle_refl _)) as S.
  destruct (try_acquire (bind n cfg) t st') as [adm st'']. simpl in *.
  split; [done|]. rewrite S, put_eq. unfold circuit_view, kept. cbn [fst snd].
  by rewrite (expired_later t STATE_TTL).
Qed.

(** An operator's hold lasts: after [isolate] (or a forced close) every call
    on that name is rejected (admitted) at any later time, whatever outcomes
    are recorded by whoever and however long it stays quiet, until a
    transition of that name. *)
Lemma forced_state_holds (n : string) (cfg : ConsecutiveCountConfig) (open : bool)
    (t0 : Q) (es : list event) (st : states) :
  wf_states st -> timed t0 es -> no_transition n es ->
  let forced := if open then FORCED_OPEN else FORCED_CLOSED in
  let '(rs, _) := run exec es (transition (bind n cfg) forced None t0 st) in
  Forall2 (fun e r => e_name e = n ->
    match e_op e with
    | Acquire => r = Admitted_ (negb open)
    | Record_ _ | Snapshot => r = Snap (mkSnapshot forced 0 0 0)
    | Transition _ _ => True
    end) es rs.
Proof.
  intros Hwf Ht Hno forced.
  pose proof (circuits_of_implements t0 st Hwf) as Him.
  pose proof (transition_refines n cfg t0 t0 st _ Him (Qle_refl _) forced None) as F.
  assert (circuit_transition cfg forced None t0 = (Held open, Never)) as Hf
    by (by destruct open).
  rewrite Hf in F.
  destruct (run_refines es t0 _ _ F Ht) as [E' _].
  destruct (run exec es _) as [rs st']. simpl in E'. rewrite E'.
  apply (stuck_run n (Held open, Never)); [|apply put_eq].
  intros e m He Hin Hn. unfold no_transition in Hno. rewrite Forall_forall in Hno.
  specialize (Hno e Hin Hn). unfold spec_exec. rewrite Hn, He.
  unfold circuit_view. simpl. destruct (e_op e) as [|b|d cd|]; simpl; try done.
  - split; [done|]. by destruct open.
  - by destruct (Hno d cd).
  - split; [done|]. by destruct open.
Qed.

(** ** Counting probes *)

Definition is_admission (n : string) (e : event) (r : result) : bool :=
  bool_decide (e_name e = n) &&
  match e_op e, r with Acquire, Admitted_ true => true | _, _ => false end.

Definition is_record (n : string) (e : event) : bool :=
  bool_decide (e_name e = n) &&
  match e_op e with Record_ _ => true | _ => false end.

Fixpoint admissions (n : string) (es : list event) (rs : list result) : Z :=
  match es, rs with
  | e :: es, r :: rs => (if is_admission n e r then 1 else 0) + admissions n es rs
  | _, _ => 0
  end.

Fixpoint records (n : string) (es : list event) : Z :=
  match es with
  | [] => 0
  | e :: es => (if is_record n e then 1 else 0) + records n es
  end.

(** What the recorded outcomes of a run must have left: a half-open circuit. *)
Definition keeps_half_open (n : string) (e : event) (r : result) : Prop :=
  e_name e = n -> match e_op e, r with
                  | Record_ _, Snap s => sn_state s = HALF_OPEN
                  | _, _ => True
                  end.

Lemma half_open_count n cap T es : forall m now e s k d,
  m n = (Probing e s k, d) -> 0 <= k <= cap ->
  (forall t, (t < T)%Q -> expired t d = false) -> (T <= now + STATE_TTL)%Q ->
  timed now es -> no_transition n es ->
  (forall e, e ∈ es -> (e_now e < T)%Q /\
     (e_name e = n -> half_open_capacity (e_config e) <= cap)) ->
  Forall2 (keeps_half_open n) es (run spec_exec es m).1 ->
  admissions n es (run spec_exec es m).1 + k <= cap + records n es.
Proof.
  induction es as [|ev es IH]; intros m now e s k d Hm Hk Hd HT Ht Hno Hev HF;
    [simpl; lia|].
  destruct Ht as (Hle & Hcfg & Ht). apply Forall_cons in Hno as [Hno Hnos].
  destruct (Hev ev ltac:(left)) as [HevT Hcap].
  assert (forall e, e ∈ es -> (e_now e < T)%Q /\
    (e_name e = n -> half_open_capacity (e_config e) <= cap)) as Hev'
    by (intros; apply Hev; by right).
  assert (T <= e_now ev + STATE_TTL)%Q as HT' by lra.
  assert (forall t, (t < T)%Q -> expired t (At (e_now ev + STATE_TTL)) = false) as Hd'.
  { intros t Htt. simpl. qcases. }
  destruct (decide (e_name ev = n)) as [Hn|Hn].
  2: { pose proof (spec_exec_other ev m n Hn) as Ho. simpl in *.
       destruct (spec_exec ev m) as [r m1]. simpl in Ho. rewrite Hm in Ho.
       destruct (run spec_exec es m1) as [rs m2] eqn:Er. simpl in *.
       apply Forall2_cons in HF as [_ HF].
       specialize (IH m1 (e_now ev) e s k d Ho Hk Hd HT' Ht Hnos Hev').
       rewrite Er in IH. simpl in IH. specialize (IH HF).
       unfold is_admission, is_record. rewrite bool_decide_eq_false_2 by done.
       simpl. lia. }
  specialize (Hcap Hn). simpl in *.
  destruct (spec_exec ev m) as [r m1] eqn:Ex.
  destruct (run spec_exec es m1) as [rs m2] eqn:Er. simpl in *.
  apply Forall2_cons in HF as [Hkeep HF].
  specialize (IH m1 (e_now ev)). rewrite Er in IH. simpl in IH.
  unfold is_admission, is_record. rewrite bool_decide_eq_true_2 by done. simpl.
  unfold keeps_half_open in Hkeep. unfold spec_exec in Ex.
  rewrite Hn, Hm in Ex. unfold circuit_view in Ex. simpl in Ex. rewrite Hd in Ex by done.
  destruct (e_op ev) as [|b|dd cd|] eqn:Eo; simpl in Ex.
  - destruct (_ <? _) eqn:Hlt in Ex; simpl in Ex; injection Ex as <- <-.
    + specialize (IH e s (k + 1) (At (e_now ev + STATE_TTL))).
      rewrite put_eq in IH. specialize (IH eq_refl ltac:(lia) Hd' HT' Ht Hnos Hev' HF). lia.
    + specialize (IH e s k d Hm Hk Hd HT' Ht Hnos Hev' HF). lia.
  - injection Ex as <- <-. specialize (Hkeep Hn).
    destruct b; [destruct (_ <=? _); [done|]|destruct (_ <=? _); [done|]];
      simpl in IH; [specialize (IH 0 (s + 1) (Z.max 0 (k - 1)) (At (e_now ev + STATE_TTL)))
                   |specialize (IH (e + 1) 0 (Z.max 0 (k - 1)) (At (e_now ev + STATE_TTL)))];
      rewrite put_eq in IH;
      specialize (IH eq_refl ltac:(lia) Hd' HT' Ht Hnos Hev' HF); lia.
  - by destruct (Hno Hn dd cd).
  - injection Ex as <- <-. specialize (IH e s k d Hm Hk Hd HT' Ht Hnos Hev' HF). lia.
Qed.

(** While a circuit stays half-open, the calls it admits (counted with the ones
    already in flight) exceed [half_open_capacity] by at most the outcomes
    recorded: no more than the capacity of probes ever runs on its own
    outcomes. *)
Lemma half_open_admission_bound (n : string) (cap : Z) (now T : Q)
    (s : BreakerState) (es : list event) (st : states) :
  wf_states st -> dict_get n st = Some s -> b_state s = HALF_OPEN ->
  half_open_admit s <= cap -> expires_at s = At T -> (T <= now + STATE_TTL)%Q ->
  timed now es -> no_transition n es ->
  (forall e, e ∈ es -> (e_now e < T)%Q /\
     (e_name e = n -> half_open_capacity (e_config e) <= cap)) ->
  Forall2 (keeps_half_open n) es (run exec es st).1 ->
  admissions n es (run exec es st).1 + half_open_admit s <= cap + records n es.
Proof.
  intros Hwf Hs Hst Hcap HT HT' Ht Hno Hev.
  destruct (breaker_runs es now st Hwf Ht) as [-> _]. intros HF.
  pose proof (proj2 Hwf n s Hs) as Hse. unfold wf_entry in Hse. rewrite Hst in Hse.
  eapply half_open_count; [|lia| |done..].
  - unfold circuits_of. rewrite Hs. unfold circuit_of. by rewrite Hst, HT.
  - intros t Htt. simpl. qcases.
Qed.

(** A half-open circuit whose slots are all taken rejects every call until an
    outcome is recorded or the stored state lapses a day later: a probe that
    ends without recording an outcome holds its slot that long. *)
Theorem unrecorded_probes_block (n : string) (now T : Q) (s : BreakerState)
    (es : list event) (st : states) :
  wf_states st -> dict_get n st = Some s -> b_state s = HALF_OPEN ->
  expires_at s = At T -> timed now es -> no_transition n es ->
  records n es = 0 ->
  (forall e, e ∈ es -> (e_now e < T)%Q /\
     (e_name e = n -> half_open_capacity (e_config e) <= half_open_admit s)) ->
  admissions n es (run exec es st).1 = 0.
Proof.
  intros Hwf Hs Hst HT Ht Hno Hrec Hev.
  destruct (run_refines es now st _ (circuits_of_implements now st Hwf) Ht) as [-> _].
  assert (circuits_of st n =
    (Probing (consecutive_error_count s) (consecutive_success_count s)
       (half_open_admit s), At T)) as Hm.
  { unfold circuits_of. rewrite Hs. unfold circuit_of. by rewrite Hst, HT. }
  generalize dependent (circuits_of st). clear Ht Hwf Hs st.
  induction es as [|e es IH]; intros m Hm; [done|].
  apply Forall_cons in Hno as [Hno Hnos]. destruct (Hev e ltac:(left)) as [HeT Hcap].
  assert (0 <= records n es) as Hpos
    by (clear; induction es; simpl; [lia|case_match; lia]).
  simpl in *. assert (is_record n e = false /\ records n es = 0) as [Hr Hrs]
    by (destruct (is_record n e); lia || done).
  specialize (IH Hnos Hrs ltac:(intros; apply Hev; by right)).
  assert ((spec_exec e m).2 n = m n /\ is_admission n e (spec_exec e m).1 = false) as [Hn Ha].
  { unfold is_admission, is_record in *. destruct (bool_decide_reflect (e_name e = n)) as [En|En];
      simpl in *; [|split; [by apply spec_exec_other|done]].
    unfold spec_exec. rewrite En, Hm. unfold circuit_view. cbn [fst snd].
    assert (expired (e_now e) (At T) = false) as -> by (simpl; qcases).
    destruct (e_op e) eqn:Eo; simpl; try done.
    - rewrite (proj2 (Z.ltb_ge _ _)) by auto. by simpl.
    - by destruct (Hno En desired cool_down0). }
  destruct (spec_exec e m) as [r m1]. simpl in *. specialize (IH m1).
  destruct (run spec_exec es m1) as [rs m2]. simpl in *. rewrite Ha, IH; [done|congruence].
Qed.

(** ** When a closed circuit opens *)

(** The number of failures at the end of a list of outcomes. *)
Definition trailing_failures (outcomes : list bool) : Z :=
  foldl (fun k ok => if (ok : bool) then 0 else k + 1) 0 outcomes.

(** Some [threshold] consecutive failures. *)
Definition has_burst (threshold : Z) (outcomes : list bool) : Prop :=
  exists l1 l2, outcomes = l1 ++ l2 /\ threshold <= trailing_failures l1.

Definition record_event (n : string) (cfg : ConsecutiveCountConfig)
    (o : Q * bool) : event := mkEvent n cfg o.1 (Record_ o.2).

Lemma trailing_snoc l ok :
  trailing_failures (l ++ [ok]) = if ok : bool then 0 else trailing_failures l + 1.
Proof. unfold trailing_failures. by rewrite foldl_app. Qed.

(** [trailing_failures] counts the failures after the last success. *)
Lemma trailing_replicate l (k : nat) :
  trailing_failures (l ++ true :: replicate k false) = Z.of_nat k.
Proof.
  induction k as [|k IH]; [by rewrite trailing_snoc|].
  rewrite replicate_S_end, app_comm_cons, app_assoc, trailing_snoc, IH. lia.
Qed.

Lemma has_burst_snoc thr l ok :
  has_burst thr (l ++ [ok]) <-> has_burst thr l \/ thr <= trailing_failures (l ++ [ok]).
Proof.
  split.
  - intros (l1 & l2 & E & Hthr). destruct l2 as [|x l2 _] using rev_ind.
    + right. by rewrite app_nil_r in E; subst.
    + left. rewrite app_assoc in E. apply app_inj_tail in E as [-> _].
      by exists l1, l2.
  - intros [(l1 & l2 & -> & H)|H].
    + exists l1, (l2 ++ [ok]). by rewrite app_assoc.
    + exists (l ++ [ok]), []. by rewrite app_nil_r.
Qed.

Lemma timed_app now es e : timed now (es ++ [e]) ->
  timed now es /\ (last_now now es <= e_now e)%Q /\ cc_valid (e_config e).
Proof.
  revert now. induction es as [|e' es IH]; intros now; simpl.
  - intros (? & ? & _). auto.
  - intros (? & ? & Ht). rewrite last_now_cons. destruct (IH _ Ht) as (? & ? & ?). auto.
Qed.

Lemma last_now_ge now es : timed now es -> (now <= last_now now es)%Q.
Proof.
  revert now. induction es as [|e es IH]; intros now Ht; [apply Qle_refl|].
  rewrite last_now_cons. destruct Ht as (H1 & _ & H2). specialize (IH _ H2). lra.
Qed.

(** The circuit after some outcomes, all within a day of the first. *)
Definition after_outcomes (thr : Z) (outcomes : list bool) (c : circuit) : Prop :=
  (has_burst thr outcomes /\ exists since wait, c = Tripped since wait) \/
  (~ has_burst thr outcomes /\ exists k, c = Closed (trailing_failures outcomes) k).

Lemma after_outcomes_snoc n cfg now outcomes ok t m d :
  after_outcomes (error_threshold cfg) outcomes (m n).1 ->
  (m n).2 = d -> expired t d = false -> (now <= t)%Q ->
  let m' := (spec_exec (mkEvent n cfg t (Record_ ok)) m).2 in
  after_outcomes (error_threshold cfg) (outcomes ++ [ok]) (m' n).1 /\
  (m' n = m n \/ forall u, (u < t + STATE_TTL)%Q -> expired u (m' n).2 = false).
Proof.
  intros Hc Hd Hx Hnow. unfold spec_exec. simpl.
  destruct (m n) as [c d'] eqn:Em. simpl in Hc, Hd. subst d'.
  unfold circuit_view. cbn [fst snd]. rewrite Hx.
  pose proof (resolve_state_ttl_ge (reset_timeout cfg)) as [Httl _].
  unfold after_outcomes. rewrite has_burst_snoc, trailing_snoc.
  destruct Hc as [[Hb (since & wait & ->)]|[Hb [k ->]]].
  { assert (circuit_record cfg ok t (Tripped since wait) = None) as -> by (by destruct ok).
    simpl. rewrite Em. simpl. split; [|by left]. left. eauto. }
  destruct ok; simpl.
  - rewrite put_eq. simpl. split.
    + destruct (decide (error_threshold cfg <= 0)) as [Hz|Hz].
      * exfalso. apply Hb. exists [], outcomes. done.
      * right. split; [by intros [|]|eauto].
    + right. intros u Hu. qcases.
  - rewrite put_eq. destruct (Z.leb_spec (error_threshold cfg) (trailing_failures outcomes + 1)); simpl.
    + split; [left; eauto|]. right. intros u Hu. qcases.
    + split; [right; split; [intros [|]; [done|lia]|eauto]|].
      right. intros u Hu. qcases.
Qed.

Lemma record_run n cfg now outcomes m :
  cc_valid cfg -> m n = (Closed 0 0, Never) ->
  timed now (record_event n cfg <$> outcomes) ->
  (forall o, o ∈ outcomes -> (o.1 < now + STATE_TTL)%Q) ->
  let cd := (run spec_exec (record_event n cfg <$> outcomes) m).2 n in
  (forall t, (t < now + STATE_TTL)%Q -> expired t cd.2 = false) /\
  after_outcomes (error_threshold cfg) outcomes.*2 cd.1.
Proof.
  intros Hcfg Hm. induction outcomes as [|[t ok] outcomes IH] using rev_ind; intros Ht Hlt.
  - simpl. rewrite Hm. split; [done|]. right. split; [|by exists 0].
    intros (l1 & l2 & E & Hthr). symmetry in E. apply app_nil in E as [-> ->].
    unfold trailing_failures in Hthr. simpl in Hthr. destruct Hcfg. lia.
  - rewrite fmap_app in Ht. apply timed_app in Ht as (Ht & Hlast & _).
    destruct IH as [IH1 IH2]; [done|intros; apply Hlt; set_solver|].
    assert (now <= t)%Q as Hnow
      by (pose proof (last_now_ge _ _ Ht); simpl in Hlast; lra).
    assert (t < now + STATE_TTL)%Q as Htt by (apply (Hlt (t, ok)); set_solver).
    rewrite !fmap_app, run_app.
    destruct (run spec_exec (record_event n cfg <$> outcomes) m) as [rs m1]. simpl in IH1, IH2.
    destruct (after_outcomes_snoc n cfg now outcomes.*2 ok t m1 _ IH2 eq_refl
      (IH1 t Htt) Hnow) as [Ha Hd].
    cbn [fmap list_fmap run]. unfold record_event at 1. cbn [fst snd].
    destruct (spec_exec _ m1) as [r m2]. cbn [fst snd] in *. split; [|done]. intros u Hu. destruct Hd as [->|Hd]; [by apply IH1|].
    apply Hd. lra.
Qed.

(** From a closed circuit, after any outcomes recorded within a day, the
    circuit is open exactly when some [error_threshold] of them in a row were
    failures; otherwise it is closed and its error count is the number of
    failures since the last success. *)
Lemma opens_exactly_on_a_burst (n : string) (cfg : ConsecutiveCountConfig)
    (now t : Q) (outcomes : list (Q * bool)) (st : states) :
  wf_states st -> cc_valid cfg -> dict_get n st = None ->
  let es := record_event n cfg <$> outcomes in
  timed now es -> (last_now now es <= t < now + STATE_TTL)%Q ->
  (forall o, o ∈ outcomes -> (o.1 < now + STATE_TTL)%Q) ->
  let snap := get_snapshot (bind n cfg) t (run exec es st).2 in
  (sn_state snap = OPEN <-> has_burst (error_threshold cfg) outcomes.*2) /\
  (sn_state snap <> OPEN ->
   sn_state snap = CLOSED /\ sn_errors snap = trailing_failures outcomes.*2).
Proof.
  intros Hwf Hcfg Hnone es Ht [Hlast Htt] Hlt snap.
  destruct (breaker_runs es now st Hwf Ht) as [_ F].
  assert (circuits_of st n = (Closed 0 0, Never)) as Hm
    by (unfold circuits_of; by rewrite Hnone).
  destruct (record_run n cfg now outcomes _ Hcfg Hm Ht Hlt) as [Hx Ha].
  subst snap. fold es in Hx, Ha. rewrite (snapshot_refines n cfg _ t _ _ F Hlast).
  unfold circuit_view. rewrite Hx by done.
  destruct Ha as [[Hb (since & wait & ->)]|[Hb [k ->]]]; simpl; naive_solver.
Qed.

(** ** Recovery *)

(** Probes made one after the other, each ending in a success. *)
Fixpoint probe_events (n : string) (cfg : ConsecutiveCountConfig)
    (ts : list (Q * Q)) : list event :=
  match ts with
  | [] => []
  | (t1, t2) :: ts =>
      mkEvent n cfg t1 Acquire :: mkEvent n cfg t2 (Record_ true)
        :: probe_events n cfg ts
  end.

Definition admitted_all (es : list event) (rs : list result) : Prop :=
  Forall2 (fun e r => e_op e = Acquire -> r = Admitted_ true) es rs.

(** The circuit accepts a probe at [t1]: it is half-open with a free slot, or
    open past its cool-down. *)
Definition accepts_probe (t1 : Q) (c : circuit) (successes : Z) : Prop :=
  match c with
  | Probing _ s k => s = successes /\ k = 0
  | Tripped since wait => (since + wait <= t1)%Q /\ successes = 0
  | _ => False
  end.

Lemma probe_admitted n cfg t1 t2 m s :
  cc_valid cfg -> accepts_probe t1 (m n).1 s -> expired t1 (m n).2 = false ->
  (t1 <= t2 < t1 + STATE_TTL)%Q ->
  let '(r, m1) := spec_exec (mkEvent n cfg t1 Acquire) m in
  let m2 := (spec_exec (mkEvent n cfg t2 (Record_ true)) m1).2 in
  r = Admitted_ true /\
  m2 n = kept t2 (if success_threshold cfg <=? s + 1 then Closed 0 0
                  else Probing 0 (s + 1) 0).
Proof.
  intros (_ & _ & _ & Hcap) Hacc Hx Ht. destruct (m n) as [c d] eqn:Em. simpl in Hacc, Hx.
  assert (exists e, circuit_acquire cfg t1 c = (true, Some (kept t1 (Probing e s 1)))) as [e He].
  { destruct c as [|since wait|e s' k|]; try done; destruct Hacc as [Ha Hb]; simpl.
    - destruct (Qlt_bool_spec t1 (since + wait)); [lra|]. subst. eauto.
    - subst. rewrite (proj2 (Z.ltb_lt _ _)) by done. eauto. }
  unfold spec_exec. cbn [e_op e_name e_now e_config]. unfold circuit_view at 1.
  rewrite Em. cbn [fst snd]. rewrite Hx, He. cbn [put_opt fst snd].
  rewrite put_eq. unfold circuit_view. cbn [fst snd kept].
  assert (expired t2 (At (t1 + STATE_TTL)) = false) as -> by (simpl; qcases).
  split; [done|]. cbn [circuit_record put_opt]. by rewrite put_eq.
Qed.

Lemma probes_close n cfg ts : forall m now T s,
  cc_valid cfg -> ts <> [] -> (s + Z.of_nat (length ts) = success_threshold cfg)%Z ->
  timed now (probe_events n cfg ts) -> accepts_probe (hd (0, 0) ts).1%Q (m n).1 s ->
  (forall t, (t < T)%Q -> expired t (m n).2 = false) ->
  (T <= now + STATE_TTL)%Q -> (forall p, p ∈ ts -> (p.2 < T)%Q) ->
  admitted_all (probe_events n cfg ts) (run spec_exec (probe_events n cfg ts) m).1 /\
  forall t, circuit_view t ((run spec_exec (probe_events n cfg ts) m).2 n) = Closed 0 0.
Proof.
  induction ts as [|[t1 t2] ts IH]; intros m now T s Hcfg Hne Hlen Ht Hacc Hx HN Hlt; [done|].
  destruct Ht as (Hle1 & _ & Hle2 & _ & Ht). pose proof (Hlt (t1, t2) ltac:(left)) as HT.
  simpl in Hacc, HT, Hle1, Hle2, Ht.
  pose proof (probe_admitted n cfg t1 t2 m s Hcfg Hacc) as Hp.
  specialize (Hp ltac:(apply Hx; lra) ltac:(lra)).
  cbn [probe_events run]. destruct (spec_exec (mkEvent n cfg t1 Acquire) m) as [r m1].
  destruct (spec_exec (mkEvent n cfg t2 (Record_ true)) m1) as [r2 m2].
  cbn [snd] in Hp. destruct Hp as [-> Hm2]. specialize (IH m2 t2 T (s + 1) Hcfg).
  destruct ts as [|[t1' t2'] ts].
  - simpl in Hlen. rewrite (proj2 (Z.leb_le _ _)) in Hm2 by lia.
    simpl. rewrite Hm2. split; [by repeat constructor|]. intros. apply circuit_view_fresh.
  - cbn [length] in Hlen. rewrite (proj2 (Z.leb_gt _ _)) in Hm2 by lia.
    destruct IH as [IH1 IH2]; [done|cbn [length]; lia|done|by rewrite Hm2| |lra| |].
    + intros t Htt. rewrite Hm2. cbn [kept snd]. simpl. qcases.
    + intros p Hp. apply Hlt. by right.
    + destruct (run spec_exec _ m2) as [rs m3]. cbn [fst snd] in *.
      split; [|done]. constructor; [done|]. by constructor.
Qed.

(** An open circuit recovers: once its cool-down has elapsed,
    [success_threshold] probes made one after the other and all succeeding
    (within a day) are all admitted, and they close the circuit with its
    counters cleared. *)
Lemma recovers_after_successes (n : string) (cfg : ConsecutiveCountConfig)
    (now T : Q) (ts : list (Q * Q)) (s : BreakerState) (st : states) :
  wf_states st -> cc_valid cfg -> dict_get n st = Some s -> b_state s = OPEN ->
  (opened_at s + cool_down s <= (hd (0, 0) ts).1)%Q ->
  Z.of_nat (length ts) = success_threshold cfg ->
  timed now (probe_events n cfg ts) ->
  (forall t, (t < T)%Q -> expired t (expires_at s) = false) ->
  (T <= now + STATE_TTL)%Q -> (forall p, p ∈ ts -> (p.2 < T)%Q) ->
  let '(rs, st') := run exec (probe_events n cfg ts) st in
  admitted_all (probe_events n cfg ts) rs /\
  (forall t, (last_now now (probe_events n cfg ts) <= t)%Q ->
    get_snapshot (bind n cfg) t st' = DEFAULT_SNAPSHOT).
Proof.
  intros Hwf Hcfg Hs Hst Hcool Hlen Ht Hx HT Hlt.
  destruct (breaker_runs _ now st Hwf Ht) as [E F].
  destruct (run exec _ st) as [rs st'] eqn:Er. cbn [fst snd] in *. rewrite E.
  assert (circuits_of st n = (Tripped (opened_at s) (cool_down s), expires_at s)) as Hm.
  { unfold circuits_of. rewrite Hs. unfold circuit_of. by rewrite Hst. }
  destruct (probes_close n cfg ts (circuits_of st) now T 0) as [Ha Hc]; try done.
  - intros ->. destruct Hcfg. simpl in *. lia.
  - by rewrite Hm.
  - by rewrite Hm.
  - split; [done|]. intros t Htt.
    rewrite (snapshot_refines n cfg _ t _ _ F Htt). by rewrite Hc.
Qed.

(** ** Concrete runs *)

(** Two failures open, two successes close, one probe at a time. *)
Definition cfg_small : ConsecutiveCountConfig := 
  mkConsecutiveCountConfig [] 2 2 30 1 "WARNING".

Definition ev (t : Q) (o : operation) : event := mkEvent "db" cfg_small t o.

Lemma cfg_small_valid : cc_valid cfg_small.
Proof. split_and!; done. Qed.

(** The dictionary after two failures. *)
Definition st_open : states :=
  [("db", mkBreaker OPEN 2 30 0 0 0 (At (2 + 86400)))].

Lemma st_open_wf : wf_states st_open.
Proof.
  split; [apply NoDup_singleton|]. unfold st_open. intros n s. simpl.
  case_decide; [|done]. intros [= <-]. done.
Qed.

(** A half-open circuit with its only slot taken. *)
Definition st_probing : states :=
  [("db", mkBreaker HALF_OPEN 0 0 0 0 1 (At (40 + 86400)))].

Lemma st_probing_wf : wf_states st_probing.
Proof.
  split; [apply NoDup_singleton|]. unfold st_probing. intros n s. simpl.
  case_decide; [|done]. intros [= <-]. done.
Qed.

Ltac timed_tac := simpl; split_and!; try done; try apply cfg_small_valid; try lra.

Lemma breaker_refines_circuits_witness :
  (run exec [ev 1 (Record_ false); ev 2 (Record_ false); ev 3 Acquire] []).1 =
  [Snap (mkSnapshot CLOSED 0 1 0); Snap (mkSnapshot OPEN 2 0 0); Admitted_ false] /\
  (run spec_exec [ev 1 (Record_ false); ev 2 (Record_ false); ev 3 Acquire]
     (circuits_of [])).1 =
  [Snap (mkSnapshot CLOSED 0 1 0); Snap (mkSnapshot OPEN 2 0 0); Admitted_ false].
Proof.
  split; [vm_compute; reflexivity|].
  destruct (breaker_refines_circuits
    [ev 1 (Record_ false); ev 2 (Record_ false); ev 3 Acquire] 0 [] wf_states_nil)
    as [E _]; [timed_tac|]. rewrite <- E. vm_compute. reflexivity.
Defined.

Lemma open_blocks_until_cool_down_witness :
  let st1 := (record_outcome (bind "db" cfg_small) false 1 []).2 in
  let '(rs, st') := run exec [ev 10 Acquire; ev 31 Acquire]
     (record_outcome (bind "db" cfg_small) false 2 st1).2 in
  Forall2 (fun e r => e_name e = "db" -> blocked e r) [ev 10 Acquire; ev 31 Acquire] rs /\
  (try_acquire (bind "db" cfg_small) 32 st').1 = true.
Proof.
  intros st1.
  assert (Hlt : forall e, e ∈ [ev 10 Acquire; ev 31 Acquire] -> (e_now e < 2 + 30)%Q).
  { intros e He. repeat (apply elem_of_cons in He as [->|He]; [simpl; lra|]).
    by apply not_elem_of_nil in He. }
  pose proof (open_blocks_until_cool_down "db" cfg_small false 2 32
    [ev 10 Acquire; ev 31 Acquire] st1) as H.
  destruct (run exec _ _) as [rs st'] eqn:Er.
  destruct H as [H1 H2]; [|apply cfg_small_valid|done|done|timed_tac| |exact Hlt|split; done|].
  - split; [apply NoDup_singleton|]. unfold st1. vm_compute dict_get.
    intros n s. case_match; [|done]. intros [= <-]. done.
  - repeat constructor; done.
  - split; [done|]. destruct (try_acquire _ _ st') as [r st'']. by destruct H2.
Defined.

Lemma forced_state_holds_witness :
  let '(rs, _) := run exec [ev 5 (Record_ true); ev 1000000 Acquire]
     (transition (bind "db" cfg_small) FORCED_OPEN None 1 []) in
  Forall2 (fun e r => e_name e = "db" ->
    match e_op e with
    | Acquire => r = Admitted_ false
    | Record_ _ | Snapshot => r = Snap (mkSnapshot FORCED_OPEN 0 0 0)
    | Transition _ _ => True
    end) [ev 5 (Record_ true); ev 1000000 Acquire] rs.
Proof.
  apply (forced_state_holds "db" cfg_small true 1); [apply wf_states_nil|timed_tac|].
  repeat constructor; done.
Defined.

Lemma half_open_admission_bound_witness :
  admissions "db" [ev 41 Acquire; ev 42 (Record_ true); ev 43 Acquire]
    (run exec [ev 41 Acquire; ev 42 (Record_ true); ev 43 Acquire] st_probing).1 + 1
  <= 1 + 1.
Proof.
  apply (half_open_admission_bound "db" 1 40 (40 + 86400)
    (mkBreaker HALF_OPEN 0 0 0 0 1 (At (40 + 86400)))
    [ev 41 Acquire; ev 42 (Record_ true); ev 43 Acquire] st_probing);
    [apply st_probing_wf|done|done|done|done|apply Qle_refl|timed_tac
    |repeat constructor; done| |].
  - intros e He. repeat (apply elem_of_cons in He as [->|He]; [by split|]).
    by apply not_elem_of_nil in He.
  - vm_compute. repeat constructor.
Defined.

Lemma unrecorded_probes_block_witness :
  admissions "db" [ev 41 Acquire; ev 86000 Acquire]
    (run exec [ev 41 Acquire; ev 86000 Acquire] st_probing).1 = 0.
Proof.
  apply (unrecorded_probes_block "db" 40 (40 + 86400)
    (mkBreaker HALF_OPEN 0 0 0 0 1 (At (40 + 86400))));
    [apply st_probing_wf|done|done|done|timed_tac|repeat constructor; done|done|].
  intros e He. repeat (apply elem_of_cons in He as [->|He]; [by split|]).
  by apply not_elem_of_nil in He.
Defined.

Lemma opens_exactly_on_a_burst_witness :
  let es := record_event "db" cfg_small <$>
    [(1%Q, false); (2%Q, true); (3%Q, false); (4%Q, false)] in
  sn_state (get_snapshot (bind "db" cfg_small) 5 (run exec es []).2) = OPEN.
Proof.
  intros es. apply (opens_exactly_on_a_burst "db" cfg_small 0 5
    [(1%Q, false); (2%Q, true); (3%Q, false); (4%Q, false)] []);
    [apply wf_states_nil|apply cfg_small_valid|done|timed_tac|split; done| |].
  - intros o Ho. repeat (apply elem_of_cons in Ho as [->|Ho]; [done|]).
    by apply not_elem_of_nil in Ho.
  - by exists [false; true; false; false], [].
Defined.

Lemma recovers_after_successes_witness :
  let es := probe_events "db" cfg_small [(32%Q, 33%Q); (40%Q, 41%Q)] in
  let '(rs, st') := run exec es st_open in
  admitted_all es rs /\
  (forall t, (last_now 2 es <= t)%Q ->
    get_snapshot (bind "db" cfg_small) t st' = DEFAULT_SNAPSHOT).
Proof.
  apply (recovers_after_successes "db" cfg_small 2 86402 [(32%Q, 33%Q); (40%Q, 41%Q)]
    (mkBreaker OPEN 2 30 0 0 0 (At (2 + 86400))) st_open);
    [apply st_open_wf|apply cfg_small_valid|done|done|done|done|timed_tac| |done|].
  - intros t Ht. simpl. qcases.
  - intros p Hp. repeat (apply elem_of_cons in Hp as [->|Hp]; [done|]).
    by apply not_elem_of_nil in Hp.
Defined.

(** An outcome recorded late, by a call admitted before the circuit opened,
    takes a slot off the count although it is no probe: with a capacity of
    one, two probes are admitted with neither of them ended. *)
Lemma late_outcome_over_admits :
  (run exec [ev 0 Acquire; ev 1 (Record_ false); ev 2 (Record_ false);
             ev 40 Acquire; ev 41 Acquire; ev 42 (Record_ true); ev 43 Acquire] []).1 =
  [Admitted_ true; Snap (mkSnapshot CLOSED 0 1 0); Snap (mkSnapshot OPEN 2 0 0);
   Admitted_ true; Admitted_ false; Snap (mkSnapshot HALF_OPEN 0 0 1); Admitted_ true].
Proof. vm_compute. reflexivity. Qed.
