(* ===== verification/CircuitBreaker.v ===== *)
(** * Circuit breaker

    [grelmicro/resilience/circuitbreaker/__init__.py]: the breaker object in
    front of a backend, with its local counters and cached state, the stack of
    configurations of the calls in flight, and the per-key circuits it hands
    out.

    Circuit objects are shared (the map of keyed circuits and whoever called
    [keyed] hold the same object), so they live in a heap and are referred to
    by address.  A method runs up to its awaits on a backend whose operations
    are atomic; [now] and [wall] are the clocks it reads.  A task starts with an empty
    stack: the copy that a task created inside a block inherits is not modelled. *)

From S2P Require Import Prelude Errors Dict CircuitMemory.

Local Open Scope Z_scope.

(** ** The backend, as the breaker sees it

    [held n s] says that an operator keeps [n] open; the laws are what the
    breaker relies on for it. *)
Definition bound (b : Strategy) : Prop :=
  b = bind (s_name b) (s_config b) /\ cc_valid (s_config b).

Class CircuitStore (B : Type) := {
  cs_acquire : Strategy -> Q -> B -> bool * B;
  cs_record : Strategy -> bool -> Q -> B -> CircuitBreakerSnapshot * B;
  cs_transition : Strategy -> CircuitBreakerState -> option Q -> Q -> B -> B;
  cs_snapshot : Strategy -> Q -> B -> CircuitBreakerSnapshot;
  cs_ok : B -> Prop;
  cs_held : string -> B -> Prop;
  cs_ok_acquire b now s : cs_ok s -> bound b -> cs_ok (cs_acquire b now s).2;
  cs_ok_record b ok now s : cs_ok s -> bound b -> cs_ok (cs_record b ok now s).2;
  cs_ok_transition b d cd now s :
    cs_ok s -> bound b -> cs_ok (cs_transition b d cd now s);
  cs_held_transition b cd now s :
    cs_ok s -> bound b -> cs_held (s_name b) (cs_transition b FORCED_OPEN cd now s);
  cs_held_rejects b now s :
    cs_ok s -> bound b -> cs_held (s_name b) s ->
    (cs_acquire b now s).1 = false /\
    sn_state (cs_snapshot b now (cs_acquire b now s).2) = FORCED_OPEN;
  cs_held_acquire n b now s :
    cs_ok s -> bound b -> cs_held n s -> cs_held n (cs_acquire b now s).2;
  cs_held_record n b ok now s :
    cs_ok s -> bound b -> cs_held n s -> cs_held n (cs_record b ok now s).2;
  cs_held_other n b d cd now s :
    cs_ok s -> bound b -> s_name b <> n -> cs_held n s ->
    cs_held n (cs_transition b d cd now s);
}.

(** ** Circuits *)

Inductive TransitionCause : Type :=
| ERROR_THRESHOLD | SUCCESS_THRESHOLD | RESET_TIMEOUT | MANUAL | RESTART.

Definition KEYED_MAXSIZE : Z := 1024.
Definition KEYED_RESIDENCY : Q := 300.

(** The fields of [CircuitBreaker] that a call uses.  [c_config] and
    [c_strategy] are the published [_State]; [c_log] the state changes
    [_log_transition] wrote. *)
Record Circuit : Type := mkCircuit {
  c_name : string;
  c_config : ConsecutiveCountConfig;
  c_strategy : option Strategy;
  cached_state : CircuitBreakerState;
  c_errors : Z;
  c_successes : Z;
  total_error_count : Z;
  total_success_count : Z;
  last_error : option exn;
  last_error_time : option Q;
  active_call_count : Z;
  touched : Q;
  c_log : list (CircuitBreakerState * TransitionCause);
}.

(** [_setup] for the breaker itself ([touched] starts at 0). *)
Definition setup (name : string) (config : ConsecutiveCountConfig) : Circuit :=
  mkCircuit name config None CLOSED 0 0 0 0 None None 0 0 [].

(** [_KeyedCircuitBreaker.__init__] *)
Definition keyed_init (breaker : Circuit) (key : string) (now : Q) : Circuit :=
  mkCircuit (c_name breaker +:+ ":" +:+ key) (c_config breaker) None
    CLOSED 0 0 0 0 None None 0 now [].

(** [_resolve_strategy], or the strategy already bound. *)
Definition resolve_strategy (c : Circuit) : Strategy * Circuit :=
  match c_strategy c with
  | Some b => (b, c)
  | None =>
      let b := bind (c_name c) (c_config c) in
      (b, mkCircuit (c_name c) (c_config c) (Some b) (cached_state c) (c_errors c)
            (c_successes c) (total_error_count c) (total_success_count c)
            (last_error c) (last_error_time c) (active_call_count c) (touched c)
            (c_log c))
  end.

(** [_derive_cause] *)
Definition derive_cause (previous new : CircuitBreakerState) : TransitionCause :=
  if decide (new = OPEN) then ERROR_THRESHOLD
  else if bool_decide (new = HALF_OPEN) && bool_decide (previous = OPEN)
  then RESET_TIMEOUT
  else if decide (new = CLOSED) then SUCCESS_THRESHOLD else MANUAL.

(** [_log_transition] and the fields every state change writes. *)
Definition set_cached (state : CircuitBreakerState) (errs succs : Z)
    (log : list (CircuitBreakerState * TransitionCause)) (c : Circuit) : Circuit :=
  mkCircuit (c_name c) (c_config c) (c_strategy c) state errs succs
    (total_error_count c) (total_success_count c) (last_error c)
    (last_error_time c) (active_call_count c) (touched c) (c_log c ++ log).

(** [_apply_snapshot] *)
Definition apply_snapshot (snap : CircuitBreakerSnapshot) (c : Circuit) : Circuit :=
  let previous := cached_state c in
  let new := sn_state snap in
  set_cached new (sn_errors snap) (sn_successes snap)
    (if decide (previous = new) then [] else [(new, derive_cause previous new)]) c.

(** [_active_call_count] and [_touched], the two fields a call moves. *)
Definition set_active (k : Z) (now : Q) (c : Circuit) : Circuit :=
  mkCircuit (c_name c) (c_config c) (c_strategy c) (cached_state c) (c_errors c)
    (c_successes c) (total_error_count c) (total_success_count c) (last_error c)
    (last_error_time c) k now (c_log c).

(** [_release_call] *)
Definition release_call (now : Q) (c : Circuit) : Circuit :=
  set_active (if 0 <? active_call_count c then active_call_count c - 1
              else active_call_count c) now c.

Definition set_totals (errs succs : Z) (err : option exn) (at_ : option Q)
    (c : Circuit) : Circuit :=
  mkCircuit (c_name c) (c_config c) (c_strategy c) (cached_state c) (c_errors c)
    (c_successes c) errs succs err at_ (active_call_count c) (touched c) (c_log c).

(** [_evictable] *)
Definition evictable (now : Q) (c : Circuit) : bool :=
  (active_call_count c =? 0) && (now - touched c >=? KEYED_RESIDENCY)%py.

(** [CircuitBreakerError(name, last_error_time, last_error)] *)
Definition circuit_breaker_error (c : Circuit) : exn :=
  mk_exn CircuitBreakerError (Named (c_name c)).

(** [CircuitBreakerMetrics]: the error is reported when both the error and its
    time are set. *)
Record CircuitBreakerMetrics : Type := mkMetrics {
  me_name : string;
  me_state : CircuitBreakerState;
  me_active_calls : Z;
  me_total_error_count : Z;
  me_total_success_count : Z;
  me_consecutive_error_count : Z;
  me_consecutive_success_count : Z;
  me_last_error : option (Q * exn);
}.

Definition map_last_error (c : Circuit) : option (Q * exn) :=
  e ← last_error c; t ← last_error_time c; Some (t, e).

Definition metrics (c : Circuit) : CircuitBreakerMetrics :=
  mkMetrics (c_name c) (cached_state c) (active_call_count c)
    (total_error_count c) (total_success_count c) (c_errors c) (c_successes c)
    (map_last_error c).

Section Operations.
Context {B : Type} `{CircuitStore B}.

(** [_async_admit]: the admission of a worker thread, on the loop; also the
    first half of [__aenter__]. *)
Definition async_admit (now : Q) (c : Circuit) (s : B) : bool * Circuit * B :=
  let '(b, c) := resolve_strategy c in
  let '(ok, s) := cs_acquire b now s in
  if ok then (true, set_active (active_call_count c + 1) now c, s)
  else (false, apply_snapshot (cs_snapshot b now s) c, s).

(** [__aenter__]: the circuit, the backend and the stack of the task. *)
Definition aenter (now : Q) (c : Circuit) (s : B)
    (stack : list ConsecutiveCountConfig) :
    outcome exn unit * Circuit * B * list ConsecutiveCountConfig :=
  let config := c_config c in
  let '(ok, c, s) := async_admit now c s in
  if (ok : bool) then (Return tt, c, s, stack ++ [config])
  else (Raise (circuit_breaker_error c), c, s, stack).

(** [_ThreadAdapter.__enter__]: the same on the thread's own stack, which is
    pushed only once the call is admitted. *)
Definition thread_enter (now : Q) (c : Circuit) (s : B)
    (tls : list ConsecutiveCountConfig) :
    outcome exn unit * Circuit * B * list ConsecutiveCountConfig :=
  let config := c_config c in
  let '(ok, c, s) := async_admit now c s in
  if negb ok then (Raise (circuit_breaker_error c), c, s, tls)
  else (Return tt, c, s, tls ++ [config]).

(** How an exit is classified against a configuration. *)
Inductive verdict : Type := Success | Failure (e : exn) | Unrecorded.

Definition classify (config : ConsecutiveCountConfig) (exc : option exn) : verdict :=
  match exc with
  | None => Success
  | Some e =>
      if existsb (issubclass (exn_cls e)) (ignore_exceptions config) then Success
      else if is_exception e then Failure e else Unrecorded
  end.

(** [_async_handle_exit]; also [__aexit__] once the configuration is popped. *)
Definition handle_exit (config : ConsecutiveCountConfig) (exc : option exn)
    (now wall : Q) (c : Circuit) (s : B) : Circuit * B :=
  let c := release_call now c in
  let '(b, c) := resolve_strategy c in
  match classify config exc with
  | Success =>
      let '(snap, s) := cs_record b true now s in
      (apply_snapshot snap
         (set_totals (total_error_count c) (total_success_count c + 1)
            (last_error c) (last_error_time c) c), s)
  | Failure e =>
      let '(snap, s) := cs_record b false now s in
      (apply_snapshot snap
         (set_totals (total_error_count c + 1) (total_success_count c)
            (Some e) (Some wall) c), s)
  | Unrecorded => (c, s)
  end.

(** [__aexit__]: it pops the task's stack; an exception of the body is never
    swallowed. *)
Definition aexit (exc : option exn) (now wall : Q) (c : Circuit) (s : B)
    (stack : list ConsecutiveCountConfig) :
    outcome exn unit * Circuit * B * list ConsecutiveCountConfig :=
  match last stack with
  | None => (Raise (mk_exn IndexError NoInfo), c, s, stack)
  | Some config =>
      let '(c, s) := handle_exit config exc now wall c s in
      (Return tt, c, s, removelast stack)
  end.

(** [_transition] *)
Definition transition_ (desired : CircuitBreakerState) (cause : TransitionCause)
    (cool_down : option Q) (now : Q) (c : Circuit) (s : B) : Circuit * B :=
  let '(b, c) := resolve_strategy c in
  (set_cached desired 0 0 [(desired, cause)] c,
   cs_transition b desired cool_down now s).

(** [isolate] *)
Definition isolate (now : Q) (c : Circuit) (s : B) : Circuit * B :=
  transition_ FORCED_OPEN MANUAL None now c s.

(** [reset] *)
Definition reset (now : Q) (c : Circuit) (s : B) : Circuit * B :=
  transition_ CLOSED RESTART None now (set_totals 0 0 None None c) s.

(** ** The breaker and the circuits it keys

    [heap] holds the circuit objects ever created, the breaker itself at
    address 0; [keyed] is the breaker's [OrderedDict]; [stacks] the value of
    the [ContextVar] in each task, shared by the breaker and its circuits. *)
Record World : Type := mkWorld {
  heap : list Circuit;
  keyed : list (string * nat);
  maxsize : Z;
  config : ConsecutiveCountConfig;
  stacks : gmap nat (list ConsecutiveCountConfig);
  store : B;
}.

Definition set_circuit (i : nat) (c : Circuit) (s : B) (w : World) : World :=
  mkWorld (<[i:=c]> (heap w)) (keyed w) (maxsize w) (config w) (stacks w) s.

(** [_evict_keyed]: the first evictable circuit in order. *)
Fixpoint first_evictable (now : Q) (h : list Circuit) (d : list (string * nat)) :
    option string :=
  match d with
  | [] => None
  | (key, i) :: d =>
      match h !! i with
      | Some c => if evictable now c then Some key else first_evictable now h d
      | None => first_evictable now h d
      end
  end.

(** The loop removes one entry per turn, so [S (length d)] turns are enough. *)
Fixpoint evict_loop (fuel : nat) (now : Q) (max : Z) (h : list Circuit)
    (d : list (string * nat)) : list (string * nat) :=
  match fuel with
  | O => d
  | S fuel =>
      if max <? Z.of_nat (length d) then
        match first_evictable now h d with
        | Some key => evict_loop fuel now max h (dict_del key d)
        | None => d
        end
      else d
  end.

Definition evict_keyed (now : Q) (max : Z) (h : list Circuit)
    (d : list (string * nat)) : list (string * nat) :=
  if max =? 0 then d else evict_loop (S (length d)) now max h d.

(** [keyed]: the address of the circuit of [key], created on first use.  On a
    per-key circuit it raises. *)
Definition keyed_get (on : nat) (key : string) (now : Q) (w : World) :
    outcome exn nat * World :=
  if decide (on <> 0%nat) then (Raise (mk_exn ValueError NoInfo), w)
  else
  match dict_get key (keyed w) with
  | Some i =>
      let w := mkWorld (heap w) (dict_move_to_end key (keyed w)) (maxsize w)
                 (config w) (stacks w) (store w) in
      (Return i, match heap w !! i with
                 | Some c => set_circuit i (set_active (active_call_count c) now c) (store w) w
                 | None => w
                 end)
  | None =>
      match heap w !! 0%nat with
      | None => (Raise (mk_exn RuntimeError NoInfo), w)
      | Some breaker =>
          let i := length (heap w) in
          let h := heap w ++ [keyed_init breaker key now] in
          (Return i,
           mkWorld h (evict_keyed now (maxsize w) h (dict_set key i (keyed w)))
             (maxsize w) (config w) (stacks w) (store w))
      end
  end.

(** [async with circuit:] by a task: the entry and the exit. *)
Definition enter (task i : nat) (now : Q) (w : World) : outcome exn unit * World :=
  match heap w !! i with
  | None => (Raise (mk_exn RuntimeError NoInfo), w)
  | Some c =>
      let '(r, c, s, stack) := aenter now c (store w) (default [] (stacks w !! task)) in
      (r, mkWorld (<[i:=c]> (heap w)) (keyed w) (maxsize w) (config w)
            (<[task:=stack]> (stacks w)) s)
  end.

Definition exit_ (task i : nat) (exc : option exn) (now wall : Q) (w : World) :
    outcome exn unit * World :=
  match heap w !! i with
  | None => (Raise (mk_exn RuntimeError NoInfo), w)
  | Some c =>
      let '(r, c, s, stack) :=
        aexit exc now wall c (store w) (default [] (stacks w !! task)) in
      (r, mkWorld (<[i:=c]> (heap w)) (keyed w) (maxsize w) (config w)
            (<[task:=stack]> (stacks w)) s)
  end.

(** [isolate] and [reset] on the circuit at an address. *)
Definition on_circuit (f : Circuit -> B -> Circuit * B) (i : nat) (w : World) : World :=
  match heap w !! i with
  | None => w
  | Some c => let '(c, s) := f c (store w) in set_circuit i c s w
  end.

(** The published [_State] of a circuit after a reconfiguration. *)
Definition republish (new_config : ConsecutiveCountConfig) (c : Circuit) : Circuit :=
  mkCircuit (c_name c) new_config None (cached_state c) (c_errors c)
    (c_successes c) (total_error_count c) (total_success_count c) (last_error c)
    (last_error_time c) (active_call_count c) (touched c) (c_log c).

(** [_apply_reconfigure]: the breaker and the circuits its map holds. *)
Definition apply_reconfigure (new_config : ConsecutiveCountConfig) (w : World) : World :=
  mkWorld
    (foldl (fun h i => alter (republish new_config) i h)
       (alter (republish new_config) 0%nat (heap w)) (keyed w).*2)
    (keyed w) (maxsize w) new_config (stacks w) (store w).

(** Equality of two configurations, floats compared by value. *)
Definition config_eqb (a b : ConsecutiveCountConfig) : bool :=
  bool_decide (ignore_exceptions a = ignore_exceptions b) &&
  (error_threshold a =? error_threshold b) &&
  (success_threshold a =? success_threshold b) &&
  Qeq_bool (reset_timeout a) (reset_timeout b) &&
  (half_open_capacity a =? half_open_capacity b) &&
  String.eqb (log_level a) (log_level b).

(** [reconfigure]: raises on a per-key circuit, does nothing for an equal
    configuration. *)
Definition reconfigure (on : nat) (new_config : ConsecutiveCountConfig) (w : World) :
    outcome exn unit * World :=
  if decide (on <> 0%nat) then (Raise (mk_exn ValueError NoInfo), w)
  else if config_eqb new_config (config w) then (Return tt, w)
  else (Return tt, apply_reconfigure new_config w).

Definition new_world (name : string) (cfg : ConsecutiveCountConfig) (max : Z) (s : B) :
    World :=
  mkWorld [setup name cfg] [] max cfg ∅ s.

(** ** Calls in flight

    [frames] records the calls admitted and not yet ended, in the order of
    their admission: the task, the address of the circuit and the
    configuration published when the call was admitted. *)
Definition frame_ : Type := (nat * nat * ConsecutiveCountConfig).

Definition configs_of (task : nat) (frames : list frame_) : list ConsecutiveCountConfig :=
  (filter (fun f : frame_ => f.1.1 = task) frames).*2.

Definition calls_of (i : nat) (frames : list frame_) : Z :=
  Z.of_nat (length (filter (fun f : frame_ => f.1.2 = i) frames)).

Inductive step : option string -> World * list frame_ -> World * list frame_ -> Prop :=
| step_enter w fs task i now c w' :
    heap w !! i = Some c -> enter task i now w = (Return tt, w') ->
    step None (w, fs) (w', fs ++ [(task, i, c_config c)])
| step_reject w fs task i now e w' :
    enter task i now w = (Raise e, w') -> step None (w, fs) (w', fs)
| step_exit w fs1 fs2 task i cfg exc now wall :
    configs_of task fs2 = [] ->
    step None (w, fs1 ++ (task, i, cfg) :: fs2)
      ((exit_ task i exc now wall w).2, fs1 ++ fs2)
| step_keyed w fs on key now : step None (w, fs) ((keyed_get on key now w).2, fs)
| step_isolate w fs i c now :
    heap w !! i = Some c ->
    step (Some (c_name c)) (w, fs) (on_circuit (isolate now) i w, fs)
| step_reset w fs i c now :
    heap w !! i = Some c ->
    step (Some (c_name c)) (w, fs) (on_circuit (reset now) i w, fs)
| step_reconfigure w fs on cfg :
    cc_valid cfg -> step None (w, fs) ((reconfigure on cfg w).2, fs).

(** Every circuit counts its calls in flight, every task's stack holds the
    configurations its calls were admitted with, and the map of keyed circuits
    holds one live circuit per key. *)
Definition accounted (ws : World * list frame_) : Prop :=
  let '(w, fs) := ws in
  (forall task, default [] (stacks w !! task) = configs_of task fs) /\
  (forall i c, heap w !! i = Some c -> active_call_count c = calls_of i fs) /\
  (forall f, f ∈ fs -> (f.1.2 < length (heap w))%nat) /\
  dict_wf (keyed w) /\
  (forall key i, (key, i) ∈ keyed w -> (0 < i < length (heap w))%nat) /\
  (0 < length (heap w))%nat.

Lemma resolve_strategy_active c : active_call_count (resolve_strategy c).2 = active_call_count c.
Proof. unfold resolve_strategy. by destruct (c_strategy c). Qed.

Lemma admit_active now c s :
  active_call_count (async_admit now c s).1.2 =
  if (async_admit now c s).1.1 then active_call_count c + 1 else active_call_count c.
Proof.
  unfold async_admit. pose proof (resolve_strategy_active c) as Hr.
  destruct (resolve_strategy c) as [b c']. destruct (cs_acquire b now s) as [[] s']; simpl in *; lia.
Qed.

Lemma handle_exit_active config exc now wall c s :
  0 <= active_call_count c ->
  active_call_count (handle_exit config exc now wall c s).1 =
  Z.max 0 (active_call_count c - 1).
Proof.
  intros Hpos. unfold handle_exit.
  pose proof (resolve_strategy_active (release_call now c)) as Hr.
  destruct (resolve_strategy _) as [b c']. unfold release_call in Hr. simpl in Hr.
  destruct (classify config exc); [destruct (cs_record b true now s)
    |destruct (cs_record b false now s)|]; simpl; rewrite Hr;
    destruct (0 <? active_call_count c) eqn:E; lia.
Qed.

Lemma calls_of_app i fs1 fs2 : calls_of i (fs1 ++ fs2) = calls_of i fs1 + calls_of i fs2.
Proof. unfold calls_of. rewrite filter_app, length_app. lia. Qed.

Lemma calls_of_cons i f fs :
  calls_of i (f :: fs) = (if decide (f.1.2 = i) then 1 else 0) + calls_of i fs.
Proof. unfold calls_of. rewrite filter_cons. case_decide; simpl; lia. Qed.

Lemma configs_of_app task fs1 fs2 :
  configs_of task (fs1 ++ fs2) = configs_of task fs1 ++ configs_of task fs2.
Proof. unfold configs_of. by rewrite filter_app, fmap_app. Qed.

Lemma configs_of_cons task f fs :
  configs_of task (f :: fs) =
  (if decide (f.1.1 = task) then [f.2] else []) ++ configs_of task fs.
Proof. unfold configs_of. rewrite filter_cons. by case_decide. Qed.

Lemma calls_of_none i fs : (forall f, f ∈ fs -> f.1.2 <> i) -> calls_of i fs = 0.
Proof.
  induction fs as [|f fs IH]; intros Hf; [done|]. rewrite calls_of_cons.
  rewrite decide_False by (apply Hf; by left). rewrite IH; [done|].
  intros f' Hf'. apply Hf. by right.
Qed.

(** An operation that leaves the counters of the circuits, the stacks and the
    map alone keeps the accounts. *)
Lemma accounted_update w w' fs :
  accounted (w, fs) -> stacks w' = stacks w -> keyed w' = keyed w ->
  length (heap w') = length (heap w) ->
  (forall i c', heap w' !! i = Some c' -> exists c,
     heap w !! i = Some c /\ active_call_count c' = active_call_count c) ->
  accounted (w', fs).
Proof.
  intros (H1 & H2 & H3 & H4 & H5 & H6) Es Ek El Hc. unfold accounted.
  rewrite Es, Ek, El. split_and!; try done.
  intros i c' Hi. destruct (Hc i c' Hi) as (c & Hci & ->). eauto.
Qed.

Lemma insert_circuit_cases (h : list Circuit) i c j c' :
  <[i:=c]> h !! j = Some c' -> (i = j /\ c' = c) \/ (i <> j /\ h !! j = Some c').
Proof.
  destruct (decide (i = j)) as [->|Hne].
  - intros Hj. left. split; [done|]. assert (j < length h)%nat as Hlt.
    { apply lookup_lt_Some in Hj. by rewrite length_insert in Hj. }
    rewrite list_lookup_insert_eq in Hj by done. by simplify_eq.
  - rewrite list_lookup_insert_ne by done. auto.
Qed.

Lemma lookup_stack_insert task task' (m : gmap nat (list ConsecutiveCountConfig)) l :
  default [] (<[task:=l]> m !! task') =
  if decide (task = task') then l else default [] (m !! task').
Proof. case_decide; [subst; by rewrite lookup_insert_eq|by rewrite lookup_insert_ne]. Qed.

Lemma enter_accounted w fs task i now c w' r :
  accounted (w, fs) -> heap w !! i = Some c -> enter task i now w = (r, w') ->
  accounted (w', match r with Return _ => fs ++ [(task, i, c_config c)] | Raise _ => fs end).
Proof.
  intros (H1 & H2 & H3 & H4 & H5 & H6) Hi He. unfold enter in He. rewrite Hi in He.
  unfold aenter in He. pose proof (admit_active now c (store w)) as Ha.
  pose proof (lookup_lt_Some _ _ _ Hi) as Hlt.
  destruct (async_admit now c (store w)) as [[ok c'] s']. simpl in Ha.
  destruct ok; injection He as <- <-; unfold accounted; simpl; rewrite length_insert.
  - split_and!; try done.
    + intros task'. rewrite lookup_stack_insert, configs_of_app, configs_of_cons. simpl.
      case_decide; subst; rewrite H1; [done|]. by rewrite app_nil_r.
    + intros j cj Hj. rewrite calls_of_app, calls_of_cons. simpl.
      apply insert_circuit_cases in Hj as [[-> ->]|[Hne Hj]].
      * rewrite decide_True by done. rewrite Ha, (H2 _ _ Hi). unfold calls_of. simpl. lia.
      * rewrite decide_False by done. rewrite (H2 _ _ Hj). unfold calls_of. simpl. lia.
    + intros f [Hf|Hf%list_elem_of_singleton]%elem_of_app; [by apply H3|by subst].
  - split_and!; try done.
    + intros task'. rewrite lookup_stack_insert. case_decide; subst; by rewrite H1.
    + intros j cj Hj. apply insert_circuit_cases in Hj as [[-> ->]|[Hne Hj]]; [|eauto].
      rewrite Ha. eauto.
Qed.

Lemma exit_accounted w fs1 fs2 task i cfg exc now wall :
  accounted (w, fs1 ++ (task, i, cfg) :: fs2) -> configs_of task fs2 = [] ->
  accounted ((exit_ task i exc now wall w).2, fs1 ++ fs2).
Proof.
  intros (H1 & H2 & H3 & H4 & H5 & H6) Hlast.
  pose proof (H3 (task, i, cfg) ltac:(set_solver)) as Hlt. simpl in Hlt.
  apply lookup_lt_is_Some_2 in Hlt as [c Hi].
  pose proof (H1 task) as Hst. rewrite configs_of_app, configs_of_cons, Hlast in Hst.
  simpl in Hst. rewrite decide_True in Hst by done.
  unfold exit_. rewrite Hi, Hst. unfold aexit. simpl. rewrite last_snoc.
  pose proof (H2 _ _ Hi) as Hc. rewrite calls_of_app, calls_of_cons in Hc. simpl in Hc.
  rewrite decide_True in Hc by done.
  assert (0 <= calls_of i fs1 + calls_of i fs2) by (unfold calls_of; lia).
  pose proof (handle_exit_active cfg exc now wall c (store w) ltac:(lia)) as Ha.
  destruct (handle_exit cfg exc now wall c (store w)) as [c' s']. simpl in Ha.
  unfold accounted. simpl. rewrite length_insert, removelast_last. split_and!; try done.
  - intros task'. rewrite lookup_stack_insert, configs_of_app. case_decide as Et.
    + subst. by rewrite Hlast, app_nil_r.
    + rewrite H1, configs_of_app, configs_of_cons. simpl. by rewrite decide_False.
  - intros j cj Hj. rewrite calls_of_app.
    apply insert_circuit_cases in Hj as [[-> ->]|[Hne Hj]]; [lia|].
    rewrite (H2 _ _ Hj), calls_of_app, calls_of_cons. simpl.
    rewrite decide_False by done. lia.
  - intros f Hf. apply H3. set_solver.
Qed.

(** ** Eviction *)

(** The reference: the first [k] evictable entries go, in the order of the
    map. *)
Definition entry_evictable (now : Q) (h : list Circuit) (i : nat) : bool :=
  match h !! i with Some c => evictable now c | None => false end.

Fixpoint drop_evictable (now : Q) (h : list Circuit) (k : nat)
    (d : list (string * nat)) : list (string * nat) :=
  match d, k with
  | [], _ | _, O => d
  | (key, i) :: d, S k' =>
      if entry_evictable now h i then drop_evictable now h k' d
      else (key, i) :: drop_evictable now h k d
  end.

Lemma drop_evictable_0 now h d : drop_evictable now h 0 d = d.
Proof. by destruct d as [|[]]. Qed.

Lemma first_evictable_some now h d key k :
  dict_wf d -> first_evictable now h d = Some key ->
  drop_evictable now h (S k) d = drop_evictable now h k (dict_del key d) /\
  length d = S (length (dict_del key d)).
Proof.
  unfold dict_wf. induction d as [|[key' i] d IH]; [done|]. simpl.
  intros [Hnin Hnd]%NoDup_cons Hf. unfold entry_evictable.
  destruct (h !! i) as [c|] eqn:Hi; [destruct (evictable now c) eqn:He|].
  { simplify_eq. by rewrite decide_True. }
  all: rewrite decide_False;
    [|intros ->; apply Hnin; clear -Hf; induction d as [|[k' j] d IHd]; simpl in *; [done|];
      case_match; [case_match; simplify_eq|]; set_solver].
  all: destruct (IH Hnd Hf) as [IH1 IH2]; split; [|simpl; lia]; rewrite IH1;
    destruct k; simpl; unfold entry_evictable; rewrite ?Hi, ?He, ?drop_evictable_0; done.
Qed.

Lemma first_evictable_none now h d k :
  first_evictable now h d = None -> drop_evictable now h k d = d.
Proof.
  revert k. induction d as [|[key i] d IH]; intros [|k]; simpl; try done.
  unfold entry_evictable. destruct (h !! i) as [c|]; [destruct (evictable now c)|];
    intros; try done; by rewrite IH.
Qed.

Lemma evict_loop_drop fuel now max h d :
  dict_wf d -> (length d < fuel)%nat ->
  evict_loop fuel now max h d =
  drop_evictable now h (Z.to_nat (Z.of_nat (length d) - max)) d.
Proof.
  revert d. induction fuel as [|fuel IH]; intros d Hwf Hf; [lia|]. simpl.
  destruct (Z.ltb_spec max (Z.of_nat (length d))) as [Hlt|Hge].
  - destruct (first_evictable now h d) as [key|] eqn:E.
    + destruct (first_evictable_some now h d key
        (Z.to_nat (Z.of_nat (length (dict_del key d)) - max)) Hwf E) as [Hd Hl].
      rewrite IH; [|by apply dict_del_wf|lia]. rewrite <- Hd. f_equal. lia.
    + by rewrite first_evictable_none.
  - replace (Z.to_nat (Z.of_nat (length d) - max)) with 0%nat by lia.
    by rewrite drop_evictable_0.
Qed.

Lemma drop_evictable_sub now h k d : drop_evictable now h k d `sublist_of` d.
Proof.
  revert k. induction d as [|[key i] d IH]; intros [|k]; simpl; try done.
  destruct (entry_evictable now h i); by constructor.
Qed.

Lemma dropped_idle now h k d p :
  p ∈ d -> p ∉ drop_evictable now h k d -> entry_evictable now h p.2 = true.
Proof.
  revert k. induction d as [|[key i] d IH]; intros k; [by intros ?%not_elem_of_nil|].
  intros [->|Hin]%elem_of_cons Hout; destruct k as [|k]; simpl in Hout.
  - destruct Hout. by left.
  - destruct (entry_evictable now h i) eqn:E; [done|]. destruct Hout. by left.
  - destruct Hout. by right.
  - destruct (entry_evictable now h i) eqn:E; eapply IH; try done.
    intros Hd. apply Hout. by right.
Qed.

Lemma evict_keyed_drop now max h d :
  dict_wf d ->
  evict_keyed now max h d =
  if max =? 0 then d
  else drop_evictable now h (Z.to_nat (Z.of_nat (length d) - max)) d.
Proof.
  intros Hwf. unfold evict_keyed. destruct (max =? 0); [done|].
  apply evict_loop_drop; [done|lia].
Qed.

Lemma evict_keyed_sub now max h d : dict_wf d -> evict_keyed now max h d `sublist_of` d.
Proof.
  intros. rewrite evict_keyed_drop by done. case_match; [done|apply drop_evictable_sub].
Qed.

Lemma dict_wf_sublist (d d' : list (string * nat)) :
  d' `sublist_of` d -> dict_wf d -> dict_wf d'.
Proof.
  unfold dict_wf. intros Hs Hd. eapply sublist_NoDup; [done|].
  by apply fmap_sublist.
Qed.

Lemma dict_set_in (key : string) (i : nat) d p :
  p ∈ dict_set key i d -> p = (key, i) \/ p ∈ d.
Proof.
  induction d as [|[k' j] d IH]; simpl; [set_solver|].
  case_decide; subst; set_solver.
Qed.

Lemma dict_move_in (key : string) (d : list (string * nat)) p :
  p ∈ dict_move_to_end key d -> p ∈ d.
Proof.
  unfold dict_move_to_end. destruct (dict_get key d) as [i|] eqn:E; [|done].
  intros [Hp|Hp%list_elem_of_singleton]%elem_of_app; [by eapply dict_del_in|].
  subst. by apply dict_get_in.
Qed.

Lemma keyed_get_accounted w fs on key now :
  accounted (w, fs) -> accounted ((keyed_get on key now w).2, fs).
Proof.
  intros Hacc. pose proof Hacc as (H1 & H2 & H3 & H4 & H5 & H6). unfold keyed_get.
  case_decide; [done|]. destruct (dict_get key (keyed w)) as [i|] eqn:E; simpl.
  - assert (accounted (mkWorld (heap w) (dict_move_to_end key (keyed w)) (maxsize w)
      (config w) (stacks w) (store w), fs)) as Hm.
    { split_and!; simpl; auto using dict_move_to_end_wf.
      intros k j Hj. eapply H5, dict_move_in, Hj. }
    destruct (heap w !! i) as [c|] eqn:Hi; [|done].
    eapply accounted_update; [apply Hm|done..|by apply length_insert|].
    simpl. intros j cj Hj. apply insert_circuit_cases in Hj as [[-> ->]|[Hne Hj]]; eauto.
  - destruct (heap w !! 0%nat) as [br|] eqn:Hbr; simpl; [|done].
    unfold accounted. simpl. rewrite length_app. simpl.
    assert (dict_wf (dict_set key (length (heap w)) (keyed w))) as Hwf
      by (by apply dict_set_wf).
    pose proof (evict_keyed_sub now (maxsize w) (heap w ++ [keyed_init br key now]) _ Hwf)
      as Hsub. split_and!; try done; try lia.
    + intros i c [Hi|[Hge Hi]]%lookup_app_Some; [by apply H2|].
      destruct (i - length (heap w))%nat eqn:Ei; [|done]. injection Hi as <-.
      simpl. rewrite calls_of_none; [done|]. intros f Hf. specialize (H3 f Hf). lia.
    + intros f Hf. specialize (H3 f Hf). lia.
    + by eapply dict_wf_sublist.
    + intros k j Hj. eapply elem_of_sublist in Hj; [|done].
      apply dict_set_in in Hj as [[= -> ->]|Hj]; [lia|]. specialize (H5 _ _ Hj). lia.
Qed.

Lemma on_circuit_accounted f w fs i :
  accounted (w, fs) ->
  (forall c s, active_call_count (f c s).1 = active_call_count c) ->
  accounted (on_circuit f i w, fs).
Proof.
  intros Hacc Hf. unfold on_circuit. destruct (heap w !! i) as [c|] eqn:Hi; [|done].
  specialize (Hf c (store w)). destruct (f c (store w)) as [c' s'].
  eapply accounted_update; [apply Hacc|done..|by apply length_insert|].
  simpl. intros j cj Hj. apply insert_circuit_cases in Hj as [[-> ->]|[Hne Hj]]; eauto.
Qed.

Lemma transition_active d cause cd now c s :
  active_call_count (transition_ d cause cd now c s).1 = active_call_count c.
Proof.
  unfold transition_. pose proof (resolve_strategy_active c) as Hr.
  destruct (resolve_strategy c). done.
Qed.

(** What a reconfiguration leaves of the heap. *)
Lemma republish_heap cfg ids (h : list Circuit) i :
  foldl (fun h j => alter (republish cfg) j h) h ids !! i =
  (if decide (i ∈ ids) then republish cfg else id) <$> h !! i.
Proof.
  revert h. induction ids as [|j ids IH]; intros h; simpl.
  - by destruct (h !! i).
  - rewrite IH. destruct (decide (i = j)) as [->|Hne].
    + rewrite list_lookup_alter_eq, (decide_True (P := j ∈ j :: ids)) by left.
      destruct (h !! j); simpl; [|done]. by case_decide.
    + rewrite list_lookup_alter_ne by done.
      destruct (decide (i ∈ ids)); [rewrite decide_True by (by right)|
        rewrite decide_False by set_solver]; done.
Qed.

Lemma republish_length cfg ids (h : list Circuit) :
  length (foldl (fun h j => alter (republish cfg) j h) h ids) = length h.
Proof.
  revert h. induction ids as [|j ids IH]; intros h; simpl; [done|].
  by rewrite IH, length_alter.
Qed.

Lemma apply_reconfigure_heap cfg w i :
  heap (apply_reconfigure cfg w) !! i =
  (if decide (i ∈ 0%nat :: (keyed w).*2) then republish cfg else id) <$> heap w !! i.
Proof.
  change (heap (apply_reconfigure cfg w)) with
    (foldl (fun h j => alter (republish cfg) j h) (heap w) (0%nat :: (keyed w).*2)).
  apply republish_heap.
Qed.

Lemma reconfigure_accounted w fs on cfg :
  accounted (w, fs) -> accounted ((reconfigure on cfg w).2, fs).
Proof.
  intros Hacc. unfold reconfigure. case_decide; [done|]. destruct (config_eqb _ _); [done|].
  eapply accounted_update; [apply Hacc|done..| |]; simpl.
  - by rewrite republish_length, length_alter.
  - intros i c' Hi. change (heap (apply_reconfigure cfg w) !! i = Some c') in Hi.
    rewrite apply_reconfigure_heap in Hi. apply fmap_Some in Hi as (c & Hi & ->).
    exists c. split; [done|]. by case_decide.
Qed.

Lemma step_accounted l ws ws' : step l ws ws' -> accounted ws -> accounted ws'.
Proof.
  intros Hs Hacc. destruct Hs.
  - by eapply (enter_accounted _ _ _ _ _ _ _ (Return tt)).
  - unfold enter in *. destruct (heap w !! i) as [c|] eqn:Hi; [|by simplify_eq].
    eapply (enter_accounted w fs task i now c w' (Raise e)); [done..|].
    unfold enter. by rewrite Hi.
  - by eapply exit_accounted.
  - by apply keyed_get_accounted.
  - apply on_circuit_accounted; [done|]. intros. apply transition_active.
  - apply on_circuit_accounted; [done|]. intros. unfold reset. by rewrite transition_active.
  - by apply reconfigure_accounted.
Qed.

Lemma new_world_accounted name cfg max s : accounted (new_world name cfg max s, []).
Proof.
  unfold accounted, new_world. simpl. split_and!; try done; try lia; auto with dict.
  - intros [|i] c Hi; by simplify_eq/=.
  - intros f Hf. by apply not_elem_of_nil in Hf.
  - intros key i Hi. by apply not_elem_of_nil in Hi.
Qed.

Definition step_any (a b : World * list frame_) : Prop := exists l, step l a b.

Definition reachable (name : string) (cfg : ConsecutiveCountConfig) (max : Z) (s : B)
    (ws : World * list frame_) : Prop :=
  cc_valid cfg /\ cs_ok s /\
  rtc step_any (new_world name cfg max s, []) ws.

Lemma reachable_accounted name cfg max s ws :
  reachable name cfg max s ws -> accounted ws.
Proof.
  intros (_ & _ & Hr). eapply (invariant_rtc _ accounted); [|done|].
  - intros a b [l Hs]. by eapply step_accounted.
  - apply new_world_accounted.
Qed.

(** ** What every circuit object satisfies

    Its bound strategy is the one of its published configuration, and its
    cached state is the last one it logged. *)
Definition circuit_ok (c : Circuit) : Prop :=
  cc_valid (c_config c) /\
  (forall b, c_strategy c = Some b -> b = bind (c_name c) (c_config c)) /\
  cached_state c = default CLOSED (fst <$> last (c_log c)) /\
  0 <= total_error_count c /\ 0 <= total_success_count c.

Lemma bind_bound name cfg : cc_valid cfg -> bound (bind name cfg).
Proof. by split. Qed.

Lemma resolve_ok c :
  circuit_ok c ->
  let '(b, c') := resolve_strategy c in
  circuit_ok c' /\ b = bind (c_name c) (c_config c) /\ bound b /\
  c_name c' = c_name c /\ total_error_count c' = total_error_count c /\
  total_success_count c' = total_success_count c.
Proof.
  intros Hc. pose proof Hc as (Hv & Hb & Hl & He & Hs). unfold resolve_strategy.
  destruct (c_strategy c) as [b|] eqn:E.
  - pose proof (Hb b eq_refl) as Hbe. subst b.
    by split_and!.
  - split_and!; try done. split_and!; try done. by intros b [= <-].
Qed.

Lemma set_cached_ok st e k log c :
  circuit_ok c -> st = default (cached_state c) (fst <$> last log) ->
  circuit_ok (set_cached st e k log c).
Proof.
  intros (Hv & Hb & Hl & He & Hs) Hst. split_and!; simpl; try done; try apply Hv.
  rewrite last_app. destruct (last log) as [[]|] eqn:E; rewrite ?E; simpl in *; by rewrite Hst.
Qed.

Lemma apply_snapshot_ok snap c : circuit_ok c -> circuit_ok (apply_snapshot snap c).
Proof. intros Hc. apply set_cached_ok; [done|]. by case_decide. Qed.

Lemma set_active_ok k now c : circuit_ok c -> circuit_ok (set_active k now c).
Proof. done. Qed.

Lemma set_totals_ok e k err at_ c :
  circuit_ok c -> 0 <= e -> 0 <= k -> circuit_ok (set_totals e k err at_ c).
Proof. by intros (Hv & Hb & Hl & _ & _) ? ?. Qed.

Lemma republish_ok cfg c : cc_valid cfg -> circuit_ok c -> circuit_ok (republish cfg c).
Proof. intros Hcfg (Hv & Hb & Hl & He & Hs). by split_and!. Qed.

Lemma keyed_init_ok c key now : circuit_ok c -> circuit_ok (keyed_init c key now).
Proof. intros (Hv & _). by split_and!. Qed.

(** What an operation on the backend preserves. *)
Definition store_kept (l : option string) (s s' : B) : Prop :=
  cs_ok s -> cs_ok s' /\ forall n, l <> Some n -> cs_held n s -> cs_held n s'.

Lemma store_kept_refl l s : store_kept l s s.
Proof. by split. Qed.

Lemma admit_ok now c s :
  circuit_ok c ->
  circuit_ok (async_admit now c s).1.2 /\ store_kept None s (async_admit now c s).2 /\
  c_name (async_admit now c s).1.2 = c_name c.
Proof.
  intros Hc. unfold async_admit. pose proof (resolve_ok c Hc) as Hr.
  destruct (resolve_strategy c) as [b c']. destruct Hr as (Hc' & _ & Hb & Hn & _).
  assert (store_kept None s (cs_acquire b now s).2) as Hk.
  { intros Hs. split; [by apply cs_ok_acquire|]. intros. by apply cs_held_acquire. }
  destruct (cs_acquire b now s) as [[] s']; simpl in *; split_and!; try done.
  by apply apply_snapshot_ok.
Qed.

Lemma handle_exit_ok config exc now wall c s :
  circuit_ok c ->
  circuit_ok (handle_exit config exc now wall c s).1 /\
  store_kept None s (handle_exit config exc now wall c s).2.
Proof.
  intros Hc. unfold handle_exit.
  pose proof (resolve_ok (release_call now c) Hc) as Hr.
  destruct (resolve_strategy _) as [b c']. destruct Hr as (Hc' & _ & Hb & _ & He & Hs).
  assert (forall ok, store_kept None s (cs_record b ok now s).2) as Hk.
  { intros ok Hs'. split; [by apply cs_ok_record|]. intros. by apply cs_held_record. }
  pose proof Hc' as (_ & _ & _ & ? & ?).
  destruct (classify config exc); [specialize (Hk true)|specialize (Hk false)|];
    [destruct (cs_record b true now s)|destruct (cs_record b false now s)|];
    (split; [|by try apply store_kept_refl]); try done;
    apply apply_snapshot_ok, set_totals_ok; done || lia.
Qed.

Lemma transition_ok d cause cd now c s :
  circuit_ok c ->
  circuit_ok (transition_ d cause cd now c s).1 /\
  store_kept (Some (c_name c)) s (transition_ d cause cd now c s).2.
Proof.
  intros Hc. unfold transition_. pose proof (resolve_ok c Hc) as Hr.
  destruct (resolve_strategy c) as [b c']. destruct Hr as (Hc' & E & Hb & _). simpl.
  split; [by apply set_cached_ok|]. intros Hs. split; [by apply cs_ok_transition|].
  intros n Hn. apply cs_held_other; [done..|]. subst b. simpl. congruence.
Qed.

Definition world_ok (w : World) : Prop := Forall circuit_ok (heap w) /\ cs_ok (store w).

Lemma world_circuit w i c : world_ok w -> heap w !! i = Some c -> circuit_ok c.
Proof. intros [Hf _] Hi. by eapply Forall_lookup_1. Qed.

(** A step on one circuit keeps the world. *)
Lemma world_ok_update w c i w' l :
  world_ok w -> circuit_ok c -> heap w' = <[i:=c]> (heap w) ->
  store_kept l (store w) (store w') ->
  world_ok w' /\ (forall n, l <> Some n -> cs_held n (store w) -> cs_held n (store w')).
Proof.
  intros [Hf Hs] Hc Eh Hk. destruct (Hk Hs) as [Hs' Hheld]. split; [|done].
  split; [|done]. rewrite Eh. by apply Forall_insert.
Qed.

Lemma step_world l w fs w' fs' :
  step l (w, fs) (w', fs') -> world_ok w ->
  world_ok w' /\ (forall n, l <> Some n -> cs_held n (store w) -> cs_held n (store w')).
Proof.
  intros Hs Hw.
  assert (forall task i now c r, heap w !! i = Some c -> enter task i now w = (r, w') ->
    world_ok w' /\
    (forall n, None <> Some n -> cs_held n (store w) -> cs_held n (store w'))) as Hent.
  { intros task i now c r Hi He. unfold enter in He. rewrite Hi in He. unfold aenter in He.
    destruct (admit_ok now c (store w) (world_circuit _ _ _ Hw Hi)) as (Hc & Hk & _).
    destruct (async_admit now c (store w)) as [[ok c'] s']. simpl in *.
    destruct ok; injection He as <- <-;
      by apply (world_ok_update w c' i). }
  inversion Hs as [? ? ? ? ? ? ? Hi0|? ? ? ? ? ? ?|? ? ? ? ? ? ? ? ?|? ? ? ? ?|? ? ? ? ? Hi1|? ? ? ? ? Hi1|]; subst; clear Hs.
  - by eapply Hent.
  - match goal with E : enter _ ?i _ _ = _ |- _ => rename E into He; destruct (heap w !! i) eqn:Hi end;
      [by eapply Hent|]. unfold enter in He. rewrite Hi in He. by injection He as <- <-.
  - unfold exit_. destruct (heap w !! i) as [c|] eqn:Hi; [|done].
    unfold aexit. destruct (last _) as [cfg'|].
    + destruct (handle_exit_ok cfg' exc now wall c (store w) (world_circuit _ _ _ Hw Hi)) as [Hc Hk].
      destruct (handle_exit _ _ _ _ _ _) as [c' s']. by apply (world_ok_update w c' i).
    + apply (world_ok_update w c i); [done|by eapply world_circuit|done|apply store_kept_refl].
  - unfold keyed_get. case_decide; [done|]. destruct (dict_get key (keyed w)) as [i|]; simpl.
    + destruct (heap w !! i) as [c|] eqn:Hi; [|done].
      eapply (world_ok_update w (set_active (active_call_count c) now c) i);
        [done|by eapply set_active_ok, world_circuit|done|apply store_kept_refl].
    + destruct (heap w !! 0%nat) as [br|] eqn:Hi; [|done]. simpl. split; [|done].
      split; [|apply Hw]. simpl. apply Forall_app. split; [apply Hw|].
      constructor; [|done]. by eapply keyed_init_ok, world_circuit.
  - unfold on_circuit, isolate. rewrite Hi1.
    destruct (transition_ok FORCED_OPEN MANUAL None now c (store w)
      (world_circuit _ _ _ Hw Hi1)) as [Hc Hk].
    destruct (transition_ _ _ _ _ _ _) as [c' s']. by apply (world_ok_update w c' i).
  - unfold on_circuit, reset. rewrite Hi1.
    destruct (transition_ok CLOSED RESTART None now (set_totals 0 0 None None c) (store w)
      (set_totals_ok _ _ _ _ _ (world_circuit _ _ _ Hw Hi1) (Z.le_refl _) (Z.le_refl _))) as [Hc Hk].
    destruct (transition_ _ _ _ _ _ _) as [c' s']. by apply (world_ok_update w c' i).
  - unfold reconfigure. case_decide; [done|]. destruct (config_eqb _ _); [done|].
    split; [|done]. split; [|apply Hw]. apply Forall_lookup. intros i c' Hi.
    simpl in Hi. change (heap (apply_reconfigure cfg w) !! i = Some c') in Hi.
    rewrite apply_reconfigure_heap in Hi. apply fmap_Some in Hi as (c & Hi & ->).
    pose proof (world_circuit _ _ _ Hw Hi). case_decide; [by apply republish_ok|done].
Qed.

Lemma new_world_ok name cfg max s :
  cc_valid cfg -> cs_ok s -> world_ok (new_world name cfg max s).
Proof.
  intros Hcfg Hs. split; [|done]. repeat constructor; simpl; try done; apply Hcfg.
Qed.

(** Steps that do not move the circuits named [n] by hand. *)
Definition step_quiet (n : string) (a b : World * list frame_) : Prop :=
  exists l, l <> Some n /\ step l a b.

Lemma quiet_held n ws ws' :
  rtc (step_quiet n) ws ws' -> world_ok ws.1 ->
  world_ok ws'.1 /\ (cs_held n (store ws.1) -> cs_held n (store ws'.1)).
Proof.
  intros Hr Hw. induction Hr as [ws|[w fs] [w1 fs1] ws2 (l & Hl & Hs) _ IH]; [done|].
  destruct (step_world l w fs w1 fs1 Hs Hw) as [Hw1 Hh].
  destruct (IH Hw1) as [Hw2 Hh2]. split; [done|]. intros Hn. apply Hh2, Hh; done.
Qed.

Lemma reachable_ok name cfg max s ws : reachable name cfg max s ws -> world_ok ws.1.
Proof.
  intros (Hcfg & Hs & Hr). pose proof (new_world_ok name cfg max s Hcfg Hs) as H0.
  revert H0. change (new_world name cfg max s) with (new_world name cfg max s, @nil frame_).1.
  induction Hr as [|[w fs] [w1 fs1] ws2 [l Hl] _ IH]; [done|].
  intros Hw. apply IH. by eapply step_world.
Qed.

(** C15 However calls on the breaker and its per-key circuits enter, are rejected,
    fail and end, in whatever tasks, through resets, evictions and
    reconfigurations, every circuit counts exactly its calls in flight, and a
    task's stack holds the configurations its open calls were admitted with. *)
Theorem calls_accounted (name : string) (cfg : ConsecutiveCountConfig) (max : Z)
    (s : B) (w : World) (fs : list frame_) :
  reachable name cfg max s (w, fs) ->
  (forall i c, heap w !! i = Some c -> me_active_calls (metrics c) = calls_of i fs) /\
  (forall task, default [] (stacks w !! task) = configs_of task fs) /\
  dict_wf (keyed w).
Proof. intros Hr. by destruct (reachable_accounted _ _ _ _ _ Hr) as (? & ? & _ & ? & _). Qed.

(** A call is classified by the configuration it was admitted with, whatever
    was published since: its exit records a success for no exception or an
    ignored one, a failure for another [Exception], nothing for a
    cancellation, and never raises or swallows. *)
Lemma exit_uses_admission_config (name : string) (cfg : ConsecutiveCountConfig)
    (max : Z) (s : B) (w : World) (fs1 fs2 : list frame_) (task i : nat)
    (admitted : ConsecutiveCountConfig) (exc : option exn) (now wall : Q) :
  reachable name cfg max s (w, fs1 ++ (task, i, admitted) :: fs2) ->
  configs_of task fs2 = [] ->
  exists c, heap w !! i = Some c /\
    let '(c', s') := handle_exit admitted exc now wall c (store w) in
    let '(r, w') := exit_ task i exc now wall w in
    r = Return tt /\ heap w' !! i = Some c' /\ store w' = s' /\
    total_success_count c' =
      total_success_count c + match classify admitted exc with Success => 1 | _ => 0 end /\
    total_error_count c' =
      total_error_count c + match classify admitted exc with Failure _ => 1 | _ => 0 end.
Proof.
  intros Hr Hlast. pose proof (reachable_ok _ _ _ _ _ Hr) as Hw.
  destruct (reachable_accounted _ _ _ _ _ Hr) as (H1 & _ & H3 & _).
  pose proof (H3 (task, i, admitted) ltac:(set_solver)) as Hlt. simpl in Hlt, Hw.
  apply lookup_lt_is_Some_2 in Hlt as [c Hi]. exists c. split; [done|].
  pose proof (H1 task) as Hst. rewrite configs_of_app, configs_of_cons, Hlast in Hst.
  simpl in Hst. rewrite decide_True in Hst by done.
  unfold exit_. rewrite Hi, Hst. unfold aexit. simpl. rewrite last_snoc.
  destruct (handle_exit admitted exc now wall c (store w)) as [c' s'] eqn:He. simpl.
  rewrite list_lookup_insert_eq by (by eapply lookup_lt_Some).
  pose proof (resolve_ok (release_call now c) (world_circuit _ _ _ Hw Hi)) as Hres.
  unfold handle_exit in He. destruct (resolve_strategy _) as [b c1].
  destruct Hres as (_ & _ & _ & _ & Ee & Es). simpl in Ee, Es.
  destruct (classify admitted exc); [destruct (cs_record b true now (store w))
    |destruct (cs_record b false now (store w))|];
    injection He as <- <-; simpl; split_and!; done || lia.
Qed.

(** [isolate] is a big red button: from then on, whatever runs on the breaker
    or on any circuit of the same name, every call on that name raises
    [CircuitBreakerError] and the circuit reports [FORCED_OPEN], until that
    name is reset. *)
Lemma isolate_blocks_until_reset (name : string) (cfg : ConsecutiveCountConfig)
    (max : Z) (s : B) (w w' : World) (fs fs' : list frame_) (i j task : nat)
    (c c' : Circuit) (now now' : Q) :
  reachable name cfg max s (w, fs) -> heap w !! i = Some c ->
  rtc (step_quiet (c_name c)) (on_circuit (isolate now) i w, fs) (w', fs') ->
  heap w' !! j = Some c' -> c_name c' = c_name c ->
  let '(r, w'') := enter task j now' w' in
  r = Raise (mk_exn CircuitBreakerError (Named (c_name c))) /\
  exists c'', heap w'' !! j = Some c'' /\ cached_state c'' = FORCED_OPEN.
Proof.
  intros Hr Hi Hq Hj Hn. pose proof (reachable_ok _ _ _ _ _ Hr) as Hw.
  destruct (step_world _ _ _ _ _ (step_isolate w fs i c now Hi) Hw) as [Hw1 _].
  destruct (quiet_held _ _ _ Hq Hw1) as [Hw' Hheld]. simpl in *.
  assert (cs_held (c_name c) (store w')) as Hh.
  { apply Hheld. unfold on_circuit, isolate, transition_. rewrite Hi.
    pose proof (resolve_ok c (world_circuit _ _ _ Hw Hi)) as Hc.
    destruct (resolve_strategy c) as [b c1]. destruct Hc as (_ & E & Hb & _). simpl.
    replace (c_name c) with (s_name b) by (by rewrite E).
    apply cs_held_transition; [apply Hw|done]. }
  unfold enter. rewrite Hj. unfold aenter, async_admit.
  pose proof (resolve_ok c' (world_circuit _ _ _ Hw' Hj)) as Hc.
  destruct (resolve_strategy c') as [b c1]. destruct Hc as (_ & E & Hb & En & _).
  assert (s_name b = c_name c) as Hname by (by rewrite E).
  destruct (cs_held_rejects b now' (store w') (proj2 Hw') Hb) as [Hrej Hsnap].
  { by rewrite Hname. }
  destruct (cs_acquire b now' (store w')) as [ok s']. simpl in Hrej, Hsnap. subst ok.
  simpl. unfold circuit_breaker_error. simpl. rewrite En, Hn. split; [done|].
  eexists. rewrite list_lookup_insert_eq by (by eapply lookup_lt_Some). by split.
Qed.

(** The cached state every circuit shows is the last one it logged: a change
    of state seen in a snapshot is logged exactly once, with its cause. *)
Lemma cached_state_is_last_logged (name : string) (cfg : ConsecutiveCountConfig)
    (max : Z) (s : B) (w : World) (fs : list frame_) (i : nat) (c : Circuit) :
  reachable name cfg max s (w, fs) -> heap w !! i = Some c ->
  cached_state c = default CLOSED (fst <$> last (c_log c)) /\
  forall snap, c_log (apply_snapshot snap c) =
    c_log c ++ (if decide (sn_state snap = cached_state c) then []
                else [(sn_state snap, derive_cause (cached_state c) (sn_state snap))]).
Proof.
  intros Hr Hi. destruct (world_circuit _ _ _ (reachable_ok _ _ _ _ _ Hr) Hi) as (_ & _ & Hl & _).
  split; [done|]. intros snap. unfold apply_snapshot. simpl.
  f_equal. destruct (decide (cached_state c = sn_state snap)) as [->|Hne].
  - by rewrite decide_True.
  - rewrite decide_False; [done|congruence].
Qed.

(** A new key evicts exactly the least recently used circuits that are idle
    (no call in flight, untouched for the residency window), as few of them as
    the budget asks for; every other circuit, busy ones above all, stays in
    its place. *)
Lemma keyed_evicts_idle_lru (name : string) (cfg : ConsecutiveCountConfig)
    (max : Z) (s : B) (w : World) (fs : list frame_) (key : string) (now : Q) :
  reachable name cfg max s (w, fs) -> dict_get key (keyed w) = None ->
  let '(r, w') := keyed_get 0 key now w in
  let i := length (heap w) in
  let d := keyed w ++ [(key, i)] in
  r = Return i /\
  keyed w' = (if maxsize w =? 0 then d
    else drop_evictable now (heap w') (Z.to_nat (Z.of_nat (length d) - maxsize w)) d) /\
  forall k j, (k, j) ∈ d -> (k, j) ∉ keyed w' -> calls_of j fs = 0.
Proof.
  intros Hr Hk. destruct (reachable_accounted _ _ _ _ _ Hr) as (_ & H2 & H3 & H4 & H5 & H6).
  unfold keyed_get. rewrite decide_False by auto. rewrite Hk.
  destruct (heap w !! 0%nat) as [br|] eqn:Hbr.
  2: { apply lookup_ge_None in Hbr. lia. }
  assert (dict_set key (length (heap w)) (keyed w) = keyed w ++ [(key, length (heap w))]) as Hset.
  { clear -Hk. induction (keyed w) as [|[k j] d IH]; simpl in *; [done|].
    case_decide; [done|]. by rewrite IH. }
  assert (dict_wf (keyed w ++ [(key, length (heap w))])) as Hwf
    by (rewrite <- Hset; by apply dict_set_wf).
  rewrite Hset. simpl. rewrite evict_keyed_drop by done.
  split; [done|]. split; [done|]. intros k j Hin Hout.
  destruct (maxsize w =? 0); [done|].
  destruct (decide (j = length (heap w))) as [->|Hne].
  { apply calls_of_none. intros f Hf. specialize (H3 f Hf). lia. }
  assert (j < length (heap w))%nat as Hlt.
  { apply elem_of_app in Hin as [Hin|Hin%list_elem_of_singleton]; [by eapply H5|congruence]. }
  apply lookup_lt_is_Some_2 in Hlt as [c Hc].
  rewrite <- (H2 j c Hc).
  apply (dropped_idle _ _ _ _ (k, j) Hin) in Hout.
  unfold entry_evictable in Hout. simpl in Hout.
  rewrite lookup_app_l in Hout by (by eapply lookup_lt_Some). rewrite Hc in Hout.
  unfold evictable in Hout. apply andb_prop in Hout as [Ha _]. by apply Z.eqb_eq.
Qed.
End Operations.

(** ** The in-memory backend implements the interface *)

Section Memory.
Implicit Types (st : states) (b : Strategy).

Definition mem_held (n : string) st : Prop :=
  exists e, dict_get n st = Some e /\ b_state e = FORCED_OPEN.

Lemma mem_held_view n now st :
  wf_states st -> mem_held n st <-> entry_view now (dict_get n st) = Held true.
Proof.
  intros [_ Hwf]. unfold mem_held, entry_view. destruct (dict_get n st) as [e|] eqn:E.
  2: { split; [by intros (e & ? & _)|done]. }
  specialize (Hwf n e E). unfold wf_entry, circuit_view, circuit_of in *. simpl. split.
  - intros (e' & [= <-] & Es). rewrite Es in *. destruct Hwf as (_ & _ & _ & _ & _ & ->). done.
  - intros Hv. exists e. split; [done|]. destruct (expired now (expires_at e)); [done|].
    by destruct (b_state e).
Qed.

(** An operation that the specification leaves the circuit [n] alone keeps the
    hold. *)
Lemma mem_held_implements n now st st' m' :
  wf_states st -> mem_held n st -> implements now st' m' ->
  m' n = circuits_of st n -> mem_held n st'.
Proof.
  intros Hwf Hh Him Hm. apply (mem_held_view n now); [apply Him|].
  apply (mem_held_view n now) in Hh; [|done].
  rewrite (proj2 Him n now (Qle_refl _)), Hm.
  by rewrite <- (proj2 (circuits_of_implements now st Hwf) n now (Qle_refl _)).
Qed.

Lemma mem_held_circuit n now st :
  wf_states st -> mem_held n st -> circuit_view now (circuits_of st n) = Held true.
Proof.
  intros Hwf Hh. rewrite <- (proj2 (circuits_of_implements now st Hwf) n now (Qle_refl _)).
  by apply mem_held_view.
Qed.

Lemma mem_acquire n now st cfg name :
  wf_states st -> cc_valid cfg ->
  let r := try_acquire (bind name cfg) now st in
  wf_states r.2 /\ (mem_held n st -> mem_held n r.2 /\
    (name = n -> r.1 = false /\
     sn_state (get_snapshot (bind name cfg) now r.2) = FORCED_OPEN)).
Proof.
  intros Hwf Hv r. destruct (acquire_refines name cfg Hv now now st _
    (circuits_of_implements now st Hwf) (Qle_refl _)) as [E F]. fold r in E, F.
  split; [apply F|]. intros Hh. split.
  - eapply mem_held_implements; [done..|]. destruct (decide (n = name)) as [->|Hne].
    + by rewrite mem_held_circuit.
    + by apply put_opt_ne.
  - intros ->. rewrite mem_held_circuit in E by done. split; [done|].
    rewrite (snapshot_refines n cfg now now _ _ F (Qle_refl _)).
    rewrite mem_held_circuit by done. simpl. by rewrite mem_held_circuit.
Qed.

Lemma mem_record n now st cfg name ok :
  wf_states st ->
  let st' := (record_outcome (bind name cfg) ok now st).2 in
  wf_states st' /\ (mem_held n st -> mem_held n st').
Proof.
  intros Hwf st'. destruct (record_refines name cfg now now st _
    (circuits_of_implements now st Hwf) (Qle_refl _) ok) as [_ F].
  split; [apply F|]. intros Hh. eapply mem_held_implements; [done..|].
  destruct (decide (n = name)) as [->|Hne].
  - rewrite mem_held_circuit by done. by destruct ok.
  - by apply put_opt_ne.
Qed.

Lemma mem_transition n now st cfg name d cd :
  wf_states st ->
  let st' := transition (bind name cfg) d cd now st in
  wf_states st' /\ (name <> n -> mem_held n st -> mem_held n st') /\
  (d = FORCED_OPEN -> mem_held name st').
Proof.
  intros Hwf st'. pose proof (transition_refines name cfg now now st _
    (circuits_of_implements now st Hwf) (Qle_refl _) d cd) as F. fold st' in F.
  split; [apply F|]. split.
  - intros Hne Hh. eapply mem_held_implements; [done..|]. by apply put_ne.
  - intros ->. apply (mem_held_view name now); [apply F|].
    rewrite (proj2 F name now (Qle_refl _)). simpl. by rewrite put_eq.
Qed.

#[local] Obligation Tactic := idtac.

#[export] Program Instance memory_store : CircuitStore states := {
  cs_acquire := try_acquire;
  cs_record := record_outcome;
  cs_transition := transition;
  cs_snapshot := get_snapshot;
  cs_ok := wf_states;
  cs_held := mem_held;
}.
Next Obligation. intros b now s Hs [-> Hv]. by apply (mem_acquire ""). Qed.
Next Obligation. intros b ok now s Hs [-> Hv]. by apply (mem_record ""). Qed.
Next Obligation. intros b d cd now s Hs [-> Hv]. by apply (mem_transition ""). Qed.
Next Obligation. intros b cd now s Hs [-> Hv]. by apply (mem_transition ""). Qed.
Next Obligation.
  intros b now s Hs [-> Hv] Hh. simpl in *.
  by apply (mem_acquire (s_name b) now s (s_config b) (s_name b)).
Qed.
Next Obligation. intros n b now s Hs [-> Hv] Hh. by apply mem_acquire. Qed.
Next Obligation. intros n b ok now s Hs [-> Hv] Hh. by apply mem_record. Qed.
Next Obligation.
  intros n b d cd now s Hs [-> Hv] Hn Hh. simpl in *. by apply mem_transition.
Qed.
End Memory.

(** ** Concrete runs *)

Inductive call : Type :=
| CEnter (task i : nat) (now : Q)
| CExit (task i : nat) (exc : option exn) (now : Q)
| CKeyed (key : string) (now : Q)
| CReconfigure (cfg : ConsecutiveCountConfig).

Definition play1 (o : call) (w : World (B := states)) :
    option exn * World (B := states) :=
  let of_outcome {A} (r : outcome exn A) :=
    match r with Return _ => None | Raise e => Some e end in
  match o with
  | CEnter task i now => let '(r, w) := enter task i now w in (of_outcome r, w)
  | CExit task i exc now => let '(r, w) := exit_ task i exc now now w in (of_outcome r, w)
  | CKeyed key now => let '(r, w) := keyed_get 0 key now w in (of_outcome r, w)
  | CReconfigure cfg => let '(r, w) := reconfigure 0 cfg w in (of_outcome r, w)
  end.

Definition boom : exn := mk_exn RuntimeError NoInfo.
Definition cancelled : exn := mk_exn CancelledError NoInfo.
Definition rejected : exn := mk_exn CircuitBreakerError (Named "db").

(** A probe that is cancelled never gives its slot back: its exit records no
    outcome, so with the default capacity of one the recovered service stays
    cut off, every call being rejected, for the rest of the day. *)
Lemma cancelled_probe_locks_out :
  (run play1 [CEnter 1 0 1; CExit 1 0 (Some boom) 2;
              CEnter 1 0 3; CExit 1 0 (Some boom) 4;
              CEnter 1 0 40; CExit 1 0 (Some cancelled) 41;
              CEnter 2 0 42; CEnter 3 0 1000; CEnter 4 0 86000]
     (new_world "db" cfg_small 0 [])).1 =
  [None; None; None; None; None; None;
   Some rejected; Some rejected; Some rejected].
Proof. vm_compute. reflexivity. Qed.

Definition cfg_tolerant : ConsecutiveCountConfig :=
  mkConsecutiveCountConfig [ValueError] 9 2 30 1 "WARNING".

(** A per-key circuit that was evicted while its caller still holds it is no
    longer in the breaker's map, so a reconfiguration does not reach it: it
    keeps the old configuration for good, next to the new circuit of the same
    key that has the new one. *)
Lemma evicted_circuit_keeps_stale_config :
  let w := (run play1 [CKeyed "a" 0; CKeyed "b" 301; CReconfigure cfg_tolerant;
                       CKeyed "a" 602]
              (new_world "db" cfg_small 1 [])).2 in
  dict_get "a" (keyed w) = Some 3%nat /\
  (c_name <$> heap w !! 1%nat) = Some "db:a" /\
  (c_config <$> heap w !! 1%nat) = Some cfg_small /\
  (c_name <$> heap w !! 3%nat) = Some "db:a" /\
  (c_config <$> heap w !! 3%nat) = Some cfg_tolerant.
Proof. vm_compute. split_and!; reflexivity. Qed.

(** One call in flight on the breaker. *)
Definition w_call : World (B := states) := (enter 1 0 1 (new_world "db" cfg_small 2 [])).2.

Lemma w_call_reachable :
  reachable "db" cfg_small 2 [] (w_call, [(1%nat, 0%nat, cfg_small)]).
Proof.
  split; [apply cfg_small_valid|]. split; [apply wf_states_nil|].
  eapply rtc_l; [|apply rtc_refl]. exists None.
  apply (step_enter _ [] 1 0 1 (setup "db" cfg_small)); [done|].
  vm_compute. reflexivity.
Qed.

Lemma calls_accounted_witness :
  (forall i c, heap w_call !! i = Some c ->
     me_active_calls (metrics c) = calls_of i [(1%nat, 0%nat, cfg_small)]) /\
  (forall task, default [] (stacks w_call !! task) =
     configs_of task [(1%nat, 0%nat, cfg_small)]) /\
  dict_wf (keyed w_call).
Proof. apply (calls_accounted "db" cfg_small 2 []), w_call_reachable. Defined.

Lemma exit_uses_admission_config_witness :
  exists c, heap w_call !! 0%nat = Some c /\
    let '(c', s') := handle_exit cfg_small (Some boom) 2 2 c (store w_call) in
    let '(r, w') := exit_ 1 0 (Some boom) 2 2 w_call in
    r = Return tt /\ heap w' !! 0%nat = Some c' /\ store w' = s' /\
    total_success_count c' = total_success_count c + 0 /\
    total_error_count c' = total_error_count c + 1.
Proof.
  apply (exit_uses_admission_config "db" cfg_small 2 [] w_call [] [] 1 0 cfg_small);
    [apply w_call_reachable|done].
Defined.

Lemma isolate_blocks_until_reset_witness :
  let '(r, w'') := enter 7 0 99 (on_circuit (isolate 2) 0 w_call) in
  r = Raise rejected /\ exists c, heap w'' !! 0%nat = Some c /\ cached_state c = FORCED_OPEN.
Proof.
  destruct (heap w_call !! 0%nat) as [c|] eqn:Hc; [|by vm_compute in Hc].
  assert (c_name c = "db") as Hn by (vm_compute in Hc; by simplify_eq).
  destruct (heap (on_circuit (isolate 2) 0 w_call) !! 0%nat) as [c'|] eqn:Hc';
    [|by vm_compute in Hc'].
  assert (c_name c' = "db") as Hn' by (vm_compute in Hc'; by simplify_eq).
  unfold rejected. rewrite <- Hn.
  apply (isolate_blocks_until_reset "db" cfg_small 2 [] w_call
    (on_circuit (isolate 2) 0 w_call) [(1%nat, 0%nat, cfg_small)]
    [(1%nat, 0%nat, cfg_small)] 0 0 7 c c' 2 99);
    [apply w_call_reachable|done|apply rtc_refl|done|congruence].
Defined.

Lemma cached_state_is_last_logged_witness :
  cached_state (setup "db" cfg_small) = CLOSED /\
  forall snap, c_log (apply_snapshot snap (setup "db" cfg_small)) =
    [] ++ (if decide (sn_state snap = CLOSED) then []
           else [(sn_state snap, derive_cause CLOSED (sn_state snap))]).
Proof.
  apply (cached_state_is_last_logged "db" cfg_small 2 [] (new_world "db" cfg_small 2 [])
    [] 0 (setup "db" cfg_small)); [|done].
  split; [apply cfg_small_valid|]. split; [apply wf_states_nil|apply rtc_refl].
Defined.

Lemma keyed_evicts_idle_lru_witness :
  let '(r, w') := keyed_get 0 "a" 5 w_call in
  r = Return 1%nat /\
  keyed w' = drop_evictable 5 (heap w') 0 [("a", 1%nat)] /\
  forall k j, (k, j) ∈ [("a", 1%nat)] -> (k, j) ∉ keyed w' ->
    calls_of j [(1%nat, 0%nat, cfg_small)] = 0.
Proof.
  apply (keyed_evicts_idle_lru "db" cfg_small 2 [] w_call [(1%nat, 0%nat, cfg_small)] "a" 5);
    [apply w_call_reachable|done].
Defined.
