(* ===== verification/CoordinationMemory.v ===== *)
(** * In-memory coordination backends

    [grelmicro/coordination/memory.py]: the lease lock, the schedule store and
    the leader-election record store, with the contract of a lock backend
    ([grelmicro/coordination/_protocol.py]) as a type class that the lock is
    proved against.

    No method awaits between its reads and its writes, so each is one step.  A
    lock method reads [monotonic()] up to twice, [now1] and then [now2]. *)

From S2P Require Import Prelude Errors.

Local Open Scope Z_scope.

(** ** The contract of a lock backend

    What one lock name is: who holds it until when, and how often it went from
    free to held. *)
Record Lease : Type := mkLease {
  l_holder : option (string * Q);
  l_fence : Z;
}.

Definition no_lease : Lease := mkLease None 0.

(** The holder at an instant; a lease is over once its deadline is past. *)
Definition live_holder (t : Q) (l : Lease) : option string :=
  match l_holder l with
  | Some (token, until) => if (until <? t)%py then None else Some token
  | None => None
  end.

(** [acquire]: a free lock is granted under a new fencing number, the holder
    renews under its number, another token is refused. *)
Definition lease_acquire (token : string) (duration now1 now2 : Q) (l : Lease) :
    option Z * Lease :=
  let granted f := (Some f, mkLease (Some (token, now2 + duration)%Q) f) in
  match live_holder now1 l with
  | None => granted (l_fence l + 1)
  | Some holder =>
      if decide (holder = token) then granted (l_fence l) else (None, l)
  end.

Definition lease_release (token : string) (now1 : Q) (l : Lease) : bool * Lease :=
  if decide (live_holder now1 l = Some token) then (true, mkLease None (l_fence l))
  else (false, l).

(** Two leases nobody can tell apart from an instant on. *)
Definition lease_equiv (now : Q) (a b : Lease) : Prop :=
  l_fence a = l_fence b /\
  forall t, (now <= t)%Q -> live_holder t a = live_holder t b.

(** A backend.  A call that raises may or may not have reached the store. *)
Class LockBackend (B : Type) := {
  lb_acquire : string -> string -> Q -> Q -> Q -> B -> outcome exn (option Z) * B;
  lb_release : string -> string -> Q -> Q -> B -> outcome exn bool * B;
  lb_locked : string -> Q -> B -> outcome exn bool;
  lb_owned : string -> string -> Q -> B -> outcome exn bool;
  lb_ok : B -> Prop;
  lb_lease : B -> string -> Lease;
  lb_acquire_spec name token d now1 now2 s :
    lb_ok s -> (now1 <= now2)%Q -> (0 < d)%Q ->
    let '(r, s') := lb_acquire name token d now1 now2 s in
    let '(r', l') := lease_acquire token d now1 now2 (lb_lease s name) in
    lb_ok s' /\
    (forall n, n <> name -> lease_equiv now2 (lb_lease s' n) (lb_lease s n)) /\
    match r with
    | Return v => v = r' /\ lease_equiv now2 (lb_lease s' name) l'
    | Raise _ => lease_equiv now2 (lb_lease s' name) (lb_lease s name) \/
                 lease_equiv now2 (lb_lease s' name) l'
    end;
  lb_release_spec name token now1 now2 s :
    lb_ok s -> (now1 <= now2)%Q ->
    let '(r, s') := lb_release name token now1 now2 s in
    let '(r', l') := lease_release token now1 (lb_lease s name) in
    lb_ok s' /\
    (forall n, n <> name -> lease_equiv now2 (lb_lease s' n) (lb_lease s n)) /\
    match r with
    | Return v => v = r' /\ lease_equiv now2 (lb_lease s' name) l'
    | Raise _ => lease_equiv now2 (lb_lease s' name) (lb_lease s name) \/
                 lease_equiv now2 (lb_lease s' name) l'
    end;
  lb_locked_spec name now s b :
    lb_ok s -> lb_locked name now s = Return b ->
    b = bool_decide (is_Some (live_holder now (lb_lease s name)));
  lb_owned_spec name token now s b :
    lb_ok s -> lb_owned name token now s = Return b ->
    b = bool_decide (live_holder now (lb_lease s name) = Some token);
}.

Lemma lease_equiv_refl now l : lease_equiv now l l.
Proof. done. Qed.

#[export] Instance lease_equiv_equivalence now : Equivalence (lease_equiv now).
Proof.
  split; [done| |].
  - intros a b [Hf Hl]. split; [done|]. intros t Ht. by rewrite Hl.
  - intros a b c [Hf Hl] [Hf' Hl']. split; [congruence|].
    intros t Ht. by rewrite Hl, Hl'.
Qed.

Lemma lease_equiv_later now t a b : (now <= t)%Q -> lease_equiv now a b -> lease_equiv t a b.
Proof. intros Ht [Hf Hl]. split; [done|]. intros u Hu. apply Hl. lra. Qed.

(** An expired lease is no lease. *)
Lemma lease_equiv_expired now token until f :
  (until < now)%Q -> lease_equiv now (mkLease None f) (mkLease (Some (token, until)) f).
Proof. intros Hu. split; [done|]. intros t Ht. unfold live_holder. simpl. qcases. Qed.

Lemma live_holder_until t token until f :
  live_holder t (mkLease (Some (token, until)) f) =
  if (until <? t)%py then None else Some token.
Proof. done. Qed.

(** ** [MemoryLockAdapter] *)

Record LockStore : Type := mkLockStore {
  locks : gmap string (string * Q);
  fences : gmap string Z;
}.

Definition lock_init : LockStore := mkLockStore ∅ ∅.

(** [__aexit__] *)
Definition lock_close (s : LockStore) : LockStore := mkLockStore ∅ ∅.

(** [self._locks.get(name, (None, 0))] *)
Definition lock_entry (name : string) (s : LockStore) : option string * Q :=
  match locks s !! name with Some (t, e) => (Some t, e) | None => (None, 0%Q) end.

(** [acquire]; [self._fences[name]] raises when the key is missing. *)
Definition lock_acquire (name token : string) (duration now1 now2 : Q)
    (s : LockStore) : outcome exn (option Z) * LockStore :=
  let '(current_token, expire_at) := lock_entry name s in
  let free :=
    match current_token with None => true | Some _ => (expire_at <? now1)%py end in
  if free || bool_decide (current_token = Some token) then
    let fences :=
      if free then <[name := default 0 (fences s !! name) + 1]> (fences s)
      else fences s in
    let s := mkLockStore (<[name := (token, (now2 + duration)%Q)]> (locks s)) fences in
    match fences !! name with
    | Some f => (Return (Some f), s)
    | None => (Raise (mk_exn KeyError NoInfo), s)
    end
  else (Return None, s).

(** [release]; the second test is on the truth value of the token. *)
Definition lock_release (name token : string) (now1 now2 : Q) (s : LockStore) :
    outcome exn bool * LockStore :=
  let '(current_token, expire_at) := lock_entry name s in
  let gone := mkLockStore (delete name (locks s)) (fences s) in
  if bool_decide (current_token = Some token) && (expire_at >=? now1)%py
  then (Return true, gone)
  else if match current_token with
          | Some t => negb (bool_decide (t = "")) | None => false end
          && (expire_at <? now2)%py
  then (Return false, gone)
  else (Return false, s).

(** [locked] *)
Definition lock_locked (name : string) (now : Q) (s : LockStore) : outcome exn bool :=
  let '(current_token, expire_at) := lock_entry name s in
  Return (match current_token with Some _ => (expire_at >=? now)%py | None => false end).

(** [owned] *)
Definition lock_owned (name token : string) (now : Q) (s : LockStore) :
    outcome exn bool :=
  let '(current_token, expire_at) := lock_entry name s in
  Return (bool_decide (current_token = Some token) && (expire_at >=? now)%py).

(** Every held lock has a fencing number. *)
Definition lock_ok (s : LockStore) : Prop :=
  forall name e, locks s !! name = Some e -> is_Some (fences s !! name).

Definition lock_lease (s : LockStore) (name : string) : Lease :=
  mkLease (locks s !! name) (default 0 (fences s !! name)).

Lemma lock_acquire_refines name token d now1 now2 s :
  lock_ok s -> (now1 <= now2)%Q -> (0 < d)%Q ->
  let '(r, s') := lock_acquire name token d now1 now2 s in
  let '(r', l') := lease_acquire token d now1 now2 (lock_lease s name) in
  lock_ok s' /\ (forall n, n <> name -> lock_lease s' n = lock_lease s n) /\
  r = Return r' /\ lock_lease s' name = l'.
Proof.
  intros Hok Hle Hd. unfold lock_acquire, lock_entry, lease_acquire, live_holder.
  assert (forall f s', s' = mkLockStore (<[name := (token, (now2 + d)%Q)]> (locks s))
            (<[name := f]> (fences s)) ->
    lock_ok s' /\ (forall n, n <> name -> lock_lease s' n = lock_lease s n) /\
    lock_lease s' name = mkLease (Some (token, now2 + d)%Q) f) as Hset.
  { intros f s' ->. unfold lock_ok, lock_lease. simpl. split_and!.
    - intros n e. destruct (decide (name = n)) as [->|Hne].
      + rewrite !lookup_insert_eq. eauto.
      + rewrite !lookup_insert_ne by done. apply Hok.
    - intros n Hn. by rewrite !lookup_insert_ne.
    - by rewrite !lookup_insert_eq. }
  unfold lock_lease at 1. simpl. destruct (locks s !! name) as [[cur exp]|] eqn:El; simpl.
  - destruct (Hok _ _ El) as [f Hf]. rewrite Hf. simpl.
    destruct (Qlt_bool_spec exp now1); simpl.
    + rewrite lookup_insert_eq. by destruct (Hset (f + 1) _ eq_refl) as (? & ? & ->).
    + destruct (decide (cur = token)) as [->|Hne].
      * rewrite bool_decide_eq_true_2 by done. rewrite Hf.
        destruct (Hset f _ eq_refl) as (Hs1 & Hs2 & Hs3).
        rewrite (insert_id (fences s)) in Hs1, Hs2, Hs3 by done. by rewrite Hs3.
      * rewrite bool_decide_eq_false_2 by congruence. simpl.
        by split_and!.
  - rewrite lookup_insert_eq.
    by destruct (Hset (default 0 (fences s !! name) + 1) _ eq_refl) as (? & ? & ->).
Qed.

Lemma lock_release_refines name token now1 now2 s :
  lock_ok s -> (now1 <= now2)%Q ->
  let '(r, s') := lock_release name token now1 now2 s in
  let '(r', l') := lease_release token now1 (lock_lease s name) in
  lock_ok s' /\ (forall n, n <> name -> lock_lease s' n = lock_lease s n) /\
  r = Return r' /\ lease_equiv now2 (lock_lease s' name) l'.
Proof.
  intros Hok Hle. unfold lock_release, lock_entry, lease_release, live_holder.
  set (gone := mkLockStore (delete name (locks s)) (fences s)).
  assert (lock_ok gone /\ (forall n, n <> name -> lock_lease gone n = lock_lease s n) /\
    lock_lease gone name = mkLease None (l_fence (lock_lease s name))) as (Hg1 & Hg2 & Hg3).
  { unfold lock_ok, lock_lease. simpl. split_and!.
    - intros n e [_ He]%lookup_delete_Some. eauto.
    - intros n Hn. by rewrite lookup_delete_ne.
    - by rewrite lookup_delete_eq. }
  unfold lock_lease at 1 2. simpl. destruct (locks s !! name) as [[cur exp]|] eqn:El; simpl.
  2: { split_and!; try done. }
  destruct (Qle_bool_spec now1 exp); simpl.
  - assert ((exp <? now1)%py = false) as ->.
    { destruct (Qlt_bool_spec exp now1); [lra|done]. }
    destruct (decide (cur = token)) as [->|Hne].
    + rewrite bool_decide_eq_true_2, decide_True by done. simpl. split_and!; try done.
      by rewrite Hg3.
    + rewrite bool_decide_eq_false_2, decide_False by congruence. simpl.
      destruct (negb (bool_decide (cur = ""))); simpl; [|done].
      destruct (Qlt_bool_spec exp now2); [|done]. split_and!; try done.
      rewrite Hg3. unfold lock_lease. rewrite El. simpl. by apply lease_equiv_expired.
  - destruct (Qlt_bool_spec exp now1); [|lra]. rewrite andb_false_r, decide_False by done.
    destruct (negb (bool_decide (cur = ""))); simpl; [|done].
    destruct (Qlt_bool_spec exp now2); [|lra]. split_and!; try done.
    rewrite Hg3. unfold lock_lease. rewrite El. simpl. by apply lease_equiv_expired.
Qed.

#[local] Obligation Tactic := idtac.

#[export] Program Instance memory_lock : LockBackend LockStore := {
  lb_acquire := lock_acquire;
  lb_release := lock_release;
  lb_locked := lock_locked;
  lb_owned := lock_owned;
  lb_ok := lock_ok;
  lb_lease := lock_lease;
}.
Next Obligation.
  intros name token d now1 now2 s Hok Hle Hd.
  pose proof (lock_acquire_refines name token d now1 now2 s Hok Hle Hd) as Hr.
  destruct (lock_acquire _ _ _ _ _ _) as [r s'], (lease_acquire _ _ _ _ _) as [r' l'].
  destruct Hr as (? & Hn & -> & ->). split_and!; try done. intros n Hne. by rewrite Hn.
Qed.
Next Obligation.
  intros name token now1 now2 s Hok Hle.
  pose proof (lock_release_refines name token now1 now2 s Hok Hle) as Hr.
  destruct (lock_release _ _ _ _ _) as [r s'], (lease_release _ _ _) as [r' l'].
  destruct Hr as (? & Hn & -> & ?). split_and!; try done. intros n Hne. by rewrite Hn.
Qed.
Next Obligation.
  intros name now s b _. unfold lock_locked, lock_entry, live_holder, lock_lease. simpl.
  destruct (locks s !! name) as [[t e]|]; intros [= <-]; [|done].
  destruct (Qlt_bool_spec e now), (Qle_bool_spec now e); try done; lra.
Qed.
Next Obligation.
  intros name token now s b _. unfold lock_owned, lock_entry, live_holder, lock_lease. simpl.
  destruct (locks s !! name) as [[t e]|]; intros [= <-]; [|done].
  destruct (Qlt_bool_spec e now), (Qle_bool_spec now e); try done; try lra;
    by rewrite ?andb_true_r, ?andb_false_r.
Qed.

(** ** Fencing, for any backend *)

Inductive lock_op : Type :=
| OAcquire (token : string) (duration : Q)
| ORelease (token : string).

Record lock_event : Type := mkLockEvent {
  le_name : string;
  le_now1 : Q;
  le_now2 : Q;
  le_op : lock_op;
}.

Inductive lock_result : Type :=
| RAcquire (r : outcome exn (option Z))
| RRelease (r : outcome exn bool).

Section Fencing.
Context {B : Type} `{LockBackend B}.

Definition lock_exec (e : lock_event) (s : B) : lock_result * B :=
  match le_op e with
  | OAcquire token d =>
      let '(r, s) := lb_acquire (le_name e) token d (le_now1 e) (le_now2 e) s in
      (RAcquire r, s)
  | ORelease token =>
      let '(r, s) := lb_release (le_name e) token (le_now1 e) (le_now2 e) s in
      (RRelease r, s)
  end.

(** The two clock readings of each call, and those of successive calls, do not
    go back; durations are positive. *)
Fixpoint lock_timed (now : Q) (es : list lock_event) : Prop :=
  match es with
  | [] => True
  | e :: es =>
      (now <= le_now1 e)%Q /\ (le_now1 e <= le_now2 e)%Q /\
      (if le_op e is OAcquire _ d then (0 < d)%Q else True) /\
      lock_timed (le_now2 e) es
  end.

(** Since [token] was granted number [f]: the number has grown, or nobody else
    has held the lock. *)
Definition granted_since (now : Q) (token : string) (f : Z) (l : Lease) : Prop :=
  f < l_fence l \/
  (l_fence l = f /\ forall t, (now <= t)%Q ->
     live_holder t l = None \/ live_holder t l = Some token).

Lemma granted_since_equiv now t token f l l' :
  (now <= t)%Q -> lease_equiv t l' l -> granted_since now token f l ->
  granted_since t token f l'.
Proof.
  intros Ht [Hf Hl] [Hlt|[He Hh]]; [left; lia|]. right. split; [lia|].
  intros u Hu. rewrite Hl by done. apply Hh. lra.
Qed.

Lemma live_holder_later t u l token :
  (t <= u)%Q -> live_holder u l = Some token -> live_holder t l = Some token.
Proof.
  unfold live_holder. intros Htu. destruct (l_holder l) as [[tok un]|]; [|done].
  destruct (Qlt_bool_spec un u), (Qlt_bool_spec un t); try done. lra.
Qed.

Lemma lease_acquire_since now now1 now2 token f token' d l :
  (now <= now1)%Q -> (now1 <= now2)%Q -> granted_since now token f l ->
  granted_since now2 token f (lease_acquire token' d now1 now2 l).2 /\
  forall f', (lease_acquire token' d now1 now2 l).1 = Some f' ->
    f <= f' /\ (f' = f -> token' = token) /\
    l_fence (lease_acquire token' d now1 now2 l).2 = f' /\
    forall t, live_holder t (lease_acquire token' d now1 now2 l).2 = None \/
              live_holder t (lease_acquire token' d now1 now2 l).2 = Some token'.
Proof.
  intros H1 H2 Hg. unfold lease_acquire.
  assert (forall g t, let l' := mkLease (Some (token', (now2 + d)%Q)) g in
    live_holder t l' = None \/ live_holder t l' = Some token') as Hh.
  { intros g t. unfold live_holder. simpl. case_match; auto. }
  destruct (live_holder now1 l) as [holder|] eqn:Eh; [case_decide as Ed|]; simpl.
  - subst holder. destruct Hg as [Hlt|[He Hg]].
    + split; [by left|]. intros f' [= <-]. split_and!; try done; lia.
    + assert (token' = token) as -> by (destruct (Hg now1 H1); congruence).
      split; [right; split; [done|]; intros; apply Hh|].
      intros f' [= <-]. split_and!; try done; lia.
  - split; [|done]. eapply granted_since_equiv; [|done|done]. lra.
  - assert (f <= l_fence l) by (destruct Hg as [?|[? _]]; lia).
    split; [left; simpl; lia|]. intros f' [= <-]. split_and!; try done; lia.
Qed.

Lemma lease_release_since now now1 now2 token f token' l :
  (now <= now1)%Q -> (now1 <= now2)%Q -> granted_since now token f l ->
  granted_since now2 token f (lease_release token' now1 l).2.
Proof.
  intros H1 H2 Hg. unfold lease_release. case_decide; simpl.
  - destruct Hg as [?|[He Hg]]; [by left|]. right. split; [done|]. by left.
  - eapply granted_since_equiv; [|done|done]. lra.
Qed.

Lemma lock_exec_since now token f e s n :
  lb_ok s -> (now <= le_now1 e)%Q -> (le_now1 e <= le_now2 e)%Q ->
  (if le_op e is OAcquire _ d then (0 < d)%Q else True) ->
  granted_since now token f (lb_lease s n) ->
  let '(_, s') := lock_exec e s in
  lb_ok s' /\ granted_since (le_now2 e) token f (lb_lease s' n).
Proof.
  intros Hok H1 H2 Hd Hg. destruct e as [name now1 now2 o]. unfold lock_exec. simpl in *.
  assert (forall s', n <> name -> lease_equiv now2 (lb_lease s' n) (lb_lease s n) ->
    granted_since now2 token f (lb_lease s' n)) as Hother.
  { intros s' _ He. eapply granted_since_equiv; [|done|done]. lra. }
  destruct o as [tok d|tok].
  - pose proof (lb_acquire_spec name tok d now1 now2 s Hok H2 Hd) as Hs.
    pose proof (lease_acquire_since now now1 now2 token f tok d (lb_lease s name) H1 H2) as Ha.
    destruct (lb_acquire _ _ _ _ _ _) as [r s'], (lease_acquire _ _ _ _ _) as [r' l'].
    destruct Hs as (Hok' & Hn & Hr). split; [done|].
    destruct (decide (n = name)) as [->|Hne]; [|by apply Hother, Hn].
    destruct (Ha Hg) as [Hl' _]. simpl in Hl'.
    destruct r; [destruct Hr as [_ Hr]|destruct Hr as [Hr|Hr]];
      (eapply granted_since_equiv; [|exact Hr|done]); lra || apply Qle_refl.
  - pose proof (lb_release_spec name tok now1 now2 s Hok H2) as Hs.
    pose proof (lease_release_since now now1 now2 token f tok (lb_lease s name) H1 H2) as Ha.
    destruct (lb_release _ _ _ _ _) as [r s'], (lease_release _ _ _) as [r' l'].
    destruct Hs as (Hok' & Hn & Hr). split; [done|].
    destruct (decide (n = name)) as [->|Hne]; [|by apply Hother, Hn].
    specialize (Ha Hg). simpl in Ha.
    destruct r; [destruct Hr as [_ Hr]|destruct Hr as [Hr|Hr]];
      (eapply granted_since_equiv; [|exact Hr|done]); lra || apply Qle_refl.
Qed.

Lemma lock_run_since now token f es s n :
  lb_ok s -> lock_timed now es -> granted_since now token f (lb_lease s n) ->
  exists now', lb_ok (run lock_exec es s).2 /\
    granted_since now' token f (lb_lease (run lock_exec es s).2 n) /\
    forall e, lock_timed now (es ++ [e]) -> (now' <= le_now1 e)%Q.
Proof.
  revert now s. induction es as [|e es IH]; intros now s Hok Ht Hg.
  { exists now. split_and!; try done. simpl. by intros e (? & _). }
  destruct Ht as (H1 & H2 & Hd & Ht). simpl.
  pose proof (lock_exec_since now token f e s n Hok H1 H2 Hd Hg) as He.
  destruct (lock_exec e s) as [r s1]. destruct He as [Hok1 Hg1].
  destruct (IH _ s1 Hok1 Ht Hg1) as (now' & Ha & Hb & Hc).
  destruct (run lock_exec es s1). exists now'. split_and!; try done.
  intros e' (_ & _ & _ & Ht'). by apply Hc.
Qed.

(** The fencing token identifies its holder: whatever is acquired, refused,
    renewed, released or lapses between two grants of the same lock, the later
    grant carries a number at least as large, and an equal one only for the
    same owner. *)
Lemma fencing_identifies_holder (name token token' : string) (f f' : Z)
    (d d' now : Q) (e e' : lock_event) (es : list lock_event) (s s1 s3 s4 : B)
    (rs : list lock_result) :
  lb_ok s -> lock_timed now (e :: es ++ [e']) ->
  le_name e = name -> le_name e' = name ->
  le_op e = OAcquire token d -> le_op e' = OAcquire token' d' ->
  lock_exec e s = (RAcquire (Return (Some f)), s1) ->
  run lock_exec es s1 = (rs, s3) ->
  lock_exec e' s3 = (RAcquire (Return (Some f')), s4) ->
  f <= f' /\ (f' = f -> token' = token).
Proof.
  intros Hok Ht En En' Eo Eo' He Hrun He'.
  destruct Ht as (H1 & H2 & Hd & Ht). rewrite Eo in Hd. simpl in Hd.
  unfold lock_exec in He, He'. rewrite Eo, En in He. rewrite Eo', En' in He'.
  pose proof (lb_acquire_spec name token d (le_now1 e) (le_now2 e) s Hok H2 Hd) as Hs.
  pose proof (lease_acquire_since (le_now1 e) (le_now1 e) (le_now2 e) "" (l_fence (lb_lease s name) - 1)
    token d (lb_lease s name) (Qle_refl _) H2 ltac:(left; lia)) as [_ Ha].
  destruct (lb_acquire name token d _ _ s) as [r s1'],
    (lease_acquire token d _ _ _) as [r' l'].
  injection He as -> ->. destruct Hs as (Hok1 & _ & <- & Hl).
  destruct (Ha f eq_refl) as (_ & _ & Hf & Hh). simpl in Hf, Hh.
  assert (granted_since (le_now2 e) token f (lb_lease s1 name)) as Hg.
  { eapply granted_since_equiv; [apply Qle_refl|exact Hl|]. right. split; [done|]. auto. }
  assert (lock_timed (le_now2 e) es) as Hte.
  { clear -Ht. revert Ht. generalize (le_now2 e). induction es as [|x es IH]; simpl; [done|].
    intros now (? & ? & ? & ?). auto. }
  destruct (lock_run_since (le_now2 e) token f es s1 name Hok1 Hte Hg) as (now' & Hok3 & Hg3 & Hlast).
  specialize (Hlast e' Ht). rewrite Hrun in Hok3, Hg3. simpl in Hok3, Hg3.
  assert ((le_now1 e' <= le_now2 e')%Q /\ (0 < d')%Q) as [H2' Hd'].
  { clear -Ht Eo'. revert Ht. generalize (le_now2 e). induction es as [|x es IH]; simpl.
    - rewrite Eo'. simpl. tauto.
    - intros now (_ & _ & _ & Ht). eauto. }
  pose proof (lb_acquire_spec name token' d' (le_now1 e') (le_now2 e') s3 Hok3 H2' Hd') as Hs.
  pose proof (lease_acquire_since now' (le_now1 e') (le_now2 e') token f token' d'
    (lb_lease s3 name) Hlast H2' Hg3) as [_ Ha'].
  destruct (lb_acquire name token' d' _ _ s3), (lease_acquire token' d' _ _ _) as [r'' l''].
  injection He' as -> ->. destruct Hs as (_ & _ & <- & _).
  destruct (Ha' f' eq_refl) as (? & ? & _). done.
Qed.
End Fencing.

(** ** [MemoryScheduleAdapter] *)

Abbreviation Schedules := (gmap string Q).

(** [claim], atomic under the adapter's lock. *)
Definition claim (name : string) (due : Q) (last_fired : Schedules) : bool * Schedules :=
  match last_fired !! name with
  | Some stored =>
      if (stored >=? due)%py then (false, last_fired)
      else (true, <[name := due]> last_fired)
  | None => (true, <[name := due]> last_fired)
  end.

(** [last_fired] *)
Definition schedule_last_fired (name : string) (last_fired : Schedules) : option Q :=
  last_fired !! name.

Definition claim_exec (c : string * Q) (s : Schedules) : bool * Schedules :=
  claim c.1 c.2 s.

(** The stored instant is at least every one claimed. *)
Lemma claims_stored cs s name :
  (forall d, (name, d) ∈ cs -> exists x,
     (run claim_exec cs s).2 !! name = Some x /\ (d <= x)%Q) /\
  (forall d, s !! name = Some d -> exists x,
     (run claim_exec cs s).2 !! name = Some x /\ (d <= x)%Q) /\
  (forall x, (run claim_exec cs s).2 !! name = Some x ->
     s !! name = Some x \/ (name, x) ∈ cs).
Proof.
  revert s. induction cs as [|[n d] cs IH]; intros s; simpl.
  { split_and!; [by intros ? ?%not_elem_of_nil| |by left]. intros d Hd. exists d.
    split; [done|apply Qle_refl]. }
  unfold claim_exec at 1 3 5. simpl.
  destruct (claim n d s) as [b s1] eqn:Ec. specialize (IH s1).
  destruct (run claim_exec cs s1) as [bs s2]. simpl in *. destruct IH as (I1 & I2 & I3).
  assert (forall x, s1 !! name = Some x -> s !! name = Some x \/ (name, x) = (n, d)) as Hb.
  { intros x Hx. unfold claim in Ec. destruct (s !! n) as [y|] eqn:Es;
      [destruct (Qle_bool_spec d y)|]; injection Ec as <- <-; auto;
      (destruct (decide (n = name)) as [->|Hne];
        [rewrite lookup_insert_eq in Hx; right; congruence
        |rewrite lookup_insert_ne in Hx by done; by left]). }
  assert (forall x, s !! name = Some x \/ (name, x) = (n, d) ->
    exists y, s1 !! name = Some y /\ (x <= y)%Q) as Hf.
  { intros x Hx. unfold claim in Ec. destruct (decide (n = name)) as [->|Hne].
    - destruct (s !! name) as [y|] eqn:Es; [destruct (Qle_bool_spec d y)|];
        injection Ec as <- <-; rewrite ?lookup_insert_eq, ?Es; eexists; (split; [done|]);
        destruct Hx as [[= <-]|[= <-]]; lra.
    - destruct Hx as [Hx|Hx]; [|congruence]. exists x. split; [|apply Qle_refl].
      destruct (s !! n) as [y|] eqn:Es; [destruct (Qle_bool_spec d y)|];
        injection Ec as <- <-; rewrite ?lookup_insert_ne by done; done. }
  split_and!.
  - intros x [Hx|Hx]%elem_of_cons; [|by apply I1].
    destruct (Hf x (or_intror Hx)) as (y & Hy & Hxy).
    destruct (I2 y Hy) as (z & Hz & Hyz). exists z. split; [done|lra].
  - intros x Hx. destruct (Hf x (or_introl Hx)) as (y & Hy & Hxy).
    destruct (I2 y Hy) as (z & Hz & Hyz). exists z. split; [done|lra].
  - intros x Hx. destruct (I3 x Hx) as [Hs|Hc]; [|right; by right].
    destruct (Hb x Hs) as [?|E]; [by left|right; rewrite E; left].
Qed.

(** However workers race, a fire is won exactly when it is later than every
    fire of that schedule claimed so far and than the stored one; so each fire
    is won once and the stored instant never goes back. *)
Lemma claim_wins_exactly_once (name : string) (due : Q) (cs : list (string * Q))
    (s : Schedules) :
  let '(_, s') := run claim_exec cs s in
  let '(won, s'') := claim name due s' in
  (won = true <->
   (forall d, (name, d) ∈ cs -> (d < due)%Q) /\
   (forall d, s !! name = Some d -> (d < due)%Q)) /\
  exists x, schedule_last_fired name s'' = Some x /\ (due <= x)%Q /\
    forall d, schedule_last_fired name s' = Some d -> (d <= x)%Q.
Proof.
  destruct (claims_stored cs s name) as (I1 & I2 & I3).
  destruct (run claim_exec cs s) as [bs s']. simpl in *.
  unfold claim, schedule_last_fired. destruct (s' !! name) as [y|] eqn:Es.
  - destruct (Qle_bool_spec due y) as [Hle|Hlt].
    + split; [|exists y; split_and!; [done|done|intros ? [= <-]; apply Qle_refl]].
      split; [done|]. intros [H1 H2]. exfalso.
      destruct (I3 y eq_refl) as [Hs|Hc]; [specialize (H2 y Hs)|specialize (H1 y Hc)]; lra.
    + split; [|exists due; rewrite lookup_insert_eq; split_and!;
        [done|apply Qle_refl|intros ? [= <-]; lra]].
      split; [|done]. intros _. split; intros d Hd.
      * destruct (I1 d Hd) as (x & [= <-] & Hx). lra.
      * destruct (I2 d Hd) as (x & [= <-] & Hx). lra.
  - split; [|exists due; rewrite lookup_insert_eq; split_and!; [done|apply Qle_refl|done]].
    split; [|done]. intros _. split; intros d Hd.
    + destruct (I1 d Hd) as (x & ? & _). done.
    + destruct (I2 d Hd) as (x & ? & _). done.
Qed.

(** ** [MemoryLeaderElectionAdapter] *)

(** [LeaderRecord] *)
Record LeaderRecord : Type := mkLeaderRecord {
  lr_holder : string;
  lr_lease_duration : Q;
  lr_acquired_at : Q;
  lr_renewed_at : Q;
  lr_transitions : Z;
  lr_metadata : gmap string string;
}.

Abbreviation Records := (gmap string LeaderRecord).

(** [_live], also [get] *)
Definition leader_live (name : string) (now : Q) (s : Records) : option LeaderRecord :=
  match s !! name with
  | None => None
  | Some r =>
      if (now >=? lr_renewed_at r + lr_lease_duration r)%py then None else Some r
  end.

(** [acquire_or_renew]; [now1] is its own clock reading, [now2] the one of
    [_live]. *)
Definition acquire_or_renew (name token : string) (duration : Q)
    (metadata : option (gmap string string)) (now1 now2 : Q) (s : Records) :
    LeaderRecord * Records :=
  let meta := default ∅ metadata in
  let fresh :=
    let transitions :=
      match s !! name with
      | None => 0
      | Some previous =>
          if decide (lr_holder previous = token) then lr_transitions previous
          else lr_transitions previous + 1
      end in
    let record := mkLeaderRecord token duration now1 now1 transitions meta in
    (record, <[name := record]> s) in
  match leader_live name now2 s with
  | Some live =>
      if decide (lr_holder live <> token) then (live, s)
      else
        let record := mkLeaderRecord (lr_holder live) duration (lr_acquired_at live)
                        now1 (lr_transitions live) meta in
        (record, <[name := record]> s)
  | None => fresh
  end.

(** [release] *)
Definition leader_release (name token : string) (now : Q) (s : Records) :
    bool * Records :=
  match leader_live name now s with
  | Some live =>
      if decide (lr_holder live = token) then (true, delete name s) else (false, s)
  | None => (false, s)
  end.

Inductive leader_op : Type :=
| LAcquire (token : string) (duration : Q) (metadata : option (gmap string string))
    (now1 now2 : Q)
| LRelease (token : string) (now : Q).

Definition leader_token (o : leader_op) : string :=
  match o with LAcquire token _ _ _ _ | LRelease token _ => token end.

Definition leader_now (o : leader_op) : Q :=
  match o with LAcquire _ _ _ _ now2 => now2 | LRelease _ now => now end.

Definition leader_exec (o : string * leader_op) (s : Records) :
    (LeaderRecord + bool) * Records :=
  match o with
  | (name, LAcquire token d m now1 now2) =>
      let '(r, s) := acquire_or_renew name token d m now1 now2 s in (inl r, s)
  | (name, LRelease token now) =>
      let '(r, s) := leader_release name token now s in (inr r, s)
  end.

Lemma leader_exec_other n o s : o.1 <> n -> (leader_exec o s).2 !! n = s !! n.
Proof.
  destruct o as [name [token d m now1 now2|token now]]; simpl; intros Hne.
  - unfold acquire_or_renew. destruct (leader_live name now2 s) as [l|]; [case_decide|];
      simpl; rewrite ?lookup_insert_ne by done; done.
  - unfold leader_release. destruct (leader_live name now s) as [l|]; [case_decide|];
      simpl; rewrite ?lookup_delete_ne by done; done.
Qed.

(** Leadership is exclusive: a worker that was granted (or renewed) a lease is
    the leader every other worker is told of, with the same record, until it
    releases or its lease duration has passed; nothing another worker does,
    release included, changes that. *)
Lemma leader_lease_exclusive (name token : string) (d now1 now2 : Q)
    (m : option (gmap string string)) (s s1 : Records) (record : LeaderRecord)
    (os : list (string * leader_op)) :
  acquire_or_renew name token d m now1 now2 s = (record, s1) ->
  lr_holder record = token ->
  (forall o, o ∈ os -> o.1 = name ->
     leader_token o.2 <> token /\ (leader_now o.2 < now1 + d)%Q) ->
  let '(rs, s2) := run leader_exec os s1 in
  s2 !! name = Some record /\
  Forall2 (fun o r => o.1 = name -> r = inl record \/ r = inr false) os rs.
Proof.
  intros Ea Hh Hos.
  assert (s1 !! name = Some record /\
    (lr_renewed_at record + lr_lease_duration record == now1 + d)%Q) as [Hs1 Hexp].
  { unfold acquire_or_renew in Ea. destruct (leader_live name now2 s) as [l|];
      [case_decide as Hd|]; injection Ea as <- <-; simpl in *; try done;
      by rewrite lookup_insert_eq. }
  clear Ea. revert s1 Hs1 Hos. induction os as [|o os IH]; intros s1 Hs1 Hos; simpl.
  { split; [done|constructor]. }
  assert ((leader_exec o s1).2 !! name = Some record /\
    (o.1 = name -> (leader_exec o s1).1 = inl record \/ (leader_exec o s1).1 = inr false)) as [Hs2 Hr].
  { destruct (decide (o.1 = name)) as [En|Hne];
      [|by split; [rewrite leader_exec_other|]].
    destruct (Hos o ltac:(left) En) as [Htok Hnow].
    destruct o as [n [token' d' m' t1 t2|token' t]]; simpl in *; subst n.
    - unfold acquire_or_renew, leader_live. rewrite Hs1.
      destruct (Qle_bool_spec (lr_renewed_at record + lr_lease_duration record) t2); [lra|].
      rewrite decide_True by congruence. simpl. auto.
    - unfold leader_release, leader_live. rewrite Hs1.
      destruct (Qle_bool_spec (lr_renewed_at record + lr_lease_duration record) t); [lra|].
      rewrite decide_False by congruence. simpl. auto. }
  destruct (leader_exec o s1) as [r s2]. simpl in *.
  specialize (IH s2 Hs2 ltac:(intros; apply Hos; [by right|done])).
  destruct (run leader_exec os s2) as [rs s3]. destruct IH as [? ?].
  split; [done|]. by constructor.
Qed.

(** A graceful handover is not counted: releasing deletes the record, so after
    any number of leaders that each released, [transitions] is still zero. *)
Lemma leader_release_resets_transitions (name t1 t2 : string) (d now : Q) (s : Records) :
  s !! name = None -> (0 < d)%Q ->
  let '(_, s1) := acquire_or_renew name t1 d None now now s in
  let '(released, s2) := leader_release name t1 now s1 in
  let '(r, _) := acquire_or_renew name t2 d None now now s2 in
  released = true /\ lr_holder r = t2 /\ lr_transitions r = 0.
Proof.
  intros Hs Hd. unfold acquire_or_renew at 1. unfold leader_live. rewrite Hs.
  unfold leader_release, leader_live. rewrite lookup_insert_eq. simpl.
  destruct (Qle_bool_spec (now + d) now); [lra|]. rewrite decide_True by done.
  unfold acquire_or_renew, leader_live. by rewrite lookup_delete_eq.
Qed.

(** ** Concrete runs *)

Lemma lock_ok_init : lock_ok lock_init.
Proof. intros n e He. simpl in He. by rewrite lookup_empty in He. Qed.

Lemma fencing_identifies_holder_witness :
  (1 <= 2)%Z /\ (2 = 1 -> "b" = "a")%Z.
Proof.
  apply (fencing_identifies_holder "job" "a" "b" 1 2 10 10 0
    (mkLockEvent "job" 0 0 (OAcquire "a" 10)) (mkLockEvent "job" 20 20 (OAcquire "b" 10))
    [mkLockEvent "job" 5 5 (OAcquire "b" 10)] lock_init
    (lock_exec (mkLockEvent "job" 0 0 (OAcquire "a" 10)) lock_init).2
    (run lock_exec [mkLockEvent "job" 5 5 (OAcquire "b" 10)]
      (lock_exec (mkLockEvent "job" 0 0 (OAcquire "a" 10)) lock_init).2).2
    (lock_exec (mkLockEvent "job" 20 20 (OAcquire "b" 10))
      (run lock_exec [mkLockEvent "job" 5 5 (OAcquire "b" 10)]
        (lock_exec (mkLockEvent "job" 0 0 (OAcquire "a" 10)) lock_init).2).2).2
    [RAcquire (Return None)]);
    [apply lock_ok_init|simpl; split_and!; done || lra|reflexivity..].
Defined.

Definition leader_ops : list (string * leader_op) :=
  [("scheduler", LRelease "w2" 105); ("scheduler", LAcquire "w2" 15 None 110 110)].

Lemma leader_lease_exclusive_witness :
  let record := mkLeaderRecord "w1" 15 100 100 0 ∅ in
  let '(rs, s2) := run leader_exec leader_ops {["scheduler" := record]} in
  s2 !! "scheduler" = Some record /\
  Forall2 (fun o r => o.1 = "scheduler" -> r = inl record \/ r = inr false) leader_ops rs.
Proof.
  apply (leader_lease_exclusive "scheduler" "w1" 15 100 100 None ∅
    {["scheduler" := mkLeaderRecord "w1" 15 100 100 0 ∅]}
    (mkLeaderRecord "w1" 15 100 100 0 ∅) leader_ops); [reflexivity|reflexivity|].
  intros o Ho _. repeat (apply elem_of_cons in Ho as [->|Ho]; [by split|]).
  by apply not_elem_of_nil in Ho.
Defined.

Lemma leader_release_resets_transitions_witness :
  let '(_, s1) := acquire_or_renew "scheduler" "w1" 15 None 100 100 ∅ in
  let '(released, s2) := leader_release "scheduler" "w1" 100 s1 in
  let '(r, _) := acquire_or_renew "scheduler" "w2" 15 None 100 100 s2 in
  released = true /\ lr_holder r = "w2" /\ lr_transitions r = 0.
Proof. apply leader_release_resets_transitions; [apply lookup_empty|done]. Defined.
