(* ===== verification/Lock.v ===== *)
(** * Lock

    [grelmicro/coordination/lock.py] on top of any [LockBackend]: a [Lock]
    object shared by the tasks of an event loop and by worker threads, each
    call a sequence of steps between its awaits.

    A caller is a task or a thread; what it presents to the backend is
    [worker:task:id] or [worker:thread:id].  The backend is shared: other
    processes act on it between any two steps. *)

From S2P Require Import Prelude Errors CoordinationMemory.
From stdpp Require Import pretty.
From Stdlib Require Import Ascii.

Local Open Scope Z_scope.

(** [LockConfig], with the effective worker identity. *)
Record LockConfig : Type := mkLockConfig {
  worker : string;
  lease_duration : Q;
  retry_interval : Q;
  retry_jitter : Q;
}.

Definition MIN_RETRY_INTERVAL : Q := 1 # 1000.

(** [LockConfig._validate], with pydantic's [PositiveFloat]. *)
Definition lock_config_valid (c : LockConfig) : bool :=
  (0 <? lease_duration c)%py && (0 <? retry_interval c)%py &&
  (retry_interval c >=? MIN_RETRY_INTERVAL)%py &&
  ((0 <=? retry_jitter c)%py && (retry_jitter c <? 1)%py).

(** [_validate_lock_name]: [^[A-Za-z0-9][A-Za-z0-9._:/\-]*$], at most 200
    characters.  [$] also matches before a final newline. *)
Definition NAME_MAX_LEN : nat := 200.

Definition in_range (lo hi c : ascii) : bool :=
  (nat_of_ascii lo <=? nat_of_ascii c)%nat &&
  (nat_of_ascii c <=? nat_of_ascii hi)%nat.

Definition is_alnum (c : ascii) : bool :=
  (in_range "A" "Z" c || in_range "a" "z" c || in_range "0" "9" c)%char.

Definition is_name_char (c : ascii) : bool :=
  is_alnum c || existsb (Ascii.eqb c) ["."; "_"; ":"; "/"; "-"]%char.

Fixpoint name_tail (s : string) : bool :=
  match s with
  | EmptyString => true
  | String c EmptyString =>
      is_name_char c || Ascii.eqb c (ascii_of_nat 10)
  | String c s => is_name_char c && name_tail s
  end.

Definition validate_lock_name (name : string) : outcome exn unit :=
  if match name with
     | EmptyString => false
     | String c s => (String.length name <=? NAME_MAX_LEN)%nat && is_alnum c && name_tail s
     end
  then Return tt else Raise (mk_exn ValueError NoInfo).

(** [jittered_interval]: [rnd] is the number [_random()] draws. *)
Definition jittered_interval (base jitter rnd : Q) : Q :=
  if Qeq_bool jitter 0 then base
  else (base * (1 + jitter * (2 * rnd - 1)))%Q.

(** Who calls: an asyncio task or a worker thread. *)
Inductive caller : Type := Task (id : N) | Thread (id : N).

#[export] Instance caller_eq_dec : EqDecision caller.
Proof. solve_decision. Defined.

(** [generate_task_token], [generate_thread_token] *)
Definition generate_token (worker : string) (who : caller) : string :=
  match who with
  | Task id => worker +:+ (":task:" +:+ pretty id)
  | Thread id => worker +:+ (":thread:" +:+ pretty id)
  end.

Record LockHandle : Type := mkLockHandle {
  h_name : string;
  h_token : string;
  h_fencing_token : Z;
}.

Lemma generate_token_inj w a b : generate_token w a = generate_token w b -> a = b.
Proof.
  unfold generate_token. destruct a as [i|i], b as [j|j]; intros E;
    apply (inj (String.append w)) in E; try discriminate;
    [apply (inj (String.append ":task:")) in E|apply (inj (String.append ":thread:")) in E];
    apply (inj pretty) in E; by subst.
Qed.

Lemma jittered_interval_bounds base jitter rnd :
  (0 < base)%Q -> (0 <= jitter < 1)%Q -> (0 <= rnd < 1)%Q ->
  (base * (1 - jitter) <= jittered_interval base jitter rnd <= base * (1 + jitter))%Q /\
  (0 < base * (1 - jitter))%Q.
Proof.
  intros Hb Hj Hr. unfold jittered_interval. destruct (Qeq_bool_spec jitter 0) as [E|E].
  - rewrite E. split; [split|]; lra.
  - assert (0 <= jitter * rnd)%Q by (apply Qmult_le_0_compat; lra).
    assert (0 <= base * (jitter * rnd))%Q by (apply Qmult_le_0_compat; lra).
    assert (0 <= jitter * (1 - rnd))%Q by (apply Qmult_le_0_compat; lra).
    assert (0 <= base * (jitter * (1 - rnd)))%Q by (apply Qmult_le_0_compat; lra).
    assert (0 < base * (1 - jitter))%Q by (apply Qmult_lt_0_compat; lra).
    split; [split|]; lra.
Qed.

#[export] Instance caller_countable : Countable caller.
Proof.
  refine (inj_countable' (fun c => match c with Task i => inl i | Thread i => inr i end)
    (fun x => match x with inl i => Task i | inr i => Thread i end) _).
  by intros [].
Defined.

(** ** The lock object *)

Section Lock.
Context {B : Type} `{LockBackend B}.

(** An [acquire] asleep between two attempts: what it captured when it
    started, and when it wakes.  [w_start], [w_checked] and [w_attempts] are
    the instants it started and last checked its deadline and the number of
    attempts it made. *)
Record Waiting : Type := mkWaiting {
  w_config : LockConfig;
  w_deadline : option Q;
  w_wake : Q;
  w_start : Q;
  w_checked : Q;
  w_attempts : Z;
}.

(** [held] is [_held_by_tasks] and [_held_by_threads]. *)
Record LockState : Type := mkLockState {
  ls_name : string;
  ls_config : LockConfig;
  held : gset caller;
  waiting : gmap caller Waiting;
  ls_store : B;
}.

Definition lock_name (l : LockState) : string := "lock:" +:+ ls_name l.

Definition set_held (h : gset caller) (l : LockState) : LockState :=
  mkLockState (ls_name l) (ls_config l) h (waiting l) (ls_store l).
Definition set_waiting (w : gmap caller Waiting) (l : LockState) : LockState :=
  mkLockState (ls_name l) (ls_config l) (held l) w (ls_store l).
Definition set_store (s : B) (l : LockState) : LockState :=
  mkLockState (ls_name l) (ls_config l) (held l) (waiting l) s.

(** A backend call whose [Exception]s become the lock's own error. *)
Definition wrap {A} (err : exn_class) (name : string) (r : outcome exn A) : outcome exn A :=
  match r with
  | Return a => Return a
  | Raise e => if is_exception e then Raise (mk_exn err (Named name)) else Raise e
  end.

(** [do_acquire], [do_release], [do_owned], [locked] *)
Definition do_acquire (token : string) (duration now1 now2 : Q) (l : LockState) :
    outcome exn (option Z) * LockState :=
  let '(r, s) := lb_acquire (lock_name l) token duration now1 now2 (ls_store l) in
  (wrap LockAcquireError (ls_name l) r, set_store s l).

Definition do_release (token : string) (now1 now2 : Q) (l : LockState) :
    outcome exn bool * LockState :=
  let '(r, s) := lb_release (lock_name l) token now1 now2 (ls_store l) in
  (wrap LockReleaseError (ls_name l) r, set_store s l).

Definition do_owned (token : string) (now : Q) (l : LockState) : outcome exn bool :=
  wrap LockOwnedCheckError (ls_name l) (lb_owned (lock_name l) token now (ls_store l)).

Definition locked (now : Q) (l : LockState) : outcome exn bool :=
  wrap LockLockedCheckError (ls_name l) (lb_locked (lock_name l) now (ls_store l)).

Definition owned (who : caller) (now : Q) (l : LockState) : outcome exn bool :=
  do_owned (generate_token (worker (ls_config l)) who) now l.

(** One turn of the loop of [acquire] (and [do_thread_acquire]): an attempt,
    then the handle, the timeout, or a sleep. *)
Definition attempt (who : caller) (cfg : LockConfig) (deadline : option Q)
    (start : Q) (attempts : Z) (now1 now2 now3 rnd : Q) (l : LockState) :
    outcome exn (option LockHandle) * LockState :=
  let token := generate_token (worker cfg) who in
  match do_acquire token (lease_duration cfg) now1 now2 l with
  | (Raise e, l) => (Raise e, set_waiting (delete who (waiting l)) l)
  | (Return (Some f), l) =>
      (Return (Some (mkLockHandle (ls_name l) token f)),
       set_held ({[who]} ∪ held l) (set_waiting (delete who (waiting l)) l))
  | (Return None, l) =>
      if match deadline with Some d => (now3 >=? d)%py | None => false end
      then (Raise (mk_exn TimeoutError (Named (ls_name l))),
            set_waiting (delete who (waiting l)) l)
      else
        let interval := jittered_interval (retry_interval cfg) (retry_jitter cfg) rnd in
        (Return None,
         set_waiting (<[who := mkWaiting cfg deadline (now3 + interval)%Q start now3
                                 (attempts + 1)]> (waiting l)) l)
  end.

(** [acquire] up to its first sleep. *)
Definition acquire (who : caller) (timeout : option Q) (now0 now1 now2 now3 rnd : Q)
    (l : LockState) : outcome exn (option LockHandle) * LockState :=
  if decide (who ∈ held l) then (Raise (mk_exn LockReentrantError (Named (ls_name l))), l)
  else
    let deadline := (fun t => (now0 + t)%Q) <$> timeout in
    attempt who (ls_config l) deadline now0 0 now1 now2 now3 rnd l.

(** The turn after a sleep. *)
Definition acquire_wake (who : caller) (now1 now2 now3 rnd : Q) (l : LockState) :
    outcome exn (option LockHandle) * LockState :=
  match waiting l !! who with
  | None => (Return None, l)
  | Some w =>
      attempt who (w_config w) (w_deadline w) (w_start w) (w_attempts w)
        now1 now2 now3 rnd l
  end.

(** [acquire_nowait], [do_thread_acquire_nowait] *)
Definition acquire_nowait (who : caller) (now1 now2 : Q) (l : LockState) :
    outcome exn (option LockHandle) * LockState :=
  let cfg := ls_config l in
  if decide (who ∈ held l) then (Raise (mk_exn LockReentrantError (Named (ls_name l))), l)
  else
    let token := generate_token (worker cfg) who in
    match do_acquire token (lease_duration cfg) now1 now2 l with
    | (Raise e, l) => (Raise e, l)
    | (Return None, l) => (Raise (mk_exn WouldBlockError (Named (ls_name l))), l)
    | (Return (Some f), l) =>
        (Return (Some (mkLockHandle (ls_name l) token f)),
         set_held ({[who]} ∪ held l) l)
    end.

(** [extend], [do_thread_extend] *)
Definition extend (who : caller) (now1 now2 : Q) (l : LockState) :
    outcome exn (option LockHandle) * LockState :=
  let cfg := ls_config l in
  if decide (who ∉ held l) then (Raise (mk_exn LockNotOwnedError (Named (ls_name l))), l)
  else
    let token := generate_token (worker cfg) who in
    match do_acquire token (lease_duration cfg) now1 now2 l with
    | (Raise e, l) => (Raise e, l)
    | (Return None, l) => (Raise (mk_exn LockNotOwnedError (Named (ls_name l))), l)
    | (Return (Some f), l) => (Return (Some (mkLockHandle (ls_name l) token f)), l)
    end.

(** [release], [do_thread_release] *)
Definition release (who : caller) (now1 now2 : Q) (l : LockState) :
    outcome exn unit * LockState :=
  let token := generate_token (worker (ls_config l)) who in
  match do_release token now1 now2 l with
  | (Raise e, l) => (Raise e, l)
  | (Return released, l) =>
      let l := set_held (held l ∖ {[who]}) l in
      if (released : bool) then (Return tt, l)
      else (Raise (mk_exn LockNotOwnedError (Named (ls_name l))), l)
  end.

(** [reconfigure] with [_apply_reconfigure]: the worker may not change. *)
Definition lock_reconfigure (cfg : LockConfig) (l : LockState) :
    outcome exn unit * LockState :=
  if decide (worker cfg = worker (ls_config l)) then
    (Return tt, mkLockState (ls_name l) cfg (held l) (waiting l) (ls_store l))
  else (Raise (mk_exn CoordinationSettingsValidationError NoInfo), l).

(** [_setup] *)
Definition lock_new (name : string) (cfg : LockConfig) (s : B) : outcome exn LockState :=
  match validate_lock_name name with
  | Return _ => Return (mkLockState name cfg ∅ ∅ s)
  | Raise e => Raise e
  end.

(** ** The lock at work

    Any interleaving of the callers' steps, of other processes' calls on the
    backend (under tokens that are not this lock's) and of reconfigurations.
    [leases] records what the callers were told: the number and the end of the
    lease of the last handle each got and has not given back. *)
Record System : Type := mkSystem {
  sy_lock : LockState;
  sy_clock : Q;
  leases : gmap caller (Z * Q);
}.

(** A caller that got a handle at [now2] believes it holds until [until]; any
    other answer to [extend] or [release] ends that belief. *)
Definition believe (who : caller) (r : outcome exn (option LockHandle)) (until : Q)
    (ls : gmap caller (Z * Q)) : gmap caller (Z * Q) :=
  match r with
  | Return (Some h) => <[who := (h_fencing_token h, until)]> ls
  | _ => delete who ls
  end.

Definition foreign (w name : string) (e : lock_event) : Prop :=
  le_name e = name ->
  forall who, match le_op e with OAcquire t _ | ORelease t => t <> generate_token w who end.

Inductive lstep : System -> System -> Prop :=
| l_acquire l t ls who timeout now0 now1 now2 now3 rnd r l' :
    (t <= now0)%Q -> (now0 <= now1)%Q -> (now1 <= now2)%Q -> (now2 <= now3)%Q ->
    (0 <= rnd < 1)%Q -> waiting l !! who = None -> ls !! who = None ->
    acquire who timeout now0 now1 now2 now3 rnd l = (r, l') ->
    lstep (mkSystem l t ls)
      (mkSystem l' now3 (believe who r (now2 + lease_duration (ls_config l))%Q ls))
| l_reentrant l t ls who timeout now0 now1 now2 now3 rnd l' e :
    acquire who timeout now0 now1 now2 now3 rnd l = (Raise e, l') ->
    who ∈ held l -> lstep (mkSystem l t ls) (mkSystem l' t ls)
| l_wake l t ls who w now1 now2 now3 rnd r l' :
    (t <= now1)%Q -> (now1 <= now2)%Q -> (now2 <= now3)%Q -> (0 <= rnd < 1)%Q ->
    waiting l !! who = Some w -> (w_wake w <= now1)%Q -> ls !! who = None ->
    acquire_wake who now1 now2 now3 rnd l = (r, l') ->
    lstep (mkSystem l t ls)
      (mkSystem l' now3 (believe who r (now2 + lease_duration (w_config w))%Q ls))
| l_nowait l t ls who now1 now2 r l' :
    (t <= now1)%Q -> (now1 <= now2)%Q -> waiting l !! who = None -> ls !! who = None ->
    acquire_nowait who now1 now2 l = (r, l') ->
    lstep (mkSystem l t ls)
      (mkSystem l' now2 (believe who r (now2 + lease_duration (ls_config l))%Q ls))
| l_extend l t ls who now1 now2 r l' :
    (t <= now1)%Q -> (now1 <= now2)%Q -> waiting l !! who = None ->
    extend who now1 now2 l = (r, l') ->
    lstep (mkSystem l t ls)
      (mkSystem l' now2 (believe who r (now2 + lease_duration (ls_config l))%Q ls))
| l_release l t ls who now1 now2 r l' :
    (t <= now1)%Q -> (now1 <= now2)%Q -> waiting l !! who = None ->
    release who now1 now2 l = (r, l') ->
    lstep (mkSystem l t ls) (mkSystem l' now2 (delete who ls))
| l_foreign l t ls e :
    (t <= le_now1 e)%Q -> (le_now1 e <= le_now2 e)%Q ->
    (if le_op e is OAcquire _ d then (0 < d)%Q else True) ->
    foreign (worker (ls_config l)) (lock_name l) e ->
    lstep (mkSystem l t ls)
      (mkSystem (set_store (lock_exec e (ls_store l)).2 l) (le_now2 e) ls)
| l_reconfigure l t ls cfg r l' :
    lock_config_valid cfg = true -> lock_reconfigure cfg l = (r, l') ->
    lstep (mkSystem l t ls) (mkSystem l' t ls).

(** What a waiting [acquire] has done so far: it checked its deadline after
    each attempt, [retry_interval * (1 - retry_jitter)] apart at least. *)
Definition waiting_ok (w0 : string) (clock : Q) (w : Waiting) : Prop :=
  let cfg := w_config w in
  lock_config_valid cfg = true /\ worker cfg = w0 /\ 0 < w_attempts w /\
  (inject_Z (w_attempts w - 1) * (retry_interval cfg * (1 - retry_jitter cfg))
     <= w_checked w - w_start w)%Q /\
  (w_checked w + retry_interval cfg * (1 - retry_jitter cfg) <= w_wake w)%Q /\
  (w_wake w <= w_checked w + retry_interval cfg * (1 + retry_jitter cfg))%Q /\
  (w_checked w <= clock)%Q /\
  forall d, w_deadline w = Some d -> (w_checked w < d)%Q.

(** A lease believed in is the one the backend has. *)
Definition lease_true (l : LockState) (t : Q) (who : caller) (fu : Z * Q) : Prop :=
  forall u, (t <= u <= fu.2)%Q ->
    live_holder u (lb_lease (ls_store l) (lock_name l)) =
      Some (generate_token (worker (ls_config l)) who) /\
    l_fence (lb_lease (ls_store l) (lock_name l)) = fu.1.

Definition system_ok (sy : System) : Prop :=
  let l := sy_lock sy in
  lb_ok (ls_store l) /\ lock_config_valid (ls_config l) = true /\
  (forall who w, waiting l !! who = Some w ->
     waiting_ok (worker (ls_config l)) (sy_clock sy) w) /\
  (forall who fu, leases sy !! who = Some fu ->
     who ∈ held l /\ lease_true l (sy_clock sy) who fu).

Lemma lock_config_validP c :
  lock_config_valid c = true <->
  (0 < lease_duration c)%Q /\ (0 < retry_interval c)%Q /\
  (MIN_RETRY_INTERVAL <= retry_interval c)%Q /\ (0 <= retry_jitter c < 1)%Q.
Proof.
  unfold lock_config_valid.
  destruct (Qlt_bool_spec 0 (lease_duration c)), (Qlt_bool_spec 0 (retry_interval c)),
    (Qle_bool_spec MIN_RETRY_INTERVAL (retry_interval c)),
    (Qle_bool_spec 0 (retry_jitter c)), (Qlt_bool_spec (retry_jitter c) 1);
    simpl; split; try done; intros (? & ? & ? & ? & ?); lra.
Qed.

(** A call on the backend by another token leaves a lease believed in. *)
Lemma lease_true_acquire tok d now1 now2 t (a l' : Lease) f u :
  (t <= now1)%Q -> (now1 <= now2)%Q ->
  (forall v, (t <= v <= u)%Q -> live_holder v a = Some tok /\ l_fence a = f) ->
  forall tok', tok' <> tok ->
  (lease_equiv now2 l' a \/ lease_equiv now2 l' (lease_acquire tok' d now1 now2 a).2) ->
  forall v, (now2 <= v <= u)%Q -> live_holder v l' = Some tok /\ l_fence l' = f.
Proof.
  intros H1 H2 Ha tok' Hne Hl v Hv.
  assert (live_holder now1 a = Some tok) as Hnow by (apply Ha; lra).
  assert (lease_equiv now2 l' a) as [Hf Hlive].
  { destruct Hl as [|Hl]; [done|]. unfold lease_acquire in Hl. rewrite Hnow in Hl.
    rewrite decide_False in Hl by congruence. done. }
  rewrite Hlive by lra. rewrite Hf. apply Ha. lra.
Qed.

Lemma lease_true_release tok now1 now2 t (a l' : Lease) f u :
  (t <= now1)%Q -> (now1 <= now2)%Q ->
  (forall v, (t <= v <= u)%Q -> live_holder v a = Some tok /\ l_fence a = f) ->
  forall tok', tok' <> tok ->
  (lease_equiv now2 l' a \/ lease_equiv now2 l' (lease_release tok' now1 a).2) ->
  forall v, (now2 <= v <= u)%Q -> live_holder v l' = Some tok /\ l_fence l' = f.
Proof.
  intros H1 H2 Ha tok' Hne Hl v Hv.
  assert (live_holder now1 a = Some tok) as Hnow by (apply Ha; lra).
  assert (lease_equiv now2 l' a) as [Hf Hlive].
  { destruct Hl as [|Hl]; [done|]. unfold lease_release in Hl. rewrite Hnow in Hl.
    rewrite decide_False in Hl by congruence. done. }
  rewrite Hlive by lra. rewrite Hf. apply Ha. lra.
Qed.

(** [tok] holds the lock under number [f] from [t] to [u]. *)
Definition holds (l : LockState) (tok : string) (f : Z) (t u : Q) : Prop :=
  forall v, (t <= v <= u)%Q ->
    live_holder v (lb_lease (ls_store l) (lock_name l)) = Some tok /\
    l_fence (lb_lease (ls_store l) (lock_name l)) = f.

(** [l'] differs from [l] in the backend's state only. *)
Definition same_object (l l' : LockState) : Prop :=
  l' = set_store (ls_store l') l.

Lemma do_acquire_spec tok d t now1 now2 l :
  lb_ok (ls_store l) -> (0 < d)%Q -> (t <= now1)%Q -> (now1 <= now2)%Q ->
  let '(r, l') := do_acquire tok d now1 now2 l in
  same_object l l' /\ lb_ok (ls_store l') /\
  (forall f, r = Return (Some f) -> holds l' tok f now2 (now2 + d)) /\
  (forall tok' f u, tok' <> tok -> holds l tok' f t u -> holds l' tok' f now2 u).
Proof.
  intros Hok Hd H1 H2. unfold do_acquire, holds.
  pose proof (lb_acquire_spec (lock_name l) tok d now1 now2 (ls_store l) Hok H2 Hd) as Hs.
  pose proof (lease_true_acquire) as Hkeep.
  destruct (lb_acquire _ _ _ _ _ _) as [r s'],
    (lease_acquire tok d now1 now2 (lb_lease (ls_store l) (lock_name l))) as [r' l'] eqn:Ea.
  destruct Hs as (Hok' & _ & Hr). simpl. split; [done|]. split; [done|].
  change (lock_name (set_store s' l)) with (lock_name l). split.
  - intros f Hf v Hv. destruct r as [r|e]; simpl in Hf; [|by case_match].
    injection Hf as ->. destruct Hr as [<- [Hfe Hl]]. rewrite Hl, Hfe by lra.
    unfold lease_acquire in Ea.
    destruct (live_holder now1 _) as [h|]; [case_decide|]; injection Ea as E1 <-;
      try done; subst; simpl; (split; [|congruence]);
      unfold live_holder; simpl; qcases.
  - intros tok' f u Hne Hh. eapply (Hkeep tok' d now1 now2 t); [done..|by apply not_eq_sym|].
    rewrite Ea. destruct r; [right; apply Hr|done].
Qed.

Lemma do_release_spec tok t now1 now2 l :
  lb_ok (ls_store l) -> (t <= now1)%Q -> (now1 <= now2)%Q ->
  let '(r, l') := do_release tok now1 now2 l in
  same_object l l' /\ lb_ok (ls_store l') /\
  (forall tok' f u, tok' <> tok -> holds l tok' f t u -> holds l' tok' f now2 u).
Proof.
  intros Hok H1 H2. unfold do_release, holds.
  pose proof (lb_release_spec (lock_name l) tok now1 now2 (ls_store l) Hok H2) as Hs.
  destruct (lb_release _ _ _ _ _) as [r s'],
    (lease_release tok now1 (lb_lease (ls_store l) (lock_name l))) as [r' l'] eqn:Ea.
  destruct Hs as (Hok' & _ & Hr). simpl. split; [done|]. split; [done|].
  change (lock_name (set_store s' l)) with (lock_name l).
  intros tok' f u Hne Hh. eapply (lease_true_release tok' now1 now2 t); [done..|by apply not_eq_sym|].
  rewrite Ea. destruct r; [right; apply Hr|done].
Qed.

(** What a step by [who] must establish of the lock it leaves. *)
Definition step_ok (who : caller) (t t' : Q) (l l' : LockState) : Prop :=
  lb_ok (ls_store l') /\ ls_config l' = ls_config l /\ lock_name l' = lock_name l /\
  (forall who', who' <> who -> (who' ∈ held l -> who' ∈ held l') /\
     waiting l' !! who' = waiting l !! who') /\
  (forall tok f u, tok <> generate_token (worker (ls_config l)) who ->
     holds l tok f t u -> holds l' tok f t' u).

Lemma waiting_ok_later w0 t t' w : (t <= t')%Q -> waiting_ok w0 t w -> waiting_ok w0 t' w.
Proof. intros Ht (? & ? & ? & ? & ? & ? & ? & ?). split_and!; try done. lra. Qed.

Lemma system_step who l l' t t' ls ls' :
  system_ok (mkSystem l t ls) -> (t <= t')%Q -> step_ok who t t' l l' ->
  (forall w, waiting l' !! who = Some w -> waiting_ok (worker (ls_config l)) t' w) ->
  (forall who', who' <> who -> ls' !! who' = ls !! who') ->
  (forall fu, ls' !! who = Some fu -> who ∈ held l' /\
     holds l' (generate_token (worker (ls_config l)) who) fu.1 t' fu.2) ->
  system_ok (mkSystem l' t' ls').
Proof.
  intros (Hok & Hcfg & Hw & Hls) Ht (Hok' & Ec & En & Hoth & Hkeep) Hw' Hls' Hwho.
  split; [done|]. simpl in *. rewrite Ec. split; [done|]. split.
  - intros who' w Hx. destruct (decide (who' = who)) as [->|Hne]; [by apply Hw'|].
    eapply waiting_ok_later; [done|]. eapply Hw. by rewrite <- (proj2 (Hoth who' Hne)).
  - intros who' fu Hx. destruct (decide (who' = who)) as [->|Hne].
    + destruct (Hwho fu Hx) as [Hh Hl]. split; [done|]. unfold lease_true. simpl.
      rewrite Ec. done.
    + rewrite Hls' in Hx by done. destruct (Hls who' fu Hx) as [Hh Hl].
      split; [by apply Hoth|]. unfold lease_true. simpl. rewrite Ec.
      apply Hkeep; [|done]. intros E. apply Hne. by eapply generate_token_inj.
Qed.

Lemma same_object_fields l l' :
  same_object l l' ->
  ls_name l' = ls_name l /\ ls_config l' = ls_config l /\ held l' = held l /\
  waiting l' = waiting l.
Proof. intros E. rewrite E. done. Qed.

Lemma holds_later l tok f t t' u : (t <= t')%Q -> holds l tok f t u -> holds l tok f t' u.
Proof. intros Ht Hh v Hv. apply Hh. lra. Qed.

(** An attempt, by a caller that believes in no lease. *)
Lemma attempt_ok who cfg deadline start attempts t now1 now2 now3 rnd l ls r l' :
  system_ok (mkSystem l t ls) -> (t <= now1)%Q -> (now1 <= now2)%Q -> (now2 <= now3)%Q ->
  (0 <= rnd < 1)%Q -> lock_config_valid cfg = true -> worker cfg = worker (ls_config l) ->
  0 <= attempts -> (start <= now1)%Q ->
  (inject_Z attempts * (retry_interval cfg * (1 - retry_jitter cfg)) <= now1 - start)%Q ->
  attempt who cfg deadline start attempts now1 now2 now3 rnd l = (r, l') ->
  system_ok (mkSystem l' now3 (believe who r (now2 + lease_duration cfg)%Q ls)).
Proof.
  intros Hsys H1 H2 H3 Hrnd Hcfg Hwk Hn Hst Hsp Ha. pose proof Hsys as (Hok & _).
  pose proof (proj1 (lock_config_validP cfg) Hcfg) as (Hd & Hri & _ & Hj).
  unfold attempt in Ha. rewrite Hwk in Ha.
  pose proof (do_acquire_spec (generate_token (worker (ls_config l)) who)
    (lease_duration cfg) t now1 now2 l Hok Hd H1 H2) as Hs.
  destruct (do_acquire _ _ _ _ l) as [ro l1]. destruct Hs as (Hso & Hok1 & Hgot & Hkeep).
  destruct (same_object_fields _ _ Hso) as (En & Ec & Eh & Ew).
  assert (forall l2 ls2,
    ls_store l2 = ls_store l1 -> ls_config l2 = ls_config l1 -> ls_name l2 = ls_name l1 ->
    (forall who', who' <> who -> (who' ∈ held l1 -> who' ∈ held l2) /\
       waiting l2 !! who' = waiting l1 !! who') ->
    (forall w, waiting l2 !! who = Some w -> waiting_ok (worker (ls_config l)) now3 w) ->
    (forall who', who' <> who -> ls2 !! who' = ls !! who') ->
    (forall fu, ls2 !! who = Some fu -> who ∈ held l2 /\
       holds l2 (generate_token (worker (ls_config l)) who) fu.1 now3 fu.2) ->
    system_ok (mkSystem l2 now3 ls2)) as Hdone.
  { intros l2 ls2 Es Ec2 En2 Hoth Hw Hls Hme.
    eapply (system_step who l l2 t now3 ls ls2); try done; [lra|].
    split_and!; [by rewrite Es|congruence|unfold lock_name; congruence| |].
    - intros who' Hne. destruct (Hoth who' Hne) as [Hh2 Hw2]. rewrite Hw2, Ew. split; [|done].
      rewrite <- Eh. done.
    - intros tok f u Hne Hh. pose proof (Hkeep tok f u Hne Hh) as Hk.
      unfold holds, lock_name in *. rewrite Es, En2. intros v Hv. apply Hk. lra. }
  assert (forall who', who' <> who ->
    (who' ∈ held l1 -> who' ∈ held l1) /\ delete who (waiting l1) !! who' = waiting l1 !! who') as Hdel
    by (intros; by rewrite lookup_delete_ne).
  destruct ro as [[f|]|e].
  - injection Ha as <- <-. apply Hdone; simpl; try done.
    + intros who' Hne. rewrite lookup_delete_ne by done. split; [|done]. intros. by apply elem_of_union_r.
    + intros w. by rewrite lookup_delete_eq.
    + intros who' Hne. by rewrite lookup_insert_ne.
    + intros fu. rewrite lookup_insert_eq. intros [= <-]. split; [by apply elem_of_union_l, elem_of_singleton|].
      eapply holds_later; [exact H3|]. by apply Hgot.
  - destruct (match deadline with Some d => _ | None => _ end) eqn:Ed;
      injection Ha as <- <-; apply Hdone; simpl; try done.
    + intros w. by rewrite lookup_delete_eq.
    + intros who' Hne. by rewrite lookup_delete_ne.
    + intros fu. by rewrite lookup_delete_eq.
    + intros who' Hne. by rewrite lookup_insert_ne.
    + intros w. rewrite lookup_insert_eq. intros [= <-].
      destruct (jittered_interval_bounds (retry_interval cfg) (retry_jitter cfg) rnd Hri Hj Hrnd)
        as [[Hlo Hhi] Hpos].
      split_and!; simpl; try done; try lia; try lra.
      * replace (attempts + 1 - 1) with attempts by lia. lra.
      * intros d ->. destruct (Qle_bool_spec d now3); [done|lra].
    + intros who' Hne. by rewrite lookup_delete_ne.
    + intros fu. by rewrite lookup_delete_eq.
  - injection Ha as <- <-. apply Hdone; simpl; try done.
    + intros w. by rewrite lookup_delete_eq.
    + intros who' Hne. by rewrite lookup_delete_ne.
    + intros fu. by rewrite lookup_delete_eq.
Qed.

(** A single call of the backend under [who]'s token, held set and waiting
    callers of the others untouched. *)
Lemma single_call_ok who t now1 now2 l l1 l2 ls ls2 :
  system_ok (mkSystem l t ls) -> (t <= now2)%Q ->
  same_object l l1 -> lb_ok (ls_store l1) ->
  (forall tok' f u, tok' <> generate_token (worker (ls_config l)) who ->
     holds l tok' f t u -> holds l1 tok' f now2 u) ->
  (now1 <= now2)%Q -> waiting l !! who = None ->
  (forall h, l2 = set_held h l1 -> forall who', who' <> who -> who' ∈ held l -> who' ∈ h) ->
  (exists h, l2 = set_held h l1) ->
  (forall who', who' <> who -> ls2 !! who' = ls !! who') ->
  (forall fu, ls2 !! who = Some fu -> who ∈ held l2 /\
     holds l1 (generate_token (worker (ls_config l)) who) fu.1 now2 fu.2) ->
  system_ok (mkSystem l2 now2 ls2).
Proof.
  intros Hsys Ht Hso Hok1 Hkeep H12 Hw Hh [h ->] Hls Hme.
  destruct (same_object_fields _ _ Hso) as (En & Ec & Eh & Ew).
  eapply (system_step who l _ t now2 ls ls2); try done.
  - split_and!; simpl; try done; [unfold lock_name; simpl; congruence|].
    intros who' Hne. split; [by apply (Hh h)|congruence].
  - simpl. intros w. rewrite Ew. congruence.
Qed.

Lemma set_held_id l : set_held (held l) l = l.
Proof. by destruct l. Qed.

Lemma system_ok_clock l t t' ls :
  system_ok (mkSystem l t ls) -> (t <= t')%Q -> system_ok (mkSystem l t' ls).
Proof.
  intros (Hok & Hcfg & Hw & Hls) Ht. split; [done|]. split; [done|]. simpl in *. split.
  - intros who w Hx. eapply waiting_ok_later; [done|eauto].
  - intros who fu Hx. destruct (Hls who fu Hx) as [? Hl]. split; [done|].
    intros u Hu. apply Hl. simpl in *. lra.
Qed.

Lemma nowait_ok who t now1 now2 l ls r l' :
  system_ok (mkSystem l t ls) -> (t <= now1)%Q -> (now1 <= now2)%Q ->
  waiting l !! who = None -> ls !! who = None ->
  acquire_nowait who now1 now2 l = (r, l') ->
  system_ok (mkSystem l' now2 (believe who r (now2 + lease_duration (ls_config l))%Q ls)).
Proof.
  intros Hsys H1 H2 Hw Hl Ha. pose proof Hsys as (Hok & Hcfg & _). simpl in Hok, Hcfg.
  apply lock_config_validP in Hcfg as (Hd & _). unfold acquire_nowait in Ha.
  case_decide; [injection Ha as <- <-; simpl; rewrite delete_id by done;
    apply (system_ok_clock l t); [done|lra]|].
  pose proof (do_acquire_spec (generate_token (worker (ls_config l)) who)
    (lease_duration (ls_config l)) t now1 now2 l Hok Hd H1 H2) as Hs.
  destruct (do_acquire _ _ _ _ l) as [ro l1]. destruct Hs as (Hso & Hok1 & Hgot & Hkeep).
  destruct (same_object_fields _ _ Hso) as (_ & _ & Eh & _).
  assert (t <= now2)%Q by lra.
  destruct ro as [[f|]|e]; injection Ha as <- <-;
    (eapply (single_call_ok who t now1 now2 l l1); [done..| | | |]); simpl.
  - intros h [= <-] who' _ Hin. apply elem_of_union_r. by rewrite Eh.
  - by eexists.
  - intros. by rewrite lookup_insert_ne.
  - intros fu. rewrite lookup_insert_eq. intros [= <-].
    split; [by apply elem_of_union_l, elem_of_singleton|by apply Hgot].
  - intros h E who' _ Hin. apply (f_equal held) in E. simpl in E. by rewrite <- E, Eh.
  - exists (held l1). by rewrite set_held_id.
  - intros. by rewrite lookup_delete_ne.
  - intros fu. by rewrite lookup_delete_eq.
  - intros h E who' _ Hin. apply (f_equal held) in E. simpl in E. by rewrite <- E, Eh.
  - exists (held l1). by rewrite set_held_id.
  - intros. by rewrite lookup_delete_ne.
  - intros fu. by rewrite lookup_delete_eq.
Qed.

Lemma extend_ok who t now1 now2 l ls r l' :
  system_ok (mkSystem l t ls) -> (t <= now1)%Q -> (now1 <= now2)%Q ->
  waiting l !! who = None ->
  extend who now1 now2 l = (r, l') ->
  system_ok (mkSystem l' now2 (believe who r (now2 + lease_duration (ls_config l))%Q ls)).
Proof.
  intros Hsys H1 H2 Hw Ha. pose proof Hsys as (Hok & Hcfg & _ & Hls). simpl in Hok, Hcfg, Hls.
  apply lock_config_validP in Hcfg as (Hd & _). unfold extend in Ha.
  case_decide as Hin.
  { injection Ha as <- <-. simpl. rewrite delete_id; [apply (system_ok_clock l t); [done|lra]|].
    apply eq_None_not_Some. intros [fu Hfu]. by destruct (Hls who fu Hfu). }
  pose proof (do_acquire_spec (generate_token (worker (ls_config l)) who)
    (lease_duration (ls_config l)) t now1 now2 l Hok Hd H1 H2) as Hs.
  destruct (do_acquire _ _ _ _ l) as [ro l1]. destruct Hs as (Hso & Hok1 & Hgot & Hkeep).
  destruct (same_object_fields _ _ Hso) as (_ & _ & Eh & _).
  assert (t <= now2)%Q by lra.
  destruct ro as [[f|]|e]; injection Ha as <- <-;
    (eapply (single_call_ok who t now1 now2 l l1); [done..| | | |]); simpl;
    try (intros h E who' _ Hi; apply (f_equal held) in E; simpl in E; by rewrite <- E, Eh);
    try (exists (held l1); by rewrite set_held_id).
  - intros. by rewrite lookup_insert_ne.
  - intros fu. rewrite lookup_insert_eq. intros [= <-]. simpl.
    split; [by rewrite Eh|by apply Hgot].
  - intros. by rewrite lookup_delete_ne.
  - intros fu. by rewrite lookup_delete_eq.
  - intros. by rewrite lookup_delete_ne.
  - intros fu. by rewrite lookup_delete_eq.
Qed.

Lemma release_ok who t now1 now2 l ls r l' :
  system_ok (mkSystem l t ls) -> (t <= now1)%Q -> (now1 <= now2)%Q ->
  waiting l !! who = None ->
  release who now1 now2 l = (r, l') ->
  system_ok (mkSystem l' now2 (delete who ls)).
Proof.
  intros Hsys H1 H2 Hw Ha. pose proof Hsys as (Hok & _). simpl in Hok. unfold release in Ha.
  pose proof (do_release_spec (generate_token (worker (ls_config l)) who) t now1 now2 l
    Hok H1 H2) as Hs.
  destruct (do_release _ _ _ l) as [ro l1]. destruct Hs as (Hso & Hok1 & Hkeep).
  destruct (same_object_fields _ _ Hso) as (_ & _ & Eh & _).
  assert (t <= now2)%Q by lra.
  assert (forall h, (forall who', who' <> who -> who' ∈ held l -> who' ∈ h) ->
    system_ok (mkSystem (set_held h l1) now2 (delete who ls))) as Hdone.
  { intros h Hh. eapply (single_call_ok who t now1 now2 l l1); [done..| | | |]; simpl.
    - by intros h' [= <-].
    - by exists h.
    - intros. by rewrite lookup_delete_ne.
    - intros fu. by rewrite lookup_delete_eq. }
  assert (forall who', who' <> who -> who' ∈ held l -> who' ∈ held l1 ∖ {[who]}) as Hdiff.
  { intros who' Hne Hin. rewrite Eh. apply elem_of_difference. split; [done|].
    by rewrite elem_of_singleton. }
  destruct ro as [[]|e]; injection Ha as <- <-; try (by apply Hdone).
  rewrite <- (set_held_id l1). apply Hdone. intros who' _. by rewrite Eh.
Qed.

(** Other processes. *)
Lemma foreign_ok t l ls e :
  system_ok (mkSystem l t ls) -> (t <= le_now1 e)%Q -> (le_now1 e <= le_now2 e)%Q ->
  (if le_op e is OAcquire _ d then (0 < d)%Q else True) ->
  foreign (worker (ls_config l)) (lock_name l) e ->
  system_ok (mkSystem (set_store (lock_exec e (ls_store l)).2 l) (le_now2 e) ls).
Proof.
  intros Hsys H1 H2 Hd Hf. pose proof Hsys as (Hok & Hcfg & Hw & Hls). simpl in Hok, Hls.
  assert (lb_ok (lock_exec e (ls_store l)).2 /\
    forall who f u, holds l (generate_token (worker (ls_config l)) who) f t u ->
      holds (set_store (lock_exec e (ls_store l)).2 l)
        (generate_token (worker (ls_config l)) who) f (le_now2 e) u) as [Hok' Hkeep].
  { unfold holds, foreign, lock_exec in *. destruct e as [name now1 now2 o]. simpl in *.
    change (lock_name (set_store ?s l)) with (lock_name l).
    destruct o as [tok d|tok].
    - pose proof (lb_acquire_spec name tok d now1 now2 (ls_store l) Hok H2 Hd) as Hs.
      pose proof (lease_true_acquire) as Hk.
      destruct (lb_acquire _ _ _ _ _ _) as [r s'], (lease_acquire _ _ _ _ _) as [r' l'] eqn:Ea.
      destruct Hs as (Hok' & Hn & Hr). split; [done|]. intros who f u Hh v Hv. simpl.
      destruct (decide (name = lock_name l)) as [E|Hne].
      + subst name. eapply (Hk _ d now1 now2 t); [done..|apply (Hf eq_refl who)| |done].
        rewrite Ea. destruct r; [right; apply Hr|done].
      + destruct (Hn (lock_name l) ltac:(done)) as [-> Hl]. rewrite Hl by lra. apply Hh. lra.
    - pose proof (lb_release_spec name tok now1 now2 (ls_store l) Hok H2) as Hs.
      pose proof (lease_true_release) as Hk.
      destruct (lb_release _ _ _ _ _) as [r s'], (lease_release _ _ _) as [r' l'] eqn:Ea.
      destruct Hs as (Hok' & Hn & Hr). split; [done|]. intros who f u Hh v Hv. simpl.
      destruct (decide (name = lock_name l)) as [E|Hne].
      + subst name. eapply (Hk _ now1 now2 t); [done..|apply (Hf eq_refl who)| |done].
        rewrite Ea. destruct r; [right; apply Hr|done].
      + destruct (Hn (lock_name l) ltac:(done)) as [-> Hl]. rewrite Hl by lra. apply Hh. lra. }
  split; [done|]. split; [done|]. simpl in *. split.
  - intros who w Hx. eapply (waiting_ok_later _ t); [lra|eauto].
  - intros who fu Hx. destruct (Hls who fu Hx) as [? Hl]. split; [done|].
    by apply (Hkeep who fu.1 fu.2).
Qed.

Lemma lstep_ok sy sy' : lstep sy sy' -> system_ok sy -> system_ok sy'.
Proof.
  intros Hs Hsys. destruct Hs as
    [l t ls who timeout now0 now1 now2 now3 rnd r l' H0 H1 H2 H3 Hrnd Hw Hl Ha
    |l t ls who timeout now0 now1 now2 now3 rnd l' e Ha Hin
    |l t ls who w now1 now2 now3 rnd r l' H1 H2 H3 Hrnd Hw Hwake Hl Ha
    |l t ls who now1 now2 r l' H1 H2 Hw Hl Ha
    |l t ls who now1 now2 r l' H1 H2 Hw Ha
    |l t ls who now1 now2 r l' H1 H2 Hw Ha
    |l t ls e H1 H2 Hd Hf|l t ls cfg r l' Hv Ha].
  - unfold acquire in Ha. case_decide.
    + injection Ha as <- <-. simpl. rewrite delete_id by done.
      apply (system_ok_clock l t); [done|lra].
    + pose proof Hsys as (_ & Hcfg & _). simpl in Hcfg.
      eapply attempt_ok in Ha; 
        [done|exact Hsys|lra|done|done|done|done|done|lia|done|].
      change (inject_Z 0) with 0%Q. lra.
  - unfold acquire in Ha. rewrite decide_True in Ha by done. by injection Ha as <- <-.
  - unfold acquire_wake in Ha. rewrite Hw in Ha.
    pose proof Hsys as (_ & _ & Hwok & _). simpl in Hwok.
    destruct (Hwok who w Hw) as (Hcfg & Hwk & Hn & Hsp & Hlo & _ & _ & _).
    apply lock_config_validP in Hcfg as Hcfg'. destruct Hcfg' as (_ & Hri & _ & Hj).
    assert (0 < retry_interval (w_config w) * (1 - retry_jitter (w_config w)))%Q as Hpos
      by (apply Qmult_lt_0_compat; lra).
    assert (inject_Z (w_attempts w) *
      (retry_interval (w_config w) * (1 - retry_jitter (w_config w))) <=
      w_checked w - w_start w +
      retry_interval (w_config w) * (1 - retry_jitter (w_config w)))%Q as Hsum.
    { replace (w_attempts w) with (w_attempts w - 1 + 1) by lia.
      rewrite inject_Z_plus. change (inject_Z 1) with 1%Q. lra. }
    assert (0 <= inject_Z (w_attempts w - 1) *
      (retry_interval (w_config w) * (1 - retry_jitter (w_config w))))%Q as Hnn.
    { apply Qmult_le_0_compat; [|lra]. apply (proj1 (inject_Z_nonneg _)). lia. }
    eapply attempt_ok in Ha; 
      [done|exact Hsys|done|done|done|done|done|done|lia|lra|lra].
  - by eapply nowait_ok.
  - by eapply extend_ok.
  - by eapply release_ok.
  - by eapply foreign_ok.
  - unfold lock_reconfigure in Ha. case_decide as Hwk; injection Ha as <- <-; [|done].
    destruct Hsys as (Hok & Hcfg & Hw & Hls). split; [done|]. split; [done|]. simpl in *.
    split; [rewrite Hwk; done|]. intros who fu Hx. destruct (Hls who fu Hx) as [? Hlt].
    split; [done|]. unfold lease_true in *. simpl in *. by rewrite Hwk.
Qed.

Definition lock_reachable (name : string) (cfg : LockConfig) (s : B) (sy : System) : Prop :=
  lb_ok s /\ lock_config_valid cfg = true /\
  exists l t, lock_new name cfg s = Return l /\ rtc lstep (mkSystem l t ∅) sy.

Lemma lock_reachable_ok name cfg s sy : lock_reachable name cfg s sy -> system_ok sy.
Proof.
  intros (Hs & Hcfg & l & t & Hl & Hr). eapply (invariant_rtc lstep system_ok lstep_ok); [done|].
  unfold lock_new in Hl. destruct (validate_lock_name name); [|done]. injection Hl as <-.
  split_and!; simpl; try done.
Qed.

(** C1 Mutual exclusion: whatever tasks and threads acquire, extend and release,
    whatever other processes do to the backend and whatever fails on the way,
    at no instant do two callers hold handles whose leases still run; and the
    one that does is the owner the backend reports, under the number on its
    handle. *)
Theorem lock_mutual_exclusion (name : string) (cfg : LockConfig) (s : B) (sy : System)
    (a b : caller) (fa fb : Z) (ua ub now : Q) :
  lock_reachable name cfg s sy ->
  leases sy !! a = Some (fa, ua) -> leases sy !! b = Some (fb, ub) ->
  (sy_clock sy <= now)%Q -> (now <= ua)%Q -> (now <= ub)%Q ->
  a = b /\ a ∈ held (sy_lock sy) /\
  l_fence (lb_lease (ls_store (sy_lock sy)) (lock_name (sy_lock sy))) = fa /\
  forall r, owned a now (sy_lock sy) = Return r -> r = true.
Proof.
  intros Hr Ha Hb Hnow Hua Hub.
  destruct (lock_reachable_ok _ _ _ _ Hr) as (Hok & _ & _ & Hls).
  destruct (Hls a _ Ha) as [Hin Hla]. destruct (Hls b _ Hb) as [_ Hlb].
  destruct (Hla now ltac:(done)) as [Ea Ef]. destruct (Hlb now ltac:(done)) as [Eb _].
  split; [|split; [done|split; [done|]]].
  - apply (generate_token_inj (worker (ls_config (sy_lock sy)))). congruence.
  - intros r Ho. unfold owned, do_owned, wrap in Ho.
    destruct (lb_owned _ _ _ _) as [v|e] eqn:E; [|by case_match].
    injection Ho as <-. apply lb_owned_spec in E as ->; [|done].
    by apply bool_decide_eq_true_2.
Qed.

(** C16 An [acquire] with a timeout terminates: a caller still waiting has made at
    most [timeout / (retry_interval * (1 - retry_jitter)) + 1] attempts, it was
    within its deadline at the last one, and it wakes no later than one
    longest interval past the deadline. *)
Theorem acquire_attempts_bounded (name : string) (cfg : LockConfig) (s : B)
    (sy : System) (who : caller) (w : Waiting) (timeout : Q) :
  lock_reachable name cfg s sy ->
  waiting (sy_lock sy) !! who = Some w -> w_deadline w = Some (w_start w + timeout)%Q ->
  (inject_Z (w_attempts w - 1) *
     (retry_interval (w_config w) * (1 - retry_jitter (w_config w))) < timeout)%Q /\
  (0 < retry_interval (w_config w) * (1 - retry_jitter (w_config w)))%Q /\
  (w_wake w < w_start w + timeout +
     retry_interval (w_config w) * (1 + retry_jitter (w_config w)))%Q.
Proof.
  intros Hr Hw Hd. destruct (lock_reachable_ok _ _ _ _ Hr) as (_ & _ & Hwok & _).
  destruct (Hwok who w Hw) as (Hcfg & _ & _ & Hsp & _ & Hhi & _ & Hdl).
  specialize (Hdl _ Hd). apply lock_config_validP in Hcfg as (_ & Hri & _ & Hj).
  split; [lra|]. split; [apply Qmult_lt_0_compat; lra|lra].
Qed.
End Lock.

(** A lock name is accepted exactly when it is 1 to 200 characters, starts
    with a letter or digit and holds only letters, digits and [._:/-], except
    that a final newline passes as well. *)
Lemma lock_name_accepted (c : ascii) (s : string) :
  validate_lock_name (String c s) = Return tt <->
  (String.length s < 200)%nat /\ is_alnum c = true /\
  exists body tail, s = body +:+ tail /\
    Forall (fun x => is_name_char x = true) (String.list_ascii_of_string body) /\
    (tail = "" \/ tail = String (ascii_of_nat 10) "").
Proof.
  assert (name_tail s = true <-> exists body tail, s = body +:+ tail /\
    Forall (fun x => is_name_char x = true) (String.list_ascii_of_string body) /\
    (tail = "" \/ tail = String (ascii_of_nat 10) "")) as Htail.
  { induction s as [|x s IH]; [split; [|done]; intros _; by exists "", ""; repeat split; auto|].
    assert (name_tail (String x s) = true <->
      (is_name_char x = true /\ name_tail s = true) \/
      (x = ascii_of_nat 10 /\ s = "")) as ->.
    { destruct s as [|y s]; simpl; [|rewrite andb_true_iff; naive_solver].
      rewrite orb_true_iff, Ascii.eqb_eq. naive_solver. }
    rewrite IH. split.
    - intros [[Hx (body & tail & -> & Hb & Ht)]|[-> ->]].
      + exists (String x body), tail. simpl. split_and!; [done|by constructor|done].
      + exists "", (String (ascii_of_nat 10) ""). repeat split; auto.
    - intros (body & tail & E & Hb & Ht). destruct body as [|y body]; simpl in *.
      + destruct Ht as [->| ->]; [done|]. injection E as -> ->. by right.
      + injection E as -> ->. apply Forall_cons in Hb as [Hy Hb]. left. split; [done|].
        by exists body, tail. }
  rewrite <- Htail. unfold validate_lock_name.
  destruct (Nat.leb_spec (String.length (String c s)) NAME_MAX_LEN) as [Hl|Hl];
    change (String.length (String c s)) with (S (String.length s)) in Hl;
    unfold NAME_MAX_LEN in Hl; destruct (is_alnum c), (name_tail s); cbn [andb];
    (split; [intros Hx; first [discriminate Hx|split; [lia|done]]
            |intros (Hlen & Hc & Hs); solve [done|lia]]).
Qed.

(** ** On the in-memory backend *)

(** [extend] after the lease has lapsed, with no other holder, does not report
    the loss: it takes the lock anew and returns a handle with a larger
    fencing number, so the holder is not told that others may have run in
    between. *)
Lemma extend_after_expiry_reacquires (who : caller) (now1 now2 : Q)
    (l : LockState (B := LockStore)) :
  lock_ok (ls_store l) -> lock_config_valid (ls_config l) = true ->
  (now1 <= now2)%Q -> who ∈ held l ->
  live_holder now1 (lock_lease (ls_store l) (lock_name l)) = None ->
  (extend who now1 now2 l).1 =
  Return (Some (mkLockHandle (ls_name l) (generate_token (worker (ls_config l)) who)
                  (l_fence (lock_lease (ls_store l) (lock_name l)) + 1))).
Proof.
  intros Hok Hcfg Hle Hin Hl. apply lock_config_validP in Hcfg as (Hd & _).
  unfold extend. rewrite decide_False by auto. unfold do_acquire. simpl.
  pose proof (lock_acquire_refines (lock_name l) (generate_token (worker (ls_config l)) who)
    (lease_duration (ls_config l)) now1 now2 (ls_store l) Hok Hle Hd) as Hr.
  unfold lease_acquire in Hr. rewrite Hl in Hr.
  destruct (lock_acquire _ _ _ _ _ _) as [r s']. destruct Hr as (_ & _ & -> & _). done.
Qed.

(** Over the in-memory backend a wait ends as soon as the lock is free: the
    first attempt made with no live holder gets the lock, under a new fencing
    number. *)
Lemma free_lock_is_granted (who : caller) (cfg : LockConfig) (deadline : option Q)
    (start : Q) (attempts : Z) (now1 now2 now3 rnd : Q) (l : LockState (B := LockStore)) :
  lock_ok (ls_store l) -> lock_config_valid cfg = true -> (now1 <= now2)%Q ->
  live_holder now1 (lock_lease (ls_store l) (lock_name l)) = None ->
  let '(r, l') := attempt who cfg deadline start attempts now1 now2 now3 rnd l in
  r = Return (Some (mkLockHandle (ls_name l) (generate_token (worker cfg) who)
                     (l_fence (lock_lease (ls_store l) (lock_name l)) + 1))) /\
  who ∈ held l' /\ waiting l' !! who = None /\
  locked now2 l' = Return true.
Proof.
  intros Hok Hcfg Hle Hl. apply lock_config_validP in Hcfg as (Hd & _).
  unfold attempt, do_acquire. simpl.
  pose proof (lock_acquire_refines (lock_name l) (generate_token (worker cfg) who)
    (lease_duration cfg) now1 now2 (ls_store l) Hok Hle Hd) as Hr.
  unfold lease_acquire in Hr. rewrite Hl in Hr.
  destruct (lock_acquire _ _ _ _ _ _) as [r s']. destruct Hr as (Hok' & _ & -> & Hs). simpl.
  split; [done|]. split; [by apply elem_of_union_l, elem_of_singleton|].
  split; [apply lookup_delete_eq|].
  unfold locked. simpl. change (lock_name (set_held _ _)) with (lock_name l).
  assert (locks s' !! lock_name l =
    Some (generate_token (worker cfg) who, (now2 + lease_duration cfg)%Q)) as Hs'.
  { apply (f_equal l_holder) in Hs. exact Hs. }
  unfold lock_locked, lock_entry. rewrite Hs'. simpl.
  destruct (Qle_bool_spec now2 (now2 + lease_duration cfg)); [done|lra].
Qed.

(** ** Concrete runs *)

Definition cfg_lock : LockConfig := mkLockConfig "w" 60 (1 # 10) (1 # 10).

Definition lock0 : LockState (B := LockStore) := mkLockState "cart" cfg_lock ∅ ∅ lock_init.

(** Task 1 holds the lock from instant 0. *)
Definition lock1 : LockState (B := LockStore) := (acquire (Task 1) None 0 0 0 0 0 lock0).2.

Lemma lock1_reachable :
  lock_reachable "cart" cfg_lock lock_init
    (mkSystem lock1 0 {[Task 1 := (1, (0 + 60)%Q)]}).
Proof.
  split; [apply lock_ok_init|]. split; [done|]. exists lock0, 0%Q. split; [reflexivity|].
  eapply rtc_l; [|apply rtc_refl].
  apply (l_acquire lock0 0 ∅ (Task 1) None 0 0 0 0 0
    (Return (Some (mkLockHandle "cart" "w:task:1" 1))) lock1); try done.
Qed.

(** Task 2 then waits for at most one second. *)
Definition lock2 : LockState (B := LockStore) :=
  (acquire (Task 2) (Some 1%Q) 10 10 10 10 0 lock1).2.

Lemma lock2_reachable :
  lock_reachable "cart" cfg_lock lock_init
    (mkSystem lock2 10 (delete (Task 2) {[Task 1 := (1, (0 + 60)%Q)]})).
Proof.
  destruct lock1_reachable as (Hs & Hc & l & t & Hl & Hr).
  split; [done|]. split; [done|]. exists l, t. split; [done|].
  eapply rtc_r; [exact Hr|].
  apply (l_acquire lock1 0 {[Task 1 := (1, (0 + 60)%Q)]} (Task 2) (Some 1%Q) 10 10 10 10 0
    (Return None) lock2); try done.
Qed.

Lemma lock_mutual_exclusion_witness :
  Task 1 = Task 1 /\ Task 1 ∈ held lock1 /\
  l_fence (lb_lease (ls_store lock1) (lock_name lock1)) = 1 /\
  forall r, owned (Task 1) 30 lock1 = Return r -> r = true.
Proof.
  apply (lock_mutual_exclusion "cart" cfg_lock lock_init
    (mkSystem lock1 0 {[Task 1 := (1, (0 + 60)%Q)]}) (Task 1) (Task 1) 1 1 (0 + 60) (0 + 60) 30);
    [apply lock1_reachable|done|done|done|done|done].
Defined.

Lemma acquire_attempts_bounded_witness :
  exists w, waiting lock2 !! Task 2 = Some w /\
  (inject_Z (w_attempts w - 1) *
     (retry_interval (w_config w) * (1 - retry_jitter (w_config w))) < 1)%Q.
Proof.
  destruct (waiting lock2 !! Task 2) as [w|] eqn:E; [|by vm_compute in E].
  exists w. split; [done|].
  apply (acquire_attempts_bounded "cart" cfg_lock lock_init
    (mkSystem lock2 10 (delete (Task 2) {[Task 1 := (1, (0 + 60)%Q)]})) (Task 2) w 1);
    [apply lock2_reachable|done|].
  vm_compute in E. injection E as <-. reflexivity.
Defined.

Lemma extend_after_expiry_reacquires_witness :
  (extend (Task 1) 100 100 lock1).1 =
  Return (Some (mkLockHandle "cart" "w:task:1" 2)).
Proof.
  apply (extend_after_expiry_reacquires (Task 1) 100 100 lock1);
    [|reflexivity|done|vm_compute; reflexivity|reflexivity].
  exact (proj1 (lock_reachable_ok _ _ _ _ lock1_reachable)).
Defined.

Lemma free_lock_is_granted_witness :
  let '(r, l') := attempt (Task 2) cfg_lock None 10 1 100 100 100 0 lock1 in
  r = Return (Some (mkLockHandle "cart" "w:task:2" 2)) /\
  Task 2 ∈ held l' /\ waiting l' !! Task 2 = None /\ locked 100 l' = Return true.
Proof.
  apply (free_lock_is_granted (Task 2) cfg_lock None 10 1 100 100 100 0 lock1);
    [|reflexivity|done|reflexivity].
  exact (proj1 (lock_reachable_ok _ _ _ _ lock1_reachable)).
Defined.
