(* ===== verification/Backoff.v ===== *)
(** * Retry backoffs

    [grelmicro/resilience/backoffs/*.py] and
    [grelmicro/resilience/_retry_strategy.py]: the backoff configurations and
    the stateful strategy built from one for each retry loop. *)

From S2P Require Import Prelude Errors.

Local Open Scope Z_scope.

(** ** What a retry loop uses of its surroundings

    The clock seam ([grelmicro.clock.monotonic] and [sleep]) and [random]. *)
Class Runtime (W : Type) := {
  monotonic : W -> Q;
  sleep : Q -> W -> W;
  random : W -> Q * W;
  sleep_monotonic d w : (monotonic w + d <= monotonic (sleep d w))%Q;
  random_monotonic w : (monotonic w <= monotonic (random w).2)%Q;
  random_bounds w : (0 <= (random w).1 < 1)%Q;
}.

(** [random.uniform(a, b)] *)
Definition uniform {W} `{Runtime W} (a b : Q) (w : W) : Q * W :=
  let '(r, w) := random w in ((a + (b - a) * r)%Q, w).

(** An [int] in float arithmetic: integers that round to [2 ** 1024] or more
    do not convert. *)
Definition FLOAT_LIMIT : Z := 2 ^ 1024 - 2 ^ 970.

Definition int_to_float (z : Z) : outcome exn Q :=
  if (z <? FLOAT_LIMIT)%Z then Return (inject_Z z)
  else Raise (mk_exn OverflowError NoInfo).

(** ** Configurations *)

Inductive Jitter : Type := JNone | JFull | JEqual | JDecorrelated.

Inductive RetryBackoffConfig : Type :=
| ExponentialBackoff (base_delay max_delay : Q) (jitter : Jitter)
| ConstantBackoff (delay : Q)
| LinearBackoff (base_delay max_delay : Q)
| FibonacciBackoff (base_delay max_delay : Q)
| RandomBackoff (min_delay max_delay : Q).

(** The field types ([PositiveFloat]) and [RandomBackoff._check_range]. *)
Definition backoff_valid (c : RetryBackoffConfig) : bool :=
  match c with
  | ExponentialBackoff base max _ | LinearBackoff base max
  | FibonacciBackoff base max => (0 <? base)%py && (0 <? max)%py
  | ConstantBackoff delay => (0 <? delay)%py
  | RandomBackoff min max => (0 <? min)%py && (0 <? max)%py && negb (min >? max)%py
  end.

(** [_backoff_name]: the discriminator. *)
Definition backoff_name (c : RetryBackoffConfig) : string :=
  match c with
  | ExponentialBackoff _ _ _ => "exponential"
  | ConstantBackoff _ => "constant"
  | LinearBackoff _ _ => "linear"
  | FibonacciBackoff _ _ => "fibonacci"
  | RandomBackoff _ _ => "random"
  end.

(** ** Strategies, with their mutable fields last *)

Inductive RetryStrategy : Type :=
| ExponentialStrategy (base max : Q) (jitter : Jitter) (previous : Q)
| ConstantStrategy (delay : Q)
| LinearStrategy (base max : Q)
| FibonacciStrategy (base max : Q) (prev_prev prev : Z) (attempt : nat)
| RandomStrategy (min max : Q).

Definition build_retry_strategy (c : RetryBackoffConfig) : RetryStrategy :=
  match c with
  | ExponentialBackoff base max j => ExponentialStrategy base max j base
  | ConstantBackoff d => ConstantStrategy d
  | LinearBackoff base max => LinearStrategy base max
  | FibonacciBackoff base max => FibonacciStrategy base max 0 1 0
  | RandomBackoff min max => RandomStrategy min max
  end.

(** The loop of [_FibonacciStrategy.delay]. *)
Fixpoint fibonacci_advance (steps : nat) (pp p : Z) : Z * Z :=
  match steps with
  | O => (pp, p)
  | S steps => fibonacci_advance steps p (pp + p)
  end.

Section Delay.
Context {W : Type} `{Runtime W}.

(** The jitter of [_ExponentialStrategy.delay]. *)
Definition jittered (base max : Q) (jitter : Jitter) (previous raw : Q) (w : W) : Q * W :=
  match jitter with
  | JNone => (raw, w)
  | JFull => uniform 0 raw w
  | JEqual =>
      let half := (raw * (1 # 2))%Q in
      let '(u, w) := uniform 0 half w in ((half + u)%Q, w)
  | JDecorrelated =>
      let '(u, w) := uniform base (previous * 3)%Q w in (py_min max u, w)
  end.

(** [_ExponentialStrategy.delay] *)
Definition exponential_delay (base max : Q) (j : Jitter) (previous : Q)
    (attempt : nat) (w : W) : outcome exn Q * RetryStrategy * W :=
  match int_to_float (2 ^ (Z.of_nat attempt - 1)) with
  | Raise e => (Raise e, ExponentialStrategy base max j previous, w)
  | Return factor =>
      let raw := py_min (base * factor) max in
      let '(d, w) := jittered base max j previous raw w in
      (Return d, ExponentialStrategy base max j (py_max d base), w)
  end.

(** [_ConstantStrategy.delay] *)
Definition constant_delay (d : Q) (w : W) : outcome exn Q * RetryStrategy * W :=
  (Return d, ConstantStrategy d, w).

(** [_LinearStrategy.delay] *)
Definition linear_delay (base max : Q) (attempt : nat) (w : W) :
    outcome exn Q * RetryStrategy * W :=
  match int_to_float (Z.of_nat attempt) with
  | Raise e => (Raise e, LinearStrategy base max, w)
  | Return k => (Return (py_min (base * k) max), LinearStrategy base max, w)
  end.

(** [_FibonacciStrategy.delay] *)
Definition fibonacci_delay (base max : Q) (pp p : Z) (k attempt : nat) (w : W) :
    outcome exn Q * RetryStrategy * W :=
  let '(pp, p) := fibonacci_advance (attempt - k) pp p in
  let s := FibonacciStrategy base max pp p (Nat.max k attempt) in
  match int_to_float pp with
  | Raise e => (Raise e, s, w)
  | Return f => (Return (py_min (base * f) max), s, w)
  end.

(** [_RandomStrategy.delay] *)
Definition random_delay (min max : Q) (w : W) : outcome exn Q * RetryStrategy * W :=
  let '(u, w) := uniform min max w in (Return u, RandomStrategy min max, w).

(** [strategy.delay(attempt)] *)
Definition delay (s : RetryStrategy) (attempt : nat) (w : W) :
    outcome exn Q * RetryStrategy * W :=
  match s with
  | ExponentialStrategy base max j previous =>
      exponential_delay base max j previous attempt w
  | ConstantStrategy d => constant_delay d w
  | LinearStrategy base max => linear_delay base max attempt w
  | FibonacciStrategy base max pp p k => fibonacci_delay base max pp p k attempt w
  | RandomStrategy min max => random_delay min max w
  end.

(** ** Theory *)

(** The longest delay a configuration asks for. *)
Definition longest_delay (c : RetryBackoffConfig) : Q :=
  match c with
  | ExponentialBackoff _ max _ | LinearBackoff _ max | FibonacciBackoff _ max
  | RandomBackoff _ max => max
  | ConstantBackoff d => d
  end.

Fixpoint fib (n : nat) : Z :=
  match n with
  | O => 0
  | S n' => match n' with O => 1 | S n'' => fib n' + fib n'' end
  end.

Lemma fib_SS n : fib (S (S n)) = fib (S n) + fib n.
Proof. done. Qed.

Lemma fib_nonneg n : 0 <= fib n.
Proof.
  enough (0 <= fib n /\ 0 <= fib (S n)) by tauto.
  induction n as [|n [IH1 IH2]]; [done|]. rewrite fib_SS. lia.
Qed.

Lemma fibonacci_advance_fib steps k :
  fibonacci_advance steps (fib k) (fib (S k)) = (fib (k + steps), fib (S (k + steps))).
Proof.
  revert k. induction steps as [|n IH]; intros k; [by rewrite Nat.add_0_r|].
  change (fibonacci_advance n (fib (S k)) (fib k + fib (S k)) =
    (fib (k + S n), fib (S (k + S n)))).
  assert (fib k + fib (S k) = fib (S (S k))) as -> by (rewrite fib_SS; lia).
  rewrite (IH (S k)). by rewrite Nat.add_succ_r.
Qed.

(** The states a strategy of a configuration goes through. *)
Definition strategy_of (c : RetryBackoffConfig) (s : RetryStrategy) : Prop :=
  match c, s with
  | ExponentialBackoff b m j, ExponentialStrategy b' m' j' p =>
      b' = b /\ m' = m /\ j' = j /\ (b <= p)%Q
  | ConstantBackoff d, ConstantStrategy d' => d' = d
  | LinearBackoff b m, LinearStrategy b' m' => b' = b /\ m' = m
  | FibonacciBackoff b m, FibonacciStrategy b' m' pp p k =>
      b' = b /\ m' = m /\ pp = fib k /\ p = fib (S k)
  | RandomBackoff mi m, RandomStrategy mi' m' => mi' = mi /\ m' = m
  | _, _ => False
  end.

Lemma build_strategy_of c : strategy_of c (build_retry_strategy c).
Proof. destruct c; simpl; auto using Qle_refl. Qed.

Lemma uniform_bounds a b (w : W) :
  (a <= b)%Q -> (a <= (uniform a b w).1 <= b)%Q.
Proof.
  intros Hab. unfold uniform. pose proof (random_bounds w) as Hr.
  destruct (random w) as [r w']. simpl in *.
  assert (0 <= (b - a) * r)%Q by (apply Qmult_le_0_compat; lra).
  assert (0 <= (b - a) * (1 - r))%Q by (apply Qmult_le_0_compat; lra). lra.
Qed.

Lemma uniform_monotonic a b (w : W) : (monotonic w <= monotonic (uniform a b w).2)%Q.
Proof.
  unfold uniform. pose proof (random_monotonic w). by destruct (random w).
Qed.

(** The range of each jitter mode. *)
Lemma jittered_bounds base max j previous raw (w : W) :
  (0 < base)%Q -> (0 < max)%Q -> (base <= previous)%Q -> (0 <= raw <= max)%Q ->
  let d := (jittered base max j previous raw w).1 in
  match j with
  | JNone => d = raw
  | JFull => (0 <= d <= raw)%Q
  | JEqual => (raw * (1 # 2) <= d <= raw)%Q
  | JDecorrelated => (py_min max base <= d <= max)%Q
  end.
Proof.
  intros Hb Hm Hp Hraw. unfold jittered. destruct j; simpl; [done| | |].
  - apply uniform_bounds. lra.
  - pose proof (uniform_bounds 0 (raw * (1 # 2)) w ltac:(lra)) as Hu.
    destruct (uniform _ _ w). simpl in *. lra.
  - pose proof (uniform_bounds base (previous * 3) w ltac:(lra)) as Hu.
    destruct (uniform _ _ w). simpl in *. qcases.
Qed.

Lemma jittered_monotonic base max j previous raw (w : W) :
  (monotonic w <= monotonic (jittered base max j previous raw w).2)%Q.
Proof.
  unfold jittered. destruct j; simpl; [apply Qle_refl|apply uniform_monotonic| |].
  - pose proof (uniform_monotonic 0 (raw * (1 # 2)) w). by destruct (uniform _ _ w).
  - pose proof (uniform_monotonic base (previous * 3) w). by destruct (uniform _ _ w).
Qed.

Lemma delay_ok c s attempt (w : W) :
  backoff_valid c = true -> strategy_of c s -> (0 < attempt)%nat ->
  let '(r, s', w') := delay s attempt w in
  strategy_of c s' /\ (monotonic w <= monotonic w')%Q /\
  match r with
  | Return d => (0 <= d <= longest_delay c)%Q
  | Raise e => exn_cls e = OverflowError
  end.
Proof.
  intros Hc Hs Hn. pose proof (Qle_refl (monotonic w)) as Hw.
  destruct c as [b m j|d|b m|b m|mi m], s as [b' m' j' p|d'|b' m'|b' m' pp p k|mi' m'];
    simpl in Hs; try done; simpl in Hc.
  - destruct Hs as (-> & -> & -> & Hp). apply andb_prop in Hc as [Hb Hm].
    destruct (Qlt_bool_spec 0 b), (Qlt_bool_spec 0 m); try done. unfold delay, exponential_delay, constant_delay, linear_delay, fibonacci_delay, random_delay, int_to_float.
    destruct (_ <? FLOAT_LIMIT); [|by split_and!].
    assert (0 <= inject_Z (2 ^ (Z.of_nat attempt - 1)))%Q as Hf
      by (apply (proj1 (inject_Z_nonneg _)); lia).
    assert (0 <= b * inject_Z (2 ^ (Z.of_nat attempt - 1)))%Q by (apply Qmult_le_0_compat; lra).
    set (raw := py_min _ m). assert (0 <= raw <= m)%Q as Hraw by (subst raw; qcases).
    pose proof (jittered_bounds b m j p raw w ltac:(done) ltac:(done) Hp Hraw) as Hj.
    pose proof (jittered_monotonic b m j p raw w) as Hmono.
    destruct (jittered b m j p raw w) as [d w']. simpl in Hj, Hmono. simpl. split_and!; try done.
    + qcases.
    + destruct j; subst; try lra. qcases.
    + destruct j; subst; lra.
  - subst. destruct (Qlt_bool_spec 0 d); [|done]. simpl. split_and!; done || lra.
  - destruct Hs as (-> & ->). apply andb_prop in Hc as [Hb Hm].
    destruct (Qlt_bool_spec 0 b), (Qlt_bool_spec 0 m); try done. unfold delay, exponential_delay, constant_delay, linear_delay, fibonacci_delay, random_delay, int_to_float.
    destruct (_ <? FLOAT_LIMIT); [|by split_and!].
    assert (0 <= inject_Z (Z.of_nat attempt))%Q as Hf
      by (apply (proj1 (inject_Z_nonneg _)); lia).
    assert (0 <= b * inject_Z (Z.of_nat attempt))%Q by (apply Qmult_le_0_compat; lra).
    split_and!; try done; qcases.
  - destruct Hs as (-> & -> & -> & ->). apply andb_prop in Hc as [Hb Hm].
    destruct (Qlt_bool_spec 0 b), (Qlt_bool_spec 0 m); try done. unfold delay, exponential_delay, constant_delay, linear_delay, fibonacci_delay, random_delay.
    rewrite fibonacci_advance_fib. unfold int_to_float.
    replace (Nat.max k attempt) with (k + (attempt - k))%nat by lia.
    destruct (_ <? FLOAT_LIMIT); [|by split_and!].
    assert (0 <= inject_Z (fib (k + (attempt - k))))%Q as Hf
      by (apply (proj1 (inject_Z_nonneg _)), fib_nonneg).
    assert (0 <= b * inject_Z (fib (k + (attempt - k))))%Q by (apply Qmult_le_0_compat; lra).
    split_and!; try done; qcases.
  - destruct Hs as (-> & ->). apply andb_prop in Hc as [Hc Hle]. apply andb_prop in Hc as [Hb Hm].
    unfold delay, exponential_delay, constant_delay, linear_delay, fibonacci_delay, random_delay. destruct (Qlt_bool_spec 0 mi), (Qlt_bool_spec 0 m), (Qlt_bool_spec m mi); try done.
    pose proof (uniform_bounds mi m w ltac:(done)) as Hu.
    pose proof (uniform_monotonic mi m w) as Hmono.
    destruct (uniform mi m w). simpl in *. split_and!; try done; lra.
Qed.
End Delay.

(** ** The delays of one retry loop *)

Section Sequence.
Context {W : Type} `{Runtime W}.

(** The strategy and the surroundings once the delays after attempts [1] to
    [n] were drawn. *)
Fixpoint after_attempts (c : RetryBackoffConfig) (n : nat) (w : W) : RetryStrategy * W :=
  match n with
  | O => (build_retry_strategy c, w)
  | S n =>
      let '(s, w) := after_attempts c n w in
      let '(_, s, w) := delay s (S n) w in (s, w)
  end.

(** The delay after attempt [n] where no randomness is involved. *)
Definition nominal_delay (c : RetryBackoffConfig) (n : nat) : option Q :=
  match c with
  | ExponentialBackoff b m JNone =>
      Some (py_min (b * inject_Z (2 ^ (Z.of_nat n - 1))) m)
  | ConstantBackoff d => Some d
  | LinearBackoff b m => Some (py_min (b * inject_Z (Z.of_nat n)) m)
  | FibonacciBackoff b m => Some (py_min (b * inject_Z (fib n)) m)
  | _ => None
  end.

Lemma fib_pow n : fib (S n) <= 2 ^ Z.of_nat n.
Proof.
  enough (fib (S n) <= 2 ^ Z.of_nat n /\ fib (S (S n)) <= 2 ^ Z.of_nat (S n)) by tauto.
  induction n as [|n [IH1 IH2]]; [done|]. split; [done|].
  rewrite fib_SS. rewrite (Nat2Z.inj_succ (S n)), Z.pow_succ_r by lia.
  rewrite Nat2Z.inj_succ, Z.pow_succ_r in * by lia.
  pose proof (Z.pow_pos_nonneg 2 (Z.of_nat n)). lia.
Qed.

Lemma pow_limit n : (0 < n <= 1024)%nat -> 2 ^ (Z.of_nat n - 1) < FLOAT_LIMIT.
Proof.
  intros Hn. apply Z.le_lt_trans with (2 ^ 1023); [apply Z.pow_le_mono_r; lia|].
  by vm_compute.
Qed.

Lemma pow_over n : (1024 < n)%nat -> FLOAT_LIMIT <= 2 ^ (Z.of_nat n - 1).
Proof.
  intros Hn. apply Z.le_trans with (2 ^ 1024); [by vm_compute|].
  apply Z.pow_le_mono_r; lia.
Qed.

Lemma int_to_float_small z : z < FLOAT_LIMIT -> int_to_float z = Return (inject_Z z).
Proof. intros. unfold int_to_float. by rewrite (proj2 (Z.ltb_lt _ _)). Qed.

Lemma after_attempts_ok c n (w : W) :
  backoff_valid c = true ->
  strategy_of c (after_attempts c n w).1 /\
  (forall b m pp p k, (after_attempts c n w).1 = FibonacciStrategy b m pp p k -> k = n).
Proof.
  intros Hc. induction n as [|n [IH1 IH2]]; simpl.
  - split; [apply build_strategy_of|]. destruct c; simpl; intros; by simplify_eq.
  - destruct (after_attempts c n w) as [s w1]. simpl in *.
    pose proof (delay_ok c s (S n) w1 Hc IH1 ltac:(lia)) as Hd.
    destruct (delay s (S n) w1) as [[r s'] w2] eqn:E. simpl. split; [apply Hd|].
    intros b m pp p k ->. destruct c, s as [| | |b' m' pp' p' k'|]; simpl in *; try done;
      try (by destruct Hd).
    specialize (IH2 _ _ _ _ _ eq_refl). subst k'. unfold delay, exponential_delay, constant_delay, linear_delay, fibonacci_delay, random_delay in E.
    destruct (fibonacci_advance _ _ _). destruct (int_to_float _); simplify_eq; lia.
Qed.

(** In a retry loop the delay after attempt [n] (up to 1024) is the one its
    backoff announces: [base * 2^(n-1)], [base * n] or [base * fib n] capped at
    [max_delay], or the constant; with jitter it is drawn between 0 and the
    cap (from half of it in [equal] mode, from [base] in [decorrelated] mode,
    from [min_delay] for [random]). *)
Lemma delays_as_announced (c : RetryBackoffConfig) (n : nat) (w : W) :
  backoff_valid c = true -> (0 < n <= 1024)%nat ->
  let '(s, w1) := after_attempts c (n - 1) w in
  exists d s' w2, delay s n w1 = (Return d, s', w2) /\
    (0 <= d <= longest_delay c)%Q /\
    (forall x, nominal_delay c n = Some x -> d = x) /\
    match c with
    | ExponentialBackoff b m j =>
        let raw := py_min (b * inject_Z (2 ^ (Z.of_nat n - 1))) m in
        match j with
        | JNone => d = raw
        | JFull => (0 <= d <= raw)%Q
        | JEqual => (raw * (1 # 2) <= d <= raw)%Q
        | JDecorrelated => (py_min m b <= d)%Q
        end
    | RandomBackoff mi _ => (mi <= d)%Q
    | _ => True
    end.
Proof.
  intros Hc Hn. destruct (after_attempts_ok c (n - 1) w Hc) as [Hs Hk].
  destruct (after_attempts c (n - 1) w) as [s w1]. simpl in Hs, Hk.
  pose proof (delay_ok c s n w1 Hc Hs ltac:(lia)) as Hd.
  destruct (delay s n w1) as [[r s'] w2] eqn:E. destruct Hd as (_ & _ & Hd).
  pose proof (pow_limit n Hn) as Hpow.
  destruct c as [b m j|d0|b m|b m|mi m], s as [b' m' j' p|d'|b' m'|b' m' pp p k|mi' m'];
    simpl in Hs; try done; unfold delay, exponential_delay, constant_delay, linear_delay, fibonacci_delay, random_delay in E.
  - destruct Hs as (-> & -> & -> & Hp). rewrite int_to_float_small in E by done.
    simpl in Hc. apply andb_prop in Hc as [Hb Hm].
    destruct (Qlt_bool_spec 0 b), (Qlt_bool_spec 0 m); try done.
    assert (0 <= inject_Z (2 ^ (Z.of_nat n - 1)))%Q as Hf
      by (apply (proj1 (inject_Z_nonneg _)); lia).
    assert (0 <= b * inject_Z (2 ^ (Z.of_nat n - 1)))%Q by (apply Qmult_le_0_compat; lra).
    cbv zeta. set (raw := py_min _ m) in *. assert (0 <= raw <= m)%Q as Hraw by (subst raw; qcases).
    pose proof (jittered_bounds b m j p raw w1 ltac:(done) ltac:(done) Hp Hraw) as Hj.
    destruct (jittered b m j p raw w1) as [d w3] eqn:Ej. injection E as <- <- <-.
    exists d. eexists _, _. split; [done|]. split; [done|]. simpl in Hj. split.
    + intros x. simpl. destruct j; intros Hx; try done. injection Hx as <-. done.
    + destruct j; try done. apply Hj.
  - injection E as <- <- <-. eexists _, _, _. split; [done|]. split; [done|].
    split; [|done]. intros x [= <-]. done.
  - destruct Hs as (-> & ->). rewrite int_to_float_small in E.
    2: { eapply Z.le_lt_trans; [|exact Hpow].
         pose proof (Z.pow_gt_lin_r 2 (Z.of_nat n - 1)). lia. }
    injection E as <- <- <-. eexists _, _, _. split; [done|]. split; [done|].
    split; [|done]. by intros x [= <-].
  - destruct Hs as (-> & -> & -> & ->). specialize (Hk _ _ _ _ _ eq_refl). subst k.
    rewrite fibonacci_advance_fib in E. replace (n - 1 + (n - (n - 1)))%nat with n in E by lia.
    rewrite int_to_float_small in E.
    2: { eapply Z.le_lt_trans; [|exact Hpow]. destruct n as [|n]; [lia|].
         pose proof (fib_pow n). replace (Z.of_nat (S n) - 1) with (Z.of_nat n) by lia. done. }
    injection E as <- <- <-. eexists _, _, _. split; [done|]. split; [done|].
    split; [|done]. by intros x [= <-].
  - destruct Hs as (-> & ->). simpl in Hc. apply andb_prop in Hc as [Hc Hle].
    destruct (Qlt_bool_spec m mi); [done|].
    pose proof (uniform_bounds mi m w1 ltac:(done)) as Hu.
    destruct (uniform mi m w1). injection E as <- <- <-. simpl in Hu.
    eexists _, _, _. split; [done|]. split; [done|]. split; [done|apply Hu].
Qed.

(** The exponential factor no longer converts to a float after attempt 1024. *)
Lemma exponential_overflows b m j p (n : nat) (w : W) :
  (1024 < n)%nat ->
  (delay (ExponentialStrategy b m j p) n w).1.1 = Raise (mk_exn OverflowError NoInfo).
Proof.
  intros Hn. unfold delay, exponential_delay, constant_delay, linear_delay, fibonacci_delay, random_delay, int_to_float. pose proof (pow_over n Hn).
  by rewrite (proj2 (Z.ltb_ge _ _)).
Qed.
(** How far a Fibonacci strategy has counted. *)
Definition strategy_index (s : RetryStrategy) : nat :=
  match s with FibonacciStrategy _ _ _ _ k => k | _ => 0 end.

Lemma delay_index s n (w : W) :
  (strategy_index s < n)%nat -> (strategy_index (delay s n w).1.2 <= n)%nat.
Proof.
  destruct s as [b m j p|d|b m|b m pp p k|mi m]; cbn [strategy_index]; intros Hk;
    unfold delay, exponential_delay, constant_delay, linear_delay, fibonacci_delay, random_delay.
  - destruct (int_to_float _); cbn; [destruct (jittered _ _ _ _ _ _)|]; cbn; lia.
  - cbn. lia.
  - destruct (int_to_float _); cbn; lia.
  - destruct (fibonacci_advance _ _ _), (int_to_float _); cbn; lia.
  - destruct (uniform _ _ _). cbn. lia.
Qed.

(** No backoff overflows before attempt 1025. *)
Lemma delay_overflows_late c s n (w : W) e s' w' :
  strategy_of c s -> (strategy_index s < n)%nat -> delay s n w = (Raise e, s', w') ->
  (1024 < n)%nat.
Proof.
  intros Hs Hk E. destruct (Nat.le_gt_cases n 1024) as [Hle|]; [exfalso|done].
  pose proof (pow_limit n ltac:(lia)) as Hpow.
  destruct c as [b m j|d0|b m|b m|mi m], s as [b' m' j' p|d'|b' m'|b' m' pp p k|mi' m'];
    simpl in Hs; try done;
    unfold delay, exponential_delay, constant_delay, linear_delay, fibonacci_delay, random_delay in E.
  - rewrite int_to_float_small in E by done. by destruct (jittered _ _ _ _ _ _).
  - rewrite int_to_float_small in E; [done|]. eapply Z.le_lt_trans; [|exact Hpow].
    pose proof (Z.pow_gt_lin_r 2 (Z.of_nat n - 1)). lia.
  - destruct Hs as (-> & -> & -> & ->). cbn in Hk. rewrite fibonacci_advance_fib in E.
    replace (k + (n - k))%nat with n in E by lia. rewrite int_to_float_small in E; [done|].
    eapply Z.le_lt_trans; [|exact Hpow]. destruct n as [|n]; [lia|].
    pose proof (fib_pow n). by replace (Z.of_nat (S n) - 1) with (Z.of_nat n) by lia.
  - by destruct (uniform mi' m' w).
Qed.
End Sequence.
