(* ===== verification/PyStr.v ===== *)
(** * Python strings

    The string methods the code parses with: [str.split()] on whitespace,
    [str.split(sep)] and [str.partition(sep)] on one character, [int(s)],
    [str.strip()], the case of ASCII letters and substrings.  A string is a list of the first 256 code points; the
    whitespace is that of [str.isspace] among them. *)

From S2P Require Import Prelude.
From stdpp Require Import pretty.
From Stdlib Require Import Ascii String.

Local Open Scope Z_scope.

Definition code (c : ascii) : Z := Z.of_nat (nat_of_ascii c).

Definition is_space (c : ascii) : bool :=
  let n := code c in
  ((9 <=? n) && (n <=? 13)) || ((28 <=? n) && (n <=? 32)) ||
  (n =? 133) || (n =? 160).

Definition is_digit (c : ascii) : bool := (48 <=? code c) && (code c <=? 57).

(** [s.lower()] and [s.upper()], where only ASCII letters have a case. *)
Definition lower_char (c : ascii) : ascii :=
  let n := code c in
  if (65 <=? n) && (n <=? 90) then ascii_of_nat (Z.to_nat (n + 32)) else c.
Definition upper_char (c : ascii) : ascii :=
  let n := code c in
  if (97 <=? n) && (n <=? 122) then ascii_of_nat (Z.to_nat (n - 32)) else c.

Fixpoint lower (s : string) : string :=
  match s with EmptyString => "" | String c s => String (lower_char c) (lower s) end.
Fixpoint upper (s : string) : string :=
  match s with EmptyString => "" | String c s => String (upper_char c) (upper s) end.

(** [s.replace(c, t)] of one character *)
Fixpoint replace_char (c : ascii) (t s : string) : string :=
  match s with
  | EmptyString => EmptyString
  | String d s => if Ascii.eqb d c then t +:+ replace_char c t s else String d (replace_char c t s)
  end.

(** [needle in haystack] *)
Fixpoint contains (needle haystack : string) : bool :=
  String.prefix needle haystack ||
  match haystack with
  | EmptyString => false
  | String _ haystack => contains needle haystack
  end.

(** Every character satisfies [P]. *)
Fixpoint string_forall (P : ascii -> bool) (s : string) : bool :=
  match s with
  | EmptyString => true
  | String c s => P c && string_forall P s
  end.

Definition free_of (c : ascii) : string -> bool :=
  string_forall (fun a => negb (Ascii.eqb a c)).

(** [s.split(sep)] *)
Fixpoint split_on (sep : ascii) (s : string) : list string :=
  match s with
  | EmptyString => [""%string]
  | String c s =>
      if Ascii.eqb c sep then ""%string :: split_on sep s
      else match split_on sep s with
           | w :: ws => String c w :: ws
           | [] => [String c EmptyString]
           end
  end.

(** [s.split()] *)
Fixpoint words (s : string) : list string :=
  match s with
  | EmptyString => []
  | String c s =>
      if is_space c then words s
      else match s with
           | EmptyString => [String c EmptyString]
           | String d _ =>
               if is_space d then String c EmptyString :: words s
               else match words s with
                    | w :: ws => String c w :: ws
                    | [] => [String c EmptyString]
                    end
           end
  end.

(** [s.partition(sep)]: the head, whether [sep] was found, the tail. *)
Fixpoint partition (sep : ascii) (s : string) : string * bool * string :=
  match s with
  | EmptyString => (EmptyString, false, EmptyString)
  | String c s =>
      if Ascii.eqb c sep then (EmptyString, true, s)
      else let '(a, found, b) := partition sep s in (String c a, found, b)
  end.

(** The digits of [int(s)], with single underscores between them; [digit]
    says that the previous character was a digit. *)
Fixpoint int_digits (acc : Z) (digit : bool) (s : string) : option Z :=
  match s with
  | EmptyString => if digit then Some acc else None
  | String c s =>
      if is_digit c then int_digits (acc * 10 + (code c - 48)) true s
      else if Ascii.eqb c "_" && digit then int_digits acc false s
      else None
  end.

Fixpoint drop_spaces (s : string) : string :=
  match s with
  | String c s' => if is_space c then drop_spaces s' else s
  | EmptyString => EmptyString
  end.

Fixpoint drop_trailing_spaces (s : string) : string :=
  match s with
  | EmptyString => EmptyString
  | String c s =>
      match drop_trailing_spaces s with
      | EmptyString => if is_space c then EmptyString else String c EmptyString
      | s => String c s
      end
  end.

(** [s.strip()] *)
Definition py_strip (s : string) : string := drop_trailing_spaces (drop_spaces s).

(** [int(s)]; [None] is [ValueError]. *)
Definition int_of_string (s : string) : option Z :=
  match drop_trailing_spaces (drop_spaces s) with
  | String c s' =>
      if Ascii.eqb c "-" then Z.opp <$> int_digits 0 false s'
      else if Ascii.eqb c "+" then int_digits 0 false s'
      else int_digits 0 false (String c s')
  | EmptyString => None
  end.

(** ** Substrings *)

Lemma string_prefix_spec p s : String.prefix p s = true <-> exists t, s = p +:+ t.
Proof.
  revert s. induction p as [|a p IH]; intros s; cbn.
  - split; [|by destruct s]. intros _. by exists s.
  - destruct s as [|b s]; [by split; [done|intros [t [=]]]|].
    destruct (ascii_dec a b) as [->|Hne].
    + assert (String.prefix (String b p) (String b s) = String.prefix p s) as ->
        by (simpl; by destruct (ascii_dec b b)).
      rewrite IH. split; intros [t E]; exists t; [by rewrite E|by injection E].
    + assert (String.prefix (String a p) (String b s) = false) as ->
        by (simpl; by destruct (ascii_dec a b)).
      split; [done|]. by intros [t [= <- _]].
Qed.

Lemma contains_spec sub s : contains sub s = true <-> exists a b, s = a +:+ (sub +:+ b).
Proof.
  induction s as [|c s IH]; cbn [contains]; rewrite orb_true_iff, string_prefix_spec.
  - split; [intros [[t ->]|]; [by exists "", t|done]|]. intros (a & b & E). left.
    destruct a; [by exists b|done].
  - rewrite IH. split.
    + intros [[t ->]|(a & b & ->)]; [by exists "", t|by exists (String c a), b].
    + intros ([|c' a] & b & E); [left; by exists b|]. right. injection E as <- ->. by exists a, b.
Qed.

(** ** Splitting what was joined *)

Lemma append_assoc (a b c : string) : (a +:+ b) +:+ c = a +:+ (b +:+ c).
Proof.
  induction a as [|x a IH]; [done|].
  change (String x ((a +:+ b) +:+ c) = String x (a +:+ (b +:+ c))). by rewrite IH.
Qed.

Lemma replace_char_app c t a b : replace_char c t (a +:+ b) = replace_char c t a +:+ replace_char c t b.
Proof.
  induction a as [|d a IH]; simpl; [done|]. rewrite IH.
  destruct (Ascii.eqb d c); [by rewrite append_assoc|done].
Qed.

Lemma string_forall_app P a b :
  string_forall P (a +:+ b) = string_forall P a && string_forall P b.
Proof.
  induction a as [|c a IH]; [done|]. change (String c a +:+ b) with (String c (a +:+ b)).
  cbn [string_forall]. by rewrite IH, andb_assoc.
Qed.

Lemma string_forall_impl P Q s :
  (forall c, P c = true -> Q c = true) -> string_forall P s = true ->
  string_forall Q s = true.
Proof.
  intros H. induction s as [|c s IH]; simpl; [done|].
  intros [H1 H2]%andb_prop. by rewrite H, IH.
Qed.

Lemma split_on_free sep a : free_of sep a = true -> split_on sep a = [a].
Proof.
  induction a as [|c a IH]; [done|]. unfold free_of in *. simpl.
  intros [H1 H2]%andb_prop. apply negb_true_iff in H1. by rewrite H1, IH.
Qed.

Lemma split_on_app sep a b : free_of sep a = true ->
  split_on sep (a +:+ String sep b) = a :: split_on sep b.
Proof.
  unfold free_of. induction a as [|c a IH].
  - intros _. simpl. by rewrite Ascii.eqb_refl.
  - change (String c a +:+ String sep b) with (String c (a +:+ String sep b)).
    simpl. intros [H1 H2]%andb_prop. apply negb_true_iff in H1. by rewrite H1, IH.
Qed.

Lemma partition_free sep a : free_of sep a = true ->
  partition sep a = (a, false, ""%string).
Proof.
  unfold free_of. induction a as [|c a IH]; [done|]. simpl.
  intros [H1 H2]%andb_prop. apply negb_true_iff in H1. by rewrite H1, IH.
Qed.

Lemma partition_app sep a b : free_of sep a = true ->
  partition sep (a +:+ String sep b) = (a, true, b).
Proof.
  unfold free_of. induction a as [|c a IH].
  - intros _. simpl. by rewrite Ascii.eqb_refl.
  - change (String c a +:+ String sep b) with (String c (a +:+ String sep b)).
    simpl. intros [H1 H2]%andb_prop. apply negb_true_iff in H1. by rewrite H1, IH.
Qed.

(** A non-empty string without whitespace. *)
Definition is_word (w : string) : bool :=
  negb (String.eqb w "") && string_forall (fun c => negb (is_space c)) w.

Lemma words_word w : is_word w = true -> words w = [w].
Proof.
  unfold is_word. intros [H1 H2]%andb_prop. apply negb_true_iff, String.eqb_neq in H1.
  induction w as [|c w IH]; [done|]. cbn [string_forall] in H2.
  apply andb_prop in H2 as [Hc Hw]. apply negb_true_iff in Hc. cbn [words]. rewrite Hc.
  destruct w as [|d w]; [done|]. rewrite IH by done.
  cbn [string_forall] in Hw. apply andb_prop in Hw as [Hd _]. apply negb_true_iff in Hd.
  by rewrite Hd.
Qed.

Lemma words_app w b : is_word w = true -> words (w +:+ String " " b) = w :: words b.
Proof.
  unfold is_word. intros [H1 H2]%andb_prop. apply negb_true_iff, String.eqb_neq in H1.
  induction w as [|c w IH]; [done|]. cbn [string_forall] in H2.
  apply andb_prop in H2 as [Hc Hw]. apply negb_true_iff in Hc.
  change (String c w +:+ String " " b) with (String c (w +:+ String " " b)).
  cbn [words]. rewrite Hc. destruct w as [|d w]; [done|].
  rewrite IH by done. change (String d w +:+ String " " b) with (String d (w +:+ String " " b)).
  cbn [string_forall] in Hw. apply andb_prop in Hw as [Hd _]. apply negb_true_iff in Hd.
  by rewrite Hd.
Qed.

(** ** [int(str(n))] *)

Lemma pretty_char_digit x : (x < 10)%N ->
  is_digit (pretty_N_char x) = true /\ code (pretty_N_char x) - 48 = Z.of_N x.
Proof.
  intros H. assert (x = 0 \/ x = 1 \/ x = 2 \/ x = 3 \/ x = 4 \/ x = 5 \/ x = 6 \/
    x = 7 \/ x = 8 \/ x = 9)%N as Hx by lia.
  repeat destruct Hx as [->|Hx]; try (split; vm_compute; reflexivity).
  subst. by split; vm_compute.
Qed.

Lemma pretty_go_digits n s : string_forall is_digit s = true ->
  string_forall is_digit (pretty_N_go n s) = true.
Proof.
  revert s. induction (N.lt_wf_0 n) as [n _ IH]. intros s Hs.
  destruct (decide (n = 0)%N) as [->|]; [by rewrite pretty_N_go_0|].
  rewrite pretty_N_go_step by lia. apply IH; [apply N.div_lt; lia|].
  simpl. rewrite Hs. destruct (pretty_char_digit (n `mod` 10)) as [-> _]; [|done].
  apply N.mod_lt. lia.
Qed.

Lemma int_digits_pretty_go n b s : (0 < n)%N ->
  int_digits 0 b (pretty_N_go n s) = int_digits (Z.of_N n) true s.
Proof.
  revert b s. induction (N.lt_wf_0 n) as [n _ IH]. intros b s Hn.
  rewrite pretty_N_go_step by done.
  destruct (pretty_char_digit (n `mod` 10)) as [Hd Hc]; [apply N.mod_lt; lia|].
  destruct (decide (n `div` 10 = 0)%N) as [E|E].
  - rewrite E, pretty_N_go_0. cbn [int_digits]. rewrite Hd, Hc. f_equal.
    rewrite N2Z.inj_mod. apply (f_equal Z.of_N) in E. rewrite N2Z.inj_div in E.
    pose proof (Z.div_mod (Z.of_N n) 10 ltac:(lia)). lia.
  - rewrite IH; [|apply N.div_lt; lia|by apply N.neq_0_lt_0]. cbn [int_digits]. rewrite Hd, Hc. f_equal.
    rewrite N2Z.inj_div, N2Z.inj_mod. pose proof (Z.div_mod (Z.of_N n) 10 ltac:(lia)). lia.
Qed.

(** [str(n)] *)
Definition str (n : Z) : string := pretty (Z.to_N n).

Lemma str_digits n : string_forall is_digit (str n) = true.
Proof.
  unfold str, pretty, pretty_N. case_decide; [done|]. by apply pretty_go_digits.
Qed.

Lemma digit_not_space c : is_digit c = true -> is_space c = false.
Proof.
  unfold is_digit, is_space. intros [H1 H2]%andb_prop.
  apply Z.leb_le in H1, H2.
  repeat match goal with |- context [?a <=? ?b] => destruct (Z.leb_spec a b) end;
  repeat match goal with |- context [?a =? ?b] => destruct (Z.eqb_spec a b) end;
  simpl; try done; lia.
Qed.

Lemma digit_neq c d : is_digit c = true -> is_digit d = false -> Ascii.eqb c d = false.
Proof. intros H1 H2. apply Ascii.eqb_neq. congruence. Qed.

Lemma digits_free_of c s : is_digit c = false -> string_forall is_digit s = true ->
  free_of c s = true.
Proof.
  intros Hc. apply string_forall_impl. intros d Hd. by rewrite digit_neq.
Qed.

Lemma drop_trailing_digits s : string_forall is_digit s = true ->
  drop_trailing_spaces s = s.
Proof.
  induction s as [|c s IH]; [done|]. cbn [string_forall drop_trailing_spaces].
  intros [Hc Hs]%andb_prop. rewrite IH by done. rewrite (digit_not_space c Hc).
  by destruct s.
Qed.

Lemma int_of_string_digits s : string_forall is_digit s = true ->
  int_of_string s = int_digits 0 false s.
Proof.
  intros Hs. unfold int_of_string.
  replace (drop_spaces s) with s.
  - rewrite drop_trailing_digits by done. destruct s as [|c s]; [done|].
    simpl in Hs. apply andb_prop in Hs as [Hc _].
    by rewrite (digit_neq c "-"), (digit_neq c "+").
  - destruct s as [|c s]; [done|]. simpl in *. apply andb_prop in Hs as [Hc _].
    by rewrite (digit_not_space c Hc).
Qed.

Lemma int_of_str n : 0 <= n -> int_of_string (str n) = Some n.
Proof.
  intros Hn. rewrite int_of_string_digits by apply str_digits.
  unfold str, pretty, pretty_N. case_decide as E.
  - replace n with 0 by lia. done.
  - rewrite int_digits_pretty_go by lia. simpl. f_equal. lia.
Qed.

Lemma str_nonempty n : str n <> ""%string.
Proof.
  intros E. pose proof (int_of_str (Z.max 0 n) ltac:(lia)) as H.
  unfold str in *. replace (Z.to_N (Z.max 0 n)) with (Z.to_N n) in H by lia.
  rewrite E in H. done.
Qed.

(** ** [range(start, stop, step)] *)
Definition py_range (start stop step : Z) : list Z :=
  (fun i => start + Z.of_nat i * step) <$>
    seq 0 (Z.to_nat ((stop - start + step - 1) / step)).

Lemma elem_of_py_range start stop step x : 0 < step ->
  x ∈ py_range start stop step <->
  start <= x < stop /\ (x - start) mod step = 0.
Proof.
  intros Hs. unfold py_range. rewrite list_elem_of_fmap. split.
  - intros (i & -> & Hi). apply elem_of_seq in Hi.
    assert (Z.of_nat i < (stop - start + step - 1) / step) as Hlt by lia.
    assert (Z.of_nat i * step < stop - start).
    { pose proof (Z.mul_div_le (stop - start + step - 1) step Hs). nia. }
    split; [nia|]. replace (start + Z.of_nat i * step - start) with (Z.of_nat i * step) by lia.
    apply Z.mod_mul. lia.
  - intros [H1 H2]. exists (Z.to_nat ((x - start) / step)).
    pose proof (Z.div_mod (x - start) step ltac:(lia)) as E.
    assert (0 <= (x - start) / step) by (apply Z.div_pos; lia).
    split; [rewrite Z2Nat.id by done; lia|]. apply elem_of_seq.
    assert ((x - start) / step < (stop - start + step - 1) / step); [|lia].
    apply Z.lt_le_trans with ((x - start) / step + 1); [lia|].
    apply Z.div_le_lower_bound; lia.
Qed.

(** ** [sep.join(parts)] *)

Lemma split_on_concat sep parts : parts <> [] ->
  Forall (fun p => free_of sep p = true) parts ->
  split_on sep (String.concat (String sep "") parts) = parts.
Proof.
  intros Hne H. induction H as [|p parts Hp H IH]; [done|].
  destruct parts as [|q parts]; [by apply split_on_free|].
  change (String.concat (String sep "") (p :: q :: parts)) with
    (p +:+ String sep (String.concat (String sep "") (q :: parts))).
  rewrite split_on_app by done. by rewrite IH.
Qed.

Lemma words_concat ws : Forall (fun w => is_word w = true) ws ->
  words (String.concat " " ws) = ws.
Proof.
  intros H. induction H as [|w ws Hw H IH]; [done|].
  destruct ws as [|q ws]; [by apply words_word|].
  change (String.concat " " (w :: q :: ws)) with
    (w +:+ String " " (String.concat " " (q :: ws))).
  rewrite words_app by done. by rewrite IH.
Qed.

Lemma string_forall_concat P sep parts :
  string_forall P sep = true -> Forall (fun p => string_forall P p = true) parts ->
  string_forall P (String.concat sep parts) = true.
Proof.
  intros Hs H. induction H as [|p parts Hp H IH]; [done|].
  destruct parts as [|q parts]; [done|].
  change (String.concat sep (p :: q :: parts)) with
    (p +:+ (sep +:+ String.concat sep (q :: parts))).
  by rewrite !string_forall_app, Hp, Hs, IH.
Qed.

Lemma free_of_neq c s : free_of c s = true -> String.eqb s (String c "") = false.
Proof.
  intros H. apply String.eqb_neq. intros ->. unfold free_of in H. simpl in H.
  by rewrite Ascii.eqb_refl in H.
Qed.
