(* ===== verification/Match.v ===== *)
(** * Outcome filters

    [grelmicro/resilience/_match.py] and [grelmicro/resilience/_outcome.py]:
    the filters a resilience strategy is given to decide which outcomes of a
    call engage it. *)

From S2P Require Import Prelude Errors PyStr.

Section Match.
(** [V] is the type of results, [veq] its [==]; [str_exn] and [cause] are
    [str(exc)] and [exc.__cause__]. *)
Context {V : Type} (veq : V -> V -> bool).
Context (str_exn : exn -> string) (cause : exn -> option exn).

(** [Outcome]: raised with an exception, or returned with a result. *)
Abbreviation Outcome := (outcome exn V).

Definition raised (o : Outcome) : bool := match o with Raise _ => true | Return _ => false end.

(** [Match] is the callable it wraps. *)
Definition Match : Type := Outcome -> bool.

(** [__or__], [__and__] *)
Definition match_or (a b : Match) : Match := fun o => a o || b o.
Definition match_and (a b : Match) : Match := fun o => a o && b o.

(** An argument of [Match.exception]: a class or a predicate. *)
Inductive exception_arg : Type :=
| AClass (c : exn_class)
| APredicate (p : exn -> bool).

(** The classes of an argument list, when all are subclasses of [base]. *)
Fixpoint all_classes (base : exn_class) (args : list exception_arg) :
    option (list exn_class) :=
  match args with
  | [] => Some []
  | AClass c :: args => if issubclass c base then cons c <$> all_classes base args else None
  | APredicate _ :: _ => None
  end.

(** [isinstance(exc, types)] *)
Definition isinstance_any (e : exn) (types : list exn_class) : bool :=
  existsb (isinstance e) types.

Definition type_error : exn := mk_exn TypeError NoInfo.

(** [Match.exception] *)
Definition match_exception (args : list exception_arg) : outcome exn Match :=
  match args with
  | [] => Raise type_error
  | [APredicate p] =>
      Return (fun o => match o with Raise e => p e | Return _ => false end)
  | _ =>
      match all_classes Exception_ args with
      | None => Raise type_error
      | Some types =>
          Return (fun o => match o with
                           | Raise e => isinstance_any e types | Return _ => false end)
      end
  end.

(** [Match.result]: a value compared with [==], or a predicate. *)
Inductive result_arg : Type :=
| RValue (v : V)
| RPredicate (p : V -> bool).

Definition match_result (arg : result_arg) : Match :=
  match arg with
  | RPredicate p => fun o => match o with Return v => p v | Raise _ => false end
  | RValue x => fun o => match o with Return v => veq v x | Raise _ => false end
  end.

(** [Match.exception_message]: exactly one of a substring and a compiled
    pattern, given by what its [search] finds. *)
Definition match_exception_message (sub : option string)
    (regex : option (string -> bool)) : outcome exn Match :=
  match sub, regex with
  | None, None | Some _, Some _ => Raise type_error
  | Some needle, None =>
      Return (fun o => match o with
                       | Raise e => contains needle (str_exn e) | Return _ => false end)
  | None, Some search =>
      Return (fun o => match o with
                       | Raise e => search (str_exn e) | Return _ => false end)
  end.

(** [Match.exception_cause]: the predicate sees [None] when there is no cause. *)
Inductive cause_arg : Type :=
| CClass (c : exn_class)
| CPredicate (p : option exn -> bool).

Fixpoint all_cause_classes (args : list cause_arg) : option (list exn_class) :=
  match args with
  | [] => Some []
  | CClass c :: args =>
      if issubclass c BaseException then cons c <$> all_cause_classes args else None
  | CPredicate _ :: _ => None
  end.

Definition match_exception_cause (args : list cause_arg) : outcome exn Match :=
  match args with
  | [] => Raise type_error
  | [CPredicate p] =>
      Return (fun o => match o with Raise e => p (cause e) | Return _ => false end)
  | _ =>
      match all_cause_classes args with
      | None => Raise type_error
      | Some types =>
          Return (fun o => match o with
                           | Raise e => match cause e with
                                        | Some c => isinstance_any c types
                                        | None => false end
                           | Return _ => false end)
      end
  end.

Definition match_always : Match := fun _ => true.
Definition match_never : Match := fun _ => false.
Definition match_predicate (fn : Outcome -> bool) : Match := fn.

(** The [not_*] forms: the negation, on the outcomes of the same shape. *)
Definition not_raised (positive : outcome exn Match) : outcome exn Match :=
  match positive with
  | Raise e => Raise e
  | Return m => Return (fun o => raised o && negb (m o))
  end.

Definition match_not_exception (args : list exception_arg) : outcome exn Match :=
  not_raised (match_exception args).
Definition match_not_result (arg : result_arg) : Match :=
  fun o => negb (raised o) && negb (match_result arg o).
Definition match_not_exception_message sub regex : outcome exn Match :=
  not_raised (match_exception_message sub regex).
Definition match_not_exception_cause (args : list cause_arg) : outcome exn Match :=
  not_raised (match_exception_cause args).

(** ** Theory *)

Lemma all_classes_spec base args types :
  all_classes base args = Some types ->
  args = AClass <$> types /\ Forall (fun c => issubclass c base = true) types.
Proof.
  revert types. induction args as [|[c|p] args IH]; intros types; simpl.
  - by intros [= <-].
  - destruct (issubclass c base) eqn:Ec; [|done].
    destruct (all_classes base args) as [l|] eqn:E; [|done].
    intros [= <-]. destruct (IH l eq_refl) as [-> Hl]. split; [done|]. by constructor.
  - done.
Qed.

(** What a filter built by [match_exception] engages on. *)
Lemma match_exception_engages args m o :
  match_exception args = Return m -> m o = true ->
  exists e, o = Raise e /\ exists a, a ∈ args /\
    match a with AClass c => isinstance e c = true | APredicate p => p e = true end.
Proof.
  assert (forall types e, args = AClass <$> types -> isinstance_any e types = true ->
    exists a, a ∈ args /\
    match a with AClass c => isinstance e c = true | APredicate p => p e = true end) as Hcls.
  { intros types e -> He. apply existsb_exists in He as (c & Hc & He).
    exists (AClass c). split; [|done]. apply list_elem_of_fmap.
    exists c. split; [done|]. by apply list_elem_of_In. }
  unfold match_exception. destruct args as [|[c|p] args]; [done| |].
  - destruct (all_classes Exception_ _) as [types|] eqn:E; [|done].
    intros [= <-] Ho. destruct o as [v|e]; [done|]. exists e. split; [done|].
    apply all_classes_spec in E as [E _]. eauto.
  - destruct args as [|a args]; [|by simpl].
    intros [= <-] Ho. destruct o as [v|e]; [done|]. exists e. split; [done|].
    exists (APredicate p). split; [left|done].
Qed.

(** Every exception filter and its [not_*] twin split the raised outcomes
    between them and never engage on a returned value, so the negated form is
    safe as the sole filter; [result] and [not_result] do the same on returned
    values. *)
Lemma negated_filters_partition (args : list exception_arg) (sub : option string)
    (regex : option (string -> bool)) (cargs : list cause_arg) (arg : result_arg)
    (o : Outcome) (p n : Match) :
  (match_exception args = Return p /\ match_not_exception args = Return n \/
   match_exception_message sub regex = Return p /\
     match_not_exception_message sub regex = Return n \/
   match_exception_cause cargs = Return p /\ match_not_exception_cause cargs = Return n ->
   xorb (p o) (n o) = raised o /\ p o && n o = false) /\
  xorb (match_result arg o) (match_not_result arg o) = negb (raised o) /\
  match_result arg o && match_not_result arg o = false.
Proof.
  assert (forall pos, pos = Return p -> not_raised pos = Return n ->
    (forall v, p (Return v) = false) -> xorb (p o) (n o) = raised o /\ p o && n o = false) as Hn.
  { intros pos -> [= <-] Hv. destruct o as [v|e]; simpl; [by rewrite Hv|]. by destruct (p _). }
  split; [|unfold match_not_result; destruct arg, o; simpl; try done;
    match goal with |- context [negb ?b] => by destruct b end].
  intros [[Hp Hq]|[[Hp Hq]|[Hp Hq]]]; (eapply Hn; [exact Hp|exact Hq|]); intros v.
  - unfold match_exception in Hp. repeat case_match; simplify_eq; done.
  - unfold match_exception_message in Hp. repeat case_match; simplify_eq; done.
  - unfold match_exception_cause in Hp. repeat case_match; simplify_eq; done.
Qed.
End Match.
