(* ===== verification/Retry.v ===== *)
(** * Retry

    [grelmicro/resilience/retry.py]: the loop around a function ([_run_async],
    [_run_sync]), and the block form, an iterator of attempts each of which is
    a context manager. *)

From S2P Require Import Prelude Errors Backoff Match.

Local Open Scope Z_scope.

Section Retry.
Context {W : Type} `{Runtime W} {V : Type}.
(** [none] is Python's [None]; [fmt2] is the format [.2f], [str_float] what an
    f-string makes of a float. *)
Context (none : V) (fmt2 str_float : Q -> string) (str_nat : nat -> string).

(** [RetryConfig]; [when] is the matcher bound in [_State]. *)
Record RetryConfig : Type := mkRetryConfig {
  attempts : nat;
  max_seconds : option Q;
  when : Match (V := V);
  backoff : RetryBackoffConfig;
}.

Definition retry_valid (c : RetryConfig) : Prop :=
  (0 < attempts c)%nat /\ backoff_valid (backoff c) = true /\
  match max_seconds c with Some m => (0 < m)%Q | None => True end.

(** The notes of an exhausted retry. *)
Definition attempts_note (c : RetryConfig) (elapsed : Q) : string :=
  "retry: " +:+ str_nat (attempts c) +:+ "/" +:+ str_nat (attempts c)
    +:+ " attempts exhausted in " +:+ fmt2 elapsed +:+ "s ("
    +:+ backoff_name (backoff c) +:+ " backoff)".

Definition budget_note (c : RetryConfig) (budget : Q) (number : nat) (elapsed : Q) : string :=
  "retry: " +:+ str_float budget +:+ "s budget elapsed after " +:+ str_nat number
    +:+ " attempt(s) in " +:+ fmt2 elapsed +:+ "s ("
    +:+ backoff_name (backoff c) +:+ " backoff)".

(** Whether the loop stops after attempt [number], and the note it adds to the
    exception then. *)
Definition exhausted (c : RetryConfig) (number : nat) (elapsed : Q) : option string :=
  let attempts_done := (attempts c <=? number)%nat in
  let time_done :=
    match max_seconds c with Some m => (elapsed >=? m)%py | None => false end in
  if attempts_done then Some (attempts_note c elapsed)
  else if time_done then Some (budget_note c (default 0%Q (max_seconds c)) number elapsed)
  else None.

(** [if delay > 0: sleep(delay)] *)
Definition pause (d : Q) (w : W) : W := if (d >? 0)%py then sleep d w else w.

(** The body of [_run_async] and [_run_sync], [k] attempts left in the range;
    an exception of [strategy.delay] escapes. *)
Fixpoint run_loop (c : RetryConfig) (fn : py W exn V) (started_at : Q) (k number : nat)
    (d : Q) (s : RetryStrategy) (last_result : V) (w : W) : outcome exn V * W :=
  match k with
  | O => (Return last_result, w)
  | S k =>
      let w := pause d w in
      match fn w with
      | (Raise e, w) =>
          if negb (is_exception e) then (Raise e, w)
          else if negb (when c (Raise e)) then (Raise e, w)
          else
            match exhausted c number (monotonic w - started_at)%Q with
            | Some note => (Raise (add_note note e), w)
            | None =>
                match delay s number w with
                | (Raise e', s, w) => (Raise e', w)
                | (Return d, s, w) => run_loop c fn started_at k (S number) d s last_result w
                end
            end
      | (Return v, w) =>
          if negb (when c (Return v)) then (Return v, w)
          else
            match exhausted c number (monotonic w - started_at)%Q with
            | Some _ => (Return v, w)
            | None =>
                match delay s number w with
                | (Raise e', s, w) => (Raise e', w)
                | (Return d, s, w) => run_loop c fn started_at k (S number) d s v w
                end
            end
      end
  end.

(** [_run_async], [_run_sync] *)
Definition run_retry (c : RetryConfig) (fn : py W exn V) : py W exn V := fun w =>
  run_loop c fn (monotonic w) (attempts c) 1 0 (build_retry_strategy (backoff c)) none w.

(** [RetryAttempt._handle_exit]: whether the exception is suppressed, the
    exception (with its note), and whether the loop is told to stop. *)
Definition retry_handle_exit (c : RetryConfig) (started_at : Q) (number : nat)
    (exc : option exn) (w : W) : bool * option exn * bool :=
  match exc with
  | None => (false, None, true)
  | Some e =>
      if negb (is_exception e) then (false, Some e, false)
      else if negb (when c (Raise e)) then (false, Some e, false)
      else
        match exhausted c number (monotonic w - started_at)%Q with
        | Some note => (false, Some (add_note note e), false)
        | None => (true, Some e, false)
        end
  end.

(** [async for attempt in policy: async with attempt: result = await fn()]:
    [_async_iter] and [_sync_iter] driving such a body. *)
Fixpoint iter_loop (c : RetryConfig) (fn : py W exn V) (started_at : Q) (k number : nat)
    (d : Q) (s : RetryStrategy) (result : V) (w : W) : outcome exn V * W :=
  match k with
  | O => (Return result, w)
  | S k =>
      let w := pause d w in
      let '(body, w) := fn w in
      let '(exc, result) :=
        match body with Return v => (None, v) | Raise e => (Some e, result) end in
      let '(suppressed, exc, stop) := retry_handle_exit c started_at number exc w in
      match exc with
      | Some e =>
          if (suppressed : bool) then
            match delay s number w with
            | (Raise e', s, w) => (Raise e', w)
            | (Return d, s, w) => iter_loop c fn started_at k (S number) d s result w
            end
          else (Raise e, w)
      | None =>
          if (stop : bool) then (Return result, w)
          else
            match delay s number w with
            | (Raise e', s, w) => (Raise e', w)
            | (Return d, s, w) => iter_loop c fn started_at k (S number) d s result w
            end
      end
  end.

Definition run_block (c : RetryConfig) (fn : py W exn V) : py W exn V := fun w =>
  iter_loop c fn (monotonic w) (attempts c) 1 0 (build_retry_strategy (backoff c)) none w.

(** ** Equivalence of the two forms *)

Lemma iter_loop_run_loop c fn started k : forall number d s r w,
  (forall v, when c (Return v) = false) ->
  iter_loop c fn started k number d s r w = run_loop c fn started k number d s r w.
Proof.
  induction k as [|k IH]; intros number d s r w Hres; simpl; [done|].
  destruct (fn (pause d w)) as [[v|e] w1]; simpl; [by rewrite Hres|].
  destruct (is_exception e); simpl; [|done].
  destruct (when c (Raise e)); simpl; [|done].
  destruct (exhausted c number _) as [note|]; [done|].
  destruct (delay s number w1) as [[[d'|e'] s'] w2]; [|done]. by apply IH.
Qed.

(** The block form and the decorator are the same retry: for a filter that
    never engages on a returned value (the block sees only exceptions), both
    give the same result or exception, notes included, after the same calls
    and the same sleeps. *)
Lemma block_form_is_decorator (c : RetryConfig) (fn : py W exn V) (w : W) :
  (forall v, when c (Return v) = false) -> run_block c fn w = run_retry c fn w.
Proof. intros Hres. by apply iter_loop_run_loop. Qed.
End Retry.

(** ** What a retry does, seen from outside

    [Traced] adds to any surroundings a record of what the calls came out as, of
    the sleeps, and of the clock at the end of each call. *)
Record Traced (W V : Type) : Type := mkTraced {
  t_world : W;
  t_calls : list (outcome exn V);
  t_sleeps : list Q;
  t_ends : list Q;
}.
Arguments mkTraced {W V} _ _ _ _.
Arguments t_world {W V} _.
Arguments t_calls {W V} _.
Arguments t_sleeps {W V} _.
Arguments t_ends {W V} _.

Section Traced.
Context {W : Type} `{Runtime W} {V : Type}.

#[local] Obligation Tactic := idtac.

#[export] Program Instance traced_runtime : Runtime (Traced W V) := {
  monotonic t := monotonic (t_world t);
  sleep d t := mkTraced (sleep d (t_world t)) (t_calls t) (t_sleeps t ++ [d]) (t_ends t);
  random t :=
    let '(r, w) := random (t_world t) in (r, mkTraced w (t_calls t) (t_sleeps t) (t_ends t));
}.
Next Obligation. intros d t. apply sleep_monotonic. Qed.
Next Obligation.
  intros t. pose proof (random_monotonic (t_world t)). simpl.
  by destruct (random (t_world t)).
Qed.
Next Obligation.
  intros t. pose proof (random_bounds (t_world t)). simpl.
  by destruct (random (t_world t)).
Qed.

(** The function, its outcomes recorded. *)
Definition traced (fn : py W exn V) : py (Traced W V) exn V := fun t =>
  let '(r, w) := fn (t_world t) in
  (r, mkTraced w (t_calls t ++ [r]) (t_sleeps t) (t_ends t ++ [monotonic w])).

Context (none : V) (fmt2 str_float : Q -> string) (str_nat : nat -> string).

(** An outcome that engages the retry. *)
Definition engaged (c : RetryConfig (V := V)) (o : outcome exn V) : bool :=
  match o with
  | Raise e => is_exception e && when c (Raise e)
  | Return v => when c (Return v)
  end.

(** The time budget is not used up. *)
Definition time_left (c : RetryConfig (V := V)) (elapsed : Q) : Prop :=
  match max_seconds c with Some m => (elapsed < m)%Q | None => True end.

(** What the caller gets of an exhausted retry. *)
Definition noted (note : string) (o : outcome exn V) : outcome exn V :=
  match o with Return v => Return v | Raise e => Raise (add_note note e) end.

(** How a retry may end with [r] when its [n]-th call engaged the filter with [o],
    [elapsed] after the start: out of attempts, out of time, or because the backoff
    of attempt 1025 or a later one does not convert to a float. *)
Definition given_up (c : RetryConfig (V := V)) (n : nat) (elapsed : Q) (o r : outcome exn V) : Prop :=
  (n = attempts c /\ r = noted (attempts_note fmt2 str_nat c elapsed) o) \/
  ((n < attempts c)%nat /\ exists m, max_seconds c = Some m /\ (m <= elapsed)%Q /\
     r = noted (budget_note fmt2 str_float str_nat c m n elapsed) o) \/
  ((n < attempts c)%nat /\ time_left c elapsed /\ (1024 < n)%nat /\
     exists e, r = Raise e /\ exn_cls e = OverflowError).

(** How a run started at [started] that made the calls [os], over at [ends], may end
    with [r]: every call but the last engaged and left time. *)
Definition ends_with (c : RetryConfig (V := V)) (started : Q) (os : list (outcome exn V))
    (ends : list Q) (r : outcome exn V) : Prop :=
  exists init lst before last_end, os = init ++ [lst] /\ ends = before ++ [last_end] /\
    length before = length init /\
    Forall (fun o => engaged c o = true) init /\
    Forall (fun t => time_left c (t - started)) before /\
    (engaged c lst = false -> r = lst) /\
    (engaged c lst = true -> given_up c (length os) (last_end - started) lst r).

Lemma delay_traced s n (t : Traced W V) :
  let '(_, _, t') := delay s n t in
  t_calls t' = t_calls t /\ t_sleeps t' = t_sleeps t /\ t_ends t' = t_ends t.
Proof.
  assert (forall a b, t_calls (uniform a b t).2 = t_calls t /\
    t_sleeps (uniform a b t).2 = t_sleeps t /\ t_ends (uniform a b t).2 = t_ends t) as Hu.
  { intros a b. unfold uniform. simpl. by destruct (random (t_world t)). }
  destruct s as [b m j p|d|b m|b m pp p k|mi m]; unfold delay, exponential_delay, constant_delay, linear_delay, fibonacci_delay, random_delay.
  - destruct (int_to_float _); [|done]. unfold jittered. destruct j; [done| | |].
    + specialize (Hu 0%Q (py_min (b * a) m)). by destruct (uniform _ _ t).
    + specialize (Hu 0%Q (py_min (b * a) m * (1 # 2))%Q). by destruct (uniform _ _ t).
    + specialize (Hu b (p * 3)%Q). by destruct (uniform _ _ t).
  - done.
  - by destruct (int_to_float _).
  - destruct (fibonacci_advance _ _ _). by destruct (int_to_float _).
  - specialize (Hu mi m). by destruct (uniform _ _ t).
Qed.

Lemma exhausted_cases c number elapsed note o :
  exhausted fmt2 str_float str_nat c number elapsed = Some note -> (number <= attempts c)%nat ->
  given_up c number elapsed o (noted note o).
Proof.
  unfold exhausted, given_up. intros E Hn. destruct (Nat.leb_spec (attempts c) number) as [|Hlt].
  - injection E as <-. left. split; [lia|done].
  - destruct (max_seconds c) as [m|]; [|done].
    destruct (Qle_bool_spec m elapsed); [|done]. injection E as <-. right. left.
    split; [done|]. by exists m.
Qed.

Lemma exhausted_none c number elapsed :
  exhausted fmt2 str_float str_nat c number elapsed = None ->
  (number < attempts (V := V) c)%nat /\ time_left c elapsed.
Proof.
  unfold exhausted, time_left. destruct (Nat.leb_spec (attempts c) number); [done|].
  destruct (max_seconds c) as [m|]; [|done]. destruct (Qle_bool_spec m elapsed); done.
Qed.

(** A run started at [started] that ends with [x] after the calls and sleeps of [t]. *)
Definition run_good (c : RetryConfig (V := V)) (started : Q) (x : outcome exn V)
    (t : Traced W V) : Prop :=
  (length (t_calls t) <= attempts c)%nat /\ ends_with c started (t_calls t) (t_ends t) x /\
  Forall (fun d => 0 < d <= longest_delay (backoff c))%Q (t_sleeps t) /\
  (length (t_sleeps t) < length (t_calls t))%nat.

(** A run about to make call [number]. *)
Definition run_going (c : RetryConfig (V := V)) (started : Q) (number : nat) (t : Traced W V) : Prop :=
  length (t_calls t) = (number - 1)%nat /\ length (t_ends t) = (number - 1)%nat /\
  Forall (fun o => engaged c o = true) (t_calls t) /\
  Forall (fun at_ => time_left c (at_ - started)) (t_ends t) /\
  Forall (fun d => 0 < d <= longest_delay (backoff c))%Q (t_sleeps t).

Lemma pause_going c started number d (t : Traced W V) :
  run_going c started number t -> (0 <= d <= longest_delay (backoff c))%Q ->
  (length (t_sleeps t) <= number - 2)%nat -> (number = 1%nat -> d == 0)%Q -> (0 < number)%nat ->
  run_going c started number (pause d t) /\ (length (t_sleeps (pause d t)) <= number - 1)%nat.
Proof.
  intros (H1 & H2 & H3 & H4 & H5) Hd Hsn Hd0 Hn. unfold pause, run_going.
  destruct (Qlt_bool_spec 0 d); cbn; [|split_and!; done || lia].
  rewrite length_app. cbn. split_and!; try done.
  - apply Forall_app. split; [done|]. constructor; [|done]. lra.
  - destruct (decide (number = 1%nat)) as [E|]; [specialize (Hd0 E); lra|lia].
Qed.

(** What the loop does with an outcome that engages. *)
Lemma engaged_step c s number (t : Traced W V) started o note_ :
  exhausted fmt2 str_float str_nat c number (monotonic t - started)%Q = note_ ->
  engaged c o = true -> (number <= attempts c)%nat ->
  match note_ with
  | Some note => given_up c number (monotonic t - started) o (noted note o)
  | None => (number < attempts c)%nat /\ time_left c (monotonic t - started) /\
      forall e s' t', delay s number t = (Raise e, s', t') -> backoff_valid (backoff c) = true ->
        strategy_of (backoff c) s -> (strategy_index s < number)%nat ->
        given_up c number (monotonic t - started) o (Raise e)
  end.
Proof.
  intros E _ Hn. destruct note_ as [note|]; [by eapply exhausted_cases|].
  apply exhausted_none in E as [Hlt Ht]. split; [done|]. split; [done|].
  intros e s' t' Ed Hb Hs Hk. right. right. split; [done|]. split; [done|].
  split; [by eapply delay_overflows_late|]. exists e. split; [done|].
  pose proof (delay_ok (backoff c) s number t Hb Hs ltac:(lia)) as Hdel. rewrite Ed in Hdel. apply Hdel.
Qed.

Lemma run_loop_traced c fn started : forall k number d s r (t : Traced W V),
  backoff_valid (backoff c) = true -> strategy_of (backoff c) s -> (strategy_index s < number)%nat ->
  (number + k = S (attempts c))%nat -> (0 < k)%nat ->
  run_going c started number t -> (0 <= d <= longest_delay (backoff c))%Q ->
  (length (t_sleeps t) <= number - 2)%nat -> (number = 1%nat -> d == 0)%Q ->
  let '(o, t') := run_loop fmt2 str_float str_nat c (traced fn) started k number d s r t in
  run_good c started o t'.
Proof.
  induction k as [|k IH]; intros number d s r t Hb Hs Hi Hk Hk0 Ht Hd Hsn Hd0; [lia|].
  cbn [run_loop]. destruct (pause_going c started number d t Ht Hd Hsn Hd0 ltac:(lia)) as [Ht1 Hl1].
  destruct Ht1 as (Hc & He & Hall & Hleft & Hsl). set (t1 := pause d t) in *. clearbody t1.
  change (traced fn t1) with (let '(r, w) := fn (t_world t1) in
    (r, mkTraced w (t_calls t1 ++ [r]) (t_sleeps t1) (t_ends t1 ++ [monotonic w]))).
  destruct (fn (t_world t1)) as [o w1].
  set (t2 := mkTraced w1 (t_calls t1 ++ [o]) (t_sleeps t1) (t_ends t1 ++ [monotonic w1])).
  assert (length (t_calls t2) = number /\ length (t_ends t2) = number) as [Hc2 He2]
    by (subst t2; cbn; rewrite !length_app, Hc, He; cbn; lia).
  assert (forall x (t3 : Traced W V), t_calls t3 = t_calls t2 -> t_ends t3 = t_ends t2 ->
    t_sleeps t3 = t_sleeps t2 -> (engaged c o = false -> x = o) ->
    (engaged c o = true -> given_up c number (monotonic t2 - started) o x) ->
    run_good c started x t3) as Hend.
  { intros x t3 Ec Ee Es Hx1 Hx2. unfold run_good. rewrite Ec, Es, Ee, Hc2. split; [lia|].
    split; [|split; [done|cbn; lia]].
    exists (t_calls t1), o, (t_ends t1), (monotonic w1). rewrite Hc2. split_and!; try done. lia. }
  assert (engaged c o = true -> (number < attempts c)%nat -> time_left c (monotonic t2 - started) ->
    (forall e s' t', delay s number t2 = (Raise e, s', t') ->
       given_up c number (monotonic t2 - started) o (Raise e)) ->
    forall r', let '(x, t3) :=
      match delay s number t2 with
      | (Raise e', s', w) => (Raise e', w)
      | (Return d', s', w) =>
          run_loop fmt2 str_float str_nat c (traced fn) started k (S number) d' s' r' w
      end in run_good c started x t3) as Hnext.
  { intros Heng Hlt Htime Hover r'. pose proof (delay_ok (backoff c) s number t2 Hb Hs ltac:(lia)) as Hdel.
    pose proof (delay_traced s number t2) as Htr. pose proof (delay_index s number t2 Hi) as Hi'.
    destruct (delay s number t2) as [[[d'|e'] s'] t3]; destruct Htr as (Htc & Hts & Hte), Hdel as (Hs' & _ & Hdb).
    - apply IH; try done; try lia.
      + cbn in Hi'. lia.
      + unfold run_going. rewrite Htc, Hte, Hts, Hc2, He2. split_and!; [lia..| | |done].
        * apply Forall_app. split; [done|by constructor].
        * apply Forall_app. split; [done|by constructor].
      + rewrite Hts. cbn. lia.
    - apply Hend; [done..|congruence|]. intros _. by eapply Hover. }
  pose proof (engaged_step c s number t2 started o _ eq_refl) as Hstep.
  change (monotonic w1) with (monotonic t2).
  destruct (engaged c o) eqn:Heng.
  - specialize (Hstep eq_refl ltac:(lia)). destruct o as [v|e]; cbn in Heng; [|apply andb_prop in Heng as [-> ?]];
      cbn [negb]; match goal with Hw : when c _ = true |- _ => rewrite Hw end; cbn [negb];
      (destruct (exhausted _ _ _ c number _) as [note|]; [by apply Hend|]);
      destruct Hstep as (Hlt & Hleft2 & Hover); apply Hnext; eauto.
  - destruct o as [v|e]; cbn in Heng; [rewrite Heng; by apply Hend|].
    apply andb_false_iff in Heng as [->| ->]; cbn [negb]; [by apply Hend|].
    destruct (is_exception e); by apply Hend.
Qed.

Lemma longest_delay_pos c : backoff_valid c = true -> (0 < longest_delay c)%Q.
Proof.
  intros Hb. destruct c; simpl in *; repeat match goal with
    | H : _ && _ = true |- _ => apply andb_prop in H as [??] end;
    match goal with |- (0 < ?x)%Q => destruct (Qlt_bool_spec 0 x); done end.
Qed.

(** C13 A retry calls its function at least once and at most [attempts] times,
    sleeping between two calls at most the longest delay of its backoff.  Every
    outcome but the last engaged the filter, and at the end of every call but the
    last the time since the start was below [max_seconds].  The last outcome is what
    the caller gets, unchanged, if it does not engage (or is no [Exception]).
    If it engages, one of three things holds: it was the last of the [attempts]
    calls, or the time at its end was at or past [max_seconds] (and then the last
    result is returned, or the last exception raised with the one note, which says
    that the attempts are exhausted, or that the budget elapsed and after how many
    attempts), or, neither being the case, it was call 1025 or a later one and the
    delay of the backoff does not convert to a float: its [OverflowError] is raised. *)
Theorem retry_outcome (c : RetryConfig (V := V)) (fn : py W exn V) (w : W) :
  retry_valid c ->
  let '(r, t) := run_retry none fmt2 str_float str_nat c (traced fn) (mkTraced w [] [] []) in
  (length (t_calls t) <= attempts c)%nat /\
  ends_with c (monotonic w) (t_calls t) (t_ends t) r /\
  Forall (fun d => 0 < d <= longest_delay (backoff c))%Q (t_sleeps t) /\
  (length (t_sleeps t) < length (t_calls t))%nat.
Proof.
  intros (Hn & Hb & _). unfold run_retry. change (monotonic (mkTraced w [] [] [])) with (monotonic w).
  pose proof (run_loop_traced c fn (monotonic w) (attempts c) 1 0
    (build_retry_strategy (backoff c)) none (mkTraced w [] [] []) Hb (build_strategy_of _)) as Hr.
  destruct (run_loop _ _ _ _ _ _ _ _ _ _ _ _) as [r t]. apply Hr; try done; try lia.
  - destruct (backoff c); cbn; lia.
  - cbn. pose proof (longest_delay_pos (backoff c) Hb). lra.
Qed.
End Traced.

(** ** Concrete runs *)

(** A simulated clock whose random draws are all zero, and the outcomes the
    function still has to give. *)
Record Sim : Type := mkSim { sim_now : Q; sim_script : list (outcome exn Z) }.

#[local] Obligation Tactic := idtac.

#[export] Program Instance sim_runtime : Runtime Sim := {
  monotonic := sim_now;
  sleep d w := mkSim (sim_now w + d)%Q (sim_script w);
  random w := (0%Q, w);
}.
Next Obligation. intros d w. apply Qle_refl. Qed.
Next Obligation. intros w. apply Qle_refl. Qed.
Next Obligation. by intros w. Qed.

Definition sim_fn : py Sim exn Z := fun w =>
  match sim_script w with
  | o :: script => (o, mkSim (sim_now w) script)
  | [] => (Raise (mk_exn RuntimeError NoInfo), w)
  end.

Definition no_fmt : Q -> string := fun _ => "0.00".
Definition no_str : nat -> string := fun _ => "n".

Definition retry_errors (n : nat) (b : RetryBackoffConfig) : RetryConfig (V := Z) :=
  mkRetryConfig n None (fun o => match o with Raise _ => true | Return _ => false end) b.

Definition flaky : Sim :=
  mkSim 0 [Raise (mk_exn RuntimeError NoInfo); Raise (mk_exn TimeoutError NoInfo); Return 7].

Lemma block_form_is_decorator_witness :
  run_block 0 no_fmt no_fmt no_str (retry_errors 3 (FibonacciBackoff 1 30)) sim_fn flaky =
  (Return 7, mkSim 2 []) /\
  run_retry 0 no_fmt no_fmt no_str (retry_errors 3 (FibonacciBackoff 1 30)) sim_fn flaky =
  (Return 7, mkSim 2 []).
Proof.
  split; [|vm_compute; reflexivity].
  rewrite (block_form_is_decorator 0 no_fmt no_fmt no_str
    (retry_errors 3 (FibonacciBackoff 1 30)) sim_fn flaky) by done.
  vm_compute. reflexivity.
Defined.

(** The second failure finds the budget of one second used up. *)
Definition one_second_budget : RetryConfig (V := Z) :=
  mkRetryConfig 5 (Some 1%Q) (fun o => match o with Raise _ => true | Return _ => false end)
    (ExponentialBackoff 1 30 JNone).

Lemma retry_outcome_witness :
  let '(r, t) := run_retry 0 no_fmt no_fmt no_str one_second_budget (traced sim_fn)
                   (mkTraced flaky [] [] []) in
  (length (t_calls t) <= attempts one_second_budget)%nat /\
  ends_with no_fmt no_fmt no_str one_second_budget (monotonic flaky) (t_calls t) (t_ends t) r /\
  Forall (fun d => 0 < d <= longest_delay (backoff one_second_budget))%Q (t_sleeps t) /\
  (length (t_sleeps t) < length (t_calls t))%nat.
Proof.
  apply (retry_outcome 0 no_fmt no_fmt no_str one_second_budget sim_fn flaky).
  split_and!; [simpl; lia|reflexivity|done].
Defined.

Example budgeted_run :
  let '(r, t) := run_retry 0 no_fmt no_fmt no_str one_second_budget (traced sim_fn)
                   (mkTraced flaky [] [] []) in
  t_calls t = [Raise (mk_exn RuntimeError NoInfo); Raise (mk_exn TimeoutError NoInfo)] /\
  t_ends t = [0; 1]%Q /\
  r = Raise (add_note (budget_note no_fmt no_fmt no_str one_second_budget 1 2 1) (mk_exn TimeoutError NoInfo)).
Proof. vm_compute. by repeat split. Qed.

Lemma delays_as_announced_witness :
  exists d s' w2, delay (after_attempts (FibonacciBackoff 2 30) 4 flaky).1 5
    (after_attempts (FibonacciBackoff 2 30) 4 flaky).2 = (Return d, s', w2) /\ (d == 10)%Q.
Proof.
  pose proof (delays_as_announced (FibonacciBackoff 2 30) 5 flaky eq_refl ltac:(lia)) as H.
  change (5 - 1)%nat with 4%nat in H.
  destruct (after_attempts (FibonacciBackoff 2 30) 4 flaky) as [s w1].
  destruct H as (d & s' & w2 & E & _ & Hd & _). exists d, s', w2. split; [exact E|].
  rewrite (Hd _ eq_refl). vm_compute. reflexivity.
Defined.

(** With more than 1025 attempts (a time budget is what is meant to end such a
    retry) the default exponential backoff does not survive the 1025th
    failure: its factor [2 ** 1024] does not convert to a float, and the caller
    gets an [OverflowError] in place of the function's own error. *)
Lemma exponential_retry_overflows :
  let c := retry_errors 2000 (ExponentialBackoff 1 2 JFull) in
  let '(r, t) := run_retry 0 no_fmt no_fmt no_str c (traced sim_fn)
    (mkTraced (mkSim 0 []) [] [] []) in
  r = Raise (mk_exn OverflowError NoInfo) /\ length (t_calls t) = 1025%nat.
Proof. vm_compute. split; reflexivity. Qed.
