(* ===== verification/Calendar.v ===== *)
(** * Python datetimes

    The part of the standard module [datetime] that [task/_cron.py] uses: a
    wall-clock datetime with its [fold], the proleptic Gregorian calendar,
    [toordinal] and [weekday], [replace], and the addition of one day, one
    hour or one minute, which raises [OverflowError] outside the years 1 to
    9999.  Two datetimes with the same [tzinfo] compare by their wall clock,
    [minutes] and the seconds.

    The facts the schedule search needs: [minutes] is injective on the
    fields and ordered as they are, and each addition is the successor it
    names. *)

From S2P Require Import Prelude Errors.

Local Open Scope Z_scope.

(** Seconds and microseconds are one number: [second + microsecond / 10^6]. *)
Record datetime : Type := mkDatetime {
  year : Z;
  month : Z;
  day : Z;
  hour : Z;
  minute : Z;
  second : Q;
  fold : Z;
}.

Definition is_leap (y : Z) : bool :=
  (y mod 4 =? 0) && (negb (y mod 100 =? 0) || (y mod 400 =? 0)).

Definition leap_day (y : Z) : Z := if is_leap y then 1 else 0.

Definition days_in_month (y m : Z) : Z :=
  if m =? 2 then 28 + leap_day y
  else if (m =? 4) || (m =? 6) || (m =? 9) || (m =? 11) then 30 else 31.

(** Days of the year before the first of the month. *)
Definition days_before_month (y m : Z) : Z :=
  match m with
  | 2 => 31 | 3 => 59 | 4 => 90 | 5 => 120 | 6 => 151 | 7 => 181
  | 8 => 212 | 9 => 243 | 10 => 273 | 11 => 304 | 12 => 334 | _ => 0
  end +
  (if 2 <? m then leap_day y else 0).

Definition days_before_year (y : Z) : Z :=
  (y - 1) * 365 + (y - 1) / 4 - (y - 1) / 100 + (y - 1) / 400.

Definition ymd2ord (y m d : Z) : Z :=
  days_before_year y + days_before_month y m + d.

Definition toordinal (t : datetime) : Z := ymd2ord (year t) (month t) (day t).

(** Monday is 0. *)
Definition weekday (t : datetime) : Z := (toordinal t + 6) mod 7.

Definition MAXYEAR : Z := 9999.
Definition MAXORDINAL : Z := 3652059.

(** Whole minutes of the wall clock since the day before 0001-01-01. *)
Definition minutes (t : datetime) : Z := toordinal t * 1440 + hour t * 60 + minute t.

Definition valid (t : datetime) : Prop :=
  1 <= year t <= MAXYEAR /\ 1 <= month t <= 12 /\
  1 <= day t <= days_in_month (year t) (month t) /\
  0 <= hour t < 24 /\ 0 <= minute t < 60 /\ (0 <= second t < 60)%Q /\
  0 <= fold t <= 1.

(** ** [replace] *)

Definition replace_minute (mi : Z) (t : datetime) : datetime :=
  mkDatetime (year t) (month t) (day t) (hour t) mi (second t) (fold t).
Definition replace_time (h mi : Z) (t : datetime) : datetime :=
  mkDatetime (year t) (month t) (day t) h mi (second t) (fold t).
Definition truncate (t : datetime) : datetime :=
  mkDatetime (year t) (month t) (day t) (hour t) (minute t) 0 (fold t).
Definition replace_date (y m d : Z) (t : datetime) : datetime :=
  mkDatetime y m d (hour t) (minute t) (second t) (fold t).

(** ** [+ timedelta] and [- timedelta]

    The sum is rebuilt from its fields, so it has [fold = 0]. *)

Definition overflow : exn := mk_exn OverflowError NoInfo.

Definition plus_day (t : datetime) : outcome exn datetime :=
  let at_ y m d := Return (mkDatetime y m d (hour t) (minute t) (second t) 0) in
  if day t <? days_in_month (year t) (month t)
  then at_ (year t) (month t) (day t + 1)
  else if month t <? 12 then at_ (year t) (month t + 1) 1
  else if year t <? MAXYEAR then at_ (year t + 1) 1 1
  else Raise overflow.

Definition minus_day (t : datetime) : outcome exn datetime :=
  let at_ y m d := Return (mkDatetime y m d (hour t) (minute t) (second t) 0) in
  if 1 <? day t then at_ (year t) (month t) (day t - 1)
  else if 1 <? month t
  then at_ (year t) (month t - 1) (days_in_month (year t) (month t - 1))
  else if 1 <? year t then at_ (year t - 1) 12 31
  else Raise overflow.

Definition unfold_ (t : datetime) : datetime :=
  mkDatetime (year t) (month t) (day t) (hour t) (minute t) (second t) 0.

Definition plus_hour (t : datetime) : outcome exn datetime :=
  if hour t <? 23 then Return (unfold_ (replace_time (hour t + 1) (minute t) t))
  else plus_day (replace_time 0 (minute t) t).

Definition minus_hour (t : datetime) : outcome exn datetime :=
  if 0 <? hour t then Return (unfold_ (replace_time (hour t - 1) (minute t) t))
  else minus_day (replace_time 23 (minute t) t).

Definition plus_minute (t : datetime) : outcome exn datetime :=
  if minute t <? 59 then Return (unfold_ (replace_minute (minute t + 1) t))
  else plus_hour (replace_minute 0 t).

Definition minus_minute (t : datetime) : outcome exn datetime :=
  if 0 <? minute t then Return (unfold_ (replace_minute (minute t - 1) t))
  else minus_hour (replace_minute 59 t).

(** [dt + timedelta(days=n)] as an instant of the wall clock, for a bound
    that is only compared with. *)
Definition plus_days_minutes (n : Z) (t : datetime) : outcome exn Z :=
  let o := toordinal t + n in
  if (0 <? o) && (o <=? MAXORDINAL) then Return (minutes t + n * 1440)
  else Raise overflow.

(** ** The calendar *)

Lemma month_cases m : 1 <= m <= 12 ->
  m = 1 \/ m = 2 \/ m = 3 \/ m = 4 \/ m = 5 \/ m = 6 \/ m = 7 \/ m = 8 \/
  m = 9 \/ m = 10 \/ m = 11 \/ m = 12.
Proof. lia. Qed.

Ltac by_month H :=
  apply month_cases in H;
  destruct H as [H|[H|[H|[H|[H|[H|[H|[H|[H|[H|[H|H]]]]]]]]]]]; rewrite ?H in *.

Lemma leap_day_range y : 0 <= leap_day y <= 1.
Proof. unfold leap_day. destruct (is_leap y); lia. Qed.

Lemma days_before_year_succ y :
  days_before_year (y + 1) = days_before_year y + 365 + leap_day y.
Proof.
  unfold days_before_year, leap_day, is_leap.
  replace (y + 1 - 1) with y by lia.
  destruct (Z.eqb_spec (y mod 4) 0), (Z.eqb_spec (y mod 100) 0),
    (Z.eqb_spec (y mod 400) 0); simpl;
    Z.to_euclidean_division_equations; lia.
Qed.

Lemma days_before_year_lt y y' : y < y' ->
  days_before_year y + 365 + leap_day y <= days_before_year y'.
Proof.
  intros H. rewrite <- days_before_year_succ. unfold days_before_year.
  Z.to_euclidean_division_equations; lia.
Qed.

Lemma days_before_month_succ y m : 1 <= m <= 11 ->
  days_before_month y (m + 1) = days_before_month y m + days_in_month y m.
Proof.
  intros H. remember (m + 1) as k eqn:Ek. assert (1 <= m <= 12) as Hm by lia.
  assert (1 <= k <= 12) as Hk by lia. unfold days_before_month, days_in_month.
  by_month Hm; by_month Hk; try discriminate Ek;
    cbn -[leap_day Z.add] in *; lia.
Qed.

Lemma days_in_year y : days_before_month y 12 + days_in_month y 12 = 365 + leap_day y.
Proof. unfold days_before_month, days_in_month. cbn -[leap_day Z.add]. lia. Qed.

Lemma days_in_month_range y m : 28 <= days_in_month y m <= 31.
Proof.
  unfold days_in_month. pose proof (leap_day_range y).
  repeat case_match; lia.
Qed.

Lemma days_before_month_1 y : days_before_month y 1 = 0.
Proof. done. Qed.

Lemma days_before_month_lt y m m' : 1 <= m -> m < m' -> m' <= 12 ->
  days_before_month y m + days_in_month y m <= days_before_month y m'.
Proof.
  intros H1 H Hm'.
  assert (1 <= m <= 12) as Hm by lia. assert (1 <= m' <= 12) as Hk by lia.
  pose proof (leap_day_range y). unfold days_before_month, days_in_month.
  by_month Hm; by_month Hk; try lia; cbn -[leap_day Z.add]; lia.
Qed.

(** Dates are ordered as their ordinals. *)
Lemma ymd2ord_lt y m d y' m' d' :
  1 <= m <= 12 -> 1 <= m' <= 12 -> 1 <= d <= days_in_month y m -> 1 <= d' ->
  (y < y' \/ (y = y' /\ m < m')) -> ymd2ord y m d < ymd2ord y' m' d'.
Proof.
  intros Hm Hm' Hd Hd' H. unfold ymd2ord.
  assert (0 <= days_before_month y' m').
  { destruct (decide (m' = 1)) as [->|]; [by rewrite days_before_month_1|].
    pose proof (days_before_month_lt y' 1 m' ltac:(lia) ltac:(lia) ltac:(lia)).
    pose proof (days_in_month_range y' 1). rewrite days_before_month_1 in *. lia. }
  destruct H as [H|[-> H]].
  - pose proof (days_before_year_lt _ _ H). pose proof (days_in_year y).
    destruct (decide (m = 12)) as [->|]; [lia|].
    pose proof (days_before_month_lt y m 12 ltac:(lia) ltac:(lia) ltac:(lia)).
    pose proof (days_in_month_range y 12). lia.
  - pose proof (days_before_month_lt y' m m' ltac:(lia) ltac:(lia) ltac:(lia)). lia.
Qed.

Lemma ymd2ord_month y m d y' m' d' :
  1 <= m <= 12 -> 1 <= m' <= 12 ->
  1 <= d <= days_in_month y m -> 1 <= d' <= days_in_month y' m' ->
  ymd2ord y m 1 <= ymd2ord y' m' d' < ymd2ord y m 1 + days_in_month y m ->
  y' = y /\ m' = m.
Proof.
  intros Hm Hm' Hd Hd' H. pose proof (days_in_month_range y m).
  destruct (decide (y' < y \/ (y' = y /\ m' < m))) as [Hl|Hl].
  { pose proof (ymd2ord_lt y' m' d' y m 1 ltac:(lia) ltac:(lia) ltac:(lia) ltac:(lia) Hl).
    lia. }
  destruct (decide (y < y' \/ (y = y' /\ m < m'))) as [Hg|Hg]; [|lia].
  pose proof (ymd2ord_lt y m (days_in_month y m) y' m' d'
    ltac:(lia) ltac:(lia) ltac:(lia) ltac:(lia) Hg).
  unfold ymd2ord in *. lia.
Qed.

Lemma ymd2ord_inj y m d y' m' d' :
  1 <= m <= 12 -> 1 <= m' <= 12 ->
  1 <= d <= days_in_month y m -> 1 <= d' <= days_in_month y' m' ->
  ymd2ord y m d = ymd2ord y' m' d' -> y' = y /\ m' = m /\ d' = d.
Proof.
  intros Hm Hm' Hd Hd' H.
  destruct (ymd2ord_month y m d y' m' d' Hm Hm' Hd Hd') as [-> ->];
    unfold ymd2ord in *; lia.
Qed.

(** ** Successors

    [u] is the wall clock [n] minutes after [t], a valid datetime with the
    same seconds and no [fold]. *)
Definition moved (n : Z) (t u : datetime) : Prop :=
  valid u /\ minutes u = minutes t + n /\ second u = second t /\ fold u = 0.

Lemma plus_day_moved t : valid t -> year t < MAXYEAR ->
  exists u, plus_day t = Return u /\ moved 1440 t u /\ hour u = hour t /\
    minute u = minute t.
Proof.
  intros (Hy & Hm & Hd & Hh & Hmi & [Hs1 Hs2] & Hf) Hy'. unfold plus_day, moved, valid.
  unfold minutes, toordinal, ymd2ord. pose proof (days_in_month_range (year t) (month t)).
  destruct (Z.ltb_spec (day t) (days_in_month (year t) (month t))) as [L|L];
    [|destruct (Z.ltb_spec (month t) 12) as [L'|L'];
      [|destruct (Z.ltb_spec (year t) MAXYEAR) as [_|?]; [|lia]]];
    eexists; (split; [reflexivity|]); cbn [year month day hour minute second fold].
  - split_and!; try done; lia.
  - pose proof (days_in_month_range (year t) (month t + 1)).
    rewrite days_before_month_succ by lia. split_and!; try done; lia.
  - pose proof (days_in_year (year t)). pose proof (days_in_month_range (year t + 1) 1).
    assert (month t = 12) as E by lia. rewrite E in *.
    rewrite days_before_year_succ, days_before_month_1. split_and!; try done; lia.
Qed.

Lemma minus_day_moved t : valid t -> 1 < year t ->
  exists u, minus_day t = Return u /\ moved (- 1440) t u /\ hour u = hour t /\
    minute u = minute t.
Proof.
  intros (Hy & Hm & Hd & Hh & Hmi & [Hs1 Hs2] & Hf) Hy'. unfold minus_day, moved, valid.
  unfold minutes, toordinal, ymd2ord.
  destruct (Z.ltb_spec 1 (day t)) as [L|L];
    [|destruct (Z.ltb_spec 1 (month t)) as [L'|L'];
      [|destruct (Z.ltb_spec 1 (year t)) as [_|?]; [|lia]]];
    eexists; (split; [reflexivity|]); cbn [year month day hour minute second fold].
  - split_and!; try done; lia.
  - pose proof (days_in_month_range (year t) (month t - 1)).
    pose proof (days_before_month_succ (year t) (month t - 1) ltac:(lia)) as E.
    replace (month t - 1 + 1) with (month t) in E by lia.
    split_and!; try done; lia.
  - pose proof (days_in_year (year t - 1)). pose proof (days_before_year_succ (year t - 1)) as E.
    replace (year t - 1 + 1) with (year t) in E by lia.
    pose proof (days_in_month_range (year t - 1) 12).
    assert (days_in_month (year t - 1) 12 = 31) by done.
    assert (month t = 1) as E1 by lia. rewrite E1 in *. rewrite days_before_month_1.
    split_and!; try done; lia.
Qed.

Lemma valid_replace h mi t : valid t -> 0 <= h < 24 -> 0 <= mi < 60 ->
  valid (replace_time h mi t) /\
  minutes (replace_time h mi t) = toordinal t * 1440 + h * 60 + mi.
Proof. unfold valid. cbn. tauto. Qed.

Lemma valid_unfold t : valid t -> valid (unfold_ t).
Proof. unfold valid. cbn. intros. repeat split; try tauto; lia. Qed.

Lemma plus_hour_moved t : valid t -> year t < MAXYEAR ->
  exists u, plus_hour t = Return u /\ moved 60 t u /\ minute u = minute t.
Proof.
  intros Hv Hy. pose proof Hv as (_ & _ & _ & Hh & Hmi & _). unfold plus_hour.
  destruct (Z.ltb_spec (hour t) 23) as [L|L].
  - eexists. split; [reflexivity|]. destruct (valid_replace (hour t + 1) (minute t) t) as [H1 H2];
      [done|lia|done|]. split; [|done]. split_and!; [by apply valid_unfold| |done|done].
    change (minutes (unfold_ ?x)) with (minutes x).
    etransitivity; [exact H2|unfold minutes; lia].
  - destruct (valid_replace 0 (minute t) t) as [H1 H2]; [done|lia|done|].
    destruct (plus_day_moved _ H1 Hy) as (u & E & (V & M & S & F) & Eh & Em).
    exists u. unfold moved. split_and!; try done. rewrite M, H2. unfold minutes. lia.
Qed.

Lemma minus_hour_moved t : valid t -> 1 < year t ->
  exists u, minus_hour t = Return u /\ moved (- 60) t u /\ minute u = minute t.
Proof.
  intros Hv Hy. pose proof Hv as (_ & _ & _ & Hh & Hmi & _). unfold minus_hour.
  destruct (Z.ltb_spec 0 (hour t)) as [L|L].
  - eexists. split; [reflexivity|]. destruct (valid_replace (hour t - 1) (minute t) t) as [H1 H2];
      [done|lia|done|]. split; [|done]. split_and!; [by apply valid_unfold| |done|done].
    change (minutes (unfold_ ?x)) with (minutes x).
    etransitivity; [exact H2|unfold minutes; lia].
  - destruct (valid_replace 23 (minute t) t) as [H1 H2]; [done|lia|done|].
    destruct (minus_day_moved _ H1 Hy) as (u & E & (V & M & S & F) & Eh & Em).
    exists u. unfold moved. split_and!; try done. rewrite M, H2. unfold minutes. lia.
Qed.

Lemma plus_minute_moved t : valid t -> year t < MAXYEAR ->
  exists u, plus_minute t = Return u /\ moved 1 t u.
Proof.
  intros Hv Hy. pose proof Hv as (_ & _ & _ & Hh & Hmi & _). unfold plus_minute.
  destruct (Z.ltb_spec (minute t) 59) as [L|L].
  - destruct (valid_replace (hour t) (minute t + 1) t) as [H1 H2]; [done|done|lia|].
    eexists. split; [reflexivity|]. split_and!; [by apply valid_unfold| |done|done].
    change (minutes (unfold_ ?x)) with (minutes x).
    etransitivity; [exact H2|unfold minutes; lia].
  - destruct (valid_replace (hour t) 0 t) as [H1 H2]; [done|done|lia|].
    destruct (plus_hour_moved _ H1 Hy) as (u & E & (V & M & S & F) & Em).
    exists u. unfold moved. split_and!; try done. rewrite M, H2. unfold minutes. lia.
Qed.

Lemma minus_minute_moved t : valid t -> 1 < year t ->
  exists u, minus_minute t = Return u /\ moved (- 1) t u.
Proof.
  intros Hv Hy. pose proof Hv as (_ & _ & _ & Hh & Hmi & _). unfold minus_minute.
  destruct (Z.ltb_spec 0 (minute t)) as [L|L].
  - destruct (valid_replace (hour t) (minute t - 1) t) as [H1 H2]; [done|done|lia|].
    eexists. split; [reflexivity|]. split_and!; [by apply valid_unfold| |done|done].
    change (minutes (unfold_ ?x)) with (minutes x).
    etransitivity; [exact H2|unfold minutes; lia].
  - destruct (valid_replace (hour t) 59 t) as [H1 H2]; [done|done|lia|].
    destruct (minus_hour_moved _ H1 Hy) as (u & E & (V & M & S & F) & Em).
    exists u. unfold moved. split_and!; try done. rewrite M, H2. unfold minutes. lia.
Qed.

(** ** The order of the wall clock *)

(** Equal minutes are equal fields. *)
Lemma minutes_inj t u : valid t -> valid u -> minutes t = minutes u ->
  year t = year u /\ month t = month u /\ day t = day u /\ hour t = hour u /\
  minute t = minute u.
Proof.
  intros (? & ? & ? & ? & ? & _) (? & ? & ? & ? & ? & _) E. unfold minutes in E.
  assert (toordinal t = toordinal u) as Eo by lia.
  destruct (ymd2ord_inj (year u) (month u) (day u) (year t) (month t) (day t))
    as (E1 & E2 & E3); [done..|]. split_and!; lia.
Qed.

(** The minutes of one day, of one hour, of one month are intervals. *)
Lemma same_day t u : valid t -> valid u -> 
  toordinal t * 1440 <= minutes u < toordinal t * 1440 + 1440 ->
  year u = year t /\ month u = month t /\ day u = day t.
Proof.
  intros (? & ? & ? & ? & ? & _) (? & ? & ? & ? & ? & _) E. unfold minutes in E.
  apply ymd2ord_inj; [done..|]. unfold toordinal in *. lia.
Qed.

Lemma same_hour t u : valid t -> valid u -> 
  toordinal t * 1440 + hour t * 60 <= minutes u <
    toordinal t * 1440 + hour t * 60 + 60 ->
  year u = year t /\ month u = month t /\ day u = day t /\ hour u = hour t.
Proof.
  intros Ht Hu E. pose proof Ht as (? & ? & ? & ? & ? & _).
  destruct (same_day t u) as (E1 & E2 & E3); [done..|lia|].
  split_and!; [done..|]. pose proof Hu as (_ & _ & _ & ? & ? & _).
  unfold minutes, toordinal in E. rewrite E1, E2, E3 in E. lia.
Qed.

Lemma same_month t u : valid t -> valid u -> 
  ymd2ord (year t) (month t) 1 * 1440 <= minutes u <
    (ymd2ord (year t) (month t) 1 + days_in_month (year t) (month t)) * 1440 ->
  year u = year t /\ month u = month t.
Proof.
  intros (? & ? & ? & ? & ? & _) (? & ? & ? & ? & ? & _) E. unfold minutes in E.
  apply (ymd2ord_month (year t) (month t) (day t) (year u) (month u) (day u)); [done..|].
  unfold toordinal in *. lia.
Qed.

(** A later wall clock is in a later year. *)
Lemma minutes_year t u : valid t -> valid u -> year t < year u -> minutes t < minutes u.
Proof.
  intros (? & ? & ? & ? & ? & _) (? & ? & ? & ? & ? & _) E. unfold minutes.
  assert (toordinal t < toordinal u) by (apply ymd2ord_lt; try done; lia). lia.
Qed.

Lemma days_before_year_le y y' : y <= y' ->
  days_before_year y + 365 * (y' - y) <= days_before_year y'.
Proof. intros H. unfold days_before_year. Z.to_euclidean_division_equations; lia. Qed.

(** A date lies inside its year, and so do its minutes. *)
Lemma minutes_in_year t : valid t ->
  (days_before_year (year t) + 1) * 1440 <= minutes t <
  (days_before_year (year t + 1) + 1) * 1440.
Proof.
  intros (Hy & Hm & Hd & Hh & Hmi & _). unfold minutes, toordinal, ymd2ord.
  rewrite days_before_year_succ. pose proof (days_in_year (year t)).
  pose proof (days_in_month_range (year t) 1).
  destruct (decide (month t = 1)) as [E|E].
  { rewrite E in *. rewrite days_before_month_1 in *.
    pose proof (days_before_month_lt (year t) 1 12 ltac:(lia) ltac:(lia) ltac:(lia)).
    pose proof (days_in_month_range (year t) 12). rewrite days_before_month_1 in *. lia. }
  pose proof (days_before_month_lt (year t) 1 (month t) ltac:(lia) ltac:(lia) ltac:(lia)).
  rewrite days_before_month_1 in *. destruct (decide (month t = 12)) as [E'|E'].
  { rewrite E' in *. lia. }
  pose proof (days_before_month_lt (year t) (month t) 12 ltac:(lia) ltac:(lia) ltac:(lia)).
  pose proof (days_in_month_range (year t) 12). lia.
Qed.

(** Two instants less than [365 * n] days apart are at most [n] years apart. *)
Lemma years_apart t u n : valid t -> valid u -> 0 <= n ->
  minutes u < minutes t + 365 * n * 1440 -> year u <= year t + n.
Proof.
  intros Ht Hu Hn H. pose proof (minutes_in_year t Ht). pose proof (minutes_in_year u Hu).
  destruct (decide (year u <= year t + n)); [done|].
  pose proof (days_before_year_le (year t + 1) (year u) ltac:(lia)). nia.
Qed.
