(* ===== verification/Cron.v ===== *)
(** * Cron expressions

    [CronExpression] of [task/_cron.py]: the parser of the five fields and
    the two searches, [next_after] and [previous_or_equal].

    A search is a loop that moves a candidate by a month, a day, an hour or a
    minute.  [iter_until] runs it with [2 ^ SEARCH_FUEL] turns; every turn
    moves the candidate by at least a minute and the loop stops 1830 days
    away, so the fuel is never exhausted ([None] is never the result).  The
    theorems say that the searches are exact: they return the least matching
    minute after, and the greatest at or before, the given instant, and raise
    (or return [None]) only when there is none within the bound.

    The text of the error messages is not modelled, only their class. *)

From S2P Require Import Prelude Errors PyStr Calendar.
From Stdlib Require Import Ascii String.

Local Open Scope Z_scope.

Definition cron_error : exn := mk_exn CronError NoInfo.

Definition MAX_SEARCH_YEARS : Z := 5.

(** ** Parsing *)

(** [_parse_step] *)
Definition parse_step (step_spec : string) : outcome exn Z :=
  if String.eqb step_spec "" then Raise cron_error
  else match int_of_string step_spec with
       | None => Raise cron_error
       | Some step => if step <=? 0 then Raise cron_error else Return step
       end.

(** [_parse_bounds] *)
Definition parse_bounds (range_spec : string) (low high : Z) (stepped : bool) :
    outcome exn (Z * Z) :=
  if String.eqb range_spec "*" then Return (low, high)
  else
    let '(start_spec, found, end_spec) := partition "-" range_spec in
    if found then
      match int_of_string start_spec, int_of_string end_spec with
      | Some start, Some end_ =>
          if end_ <? start then Raise cron_error else Return (start, end_)
      | _, _ => Raise cron_error
      end
    else if stepped then Raise cron_error
    else match int_of_string range_spec with
         | None => Raise cron_error
         | Some value => Return (value, value)
         end.

(** One turn of the loop of [_parse_field]. *)
Definition parse_part (part : string) (low high : Z) : outcome exn (list Z) :=
  if String.eqb part "" then Raise cron_error
  else
    let '(range_spec, sep, step_spec) := partition "/" part in
    match (if (sep : bool) then parse_step step_spec else Return 1) with
    | Raise e => Raise e
    | Return step =>
        match parse_bounds range_spec low high sep with
        | Raise e => Raise e
        | Return (start, end_) =>
            if (start <? low) || (high <? end_) then Raise cron_error
            else Return (py_range start (end_ + 1) step)
        end
    end.

Fixpoint parse_parts (parts : list string) (low high : Z) (values : gset Z) :
    outcome exn (gset Z) :=
  match parts with
  | [] => Return values
  | part :: parts =>
      match parse_part part low high with
      | Raise e => Raise e
      | Return vs => parse_parts parts low high (values ∪ list_to_set vs)
      end
  end.

(** [_parse_field] *)
Definition parse_field (field : string) (low high : Z) : outcome exn (gset Z) :=
  parse_parts (split_on "," field) low high ∅.

(** [CronExpression] *)
Record CronExpression : Type := mkCron {
  e_minutes : gset Z;
  e_hours : gset Z;
  e_days : gset Z;
  e_months : gset Z;
  e_weekdays : gset Z;
  dom_restricted : bool;
  dow_restricted : bool;
}.

Definition SUNDAY_ALIAS : Z := 7.

(** [CronExpression.__init__].  The fields have no surrounding whitespace, so
    [strip] does nothing on them. *)
Definition parse_cron (expr : string) : outcome exn CronExpression :=
  match words expr with
  | [f0; f1; f2; f3; f4] =>
      match parse_field f0 0 59 with
      | Raise e => Raise e
      | Return minutes =>
      match parse_field f1 0 23 with
      | Raise e => Raise e
      | Return hours =>
      match parse_field f2 1 31 with
      | Raise e => Raise e
      | Return days =>
      match parse_field f3 1 12 with
      | Raise e => Raise e
      | Return months =>
      match parse_field f4 0 SUNDAY_ALIAS with
      | Raise e => Raise e
      | Return dow =>
          Return (mkCron minutes hours days months
            (set_map (fun d => if d =? SUNDAY_ALIAS then 0 else d) dow)
            (negb (String.eqb f2 "*")) (negb (String.eqb f4 "*")))
      end end end end end
  | _ => Raise cron_error
  end.

(** ** Matching *)

(** [_day_matches] *)
Definition day_matches (e : CronExpression) (c : datetime) : bool :=
  let cron_dow := (weekday c + 1) mod 7 in
  let dom_match := bool_decide (day c ∈ e_days e) in
  let dow_match := bool_decide (cron_dow ∈ e_weekdays e) in
  if dom_restricted e && dow_restricted e then dom_match || dow_match
  else if dom_restricted e then dom_match
  else if dow_restricted e then dow_match
  else true.

(** The four tests of the search loops, all passed. *)
Definition cron_matches (e : CronExpression) (c : datetime) : bool :=
  bool_decide (month c ∈ e_months e) && day_matches e c &&
  bool_decide (hour c ∈ e_hours e) && bool_decide (minute c ∈ e_minutes e).

(** ** The searches *)

(** [_advance_month]; [replace] raises [ValueError] past the year 9999. *)
Definition advance_month (c : datetime) : outcome exn datetime :=
  if month c =? 12 then
    if year c <? MAXYEAR
    then Return (replace_date (year c + 1) 1 1 (replace_time 0 0 c))
    else Raise (mk_exn ValueError NoInfo)
  else Return (replace_date (year c) (month c + 1) 1 (replace_time 0 0 c)).

(** [_retreat_month] *)
Definition retreat_month (c : datetime) : outcome exn datetime :=
  minus_minute (replace_date (year c) (month c) 1 (replace_time 0 0 c)).

Section Iter.
Context {A R : Type} (step : A -> A + R).

(** [while True: a = step(a)] for at most [2 ^ n] turns, until a result. *)
Fixpoint iter_until (n : nat) (a : A) : A + R :=
  match n with
  | O => step a
  | S n => match iter_until n a with
           | inl a => iter_until n a
           | inr r => inr r
           end
  end.

(** What every turn keeps, and a measure every turn raises by one. *)
Lemma iter_until_spec (P : A -> Prop) (Q : R -> Prop) (m : A -> Z) :
  (forall a, P a -> match step a with
                    | inl a' => P a' /\ m a + 1 <= m a'
                    | inr r => Q r
                    end) ->
  forall n a, P a -> match iter_until n a with
                     | inl a' => P a' /\ m a + 2 ^ Z.of_nat n <= m a'
                     | inr r => Q r
                     end.
Proof.
  intros Hstep n. induction n as [|n IH]; intros a Ha.
  { apply Hstep in Ha. cbn [iter_until]. by destruct (step a). }
  cbn [iter_until]. pose proof (IH a Ha) as H1.
  destruct (iter_until n a) as [a1|r]; [|done]. destruct H1 as [P1 M1].
  pose proof (IH a1 P1) as H2. destruct (iter_until n a1) as [a2|r]; [|done].
  destruct H2 as [P2 M2]. split; [done|].
  rewrite Nat2Z.inj_succ, Z.pow_succ_r by lia. lia.
Qed.
End Iter.

Definition SEARCH_FUEL : nat := 22.

(** One turn of the loop of [next_after]. *)
Definition next_step (e : CronExpression) (limit : Z) (c : datetime) :
    datetime + outcome exn datetime :=
  let continue (o : outcome exn datetime) :=
    match o with Return c => inl c | Raise x => inr (Raise x) end in
  if limit <? minutes c then inr (Raise cron_error)
  else if bool_decide (month c ∉ e_months e) then continue (advance_month c)
  else if negb (day_matches e c) then continue (plus_day (replace_time 0 0 c))
  else if bool_decide (hour c ∉ e_hours e) then continue (plus_hour (replace_minute 0 c))
  else if bool_decide (minute c ∉ e_minutes e) then continue (plus_minute c)
  else inr (Return c).

(** [next_after] *)
Definition next_after (e : CronExpression) (dt : datetime) :
    option (outcome exn datetime) :=
  match plus_minute (truncate dt) with
  | Raise x => Some (Raise x)
  | Return candidate =>
      match plus_days_minutes (MAX_SEARCH_YEARS * 366) candidate with
      | Raise x => Some (Raise x)
      | Return limit =>
          match iter_until (next_step e limit) SEARCH_FUEL candidate with
          | inl _ => None
          | inr r => Some r
          end
      end
  end.

(** One turn of the loop of [previous_or_equal]. *)
Definition previous_step (e : CronExpression) (limit : Z) (c : datetime) :
    datetime + outcome exn (option datetime) :=
  let continue (o : outcome exn datetime) :=
    match o with Return c => inl c | Raise x => inr (Raise x) end in
  if minutes c <? limit then inr (Return None)
  else if bool_decide (month c ∉ e_months e) then continue (retreat_month c)
  else if negb (day_matches e c) then continue (minus_day (replace_time 23 59 c))
  else if bool_decide (hour c ∉ e_hours e) then continue (minus_hour (replace_minute 59 c))
  else if bool_decide (minute c ∉ e_minutes e) then continue (minus_minute c)
  else inr (Return (Some c)).

(** [previous_or_equal] *)
Definition previous_or_equal (e : CronExpression) (dt : datetime) :
    option (outcome exn (option datetime)) :=
  let candidate := truncate dt in
  match plus_days_minutes (- (MAX_SEARCH_YEARS * 366)) candidate with
  | Raise x => Some (Raise x)
  | Return limit =>
      match iter_until (previous_step e limit) SEARCH_FUEL candidate with
      | inl _ => None
      | inr r => Some r
      end
  end.

Definition at_ (y m d h mi : Z) : datetime := mkDatetime y m d h mi 0 0.

Example next_leap :
  match parse_cron "0 0 29 2 *" with
  | Return e => next_after e (at_ 2025 1 1 0 0)
  | Raise _ => None
  end = Some (Return (at_ 2028 2 29 0 0)).
Proof. vm_compute. reflexivity. Qed.

Example next_impossible :
  match parse_cron "30 2 31 2 *" with
  | Return e => next_after e (at_ 2025 1 1 0 0)
  | Raise _ => None
  end = Some (Raise cron_error).
Proof. vm_compute. reflexivity. Qed.

(** ** What an expression means

    The grammar of a field and its meaning, independently of the parser. *)

Inductive part : Type :=
| Star
| Value (v : Z)
| Range (a b : Z)
| StarStep (s : Z)
| RangeStep (a b s : Z).

#[export] Instance part_eq_dec : EqDecision part.
Proof. solve_decision. Defined.

Definition render_part (p : part) : string :=
  match p with
  | Star => "*"
  | Value v => str v
  | Range a b => str a +:+ "-" +:+ str b
  | StarStep s => "*" +:+ "/" +:+ str s
  | RangeStep a b s => (str a +:+ "-" +:+ str b) +:+ "/" +:+ str s
  end.

Definition render_field (ps : list part) : string :=
  String.concat "," (render_part <$> ps).

Definition part_ok (low high : Z) (p : part) : Prop :=
  match p with
  | Star => True
  | Value v => low <= v <= high
  | Range a b => low <= a /\ a <= b /\ b <= high
  | StarStep s => 0 < s
  | RangeStep a b s => low <= a /\ a <= b /\ b <= high /\ 0 < s
  end.

(** [x] is a value of the part, in a field that starts at [low]. *)
Definition in_part (low x : Z) (p : part) : Prop :=
  match p with
  | Star => True
  | Value v => x = v
  | Range a b => a <= x <= b
  | StarStep s => (x - low) mod s = 0
  | RangeStep a b s => a <= x <= b /\ (x - a) mod s = 0
  end.

Definition in_field (low high : Z) (ps : list part) (x : Z) : Prop :=
  low <= x <= high /\ Exists (in_part low x) ps.

(** The characters of a rendered part. *)
Definition part_char (c : ascii) : bool :=
  is_digit c || Ascii.eqb c "*" || Ascii.eqb c "-" || Ascii.eqb c "/".

Lemma digit_part_char c : is_digit c = true -> part_char c = true.
Proof. unfold part_char. by intros ->. Qed.

Lemma str_free c n : is_digit c = false -> free_of c (str n) = true.
Proof. intros. apply digits_free_of; [done|apply str_digits]. Qed.

Lemma str_part_char n : string_forall part_char (str n) = true.
Proof. apply (string_forall_impl is_digit); [apply digit_part_char|apply str_digits]. Qed.

Lemma render_part_char p : string_forall part_char (render_part p) = true.
Proof.
  destruct p; cbn [render_part]; rewrite ?string_forall_app, ?str_part_char; done.
Qed.

Lemma part_char_props c : part_char c = true ->
  Ascii.eqb c "," = false /\ is_space c = false.
Proof.
  unfold part_char. intros H. apply orb_prop in H as [H|H];
    [apply orb_prop in H as [H|H]; [apply orb_prop in H as [H|H]|]|];
    [split; [by apply digit_neq|by apply digit_not_space]|..];
    apply Ascii.eqb_eq in H as ->; by split.
Qed.

Lemma append_nonempty_l a b : a <> ""%string -> String.eqb (a +:+ b) "" = false.
Proof. by destruct a. Qed.

(** A rendered part parses to the values it denotes. *)
Lemma parse_render_part p low high : 0 <= low <= high -> part_ok low high p ->
  exists vs, parse_part (render_part p) low high = Return vs /\
    forall x, x ∈ vs <-> low <= x <= high /\ in_part low x p.
Proof.
  intros Hl Hp. unfold parse_part.
  assert (forall a b, 0 <= a -> 0 <= b -> forall st, a <= b ->
    parse_bounds (str a +:+ "-" +:+ str b) low high st = Return (a, b)) as HR.
  { intros a b Ha Hb st Hab. unfold parse_bounds.
    rewrite free_of_neq; [|unfold free_of; rewrite !string_forall_app;
      change (string_forall (fun c => negb (Ascii.eqb c "*"))) with (free_of "*");
      by rewrite !str_free].
    change ("-" +:+ str b) with (String "-" (str b)).
    rewrite partition_app by by apply str_free. rewrite !int_of_str by done.
    by destruct (Z.ltb_spec b a); [lia|]. }
  assert (forall a b, free_of "/" (str a +:+ "-" +:+ str b) = true) as HF.
  { intros a b. unfold free_of. rewrite !string_forall_app.
    change (string_forall (fun c => negb (Ascii.eqb c "/"))) with (free_of "/").
    by rewrite !str_free. }
  assert (forall s, 0 < s -> parse_step (str s) = Return s) as HS.
  { intros s Hs. unfold parse_step.
    replace (String.eqb (str s) "") with false
      by (symmetry; apply String.eqb_neq, str_nonempty).
    rewrite int_of_str by lia. by destruct (Z.leb_spec s 0); [lia|]. }
  assert (forall a b, low <= a -> b <= high -> (a <? low) || (high <? b) = false) as HB.
  { intros a b Ha Hb. by destruct (Z.ltb_spec a low), (Z.ltb_spec high b); try lia. }
  destruct p as [|v|a b|s|a b s]; cbn [render_part part_ok in_part] in *.
  - eexists. split; [cbn; by rewrite HB by lia|]. intros x.
    rewrite elem_of_py_range by lia. rewrite Z.mod_1_r. lia.
  - eexists. split.
    + replace (String.eqb (str v) "") with false
        by (symmetry; apply String.eqb_neq, str_nonempty).
      rewrite partition_free by by apply str_free. unfold parse_bounds.
      rewrite free_of_neq by by apply str_free.
      rewrite partition_free by by apply str_free. rewrite int_of_str by lia.
      by rewrite HB by lia.
    + intros x. rewrite elem_of_py_range by lia. rewrite Z.mod_1_r. lia.
  - eexists. split.
    + rewrite append_nonempty_l by apply str_nonempty. rewrite partition_free by done.
      rewrite HR by lia. by rewrite HB by lia.
    + intros x. rewrite elem_of_py_range by lia. rewrite Z.mod_1_r. lia.
  - eexists. split.
    + change ("*" +:+ "/" +:+ str s) with ("*" +:+ String "/" (str s)).
      rewrite partition_app by done. cbn [String.eqb]. rewrite HS by done. cbn. by rewrite HB by lia.
    + intros x. rewrite elem_of_py_range by lia. lia.
  - eexists. split.
    + change ("/" +:+ str s) with (String "/" (str s)). rewrite partition_app by done.
      rewrite append_nonempty_l by (by destruct (str a) eqn:?; [destruct (str_nonempty a)|]).
      rewrite HS by lia. rewrite HR by lia. by rewrite HB by lia.
    + intros x. rewrite elem_of_py_range by lia. lia.
Qed.

Lemma parse_parts_spec ps low high values : 0 <= low <= high ->
  Forall (part_ok low high) ps ->
  exists vs, parse_parts (render_part <$> ps) low high values = Return vs /\
    forall x, x ∈ vs <-> x ∈ values \/ in_field low high ps x.
Proof.
  intros Hl H. revert values. induction H as [|p ps Hp H IH]; intros values.
  { exists values. split; [done|]. intros x. unfold in_field. rewrite Exists_nil. tauto. }
  destruct (parse_render_part p low high Hl Hp) as (vs & E & Hvs).
  destruct (IH (values ∪ list_to_set vs)) as (ws & E' & Hws).
  exists ws. cbn [fmap list_fmap parse_parts]. rewrite E. split; [exact E'|].
  intros x. rewrite Hws, elem_of_union, elem_of_list_to_set, Hvs. unfold in_field.
  rewrite Exists_cons. tauto.
Qed.

Lemma parse_render_field ps low high : 0 <= low <= high -> ps <> [] ->
  Forall (part_ok low high) ps ->
  exists vs, parse_field (render_field ps) low high = Return vs /\
    forall x, x ∈ vs <-> in_field low high ps x.
Proof.
  intros Hl Hne H. unfold parse_field, render_field. rewrite split_on_concat.
  - destruct (parse_parts_spec ps low high ∅ Hl H) as (vs & E & Hvs).
    exists vs. split; [done|]. intros x. rewrite Hvs. set_solver.
  - by destruct ps.
  - apply Forall_forall. intros w (p & -> & _)%list_elem_of_fmap.
    apply (string_forall_impl part_char); [|apply render_part_char].
    intros c Hc. by destruct (part_char_props c Hc) as [-> _].
Qed.

Lemma render_part_nonempty p : render_part p <> ""%string.
Proof.
  destruct p; cbn [render_part]; try apply str_nonempty; try done;
    apply String.eqb_neq, append_nonempty_l; try apply str_nonempty.
  by destruct (str a) eqn:E; [destruct (str_nonempty a)|].
Qed.

Lemma render_field_word ps : ps <> [] -> is_word (render_field ps) = true.
Proof.
  intros Hne. unfold is_word, render_field. apply andb_true_intro. split.
  - apply negb_true_iff. destruct ps as [|p [|q ps]]; [done| |].
    + apply String.eqb_neq, render_part_nonempty.
    + apply append_nonempty_l, render_part_nonempty.
  - apply string_forall_concat; [done|]. apply Forall_forall.
    intros w (p & -> & _)%list_elem_of_fmap.
    apply (string_forall_impl part_char); [|apply render_part_char].
    intros c Hc. by destruct (part_char_props c Hc) as [_ ->].
Qed.

(** A field restricts its dates unless it is exactly [*]. *)
Lemma render_field_star ps : ps <> [] ->
  String.eqb (render_field ps) "*" = bool_decide (ps = [Star]).
Proof.
  intros Hne. case_bool_decide as E; [by subst|].
  assert (forall n w, String.eqb (str n +:+ w) "*" = false) as Hstr.
  { intros n w. pose proof (str_digits n) as Hd. destruct (str n) as [|c s] eqn:Es;
      [by destruct (str_nonempty n)|]. cbn [string_forall] in Hd.
    apply andb_prop in Hd as [Hd _]. change (String c s +:+ w) with (String c (s +:+ w)).
    cbn [String.eqb]. by rewrite (digit_neq c "*"). }
  assert (forall n, String.eqb (str n) "*" = false) as Hstr'
    by (intros n; apply free_of_neq, str_free; done).
  destruct ps as [|p [|q ps]]; [done| |]; unfold render_field; cbn.
  - destruct p; try done; cbn [render_part]; try apply Hstr'; try apply Hstr.
    rewrite append_assoc. apply Hstr.
  - assert (forall w, w <> ""%string -> String.eqb ("*" +:+ w) "*" = false) as Hc
      by (intros w Hw; by destruct w).
    destruct p; cbn [render_part]; try apply Hstr; try (apply Hc; done);
      rewrite ?append_assoc; apply Hstr.
Qed.

(** The five fields. *)
Record cron_spec : Type := mkSpec {
  s_minutes : list part;
  s_hours : list part;
  s_days : list part;
  s_months : list part;
  s_weekdays : list part;
}.

Definition spec_ok (c : cron_spec) : Prop :=
  (s_minutes c <> [] /\ Forall (part_ok 0 59) (s_minutes c)) /\
  (s_hours c <> [] /\ Forall (part_ok 0 23) (s_hours c)) /\
  (s_days c <> [] /\ Forall (part_ok 1 31) (s_days c)) /\
  (s_months c <> [] /\ Forall (part_ok 1 12) (s_months c)) /\
  (s_weekdays c <> [] /\ Forall (part_ok 0 7) (s_weekdays c)).

Definition render_cron (c : cron_spec) : string :=
  String.concat " " [render_field (s_minutes c); render_field (s_hours c);
    render_field (s_days c); render_field (s_months c); render_field (s_weekdays c)].

(** Vixie cron: a day matches either of two restricted fields, and the only
    restricted one otherwise; 7 is another name of Sunday. *)
Definition on_weekday (c : cron_spec) (t : datetime) : Prop :=
  let dow := (weekday t + 1) mod 7 in
  in_field 0 7 (s_weekdays c) dow \/ (dow = 0 /\ in_field 0 7 (s_weekdays c) 7).

Definition on_day (c : cron_spec) (t : datetime) : Prop :=
  if decide (s_days c = [Star]) then
    if decide (s_weekdays c = [Star]) then True else on_weekday c t
  else if decide (s_weekdays c = [Star]) then in_field 1 31 (s_days c) (day t)
  else in_field 1 31 (s_days c) (day t) \/ on_weekday c t.

Definition denotes (c : cron_spec) (t : datetime) : Prop :=
  in_field 0 59 (s_minutes c) (minute t) /\ in_field 0 23 (s_hours c) (hour t) /\
  in_field 1 12 (s_months c) (month t) /\ on_day c t.

(** C17 The parser reads every well-formed expression, and the parsed expression
    matches exactly the datetimes the expression denotes under the rules of
    Vixie cron. *)
Theorem cron_parses_what_it_denotes (c : cron_spec) (Hc : spec_ok c) :
  exists e, parse_cron (render_cron c) = Return e /\
    forall t, cron_matches e t = true <-> denotes c t.
Proof.
  destruct Hc as ((N0 & H0) & (N1 & H1) & (N2 & H2) & (N3 & H3) & (N4 & H4)).
  unfold parse_cron, render_cron.
  rewrite words_concat by (repeat constructor; by apply render_field_word).
  destruct (parse_render_field _ 0 59 ltac:(lia) N0 H0) as (v0 & -> & V0).
  destruct (parse_render_field _ 0 23 ltac:(lia) N1 H1) as (v1 & -> & V1).
  destruct (parse_render_field _ 1 31 ltac:(lia) N2 H2) as (v2 & -> & V2).
  destruct (parse_render_field _ 1 12 ltac:(lia) N3 H3) as (v3 & -> & V3).
  destruct (parse_render_field _ 0 SUNDAY_ALIAS ltac:(unfold SUNDAY_ALIAS; lia) N4 H4)
    as (v4 & -> & V4).
  rewrite !render_field_star by done. eexists. split; [reflexivity|].
  intros t. unfold cron_matches, day_matches. cbn.
  assert ((weekday t + 1) mod 7 ∈ set_map (C:=gset Z) (D:=gset Z)
    (fun d => if d =? SUNDAY_ALIAS then 0 else d) v4 <-> on_weekday c t) as HW.
  { rewrite elem_of_map. unfold on_weekday. cbn zeta.
    assert (0 <= (weekday t + 1) mod 7 < 7) by (apply Z.mod_pos_bound; lia).
    unfold SUNDAY_ALIAS in *. setoid_rewrite V4. split.
    - intros (d & E & Hd). rewrite E. destruct (Z.eqb_spec d 7) as [E7|]; [|by left].
      right. split; [done|]. rewrite E7 in Hd. exact Hd.
    - intros [Hd|[E Hd]].
      + exists ((weekday t + 1) mod 7). split; [|done].
        by destruct (Z.eqb_spec ((weekday t + 1) mod 7) 7); [lia|].
      + by exists 7. }
  unfold denotes, on_day. rewrite !andb_true_iff, !bool_decide_eq_true, V0, V1, V3.
  destruct (decide (s_days c = [Star])), (decide (s_weekdays c = [Star]));
    rewrite ?(bool_decide_eq_true_2 (s_days c = _)), ?(bool_decide_eq_false_2 (s_days c = _)),
      ?(bool_decide_eq_true_2 (s_weekdays c = _)), ?(bool_decide_eq_false_2 (s_weekdays c = _))
      by done;
    cbn [negb andb]; rewrite ?orb_true_iff, ?bool_decide_eq_true, ?V2, ?HW; tauto.
Qed.

(** ** The searches are exact *)

(** No minute from [a] on and before [b] matches. *)
Definition none_in (e : CronExpression) (a b : Z) : Prop :=
  forall u, valid u -> a <= minutes u < b -> cron_matches e u = false.

Lemma none_in_empty e a b : b <= a -> none_in e a b.
Proof. intros H u _ Hu. lia. Qed.

Lemma none_in_app e a b c : none_in e a b -> none_in e b c -> none_in e a c.
Proof.
  intros H1 H2 u Hv Hu. destruct (decide (minutes u < b)); [apply H1|apply H2]; auto; lia.
Qed.

Lemma none_in_weaken e a b a' b' : none_in e a b -> a <= a' -> b' <= b -> none_in e a' b'.
Proof. intros H ? ? u Hv Hu. apply H; [done|lia]. Qed.

Lemma day_matches_same e u c :
  year u = year c -> month u = month c -> day u = day c ->
  day_matches e u = day_matches e c.
Proof.
  intros E1 E2 E3. unfold day_matches, weekday, toordinal. by rewrite E1, E2, E3.
Qed.

(** The intervals a search skips: the month, the day, the hour or the minute
    of a candidate that fails the matching test. *)
Section Skips.
Context (e : CronExpression) (c : datetime) (Hc : valid c).

Lemma skip_month : month c ∉ e_months e ->
  none_in e (ymd2ord (year c) (month c) 1 * 1440)
    ((ymd2ord (year c) (month c) 1 + days_in_month (year c) (month c)) * 1440).
Proof.
  intros H u Hu Hm. destruct (same_month c u Hc Hu Hm) as [_ E].
  unfold cron_matches. by rewrite E, bool_decide_eq_false_2.
Qed.

Lemma skip_day : day_matches e c = false ->
  none_in e (toordinal c * 1440) (toordinal c * 1440 + 1440).
Proof.
  intros H u Hu Hm. destruct (same_day c u Hc Hu Hm) as (E1 & E2 & E3).
  unfold cron_matches. rewrite (day_matches_same e u c) by done. by rewrite H, andb_false_r.
Qed.

Lemma skip_hour : hour c ∉ e_hours e ->
  none_in e (toordinal c * 1440 + hour c * 60) (toordinal c * 1440 + hour c * 60 + 60).
Proof.
  intros H u Hu Hm. destruct (same_hour c u Hc Hu Hm) as (_ & _ & _ & E).
  unfold cron_matches. rewrite E, (bool_decide_eq_false_2 (hour c ∈ _)) by done.
  by rewrite andb_false_r.
Qed.

Lemma skip_minute : minute c ∉ e_minutes e -> none_in e (minutes c) (minutes c + 1).
Proof.
  intros H u Hu Hm. destruct (minutes_inj u c Hu Hc ltac:(lia)) as (_ & _ & _ & _ & E).
  unfold cron_matches. rewrite E, (bool_decide_eq_false_2 (minute c ∈ _)) by done.
  by rewrite andb_false_r.
Qed.

(** Where a candidate lies in its month, its day and its hour. *)
Lemma month_bounds :
  ymd2ord (year c) (month c) 1 * 1440 <= minutes c <
  (ymd2ord (year c) (month c) 1 + days_in_month (year c) (month c)) * 1440.
Proof.
  destruct Hc as (_ & _ & ? & ? & ? & _). unfold minutes, toordinal, ymd2ord. lia.
Qed.

Lemma day_bounds : toordinal c * 1440 <= minutes c < toordinal c * 1440 + 1440.
Proof. destruct Hc as (_ & _ & ? & ? & ? & _). unfold minutes. lia. Qed.

Lemma hour_bounds : toordinal c * 1440 + hour c * 60 <= minutes c <
  toordinal c * 1440 + hour c * 60 + 60.
Proof. destruct Hc as (_ & _ & ? & ? & ? & _). unfold minutes. lia. Qed.
End Skips.

Lemma advance_month_moved c : valid c -> year c < MAXYEAR ->
  exists u, advance_month c = Return u /\ valid u /\ second u = second c /\
    fold u = fold c /\
    minutes u =
      (ymd2ord (year c) (month c) 1 + days_in_month (year c) (month c)) * 1440.
Proof.
  intros (Hy & Hm & Hd & Hh & Hmi & [Hs1 Hs2] & Hf) Hy'. unfold advance_month.
  destruct (Z.eqb_spec (month c) 12) as [E|E].
  - destruct (Z.ltb_spec (year c) MAXYEAR); [|lia].
    eexists. split; [reflexivity|]. pose proof (days_in_month_range (year c + 1) 1).
    pose proof (days_in_year (year c)). rewrite E. unfold valid, minutes, toordinal, ymd2ord.
    cbn [year month day hour minute second fold replace_date replace_time].
    rewrite days_before_year_succ, days_before_month_1. split_and!; try done; lia.
  - eexists. split; [reflexivity|]. pose proof (days_in_month_range (year c) (month c + 1)).
    unfold valid, minutes, toordinal, ymd2ord.
    cbn [year month day hour minute second fold replace_date replace_time].
    rewrite days_before_month_succ by lia. split_and!; try done; lia.
Qed.

Lemma retreat_month_moved c : valid c -> 1 < year c ->
  exists u, retreat_month c = Return u /\ valid u /\ second u = second c /\
    minutes u = ymd2ord (year c) (month c) 1 * 1440 - 1.
Proof.
  intros (Hy & Hm & Hd & Hh & Hmi & [Hs1 Hs2] & Hf) Hy'. unfold retreat_month.
  pose proof (days_in_month_range (year c) (month c)).
  destruct (minus_minute_moved (replace_date (year c) (month c) 1 (replace_time 0 0 c)))
    as (u & E & V & M & S & _); [|done|].
  { unfold valid. cbn [year month day hour minute second fold replace_date replace_time].
    split_and!; try done; lia. }
  exists u. split_and!; [done..|]. rewrite M. unfold minutes, toordinal.
  cbn [year month day hour minute second fold replace_date replace_time]. lia.
Qed.

(** What the loop of [next_after] keeps about its candidate. *)
Record next_ok (e : CronExpression) (start : datetime) (c : datetime) : Prop := {
  no_valid : valid c;
  no_second : second c = 0%Q;
  no_fold : fold c = 0;
  no_ge : minutes start <= minutes c;
  no_near : minutes c <= minutes start + 1830 * 1440 + 44640;
  no_none : none_in e (minutes start) (minutes c);
}.

Definition next_result (e : CronExpression) (start : datetime)
    (r : outcome exn datetime) : Prop :=
  match r with
  | Return r => valid r /\ second r = 0%Q /\ fold r = 0 /\ cron_matches e r = true /\
      minutes start <= minutes r /\ none_in e (minutes start) (minutes r)
  | Raise x => x = cron_error /\
      none_in e (minutes start) (minutes start + 1830 * 1440 + 1)
  end.

Lemma none_extend e s a b lo : none_in e s a -> none_in e lo b -> lo <= a -> none_in e s b.
Proof.
  intros H1 H2 Hlo. apply none_in_app with a; [done|]. by apply (none_in_weaken _ _ _ _ _ H2).
Qed.

Lemma next_step_ok e start limit c :
  valid start -> year start <= 9991 -> limit = minutes start + 1830 * 1440 ->
  next_ok e start c ->
  match next_step e limit c with
  | inl c' => next_ok e start c' /\ minutes c + 1 <= minutes c'
  | inr r => next_result e start r
  end.
Proof.
  intros Hs Hy -> [Hv Hsec Hfold Hge Hnear Hnone]. unfold next_step.
  assert (year c < MAXYEAR) as Hyc.
  { pose proof (years_apart start c 6 Hs Hv ltac:(lia) ltac:(lia)). unfold MAXYEAR. lia. }
  destruct (Z.ltb_spec (minutes start + 1830 * 1440) (minutes c)) as [L|L].
  { split; [done|]. apply (none_in_weaken _ _ _ _ _ Hnone); lia. }
  pose proof (month_bounds c Hv). pose proof (day_bounds c Hv). pose proof (hour_bounds c Hv).
  pose proof (days_in_month_range (year c) (month c)).
  pose proof Hv as (_ & _ & _ & Hh & Hmi & _).
  case_bool_decide as E1.
  { destruct (advance_month_moved c Hv Hyc) as (u & -> & Vu & Su & Fu & Mu).
    pose proof (none_extend _ _ _ _ _ Hnone (skip_month e c Hv E1) ltac:(lia)).
    split; [|lia]. split; try congruence; try lia. by rewrite Mu. }
  destruct (day_matches e c) eqn:E2; cbn [negb].
  2:{ destruct (valid_replace 0 0 c Hv ltac:(lia) ltac:(lia)) as [V0 M0].
      destruct (plus_day_moved _ V0 Hyc) as (u & -> & (Vu & Mu & Su & Fu) & _).
      rewrite M0 in Mu. change (second u = second c) in Su.
      pose proof (none_extend _ _ _ _ _ Hnone (skip_day e c Hv E2) ltac:(lia)) as Hn.
      split; [|lia]. split; try congruence; try lia. apply (none_in_weaken _ _ _ _ _ Hn); lia. }
  case_bool_decide as E3.
  { destruct (valid_replace (hour c) 0 c Hv ltac:(lia) ltac:(lia)) as [V0 M0].
    change (replace_minute 0 c) with (replace_time (hour c) 0 c).
    destruct (plus_hour_moved _ V0 Hyc) as (u & -> & (Vu & Mu & Su & Fu) & _).
    rewrite M0 in Mu. change (second u = second c) in Su.
    pose proof (none_extend _ _ _ _ _ Hnone (skip_hour e c Hv E3) ltac:(lia)) as Hn.
    split; [|lia]. split; try congruence; try lia. apply (none_in_weaken _ _ _ _ _ Hn); lia. }
  case_bool_decide as E4.
  { destruct (plus_minute_moved c Hv Hyc) as (u & -> & (Vu & Mu & Su & Fu)).
    pose proof (none_extend _ _ _ _ _ Hnone (skip_minute e c Hv E4) ltac:(lia)) as Hn.
    split; [|lia]. split; try congruence; try lia. by rewrite Mu. }
  unfold next_result, cron_matches.
  rewrite E2, !bool_decide_eq_true_2 by done. by split_and!.
Qed.

(** [dt + timedelta(minutes=1)] and the two bounds do not overflow away from
    the first and the last years. *)
Lemma valid_truncate t : valid t -> valid (truncate t).
Proof. unfold valid. cbn. intros. repeat split; try tauto; lra. Qed.

Lemma limit_in_range n t : valid t -> 7 <= year t <= 9991 -> Z.abs n <= 1830 ->
  plus_days_minutes n t = Return (minutes t + n * 1440).
Proof.
  intros Hv Hy Hn. unfold plus_days_minutes.
  pose proof (minutes_in_year t Hv) as H. pose proof Hv as (_ & _ & _ & Hh & Hmi & _).
  unfold minutes in H at 1 2.
  pose proof (days_before_year_le (year t + 1) 9992 ltac:(lia)).
  pose proof (days_before_year_le 7 (year t) ltac:(lia)).
  assert (days_before_year 9992 = 3649137) by (vm_compute; done).
  assert (days_before_year 7 = 2191) by (vm_compute; done).
  unfold MAXORDINAL.
  destruct (Z.ltb_spec 0 (toordinal t + n)), (Z.leb_spec (toordinal t + n) 3652059);
    simpl; try done; lia.
Qed.

(** The whole search, from the first candidate on. *)
Lemma next_after_result e dt : valid dt -> 7 <= year dt <= 9990 ->
  exists start, minutes start = minutes dt + 1 /\
    match next_after e dt with None => False | Some r => next_result e start r end.
Proof.
  intros Hdt Hyear. unfold next_after.
  destruct (plus_minute_moved (truncate dt) (valid_truncate dt Hdt))
    as (start & -> & Vs & Ms & Ss & Fs); [cbn; unfold MAXYEAR; lia|].
  change (minutes (truncate dt)) with (minutes dt) in Ms.
  change (second (truncate dt)) with 0%Q in Ss.
  pose proof (years_apart dt start 1 Hdt Vs ltac:(lia) ltac:(lia)).
  pose proof (years_apart start dt 0 Vs Hdt ltac:(lia) ltac:(lia)).
  rewrite limit_in_range by (auto; unfold MAX_SEARCH_YEARS; lia).
  pose proof (iter_until_spec (next_step e (minutes start + MAX_SEARCH_YEARS * 366 * 1440))
    (next_ok e start) (next_result e start) minutes) as Hspec.
  specialize (Hspec ltac:(intros c Hc; apply next_step_ok; auto; lia) SEARCH_FUEL start).
  assert (next_ok e start start) as Hok
    by (split; try done; try lia; by apply none_in_empty).
  specialize (Hspec Hok). exists start. split; [done|].
  destruct (iter_until _ SEARCH_FUEL start) as [c|r]; [|done].
  destruct Hspec as [[_ _ _ _ Hn _] Hm].
  change (2 ^ Z.of_nat SEARCH_FUEL) with 4194304 in Hm. lia.
Qed.

(** C14 [next_after] is exact: it returns the first whole minute strictly after
    [dt] that matches the expression, and raises [CronError] only when no
    minute of the next 1830 days matches.  The loop always ends within its
    fuel. *)
Theorem next_after_exact (e : CronExpression) (dt : datetime)
    (Hdt : valid dt) (Hyear : 7 <= year dt <= 9990) :
  match next_after e dt with
  | None => False
  | Some (Return r) =>
      valid r /\ second r = 0%Q /\ fold r = 0 /\ cron_matches e r = true /\
      minutes dt < minutes r /\
      (forall u, valid u -> minutes dt < minutes u -> cron_matches e u = true ->
         minutes r <= minutes u)
  | Some (Raise x) =>
      x = cron_error /\
      (forall u, valid u -> minutes dt < minutes u <= minutes dt + 1830 * 1440 ->
         cron_matches e u = false)
  end.
Proof.
  destruct (next_after_result e dt Hdt Hyear) as (start & Ms & Hr).
  destruct (next_after e dt) as [[r|x]|]; [| |done].
  - destruct Hr as (? & ? & ? & ? & ? & Hn). split_and!; try done; [lia|].
    intros u Hu Hlt Hmu. destruct (Z.le_gt_cases (minutes r) (minutes u)); [done|].
    rewrite (Hn u Hu) in Hmu by lia. done.
  - destruct Hr as (-> & Hn). split; [done|]. intros u Hu Hlt. apply Hn; [done|lia].
Qed.

(** What the loop of [previous_or_equal] keeps about its candidate. *)
Record previous_ok (e : CronExpression) (start : datetime) (c : datetime) : Prop := {
  po_valid : valid c;
  po_second : second c = 0%Q;
  po_le : minutes c <= minutes start;
  po_near : minutes start - 1830 * 1440 - 44640 <= minutes c;
  po_none : none_in e (minutes c + 1) (minutes start + 1);
}.

Definition previous_result (e : CronExpression) (start : datetime)
    (r : outcome exn (option datetime)) : Prop :=
  match r with
  | Return (Some r) => valid r /\ second r = 0%Q /\ cron_matches e r = true /\
      minutes r <= minutes start /\ none_in e (minutes r + 1) (minutes start + 1)
  | Return None => none_in e (minutes start - 1830 * 1440) (minutes start + 1)
  | Raise _ => False
  end.

Lemma none_extend_left e a b hi s : none_in e (b + 1) s -> none_in e a hi -> b + 1 <= hi ->
  none_in e a s.
Proof.
  intros H1 H2 Hb. apply none_in_app with hi; [done|]. by apply (none_in_weaken _ _ _ _ _ H1).
Qed.

Lemma previous_step_ok e start limit c :
  valid start -> 8 <= year start -> limit = minutes start - 1830 * 1440 ->
  previous_ok e start c ->
  match previous_step e limit c with
  | inl c' => previous_ok e start c' /\ - minutes c + 1 <= - minutes c'
  | inr r => previous_result e start r
  end.
Proof.
  intros Hs Hy -> [Hv Hsec Hle Hnear Hnone]. unfold previous_step.
  assert (1 < year c) as Hyc.
  { pose proof (proj1 Hv). destruct (decide (year c = 1)) as [E|]; [|lia].
    pose proof (minutes_in_year c Hv). pose proof (minutes_in_year start Hs).
    pose proof (days_before_year_le 8 (year start) Hy). rewrite E in *.
    assert (days_before_year (1 + 1) = 365) by done.
    assert (days_before_year 8 = 2556) by done. lia. }
  destruct (Z.ltb_spec (minutes c) (minutes start - 1830 * 1440)) as [L|L].
  { apply (none_in_weaken _ _ _ _ _ Hnone); lia. }
  pose proof (month_bounds c Hv). pose proof (day_bounds c Hv). pose proof (hour_bounds c Hv).
  pose proof (days_in_month_range (year c) (month c)).
  pose proof Hv as (_ & _ & _ & Hh & Hmi & _).
  case_bool_decide as E1.
  { destruct (retreat_month_moved c Hv Hyc) as (u & -> & Vu & Su & Mu).
    pose proof (none_extend_left _ _ _ _ _ Hnone (skip_month e c Hv E1) ltac:(lia)) as Hn.
    split; [|lia]. split; try congruence; try lia. apply (none_in_weaken _ _ _ _ _ Hn); lia. }
  destruct (day_matches e c) eqn:E2; cbn [negb].
  2:{ destruct (valid_replace 23 59 c Hv ltac:(lia) ltac:(lia)) as [V0 M0].
      destruct (minus_day_moved _ V0 Hyc) as (u & -> & (Vu & Mu & Su & Fu) & _).
      rewrite M0 in Mu. change (second u = second c) in Su.
      pose proof (none_extend_left _ _ _ _ _ Hnone (skip_day e c Hv E2) ltac:(lia)) as Hn.
      split; [|lia]. split; try congruence; try lia. apply (none_in_weaken _ _ _ _ _ Hn); lia. }
  case_bool_decide as E3.
  { destruct (valid_replace (hour c) 59 c Hv ltac:(lia) ltac:(lia)) as [V0 M0].
    change (replace_minute 59 c) with (replace_time (hour c) 59 c).
    destruct (minus_hour_moved _ V0 Hyc) as (u & -> & (Vu & Mu & Su & Fu) & _).
    rewrite M0 in Mu. change (second u = second c) in Su.
    pose proof (none_extend_left _ _ _ _ _ Hnone (skip_hour e c Hv E3) ltac:(lia)) as Hn.
    split; [|lia]. split; try congruence; try lia. apply (none_in_weaken _ _ _ _ _ Hn); lia. }
  case_bool_decide as E4.
  { destruct (minus_minute_moved c Hv Hyc) as (u & -> & (Vu & Mu & Su & Fu)).
    pose proof (none_extend_left _ _ _ _ _ Hnone (skip_minute e c Hv E4) ltac:(lia)) as Hn.
    split; [|lia]. split; try congruence; try lia. apply (none_in_weaken _ _ _ _ _ Hn); lia. }
  unfold previous_result, cron_matches. rewrite E2, !bool_decide_eq_true_2 by done.
  by split_and!.
Qed.

(** The whole search. *)
Lemma previous_or_equal_result e dt : valid dt -> 8 <= year dt <= 9991 ->
  match previous_or_equal e dt with
  | None => False
  | Some r => previous_result e (truncate dt) r
  end.
Proof.
  intros Hdt Hyear. unfold previous_or_equal. pose proof (valid_truncate dt Hdt) as Vs.
  rewrite limit_in_range by (auto; unfold MAX_SEARCH_YEARS; cbn [truncate year]; lia).
  change (minutes (truncate dt)) with (minutes dt).
  pose proof (iter_until_spec
    (previous_step e (minutes dt + - (MAX_SEARCH_YEARS * 366) * 1440))
    (previous_ok e (truncate dt)) (previous_result e (truncate dt)) (fun c => - minutes c))
    as Hspec.
  specialize (Hspec ltac:(intros c Hc; apply (previous_step_ok e (truncate dt));
    first [done|cbn [truncate year]; lia|
           change (minutes (truncate dt)) with (minutes dt); unfold MAX_SEARCH_YEARS; lia])
    SEARCH_FUEL (truncate dt)).
  assert (previous_ok e (truncate dt) (truncate dt)) as H0.
  { split; try done; try lia. by apply none_in_empty. }
  specialize (Hspec H0).
  destruct (iter_until _ SEARCH_FUEL (truncate dt)) as [c|r]; [|done].
  destruct Hspec as [[_ _ _ Hn _] Hm]. change (2 ^ Z.of_nat SEARCH_FUEL) with 4194304 in Hm.
  change (minutes (truncate dt)) with (minutes dt) in Hn, Hm. lia.
Qed.

(** [previous_or_equal] is exact: it returns the last whole minute at or
    before [dt] that matches the expression, and [None] only when no minute of
    the past 1830 days matches.  The loop always ends within its fuel. *)
Lemma previous_or_equal_exact (e : CronExpression) (dt : datetime)
    (Hdt : valid dt) (Hyear : 8 <= year dt <= 9991) :
  match previous_or_equal e dt with
  | Some (Return (Some r)) =>
      valid r /\ second r = 0%Q /\ cron_matches e r = true /\
      minutes r <= minutes dt /\
      (forall u, valid u -> minutes u <= minutes dt -> cron_matches e u = true ->
         minutes u <= minutes r)
  | Some (Return None) =>
      forall u, valid u -> minutes dt - 1830 * 1440 <= minutes u <= minutes dt ->
        cron_matches e u = false
  | _ => False
  end.
Proof.
  pose proof (previous_or_equal_result e dt Hdt Hyear) as Hr. unfold previous_result in Hr.
  change (minutes (truncate dt)) with (minutes dt) in Hr.
  destruct (previous_or_equal e dt) as [[[r|]|x]|]; [| |done..].
  - destruct Hr as (? & ? & ? & ? & Hn). split_and!; try done.
    intros u Hu Hlt Hmu. destruct (Z.le_gt_cases (minutes u) (minutes r)); [done|].
    rewrite (Hn u Hu) in Hmu by lia. done.
  - intros u Hu Hlt. apply Hr; [done|lia].
Qed.

Lemma cron_parses_what_it_denotes_witness :
  let c := mkSpec [RangeStep 0 59 15] [Range 9 17; Value 20] [Value 1] [StarStep 3]
             [Range 5 7] in
  render_cron c = "0-59/15 9-17,20 1 */3 5-7"%string /\ spec_ok c /\
  exists e, parse_cron (render_cron c) = Return e /\
    forall t, cron_matches e t = true <-> denotes c t.
Proof.
  set (c := mkSpec _ _ _ _ _).
  assert (spec_ok c) as Hc
    by (unfold spec_ok; cbn; repeat split; try done; repeat constructor; cbn; lia).
  split; [vm_compute; reflexivity|]. split; [exact Hc|].
  exact (cron_parses_what_it_denotes c Hc).
Defined.

Definition every_minutes (n : Z) : CronExpression :=
  match parse_cron ("*/" +:+ str n +:+ " * * * *") with
  | Return e => e
  | Raise _ => mkCron ∅ ∅ ∅ ∅ ∅ false false
  end.

Lemma valid_at y m d h mi : 1 <= y <= MAXYEAR -> 1 <= m <= 12 -> 1 <= d <= 28 ->
  0 <= h < 24 -> 0 <= mi < 60 -> valid (at_ y m d h mi).
Proof.
  intros. unfold valid, at_. cbn [year month day hour minute second fold].
  pose proof (days_in_month_range y m). split_and!; try lia; by vm_compute.
Qed.

Lemma next_after_exact_witness :
  let e := every_minutes 15 in
  let dt := at_ 2025 2 28 23 50 in
  (valid dt /\ 7 <= year dt <= 9990) /\
  next_after e dt = Some (Return (at_ 2025 3 1 0 0)) /\
  match next_after e dt with
  | None => False
  | Some (Return r) =>
      valid r /\ second r = 0%Q /\ fold r = 0 /\ cron_matches e r = true /\
      minutes dt < minutes r /\
      (forall u, valid u -> minutes dt < minutes u -> cron_matches e u = true ->
         minutes r <= minutes u)
  | Some (Raise x) =>
      x = cron_error /\
      (forall u, valid u -> minutes dt < minutes u <= minutes dt + 1830 * 1440 ->
         cron_matches e u = false)
  end.
Proof.
  intros e dt. assert (valid dt) as Hv by (apply valid_at; unfold MAXYEAR; lia).
  assert (7 <= year dt <= 9990) as Hy by (cbn; lia).
  split; [done|]. split; [vm_compute; reflexivity|]. exact (next_after_exact e dt Hv Hy).
Defined.

Lemma previous_or_equal_exact_witness :
  let e := every_minutes 15 in
  let dt := at_ 2025 3 1 0 14 in
  (valid dt /\ 8 <= year dt <= 9991) /\
  previous_or_equal e dt = Some (Return (Some (at_ 2025 3 1 0 0))) /\
  match previous_or_equal e dt with
  | Some (Return (Some r)) =>
      valid r /\ second r = 0%Q /\ cron_matches e r = true /\
      minutes r <= minutes dt /\
      (forall u, valid u -> minutes u <= minutes dt -> cron_matches e u = true ->
         minutes u <= minutes r)
  | Some (Return None) =>
      forall u, valid u -> minutes dt - 1830 * 1440 <= minutes u <= minutes dt ->
        cron_matches e u = false
  | _ => False
  end.
Proof.
  intros e dt. assert (valid dt) as Hv by (apply valid_at; unfold MAXYEAR; lia).
  assert (8 <= year dt <= 9991) as Hy by (cbn; lia).
  split; [done|]. split; [vm_compute; reflexivity|]. exact (previous_or_equal_exact e dt Hv Hy).
Defined.

(** The bound of five years misses a leap day when a century year is not a
    leap year: after 2096-02-29 the schedule [0 0 29 2 *] is reported
    impossible although 2104-02-29 matches it. *)
Lemma leap_day_schedule_rejected :
  match parse_cron "0 0 29 2 *" with
  | Return e =>
      next_after e (at_ 2096 2 29 0 0) = Some (Raise cron_error) /\
      cron_matches e (at_ 2104 2 29 0 0) = true
  | Raise _ => False
  end.
Proof. vm_compute. by split. Qed.
