(* ===== verification/CronTask.v ===== *)
(** * Cron tasks

    [CronTask] of [task/_cron.py]: one tick, its pieces between two [await]s,
    the guard around it and one turn of the loop.  The time zone is the
    argument [utcoffset] (what the zone says of a wall clock and its [fold]),
    the schedule backend a class, [ScheduleBackend], of which
    [MemoryScheduleAdapter] is an instance; what the body and the [sync]
    primitive do in a fire is the argument [fire_env].

    The theorems: a fire is run at most once however the ticks of the workers
    interleave; what one tick does in each case; what it reports; how long the
    loop sleeps, in a zone of constant offset and in the hour a zone repeats.

    Logging and the duration and gauge metrics are not modelled; the points of
    [grelmicro.task.runs] are. *)

From S2P Require Import Prelude Errors CoordinationMemory PyStr Calendar Cron.
From Stdlib Require Import Ascii String Sorted.

Local Open Scope Z_scope.

(** [FireOutcome] *)
Inductive FireOutcome : Type :=
| SUCCESS | ERROR | SKIPPED | MISSED | COORDINATION_ERROR.

#[export] Instance FireOutcome_eq_dec : EqDecision FireOutcome.
Proof. solve_decision. Defined.

(** [FireInfo], without the measured duration. *)
Record FireInfo : Type := mkFire { fi_started_at : datetime; fi_outcome : FireOutcome }.

(** ** The schedule backend

    What a backend promises: [claim] is an atomic compare-and-set on the last
    fired instant of a schedule.  A call that raises may or may not have taken
    effect. *)
Class ScheduleBackend (B : Type) := {
  sb_stored : B -> string -> option Q;
  sb_claim : string -> Q -> B -> outcome exn bool * B;
  sb_last_fired : string -> B -> outcome exn (option Q) * B;
  sb_claim_other : forall name due b name', name' <> name ->
    sb_stored (sb_claim name due b).2 name' = sb_stored b name';
  sb_claim_law : forall name due b,
    let '(r, b') := sb_claim name due b in
    let later := forall d, sb_stored b name = Some d -> (d < due)%Q in
    match r with
    | Return true => later /\ sb_stored b' name = Some due
    | Return false => (exists d, sb_stored b name = Some d /\ (due <= d)%Q) /\
        sb_stored b' name = sb_stored b name
    | Raise _ => sb_stored b' name = sb_stored b name \/
        (later /\ sb_stored b' name = Some due)
    end;
  sb_last_fired_law : forall name b,
    let '(r, b') := sb_last_fired name b in
    (forall n, sb_stored b' n = sb_stored b n) /\
    forall d, r = Return d -> d = sb_stored b name;
}.

(** [MemoryScheduleAdapter] never raises. *)
Local Obligation Tactic := idtac.

#[export] Program Instance memory_schedule : ScheduleBackend Schedules := {
  sb_stored b name := b !! name;
  sb_claim name due b := let '(won, b') := claim name due b in (Return won, b');
  sb_last_fired name b := (Return (schedule_last_fired name b), b);
}.
Next Obligation.
  cbn. intros name due b name' Hne. unfold claim.
  destruct (b !! name); [destruct (Qle_bool due q)|]; cbn; try done;
    by rewrite lookup_insert_ne by done.
Qed.
Next Obligation.
  intros name due b. unfold claim. destruct (b !! name) as [d|] eqn:E.
  - destruct (Qle_bool_spec due d) as [L|L].
    + split; [by exists d|]. done.
    + split; [by intros ? [= <-]|]. by rewrite lookup_insert_eq.
  - split; [done|]. by rewrite lookup_insert_eq.
Qed.
Next Obligation. intros name b. split; [done|]. by intros d [= <-]. Qed.

(** ** The task *)

(** The attributes a tick changes, and the points of [grelmicro.task.runs] it
    emitted, oldest first. *)
Record TaskState : Type := mkTask {
  last_fire : option FireInfo;
  body_started : bool;
  runs : list FireOutcome;
}.

(** What the application does in one fire: the body, and the [sync] primitive
    around it if there is one. *)
Record fire_env : Type := mkEnv {
  sync : option (outcome exn unit * outcome exn unit);
  body : outcome exn unit;
  run_now : datetime;
}.

Definition is_would_block (e : exn) : bool := isinstance e WouldBlockError.
Definition is_not_owned (e : exn) : bool := isinstance e LockNotOwnedError.

(** [_report_unrun_fire] and the assignment of its result to [_last_fire]. *)
Definition report_unrun_fire (started_at : datetime) (o : FireOutcome) (t : TaskState) :
    TaskState :=
  mkTask (Some (mkFire started_at o)) (body_started t) (runs t ++ [o]).

(** [_run_body]: an [Exception] of the body is logged and swallowed, anything
    else leaves through the [finally]. *)
Definition run_body (v : fire_env) (t : TaskState) : outcome exn unit * TaskState :=
  let fire o := Some (mkFire (run_now v) o) in
  match body v with
  | Return _ => (Return tt, mkTask (fire SUCCESS) true (runs t ++ [SUCCESS]))
  | Raise e =>
      if is_exception e then (Return tt, mkTask (fire ERROR) true (runs t ++ [ERROR]))
      else (Raise e, mkTask (fire ERROR) true (runs t))
  end.

(** [async with self._sync] of [_run], if there is a [sync]: entering it, which may
    wait or refuse, and leaving it. *)
Definition enter_sync (v : fire_env) : outcome exn unit :=
  match sync v with None => Return tt | Some (enter, _) => enter end.
Definition leave_sync (v : fire_env) (r : outcome exn unit) : outcome exn unit :=
  match sync v with Some (_, Raise e) => Raise e | _ => r end.

(** [_run] *)
Definition run_ (v : fire_env) (t : TaskState) : outcome exn unit * TaskState :=
  match enter_sync v with
  | Raise e => (Raise e, t)
  | Return _ => let '(r, t) := run_body v t in (leave_sync v r, t)
  end.

(** The [try] of [_claim_and_run]: a [sync] that refuses loses the claimed fire. *)
Definition run_claimed (now : datetime) (v : fire_env) (t : TaskState) :
    outcome exn unit * TaskState :=
  match run_ v t with
  | (Raise e, t) =>
      if is_would_block e then (Return tt, report_unrun_fire now MISSED t) else (Raise e, t)
  | (Return _, t) => (Return tt, t)
  end.

Section Tick.
Context {B : Type} `{ScheduleBackend B}.
Context (name : string) (expr : CronExpression) (misfire_grace_seconds : option Q)
  (utcoffset : datetime -> Q).

(** [datetime.timestamp()] *)
Definition EPOCH : Z := ymd2ord 1970 1 1 * 1440.
Definition timestamp (t : datetime) : Q :=
  (inject_Z ((minutes t - EPOCH) * 60) + second t - utcoffset t)%Q.

(** What a tick does after it has read the last fired instant. *)
Inductive plan : Type :=
| PlanDone
| PlanBaseline (due : Q)
| PlanLate (due : Q)
| PlanClaim (due : Q).

(** [due]; [previous_or_equal_exact] excludes the exhausted fuel. *)
Definition tick_due (now : datetime) : outcome exn (option Q) :=
  match previous_or_equal expr now with
  | Some (Return (Some d)) => Return (Some (timestamp d))
  | Some (Return None) | None => Return None
  | Some (Raise e) => Raise e
  end.

(** [_tick] with a backend, up to and including [await backend.last_fired]. *)
Definition tick_read (catchup : bool) (now : datetime) (t : TaskState) (b : B) :
    outcome exn plan * TaskState * B :=
  match tick_due now with
  | Raise e => (Raise e, t, b)
  | Return None => (Return PlanDone, t, b)
  | Return (Some due) =>
      match sb_last_fired name b with
      | (Raise e, b) => (Raise e, t, b)
      | (Return None, b) => (Return (PlanBaseline due), t, b)
      | (Return (Some last), b) =>
          if (due <=? last)%py then
            (Return PlanDone,
             if catchup then t else report_unrun_fire now SKIPPED t, b)
          else if match misfire_grace_seconds with
                  | Some g => (timestamp now - due >? g)%py
                  | None => false
                  end
          then (Return (PlanLate due), t, b)
          else (Return (PlanClaim due), t, b)
      end
  end.

(** [_drop_late_fire] *)
Definition drop_late_fire (due : Q) (now : datetime) (t : TaskState) (b : B) :
    outcome exn unit * TaskState * B :=
  match sb_claim name due b with
  | (Raise e, b) => (Raise e, t, b)
  | (Return won, b) =>
      (Return tt, report_unrun_fire now (if (won : bool) then MISSED else SKIPPED) t, b)
  end.

(** [_claim_and_run] up to and including [await backend.claim]: whether the fire is
    this worker's to run. *)
Definition claim_fire (due : Q) (now : datetime) (t : TaskState) (b : B) :
    outcome exn bool * TaskState * B :=
  match sb_claim name due b with
  | (Raise e, b) => (Raise e, t, b)
  | (Return false, b) => (Return false, report_unrun_fire now SKIPPED t, b)
  | (Return true, b) => (Return true, t, b)
  end.

(** [_claim_and_run] *)
Definition claim_and_run (due : Q) (now : datetime) (v : fire_env) (t : TaskState) (b : B) :
    outcome exn unit * TaskState * B :=
  match claim_fire due now t b with
  | (Raise e, t, b) => (Raise e, t, b)
  | (Return false, t, b) => (Return tt, t, b)
  | (Return true, t, b) => let '(r, t) := run_claimed now v t in (r, t, b)
  end.

(** [_tick] after the read. *)
Definition tick_finish (p : plan) (now : datetime) (v : fire_env) (t : TaskState) (b : B) :
    outcome exn unit * TaskState * B :=
  match p with
  | PlanDone => (Return tt, t, b)
  | PlanBaseline due =>
      match sb_claim name due b with
      | (Raise e, b) => (Raise e, t, b)
      | (Return _, b) => (Return tt, t, b)
      end
  | PlanLate due => drop_late_fire due now t b
  | PlanClaim due => claim_and_run due now v t b
  end.

(** [_tick] with a backend. *)
Definition tick (catchup : bool) (now : datetime) (v : fire_env) (t : TaskState) (b : B) :
    outcome exn unit * TaskState * B :=
  match tick_read catchup now t b with
  | (Raise e, t, b) => (Raise e, t, b)
  | (Return p, t, b) => tick_finish p now v t b
  end.

(** [_tick] without a backend. *)
Definition tick_local (catchup : bool) (now : datetime) (v : fire_env) (t : TaskState) :
    outcome exn unit * TaskState :=
  match tick_due now with
  | Raise e => (Raise e, t)
  | Return None => (Return tt, t)
  | Return (Some _) => if catchup then (Return tt, t) else run_ v t
  end.

(** The [except] clauses of [_tick_guarded]; [now'] is read in the clause. *)
Definition guard (now' : datetime) (r : outcome exn unit) (t : TaskState) :
    outcome exn unit * TaskState :=
  match r with
  | Return _ => (Return tt, t)
  | Raise e =>
      if isinstance e CancelledError then (Raise e, t)
      else if is_would_block e then (Return tt, report_unrun_fire now' SKIPPED t)
      else if is_not_owned e then (Return tt, t)
      else if is_exception e then
        (Return tt, if body_started t then t
                    else report_unrun_fire now' COORDINATION_ERROR t)
      else (Raise e, t)
  end.

(** [self._body_started = False] *)
Definition reset_started (t : TaskState) : TaskState :=
  mkTask (last_fire t) false (runs t).

(** [_tick_guarded]; [cancelling] is [task.cancelling()] at its end. *)
Definition tick_guarded (catchup : bool) (now now' : datetime) (v : fire_env)
    (cancelling : bool) (t : TaskState) (b : B) : outcome exn unit * TaskState * B :=
  let '(r, t, b) := tick catchup now v (reset_started t) b in
  let '(r, t) := guard now' r t in
  (match r with
   | Return _ => if cancelling then Raise (mk_exn CancelledError NoInfo) else Return tt
   | Raise e => Raise e
   end, t, b).

(** The delay of one turn of the loop of [__call__]. *)
Definition loop_delay (now : datetime) : option (outcome exn Q) :=
  match next_after expr now with
  | None => None
  | Some (Raise e) => Some (Raise e)
  | Some (Return next) => Some (Return (timestamp next - timestamp now)%Q)
  end.
End Tick.

(** ** A fire is run at most once *)

Section Workers.
Context {B : Type} `{ScheduleBackend B}.
Context (name : string) (expr : CronExpression) (misfire_grace_seconds : option Q)
  (utcoffset : datetime -> Q).

Abbreviation read := (tick_read name expr misfire_grace_seconds utcoffset).
Abbreviation finish := (tick_finish name).

(** Where a worker is in its tick: between its read and its claim; between a claim it
    won and the start of the body, waiting for [sync]; in the body. *)
Inductive tick_phase : Type :=
| Planned (p : plan) (now : datetime) (t : TaskState)
| Claimed (due : Q) (now : datetime) (t : TaskState)
| InBody (due : Q) (v : fire_env) (now : datetime) (t : TaskState).

(** Any number of workers over one backend: where each is, the fires whose claim
    was won in order to run them, and those whose body was started, both oldest
    first. *)
Record system : Type := mkSystem {
  store : B;
  workers : gmap nat tick_phase;
  claimed : list Q;
  fired : list Q;
}.

Definition start_body (t : TaskState) : TaskState := mkTask (last_fire t) true (runs t).

(** A worker starts a tick (with any clock, at any time), goes on from one [await]
    to the next, or dies in between; other schedules use the same backend. *)
Inductive cron_step : system -> system -> Prop :=
| cs_read s w catchup now t p t' b' :
    workers s !! w = None ->
    read catchup now (reset_started t) (store s) = (Return p, t', b') ->
    cron_step s (mkSystem b' (<[w := Planned p now t']> (workers s)) (claimed s) (fired s))
| cs_read_error s w catchup now t e t' b' :
    workers s !! w = None ->
    read catchup now (reset_started t) (store s) = (Raise e, t', b') ->
    cron_step s (mkSystem b' (workers s) (claimed s) (fired s))
| cs_settle s w p now t v r t' b' :
    workers s !! w = Some (Planned p now t) -> (forall due, p <> PlanClaim due) ->
    finish p now v t (store s) = (r, t', b') ->
    cron_step s (mkSystem b' (delete w (workers s)) (claimed s) (fired s))
| cs_claim s w due now t t' b' :
    workers s !! w = Some (Planned (PlanClaim due) now t) ->
    claim_fire name due now t (store s) = (Return true, t', b') ->
    cron_step s (mkSystem b' (<[w := Claimed due now t']> (workers s))
      (claimed s ++ [due]) (fired s))
| cs_no_claim s w due now t r t' b' :
    workers s !! w = Some (Planned (PlanClaim due) now t) ->
    claim_fire name due now t (store s) = (r, t', b') -> r <> Return true ->
    cron_step s (mkSystem b' (delete w (workers s)) (claimed s) (fired s))
| cs_start s w due now t v :
    workers s !! w = Some (Claimed due now t) -> enter_sync v = Return tt ->
    cron_step s (mkSystem (store s) (<[w := InBody due v now (start_body t)]> (workers s))
      (claimed s) (fired s ++ [due]))
| cs_refused s w due now t v e :
    workers s !! w = Some (Claimed due now t) -> enter_sync v = Raise e ->
    cron_step s (mkSystem (store s) (delete w (workers s)) (claimed s) (fired s))
| cs_end s w due v now t :
    workers s !! w = Some (InBody due v now t) ->
    cron_step s (mkSystem (store s) (delete w (workers s)) (claimed s) (fired s))
| cs_crash s w :
    cron_step s (mkSystem (store s) (delete w (workers s)) (claimed s) (fired s))
| cs_other s b' :
    sb_stored b' name = sb_stored (store s) name ->
    cron_step s (mkSystem b' (workers s) (claimed s) (fired s)).

(** Worker [w] has won [due] and not started it. *)
Definition waits_to_run (s : system) (w : nat) (due : Q) : Prop :=
  exists now t, workers s !! w = Some (Claimed due now t).

(** The stored instant is at least every claimed one, which increase; a fire is
    started by the one worker that has won it. *)
Record fires_ok (b0 : B) (s : system) : Prop := {
  fo_sorted : StronglySorted Qlt (claimed s);
  fo_stored : forall d, d ∈ claimed s \/ sb_stored b0 name = Some d ->
    exists x, sb_stored (store s) name = Some x /\ (d <= x)%Q;
  fo_later : forall d d0, d ∈ claimed s -> sb_stored b0 name = Some d0 -> (d0 < d)%Q;
  fo_once : NoDup (fired s);
  fo_fired : forall d, d ∈ fired s -> d ∈ claimed s;
  fo_waiting : forall w d, waits_to_run s w d -> d ∈ claimed s /\ d ∉ fired s;
  fo_own : forall w w' d, waits_to_run s w d -> waits_to_run s w' d -> w = w';
}.

Lemma read_keeps catchup now t b r t' b' :
  read catchup now t b = (r, t', b') ->
  (forall n, sb_stored b' n = sb_stored b n) /\ body_started t' = body_started t.
Proof.
  unfold tick_read. destruct (tick_due _ _ now) as [[due|]|e]; try by intros [= <- <- <-].
  pose proof (sb_last_fired_law name b) as Hl.
  destruct (sb_last_fired name b) as [[[last|]|e] b1], Hl as [Hl _];
    try by intros [= <- <- <-].
  repeat case_match; intros [= <- <- <-]; done.
Qed.

(** What is stored only moves forward. *)
Definition stored_forward (b b' : B) : Prop :=
  forall d, sb_stored b name = Some d -> exists x, sb_stored b' name = Some x /\ (d <= x)%Q.

Lemma stored_same b b' : sb_stored b' name = sb_stored b name -> stored_forward b b'.
Proof. intros E d Hd. exists d. rewrite E. split; [done|apply Qle_refl]. Qed.

Lemma claim_forward due b r b' : sb_claim name due b = (r, b') -> stored_forward b b'.
Proof.
  intros E d Hd. pose proof (sb_claim_law name due b) as Hl. rewrite E in Hl.
  assert ((forall d, sb_stored b name = Some d -> (d < due)%Q) /\ sb_stored b' name = Some due ->
    exists x, sb_stored b' name = Some x /\ (d <= x)%Q) as Hwon
    by (intros [Hlt E']; exists due; split; [done|apply Qlt_le_weak, Hlt, Hd]).
  destruct r as [[]|e]; [auto| |destruct Hl as [Hl|Hl]; [|auto]];
    (eapply stored_same; [|exact Hd]); [apply Hl|done].
Qed.

(** A fire that is a worker's to run was claimed after every earlier one. *)
Lemma claim_fire_won due now t b t' b' :
  claim_fire name due now t b = (Return true, t', b') ->
  sb_stored b' name = Some due /\ forall d, sb_stored b name = Some d -> (d < due)%Q.
Proof.
  unfold claim_fire. pose proof (sb_claim_law name due b) as Hl.
  destruct (sb_claim name due b) as [[[]|e] b1]; intros [= <- <-]. by destruct Hl.
Qed.

Lemma claim_fire_forward due now t b r t' b' :
  claim_fire name due now t b = (r, t', b') -> stored_forward b b'.
Proof.
  unfold claim_fire. destruct (sb_claim name due b) as [[[]|e] b1] eqn:E; intros [= <- <- <-];
    by eapply claim_forward.
Qed.

(** Neither does a tick that runs nothing. *)
Lemma settle_forward p now v t b r t' b' :
  (forall due, p <> PlanClaim due) -> finish p now v t b = (r, t', b') -> stored_forward b b'.
Proof.
  intros Hp. destruct p as [|due|due|due]; cbn [tick_finish]; [| | |by destruct (Hp due)].
  - intros [= <- <- <-]. by apply stored_same.
  - destruct (sb_claim name due b) as [[won|e] b1] eqn:E; intros [= <- <- <-];
      by eapply claim_forward.
  - unfold drop_late_fire. destruct (sb_claim name due b) as [[won|e] b1] eqn:E;
      intros [= <- <- <-]; by eapply claim_forward.
Qed.

Lemma sorted_snoc l d : StronglySorted Qlt l -> (forall x, x ∈ l -> (x < d)%Q) ->
  StronglySorted Qlt (l ++ [d]).
Proof.
  intros Hl. induction Hl as [|a l Hl IH Ha]; intros Hd; simpl; [by repeat constructor|].
  constructor; [apply IH; intros; apply Hd; by right|].
  apply Forall_app. split; [done|]. repeat constructor. apply Hd. left.
Qed.

(** A step that neither wins nor starts a fire. *)
Lemma fires_ok_step b0 s b ws :
  fires_ok b0 s -> stored_forward (store s) b ->
  (forall w d now t, ws !! w = Some (Claimed d now t) -> waits_to_run s w d) ->
  fires_ok b0 (mkSystem b ws (claimed s) (fired s)).
Proof.
  intros [Hs Hx Hl Ho Hf Hw Hu] Hb Hws. split; cbn; try done.
  - intros d Hd. destruct (Hx d Hd) as (x & Ex & Hdx), (Hb x Ex) as (y & Ey & Hxy).
    exists y. split; [done|]. by apply Qle_trans with x.
  - intros w d (now & t & E). by eapply Hw, Hws.
  - intros w w' d (now & t & E) (now' & t' & E'). by eapply Hu; eapply Hws.
Qed.

Lemma fires_ok_claim b0 s w due now t b :
  fires_ok b0 s -> sb_stored b name = Some due ->
  (forall d, sb_stored (store s) name = Some d -> (d < due)%Q) ->
  fires_ok b0 (mkSystem b (<[w := Claimed due now t]> (workers s)) (claimed s ++ [due]) (fired s)).
Proof.
  intros [Hs Hx Hl Ho Hf Hw Hu] Eb Hlt.
  assert (forall x, x ∈ claimed s \/ sb_stored b0 name = Some x -> (x < due)%Q) as Hall.
  { intros x Hxs. destruct (Hx x Hxs) as (y & Hy & Hxy). apply Qle_lt_trans with y; auto. }
  assert (due ∉ claimed s) as Hnew by (intros Hin; by apply (Qlt_irrefl due); auto).
  assert (forall w' d, waits_to_run (mkSystem b (<[w := Claimed due now t]> (workers s))
    (claimed s ++ [due]) (fired s)) w' d -> (w' = w /\ d = due) \/ waits_to_run s w' d) as Hwait.
  { intros w' d (now' & t' & E). cbn in E.
    apply lookup_insert_Some in E as [[<- [= <- _ _]]|[_ E]]; [by left|right]. by exists now', t'. }
  split; cbn; [| | |done| | |].
  - apply sorted_snoc; auto.
  - intros d Hd. exists due. split; [done|].
    destruct Hd as [[Hd| ->%list_elem_of_singleton]%elem_of_app|Hd];
      [|apply Qle_refl|]; apply Qlt_le_weak; auto.
  - intros d d0 [Hd| ->%list_elem_of_singleton]%elem_of_app Hd0; [by eapply Hl|auto].
  - intros d Hd. apply elem_of_app. auto.
  - intros w' d [[-> ->]|Hd]%Hwait; rewrite elem_of_app.
    + split; [right; by apply list_elem_of_singleton|auto].
    + destruct (Hw _ _ Hd). auto.
  - intros w1 w2 d [[-> ->]|H1]%Hwait [[-> E]|H2]%Hwait; [done| | |by eapply Hu].
    + by apply Hw in H2 as [? _].
    + subst d. by apply Hw in H1 as [? _].
Qed.

Lemma fires_ok_start b0 s w due now t v :
  fires_ok b0 s -> workers s !! w = Some (Claimed due now t) ->
  fires_ok b0 (mkSystem (store s) (<[w := InBody due v now (start_body t)]> (workers s))
    (claimed s) (fired s ++ [due])).
Proof.
  intros [Hs Hx Hl Ho Hf Hw Hu] Ew. assert (waits_to_run s w due) as Hdue by by eexists _, _.
  assert (forall w' d, waits_to_run (mkSystem (store s)
    (<[w := InBody due v now (start_body t)]> (workers s)) (claimed s) (fired s ++ [due])) w' d ->
    w' <> w /\ waits_to_run s w' d) as Hwait.
  { intros w' d (now' & t' & E). cbn in E.
    apply lookup_insert_Some in E as [[_ ?]|[? E]]; [done|]. split; [done|by exists now', t']. }
  destruct (Hw _ _ Hdue) as [Hin Hnot].
  split; cbn; try done.
  - apply NoDup_app. split; [done|]. split; [|apply NoDup_singleton].
    by intros d Hd ->%list_elem_of_singleton.
  - intros d [Hd| ->%list_elem_of_singleton]%elem_of_app; auto.
  - intros w' d [Hne H']%Hwait. destruct (Hw _ _ H') as [? Hnd]. split; [done|].
    intros [Hd| ->%list_elem_of_singleton]%elem_of_app; [done|]. by apply Hne, (Hu _ _ due).
  - intros w1 w2 d [_ H1]%Hwait [_ H2]%Hwait. by eapply Hu.
Qed.

Lemma cron_step_ok b0 s s' : cron_step s s' -> fires_ok b0 s -> fires_ok b0 s'.
Proof.
  intros Hst Hok. assert (forall w w' d now t, delete w (workers s) !! w' = Some (Claimed d now t) ->
    waits_to_run s w' d) as Hdel
    by (intros w w' d now t [_ E]%lookup_delete_Some; by exists now, t).
  destruct Hst as
    [s w catchup now t p t' b' Hw E|s w catchup now t e t' b' Hw E
    |s w p now t v r t' b' Hw Hp E|s w due now t t' b' Hw E|s w due now t r t' b' Hw E _
    |s w due now t v Hw _|s w due now t v e Hw _|s w due v now t Hw|s w|s b' E].
  - apply fires_ok_step; [done| |].
    + by apply stored_same, (read_keeps _ _ _ _ _ _ _ E).
    + intros w' d now' u [[_ ?]|[_ Hu]]%lookup_insert_Some; [done|by exists now', u].
  - apply fires_ok_step; [done| |by intros w' d now' u Hu; exists now', u].
    by apply stored_same, (read_keeps _ _ _ _ _ _ _ E).
  - apply fires_ok_step; [done|by eapply settle_forward|by apply Hdel].
  - apply claim_fire_won in E as [? ?]. by apply fires_ok_claim.
  - apply fires_ok_step; [done|by eapply claim_fire_forward|by apply Hdel].
  - by apply fires_ok_start.
  - apply fires_ok_step; [done|by apply stored_same|by apply Hdel].
  - apply fires_ok_step; [done|by apply stored_same|by apply Hdel].
  - apply fires_ok_step; [done|by apply stored_same|by apply Hdel].
  - apply fires_ok_step; [done|by apply stored_same|by intros w' d now' u Hu; exists now', u].
Qed.

(** Two instants of an increasing list that are the same number are one entry. *)
Lemma sorted_same_instant l d d' :
  StronglySorted Qlt l -> d ∈ l -> d' ∈ l -> (d == d')%Q -> d = d'.
Proof.
  induction 1 as [|a l Hl IH Ha]; [by intros ?%not_elem_of_nil|].
  rewrite Forall_forall in Ha.
  intros [->|Hd]%elem_of_cons [->|Hd']%elem_of_cons E; [done| | |by apply IH].
  - specialize (Ha _ Hd'). rewrite E in Ha. by apply Qlt_irrefl in Ha.
  - specialize (Ha _ Hd). rewrite E in Ha. by apply Qlt_irrefl in Ha.
Qed.

(** C12 Over any backend whose claim is an atomic compare-and-set ([ScheduleBackend]),
    however any number of workers go on from one [await] of their ticks to the
    next, crash or fail on the backend, also between winning a claim, waiting for
    the [sync] primitive and starting the body: the fires won in order to be run
    strictly increase from one claim to the next and all lie after the instant
    stored at the beginning, every body that is started is that of a fire won
    before, and no two of them are of the same instant.  (The bodies may start in
    another order than the claims: [later_fire_starts_first].) *)
Theorem fires_at_most_once (b0 : B) (s : system)
    (Hs : rtc cron_step (mkSystem b0 ∅ [] []) s) :
  StronglySorted Qlt (claimed s) /\
  (forall d d0, d ∈ claimed s -> sb_stored b0 name = Some d0 -> (d0 < d)%Q) /\
  (forall d, d ∈ fired s -> d ∈ claimed s) /\
  (forall i j d d', fired s !! i = Some d -> fired s !! j = Some d' -> (d == d')%Q -> i = j).
Proof.
  assert (fires_ok b0 s) as [Hso _ Hl Ho Hf _ _].
  { apply (invariant_rtc _ _ (cron_step_ok b0) _ _ Hs).
    split; cbn; try (by intros ? ?%not_elem_of_nil); try (by intros ? ? ?%not_elem_of_nil);
      try constructor.
    - intros d [Hd|Hd]; [by apply not_elem_of_nil in Hd|]. exists d. split; [done|apply Qle_refl].
    - by destruct H0 as (? & ? & ?).
    - by destruct H0 as (? & ? & ?).
    - by intros ? ? ? (? & ? & ?). }
  split_and!; [done..|]. intros i j d d' Hi Hj E.
  assert (d = d') as -> by (eapply sorted_same_instant; eauto using list_elem_of_lookup_2).
  by eapply NoDup_lookup.
Qed.

(** A tick that nothing interrupts is such steps: the composed definitions and the
    step relation are the same program. *)
Lemma settle_starts_nothing p now v t b r t' b' :
  body_started t = false -> (forall due, p <> PlanClaim due) ->
  finish p now v t b = (r, t', b') -> body_started t' = false.
Proof.
  intros Ht Hp. destruct p as [|due|due|due]; cbn [tick_finish]; [| | |by destruct (Hp due)].
  - congruence.
  - destruct (sb_claim name due b) as [[won|e] b1]; congruence.
  - unfold drop_late_fire. destruct (sb_claim name due b) as [[won|e] b1]; intros [= <- <- <-]; done.
Qed.

Lemma run_claimed_started now v t r t' :
  run_claimed now v t = (r, t') -> body_started t = false ->
  body_started t' = match enter_sync v with Return _ => true | Raise _ => false end.
Proof.
  unfold run_claimed, run_, run_body. destruct (enter_sync v) as [[]|e] eqn:Ee.
  - intros E _. revert E. repeat case_match; simplify_eq;
      intros [= <- <-]; done.
  - intros E Ht. revert E.
    case_match; intros [= <- <-]; done.
Qed.

Lemma tick_steps catchup now v t b c f r t' b' :
  tick name expr misfire_grace_seconds utcoffset catchup now v (reset_started t) b = (r, t', b') ->
  exists ds ds', rtc cron_step (mkSystem b ∅ c f) (mkSystem b' ∅ (c ++ ds) (f ++ ds')) /\
    if body_started t' then ds' = ds /\ exists due, ds = [due] else ds' = [].
Proof.
  unfold tick. destruct (read catchup now _ b) as [[[p|e] t1] b1] eqn:Er;
    destruct (read_keeps _ _ _ _ _ _ _ Er) as [_ Ht1]; cbn in Ht1.
  2: { intros [= <- <- <-]. exists [], []. rewrite !app_nil_r, Ht1. split; [|done].
       by eapply rtc_once, (cs_read_error (mkSystem b ∅ c f) 0%nat). }
  assert (forall x : tick_phase, delete 0%nat (<[0%nat := x]> (∅ : gmap nat tick_phase)) = ∅) as Hdel
    by (intros x; by rewrite delete_insert_id).
  assert (forall s', rtc cron_step (mkSystem b1 (<[0%nat := Planned p now t1]> ∅) c f) s' ->
    rtc cron_step (mkSystem b ∅ c f) s') as Hread
    by (intros s'; by apply rtc_l, (cs_read (mkSystem b ∅ c f) 0%nat catchup now t)).
  assert ((forall due, p <> PlanClaim due) \/ exists due, p = PlanClaim due) as [Hp|[due ->]]
    by (destruct p; [left..|right]; naive_solver).
  - intros E. exists [], []. rewrite !app_nil_r, (settle_starts_nothing _ _ _ _ _ _ _ _ Ht1 Hp E).
    split; [|done]. apply Hread, rtc_once. rewrite <- (Hdel (Planned p now t1)).
    eapply (cs_settle (mkSystem b1 _ c f) 0%nat); [apply lookup_insert_eq|done|exact E].
  - cbn [tick_finish]. unfold claim_and_run.
    destruct (claim_fire name due now t1 b1) as [[[[]|e] t2] b2] eqn:Ec.
    2,3: assert (body_started t2 = false) as Ht2
        by (revert Ec; unfold claim_fire; repeat case_match; intros ?; by simplify_eq);
      intros [= <- <- <-]; exists [], []; rewrite !app_nil_r, Ht2; split; [|done];
      apply Hread, rtc_once; rewrite <- (Hdel (Planned (PlanClaim due) now t1));
      eapply (cs_no_claim (mkSystem b1 _ c f) 0%nat); [apply lookup_insert_eq|exact Ec|done].
    assert (t2 = t1) as -> by (revert Ec; unfold claim_fire; repeat case_match; congruence).
    destruct (run_claimed now v t1) as [r1 t3] eqn:Erun. intros [= <- <- <-].
    rewrite (run_claimed_started _ _ _ _ _ Erun Ht1). exists [due].
    set (ws := (<[0%nat := Claimed due now t1]>
      (<[0%nat := Planned (PlanClaim due) now t1]> ∅)) : gmap nat tick_phase).
    assert (forall s', rtc cron_step (mkSystem b2 ws (c ++ [due]) f) s' ->
      rtc cron_step (mkSystem b ∅ c f) s') as Hclaim.
    { intros s' Hs'. apply Hread. eapply rtc_l; [|exact Hs'].
      eapply (cs_claim (mkSystem b1 _ c f) 0%nat); [apply lookup_insert_eq|exact Ec]. }
    destruct (enter_sync v) as [[]|e] eqn:Ee; [exists [due]|exists []]; (split; [|by eauto]).
    + apply Hclaim. eapply rtc_l.
      { eapply (cs_start (mkSystem b2 ws _ f) 0%nat due now t1 v); [apply lookup_insert_eq|done]. }
      apply rtc_once. rewrite <- (Hdel (InBody due v now (start_body t1))). unfold ws.
      cbn [store workers claimed fired]. rewrite !insert_insert_eq.
      by eapply (cs_end (mkSystem b2 _ (c ++ [due]) (f ++ [due])) 0%nat), lookup_insert_eq.
    + apply Hclaim, rtc_once. rewrite app_nil_r, <- (Hdel (Claimed due now t1)). unfold ws.
      rewrite insert_insert_eq.
      by eapply (cs_refused (mkSystem b2 _ (c ++ [due]) f) 0%nat), Ee; apply lookup_insert_eq.
Qed.
End Workers.

Definition quarter : CronExpression := every_minutes 15.
Definition utc : datetime -> Q := fun _ => 0%Q.
Definition new_task : TaskState := mkTask None false [].
Definition ok_env : fire_env := mkEnv None (Return tt) (at_ 2025 3 1 0 0).

Definition fire_due : Q := timestamp utc (at_ 2025 3 1 0 0).
Definition next_due : Q := timestamp utc (at_ 2025 3 1 0 15).
Definition fire_store (due : Q) : Schedules := {[ "job"%string := due ]}.

(** Workers 1 and 2 read the fire of 00:00 before either claims it; worker 1 wins it
    and waits for its [sync] primitive; at 00:16 worker 3 reads, wins and starts the
    next fire; only then worker 1 starts the one it won. *)
Lemma later_fire_starts_first :
  exists s, rtc (cron_step "job" quarter None utc)
      (mkSystem (fire_store (fire_due - 900)) ∅ [] []) s /\
    claimed s = [fire_due; next_due] /\ fired s = [next_due; fire_due].
Proof.
  set (now := at_ 2025 3 1 0 1). set (later := at_ 2025 3 1 0 16).
  set (due := fire_due). set (next := next_due).
  assert (forall w ws c f, ws !! w = None -> cron_step "job" quarter None utc
    (mkSystem (fire_store (fire_due - 900)) ws c f)
    (mkSystem (fire_store (fire_due - 900)) (<[w := Planned (PlanClaim due) now new_task]> ws) c f))
    as Hread by (intros w ws c f Hw; by apply (cs_read _ _ _ _ (mkSystem _ ws c f) w false now new_task)).
  eexists. split.
  - eapply rtc_l; [by apply (Hread 1%nat)|]. eapply rtc_l; [by apply (Hread 2%nat)|].
    eapply rtc_l.
    { by apply (cs_claim _ _ _ _ (mkSystem (fire_store (fire_due - 900)) _ [] []) 1%nat due now
        new_task new_task (fire_store fire_due)). }
    eapply rtc_l.
    { by apply (cs_no_claim _ _ _ _ (mkSystem (fire_store fire_due) _ _ []) 2%nat due now new_task
        (Return false) (report_unrun_fire now SKIPPED new_task) (fire_store fire_due)). }
    eapply rtc_l.
    { by apply (cs_read _ _ _ _ (mkSystem (fire_store fire_due) _ _ []) 3%nat false later new_task
        (PlanClaim next) new_task (fire_store fire_due)). }
    eapply rtc_l.
    { by apply (cs_claim _ _ _ _ (mkSystem (fire_store fire_due) _ _ []) 3%nat next later
        new_task new_task (fire_store next_due)). }
    eapply rtc_l.
    { by apply (cs_start _ _ _ _ (mkSystem (fire_store next_due) _ _ []) 3%nat next later new_task
        ok_env). }
    eapply rtc_l; [|apply rtc_refl].
    by apply (cs_start _ _ _ _ (mkSystem (fire_store next_due) _ _ _) 1%nat due now new_task
      (mkEnv (Some (Return tt, Return tt)) (Return tt) now)).
  - done.
Qed.

Lemma fires_at_most_once_witness :
  exists s, rtc (cron_step "job" quarter None utc)
      (mkSystem (fire_store (fire_due - 900)) ∅ [] []) s /\
    List.length (fired s) = 2%nat /\
    StronglySorted Qlt (claimed s) /\
    (forall d d0, d ∈ claimed s -> sb_stored (fire_store (fire_due - 900)) "job" = Some d0 ->
       (d0 < d)%Q) /\
    (forall d, d ∈ fired s -> d ∈ claimed s) /\
    (forall i j d d', fired s !! i = Some d -> fired s !! j = Some d' -> (d == d')%Q -> i = j).
Proof.
  destruct later_fire_starts_first as (s & Hs & _ & Hf). exists s. split; [exact Hs|].
  split; [by rewrite Hf|].
  exact (fires_at_most_once "job" quarter None utc (fire_store (fire_due - 900)) s Hs).
Defined.

(** ** What a tick runs and reports *)

Section Reports.
Context (name : string) (expr : CronExpression) (misfire_grace_seconds : option Q)
  (utcoffset : datetime -> Q).

(** One guarded tick of the loop over the memory backend. *)
Definition loop_tick (o : bool * datetime * fire_env) (st : TaskState * Schedules) :
    outcome exn unit * (TaskState * Schedules) :=
  let '(catchup, now, v) := o in
  let '(r, t, b) := tick_guarded name expr misfire_grace_seconds utcoffset
                      catchup now now v false st.1 st.2 in
  (r, (t, b)).

Definition too_late (now : datetime) (due : Q) : bool :=
  match misfire_grace_seconds with
  | Some g => (timestamp utcoffset now - due >? g)%py
  | None => false
  end.

(** A tick whose fire is already claimed only reports that it was skipped. *)
Lemma loop_tick_claimed catchup now v t b due :
  tick_due expr utcoffset now = Return (Some due) -> b !! name = Some due ->
  exists t', loop_tick (catchup, now, v) (t, b) = (Return tt, (t', b)) /\
    runs t' = runs t ++ if catchup then [] else [SKIPPED].
Proof.
  intros Hd Hb. unfold loop_tick, tick_guarded, tick, tick_read. rewrite Hd. cbn.
  unfold schedule_last_fired. rewrite Hb.
  destruct (Qle_bool_spec due due) as [_|L]; [|by apply Qlt_irrefl in L].
  destruct catchup; cbn; (eexists; split; [reflexivity|]); cbn; by rewrite ?app_nil_r.
Qed.

(** However many fires were missed while every worker was down, the ticks
    that find the same due fire run its body once, or drop it once when it is
    older than the grace period; the others only report that they skipped. *)
Lemma missed_fires_replay_once (o : bool * datetime * fire_env)
    (rest : list (bool * datetime * fire_env)) (t : TaskState) (b : Schedules) (last due : Q)
    (Hlast : b !! name = Some last) (Hlate : (last < due)%Q)
    (Hdue : Forall (fun o => tick_due expr utcoffset o.1.2 = Return (Some due)) (o :: rest))
    (Hbody : sync o.2 = None /\ body o.2 = Return tt) :
  let '(rs, (t', b')) := run loop_tick (o :: rest) (t, b) in
  Forall (fun r => r = Return tt) rs /\
  runs t' = runs t ++ (if too_late o.1.2 due then MISSED else SUCCESS) ::
              (const SKIPPED <$> filter (fun o => o.1.1 = false) rest) /\
  b' !! name = Some due.
Proof.
  apply Forall_cons in Hdue as [Ho Hrest]. destruct Hbody as [Hsync Hbody].
  assert (exists t1 b1, loop_tick o (t, b) = (Return tt, (t1, b1)) /\
    runs t1 = runs t ++ [if too_late o.1.2 due then MISSED else SUCCESS] /\
    b1 !! name = Some due) as (t1 & b1 & E & Et & Eb).
  { destruct o as [[catchup now] v]. cbn [fst snd] in *.
    unfold loop_tick, tick_guarded, tick, tick_read. rewrite Ho. cbn.
    unfold schedule_last_fired. rewrite Hlast.
    destruct (Qle_bool_spec due last) as [L|_]; [by apply Qle_not_lt in L|].
    fold (too_late now due). destruct (too_late now due); cbn;
      unfold drop_late_fire, claim_and_run, claim_fire; cbn; unfold claim; rewrite Hlast;
      (destruct (Qle_bool_spec due last) as [L|_]; [by apply Qle_not_lt in L|]); cbn;
      unfold run_claimed, run_, enter_sync, leave_sync, run_body; rewrite ?Hsync, ?Hbody;
      (eexists; eexists; split; [reflexivity|]; cbn; split; [done|by rewrite lookup_insert_eq]). }
  cbn [run]. rewrite E. clear E.
  assert (exists rs t' b', run loop_tick rest (t1, b1) = (rs, (t', b')) /\
    Forall (fun r => r = Return tt) rs /\ b' !! name = Some due /\
    runs t' = runs t1 ++ (const SKIPPED <$> filter (fun o => o.1.1 = false) rest))
    as (rs & t' & b' & -> & Hrs & Hb' & Ht').
  { clear Et. revert t1. induction Hrest as [|[[catchup now] v] rest Hd Hrest IH]; intros t1.
    { exists [], t1, b1. split_and!; try done. by rewrite app_nil_r. }
    destruct (loop_tick_claimed catchup now v t1 b1 due Hd Eb) as (t2 & E2 & Et2).
    destruct (IH t2) as (rs & t' & b' & E & Hrs & Hb' & Ht').
    exists (Return tt :: rs), t', b'. cbn [run]. rewrite E2, E. split_and!; try done.
    - by constructor.
    - rewrite Ht', Et2, filter_cons. by destruct catchup; cbn; rewrite <- app_assoc. }
  split_and!; [by constructor| |done]. by rewrite Ht', Et, <- app_assoc.
Qed.
End Reports.

Lemma missed_fires_replay_once_witness :
  let due := timestamp utc (at_ 2025 3 1 0 0) in
  let b : Schedules := {[ "job"%string := (due - 86400)%Q ]} in
  let o := (true, at_ 2025 3 1 0 4, ok_env) in
  let rest := [(false, at_ 2025 3 1 0 5, ok_env)] in
  let '(rs, (t', b')) := run (loop_tick "job" quarter (Some 300%Q) utc) (o :: rest) (new_task, b) in
  Forall (fun r => r = Return tt) rs /\
  runs t' = [] ++ SUCCESS :: [SKIPPED] /\ b' !! "job"%string = Some due.
Proof.
  intros due b o rest.
  apply (missed_fires_replay_once "job" quarter (Some 300%Q) utc o rest new_task b
           (due - 86400) due).
  - reflexivity.
  - vm_compute. reflexivity.
  - repeat constructor; vm_compute; reflexivity.
  - split; reflexivity.
Defined.

Section Counting.
Context {B : Type} `{ScheduleBackend B}.
Context (name : string) (expr : CronExpression) (misfire_grace_seconds : option Q)
  (utcoffset : datetime -> Q).

Lemma would_block_is_exception e : is_would_block e = true -> is_exception e = true.
Proof. intros Hw. apply (issubclass_trans _ WouldBlockError); [done|]. vm_compute. done. Qed.

(** What [_run] emits: nothing if the body did not start or was cancelled. *)
Lemma run_emits v t :
  body_started t = false ->
  match sync v with
  | Some (_, Raise e) => is_would_block e = false
  | _ => True
  end ->
  let '(r, t') := run_ v t in
  (body_started t' = false /\ t' = t /\ (exists e, r = Raise e)) \/
  (body_started t' = true /\
   (forall e, r = Raise e -> is_would_block e = false) /\
   (runs t' = runs t \/
    exists o f, (o = SUCCESS \/ o = ERROR) /\ runs t' = runs t ++ [o] /\
      last_fire t' = Some f /\ fi_outcome f = o)).
Proof.
  intros Ht Hsync.
  assert (let '(r, t') := run_body v t in
    body_started t' = true /\ (forall e, r = Raise e -> is_would_block e = false) /\
    (runs t' = runs t \/
     exists o f, (o = SUCCESS \/ o = ERROR) /\ runs t' = runs t ++ [o] /\
       last_fire t' = Some f /\ fi_outcome f = o)) as Hbody.
  { unfold run_body. destruct (body v) as [[]|e].
    - split_and!; [done..|]. right. exists SUCCESS. eexists. split_and!; try done. by left.
    - destruct (is_exception e) eqn:Ee; cbn; split_and!; try done.
      + right. exists ERROR. eexists. split_and!; try done. by right.
      + intros e' [= <-]. destruct (is_would_block e) eqn:Ew; [|done].
        by rewrite would_block_is_exception in Ee.
      + by left. }
  unfold run_, enter_sync, leave_sync. destruct (sync v) as [[[[]|e] leave]|].
  - destruct (run_body v t) as [r t1], Hbody as (Hs & Hr & Hruns). right. cbn.
    split_and!; [done| |done]. destruct leave as [[]|e]; [done|]. by intros e' [= <-].
  - left. split_and!; [done..|by eexists].
  - destruct (run_body v t) as [r t1]. by right.
Qed.

(** Between [t] and [t'] one point was emitted; [last_fire] has its outcome,
    which says that the body ran exactly when it was started. *)
Definition counted (t t' : TaskState) : Prop :=
  exists o f, runs t' = runs t ++ [o] /\ last_fire t' = Some f /\ fi_outcome f = o /\
    (body_started t' = true <-> o = SUCCESS \/ o = ERROR).

Lemma counted_report t x o n :
  body_started x = false -> runs x = runs t -> o <> SUCCESS -> o <> ERROR ->
  counted t (report_unrun_fire n o x).
Proof.
  intros Hx Hr H1 H2. exists o. eexists. cbn. rewrite Hr, Hx. split_and!; try done.
  split; [done|]. by intros [].
Qed.

(** The guard reports a tick that raised before the body, once. *)
Lemma guard_counted t t1 now' r :
  body_started t1 = false -> runs t1 = runs t ->
  runs (guard now' r t1).2 = runs t \/ counted t (guard now' r t1).2.
Proof.
  intros Hs Hr. unfold guard. destruct r as [u|e]; [by left|].
  destruct (isinstance e CancelledError); [by left|].
  destruct (is_would_block e); [right; by apply counted_report|].
  destruct (is_not_owned e); [by left|]. destruct (is_exception e); [|by left].
  rewrite Hs. right. by apply counted_report.
Qed.

(** It leaves alone a tick whose body was started. *)
Lemma guard_started t1 now' r :
  body_started t1 = true -> (forall e, r = Raise e -> is_would_block e = false) ->
  (guard now' r t1).2 = t1.
Proof.
  intros Hs Hr. unfold guard. destruct r as [u|e]; [done|].
  rewrite (Hr e eq_refl), Hs. by repeat case_match.
Qed.

Lemma claim_and_run_counted due now now' v t t0 b :
  match sync v with Some (_, Raise e) => is_would_block e = false | _ => True end ->
  body_started t0 = false -> runs t0 = runs t ->
  let '(r, t1, _) := claim_and_run name due now v t0 b in
  runs (guard now' r t1).2 = runs t \/ counted t (guard now' r t1).2.
Proof.
  intros Hsync H0 Hr0. unfold claim_and_run, claim_fire, run_claimed.
  destruct (sb_claim name due b) as [[[]|e] b2];
    [|right; by apply counted_report|by apply guard_counted].
  pose proof (run_emits v t0 H0 Hsync) as Hrun. destruct (run_ v t0) as [r t1].
  destruct Hrun as [(Hs & -> & e & ->)|(Hs & Hnw & Hruns)].
  - destruct (is_would_block e); [right; by apply counted_report|by apply guard_counted].
  - assert (runs t1 = runs t \/ counted t t1) as Hgoal.
    { rewrite Hr0 in Hruns. destruct Hruns as [Hr|(o & f & Ho & Hr & Hf & Hfo)]; [by left|].
      right. exists o, f. by rewrite Hs. }
    destruct r as [u|e]; [done|]. rewrite (Hnw e eq_refl). by rewrite guard_started.
Qed.

(** A tick emits at most one point of [grelmicro.task.runs], and
    [last_fire] then carries the outcome the point has: the counter and the
    attribute agree.  The point says that the body ran exactly when it was
    started.  A [sync] primitive may raise anything but [WouldBlockError] when
    it is left. *)
Lemma fire_reported_once (catchup : bool) (now now' : datetime) (v : fire_env)
    (cancelling : bool) (t : TaskState) (b : B)
    (Hsync : match sync v with
             | Some (_, Raise e) => is_would_block e = false
             | _ => True
             end) :
  let '(_, t', _) := tick_guarded name expr misfire_grace_seconds utcoffset
                       catchup now now' v cancelling t b in
  runs t' = runs t \/ counted t t'.
Proof.
  unfold tick_guarded. set (t0 := reset_started t).
  assert (body_started t0 = false /\ runs t0 = runs t) as [H0 Hr0] by done.
  assert (let '(r, t1, _) := tick name expr misfire_grace_seconds utcoffset catchup now v t0 b in
    runs (guard now' r t1).2 = runs t \/ counted t (guard now' r t1).2) as Htick.
  { unfold tick, tick_read. destruct (tick_due expr utcoffset now) as [[due|]|e];
      [|by apply (guard_counted t t0 now' (Return tt))|by apply guard_counted].
    destruct (sb_last_fired name b) as [[[last|]|e] b1]; [| |by apply guard_counted].
    2:{ cbn [tick_finish]. destruct (sb_claim name due b1) as [[won|e] b2]; by apply guard_counted. }
    destruct (Qle_bool due last).
    { cbn [tick_finish]. destruct catchup; [by left|]. right. by apply counted_report. }
    match goal with |- context [if ?late then (Return (PlanLate due), _, _) else _] =>
      destruct late end; cbn [tick_finish]; [|by apply claim_and_run_counted].
    unfold drop_late_fire. destruct (sb_claim name due b1) as [[[]|e] b2];
      [right; by apply counted_report..|by apply guard_counted]. }
  destruct (tick _ _ _ _ _ _ _ _ _) as [[r t1] b1].
  by destruct (guard now' r t1) as [r' t'].
Qed.
End Counting.

(** The body runs and the lock is lost when it is left. *)
Lemma fire_reported_once_witness :
  let due := timestamp utc (at_ 2025 3 1 0 0) in
  let b : Schedules := {[ "job"%string := (due - 900)%Q ]} in
  let v := mkEnv (Some (Return tt, Raise (mk_exn LockNotOwnedError NoInfo))) (Return tt)
             (at_ 2025 3 1 0 0) in
  let '(_, t', _) := tick_guarded "job" quarter None utc false (at_ 2025 3 1 0 1)
                       (at_ 2025 3 1 0 2) v false new_task b in
  runs t' = [SUCCESS] /\ (runs t' = runs new_task \/ counted new_task t').
Proof.
  intros due b v.
  set (t1 := mkTask (Some (mkFire (at_ 2025 3 1 0 0) SUCCESS)) true [SUCCESS]).
  set (b1 := (<["job"%string := due]> b) : Schedules).
  pose proof (fire_reported_once "job" quarter None utc false (at_ 2025 3 1 0 1)
    (at_ 2025 3 1 0 2) v false new_task b eq_refl) as Hp.
  assert (tick_guarded "job" quarter None utc false (at_ 2025 3 1 0 1) (at_ 2025 3 1 0 2) v
    false new_task b = (Return tt, t1, b1)) as E by (vm_compute; reflexivity).
  rewrite E in Hp |- *. split; [reflexivity|exact Hp].
Defined.

(** ** How long the loop sleeps *)

Section Zone.
Context (expr : CronExpression) (utcoffset : datetime -> Q).

Lemma previous_at r now :
  valid r -> valid now -> 8 <= year now <= 9991 -> cron_matches expr r = true ->
  minutes r <= minutes now <= minutes r + 1830 * 1440 ->
  (forall u, valid u -> cron_matches expr u = true -> minutes r < minutes u ->
     minutes now < minutes u) ->
  exists d, previous_or_equal expr now = Some (Return (Some d)) /\
    minutes d = minutes r /\ second d = 0%Q.
Proof.
  intros Hr Hn Hy Hm Hle Hnext. pose proof (previous_or_equal_result expr now Hn Hy) as Hp.
  unfold previous_result in Hp. change (minutes (truncate now)) with (minutes now) in Hp.
  destruct (previous_or_equal expr now) as [[[d|]|x]|]; try done.
  - destruct Hp as (Hd & Hs & Hmd & Hdl & Hnone). exists d. split_and!; [done| |done].
    destruct (Z.lt_trichotomy (minutes d) (minutes r)) as [L|[?|L]]; [|done|].
    + by rewrite (Hnone r Hr ltac:(lia)) in Hm.
    + specialize (Hnext d Hd Hmd ltac:(lia)). lia.
  - by rewrite (Hp r Hr ltac:(lia)) in Hm.
Qed.

(** In a zone of constant offset the loop sleeps for a positive time, until
    the next fire; and as long as the following fire is not due, a tick finds
    exactly the fire the loop slept for. *)
Lemma loop_wakes_for_the_fire (off : Q) (now r now' : datetime)
    (Hoff : forall t, utcoffset t = off)
    (Hnow : valid now /\ 7 <= year now <= 9990)
    (Hnext : next_after expr now = Some (Return r))
    (Hnow' : valid now' /\ 8 <= year now' <= 9991)
    (Hawake : minutes r <= minutes now' <= minutes r + 1830 * 1440)
    (Hbefore : forall u, valid u -> cron_matches expr u = true -> minutes r < minutes u ->
       minutes now' < minutes u) :
  (exists delay, loop_delay expr utcoffset now = Some (Return delay) /\ (0 < delay)%Q /\
     (timestamp utcoffset now + delay == timestamp utcoffset r)%Q) /\
  exists due, tick_due expr utcoffset now' = Return (Some due) /\
    due = timestamp utcoffset r.
Proof.
  destruct Hnow as [Hv Hy], Hnow' as [Hv' Hy'].
  destruct (next_after_result expr now Hv Hy) as (start & Est & Hn). rewrite Hnext in Hn.
  destruct Hn as (Hr & Hs & Hf & Hm & Hlt & _). split.
  - unfold loop_delay. rewrite Hnext. eexists. split; [reflexivity|].
    split; [|ring]. unfold timestamp. rewrite !Hoff, Hs.
    pose proof Hv as (_ & _ & _ & _ & _ & [_ Hs60] & _).
    assert (inject_Z ((minutes now - EPOCH) * 60) + 60 <= inject_Z ((minutes r - EPOCH) * 60))%Q.
    { change 60%Q with (inject_Z 60). rewrite <- inject_Z_plus, <- Zle_Qle. lia. }
    lra.
  - destruct (previous_at r now' Hr Hv' Hy' Hm Hawake Hbefore) as (d & E & Ed & Es).
    unfold tick_due. rewrite E. eexists. split; [reflexivity|].
    unfold timestamp. by rewrite Ed, Es, Hs, !Hoff.
Qed.

(** In the hour a zone repeats when its offset drops by [drop] seconds, the
    second pass does not sleep: the next fire is computed without [fold], so
    it is the one of the first pass, already over.  The delay of every turn is
    negative until a fire lies after the repeated hour. *)
Lemma repeated_hour_does_not_sleep (drop : Q) (now r : datetime)
    (Hnow : valid now /\ 7 <= year now <= 9990)
    (Hnext : next_after expr now = Some (Return r))
    (Hzone : (utcoffset r == utcoffset now + drop)%Q)
    (Hnear : (inject_Z ((minutes r - minutes now) * 60) < drop)%Q) :
  exists delay, loop_delay expr utcoffset now = Some (Return delay) /\ (delay < 0)%Q /\
    fold r = 0.
Proof.
  destruct Hnow as [Hv Hy]. destruct (next_after_result expr now Hv Hy) as (start & Est & Hn).
  rewrite Hnext in Hn. destruct Hn as (Hr & Hs & Hf & Hm & Hlt & _).
  unfold loop_delay. rewrite Hnext. eexists. split; [reflexivity|]. split; [|done].
  unfold timestamp. rewrite Hs. pose proof Hv as (_ & _ & _ & _ & _ & [Hs0 _] & _).
  assert (inject_Z ((minutes r - EPOCH) * 60) ==
    inject_Z ((minutes now - EPOCH) * 60) + inject_Z ((minutes r - minutes now) * 60))%Q as E.
  { rewrite <- inject_Z_plus. apply inject_Z_injective. lia. }
  rewrite E, Hzone. lra.
Qed.
End Zone.

Lemma loop_wakes_for_the_fire_witness :
  let now := at_ 2025 2 28 23 50 in
  let r := at_ 2025 3 1 0 0 in
  (exists delay, loop_delay quarter utc now = Some (Return delay) /\ (0 < delay)%Q /\
     (timestamp utc now + delay == timestamp utc r)%Q) /\
  exists due, tick_due quarter utc (at_ 2025 3 1 0 0) = Return (Some due) /\
    due = timestamp utc r.
Proof.
  intros now r. apply (loop_wakes_for_the_fire quarter utc 0 now r (at_ 2025 3 1 0 0)).
  - reflexivity.
  - split; [apply valid_at; unfold MAXYEAR; lia|cbn; lia].
  - vm_compute. reflexivity.
  - split; [apply valid_at; unfold MAXYEAR; lia|cbn; lia].
  - change (minutes r <= minutes r <= minutes r + 1830 * 1440). lia.
  - intros u _ _ Hu. exact Hu.
Defined.

(** Europe/Paris on 2025-10-26: the hour from 02:00 to 03:00 is repeated. *)
Definition paris (t : datetime) : Q :=
  let hour_ := (minutes t - minutes (at_ 2025 10 26 0 0)) / 60 in
  if hour_ <? 2 then 7200 else if (hour_ =? 2) && (fold t =? 0) then 7200 else 3600.

(** At the second 02:03 the task "every 5 minutes" waits for -3480 seconds,
    and without a backend its body runs at once. *)
Lemma repeated_hour_does_not_sleep_witness :
  let now := mkDatetime 2025 10 26 2 3 0 1 in
  let r := at_ 2025 10 26 2 5 in
  let e := every_minutes 5 in
  (exists delay, loop_delay e paris now = Some (Return delay) /\ (delay < 0)%Q /\ fold r = 0) /\
  forall v t, tick_local e paris false now v t = run_ v t.
Proof.
  intros now r e. split; [|intros v t; vm_compute; reflexivity].
  apply (repeated_hour_does_not_sleep e paris 3600 now r).
  - split; [|cbn; lia]. unfold valid, now. cbn [year month day hour minute second fold].
    split_and!; try lia; by vm_compute.
  - vm_compute. reflexivity.
  - vm_compute. reflexivity.
  - vm_compute. reflexivity.
Defined.
