(* ===== verification/TaskLock.v ===== *)
(** * The lock of a scheduled task

    [coordination/tasklock.py]: a lock that is not given back when the task
    ends but kept until [min_hold_duration] has passed since it was taken, so
    that another node does not run the task again.  It is a client of the class
    [LockBackend]; the theorems hold for any backend that keeps its promises.

    The clock is the one of the process; the backend reads it twice in a call,
    the lock once.  A [nonce] is the fresh suffix [generate_token_nonce]
    returns.  Threads run the same coroutines on the event loop. *)

From S2P Require Import Prelude Errors CoordinationMemory Lock.
From stdpp Require Import pretty.

Local Open Scope Z_scope.

(** [TaskLockConfig] *)
Record TaskLockConfig : Type := mkTaskLockConfig {
  tc_worker : string;
  tc_min_hold_duration : Q;
  tc_lease_duration : Q;
}.

(** [TaskLockConfig._validate], with pydantic's positive durations. *)
Definition task_lock_config_valid (c : TaskLockConfig) : bool :=
  (0 <? tc_min_hold_duration c)%py && (0 <? tc_lease_duration c)%py &&
  negb (tc_min_hold_duration c >? tc_lease_duration c)%py.

Section TaskLock.
Context {B : Type} `{LockBackend B}.

Record TaskLock : Type := mkTaskLock {
  tl_name : string;
  tl_config : TaskLockConfig;
  tl_acquired_at : option Q;
  tl_nonce : string;
  tl_store : B;
}.

(** [_lock_name] *)
Definition tl_lock_name (l : TaskLock) : string := "tasklock:" +:+ tl_name l.

Definition tl_set_store (s : B) (l : TaskLock) : TaskLock :=
  mkTaskLock (tl_name l) (tl_config l) (tl_acquired_at l) (tl_nonce l) s.
Definition tl_set_acquired (a : option Q) (l : TaskLock) : TaskLock :=
  mkTaskLock (tl_name l) (tl_config l) a (tl_nonce l) (tl_store l).
Definition tl_set_nonce (n : string) (l : TaskLock) : TaskLock :=
  mkTaskLock (tl_name l) (tl_config l) (tl_acquired_at l) n (tl_store l).

(** [generate_task_token] and [generate_thread_token] with the nonce. *)
Definition task_token (who : caller) (l : TaskLock) : string :=
  generate_token (tc_worker (tl_config l)) who +:+ tl_nonce l.

(** [do_acquire]; [now3] is the reading of [_acquired_at]. *)
Definition tl_do_acquire (token : string) (duration now1 now2 now3 : Q) (l : TaskLock) :
    outcome exn bool * TaskLock :=
  let '(r, s) := lb_acquire (tl_lock_name l) token duration now1 now2 (tl_store l) in
  let l := tl_set_store s l in
  match wrap LockAcquireError (tl_name l) r with
  | Raise e => (Raise e, l)
  | Return (Some _) => (Return true, tl_set_acquired (Some now3) l)
  | Return None => (Return false, l)
  end.

(** [do_release] *)
Definition tl_do_release (token : string) (now1 now2 : Q) (l : TaskLock) :
    outcome exn bool * TaskLock :=
  let '(r, s) := lb_release (tl_lock_name l) token now1 now2 (tl_store l) in
  (wrap LockReleaseError (tl_name l) r, tl_set_store s l).

(** [do_reacquire] *)
Definition tl_do_reacquire (token : string) (duration now1 now2 : Q) (l : TaskLock) :
    outcome exn bool * TaskLock :=
  let '(r, s) := lb_acquire (tl_lock_name l) token duration now1 now2 (tl_store l) in
  (match wrap LockReleaseError (tl_name l) r with
   | Raise e => Raise e
   | Return f => Return (match f with Some _ => true | None => false end)
   end, tl_set_store s l).

(** [__aenter__] and [do_thread_enter] *)
Definition tl_enter (who : caller) (now1 now2 now3 : Q) (l : TaskLock) :
    outcome exn unit * TaskLock :=
  match tl_acquired_at l with
  | Some _ => (Raise (mk_exn LockReentrantError (Named (tl_name l))), l)
  | None =>
      match tl_do_acquire (task_token who l) (tc_lease_duration (tl_config l))
              now1 now2 now3 l with
      | (Raise e, l) => (Raise e, l)
      | (Return false, l) => (Raise (mk_exn WouldBlockError NoInfo), l)
      | (Return true, l) => (Return tt, l)
      end
  end.

(** [do_exit]; [now0] is the reading the elapsed time is computed from. *)
Definition tl_do_exit (token : string) (min_hold_duration now0 now1 now2 : Q)
    (nonce : string) (l : TaskLock) : outcome exn unit * TaskLock :=
  let not_owned := Raise (mk_exn LockNotOwnedError (Named (tl_name l))) in
  match tl_acquired_at l with
  | None => (not_owned, l)
  | Some acquired_at =>
      let elapsed := (now0 - acquired_at)%Q in
      let l := tl_set_nonce nonce (tl_set_acquired None l) in
      let '(r, l) :=
        if (elapsed >=? min_hold_duration)%py then tl_do_release token now1 now2 l
        else tl_do_reacquire token (min_hold_duration - elapsed) now1 now2 l in
      (match r with
       | Raise e => Raise e
       | Return true => Return tt
       | Return false => not_owned
       end, l)
  end.

(** [__aexit__] and [do_thread_exit]; [config] is the one captured on entry to
    the call. *)
Definition tl_exit (who : caller) (now0 now1 now2 : Q) (nonce : string) (l : TaskLock) :
    outcome exn unit * TaskLock :=
  tl_do_exit (task_token who l) (tc_min_hold_duration (tl_config l)) now0 now1 now2 nonce l.

(** [refresh] *)
Definition tl_refresh (who : caller) (now1 now2 : Q) (l : TaskLock) :
    outcome exn unit * TaskLock :=
  let not_owned := Raise (mk_exn LockNotOwnedError (Named (tl_name l))) in
  match tl_acquired_at l with
  | None => (not_owned, l)
  | Some _ =>
      match tl_do_reacquire (task_token who l) (tc_lease_duration (tl_config l)) now1 now2 l with
      | (Raise e, l) => (Raise e, l)
      | (Return true, l) => (Return tt, l)
      | (Return false, l) => (not_owned, l)
      end
  end.

(** [locked] *)
Definition tl_locked (now : Q) (l : TaskLock) : outcome exn bool :=
  wrap LockLockedCheckError (tl_name l) (lb_locked (tl_lock_name l) now (tl_store l)).

(** [_apply_reconfigure] and the swap: the worker cannot change. *)
Definition tl_reconfigure (c : TaskLockConfig) (l : TaskLock) : outcome exn unit * TaskLock :=
  if decide (tc_worker c = tc_worker (tl_config l))
  then (Return tt, mkTaskLock (tl_name l) c (tl_acquired_at l) (tl_nonce l) (tl_store l))
  else (Raise (mk_exn ValueError NoInfo), l).

(** ** What the lock keeps others from

    The other workers are any calls on the backend that present another
    token. *)

Definition other_token (token : string) (e : lock_event) : Prop :=
  match le_op e with
  | OAcquire t _ => t <> token
  | ORelease t => t <> token
  end.

(** From [now] to [until] the lock belongs to [token]. *)
Definition held_through (token : string) (now until : Q) (l : Lease) : Prop :=
  forall t, (now <= t <= until)%Q -> live_holder t l = Some token.

Lemma held_through_equiv token now now' until a b :
  (now <= now')%Q -> lease_equiv now' b a -> held_through token now until a ->
  held_through token now' until b.
Proof.
  intros Hn [_ He] Ha t Ht. rewrite He by tauto. apply Ha. split; [lra|tauto].
Qed.

(** A granted token holds the lock to the end of its lease. *)
Lemma held_through_granted token d now1 now2 l f l' :
  lease_acquire token d now1 now2 l = (Some f, l') ->
  held_through token now2 (now2 + d) l'.
Proof.
  intros E t Ht. unfold lease_acquire in E.
  assert (l_holder l' = Some (token, (now2 + d)%Q)) as Hh.
  { destruct (live_holder now1 l); [case_decide|]; try discriminate; by injection E as <- <-. }
  unfold live_holder. rewrite Hh. destruct (Qlt_bool_spec (now2 + d) t); [lra|done].
Qed.

(** While the lock is held, a call of another worker is refused, and after it
    the lock is still held. *)
Lemma lock_exec_held token now until e s n :
  lb_ok s -> (now <= le_now1 e)%Q -> (le_now1 e <= le_now2 e)%Q ->
  (if le_op e is OAcquire _ d then (0 < d)%Q else True) ->
  other_token token e -> held_through token now until (lb_lease s n) ->
  let '(r, s') := lock_exec e s in
  lb_ok s' /\ held_through token (le_now2 e) until (lb_lease s' n) /\
  (le_name e = n -> (le_now1 e < until)%Q -> forall f, r <> RAcquire (Return (Some f))).
Proof.
  intros Hok H1 H2 Hd Ho Hh. destruct e as [name now1 now2 o].
  unfold lock_exec, other_token in *. cbn [le_name le_now1 le_now2 le_op] in *.
  destruct o as [tok d|tok].
  - pose proof (lb_acquire_spec name tok d now1 now2 s Hok H2 Hd) as Hs.
    destruct (lb_acquire _ _ _ _ _ _) as [r s'].
    destruct (lease_acquire tok d now1 now2 (lb_lease s name)) as [r' l'] eqn:El.
    destruct Hs as (Hok' & Hn & Hr). split; [done|].
    destruct (decide (n = name)) as [->|Hne].
    2:{ split; [|congruence]. eapply held_through_equiv; [|by apply Hn|exact Hh]. lra. }
    destruct (Qlt_le_dec until now1) as [L|L].
    { split; [intros t Ht; lra|intros _ Hle; lra]. }
    assert (live_holder now1 (lb_lease s name) = Some token) as Hl by (apply Hh; lra).
    unfold lease_acquire in El. rewrite Hl, decide_False in El by congruence.
    injection El as <- <-.
    assert (lease_equiv now2 (lb_lease s' name) (lb_lease s name)) as He
      by (destruct r; [by destruct Hr|by destruct Hr]).
    split; [eapply held_through_equiv; [|exact He|exact Hh]; lra|].
    intros _ _ f [= ->]. by destruct Hr.
  - pose proof (lb_release_spec name tok now1 now2 s Hok H2) as Hs.
    destruct (lb_release _ _ _ _ _) as [r s'].
    destruct (lease_release tok now1 (lb_lease s name)) as [r' l'] eqn:El.
    destruct Hs as (Hok' & Hn & Hr). split; [done|]. split; [|done].
    destruct (decide (n = name)) as [->|Hne].
    2:{ eapply held_through_equiv; [|by apply Hn|exact Hh]. lra. }
    destruct (Qlt_le_dec until now1) as [L|L]; [intros t Ht; lra|].
    assert (live_holder now1 (lb_lease s name) = Some token) as Hl by (apply Hh; lra).
    unfold lease_release in El. rewrite Hl, decide_False in El by congruence.
    injection El as <- <-.
    assert (lease_equiv now2 (lb_lease s' name) (lb_lease s name)) as He
      by (destruct r; [by destruct Hr|by destruct Hr]).
    eapply held_through_equiv; [|exact He|exact Hh]. lra.
Qed.

(** No call of the list takes the lock before [until]. *)
Definition none_granted (n : string) (until : Q) (es : list lock_event)
    (rs : list lock_result) : Prop :=
  Forall2 (fun e r => le_name e = n -> (le_now1 e < until)%Q ->
     forall f, r <> RAcquire (Return (Some f))) es rs.

Lemma lock_run_held token now until es s n :
  lb_ok s -> lock_timed now es -> Forall (other_token token) es ->
  held_through token now until (lb_lease s n) ->
  let '(rs, s') := run lock_exec es s in
  lb_ok s' /\ none_granted n until es rs /\
  exists now', (now <= now')%Q /\ held_through token now' until (lb_lease s' n) /\
    forall t, (now <= t)%Q -> (forall e, e ∈ es -> (le_now2 e <= t)%Q) -> (now' <= t)%Q.
Proof.
  intros Hok Ht Ho Hh. revert now s Hok Ht Hh.
  induction Ho as [|e es He Ho IH]; intros now s Hok Ht Hh.
  { split_and!; [done|constructor|]. exists now. split_and!; try done. apply Qle_refl. }
  destruct Ht as (H1 & H2 & Hd & Ht). cbn [run].
  pose proof (lock_exec_held token now until e s n Hok H1 H2 Hd He Hh) as Hx.
  destruct (lock_exec e s) as [r s1]. destruct Hx as (Hok1 & Hh1 & Hr).
  specialize (IH (le_now2 e) s1 Hok1 Ht Hh1).
  destruct (run lock_exec es s1) as [rs s2]. destruct IH as (Hok2 & Hn & now' & Hle & Hh2 & Hlast).
  split_and!; [done|by constructor|]. exists now'. split_and!; [lra|done|].
  intros t Hnow Hes. apply Hlast; [apply Hes; left|]. intros e' He'. apply Hes. by right.
Qed.

Lemma none_granted_late now n until es s :
  lock_timed now es -> (until <= now)%Q -> none_granted n until es (run lock_exec es s).1.
Proof.
  revert now s. induction es as [|e es IH]; intros now s Ht Hu; [constructor|].
  destruct Ht as (H1 & H2 & _ & Ht). cbn [run]. destruct (lock_exec e s) as [r s1].
  specialize (IH (le_now2 e) s1 Ht ltac:(lra)). destruct (run lock_exec es s1) as [rs s2].
  constructor; [|done]. intros _ Hlt. lra.
Qed.

(** What a successful entry leaves behind. *)
Lemma tl_enter_held who n1 n2 n3 l l1 :
  lb_ok (tl_store l) -> (n1 <= n2)%Q -> (0 < tc_lease_duration (tl_config l))%Q ->
  tl_enter who n1 n2 n3 l = (Return tt, l1) ->
  lb_ok (tl_store l1) /\ tl_name l1 = tl_name l /\ tl_config l1 = tl_config l /\
  tl_nonce l1 = tl_nonce l /\ tl_acquired_at l1 = Some n3 /\
  held_through (task_token who l) n2 (n2 + tc_lease_duration (tl_config l))
    (lb_lease (tl_store l1) (tl_lock_name l)).
Proof.
  intros Hok Hn Hd. unfold tl_enter. destruct (tl_acquired_at l); [done|].
  unfold tl_do_acquire.
  pose proof (lb_acquire_spec (tl_lock_name l) (task_token who l)
    (tc_lease_duration (tl_config l)) n1 n2 (tl_store l) Hok Hn Hd) as Hs.
  destruct (lb_acquire _ _ _ _ _ _) as [r s'], (lease_acquire _ _ _ _ _) as [r' l'] eqn:El.
  destruct Hs as (Hok' & _ & Hr). destruct r as [f|e]; cbn [wrap];
    [|by destruct (is_exception e)]. destruct Hr as [-> Hr].
  destruct r' as [f|]; [|done]. intros [= <-]. cbn. split_and!; try done.
  eapply held_through_equiv; [apply Qle_refl|exact Hr|]. by eapply held_through_granted.
Qed.

(** The exit of the holder: the lock is given back, or kept for the rest of
    the minimum. *)
Lemma tl_exit_spec who x0 x1 x2 nonce l l2 acquired_at :
  lb_ok (tl_store l) -> (x1 <= x2)%Q -> tl_acquired_at l = Some acquired_at ->
  tl_exit who x0 x1 x2 nonce l = (Return tt, l2) ->
  lb_ok (tl_store l2) /\
  let rest := (tc_min_hold_duration (tl_config l) - (x0 - acquired_at))%Q in
  let lease := lb_lease (tl_store l2) (tl_lock_name l) in
  if (x0 - acquired_at >=? tc_min_hold_duration (tl_config l))%py
  then exists f, lease_equiv x2 lease (mkLease None f)
  else exists f, lease_equiv x2 lease (mkLease (Some (task_token who l, x2 + rest)%Q) f).
Proof.
  intros Hok Hx Ha. unfold tl_exit, tl_do_exit. rewrite Ha. cbn zeta.
  destruct (Qle_bool_spec (tc_min_hold_duration (tl_config l)) (x0 - acquired_at)) as [L|L].
  - unfold tl_do_release. cbn [tl_set_nonce tl_set_acquired tl_name tl_store].
    change (tl_lock_name (tl_set_nonce nonce (tl_set_acquired None l))) with (tl_lock_name l).
    pose proof (lb_release_spec (tl_lock_name l) (task_token who l) x1 x2 (tl_store l) Hok Hx) as Hs.
    destruct (lb_release _ _ _ _ _) as [r s'], (lease_release _ _ _) as [r' l'] eqn:El.
    destruct Hs as (Hok' & _ & Hr). destruct r as [b|e]; cbn [wrap];
      [|by destruct (is_exception e)]. destruct Hr as [-> Hr].
    destruct r'; [|done]. intros [= <-]. split; [done|].
    unfold lease_release in El. case_decide; [|done]. injection El as <-.
    by eexists.
  - unfold tl_do_reacquire. cbn [tl_set_nonce tl_set_acquired tl_name tl_store].
    change (tl_lock_name (tl_set_nonce nonce (tl_set_acquired None l))) with (tl_lock_name l).
    pose proof (lb_acquire_spec (tl_lock_name l) (task_token who l)
      (tc_min_hold_duration (tl_config l) - (x0 - acquired_at)) x1 x2 (tl_store l) Hok Hx
      ltac:(lra)) as Hs.
    destruct (lb_acquire _ _ _ _ _ _) as [r s'], (lease_acquire _ _ _ _ _) as [r' l'] eqn:El.
    destruct Hs as (Hok' & _ & Hr). destruct r as [b|e]; cbn [wrap];
      [|by destruct (is_exception e)]. destruct Hr as [-> Hr].
    destruct r' as [f|]; [|done]. intros [= <-]. split; [done|].
    unfold lease_acquire in El.
    destruct (live_holder x1 _); [case_decide|]; try done; injection El as <- <-; by eexists.
Qed.

(** C9 Nobody else runs the task before the minimum has passed.  While a worker
    is inside, no other token is granted before the end of its lease; and when
    it leaves within its lease, no other token is granted before
    [min_hold_duration] has passed since it took the lock, however early it
    left.  The other workers make any calls on the backend. *)
Theorem task_lock_holds_minimum (who : caller) (n1 n2 n3 x0 x1 x2 : Q) (nonce : string)
    (l l1 l2 : TaskLock) (es1 es2 : list lock_event) (rs1 rs2 : list lock_result) (s1 s2 : B)
    (Hok : lb_ok (tl_store l)) (Hvalid : task_lock_config_valid (tl_config l) = true)
    (Hclock : (n1 <= n2)%Q /\ (n2 <= n3)%Q /\ (n3 <= x0)%Q /\ (x0 <= x1)%Q /\ (x1 <= x2)%Q)
    (Henter : tl_enter who n1 n2 n3 l = (Return tt, l1))
    (Ht1 : lock_timed n3 es1) (Hbefore : Forall (fun e => (le_now2 e <= x0)%Q) es1)
    (Ho1 : Forall (other_token (task_token who l)) es1)
    (Hrun1 : run lock_exec es1 (tl_store l1) = (rs1, s1))
    (Hlease : (x1 <= n2 + tc_lease_duration (tl_config l))%Q)
    (Hexit : tl_exit who x0 x1 x2 nonce (tl_set_store s1 l1) = (Return tt, l2))
    (Ht2 : lock_timed x2 es2) (Ho2 : Forall (other_token (task_token who l)) es2)
    (Hrun2 : run lock_exec es2 (tl_store l2) = (rs2, s2)) :
  none_granted (tl_lock_name l) (n2 + tc_lease_duration (tl_config l)) es1 rs1 /\
  none_granted (tl_lock_name l) (n3 + tc_min_hold_duration (tl_config l)) es2 rs2.
Proof.
  destruct Hclock as (C1 & C2 & C3 & C4 & C5).
  unfold task_lock_config_valid in Hvalid. apply andb_prop in Hvalid as [Hv _].
  apply andb_prop in Hv as [_ Hd].
  assert (0 < tc_lease_duration (tl_config l))%Q as Hd0
    by (by destruct (Qlt_bool_spec 0 (tc_lease_duration (tl_config l)))).
  destruct (tl_enter_held _ _ _ _ _ _ Hok C1 Hd0 Henter)
    as (Hok1 & En & Ec & Eno & Ea & Hheld).
  assert (held_through (task_token who l) n3 (n2 + tc_lease_duration (tl_config l))
    (lb_lease (tl_store l1) (tl_lock_name l))) as Hheld3 by (intros t Ht; apply Hheld; lra).
  pose proof (lock_run_held _ _ _ _ _ _ Hok1 Ht1 Ho1 Hheld3) as Hr1. rewrite Hrun1 in Hr1.
  destruct Hr1 as (Hoks & Hn1 & now' & Hle & Hheld' & Hlast). split; [done|].
  assert (tl_lock_name (tl_set_store s1 l1) = tl_lock_name l) as Eln
    by (unfold tl_lock_name; cbn; by rewrite En).
  assert (task_token who (tl_set_store s1 l1) = task_token who l) as Etok
    by (unfold task_token; cbn; by rewrite Ec, Eno).
  destruct (tl_exit_spec who x0 x1 x2 nonce (tl_set_store s1 l1) l2 n3 Hoks C5 Ea Hexit)
    as [Hok2 Hspec]. rewrite Etok, Eln in Hspec. cbn [tl_set_store tl_config] in Hspec.
  rewrite Ec in Hspec. cbn zeta in Hspec.
  destruct (Qle_bool_spec (tc_min_hold_duration (tl_config l)) (x0 - n3)) as [L|L].
  - pose proof (none_granted_late x2 (tl_lock_name l)
      (n3 + tc_min_hold_duration (tl_config l)) es2 (tl_store l2) Ht2 ltac:(lra)) as Hg.
    by rewrite Hrun2 in Hg.
  - destruct Hspec as [f Hf].
    assert (held_through (task_token who l) x2 (n3 + tc_min_hold_duration (tl_config l))
      (lb_lease (tl_store l2) (tl_lock_name l))) as Hheld2.
    { eapply held_through_equiv; [apply Qle_refl|exact Hf|]. intros t Ht. unfold live_holder.
      cbn [l_holder]. match goal with |- context [(?a <? ?b)%py] =>
        destruct (Qlt_bool_spec a b) end; [lra|done]. }
    pose proof (lock_run_held _ _ _ _ _ _ Hok2 Ht2 Ho2 Hheld2) as Hr2. rewrite Hrun2 in Hr2.
    tauto.
Qed.

(** A worker that leaves never takes the lock back from another one nor
    gives back another one's: if the lease was lost to another worker, leaving
    raises [LockNotOwnedError] and the other keeps it; otherwise leaving frees
    the lock, and it is free for everybody once the minimum has passed. *)
Lemma task_lock_exit_frees_or_reports (who : caller) (x0 x1 x2 acquired_at : Q)
    (nonce : string) (l l2 : TaskLock) (r : outcome exn unit)
    (Hok : lb_ok (tl_store l)) (Hclock : (x1 <= x2)%Q)
    (Hin : tl_acquired_at l = Some acquired_at)
    (Hexit : tl_exit who x0 x1 x2 nonce l = (r, l2)) :
  tl_acquired_at l2 = None /\
  match r with
  | Return _ => forall t, (x2 < t)%Q ->
      (x2 + tc_min_hold_duration (tl_config l) < t + (x0 - acquired_at))%Q ->
      live_holder t (lb_lease (tl_store l2) (tl_lock_name l)) = None
  | Raise e =>
      exn_cls e = LockNotOwnedError -> 
      live_holder x1 (lb_lease (tl_store l) (tl_lock_name l)) <> Some (task_token who l) /\
      forall t, (x2 <= t)%Q ->
        live_holder t (lb_lease (tl_store l2) (tl_lock_name l)) =
        live_holder t (lb_lease (tl_store l) (tl_lock_name l))
  end.
Proof.
  split.
  { revert Hexit. unfold tl_exit, tl_do_exit. rewrite Hin. cbn zeta.
    unfold tl_do_release, tl_do_reacquire. destruct (Qle_bool _ _);
      [destruct (lb_release _ _ _ _ _)|destruct (lb_acquire _ _ _ _ _ _)];
      by intros [= <- <-]. }
  destruct r as [[]|e].
  - destruct (tl_exit_spec _ _ _ _ _ _ _ _ Hok Hclock Hin Hexit) as [_ Hs].
    intros t Ht1 Ht2. cbn zeta in Hs. destruct (Qle_bool _ _); destruct Hs as [f [_ Hf]];
      rewrite Hf by lra; unfold live_holder; cbn [l_holder]; [done|].
    match goal with |- context [(?a <? ?b)%py] =>
      destruct (Qlt_bool_spec a b) end; [done|lra].
  - intros He. revert Hexit. unfold tl_exit, tl_do_exit. rewrite Hin. cbn zeta.
    assert (forall A (x : outcome exn A), wrap LockReleaseError (tl_name l) x = Raise e -> False)
      as Hw.
    { intros A [a|y]; cbn [wrap]; [done|]. destruct (is_exception y) eqn:Ey; intros [= <-]; [done|].
      unfold is_exception, isinstance in Ey. by rewrite He in Ey. }
    destruct (Qle_bool_spec (tc_min_hold_duration (tl_config l)) (x0 - acquired_at)) as [L|L].
    + unfold tl_do_release. cbn [tl_set_nonce tl_set_acquired tl_name tl_store].
      change (tl_lock_name (tl_set_nonce nonce (tl_set_acquired None l))) with (tl_lock_name l).
      pose proof (lb_release_spec (tl_lock_name l) (task_token who l) x1 x2 (tl_store l) Hok Hclock)
        as Hs.
      destruct (lb_release _ _ _ _ _) as [r s'], (lease_release _ _ _) as [r' l'] eqn:El.
      destruct Hs as (_ & _ & Hr). unfold lease_release in El.
      destruct (wrap LockReleaseError (tl_name l) r) as [[]|y] eqn:Ew; intros [= <- <-];
        [|by destruct (Hw _ r)]. destruct r as [b|y]; cbn [wrap] in Ew;
        [|by destruct (is_exception y)]. injection Ew as ->. destruct Hr as [<- [_ Hr]].
      case_decide; [done|]. injection El as <-. by split.
    + unfold tl_do_reacquire. cbn [tl_set_nonce tl_set_acquired tl_name tl_store].
      change (tl_lock_name (tl_set_nonce nonce (tl_set_acquired None l))) with (tl_lock_name l).
      pose proof (lb_acquire_spec (tl_lock_name l) (task_token who l)
        (tc_min_hold_duration (tl_config l) - (x0 - acquired_at)) x1 x2 (tl_store l) Hok Hclock
        ltac:(lra)) as Hs.
      destruct (lb_acquire _ _ _ _ _ _) as [r s'], (lease_acquire _ _ _ _ _) as [r' l'] eqn:El.
      destruct Hs as (_ & _ & Hr). unfold lease_acquire in El.
      destruct (wrap LockReleaseError (tl_name l) r) as [[f|]|y] eqn:Ew; intros [= <- <-];
        [|by destruct (Hw _ r)]. destruct r as [b|y]; cbn [wrap] in Ew;
        [|by destruct (is_exception y)]. injection Ew as ->. destruct Hr as [<- [_ Hr]].
      destruct (live_holder x1 _) as [h|] eqn:Eh; [|done]. case_decide; [done|].
      injection El as <-. split; [congruence|done].
Qed.
End TaskLock.

Definition minute_task : TaskLock :=
  mkTaskLock (B := LockStore) "job" (mkTaskLockConfig "w1" 30 60) None ":0.aa" lock_init.

(** The task ends after 5 seconds; another worker tries while it runs, 20
    seconds after it started, and a minute later. *)
Lemma task_lock_holds_minimum_witness :
  let other t := mkLockEvent "tasklock:job" t t (OAcquire "w2:task:7:0.bb" 60) in
  exists l1 l2 rs1 rs2 s1 s2,
    tl_enter (Task 1) 100 100 100 minute_task = (Return tt, l1) /\
    run lock_exec [other 103%Q] (tl_store l1) = (rs1, s1) /\
    tl_exit (Task 1) 105 105 105 ":1.cc" (tl_set_store s1 l1) = (Return tt, l2) /\
    run lock_exec [other 120%Q; other 170%Q] (tl_store l2) = (rs2, s2) /\
    rs2 = [RAcquire (Return None); RAcquire (Return (Some 2))] /\
    none_granted "tasklock:job" (100 + 60) [other 103%Q] rs1 /\
    none_granted "tasklock:job" (100 + 30) [other 120%Q; other 170%Q] rs2.
Proof.
  intros other. do 6 eexists.
  split; [vm_compute; reflexivity|]. split; [vm_compute; reflexivity|].
  split; [vm_compute; reflexivity|]. split; [vm_compute; reflexivity|].
  split; [reflexivity|].
  eapply (task_lock_holds_minimum (Task 1) 100 100 100 105 105 105 ":1.cc" minute_task).
  - intros ? ? Hx. cbn in Hx. by rewrite lookup_empty in Hx.
  - reflexivity.
  - split_and!; lra.
  - vm_compute. reflexivity.
  - cbn. split_and!; try done; lra.
  - repeat constructor. cbn. lra.
  - by repeat constructor.
  - vm_compute. reflexivity.
  - cbn. lra.
  - vm_compute. reflexivity.
  - cbn. split_and!; try done; lra.
  - by repeat constructor.
  - vm_compute. reflexivity.
Defined.

(** The lease of 60 seconds has expired and another worker has the lock. *)
Lemma task_lock_exit_frees_or_reports_witness :
  let l := mkTaskLock (B := LockStore) "job" (mkTaskLockConfig "w1" 30 60) (Some 100%Q) ":0.aa"
             (mkLockStore {[ "tasklock:job"%string := ("w2:task:7:0.bb"%string, 230%Q) ]}
                {[ "tasklock:job"%string := 2 ]}) in
  exists r l2, tl_exit (Task 1) 180 180 180 ":1.cc" l = (r, l2) /\
    r = Raise (mk_exn LockNotOwnedError (Named "job")) /\
    tl_acquired_at l2 = None /\
    forall t, (180 <= t)%Q -> live_holder t (lb_lease (tl_store l2) (tl_lock_name l)) =
      live_holder t (lb_lease (tl_store l) (tl_lock_name l)).
Proof.
  intros l. do 2 eexists. split; [vm_compute; reflexivity|]. split; [reflexivity|].
  assert (lb_ok (tl_store l)) as Hok.
  { intros n x Hx. cbn in Hx. apply lookup_singleton_Some in Hx as [<- _]. by eexists. }
  pose proof (task_lock_exit_frees_or_reports (Task 1) 180 180 180 100 ":1.cc" l _ _ Hok
    (Qle_refl _) eq_refl ltac:(vm_compute; reflexivity)) as [Ha Hr].
  split; [exact Ha|]. exact (proj2 (Hr eq_refl)).
Defined.
