(* ===== verification/IntervalTask.v ===== *)
(** * Interval tasks

    [task/_interval.py]: the list of primitives a fire is run under, the nested
    [async with] blocks, one iteration of the loop and its guard.  A primitive
    is anything with [__aenter__] and [__aexit__]: the guard of a leader
    election, the [TaskLock], a lock of the user.  The effects of the primitives
    and of the body are on a state [W].

    Logging and the duration and gauge metrics are not modelled. *)

From S2P Require Import Prelude Errors CoordinationMemory Lock TaskLock Calendar CronTask.

Local Open Scope Z_scope.

(** ** The primitives of a task *)

(** [_resolve_task_lock]: a given lock is checked and named after the task if
    it still has the default name; otherwise one is built for the interval. *)
Definition resolve_task_lock {B} (name : string) (seconds : Q) (worker nonce : string)
    (lock : option (TaskLock (B := B))) (store : B) : outcome exn (TaskLock (B := B)) :=
  match lock with
  | None => Return (mkTaskLock name (mkTaskLockConfig worker seconds (seconds * 5)) None nonce store)
  | Some l =>
      if (tc_lease_duration (tl_config l) <? seconds)%py
      then Raise (mk_exn ValueError NoInfo)
      else if String.eqb (tl_name l) "default"
      then Return (mkTaskLock name (tl_config l) None nonce (tl_store l))
      else Return l
  end.

(** [_build_sync_list] *)
Definition build_sync_list {P} (leader : option P) (task_lock : P) (resource_lock : option P) :
    list P :=
  option_list leader ++ task_lock :: option_list resource_lock.

(** The branch of [__init__] that builds the list; [task_lock] is what
    [_resolve_task_lock] returned. *)
Definition sync_primitives {P} (leader sync : option P) (lock_given : bool) (task_lock : P) :
    list P :=
  if lock_given || bool_decide (is_Some leader)
  then build_sync_list leader task_lock sync
  else option_list sync.

(** ** One fire *)

Section Fire.
Context {W : Type}.

(** [__aexit__] receives the exception that leaves the block and says whether
    to swallow it. *)
Record Primitive : Type := mkPrimitive {
  p_enter : py W exn unit;
  p_exit : option exn -> py W exn bool;
}.

(** [_run_with_sync] past the last primitive. *)
Definition interval_body (body : py W exn unit) (now : datetime) :
    py (TaskState * W) exn unit :=
  fun '(t, w) =>
    let fire o := Some (mkFire now o) in
    match body w with
    | (Return _, w) => (Return tt, (mkTask (fire SUCCESS) true (runs t ++ [SUCCESS]), w))
    | (Raise e, w) =>
        if is_exception e
        then (Return tt, (mkTask (fire ERROR) true (runs t ++ [ERROR]), w))
        else (Raise e, (mkTask (fire ERROR) true (runs t), w))
    end.

(** [_run_with_sync] *)
Fixpoint run_with_sync (ps : list Primitive) (body : py W exn unit) (now : datetime) :
    py (TaskState * W) exn unit :=
  match ps with
  | [] => interval_body body now
  | p :: ps => fun '(t, w) =>
      match p_enter p w with
      | (Raise e, w) => (Raise e, (t, w))
      | (Return _, w) =>
          let '(r, (t, w)) := run_with_sync ps body now (t, w) in
          match p_exit p (match r with Raise e => Some e | Return _ => None end) w with
          | (Raise e, w) => (Raise e, (t, w))
          | (Return swallow, w) =>
              (match r with
               | Return _ => Return tt
               | Raise e => if (swallow : bool) then Return tt else Raise e
               end, (t, w))
          end
      end
  end.

(** One iteration of the loop of [__call__], before the sleep; its [except]
    clauses are those of a cron tick. *)
Definition iteration (ps : list Primitive) (body : py W exn unit) (now now' : datetime)
    (cancelling : bool) : py (TaskState * W) exn unit :=
  fun '(t, w) =>
    let '(r, (t, w)) := run_with_sync ps body now (reset_started t, w) in
    let '(r, t) := guard now' r t in
    (match r with
     | Return _ => if cancelling then Raise (mk_exn CancelledError NoInfo) else Return tt
     | Raise e => Raise e
     end, (t, w)).
End Fire.

(** ** The primitives nest

    The primitives and the body write what happens to them in a log; they
    succeed or fail as a scenario says. *)

Inductive event : Type := Entered (i : nat) | Refused (i : nat) | Ran | Left (i : nat).

Record scenario : Type := mkScenario {
  sc_enter : nat -> outcome exn unit;
  sc_exit : nat -> option exn -> outcome exn bool;
  sc_body : outcome exn unit;
}.

Definition logged (s : scenario) (i : nat) : Primitive (W := list event) :=
  mkPrimitive
    (fun log => (sc_enter s i, log ++ [match sc_enter s i with
                                        | Return _ => Entered i
                                        | Raise _ => Refused i
                                        end]))
    (fun e log => (sc_exit s i e, log ++ [Left i])).

Definition logged_body (s : scenario) : py (list event) exn unit :=
  fun log => (sc_body s, log ++ [Ran]).

Definition enters (s : scenario) (i : nat) : bool :=
  match sc_enter s i with Return _ => true | Raise _ => false end.

(** What a fire from primitive [i] on writes, with [n] primitives left. *)
Fixpoint fire_log (s : scenario) (i n : nat) : list event :=
  match n with
  | O => [Ran]
  | S n => if enters s i then Entered i :: fire_log s (S i) n ++ [Left i] else [Refused i]
  end.

Lemma run_with_sync_log s i n now t log :
  (run_with_sync (logged s <$> seq i n) (logged_body s) now (t, log)).2.2 =
  log ++ fire_log s i n.
Proof.
  revert i t log. induction n as [|n IH]; intros i t log; cbn.
  { unfold logged_body. destruct (sc_body s) as [[]|e]; [done|]. by destruct (is_exception e). }
  unfold enters. destruct (sc_enter s i) as [[]|e] eqn:Ee; [|done].
  specialize (IH (S i) t (log ++ [Entered i])).
  destruct (run_with_sync _ _ _ _) as [r [t1 log1]]. cbn in IH. subst log1.
  destruct (sc_exit s i _) as [b|e]; cbn; by rewrite <- !app_assoc.
Qed.

(** The first primitive that refuses, if there is one among [n]. *)
Lemma fire_log_shape s i n :
  (exists k, (k < n)%nat /\ (forall j, (j < k)%nat -> enters s (i + j) = true) /\
     enters s (i + k) = false /\
     fire_log s i n = (Entered <$> seq i k) ++ Refused (i + k) :: (Left <$> reverse (seq i k))) \/
  ((forall j, (j < n)%nat -> enters s (i + j) = true) /\
     fire_log s i n = (Entered <$> seq i n) ++ Ran :: (Left <$> reverse (seq i n))).
Proof.
  revert i. induction n as [|n IH]; intros i; [right; split; [lia|done]|]. cbn [fire_log].
  destruct (enters s i) eqn:Ei.
  - destruct (IH (S i)) as [(k & Hk & Hb & He & ->)|[Hb ->]]; [left|right].
    + exists (S k). split_and!; [lia| |by rewrite Nat.add_succ_r|].
      * intros [|j] Hj; [by rewrite Nat.add_0_r|]. rewrite Nat.add_succ_r. apply Hb. lia.
      * cbn [seq]. rewrite reverse_cons, fmap_app, Nat.add_succ_r. cbn.
        by rewrite <- app_assoc.
    + split.
      * intros [|j] Hj; [by rewrite Nat.add_0_r|]. rewrite Nat.add_succ_r. apply Hb. lia.
      * cbn [seq]. rewrite reverse_cons, fmap_app. cbn. by rewrite <- app_assoc.
  - left. exists 0%nat. rewrite Nat.add_0_r. split_and!; [lia|lia|done|done].
Qed.

(** The primitives of a task nest: they are entered in the order of the
    list, the body runs exactly when all of them were entered, and every
    primitive that was entered is left, in the reverse order, whatever fails
    inside or on the way out. *)
Lemma primitives_nest (s : scenario) (n : nat) (now now' : datetime) (cancelling : bool)
    (t : TaskState) :
  let '(_, (_, log)) := iteration (logged s <$> seq 0 n) (logged_body s) now now' cancelling
                          (t, []) in
  (Ran ∈ log <-> forall j, (j < n)%nat -> enters s j = true) /\
  exists k, (k <= n)%nat /\
    log = (Entered <$> seq 0 k) ++ (if (k <? n)%nat then Refused k else Ran) ::
          (Left <$> reverse (seq 0 k)).
Proof.
  unfold iteration. pose proof (run_with_sync_log s 0 n now (reset_started t) []) as Hl.
  destruct (run_with_sync _ _ _ _) as [r [t1 log]]. cbn in Hl. subst log.
  destruct (guard now' r t1) as [r' t'].
  assert (forall k x, Ran ∈ (Entered <$> seq 0 k) ++ x :: (Left <$> reverse (seq 0 k)) <-> x = Ran)
    as Hran.
  { intros k x. rewrite elem_of_app, elem_of_cons, !list_elem_of_fmap. split.
    - intros [(? & ? & _)|[?|(? & ? & _)]]; done.
    - intros ->. by right; left. }
  destruct (fire_log_shape s 0 n) as [(k & Hk & Hb & He & ->)|[Hb ->]]; cbn [Nat.add] in *.
  - split; [|exists k; split; [lia|]; by rewrite (proj2 (Nat.ltb_lt k n) Hk)].
    rewrite Hran. split; [done|]. intros Ha. rewrite Ha in He by done. done.
  - split; [by rewrite Hran|]. exists n. split; [lia|]. by rewrite Nat.ltb_irrefl.
Qed.
