(* ===== verification/LeaderElection.v ===== *)
(** * Leader election

    [coordination/leaderelection.py]: the object a worker runs to acquire and
    renew a lease, and what it tells its callers about leadership.  It is a
    client of the class [ElectionBackend]; [MemoryLeaderElectionAdapter] is an
    instance.

    A backend call is split in three: the loop sends it, the backend performs
    it, and the answer (or a failure, or the timeout) arrives.  [election_step]
    lets any number of workers do so in any order.  The backend and the workers
    read one clock.  The event loop is not blocked: the answer to a call is
    handled before [asyncio.timeout] would have cancelled it.

    Not modelled: the child tasks of [lead] (it races the body against
    [wait_lose_leader], which is here), logging. *)

From S2P Require Import Prelude Errors CoordinationMemory Lock.

Local Open Scope Z_scope.

(** ** The backend *)

Definition record_live (now : Q) (o : option LeaderRecord) : option LeaderRecord :=
  match o with
  | None => None
  | Some r => if (now >=? lr_renewed_at r + lr_lease_duration r)%py then None else Some r
  end.

(** What a call to [acquire_or_renew] leaves as the record, and returns. *)
Definition elect (token : string) (d : Q) (meta : gmap string string) (now1 now2 : Q)
    (o : option LeaderRecord) : LeaderRecord :=
  match record_live now2 o with
  | Some live =>
      if decide (lr_holder live <> token) then live
      else mkLeaderRecord (lr_holder live) d (lr_acquired_at live) now1 (lr_transitions live) meta
  | None =>
      let transitions :=
        match o with
        | None => 0
        | Some previous =>
            if decide (lr_holder previous = token) then lr_transitions previous
            else lr_transitions previous + 1
        end in
      mkLeaderRecord token d now1 now1 transitions meta
  end.

(** [release]: only the live holder's record is removed. *)
Definition dismiss (token : string) (now : Q) (o : option LeaderRecord) :
    bool * option LeaderRecord :=
  match record_live now o with
  | Some live => if decide (lr_holder live = token) then (true, None) else (false, o)
  | None => (false, o)
  end.

(** A call that raises may or may not have reached the store. *)
Class ElectionBackend (B : Type) := {
  eb_record : B -> string -> option LeaderRecord;
  eb_acquire_or_renew :
    string -> string -> Q -> gmap string string -> Q -> Q -> B -> outcome exn LeaderRecord * B;
  eb_release : string -> string -> Q -> B -> outcome exn bool * B;
  eb_acquire_law name token d meta now1 now2 b :
    let '(r, b') := eb_acquire_or_renew name token d meta now1 now2 b in
    let record := elect token d meta now1 now2 (eb_record b name) in
    (forall n, n <> name -> eb_record b' n = eb_record b n) /\
    match r with
    | Return v => v = record /\ eb_record b' name = Some record
    | Raise _ => eb_record b' name = eb_record b name \/ eb_record b' name = Some record
    end;
  eb_release_law name token now b :
    let '(r, b') := eb_release name token now b in
    let '(released, o) := dismiss token now (eb_record b name) in
    (forall n, n <> name -> eb_record b' n = eb_record b n) /\
    match r with
    | Return v => v = released /\ eb_record b' name = o
    | Raise _ => eb_record b' name = eb_record b name \/ eb_record b' name = o
    end;
}.

Lemma leader_live_record name now s : leader_live name now s = record_live now (s !! name).
Proof. done. Qed.

#[local] Obligation Tactic := idtac.

(** [MemoryLeaderElectionAdapter] never raises. *)
#[export] Program Instance memory_election : ElectionBackend Records := {
  eb_record s name := s !! name;
  eb_acquire_or_renew name token d meta now1 now2 s :=
    let '(r, s) := acquire_or_renew name token d (Some meta) now1 now2 s in (Return r, s);
  eb_release name token now s :=
    let '(r, s) := leader_release name token now s in (Return r, s);
}.
Next Obligation.
  intros name token d meta now1 now2 s. unfold acquire_or_renew, elect.
  rewrite leader_live_record. unfold record_live.
  destruct (s !! name) as [r|] eqn:E; [destruct (Qle_bool _ now2); [|case_decide]|]; cbn;
    (split; [intros n Hn; by rewrite ?lookup_insert_ne by done|]);
    (split; [done|]); by rewrite ?lookup_insert_eq.
Qed.
Next Obligation.
  intros name token now s. unfold leader_release, dismiss.
  rewrite leader_live_record. unfold record_live.
  destruct (s !! name) as [r|] eqn:E; [destruct (Qle_bool _ now); [|case_decide]|]; cbn;
    (split; [intros n Hn; by rewrite ?lookup_delete_ne by done|]);
    (split; [done|]); by rewrite ?lookup_delete_eq.
Qed.

(** ** The object of a worker *)

(** [LeaderElectionConfig] *)
Record LeaderElectionConfig : Type := mkElectionConfig {
  ec_worker : string;
  ec_lease_duration : Q;
  ec_renew_deadline : Q;
  ec_retry_interval : Q;
  ec_retry_jitter : Q;
  ec_backend_timeout : Q;
  ec_error_interval : Q;
}.

(** [LeaderElectionConfig._validate], with pydantic's positive durations. *)
Definition election_config_valid (c : LeaderElectionConfig) : bool :=
  (0 <? ec_lease_duration c)%py && (0 <? ec_renew_deadline c)%py &&
  (0 <? ec_retry_interval c)%py && (0 <? ec_backend_timeout c)%py &&
  (0 <? ec_error_interval c)%py &&
  negb (ec_renew_deadline c >=? ec_lease_duration c)%py &&
  negb (ec_retry_interval c >=? ec_renew_deadline c)%py &&
  negb (ec_backend_timeout c >=? ec_renew_deadline c)%py &&
  ((0 <=? ec_retry_jitter c)%py && (ec_retry_jitter c <? 1)%py).

Lemma election_config_renew c :
  election_config_valid c = true -> (ec_renew_deadline c < ec_lease_duration c)%Q.
Proof.
  unfold election_config_valid. rewrite !andb_true_iff. intros [[[[_ Hv] _] _] _]. revert Hv.
  by destruct (Qle_bool_spec (ec_lease_duration c) (ec_renew_deadline c)).
Qed.

(** [LeaderElection]; [el_waiting] are the callers asleep in
    [wait_for_leader], [el_losing] those in [wait_lose_leader] with the end of
    their timeout. *)
Record Election : Type := mkElection {
  el_name : string;
  el_config : LeaderElectionConfig;
  el_metadata : gmap string string;
  el_record : option LeaderRecord;
  service_running : bool;
  is_leader_flag : bool;
  state_updated_at : Q;
  last_confirmed_at : option Q;
  error_logged_at : option Q;
  el_waiting : gset nat;
  el_losing : gmap nat Q;
}.

(** [_lock_name] *)
Definition election_lock_name (l : Election) : string := "leader:" +:+ el_name l.

(** [_setup] *)
Definition new_election (name : string) (c : LeaderElectionConfig)
    (metadata : gmap string string) (now : Q) : Election :=
  mkElection name c metadata None false false now None None ∅ ∅.

Definition set_running (b : bool) (l : Election) : Election :=
  mkElection (el_name l) (el_config l) (el_metadata l) (el_record l) b (is_leader_flag l)
    (state_updated_at l) (last_confirmed_at l) (error_logged_at l) (el_waiting l) (el_losing l).
Definition set_record (r : LeaderRecord) (l : Election) : Election :=
  mkElection (el_name l) (el_config l) (el_metadata l) (Some r) (service_running l)
    (is_leader_flag l) (state_updated_at l) (last_confirmed_at l) (error_logged_at l)
    (el_waiting l) (el_losing l).
Definition set_error_logged (now : Q) (l : Election) : Election :=
  mkElection (el_name l) (el_config l) (el_metadata l) (el_record l) (service_running l)
    (is_leader_flag l) (state_updated_at l) (last_confirmed_at l) (Some now)
    (el_waiting l) (el_losing l).
Definition set_sleepers (w : gset nat) (s : gmap nat Q) (l : Election) : Election :=
  mkElection (el_name l) (el_config l) (el_metadata l) (el_record l) (service_running l)
    (is_leader_flag l) (state_updated_at l) (last_confirmed_at l) (error_logged_at l) w s.

(** [_is_renew_deadline_reached] *)
Definition is_renew_deadline_reached (c : LeaderElectionConfig) (now : Q) (l : Election) : bool :=
  (now - state_updated_at l >=? ec_renew_deadline c)%py.

(** [is_leader] *)
Definition is_leader (now : Q) (l : Election) : bool :=
  if is_leader_flag l then negb (is_renew_deadline_reached (el_config l) now l) else false.

(** [last_confirmation_age] *)
Definition last_confirmation_age (now : Q) (l : Election) : option Q :=
  (fun t => (now - t)%Q) <$> last_confirmed_at l.

(** [is_leader_confirmed_within] *)
Definition is_leader_confirmed_within (max_age now : Q) (l : Election) : bool :=
  match last_confirmed_at l with
  | Some t => is_leader_flag l && (now - t <=? max_age)%py
  | None => false
  end.

(** [_seconds_before_expiration_deadline] *)
Definition seconds_before_expiration_deadline (c : LeaderElectionConfig) (now : Q)
    (l : Election) : Q :=
  py_max (state_updated_at l + ec_lease_duration c - now) 0.

(** One turn of the loop of [wait_for_leader]: return, or sleep on the
    condition. *)
Definition wait_for_leader (who : nat) (now : Q) (l : Election) : bool * Election :=
  if is_leader now l then (true, set_sleepers (el_waiting l ∖ {[who]}) (el_losing l) l)
  else (false, set_sleepers ({[who]} ∪ el_waiting l) (el_losing l) l).

(** One turn of the loop of [wait_lose_leader]. *)
Definition wait_lose_leader (who : nat) (now1 now2 : Q) (l : Election) : bool * Election :=
  if is_leader now1 l then
    let timeout := seconds_before_expiration_deadline (el_config l) now2 l in
    (false, set_sleepers (el_waiting l) (<[who := (now2 + timeout)%Q]> (el_losing l)) l)
  else (true, set_sleepers (el_waiting l) (delete who (el_losing l)) l).

(** [_update_state]: the condition is notified when the flag changes. *)
Definition update_state (leader : bool) (now : Q) (l : Election) : Election :=
  let confirmed := if leader then Some now else None in
  let l' changed w s :=
    mkElection (el_name l) (el_config l) (el_metadata l) (el_record l) (service_running l)
      changed now confirmed (error_logged_at l) w s in
  if Bool.eqb leader (is_leader_flag l) then l' (is_leader_flag l) (el_waiting l) (el_losing l)
  else l' leader ∅ ∅.

(** [_check_error_interval]: whether the error is logged.  A logged time of
    0.0 is falsy. *)
Definition check_error_interval (c : LeaderElectionConfig) (now1 now2 : Q) (l : Election) :
    bool * Election :=
  (match error_logged_at l with
   | None => true
   | Some t => Qeq_bool t 0 || (now1 - t >? ec_error_interval c)%py
   end, set_error_logged now2 l).

(** [_try_acquire_or_renew] once the backend has answered ([else]) ... *)
Definition answered (c : LeaderElectionConfig) (record : LeaderRecord) (now : Q) (l : Election) :
    Election :=
  update_state (bool_decide (lr_holder record = ec_worker c)) now (set_record record l).

(** ... or failed ([except Exception]): [now1] and [now2] are the readings of
    [_check_error_interval], [now3] the one of the deadline test. *)
Definition failed (c : LeaderElectionConfig) (now1 now2 now3 now4 : Q) (l : Election) : Election :=
  let '(_, l) := check_error_interval c now1 now2 l in
  if is_renew_deadline_reached c now3 l then update_state false now4 l else l.

(** [_apply_reconfigure] and the swap: the worker cannot change. *)
Definition election_reconfigure (c : LeaderElectionConfig) (l : Election) :
    outcome exn unit * Election :=
  if decide (ec_worker c = ec_worker (el_config l))
  then (Return tt,
        mkElection (el_name l) c (el_metadata l) (el_record l) (service_running l)
          (is_leader_flag l) (state_updated_at l) (last_confirmed_at l) (error_logged_at l)
          (el_waiting l) (el_losing l))
  else (Raise (mk_exn CoordinationSettingsValidationError NoInfo), l).

(** [_LeaderGuard.__aenter__] *)
Definition guard_enter (now : Q) (l : Election) : outcome exn unit :=
  if is_leader now l then Return tt else Raise (mk_exn WouldBlockError NoInfo).

(** ** Workers over one backend *)

Section System.
Context {B : Type} `{ElectionBackend B}.
Context (name : string) (allowed : LeaderElectionConfig -> Prop).

(** A call in flight: when it was sent, with which config, and the answer of
    the backend if it has performed it. *)
Record lease_call : Type := mkCall {
  ca_sent_at : Q;
  ca_config : LeaderElectionConfig;
  ca_answer : option (outcome exn LeaderRecord);
}.

(** [es_lease] is the history of the model: the end of the last lease the
    backend gave to each worker since its loop started. *)
Record esystem : Type := mkSys {
  es_now : Q;
  es_store : B;
  es_workers : gmap string Election;
  es_calls : gmap string lease_call;
  es_lease : gmap string Q;
}.

Definition es_key : string := "leader:" +:+ name.

Definition end_of (r : LeaderRecord) : Q := (lr_renewed_at r + lr_lease_duration r)%Q.

Definition note_lease (w : string) (o : option LeaderRecord) (g : gmap string Q) :
    gmap string Q :=
  match o with
  | Some r => if decide (lr_holder r = w) then <[w := end_of r]> g else g
  | None => g
  end.

Inductive election_step : esystem -> esystem -> Prop :=
| es_time s now :
    (es_now s <= now)%Q ->
    election_step s (mkSys now (es_store s) (es_workers s) (es_calls s) (es_lease s))
(* [__call__] is entered by a worker that does not lead; it returns at once
   when the loop runs already ... *)
| es_start s w l :
    es_workers s !! w = Some l -> service_running l = false -> is_leader_flag l = false ->
    election_step s
      (mkSys (es_now s) (es_store s) (<[w := set_running true l]> (es_workers s))
         (delete w (es_calls s)) (delete w (es_lease s)))
(* ... and each turn of its loop sends a call *)
| es_send s w l :
    es_workers s !! w = Some l -> es_calls s !! w = None -> service_running l = true ->
    election_step s
      (mkSys (es_now s) (es_store s) (es_workers s)
         (<[w := mkCall (es_now s) (el_config l) None]> (es_calls s)) (es_lease s))
| es_perform s w l c now1 now2 r b' :
    es_workers s !! w = Some l -> es_calls s !! w = Some c -> ca_answer c = None ->
    (es_now s <= now1)%Q -> (now1 <= now2)%Q ->
    eb_acquire_or_renew es_key w (ec_lease_duration (ca_config c)) (el_metadata l) now1 now2
      (es_store s) = (r, b') ->
    election_step s
      (mkSys now2 b' (es_workers s)
         (<[w := mkCall (ca_sent_at c) (ca_config c) (Some r)]> (es_calls s))
         (note_lease w (eb_record b' es_key) (es_lease s)))
| es_answer s w l c record :
    es_workers s !! w = Some l -> es_calls s !! w = Some c ->
    ca_answer c = Some (Return record) ->
    (es_now s <= ca_sent_at c + ec_backend_timeout (ca_config c))%Q ->
    election_step s
      (mkSys (es_now s) (es_store s) (<[w := answered (ca_config c) record (es_now s) l]> (es_workers s))
         (delete w (es_calls s)) (es_lease s))
(* a failure, or the timeout, whatever the backend did *)
| es_fail s w l c now1 now2 now3 now4 :
    es_workers s !! w = Some l -> es_calls s !! w = Some c ->
    (es_now s <= now1)%Q -> (now1 <= now2)%Q -> (now2 <= now3)%Q -> (now3 <= now4)%Q ->
    election_step s
      (mkSys now4 (es_store s)
         (<[w := failed (ca_config c) now1 now2 now3 now4 l]> (es_workers s))
         (delete w (es_calls s)) (es_lease s))
(* the [finally] of [__call__]: the loop has ended and the lease is released *)
| es_stop s w l now r b' :
    es_workers s !! w = Some l -> (es_now s <= now)%Q ->
    eb_release es_key w now (es_store s) = (r, b') ->
    election_step s
      (mkSys now b' (<[w := set_running false l]> (es_workers s))
         (delete w (es_calls s)) (es_lease s))
(* the callers of the object *)
| es_wait s w l who :
    es_workers s !! w = Some l ->
    election_step s
      (mkSys (es_now s) (es_store s) (<[w := (wait_for_leader who (es_now s) l).2]> (es_workers s))
         (es_calls s) (es_lease s))
| es_wait_lose s w l who :
    es_workers s !! w = Some l ->
    election_step s
      (mkSys (es_now s) (es_store s)
         (<[w := (wait_lose_leader who (es_now s) (es_now s) l).2]> (es_workers s))
         (es_calls s) (es_lease s))
| es_reconfigure s w l c :
    es_workers s !! w = Some l -> allowed c ->
    (ec_renew_deadline c <= ec_renew_deadline (el_config l))%Q ->
    election_step s
      (mkSys (es_now s) (es_store s) (<[w := (election_reconfigure c l).2]> (es_workers s))
         (es_calls s) (es_lease s)).

(** Workers that have not called the backend yet. *)
Definition es_init (s : esystem) : Prop :=
  es_calls s = ∅ /\ es_lease s = ∅ /\
  forall w l, es_workers s !! w = Some l ->
    ec_worker (el_config l) = w /\ is_leader_flag l = false /\ allowed (el_config l).

(** ** One leader at a time *)

(** The answer to a call that reached the backend arrives early enough for the
    worker to step down within the lease it was given. *)
Definition timely (c : LeaderElectionConfig) : Prop :=
  election_config_valid c = true /\
  (ec_backend_timeout c + ec_renew_deadline c <= ec_lease_duration c)%Q.

















Hypothesis allowed_timely : forall c, allowed c -> timely c.











End System.

(** ** A partitioned leader *)

(** The readings of the clock in the handling of a failed call. *)
Definition readings : Type := Q * Q * Q * Q.
Definition deadline_read (t : readings) : Q := t.1.2.

Definition calls_failed (c : LeaderElectionConfig) (ts : list readings) (l : Election) : Election :=
  fold_left (fun l t => let '(n1, n2, n3, n4) := t in failed c n1 n2 n3 n4 l) ts l.

Lemma is_renew_deadline_reached_spec c now l :
  is_renew_deadline_reached c now l = true <->
  (state_updated_at l + ec_renew_deadline c <= now)%Q.
Proof.
  unfold is_renew_deadline_reached.
  destruct (Qle_bool_spec (ec_renew_deadline c) (now - state_updated_at l)) as [H|H].
  - split; [lra|done].
  - split; [done|lra].
Qed.

Lemma failed_before c n1 n2 n3 n4 l :
  (n3 < state_updated_at l + ec_renew_deadline c)%Q ->
  failed c n1 n2 n3 n4 l = set_error_logged n2 l.
Proof.
  intros H. unfold failed, check_error_interval.
  destruct (is_renew_deadline_reached _ n3 _) eqn:E; [|done].
  apply is_renew_deadline_reached_spec in E. cbn in E. lra.
Qed.

Lemma failed_after c n1 n2 n3 n4 l :
  (state_updated_at l + ec_renew_deadline c <= n3)%Q ->
  failed c n1 n2 n3 n4 l = update_state false n4 (set_error_logged n2 l).
Proof.
  intros H. unfold failed, check_error_interval.
  destruct (is_renew_deadline_reached _ n3 _) eqn:E; [done|].
  apply not_true_iff_false in E. rewrite is_renew_deadline_reached_spec in E. cbn in E. lra.
Qed.

Lemma calls_failed_before c ts l :
  Forall (fun t => (deadline_read t < state_updated_at l + ec_renew_deadline c)%Q) ts ->
  exists t, calls_failed c ts l = mkElection (el_name l) (el_config l) (el_metadata l) (el_record l)
    (service_running l) (is_leader_flag l) (state_updated_at l) (last_confirmed_at l) t
    (el_waiting l) (el_losing l).
Proof.
  revert l. induction ts as [|[[[n1 n2] n3] n4] ts IH]; intros l Ht.
  - exists (error_logged_at l). by destruct l.
  - apply Forall_cons_1 in Ht as [H1 Ht].
    change (calls_failed c ((n1, n2, n3, n4) :: ts) l) with
      (calls_failed c ts (failed c n1 n2 n3 n4 l)).
    rewrite failed_before by done.
    destruct (IH (set_error_logged n2 l)) as [t Et]; [done|]. exists t. exact Et.
Qed.

(** C18 A leader that the backend no longer answers: until the renew deadline,
    counted from the last answer, its failed calls change nothing, and it
    answers that it leads exactly until that deadline.  The first failure at or
    after the deadline drops the flag and the confirmation and wakes every
    caller that waits on the condition; from then on it does not lead. *)
Theorem partitioned_leader_steps_down ts n1 n2 n3 n4 l :
  let deadline := (state_updated_at l + ec_renew_deadline (el_config l))%Q in
  is_leader_flag l = true ->
  Forall (fun t => (deadline_read t < deadline)%Q) ts -> (deadline <= n3)%Q ->
  let before := calls_failed (el_config l) ts l in
  let after := failed (el_config l) n1 n2 n3 n4 before in
  (forall now, is_leader now before = true <-> (now < deadline)%Q) /\
  last_confirmed_at before = last_confirmed_at l /\
  el_waiting before = el_waiting l /\ el_losing before = el_losing l /\
  (forall now, is_leader now after = false) /\ last_confirmed_at after = None /\
  el_waiting after = ∅ /\ el_losing after = ∅.
Proof.
  intros deadline Hf Hts Hn before after. subst before after.
  destruct (calls_failed_before _ _ _ Hts) as [t ->].
  rewrite failed_after by done. unfold is_leader, update_state. cbn. rewrite Hf. cbn.
  split_and!; try done. intros now.
  match goal with |- context [is_renew_deadline_reached ?c now ?x] =>
    pose proof (is_renew_deadline_reached_spec c now x) as Hd;
    destruct (is_renew_deadline_reached c now x) end; cbn in *; subst deadline;
    split; intros; try done; [destruct Hd as [Hd _]; specialize (Hd eq_refl); lra|].
  destruct (Qlt_le_dec now (state_updated_at l + ec_renew_deadline (el_config l))) as [|Hle];
    [done|]. by apply Hd in Hle.
Qed.

(** Nobody waits past the lease for leadership to end: a caller that goes to
    sleep in [wait_lose_leader] sets its timeout to the end of the lease,
    counted from the last answer; if nothing happened to the object in between, the
    turn its timeout starts returns. *)
Lemma wait_lose_leader_returns who now l now' :
  election_config_valid (el_config l) = true ->
  is_leader now l = true ->
  let asleep := (wait_lose_leader who now now l).2 in
  (wait_lose_leader who now now l).1 = false /\
  exists t, el_losing asleep !! who = Some t /\
    (t == state_updated_at l + ec_lease_duration (el_config l))%Q /\
    ((t <= now')%Q -> (wait_lose_leader who now' now' asleep).1 = true /\
       el_losing (wait_lose_leader who now' now' asleep).2 !! who = None).
Proof.
  intros Hv Hl. unfold wait_lose_leader at 1 2. rewrite Hl. cbn.
  assert (Hr : (ec_renew_deadline (el_config l) < ec_lease_duration (el_config l))%Q)
    by (by apply election_config_renew).
  unfold is_leader in Hl. destruct (is_leader_flag l) eqn:Ef; [|done].
  apply negb_true_iff, not_true_iff_false in Hl. rewrite is_renew_deadline_reached_spec in Hl.
  split; [done|]. eexists. rewrite lookup_insert_eq. split; [done|].
  assert (Ht : (now + seconds_before_expiration_deadline (el_config l) now l ==
    state_updated_at l + ec_lease_duration (el_config l))%Q).
  { unfold seconds_before_expiration_deadline.
    match goal with |- context [py_max ?a ?b] =>
      destruct (py_max_cases a b) as [[? ->]|[? ->]] end; lra. }
  split; [done|]. intros Hn. unfold wait_lose_leader, is_leader. cbn. rewrite Ef.
  match goal with |- context [is_renew_deadline_reached ?c now' ?x] =>
    assert (is_renew_deadline_reached c now' x = true) as ->
      by (apply is_renew_deadline_reached_spec; cbn; lra) end.
  cbn. by rewrite lookup_delete_eq.
Qed.

(** ** Concrete runs *)

Definition cfg_default (w : string) : LeaderElectionConfig := mkElectionConfig w 15 10 2 0.1 5 30.


Definition fresh (c : LeaderElectionConfig) : Election := new_election "e" c ∅ 0.

(** The worker [w] sends a call at the current time, the memory backend performs
    it at once and answers at [t]. *)
Definition round_trip (w : string) (t : Q) (s : @esystem Records) : @esystem Records :=
  match es_workers s !! w with
  | Some l =>
      let '(r, b) := eb_acquire_or_renew (es_key "e") w (ec_lease_duration (el_config l))
        (el_metadata l) (es_now s) (es_now s) (es_store s) in
      match r with
      | Return record =>
          mkSys t b (<[w := answered (el_config l) record t l]> (es_workers s))
            (delete w (<[w := mkCall (es_now s) (el_config l) (Some r)]>
               (<[w := mkCall (es_now s) (el_config l) None]> (es_calls s))))
            (note_lease w (eb_record b (es_key "e")) (es_lease s))
      | Raise _ => s
      end
  | None => s
  end.

Lemma round_trip_steps allowed w t l (s : @esystem Records) :
  es_workers s !! w = Some l -> es_calls s !! w = None -> service_running l = true ->
  (es_now s <= t)%Q -> (t <= es_now s + ec_backend_timeout (el_config l))%Q ->
  rtc (election_step "e" allowed) s (round_trip w t s).
Proof.
  intros Ew Ec Hr H1 H2. unfold round_trip. rewrite Ew.
  destruct (eb_acquire_or_renew (es_key "e") w (ec_lease_duration (el_config l))
    (el_metadata l) (es_now s) (es_now s) (es_store s)) as [[record|e] b] eqn:E; [|done].
  eapply rtc_l; [by apply (es_send _ _ s w l)|].
  eapply rtc_l; [eapply (es_perform _ _ _ w l _ (es_now s) (es_now s)); cbn;
    [done|by rewrite lookup_insert_eq|done|lra|lra|done]|].
  eapply rtc_l; [apply (es_time _ _ _ t); cbn; lra|]. cbn.
  eapply rtc_l; [|apply rtc_refl].
  refine (es_answer _ _ (mkSys _ _ _ _ _) w l (mkCall _ _ (Some (Return record))) record _ _ _ _);
    cbn; [done|by rewrite lookup_insert_eq|done|lra].
Qed.

Definition two_workers (c : string -> LeaderElectionConfig) : @esystem Records :=
  mkSys 0 ∅ {["a" := set_running true (fresh (c "a")); "b" := set_running true (fresh (c "b"))]}
    ∅ ∅.

Definition answers (s : @esystem Records) (w : string) : option (bool * bool) :=
  (fun l => (service_running l, is_leader (es_now s) l)) <$> es_workers s !! w.


Lemma two_workers_init (c : string -> LeaderElectionConfig) (allowed : LeaderElectionConfig -> Prop) :
  (forall w, ec_worker (c w) = w /\ allowed (c w)) -> es_init allowed (two_workers c).
Proof.
  intros Hc. split_and!; [done|done|].
  intros w l. unfold two_workers; cbn [es_workers].
  rewrite lookup_insert_Some, lookup_singleton_Some.
  intros [[<- <-]|[_ [<- <-]]]; cbn; (split_and!; [apply Hc|done|apply Hc]).
Qed.


Lemma partitioned_leader_witness :
  let l := update_state true 1 (fresh (cfg_default "a")) in
  let after := failed (cfg_default "a") 12 12 12 12
    (calls_failed (cfg_default "a") [(3, 3, 3, 3)%Q; (8, 8, 8, 8)%Q] l) in
  is_leader 10 l = true /\ is_leader 12 after = false.
Proof.
  intros l after. split; [by vm_compute|].
  destruct (partitioned_leader_steps_down [(3, 3, 3, 3)%Q; (8, 8, 8, 8)%Q] 12 12 12 12 l)
    as (_ & _ & _ & _ & Ha & _).
  - by vm_compute.
  - repeat constructor; cbn; lra.
  - cbn; lra.
  - apply Ha.
Defined.

Lemma wait_lose_leader_witness :
  let l := update_state true 1 (fresh (cfg_default "a")) in
  (wait_lose_leader 0%nat 4 4 l).1 = false.
Proof.
  intros l. refine (proj1 (wait_lose_leader_returns 0%nat 4 l 4 _ _)); by vm_compute.
Defined.

(** ** What the guarantees do not cover *)

(** The validation accepts a backend timeout that leaves no room: two workers
    lead at once. *)
Definition cfg_late (w : string) : LeaderElectionConfig := mkElectionConfig w 15 14 2 0.1 13 30.

Lemma valid_config_two_leaders :
  exists s : @esystem Records,
    es_init (fun c => election_config_valid c = true) (two_workers cfg_late) /\
    rtc (election_step "e" (fun c => election_config_valid c = true)) (two_workers cfg_late) s /\
    answers s "a" = Some (true, true) /\ answers s "b" = Some (true, true).
Proof.
  pose (s1 := round_trip "a" 12 (two_workers cfg_late)).
  pose (s2 := mkSys 15 (es_store s1) (es_workers s1) (es_calls s1) (es_lease s1)).
  exists (round_trip "b" 15 s2). split_and!; [|..|by vm_compute|by vm_compute].
  - apply two_workers_init. intros w. by split; [|vm_compute].
  - transitivity s1.
    + eapply round_trip_steps; [done|done|done|cbn; lra|cbn; lra].
    + eapply rtc_l; [apply (es_time _ _ s1 15); by vm_compute|].
      eapply round_trip_steps; [by vm_compute|by vm_compute|done|by vm_compute|by vm_compute].
Qed.

(** A call of a worker with the default config, answered at once. *)
Definition elect_call (w : string) (now : Q) (b : Records) : outcome exn LeaderRecord * Records :=
  eb_acquire_or_renew (es_key "e") w (ec_lease_duration (cfg_default w)) ∅ now now b.

(** A worker whose loop is stalled handles the answer to its call nine seconds after
    the backend gave the lease, and leads beyond its end, next to the worker that
    took the lease over. *)
Lemma stalled_answer_two_leaders :
  let '(r1, b1) := elect_call "a" 0 ∅ in
  let '(r2, b2) := elect_call "b" 16 b1 in
  exists record1 record2, r1 = Return record1 /\ r2 = Return record2 /\
    is_leader 16 (answered (cfg_default "a") record1 9 (fresh (cfg_default "a"))) = true /\
    is_leader 16 (answered (cfg_default "b") record2 16 (fresh (cfg_default "b"))) = true.
Proof. cbn. eexists _, _. split_and!; try done; by vm_compute. Qed.

(** A stopped worker that led keeps answering that it leads, though it gave the
    lease back and another worker has it. *)
Lemma stopped_leader_still_answers :
  exists s : @esystem Records,
    rtc (election_step "e" timely) (two_workers cfg_default) s /\
    answers s "a" = Some (false, true) /\ answers s "b" = Some (true, true).
Proof.
  pose (s1 := round_trip "a" 0 (two_workers cfg_default)).
  pose (l1 := update_state true 0 (set_record (mkLeaderRecord "a" 15 0 0 0 ∅)
    (set_running true (fresh (cfg_default "a"))))).
  pose (s2 := mkSys (B := Records) 1 (eb_release (es_key "e") "a" 1 (es_store s1)).2
    (<["a" := set_running false l1]> (es_workers s1))
    (delete "a" (es_calls s1)) (es_lease s1)).
  exists (round_trip "b" 1 s2). split_and!; [|by vm_compute|by vm_compute].
  transitivity s1; [eapply round_trip_steps; [done|done|done|cbn; lra|cbn; lra]|].
  eapply rtc_l; [apply (es_stop _ _ s1 "a" l1 1 (eb_release (es_key "e") "a" 1 (es_store s1)).1);
    [by vm_compute|by vm_compute|apply surjective_pairing]|].
  eapply round_trip_steps; [by vm_compute|by vm_compute|done|by vm_compute|by vm_compute].
Qed.

(** A caller that found the renew deadline passed sleeps on when the next
    renewal succeeds: the flag never changed, so nothing notifies it. *)
Lemma waiter_misses_renewal :
  let c := cfg_default "a" in
  let l := update_state true 0 (fresh c) in
  let '(ready, asleep) := wait_for_leader 7%nat 11 l in
  let renewed := answered c (mkLeaderRecord "a" 15 0 11 0 ∅) 11 asleep in
  ready = false /\ is_leader 11 renewed = true /\ el_waiting renewed = {[7%nat]}.
Proof. by vm_compute. Qed.

(** The timeout of [wait_lose_leader] counts from the answer; the lease counts
    from the time the backend gave it. *)
Lemma wait_lose_outlives_lease :
  let c := cfg_default "a" in
  let record := elect "a" 15 ∅ 0 0 None in
  let l := answered c record 4 (fresh c) in
  let asleep := (wait_lose_leader 7%nat 13 13 l).2 in
  end_of record = 15%Q /\ (exists t, el_losing asleep !! 7%nat = Some t /\ (t == 19)%Q).
Proof. split; [by vm_compute|]. eexists. split; [by vm_compute|by vm_compute]. Qed.

(** A reconfiguration that raises the deadlines extends the leadership of a
    running leader past the lease it holds. *)
Lemma reconfigure_extends_leadership :
  let l := update_state true 0 (fresh (cfg_default "a")) in
  let c := mkElectionConfig "a" 60 50 2 0.1 5 30 in
  timely c /\ is_leader 20 l = false /\ is_leader 20 (election_reconfigure c l).2 = true.
Proof. split; [split; [by vm_compute|cbn; lra]|]. by vm_compute. Qed.
