(* ===== verification/OutboxMemory.v ===== *)
(** * The outbox store

    [outbox/memory.py]: the messages with their delivery state and the
    operations of [MemoryOutboxAdapter].  The class [OutboxBackend] is what a
    store promises to the relay ([outbox/_protocol.py]); the adapter implements it.

    Instants ([datetime]) are exact, without the microsecond of [timedelta]; an
    id is the integer of its [UUID], which is how two ids compare.  The handle
    of [enqueue] is ignored by the adapter. *)

From S2P Require Import Prelude Errors.
From stdpp Require Export gmap sorting.

Local Open Scope Z_scope.

(** ** Messages *)

#[warnings="-register-all"]
Inductive json : Type :=
| JNull
| JBool (b : bool)
| JInt (z : Z)
| JFloat (q : Q)
| JString (s : string)
| JArray (l : list json)
| JObject (m : list (string * json)).

(** [OutboxRecord] *)
Record OutboxRecord : Type := mkOutboxRecord {
  ob_id : Z;
  ob_topic : string;
  ob_payload : list (string * json);
  ob_key : option string;
  ob_headers : list (string * json);
  ob_dedup_key : option string;
  ob_attempts : Z;
  ob_available_at : option Q;
}.

(** [replace(record, attempts=n)] *)
Definition with_attempts (n : Z) (r : OutboxRecord) : OutboxRecord :=
  mkOutboxRecord (ob_id r) (ob_topic r) (ob_payload r) (ob_key r) (ob_headers r)
    (ob_dedup_key r) n (ob_available_at r).

Inductive row_state : Type := Pending | Processing | Delivered | Dead.
#[export] Instance row_state_eq_dec : EqDecision row_state.
Proof. solve_decision. Defined.

(** [_Row] *)
Record Row : Type := mkRow {
  row_record : OutboxRecord;
  state : row_state;
  attempts : Z;
  available_at : Q;
  created_at : Q;
  last_error : option string;
  delivered_at : option Q;
}.

Abbreviation rows := (gmap Z Row).

(** [MemoryOutboxAdapter]: the rows and the wake event. *)
Record Outbox : Type := mkOutbox { ob_rows : rows; ob_wake : bool }.

Definition new_outbox : Outbox := mkOutbox ∅ false.

(** ** Operations on the rows *)

Definition has_dedup_key (k : string) (row : Row) : bool :=
  bool_decide (ob_dedup_key (row_record row) = Some k).

Definition duplicate (r : OutboxRecord) (m : rows) : bool :=
  match ob_dedup_key r with
  | Some k => existsb (fun p => has_dedup_key k p.2) (map_to_list m)
  | None => false
  end.

Definition enqueue_rows (r : OutboxRecord) (now : Q) (m : rows) : bool * rows :=
  if duplicate r m then (false, m)
  else (true, <[ob_id r := mkRow r Pending 0 (default now (ob_available_at r)) now None None]> m).

(** The rows a claim may take. *)
Definition claimable (topics : list string) (now : Q) (row : Row) : bool :=
  bool_decide (ob_topic (row_record row) ∈ topics) &&
  (bool_decide (state row = Pending) || bool_decide (state row = Processing)) &&
  (available_at row <=? now)%py.

(** [key=lambda row: (row.available_at, row.record.id)] *)
Definition claim_before (a b : Z * Row) : bool :=
  (available_at a.2 <? available_at b.2)%py ||
  (Qeq_bool (available_at a.2) (available_at b.2) &&
   (ob_id (row_record a.2) <=? ob_id (row_record b.2))).

Definition claim_order (a b : Z * Row) : Prop := claim_before a b = true.
#[export] Instance claim_order_dec a b : Decision (claim_order a b) :=
  bool_eq_dec (claim_before a b) true.

(** What a claim does to one row. *)
Definition claimed_row (lease now : Q) (row : Row) : Row :=
  mkRow (row_record row) Processing (attempts row + 1) (now + lease) (created_at row)
    (last_error row) (delivered_at row).

(** [xs[:limit]] *)
Definition up_to {A} (limit : Z) (l : list A) : list A :=
  if 0 <=? limit then take (Z.to_nat limit) l
  else take (Z.to_nat (Z.of_nat (length l) + limit)) l.

Definition due_rows (topics : list string) (limit : Z) (now : Q) (m : rows) : list (Z * Row) :=
  up_to limit (merge_sort claim_order
    (filter (fun p => claimable topics now p.2 = true) (map_to_list m))).

Definition take_rows (lease now : Q) (due : list (Z * Row)) (m : rows) : rows :=
  fold_left (fun m p => <[p.1 := claimed_row lease now p.2]> m) due m.

Definition claimed_record (p : Z * Row) : OutboxRecord :=
  with_attempts (attempts p.2 + 1) (row_record p.2).

Definition complete_rows (id n : Z) (keep : bool) (now : Q) (m : rows) : rows :=
  match m !! id with
  | None => m
  | Some row =>
      if decide (attempts row <> n) then m
      else if keep then
        <[id := mkRow (row_record row) Delivered (attempts row) (available_at row)
                  (created_at row) None (Some now)]> m
      else delete id m
  end.

Definition reschedule_rows (id n : Z) (delay : Q) (error : string) (dead : bool) (now : Q)
    (m : rows) : rows :=
  match m !! id with
  | None => m
  | Some row =>
      if decide (attempts row <> n) then m
      else if dead then
        <[id := mkRow (row_record row) Dead (attempts row) (available_at row) (created_at row)
                  (Some error) (delivered_at row)]> m
      else
        <[id := mkRow (row_record row) Pending (attempts row) (now + delay) (created_at row)
                  (Some error) (delivered_at row)]> m
  end.

Definition redrivable (topic : option string) (row : Row) : bool :=
  bool_decide (state row = Dead) &&
  match topic with
  | None => true
  | Some t => bool_decide (ob_topic (row_record row) = t)
  end.

Definition redriven (now : Q) (row : Row) : Row :=
  mkRow (row_record row) Pending 0 now (created_at row) None (delivered_at row).

Definition redrive_rows (topic : option string) (now : Q) (m : rows) : rows :=
  (fun row => if redrivable topic row then redriven now row else row) <$> m.

(** [row.delivered_at or row.created_at] *)
Definition purgeable (before : option Q) (states : list row_state) (now : Q) (row : Row) : bool :=
  bool_decide (state row ∈ states) &&
  match before with
  | None => true
  | Some seconds => (default (created_at row) (delivered_at row) <? now - seconds)%py
  end.

Definition purge_rows (before : option Q) (states : list row_state) (now : Q) (m : rows) : rows :=
  filter (fun p => purgeable before states now p.2 = false) m.

(** ** The adapter *)

Definition enqueue (r : OutboxRecord) (now : Q) (s : Outbox) : bool * Outbox :=
  let '(staged, m) := enqueue_rows r now (ob_rows s) in
  (staged, mkOutbox m (staged || ob_wake s)).

Definition outbox_claim (topics : list string) (limit : Z) (lease now : Q) (s : Outbox) :
    list OutboxRecord * Outbox :=
  let due := due_rows topics limit now (ob_rows s) in
  (claimed_record <$> due, mkOutbox (take_rows lease now due (ob_rows s)) (ob_wake s)).

Definition complete (id n : Z) (keep : bool) (now : Q) (s : Outbox) : Outbox :=
  mkOutbox (complete_rows id n keep now (ob_rows s)) (ob_wake s).

Definition reschedule (id n : Z) (delay : Q) (error : string) (dead : bool) (now : Q)
    (s : Outbox) : Outbox :=
  mkOutbox (reschedule_rows id n delay error dead now (ob_rows s)) (ob_wake s).

Definition redrive (topic : option string) (now : Q) (s : Outbox) : Z * Outbox :=
  let moved := Z.of_nat (size (filter (fun p => redrivable topic p.2 = true) (ob_rows s))) in
  (moved, mkOutbox (redrive_rows topic now (ob_rows s)) (negb (moved =? 0) || ob_wake s)).

Definition purge (before : option Q) (states : list row_state) (now : Q) (s : Outbox) :
    Z * Outbox :=
  (Z.of_nat (size (filter (fun p => purgeable before states now p.2 = true) (ob_rows s))),
   mkOutbox (purge_rows before states now (ob_rows s)) (ob_wake s)).

(** [wait_notify]: whatever ended the wait, the event is cleared. *)
Definition wait_notify (s : Outbox) : Outbox := mkOutbox (ob_rows s) false.

(** ** The order of delivery *)

Lemma claim_before_spec a b :
  BoolSpec
    ((available_at a.2 < available_at b.2)%Q \/
     ((available_at a.2 == available_at b.2)%Q /\ ob_id (row_record a.2) <= ob_id (row_record b.2)))
    ((available_at b.2 < available_at a.2)%Q \/
     ((available_at a.2 == available_at b.2)%Q /\ ob_id (row_record b.2) < ob_id (row_record a.2)))
    (claim_before a b).
Proof.
  unfold claim_before.
  destruct (Qlt_bool_spec (available_at a.2) (available_at b.2)); cbn; [by constructor; left|].
  destruct (Qeq_bool_spec (available_at a.2) (available_at b.2)); cbn.
  - destruct (Z.leb_spec (ob_id (row_record a.2)) (ob_id (row_record b.2))); constructor; by right.
  - constructor. left. lra.
Qed.

Lemma claim_order_spec a b :
  claim_order a b <->
  (available_at a.2 < available_at b.2)%Q \/
  ((available_at a.2 == available_at b.2)%Q /\ ob_id (row_record a.2) <= ob_id (row_record b.2)).
Proof.
  unfold claim_order. destruct (claim_before_spec a b) as [H|H]; split; try done.
  intros H'. exfalso. destruct H as [|[]], H' as [|[]]; lra || lia.
Qed.

#[export] Instance claim_order_total : Total claim_order.
Proof.
  intros a b. rewrite !claim_order_spec.
  destruct (Qlt_bool_spec (available_at a.2) (available_at b.2)); [by left; left|].
  destruct (Qeq_bool_spec (available_at a.2) (available_at b.2)).
  - destruct (Z.le_gt_cases (ob_id (row_record a.2)) (ob_id (row_record b.2)));
      [left|right]; right; split; (done || lia || lra).
  - right. left. lra.
Qed.

#[export] Instance claim_order_trans : Transitive claim_order.
Proof.
  intros a b c. rewrite !claim_order_spec. intros [|[]] [|[]];
    first [left; lra|right; split; [lra|lia]].
Qed.

(** ** What a claim takes *)

Lemma take_rows_cons lease now p due m :
  take_rows lease now (p :: due) m =
  take_rows lease now due (<[p.1 := claimed_row lease now p.2]> m).
Proof. done. Qed.

Lemma take_rows_other lease now due m id :
  id ∉ due.*1 -> take_rows lease now due m !! id = m !! id.
Proof.
  revert m. induction due as [|p due IH]; intros m; [done|].
  rewrite take_rows_cons, fmap_cons, not_elem_of_cons. intros [Hne Hin]. rewrite IH by done.
  by rewrite lookup_insert_ne.
Qed.

Lemma take_rows_due lease now due m id row :
  NoDup due.*1 -> (id, row) ∈ due -> take_rows lease now due m !! id = Some (claimed_row lease now row).
Proof.
  revert m. induction due as [|p due IH]; intros m; [set_solver|].
  rewrite take_rows_cons, fmap_cons.
  intros [Hnin Hnd]%NoDup_cons [<-|Hin]%elem_of_cons; [|by apply IH].
  cbn in *. rewrite take_rows_other by done. by rewrite lookup_insert_eq.
Qed.

Lemma up_to_prefix {A} limit (l : list A) : up_to limit l `prefix_of` l.
Proof.
  unfold up_to. destruct (0 <=? limit); eexists; symmetry; apply take_drop.
Qed.

Lemma due_rows_prefix topics limit now m :
  exists rest, NoDup ((due_rows topics limit now m ++ rest).*1) /\
    StronglySorted claim_order (due_rows topics limit now m ++ rest) /\
    (forall id row, (id, row) ∈ due_rows topics limit now m ++ rest <->
       m !! id = Some row /\ claimable topics now row = true) /\
    (0 <= limit -> (length (due_rows topics limit now m) <= Z.to_nat limit)%nat /\
      (rest = [] \/ length (due_rows topics limit now m) = Z.to_nat limit)).
Proof.
  unfold due_rows. set (l := filter _ _). pose proof (merge_sort_Permutation claim_order l) as Hp.
  destruct (up_to_prefix limit (merge_sort claim_order l)) as [rest Hrest].
  exists rest. rewrite <- Hrest. split_and!.
  - rewrite Hp. subst l. apply NoDup_fmap_fst.
    + intros id r1 r2. rewrite !list_elem_of_filter, !elem_of_map_to_list. naive_solver.
    + apply NoDup_filter, NoDup_map_to_list.
  - apply StronglySorted_merge_sort; apply _.
  - intros id row. rewrite Hp. subst l. rewrite list_elem_of_filter, elem_of_map_to_list. naive_solver.
  - intros Hl. unfold up_to in *. destruct (Z.leb_spec 0 limit); [|lia].
    rewrite length_take. split; [lia|].
    destruct (decide (Z.to_nat limit <= length (merge_sort claim_order l))%nat); [right; lia|left].
    rewrite take_ge in Hrest by lia. apply (f_equal length) in Hrest. rewrite length_app in Hrest.
    destruct rest; [done|cbn in Hrest; lia].
Qed.

(** ** What a store promises *)

(** A claim at [now] took the rows [due]. *)
Record claims (topics : list string) (limit : Z) (now : Q) (m : rows) (due : list (Z * Row)) :
    Prop := {
  cl_keys : NoDup due.*1;
  cl_due : Forall (fun p => m !! p.1 = Some p.2 /\ claimable topics now p.2 = true) due;
  cl_limit : 0 <= limit -> Z.of_nat (length due) <= limit;
}.

(** Two values a store may not tell apart: numbers of the same value ([1e16] and
    [10**16]), and objects with the same members in any order. *)
Fixpoint json_same (a b : json) : Prop :=
  match a, b with
  | JNull, JNull => True
  | JBool x, JBool y => x = y
  | JInt x, JInt y => x = y
  | JInt x, JFloat q | JFloat q, JInt x => inject_Z x == q
  | JFloat p, JFloat q => p == q
  | JString s, JString t => s = t
  | JArray l, JArray l' =>
      (fix same l l' :=
         match l, l' with
         | [], [] => True
         | x :: l, y :: l' => json_same x y /\ same l l'
         | _, _ => False
         end) l l'
  | JObject m, JObject m' =>
      length m = length m' /\
      (fix same m := match m with
                     | [] => True
                     | (k, v) :: m => (exists v', (k, v') ∈ m' /\ json_same v v') /\ same m
                     end) m
  | _, _ => False
  end.

Lemma json_same_refl a : json_same a a.
Proof.
  revert a. fix IH 1. intros [|b|z|q|s|l|m]; simpl; try done.
  - revert l. fix IHl 1. intros [|x l]; [done|]. split; [apply IH|apply IHl].
  - split; [done|]. assert (forall p, p ∈ m -> p ∈ m) as Hin by done. revert Hin. generalize m at 2 3 as m'. intros m'.
    revert m. fix IHm 1. intros [|[k v] m] Hin; [done|]. split.
    + exists v. split; [apply Hin; by left|apply IH].
    + apply IHm. intros p Hp. apply Hin. by right.
Qed.

(** What a store keeps of a message, and hands back with a claim. *)
Definition same_message (r r' : OutboxRecord) : Prop :=
  ob_id r' = ob_id r /\ ob_topic r' = ob_topic r /\ ob_key r' = ob_key r /\
  json_same (JObject (ob_payload r)) (JObject (ob_payload r')) /\
  json_same (JObject (ob_headers r)) (JObject (ob_headers r')).

(** The row of a message that was staged. *)
Definition staged_row (r : OutboxRecord) (row : Row) : Prop :=
  same_message r (row_record row) /\ ob_dedup_key (row_record row) = ob_dedup_key r /\
  state row = Pending /\ attempts row = 0 /\ last_error row = None /\ delivered_at row = None.

(** The record of a claimed row. *)
Definition reported (r : OutboxRecord) (p : Z * Row) : Prop :=
  same_message (row_record p.2) r /\ ob_attempts r = attempts p.2 + 1.

(** An operation that raises may or may not have reached the store.  [now]
    is the store's reading of its clock. *)
Class OutboxBackend (B : Type) := {
  bk_rows : B -> rows;
  bk_enqueue : OutboxRecord -> Q -> B -> outcome exn bool * B;
  bk_claim : list string -> Z -> Q -> Q -> B -> outcome exn (list OutboxRecord) * B;
  bk_complete : Z -> Z -> bool -> Q -> B -> outcome exn unit * B;
  bk_reschedule : Z -> Z -> Q -> string -> bool -> Q -> B -> outcome exn unit * B;
  bk_redrive : option string -> Q -> B -> outcome exn Z * B;
  bk_purge : option Q -> list row_state -> Q -> B -> outcome exn Z * B;
  bk_enqueue_law r now b :
    let '(res, b') := bk_enqueue r now b in
    match res with
    | Return true =>
        duplicate r (bk_rows b) = false /\ exists row, staged_row r row /\ bk_rows b' = <[ob_id r := row]> (bk_rows b)
    | Return false => duplicate r (bk_rows b) = true /\ bk_rows b' = bk_rows b
    | Raise _ => bk_rows b' = bk_rows b
    end;
  bk_claim_law topics limit lease now b :
    let '(res, b') := bk_claim topics limit lease now b in
    exists due, claims topics limit now (bk_rows b) due /\
    match res with
    | Return v => Forall2 reported v due /\ bk_rows b' = take_rows lease now due (bk_rows b)
    | Raise _ => bk_rows b' = bk_rows b \/ bk_rows b' = take_rows lease now due (bk_rows b)
    end;
  bk_complete_law id n keep now b :
    let '(res, b') := bk_complete id n keep now b in
    let m := complete_rows id n keep now (bk_rows b) in
    bk_rows b' = m \/ (exists e, res = Raise e) /\ bk_rows b' = bk_rows b;
  bk_reschedule_law id n delay error dead now b :
    let '(res, b') := bk_reschedule id n delay error dead now b in
    let m := reschedule_rows id n delay error dead now (bk_rows b) in
    bk_rows b' = m \/ (exists e, res = Raise e) /\ bk_rows b' = bk_rows b;
  bk_redrive_law topic now b :
    let '(res, b') := bk_redrive topic now b in
    let m := redrive_rows topic now (bk_rows b) in
    bk_rows b' = m \/ (exists e, res = Raise e) /\ bk_rows b' = bk_rows b;
  bk_purge_law before states now b :
    let '(res, b') := bk_purge before states now b in
    let m := purge_rows before states now (bk_rows b) in
    bk_rows b' = m \/ (exists e, res = Raise e) /\ bk_rows b' = bk_rows b;
}.

Lemma due_rows_claims topics limit now m : claims topics limit now m (due_rows topics limit now m).
Proof.
  destruct (due_rows_prefix topics limit now m) as (rest & Hnd & _ & Hin & Hlim). split.
  - rewrite fmap_app in Hnd. by apply NoDup_app in Hnd as [? _].
  - apply Forall_forall. intros [id row] Hp. apply Hin. apply elem_of_app. by left.
  - intros Hl. destruct (Hlim Hl). lia.
Qed.

#[local] Obligation Tactic := idtac.

(** The adapter never raises. *)
#[export] Program Instance memory_outbox : OutboxBackend Outbox := {
  bk_rows := ob_rows;
  bk_enqueue r now s := let '(v, s) := enqueue r now s in (Return v, s);
  bk_claim topics limit lease now s :=
    let '(v, s) := outbox_claim topics limit lease now s in (Return v, s);
  bk_complete id n keep now s := (Return tt, complete id n keep now s);
  bk_reschedule id n delay error dead now s :=
    (Return tt, reschedule id n delay error dead now s);
  bk_redrive topic now s := let '(v, s) := redrive topic now s in (Return v, s);
  bk_purge before states now s := let '(v, s) := purge before states now s in (Return v, s);
}.
Next Obligation.
  intros r now s. unfold enqueue, enqueue_rows. destruct (duplicate r (ob_rows s)) eqn:E; [done|].
  split; [done|]. eexists. split; [|done]. repeat (split; try apply json_same_refl).
Qed.
Next Obligation.
  intros topics limit lease now s. exists (due_rows topics limit now (ob_rows s)).
  split; [apply due_rows_claims|]. split; [|done].
  induction (due_rows topics limit now (ob_rows s)) as [|p due IH]; constructor; [|exact IH].
  repeat (split; try apply json_same_refl).
Qed.
Next Obligation. by left. Qed.
Next Obligation. by left. Qed.
Next Obligation. by left. Qed.
Next Obligation. by left. Qed.

(** A claim of the memory store takes the first [limit] due messages in the
    order of their availability: they are due rows of the asked topics, pending
    or with a lapsed lease; the list is sorted and has no message twice; a due
    row is left out only when the limit is reached, and then it does not come
    before any row taken.  Each row taken is leased until [now + lease] with one
    more attempt, which its record carries; every other row is untouched. *)
Lemma claim_takes_oldest_due topics limit lease now s :
  0 <= limit ->
  let '(records, s') := outbox_claim topics limit lease now s in
  exists due, records = claimed_record <$> due /\
    NoDup due.*1 /\ StronglySorted claim_order due /\
    Z.of_nat (length due) <= limit /\
    (forall id row, (id, row) ∈ due ->
       ob_rows s !! id = Some row /\ claimable topics now row = true /\
       ob_rows s' !! id = Some (claimed_row lease now row)) /\
    (forall id, id ∉ due.*1 -> ob_rows s' !! id = ob_rows s !! id) /\
    (forall id row, ob_rows s !! id = Some row -> claimable topics now row = true ->
       id ∉ due.*1 ->
       Z.of_nat (length due) = limit /\ forall p, p ∈ due -> claim_order p (id, row)).
Proof.
  intros Hl. unfold outbox_claim. cbn zeta iota.
  destruct (due_rows_prefix topics limit now (ob_rows s)) as (rest & Hnd & Hs & Hin & Hlim).
  destruct (Hlim Hl) as [Hlen Hrest]. set (due := due_rows _ _ _ _) in *.
  exists due. rewrite fmap_app in Hnd. apply NoDup_app in Hnd as (Hnd & Hdis & _).
  split_and!; try done.
  - by eapply StronglySorted_app_1_l.
  - lia.
  - intros id row Hp. cbn. rewrite (take_rows_due _ _ _ _ id row) by done.
    destruct (proj1 (Hin id row)) as [? ?]; [apply elem_of_app; by left|done].
  - intros id Hid. by apply take_rows_other.
  - intros id row Hr Hc Hid. assert (Hx : (id, row) ∈ due ++ rest) by (by apply Hin).
    apply elem_of_app in Hx as [Hx|Hx]; [destruct Hid; apply list_elem_of_fmap; by exists (id, row)|].
    destruct Hrest as [->|Hrest]; [by apply not_elem_of_nil in Hx|]. split; [lia|].
    intros p Hp. by eapply (StronglySorted_app_1_elem_of claim_order due rest).
Qed.

(** ** Well-formed stores *)

Record outbox_wf (m : rows) : Prop := {
  ow_id : forall id row, m !! id = Some row -> ob_id (row_record row) = id;
  ow_dedup : forall i j r1 r2 k, m !! i = Some r1 -> m !! j = Some r2 ->
    ob_dedup_key (row_record r1) = Some k -> ob_dedup_key (row_record r2) = Some k -> i = j;
  ow_attempts : forall id row, m !! id = Some row -> 0 <= attempts row;
  ow_state : forall id row, m !! id = Some row ->
    match state row with
    | Pending => True
    | Processing => 0 < attempts row
    | Delivered => is_Some (delivered_at row) /\ last_error row = None
    | Dead => is_Some (last_error row)
    end;
}.

(** What an operation that changes rows in place leaves alone. *)
Definition same_row (a b : Row) : Prop := row_record a = row_record b /\ created_at a = created_at b.

Definition row_wf (row : Row) : Prop :=
  0 <= attempts row /\
  match state row with
  | Pending => True
  | Processing => 0 < attempts row
  | Delivered => is_Some (delivered_at row) /\ last_error row = None
  | Dead => is_Some (last_error row)
  end.

Lemma outbox_wf_row m id row : outbox_wf m -> m !! id = Some row -> row_wf row.
Proof. intros H Hr. split; [by eapply ow_attempts|by eapply ow_state]. Qed.

(** Every row of the new store is an old one, changed in place. *)
Lemma outbox_wf_inplace m m' :
  outbox_wf m ->
  (forall id row', m' !! id = Some row' ->
     row_wf row' /\ exists row, m !! id = Some row /\ same_row row row') ->
  outbox_wf m'.
Proof.
  intros Hwf H. split.
  - intros id row' Hr. destruct (H id row' Hr) as (_ & row & Hm & [<- _]). by eapply ow_id.
  - intros i j r1 r2 k H1 H2. destruct (H i r1 H1) as (_ & r1' & E1 & [<- _]).
    destruct (H j r2 H2) as (_ & r2' & E2 & [<- _]). by eapply ow_dedup.
  - intros id row' Hr. by destruct (H id row' Hr) as [[? _] _].
  - intros id row' Hr. by destruct (H id row' Hr) as [[_ ?] _].
Qed.

Lemma outbox_wf_change m id row row' :
  outbox_wf m -> m !! id = Some row -> row_wf row' -> same_row row row' ->
  outbox_wf (<[id := row']> m).
Proof.
  intros Hwf Hm Hr Hs. apply (outbox_wf_inplace m); [done|].
  intros j r [[<- <-]|[Hne Hj]]%lookup_insert_Some; [split; [done|]; by exists row|].
  split; [by eapply outbox_wf_row|]. by exists r.
Qed.

Lemma duplicate_spec r m :
  duplicate r m = true <->
  exists k id row, ob_dedup_key r = Some k /\ m !! id = Some row /\
    ob_dedup_key (row_record row) = Some k.
Proof.
  unfold duplicate. destruct (ob_dedup_key r) as [k|]; [|split; [done|naive_solver]].
  rewrite existsb_exists. split.
  - intros ([id row] & Hin%list_elem_of_In%elem_of_map_to_list & Hk%bool_decide_eq_true).
    by exists k, id, row.
  - intros (k' & id & row & [= <-] & Hm & Hk). exists (id, row).
    split; [by apply list_elem_of_In, elem_of_map_to_list|by apply bool_decide_eq_true].
Qed.

Lemma outbox_wf_enqueue r now m : outbox_wf m -> outbox_wf (enqueue_rows r now m).2.
Proof.
  intros Hwf. unfold enqueue_rows. destruct (duplicate r m) eqn:Ed; [done|].
  assert (Hnew : forall k id row, ob_dedup_key r = Some k -> m !! id = Some row ->
    ob_dedup_key (row_record row) = Some k -> False).
  { intros k id row H1 H2 H3. apply not_true_iff_false in Ed. apply Ed, duplicate_spec.
    by exists k, id, row. }
  cbn [snd]. split.
  - intros id row [[<- <-]|[_ Hm]]%lookup_insert_Some; [done|by eapply ow_id].
  - intros i j r1 r2 k [[<- <-]|[_ H1]]%lookup_insert_Some [[<- <-]|[_ H2]]%lookup_insert_Some E1 E2;
      [done|by destruct (Hnew k j r2)|by destruct (Hnew k i r1)|by eapply ow_dedup].
  - intros id row [[<- <-]|[_ Hm]]%lookup_insert_Some; [cbn; lia|by eapply ow_attempts].
  - intros id row [[<- <-]|[_ Hm]]%lookup_insert_Some; [done|].
    by apply (ow_state m Hwf id).
Qed.

Lemma outbox_wf_take lease now due m :
  NoDup due.*1 -> Forall (fun p => m !! p.1 = Some p.2) due -> outbox_wf m ->
  outbox_wf (take_rows lease now due m).
Proof.
  intros Hnd Hdue Hwf. rewrite Forall_forall in Hdue.
  apply (outbox_wf_inplace m); [done|]. intros id row' Hr.
  destruct (decide (id ∈ due.*1)) as [Hin|Hnin].
  - apply list_elem_of_fmap in Hin as ([id' row] & Hid & Hp). cbn in Hid. subst id'.
    rewrite (take_rows_due _ _ _ _ id row) in Hr by done. injection Hr as <-.
    pose proof (Hdue _ Hp) as Hm. cbn in Hm. destruct (outbox_wf_row m id row Hwf Hm) as [Ha _].
    split; [split; cbn; lia|]. by exists row.
  - rewrite take_rows_other in Hr by done. split; [by eapply outbox_wf_row|]. by exists row'.
Qed.

Lemma outbox_wf_complete id n keep now m : outbox_wf m -> outbox_wf (complete_rows id n keep now m).
Proof.
  intros Hwf. unfold complete_rows. destruct (m !! id) as [row|] eqn:E; [|done].
  case_decide; [done|]. destruct keep.
  - eapply outbox_wf_change; [done..| |done]. split; cbn; [by eapply ow_attempts|by eauto].
  - apply (outbox_wf_inplace m); [done|]. intros j r [_ Hj]%lookup_delete_Some.
    split; [by eapply outbox_wf_row|]. by exists r.
Qed.

Lemma outbox_wf_reschedule id n delay error dead now m :
  outbox_wf m -> outbox_wf (reschedule_rows id n delay error dead now m).
Proof.
  intros Hwf. unfold reschedule_rows. destruct (m !! id) as [row|] eqn:E; [|done].
  case_decide; [done|]. destruct dead; eapply outbox_wf_change; try done;
    (split; cbn; [by eapply ow_attempts|by eauto]).
Qed.

Lemma redrive_rows_lookup topic now m id row' :
  redrive_rows topic now m !! id = Some row' ->
  exists row, m !! id = Some row /\
    row' = if redrivable topic row then redriven now row else row.
Proof. unfold redrive_rows. rewrite lookup_fmap_Some. naive_solver. Qed.

Lemma outbox_wf_redrive topic now m : outbox_wf m -> outbox_wf (redrive_rows topic now m).
Proof.
  intros Hwf. apply (outbox_wf_inplace m); [done|].
  intros id row' (row & Hm & ->)%redrive_rows_lookup. destruct (redrivable topic row).
  - split; [by split|]. by exists row.
  - split; [by eapply outbox_wf_row|]. by exists row.
Qed.

Lemma purge_rows_lookup before states now m id row :
  purge_rows before states now m !! id = Some row <->
  m !! id = Some row /\ purgeable before states now row = false.
Proof. unfold purge_rows. by rewrite map_lookup_filter_Some. Qed.

Lemma outbox_wf_purge before states now m : outbox_wf m -> outbox_wf (purge_rows before states now m).
Proof.
  intros Hwf. apply (outbox_wf_inplace m); [done|].
  intros id row [Hm _]%purge_rows_lookup. split; [by eapply outbox_wf_row|]. by exists row.
Qed.

(** The operations of the adapter. *)
Inductive outbox_op : Type :=
| OpEnqueue (r : OutboxRecord)
| OpClaim (topics : list string) (limit : Z) (lease : Q)
| OpComplete (id n : Z) (keep : bool)
| OpReschedule (id n : Z) (delay : Q) (error : string) (dead : bool)
| OpRedrive (topic : option string)
| OpPurge (before : option Q) (states : list row_state)
| OpWait.

Definition outbox_do (op : outbox_op) (now : Q) (s : Outbox) : Outbox :=
  match op with
  | OpEnqueue r => (enqueue r now s).2
  | OpClaim topics limit lease => (outbox_claim topics limit lease now s).2
  | OpComplete id n keep => complete id n keep now s
  | OpReschedule id n delay error dead => reschedule id n delay error dead now s
  | OpRedrive topic => (redrive topic now s).2
  | OpPurge before states => (purge before states now s).2
  | OpWait => wait_notify s
  end.

(** C19 Every store that the operations build from the empty one, at any times,
    is well formed: a row is kept under the id of its record, no two rows share
    a dedup key (so a published key is never staged twice while its row exists),
    attempts are never negative, a leased row was attempted, a delivered row has its time and
    no error, a dead row says why. *)
Theorem outbox_wf_run (ops : list (outbox_op * Q)) :
  outbox_wf (ob_rows (fold_left (fun s op => outbox_do op.1 op.2 s) ops new_outbox)).
Proof.
  assert (H : outbox_wf (ob_rows new_outbox)) by (by split).
  revert H. generalize new_outbox. induction ops as [|[op now] ops IH]; intros s Hs; [done|].
  apply IH. cbn. destruct op; cbn.
  - unfold enqueue. pose proof (outbox_wf_enqueue r now (ob_rows s) Hs) as Hw.
    by destruct (enqueue_rows r now (ob_rows s)).
  - destruct (due_rows_claims topics limit now (ob_rows s)) as [Hnd Hdue _].
    apply outbox_wf_take; [done| |done]. eapply Forall_impl; [done|]. by intros p [? _].
  - by apply outbox_wf_complete.
  - by apply outbox_wf_reschedule.
  - by apply outbox_wf_redrive.
  - by apply outbox_wf_purge.
  - done.
Qed.

Lemma claim_takes_oldest_due_witness :
  let r := mkOutboxRecord 1 "mail" [] None [] None 0 None in
  let s := (enqueue r 0 new_outbox).2 in
  exists due, (outbox_claim ["mail"] 1 30 5 s).1 = claimed_record <$> due /\ length due = 1%nat.
Proof.
  intros r s. destruct (claim_takes_oldest_due ["mail"] 1 30 5 s) as (due & H & _); [lia|].
  exists due. split; [exact H|]. rewrite <- (length_fmap claimed_record), <- H. by vm_compute.
Defined.
