(* ===== verification/OutboxRelay.v ===== *)
(** * The outbox relay

    [outbox/_registry.py], [outbox/_component.py] ([publish]) and
    [outbox/_relay.py]: the handlers, one turn of the relay's loop, the delivery
    of one message, and [relay_step], any number of relays over one store with
    publishers and operators.  The relay is a client of [OutboxBackend].

    A handler is any code: a run of it is the [HandlerResult] the relay sees.
    Not modelled: spans, metrics and logging; the timing of [_idle] and
    [_wait_slot] (a turn that may claim is always allowed to come). *)

From S2P Require Import Prelude Errors Dict OutboxMemory.
From stdpp Require Import pretty.
From Stdlib Require Import Qpower.

Local Open Scope Z_scope.

(** ** Handlers *)

Section Registry.
Context {Model Data : Type}.
(** [target.__name__] and [target.__outbox_topic__] *)
Context (model_name : Model -> string) (model_topic : Model -> option string).
(** pydantic: the model, or the text of a [ValidationError] *)
Context (validate_python : Model -> list (string * json) -> outcome string Data).

Inductive handler_target : Type := TopicName (topic : string) | TopicModel (m : Model).

Definition derive_topic (t : handler_target) : string :=
  match t with
  | TopicName topic => topic
  | TopicModel m => default (model_name m) (model_topic m)
  end.

Record HandlerEntry : Type := mkEntry { he_topic : string; he_model : option Model }.

(** [OutboxRegistry] *)
Definition OutboxRegistry : Type := list (string * HandlerEntry).

(** [topic or derive_topic(target)]: an empty topic is falsy. *)
Definition resolved_topic (t : handler_target) (topic : option string) : string :=
  match topic with
  | Some (String _ _ as name) => name
  | _ => derive_topic t
  end.

Definition register (t : handler_target) (topic : option string) (reg : OutboxRegistry) :
    outcome exn OutboxRegistry :=
  let resolved := resolved_topic t topic in
  match dict_get resolved reg with
  | Some _ => Raise (mk_exn HandlerAlreadyRegisteredError NoInfo)
  | None =>
      let model := match t with TopicModel m => Some m | TopicName _ => None end in
      Return (dict_set resolved (mkEntry resolved model) reg)
  end.

Definition registry_topics (reg : OutboxRegistry) : list string := reg.*1.

(** [Message] *)
Record OutboxMessage : Type := mkOutboxMessage {
  om_id : Z;
  om_topic : string;
  om_key : option string;
  om_data : option Data;
  om_payload : list (string * json);
  om_headers : list (string * json);
  om_attempts : Z;
}.

Inductive build_error : Type := NoHandler (topic : string) | InvalidPayload (text : string).

Definition build_message (reg : OutboxRegistry) (r : OutboxRecord) :
    outcome build_error OutboxMessage :=
  let message data :=
    mkOutboxMessage (ob_id r) (ob_topic r) (ob_key r) data (ob_payload r) (ob_headers r)
      (ob_attempts r) in
  match dict_get (ob_topic r) reg with
  | None => Raise (NoHandler (ob_topic r))
  | Some entry =>
      match he_model entry with
      | None => Return (message None)
      | Some m =>
          match validate_python m (ob_payload r) with
          | Return data => Return (message (Some data))
          | Raise text => Raise (InvalidPayload text)
          end
      end
  end.

(** ** Publishing *)

Context {Obj : Type} (type_of : Obj -> Model) (encode_payload : Obj -> list (string * json)).
(** OpenTelemetry adds the trace context to the headers. *)
Context (inject_trace_context : list (string * json) -> list (string * json)).

Inductive publish_target : Type := PublishTopic (topic : string) | PublishModel (o : Obj).

Definition resolve_payload (t : publish_target) (payload : option (list (string * json))) :
    outcome exn (string * list (string * json)) :=
  match t, payload with
  | PublishTopic topic, Some body => Return (topic, body)
  | PublishTopic _, None => Raise (mk_exn TypeError NoInfo)
  | PublishModel _, Some _ => Raise (mk_exn TypeError NoInfo)
  | PublishModel o, None => Return (derive_topic (TopicModel (type_of o)), encode_payload o)
  end.

Definition resolve_available_at (delay : option Q) (now : Q) : option Q :=
  (fun d => (now + d)%Q) <$> delay.

(** [publish], with the fresh id of [uuid7]. *)
Definition publish {B} `{OutboxBackend B} (id : Z) (t : publish_target)
    (payload : option (list (string * json))) (key : option string)
    (headers : list (string * json)) (dedup_key : option string) (delay : option Q)
    (now1 now2 : Q) (b : B) : outcome exn bool * B :=
  match resolve_payload t payload with
  | Raise e => (Raise e, b)
  | Return (topic, body) =>
      bk_enqueue (mkOutboxRecord id topic body key (inject_trace_context headers) dedup_key 0
        (resolve_available_at delay now1)) now2 b
  end.

(** ** Settling a delivery *)

Inductive keep_delivered : Type := KeepFalse | KeepTrue | KeepFor (retention : Q).

(** [OutboxConfig] *)
Record OutboxConfig : Type := mkOutboxConfig {
  poll_interval : Q;
  batch_size : Z;
  oc_lease_duration : Q;
  oc_max_attempts : Z;
  retry_base : Q;
  retry_max : Q;
  retry_jitter : Q;
  concurrency : Z;
  dead_letter : bool;
  oc_keep_delivered : keep_delivered;
}.

Definition outbox_config_valid (c : OutboxConfig) : bool :=
  (0 <? poll_interval c)%py && (0 <? batch_size c) && (0 <? oc_lease_duration c)%py &&
  (0 <? oc_max_attempts c) && (0 <? retry_base c)%py && (0 <? retry_max c)%py &&
  ((0 <=? retry_jitter c)%py && (retry_jitter c <=? 1)%py) && (0 <? concurrency c) &&
  match oc_keep_delivered c with KeepFor t => (0 <? t)%py | _ => true end.

(** [config.keep_delivered is not False] *)
Definition keeps (c : OutboxConfig) : bool :=
  match oc_keep_delivered c with KeepFalse => false | _ => true end.

Definition max_backoff_exponent : Z := 63.

(** [_backoff]; [rnd] is [random()], in [[0, 1)]. *)
Definition backoff (c : OutboxConfig) (attempts : Z) (rnd : Q) : Q :=
  let exponent := Z.min (attempts - 1) max_backoff_exponent in
  let raw := py_min (retry_max c) (retry_base c * Qpower 2 exponent) in
  let floor := (raw * (1 - retry_jitter c))%Q in
  (floor + rnd * (raw - floor))%Q.

(** What a delivery asks of the store in the end. *)
Inductive settlement : Type :=
| SettleComplete (keep : bool)
| SettleReschedule (delay : Q) (error : string) (dead : bool).

Definition settle_dead (error : string) : settlement := SettleReschedule 0 error true.

Definition settle_retry (c : OutboxConfig) (r : OutboxRecord) (error : string) (delay : option Q)
    (rnd : Q) : settlement :=
  if dead_letter c && (oc_max_attempts c <=? ob_attempts r) then settle_dead error
  else SettleReschedule (default (backoff c (ob_attempts r) rnd) delay) error false.

(** How the awaited handler ends: the clause of [_deliver] it reaches. *)
Inductive HandlerResult : Type :=
| Finished
| RaisedCancelled
| RaisedCancel (reason : string)
| RaisedInvalid (text : string)
| RaisedRetry (delay : option Q)
| RaisedError (text : string)
| RaisedBase.

Definition invalid_payload (text : string) : string := "invalid payload: " +:+ text.

(** [_deliver] up to the call of the handler: the settlement, or the message. *)
Definition begin_delivery (c : OutboxConfig) (reg : OutboxRegistry) (r : OutboxRecord) (rnd : Q) :
    settlement + OutboxMessage :=
  if dead_letter c && (oc_max_attempts c <? ob_attempts r) then
    inl (settle_dead ("exceeded max_attempts (" +:+ pretty (oc_max_attempts c) +:+ ")"))
  else
    match build_message reg r with
    | Return m => inr m
    | Raise (InvalidPayload text) => inl (settle_dead (invalid_payload text))
    | Raise (NoHandler topic) =>
        inl (settle_retry c r
          ("HandlerNotFoundError: No handler registered for topic '" +:+ topic +:+ "'") None rnd)
    end.

(** [_deliver] once the handler has ended. *)
Definition after_handler (c : OutboxConfig) (r : OutboxRecord) (rnd : Q) (res : HandlerResult) :
    option settlement :=
  match res with
  | RaisedCancelled | RaisedBase => None
  | RaisedCancel reason => Some (settle_dead reason)
  | RaisedInvalid text => Some (settle_dead (invalid_payload text))
  | RaisedRetry delay => Some (settle_retry c r "retry requested" delay rnd)
  | RaisedError text => Some (settle_retry c r text None rnd)
  | Finished => Some (SettleComplete (keeps c))
  end.

(** [_settle]: a failure of the store is logged. *)
Definition settle {B} `{OutboxBackend B} (r : OutboxRecord) (s : settlement) (now : Q) (b : B) : B :=
  match s with
  | SettleComplete keep => (bk_complete (ob_id r) (ob_attempts r) keep now b).2
  | SettleReschedule delay error dead =>
      (bk_reschedule (ob_id r) (ob_attempts r) delay error dead now b).2
  end.

(** ** The loop *)

(** What [_run] does in one turn. *)
Inductive turn : Type :=
| TurnStop
| TurnIdle (timeout : Q)
| TurnWaitSlot
| TurnClaim (topics : list string) (limit : Z) (lease : Q).

Definition relay_turn (c : OutboxConfig) (reg : OutboxRegistry) (stopped : bool) (inflight : Z) :
    turn :=
  if stopped then TurnStop
  else match registry_topics reg with
       | [] => TurnIdle (poll_interval c)
       | topics =>
           let free := concurrency c - inflight in
           if free <=? 0 then TurnWaitSlot
           else TurnClaim topics (Z.min (batch_size c) free) (oc_lease_duration c)
       end.

(** ** Relays over one store *)

Context {B : Type} {BK : OutboxBackend B}.

Inductive phase : Type :=
| Dispatched
| Running (m : OutboxMessage)
| Settling (s : settlement).

(** A delivery task, with the history of its claim: the number of redrives
    before it and the end of its lease. *)
Record delivery : Type := mkDelivery {
  d_relay : nat;
  d_record : OutboxRecord;
  d_epoch : nat;
  d_until : Q;
  d_phase : phase;
}.

Definition in_phase (p : phase) (d : delivery) : delivery :=
  mkDelivery (d_relay d) (d_record d) (d_epoch d) (d_until d) p.

(** A claim of a message is identified by its id, its epoch and its attempt. *)
Definition claim_key (d : delivery) : Z * nat * Z :=
  (ob_id (d_record d), d_epoch d, ob_attempts (d_record d)).

Record relay : Type := mkRelay {
  r_config : OutboxConfig;
  r_registry : OutboxRegistry;
  r_stopped : bool;
}.

(** The store, the relays and their deliveries in flight; the rest is the
    history: ids published, handlers run, ids for which a handler finished, ids
    purged when dead, redrives. *)
Record outbox_system : Type := mkOutboxSystem {
  os_now : Q;
  os_store : B;
  os_relays : gmap nat relay;
  os_deliveries : list delivery;
  os_published : list Z;
  os_runs : list (Z * nat * Z);
  os_finished : list Z;
  os_discarded : list Z;
  os_redrives : nat;
}.

Definition inflight (i : nat) (ds : list delivery) : Z :=
  Z.of_nat (length (filter (fun d => d_relay d = i) ds)).

Definition dispatch (i : nat) (epoch : nat) (until : Q) (r : OutboxRecord) : delivery :=
  mkDelivery i r epoch until Dispatched.

Definition dead_ids (before : option Q) (states : list row_state) (now : Q) (m : rows) : list Z :=
  (map_to_list (filter (fun p => state p.2 = Dead /\ purgeable before states now p.2 = true) m)).*1.

Definition finished_id (r : OutboxRecord) (res : HandlerResult) : list Z :=
  match res with Finished => [ob_id r] | _ => [] end.

Inductive relay_step : outbox_system -> outbox_system -> Prop :=
| rs_time now st b rl ds pub runs fin dis n :
    (now <= st)%Q ->
    relay_step (mkOutboxSystem now b rl ds pub runs fin dis n)
      (mkOutboxSystem st b rl ds pub runs fin dis n)
| rs_publish r now b b' v rl ds pub runs fin dis n :
    ob_id r ∉ pub -> bk_enqueue r now b = (v, b') ->
    relay_step (mkOutboxSystem now b rl ds pub runs fin dis n)
      (mkOutboxSystem now b' rl ds (match v with Return true => ob_id r :: pub | _ => pub end)
         runs fin dis n)
(* one turn of [_run]; the claims it won are dispatched *)
| rs_claim i r topics limit lease v now b b' rl ds pub runs fin dis n :
    rl !! i = Some r ->
    relay_turn (r_config r) (r_registry r) (r_stopped r) (inflight i ds) =
      TurnClaim topics limit lease ->
    bk_claim topics limit lease now b = (v, b') ->
    relay_step (mkOutboxSystem now b rl ds pub runs fin dis n)
      (mkOutboxSystem now b' rl
         (ds ++ match v with
                | Return records => dispatch i n (now + lease) <$> records
                | Raise _ => []
                end) pub runs fin dis n)
| rs_begin i r d rnd now b rl ds1 ds2 pub runs fin dis n :
    rl !! i = Some r -> d_relay d = i -> d_phase d = Dispatched ->
    relay_step (mkOutboxSystem now b rl (ds1 ++ d :: ds2) pub runs fin dis n)
      (match begin_delivery (r_config r) (r_registry r) (d_record d) rnd with
       | inl s => mkOutboxSystem now b rl (ds1 ++ in_phase (Settling s) d :: ds2) pub runs fin dis n
       | inr m => mkOutboxSystem now b rl (ds1 ++ in_phase (Running m) d :: ds2) pub
                    (claim_key d :: runs) fin dis n
       end)
| rs_return i r d m rnd res now b rl ds1 ds2 pub runs fin dis n :
    rl !! i = Some r -> d_relay d = i -> d_phase d = Running m ->
    relay_step (mkOutboxSystem now b rl (ds1 ++ d :: ds2) pub runs fin dis n)
      (mkOutboxSystem now b rl
         (ds1 ++ match after_handler (r_config r) (d_record d) rnd res with
                 | Some s => [in_phase (Settling s) d]
                 | None => []
                 end ++ ds2) pub runs (finished_id (d_record d) res ++ fin) dis n)
| rs_settle d s now b rl ds1 ds2 pub runs fin dis n :
    d_phase d = Settling s ->
    relay_step (mkOutboxSystem now b rl (ds1 ++ d :: ds2) pub runs fin dis n)
      (mkOutboxSystem now (settle (d_record d) s now b) rl (ds1 ++ ds2) pub runs fin dis n)
(* [_drain] cancels a straggler, or its process dies *)
| rs_cancel d now b rl ds1 ds2 pub runs fin dis n :
    relay_step (mkOutboxSystem now b rl (ds1 ++ d :: ds2) pub runs fin dis n)
      (mkOutboxSystem now b rl (ds1 ++ ds2) pub runs fin dis n)
| rs_stop i r now b rl ds pub runs fin dis n :
    rl !! i = Some r ->
    relay_step (mkOutboxSystem now b rl ds pub runs fin dis n)
      (mkOutboxSystem now b (<[i := mkRelay (r_config r) (r_registry r) true]> rl) ds pub runs
         fin dis n)
| rs_register i r t topic reg now b rl ds pub runs fin dis n :
    rl !! i = Some r -> register t topic (r_registry r) = Return reg ->
    relay_step (mkOutboxSystem now b rl ds pub runs fin dis n)
      (mkOutboxSystem now b (<[i := mkRelay (r_config r) reg (r_stopped r)]> rl) ds pub runs
         fin dis n)
| rs_redrive topic now b rl ds pub runs fin dis n :
    relay_step (mkOutboxSystem now b rl ds pub runs fin dis n)
      (mkOutboxSystem now (bk_redrive topic now b).2 rl ds pub runs fin dis (S n))
(* the janitor, or an operator *)
| rs_purge before states now b rl ds pub runs fin dis n :
    states ⊆ [Delivered; Dead] ->
    relay_step (mkOutboxSystem now b rl ds pub runs fin dis n)
      (mkOutboxSystem now (bk_purge before states now b).2 rl ds pub runs fin
         (dead_ids before states now (bk_rows b) ++ dis) n).

Definition outbox_init (s : outbox_system) : Prop :=
  bk_rows (os_store s) = ∅ /\ os_deliveries s = [] /\ os_published s = [] /\ os_runs s = [] /\
  os_finished s = [] /\ os_discarded s = [] /\ os_redrives s = 0%nat.

(** ** The history of the claims *)

Abbreviation key := (Z * nat * Z)%type.

Definition rows_ok (pub : list Z) (m : rows) : Prop :=
  forall id row, m !! id = Some row ->
    ob_id (row_record row) = id /\ id ∈ pub /\ 0 <= attempts row.

(** The new rows are old ones with the same record and attempts. *)
Definition rows_shrink (m m' : rows) : Prop :=
  forall id row', m' !! id = Some row' ->
    exists row, m !! id = Some row /\ row_record row' = row_record row /\
      attempts row' = attempts row.

(** Claims made so far: each is of a published message, and in the current epoch the row has
    seen its attempt. *)
Record keys_ok (m : rows) (pub : list Z) (n : nat) (ks : list key) : Prop := {
  ko_nodup : NoDup ks;
  ko_bound : forall id e a, (id, e, a) ∈ ks ->
    id ∈ pub /\ (e <= n)%nat /\ 1 <= a /\
    (e = n -> forall row, m !! id = Some row -> a <= attempts row);
}.

Lemma rows_ok_shrink pub m m' : rows_shrink m m' -> rows_ok pub m -> rows_ok pub m'.
Proof.
  intros Hs H id row' Hr. destruct (Hs id row' Hr) as (row & Hm & -> & ->). by apply H.
Qed.

Lemma keys_ok_sub m pub n ks ks' : ks' ⊆+ ks -> keys_ok m pub n ks -> keys_ok m pub n ks'.
Proof.
  intros Hs [Hnd Hb]. split; [|intros id e a Hin; apply Hb; by eapply elem_of_submseteq].
  apply submseteq_Permutation in Hs as [ks2 Hp]. rewrite Hp in Hnd. by apply NoDup_app in Hnd as [? _].
Qed.

Lemma keys_ok_shrink m m' pub n ks : rows_shrink m m' -> keys_ok m pub n ks -> keys_ok m' pub n ks.
Proof.
  intros Hs [Hnd Hb]. split; [done|]. intros id e a Hin.
  destruct (Hb id e a Hin) as (? & ? & ? & Ha). split_and!; try done.
  intros He row' (row & Hm & _ & ->)%Hs. by eapply Ha.
Qed.

Lemma keys_ok_redrive m m' pub n ks : keys_ok m pub n ks -> keys_ok m' pub (S n) ks.
Proof.
  intros [Hnd Hb]. split; [done|]. intros id e a Hin.
  destruct (Hb id e a Hin) as (? & ? & ? & _). split_and!; [done|lia|done|lia].
Qed.

Lemma keys_ok_publish r row m pub n ks :
  ob_id r ∉ pub -> keys_ok m pub n ks -> keys_ok (<[ob_id r := row]> m) (ob_id r :: pub) n ks.
Proof.
  intros Hr [Hnd Hb]. split; [done|]. intros id e a Hin.
  destruct (Hb id e a Hin) as (Hp & ? & ? & Ha). split_and!; [by right|done|done|].
  intros He row' [[<- _]|[_ Hm]]%lookup_insert_Some; [done|by eapply Ha].
Qed.

Definition due_key (n : nat) (p : Z * Row) : key := (p.1, n, attempts p.2 + 1).

Lemma keys_ok_claim m pub n ks lease now due :
  rows_ok pub m -> NoDup due.*1 -> Forall (fun p => m !! p.1 = Some p.2) due ->
  keys_ok m pub n ks -> keys_ok (take_rows lease now due m) pub n (ks ++ (due_key n <$> due)).
Proof.
  intros Hrows Hnd Hdue [Hks Hb]. rewrite Forall_forall in Hdue. split.
  - apply NoDup_app. split_and!; [done| |].
    + intros [[id e] a] Hin (p & [= -> -> ->] & Hp)%list_elem_of_fmap.
      destruct (Hb _ _ _ Hin) as (_ & _ & _ & Ha). specialize (Ha eq_refl _ (Hdue p Hp)). lia.
    + apply NoDup_fmap_2_strong.
      * intros [i1 r1] [i2 r2] H1 H2 [= -> _]. f_equal. apply Hdue in H1, H2. cbn in *. congruence.
      * by eapply NoDup_fmap_1.
  - intros id e a [Hin|(p & [= -> -> ->] & Hp)%list_elem_of_fmap]%elem_of_app.
    + destruct (Hb id e a Hin) as (? & ? & ? & Ha). split_and!; try done.
      intros He row' Hr. destruct (decide (id ∈ due.*1)) as [Hd|Hd].
      * apply list_elem_of_fmap in Hd as ([id' row] & Hid & Hp). cbn in Hid. subst id'.
        rewrite (take_rows_due _ _ _ _ id row) in Hr by done. injection Hr as <-. cbn.
        specialize (Ha He row (Hdue _ Hp)). lia.
      * rewrite take_rows_other in Hr by done. by eapply Ha.
    + pose proof (Hdue p Hp) as Hm. destruct (Hrows _ _ Hm) as (_ & ? & ?).
      split_and!; [done|lia|lia|]. intros _ row. destruct p as [id row0].
      rewrite (take_rows_due _ _ _ _ id row0) by done. intros [= <-]. cbn. lia.
Qed.

Lemma rows_ok_claim m pub lease now due :
  NoDup due.*1 -> Forall (fun p => m !! p.1 = Some p.2) due ->
  rows_ok pub m -> rows_ok pub (take_rows lease now due m).
Proof.
  intros Hnd Hdue H id row' Hr. rewrite Forall_forall in Hdue.
  destruct (decide (id ∈ due.*1)) as [Hd|Hd].
  - apply list_elem_of_fmap in Hd as ([id' row] & Hid & Hp). cbn in Hid. subst id'.
    rewrite (take_rows_due _ _ _ _ id row) in Hr by done. injection Hr as <-.
    destruct (H id row (Hdue _ Hp)) as (? & ? & ?). split_and!; [done|done|cbn; lia].
  - rewrite take_rows_other in Hr by done. by apply H.
Qed.

Lemma rows_shrink_refl m : rows_shrink m m.
Proof. intros id row Hr. by exists row. Qed.

Lemma complete_shrink id n keep now m : rows_shrink m (complete_rows id n keep now m).
Proof.
  unfold complete_rows. destruct (m !! id) as [row|] eqn:E; [|apply rows_shrink_refl].
  case_decide; [apply rows_shrink_refl|]. destruct keep.
  - intros j r [[<- <-]|[_ Hj]]%lookup_insert_Some; [by exists row|by exists r].
  - intros j r [_ Hj]%lookup_delete_Some. by exists r.
Qed.

Lemma reschedule_shrink id n delay error dead now m :
  rows_shrink m (reschedule_rows id n delay error dead now m).
Proof.
  unfold reschedule_rows. destruct (m !! id) as [row|] eqn:E; [|apply rows_shrink_refl].
  case_decide; [apply rows_shrink_refl|].
  destruct dead; intros j r [[<- <-]|[_ Hj]]%lookup_insert_Some; (by exists row) || (by exists r).
Qed.

Lemma settle_shrink r s now b : rows_shrink (bk_rows b) (bk_rows (settle r s now b)).
Proof.
  destruct s as [keep|delay error dead]; cbn.
  - pose proof (bk_complete_law (ob_id r) (ob_attempts r) keep now b) as Hl.
    destruct (bk_complete (ob_id r) (ob_attempts r) keep now b) as [v b']. cbn.
    destruct Hl as [->|[_ ->]]; [apply complete_shrink|apply rows_shrink_refl].
  - pose proof (bk_reschedule_law (ob_id r) (ob_attempts r) delay error dead now b) as Hl.
    destruct (bk_reschedule (ob_id r) (ob_attempts r) delay error dead now b) as [v b']. cbn.
    destruct Hl as [->|[_ ->]]; [apply reschedule_shrink|apply rows_shrink_refl].
Qed.

Lemma purge_shrink before states now b :
  rows_shrink (bk_rows b) (bk_rows (bk_purge before states now b).2).
Proof.
  pose proof (bk_purge_law before states now b) as Hl.
  destruct (bk_purge before states now b) as [v b']. cbn.
  destruct Hl as [->|[_ ->]]; [|apply rows_shrink_refl].
  intros id row [Hm _]%purge_rows_lookup. by exists row.
Qed.

Lemma rows_ok_redrive pub topic now b :
  rows_ok pub (bk_rows b) -> rows_ok pub (bk_rows (bk_redrive topic now b).2).
Proof.
  intros Hok. pose proof (bk_redrive_law topic now b) as Hl.
  destruct (bk_redrive topic now b) as [v b']. cbn. destruct Hl as [->|[_ ->]]; [|done].
  intros id row' (row & Hm & ->)%redrive_rows_lookup. destruct (Hok id row Hm) as (? & ? & ?).
  by destruct (redrivable topic row).
Qed.

(** The claims whose delivery has not begun. *)
Definition waiting_key (d : delivery) : list key :=
  match d_phase d with Dispatched => [claim_key d] | _ => [] end.
Definition dispatched_keys (ds : list delivery) : list key := flat_map waiting_key ds.

Record history_ok (s : outbox_system) : Prop := {
  ho_rows : rows_ok (os_published s) (bk_rows (os_store s));
  ho_claims : keys_ok (bk_rows (os_store s)) (os_published s) (os_redrives s)
    (claim_key <$> os_deliveries s);
  ho_runs : keys_ok (bk_rows (os_store s)) (os_published s) (os_redrives s)
    (os_runs s ++ dispatched_keys (os_deliveries s));
}.

(** The part of a step that touches the deliveries only. *)
Lemma history_deliveries now b rl ds ds' pub runs runs' fin dis n :
  (claim_key <$> ds') ⊆+ (claim_key <$> ds) ->
  runs' ++ dispatched_keys ds' ⊆+ runs ++ dispatched_keys ds ->
  forall rl' fin',
  history_ok (mkOutboxSystem now b rl ds pub runs fin dis n) ->
  history_ok (mkOutboxSystem now b rl' ds' pub runs' fin' dis n).
Proof. intros Hc Hr rl' fin' [? ? ?]. split; [done|by eapply keys_ok_sub..]. Qed.

(** The part of a step that touches the store only. *)
Lemma history_store now b b' rl ds pub runs fin dis dis' n :
  rows_shrink (bk_rows b) (bk_rows b') ->
  history_ok (mkOutboxSystem now b rl ds pub runs fin dis n) ->
  history_ok (mkOutboxSystem now b' rl ds pub runs fin dis' n).
Proof.
  intros Hs [? ? ?]. split; [by eapply rows_ok_shrink|by eapply keys_ok_shrink..].
Qed.

Lemma dispatched_keys_app ds1 ds2 :
  dispatched_keys (ds1 ++ ds2) = dispatched_keys ds1 ++ dispatched_keys ds2.
Proof. apply flat_map_app. Qed.

Lemma dispatched_keys_cons d ds : dispatched_keys (d :: ds) = waiting_key d ++ dispatched_keys ds.
Proof. done. Qed.

Lemma dispatched_in_phase p d : p <> Dispatched -> waiting_key (in_phase p d) = [].
Proof. by destruct p. Qed.

Lemma dispatch_keys i n until m pub records due :
  rows_ok pub m -> Forall (fun p => m !! p.1 = Some p.2) due -> Forall2 reported records due ->
  let ds := dispatch i n until <$> records in
  claim_key <$> ds = due_key n <$> due /\ dispatched_keys ds = due_key n <$> due.
Proof.
  intros Hr Hdue Hrep. revert Hdue. induction Hrep as [|r [id row] records due [(Hrid & _) Hn] _ IH]; [done|].
  intros [Hp Hdue]%Forall_cons. destruct (IH Hdue) as [IH1 IH2]. clear IH.
  destruct (Hr id row Hp) as (Hid & _). cbn in *. rewrite IH1. unfold dispatched_keys in IH2.
  rewrite IH2. unfold claim_key, due_key. cbn. by rewrite Hrid, Hid, Hn.
Qed.

Lemma history_claim v b b' topics limit lease until now i rl ds pub runs fin dis n :
  bk_claim topics limit lease now b = (v, b') ->
  history_ok (mkOutboxSystem now b rl ds pub runs fin dis n) ->
  history_ok (mkOutboxSystem now b' rl
    (ds ++ match v with Return records => dispatch i n until <$> records | Raise _ => [] end)
    pub runs fin dis n).
Proof.
  intros E [Hr Hc Hw]. cbn in *.
  pose proof (bk_claim_law topics limit lease now b) as Hl. rewrite E in Hl.
  destruct Hl as (due & [Hnd Hdue _] & Hl).
  assert (Hdue' : Forall (fun p => bk_rows b !! p.1 = Some p.2) due)
    by (eapply Forall_impl; [done|]; by intros p [? _]).
  assert (Htake : forall ds', (claim_key <$> ds') ⊆+ (claim_key <$> ds) ++ (due_key n <$> due) ->
    dispatched_keys ds' ⊆+ dispatched_keys ds ++ (due_key n <$> due) ->
    bk_rows b' = take_rows lease now due (bk_rows b) ->
    history_ok (mkOutboxSystem now b' rl ds' pub runs fin dis n)).
  { intros ds' H1 H2 Eb. split; cbn; rewrite Eb; [by apply rows_ok_claim|..].
    - eapply keys_ok_sub; [done|by apply keys_ok_claim].
    - eapply keys_ok_sub; [|apply keys_ok_claim; [done..|exact Hw]].
      rewrite <- app_assoc. by apply submseteq_app. }
  destruct v as [records|e].
  - destruct Hl as [Hrep Eb]. destruct (dispatch_keys i n until _ _ records due Hr Hdue' Hrep) as [Ek Ed].
    apply Htake; [|by rewrite dispatched_keys_app, Ed|done]. by rewrite fmap_app, Ek.
  - rewrite app_nil_r. destruct Hl as [Eb|Eb]; [split; cbn; by rewrite Eb|].
    apply Htake; [by apply submseteq_inserts_r|by apply submseteq_inserts_r|done].
Qed.

Lemma history_publish r now b b' v rl ds pub runs fin dis n :
  ob_id r ∉ pub -> bk_enqueue r now b = (v, b') ->
  history_ok (mkOutboxSystem now b rl ds pub runs fin dis n) ->
  history_ok (mkOutboxSystem now b' rl ds
    (match v with Return true => ob_id r :: pub | _ => pub end) runs fin dis n).
Proof.
  intros Hr E [Ho Hc Hw]. cbn in *.
  pose proof (bk_enqueue_law r now b) as Hl. rewrite E in Hl.
  destruct v as [[]|e]; try (split; cbn; first [by rewrite Hl|by rewrite (proj2 Hl)]).
  destruct Hl as (_ & row' & ((Hid & _) & _ & _ & Ha & _) & Eb). split; cbn; rewrite Eb; [|by apply keys_ok_publish..].
  intros id row [[<- <-]|[_ Hm]]%lookup_insert_Some; [split_and!; [done|by left|by rewrite Ha]|].
  destruct (Ho id row Hm) as (? & ? & ?). split_and!; [done|by right|done].
Qed.

Lemma relay_step_history s s' : relay_step s s' -> history_ok s -> history_ok s'.
Proof.
  destruct 1 as [| | |i r d rnd now b rl ds1 ds2 pub runs fin dis n H1 H2 H3
    |i r d m rnd res now b rl ds1 ds2 pub runs fin dis n H1 H2 H3
    |d s now b rl ds1 ds2 pub runs fin dis n H1|d now b rl ds1 ds2 pub runs fin dis n
    |i r now b rl ds pub runs fin dis n H1|i r t topic reg now b rl ds pub runs fin dis n H1 H2
    |topic now b rl ds pub runs fin dis n|before states now b rl ds pub runs fin dis n H1].
  - by intros [? ? ?].
  - by eapply history_publish.
  - by eapply history_claim.
  - assert (Ew : waiting_key d = [claim_key d]) by (unfold waiting_key; by rewrite H3).
    destruct (begin_delivery (r_config r) (r_registry r) (d_record d) rnd) as [s|m];
      apply history_deliveries; rewrite ?fmap_app, ?fmap_cons, ?dispatched_keys_app,
        ?dispatched_keys_cons, ?dispatched_in_phase, ?Ew by done; try done; solve_submseteq.
  - assert (Ew : waiting_key d = []) by (unfold waiting_key; by rewrite H3).
    destruct (after_handler (r_config r) (d_record d) rnd res) as [s|];
      apply history_deliveries; rewrite ?fmap_app, ?fmap_cons, ?dispatched_keys_app,
        ?dispatched_keys_cons, ?dispatched_in_phase, ?Ew by done; try done; solve_submseteq.
  - intros Hh. apply (history_store _ b _ _ _ _ _ _ dis); [apply settle_shrink|]. revert Hh.
    apply history_deliveries; rewrite ?fmap_app, ?fmap_cons, ?dispatched_keys_app,
      ?dispatched_keys_cons; solve_submseteq.
  - apply history_deliveries; rewrite ?fmap_app, ?fmap_cons, ?dispatched_keys_app,
      ?dispatched_keys_cons; solve_submseteq.
  - by apply history_deliveries.
  - by apply history_deliveries.
  - intros [Ho Hc Hw]. split; cbn; [by apply rows_ok_redrive|by eapply keys_ok_redrive..].
  - apply history_store, purge_shrink.
Qed.

Lemma outbox_init_history s : outbox_init s -> history_ok s.
Proof.
  destruct s. intros (E1 & E2 & E3 & E4 & E5 & E6 & E7). cbn in *. subst.
  split; cbn; rewrite ?E1; [by intros ? ?|..]; (split; [apply NoDup_nil_2|by intros ? ? ? ?%elem_of_nil]).
Qed.

Lemma relay_steps_history s s' : outbox_init s -> rtc relay_step s s' -> history_ok s'.
Proof.
  intros H0%outbox_init_history Hs. revert H0.
  apply (invariant_rtc relay_step history_ok); [apply relay_step_history|done].
Qed.


(** ** No message is lost *)

Definition message_kept (m : rows) (fin dis : list Z) (id : Z) : Prop :=
  match m !! id with
  | Some row => state row = Delivered -> id ∈ fin
  | None => id ∈ fin \/ id ∈ dis
  end.

Record loss_ok (s : outbox_system) : Prop := {
  lo_kept : forall id, id ∈ os_published s ->
    message_kept (bk_rows (os_store s)) (os_finished s) (os_discarded s) id;
  lo_settling : forall d keep, d ∈ os_deliveries s ->
    d_phase d = Settling (SettleComplete keep) -> ob_id (d_record d) ∈ os_finished s;
}.

(** A change of the store that marks a message delivered, or deletes it, only when
    a handler has finished. *)
Definition rows_kept (fin : list Z) (m m' : rows) : Prop :=
  forall id, m' !! id = m !! id \/ id ∈ fin \/
    exists row, m' !! id = Some row /\ state row <> Delivered.

Lemma message_kept_rows fin fin' dis m m' id :
  fin ⊆ fin' -> rows_kept fin' m m' -> message_kept m fin dis id -> message_kept m' fin' dis id.
Proof.
  intros Hf Hk H. unfold message_kept in *.
  destruct (Hk id) as [->|[Hin|(row & -> & ?)]]; [|destruct (m' !! id); auto|done].
  destruct (m !! id); [auto|]. destruct H; auto.
Qed.

Lemma rows_kept_refl fin m : rows_kept fin m m.
Proof. intros id. by left. Qed.

Lemma complete_kept fin id n keep now m : id ∈ fin -> rows_kept fin m (complete_rows id n keep now m).
Proof.
  intros Hin. unfold complete_rows. destruct (m !! id) as [row|] eqn:E; [|apply rows_kept_refl].
  case_decide; [apply rows_kept_refl|]. intros j. destruct (decide (id = j)) as [<-|Hne].
  - right. by left.
  - left. destruct keep; [by rewrite lookup_insert_ne|by rewrite lookup_delete_ne].
Qed.

Lemma reschedule_kept fin id n delay error dead now m :
  rows_kept fin m (reschedule_rows id n delay error dead now m).
Proof.
  unfold reschedule_rows. destruct (m !! id) as [row|] eqn:E; [|apply rows_kept_refl].
  case_decide; [apply rows_kept_refl|]. intros j. destruct (decide (id = j)) as [<-|Hne].
  - right. right. destruct dead; eexists; rewrite lookup_insert_eq; by split.
  - left. destruct dead; by rewrite lookup_insert_ne.
Qed.

Lemma settle_kept fin r s now b :
  (forall keep, s = SettleComplete keep -> ob_id r ∈ fin) ->
  rows_kept fin (bk_rows b) (bk_rows (settle r s now b)).
Proof.
  intros Hs. destruct s as [keep|delay error dead]; cbn.
  - pose proof (bk_complete_law (ob_id r) (ob_attempts r) keep now b) as Hl.
    destruct (bk_complete (ob_id r) (ob_attempts r) keep now b) as [v b']. cbn.
    destruct Hl as [->|[_ ->]]; [by eapply complete_kept, Hs|apply rows_kept_refl].
  - pose proof (bk_reschedule_law (ob_id r) (ob_attempts r) delay error dead now b) as Hl.
    destruct (bk_reschedule (ob_id r) (ob_attempts r) delay error dead now b) as [v b']. cbn.
    destruct Hl as [->|[_ ->]]; [apply reschedule_kept|apply rows_kept_refl].
Qed.

Lemma take_kept fin m lease now due :
  NoDup due.*1 -> rows_kept fin m (take_rows lease now due m).
Proof.
  intros Hnd id. destruct (decide (id ∈ due.*1)) as [Hd|Hd].
  - apply list_elem_of_fmap in Hd as ([id' row] & Hid & Hp). cbn in Hid. subst id'.
    right. right. eexists. rewrite (take_rows_due _ _ _ _ id row) by done. by split.
  - left. by apply take_rows_other.
Qed.

Lemma redrive_kept fin topic now b :
  rows_kept fin (bk_rows b) (bk_rows (bk_redrive topic now b).2).
Proof.
  pose proof (bk_redrive_law topic now b) as Hl.
  destruct (bk_redrive topic now b) as [v b']. cbn.
  destruct Hl as [->|[_ ->]]; [|apply rows_kept_refl]. intros id.
  unfold redrive_rows. rewrite lookup_fmap. destruct (bk_rows b !! id) as [row|]; cbn; [|by left].
  destruct (redrivable topic row); [|by left]. right. right. by eexists.
Qed.

Lemma purge_message_kept pub fin dis before states now b id :
  states ⊆ [Delivered; Dead] -> rows_ok pub (bk_rows b) -> id ∈ pub ->
  message_kept (bk_rows b) fin dis id ->
  message_kept (bk_rows (bk_purge before states now b).2) fin
    (dead_ids before states now (bk_rows b) ++ dis) id.
Proof.
  intros Hst Hok Hid H. pose proof (bk_purge_law before states now b) as Hl.
  destruct (bk_purge before states now b) as [v b']. cbn.
  assert (Hsame : message_kept (bk_rows b) fin (dead_ids before states now (bk_rows b) ++ dis) id).
  { unfold message_kept in *. destruct (bk_rows b !! id); [done|].
    destruct H; [by left|]. right. apply elem_of_app. by right. }
  destruct Hl as [->|[_ ->]]; [|done]. unfold message_kept.
  destruct (purge_rows before states now (bk_rows b) !! id) as [row|] eqn:E.
  - apply purge_rows_lookup in E as [E _]. unfold message_kept in H. by rewrite E in H.
  - unfold message_kept in H, Hsame. destruct (bk_rows b !! id) as [row|] eqn:Er; [|done].
    assert (Hp : purgeable before states now row = true).
    { destruct (purgeable before states now row) eqn:Ep; [done|].
      by rewrite (proj2 (purge_rows_lookup before states now (bk_rows b) id row)) in E. }
    assert (Hin : state row ∈ states).
    { unfold purgeable in Hp. apply andb_prop in Hp as [Hp _]. by apply bool_decide_eq_true in Hp. }
    apply Hst in Hin. rewrite !elem_of_cons in Hin. destruct Hin as [Hd|[Hd|[]%not_elem_of_nil]].
    + left. auto.
    + right. apply elem_of_app. left. unfold dead_ids. apply list_elem_of_fmap.
      exists (id, row). split; [done|]. apply elem_of_map_to_list, map_lookup_filter_Some. auto.
Qed.

Lemma finished_settling c r rnd res keep :
  after_handler c r rnd res = Some (SettleComplete keep) -> ob_id r ∈ finished_id r res.
Proof.
  destruct res; cbn; try done; [by left|..]; unfold settle_retry, settle_dead;
    by destruct (_ && _).
Qed.

Lemma begin_settling c reg r rnd keep :
  begin_delivery c reg r rnd <> inl (SettleComplete keep).
Proof.
  unfold begin_delivery, settle_retry, settle_dead. destruct (_ && _); [done|].
  destruct (build_message reg r) as [m|[topic|text]]; [done| |done]. by destruct (_ && _).
Qed.

(** The deliveries of a step: those of before, in another phase, whose
    completions are backed by a finished handler. *)
Lemma loss_step now now' b b' rl rl' ds ds' pub runs runs' fin fin' dis n n' :
  fin ⊆ fin' -> rows_kept fin' (bk_rows b) (bk_rows b') ->
  (forall d keep, d ∈ ds' -> d_phase d = Settling (SettleComplete keep) ->
     d ∈ ds \/ ob_id (d_record d) ∈ fin') ->
  loss_ok (mkOutboxSystem now b rl ds pub runs fin dis n) ->
  loss_ok (mkOutboxSystem now' b' rl' ds' pub runs' fin' dis n').
Proof.
  intros Hf Hk Hd [H1 H2]. split; cbn in *.
  - intros id Hid. by eapply message_kept_rows, H1.
  - intros d keep Hin Hp. destruct (Hd d keep Hin Hp) as [Hin'|]; [|done].
    by apply Hf, (H2 d keep).
Qed.

Lemma elem_of_middle {A} (x d : A) l1 l2 : x ∈ l1 ++ d :: l2 <-> x = d \/ x ∈ l1 ++ l2.
Proof. rewrite !elem_of_app, elem_of_cons. naive_solver. Qed.

Lemma relay_step_loss s s' : relay_step s s' -> history_ok s -> loss_ok s -> loss_ok s'.
Proof.
  intros Hstep Hh. destruct Hstep as [|r now b b' v rl ds pub runs fin dis n H1 H2
    |i r topics limit lease v now b b' rl ds pub runs fin dis n H1 H2 H3
    |i r d rnd now b rl ds1 ds2 pub runs fin dis n H1 H2 H3
    |i r d m rnd res now b rl ds1 ds2 pub runs fin dis n H1 H2 H3
    |d s now b rl ds1 ds2 pub runs fin dis n H1|d now b rl ds1 ds2 pub runs fin dis n
    |i r now b rl ds pub runs fin dis n H1|i r t topic reg now b rl ds pub runs fin dis n H1 H2
    |topic now b rl ds pub runs fin dis n|before states now b rl ds pub runs fin dis n H1].
  - apply loss_step; [done|apply rows_kept_refl|by left].
  - intros [L1 L2]. pose proof (bk_enqueue_law r now b) as Hl. rewrite H2 in Hl.
    destruct v as [[]|e]; try (split; cbn in *; [first [by rewrite Hl|by rewrite (proj2 Hl)]|done]).
    destruct Hl as (_ & row' & (_ & _ & Hst & _) & Eb). split; cbn in *; [|done]. intros id. rewrite Eb, elem_of_cons.
    unfold message_kept. destruct (decide (ob_id r = id)) as [<-|Hne].
    + rewrite lookup_insert_eq. by rewrite Hst.
    + rewrite lookup_insert_ne by done. intros [->|Hid]; [done|]. by apply L1.
  - pose proof (bk_claim_law topics limit lease now b) as Hl. rewrite H3 in Hl.
    destruct Hl as (due & [Hnd _ _] & Hl). apply loss_step; [done| |].
    + destruct v; [destruct Hl as [_ ->]|destruct Hl as [->| ->]];
        first [by apply take_kept|apply rows_kept_refl].
    + intros d keep [Hin|Hin]%elem_of_app Hp; [by left|]. destruct v as [records|e]; [|by apply elem_of_nil in Hin].
      apply list_elem_of_fmap in Hin as (record & -> & _). done.
  - pose proof (begin_settling (r_config r) (r_registry r) (d_record d) rnd) as Hb.
    destruct (begin_delivery (r_config r) (r_registry r) (d_record d) rnd) as [s|m];
      apply loss_step; try done; try apply rows_kept_refl;
      intros d' keep [->|Hin]%elem_of_middle Hp; try (left; apply elem_of_middle; by right);
      first [done|injection Hp as ->; by destruct (Hb keep)].
  - apply loss_step; [by apply list_subseteq_app_r|apply rows_kept_refl|].
    intros d' keep Hin Hp. destruct (after_handler (r_config r) (d_record d) rnd res) as [s|] eqn:Ea.
    + apply elem_of_middle in Hin as [->|Hin]; [|left; apply elem_of_middle; by right].
      right. apply elem_of_app. left. injection Hp as ->. by eapply finished_settling.
    + left. apply elem_of_middle. by right.
  - intros HL. pose proof HL as [_ L2]. revert HL. apply loss_step; [done| |].
    + apply settle_kept. intros keep ->. apply (L2 d keep); [apply elem_of_middle; by left|done].
    + intros d' keep Hin _. left. apply elem_of_middle. by right.
  - apply loss_step; [done|apply rows_kept_refl|]. intros d' keep Hin _. left.
    apply elem_of_middle. by right.
  - apply loss_step; [done|apply rows_kept_refl|by left].
  - apply loss_step; [done|apply rows_kept_refl|by left].
  - apply loss_step; [done|apply redrive_kept|by left].
  - intros [L1 L2]. split; cbn in *; [|done]. intros id Hid.
    eapply purge_message_kept; [done|exact (ho_rows _ Hh)|done|by apply L1].
Qed.

Lemma relay_steps_loss s s' : outbox_init s -> rtc relay_step s s' -> loss_ok s'.
Proof.
  intros H0 Hs. pose proof (outbox_init_history s H0) as Hh.
  assert (HL : loss_ok s).
  { destruct s. destruct H0 as (E1 & E2 & E3 & E4 & E5 & E6 & E7). cbn in *. subst.
    split; cbn; [by intros ? ?%elem_of_nil|by intros ? ? ?%elem_of_nil]. }
  apply (invariant_rtc relay_step (fun s => history_ok s /\ loss_ok s) ) in Hs; [by destruct Hs| |done].
  intros s1 s2 Hstep [? ?]. split; [by eapply relay_step_history|by eapply relay_step_loss].
Qed.

(** C4 No message is lost: whatever the relays, publishers, janitors and
    operators do in any order, with failing stores, failing handlers,
    cancelled or crashed deliveries, a message that was staged is still in the store, and not
    marked delivered before one of its handlers finished; or it is gone because
    a handler finished, or because it was dead when it was purged. *)
Theorem outbox_never_loses s s' id :
  outbox_init s -> rtc relay_step s s' -> id ∈ os_published s' ->
  match bk_rows (os_store s') !! id with
  | Some row => ob_id (row_record row) = id /\ (state row = Delivered -> id ∈ os_finished s')
  | None => id ∈ os_finished s' \/ id ∈ os_discarded s'
  end.
Proof.
  intros H0 Hs Hid. pose proof (lo_kept _ (relay_steps_loss _ _ H0 Hs) id Hid) as Hk.
  pose proof (ho_rows _ (relay_steps_history _ _ H0 Hs) id) as Hr. unfold message_kept in Hk.
  destruct (bk_rows (os_store s') !! id) as [row|]; [|done]. split; [by apply Hr|done].
Qed.


(** ** Attempts *)

Definition relays_all (P : OutboxConfig -> Prop) (s : outbox_system) : Prop :=
  forall i r, os_relays s !! i = Some r -> P (r_config r).

Lemma relays_all_insert (P : OutboxConfig -> Prop) (rl : gmap nat relay) i r r' :
  rl !! i = Some r -> r_config r' = r_config r ->
  (forall j x, rl !! j = Some x -> P (r_config x)) ->
  forall j x, <[i := r']> rl !! j = Some x -> P (r_config x).
Proof. intros Hi Hc H j x [[<- <-]|[_ Hj]]%lookup_insert_Some; [rewrite Hc|]; by eapply H. Qed.

(** The configs of the relays are fixed. *)
Lemma relay_step_relays P s s' : relay_step s s' -> relays_all P s -> relays_all P s'.
Proof.
  unfold relays_all. destruct 1; try done; try (by eapply relays_all_insert).
  by destruct (begin_delivery _ _ _ _).
Qed.

(** Only dead-lettering relays, that allow at most [m] attempts. *)
Definition gives_up (m : Z) (c : OutboxConfig) : Prop :=
  dead_letter c = true /\ oc_max_attempts c <= m.

Definition runs_within (m : Z) (s : outbox_system) : Prop :=
  Forall (fun k : key => k.2 <= m) (os_runs s).

Lemma begin_within m c reg r rnd msg :
  gives_up m c -> begin_delivery c reg r rnd = inr msg -> ob_attempts r <= m.
Proof.
  intros [Hd Hm]. unfold begin_delivery. rewrite Hd. cbn.
  destruct (Z.ltb_spec (oc_max_attempts c) (ob_attempts r)); [done|lia].
Qed.

Lemma relay_step_within m s s' :
  relay_step s s' -> relays_all (gives_up m) s -> runs_within m s -> runs_within m s'.
Proof.
  unfold runs_within. destruct 1 as [| | |i r d rnd now b rl ds1 ds2 pub runs fin dis n H1 H2 H3
    | | | | | | |]; try done.
  intros Hg Hr. destruct (begin_delivery (r_config r) (r_registry r) (d_record d) rnd) as [s|msg] eqn:E;
    [done|]. cbn in *. constructor; [|done]. cbn. by eapply begin_within, E; eapply Hg.
Qed.

Lemma pairs_within_length (l : list (nat * Z)) (n : nat) (m : Z) :
  NoDup l -> Forall (fun p => (p.1 <= n)%nat /\ 1 <= p.2 <= m) l -> 0 <= m ->
  Z.of_nat (length l) <= Z.of_nat (S n) * m.
Proof.
  intros Hnd Hl Hm. rewrite Forall_forall in Hl.
  assert (l ⊆+ list_prod (seq 0 (S n)) (seqZ 1 m)) as Hs%submseteq_length.
  { apply NoDup_submseteq; [done|]. intros [e a] Hin. apply list_elem_of_In, in_prod_iff.
    destruct (Hl _ Hin) as [H1 H2]. cbn [fst snd] in *. split.
    - apply in_seq. lia.
    - apply list_elem_of_In, elem_of_seqZ. lia. }
  rewrite length_prod, length_seq, length_seqZ in Hs. lia.
Qed.

(** A message is handled at most [max_attempts] times, and as often again
    after every redrive, when all relays dead-letter after at most that many
    attempts: concurrent relays, lapsed leases and deliveries that die before
    they settle (so never report their failure) are counted too. *)
Lemma handler_runs_bounded m s s' id :
  0 <= m -> outbox_init s -> relays_all (gives_up m) s -> rtc relay_step s s' ->
  Z.of_nat (length (filter (fun k : key => k.1.1 = id) (os_runs s'))) <=
    Z.of_nat (S (os_redrives s')) * m.
Proof.
  intros Hm H0 Hg Hs. pose proof (ho_runs _ (relay_steps_history _ _ H0 Hs)) as Hk.
  assert (Hw : runs_within m s').
  { apply (invariant_rtc relay_step (fun s => relays_all (gives_up m) s /\ runs_within m s)) in Hs;
      [by destruct Hs| |].
    - intros s1 s2 Hst [? ?]. split; [by eapply relay_step_relays|by eapply relay_step_within].
    - split; [done|]. destruct H0 as (_ & _ & _ & Er & _). unfold runs_within. by rewrite Er. }
  unfold runs_within in Hw. rewrite Forall_forall in Hw.
  set (l := filter _ _). assert (Hin : forall k, k ∈ l -> k.1.1 = id /\ k ∈ os_runs s')
    by (intros k Hx; subst l; by apply list_elem_of_filter in Hx).
  rewrite <- (length_fmap (fun k : key => (k.1.2, k.2)) l). apply pairs_within_length; [|..|done].
  - apply NoDup_fmap_2_strong.
    + intros [[i1 e1] a1] [[i2 e2] a2] [E1 _]%Hin [E2 _]%Hin [= -> ->]. cbn in *. congruence.
    + subst l. apply NoDup_filter. destruct Hk as [Hnd _]. by apply NoDup_app in Hnd as [? _].
  - apply Forall_forall. intros p ([[i e] a] & -> & [Hi Hr]%Hin)%list_elem_of_fmap. cbn.
    destruct Hk as [_ Hb]. destruct (Hb i e a) as (_ & ? & ? & _); [apply elem_of_app; by left|].
    specialize (Hw _ Hr). cbn in Hw. lia.
Qed.

(** ** Slots *)

Definition slots_ok (s : outbox_system) : Prop :=
  forall i r, os_relays s !! i = Some r -> inflight i (os_deliveries s) <= concurrency (r_config r).

Lemma inflight_app i ds1 ds2 : inflight i (ds1 ++ ds2) = inflight i ds1 + inflight i ds2.
Proof. unfold inflight. rewrite filter_app, length_app. lia. Qed.

Lemma inflight_nil i : inflight i [] = 0.
Proof. done. Qed.

Lemma inflight_cons i d ds :
  inflight i (d :: ds) = (if decide (d_relay d = i) then 1 else 0) + inflight i ds.
Proof. unfold inflight. rewrite filter_cons. case_decide; cbn [length]; lia. Qed.

Lemma inflight_dispatch i j n until records :
  inflight i (dispatch j n until <$> records) =
  if decide (j = i) then Z.of_nat (length records) else 0.
Proof.
  induction records as [|r records IH]; [by case_decide|].
  rewrite fmap_cons, inflight_cons, IH. cbn. case_decide; lia.
Qed.

Lemma relay_turn_claim c reg stopped k topics limit lease :
  relay_turn c reg stopped k = TurnClaim topics limit lease ->
  stopped = false /\ topics = registry_topics reg /\ lease = oc_lease_duration c /\
  0 < concurrency c - k /\ limit = Z.min (batch_size c) (concurrency c - k).
Proof.
  unfold relay_turn. destruct stopped; [done|]. destruct (registry_topics reg); [done|].
  destruct (Z.leb_spec (concurrency c - k) 0); [done|]. by intros [= <- <- <-].
Qed.

Lemma relay_step_slots s s' :
  relay_step s s' -> relays_all (fun c => 0 < batch_size c) s -> slots_ok s -> slots_ok s'.
Proof.
  unfold slots_ok, relays_all.
  destruct 1 as [| |j r0 topics limit lease v now b b' rl ds pub runs fin dis n H1 H2 H3
    |j r0 d rnd now b rl ds1 ds2 pub runs fin dis n H1 H2 H3
    |j r0 d m rnd res now b rl ds1 ds2 pub runs fin dis n H1 H2 H3
    |d s now b rl ds1 ds2 pub runs fin dis n H1|d now b rl ds1 ds2 pub runs fin dis n
    |j r0 now b rl ds pub runs fin dis n H1|j r0 t topic reg now b rl ds pub runs fin dis n H1 H2
    | |]; cbn [os_relays os_deliveries]; intros Hb Hs; try done.
  - intros i r Hi. specialize (Hs i r Hi). rewrite inflight_app.
    destruct v as [records|e]; [|rewrite inflight_nil; lia]. rewrite inflight_dispatch. case_decide as Ej; [|lia].
    subst j. assert (r0 = r) as -> by congruence.
    apply relay_turn_claim in H2 as (_ & _ & _ & Hfree & ->). specialize (Hb i r Hi).
    pose proof (bk_claim_law topics (Z.min (batch_size (r_config r))
      (concurrency (r_config r) - inflight i ds)) lease now b) as Hl. rewrite H3 in Hl.
    destruct Hl as (due & [_ _ Hlim] & Hrep & _). apply Forall2_length in Hrep. lia.
  - intros i r Hi. specialize (Hs i r). rewrite inflight_app, inflight_cons in Hs.
    destruct (begin_delivery _ _ _ _); cbn [os_relays os_deliveries] in *;
      rewrite inflight_app, inflight_cons; cbn [in_phase d_relay]; auto.
  - intros i r Hi. specialize (Hs i r Hi). rewrite inflight_app, inflight_cons in Hs.
    destruct (after_handler _ _ _ _); rewrite !inflight_app, ?inflight_cons, ?inflight_nil; cbn [in_phase d_relay];
      case_decide; lia.
  - intros i r Hi. specialize (Hs i r Hi). rewrite inflight_app, inflight_cons in Hs.
    rewrite inflight_app. case_decide; lia.
  - intros i r Hi. specialize (Hs i r Hi). rewrite inflight_app, inflight_cons in Hs.
    rewrite inflight_app. case_decide; lia.
  - intros i r [[<- <-]|[_ Hi]]%lookup_insert_Some; [cbn|]; auto.
  - intros i r [[<- <-]|[_ Hi]]%lookup_insert_Some; [cbn|]; auto.
Qed.

(** A relay never has more than [concurrency] deliveries in flight. *)
Lemma relay_concurrency_bounded s s' i r :
  outbox_init s -> relays_all (fun c => outbox_config_valid c = true) s ->
  rtc relay_step s s' -> os_relays s' !! i = Some r ->
  inflight i (os_deliveries s') <= concurrency (r_config r).
Proof.
  intros H0 Hv Hs.
  assert (relays_all (fun c => 0 < batch_size c) s /\ slots_ok s) as Hi.
  { split.
    - intros j x Hj. specialize (Hv j x Hj). unfold outbox_config_valid in Hv.
      rewrite !andb_true_iff in Hv. destruct Hv as [[[[[[[[_ Hb] _] _] _] _] _] _] _]. lia.
    - intros j x Hj. destruct H0 as (_ & -> & _). specialize (Hv j x Hj).
      unfold outbox_config_valid in Hv. rewrite !andb_true_iff in Hv.
      destruct Hv as [[_ Hc] _]. unfold inflight. cbn. lia. }
  apply (invariant_rtc relay_step (fun s => relays_all (fun c => 0 < batch_size c) s /\ slots_ok s))
    in Hs; [destruct Hs as [_ Hs]; by apply Hs| |done].
  intros s1 s2 Hst [? ?]. split; [by eapply relay_step_relays|by eapply relay_step_slots].
Qed.


(** ** One delivery per lease *)

Definition lease_row (now : Q) (m : rows) (d : delivery) : Prop :=
  match m !! ob_id (d_record d) with
  | None => (d_until d <= now)%Q
  | Some row =>
      (ob_attempts (d_record d) = attempts row ->
         state row = Processing /\ available_at row = d_until d) /\
      (ob_attempts (d_record d) < attempts row -> (d_until d <= now)%Q)
  end.

Definition lease_ok (s : outbox_system) : Prop :=
  os_redrives s = 0%nat ->
  forall d, d ∈ os_deliveries s -> lease_row (os_now s) (bk_rows (os_store s)) d.

Lemma lease_row_same now m m' d :
  m' !! ob_id (d_record d) = m !! ob_id (d_record d) -> lease_row now m d -> lease_row now m' d.
Proof. unfold lease_row. by intros ->. Qed.

Lemma lease_row_later now now' m d : (now <= now')%Q -> lease_row now m d -> lease_row now' m d.
Proof.
  unfold lease_row. intros Hn. destruct (m !! ob_id (d_record d)); [|lra].
  intros [? H]. split; [done|]. intros ?%H. lra.
Qed.

(** In the first epoch a claim still in flight is not ahead of its row. *)
Lemma delivery_attempt s d row :
  history_ok s -> os_redrives s = 0%nat -> d ∈ os_deliveries s ->
  bk_rows (os_store s) !! ob_id (d_record d) = Some row ->
  ob_attempts (d_record d) <= attempts row.
Proof.
  intros [_ [_ Hb] _] Hn Hd Hr.
  assert (Hk : claim_key d ∈ (claim_key <$> os_deliveries s)) by (by apply list_elem_of_fmap_2).
  destruct (Hb _ _ _ Hk) as (_ & He & _ & Ha). apply Ha; [lia|done].
Qed.

(** Two claims of one message in flight have different attempts. *)
Lemma other_attempt s ds1 d ds2 d' :
  history_ok s -> os_redrives s = 0%nat -> os_deliveries s = ds1 ++ d :: ds2 -> d' ∈ ds1 ++ ds2 ->
  ob_id (d_record d') = ob_id (d_record d) -> ob_attempts (d_record d') <> ob_attempts (d_record d).
Proof.
  intros [_ [Hnd Hb] _] Hn E Hin Hid Ha. rewrite E in Hnd, Hb.
  assert (He : forall x, x ∈ ds1 ++ d :: ds2 -> d_epoch x = 0%nat).
  { intros x Hx. destruct (Hb (ob_id (d_record x)) (d_epoch x) (ob_attempts (d_record x)))
      as (_ & ? & _); [by apply (list_elem_of_fmap_2 claim_key)|lia]. }
  assert (Ek : claim_key d' = claim_key d).
  { unfold claim_key. rewrite Hid, Ha, !He; [done|..]; apply elem_of_middle; auto. }
  rewrite fmap_app, fmap_cons in Hnd. apply NoDup_app in Hnd as (_ & Hdis & Hnd).
  apply NoDup_cons in Hnd as [Hnin _].
  assert (Hk : claim_key d ∈ claim_key <$> (ds1 ++ ds2))
    by (rewrite <- Ek; by apply list_elem_of_fmap_2).
  rewrite fmap_app in Hk. apply elem_of_app in Hk as [Hk|Hk]; [|done].
  apply (Hdis _ Hk). by left.
Qed.

(** A row that is settled by its claimant, deleted or rewritten: the other
    claims of the message were over. *)
Lemma lease_row_over now m m' d row :
  m !! ob_id (d_record d) = Some row -> ob_attempts (d_record d) < attempts row ->
  match m' !! ob_id (d_record d) with Some row' => attempts row' = attempts row | None => True end ->
  lease_row now m d -> lease_row now m' d.
Proof.
  unfold lease_row. intros -> Ha Hm [_ H]. specialize (H Ha).
  destruct (m' !! ob_id (d_record d)); [|done]. split; [lia|done].
Qed.

Lemma settle_other r s now b id :
  id <> ob_id r -> bk_rows (settle r s now b) !! id = bk_rows b !! id.
Proof.
  intros Hne. destruct s as [keep|delay error dead]; cbn.
  - pose proof (bk_complete_law (ob_id r) (ob_attempts r) keep now b) as Hl.
    destruct (bk_complete (ob_id r) (ob_attempts r) keep now b) as [v b']. cbn.
    destruct Hl as [->|[_ ->]]; [|done]. unfold complete_rows.
    destruct (bk_rows b !! ob_id r); [|done]. case_decide; [done|].
    destruct keep; [by rewrite lookup_insert_ne|by rewrite lookup_delete_ne].
  - pose proof (bk_reschedule_law (ob_id r) (ob_attempts r) delay error dead now b) as Hl.
    destruct (bk_reschedule (ob_id r) (ob_attempts r) delay error dead now b) as [v b']. cbn.
    destruct Hl as [->|[_ ->]]; [|done]. unfold reschedule_rows.
    destruct (bk_rows b !! ob_id r); [|done]. case_decide; [done|].
    destruct dead; by rewrite lookup_insert_ne.
Qed.

(** A stale settlement changes nothing: the attempt fences it. *)
Lemma settle_fenced r s now b :
  (forall row, bk_rows b !! ob_id r = Some row -> attempts row <> ob_attempts r) ->
  bk_rows (settle r s now b) = bk_rows b.
Proof.
  intros Hf. destruct s as [keep|delay error dead]; cbn.
  - pose proof (bk_complete_law (ob_id r) (ob_attempts r) keep now b) as Hl.
    destruct (bk_complete (ob_id r) (ob_attempts r) keep now b) as [v b']. cbn.
    destruct Hl as [->|[_ ->]]; [|done]. unfold complete_rows.
    destruct (bk_rows b !! ob_id r) as [row|]; [|done]. specialize (Hf row eq_refl).
    by case_decide.
  - pose proof (bk_reschedule_law (ob_id r) (ob_attempts r) delay error dead now b) as Hl.
    destruct (bk_reschedule (ob_id r) (ob_attempts r) delay error dead now b) as [v b']. cbn.
    destruct Hl as [->|[_ ->]]; [|done]. unfold reschedule_rows.
    destruct (bk_rows b !! ob_id r) as [row|]; [|done]. specialize (Hf row eq_refl).
    by case_decide.
Qed.

Lemma settle_lease now b rl ds1 d ds2 pub runs fin dis s d' :
  let sys := mkOutboxSystem now b rl (ds1 ++ d :: ds2) pub runs fin dis 0 in
  history_ok sys -> lease_ok sys -> d' ∈ ds1 ++ ds2 ->
  lease_row now (bk_rows (settle (d_record d) s now b)) d'.
Proof.
  intros sys Hh Hl Hin.
  assert (Hd' : lease_row now (bk_rows b) d') by (apply Hl; [done|apply elem_of_middle; by right]).
  destruct (decide (ob_id (d_record d') = ob_id (d_record d))) as [Hid|Hid];
    [|by eapply lease_row_same; [apply settle_other|]].
  destruct (bk_rows b !! ob_id (d_record d)) as [row|] eqn:Er;
    [|rewrite settle_fenced; [done|intros row; congruence]].
  destruct (decide (attempts row = ob_attempts (d_record d))) as [Ha|Ha];
    [|rewrite settle_fenced; [done|intros row'; congruence]].
  pose proof (other_attempt sys ds1 d ds2 d' Hh eq_refl eq_refl Hin Hid) as Hne.
  assert (Hle : ob_attempts (d_record d') <= attempts row).
  { apply (delivery_attempt sys); [done|done|apply elem_of_middle; by right|]. cbn. congruence. }
  eapply (lease_row_over _ (bk_rows b)); [by rewrite Hid|lia| |done].
  rewrite Hid. destruct (bk_rows (settle (d_record d) s now b) !! ob_id (d_record d)) as [row'|] eqn:E;
    [|done]. apply settle_shrink in E as (row1 & E1 & _ & ->). congruence.
Qed.

Lemma purge_lease now b rl ds pub runs fin dis before states d :
  let sys := mkOutboxSystem now b rl ds pub runs fin dis 0 in
  history_ok sys -> lease_ok sys -> states ⊆ [Delivered; Dead] -> d ∈ ds ->
  lease_row now (bk_rows (bk_purge before states now b).2) d.
Proof.
  intros sys Hh Hl Hst Hin. pose proof (Hl eq_refl d Hin) as Hd. cbn in Hd.
  pose proof (bk_purge_law before states now b) as Hp.
  destruct (bk_purge before states now b) as [v b']. cbn. destruct Hp as [->|[_ ->]]; [|done].
  destruct (purge_rows before states now (bk_rows b) !! ob_id (d_record d)) as [row|] eqn:E.
  { apply (lease_row_same _ (bk_rows b)); [|done]. rewrite E.
    by apply purge_rows_lookup in E as [-> _]. }
  destruct (bk_rows b !! ob_id (d_record d)) as [row|] eqn:Er;
    [|by apply (lease_row_same _ (bk_rows b)); [rewrite E, Er|]].
  apply (lease_row_over _ (bk_rows b) _ _ row Er); [|by rewrite E|done].
  pose proof (delivery_attempt sys d row Hh eq_refl Hin Er) as Hle.
  destruct (decide (ob_attempts (d_record d) = attempts row)) as [Ha|]; [|lia].
  unfold lease_row in Hd. rewrite Er in Hd. destruct Hd as [Hd _]. destruct (Hd Ha) as [Hs _].
  assert (Hnp : purgeable before states now row = true).
  { destruct (purgeable before states now row) eqn:Ep; [done|].
    by rewrite (proj2 (purge_rows_lookup before states now (bk_rows b) _ row)) in E. }
  unfold purgeable in Hnp. apply andb_prop in Hnp as [Hnp%bool_decide_eq_true _].
  apply Hst in Hnp. rewrite Hs in Hnp. by apply elem_of_cons in Hnp as [?|[?|?%elem_of_nil]%elem_of_cons].
Qed.

Lemma claim_lease v b b' topics limit lease now i rl ds pub runs fin dis :
  bk_claim topics limit lease now b = (v, b') ->
  let sys := mkOutboxSystem now b rl ds pub runs fin dis 0 in
  history_ok sys -> lease_ok sys ->
  forall d, d ∈ ds ++ match v with
                      | Return records => dispatch i 0 (now + lease) <$> records
                      | Raise _ => []
                      end -> lease_row now (bk_rows b') d.
Proof.
  intros E sys Hh Hl. pose proof (bk_claim_law topics limit lease now b) as Hlaw.
  rewrite E in Hlaw. destruct Hlaw as (due & [Hnd Hdue _] & Hlaw). rewrite Forall_forall in Hdue.
  assert (Hold : forall d, d ∈ ds -> lease_row now (take_rows lease now due (bk_rows b)) d).
  { intros d Hin. pose proof (Hl eq_refl d Hin) as Hd. cbn in Hd.
    destruct (decide (ob_id (d_record d) ∈ due.*1)) as [Hk|Hk];
      [|by apply (lease_row_same _ (bk_rows b)); [apply take_rows_other|]].
    apply list_elem_of_fmap in Hk as ([id row] & Hid & Hp). cbn in Hid. subst id.
    destruct (Hdue _ Hp) as [Hr Hc]. cbn in Hr, Hc.
    pose proof (delivery_attempt sys d row Hh eq_refl Hin Hr) as Hle.
    unfold lease_row in *. rewrite Hr in Hd. rewrite (take_rows_due _ _ _ _ _ row) by done. cbn.
    split; [lia|]. intros _. destruct Hd as [H1 H2].
    destruct (decide (ob_attempts (d_record d) = attempts row)) as [Ha|Ha]; [|apply H2; lia].
    destruct (H1 Ha) as [_ <-]. unfold claimable in Hc. rewrite !andb_true_iff in Hc.
    destruct Hc as [_ Hc]. by apply Qle_bool_iff. }
  destruct v as [records|e].
  - destruct Hlaw as [Hrep Eb]. rewrite Eb. intros d [Hin|Hin]%elem_of_app; [by apply Hold|].
    apply list_elem_of_fmap in Hin as (record & -> & Hin).
    apply list_elem_of_lookup in Hin as [j Hj].
    destruct (Forall2_lookup_l _ _ _ _ _ Hrep Hj) as ([id row] & Hp%list_elem_of_lookup_2 & (Hrid & _) & Hn).
    destruct (Hdue _ Hp) as [Hr _]. cbn in Hr, Hrid, Hn. destruct (ho_rows _ Hh id row Hr) as (Hid & _).
    unfold lease_row. cbn. rewrite Hrid, Hid, Hn, (take_rows_due _ _ _ _ id row) by done. cbn.
    split; [done|lia].
  - rewrite app_nil_r. destruct Hlaw as [->| ->]; [|done]. intros d Hin. by apply Hl.
Qed.

Lemma relay_step_lease s s' : relay_step s s' -> history_ok s -> lease_ok s -> lease_ok s'.
Proof.
  intros Hstep Hh. destruct Hstep as [now st b rl ds pub runs fin dis n H1
    |r now b b' v rl ds pub runs fin dis n H1 H2
    |i r topics limit lease v now b b' rl ds pub runs fin dis n H1 H2 H3
    |i r d rnd now b rl ds1 ds2 pub runs fin dis n H1 H2 H3
    |i r d m rnd res now b rl ds1 ds2 pub runs fin dis n H1 H2 H3
    |d s now b rl ds1 ds2 pub runs fin dis n H1|d now b rl ds1 ds2 pub runs fin dis n
    |i r now b rl ds pub runs fin dis n H1|i r t topic reg now b rl ds pub runs fin dis n H1 H2
    |topic now b rl ds pub runs fin dis n|before states now b rl ds pub runs fin dis n H1];
    try (intros Hl; done).
  - intros Hl Hn d Hd. cbn. apply (lease_row_later now); [done|]. by apply Hl.
  - intros Hl Hn d Hd. cbn in *. apply (lease_row_same _ (bk_rows b)); [|by apply Hl].
    pose proof (bk_enqueue_law r now b) as Hlaw. rewrite H2 in Hlaw.
    destruct v as [[]|e]; try (first [by rewrite Hlaw|by rewrite (proj2 Hlaw)]).
    destruct Hlaw as (_ & row' & _ & ->). rewrite lookup_insert_ne; [done|]. intros Hid.
    destruct Hh as [_ [_ Hb] _]. cbn in Hb.
    destruct (Hb (ob_id (d_record d)) (d_epoch d) (ob_attempts (d_record d))) as [Hp _];
      [by apply (list_elem_of_fmap_2 claim_key)|congruence].
  - intros Hl Hn. cbn in Hn. subst n. by eapply claim_lease.
  - intros Hl. assert (Hl' : forall p, lease_ok (mkOutboxSystem now b rl (ds1 ++ in_phase p d :: ds2)
      pub (match p with Running _ => claim_key d :: runs | _ => runs end) fin dis n)).
    { intros p Hn d' [->|Hin]%elem_of_middle; cbn in Hn.
      - apply (Hl Hn d), elem_of_middle. by left.
      - apply (Hl Hn d'), elem_of_middle. by right. }
    destruct (begin_delivery (r_config r) (r_registry r) (d_record d) rnd) as [s|msg];
      [apply (Hl' (Settling s))|apply (Hl' (Running msg))].
  - intros Hl Hn d' Hin. cbn in *.
    destruct (after_handler (r_config r) (d_record d) rnd res) as [s|].
    + apply elem_of_middle in Hin as [->|Hin].
      * apply (Hl Hn d), elem_of_middle. by left.
      * apply (Hl Hn d'), elem_of_middle. by right.
    + apply (Hl Hn d'), elem_of_middle. by right.
  - intros Hl Hn d' Hin. cbn in *. subst n. by eapply settle_lease.
  - intros Hl Hn d' Hin. cbn in *. apply (Hl Hn d'), elem_of_middle. by right.
  - intros Hl Hn d' Hin. cbn in *. subst n. by eapply purge_lease.
Qed.

(** C5 One delivery at a time: as long as nobody has redriven dead messages, two
    deliveries of one message that are in flight, in any relays, are never both
    within the lease of their claim, whatever the relays did before (so a handler
    that ends within its lease runs alone). *)
Theorem one_delivery_per_lease s s' ds1 ds2 ds3 d1 d2 :
  outbox_init s -> rtc relay_step s s' -> os_redrives s' = 0%nat ->
  os_deliveries s' = ds1 ++ d1 :: ds2 ++ d2 :: ds3 ->
  ob_id (d_record d1) = ob_id (d_record d2) ->
  (d_until d1 <= os_now s')%Q \/ (d_until d2 <= os_now s')%Q.
Proof.
  intros H0 Hs Hn E Hid.
  assert (history_ok s' /\ lease_ok s') as [Hh Hl].
  { apply (invariant_rtc relay_step (fun s => history_ok s /\ lease_ok s)) in Hs; [done| |].
    - intros s1 s2 Hst [? ?]. split; [by eapply relay_step_history|by eapply relay_step_lease].
    - split; [by apply outbox_init_history|]. destruct H0 as (_ & Ed & _). intros _ d.
      rewrite Ed. by intros ?%elem_of_nil. }
  assert (In1 : d1 ∈ os_deliveries s') by (rewrite E; apply elem_of_middle; by left).
  assert (In2 : d2 ∈ os_deliveries s').
  { rewrite E. apply elem_of_middle. right. rewrite elem_of_app. right. apply elem_of_middle. by left. }
  pose proof (Hl Hn d1 In1) as L1. pose proof (Hl Hn d2 In2) as L2.
  pose proof (other_attempt s' ds1 d1 (ds2 ++ d2 :: ds3) d2 Hh Hn E) as Hne.
  unfold lease_row in L1, L2. rewrite Hid in L1.
  destruct (bk_rows (os_store s') !! ob_id (d_record d2)) as [row|] eqn:Er; [|by left].
  pose proof (delivery_attempt s' d1 row Hh Hn In1) as A1. rewrite Hid in A1. specialize (A1 Er).
  pose proof (delivery_attempt s' d2 row Hh Hn In2 Er) as A2.
  assert (ob_attempts (d_record d2) <> ob_attempts (d_record d1)).
  { apply Hne; [|done]. rewrite elem_of_app. right. apply elem_of_middle. by left. }
  destruct L1 as [_ L1], L2 as [_ L2].
  destruct (decide (ob_attempts (d_record d1) = attempts row)); [right; apply L2|left; apply L1]; lia.
Qed.

End Registry.

(** ** What a delivery does to its message *)

(** The end of a delivery whose handler ended with [res]. *)
Definition finish {B} `{OutboxBackend B} (c : OutboxConfig) (r : OutboxRecord) (rnd : Q)
    (res : HandlerResult) (now : Q) (b : B) : B :=
  match after_handler c r rnd res with
  | Some s => settle r s now b
  | None => b
  end.

(** The row of a failed attempt. *)
Definition failed_row (c : OutboxConfig) (row : Row) (error : string) (delay now : Q) : Row :=
  if dead_letter c && (oc_max_attempts c <=? attempts row) then
    mkRow (row_record row) Dead (attempts row) (available_at row) (created_at row) (Some error)
      (delivered_at row)
  else
    mkRow (row_record row) Pending (attempts row) (now + delay) (created_at row) (Some error)
      (delivered_at row).

Definition dead_row (row : Row) (error : string) : Row :=
  mkRow (row_record row) Dead (attempts row) (available_at row) (created_at row) (Some error)
    (delivered_at row).

(** A delivery that still owns its claim leaves exactly the row that the way
    its handler ended asks for: delivered (or removed), dead with the reason of
    [Cancel] or of an invalid payload, whatever the attempts left, retried after
    the asked delay or the backoff, or dead when the attempts are used up; a
    cancelled handler leaves the claim to lapse.  A delivery that lost its
    claim changes nothing; and no delivery touches another message. *)
Lemma delivery_outcome c r rnd res now (s : Outbox) :
  let m := ob_rows s in
  let m' := ob_rows (finish c r rnd res now s) in
  (forall id, id <> ob_id r -> m' !! id = m !! id) /\
  (forall row, m !! ob_id r = Some row -> attempts row <> ob_attempts r -> m' = m) /\
  (forall row, m !! ob_id r = Some row -> attempts row = ob_attempts r ->
     m' !! ob_id r =
     match res with
     | Finished =>
         if keeps c then
           Some (mkRow (row_record row) Delivered (attempts row) (available_at row)
                   (created_at row) None (Some now))
         else None
     | RaisedCancelled | RaisedBase => Some row
     | RaisedCancel reason => Some (dead_row row reason)
     | RaisedInvalid text => Some (dead_row row (invalid_payload text))
     | RaisedRetry delay =>
         Some (failed_row c row "retry requested" (default (backoff c (attempts row) rnd) delay) now)
     | RaisedError text => Some (failed_row c row text (backoff c (attempts row) rnd) now)
     end).
Proof.
  split_and!.
  - intros id Hid. unfold finish. destruct (after_handler c r rnd res) as [x|]; [|done].
    by apply (settle_other (BK := memory_outbox) r x now s).
  - intros row Hr Ha. unfold finish. destruct (after_handler c r rnd res) as [x|]; [|done].
    apply (settle_fenced (BK := memory_outbox) r x now s).
    intros row' Hr'. cbn in Hr'. congruence.
  - intros row Hr Ha. unfold finish, after_handler, settle_retry, settle_dead, failed_row, dead_row.
    rewrite <- Ha.
    destruct res; cbn; try done; unfold complete_rows, reschedule_rows; try destruct (_ && _);
      cbn; unfold reschedule_rows; rewrite ?Hr, ?decide_False by auto;
      rewrite ?lookup_insert_eq; try done.
    destruct (keeps c); [by rewrite lookup_insert_eq|by rewrite lookup_delete_eq].
Qed.

(** The backoff grows exponentially up to [retry_max], and the jitter only
    shortens it. *)
Lemma backoff_bounds c n rnd :
  outbox_config_valid c = true -> 1 <= n -> (0 <= rnd)%Q -> (rnd <= 1)%Q ->
  let raw := py_min (retry_max c) (retry_base c * Qpower 2 (Z.min (n - 1) 63)) in
  (0 <= backoff c n rnd)%Q /\ (raw * (1 - retry_jitter c) <= backoff c n rnd)%Q /\
  (backoff c n rnd <= raw)%Q /\ (backoff c n rnd <= retry_max c)%Q /\ (0 < raw)%Q.
Proof.
  intros Hv Hn H0 H1 raw. unfold outbox_config_valid in Hv. rewrite !andb_true_iff in Hv.
  destruct Hv as [[[[[_ Hb] Hm] [Hj0 Hj1]] _] _].
  destruct (Qlt_bool_spec 0 (retry_base c)); [|done].
  destruct (Qlt_bool_spec 0 (retry_max c)); [|done]. apply Qle_bool_iff in Hj0, Hj1.
  assert (Hp : (0 < Qpower 2 (Z.min (n - 1) 63))%Q) by (apply Qpower_0_lt; lra).
  assert (Hr : (0 < raw)%Q /\ (raw <= retry_max c)%Q).
  { subst raw. assert (0 < retry_base c * 2 ^ Z.min (n - 1) 63)%Q by (by apply Qmult_lt_0_compat).
    match goal with |- context [py_min ?a ?b] => destruct (py_min_cases a b) as [[? ->]|[? ->]] end;
      split; lra. }
  unfold backoff. change (Z.min (n - 1) max_backoff_exponent) with (Z.min (n - 1) 63).
  fold raw. cbn zeta. clearbody raw. destruct Hr.
  assert (0 <= raw * (1 - retry_jitter c))%Q by nra.
  assert (0 <= raw - raw * (1 - retry_jitter c))%Q by nra.
  set (floor := (raw * (1 - retry_jitter c))%Q) in *. clearbody floor.
  assert (0 <= rnd * (raw - floor))%Q by nra.
  assert (rnd * (raw - floor) <= raw - floor)%Q by nra.
  split_and!; lra.
Qed.

(** ** Concrete runs *)

Definition demo_config : OutboxConfig := mkOutboxConfig 1.5 100 30 2 1 300 1 1 true KeepFalse.
Definition demo_record : OutboxRecord := mkOutboxRecord 1 "mail" [] None [] None 0 None.
Definition demo_relay : relay := mkRelay (Model := unit) demo_config [("mail", mkEntry "mail" None)] false.
Definition demo_relays : gmap nat (relay (Model := unit)) := {[0%nat := demo_relay; 1%nat := demo_relay]}.

Definition demo_step := relay_step (Model := unit) (Data := unit) (B := Outbox)
  (fun _ => "Mail") (fun _ => None) (fun _ _ => Return tt).

Definition demo_store (st : row_state) (n : Z) (avail : Q) : Outbox :=
  mkOutbox {[1 := mkRow demo_record st n avail 0 None None]} true.

Definition demo_message (n : Z) : OutboxMessage (Data := unit) :=
  mkOutboxMessage 1 "mail" None None [] [] n.

Definition demo_delivery (i : nat) (n : Z) (until : Q) : delivery :=
  mkDelivery i (with_attempts n demo_record) 0 until (Running (demo_message n)).

Definition demo_system (now : Q) (b : Outbox) (ds : list (delivery (Data := unit))) (pub : list Z)
    (runs : list (Z * nat * Z)) (fin : list Z) : outbox_system :=
  mkOutboxSystem now b demo_relays ds pub runs fin [] 0.

Definition demo_start : outbox_system := demo_system 0 new_outbox [] [] [] [].

Lemma demo_start_init : outbox_init demo_start.
Proof. by split_and!. Qed.

Lemma demo_start_configs (P : OutboxConfig -> Prop) : P demo_config -> relays_all P demo_start.
Proof.
  intros HP i r. unfold demo_start, demo_system, demo_relays; cbn [os_relays].
  rewrite lookup_insert_Some, lookup_singleton_Some. by intros [[_ <-]|[_ [_ <-]]].
Qed.

Lemma demo_won i now n st ds pub runs fin :
  demo_relays !! i = Some demo_relay -> inflight i ds = 0 -> st = Pending \/ st = Processing ->
  demo_step (demo_system now (demo_store st n now) ds pub runs fin)
    (demo_system now (demo_store Processing (n + 1) (now + 30))
       (ds ++ [dispatch i 0 (now + 30) (with_attempts (n + 1) demo_record)]) pub runs fin).
Proof.
  intros Hi Hf Hst.
  refine (rs_claim _ _ _ i demo_relay ["mail"] 1 30 (Return [with_attempts (n + 1) demo_record])
    now _ (demo_store Processing (n + 1) (now + 30)) demo_relays ds pub runs fin [] 0 Hi _ _).
  - unfold relay_turn. cbn. by rewrite Hf.
  - cbn. unfold outbox_claim, due_rows, demo_store. cbn [ob_rows].
    rewrite map_to_list_singleton, filter_cons_True, filter_nil; [done|].
    unfold claimable. cbn. rewrite (proj2 (Qle_bool_iff now now)) by lra. by destruct Hst as [->| ->].
Qed.

(** The claim of relay [i] at [now], and the start of its handler. *)
Lemma demo_claim i now n st b ds pub runs fin :
  demo_relays !! i = Some demo_relay -> inflight i ds = 0 -> n = 0 \/ n = 1 ->
  b = demo_store st n now -> st = Pending \/ st = Processing ->
  rtc demo_step (demo_system now b ds pub runs fin)
    (demo_system now (demo_store Processing (n + 1) (now + 30))
       (ds ++ [demo_delivery i (n + 1) (now + 30)]) pub ((1, 0%nat, n + 1) :: runs) fin).
Proof.
  intros Hi Hf Hn -> Hst. destruct Hn as [-> | ->]; (eapply rtc_l; [|eapply rtc_l; [|apply rtc_refl]]).
  - apply (demo_won i now 0 st ds pub runs fin Hi Hf Hst).
  - refine (rs_begin _ _ _ i demo_relay (dispatch i 0 (now + 30) (with_attempts 1 demo_record))
      0 now _ demo_relays ds [] pub runs fin [] 0 Hi eq_refl eq_refl).
  - apply (demo_won i now 1 st ds pub runs fin Hi Hf Hst).
  - refine (rs_begin _ _ _ i demo_relay (dispatch i 0 (now + 30) (with_attempts 2 demo_record))
      0 now _ demo_relays ds [] pub runs fin [] 0 Hi eq_refl eq_refl).
Qed.

(** Published, claimed by relay 0, and claimed again by relay 1 once the first lease
    has lapsed. *)
Definition demo_two : outbox_system :=
  demo_system 30 (demo_store Processing 2 60) [demo_delivery 0 1 30; demo_delivery 1 2 60] [1]
    [(1, 0%nat, 2); (1, 0%nat, 1)] [].

Lemma demo_two_reachable : rtc demo_step demo_start demo_two.
Proof.
  eapply rtc_l.
  { refine (rs_publish _ _ _ demo_record 0 new_outbox (demo_store Pending 0 0) (Return true)
      demo_relays [] [] [] [] [] 0 _ _); [by intros ?%elem_of_nil|by vm_compute]. }
  etransitivity; [by apply (demo_claim 0 0 0 Pending); auto|].
  eapply rtc_l; [apply (rs_time _ _ _ 0 30); lra|].
  exact (demo_claim 1 30 1 Processing _ [demo_delivery 0 1 30] [1] [(1, 0%nat, 1)] []
    eq_refl eq_refl (or_intror eq_refl) eq_refl (or_intror eq_refl)).
Qed.

(** ... and the second handler finishes. *)
Definition demo_done : outbox_system :=
  demo_system 30 (mkOutbox ∅ true) [demo_delivery 0 1 30] [1] [(1, 0%nat, 2); (1, 0%nat, 1)] [1].

Lemma demo_done_reachable : rtc demo_step demo_start demo_done.
Proof.
  etransitivity; [apply demo_two_reachable|].
  eapply rtc_l.
  { exact (rs_return _ _ _ 1 demo_relay (demo_delivery 1 2 60) (demo_message 2) 0 Finished 30
      (demo_store Processing 2 60) demo_relays [demo_delivery 0 1 30] [] [1]
      [(1, 0%nat, 2); (1, 0%nat, 1)] [] [] 0 eq_refl eq_refl eq_refl). }
  eapply rtc_l; [|apply rtc_refl].
  exact (rs_settle _ _ _ (in_phase (Settling (SettleComplete false)) (demo_delivery 1 2 60))
    (SettleComplete false) 30 (demo_store Processing 2 60) demo_relays [demo_delivery 0 1 30] []
    [1] [(1, 0%nat, 2); (1, 0%nat, 1)] [1] [] 0 eq_refl).
Qed.

Lemma outbox_never_loses_witness :
  ob_rows (os_store demo_done) !! 1 = None /\ (1 ∈ os_finished demo_done \/ 1 ∈ os_discarded demo_done).
Proof.
  split; [by vm_compute|].
  exact (outbox_never_loses (fun _ => "Mail") (fun _ => None) (fun _ _ => Return tt)
    demo_start demo_done 1 demo_start_init demo_done_reachable (list_elem_of_here 1 [])).
Defined.

Lemma handler_runs_bounded_witness :
  Z.of_nat (length (filter (fun k : Z * nat * Z => k.1.1 = 1) (os_runs demo_done))) = 2 /\
  Z.of_nat (length (filter (fun k : Z * nat * Z => k.1.1 = 1) (os_runs demo_done))) <= 1 * 2.
Proof.
  split; [by vm_compute|].
  apply (handler_runs_bounded (fun _ => "Mail") (fun _ => None) (fun _ _ => Return tt)
    2 demo_start demo_done 1); [lia|apply demo_start_init| |apply demo_done_reachable].
  apply demo_start_configs. split; [done|cbn; lia].
Defined.

Lemma relay_concurrency_bounded_witness :
  inflight 1 (os_deliveries demo_two) = 1 /\ inflight 1 (os_deliveries demo_two) <= 1.
Proof.
  split; [by vm_compute|].
  apply (relay_concurrency_bounded (fun _ => "Mail") (fun _ => None) (fun _ _ => Return tt)
    demo_start demo_two 1 demo_relay); [apply demo_start_init| |apply demo_two_reachable|by vm_compute].
  apply demo_start_configs. by vm_compute.
Defined.

Lemma one_delivery_per_lease_witness : (30 <= 30)%Q \/ (60 <= 30)%Q.
Proof.
  exact (one_delivery_per_lease (fun _ => "Mail") (fun _ => None) (fun _ _ => Return tt)
    demo_start demo_two [] [] [] (demo_delivery 0 1 30) (demo_delivery 1 2 60)
    demo_start_init demo_two_reachable eq_refl eq_refl eq_refl).
Defined.

Lemma backoff_bounds_witness : (backoff demo_config 4 0.5 <= 300)%Q.
Proof.
  destruct (backoff_bounds demo_config 4 0.5) as (_ & _ & _ & H & _);
    [by vm_compute|lia|lra|lra|exact H].
Defined.

(** ** What the guarantees do not cover *)

(** A redrive counts attempts from 0 again, so the claim of a stale relay can
    carry the attempt of a new one: its late failure hands the message to a third
    relay while the second is within its lease. *)
Lemma redrive_breaks_the_fence :
  let claim_at t s := outbox_claim ["mail"] 1 30 t s in
  let s0 := (enqueue demo_record 0 new_outbox).2 in
  let '(r1, s1) := claim_at 0%Q s0 in
  let '(r2, s2) := claim_at 31%Q s1 in
  let s3 := reschedule 1 2 0 "gave up" true 31 s2 in
  let s4 := (redrive None 32 s3).2 in
  let '(r3, s5) := claim_at 32%Q s4 in
  let s6 := reschedule 1 1 0 "late failure of the first claim" false 33 s5 in
  let '(r4, s7) := claim_at 33%Q s6 in
  r3 = [with_attempts 1 demo_record] /\ r4 = [with_attempts 2 demo_record].
Proof. by vm_compute. Qed.
