(* ===== verification/CacheMemory.v ===== *)
(** * The cache store

    [cache/memory.py]: [MemoryCacheAdapter], raw bytes with lazy expiry and two
    dictionaries of tags kept in step.  It refines [entries], one dictionary
    from a key to its value, expiry and tags.  The class [CacheBackend]
    ([cache/_protocol.py]) is what a store promises to [TTLCache]. *)

From S2P Require Import Prelude Errors.
From stdpp Require Export gmap.
From Stdlib Require Import Strings.Byte.

Local Open Scope Z_scope.

Definition bytes : Type := list byte.

Record MemoryCache : Type := mkMemoryCache {
  mc_data : gmap string (bytes * Q);
  mc_tag_keys : gmap string (gset string);
  mc_key_tags : gmap string (gset string);
}.

Definition new_memory_cache : MemoryCache := mkMemoryCache ∅ ∅ ∅.

(** ** Tag membership *)

(** [members.discard(key)], pruning an empty set *)
Definition discard_member (key tag : string) (m : gmap string (gset string)) :
    gmap string (gset string) :=
  match m !! tag with
  | None => m
  | Some members =>
      if decide (members ∖ {[key]} = ∅) then delete tag m else <[tag := members ∖ {[key]}]> m
  end.

(** [_remove_from_tags] *)
Definition remove_from_tags (key : string) (tags : gset string) (m : gmap string (gset string)) :
    gmap string (gset string) :=
  fold_left (fun m tag => discard_member key tag m) (elements tags) m.

(** [_tag_keys.setdefault(tag, set()).add(key)] *)
Definition add_member (key tag : string) (m : gmap string (gset string)) :
    gmap string (gset string) :=
  <[tag := {[key]} ∪ default ∅ (m !! tag)]> m.

(** [_drop] *)
Definition drop_key (key : string) (c : MemoryCache) : MemoryCache :=
  let data := delete key (mc_data c) in
  match mc_key_tags c !! key with
  | None => mkMemoryCache data (mc_tag_keys c) (mc_key_tags c)
  | Some tags =>
      mkMemoryCache data (remove_from_tags key tags (mc_tag_keys c)) (delete key (mc_key_tags c))
  end.

(** [_associate] *)
Definition associate (key : string) (tags : list string) (c : MemoryCache) : MemoryCache :=
  let tag_keys :=
    match mc_key_tags c !! key with
    | None => mc_tag_keys c
    | Some old => remove_from_tags key old (mc_tag_keys c)
    end in
  let key_tags := delete key (mc_key_tags c) in
  match tags with
  | [] => mkMemoryCache (mc_data c) tag_keys key_tags
  | _ =>
      let new := list_to_set tags in
      mkMemoryCache (mc_data c) (fold_left (fun m tag => add_member key tag m) (elements new) tag_keys)
        (<[key := new]> key_tags)
  end.

(** ** Operations *)

(** [get]; the time is read after the lookup. *)
Definition cache_get (key : string) (now : Q) (c : MemoryCache) : option bytes * MemoryCache :=
  match mc_data c !! key with
  | None => (None, c)
  | Some (value, expiry) =>
      if (now >=? expiry)%py then (None, drop_key key c) else (Some value, c)
  end.

Definition put_entry (key : string) (value : bytes) (expiry : Q) (tags : list string)
    (c : MemoryCache) : MemoryCache :=
  associate key tags
    (mkMemoryCache (<[key := (value, expiry)]> (mc_data c)) (mc_tag_keys c) (mc_key_tags c)).

Definition cache_set (key : string) (value : bytes) (ttl : Q) (tags : list string) (now : Q)
    (c : MemoryCache) : MemoryCache := put_entry key value (now + ttl) tags c.

(** One turn of the loop of [get_many] is a [get] at the same time. *)
Fixpoint cache_get_many (keys : list string) (now : Q) (found : gmap string bytes)
    (c : MemoryCache) : gmap string bytes * MemoryCache :=
  match keys with
  | [] => (found, c)
  | key :: keys =>
      match cache_get key now c with
      | (Some value, c) => cache_get_many keys now (<[key := value]> found) c
      | (None, c) => cache_get_many keys now found c
      end
  end.

Definition cache_set_many (items : list (string * bytes)) (ttl : Q) (tags : list string) (now : Q)
    (c : MemoryCache) : MemoryCache :=
  fold_left (fun c item => put_entry item.1 item.2 (now + ttl) tags c) items c.

Definition cache_delete_many (keys : list string) (c : MemoryCache) : MemoryCache :=
  fold_left (fun c key => drop_key key c) keys c.

(** One turn of the loop of [delete_tags]. *)
Definition delete_tag (c : MemoryCache) (tag : string) : MemoryCache :=
  match mc_tag_keys c !! tag with
  | None => c
  | Some members =>
      let c := cache_delete_many (elements members) c in
      mkMemoryCache (mc_data c) (delete tag (mc_tag_keys c)) (mc_key_tags c)
  end.

Definition cache_delete_tags (tags : list string) (c : MemoryCache) : MemoryCache :=
  fold_left delete_tag tags c.

Definition cache_clear (c : MemoryCache) : MemoryCache := new_memory_cache.

(** ** The specification: one dictionary *)

Record entry : Type := mkEntry { e_value : bytes; e_expiry : Q; e_tags : gset string }.
Abbreviation entries := (gmap string entry).

Definition entry_live (now : Q) (e : entry) : bool := (now <? e_expiry e)%py.

Definition spec_get (key : string) (now : Q) (m : entries) : option bytes * entries :=
  match m !! key with
  | None => (None, m)
  | Some e => if entry_live now e then (Some (e_value e), m) else (None, delete key m)
  end.

Definition spec_put (key : string) (value : bytes) (expiry : Q) (tags : list string) (m : entries) :
    entries := <[key := mkEntry value expiry (list_to_set tags)]> m.

Definition spec_delete_tags (tags : list string) (m : entries) : entries :=
  filter (fun p => e_tags p.2 ## list_to_set tags) m.

(** What a store holds. *)
Definition contents (c : MemoryCache) : entries :=
  map_imap (fun key p => Some (mkEntry p.1 p.2 (default ∅ (mc_key_tags c !! key)))) (mc_data c).

(** The two dictionaries of tags agree, and only name stored keys. *)
Record cache_ok (c : MemoryCache) : Prop := {
  co_sync : forall key tag,
    key ∈ default ∅ (mc_tag_keys c !! tag) <-> tag ∈ default ∅ (mc_key_tags c !! key);
  co_stored : forall key tags, mc_key_tags c !! key = Some tags -> is_Some (mc_data c !! key);
  co_pruned : forall tag members, mc_tag_keys c !! tag = Some members -> members <> ∅;
}.

Lemma abstract_lookup c key :
  contents c !! key =
  (fun p => mkEntry p.1 p.2 (default ∅ (mc_key_tags c !! key))) <$> mc_data c !! key.
Proof. unfold contents. rewrite map_lookup_imap. by destruct (mc_data c !! key). Qed.

(** ** Tag membership, pointwise *)

Definition members (m : gmap string (gset string)) (tag : string) : gset string :=
  default ∅ (m !! tag).

Definition pruned (m : gmap string (gset string)) : Prop :=
  forall tag s, m !! tag = Some s -> s <> ∅.

Lemma discard_member_spec key tag m :
  pruned m -> pruned (discard_member key tag m) /\
  forall t, members (discard_member key tag m) t =
    if decide (t = tag) then members m t ∖ {[key]} else members m t.
Proof.
  intros Hp. unfold discard_member, members. destruct (m !! tag) as [s|] eqn:E.
  - case_decide as Hs; split.
    + intros t s' [_ Ht]%lookup_delete_Some. by eapply Hp.
    + intros t. case_decide as Ht; [subst|by rewrite lookup_delete_ne].
      rewrite lookup_delete_eq, E. cbn. by rewrite Hs.
    + intros t s' [[<- <-]|[_ Ht]]%lookup_insert_Some; [done|by eapply Hp].
    + intros t. case_decide as Ht; [subst|by rewrite lookup_insert_ne].
      by rewrite lookup_insert_eq, E.
  - split; [done|]. intros t. case_decide; [subst|done]. rewrite E. cbn.
    by rewrite (subseteq_empty_difference_L ∅ {[key]}) by apply empty_subseteq.
Qed.

Lemma remove_from_tags_spec key tags m :
  pruned m -> pruned (remove_from_tags key tags m) /\
  forall t, members (remove_from_tags key tags m) t =
    if decide (t ∈ tags) then members m t ∖ {[key]} else members m t.
Proof.
  intros Hp. unfold remove_from_tags.
  assert (H : forall l m, pruned m -> pruned (fold_left (fun m tag => discard_member key tag m) l m) /\
    forall t, members (fold_left (fun m tag => discard_member key tag m) l m) t =
      if decide (t ∈ l) then members m t ∖ {[key]} else members m t).
  { clear. induction l as [|tag l IH]; intros m Hp; cbn [fold_left]; [split; [done|]|].
    { intros t. by rewrite decide_False by apply not_elem_of_nil. }
    destruct (discard_member_spec key tag m Hp) as [Hp1 H1]. destruct (IH _ Hp1) as [Hp2 H2].
    split; [done|]. intros t. rewrite H2, H1.
    destruct (decide (t = tag)) as [->|Hne].
    - rewrite (decide_True (P := tag ∈ tag :: l)) by (by left).
      case_decide; [|done]. set_solver.
    - destruct (decide (t ∈ l)) as [Hin|Hin].
      + by rewrite decide_True by (by right).
      + rewrite decide_False; [done|]. by rewrite elem_of_cons; intros [|]. }
  destruct (H (elements tags) m Hp) as [H1 H2]. split; [done|]. intros t. rewrite H2.
  destruct (decide (t ∈ tags)) as [Hin|Hin].
  - by rewrite decide_True by (by apply elem_of_elements).
  - rewrite decide_False; [done|]. by rewrite elem_of_elements.
Qed.

Lemma add_members_spec key (tags : gset string) (m : gmap string (gset string)) :
  pruned m ->
  let m' := fold_left (fun m tag => add_member key tag m) (elements tags) m in
  pruned m' /\
  forall t, members m' t = if decide (t ∈ tags) then {[key]} ∪ members m t else members m t.
Proof.
  intros Hp.
  assert (H : forall l m, pruned m -> pruned (fold_left (fun m tag => add_member key tag m) l m) /\
    forall t, members (fold_left (fun m tag => add_member key tag m) l m) t =
      if decide (t ∈ l) then {[key]} ∪ members m t else members m t).
  { clear. induction l as [|tag l IH]; intros m Hp; cbn [fold_left]; [split; [done|]|].
    { intros t. by rewrite decide_False by apply not_elem_of_nil. }
    assert (Hp1 : pruned (add_member key tag m)).
    { unfold add_member. intros t s [[<- <-]|[_ Ht]]%lookup_insert_Some; [|by eapply Hp].
      intros He. apply (not_elem_of_empty (C := gset string) key). rewrite <- He. set_solver. }
    destruct (IH _ Hp1) as [Hp2 H2]. split; [done|]. intros t. rewrite H2.
    assert (Ht : members (add_member key tag m) t =
      if decide (t = tag) then {[key]} ∪ members m t else members m t).
    { unfold members, add_member. case_decide; [subst; by rewrite lookup_insert_eq|].
      by rewrite lookup_insert_ne. }
    rewrite Ht. destruct (decide (t = tag)) as [->|Hne].
    - rewrite (decide_True (P := tag ∈ tag :: l)) by (by left). case_decide; [set_solver|done].
    - destruct (decide (t ∈ l)) as [Hin|Hin].
      + by rewrite decide_True by (by right).
      + rewrite decide_False; [done|]. by rewrite elem_of_cons; intros [|]. }
  destruct (H (elements tags) m Hp) as [H1 H2]. split; [done|]. intros t. rewrite H2.
  destruct (decide (t ∈ tags)) as [Hin|Hin].
  - by rewrite decide_True by (by apply elem_of_elements).
  - rewrite decide_False; [done|]. by rewrite elem_of_elements.
Qed.

(** ** Each operation refines its specification *)

Lemma abstract_ext c m :
  (forall key, contents c !! key = m !! key) -> contents c = m.
Proof. apply map_eq. Qed.

Lemma drop_key_refines key c :
  cache_ok c -> cache_ok (drop_key key c) /\ contents (drop_key key c) = delete key (contents c).
Proof.
  intros [Hs Hst Hp]. unfold drop_key.
  destruct (mc_key_tags c !! key) as [tags|] eqn:E.
  - destruct (remove_from_tags_spec key tags (mc_tag_keys c) Hp) as [Hp' Hm]. split; [split; cbn|].
    + intros k t. change (default ∅ (remove_from_tags key tags (mc_tag_keys c) !! t)) with
        (members (remove_from_tags key tags (mc_tag_keys c)) t). rewrite Hm.
      specialize (Hs k t). fold (members (mc_tag_keys c) t) in Hs.
      destruct (decide (k = key)) as [->|Hne].
      * rewrite lookup_delete_eq. cbn. rewrite E in Hs. cbn in Hs.
        case_decide; set_solver.
      * rewrite lookup_delete_ne by done. rewrite <- Hs. case_decide; set_solver.
    + intros k ts [Hne Hk]%lookup_delete_Some. rewrite lookup_delete_ne by done. by eapply Hst.
    + done.
    + apply abstract_ext. intros k. rewrite abstract_lookup. cbn.
      destruct (decide (key = k)) as [<-|Hne]; [by rewrite !lookup_delete_eq|].
      by rewrite !lookup_delete_ne, abstract_lookup.
  - split; [split; cbn; try done|].
    + intros k ts Hk. assert (key <> k) by congruence. rewrite lookup_delete_ne by done. by eapply Hst.
    + apply abstract_ext. intros k. rewrite abstract_lookup. cbn.
      destruct (decide (key = k)) as [<-|Hne]; [by rewrite !lookup_delete_eq|].
      by rewrite !lookup_delete_ne, abstract_lookup.
Qed.

Lemma put_entry_refines key value expiry tags c :
  cache_ok c -> cache_ok (put_entry key value expiry tags c) /\
  contents (put_entry key value expiry tags c) = spec_put key value expiry tags (contents c).
Proof.
  intros [Hs Hst Hp]. unfold put_entry, associate, spec_put. cbn [mc_data mc_tag_keys mc_key_tags].
  set (tk := match mc_key_tags c !! key with None => _ | Some _ => _ end).
  assert (Htk : pruned tk /\ forall k t, k ∈ members tk t <->
    k <> key /\ t ∈ default ∅ (mc_key_tags c !! k)).
  { subst tk. destruct (mc_key_tags c !! key) as [old|] eqn:E.
    - destruct (remove_from_tags_spec key old (mc_tag_keys c) Hp) as [Hp' Hm]. split; [done|].
      intros k t. rewrite Hm. pose proof (Hs k t) as Hk. fold (members (mc_tag_keys c) t) in Hk.
      pose proof (Hs key t) as Hk'. fold (members (mc_tag_keys c) t) in Hk'. rewrite E in Hk'.
      cbn in Hk'. case_decide; set_solver.
    - split; [done|]. intros k t. pose proof (Hs k t) as Hk. fold (members (mc_tag_keys c) t) in Hk.
      rewrite Hk. split; [|by intros [? ?]]. intros Ht. split; [|done]. intros ->.
      rewrite E in Ht. by apply elem_of_empty in Ht. }
  destruct Htk as [Hp' Hm]. clearbody tk.
  assert (Hdel : forall k, k <> key -> delete key (mc_key_tags c) !! k = mc_key_tags c !! k)
    by (intros; by rewrite lookup_delete_ne).
  assert (Hdata : forall k ts, mc_key_tags c !! k = Some ts ->
    is_Some (<[key := (value, expiry)]> (mc_data c) !! k)).
  { intros k ts Hk. destruct (decide (key = k)) as [<-|]; [rewrite lookup_insert_eq; by eexists|].
    rewrite lookup_insert_ne by done. by eapply Hst. }
  destruct tags as [|tag tags].
  - split; [split; cbn; try done|].
    + intros k t. change (k ∈ members tk t <-> t ∈ default ∅ (delete key (mc_key_tags c) !! k)).
      rewrite Hm. destruct (decide (k = key)) as [->|Hne]; [|rewrite Hdel by done; naive_solver].
      rewrite lookup_delete_eq. cbn. split; [naive_solver|by intros ?%elem_of_empty].
    + intros k ts [_ Hk]%lookup_delete_Some. by eapply Hdata.
    + apply abstract_ext. intros k. rewrite abstract_lookup. cbn [mc_data mc_key_tags].
      destruct (decide (key = k)) as [<-|Hne].
      * by rewrite !lookup_insert_eq, lookup_delete_eq.
      * by rewrite !lookup_insert_ne, lookup_delete_ne, abstract_lookup.
  - set (new := list_to_set (tag :: tags) : gset string).
    destruct (add_members_spec key new tk Hp') as [Hp2 H2]. split; [split; cbn; try done|].
    + intros k t. match goal with |- k ∈ default ∅ (?m !! t) <-> _ => change (k ∈ members m t <->
        t ∈ default ∅ (<[key := new]> (delete key (mc_key_tags c)) !! k)) end.
      rewrite H2. specialize (Hm k t). destruct (decide (k = key)) as [->|Hne].
      * rewrite lookup_insert_eq. cbn. case_decide; set_solver.
      * rewrite lookup_insert_ne, Hdel by done. case_decide; set_solver.
    + intros k ts [[<- <-]|[_ [_ Hk]%lookup_delete_Some]]%lookup_insert_Some;
        [rewrite lookup_insert_eq; by eexists|by eapply Hdata].
    + apply abstract_ext. intros k. rewrite abstract_lookup. cbn [mc_data mc_key_tags].
      destruct (decide (key = k)) as [<-|Hne]; [by rewrite !lookup_insert_eq|].
      by rewrite !lookup_insert_ne, lookup_delete_ne, abstract_lookup.
Qed.

Lemma cache_get_refines key now c :
  cache_ok c -> cache_ok (cache_get key now c).2 /\
  (cache_get key now c).1 = (spec_get key now (contents c)).1 /\
  contents (cache_get key now c).2 = (spec_get key now (contents c)).2.
Proof.
  intros Hok. unfold cache_get, spec_get. rewrite abstract_lookup.
  destruct (mc_data c !! key) as [[value expiry]|]; cbn; [|done].
  unfold entry_live. cbn. unfold Qlt_bool. destruct (Qle_bool expiry now); cbn; [|done].
  destruct (drop_key_refines key c Hok). done.
Qed.

Fixpoint spec_get_many (keys : list string) (now : Q) (found : gmap string bytes) (m : entries) :
    gmap string bytes * entries :=
  match keys with
  | [] => (found, m)
  | key :: keys =>
      match spec_get key now m with
      | (Some value, m) => spec_get_many keys now (<[key := value]> found) m
      | (None, m) => spec_get_many keys now found m
      end
  end.

Lemma cache_get_many_refines keys now found c :
  cache_ok c -> cache_ok (cache_get_many keys now found c).2 /\
  (cache_get_many keys now found c).1 = (spec_get_many keys now found (contents c)).1 /\
  contents (cache_get_many keys now found c).2 = (spec_get_many keys now found (contents c)).2.
Proof.
  revert found c. induction keys as [|key keys IH]; intros found c Hok; [done|]. cbn.
  destruct (cache_get_refines key now c Hok) as (Hok' & E1 & E2).
  destruct (cache_get key now c) as [[value|] c'], (spec_get key now (contents c)) as [[value'|] m'];
    cbn in *; simplify_eq; by apply IH.
Qed.

Lemma cache_delete_many_refines keys c :
  cache_ok c -> cache_ok (cache_delete_many keys c) /\
  contents (cache_delete_many keys c) = fold_left (fun m key => delete key m) keys (contents c).
Proof.
  revert c. induction keys as [|key keys IH]; intros c Hok; [done|]. cbn.
  destruct (drop_key_refines key c Hok) as [Hok' <-]. by apply IH.
Qed.

Lemma cache_set_many_refines items ttl tags now c :
  cache_ok c -> cache_ok (cache_set_many items ttl tags now c) /\
  contents (cache_set_many items ttl tags now c) =
    fold_left (fun m item => spec_put item.1 item.2 (now + ttl) tags m) items (contents c).
Proof.
  revert c. induction items as [|item items IH]; intros c Hok; [done|]. cbn.
  destruct (put_entry_refines item.1 item.2 (now + ttl) tags c Hok) as [Hok' <-]. by apply IH.
Qed.

Lemma delete_keys_lookup (keys : list string) (m : entries) k :
  fold_left (fun m key => delete key m) keys m !! k = if decide (k ∈ keys) then None else m !! k.
Proof.
  revert m. induction keys as [|key keys IH]; intros m; cbn [fold_left].
  - by rewrite decide_False by apply not_elem_of_nil.
  - rewrite IH. destruct (decide (k ∈ keys)) as [Hin|Hin].
    + by rewrite decide_True by (by right).
    + destruct (decide (k = key)) as [->|Hne].
      * by rewrite lookup_delete_eq, decide_True by (by left).
      * rewrite lookup_delete_ne, decide_False; [done| |done]. rewrite elem_of_cons. naive_solver.
Qed.

Lemma delete_tag_refines tag c :
  cache_ok c -> cache_ok (delete_tag c tag) /\
  forall k, contents (delete_tag c tag) !! k =
    match contents c !! k with
    | Some e => if decide (tag ∈ e_tags e) then None else Some e
    | None => None
    end.
Proof.
  intros Hok. unfold delete_tag. pose proof (co_sync c Hok) as Hs.
  destruct (mc_tag_keys c !! tag) as [ms|] eqn:E.
  - destruct (cache_delete_many_refines (elements ms) c Hok) as [Hok' Ha].
    set (c' := cache_delete_many (elements ms) c) in *.
    assert (Hk : forall k, contents c' !! k = match contents c !! k with
      | Some e => if decide (tag ∈ e_tags e) then None else Some e | None => None end).
    { intros k. rewrite Ha, delete_keys_lookup. specialize (Hs k tag). rewrite E in Hs. cbn in Hs.
      rewrite abstract_lookup. destruct (mc_data c !! k) as [[v x]|] eqn:Ed; cbn.
      - case_decide as H1; case_decide as H2; rewrite ?elem_of_elements in H1; naive_solver.
      - by case_decide. }
    split; [|exact Hk]. destruct Hok' as [Hs' Hst' Hp'].
    assert (Hgone : forall k, k ∉ default ∅ (mc_tag_keys c' !! tag)).
    { intros k Hin. apply Hs' in Hin. destruct (mc_key_tags c' !! k) as [ts|] eqn:Et;
        [|by apply elem_of_empty in Hin]. destruct (Hst' k ts Et) as [[v x] Ed].
      specialize (Hk k). rewrite abstract_lookup, Ed, Et in Hk. cbn in Hk.
      destruct (contents c !! k) as [e|]; [|done]. case_decide as Hd; [done|].
      injection Hk as <-. by apply Hd. }
    split; cbn; [|done|].
    + intros k t. destruct (decide (tag = t)) as [<-|Hne].
      * rewrite lookup_delete_eq. cbn. rewrite <- Hs'. specialize (Hgone k). set_solver.
      * by rewrite lookup_delete_ne.
    + intros t s [_ Ht]%lookup_delete_Some. by eapply Hp'.
  - split; [done|]. intros k. specialize (Hs k tag). rewrite E in Hs. cbn in Hs.
    rewrite abstract_lookup. destruct (mc_data c !! k) as [[v x]|]; cbn; [|done].
    case_decide; [set_solver|done].
Qed.

Lemma cache_delete_tags_refines tags c :
  cache_ok c -> cache_ok (cache_delete_tags tags c) /\
  contents (cache_delete_tags tags c) = spec_delete_tags tags (contents c).
Proof.
  intros Hok. assert (cache_ok (cache_delete_tags tags c) /\ forall k,
    contents (cache_delete_tags tags c) !! k = match contents c !! k with
      | Some e => if decide (e_tags e ## list_to_set tags) then Some e else None
      | None => None end) as [H1 H2].
  { unfold cache_delete_tags. revert c Hok. induction tags as [|tag tags IH]; intros c Hok; cbn [fold_left].
    - split; [done|]. intros k. destruct (contents c !! k) as [e|]; [|done].
      rewrite decide_True; [done|]. cbn. set_solver.
    - destruct (delete_tag_refines tag c Hok) as [Hok' Ht]. destruct (IH _ Hok') as [Hok2 H2].
      split; [done|]. intros k. rewrite H2, Ht. destruct (contents c !! k) as [e|]; [|done].
      destruct (decide (tag ∈ e_tags e)) as [Hin|Hin].
      + rewrite decide_False; [done|]. cbn. set_solver.
      + destruct (decide (e_tags e ## list_to_set tags)) as [Hd|Hd].
        * rewrite decide_True; [done|]. cbn. set_solver.
        * rewrite decide_False; [done|]. cbn. set_solver. }
  split; [done|]. apply map_eq. intros k. rewrite H2. unfold spec_delete_tags.
  symmetry. destruct (contents c !! k) as [e|] eqn:E; [case_decide|].
  - by apply map_lookup_filter_Some_2.
  - apply map_lookup_filter_None_2. right. intros e' He. cbn. congruence.
  - apply map_lookup_filter_None_2. by left.
Qed.

(** ** The store as a whole *)

Inductive cache_op : Type :=
| CGet (key : string)
| CSet (key : string) (value : bytes) (ttl : Q) (tags : list string)
| CGetMany (keys : list string)
| CSetMany (items : list (string * bytes)) (ttl : Q) (tags : list string)
| CDelete (key : string)
| CDeleteMany (keys : list string)
| CDeleteTags (tags : list string)
| CClear.

(** What an operation returns. *)
Inductive cache_result : Type :=
| CNone
| CValue (v : option bytes)
| CFound (m : gmap string bytes).

Definition cache_do (op : cache_op) (now : Q) (c : MemoryCache) : cache_result * MemoryCache :=
  match op with
  | CGet key => let '(v, c) := cache_get key now c in (CValue v, c)
  | CSet key value ttl tags => (CNone, cache_set key value ttl tags now c)
  | CGetMany keys => let '(m, c) := cache_get_many keys now ∅ c in (CFound m, c)
  | CSetMany items ttl tags => (CNone, cache_set_many items ttl tags now c)
  | CDelete key => (CNone, drop_key key c)
  | CDeleteMany keys => (CNone, cache_delete_many keys c)
  | CDeleteTags tags => (CNone, cache_delete_tags tags c)
  | CClear => (CNone, cache_clear c)
  end.

Definition spec_do (op : cache_op) (now : Q) (m : entries) : cache_result * entries :=
  match op with
  | CGet key => let '(v, m) := spec_get key now m in (CValue v, m)
  | CSet key value ttl tags => (CNone, spec_put key value (now + ttl) tags m)
  | CGetMany keys => let '(f, m) := spec_get_many keys now ∅ m in (CFound f, m)
  | CSetMany items ttl tags =>
      (CNone, fold_left (fun m item => spec_put item.1 item.2 (now + ttl) tags m) items m)
  | CDelete key => (CNone, delete key m)
  | CDeleteMany keys => (CNone, fold_left (fun m key => delete key m) keys m)
  | CDeleteTags tags => (CNone, spec_delete_tags tags m)
  | CClear => (CNone, ∅)
  end.

Lemma new_cache_ok : cache_ok new_memory_cache.
Proof. split; [|done|done]. intros key tag. cbn. set_solver. Qed.

Lemma cache_do_refines op now c :
  cache_ok c -> cache_ok (cache_do op now c).2 /\
  (cache_do op now c).1 = (spec_do op now (contents c)).1 /\
  contents (cache_do op now c).2 = (spec_do op now (contents c)).2.
Proof.
  intros Hok. destruct op; cbn.
  - destruct (cache_get_refines key now c Hok) as (H1 & H2 & H3).
    destruct (cache_get key now c), (spec_get key now (contents c)). cbn in *. by subst.
  - by destruct (put_entry_refines key value (now + ttl) tags c Hok).
  - destruct (cache_get_many_refines keys now ∅ c Hok) as (H1 & H2 & H3).
    destruct (cache_get_many keys now ∅ c), (spec_get_many keys now ∅ (contents c)).
    cbn in *. by subst.
  - by destruct (cache_set_many_refines items ttl tags now c Hok).
  - by destruct (drop_key_refines key c Hok).
  - by destruct (cache_delete_many_refines keys c Hok).
  - by destruct (cache_delete_tags_refines tags c Hok).
  - split; [apply new_cache_ok|done].
Qed.

Fixpoint cache_run {S} (step : cache_op -> Q -> S -> cache_result * S) (ops : list (cache_op * Q))
    (s : S) : list cache_result * S :=
  match ops with
  | [] => ([], s)
  | (op, now) :: ops =>
      let '(r, s) := step op now s in
      let '(rs, s) := cache_run step ops s in (r :: rs, s)
  end.

(** C20 The store behaves as one dictionary from a key to its value, its expiry and its tags:
    any operations, at any times, return what that dictionary returns; a
    deletion by tags removes exactly the entries whose last write carried one of
    the tags, and the two dictionaries of tags stay in step (no tag names a key
    that is gone, no empty set is kept). *)
Theorem memory_cache_refines (ops : list (cache_op * Q)) :
  (cache_run cache_do ops new_memory_cache).1 = (cache_run spec_do ops ∅).1 /\
  contents (cache_run cache_do ops new_memory_cache).2 = (cache_run spec_do ops ∅).2 /\
  cache_ok (cache_run cache_do ops new_memory_cache).2.
Proof.
  change (∅ : entries) with (contents new_memory_cache). generalize new_cache_ok.
  generalize new_memory_cache. induction ops as [|[op now] ops IH]; intros c Hok; [done|]. cbn.
  destruct (cache_do_refines op now c Hok) as (H1 & H2 & H3).
  destruct (cache_do op now c) as [r c'], (spec_do op now (contents c)) as [r' m'].
  cbn in *. subst. destruct (IH c' H1) as (E1 & E2 & E3).
  destruct (cache_run cache_do ops c'), (cache_run spec_do ops (contents c')). cbn in *. by subst.
Qed.

(** ** What a store promises *)

(** The entry of a key that a reader sees at a time. *)
Definition seen (t : Q) (o : option entry) : option entry :=
  match o with
  | Some e => if entry_live t e then Some e else None
  | None => None
  end.

Definition seen_value (t : Q) (o : option entry) : option bytes := e_value <$> seen t o.

(** [cb_view b t key] is what a read at [t] finds if nobody writes; the laws are
    for calls that return, and a call that raises leaves the other keys alone. *)
Class CacheBackend (B : Type) := {
  cb_entry : B -> string -> option entry;
  cb_get : string -> Q -> B -> outcome exn (option bytes) * B;
  cb_get_many : list string -> Q -> B -> outcome exn (gmap string bytes) * B;
  cb_set : string -> bytes -> Q -> list string -> Q -> B -> outcome exn unit * B;
  cb_set_many : list (string * bytes) -> Q -> list string -> Q -> B -> outcome exn unit * B;
  cb_delete_many : list string -> B -> outcome exn unit * B;
  cb_delete_tags : list string -> B -> outcome exn unit * B;
  cb_clear : B -> outcome exn unit * B;
  cb_get_law key now b :
    let '(r, b') := cb_get key now b in
    (forall t k, (now <= t)%Q -> seen t (cb_entry b' k) = seen t (cb_entry b k)) /\
    (forall v, r = Return v -> v = seen_value now (cb_entry b key));
  cb_get_many_law keys now b :
    let '(r, b') := cb_get_many keys now b in
    (forall t k, (now <= t)%Q -> seen t (cb_entry b' k) = seen t (cb_entry b k)) /\
    (forall m, r = Return m -> forall k, k ∈ keys -> m !! k = seen_value now (cb_entry b k));
  cb_set_law key value ttl tags now b :
    let '(r, b') := cb_set key value ttl tags now b in
    (forall k, k <> key -> cb_entry b' k = cb_entry b k) /\
    (r = Return tt -> cb_entry b' key = Some (mkEntry value (now + ttl) (list_to_set tags)));
  cb_set_many_law items ttl tags now b :
    let '(r, b') := cb_set_many items ttl tags now b in
    (forall k, k ∉ items.*1 -> cb_entry b' k = cb_entry b k) /\
    (r = Return tt -> NoDup items.*1 -> forall k v, (k, v) ∈ items ->
       cb_entry b' k = Some (mkEntry v (now + ttl) (list_to_set tags)));
  cb_delete_many_law keys b :
    let '(r, b') := cb_delete_many keys b in
    (forall k, k ∉ keys -> cb_entry b' k = cb_entry b k) /\
    (r = Return tt -> forall k, k ∈ keys -> cb_entry b' k = None);
  cb_delete_tags_law tags b :
    let '(r, b') := cb_delete_tags tags b in
    r = Return tt -> forall k, cb_entry b' k =
      match cb_entry b k with
      | Some e => if decide (e_tags e ## list_to_set tags) then Some e else None
      | None => None
      end;
  cb_clear_law b :
    let '(r, b') := cb_clear b in r = Return tt -> forall k, cb_entry b' k = None;
}.

Lemma spec_get_seen key now m :
  (spec_get key now m).1 = seen_value now (m !! key) /\
  forall t k, (now <= t)%Q -> seen t ((spec_get key now m).2 !! k) = seen t (m !! k).
Proof.
  unfold spec_get, seen_value, seen. destruct (m !! key) as [e|] eqn:E; [|done].
  destruct (entry_live now e) eqn:El; [done|]. split; [done|]. intros t k Ht. cbn.
  destruct (decide (key = k)) as [<-|Hne]; [|by rewrite lookup_delete_ne].
  rewrite lookup_delete_eq, E. unfold entry_live in *.
  destruct (Qlt_bool_spec now (e_expiry e)); [done|].
  destruct (Qlt_bool_spec t (e_expiry e)); [lra|done].
Qed.

Lemma spec_get_many_seen keys now found m :
  (forall t k, (now <= t)%Q -> seen t ((spec_get_many keys now found m).2 !! k) = seen t (m !! k)) /\
  forall k, (spec_get_many keys now found m).1 !! k =
    if decide (k ∈ keys) then
      match seen_value now (m !! k) with Some v => Some v | None => found !! k end
    else found !! k.
Proof.
  revert found m. induction keys as [|key keys IH]; intros found m; cbn [spec_get_many].
  - split; [done|]. intros k. by rewrite decide_False by apply not_elem_of_nil.
  - destruct (spec_get_seen key now m) as [H1 H2].
    destruct (spec_get key now m) as [[v|] m']; cbn [fst snd] in *.
    + destruct (IH (<[key := v]> found) m') as [H3 H4]. split; [intros t k Ht; by rewrite H3, H2|].
      intros k. rewrite H4. unfold seen_value in *. rewrite (H2 now k) by lra.
      destruct (decide (key = k)) as [<-|Hne].
      * rewrite (decide_True (P := key ∈ key :: keys)) by (by left). rewrite <- H1.
        rewrite lookup_insert_eq. by case_decide.
      * rewrite lookup_insert_ne by done. destruct (decide (k ∈ keys)) as [Hin|Hin].
        -- by rewrite decide_True by (by right).
        -- rewrite decide_False; [done|]. rewrite elem_of_cons. naive_solver.
    + destruct (IH found m') as [H3 H4]. split; [intros t k Ht; by rewrite H3, H2|].
      intros k. rewrite H4. unfold seen_value in *. rewrite (H2 now k) by lra.
      destruct (decide (key = k)) as [<-|Hne].
      * rewrite (decide_True (P := key ∈ key :: keys)) by (by left). rewrite <- H1. by case_decide.
      * destruct (decide (k ∈ keys)) as [Hin|Hin].
        -- by rewrite decide_True by (by right).
        -- rewrite decide_False; [done|]. rewrite elem_of_cons. naive_solver.
Qed.

Lemma spec_put_many_lookup (items : list (string * bytes)) expiry tags (m : entries) :
  let m' := fold_left (fun m item => spec_put item.1 item.2 expiry tags m) items m in
  (forall k, k ∉ items.*1 -> m' !! k = m !! k) /\
  (NoDup items.*1 -> forall k v, (k, v) ∈ items -> m' !! k = Some (mkEntry v expiry (list_to_set tags))).
Proof.
  revert m. induction items as [|[key value] items IH]; intros m; cbn [fold_left].
  - split; [done|]. by intros _ k v ?%elem_of_nil.
  - destruct (IH (spec_put key value expiry tags m)) as [H1 H2]. cbn [fst snd] in *. split.
    + intros k Hk. cbn in Hk. apply not_elem_of_cons in Hk as [Hne Hk]. rewrite H1 by done.
      unfold spec_put. by rewrite lookup_insert_ne.
    + cbn. intros [Hnin Hnd]%NoDup_cons k v [[= -> ->]|Hin]%elem_of_cons; [|by apply H2].
      rewrite H1 by done. unfold spec_put. by rewrite lookup_insert_eq.
Qed.

(** The memory store in a state it can reach. *)
Definition cache_store : Type := { c : MemoryCache | cache_ok c }.

Definition store_do (op : cache_op) (now : Q) (s : cache_store) : cache_result * cache_store :=
  let r := cache_do op now (proj1_sig s) in
  (r.1, exist cache_ok r.2 (proj1 (cache_do_refines op now (proj1_sig s) (proj2_sig s)))).

Definition new_store : cache_store := exist cache_ok new_memory_cache new_cache_ok.

Definition store_entry (s : cache_store) (key : string) : option entry :=
  contents (proj1_sig s) !! key.

Lemma store_do_spec op now s :
  (store_do op now s).1 = (spec_do op now (contents (proj1_sig s))).1 /\
  forall k, store_entry (store_do op now s).2 k = (spec_do op now (contents (proj1_sig s))).2 !! k.
Proof.
  destruct s as [c Hok]. destruct (cache_do_refines op now c Hok) as (_ & H1 & H2).
  unfold store_do, store_entry. cbn. by rewrite H1, H2.
Qed.

Definition value_of (r : cache_result) : option bytes := match r with CValue v => v | _ => None end.
Definition found_of (r : cache_result) : gmap string bytes := match r with CFound m => m | _ => ∅ end.

#[local] Obligation Tactic := idtac.

(** [MemoryCacheAdapter] never raises. *)
#[export] Program Instance memory_cache : CacheBackend cache_store := {
  cb_entry := store_entry;
  cb_get key now s := let '(r, s) := store_do (CGet key) now s in (Return (value_of r), s);
  cb_get_many keys now s :=
    let '(r, s) := store_do (CGetMany keys) now s in (Return (found_of r), s);
  cb_set key value ttl tags now s := (Return tt, (store_do (CSet key value ttl tags) now s).2);
  cb_set_many items ttl tags now s :=
    (Return tt, (store_do (CSetMany items ttl tags) now s).2);
  cb_delete_many keys s := (Return tt, (store_do (CDeleteMany keys) 0 s).2);
  cb_delete_tags tags s := (Return tt, (store_do (CDeleteTags tags) 0 s).2);
  cb_clear s := (Return tt, (store_do CClear 0 s).2);
}.
Next Obligation.
  intros key now s. destruct (store_do_spec (CGet key) now s) as [H1 H2].
  destruct (store_do (CGet key) now s) as [r s'] eqn:E. cbn [fst snd spec_do] in *.
  destruct (spec_get_seen key now (contents (proj1_sig s))) as [H3 H4].
  destruct (spec_get key now (contents (proj1_sig s))) as [v m]. cbn in *. subst r. split.
  - intros t k Ht. by rewrite H2, H4.
  - intros v' [= <-]. exact H3.
Qed.
Next Obligation.
  intros keys now s. destruct (store_do_spec (CGetMany keys) now s) as [H1 H2].
  destruct (store_do (CGetMany keys) now s) as [r s'] eqn:E. cbn [fst snd spec_do] in *.
  destruct (spec_get_many_seen keys now ∅ (contents (proj1_sig s))) as [H3 H4].
  destruct (spec_get_many keys now ∅ (contents (proj1_sig s))) as [v m]. cbn in *. subst r. split.
  - intros t k Ht. by rewrite H2, H3.
  - intros v' [= <-] k Hk. cbn. rewrite H4, decide_True by done. unfold store_entry.
    by destruct (seen_value now _); rewrite ?lookup_empty.
Qed.
Next Obligation.
  intros key value ttl tags now s. destruct (store_do_spec (CSet key value ttl tags) now s) as [_ H].
  cbn [spec_do snd] in H. unfold spec_put in H. split.
  - intros k Hk. by rewrite H, lookup_insert_ne.
  - intros _. by rewrite H, lookup_insert_eq.
Qed.
Next Obligation.
  intros items ttl tags now s. destruct (store_do_spec (CSetMany items ttl tags) now s) as [_ H].
  cbn [spec_do snd] in H.
  destruct (spec_put_many_lookup items (now + ttl) tags (contents (proj1_sig s))) as [H1 H2]. split.
  - intros k Hk. by rewrite H, H1.
  - intros _ Hnd k v Hin. rewrite H. by apply H2.
Qed.
Next Obligation.
  intros keys s. destruct (store_do_spec (CDeleteMany keys) 0 s) as [_ H]. cbn [spec_do snd] in H.
  split; intros *; [intros Hk|intros _ k Hk]; rewrite H, delete_keys_lookup.
  - by rewrite decide_False.
  - by rewrite decide_True.
Qed.
Next Obligation.
  intros tags s _ k. destruct (store_do_spec (CDeleteTags tags) 0 s) as [_ ->]. cbn [spec_do snd].
  unfold spec_delete_tags, store_entry. destruct (contents (proj1_sig s) !! k) as [e|] eqn:E; [case_decide|].
  - by apply map_lookup_filter_Some_2.
  - apply map_lookup_filter_None_2. right. intros e' He. cbn. congruence.
  - apply map_lookup_filter_None_2. by left.
Qed.
Next Obligation.
  intros s _ k. destruct (store_do_spec CClear 0 s) as [_ ->]. cbn. apply lookup_empty.
Qed.
