(* ===== verification/TTLCache.v ===== *)
(** * The TTL cache

    [cache/ttl.py]: [TTLCache], keys with a time to live and an optional cap
    with least-recently-used eviction over a [CacheBackend], and the code of
    [cache/cached.py] that decides what a decorated function stores and serves.
    An operation is a function of the object and its store
    ([py (TTLCache * B)]); what happens between its calls to the store when other callers
    run is the matter of [Stampede].

    The serializer is the application's object.  Not modelled: metrics; the
    resolution of a registered backend. *)

From S2P Require Import Prelude Errors CacheMemory.
From Stdlib Require Ascii Strings.Byte.

Local Open Scope Z_scope.

(** ** The object *)

(** [TTLCache]; [tc_keys] is the ordered dictionary of tracked keys, the most
    recently used last. *)
Record TTLCache : Type := mkTTLCache {
  tc_maxsize : Z;
  tc_ttl : Q;
  tc_hits : Z;
  tc_misses : Z;
  tc_evictions : Z;
  tc_keys : list string;
}.

(** [TTLCacheConfig] *)
Definition cache_config_valid (maxsize : Z) (ttl : Q) : bool := (0 <=? maxsize) && (0 <? ttl)%py.

Definition new_ttl_cache (maxsize : Z) (ttl : Q) : TTLCache := mkTTLCache maxsize ttl 0 0 0 [].

Definition set_keys (l : list string) (c : TTLCache) : TTLCache :=
  mkTTLCache (tc_maxsize c) (tc_ttl c) (tc_hits c) (tc_misses c) (tc_evictions c) l.
Definition count_hit (c : TTLCache) : TTLCache :=
  mkTTLCache (tc_maxsize c) (tc_ttl c) (tc_hits c + 1) (tc_misses c) (tc_evictions c) (tc_keys c).
Definition count_miss (c : TTLCache) : TTLCache :=
  mkTTLCache (tc_maxsize c) (tc_ttl c) (tc_hits c) (tc_misses c + 1) (tc_evictions c) (tc_keys c).
Definition count_eviction (c : TTLCache) : TTLCache :=
  mkTTLCache (tc_maxsize c) (tc_ttl c) (tc_hits c) (tc_misses c) (tc_evictions c + 1) (tc_keys c).

(** [_keys.pop(key, None)] *)
Definition forget (key : string) (l : list string) : list string := filter (fun k => k <> key) l.

(** [_promote] *)
Definition promote (key : string) (c : TTLCache) : TTLCache :=
  set_keys (forget key (tc_keys c) ++ [key]) c.

(** [_CACHE_PREFIX], [_STALE_SUFFIX] and [_XFETCH_SUFFIX] *)
Definition value_key (key : string) : string := "cache:" +:+ key.
Definition stale_suffix : string := String (Ascii.ascii_of_nat 31) "st".
Definition xfetch_suffix : string := String (Ascii.ascii_of_nat 31) "xf".
Definition stale_key (key : string) : string := value_key key +:+ stale_suffix.
Definition xfetch_key (key : string) : string := value_key key +:+ xfetch_suffix.

Record CacheInfo : Type := mkCacheInfo {
  ci_hits : Z; ci_misses : Z; ci_maxsize : Z; ci_currsize : Z; ci_evictions : Z }.

Definition cache_info (c : TTLCache) : CacheInfo :=
  mkCacheInfo (tc_hits c) (tc_misses c) (tc_maxsize c) (Z.of_nat (length (tc_keys c)))
    (tc_evictions c).

(** ** Serialization *)

Record CacheSerializer (T : Type) : Type := mkSerializer {
  dumps : T -> outcome exn bytes;
  loads : bytes -> outcome exn T;
}.
Arguments dumps {T}.
Arguments loads {T}.

Section Cache.
Context {T B : Type} {CB : CacheBackend B}.
(** The serializer, and without one the values that are bytes. *)
Context (serializer : option (CacheSerializer T)) (as_bytes : T -> option bytes) (of_bytes : bytes -> T).

Definition serialize (v : T) : outcome exn bytes :=
  match serializer with
  | Some s => dumps s v
  | None => match as_bytes v with Some raw => Return raw | None => Raise (mk_exn TypeError NoInfo) end
  end.

Definition deserialize (raw : bytes) : outcome exn T :=
  match serializer with Some s => loads s raw | None => Return (of_bytes raw) end.

Abbreviation cache_py := (py (TTLCache * B) exn).

(** A call to the store, and a change of the object. *)
Definition call_store {A} (f : B -> outcome exn A * B) : cache_py A :=
  fun s => let '(r, b) := f s.2 in (r, (s.1, b)).
Definition update (f : TTLCache -> TTLCache) : cache_py unit := py_modify (fun s => (f s.1, s.2)).
Definition lift {A} (r : outcome exn A) : cache_py A := fun s => (r, s).
Definition read_cache {A} (f : TTLCache -> A) : cache_py A := fun s => (Return (f s.1), s).

(** ** Reading *)

(** [get]; [None] is the default. *)
Definition ttl_get (key : string) (now : Q) : cache_py (option T) :=
  raw ← call_store (cb_get (value_key key) now);
  match raw with
  | None => update count_miss;; mret None
  | Some raw =>
      update (fun c => let c := count_hit c in if 0 <? tc_maxsize c then promote key c else c);;
      v ← lift (deserialize raw); mret (Some v)
  end.

Definition read_at (full : string) (now : Q) : cache_py (option T) :=
  raw ← call_store (cb_get full now);
  match raw with
  | None => mret None
  | Some raw => v ← lift (deserialize raw); mret (Some v)
  end.

(** [_peek] and [_read_stale] *)
Definition ttl_peek (key : string) (now : Q) : cache_py (option T) := read_at (value_key key) now.
Definition read_stale (key : string) (now : Q) : cache_py (option T) := read_at (stale_key key) now.

(** The loop of [get_many] over the keys. *)
Fixpoint collect (keys : list string) (found : gmap string bytes) (result : gmap string T) :
    cache_py (gmap string T) :=
  match keys with
  | [] => mret result
  | key :: keys =>
      match found !! value_key key with
      | None => update count_miss;; collect keys found result
      | Some raw =>
          update (fun c => let c := count_hit c in if 0 <? tc_maxsize c then promote key c else c);;
          v ← lift (deserialize raw); collect keys found (<[key := v]> result)
      end
  end.

Definition ttl_get_many (keys : list string) (now : Q) : cache_py (gmap string T) :=
  match keys with
  | [] => mret ∅
  | _ => found ← call_store (cb_get_many (value_key <$> keys) now); collect keys found ∅
  end.

(** ** Writing *)

(** [_evict] *)
Definition evict : cache_py unit := fun s =>
  match tc_keys s.1 with
  | [] => (Return tt, s)
  | lru :: rest =>
      (update (set_keys rest);;
       call_store (cb_delete_many [value_key lru; stale_key lru; xfetch_key lru]);;
       update count_eviction) s
  end.

(** [while len(self._keys) >= self._maxsize: await self._evict()] *)
Fixpoint evict_while (fuel : nat) : cache_py unit := fun s =>
  match fuel with
  | O => (Return tt, s)
  | S fuel =>
      if tc_maxsize s.1 <=? Z.of_nat (length (tc_keys s.1)) then (evict;; evict_while fuel) s
      else (Return tt, s)
  end.

(** The room made for a key that is not tracked. *)
Definition make_room (key : string) : cache_py unit := fun s =>
  if (0 <? tc_maxsize s.1) && negb (bool_decide (key ∈ tc_keys s.1))
  then evict_while (length (tc_keys s.1)) s else (Return tt, s).

Definition positive (o : option Q) : bool :=
  match o with Some t => negb (t <=? 0)%py | None => true end.

(** [set] *)
Definition ttl_set (key : string) (value : T) (ttl : option Q) (tags : list string)
    (stale_ttl : option Q) (now1 now2 : Q) : cache_py unit :=
  if negb (positive ttl) then py_raise (mk_exn ValueError NoInfo)
  else if negb (positive stale_ttl) then py_raise (mk_exn ValueError NoInfo)
  else
    entry_ttl ← read_cache (fun c => default (tc_ttl c) ttl);
    raw ← lift (serialize value);
    make_room key;;
    call_store (cb_set (value_key key) raw entry_ttl tags now1);;
    match stale_ttl with
    | Some extra => call_store (cb_set (stale_key key) raw (entry_ttl + extra) tags now2)
    | None => mret tt
    end;;
    update (fun c => if 0 <? tc_maxsize c then promote key c else c).

Fixpoint serialize_all (items : list (string * T)) : outcome exn (list (string * bytes)) :=
  match items with
  | [] => Return []
  | (key, v) :: items =>
      match serialize v with
      | Raise e => Raise e
      | Return raw =>
          match serialize_all items with
          | Raise e => Raise e
          | Return l => Return ((value_key key, raw) :: l)
          end
      end
  end.

Fixpoint track (keys : list string) : cache_py unit :=
  match keys with
  | [] => mret tt
  | key :: keys => make_room key;; update (promote key);; track keys
  end.

(** [set_many] *)
Definition ttl_set_many (items : list (string * T)) (ttl : option Q) (tags : list string) (now : Q) :
    cache_py unit :=
  if negb (positive ttl) then py_raise (mk_exn ValueError NoInfo)
  else match items with
  | [] => mret tt
  | _ =>
      entry_ttl ← read_cache (fun c => default (tc_ttl c) ttl);
      raws ← lift (serialize_all items);
      maxsize ← read_cache tc_maxsize;
      (if 0 <? maxsize then track items.*1 else mret tt);;
      call_store (cb_set_many raws entry_ttl tags now)
  end.

Definition ttl_delete (key : string) : cache_py unit :=
  call_store (cb_delete_many [value_key key; stale_key key]);;
  update (fun c => set_keys (forget key (tc_keys c)) c).

Definition ttl_delete_many (keys : list string) : cache_py unit :=
  match keys with
  | [] => mret tt
  | _ =>
      call_store (cb_delete_many ((value_key <$> keys) ++ (stale_key <$> keys)));;
      update (fun c => set_keys (fold_left (fun l k => forget k l) keys (tc_keys c)) c)
  end.

Definition ttl_delete_tags (tags : list string) : cache_py unit :=
  match tags with
  | [] => mret tt
  | _ => call_store (cb_delete_tags tags);; update (set_keys [])
  end.

Definition ttl_clear : cache_py unit := call_store cb_clear;; update (set_keys []).

(** ** Computing on a miss *)

(** [compute] of [get_or_set], for a factory that ended with [result]. *)
Definition compute (key : string) (result : outcome exn T) (ttl : option Q) (tags : list string)
    (stale_ttl : option Q) (now1 now2 : Q) : cache_py T :=
  v ← lift result; ttl_set key v ttl tags stale_ttl now1 now2;; mret v.

(** [_serve_stale]: the reserve, or the error. *)
Definition serve_stale (key : string) (now : Q) (e : exn) : cache_py T :=
  stale ← read_stale key now;
  match stale with Some v => mret v | None => py_raise e end.

(** [get_or_set] for a caller that nobody interrupts: [n1] to [n5] are the
    readings of the first look, the second look, the store of the value and of
    its reserve, and the look at the reserve. *)
Definition get_or_set (key : string) (result : outcome exn T) (ttl : option Q) (tags : list string)
    (stale_ttl : option Q) (n1 n2 n3 n4 n5 : Q) : cache_py T :=
  r ← ttl_get key n1;
  match r with
  | Some v => mret v
  | None =>
      let miss :=
        r ← ttl_peek key n2;
        match r with
        | Some v => mret v
        | None => compute key result ttl tags stale_ttl n3 n4
        end in
      match stale_ttl with
      | None => miss
      | Some _ => py_try miss is_exception (serve_stale key n5)
      end
  end.

(** [_compute_and_cache]: [skip] leaves a result out of the cache.  The
    sidecar of an early refresh is written with the plain TTL and no tags. *)
Definition compute_and_cache (key : string) (result : outcome exn T) (skip : T -> bool)
    (early : option Q) (tags : list string) (stale_ttl : option Q)
    (meta : Q -> Q -> bytes) (written delta now1 now2 now3 : Q) : cache_py T :=
  v ← lift result;
  (if skip v then mret tt
   else
     ttl_set key v None tags stale_ttl now1 now2;;
     match early with
     | Some _ =>
         ttl ← read_cache tc_ttl;
         call_store (cb_set (xfetch_key key) (meta written delta) ttl [] now3)
     | None => mret tt
     end);;
  mret v.

End Cache.

(** [_due_for_early_refresh]; [threshold] is [delta * -log(rand)]. *)
Definition due_for_early_refresh (meta : option (Q * Q)) (ttl early : Q) (threshold : Q -> Q)
    (now : Q) : bool :=
  match meta with
  | None => false
  | Some (written, delta) =>
      let remaining := (written + ttl - now)%Q in
      if (remaining <=? 0)%py || (remaining >? early * ttl)%py then false
      else (threshold delta >=? remaining)%py
  end.

(** ** Calls that return *)

Lemma bind_returns {S A C} (m : py S exn A) (k : A -> py S exn C) s c s' :
  (m ≫= k) s = (Return c, s') ->
  exists a s1, m s = (Return a, s1) /\ k a s1 = (Return c, s').
Proof.
  change ((m ≫= k) s) with (py_bind m k s). unfold py_bind.
  destruct (m s) as [[a|e] s1]; [|done]. intros H. by exists a, s1.
Qed.

Lemma seq_returns {S A C} (m : py S exn A) (k : py S exn C) s c s' :
  (m;; k) s = (Return c, s') -> exists a s1, m s = (Return a, s1) /\ k s1 = (Return c, s').
Proof. apply bind_returns. Qed.

Ltac returns H :=
  match type of H with
  | (_ ≫= _) _ = (Return _, _) =>
      let a := fresh "a" in let s1 := fresh "s" in let H1 := fresh "H" in
      apply bind_returns in H as (a & s1 & H1 & H)
  end.

Lemma string_app_ne (s t : string) : t <> EmptyString -> s +:+ t <> s.
Proof. intros Ht. induction s as [|a s IH]; cbn; [done|]. by intros [= ?]. Qed.

Lemma forget_absent key l : key ∉ l -> forget key l = l.
Proof.
  unfold forget. induction l as [|k l IH]; [done|]. intros [Hne Hin]%not_elem_of_cons.
  rewrite filter_cons_True by done. by rewrite IH.
Qed.

Lemma stale_value_ne key : stale_key key <> value_key key.
Proof. by apply string_app_ne. Qed.

Section Returns.
Context {T B : Type} {CB : CacheBackend B}.
Context (serializer : option (CacheSerializer T)) (as_bytes : T -> option bytes) (of_bytes : bytes -> T).
Abbreviation cache_py := (py (TTLCache * B) exn).

Lemma call_store_returns {A} (f : B -> outcome exn A * B) c b a s' :
  call_store f (c, b) = (Return a, s') -> exists b', f b = (Return a, b') /\ s' = (c, b').
Proof. unfold call_store. cbn. destruct (f b) as [r b']. intros [= -> <-]. by exists b'. Qed.

(** ** Eviction *)

(** What one eviction does. *)
Definition evicted (lru : string) (b b' : B) : Prop :=
  cb_delete_many [value_key lru; stale_key lru; xfetch_key lru] b = (Return tt, b').

Lemma evict_returns c b lru rest s' :
  tc_keys c = lru :: rest -> evict (c, b) = (Return tt, s') ->
  exists b', evicted lru b b' /\ s' = (count_eviction (set_keys rest c), b').
Proof.
  intros Ek. unfold evict. cbn [fst]. rewrite Ek. intros H.
  apply seq_returns in H as ([] & s1 & [= <-] & H).
  apply seq_returns in H as ([] & s2 & H1 & [= <-]).
  apply call_store_returns in H1 as (b' & H1 & ->). by exists b'.
Qed.

(** The evicted keys, the least recently used first. *)
Inductive evictions : list string -> B -> B -> Prop :=
| evictions_none b : evictions [] b b
| evictions_cons k ks b b1 b2 : evicted k b b1 -> evictions ks b1 b2 -> evictions (k :: ks) b b2.

Definition surplus (maxsize : Z) (l : list string) : nat := Z.to_nat (Z.of_nat (length l) - maxsize + 1).

Lemma evict_while_returns fuel c b s' :
  0 < tc_maxsize c -> (length (tc_keys c) <= fuel)%nat ->
  evict_while fuel (c, b) = (Return tt, s') ->
  let n := surplus (tc_maxsize c) (tc_keys c) in
  exists b', evictions (take n (tc_keys c)) b b' /\
    s' = (mkTTLCache (tc_maxsize c) (tc_ttl c) (tc_hits c) (tc_misses c)
            (tc_evictions c + Z.of_nat n) (drop n (tc_keys c)), b').
Proof.
  intros Hm. revert c b Hm. induction fuel as [|fuel IH]; intros c b Hm Hf H n.
  - cbn in H. injection H as <-. destruct (tc_keys c) as [|k ks] eqn:Ek; [|cbn in Hf; lia].
    assert (n = 0%nat) as -> by (unfold n, surplus; cbn; lia).
    exists b. split; [constructor|]. destruct c; cbn in *; subst. do 2 f_equal. lia.
  - cbn in H. destruct (Z.leb_spec (tc_maxsize c) (Z.of_nat (length (tc_keys c)))) as [Hle|Hlt].
    + destruct (tc_keys c) as [|k ks] eqn:Ek; [cbn in Hle; lia|].
      apply seq_returns in H as ([] & s1 & H1 & H).
      apply evict_returns with (lru := k) (rest := ks) in H1 as (b1 & He & ->); [|done].
      apply IH in H as (b2 & Hev & ->); [|done|cbn in *; lia]. cbn in Hev |- *. exists b2.
      assert (n = S (surplus (tc_maxsize c) ks)) as -> by (unfold n, surplus; cbn in *; lia).
      split; [by econstructor|]. cbn. do 2 f_equal. lia.
    + injection H as <-. assert (n = 0%nat) as -> by (unfold n, surplus; lia).
      exists b. split; [constructor|]. destruct c; cbn in *. do 2 f_equal. lia.
Qed.

(** The keys of the store that an eviction removes. *)
Definition evicted_keys (ks : list string) : list string :=
  flat_map (fun k => [value_key k; stale_key k; xfetch_key k]) ks.

Lemma evictions_entries ks b b' :
  evictions ks b b' ->
  forall full, cb_entry b' full = if decide (full ∈ evicted_keys ks) then None else cb_entry b full.
Proof.
  induction 1 as [b|k ks b b1 b2 He _ IH]; intros full.
  - rewrite decide_False; [done|]. apply not_elem_of_nil.
  - rewrite IH. unfold evicted in He.
    pose proof (cb_delete_many_law [value_key k; stale_key k; xfetch_key k] b) as Hl.
    rewrite He in Hl. destruct Hl as [H1 H2]. cbn [evicted_keys flat_map].
    destruct (decide (full ∈ evicted_keys ks)) as [Hin|Hin].
    + rewrite decide_True; [done|]. apply elem_of_app. by right.
    + destruct (decide (full ∈ [value_key k; stale_key k; xfetch_key k])) as [Hk|Hk].
      * rewrite decide_True by (apply elem_of_app; by left). by apply H2.
      * rewrite H1, decide_False; [done| |done]. rewrite elem_of_app. by intros [|].
Qed.

Definition room (key : string) (c : TTLCache) : nat :=
  if (0 <? tc_maxsize c) && negb (bool_decide (key ∈ tc_keys c))
  then surplus (tc_maxsize c) (tc_keys c) else 0%nat.

Lemma make_room_returns key c b s' :
  make_room key (c, b) = (Return tt, s') ->
  exists b', evictions (take (room key c) (tc_keys c)) b b' /\
    s' = (mkTTLCache (tc_maxsize c) (tc_ttl c) (tc_hits c) (tc_misses c)
            (tc_evictions c + Z.of_nat (room key c)) (drop (room key c) (tc_keys c)), b').
Proof.
  unfold make_room, room. cbn [fst]. destruct (Z.ltb_spec 0 (tc_maxsize c)); cbn.
  - destruct (negb _).
    + intros Hr. by eapply evict_while_returns in Hr.
    + intros [= <-]. exists b. split; [constructor|]. destruct c; cbn. do 2 f_equal. lia.
  - intros [= <-]. exists b. split; [constructor|]. destruct c; cbn. do 2 f_equal. lia.
Qed.

(** A [set] that returns: what it did, in order. *)
Lemma ttl_set_returns key v ttl tags stale_ttl n1 n2 c b s' :
  ttl_set serializer as_bytes key v ttl tags stale_ttl n1 n2 (c, b) = (Return tt, s') ->
  exists raw b1 b2 b3 keys,
    positive ttl = true /\ positive stale_ttl = true /\
    serialize serializer as_bytes v = Return raw /\
    evictions (take (room key c) (tc_keys c)) b b1 /\
    cb_set (value_key key) raw (default (tc_ttl c) ttl) tags n1 b1 = (Return tt, b2) /\
    match stale_ttl with
    | Some extra =>
        cb_set (stale_key key) raw (default (tc_ttl c) ttl + extra) tags n2 b2 = (Return tt, b3)
    | None => b3 = b2
    end /\
    keys = (if 0 <? tc_maxsize c then forget key (drop (room key c) (tc_keys c)) ++ [key]
            else tc_keys c) /\
    s' = (mkTTLCache (tc_maxsize c) (tc_ttl c) (tc_hits c) (tc_misses c)
            (tc_evictions c + Z.of_nat (room key c)) keys, b3).
Proof.
  unfold ttl_set. destruct (positive ttl); cbn [negb]; [|done].
  destruct (positive stale_ttl); cbn [negb]; [|done]. intros H.
  apply bind_returns in H as (ttl' & s1 & E1 & H). unfold read_cache in E1. injection E1 as <- <-.
  apply bind_returns in H as (raw & s1 & H1 & H). unfold lift in H1. injection H1 as Er <-.
  apply seq_returns in H as ([] & s1 & H1 & H).
  apply make_room_returns in H1 as (b1 & Hev & ->).
  apply seq_returns in H as ([] & s1 & H1 & H).
  apply call_store_returns in H1 as (b2 & H1 & ->).
  apply seq_returns in H as ([] & s1 & H2 & [= <-]).
  assert (exists b3, s1 = (mkTTLCache (tc_maxsize c) (tc_ttl c) (tc_hits c) (tc_misses c)
      (tc_evictions c + Z.of_nat (room key c)) (drop (room key c) (tc_keys c)), b3) /\
    match stale_ttl with
    | Some extra =>
        cb_set (stale_key key) raw (default (tc_ttl c) ttl + extra) tags n2 b2 = (Return tt, b3)
    | None => b3 = b2
    end) as (b3 & -> & Hst).
  { destruct stale_ttl as [extra|].
    - apply call_store_returns in H2 as (b3 & H2 & ->). by exists b3.
    - injection H2 as <-. by exists b2. }
  exists raw, b1, b2, b3. eexists. split_and!; try done. cbn.
  unfold promote, set_keys. cbn. unfold room.
  destruct (0 <? tc_maxsize c); cbn; [done|]. by rewrite drop_0.
Qed.

(** Round trip: after a [set] that returned, a [get] of the key that returns
    gives the value back before the TTL (its own, or the cache's) has passed, and the default from
    then on, whatever the store, the serializer (as long as it loads what it
    dumped), the tags, the reserve and the evictions the [set] made. *)
Lemma set_get_roundtrip key v ttl tags stale_ttl n1 n2 t c b c' b' o s'' :
  (forall raw, serialize serializer as_bytes v = Return raw ->
     deserialize serializer of_bytes raw = Return v) ->
  ttl_set serializer as_bytes key v ttl tags stale_ttl n1 n2 (c, b) = (Return tt, (c', b')) ->
  ttl_get serializer of_bytes key t (c', b') = (Return o, s'') ->
  o = if (t <? n1 + default (tc_ttl c) ttl)%py then Some v else None.
Proof.
  intros Hser Hset Hget.
  apply ttl_set_returns in Hset as (raw & b1 & b2 & b3 & keys & _ & _ & Er & _ & H1 & H2 & _ & [= -> ->]).
  assert (He : cb_entry b3 (value_key key) =
    Some (mkEntry raw (n1 + default (tc_ttl c) ttl) (list_to_set tags))).
  { pose proof (cb_set_law (value_key key) raw (default (tc_ttl c) ttl) tags n1 b1) as Hl.
    rewrite H1 in Hl. destruct Hl as [_ Hl]. destruct stale_ttl as [extra|]; [|subst; by apply Hl].
    pose proof (cb_set_law (stale_key key) raw (default (tc_ttl c) ttl + extra) tags n2 b2) as Hl2.
    rewrite H2 in Hl2. destruct Hl2 as [Hl2 _]. rewrite Hl2; [by apply Hl|].
    intros He. by apply (stale_value_ne key). }
  unfold ttl_get in Hget. apply bind_returns in Hget as (r & s1 & Hr & Hget).
  apply call_store_returns in Hr as (b4 & Hr & ->).
  pose proof (cb_get_law (value_key key) t b3) as Hl. rewrite Hr in Hl. destruct Hl as [_ Hl].
  specialize (Hl r eq_refl). rewrite He in Hl. unfold seen_value, seen, entry_live in Hl. cbn in Hl.
  destruct (t <? n1 + default (tc_ttl c) ttl)%py; cbn in Hl; subst r.
  - apply seq_returns in Hget as (? & s2 & _ & Hget).
    apply bind_returns in Hget as (v' & s3 & Hv & [= <- <-]). unfold lift in Hv.
    rewrite (Hser raw Er) in Hv. by injection Hv as <-.
  - apply seq_returns in Hget as (? & s2 & _ & [= <- _]). done.
Qed.

(** The cap: a [set] of a key that is not tracked, in a cache with a cap,
    evicts exactly the least recently used keys, as many as needed for the new key
    to fit, removes the value, the reserve and the refresh sidecar of each from the
    store, tracks the new key as the most recently used, and leaves every
    other entry of the store alone. *)
Lemma set_evicts_lru key v ttl tags stale_ttl n1 n2 c b c' b' :
  0 < tc_maxsize c -> key ∉ tc_keys c ->
  ttl_set serializer as_bytes key v ttl tags stale_ttl n1 n2 (c, b) = (Return tt, (c', b')) ->
  let n := Z.to_nat (Z.of_nat (length (tc_keys c)) - tc_maxsize c + 1) in
  tc_keys c' = drop n (tc_keys c) ++ [key] /\
  Z.of_nat (length (tc_keys c')) <= tc_maxsize c /\
  tc_evictions c' = tc_evictions c + Z.of_nat n /\
  forall full, full <> value_key key -> full <> stale_key key ->
    cb_entry b' full =
      if decide (full ∈ evicted_keys (take n (tc_keys c))) then None else cb_entry b full.
Proof.
  intros Hm Hk Hset n.
  apply ttl_set_returns in Hset as (raw & b1 & b2 & b3 & keys & _ & _ & _ & Hev & H1 & H2 & -> & [= -> ->]).
  assert (Hr : room key c = n).
  { unfold room. rewrite (proj2 (Z.ltb_lt 0 (tc_maxsize c))) by done.
    by rewrite bool_decide_eq_false_2. }
  rewrite Hr in *. cbn. rewrite (proj2 (Z.ltb_lt 0 (tc_maxsize c))) by done.
  assert (Hf : forget key (drop n (tc_keys c)) = drop n (tc_keys c)).
  { apply forget_absent. intros Hx. apply Hk. rewrite <- (take_drop n (tc_keys c)), elem_of_app.
    by right. }
  rewrite Hf. split_and!; [done|rewrite length_app, length_drop; cbn; lia|done|].
  intros full Hv Hs. rewrite <- (evictions_entries _ b b1 Hev).
  pose proof (cb_set_law (value_key key) raw (default (tc_ttl c) ttl) tags n1 b1) as Hl.
  rewrite H1 in Hl. destruct Hl as [Hl _]. rewrite <- (Hl full Hv).
  destruct stale_ttl as [extra|]; [|by subst].
  pose proof (cb_set_law (stale_key key) raw (default (tc_ttl c) ttl + extra) tags n2 b2) as Hl2.
  rewrite H2 in Hl2. destruct Hl2 as [Hl2 _]. by apply Hl2.
Qed.

End Returns.

(** ** A store that never raises *)

Class ReliableCache (B : Type) `{CacheBackend B} := {
  rc_get key now b : exists v, (cb_get key now b).1 = Return v;
  rc_set key value ttl tags now b : (cb_set key value ttl tags now b).1 = Return tt;
  rc_delete_many keys b : (cb_delete_many keys b).1 = Return tt;
}.

#[export] Instance memory_cache_reliable : ReliableCache cache_store.
Proof.
  split; [|done|done]. intros key now b. cbn. by eexists.
Qed.

Section Reliable.
Context {T B : Type} {CB : CacheBackend B} {RC : ReliableCache B}.
Context (serializer : option (CacheSerializer T)) (as_bytes : T -> option bytes) (of_bytes : bytes -> T).
Abbreviation cache_py := (py (TTLCache * B) exn).

Lemma bind_step {A C} (m : cache_py A) (k : A -> cache_py C) s a s1 :
  m s = (Return a, s1) -> (m ≫= k) s = k a s1.
Proof. intros E. change ((m ≫= k) s) with (py_bind m k s). unfold py_bind. by rewrite E. Qed.

(** A look at a key, at a time. *)
Definition look (full : string) (now : Q) (b : B) : option bytes := seen_value now (cb_entry b full).

Lemma get_step full now c b :
  exists b', call_store (cb_get full now) (c, b) = (Return (look full now b), (c, b')) /\
    forall t k, (now <= t)%Q -> seen t (cb_entry b' k) = seen t (cb_entry b k).
Proof.
  unfold call_store. cbn. pose proof (cb_get_law full now b) as Hl. destruct (rc_get full now b) as [v Hv].
  destruct (cb_get full now b) as [r b']. cbn in Hv. subst r. destruct Hl as [H1 H2].
  exists b'. by rewrite (H2 v eq_refl).
Qed.

Lemma evict_reliable c b : exists c1 b1, evict (B := B) (c, b) = (Return tt, (c1, b1)).
Proof.
  unfold evict. cbn [fst]. destruct (tc_keys c) as [|k ks]; [by eexists _, _|].
  erewrite bind_step by done.
  pose proof (rc_delete_many [value_key k; stale_key k; xfetch_key k] b) as Hr.
  destruct (cb_delete_many _ b) as [r b'] eqn:E. cbn in Hr. subst r.
  erewrite bind_step by (unfold call_store; cbn; by rewrite E). by eexists _, _.
Qed.

Lemma evict_while_reliable fuel c b :
  exists c1 b1, evict_while (B := B) fuel (c, b) = (Return tt, (c1, b1)).
Proof.
  revert c b. induction fuel as [|fuel IH]; intros c b; [by eexists _, _|]. cbn [evict_while fst].
  destruct (_ <=? _); [|by eexists _, _]. destruct (evict_reliable c b) as (c1 & b1 & E).
  erewrite bind_step by done. apply IH.
Qed.

Lemma ttl_set_reliable key v raw ttl tags stale_ttl n1 n2 c b :
  positive ttl = true -> positive stale_ttl = true -> serialize serializer as_bytes v = Return raw ->
  (ttl_set serializer as_bytes key v ttl tags stale_ttl n1 n2 (c, b)).1 = Return tt.
Proof.
  intros H1 H2 Hs. unfold ttl_set. rewrite H1, H2. cbn [negb].
  erewrite bind_step by done. erewrite bind_step by (unfold lift; by rewrite Hs).
  assert (exists s1, make_room (B := B) key (c, b) = (Return tt, s1)) as [[c1 b1] E1].
  { unfold make_room. cbn. destruct (_ && _); [|by eexists].
    destruct (evict_while_reliable (length (tc_keys c)) c b) as (c1 & b1 & E). by eexists. }
  erewrite bind_step by done.
  pose proof (rc_set (value_key key) raw (default (tc_ttl c) ttl) tags n1 b1) as Hr.
  destruct (cb_set _ _ _ _ _ b1) as [r b2] eqn:E2. cbn in Hr. subst r.
  erewrite bind_step by (unfold call_store; cbn; by rewrite E2).
  destruct stale_ttl as [extra|]; [|done].
  pose proof (rc_set (stale_key key) raw (default (tc_ttl c) ttl + extra) tags n2 b2) as Hr.
  destruct (cb_set _ _ _ _ _ b2) as [r b3] eqn:E3. cbn in Hr. subst r.
  erewrite bind_step by (unfold call_store; cbn; by rewrite E3). done.
Qed.

Lemma look_later full n1 n2 b : (n1 <= n2)%Q -> look full n1 b = None -> look full n2 b = None.
Proof.
  unfold look, seen_value, seen, entry_live. destruct (cb_entry b full) as [e|]; [|done].
  intros Hn. destruct (Qlt_bool_spec n1 (e_expiry e)); [done|].
  destruct (Qlt_bool_spec n2 (e_expiry e)); [lra|done].
Qed.

Lemma read_at_outcome full now c b :
  exists b', read_at serializer of_bytes full now (c, b) =
    (match look full now b with
     | Some raw => match deserialize serializer of_bytes raw with
                   | Return v => Return (Some v) | Raise e => Raise e end
     | None => Return None
     end, (c, b')) /\
    forall t k, (now <= t)%Q -> seen t (cb_entry b' k) = seen t (cb_entry b k).
Proof.
  destruct (get_step full now c b) as (b' & E & Hb). exists b'. split; [|done].
  unfold read_at. erewrite bind_step by done. destruct (look full now b) as [raw|]; [|done].
  change ((lift (deserialize serializer of_bytes raw) ≫= (fun v => mret (Some v))) (c, b')) with
    (py_bind (lift (deserialize serializer of_bytes raw)) (fun v => mret (Some v)) (c, b')).
  unfold py_bind, lift. by destruct (deserialize serializer of_bytes raw).
Qed.

(** What [get_or_set] returns to a caller that nobody interrupts: the live
    value if there is one, without computing; else the computed value; and if
    the computation fails, with a reserve asked for, the reserve while it is live, otherwise
    the error. A cancellation is never replaced by a stale value. *)
Lemma get_or_set_outcome key result ttl tags stale_ttl n1 n2 n3 n4 n5 c b :
  (n1 <= n2)%Q -> (n2 <= n5)%Q -> positive ttl = true -> positive stale_ttl = true ->
  (forall v, result = Return v -> exists raw, serialize serializer as_bytes v = Return raw) ->
  (get_or_set serializer as_bytes of_bytes key result ttl tags stale_ttl n1 n2 n3 n4 n5 (c, b)).1 =
  match look (value_key key) n1 b with
  | Some raw => deserialize serializer of_bytes raw
  | None =>
      match result, stale_ttl with
      | Return v, _ => Return v
      | Raise e, Some _ =>
          if is_exception e then
            match look (stale_key key) n5 b with
            | Some raw => deserialize serializer of_bytes raw
            | None => Raise e
            end
          else Raise e
      | Raise e, None => Raise e
      end
  end.
Proof.
  intros H12 H25 Hp1 Hp2 Hser. unfold get_or_set, ttl_get.
  destruct (get_step (value_key key) n1 c b) as (b1 & E1 & Hb1).
  destruct (look (value_key key) n1 b) as [raw|] eqn:El.
  - match goal with |- ((?m ≫= ?k) ?s).1 = _ => change ((m ≫= k) s) with (py_bind m k s) end.
    unfold py_bind. erewrite bind_step by done. cbv beta iota. erewrite bind_step by done.
    cbv beta.
    match goal with |- context [(?m ≫= ?k) ?s] => change ((m ≫= k) s) with (py_bind m k s) end.
    unfold py_bind, lift. by destruct (deserialize serializer of_bytes raw).
  - match goal with |- ((?m ≫= ?k) ?s).1 = _ => change ((m ≫= k) s) with (py_bind m k s) end.
    unfold py_bind. erewrite bind_step by done. cbv beta iota. erewrite bind_step by done.
    cbv beta. cbn [update py_modify]. cbv [mret py_mret py_ret]. cbv beta iota. cbn [fst snd].
    set (c1 := count_miss c).
    assert (El2 : look (value_key key) n2 b1 = None).
    { unfold look, seen_value. rewrite Hb1 by done. by apply (look_later _ n1). }
    assert (Hmiss : exists b2, (forall t k, (n2 <= t)%Q -> seen t (cb_entry b2 k) = seen t (cb_entry b k)) /\
      forall (A : Type) (k : option T -> cache_py A),
        (ttl_peek serializer of_bytes key n2 ≫= k) (c1, b1) = k None (c1, b2)).
    { destruct (read_at_outcome (value_key key) n2 c1 b1) as (b2 & E2 & Hb2). rewrite El2 in E2.
      exists b2. split; [intros t k Ht; rewrite Hb2 by done; apply Hb1; lra|].
      intros A k. by erewrite bind_step by exact E2. }
    destruct Hmiss as (b2 & Hb2 & Hmiss). cbn [fst snd].
    assert (Hcompute : forall e, result = Raise e ->
      compute serializer as_bytes key result ttl tags stale_ttl n3 n4 (c1, b2) = (Raise e, (c1, b2)))
      by (by intros e ->).
    assert (Hok : forall v, result = Return v ->
      (compute serializer as_bytes key result ttl tags stale_ttl n3 n4 (c1, b2)).1 = Return v).
    { intros v Hv. destruct (Hser v Hv) as [raw Hraw]. unfold compute.
      erewrite bind_step by (unfold lift; by rewrite Hv).
      pose proof (ttl_set_reliable key v raw ttl tags stale_ttl n3 n4 c1 b2 Hp1 Hp2 Hraw) as Hr.
      destruct (ttl_set _ _ _ _ _ _ _ _ _ (c1, b2)) as [r s] eqn:Es. cbn in Hr. subst r.
      by erewrite bind_step by done. }
    destruct stale_ttl as [extra|].
    + unfold py_try. unfold c1 in *. rewrite Hmiss. destruct result as [v|e].
      * specialize (Hok v eq_refl). destruct (compute _ _ _ _ _ _ _ _ _ _) as [r s].
        cbn in Hok. by subst r.
      * rewrite (Hcompute e eq_refl). destruct (is_exception e); [|done].
        unfold serve_stale, read_stale.
        destruct (read_at_outcome (stale_key key) n5 (count_miss c) b2) as (b3 & E3 & _).
        match goal with |- ((?m ≫= ?k) ?s).1 = _ => change ((m ≫= k) s) with (py_bind m k s) end.
        unfold py_bind. rewrite E3. unfold look, seen_value. rewrite Hb2 by done.
        destruct (e_value <$> seen n5 (cb_entry b (stale_key key))) as [raw|]; [|done].
        by destruct (deserialize serializer of_bytes raw).
    + unfold c1 in *. rewrite Hmiss. destruct result as [v|e]; [by apply Hok|].
      by rewrite (Hcompute e eq_refl).
Qed.

End Reliable.

(** ** Concrete runs: raw bytes over the memory store *)

Definition raw_set (key : string) (v : bytes) (ttl stale_ttl : option Q) (now : Q) :
    py (TTLCache * cache_store) exn unit :=
  ttl_set None (fun v => Some v) key v ttl [] stale_ttl now now.
Definition raw_get (key : string) (now : Q) : py (TTLCache * cache_store) exn (option bytes) :=
  ttl_get None (fun v => v) key now.
Definition raw_get_or_set (key : string) (r : outcome exn bytes) (stale_ttl : option Q) (now : Q) :
    py (TTLCache * cache_store) exn bytes :=
  get_or_set None (fun v => Some v) (fun v => v) key r None [] stale_ttl now now now now now.

Definition after {A} (m : py (TTLCache * cache_store) exn A) (s : TTLCache * cache_store) :
    TTLCache * cache_store := (m s).2.

Definition byte_a : bytes := [Byte.x61].
Definition byte_b : bytes := [Byte.x62].
Definition small_cache : TTLCache * cache_store := (new_ttl_cache 1 60, new_store).
Definition cache_boom : exn := mk_exn RuntimeError NoInfo.

Lemma set_get_roundtrip_witness :
  exists o, (raw_get "k" 5 (after (raw_set "k" byte_a (Some 10%Q) None 0) small_cache)).1 = Return o /\
    o = Some byte_a.
Proof.
  eexists. split; [by vm_compute|].
  refine (set_get_roundtrip None (fun v => Some v) (fun v => v) "k" byte_a (Some 10%Q) [] None 0 0 5
    (new_ttl_cache 1 60) new_store
    (after (raw_set "k" byte_a (Some 10%Q) None 0) small_cache).1
    (after (raw_set "k" byte_a (Some 10%Q) None 0) small_cache).2 (Some byte_a)
    (after (raw_get "k" 5) (after (raw_set "k" byte_a (Some 10%Q) None 0) small_cache)) _ _ _).
  - by intros raw [= ->].
  - done.
  - done.
Defined.

Lemma set_evicts_lru_witness :
  let s := after (raw_set "a" byte_a None None 0) small_cache in
  let s' := after (raw_set "b" byte_b None None 1) s in
  tc_keys s.1 = ["a"] /\ tc_keys s'.1 = ["b"].
Proof.
  intros s s'. split; [by vm_compute|].
  destruct (set_evicts_lru None (fun v => Some v) "b" byte_b None [] None 1 1 s.1 s.2 s'.1 s'.2)
    as [H _]; [by vm_compute| |done|].
  - assert (tc_keys s.1 = ["a"]) as -> by (by vm_compute). by intros [?|?%elem_of_nil]%elem_of_cons.
  - rewrite H. by vm_compute.
Defined.

Lemma get_or_set_outcome_witness :
  let s := after (raw_set "k" byte_a (Some 10%Q) (Some 100%Q) 0) small_cache in
  (raw_get_or_set "k" (Raise cache_boom) (Some 100%Q) 20 s).1 = Return byte_a.
Proof.
  intros s. unfold raw_get_or_set.
  refine (eq_trans (get_or_set_outcome None (fun v => Some v) (fun v => v) "k" (Raise cache_boom) None []
    (Some 100%Q) 20 20 20 20 20 s.1 s.2 _ _ _ _ _) _); [lra|lra|done|done|done|by vm_compute].
Defined.

(** ** What the cap and the reserve do not cover *)

(** A [set] without a reserve leaves an older reserve behind, which a failed
    computation then serves although a newer value was stored after it. *)
Lemma reserve_is_not_the_last_value :
  let s1 := after (raw_set "k" byte_a (Some 10%Q) (Some 100%Q) 0) small_cache in
  let s2 := after (raw_set "k" byte_b (Some 10%Q) None 1) s1 in
  (raw_get "k" 2 s2).1 = Return (Some byte_b) /\
  (raw_get_or_set "k" (Raise cache_boom) (Some 100%Q) 12 s2).1 = Return byte_a.
Proof. by vm_compute. Qed.

(** A hit tracks its key without making room. *)
Lemma get_exceeds_the_cap :
  let store := after (raw_set "b" byte_b None None 0) small_cache in
  let s := after (raw_set "a" byte_a None None 0) (new_ttl_cache 1 60, store.2) in
  length (tc_keys (after (raw_get "b" 1) s).1) = 2%nat.
Proof. by vm_compute. Qed.

(** A [set_many] larger than the cap stores every item. *)
Lemma set_many_exceeds_the_cap :
  let s := after (ttl_set_many None (fun v => Some v) [("a", byte_a); ("b", byte_b)] None [] 0)
    small_cache in
  tc_keys s.1 = ["b"] /\ (raw_get "a" 1 s).1 = Return (Some byte_a) /\
  (raw_get "b" 1 s).1 = Return (Some byte_b).
Proof. by vm_compute. Qed.

(** [delete_tags] forgets every tracked key, so the entries that stay are no
    longer counted. *)
Lemma delete_tags_loses_the_cap :
  let s1 := after (raw_set "a" byte_a None None 0) small_cache in
  let s2 := after (ttl_delete_tags ["t"]) s1 in
  let s3 := after (raw_set "b" byte_b None None 1) s2 in
  (raw_get "a" 2 s3).1 = Return (Some byte_a) /\ (raw_get "b" 2 s3).1 = Return (Some byte_b).
Proof. by vm_compute. Qed.
