(* ===== verification/Stampede.v ===== *)
(** * Stampede protection

    [cache/_stampede.py]: the registry of per-key locks with its budget, and
    [compute_with_stampede] as the steps of concurrent callers of one process
    ([get_or_set] of [cache/ttl.py]; the wrapper of [cached] in
    [cache/cached.py] runs the same core).  The locks are [asyncio.Lock] objects
    on a heap, because a caller keeps the lock that the registry has dropped.

    Not modelled: the second lock across replicas, a [Lock] taken inside the
    first one. *)

From S2P Require Import Prelude Errors Dict CacheMemory TTLCache.
From stdpp Require Import pretty.

Local Open Scope Z_scope.

(** ** [asyncio.Lock] *)

(** The waiters in order, each with its future: set or not. *)
Record ALock : Type := mkALock { al_locked : bool; al_waiters : list (nat * bool) }.

Definition free_lock : ALock := mkALock false [].

Definition wake_up_first (ws : list (nat * bool)) : list (nat * bool) :=
  match ws with [] => [] | (w, _) :: ws => (w, true) :: ws end.

(** [acquire] up to its suspension: granted, or queued. *)
Definition al_acquire (who : nat) (l : ALock) : bool * ALock :=
  if negb (al_locked l) && bool_decide (al_waiters l = []) then (true, mkALock true [])
  else (false, mkALock (al_locked l) (al_waiters l ++ [(who, false)])).

(** [acquire] resumed by its future. *)
Definition al_resume (who : nat) (l : ALock) : ALock :=
  mkALock true (filter (fun w => w.1 <> who) (al_waiters l)).

Definition al_release (l : ALock) : ALock := mkALock false (wake_up_first (al_waiters l)).

(** ** The registry *)

Definition per_key_lock_budget : nat := 1024.

(** [AsyncStampedeGuard]: the locks by key, least recently used first. *)
Definition lock_registry : Type := list (string * nat).
Abbreviation heap := (gmap nat ALock).

Definition is_locked (h : heap) (i : nat) : bool :=
  match h !! i with Some l => al_locked l | None => false end.

(** The first entry whose lock is not held. *)
Definition idle_entry (h : heap) (g : lock_registry) : option string :=
  fst <$> head (filter (fun p => is_locked h p.2 = false) g).

(** [_evict_idle_locks]; every turn removes an entry. *)
Fixpoint evict_idle_locks (fuel budget : nat) (h : heap) (g : lock_registry) : lock_registry :=
  match fuel with
  | O => g
  | S fuel =>
      if (length g <=? budget)%nat then g
      else match idle_entry h g with
           | Some key => evict_idle_locks fuel budget h (dict_del key g)
           | None => g
           end
  end.

(** [get_lock]; [i] is the new object, when one is made. *)
Definition get_lock (budget : nat) (key : string) (i : nat) (g : lock_registry) (h : heap) :
    nat * lock_registry * heap :=
  match dict_get key g with
  | Some j => (j, dict_move_to_end key g, h)
  | None =>
      let h := <[i := free_lock]> h in
      let g := dict_set key i g in
      (i, evict_idle_locks (length g) budget h g, h)
  end.

(** ** Concurrent callers *)

Section Stampede.
Context {T B : Type} {CB : CacheBackend B}.
Context (serializer : option (CacheSerializer T)) (as_bytes : T -> option bytes) (of_bytes : bytes -> T).
Context (budget : nat).

Inductive call_phase : Type :=
| AtGet
| Waiting (lock : nat)
| Holding (lock : nat)
| Computing (lock : nat)
| Storing (lock : nat) (v : T)
| Failing (e : exn)
| Finished_call (r : outcome exn T).

Record stampede_caller : Type := mkCaller {
  cl_key : string;
  cl_ttl : option Q;
  cl_tags : list string;
  cl_stale_ttl : option Q;
  cl_phase : call_phase;
}.

Definition goes (p : call_phase) (c : stampede_caller) : stampede_caller :=
  mkCaller (cl_key c) (cl_ttl c) (cl_tags c) (cl_stale_ttl c) p.

Record stampede : Type := mkStampede {
  sp_cache : TTLCache * B;
  sp_registry : lock_registry;
  sp_heap : heap;
  sp_callers : gmap nat stampede_caller;
}.

Definition set_caller (i : nat) (c : stampede_caller) (s : stampede) : stampede :=
  mkStampede (sp_cache s) (sp_registry s) (sp_heap s) (<[i := c]> (sp_callers s)).
Definition set_cache (x : TTLCache * B) (s : stampede) : stampede :=
  mkStampede x (sp_registry s) (sp_heap s) (sp_callers s).

(** [async with the_lock], entered. *)
Definition enter_lock (i lock fresh : nat) (g : lock_registry) (h : heap) (c : stampede_caller) (s : stampede) :
    stampede :=
  let '(granted, l) := al_acquire i (default free_lock (h !! lock)) in
  mkStampede (sp_cache s) g (<[lock := l]> h)
    (<[i := goes (if granted then Holding lock else Waiting lock) c]> (sp_callers s)).

(** ... and left. *)
Definition leave_lock (i lock : nat) (p : call_phase) (c : stampede_caller) (s : stampede) : stampede :=
  mkStampede (sp_cache s) (sp_registry s)
    (<[lock := al_release (default free_lock (sp_heap s !! lock))]> (sp_heap s))
    (<[i := goes p c]> (sp_callers s)).

Inductive stampede_step : stampede -> stampede -> Prop :=
(* any other use of the cache, by this process or another *)
| ss_other s x : stampede_step s (set_cache x s)
| ss_call s i c : sp_callers s !! i = None -> cl_phase c = AtGet -> stampede_step s (set_caller i c s)
| ss_hit s i c now v x :
    sp_callers s !! i = Some c -> cl_phase c = AtGet ->
    ttl_get serializer of_bytes (cl_key c) now (sp_cache s) = (Return (Some v), x) ->
    stampede_step s (set_cache x (set_caller i (goes (Finished_call (Return v)) c) s))
| ss_get_error s i c now e x :
    sp_callers s !! i = Some c -> cl_phase c = AtGet ->
    ttl_get serializer of_bytes (cl_key c) now (sp_cache s) = (Raise e, x) ->
    stampede_step s (set_cache x (set_caller i (goes (Finished_call (Raise e)) c) s))
| ss_miss s i c now x fresh lock g h :
    sp_callers s !! i = Some c -> cl_phase c = AtGet ->
    ttl_get serializer of_bytes (cl_key c) now (sp_cache s) = (Return None, x) ->
    sp_heap s !! fresh = None ->
    get_lock budget (cl_key c) fresh (sp_registry s) (sp_heap s) = (lock, g, h) ->
    stampede_step s (set_cache x (enter_lock i lock fresh g h c s))
| ss_wake s i c lock l :
    sp_callers s !! i = Some c -> cl_phase c = Waiting lock ->
    sp_heap s !! lock = Some l -> (i, true) ∈ al_waiters l ->
    stampede_step s
      (mkStampede (sp_cache s) (sp_registry s) (<[lock := al_resume i l]> (sp_heap s))
         (<[i := goes (Holding lock) c]> (sp_callers s)))
(* the double check *)
| ss_peek s i c lock now r x :
    sp_callers s !! i = Some c -> cl_phase c = Holding lock ->
    ttl_peek serializer of_bytes (cl_key c) now (sp_cache s) = (r, x) ->
    stampede_step s
      (set_cache x
         match r with
         | Return (Some v) => leave_lock i lock (Finished_call (Return v)) c s
         | Return None => set_caller i (goes (Computing lock) c) s
         | Raise e => leave_lock i lock (Failing e) c s
         end)
| ss_compute s i c lock r :
    sp_callers s !! i = Some c -> cl_phase c = Computing lock ->
    stampede_step s
      match r with
      | Return v => set_caller i (goes (Storing lock v) c) s
      | Raise e => leave_lock i lock (Failing e) c s
      end
| ss_store s i c lock v now1 now2 r x :
    sp_callers s !! i = Some c -> cl_phase c = Storing lock v ->
    ttl_set serializer as_bytes (cl_key c) v (cl_ttl c) (cl_tags c) (cl_stale_ttl c) now1 now2
      (sp_cache s) = (r, x) ->
    stampede_step s
      (set_cache x
         match r with
         | Return _ => leave_lock i lock (Finished_call (Return v)) c s
         | Raise e => leave_lock i lock (Failing e) c s
         end)
(* outside the locks: the reserve, or the error *)
| ss_stale s i c e now r x :
    sp_callers s !! i = Some c -> cl_phase c = Failing e ->
    (match cl_stale_ttl c with
     | Some _ =>
         if is_exception e then serve_stale serializer of_bytes (cl_key c) now e (sp_cache s)
         else (Raise e, sp_cache s)
     | None => (Raise e, sp_cache s)
     end) = (r, x) ->
    stampede_step s (set_cache x (set_caller i (goes (Finished_call r) c) s)).

(** The lock a caller is inside of. *)
Definition critical (c : stampede_caller) : option nat :=
  match cl_phase c with
  | Holding lock | Computing lock | Storing lock _ => Some lock
  | _ => None
  end.

(** The lock a caller holds or waits for. *)
Definition uses_lock (c : stampede_caller) : option nat :=
  match cl_phase c with Waiting lock => Some lock | _ => critical c end.

(** ** One computation per key *)

Abbreviation callers := (gmap nat stampede_caller).

Record alock_ok (cs : callers) (j : nat) (l : ALock) : Prop := {
  lk_held : forall i c, cs !! i = Some c -> critical c = Some j -> al_locked l = true;
  lk_one : forall i1 i2 c1 c2, cs !! i1 = Some c1 -> cs !! i2 = Some c2 ->
    critical c1 = Some j -> critical c2 = Some j -> i1 = i2;
  lk_woken : forall w, (w, true) ∈ al_waiters l -> al_locked l = false;
  lk_first : forall w1 w2, (w1, true) ∈ al_waiters l -> (w2, true) ∈ al_waiters l -> w1 = w2;
}.

Record stampede_ok (keys : list string) (s : stampede) : Prop := {
  sk_wf : dict_wf (sp_registry s);
  sk_inj : forall k1 k2 j, dict_get k1 (sp_registry s) = Some j ->
    dict_get k2 (sp_registry s) = Some j -> k1 = k2;
  sk_keys : forall k j, dict_get k (sp_registry s) = Some j -> k ∈ keys /\ is_Some (sp_heap s !! j);
  sk_use : forall i c j, sp_callers s !! i = Some c -> uses_lock c = Some j ->
    dict_get (cl_key c) (sp_registry s) = Some j;
  sk_locks : forall j l, sp_heap s !! j = Some l -> alock_ok (sp_callers s) j l;
}.

Lemma critical_uses c j : critical c = Some j -> uses_lock c = Some j.
Proof. unfold critical, uses_lock, critical. by destruct (cl_phase c). Qed.

(** A caller that is not, or no longer, inside the lock. *)
Lemma lock_ok_out cs i c' j l :
  critical c' <> Some j -> alock_ok cs j l -> alock_ok (<[i := c']> cs) j l.
Proof.
  intros Hc [H1 H2 H3 H4]. split; [| |done|done].
  - intros k c [[_ <-]|[_ Hk]]%lookup_insert_Some; [done|by eapply H1].
  - intros k1 k2 c1 c2 [[_ <-]|[_ Hk1]]%lookup_insert_Some [[_ <-]|[_ Hk2]]%lookup_insert_Some;
      try done. by eapply H2.
Qed.

(** A caller that goes on inside the lock. *)
Lemma lock_ok_same cs i c c' j l :
  cs !! i = Some c -> critical c' = critical c -> alock_ok cs j l -> alock_ok (<[i := c']> cs) j l.
Proof.
  intros Hi Hc [H1 H2 H3 H4]. split; [| |done|done].
  - intros k c0 [[<- <-]|[_ Hk]]%lookup_insert_Some; [rewrite Hc|]; by eapply H1.
  - intros k1 k2 c1 c2 [[<- <-]|[_ Hk1]]%lookup_insert_Some [[<- <-]|[_ Hk2]]%lookup_insert_Some;
      rewrite ?Hc; try done; by eapply H2.
Qed.

(** A caller enters a lock that is free. *)
Lemma lock_ok_in cs i c' j l ws :
  critical c' = Some j -> al_locked l = false -> alock_ok cs j l ->
  (forall w, (w, true) ∉ ws) -> alock_ok (<[i := c']> cs) j (mkALock true ws).
Proof.
  intros Hc Hl [H1 H2 H3 H4] Hw.
  assert (Hn : forall k c, cs !! k = Some c -> critical c <> Some j).
  { intros k c Hk Hj. specialize (H1 k c Hk Hj). congruence. }
  split; cbn; [done| | |].
  - intros k1 k2 c1 c2 [[<- <-]|[_ Hk1]]%lookup_insert_Some [[<- <-]|[_ Hk2]]%lookup_insert_Some;
      try done; intros; by exfalso; eapply Hn.
  - intros w Hin. by destruct (Hw w).
  - intros w1 w2 Hin. by destruct (Hw w1).
Qed.

(** The holder leaves. *)
Lemma lock_ok_leave cs i c c' j l :
  cs !! i = Some c -> critical c = Some j -> critical c' = None -> alock_ok cs j l ->
  alock_ok (<[i := c']> cs) j (al_release l).
Proof.
  intros Hi Hc Hc' [H1 H2 H3 H4].
  assert (Hn : forall k c0, <[i := c']> cs !! k = Some c0 -> critical c0 <> Some j).
  { intros k c0 [[_ <-]|[Hne Hk]]%lookup_insert_Some; [congruence|]. intros Hj. by eapply Hne, H2. }
  assert (Hw : forall w, (w, true) ∉ al_waiters l).
  { intros w Hin. specialize (H1 i c Hi Hc). specialize (H3 w Hin). congruence. }
  split; cbn; [intros; by exfalso; eapply Hn|intros; by exfalso; eapply Hn|done|].
  intros w1 w2. destruct (al_waiters l) as [|[w b] ws]; cbn; [by intros ?%elem_of_nil|].
  intros [[= ->]|Hin]%elem_of_cons; [|by exfalso; eapply Hw; right].
  intros [[= ->]|Hin]%elem_of_cons; [done|by exfalso; eapply Hw; right].
Qed.

Lemma ok_set_cache keys x s : stampede_ok keys s -> stampede_ok keys (set_cache x s).
Proof. by intros [? ? ? ? ?]. Qed.

(** A caller that uses no lock, or goes on with the one it uses. *)
Lemma ok_set_caller keys i c' s :
  uses_lock c' = None \/
  (exists c, sp_callers s !! i = Some c /\ critical c' = critical c /\ uses_lock c' = uses_lock c /\
     cl_key c' = cl_key c) ->
  stampede_ok keys s -> stampede_ok keys (set_caller i c' s).
Proof.
  intros Hc [H1 H2 H3 H4 H5]. split; cbn; try done.
  - intros k c j [[<- <-]|[_ Hk]]%lookup_insert_Some Hu; [|by eapply H4].
    destruct Hc as [Hc|(c & Hi & _ & Hu' & ->)]; [congruence|]. eapply H4; [done|congruence].
  - intros j l Hl. destruct Hc as [Hc|(c & Hi & Hcr & _ & _)].
    + apply lock_ok_out; [|by apply H5]. intros Hj%critical_uses. congruence.
    + eapply lock_ok_same; [done..|by apply H5].
Qed.

Lemma ok_leave keys i lock p c s :
  sp_callers s !! i = Some c -> critical c = Some lock -> uses_lock (goes p c) = None ->
  stampede_ok keys s -> stampede_ok keys (leave_lock i lock p c s).
Proof.
  intros Hi Hc Hp [H1 H2 H3 H4 H5].
  assert (Hl : is_Some (sp_heap s !! lock)).
  { eapply H3, H4; [done|by apply critical_uses]. }
  destruct Hl as [l Hl]. unfold leave_lock. rewrite Hl. cbn [default from_option id].
  assert (Hcp : critical (goes p c) = None).
  { destruct (critical (goes p c)) as [j|] eqn:E; [|done]. apply critical_uses in E. congruence. }
  split; cbn; try done.
  - intros k j Hk. destruct (H3 k j Hk) as [? [l' Hl']]. split; [done|].
    destruct (decide (lock = j)) as [<-|]; [rewrite lookup_insert_eq|rewrite lookup_insert_ne by done]; by eexists.
  - intros k c0 j [[<- <-]|[_ Hk]]%lookup_insert_Some Hu; [congruence|by eapply H4].
  - intros j l0 [[<- <-]|[Hne Hj]]%lookup_insert_Some.
    + eapply lock_ok_leave; [done..|by apply H5].
    + apply lock_ok_out; [congruence|by apply H5].
Qed.

Lemma evict_within fuel h g : (length g <= budget)%nat -> evict_idle_locks fuel budget h g = g.
Proof.
  intros Hg. destruct fuel as [|fuel]; [done|]. cbn. by rewrite (proj2 (Nat.leb_le _ _) Hg).
Qed.

Lemma guard_within (keys : list string) (g : lock_registry) :
  dict_wf g -> (forall k j, dict_get k g = Some j -> k ∈ keys) -> (length g <= length keys)%nat.
Proof.
  intros Hwf Hk. rewrite <- (length_fmap fst g). apply submseteq_length, NoDup_submseteq; [done|].
  intros k Hin. destruct (dict_get k g) as [j|] eqn:E; [by eapply Hk|].
  by apply dict_get_none in E.
Qed.

Lemma get_lock_ok keys key fresh lock g' h' s :
  (length keys <= budget)%nat -> key ∈ keys -> sp_heap s !! fresh = None -> stampede_ok keys s ->
  get_lock budget key fresh (sp_registry s) (sp_heap s) = (lock, g', h') ->
  stampede_ok keys (mkStampede (sp_cache s) g' h' (sp_callers s)) /\
  dict_get key g' = Some lock /\ is_Some (h' !! lock).
Proof.
  intros Hb Hkey Hf [H1 H2 H3 H4 H5]. unfold get_lock.
  destruct (dict_get key (sp_registry s)) as [j|] eqn:E.
  - intros [= <- <- <-]. split; [split; cbn; try done|].
    + by apply dict_move_to_end_wf.
    + intros k1 k2 j'. rewrite !dict_move_to_end_get by done. apply H2.
    + intros k j'. rewrite dict_move_to_end_get by done. apply H3.
    + intros i c j' Hi Hu. rewrite dict_move_to_end_get by done. by eapply H4.
    + rewrite dict_move_to_end_get by done. split; [done|]. by apply (H3 key).
  - set (g1 := dict_set key fresh (sp_registry s)).
    assert (Hg1 : forall k, dict_get k g1 = if decide (key = k) then Some fresh else dict_get k (sp_registry s))
      by (intros k; apply dict_get_set).
    assert (Hnf : forall k j, dict_get k (sp_registry s) = Some j -> j <> fresh).
    { intros k j Hk ->. destruct (H3 k fresh Hk) as [_ [l Hl]]. congruence. }
    assert (Hwf1 : dict_wf g1) by (by apply dict_set_wf).
    assert (Hk1 : forall k j, dict_get k g1 = Some j -> k ∈ keys).
    { intros k j. rewrite Hg1. case_decide; [by subst|]. intros Hk. by apply (H3 k j). }
    rewrite evict_within by (pose proof (guard_within keys g1 Hwf1 Hk1); lia).
    intros [= <- <- <-]. split; [split; cbn; try done|].
    + intros k1 k2 j. rewrite !Hg1. repeat case_decide; subst; try done.
      * intros [= <-] Hk. by apply Hnf in Hk.
      * intros Hk [= <-]. by apply Hnf in Hk.
      * apply H2.
    + intros k j Hk. split; [by eapply Hk1|]. rewrite Hg1 in Hk. case_decide.
      * injection Hk as <-. rewrite lookup_insert_eq. by eexists.
      * destruct (H3 k j Hk) as [_ ?]. rewrite lookup_insert_ne; [done|]. by intros ->; apply Hnf in Hk.
    + intros i c j Hi Hu. rewrite Hg1. pose proof (H4 i c j Hi Hu) as Hk.
      case_decide; [congruence|done].
    + intros j l [[<- <-]|[_ Hj]]%lookup_insert_Some; [|by apply H5].
      assert (Hn : forall i c, sp_callers s !! i = Some c -> critical c <> Some fresh).
      { intros i c Hi Hc%critical_uses. specialize (H4 i c fresh Hi Hc). by apply Hnf in H4. }
      split; cbn; [intros; by exfalso; eapply Hn|intros; by exfalso; eapply Hn| |].
      * by intros w ?%elem_of_nil.
      * by intros w1 w2 ?%elem_of_nil.
    + rewrite Hg1, decide_True by done. split; [done|]. rewrite lookup_insert_eq. by eexists.
Qed.

Lemma ok_enter keys i lock fresh g h c s :
  (length keys <= budget)%nat -> cl_key c ∈ keys -> sp_heap s !! fresh = None ->
  sp_callers s !! i = Some c -> cl_phase c = AtGet -> stampede_ok keys s ->
  get_lock budget (cl_key c) fresh (sp_registry s) (sp_heap s) = (lock, g, h) ->
  stampede_ok keys (enter_lock i lock fresh g h c s).
Proof.
  intros Hb Hk Hf Hi Hp Hok Hg.
  destruct (get_lock_ok keys _ _ _ _ _ s Hb Hk Hf Hok Hg) as ([H1 H2 H3 H4 H5] & Hget & [l Hl]).
  cbn in *. unfold enter_lock. rewrite Hl. cbn [default from_option id].
  assert (Hheap : forall l' k j, dict_get k g = Some j -> k ∈ keys /\ is_Some (<[lock := l']> h !! j)).
  { intros l' k j Hkj. destruct (H3 k j Hkj) as [? [l0 Hl0]]. split; [done|].
    destruct (decide (lock = j)) as [<-|]; [rewrite lookup_insert_eq|rewrite lookup_insert_ne by done];
      by eexists. }
  assert (Huse : forall p k c0 j, uses_lock (goes p c) = None \/ uses_lock (goes p c) = Some lock ->
    <[i := goes p c]> (sp_callers s) !! k = Some c0 -> uses_lock c0 = Some j ->
    dict_get (cl_key c0) g = Some j).
  { intros p k c0 j Hu [[<- <-]|[_ Hk0]]%lookup_insert_Some Hj; [|by eapply H4].
    destruct Hu; [congruence|]. cbn. congruence. }
  unfold al_acquire. destruct (al_locked l) eqn:El; cbn [negb andb].
  - split; cbn; try done; [apply Hheap|intros k c0 j; by apply (Huse (Waiting lock)); right|].
    intros j l0 [[<- <-]|[Hne Hj]]%lookup_insert_Some; [|apply lock_ok_out; [done|by apply H5]].
    apply lock_ok_out; [done|]. destruct (H5 lock l Hl) as [L1 L2 L3 L4]. split; cbn; try done.
    + intros w [Hw|[= ?]%list_elem_of_singleton]%elem_of_app. specialize (L3 w Hw). congruence.
    + intros w1 w2 [Hw1|[= ?]%list_elem_of_singleton]%elem_of_app
        [Hw2|[= ?]%list_elem_of_singleton]%elem_of_app; try done. by apply L4.
  - destruct (bool_decide (al_waiters l = [])) eqn:Ew; cbn.
    + split; cbn; try done; [apply Hheap|intros k c0 j; by apply (Huse (Holding lock)); right|].
      intros j l0 [[<- <-]|[Hne Hj]]%lookup_insert_Some.
      * eapply lock_ok_in; [done|done|by apply H5|]. by intros w ?%elem_of_nil.
      * apply lock_ok_out; [intros [= ?]; congruence|by apply H5].
    + split; cbn; try done; [apply Hheap|intros k c0 j; by apply (Huse (Waiting lock)); right|].
      intros j l0 [[<- <-]|[Hne Hj]]%lookup_insert_Some; [|apply lock_ok_out; [done|by apply H5]].
      apply lock_ok_out; [done|]. destruct (H5 lock l Hl) as [L1 L2 L3 L4]. split; cbn; try done.
      * intros k c0 Hk0 Hc0. specialize (L1 k c0 Hk0 Hc0). congruence.
      * intros w1 w2 [Hw1|[= ?]%list_elem_of_singleton]%elem_of_app
          [Hw2|[= ?]%list_elem_of_singleton]%elem_of_app; try done. by apply L4.
Qed.

Lemma ok_wake keys i c lock l s :
  sp_callers s !! i = Some c -> cl_phase c = Waiting lock -> sp_heap s !! lock = Some l ->
  (i, true) ∈ al_waiters l -> stampede_ok keys s ->
  stampede_ok keys (mkStampede (sp_cache s) (sp_registry s) (<[lock := al_resume i l]> (sp_heap s))
    (<[i := goes (Holding lock) c]> (sp_callers s))).
Proof.
  intros Hi Hp Hl Hw [H1 H2 H3 H4 H5]. destruct (H5 lock l Hl) as [L1 L2 L3 L4] eqn:E5. clear E5.
  split; cbn; try done.
  - intros k j Hk. destruct (H3 k j Hk) as [? [l' Hl']]. split; [done|].
    destruct (decide (lock = j)) as [<-|]; [rewrite lookup_insert_eq|rewrite lookup_insert_ne by done];
      by eexists.
  - intros k c0 j [[<- <-]|[_ Hk]]%lookup_insert_Some Hu; [|by eapply H4].
    cbn in Hu. injection Hu as <-. eapply (H4 i c); [done|]. unfold uses_lock. by rewrite Hp.
  - intros j l0 [[<- <-]|[Hne Hj]]%lookup_insert_Some.
    + eapply lock_ok_in; [done|by eapply L3|by apply H5|]. intros w.
      rewrite list_elem_of_filter. cbn. intros [Hwi Hin]. by apply Hwi, L4.
    + apply lock_ok_out; [intros [= ?]; congruence|by apply H5].
Qed.

(** Callers of at most [budget] keys. *)
Definition keys_within (keys : list string) (s : stampede) : Prop :=
  forall i c, sp_callers s !! i = Some c -> cl_key c ∈ keys.

Definition step_within (keys : list string) (s s' : stampede) : Prop :=
  stampede_step s s' /\ keys_within keys s.

Lemma stampede_step_ok keys s s' :
  (length keys <= budget)%nat -> step_within keys s s' -> stampede_ok keys s -> stampede_ok keys s'.
Proof.
  intros Hb [Hstep Hk] Hok.
  destruct Hstep as [s x|s i c Hi Hp|s i c now v x Hi Hp Hg|s i c now e x Hi Hp Hg
    |s i c now x fresh lock g h Hi Hp Hg Hf Hgl|s i c lock l Hi Hp Hl Hw
    |s i c lock now r x Hi Hp Hr|s i c lock r Hi Hp|s i c lock v now1 now2 r x Hi Hp Hr
    |s i c e now r x Hi Hp Hr]; try apply ok_set_cache; try done.
  - apply ok_set_caller; [|done]. left. unfold uses_lock, critical. by rewrite Hp.
  - apply ok_set_caller; [by left|done].
  - apply ok_set_caller; [by left|done].
  - eapply ok_enter; try done. by eapply Hk.
  - by apply ok_wake.
  - assert (critical c = Some lock) by (unfold critical; by rewrite Hp).
    destruct r as [[v|]|e]; [by apply ok_leave| |by apply ok_leave].
    apply ok_set_caller; [|done]. right. exists c. unfold uses_lock, critical. by rewrite Hp.
  - assert (critical c = Some lock) by (unfold critical; by rewrite Hp).
    destruct r as [v|e]; [|by apply ok_leave].
    apply ok_set_caller; [|done]. right. exists c. unfold uses_lock, critical. by rewrite Hp.
  - assert (critical c = Some lock) by (unfold critical; by rewrite Hp).
    destruct r; by apply ok_leave.
  - apply ok_set_caller; [by left|done].
Qed.

(** C6 A miss is computed once at a time: among the callers of one process, for at
    most as many keys as the registry keeps locks, two that are
    between taking the lock of a key and storing its value (where the computation
    runs) are the same caller, whatever hits, misses, failures, deletions and
    writes by others interleave. *)
Theorem one_computation_per_key keys x s i1 i2 c1 c2 :
  (length keys <= budget)%nat ->
  rtc (step_within keys) (mkStampede x [] ∅ ∅) s ->
  sp_callers s !! i1 = Some c1 -> sp_callers s !! i2 = Some c2 -> cl_key c1 = cl_key c2 ->
  is_Some (critical c1) -> is_Some (critical c2) -> i1 = i2.
Proof.
  intros Hb Hs E1 E2 Hk [j1 C1] [j2 C2].
  assert (Hok : stampede_ok keys s).
  { apply (invariant_rtc (step_within keys) (stampede_ok keys)) in Hs; [done| |].
    - intros s1 s2. by apply stampede_step_ok.
    - split; cbn; [apply dict_wf_nil|done..]. }
  pose proof (sk_use _ _ Hok i1 c1 j1 E1 (critical_uses _ _ C1)) as U1.
  pose proof (sk_use _ _ Hok i2 c2 j2 E2 (critical_uses _ _ C2)) as U2.
  rewrite Hk, U2 in U1. injection U1 as ->.
  destruct (sk_keys _ _ Hok _ _ U2) as [_ [l Hl]].
  by eapply (lk_one _ _ _ (sk_locks _ _ Hok j1 l Hl)).
Qed.

End Stampede.

(** ** The budget *)

Lemma idle_entry_some h g key :
  idle_entry h g = Some key -> exists j, (key, j) ∈ g /\ is_locked h j = false.
Proof.
  unfold idle_entry. intros (p & Hp & ->)%fmap_Some.
  assert (Hin : p ∈ filter (fun p : string * nat => is_locked h p.2 = false) g).
  { destruct (filter _ g); [done|]. injection Hp as ->. by left. }
  apply list_elem_of_filter in Hin as [Hl Hin]. exists p.2. by destruct p.
Qed.

(** The loop of [_evict_idle_locks] ends within its fuel: the registry is within
    the budget, or every lock left is held. *)
Lemma evict_idle_locks_ends fuel budget h g :
  (length g <= fuel)%nat ->
  let g' := evict_idle_locks fuel budget h g in
  (length g' <= budget)%nat \/ idle_entry h g' = None.
Proof.
  revert g. induction fuel as [|fuel IH]; intros g Hg; cbn.
  - left. lia.
  - destruct (Nat.leb_spec (length g) budget) as [|Hlt]; [by left|].
    destruct (idle_entry h g) as [key|] eqn:E; [|by right].
    destruct (idle_entry_some h g key E) as (j & Hin & _). apply IH.
    rewrite dict_del_length. destruct (dict_get key g) eqn:Ek; [destruct g; cbn in *; lia|].
    apply dict_get_none in Ek. destruct Ek. apply list_elem_of_fmap. by exists (key, j).
Qed.

(** ** Concrete runs *)

Definition demo_caller : stampede_caller (T := bytes) := mkCaller "k" None [] None AtGet.

Definition demo_world : stampede (T := bytes) (B := cache_store) :=
  mkStampede small_cache [] ∅ ∅.

Lemma one_computation_per_key_witness :
  exists s : stampede (T := bytes) (B := cache_store),
    (critical <$> sp_callers s !! 0%nat) = Some (Some 0%nat) /\ 0%nat = 0%nat.
Proof.
  set (s1 := set_caller 0 demo_caller demo_world).
  set (x := after (raw_get "k" 0) small_cache).
  set (s2 := set_cache x (enter_lock 0 0 0 [("k", 0%nat)] {[0%nat := free_lock]} demo_caller s1)).
  exists s2. split; [by vm_compute|].
  assert (Hs : rtc (step_within None (fun v => Some v) (fun v => v) 1 ["k"]) demo_world s2).
  { eapply (rtc_l _ _ s1); [split; [by apply ss_call|by intros ? ?]|].
    eapply rtc_l; [|apply rtc_refl]. split.
    - eapply (ss_miss _ _ _ _ s1 0 demo_caller 0 x 0 0); done.
    - intros i c. cbn. rewrite lookup_insert_Some. intros [[_ <-]|[_ ?]]; [by left|done]. }
  apply (one_computation_per_key None (fun v => Some v) (fun v => v) 1 ["k"] small_cache s2 0 0
    (goes (Holding 0) demo_caller) (goes (Holding 0) demo_caller)); try done; by eexists.
Defined.

(** A lock that was released to a waiter counts as idle until the waiter runs,
    so a full registry can drop it: the next caller of that key gets another lock and
    computes next to the waiter. *)
Definition full_guard : lock_registry :=
  ("a", 0%nat) :: ((fun n => (pretty n, n)) <$> seq 1 1023).
Definition full_heap : heap :=
  <[0%nat := al_release (mkALock true [(7%nat, false)])]>
    (list_to_map ((fun n => (n, free_lock)) <$> seq 1 1023)).

Lemma lock_dropped_before_the_waiter_runs :
  let '(lock, g, h) := get_lock per_key_lock_budget "new" 5000 full_guard full_heap in
  dict_get "a" full_guard = Some 0%nat /\ dict_get "a" g = None /\
  al_waiters <$> h !! 0%nat = Some [(7%nat, true)].
Proof. by vm_compute. Qed.
