(* ===== verification/Idempotency.v ===== *)
(** * Idempotency keys

    [idempotency/_idempotency.py]: the operation handed to the block, the
    replay, the persistence of a response with its fingerprint, the block and
    [run], over [TTLCache].

    The block holds the lock of its key ([Stampede]) from its second look on;
    this file follows one block that nobody interrupts.  Not modelled: the lock
    across replicas, the bound on the wait for the lock, metrics. *)

From S2P Require Import Prelude Errors CacheMemory TTLCache.
From Stdlib Require Ascii Strings.Byte Strings.String.

Local Open Scope Z_scope.

(** [str.encode] and [bytes.decode]: a string is its UTF-8 bytes. *)
Definition encode (s : string) : bytes := String.list_byte_of_string s.
Definition decode (b : bytes) : string := String.string_of_list_byte b.

Lemma decode_encode s : decode (encode s) = s.
Proof. apply String.string_of_list_byte_of_string. Qed.

Definition fingerprint_suffix : string := String (Ascii.ascii_of_nat 31) "fp".

Section Idempotency.
Context {T B : Type} {CB : CacheBackend B}.
Context (serializer : option (CacheSerializer T)) (as_bytes : T -> option bytes) (of_bytes : bytes -> T).
Context (name : string).
Abbreviation cache_py := (py (TTLCache * B) exn).

(** ** The operation *)

Record Operation : Type := mkOperation {
  op_replayed : bool;
  op_response : option T;
  op_stored : option T;
}.

Definition op_result (o : Operation) : outcome exn (option T) :=
  if op_replayed o then Return (op_response o) else Raise (mk_exn IdempotencyStateError NoInfo).

Definition op_store (v : T) (o : Operation) : Operation :=
  if op_replayed o then o else mkOperation false (op_response o) (Some v).

Definition replayed (v : T) : Operation := mkOperation true (Some v) None.
Definition first_execution : Operation := mkOperation false None None.

(** ** Storage *)

Definition scoped (key : string) : string := "idempotency:" +:+ name +:+ ":" +:+ key.
Definition fingerprint_key (key : string) : string :=
  value_key (scoped key) +:+ fingerprint_suffix.

Definition conflict (key : string) : exn :=
  mk_exn IdempotencyConflictError (ConflictInfo name key).

(** [_replay] *)
Definition replay (key : string) (fingerprint : option string) (now1 now2 : Q) :
    cache_py (option T) :=
  stored ← ttl_get serializer of_bytes (scoped key) now1;
  match stored with
  | None => mret None
  | Some v =>
      match fingerprint with
      | None => mret (Some v)
      | Some f =>
          saved ← call_store (cb_get (fingerprint_key key) now2);
          match saved with
          | Some raw =>
              if decide (decode raw <> f) then py_raise (conflict key) else mret (Some v)
          | None => mret (Some v)
          end
      end
  end.

(** [_persist], with the TTL of the config at that moment. *)
Definition persist (key : string) (response : T) (fingerprint : option string) (ttl now1 now2 : Q) :
    cache_py unit :=
  match fingerprint with
  | Some f => call_store (cb_set (fingerprint_key key) (encode f) (ttl + 1) [] now1)
  | None => mret tt
  end;;
  ttl_set serializer as_bytes (scoped key) response (Some ttl) [] None now2 now2.

(** ** The block *)

(** [_Block.__aenter__]: the look before the lock and the one under it. *)
Definition block_enter (key : string) (fingerprint : option string) (n1 n2 n3 n4 : Q) :
    cache_py Operation :=
  r ← replay key fingerprint n1 n2;
  match r with
  | Some v => mret (replayed v)
  | None =>
      r ← replay key fingerprint n3 n4;
      match r with
      | Some v => mret (replayed v)
      | None => mret first_execution
      end
  end.

(** [_Block.__aexit__]; [raised] when an exception leaves the block. *)
Definition block_exit (key : string) (fingerprint : option string) (ttl : Q) (o : Operation)
    (raised : bool) (now1 now2 : Q) : cache_py unit :=
  match op_stored o with
  | Some v =>
      if raised || op_replayed o then mret tt else persist key v fingerprint ttl now1 now2
  | None => mret tt
  end.

(** [run], for a factory that ends with [result]; [n5] and [n6] are the
    readings of [_persist]. *)
Definition idempotent_run (key : string) (result : outcome exn T) (fingerprint : option string) (ttl : Q)
    (n1 n2 n3 n4 n5 n6 : Q) : cache_py (option T) :=
  o ← block_enter key fingerprint n1 n2 n3 n4;
  if op_replayed o then
    block_exit key fingerprint ttl o false n5 n6;; lift (op_result o)
  else
    match result with
    | Raise e => block_exit key fingerprint ttl o true n5 n6;; py_raise e
    | Return v =>
        block_exit key fingerprint ttl (op_store v o) false n5 n6;; mret (Some v)
    end.

(** ** Replays *)

Lemma fingerprint_value_ne key : fingerprint_key key <> value_key (scoped key).
Proof. by apply string_app_ne. Qed.

Context {RC : ReliableCache B}.
Hypothesis round_trip_ok : forall v raw,
  serialize serializer as_bytes v = Return raw -> deserialize serializer of_bytes raw = Return v.

Lemma ttl_get_found key now c b raw v :
  look (value_key key) now b = Some raw -> deserialize serializer of_bytes raw = Return v ->
  exists c' b', ttl_get serializer of_bytes key now (c, b) = (Return (Some v), (c', b')) /\
    forall t k, (now <= t)%Q -> seen t (cb_entry b' k) = seen t (cb_entry b k).
Proof.
  intros Hl Hd. unfold ttl_get.
  destruct (get_step (value_key key) now c b) as (b' & E & Hb). rewrite Hl in E.
  eexists _, b'. split; [|exact Hb]. erewrite bind_step by exact E. cbv beta iota.
  erewrite bind_step by done. cbv beta. erewrite bind_step by (unfold lift; by rewrite Hd). done.
Qed.

Lemma ttl_get_absent key now c b :
  look (value_key key) now b = None ->
  exists c' b', ttl_get serializer of_bytes key now (c, b) = (Return None, (c', b')) /\
    tc_maxsize c' = tc_maxsize c /\ forall t k, (now <= t)%Q -> seen t (cb_entry b' k) = seen t (cb_entry b k).
Proof.
  intros Hl. unfold ttl_get.
  destruct (get_step (value_key key) now c b) as (b' & E & Hb). rewrite Hl in E.
  exists (count_miss c), b'. split; [|by split].
  erewrite bind_step by exact E. cbv beta iota. by erewrite bind_step by done.
Qed.

Lemma replay_absent key fp now1 now2 c b :
  look (value_key (scoped key)) now1 b = None ->
  exists c' b', replay key fp now1 now2 (c, b) = (Return None, (c', b')) /\
    tc_maxsize c' = tc_maxsize c /\ forall t k, (now1 <= t)%Q -> seen t (cb_entry b' k) = seen t (cb_entry b k).
Proof.
  intros Hl. unfold replay. destruct (ttl_get_absent (scoped key) now1 c b Hl) as (c' & b' & E & Hm & Hb).
  exists c', b'. split; [|done]. by erewrite bind_step by exact E.
Qed.

(** What the fingerprints say. *)
Definition checked (key : string) (fp : option string) (saved : option bytes) (v : T) :
    outcome exn (option T) :=
  match fp, saved with
  | Some f, Some raw => if decide (decode raw <> f) then Raise (conflict key) else Return (Some v)
  | _, _ => Return (Some v)
  end.

Lemma replay_found key fp now1 now2 c b raw v :
  (now1 <= now2)%Q -> look (value_key (scoped key)) now1 b = Some raw ->
  deserialize serializer of_bytes raw = Return v ->
  exists s, replay key fp now1 now2 (c, b) = (checked key fp (look (fingerprint_key key) now2 b) v, s).
Proof.
  intros Hn Hl Hd. unfold replay.
  destruct (ttl_get_found (scoped key) now1 c b raw v Hl Hd) as (c' & b' & E & Hb).
  erewrite bind_step by exact E. cbv beta iota. unfold checked.
  destruct fp as [f|]; [|by eexists].
  destruct (get_step (fingerprint_key key) now2 c' b') as (b2 & E2 & _).
  erewrite bind_step by exact E2. cbv beta.
  assert (look (fingerprint_key key) now2 b' = look (fingerprint_key key) now2 b) as ->
    by (unfold look, seen_value; by rewrite Hb).
  destruct (look (fingerprint_key key) now2 b) as [r|]; [|by eexists].
  case_decide; by eexists.
Qed.

(** What a first execution leaves in the store. *)
Lemma persist_entries key v fp ttl now1 now2 c b s :
  persist key v fp ttl now1 now2 (c, b) = (Return tt, s) ->
  exists raw, serialize serializer as_bytes v = Return raw /\
    cb_entry s.2 (value_key (scoped key)) = Some (mkEntry raw (now2 + ttl) ∅) /\
    (tc_maxsize c = 0 -> forall f, fp = Some f ->
       cb_entry s.2 (fingerprint_key key) = Some (mkEntry (encode f) (now1 + (ttl + 1)) ∅)).
Proof.
  intros H. unfold persist in H. apply seq_returns in H as ([] & s1 & H1 & H2).
  assert (exists b1, s1 = (c, b1) /\ forall f, fp = Some f ->
    cb_entry b1 (fingerprint_key key) = Some (mkEntry (encode f) (now1 + (ttl + 1)) ∅)) as (b1 & -> & Hf).
  { destruct fp as [f|].
    - apply call_store_returns in H1 as (b1 & H1 & ->). exists b1. split; [done|]. intros f' [= <-].
      pose proof (cb_set_law (fingerprint_key key) (encode f) (ttl + 1) [] now1 b) as Hl.
      rewrite H1 in Hl. destruct Hl as [_ Hl]. by apply Hl.
    - injection H1 as <-. by exists b. }
  apply ttl_set_returns in H2 as (raw & b2 & b3 & b4 & ks & _ & _ & Er & Hev & Hset & -> & _ & ->).
  exists raw. split; [done|]. cbn [snd].
  pose proof (cb_set_law (value_key (scoped key)) raw ttl [] now2 b2) as Hl.
  cbn in Hset. rewrite Hset in Hl. destruct Hl as [Hl1 Hl2]. split; [by apply Hl2|].
  intros Hm f Hfp. rewrite Hl1 by apply fingerprint_value_ne.
  unfold room in Hev. rewrite Hm in Hev. cbn in Hev. rewrite take_0 in Hev.
  inversion Hev; subst. by apply Hf.
Qed.

(** A stored response is replayed: after a first execution that returned [v], every [run]
    of the key within the TTL of the response returns [v], whatever its factory
    would do, unless its fingerprint differs from the stored one: then it
    raises the conflict (as long as the stored fingerprint, written first with
    a TTL one second longer, is still there). *)
Lemma response_replayed key v fp ttl n1 n2 n3 n4 n5 n6 c b c' b' :
  tc_maxsize c = 0 ->
  look (value_key (scoped key)) n1 b = None -> (n1 <= n3)%Q ->
  idempotent_run key (Return v) fp ttl n1 n2 n3 n4 n5 n6 (c, b) = (Return (Some v), (c', b')) ->
  forall result fp' ttl' m1 m2 m3 m4 m5 m6,
    (m1 <= m2)%Q -> (m1 < n6 + ttl)%Q ->
    let again := (idempotent_run key result fp' ttl' m1 m2 m3 m4 m5 m6 (c', b')).1 in
    (fp' = None -> again = Return (Some v)) /\
    (forall f f', fp = Some f -> fp' = Some f' -> (m2 < n5 + ttl + 1)%Q ->
       again = if decide (f = f') then Return (Some v) else Raise (conflict key)).
Proof.
  intros Hm0 Hl H13 Hrun result fp' ttl' m1 m2 m3 m4 m5 m6 Hm Ht again.
  unfold idempotent_run in Hrun. apply bind_returns in Hrun as (o & s0 & He & Hrun).
  assert (exists c0 b0, o = first_execution /\ s0 = (c0, b0) /\ tc_maxsize c0 = 0)
    as (c0 & b0 & -> & -> & Hm0').
  { unfold block_enter in He.
    destruct (replay_absent key fp n1 n2 c b Hl) as (c1 & b1 & E1 & M1 & Hb1).
    erewrite bind_step in He by exact E1. cbv beta iota in He.
    assert (Hl3 : look (value_key (scoped key)) n3 b1 = None).
    { unfold look, seen_value. rewrite Hb1 by done. by apply (look_later _ n1). }
    destruct (replay_absent key fp n3 n4 c1 b1 Hl3) as (c2 & b2 & E2 & M2 & _).
    erewrite bind_step in He by exact E2. injection He as <- <-.
    exists c2, b2. split_and!; [done|done|congruence]. }
  cbn [op_replayed first_execution] in Hrun.
  apply seq_returns in Hrun as ([] & s1 & Hp & Hrun). injection Hrun as ->.
  unfold block_exit in Hp. cbn in Hp.
  destruct (persist_entries key v fp ttl n5 n6 c0 b0 _ Hp) as (raw & Er & He1 & Hf1).
  cbn [snd] in He1, Hf1.
  assert (Hlook : look (value_key (scoped key)) m1 b' = Some raw).
  { unfold look, seen_value, seen, entry_live. rewrite He1. cbn.
    by destruct (Qlt_bool_spec m1 (n6 + ttl)); [|lra]. }
  destruct (replay_found key fp' m1 m2 c' b' raw v Hm Hlook (round_trip_ok v raw Er)) as [s2 E2].
  assert (Hagain : again = checked key fp' (look (fingerprint_key key) m2 b') v).
  { unfold again, idempotent_run, block_enter.
    match goal with |- ((?m ≫= ?k) ?s).1 = _ => change ((m ≫= k) s) with (py_bind m k s) end.
    unfold py_bind at 1.
    match goal with |- context [(?m ≫= ?k) ?s] => change ((m ≫= k) s) with (py_bind m k s) end.
    unfold py_bind at 1. rewrite E2. unfold checked.
    destruct fp' as [f'|]; [|done]. destruct (look (fingerprint_key key) m2 b') as [r|]; [|done].
    by case_decide. }
  rewrite Hagain. split; [by intros ->|].
  intros f f' -> -> Hm2. unfold checked.
  assert (look (fingerprint_key key) m2 b' = Some (encode f)) as ->.
  { unfold look, seen_value, seen, entry_live. rewrite (Hf1 Hm0' f eq_refl). cbn.
    by destruct (Qlt_bool_spec m2 (n5 + (ttl + 1))); [|lra]. }
  rewrite decode_encode. by repeat case_decide.
Qed.

(** A failure stores nothing: a [run] whose factory raises propagates the error and
    leaves what every later look at the store finds unchanged, so a retry runs
    fresh. *)
Lemma failure_stores_nothing key e fp ttl n1 n2 n3 n4 n5 n6 c b :
  look (value_key (scoped key)) n1 b = None -> (n1 <= n3)%Q ->
  exists c' b',
    idempotent_run key (Raise e) fp ttl n1 n2 n3 n4 n5 n6 (c, b) = (Raise e, (c', b')) /\
    forall t k, (n3 <= t)%Q -> seen t (cb_entry b' k) = seen t (cb_entry b k).
Proof.
  intros Hl H13. unfold idempotent_run, block_enter.
  destruct (replay_absent key fp n1 n2 c b Hl) as (c1 & b1 & E1 & M1 & Hb1).
  assert (Hl3 : look (value_key (scoped key)) n3 b1 = None).
  { unfold look, seen_value. rewrite Hb1 by done. by apply (look_later _ n1). }
  destruct (replay_absent key fp n3 n4 c1 b1 Hl3) as (c2 & b2 & E2 & M2 & Hb2).
  exists c2, b2. split.
  - erewrite bind_step; [|erewrite bind_step by exact E1; cbv beta iota;
      erewrite bind_step by exact E2; done]. cbn [op_replayed first_execution].
    by erewrite bind_step by done.
  - intros t k Ht. rewrite Hb2 by done. apply Hb1. lra.
Qed.

End Idempotency.

(** ** Concrete runs *)

Definition pay (key : string) (result : outcome exn bytes) (fp : option string) (ttl t1 t2 : Q) :
    py (TTLCache * cache_store) exn (option bytes) :=
  idempotent_run None (fun v => Some v) (fun v => v) "pay" key result fp ttl t1 t1 t1 t1 t1 t2.

Definition empty_cache : TTLCache * cache_store := (new_ttl_cache 0 60, new_store).

Lemma response_replayed_witness :
  let s := after (pay "k" (Return byte_a) (Some "f") 10 0 0) empty_cache in
  (pay "k" (Raise cache_boom) (Some "f") 10 5 5 s).1 = Return (Some byte_a) /\
  (pay "k" (Raise cache_boom) (Some "g") 10 5 5 s).1 = Raise (conflict "pay" "k").
Proof.
  intros s.
  assert (Hs : pay "k" (Return byte_a) (Some "f") 10 0 0 empty_cache = (Return (Some byte_a), (s.1, s.2)))
    by done.
  assert (Hr : forall v raw : bytes, serialize None (fun v => Some v) v = Return raw ->
    deserialize None (fun v => v) raw = Return v) by (by intros v raw [= ->]).
  pose proof (response_replayed None (fun v => Some v) (fun v => v) "pay" Hr "k" byte_a (Some "f") 10
    0 0 0 0 0 0 empty_cache.1 empty_cache.2 s.1 s.2 eq_refl eq_refl (Qle_refl 0) Hs (Raise cache_boom))
    as H.
  split.
  - destruct (H (Some "f") 10 5 5 5 5 5 5)%Q as [_ H2]; [lra|lra|]. apply (H2 "f" "f"); [done|done|lra].
  - destruct (H (Some "g") 10 5 5 5 5 5 5)%Q as [_ H2]; [lra|lra|]. apply (H2 "f" "g"); [done|done|lra].
Defined.

Lemma failure_stores_nothing_witness :
  (pay "k" (Raise cache_boom) None 10 0 0 empty_cache).1 = Raise cache_boom.
Proof.
  destruct (failure_stores_nothing (RC := memory_cache_reliable) None (fun v => Some v) (fun v => v)
    "pay" "k" cache_boom None 10 0 0 0 0 0 0 empty_cache.1 empty_cache.2) as (c' & b' & H & _);
    [by vm_compute|lra|].
  unfold pay. change empty_cache with (empty_cache.1, empty_cache.2). by rewrite H.
Defined.

(** The fingerprint is written first with one second more: when the response is
    written later than that, it outlives its check. *)
Lemma response_outlives_its_fingerprint :
  let s := after (pay "k" (Return byte_a) (Some "f") 10 0 2) empty_cache in
  (pay "k" (Raise cache_boom) (Some "g") 10 10.5 10.5 s).1 = Raise (conflict "pay" "k") /\
  (pay "k" (Raise cache_boom) (Some "g") 10 11.5 11.5 s).1 = Return (Some byte_a).
Proof. by vm_compute. Qed.
