(* ===== verification/RateLimiter.v ===== *)
(** * The rate limiter object

    [grelmicro/resilience/ratelimiter/__init__.py]: [RateLimiter], the object
    the application calls.  It holds a snapshot of its configuration with the
    strategy bound to it, and calls that strategy; what a backend is to it is
    the class [LimiterRuntime], which the memory adapter of [RateLimitMemory]
    implements.  Other tasks act while a call awaits: what they do to the
    backend and to the limiter itself (a [reconfigure]) is part of what
    [strategy_acquire] and [sleep] do to the world. *)

From S2P Require Import Prelude Errors RateLimitMemory Backoff.

Local Open Scope Q_scope.

(** [_MIN_POLL_INTERVAL] *)
Definition MIN_POLL_INTERVAL : Q := 5 # 1000.

(** [_State]: the configuration and, once it is resolved, its strategy. *)
Record LimiterState (S : Type) : Type := mkLimiterState {
  ls_config : RateLimiterConfig;
  ls_strategy : option S;
}.
Arguments mkLimiterState {S}.
Arguments ls_config {S}.
Arguments ls_strategy {S}.

(** The attributes of a limiter that change: [_config] and [_state]. *)
Record RateLimiter (S : Type) : Type := mkRateLimiter {
  rl_config : RateLimiterConfig;
  rl_state : LimiterState S;
}.
Arguments mkRateLimiter {S}.
Arguments rl_config {S}.
Arguments rl_state {S}.

(** What the limiter asks of its environment ([RateLimiterBackend] and
    [RateLimiterStrategy] of [resilience/_protocol.py]): resolving the backend
    and binding a configuration to it (which raises outside of an
    application), the operations of a strategy, and the limiter object itself
    as the other tasks leave it.  Time does not run backwards. *)
Class LimiterRuntime (W : Type) `{Runtime W} := {
  Strategy : Type;
  backend_bind : RateLimiterConfig -> py W exn Strategy;
  strategy_acquire : Strategy -> string -> Z -> py W exn RateLimitResult;
  strategy_peek : Strategy -> string -> py W exn RateLimitResult;
  strategy_reset : Strategy -> string -> py W exn unit;
  limiter_of : W -> RateLimiter Strategy;
  set_limiter : RateLimiter Strategy -> W -> W;
  bind_monotonic c w : monotonic w <= monotonic (backend_bind c w).2;
  acquire_monotonic s k n w : monotonic w <= monotonic (strategy_acquire s k n w).2;
  set_limiter_monotonic l w : monotonic (set_limiter l w) = monotonic w;
}.

(** ** The module's functions *)

(** [_config_limit] *)
Definition config_limit (c : RateLimiterConfig) : Z :=
  match c with
  | TokenBucket c => capacity c
  | SlidingWindow c => sw_limit c
  end.

(** [config.fail_open] *)
Definition fail_open (c : RateLimiterConfig) : bool :=
  match c with
  | TokenBucket c => tb_fail_open c
  | SlidingWindow c => sw_fail_open c
  end.

(** [_build_fallback] *)
Definition build_fallback (c : RateLimiterConfig) : RateLimitResult :=
  mkResult true (config_limit c) (config_limit c) 0 0.

(** [_validate_cost] *)
Definition validate_cost (cost limit : Z) : outcome exn unit :=
  if (cost <? 1)%Z || (limit <? cost)%Z
  then Raise (mk_exn ValueError (Message "cost"))
  else Return tt.

(** [type(a) is type(b)] and [a == b] on configurations. *)
Definition same_kind (a b : RateLimiterConfig) : bool :=
  match a, b with
  | TokenBucket _, TokenBucket _ | SlidingWindow _, SlidingWindow _ => true
  | _, _ => false
  end.

Definition limiter_config_eqb (a b : RateLimiterConfig) : bool :=
  match a, b with
  | TokenBucket a, TokenBucket b =>
      (capacity a =? capacity b)%Z && Qeq_bool (refill_rate a) (refill_rate b) &&
      Bool.eqb (tb_fail_open a) (tb_fail_open b)
  | SlidingWindow a, SlidingWindow b =>
      (sw_limit a =? sw_limit b)%Z && Qeq_bool (window a) (window b) &&
      Bool.eqb (sw_fail_open a) (sw_fail_open b)
  | _, _ => false
  end.

(** [__init__] and [_setup]. *)
Definition limiter_init {S} (c : RateLimiterConfig) : RateLimiter S :=
  mkRateLimiter c (mkLimiterState c None).

(** [_full_key] *)
Definition full_key (name key : string) : string := name ++ ":" ++ key.

Section Limiter.
Context {W : Type} `{LimiterRuntime W} (name : string).

(** ** The operations *)

(** [_resolve_strategy]: the bound strategy is published for the next call. *)
Definition bind_strategy (state : LimiterState Strategy) : py W exn Strategy := fun w =>
  match backend_bind (ls_config state) w with
  | (Raise e, w) => (Raise e, w)
  | (Return s, w) =>
      (Return s, set_limiter (mkRateLimiter (rl_config (limiter_of w))
                                (mkLimiterState (ls_config state) (Some s))) w)
  end.

(** [state.strategy or self._resolve_strategy(state)] *)
Definition current_strategy (state : LimiterState Strategy) : py W exn Strategy :=
  match ls_strategy state with
  | Some s => py_ret s
  | None => bind_strategy state
  end.

(** [except Exception: if fail_open: return fallback; raise] *)
Definition failing_open {A} (c : RateLimiterConfig) (fallback : A) (m : py W exn A) :
    py W exn A :=
  py_try m is_exception (fun e => if fail_open c then py_ret fallback else py_raise e).

(** [acquire] *)
Definition limiter_acquire (key : string) (cost : Z) : py W exn RateLimitResult := fun w =>
  let state := rl_state (limiter_of w) in
  let config := ls_config state in
  match validate_cost cost (config_limit config) with
  | Raise e => (Raise e, w)
  | Return _ =>
      py_bind (current_strategy state) (fun strategy =>
        failing_open config (build_fallback config)
          (strategy_acquire strategy (full_key name key) cost)) w
  end.

(** The error of [acquire_or_raise] and of [wait]. *)
Definition rate_exceeded (key : string) (r : RateLimitResult) : exn :=
  mk_exn RateLimitExceededError (RateInfo key (retry_after r)).

(** [acquire_or_raise] *)
Definition acquire_or_raise (key : string) (cost : Z) : py W exn RateLimitResult :=
  py_bind (limiter_acquire key cost) (fun r =>
    if allowed r then py_ret r else py_raise (rate_exceeded key r)).

(** [allow] *)
Definition allow (key : string) (cost : Z) : py W exn bool :=
  py_bind (limiter_acquire key cost) (fun r => py_ret (allowed r)).

(** [peek] *)
Definition limiter_peek (key : string) : py W exn RateLimitResult := fun w =>
  let state := rl_state (limiter_of w) in
  py_bind (current_strategy state) (fun strategy =>
    failing_open (ls_config state) (build_fallback (ls_config state))
      (strategy_peek strategy (full_key name key))) w.

(** [reset] *)
Definition limiter_reset (key : string) : py W exn unit := fun w =>
  let state := rl_state (limiter_of w) in
  py_bind (current_strategy state) (fun strategy =>
    failing_open (ls_config state) tt (strategy_reset strategy (full_key name key))) w.

(** The test of [wait] against its deadline, after a refused attempt. *)
Definition wait_expired (deadline : option Q) (delay now : Q) : bool :=
  match deadline with
  | None => false
  | Some deadline =>
      let remaining := deadline - now in (remaining <=? 0)%py || (delay >? remaining)%py
  end.

(** The loop of [wait]; [None]: still waiting after [fuel] attempts. *)
Fixpoint wait_loop (fuel : nat) (key : string) (cost : Z) (deadline : option Q) (w : W) :
    option (outcome exn RateLimitResult * W) :=
  match fuel with
  | O => None
  | S fuel =>
      match limiter_acquire key cost w with
      | (Raise e, w) => Some (Raise e, w)
      | (Return result, w) =>
          if allowed result then Some (Return result, w)
          else
            let delay := retry_after result in
            if wait_expired deadline delay (monotonic w)
            then Some (Raise (rate_exceeded key result), w)
            else wait_loop fuel key cost deadline (sleep (py_max delay MIN_POLL_INTERVAL) w)
      end
  end.

(** [wait] *)
Definition limiter_wait (fuel : nat) (key : string) (cost : Z) (max_wait : option Q) (w : W) :
    option (outcome exn RateLimitResult * W) :=
  match validate_cost cost (config_limit (ls_config (rl_state (limiter_of w)))) with
  | Raise e => Some (Raise e, w)
  | Return _ =>
      wait_loop fuel key cost
        (match max_wait with None => None | Some m => Some (monotonic w + m) end) w
  end.

(** [reconfigure] with [_apply_reconfigure]: the strategy is bound again by the
    next call.  Nothing in it awaits, so its lock is never contended. *)
Definition limiter_reconfigure (c : RateLimiterConfig) : py W exn unit := fun w =>
  let current := rl_config (limiter_of w) in
  if negb (same_kind c current) then (Raise (mk_exn TypeError (Message "reconfigure")), w)
  else if limiter_config_eqb c current then (Return tt, w)
  else (Return tt, set_limiter (mkRateLimiter c (mkLimiterState c None)) w).

(** ** What an acquisition does *)

Lemma current_strategy_monotonic state w : monotonic w <= monotonic (current_strategy state w).2.
Proof.
  unfold current_strategy, bind_strategy. case_match; [apply Qle_refl|].
  pose proof (bind_monotonic (ls_config state) w).
  destruct (backend_bind _ w) as [[s|e] w1]; simpl in *; [|done].
  by rewrite set_limiter_monotonic.
Qed.

Lemma failing_open_state {A} c (x : A) m w : (failing_open c x m w).2 = (m w).2.
Proof.
  unfold failing_open, py_try. destruct (m w) as [[a|e] w1]; [done|].
  destruct (is_exception e); [|done]. by destruct (fail_open c).
Qed.

Lemma limiter_acquire_monotonic key cost w :
  monotonic w <= monotonic (limiter_acquire key cost w).2.
Proof.
  unfold limiter_acquire. destruct (validate_cost _ _); [|apply Qle_refl]. unfold py_bind.
  pose proof (current_strategy_monotonic (rl_state (limiter_of w)) w) as Hs.
  destruct (current_strategy _ w) as [[s|e] w1]; [|done]. rewrite failing_open_state.
  eapply Qle_trans; [exact Hs|]. apply acquire_monotonic.
Qed.

(** A poll that is refused moves the clock by one interval at least. *)
Lemma poll_progress key cost w w1 r :
  limiter_acquire key cost w = (r, w1) ->
  forall d, monotonic w + MIN_POLL_INTERVAL <= monotonic (sleep (py_max d MIN_POLL_INTERVAL) w1).
Proof.
  intros E d. pose proof (limiter_acquire_monotonic key cost w) as Hm. rewrite E in Hm.
  simpl in Hm. pose proof (sleep_monotonic (py_max d MIN_POLL_INTERVAL) w1).
  destruct (py_max_cases d MIN_POLL_INTERVAL) as [[? Em]|[? Em]]; rewrite Em in *; lra.
Qed.

(** What ended a wait at [w'], with its deadline. *)
Definition wait_verdict (key : string) (cost : Z) (deadline : Q)
    (r : outcome exn RateLimitResult) (w' : W) : Prop :=
  match r with
  | Return res => allowed res = true
  | Raise e =>
      (exists w1, limiter_acquire key cost w1 = (Raise e, w')) \/
      (exists w1 res, limiter_acquire key cost w1 = (Return res, w') /\
         allowed res = false /\ e = rate_exceeded key res /\
         (deadline <= monotonic w' \/ deadline < monotonic w' + retry_after res))
  end.

Lemma wait_expired_spec deadline delay now :
  BoolSpec (deadline <= now \/ deadline < now + delay)
    (now < deadline /\ now + delay <= deadline) (wait_expired (Some deadline) delay now).
Proof.
  unfold wait_expired. destruct (Qle_bool_spec (deadline - now) 0); simpl.
  - constructor. left. lra.
  - destruct (Qlt_bool_spec (deadline - now) delay); constructor; [right|split]; lra.
Qed.

Lemma wait_loop_ends fuel key cost deadline w :
  deadline - monotonic w <= inject_Z (Z.of_nat fuel) * MIN_POLL_INTERVAL ->
  exists r w', wait_loop (S fuel) key cost (Some deadline) w = Some (r, w') /\
    wait_verdict key cost deadline r w'.
Proof.
  revert w. induction fuel as [|fuel IH]; intros w Hf; cbn [wait_loop].
  all: destruct (limiter_acquire key cost w) as [[res|e] w1] eqn:E;
    [|eexists _, _; split; [done|]; left; by eexists].
  all: destruct (allowed res) eqn:Ha; [by eexists _, _|].
  all: pose proof (limiter_acquire_monotonic key cost w) as Hm; rewrite E in Hm; simpl in Hm.
  all: destruct (wait_expired_spec deadline (retry_after res) (monotonic w1)) as [G|[G _]];
    [eexists _, _; split; [done|]; right; exists w, res; split_and!; done|].
  - change (inject_Z (Z.of_nat 0)) with 0 in Hf. lra.
  - apply IH. pose proof (poll_progress _ _ _ _ _ E (retry_after res)) as Hp.
    rewrite Nat2Z.inj_succ in Hf. unfold Z.succ in Hf. rewrite inject_Z_plus in Hf.
    change (inject_Z 1) with 1 in Hf. unfold MIN_POLL_INTERVAL in *. lra.
Qed.

(** The attempts a wait of at most [m] seconds can make. *)
Definition wait_fuel (m : Q) : nat := S (Z.to_nat (Qceiling (m / MIN_POLL_INTERVAL))).

Lemma wait_fuel_enough m :
  m <= inject_Z (Z.of_nat (Z.to_nat (Qceiling (m / MIN_POLL_INTERVAL)))) * MIN_POLL_INTERVAL.
Proof.
  apply Qdiv_le_iff; [done|]. eapply Qle_trans; [apply Qle_ceiling|]. rewrite <- inject_Z_le. lia.
Qed.
End Limiter.

(** ** Over the memory adapter

    A limiter with a [MemoryRateLimiterAdapter], alone in its process, on a
    clock that only sleeping moves (the virtual clock of the tests). *)

Record MemoryWorld : Type := mkMemoryWorld {
  mw_now : Q;
  mw_adapter : MemoryRateLimiterAdapter;
  mw_limiter : RateLimiter RateLimiterConfig;
}.

#[local] Obligation Tactic := idtac.

#[export] Program Instance memory_runtime : Runtime MemoryWorld := {
  monotonic := mw_now;
  sleep d w := mkMemoryWorld (mw_now w + d) (mw_adapter w) (mw_limiter w);
  random w := (0, w);
}.
Next Obligation. intros d w. apply Qle_refl. Qed.
Next Obligation. intros w. apply Qle_refl. Qed.
Next Obligation. by intros w. Qed.

#[export] Program Instance memory_limiter : LimiterRuntime MemoryWorld := {
  Strategy := RateLimiterConfig;
  backend_bind c w := (Return c, w);
  strategy_acquire c key cost w :=
    let '(r, a) := bind_acquire c key cost (mw_now w) (mw_adapter w) in
    (Return r, mkMemoryWorld (mw_now w) a (mw_limiter w));
  strategy_peek c key w := (Return (bind_peek c key (mw_now w) (mw_adapter w)), w);
  strategy_reset c key w :=
    (Return tt, mkMemoryWorld (mw_now w) (bind_reset c key (mw_adapter w)) (mw_limiter w));
  limiter_of := mw_limiter;
  set_limiter l w := mkMemoryWorld (mw_now w) (mw_adapter w) l;
}.
Next Obligation. intros c w. apply Qle_refl. Qed.
Next Obligation. intros c k n w. simpl. destruct (bind_acquire _ _ _ _ _). apply Qle_refl. Qed.
Next Obligation. done. Qed.

(** A strategy that was bound is that of the configuration. *)
Definition strategy_current (w : MemoryWorld) : Prop :=
  let s := rl_state (mw_limiter w) in
  ls_strategy s = None \/ ls_strategy s = Some (ls_config s).

(** The maps hold what the strategies write, at instants that have passed. *)
Definition adapter_wf (c : RateLimiterConfig) (now : Q) (a : MemoryRateLimiterAdapter) : Prop :=
  match c with
  | TokenBucket c => bucket_wf (tb_cap c) now (token_bucket_state a)
  | SlidingWindow _ => True
  end.

Lemma validate_cost_spec cost limit :
  ((1 <= cost <= limit)%Z /\ validate_cost cost limit = Return tt) \/
  (~ (1 <= cost <= limit)%Z /\ validate_cost cost limit = Raise (mk_exn ValueError (Message "cost"))).
Proof.
  unfold validate_cost.
  destruct (Z.ltb_spec cost 1), (Z.ltb_spec limit cost); simpl; (left + right); split; try done; lia.
Qed.

Section Memory.
Context (name : string).
Implicit Types (w : MemoryWorld) (c : RateLimiterConfig).

Lemma validate_ok cost limit :
  (1 <= cost <= limit)%Z -> validate_cost cost limit = Return tt.
Proof.
  intros [H1 H2]. unfold validate_cost.
  by rewrite (proj2 (Z.ltb_ge _ _) H1), (proj2 (Z.ltb_ge _ _) H2).
Qed.

(** One acquisition is one step of the strategy on the full key. *)
Lemma memory_acquire key cost c l w :
  mw_limiter w = l -> ls_config (rl_state l) = c -> strategy_current w ->
  (1 <= cost <= config_limit c)%Z ->
  limiter_acquire name key cost w =
    (Return (bind_acquire c (full_key name key) cost (mw_now w) (mw_adapter w)).1,
     mkMemoryWorld (mw_now w)
       (bind_acquire c (full_key name key) cost (mw_now w) (mw_adapter w)).2
       (mkRateLimiter (rl_config l) (mkLimiterState c (Some c)))).
Proof.
  intros Hl <- Hs Hcost. destruct w as [now a l']. simpl in Hl. subst l'.
  destruct l as [cf [c o]]. unfold strategy_current in Hs. simpl in Hs, Hcost.
  unfold limiter_acquire. simpl. rewrite (validate_ok _ _ Hcost).
  unfold current_strategy, bind_strategy, py_bind, failing_open, py_try. simpl.
  destruct Hs as [-> | ->]; simpl; by destruct (bind_acquire _ _ _ _ _).
Qed.

(** After a refusal, and once [retry_after] has passed, the same request is
    admitted. *)
Lemma bind_retry c key cost now now' a :
  config_valid c -> adapter_wf c now a -> (1 <= cost <= config_limit c)%Z ->
  allowed (bind_acquire c key cost now a).1 = false ->
  now + retry_after (bind_acquire c key cost now a).1 <= now' -> now <= now' ->
  allowed (bind_acquire c key cost now' (bind_acquire c key cost now a).2).1 = true.
Proof.
  destruct c as [c|c]; simpl; intros Hc Hwf Hcost.
  - pose proof (fun H1 H2 => tb_retry_after_exact c key cost now now' _ Hc Hwf Hcost H1 H2) as Hx.
    destruct (tb_acquire c key cost now _) as [r st] eqn:E. simpl in *.
    destruct (tb_acquire c key cost now' st) as [r' st'] eqn:E'. simpl in *.
    intros Hd Hr Hle. by apply Hx.
  - pose proof (gcra_denied_retry c Hc key cost now now' (gcra_state a)) as Hx.
    destruct (gcra_acquire c key cost now _) as [r st] eqn:E. simpl in *.
    pose proof (gcra_acquire_quota c Hc key cost now' st) as [Ha _].
    destruct (gcra_acquire c key cost now' st) as [r' st'] eqn:E'. simpl in *.
    intros Hd Hr Hle. rewrite Ha. apply Z.leb_le. apply Hx; auto. lia.
Qed.
End Memory.

(** ** What the limiter promises *)

(** The three ways a request without a result ends: the cost is out of range and
    nothing was touched, no backend could be bound, or the backend failed and
    the limiter is not to hide it. *)
Definition acquire_failure {W} `{LimiterRuntime W} (name key : string) (cost : Z)
    (w : W) (e : exn) (w' : W) : Prop :=
  let state := rl_state (limiter_of w) in
  (~ (1 <= cost <= config_limit (ls_config state))%Z /\ isinstance e ValueError = true /\ w' = w) \/
  ((1 <= cost <= config_limit (ls_config state))%Z /\
   (current_strategy state w = (Raise e, w') \/
    exists s w1, current_strategy state w = (Return s, w1) /\
      strategy_acquire s (full_key name key) cost w1 = (Raise e, w') /\
      (fail_open (ls_config state) = false \/ is_exception e = false))).

(** A request is decided by the backend alone, unless the backend fails.
    With [fail_open] a backend that raises an [Exception] admits the request
    with the nominal quota; the error surfaces without it, and so does whatever
    is not an [Exception] (a cancellation), an error in resolving the backend
    and a cost outside [1 .. limit], which touches neither the backend nor the
    limiter. *)
Lemma acquire_outcome {W} `{LimiterRuntime W} (name key : string) (cost : Z) (w : W) :
  let state := rl_state (limiter_of w) in
  match limiter_acquire name key cost w with
  | (Return r, w') =>
      (1 <= cost <= config_limit (ls_config state))%Z /\
      exists s w1, current_strategy state w = (Return s, w1) /\
        (strategy_acquire s (full_key name key) cost w1 = (Return r, w') \/
         exists e, strategy_acquire s (full_key name key) cost w1 = (Raise e, w') /\
           is_exception e = true /\ fail_open (ls_config state) = true /\
           r = build_fallback (ls_config state))
  | (Raise e, w') => acquire_failure name key cost w e w'
  end.
Proof.
  intros state. unfold limiter_acquire. fold state.
  destruct (validate_cost_spec cost (config_limit (ls_config state))) as [[Hc ->]|[Hc ->]];
    [|left; by repeat split].
  unfold py_bind. destruct (current_strategy state w) as [[s|e] w1] eqn:Es; [|right; split; auto].
  unfold failing_open, py_try.
  destruct (strategy_acquire s _ _ w1) as [[r|e] w2] eqn:Ea.
  - split; [done|]. eexists _, _. split; [done|]. by left.
  - destruct (is_exception e) eqn:Ee; [destruct (fail_open (ls_config state)) eqn:Ef|]; simpl.
    + split; [done|]. eexists _, _. split; [done|]. right. by eexists.
    + right. split; [done|]. right. exists s, w1. auto.
    + right. split; [done|]. right. exists s, w1. auto.
Qed.

(** A wait with a budget always ends, within one attempt per poll interval of
    its budget and one more.  It returns only an admitted result; it raises what
    an attempt raised, or [RateLimitExceededError] carrying the last
    [retry_after], and that only when the budget is spent or would be before
    the next attempt could be admitted. *)
Lemma wait_ends_in_time {W} `{LimiterRuntime W} (name key : string) (cost : Z) (m : Q) (w : W) :
  exists r w', limiter_wait name (wait_fuel m) key cost (Some m) w = Some (r, w') /\
    ((exists e, r = Raise e /\ acquire_failure name key cost w e w') \/
     wait_verdict name key cost (monotonic w + m) r w').
Proof.
  unfold limiter_wait, wait_fuel.
  destruct (validate_cost_spec cost (config_limit (ls_config (rl_state (limiter_of w))))) as [[Hc ->]|[Hc ->]].
  - destruct (wait_loop_ends name (Z.to_nat (Qceiling (m / MIN_POLL_INTERVAL))) key cost
                (monotonic w + m) w) as (r & w' & E & Hv).
    + pose proof (wait_fuel_enough m). lra.
    + exists r, w'. auto.
  - eexists _, _. split; [done|]. left. eexists. split; [done|]. left. by repeat split.
Qed.

(** The budget covers the announced time. *)
Definition fits (max_wait : option Q) (delay : Q) : bool :=
  match max_wait with
  | None => true
  | Some m => (0 <? m)%py && (delay <=? m)%py
  end.

Lemma wait_expired_fits max_wait delay now :
  wait_expired (match max_wait with None => None | Some m => Some (now + m) end) delay now =
  negb (fits max_wait delay).
Proof.
  destruct max_wait as [m|]; [|done].
  destruct (wait_expired_spec (now + m) delay now); simpl; symmetry;
    destruct (Qlt_bool_spec 0 m), (Qle_bool_spec delay m); simpl; lra || done.
Qed.

(** What [wait] does over the memory adapter, with the result of its first
    attempt and its delay. *)
Definition memory_wait_spec (name key : string) (cost : Z) (max_wait : option Q)
    (w : MemoryWorld) (r : outcome exn RateLimitResult) (w' : MemoryWorld) : Prop :=
  let c := ls_config (rl_state (mw_limiter w)) in
  let first := (bind_acquire c (full_key name key) cost (mw_now w) (mw_adapter w)).1 in
  let delay := py_max (retry_after first) MIN_POLL_INTERVAL in
  if allowed first then r = Return first /\ mw_now w' = mw_now w
  else if fits max_wait (retry_after first)
  then (exists second, r = Return second /\ allowed second = true) /\ mw_now w' = mw_now w + delay
  else r = Raise (rate_exceeded key first) /\ mw_now w' = mw_now w.

(** C7 With the memory adapter and nobody else on the key, [wait] needs no more
    than two attempts for either algorithm: it returns at once when the quota is
    there; otherwise it sleeps exactly the announced [retry_after] (or the poll
    interval, when that is longer) and is then admitted, whatever the cost; and
    when the announced time does not fit in [max_wait] it raises at once,
    without sleeping. *)
Theorem memory_wait (name key : string) (cost : Z) (max_wait : option Q) (w : MemoryWorld) :
  let c := ls_config (rl_state (mw_limiter w)) in
  config_valid c -> adapter_wf c (mw_now w) (mw_adapter w) -> strategy_current w ->
  (1 <= cost <= config_limit c)%Z ->
  exists r w', limiter_wait name 2 key cost max_wait w = Some (r, w') /\
    memory_wait_spec name key cost max_wait w r w'.
Proof.
  intros c Hc Hwf Hs Hcost. unfold limiter_wait, memory_wait_spec. fold c.
  change (limiter_of w) with (mw_limiter w). fold c. rewrite validate_ok by done. cbn [wait_loop].
  rewrite (memory_acquire name key cost c _ w eq_refl eq_refl Hs Hcost). cbv beta iota.
  pose proof (bind_retry c (full_key name key) cost (mw_now w)
    (mw_now w + py_max (retry_after (bind_acquire c (full_key name key) cost (mw_now w)
       (mw_adapter w)).1) MIN_POLL_INTERVAL) (mw_adapter w) Hc Hwf Hcost) as Hr.
  destruct (bind_acquire c _ cost _ _) as [first a] eqn:E. cbn [fst snd] in *.
  destruct (allowed first) eqn:Ha; [by eexists _, _|]. specialize (Hr eq_refl).
  assert (allowed (bind_acquire c (full_key name key) cost
    (mw_now w + py_max (retry_after first) MIN_POLL_INTERVAL) a).1 = true) as Hr'.
  { apply Hr; destruct (py_max_cases (retry_after first) MIN_POLL_INTERVAL) as [[? Em]|[? Em]];
      rewrite Em; unfold MIN_POLL_INTERVAL in *; lra. }
  set (w1 := sleep _ _).
  assert (limiter_acquire name key cost w1 = (Return _, _)) as E1
    by exact (memory_acquire name key cost c _ w1 eq_refl eq_refl (or_intror eq_refl) Hcost).
  change (monotonic w) with (mw_now w).
  change (monotonic (mkMemoryWorld (mw_now w) a _)) with (mw_now w). rewrite wait_expired_fits.
  destruct (fits max_wait (retry_after first)); cbn [negb]; [|by eexists _, _].
  rewrite E1. cbv beta iota.
  change (mw_now w1) with (mw_now w + py_max (retry_after first) MIN_POLL_INTERVAL).
  change (mw_adapter w1) with a. rewrite Hr'. eexists _, _. split; [done|]. split; [|done].
  by eexists.
Qed.

(** The configurations of the examples. *)
Definition limiter_demo (c : RateLimiterConfig) : MemoryWorld :=
  mkMemoryWorld 0 adapter_init (limiter_init c).

Definition demo_limiter : MemoryWorld := limiter_demo (TokenBucket cfg_tb).

(** The limiter after three requests: its bucket of three is empty. *)
Definition spent_limiter : MemoryWorld :=
  mkMemoryWorld 0 (mkAdapter {[ "api:alice" := (0, 0) ]} ∅)
    (mkRateLimiter (TokenBucket cfg_tb)
       (mkLimiterState (TokenBucket cfg_tb) (Some (TokenBucket cfg_tb)))).

Example spent_limiter_reached :
  (limiter_acquire "api" "alice" 3 demo_limiter).2 = spent_limiter.
Proof. by vm_compute. Qed.

(** The next request waits for the two seconds one token takes, or gives up at
    once with a budget of one. *)
Lemma memory_wait_witness :
  (exists r w', limiter_wait "api" 2 "alice" 1 None spent_limiter = Some (Return r, w') /\
     allowed r = true /\ mw_now w' == 2) /\
  (exists x w', limiter_wait "api" 2 "alice" 1 (Some 1) spent_limiter =
       Some (Raise (mk_exn RateLimitExceededError (RateInfo "alice" x)), w') /\
     x == 2 /\ mw_now w' == 0).
Proof.
  assert (forall m, exists r w', limiter_wait "api" 2 "alice" 1 m spent_limiter = Some (r, w') /\
    memory_wait_spec "api" "alice" 1 m spent_limiter r w') as Hx.
  { intros m. apply memory_wait.
    - apply cfg_tb_valid.
    - apply map_Forall_singleton. repeat split; done.
    - by right.
    - done. }
  split.
  - destruct (Hx None) as (r & w' & E & [(second & -> & Hs) Hn]). exists second, w'.
    split; [done|]. split; [done|]. rewrite Hn. by vm_compute.
  - destruct (Hx (Some 1)) as (r & w' & E & [-> Hn]). eexists _, w'. split; [exact E|].
    split; [by vm_compute|]. by rewrite Hn.
Defined.

(** A [reconfigure] that returns leaves the new configuration, and the next call
    binds it: nothing of the old strategy is used again. *)
Lemma reconfigure_rebinds {W} `{LimiterRuntime W} (c : RateLimiterConfig) (w : W) :
  (forall l w, limiter_of (set_limiter l w) = l) ->
  (limiter_reconfigure c w).1 = Return tt ->
  limiter_config_eqb c (rl_config (limiter_of w)) = false ->
  rl_state (limiter_of (limiter_reconfigure c w).2) = mkLimiterState c None.
Proof.
  intros Hset. unfold limiter_reconfigure.
  destruct (same_kind _ _); [|done]. simpl. intros _ ->. simpl. by rewrite Hset.
Qed.

(** The name of a limiter does not separate its keys from those of a limiter
    whose name continues it: the two draw from one bucket. *)
Lemma names_share_a_bucket :
  full_key "api" "v1:alice" = full_key "api:v1" "alice" /\
  let w := (limiter_acquire "api" "v1:alice" 3 demo_limiter).2 in
  let other := mkMemoryWorld (mw_now w) (mw_adapter w) (limiter_init (TokenBucket cfg_tb)) in
  (allow "api:v1" "alice" 1 demo_limiter).1 = Return true /\
  (allow "api:v1" "alice" 1 other).1 = Return false.
Proof. by vm_compute. Qed.
