(* ===== verification/ShieldParts.v ===== *)
(** * The parts of a shield

    [grelmicro/resilience/shield/]: [_retry_budget.py], the budget of retries all
    calls of a shield share; [_timeout_estimator.py], the timeout of an attempt
    from the latencies of the last successes; [_adaptive_gate.py], a token bucket
    whose rate follows the CUBIC curve once a call was slow.  The asyncio locks
    of the parts are held across no [await], so every operation is one step. *)

From S2P Require Import Prelude Errors.
From stdpp Require Import sorting.

Local Open Scope Q_scope.

(** ** [_RetryBudget] *)

Record RetryBudget : Type := mkBudget {
  rb_capacity : Z;
  rb_available : Z;
}.

(** [__init__] *)
Definition budget_init (capacity : Z) : outcome exn RetryBudget :=
  if (capacity <=? 0)%Z then Raise (mk_exn ValueError (Message "capacity"))
  else Return (mkBudget capacity capacity).

(** [try_acquire] *)
Definition budget_acquire (b : RetryBudget) : bool * RetryBudget :=
  if (rb_available b <=? 0)%Z then (false, b)
  else (true, mkBudget (rb_capacity b) (rb_available b - 1)).

(** [refund] *)
Definition budget_refund (amount : Z) (b : RetryBudget) : RetryBudget :=
  if (amount <=? 0)%Z then b
  else mkBudget (rb_capacity b) (Z.min (rb_capacity b) (rb_available b + amount)).

Inductive budget_op : Type := BAcquire | BRefund (amount : Z).

Definition budget_exec (o : budget_op) (b : RetryBudget) : bool * RetryBudget :=
  match o with
  | BAcquire => budget_acquire b
  | BRefund n => (false, budget_refund n b)
  end.

Definition budget_wf (b : RetryBudget) : Prop := (0 <= rb_available b <= rb_capacity b)%Z.

(** Tokens that a run granted, and that it gave back. *)
Fixpoint granted (rs : list bool) : Z :=
  match rs with [] => 0 | r :: rs => (if r then 1 else 0) + granted rs end.
Fixpoint refunded (ops : list budget_op) : Z :=
  match ops with
  | [] => 0
  | BRefund n :: ops => Z.max 0 n + refunded ops
  | BAcquire :: ops => refunded ops
  end.

Lemma budget_exec_step o b :
  budget_wf b ->
  let '(r, b') := budget_exec o b in
  budget_wf b' /\ rb_capacity b' = rb_capacity b /\
  (rb_available b' + (if r then 1 else 0) <= rb_available b + refunded [o])%Z.
Proof.
  unfold budget_wf. destruct o as [|n]; simpl.
  - unfold budget_acquire. destruct (Z.leb_spec (rb_available b) 0); simpl; lia.
  - unfold budget_refund. destruct (Z.leb_spec n 0); simpl; lia.
Qed.

(** Over any run the retries granted are bounded by what was there and what came
    back. *)
Lemma budget_run ops b :
  budget_wf b ->
  let '(rs, b') := run budget_exec ops b in
  budget_wf b' /\ rb_capacity b' = rb_capacity b /\
  (rb_available b' + granted rs <= rb_available b + refunded ops)%Z.
Proof.
  revert b. induction ops as [|o ops IH]; intros b Hb; simpl; [split; [done|]; split; [done|]; lia|].
  pose proof (budget_exec_step o b Hb) as Hs. destruct (budget_exec o b) as [r b1].
  destruct Hs as (Hb1 & Hc & Hg). specialize (IH b1 Hb1).
  destruct (run budget_exec ops b1) as [rs b2]. destruct IH as (Hb2 & Hc2 & Hg2).
  split; [done|]. split; [congruence|]. simpl in *. destruct o, r; simpl in *; lia.
Qed.

(** ** [_TimeoutEstimator] *)

(** [_WINDOW] and [_P95_MULTIPLIER] *)
Definition WINDOW : nat := 32.
Definition P95_MULTIPLIER : Q := 5 # 2.

Record TimeoutEstimator : Type := mkEstimator {
  te_initial : Q;
  te_min : Q;
  te_max : Q;
  te_buffer : list Q;
  te_index : nat;
  te_count : nat;
}.

(** [__init__] *)
Definition estimator_init (initial_timeout clamp_min clamp_max : Q) :
    outcome exn TimeoutEstimator :=
  if (clamp_min <=? 0)%py || (clamp_max <=? 0)%py
  then Raise (mk_exn ValueError (Message "clamp bounds"))
  else if (clamp_min >? clamp_max)%py then Raise (mk_exn ValueError (Message "clamp_min"))
  else Return (mkEstimator initial_timeout clamp_min clamp_max (replicate WINDOW 0) 0 0).

(** [record]; a rational is always finite. *)
Definition record_latency (latency : Q) (e : TimeoutEstimator) : TimeoutEstimator :=
  if (latency <? 0)%py then e
  else mkEstimator (te_initial e) (te_min e) (te_max e)
         (<[te_index e := latency]> (te_buffer e))
         ((te_index e + 1) mod WINDOW)
         (if (te_count e <? WINDOW)%nat then S (te_count e) else te_count e).

(** [_clamp] *)
Definition clamp (e : TimeoutEstimator) (value : Q) : Q :=
  if (value <? te_min e)%py then te_min e
  else if (value >? te_max e)%py then te_max e
  else value.

#[export] Instance Qle_dec : RelDecision Qle.
Proof. intros x y. destruct (Qlt_le_dec y x); [right|left]; lra. Defined.

#[export] Instance Qle_total : Total Qle.
Proof. intros x y. destruct (Qlt_le_dec x y); [left|right]; lra. Qed.

#[export] Instance Qle_transitive : Transitive Qle.
Proof. intros x y z. apply Qle_trans. Qed.

(** The index [estimate] reads in the sorted samples: [ceil(0.95 * n) - 1], kept
    within the list. *)
Definition p95_rank (n : nat) : nat :=
  let rank := Z.max 0 (Qceiling ((95 # 100) * inject_Z (Z.of_nat n)) - 1) in
  Z.to_nat (Z.min rank (Z.of_nat n - 1)).

(** [estimate] *)
Definition estimate (e : TimeoutEstimator) : Q :=
  match te_count e with
  | O => clamp e (te_initial e)
  | _ =>
      let samples := merge_sort Qle (take (te_count e) (te_buffer e)) in
      let p95 := nth (p95_rank (te_count e)) samples 0 in
      clamp e (p95 * P95_MULTIPLIER)
  end.

(** ** [_AdaptiveGate] *)

(** [_CUBIC_C], [_CUBIC_BETA], [_MEASURED_RATE_CLAMP], [_MEASURED_WINDOW] and
    [_MIN_MEASURED_SAMPLES] *)
Definition CUBIC_C : Q := 4 # 10.
Definition CUBIC_BETA : Q := 7 # 10.
Definition MEASURED_RATE_CLAMP : Q := 3 # 2.
Definition MEASURED_WINDOW : nat := 8.
Definition MIN_MEASURED_SAMPLES : nat := 2.

Record AdaptiveGate : Type := mkGate {
  g_initial_max_rate : Q;
  g_max_rate : Q;
  g_capacity : Q;
  g_min_rate_floor : Q;
  g_max_rate_cap : option Q;
  g_tokens : Q;
  g_updated_at : Q;
  g_enabled : bool;
  g_w_max : Q;
  g_k : Q;
  g_last_fail : Q;
  g_send_window : list Q;
}.

(** [__init__]; [now] is the reading of the clock. *)
Definition gate_init (initial_max_rate capacity min_rate_floor : Q) (max_rate_cap : option Q)
    (now : Q) : outcome exn AdaptiveGate :=
  if (initial_max_rate <=? 0)%py then Raise (mk_exn ValueError (Message "initial_max_rate"))
  else if (capacity <=? 0)%py then Raise (mk_exn ValueError (Message "capacity"))
  else if (min_rate_floor <=? 0)%py then Raise (mk_exn ValueError (Message "min_rate_floor"))
  else if match max_rate_cap with Some c => (c <? min_rate_floor)%py | None => false end
  then Raise (mk_exn ValueError (Message "max_rate_cap"))
  else Return (mkGate initial_max_rate initial_max_rate capacity min_rate_floor max_rate_cap
                 0 now false initial_max_rate 0 now []).

(** Updating the attributes an operation assigns. *)
Definition set_tokens (tokens updated_at : Q) (g : AdaptiveGate) : AdaptiveGate :=
  mkGate (g_initial_max_rate g) (g_max_rate g) (g_capacity g) (g_min_rate_floor g)
    (g_max_rate_cap g) tokens updated_at (g_enabled g) (g_w_max g) (g_k g) (g_last_fail g)
    (g_send_window g).
Definition set_rate (max_rate : Q) (g : AdaptiveGate) : AdaptiveGate :=
  mkGate (g_initial_max_rate g) max_rate (g_capacity g) (g_min_rate_floor g)
    (g_max_rate_cap g) (g_tokens g) (g_updated_at g) (g_enabled g) (g_w_max g) (g_k g)
    (g_last_fail g) (g_send_window g).
Definition set_cubic (w_max k last_fail : Q) (g : AdaptiveGate) : AdaptiveGate :=
  mkGate (g_initial_max_rate g) (g_max_rate g) (g_capacity g) (g_min_rate_floor g)
    (g_max_rate_cap g) (g_tokens g) (g_updated_at g) (g_enabled g) w_max k last_fail
    (g_send_window g).
Definition enable (g : AdaptiveGate) : AdaptiveGate :=
  mkGate (g_initial_max_rate g) (g_max_rate g) (g_capacity g) (g_min_rate_floor g)
    (g_max_rate_cap g) (g_tokens g) (g_updated_at g) true (g_w_max g) (g_k g) (g_last_fail g)
    (g_send_window g).

(** [self._send_window.append(now)] on a [deque(maxlen=_MEASURED_WINDOW)]: the
    oldest element leaves a full one. *)
Definition note_sent (now : Q) (g : AdaptiveGate) : AdaptiveGate :=
  let ws := g_send_window g ++ [now] in
  mkGate (g_initial_max_rate g) (g_max_rate g) (g_capacity g) (g_min_rate_floor g)
    (g_max_rate_cap g) (g_tokens g) (g_updated_at g) (g_enabled g) (g_w_max g) (g_k g)
    (g_last_fail g) (drop (length ws - MEASURED_WINDOW) ws).

(** [measured_rate]; [None] is [math.inf]. *)
Definition measured_rate (g : AdaptiveGate) : option Q :=
  let ws := g_send_window g in
  if (length ws <? MIN_MEASURED_SAMPLES)%nat then None
  else
    let elapsed := List.last ws 0 - nth 0 ws 0 in
    if (elapsed <=? 0)%py then None
    else Some (inject_Z (Z.of_nat (length ws) - 1) / elapsed).

(** [_refill] *)
Definition gate_refill (now : Q) (g : AdaptiveGate) : AdaptiveGate :=
  let elapsed := now - g_updated_at g in
  if (elapsed >? 0)%py
  then set_tokens (py_min (g_capacity g) (g_tokens g + elapsed * g_max_rate g)) now g
  else g.

(** One turn of [acquire]: [None] when the call may go, otherwise the seconds it
    sleeps before the next turn. *)
Definition gate_try (now : Q) (g : AdaptiveGate) : option Q * AdaptiveGate :=
  if negb (g_enabled g) then (None, note_sent now g)
  else
    let g := gate_refill now g in
    if (g_tokens g >=? 1)%py
    then (None, note_sent now (set_tokens (g_tokens g - 1) (g_updated_at g) g))
    else (Some ((1 - g_tokens g) / g_max_rate g), g).

(** The clamp of [_apply_rate]. *)
Definition clamp_rate (candidate : Q) (g : AdaptiveGate) : Q :=
  let ceiling := match measured_rate g with
                 | Some m => py_min candidate (MEASURED_RATE_CLAMP * m)
                 | None => candidate
                 end in
  let ceiling := match g_max_rate_cap g with
                 | Some c => py_min ceiling c
                 | None => ceiling
                 end in
  py_max (g_min_rate_floor g) ceiling.

(** [_apply_rate] *)
Definition apply_rate (candidate now : Q) (g : AdaptiveGate) : AdaptiveGate :=
  let new_rate := clamp_rate candidate g in
  set_rate new_rate (gate_refill now g).

(** The CUBIC curve: the candidate rate [offset] seconds after the inflection. *)
Definition cubic (w_max offset : Q) : Q := CUBIC_C * (offset * offset * offset) + w_max.

(** [on_success] *)
Definition gate_success (now : Q) (g : AdaptiveGate) : AdaptiveGate :=
  if negb (g_enabled g) then g
  else apply_rate (cubic (g_w_max g) (now - g_last_fail g - g_k g)) now g.

(** [on_slow_down].  [cube_root] is the power of exponent [1/3], a function of
    the C library whose results are not rational: no theorem depends on it. *)
Definition gate_slow_down (cube_root : Q -> Q) (now : Q) (g : AdaptiveGate) : AdaptiveGate :=
  let g := if g_enabled g then g else set_tokens 0 now (enable g) in
  let w_max := g_max_rate g in
  let k := cube_root ((w_max * (1 - CUBIC_BETA)) / CUBIC_C) in
  apply_rate (g_max_rate g * CUBIC_BETA) now (set_cubic w_max k now g).

(** ** The estimator is the percentile of the last latencies *)

(** The latencies [record] keeps. *)
Definition kept_latencies (ls : list Q) : list Q := filter (fun l => 0 <= l) ls.

(** The last [WINDOW] of them. *)
Definition recent (ls : list Q) : list Q := drop (length ls - WINDOW) ls.

(** How many samples are at most [v]. *)
Definition at_most (v : Q) (xs : list Q) : nat := length (filter (fun x => x <= v) xs).

(** [v] is the nearest-rank 95th percentile: the smallest value such that 95% of
    the samples do not exceed it. *)
Definition is_p95 (xs : list Q) (v : Q) : Prop :=
  v ∈ xs /\
  (95 # 100) * inject_Z (Z.of_nat (length xs)) <= inject_Z (Z.of_nat (at_most v xs)) /\
  forall w, w < v ->
    inject_Z (Z.of_nat (at_most w xs)) < (95 # 100) * inject_Z (Z.of_nat (length xs)).

Lemma filter_all {A} (P : A -> Prop) `{forall x, Decision (P x)} l :
  Forall P l -> filter P l = l.
Proof. induction 1; [done|]. rewrite filter_cons_True by done. by f_equal. Qed.

Lemma filter_none {A} (P : A -> Prop) `{forall x, Decision (P x)} l :
  Forall (fun x => ~ P x) l -> filter P l = [].
Proof. induction 1; [done|]. by rewrite filter_cons_False. Qed.

Lemma p95_rank_spec n :
  (0 < n)%nat ->
  (p95_rank n < n)%nat /\
  inject_Z (Z.of_nat (p95_rank n)) < (95 # 100) * inject_Z (Z.of_nat n) <=
  inject_Z (Z.of_nat (S (p95_rank n))).
Proof.
  intros Hn. unfold p95_rank. set (x := (95 # 100) * inject_Z (Z.of_nat n)).
  pose proof (proj1 (inject_Z_pos (Z.of_nat n)) ltac:(lia)) as Hn'.
  assert (0 < x) as Hx by (unfold x; lra).
  assert (1 <= Qceiling x <= Z.of_nat n)%Z as [H1 H2].
  { split.
    - enough (0 < Qceiling x)%Z by lia. rewrite inject_Z_lt.
      pose proof (Qle_ceiling x). change (inject_Z 0) with 0. lra.
    - rewrite <- (Qceiling_Z (Z.of_nat n)). apply Qceiling_resp_le. unfold x. lra. }
  rewrite Z.max_r, Z.min_l by lia. split; [lia|]. rewrite Nat2Z.inj_succ, Z2Nat.id by lia.
  split.
  - pose proof (Qceiling_lt x). lra.
  - replace (Z.succ (Qceiling x - 1)) with (Qceiling x) by lia. apply Qle_ceiling.
Qed.

Lemma sorted_prefix (s : list Q) r v :
  StronglySorted Qle s -> s !! r = Some v ->
  Forall (fun x => x <= v) (take (S r) s) /\ Forall (fun x => v <= x) (drop r s).
Proof.
  intros Hs Hv. split.
  - rewrite (take_S_r _ _ _ Hv). apply Forall_app. split; [|by apply Forall_singleton, Qle_refl].
    apply Forall_forall. intros x Hx.
    rewrite <- (take_drop r s) in Hs.
    eapply StronglySorted_app_1_elem_of; [exact Hs|done|].
    rewrite (drop_S _ _ _ Hv). by left.
  - rewrite (drop_S _ _ _ Hv). rewrite <- (take_drop r s), (drop_S _ _ _ Hv) in Hs.
    apply StronglySorted_app_1_r, StronglySorted_cons in Hs as [Hs _].
    apply Forall_cons. split; [apply Qle_refl|done].
Qed.

Lemma at_most_perm v xs ys : xs ≡ₚ ys -> at_most v xs = at_most v ys.
Proof. intros Hp. unfold at_most. by rewrite Hp. Qed.

Lemma is_p95_perm xs ys v : xs ≡ₚ ys -> is_p95 xs v -> is_p95 ys v.
Proof.
  intros Hp (Hin & H95 & Hmin). pose proof (Permutation_length Hp) as Hl.
  split; [by rewrite <- Hp|]. rewrite <- Hl. split; [by rewrite <- (at_most_perm _ _ _ Hp)|].
  intros w Hw. rewrite <- (at_most_perm _ _ _ Hp). by apply Hmin.
Qed.

Lemma sorted_p95 xs :
  (0 < length xs)%nat ->
  is_p95 xs (nth (p95_rank (length xs)) (merge_sort Qle xs) 0).
Proof.
  intros Hn. pose proof (merge_sort_Permutation Qle xs) as Hp.
  pose proof (StronglySorted_merge_sort Qle xs) as Hs. set (s := merge_sort Qle xs) in *.
  assert (length s = length xs) as Hl by (by rewrite Hp).
  destruct (p95_rank_spec _ Hn) as (Hr & Hlo & Hhi). set (r := p95_rank (length xs)) in *.
  destruct (lookup_lt_is_Some_2 s r ltac:(lia)) as [v Hv].
  rewrite (nth_lookup_Some _ _ _ _ Hv). destruct (sorted_prefix s r v Hs Hv) as [Hle Hge].
  split; [rewrite <- Hp; by eapply list_elem_of_lookup_2|]. split.
  - eapply Qle_trans; [exact Hhi|]. rewrite <- inject_Z_le. apply inj_le.
    rewrite <- (at_most_perm v _ _ Hp). unfold at_most. rewrite <- (take_drop (S r) s).
    rewrite filter_app, length_app, (filter_all _ _ Hle), length_take. lia.
  - intros w Hw. eapply Qle_lt_trans; [|exact Hlo]. rewrite <- inject_Z_le. apply inj_le.
    rewrite <- (at_most_perm w _ _ Hp). unfold at_most. rewrite <- (take_drop r s).
    rewrite filter_app, length_app, (filter_none _ (drop r s)).
    + pose proof (length_filter (fun x => x <= w) (take r s)). rewrite length_take in *. simpl. lia.
    + eapply Forall_impl; [exact Hge|]. intros x Hx. simpl in *. lra.
Qed.

(** The ring holds the last latencies: read from the write position on when it
    is full, up to the write position before. *)
Record ring_of (ls : list Q) (e : TimeoutEstimator) : Prop := {
  ring_length : length (te_buffer e) = WINDOW;
  ring_count : te_count e = Nat.min (length ls) WINDOW;
  ring_index : te_index e = length ls mod WINDOW;
  ring_filling : (length ls < WINDOW)%nat -> take (length ls) (te_buffer e) = ls;
  ring_full : (WINDOW <= length ls)%nat ->
    drop (te_index e) (te_buffer e) ++ take (te_index e) (te_buffer e) = recent ls;
}.

Lemma recent_short ls : (length ls <= WINDOW)%nat -> recent ls = ls.
Proof. intros H. unfold recent. by replace (length ls - WINDOW)%nat with 0%nat by lia. Qed.

Lemma recent_snoc ls l :
  (WINDOW <= length ls)%nat -> recent (ls ++ [l]) = drop 1 (recent ls) ++ [l].
Proof.
  intros H. unfold recent. rewrite length_app, drop_drop. cbn [length].
  replace (length ls + 1 - WINDOW)%nat with (length ls - WINDOW + 1)%nat by lia.
  apply drop_app_le. unfold WINDOW in *. lia.
Qed.

Lemma ring_init i lo hi : ring_of [] (mkEstimator i lo hi (replicate WINDOW 0) 0 0).
Proof. by split; [..|simpl; unfold WINDOW; lia]. Qed.

(** Writing at the write position of a full ring drops its oldest element. *)
Lemma rotate_insert (b : list Q) i l :
  (i < length b)%nat ->
  drop (S i) (<[i:=l]> b) ++ take (S i) (<[i:=l]> b) =
  drop 1 (drop i b ++ take i b) ++ [l].
Proof.
  intros Hi. destruct (lookup_lt_is_Some_2 b i Hi) as [x Hx].
  rewrite drop_insert_lt by lia. rewrite (take_S_r _ _ l) by (by apply list_lookup_insert_eq).
  rewrite take_insert_ge by done. rewrite (drop_S _ _ _ Hx). simpl. by rewrite drop_0, app_assoc.
Qed.

Lemma mod_succ_wrap n : ((n mod WINDOW + 1)%nat mod WINDOW)%nat = S n mod WINDOW.
Proof. rewrite Nat.Div0.add_mod_idemp_l. f_equal. lia. Qed.

Lemma ring_record ls e l :
  ring_of ls e -> 0 <= l -> ring_of (ls ++ [l]) (record_latency l e).
Proof.
  intros [Hlen Hcnt Hidx Hfill Hfull] Hl. unfold record_latency.
  destruct (Qlt_bool_spec l 0) as [|_]; [lra|].
  assert (te_index e < WINDOW)%nat as Hi
    by (rewrite Hidx; apply Nat.mod_upper_bound; unfold WINDOW; lia).
  split; cbn [te_buffer te_count te_index]; rewrite ?length_app; cbn [length].
  - by rewrite length_insert.
  - destruct (Nat.ltb_spec (te_count e) WINDOW); unfold WINDOW in *; lia.
  - rewrite Hidx, mod_succ_wrap. f_equal. lia.
  - intros Hlt. rewrite Nat.add_1_r in *. rewrite Hidx, Nat.mod_small by lia.
    rewrite (take_S_r _ _ l) by (apply list_lookup_insert_eq; lia).
    by rewrite take_insert_ge, Hfill by lia.
  - intros Hge. destruct (Nat.eq_dec (length ls + 1)%nat WINDOW) as [E|NE].
    + assert (length ls = 31)%nat as E' by (unfold WINDOW in E; lia).
      rewrite recent_short by (rewrite length_app; simpl; lia).
      rewrite E' in Hidx. change (31 mod WINDOW) with 31%nat in Hidx. rewrite Hidx.
      change ((31 + 1)%nat mod WINDOW) with 0%nat. rewrite drop_0, take_0, app_nil_r.
      rewrite <- (firstn_all (<[_:=_]> _)), length_insert, Hlen.
      change WINDOW with (S 31). rewrite (take_S_r _ _ l) by (apply list_lookup_insert_eq; rewrite Hlen; unfold WINDOW; lia).
      rewrite take_insert_ge by lia. rewrite <- E'. by rewrite Hfill by (unfold WINDOW; lia).
    + rewrite recent_snoc by lia. rewrite <- Hfull by lia.
      destruct (Nat.eq_dec (S (te_index e)) WINDOW) as [Ew|Nw].
      * replace ((te_index e + 1)%nat mod WINDOW) with 0%nat by (rewrite Nat.add_1_r, Ew; done).
        rewrite drop_0, take_0, app_nil_r, <- (rotate_insert _ _ l) by lia.
        rewrite Ew, <- Hlen, <- (length_insert (te_buffer e) (te_index e) l).
        by rewrite drop_all, firstn_all.
      * rewrite Nat.add_1_r, Nat.mod_small by lia. by apply rotate_insert; lia.
Qed.

Lemma ring_records ls ls0 e :
  ring_of ls0 e ->
  ring_of (ls0 ++ kept_latencies ls) (foldl (fun e l => record_latency l e) e ls).
Proof.
  revert ls0 e. induction ls as [|l ls IH]; intros ls0 e He; simpl; [by rewrite app_nil_r|].
  unfold kept_latencies. rewrite filter_cons. case_decide as Hd.
  - rewrite cons_middle, app_assoc. apply IH. by apply ring_record.
  - unfold record_latency. destruct (Qlt_bool_spec l 0); [|done]. by apply IH.
Qed.

Lemma ring_samples ls e : ring_of ls e -> take (te_count e) (te_buffer e) ≡ₚ recent ls.
Proof.
  intros [Hlen Hcnt Hidx Hfill Hfull]. destruct (Nat.lt_ge_cases (length ls) WINDOW) as [H|H].
  - rewrite Hcnt, Nat.min_l by lia. rewrite Hfill by done. by rewrite recent_short by lia.
  - rewrite Hcnt, Nat.min_r by lia. rewrite <- Hlen, firstn_all, <- Hfull by done.
    rewrite Permutation_app_comm. by rewrite take_drop.
Qed.

Lemma record_params ls e :
  let e' := foldl (fun e l => record_latency l e) e ls in
  te_initial e' = te_initial e /\ te_min e' = te_min e /\ te_max e' = te_max e.
Proof.
  revert e. induction ls as [|l ls IH]; intros e; [done|]. simpl.
  destruct (IH (record_latency l e)) as (-> & -> & ->). unfold record_latency. by case_match.
Qed.

Lemma clamp_bounds e v : te_min e <= te_max e -> te_min e <= clamp e v <= te_max e.
Proof. intros H. unfold clamp. qcases. Qed.

(** The timeout of the next attempt depends on the last 32 successful
    latencies and on nothing else: it is 2.5 times their 95th percentile (the
    smallest sample that at least 95% of them do not exceed), or the initial
    timeout as long as there are none, brought into the configured range.
    Negative latencies are not recorded. *)
Lemma estimate_is_p95 (initial lo hi : Q) (e : TimeoutEstimator) (ls : list Q) :
  estimator_init initial lo hi = Return e ->
  let e' := foldl (fun e l => record_latency l e) e ls in
  lo <= estimate e' <= hi /\
  match recent (kept_latencies ls) with
  | [] => estimate e' = clamp e initial
  | xs => exists v, is_p95 xs v /\ estimate e' = clamp e (v * P95_MULTIPLIER)
  end.
Proof.
  unfold estimator_init. destruct (_ || _); [done|].
  destruct (Qlt_bool_spec hi lo) as [|Hle]; [done|]. intros [= <-].
  set (e := mkEstimator _ _ _ _ _ _). set (e' := foldl _ e ls).
  destruct (record_params ls e : te_initial e' = _ /\ te_min e' = _ /\ te_max e' = _)
    as (Hi & Hlo & Hhi).
  assert (forall v, clamp e' v = clamp e v) as Hcl by (intros v; unfold clamp; by rewrite Hlo, Hhi).
  split.
  { unfold estimate. case_match; rewrite Hcl; by apply (clamp_bounds e). }
  pose proof (ring_records ls [] e (ring_init initial lo hi) : ring_of (kept_latencies ls) e') as Hr.
  pose proof (ring_samples _ _ Hr) as Hs. unfold estimate.
  assert (te_count e' = length (recent (kept_latencies ls))) as Hc.
  { rewrite <- Hs, length_take, (ring_length _ _ Hr), (ring_count _ _ Hr). lia. }
  rewrite Hc in Hs |- *. destruct (recent (kept_latencies ls)) as [|x xs] eqn:E.
  - simpl. rewrite Hcl. by rewrite Hi.
  - cbn [length]. change (S (length xs)) with (length (x :: xs)).
    set (s := take (length (x :: xs)) (te_buffer e')) in *.
    assert (length s = length (x :: xs)) as Hl by (by rewrite Hs).
    rewrite <- Hl. eexists. split; [|rewrite Hcl; reflexivity].
    apply (is_p95_perm s); [done|]. apply sorted_p95. rewrite Hl. simpl. lia.
Qed.

(** ** The gate *)

(** The construction's conditions, and the ranges of what changes. *)
Record gate_wf (g : AdaptiveGate) : Prop := {
  gate_capacity_pos : 0 < g_capacity g;
  gate_floor_pos : 0 < g_min_rate_floor g;
  gate_cap_floor : forall c, g_max_rate_cap g = Some c -> g_min_rate_floor g <= c;
  gate_rate_pos : 0 < g_max_rate g;
  gate_tokens : 0 <= g_tokens g <= g_capacity g;
}.

(** The rate of an engaged gate is between the floor and the cap.  It is from
    the first slow-down on: the initial rate knows neither. *)
Definition rate_in_range (g : AdaptiveGate) : Prop :=
  g_min_rate_floor g <= g_max_rate g /\
  forall c, g_max_rate_cap g = Some c -> g_max_rate g <= c.

Lemma clamp_rate_range candidate g :
  gate_wf g ->
  g_min_rate_floor g <= clamp_rate candidate g /\
  forall c, g_max_rate_cap g = Some c -> clamp_rate candidate g <= c.
Proof.
  intros Hg. pose proof (gate_cap_floor g Hg) as Hc. unfold clamp_rate.
  split; [destruct (g_max_rate_cap g), (measured_rate g); qcases|].
  intros c Ec. specialize (Hc c Ec). rewrite Ec. destruct (measured_rate g); qcases.
Qed.

Lemma clamp_rate_candidate candidate g :
  clamp_rate candidate g <= py_max (g_min_rate_floor g) candidate.
Proof. unfold clamp_rate. destruct (g_max_rate_cap g), (measured_rate g); qcases. Qed.

Lemma gate_refill_fixed now g :
  g_capacity (gate_refill now g) = g_capacity g /\
  g_min_rate_floor (gate_refill now g) = g_min_rate_floor g /\
  g_max_rate_cap (gate_refill now g) = g_max_rate_cap g /\
  g_max_rate (gate_refill now g) = g_max_rate g /\
  g_enabled (gate_refill now g) = g_enabled g /\
  g_send_window (gate_refill now g) = g_send_window g.
Proof. unfold gate_refill. by destruct (_ >? _)%py. Qed.

Lemma gate_refill_wf now g : gate_wf g -> gate_wf (gate_refill now g).
Proof.
  intros Hg. pose proof (gate_refill_fixed now g) as (E1 & E2 & E3 & E4 & _ & _).
  destruct Hg. split; rewrite ?E1, ?E2, ?E3, ?E4; try done.
  unfold gate_refill. qcase1; [|done]. simpl.
  assert (0 <= (now - g_updated_at g) * g_max_rate g) by (apply Qmult_le_0_compat; lra).
  qcases.
Qed.

Lemma apply_rate_wf candidate now g :
  gate_wf g -> gate_wf (apply_rate candidate now g) /\ rate_in_range (apply_rate candidate now g).
Proof.
  intros Hg. destruct (clamp_rate_range candidate g Hg) as [Hf Hc].
  pose proof (gate_refill_fixed now g) as (E1 & E2 & E3 & E4 & _ & _).
  pose proof (gate_floor_pos g Hg).
  pose proof (gate_refill_wf now g Hg) as Hr. destruct Hr. unfold apply_rate, rate_in_range.
  split; [split|]; simpl; rewrite ?E1, ?E2, ?E3 in *; try done; lra.
Qed.

Section Gate.
Context (cube_root : Q -> Q).

Inductive gate_op : Type := GTry (now : Q) | GSuccess (now : Q) | GSlow (now : Q).

Definition op_now (o : gate_op) : Q :=
  match o with GTry t | GSuccess t | GSlow t => t end.

(** One operation; a try reports whether the call may go. *)
Definition gate_exec (o : gate_op) (g : AdaptiveGate) : bool * AdaptiveGate :=
  match o with
  | GTry now => let '(d, g) := gate_try now g in (match d with None => true | _ => false end, g)
  | GSuccess now => (false, gate_success now g)
  | GSlow now => (false, gate_slow_down cube_root now g)
  end.

(** A healthy gate: its ranges, and the rate's once it is engaged. *)
Definition gate_ok (g : AdaptiveGate) : Prop :=
  gate_wf g /\ (g_enabled g = true -> rate_in_range g).

Lemma gate_init_ok i c f cap now g : gate_init i c f cap now = Return g -> gate_ok g.
Proof.
  unfold gate_init. destruct (Qle_bool_spec i 0); [done|]. destruct (Qle_bool_spec c 0); [done|].
  destruct (Qle_bool_spec f 0); [done|].
  destruct cap as [cap|]; [destruct (Qlt_bool_spec cap f); [done|]|];
    intros [= <-]; (split; [|done]); split; simpl; try lra; naive_solver.
Qed.

Lemma gate_init_params i c f cap now g :
  gate_init i c f cap now = Return g -> g_capacity g = c /\ g_max_rate_cap g = cap.
Proof. unfold gate_init. repeat (case_match; try done). all: by intros [= <-]. Qed.

Lemma on_slow_down_ok now g :
  gate_ok g ->
  gate_ok (gate_slow_down cube_root now g) /\
  g_enabled (gate_slow_down cube_root now g) = true.
Proof.
  intros [Hg _]. unfold gate_slow_down. set (g1 := if g_enabled g then g else _).
  assert (gate_wf g1) as Hg1.
  { unfold g1. destruct (g_enabled g); [done|]. destruct Hg. split; simpl; try done. lra. }
  assert (g_enabled g1 = true) as He1
    by (unfold g1; destruct (g_enabled g) eqn:E; [exact E|reflexivity]).
  set (g2 := set_cubic _ _ _ g1).
  assert (gate_wf g2) as Hg2 by (destruct Hg1; by split).
  destruct (apply_rate_wf (g_max_rate g1 * CUBIC_BETA) now g2 Hg2) as [H1 H2].
  split; [by split|]. simpl.
  pose proof (gate_refill_fixed now g2) as (_ & _ & _ & _ & -> & _). done.
Qed.

Lemma on_success_ok now g : gate_ok g -> gate_ok (gate_success now g).
Proof.
  intros [Hg Hr]. unfold gate_success. destruct (g_enabled g) eqn:E; simpl; [|split; [done|congruence]].
  destruct (apply_rate_wf (cubic (g_w_max g) (now - g_last_fail g - g_k g)) now g Hg) as [H1 H2].
  by split.
Qed.

Lemma gate_try_ok now g : gate_ok g -> gate_ok (gate_try now g).2.
Proof.
  intros [Hg Hr]. unfold gate_try. destruct (g_enabled g) eqn:E; simpl.
  - pose proof (gate_refill_wf now g Hg) as Hg'.
    pose proof (gate_refill_fixed now g) as (E1 & E2 & E3 & E4 & E5 & _).
    specialize (Hr eq_refl). unfold rate_in_range in Hr.
    assert (rate_in_range (gate_refill now g)) as Hr' by (unfold rate_in_range; by rewrite E2, E3, E4).
    destruct (Qle_bool_spec 1 (g_tokens (gate_refill now g))); simpl; [|by split].
    split; [|done]. destruct Hg'. split; simpl; try done. lra.
  - split; [by destruct Hg|simpl; congruence].
Qed.

Lemma gate_exec_ok o g : gate_ok g -> gate_ok (gate_exec o g).2.
Proof.
  intros Hg. destruct o as [t|t|t]; simpl.
  - pose proof (gate_try_ok t g Hg). by destruct (gate_try t g).
  - by apply on_success_ok.
  - by apply on_slow_down_ok.
Qed.

(** *** How many calls pass *)

(** The tokens there would be at [t] if the rate were [r] all along. *)
Definition potential (r : Q) (g : AdaptiveGate) (t : Q) : Q :=
  py_min (g_capacity g) (g_tokens g + (t - g_updated_at g) * r).

Definition one (b : bool) : Q := if b then 1 else 0.

Lemma potential_later r g t t' :
  0 <= r -> t <= t' -> potential r g t' <= potential r g t + (t' - t) * r.
Proof.
  intros Hr Ht. unfold potential.
  assert (0 <= (t' - t) * r) by (apply Qmult_le_0_compat; lra).
  assert ((t' - g_updated_at g) * r == (t - g_updated_at g) * r + (t' - t) * r) by ring.
  qcases.
Qed.

Lemma refill_potential r g t :
  gate_wf g -> g_max_rate g <= r -> g_updated_at g <= t ->
  g_tokens (gate_refill t g) <= potential r g t /\ g_updated_at (gate_refill t g) == t.
Proof.
  intros Hg Hr Ht. pose proof (gate_tokens g Hg). pose proof (gate_rate_pos g Hg).
  unfold gate_refill, potential.
  assert (0 <= (t - g_updated_at g) * (r - g_max_rate g)) by (apply Qmult_le_0_compat; lra).
  assert (0 <= (t - g_updated_at g) * g_max_rate g) by (apply Qmult_le_0_compat; lra).
  assert ((t - g_updated_at g) * r ==
    (t - g_updated_at g) * (r - g_max_rate g) + (t - g_updated_at g) * g_max_rate g) by ring.
  destruct (Qlt_bool_spec 0 (t - g_updated_at g)); simpl; split; try lra; qcases.
Qed.

Lemma potential_now r g t : g_updated_at g == t -> potential r g t <= g_tokens g.
Proof.
  intros E. unfold potential. assert ((t - g_updated_at g) * r == 0) by (rewrite E; ring). qcases.
Qed.

Lemma potential_nonneg r g t : 0 <= r -> gate_wf g -> g_updated_at g <= t -> 0 <= potential r g t.
Proof.
  intros Hr Hg Ht. pose proof (gate_tokens g Hg). pose proof (gate_capacity_pos g Hg).
  assert (0 <= (t - g_updated_at g) * r) by (apply Qmult_le_0_compat; lra).
  unfold potential. qcases.
Qed.

(** An engaged gate stays engaged, below its cap. *)
Definition gate_engaged (r : Q) (g : AdaptiveGate) : Prop :=
  gate_ok g /\ g_enabled g = true /\ g_max_rate_cap g = Some r.

Lemma engaged_rate r g : gate_engaged r g -> 0 < r /\ g_max_rate g <= r.
Proof.
  intros ((Hg & Hr) & He & Hc). destruct (Hr He) as [_ Hle]. specialize (Hle r Hc).
  pose proof (gate_rate_pos g Hg). lra.
Qed.

Lemma on_slow_down_engaged now g :
  g_enabled g = true ->
  gate_slow_down cube_root now g =
  apply_rate (g_max_rate g * CUBIC_BETA) now
    (set_cubic (g_max_rate g) (cube_root (g_max_rate g * (1 - CUBIC_BETA) / CUBIC_C)) now g).
Proof. intros E. unfold gate_slow_down. by rewrite E. Qed.

Lemma refill_cubic w k l t g :
  gate_refill t (set_cubic w k l g) = set_cubic w k l (gate_refill t g).
Proof. unfold gate_refill. simpl. by destruct (_ >? _)%py. Qed.

Lemma gate_exec_engaged r o g :
  gate_engaged r g -> g_updated_at g <= op_now o ->
  let '(ok, g') := gate_exec o g in
  gate_engaged r g' /\ one ok + g_tokens g' <= potential r g (op_now o) /\ g_updated_at g' == op_now o.
Proof.
  intros Hen Ht. pose proof (engaged_rate r g Hen) as [Hr0 Hr]. destruct Hen as (Hok & He & Hc).
  pose proof (gate_exec_ok o g Hok) as Hok'. destruct Hok as [Hg _].
  destruct (refill_potential r g (op_now o) Hg Hr Ht) as [Hp Hu].
  destruct (gate_refill_fixed (op_now o) g) as (E1 & E2 & E3 & E4 & E5 & E6).
  destruct o as [t|t|t]; cbn [op_now] in *.
  - revert Hok'. simpl. unfold gate_try. rewrite He. cbn [negb].
    destruct (Qle_bool_spec 1 (g_tokens (gate_refill t g))); simpl; intros Hok';
      (split; [split; [done|]; simpl; by rewrite E5, E3|]); split; try done; lra.
  - revert Hok'. simpl. unfold gate_success. rewrite He. simpl. intros Hok'.
    split; [split; [done|]; simpl; by rewrite E5, E3|]. split; [|done]. lra.
  - revert Hok'. cbn [gate_exec snd]. rewrite on_slow_down_engaged by done. unfold apply_rate.
    rewrite refill_cubic. intros Hok'. split; [split; [done|]; simpl; by rewrite E5, E3|].
    simpl. split; [|done]. lra.
Qed.

(** Operations in the order of their instants, from [t] on. *)
Fixpoint gate_times (t : Q) (ops : list gate_op) : Prop :=
  match ops with
  | [] => True
  | o :: ops => t <= op_now o /\ gate_times (op_now o) ops
  end.

Fixpoint gate_end (t : Q) (ops : list gate_op) : Q :=
  match ops with [] => t | o :: ops => gate_end (op_now o) ops end.

Fixpoint passed (rs : list bool) : Q :=
  match rs with [] => 0 | r :: rs => one r + passed rs end.

Lemma gate_run_bound r ops t g :
  gate_engaged r g -> g_updated_at g <= t -> gate_times t ops ->
  passed (run gate_exec ops g).1 <= potential r g t + (gate_end t ops - t) * r.
Proof.
  revert t g. induction ops as [|o ops IH]; intros t g Hen Hu Ht.
  - pose proof (engaged_rate r g Hen). destruct Hen as ((Hg & _) & _).
    pose proof (potential_nonneg r g t ltac:(lra) Hg Hu).
    simpl. assert ((t - t) * r == 0) by ring. lra.
  - destruct Ht as [Ht Hts]. pose proof (engaged_rate r g Hen) as [Hr _].
    pose proof (gate_exec_engaged r o g Hen ltac:(lra)) as Hs.
    pose proof (potential_later r g t (op_now o) ltac:(lra) Ht) as Hl.
    cbn [run gate_end]. destruct (gate_exec o g) as [ok g1]. destruct Hs as (Hen1 & Hb & Hu1).
    specialize (IH (op_now o) g1 Hen1 ltac:(rewrite Hu1; apply Qle_refl) Hts).
    pose proof (potential_now r g1 _ Hu1).
    destruct (run gate_exec ops g1) as [rs g2]. simpl in *.
    assert ((gate_end (op_now o) ops - t) * r ==
      (gate_end (op_now o) ops - op_now o) * r + (op_now o - t) * r) by ring. lra.
Qed.

(** The capacity and the cap are never assigned. *)
Lemma gate_exec_fixed o g :
  g_capacity (gate_exec o g).2 = g_capacity g /\
  g_max_rate_cap (gate_exec o g).2 = g_max_rate_cap g.
Proof.
  destruct o as [t|t|t]; simpl.
  - unfold gate_try. destruct (gate_refill_fixed t g) as (E1 & _ & E3 & _).
    destruct (g_enabled g); simpl; [|done]. by destruct (_ >=? _)%py; simpl; rewrite E1, E3.
  - unfold gate_success, apply_rate. destruct (gate_refill_fixed t g) as (E1 & _ & E3 & _).
    destruct (g_enabled g); simpl; [|done]. by rewrite E1, E3.
  - unfold gate_slow_down, apply_rate. simpl. rewrite refill_cubic. simpl.
    destruct (g_enabled g).
    + destruct (gate_refill_fixed t g) as (E1 & _ & E3 & _). by rewrite E1, E3.
    + by destruct (gate_refill_fixed t (set_tokens 0 t (enable g))) as (-> & _ & -> & _).
Qed.

(** Once a slow-down has engaged the gate, and with a [max_rate], the calls
    that pass over any span are at most the burst capacity plus [max_rate] times
    the length of the span, whatever successes and slow-downs happen on the way
    and whatever the CUBIC curve asks for. *)
Lemma engaged_gate_bounds_calls (i c f r : Q) (now : Q) (g0 : AdaptiveGate)
    (before ops : list gate_op) (t : Q) :
  gate_init i c f (Some r) now = Return g0 ->
  let g := (run gate_exec before g0).2 in
  g_enabled g = true -> g_updated_at g <= t -> gate_times t ops ->
  passed (run gate_exec ops g).1 <= c + (gate_end t ops - t) * r.
Proof.
  intros Hi g He Hu Ht.
  assert (gate_ok g /\ g_capacity g = c /\ g_max_rate_cap g = Some r) as (Hok & Hcap & Hc).
  { apply (run_invariant gate_exec
      (fun g => gate_ok g /\ g_capacity g = c /\ g_max_rate_cap g = Some r) (fun _ _ => True)); auto.
    - intros o g1 (H1 & H2 & H3) _. split; [by apply gate_exec_ok|].
      by rewrite (proj1 (gate_exec_fixed o g1)), (proj2 (gate_exec_fixed o g1)).
    - split; [by eapply gate_init_ok|]. by eapply gate_init_params. }
  assert (gate_engaged r g) as Hen by (split; [done|by split]).
  pose proof (gate_run_bound r ops t g Hen Hu Ht) as Hb.
  assert (potential r g t <= c); [|lra]. rewrite <- Hcap. unfold potential. qcases.
Qed.

(** A call that the engaged gate makes wait sleeps no longer than one token
    takes at the floor rate, and if nothing else uses the gate meanwhile it
    passes on its next turn, however long it slept: the gate starves nobody. *)
Lemma gate_wait_bounded (g : AdaptiveGate) (now d : Q) (g' : AdaptiveGate) :
  gate_ok g -> 1 <= g_capacity g -> g_updated_at g <= now ->
  gate_try now g = (Some d, g') ->
  0 < d /\ d * g_min_rate_floor g <= 1 /\
  forall later, now + d <= later -> (gate_try later g').1 = None.
Proof.
  intros [Hg Hr] Hcap Hu. unfold gate_try at 1. destruct (g_enabled g) eqn:He; [|done].
  specialize (Hr eq_refl) as [Hf _]. cbn [negb].
  pose proof (gate_refill_wf now g Hg) as Hg'.
  destruct (gate_refill_fixed now g) as (E1 & E2 & E3 & E4 & E5 & _).
  pose proof (proj2 (refill_potential (g_max_rate g) g now Hg (Qle_refl _) Hu)) as Hu'.
  set (g1 := gate_refill now g) in *. destruct (Qle_bool_spec 1 (g_tokens g1)) as [|Hlt]; [done|].
  intros [= <- <-]. pose proof (gate_rate_pos g Hg) as Hp. rewrite E4.
  pose proof (gate_tokens g1 Hg') as Ht. pose proof (gate_floor_pos g Hg) as Hfl.
  set (d := (1 - g_tokens g1) / g_max_rate g).
  assert (d * g_max_rate g == 1 - g_tokens g1) as Hd by (by apply Qdiv_mul).
  assert (0 < d) as Hd0 by (unfold d; apply Qlt_shift_div_l; lra).
  split; [done|]. split.
  { assert (0 <= d * (g_max_rate g - g_min_rate_floor g)) by (apply Qmult_le_0_compat; lra). lra. }
  intros later Hl. unfold gate_try. rewrite E5, He. cbn [negb].
  assert (1 <= g_tokens (gate_refill later g1)) as H1.
  { unfold gate_refill. destruct (Qlt_bool_spec 0 (later - g_updated_at g1)) as [_|C]; simpl;
      [|rewrite Hu' in C; lra].
    assert ((later - g_updated_at g1) * g_max_rate g1 ==
      d * g_max_rate g + (later - (now + d)) * g_max_rate g) as Ed by (rewrite Hu', E4; ring).
    assert (0 <= (later - (now + d)) * g_max_rate g) by (apply Qmult_le_0_compat; lra).
    rewrite E1. qcases. }
  destruct (Qle_bool_spec 1 (g_tokens (gate_refill later g1))); [done|lra].
Qed.
End Gate.

(** ** The control law *)

(** A slow-down cuts the rate to seven tenths, or to the floor. *)
Lemma slow_down_shrinks cube_root now g :
  g_max_rate (gate_slow_down cube_root now g) <=
  py_max (g_min_rate_floor g) (g_max_rate g * CUBIC_BETA).
Proof.
  unfold gate_slow_down, apply_rate. simpl. eapply Qle_trans; [apply clamp_rate_candidate|].
  simpl. destruct (g_enabled g); apply Qle_refl.
Qed.

(** The curve rises with time and passes through the rate of the last slow-down
    [k] seconds after it. *)
Lemma cubic_monotone w a b : a <= b -> cubic w a <= cubic w b.
Proof.
  intros H. unfold cubic, CUBIC_C.
  assert (0 <= (b - a) * (a * a + a * b + b * b)) by (apply Qmult_le_0_compat; nra).
  assert (b * b * b == a * a * a + (b - a) * (a * a + a * b + b * b)) as -> by ring. lra.
Qed.

Lemma cubic_inflection w : cubic w 0 == w.
Proof. unfold cubic. ring. Qed.

(** Until the first slow-down the gate holds nobody back, [max_rate] or not. *)
Lemma disabled_gate_lets_all_pass cube_root n now g :
  g_enabled g = false ->
  (run (gate_exec cube_root) (replicate n (GTry now)) g).1 = replicate n true.
Proof.
  revert g. induction n as [|n IH]; intros g He; [done|]. simpl. unfold gate_try. rewrite He. simpl.
  specialize (IH (note_sent now g) He). destruct (run _ _ _) as [rs g']. simpl in *. by rewrite IH.
Qed.

(** A gate with the numbers of the [api] profile and [max_rate=1], engaged at
    instant 0. *)
Definition demo_gate_start : AdaptiveGate :=
  mkGate 2 2 5 (1 # 4) (Some 1) 0 0 false 2 0 0 [].

Definition no_root : Q -> Q := fun _ => 1.

Lemma engaged_gate_bounds_calls_witness :
  let g := (run (gate_exec no_root) [GSlow 0] demo_gate_start).2 in
  let ops := [GTry 1; GTry 1; GSuccess 2; GTry 3] in
  (run (gate_exec no_root) ops g).1 = [true; false; false; true] /\
  passed (run (gate_exec no_root) ops g).1 <= 5 + (3 - 0) * 1.
Proof.
  split; [by vm_compute|].
  apply (engaged_gate_bounds_calls no_root 2 5 (1 # 4) 1 0 demo_gate_start [GSlow 0]
           [GTry 1; GTry 1; GSuccess 2; GTry 3] 0).
  - by vm_compute.
  - by vm_compute.
  - apply Qle_refl.
  - repeat split; by vm_compute.
Defined.

Lemma gate_wait_bounded_witness :
  let g := (run (gate_exec no_root) [GSlow 0; GTry 1] demo_gate_start).2 in
  exists d g', gate_try 1 g = (Some d, g') /\ 0 < d /\ d * (1 # 4) <= 1 /\
    (gate_try (1 + d) g').1 = None.
Proof.
  intros g. destruct (gate_try 1 g) as [[d|] g'] eqn:E; [|by vm_compute in E].
  exists d, g'. split; [done|].
  destruct (gate_wait_bounded g 1 d g') as (H1 & H2 & H3); [..|by auto using Qle_refl].
  - apply (run_invariant (gate_exec no_root) gate_ok (fun _ _ => True)); auto using gate_exec_ok.
    by apply (gate_init_ok no_root 2 5 (1 # 4) (Some 1) 0).
  - by vm_compute.
  - by vm_compute.
  - exact E.
Defined.

Lemma estimate_is_p95_witness :
  exists e, estimator_init 10 (1 # 2) 60 = Return e /\
    estimate (foldl (fun e l => record_latency l e) e [1; -1; 3; 2]) == 15 # 2 /\
    exists v, is_p95 [1; 3; 2] v.
Proof.
  eexists. split; [reflexivity|]. split; [by vm_compute|].
  destruct (estimate_is_p95 10 (1 # 2) 60 _ [1; -1; 3; 2] eq_refl) as [_ (v & Hv & _)].
  by exists v.
Defined.
