(* ===== verification/Shield.v ===== *)
(** * The shield

    [grelmicro/resilience/shield/_shield.py]: [Shield._execute], the loop around
    one call, over the parts of [ShieldParts]: it waits at the gate, runs the
    function under the estimated timeout, feeds the outcome back into the parts,
    retries slow calls out of the shared budget, and on giving up tries the
    cache, then the fallback.  The profiles are those of [_internal.py],
    [_api.py] and [_slow.py].  The parts are shared by the calls of a shield, so
    they are read from and written to the world, which other calls change at
    every [await].  At each [await] of the loop's own (the gate, the budget, the
    backoff) the task may be cancelled: [checkpoint].  The function, the cache and
    the fallback may be cancelled too, their cancellation being one of the
    exceptions they raise. *)

From S2P Require Import Prelude Errors Backoff Retry ShieldParts.

Local Open Scope Q_scope.

(** ** Configuration *)

(** [_BaseShieldConfig]: the frozen numbers of a profile and the public fields
    that the loop reads. *)
Record ShieldConfig : Type := mkShieldConfig {
  profile_name : string;
  max_consecutive_failures : Z;
  initial_max_rate : Q;
  adaptive_burst_capacity : Q;
  min_rate_floor : Q;
  initial_timeout : Q;
  timeout_clamp_min : Q;
  timeout_clamp_max : Q;
  backoff_scale : Q;
  backoff_cap : Q;
  max_rate_cap_default : option Q;
  timeout_errors : list exn_class;
  shield_max_rate : option Q;
}.

(** [InternalShieldConfig], [ApiShieldConfig] and [SlowShieldConfig] *)
Definition internal_profile (errors : list exn_class) (max_rate : option Q) : ShieldConfig :=
  mkShieldConfig "internal" 10 100 200 1 1 (5 # 100) 5 (1 # 2) 5 None errors max_rate.
Definition api_profile (errors : list exn_class) (max_rate : option Q) : ShieldConfig :=
  mkShieldConfig "api" 20 2 5 (1 # 4) 10 (1 # 2) 60 1 30 None errors max_rate.
Definition slow_profile (errors : list exn_class) (max_rate : option Q) : ShieldConfig :=
  mkShieldConfig "slow" 5 (1 # 2) 1 (5 # 100) 120 5 600 2 60 None errors max_rate.

(** [effective_timeout_errors] *)
Definition effective_timeout_errors (c : ShieldConfig) : list exn_class :=
  if existsb (issubclass TimeoutError) (timeout_errors c) then timeout_errors c
  else timeout_errors c ++ [TimeoutError].

(** [isinstance(exc, state.effective_timeout_errors)] *)
Definition slow_signal (c : ShieldConfig) (e : exn) : bool :=
  existsb (isinstance e) (effective_timeout_errors c).

(** [_MAX_ATTEMPTS] *)
Definition MAX_ATTEMPTS : nat := 4.

(** [_CACHE_ERROR_LOG_INTERVAL] *)
Definition CACHE_ERROR_LOG_INTERVAL : Q := 60.

(** [_GIVE_UP_BUDGET], [_GIVE_UP_ATTEMPTS], [_GIVE_UP_NON_RETRY] *)
Inductive give_up_reason : Type := BudgetExhausted | AttemptsExhausted | NonRetryable.

Definition reason_text (r : give_up_reason) : string :=
  match r with
  | BudgetExhausted => "budget exhausted"
  | AttemptsExhausted => "attempts exhausted"
  | NonRetryable => "non-retryable exception"
  end.

(** ** State *)

(** The helpers of [_State], and the shield's [_cache_error_logged_at]. *)
Record ShieldParts : Type := mkParts {
  sp_budget : RetryBudget;
  sp_gate : AdaptiveGate;
  sp_estimator : TimeoutEstimator;
  sp_logged_at : option Q;
}.

Definition with_budget (b : RetryBudget) (p : ShieldParts) : ShieldParts :=
  mkParts b (sp_gate p) (sp_estimator p) (sp_logged_at p).
Definition with_gate (g : AdaptiveGate) (p : ShieldParts) : ShieldParts :=
  mkParts (sp_budget p) g (sp_estimator p) (sp_logged_at p).
Definition with_estimator (e : TimeoutEstimator) (p : ShieldParts) : ShieldParts :=
  mkParts (sp_budget p) (sp_gate p) e (sp_logged_at p).
Definition with_logged_at (t : option Q) (p : ShieldParts) : ShieldParts :=
  mkParts (sp_budget p) (sp_gate p) (sp_estimator p) t.

(** [a or b] on a rate: zero is false. *)
Definition rate_or (a b : option Q) : option Q :=
  match a with Some r => if Qeq_bool r 0 then b else Some r | None => b end.

(** [_build_state] *)
Definition build_state (c : ShieldConfig) (now : Q) (logged_at : option Q) :
    outcome exn ShieldParts :=
  match budget_init (max_consecutive_failures c),
        gate_init (initial_max_rate c) (adaptive_burst_capacity c) (min_rate_floor c)
          (rate_or (shield_max_rate c) (max_rate_cap_default c)) now,
        estimator_init (initial_timeout c) (timeout_clamp_min c) (timeout_clamp_max c) with
  | Return b, Return g, Return e => Return (mkParts b g e logged_at)
  | Raise x, _, _ | _, Raise x, _ | _, _, Raise x => Raise x
  end.

(** The surroundings of a shield: a clock, random numbers, the parts as the
    concurrent calls leave them, and what an [await] of the shield itself does:
    others run, and the task may be cancelled there.  (Every [await] is one of
    these, also that of a lock no holder of which ever waits.) *)
Class ShieldWorld (W : Type) `{Runtime W} := {
  parts_of : W -> ShieldParts;
  set_parts : ShieldParts -> W -> W;
  parts_set p w : parts_of (set_parts p w) = p;
  checkpoint : py W exn unit;
  checkpoint_monotonic w : monotonic w <= monotonic (checkpoint w).2;
  checkpoint_cancels w e : (checkpoint w).1 = Raise e -> exn_cls e = CancelledError;
}.

Definition update_parts {W} `{ShieldWorld W} (f : ShieldParts -> ShieldParts) (w : W) : W :=
  set_parts (f (parts_of w)) w.

Section Shield.
Context {W V : Type} `{ShieldWorld W}.
(** The C library's cube root, the format [.2f] and [str] on small integers. *)
Context (cube_root : Q -> Q) (fmt2 : Q -> string) (str_nat : nat -> string).
Context (config : ShieldConfig).
(** The call: the function under [asyncio.timeout(t)], with its arguments. *)
Context (attempt : Q -> py W exn V).
(** The recovery: reading the cache and scheduling a write to it, the key of this
    call (a custom [cache_key] may raise; the default hashes the arguments), and the
    fallback. *)
Context (cache : option ((string -> py W exn (option V)) * (string -> V -> W -> W))).
Context (key : outcome exn string).
Context (fallback : option (exn -> py W exn V)).

(** [await sleep(d)] *)
Definition await_sleep (d : Q) : py W exn unit :=
  py_bind checkpoint (fun _ w => (Return tt, sleep d w)).

(** One turn of [_AdaptiveGate.acquire]. *)
Definition gate_turn (w : W) : option Q * W :=
  let '(d, g) := gate_try (monotonic w) (sp_gate (parts_of w)) in
  (d, update_parts (with_gate g) w).

(** Its loop; [None]: still waiting after [fuel] turns. *)
Fixpoint gate_wait (fuel : nat) (w : W) : option (outcome exn unit) * W :=
  match fuel with
  | O => (None, w)
  | S fuel =>
      match checkpoint w with
      | (Raise e, w) => (Some (Raise e), w)
      | (Return _, w) =>
          match gate_turn w with
          | (None, w) => (Some (Return tt), w)
          | (Some d, w) =>
              match await_sleep d w with
              | (Raise e, w) => (Some (Raise e), w)
              | (Return _, w) => gate_wait fuel w
              end
          end
      end
  end.

(** [_AdaptiveGate.acquire] *)
Definition gate_acquire (fuel : nat) (w : W) : option (outcome exn unit) * W :=
  if g_enabled (sp_gate (parts_of w)) then gate_wait fuel w
  else (Some (Return tt), (gate_turn w).2).

(** [_backoff_for] *)
Definition backoff_for (attempt_number : nat) (w : W) : Q * W :=
  let ceiling := py_min (backoff_scale config * inject_Z (2 ^ (Z.of_nat attempt_number - 1)))
                   (backoff_cap config) in
  let '(r, w) := random w in (r * ceiling, w).

(** [_fire_and_forget_cache_set], when there is a cache. *)
Definition fire_and_forget_cache_set (value : V) : py W exn unit := fun w =>
  match cache with
  | None => (Return tt, w)
  | Some (_, spawn_set) =>
      match key with
      | Raise e => (Raise e, w)
      | Return k => (Return tt, spawn_set k value w)
      end
  end.

(** The [else] branch of the attempt up to the refund: what a success feeds back. *)
Definition after_success (call_started : Q) (retries_consumed : Z) : py W exn unit := fun w =>
  let latency := monotonic w - call_started in
  let w := update_parts (fun p => with_estimator (record_latency latency (sp_estimator p)) p) w in
  let w := update_parts (fun p => with_gate (gate_success (monotonic w) (sp_gate p)) p) w in
  let amount := if (retries_consumed =? 0)%Z then 1%Z else retries_consumed in
  py_bind checkpoint (fun _ w =>
    (Return tt, update_parts (fun p => with_budget (budget_refund amount (sp_budget p)) p) w)) w.

(** [state.adaptive_gate.on_slow_down()] *)
Definition slow_down (w : W) : W :=
  update_parts (fun p => with_gate (gate_slow_down cube_root (monotonic w) (sp_gate p)) p) w.

(** [await state.retry_budget.try_acquire()] *)
Definition take_retry : py W exn bool :=
  py_bind checkpoint (fun _ w =>
    let '(ok, b) := budget_acquire (sp_budget (parts_of w)) in
    (Return ok, update_parts (with_budget b) w)).

(** [if delay > 0: await sleep(delay)] *)
Definition await_pause (d : Q) : py W exn unit :=
  if (d >? 0)%py then await_sleep d else py_ret tt.

(** How the loop ends: with the call's outcome, giving up on an exception, or not
    yet: still at the gate. *)
Inductive shield_verdict : Type :=
| Finished (r : outcome exn V)
| GivenUp (e : exn) (reason : give_up_reason) (attempts_made : nat)
| Waiting.

(** The loop of [_execute] from the attempt after [made], with [k] attempts left
    in its range; [fuel] bounds the turns at the gate.  The loop is always left by
    a [break] or a [return], never by its condition. *)
Fixpoint shield_loop (fuel k made : nat) (retries_consumed : Z) (w : W) : shield_verdict * W :=
  match k with
  | O => (Finished (Raise (mk_exn RuntimeError (Message "Shield give-up without an exception"))), w)
  | S k =>
      let number := S made in
      match gate_acquire fuel w with
      | (None, w) => (Waiting, w)
      | (Some (Raise e), w) => (Finished (Raise e), w)
      | (Some (Return _), w) =>
          let timeout := estimate (sp_estimator (parts_of w)) in
          let call_started := monotonic w in
          match attempt timeout w with
          | (Return result, w) =>
              match py_bind (after_success call_started retries_consumed)
                      (fun _ => fire_and_forget_cache_set result) w with
              | (Return _, w) => (Finished (Return result), w)
              | (Raise e, w) => (Finished (Raise e), w)
              end
          | (Raise exc, w) =>
              if isinstance exc ResilienceError then (Finished (Raise exc), w)
              else if negb (is_exception exc) then (Finished (Raise exc), w)
              else if negb (slow_signal config exc) then (GivenUp exc NonRetryable number, w)
              else
                let w := slow_down w in
                if (MAX_ATTEMPTS <=? number)%nat then (GivenUp exc AttemptsExhausted number, w)
                else
                  match take_retry w with
                  | (Raise e, w) => (Finished (Raise e), w)
                  | (Return false, w) => (GivenUp exc BudgetExhausted number, w)
                  | (Return true, w) =>
                      let '(d, w) := backoff_for number w in
                      match await_pause d w with
                      | (Raise e, w) => (Finished (Raise e), w)
                      | (Return _, w) => shield_loop fuel k number (retries_consumed + 1) w
                      end
                  end
          end
      end
  end.

(** [_report_cache_error]: whether it logs. *)
Definition report_cache_error (w : W) : bool * W :=
  let now := monotonic w in
  if match sp_logged_at (parts_of w) with
     | Some last => (now - last <? CACHE_ERROR_LOG_INTERVAL)%py
     | None => false
     end
  then (false, w)
  else (true, update_parts (with_logged_at (Some now)) w).

(** The lookup of [_handle_give_up]: a broken cache is a miss. *)
Definition recover_from_cache : py W exn (option V) := fun w =>
  match cache with
  | None => (Return None, w)
  | Some (get, _) =>
      match key with
      | Raise e => (Raise e, w)
      | Return k =>
          match get k w with
          | (Return v, w) => (Return v, w)
          | (Raise e, w) =>
              if is_exception e then (Return None, (report_cache_error w).2) else (Raise e, w)
          end
      end
  end.

(** [_handle_give_up] *)
Definition handle_give_up (exc : exn) (note : string) : py W exn V :=
  py_bind recover_from_cache (fun value =>
    match value with
    | Some v => py_ret v
    | None => match fallback with
              | Some f => f exc
              | None => py_raise (add_note note exc)
              end
    end).

(** The note of a give-up. *)
Definition give_up_note (reason : give_up_reason) (made : nat) (elapsed : Q) : string :=
  "shield: " +:+ reason_text reason +:+ " after " +:+ str_nat made +:+ "/" +:+
  str_nat MAX_ATTEMPTS +:+ " attempts in " +:+ fmt2 elapsed +:+ "s (" +:+
  profile_name config +:+ " profile)".

(** [_execute]; [None]: still at the gate. *)
Definition execute (fuel : nat) (w : W) : option (outcome exn V) * W :=
  let started := monotonic w in
  match shield_loop fuel MAX_ATTEMPTS 0 0 w with
  | (Waiting, w) => (None, w)
  | (Finished r, w) => (Some r, w)
  | (GivenUp e reason made, w) =>
      let '(r, w) := handle_give_up e (give_up_note reason made (monotonic w - started)) w in
      (Some r, w)
  end.

(** [_safe_cache_set], the task that writes: its failure stops here. *)
Definition safe_cache_set (set : py W exn unit) : py W exn unit := fun w =>
  match set w with
  | (Return _, w) => (Return tt, w)
  | (Raise e, w) => if is_exception e then (Return tt, (report_cache_error w).2) else (Raise e, w)
  end.
End Shield.

(** ** The parts stay healthy *)

Definition parts_ok (p : ShieldParts) : Prop :=
  budget_wf (sp_budget p) /\ gate_ok (sp_gate p) /\
  te_min (sp_estimator p) <= te_max (sp_estimator p).

(** A construction that succeeds gives healthy parts, and so does every update
    the loop makes; whatever the calls of a shield interleave. *)
Lemma build_state_ok c now t p : build_state c now t = Return p -> parts_ok p.
Proof.
  unfold build_state, budget_init. destruct (Z.leb_spec (max_consecutive_failures c) 0); [done|].
  destruct (gate_init _ _ _ _ _) as [g|e] eqn:Eg; [|done].
  destruct (estimator_init _ _ _) as [e|e] eqn:Ee; [|done]. intros [= <-].
  split; [unfold budget_wf; simpl; lia|]. split; [by eapply gate_init_ok|].
  revert Ee. unfold estimator_init. destruct (_ || _); [done|].
  destruct (Qlt_bool_spec (timeout_clamp_max c) (timeout_clamp_min c)); [done|]. by intros [= <-].
Qed.

Lemma record_latency_params l e :
  te_min (record_latency l e) = te_min e /\ te_max (record_latency l e) = te_max e.
Proof. unfold record_latency. by destruct (_ <? _)%py. Qed.

Lemma parts_updates_ok root now l n p :
  parts_ok p ->
  parts_ok (with_gate (gate_try now (sp_gate p)).2 p) /\
  parts_ok (with_gate (gate_success now (sp_gate p)) p) /\
  parts_ok (with_gate (gate_slow_down root now (sp_gate p)) p) /\
  parts_ok (with_budget (budget_acquire (sp_budget p)).2 p) /\
  parts_ok (with_budget (budget_refund n (sp_budget p)) p) /\
  parts_ok (with_estimator (record_latency l (sp_estimator p)) p).
Proof.
  intros (Hb & Hg & He). unfold parts_ok. simpl.
  destruct (record_latency_params l (sp_estimator p)) as [-> ->].
  pose proof (budget_exec_step BAcquire _ Hb) as HA. pose proof (budget_exec_step (BRefund n) _ Hb) as HR.
  simpl in HA, HR. destruct (budget_acquire (sp_budget p)) as [ok b].
  pose proof (gate_try_ok now _ Hg). pose proof (on_success_ok now _ Hg).
  pose proof (on_slow_down_ok root now _ Hg). naive_solver.
Qed.

(** The three profiles can be built, and hold at least one token: a caller at
    their gate is never starved ([gate_wait_bounded]). *)
Lemma profiles_build errors now t :
  Forall (fun c => exists p, build_state c now t = Return p /\ 1 <= g_capacity (sp_gate p))
    [internal_profile errors None; api_profile errors None; slow_profile errors None].
Proof. repeat constructor; eexists; (split; [reflexivity|done]). Qed.

(** A [max_rate] below the floor of the profile cannot be used. *)
Lemma max_rate_below_floor_rejected errors now t :
  build_state (api_profile errors (Some (1 # 5))) now t =
  Raise (mk_exn ValueError (Message "max_rate_cap")).
Proof. reflexivity. Qed.

(** A [TimeoutError] is always a slow-down signal, whatever is configured. *)
Lemma timeout_always_slow c i notes : slow_signal c (Exn TimeoutError i notes) = true.
Proof.
  unfold slow_signal, effective_timeout_errors.
  destruct (existsb (issubclass TimeoutError) (timeout_errors c)) eqn:E; [exact E|].
  rewrite existsb_app. apply orb_true_intro. right. reflexivity.
Qed.

(** ** A shielded call returns *)

Section Returns.
Context {W V : Type} `{ShieldWorld W}.
Context (cube_root : Q -> Q) (fmt2 : Q -> string) (str_nat : nat -> string).
Context (config : ShieldConfig) (attempt : Q -> py W exn V).
Context (cache : option ((string -> py W exn (option V)) * (string -> V -> W -> W))).
Context (key : outcome exn string) (fallback : option (exn -> py W exn V)).

(** A gate that lets callers pass: healthy, with room for a token, and not ahead
    of the clock. *)
Definition gate_ready (w : W) : Prop :=
  let g := sp_gate (parts_of w) in
  gate_ok g /\ 1 <= g_capacity g /\ g_updated_at g <= monotonic w.

Lemma gate_refill_updated now g :
  g_updated_at g <= now -> g_updated_at (gate_refill now g) <= now.
Proof. intros Hu. unfold gate_refill. qcases. Qed.

Lemma gate_try_fixed now g :
  g_updated_at g <= now ->
  g_capacity (gate_try now g).2 = g_capacity g /\ g_updated_at (gate_try now g).2 <= now.
Proof.
  intros Hu. unfold gate_try. destruct (g_enabled g); simpl; [|done].
  destruct (gate_refill_fixed now g) as (E & _). pose proof (gate_refill_updated now g Hu).
  by destruct (_ >=? _)%py; simpl; rewrite E.
Qed.

(** The gate is left to this caller: nobody else uses it while the caller waits,
    writing an attribute takes no time, and what runs during an attempt leaves a
    ready gate ready. *)
Record left_alone : Prop := {
  la_sleep : forall d w, parts_of (sleep d w) = parts_of w;
  la_checkpoint : forall w, parts_of (checkpoint w).2 = parts_of w;
  la_random : forall w, parts_of (random w).2 = parts_of w;
  la_set : forall p w, monotonic (set_parts p w) = monotonic w;
  la_attempt : forall t w, gate_ready w -> gate_ready (attempt t w).2;
}.

Hypothesis Halone : left_alone.

Lemma gate_ready_later w w' :
  gate_ready w -> parts_of w' = parts_of w -> monotonic w <= monotonic w' -> gate_ready w'.
Proof.
  intros (Hok & Hc & Hu) Ep Hm. unfold gate_ready. rewrite Ep. split_and!; [done..|lra].
Qed.

Lemma gate_ready_checkpoint w : gate_ready w -> gate_ready (checkpoint w).2.
Proof.
  intros Hw. eapply gate_ready_later; [done|by apply la_checkpoint|by apply checkpoint_monotonic].
Qed.

Lemma gate_ready_turn w : gate_ready w -> gate_ready (gate_turn w).2.
Proof.
  intros (Hok & Hc & Hu). unfold gate_turn.
  destruct (gate_try_fixed (monotonic w) _ Hu) as [Ec Hu'].
  pose proof (gate_try_ok (monotonic w) _ Hok) as Hok'.
  destruct (gate_try _ _) as [d g]. cbn [fst snd] in *.
  unfold gate_ready, update_parts. rewrite parts_set, (la_set Halone). cbn [sp_gate with_gate].
  rewrite Ec. by split_and!.
Qed.

Lemma gate_ready_sleep d w : 0 <= d -> gate_ready w -> gate_ready (await_sleep d w).2.
Proof.
  intros Hd Hw%gate_ready_checkpoint. unfold await_sleep, py_bind.
  destruct (checkpoint w) as [[u|e] w1]; cbn [snd] in *; [|done].
  eapply gate_ready_later; [done|by apply la_sleep|]. pose proof (sleep_monotonic d w1). lra.
Qed.

(** A turn that fails and a sleep of the length it says make the next turn pass. *)
Lemma gate_turn_passes w d w1 w2 :
  gate_ready w -> gate_turn w = (Some d, w1) -> parts_of w2 = parts_of w1 ->
  monotonic w1 + d <= monotonic w2 -> (gate_turn w2).1 = None /\ 0 < d.
Proof.
  intros (Hok & Hc & Hu) E Ep Hm. unfold gate_turn in *.
  destruct (gate_try (monotonic w) _) as [d' g] eqn:Eg. injection E as -> <-.
  destruct (gate_wait_bounded _ _ _ _ Hok Hc Hu Eg) as (Hd & _ & Hnext). split; [|done].
  revert Ep Hm. unfold update_parts. rewrite parts_set, (la_set Halone). intros -> Hm.
  cbn [sp_gate with_gate]. specialize (Hnext _ Hm).
  destruct (gate_try (monotonic w2) g) as [d2 g2]. exact Hnext.
Qed.

(** Two turns at the gate are enough. *)
Lemma gate_wait_ready fuel w :
  gate_ready w -> exists r w', gate_wait (S (S fuel)) w = (Some r, w') /\ gate_ready w'.
Proof.
  intros Hw. cbn [gate_wait]. pose proof (gate_ready_checkpoint w Hw) as Hw1.
  destruct (checkpoint w) as [[u|e] w1]; cbn [snd] in Hw1; [|by eexists _, _].
  pose proof (gate_ready_turn w1 Hw1) as Hw2.
  destruct (gate_turn w1) as [[d|] w2] eqn:Et; cbn [snd] in Hw2; [|by eexists _, _].
  assert (0 < d) as Hd by (eapply (gate_turn_passes w1 d w2 (sleep d w2)); eauto using sleep_monotonic;
    by apply la_sleep).
  pose proof (gate_ready_sleep d w2 ltac:(lra) Hw2) as Hw3.
  pose proof (checkpoint_monotonic w2) as Hm. pose proof (la_checkpoint Halone w2) as Hp.
  unfold await_sleep, py_bind in *.
  destruct (checkpoint w2) as [[u2|e] w3]; cbn [snd] in *; [|by eexists _, _].
  pose proof (checkpoint_monotonic (sleep d w3)) as Hm'.
  pose proof (la_checkpoint Halone (sleep d w3)) as Hp'. pose proof (gate_ready_checkpoint _ Hw3) as Hw4.
  pose proof (sleep_monotonic d w3) as Hs.
  destruct (checkpoint (sleep d w3)) as [[u3|e] w4]; cbn [snd] in *; [|by eexists _, _].
  pose proof (gate_ready_turn w4 Hw4) as Hw5.
  destruct (gate_turn_passes w1 d w2 w4 Hw1 Et) as [Hpass _].
  - by rewrite Hp', la_sleep.
  - lra.
  - destruct (gate_turn w4) as [[?|] w5]; [done|]. by eexists _, _.
Qed.

Lemma gate_acquire_ready fuel w :
  gate_ready w -> exists r w', gate_acquire (S (S fuel)) w = (Some r, w') /\ gate_ready w'.
Proof.
  intros Hw. unfold gate_acquire. destruct (g_enabled _); [by apply gate_wait_ready|].
  eexists _, _. split; [done|]. by apply gate_ready_turn.
Qed.

Lemma slow_down_ready w : gate_ready w -> gate_ready (slow_down cube_root w).
Proof.
  intros (Hok & Hc & Hu). unfold gate_ready, slow_down, update_parts.
  rewrite parts_set, (la_set Halone). cbn [sp_gate with_gate].
  destruct (on_slow_down_ok cube_root (monotonic w) _ Hok) as [Hok' _].
  pose proof (gate_exec_fixed cube_root (GSlow (monotonic w)) (sp_gate (parts_of w))) as [E _].
  cbn [gate_exec snd] in E. rewrite E. split; [done|]. split; [done|].
  unfold gate_slow_down, apply_rate. cbn [g_updated_at set_rate].
  apply gate_refill_updated. cbn [g_updated_at set_cubic].
  destruct (g_enabled _); [done|apply Qle_refl].
Qed.

Lemma backoff_ready n w : gate_ready w -> gate_ready (backoff_for config n w).2.
Proof.
  intros Hw. unfold backoff_for. pose proof (random_monotonic w) as Hm.
  pose proof (la_random Halone w) as Hp. destruct (random w) as [r w1]. cbn [snd] in *.
  by eapply gate_ready_later.
Qed.

Lemma pause_ready d w : gate_ready w -> gate_ready (await_pause d w).2.
Proof.
  intros Hw. unfold await_pause. destruct (Qlt_bool_spec 0 d); [|done].
  apply gate_ready_sleep; [lra|done].
Qed.

Lemma take_retry_ready w : gate_ready w -> gate_ready (take_retry w).2.
Proof.
  intros Hw%gate_ready_checkpoint. unfold take_retry, py_bind.
  destruct (checkpoint w) as [[u|e] w1]; cbn [snd] in *; [|done].
  destruct (budget_acquire _) as [ok b]. simpl.
  unfold gate_ready, update_parts. by rewrite parts_set, (la_set Halone).
Qed.

Lemma loop_returns fuel k made retries w :
  gate_ready w ->
  (shield_loop cube_root config attempt cache key (S (S fuel)) k made retries w).1 <> Waiting.
Proof.
  revert made retries w. induction k as [|k IH]; intros made retries w Hw; [done|].
  cbn [shield_loop]. destruct (gate_acquire_ready fuel w Hw) as (r & w1 & -> & Hw1).
  destruct r as [u|e]; [|done].
  pose proof (la_attempt Halone (estimate (sp_estimator (parts_of w1))) w1 Hw1) as Hw2.
  destruct (attempt _ w1) as [[x|e] w2]; cbn [snd] in Hw2; [by destruct (py_bind _ _ _) as [[?|?] ?]|].
  destruct (isinstance e ResilienceError); [done|].
  destruct (negb (is_exception e)); [done|].
  destruct (negb (slow_signal config e)); [done|].
  destruct (MAX_ATTEMPTS <=? S made)%nat; [done|].
  pose proof (take_retry_ready _ (slow_down_ready w2 Hw2)) as Hw3.
  destruct (take_retry _) as [[[|]|e'] w3]; cbn [snd] in Hw3; [|done..].
  pose proof (backoff_ready (S made) w3 Hw3) as Hw4. destruct (backoff_for _ _ w3) as [d w4].
  pose proof (pause_ready d w4 Hw4) as Hw5.
  destruct (await_pause d w4) as [[u'|e'] w5]; [|done]. by apply IH.
Qed.

(** A shielded call always comes to an end when each attempt does: with the gate
    left to it, a caller needs no more than two turns at the gate before each of its
    at most four attempts, even when every one of them is slow and shrinks the rate,
    and whether it is cancelled or not. *)
Lemma execute_returns (fuel : nat) (w : W) :
  gate_ready w ->
  (execute cube_root fmt2 str_nat config attempt cache key fallback (S (S fuel)) w).1 <> None.
Proof.
  intros Hw. unfold execute. pose proof (loop_returns fuel MAX_ATTEMPTS 0 0 w Hw) as Hl.
  destruct (shield_loop _ _ _ _ _ _ _ _ _ _) as [[r|e reason made|] w']; [done| |done].
  by destruct (handle_give_up _ _ _ _ _ _).
Qed.
End Returns.

(** ** What a shielded call does, seen from outside *)

Section Outcome.
Context {W V : Type} `{ShieldWorld W}.

#[local] Obligation Tactic := idtac.

(** An effect on the world that is not an attempt. *)
Definition untraced {A} (m : py W exn A) : py (Traced W V) exn A := fun t =>
  let '(r, w) := m (t_world t) in (r, mkTraced w (t_calls t) (t_sleeps t) (t_ends t)).

(** The record of the attempts, beside the world. *)
#[export] Program Instance traced_shield : ShieldWorld (Traced W V) := {
  parts_of t := parts_of (t_world t);
  set_parts p t := mkTraced (set_parts p (t_world t)) (t_calls t) (t_sleeps t) (t_ends t);
  checkpoint := untraced checkpoint;
}.
Next Obligation. intros p t. apply parts_set. Qed.
Next Obligation.
  intros t. pose proof (checkpoint_monotonic (t_world t)) as Hm. unfold untraced.
  by destruct (checkpoint (t_world t)).
Qed.
Next Obligation.
  intros t e. pose proof (checkpoint_cancels (t_world t) e) as Hc. unfold untraced.
  by destruct (checkpoint (t_world t)).
Qed.

Definition untraced_cache (c : option ((string -> py W exn (option V)) * (string -> V -> W -> W))) :
    option ((string -> py (Traced W V) exn (option V)) * (string -> V -> Traced W V -> Traced W V)) :=
  match c with
  | None => None
  | Some (get, spawn) =>
      Some (fun k => untraced (get k),
            fun k v t => mkTraced (spawn k v (t_world t)) (t_calls t) (t_sleeps t) (t_ends t))
  end.

Definition untraced_fallback (f : option (exn -> py W exn V)) :
    option (exn -> py (Traced W V) exn V) :=
  match f with None => None | Some f => Some (fun e => untraced (f e)) end.

Context (cube_root : Q -> Q) (fmt2 : Q -> string) (str_nat : nat -> string).
Context (config : ShieldConfig) (attempt : Q -> py W exn V).
Context (cache : option ((string -> py W exn (option V)) * (string -> V -> W -> W))).
Context (key : outcome exn string) (fallback : option (exn -> py W exn V)).

Abbreviation cache' := (untraced_cache cache).
Abbreviation fallback' := (untraced_fallback fallback).
Abbreviation attempt' := (fun t => traced (attempt t)).

(** Exceptions that pass through a shield untouched. *)
Definition passes_through (e : exn) : bool := isinstance e ResilienceError || negb (is_exception e).

(** An attempt after which the loop may go on. *)
Definition retried (o : outcome exn V) : Prop :=
  match o with
  | Return _ => False
  | Raise e => passes_through e = false /\ slow_signal config e = true
  end.

(** What the loop ends with at [t], against the outcomes of its attempts: all but
    the last were retried, and the last decides; or the task was cancelled at an
    [await] of the shield, between two attempts (or before the first), or while the
    success of the last was fed back; or it is still at the gate. *)
Inductive verdict_ok (t : Traced W V) : list (outcome exn V) -> shield_verdict (V := V) -> Prop :=
| vo_returned earlier x :
    Forall retried earlier -> verdict_ok t (earlier ++ [Return x]) (Finished (Return x))
| vo_key_raised earlier x e :
    Forall retried earlier -> cache <> None -> key = Raise e ->
    verdict_ok t (earlier ++ [Return x]) (Finished (Raise e))
| vo_passed earlier e :
    Forall retried earlier -> passes_through e = true ->
    verdict_ok t (earlier ++ [Raise e]) (Finished (Raise e))
| vo_not_slow earlier e :
    Forall retried earlier -> passes_through e = false -> slow_signal config e = false ->
    verdict_ok t (earlier ++ [Raise e]) (GivenUp e NonRetryable (S (length earlier)))
| vo_attempts earlier e :
    Forall retried earlier -> retried (Raise e) -> S (length earlier) = MAX_ATTEMPTS ->
    verdict_ok t (earlier ++ [Raise e]) (GivenUp e AttemptsExhausted MAX_ATTEMPTS)
| vo_budget earlier e :
    Forall retried earlier -> retried (Raise e) -> (S (length earlier) < MAX_ATTEMPTS)%nat ->
    (rb_available (sp_budget (parts_of t)) <= 0)%Z ->
    verdict_ok t (earlier ++ [Raise e]) (GivenUp e BudgetExhausted (S (length earlier)))
| vo_cancelled calls e :
    Forall retried calls -> (length calls < MAX_ATTEMPTS)%nat -> exn_cls e = CancelledError ->
    verdict_ok t calls (Finished (Raise e))
| vo_cancelled_late earlier x e :
    Forall retried earlier -> exn_cls e = CancelledError ->
    verdict_ok t (earlier ++ [Return x]) (Finished (Raise e))
| vo_waiting calls :
    Forall retried calls -> (length calls < MAX_ATTEMPTS)%nat -> verdict_ok t calls Waiting.

(** An effect that makes no attempt and raises nothing but a cancellation. *)
Definition no_attempt {A} (t : Traced W V) (r : outcome exn A * Traced W V) : Prop :=
  t_calls r.2 = t_calls t /\ forall e, r.1 = Raise e -> exn_cls e = CancelledError.

Lemma update_parts_calls f (t : Traced W V) : t_calls (update_parts f t) = t_calls t.
Proof. done. Qed.

Lemma checkpoint_calls (t : Traced W V) : no_attempt t (checkpoint t).
Proof.
  split; [|apply checkpoint_cancels]. cbn. unfold untraced. by destruct (checkpoint (t_world t)).
Qed.

(** Waiting at a checkpoint before a step that makes no attempt. *)
Lemma after_checkpoint_calls {A} (k : unit -> py (Traced W V) exn A) t :
  (forall u t1, no_attempt t1 (k u t1)) -> no_attempt t (py_bind checkpoint k t).
Proof.
  intros Hk. unfold py_bind. destruct (checkpoint_calls t) as [Hc He].
  destruct (checkpoint t) as [[u|e] t1]; cbn [fst snd] in *.
  - destruct (Hk u t1) as [Hc' He']. split; [by rewrite Hc'|done].
  - split; [done|]. by intros e' [= <-]; apply He.
Qed.

Lemma await_sleep_calls d (t : Traced W V) : no_attempt t (await_sleep d t).
Proof. by apply after_checkpoint_calls. Qed.

Lemma await_pause_calls d (t : Traced W V) : no_attempt t (await_pause d t).
Proof. unfold await_pause. destruct (_ >? _)%py; [apply await_sleep_calls|done]. Qed.

Lemma gate_turn_calls (t : Traced W V) : t_calls (gate_turn t).2 = t_calls t.
Proof. unfold gate_turn. by destruct (gate_try _ _). Qed.

Lemma gate_wait_calls fuel (t : Traced W V) :
  t_calls (gate_wait fuel t).2 = t_calls t /\
  forall e, (gate_wait fuel t).1 = Some (Raise e) -> exn_cls e = CancelledError.
Proof.
  revert t. induction fuel as [|fuel IH]; intros t; [done|]. cbn [gate_wait].
  destruct (checkpoint_calls t) as [Hc He]. destruct (checkpoint t) as [[u|e] t1]; cbn [fst snd] in *.
  2: { split; [done|]. intros e' [= <-]. by apply He. }
  pose proof (gate_turn_calls t1) as Ht. destruct (gate_turn t1) as [[d|] t2]; cbn [snd] in Ht.
  2: { split; [cbn; congruence|done]. }
  destruct (await_sleep_calls d t2) as [Hs Hse].
  destruct (await_sleep d t2) as [[u2|e] t3]; cbn [fst snd] in *.
  - destruct (IH t3) as [-> Hi]. split; [congruence|done].
  - split; [congruence|]. intros e' [= <-]. by apply Hse.
Qed.

Lemma gate_acquire_calls fuel (t : Traced W V) :
  t_calls (gate_acquire fuel t).2 = t_calls t /\
  forall e, (gate_acquire fuel t).1 = Some (Raise e) -> exn_cls e = CancelledError.
Proof.
  unfold gate_acquire. destruct (g_enabled _); [apply gate_wait_calls|].
  split; [apply gate_turn_calls|done].
Qed.

Lemma backoff_for_calls n (t : Traced W V) : t_calls (backoff_for config n t).2 = t_calls t.
Proof. unfold backoff_for. simpl. by destruct (random (t_world t)). Qed.

Lemma take_retry_calls (t : Traced W V) :
  no_attempt t (take_retry t) /\
  ((take_retry t).1 = Return false ->
   (rb_available (sp_budget (parts_of (take_retry t).2)) <= 0)%Z).
Proof.
  unfold take_retry. split.
  - apply after_checkpoint_calls. intros u t1. by destruct (budget_acquire _).
  - unfold py_bind. destruct (checkpoint t) as [[u|e] t1]; [|done]. unfold budget_acquire.
    destruct (Z.leb_spec (rb_available (sp_budget (parts_of t1))) 0) as [Hle|]; [|done].
    intros _. cbn. by rewrite parts_set.
Qed.

Lemma after_success_calls started retries (t : Traced W V) :
  no_attempt t (after_success started retries t).
Proof.
  unfold after_success. cbv zeta. match goal with |- no_attempt _ (py_bind ?c ?k ?t1) =>
    change (no_attempt t1 (py_bind c k t1)) end. by apply after_checkpoint_calls.
Qed.

(** The end of an attempt that returned. *)
Lemma success_verdict started retries x (t : Traced W V) earlier :
  Forall retried earlier -> t_calls t = earlier ++ [Return x] ->
  let '(r, t') := py_bind (after_success started retries)
                    (fun _ => fire_and_forget_cache_set cache' key x) t in
  t_calls t' = t_calls t /\
  verdict_ok t' (t_calls t') (Finished (match r with Return _ => Return x | Raise e => Raise e end)).
Proof.
  intros Hall Ec. destruct (after_success_calls started retries t) as [Hc He]. unfold py_bind.
  destruct (after_success started retries t) as [[u|e] t1]; cbn [fst snd] in *.
  2: { split; [done|]. rewrite Hc, Ec. apply vo_cancelled_late; auto. }
  rewrite Ec in Hc. unfold fire_and_forget_cache_set, untraced_cache.
  destruct cache as [[get spawn]|] eqn:Ecache; [destruct key as [k|e] eqn:Ek|]; cbn [t_calls];
    rewrite Hc; (split; [done|]).
  - by apply vo_returned.
  - apply vo_key_raised; [done|by rewrite Ecache|done].
  - by apply vo_returned.
Qed.

Lemma retried_snoc earlier e :
  Forall retried earlier -> retried (Raise e) -> Forall retried (earlier ++ [Raise e]).
Proof. intros. apply Forall_app. split; [done|]. by apply Forall_singleton. Qed.

Lemma loop_verdict fuel k made retries (t : Traced W V) :
  (0 < k)%nat -> (k + made = MAX_ATTEMPTS)%nat -> made = length (t_calls t) ->
  Forall retried (t_calls t) ->
  let '(v, t') := shield_loop cube_root config attempt' cache' key fuel k made retries t in
  (length (t_calls t') <= MAX_ATTEMPTS)%nat /\ verdict_ok t' (t_calls t') v.
Proof.
  revert made retries t. induction k as [|k IH]; intros made retries t Hpos Hk Hm Hall; [lia|].
  cbn [shield_loop]. destruct (gate_acquire_calls fuel t) as [Hg Hge].
  destruct (gate_acquire fuel t) as [[[u|e]|] t1]; cbn [fst snd] in *.
  2: { rewrite Hg. split; [lia|]. apply vo_cancelled; [done|lia|by apply Hge]. }
  2: { rewrite Hg. split; [lia|]. apply vo_waiting; [done|lia]. }
  unfold traced at 1. destruct (attempt _ (t_world t1)) as [[x|e] w2].
  all: set (t2 := mkTraced w2 _ _ _); assert (t_calls t2 = t_calls t1 ++ [_]) as Ec by done.
  all: rewrite Hg in Ec; assert (length (t_calls t2) = S made) as El
    by (rewrite Ec, length_app, Hm; simpl; lia).
  { pose proof (success_verdict (monotonic t1) retries x t2 (t_calls t) Hall Ec) as Hs.
    destruct (py_bind _ _ t2) as [[u'|e] t3], Hs as [Hc3 Hv]; (split; [rewrite Hc3, El; lia|exact Hv]). }
  destruct (isinstance e ResilienceError) eqn:Er; [|destruct (is_exception e) eqn:Ee; cbn [negb]].
  1,3: split; [lia|]; rewrite Ec; apply vo_passed; [done|]; unfold passes_through; by rewrite Er, ?Ee.
  assert (passes_through e = false) as Hp by (unfold passes_through; by rewrite Er, Ee).
  destruct (slow_signal config e) eqn:Es; cbn [negb].
  2: { split; [lia|]. rewrite Ec, Hm. by apply vo_not_slow. }
  assert (t_calls (slow_down cube_root t2) = t_calls t ++ [Raise e]) as Ecs by done.
  destruct (Nat.leb_spec MAX_ATTEMPTS (S made)) as [Hge'|Hlt].
  { assert (S made = MAX_ATTEMPTS) as Emax by lia. rewrite Emax, Ecs.
    split; [rewrite length_app; simpl; lia|]. apply vo_attempts; [done|done|lia]. }
  pose proof (retried_snoc _ e Hall (conj Hp Es)) as Hall'.
  assert (length (t_calls t ++ [Raise e]) = S made) as El' by (rewrite length_app, Hm; simpl; lia).
  destruct (take_retry_calls (slow_down cube_root t2)) as [[Hc Hce] Hb].
  destruct (take_retry (slow_down cube_root t2)) as [[[|]|e'] t4]; cbn [fst snd] in *; rewrite Ecs in Hc.
  3: { rewrite Hc, El'. split; [lia|]. apply vo_cancelled; [done|lia|auto]. }
  2: { rewrite Hc, El', Hm. split; [lia|]. apply vo_budget; [done|done|lia|auto]. }
  pose proof (backoff_for_calls (S made) t4) as Hbk. destruct (backoff_for _ _ t4) as [d t5].
  cbn [snd] in Hbk. destruct (await_pause_calls d t5) as [Hpc Hpe].
  destruct (await_pause d t5) as [[u'|e'] t6]; cbn [fst snd] in *; rewrite Hbk, Hc in Hpc.
  - apply IH; [lia|lia|by rewrite Hpc, El'|by rewrite Hpc].
  - rewrite Hpc, El'. split; [lia|]. apply vo_cancelled; [done|lia|auto].
Qed.

Lemma untraced_calls {A} (m : py W exn A) (t : Traced W V) : t_calls (untraced m t).2 = t_calls t.
Proof. unfold untraced. by destruct (m (t_world t)). Qed.

Lemma report_calls (t : Traced W V) : t_calls (report_cache_error t).2 = t_calls t.
Proof. unfold report_cache_error. by destruct (match _ with Some _ => _ | None => _ end). Qed.

Lemma handle_give_up_calls e note (t : Traced W V) :
  t_calls (handle_give_up cache' key fallback' e note t).2 = t_calls t.
Proof.
  unfold handle_give_up, py_bind.
  assert (t_calls (recover_from_cache cache' key t).2 = t_calls t) as Hr.
  { unfold recover_from_cache, untraced_cache. destruct cache as [[get spawn]|]; [|done].
    destruct key as [k|e']; [|done]. pose proof (untraced_calls (get k) t) as Hu.
    destruct (untraced (get k) t) as [[v|e'] t1]; [done|]. cbn [snd] in Hu.
    destruct (is_exception e'); cbn [snd]; [|done]. by rewrite report_calls. }
  destruct (recover_from_cache cache' key t) as [[[v|]|e'] t1]; cbn [snd] in Hr; try done.
  unfold untraced_fallback. destruct fallback as [f|]; [|done]. by rewrite untraced_calls.
Qed.

Lemma traced_left_alone :
  left_alone attempt -> left_alone (W := Traced W V) attempt'.
Proof.
  intros [H1 H2 H3 H4 H5]. constructor.
  - intros d t. apply H1.
  - intros t. specialize (H2 (t_world t)). cbn. unfold untraced. by destruct (checkpoint (t_world t)).
  - intros t. specialize (H3 (t_world t)). cbn. by destruct (random (t_world t)).
  - intros p t. apply H4.
  - intros d t. specialize (H5 d (t_world t)). unfold traced. by destruct (attempt d (t_world t)).
Qed.

(** C21 A shielded call runs its function at most four times.  Every run but the
    last raised a slow-down signal.  If the last returned, so does the call (an error
    of a custom [cache_key] and a cancellation at the refund apart); a
    [ResilienceError], a cancellation or any other [BaseException] of the function
    comes through unchanged, without cache or fallback; and any other exception goes
    to the recovery, which for a slow-down signal happens only when the four runs are
    made or the shared budget is empty.  A call that is cancelled while it waits, at
    the gate, for the budget or in a backoff, raises that cancellation, after fewer
    than four runs (none, if it was before the first), all of which raised a
    slow-down signal; and a call that does not come to an end is still waiting at the
    gate.  That does not happen when the gate has room for a token and is left to the
    call: then two turns at it before each run are enough.  (A run of the function
    itself is taken to end.) *)
Theorem shield_outcome (fuel : nat) (w : W) :
  let '(r, t) := execute cube_root fmt2 str_nat config attempt' cache' key fallback' fuel
                   (mkTraced w [] [] []) in
  (length (t_calls t) <= MAX_ATTEMPTS)%nat /\
  (exists v t1, verdict_ok t1 (t_calls t) v /\
    match v with
    | Finished r' => r = Some r' /\ t = t1
    | GivenUp e reason made =>
        let note := give_up_note fmt2 str_nat config reason made (monotonic t1 - monotonic w) in
        (Some (handle_give_up cache' key fallback' e note t1).1 = r) /\
        (handle_give_up cache' key fallback' e note t1).2 = t
    | Waiting => r = None /\ t = t1
    end) /\
  (left_alone attempt -> gate_ready w -> (2 <= fuel)%nat -> r <> None).
Proof.
  assert (left_alone attempt -> gate_ready w -> (2 <= fuel)%nat ->
    (execute cube_root fmt2 str_nat config attempt' cache' key fallback' fuel
       (mkTraced w [] [] [])).1 <> None) as Hret.
  { intros Ha Hg Hf. destruct fuel as [|[|fuel]]; [lia..|].
    apply execute_returns; [by apply traced_left_alone|exact Hg]. }
  unfold execute in *.
  pose proof (loop_verdict fuel MAX_ATTEMPTS 0 0 (mkTraced w [] [] []) ltac:(unfold MAX_ATTEMPTS; lia)
                eq_refl eq_refl (List.Forall_nil _)) as Hv.
  destruct (shield_loop _ _ _ _ _ _ _ _ _ _) as [[r'|e reason made|] t1]; destruct Hv as [Hl Hv].
  - split; [done|]. split; [|done]. by exists (Finished r'), t1.
  - match goal with |- context [handle_give_up _ _ _ _ ?n t1] =>
      pose proof (handle_give_up_calls e n t1) as Hc; destruct (handle_give_up _ _ _ _ n t1) as [r t] eqn:E end.
    cbn [snd] in Hc. rewrite Hc. split; [done|]. split; [|done].
    exists (GivenUp e reason made), t1. split; [done|]. cbv zeta. change (monotonic (mkTraced w [] [] [])) with (monotonic w) in E.
    by rewrite E.
  - split; [done|]. split; [|done]. by exists Waiting, t1.
Qed.

(** The recovery order: a cached value is returned and the fallback is not
    called; without a cache, on a miss and on a cache that fails, the fallback
    decides with the exception it is given; without either the exception is
    raised again with the one note added, and nothing else about it changed. *)
Lemma recovery_order (e : exn) (note : string) (w : W) :
  match recover_from_cache cache key w with
  | (Return (Some v), w') => handle_give_up cache key fallback e note w = (Return v, w')
  | (Return None, w') =>
      handle_give_up cache key fallback e note w =
        match fallback with
        | Some f => f e w'
        | None => (Raise (add_note note e), w')
        end
  | (Raise e', w') =>
      handle_give_up cache key fallback e note w = (Raise e', w') /\
      (key = Raise e' \/ is_exception e' = false)
  end.
Proof.
  unfold handle_give_up, py_bind.
  destruct (recover_from_cache cache key w) as [[[v|]|e'] w'] eqn:E; [done|by destruct fallback|].
  split; [done|]. revert E. unfold recover_from_cache. destruct cache as [[get spawn]|]; [|done].
  destruct key as [k|e2]; [|intros [= <- _]; by left].
  destruct (get k w) as [[v|e2] w2]; [done|]. destruct (is_exception e2) eqn:Ee; [done|].
  intros [= <- _]. by right.
Qed.
End Outcome.

(** ** Concrete runs *)

(** A simulated clock that only sleeping moves, the parts, the outcomes the function
    still has to give, and at how many more awaits of the shield the task goes on
    before it is cancelled, if it is. *)
Record ShieldSim : Type := mkShieldSim {
  ss_now : Q;
  ss_parts : ShieldParts;
  ss_script : list (outcome exn Z);
  ss_cancel : option nat;
}.

#[local] Obligation Tactic := idtac.

#[export] Program Instance shield_sim_runtime : Runtime ShieldSim := {
  monotonic := ss_now;
  sleep d w := mkShieldSim (ss_now w + d) (ss_parts w) (ss_script w) (ss_cancel w);
  random w := (1 # 2, w);
}.
Next Obligation. intros d w. apply Qle_refl. Qed.
Next Obligation. intros w. apply Qle_refl. Qed.
Next Obligation. by intros w. Qed.

Definition sim_checkpoint : py ShieldSim exn unit := fun w =>
  let left n := mkShieldSim (ss_now w) (ss_parts w) (ss_script w) n in
  match ss_cancel w with
  | None => (Return tt, w)
  | Some O => (Raise (mk_exn CancelledError NoInfo), left None)
  | Some (S n) => (Return tt, left (Some n))
  end.

#[export] Program Instance shield_sim : ShieldWorld ShieldSim := {
  parts_of := ss_parts;
  set_parts p w := mkShieldSim (ss_now w) p (ss_script w) (ss_cancel w);
  checkpoint := sim_checkpoint;
}.
Next Obligation. done. Qed.
Next Obligation. intros w. unfold sim_checkpoint. destruct (ss_cancel w) as [[|n]|]; apply Qle_refl. Qed.
Next Obligation.
  intros w e. unfold sim_checkpoint. destruct (ss_cancel w) as [[|n]|]; try done. by intros [= <-].
Qed.

Definition sim_attempt : Q -> py ShieldSim exn Z := fun _ w =>
  match ss_script w with
  | o :: script => (o, mkShieldSim (ss_now w) (ss_parts w) script (ss_cancel w))
  | [] => (Raise (mk_exn RuntimeError NoInfo), w)
  end.

Definition api : ShieldConfig := api_profile [] None.

Definition api_parts : ShieldParts :=
  match build_state api 0 None with
  | Return p => p
  | Raise _ => mkParts (mkBudget 0 0) demo_gate_start (mkEstimator 0 0 0 [] 0 0) None
  end.

Definition slow_twice_until (cancel : option nat) : ShieldSim :=
  mkShieldSim 0 api_parts
    [Raise (mk_exn TimeoutError NoInfo); Raise (mk_exn TimeoutError NoInfo); Return 7%Z] cancel.
Definition slow_twice : ShieldSim := slow_twice_until None.

Definition api_call (w : ShieldSim) : option (outcome exn Z) * Traced ShieldSim Z :=
  execute no_root no_fmt no_str api (fun t => traced (sim_attempt t)) None (Return "k") None 2
    (mkTraced w [] [] []).

Lemma slow_twice_ready cancel : gate_ready (slow_twice_until cancel).
Proof.
  split; [|by vm_compute].
  by apply (build_state_ok api 0 None api_parts).
Qed.

Lemma sim_left_alone : left_alone sim_attempt.
Proof.
  constructor; try done.
  - intros w. cbn. unfold sim_checkpoint. by destruct (ss_cancel w) as [[|n]|].
  - intros t w Hw. unfold sim_attempt. by destruct (ss_script w).
Qed.

Lemma execute_returns_witness :
  (execute no_root no_fmt no_str api sim_attempt None (Return "k") None 2 slow_twice).1 <> None.
Proof.
  apply (execute_returns no_root no_fmt no_str api sim_attempt None (Return "k") None sim_left_alone 0).
  apply slow_twice_ready.
Defined.

(** Two slow calls and a success; and the same task cancelled at its second await, in
    the sleep before the second attempt. *)
Lemma shield_outcome_witness :
  (api_call slow_twice).1 = Some (Return 7%Z) /\
  (length (t_calls (api_call slow_twice).2) <= MAX_ATTEMPTS)%nat /\
  (api_call (slow_twice_until (Some 1%nat))).1 = Some (Raise (mk_exn CancelledError NoInfo)) /\
  exists v t1, verdict_ok api None (Return "k") t1 (t_calls (api_call (slow_twice_until (Some 1%nat))).2) v.
Proof.
  assert (forall cancel, (length (t_calls (api_call (slow_twice_until cancel)).2) <= MAX_ATTEMPTS)%nat /\
    (exists v t1, verdict_ok api None (Return "k") t1 (t_calls (api_call (slow_twice_until cancel)).2) v) /\
    (api_call (slow_twice_until cancel)).1 <> None) as Hall.
  { intros cancel.
    pose proof (shield_outcome no_root no_fmt no_str api sim_attempt None (Return "k") None 2
                  (slow_twice_until cancel)) as Hp.
    change (execute _ _ _ _ _ _ _ _ _ _) with (api_call (slow_twice_until cancel)) in Hp.
    destruct (api_call (slow_twice_until cancel)) as [r t].
    destruct Hp as (Hl & (v & t1 & Hv & _) & Hn). split; [exact Hl|]. split; [by exists v, t1|].
    apply Hn; [apply sim_left_alone|apply slow_twice_ready|lia]. }
  split; [vm_compute; reflexivity|]. split; [apply Hall|]. split; [vm_compute; reflexivity|].
  apply Hall.
Defined.

(** A [cache_key] that raises turns a call that succeeded into a failure: the
    value is computed after the attempt, outside its [try]. *)
Lemma cache_key_error_breaks_success :
  let cache := Some ((fun _ w => (Return None, w)), (fun (_ : string) (_ : Z) (w : ShieldSim) => w)) in
  exists w', execute no_root no_fmt no_str api sim_attempt cache
    (Raise (mk_exn KeyError NoInfo)) None 2 (mkShieldSim 0 api_parts [Return 7%Z] None) =
    (Some (Raise (mk_exn KeyError NoInfo)), w').
Proof. eexists. by vm_compute. Qed.
