(* ===== verification/IpAddress.v ===== *)
(** * IP addresses and networks

    The part of the standard library's [ipaddress] that [clientip.py] uses:
    parsing an address, the IPv4-mapped range, networks with their strict
    constructor and membership, and the compressed text of an address.  A string
    is a list of the first 256 code points; an address is its integer, with the
    zone of a scoped IPv6 address. *)

From S2P Require Import Prelude PyStr.
From Stdlib Require Import Ascii String.

Local Open Scope list_scope.
Local Open Scope Z_scope.

#[local] Abbreviation length := Datatypes.length.

Inductive ip_address : Type :=
| V4 (n : Z)
| V6 (n : Z) (scope_id : option string).

#[export] Instance ip_address_eq_dec : EqDecision ip_address.
Proof. solve_decision. Defined.

Inductive ip_network : Type :=
| Net4 (addr : Z) (prefixlen : Z)
| Net6 (addr : Z) (scope_id : option string) (prefixlen : Z).

(** ** Parsing *)

Fixpoint has_char (c : ascii) (s : string) : bool :=
  match s with
  | EmptyString => false
  | String d s => Ascii.eqb d c || has_char c s
  end.

Definition is_empty (s : string) : bool := String.eqb s "".

(** [s.isascii() and s.isdigit()]: false for the empty string. *)
Definition ascii_digits (s : string) : bool := negb (is_empty s) && string_forall is_digit s.

(** [int(s)] on a string of digits, without the limit on its length. *)
Fixpoint dec_value (acc : Z) (s : string) : Z :=
  match s with
  | EmptyString => acc
  | String c s => dec_value (acc * 10 + (code c - 48)) s
  end.

(** [_BaseV4._parse_octet] *)
Definition parse_octet (s : string) : option Z :=
  if negb (ascii_digits s) then None
  else if (3 <? String.length s)%nat then None
  else if negb (String.eqb s "0") && String.prefix "0" s then None
  else
    let n := dec_value 0 s in
    if 255 <? n then None else Some n.

(** [_BaseV4._ip_int_from_string] *)
Definition v4_int (s : string) : option Z :=
  match split_on "." s with
  | [a; b; c; d] =>
      a ← parse_octet a; b ← parse_octet b; c ← parse_octet c; d ← parse_octet d;
      Some (((a * 256 + b) * 256 + c) * 256 + d)
  | _ => None
  end.

(** [IPv4Address(s)] *)
Definition parse_v4 (s : string) : option Z := if has_char "/" s then None else v4_int s.

Definition hex_value (c : ascii) : option Z :=
  let n := code c in
  if (48 <=? n) && (n <=? 57) then Some (n - 48)
  else if (97 <=? n) && (n <=? 102) then Some (n - 87)
  else if (65 <=? n) && (n <=? 70) then Some (n - 55)
  else None.

Fixpoint hex_int (acc : Z) (s : string) : option Z :=
  match s with
  | EmptyString => Some acc
  | String c s => d ← hex_value c; hex_int (acc * 16 + d) s
  end.

(** [_BaseV6._parse_hextet] *)
Definition parse_hextet (s : string) : option Z :=
  if is_empty s || (4 <? String.length s)%nat then None else hex_int 0 s.

(** Shifting the hextets of a list into an integer. *)
Fixpoint hextets_int (acc : Z) (parts : list string) : option Z :=
  match parts with
  | [] => Some acc
  | p :: parts =>
      h ← parse_hextet p; hextets_int (Z.lor (Z.shiftl acc 16) h) parts
  end.

(** ['%x' % n] for a hextet. *)
Definition hex_digit (d : Z) : ascii :=
  ascii_of_nat (Z.to_nat (if d <? 10 then d + 48 else d + 87)).

Definition hextet_str (n : Z) : string :=
  let d3 := n / 4096 in
  let d2 := n / 256 mod 16 in
  let d1 := n / 16 mod 16 in
  let d0 := n mod 16 in
  if 4096 <=? n then String (hex_digit d3) (String (hex_digit d2) (String (hex_digit d1) (String (hex_digit d0) "")))
  else if 256 <=? n then String (hex_digit d2) (String (hex_digit d1) (String (hex_digit d0) ""))
  else if 16 <=? n then String (hex_digit d1) (String (hex_digit d0) "")
  else String (hex_digit d0) "".

(** The IPv4 suffix of an IPv6 text, as two hextets. *)
Definition expand_suffix (parts : list string) : option (list string) :=
  let suffix := List.last parts ""%string in
  if has_char "." suffix then
    n ← parse_v4 suffix;
    Some (removelast parts ++
          [hextet_str (Z.land (Z.shiftr n 16) 65535); hextet_str (Z.land n 65535)])
  else Some parts.

(** The positions of [::] away from the ends. *)
Definition skips (parts : list string) : list nat :=
  List.filter (fun i => is_empty (nth i parts ""%string)) (seq 1 (length parts - 2)).

(** The numbers of parts before and after [::], and of the hextets it stands
    for. *)
Definition layout (parts : list string) : option (nat * nat * nat) :=
  let n := length parts in
  let first := is_empty (nth 0 parts ""%string) in
  let final := is_empty (List.last parts ""%string) in
  match skips parts with
  | [skip] =>
      let hi := (skip - if first then 1 else 0)%nat in
      let lo := (n - skip - 1 - if final then 1 else 0)%nat in
      if first && negb (hi =? 0)%nat then None
      else if final && negb (lo =? 0)%nat then None
      else if (8 <=? hi + lo)%nat then None
      else Some (hi, lo, (8 - (hi + lo))%nat)
  | [] =>
      if negb (n =? 8)%nat || first || final then None else Some (n, 0%nat, 0%nat)
  | _ => None
  end.

(** [_BaseV6._ip_int_from_string] *)
Definition v6_int (s : string) : option Z :=
  let parts := split_on ":" s in
  if (length parts <? 3)%nat then None
  else
    parts ← expand_suffix parts;
    if (9 <? length parts)%nat then None
    else
      l ← layout parts;
      let '(hi, lo, skipped) := l in
      acc ← hextets_int 0 (take hi parts);
      hextets_int (Z.shiftl acc (16 * Z.of_nat skipped)) (drop (length parts - lo) parts).

(** [IPv6Address(s)] with [_split_scope_id] *)
Definition parse_v6 (s : string) : option (Z * option string) :=
  if has_char "/" s then None
  else
    let '(addr, found, scope) := partition "%" s in
    if negb found then n ← v6_int addr; Some (n, None)
    else if is_empty scope || has_char "%" scope then None
    else n ← v6_int addr; Some (n, Some scope).

(** [ip_address(s)]; [None] is [ValueError]. *)
Definition parse_ip (s : string) : option ip_address :=
  match parse_v4 s with
  | Some n => Some (V4 n)
  | None => '(n, scope) ← parse_v6 s; Some (V6 n scope)
  end.

(** ** Networks *)

(** [_max_prefixlen] and [_ALL_ONES] of a version of [bits] bits. *)
Definition all_ones (bits : Z) : Z := Z.shiftl 1 bits - 1.

(** [_ip_int_from_prefix] *)
Definition netmask (bits prefixlen : Z) : Z :=
  Z.lxor (all_ones bits) (Z.shiftr (all_ones bits) prefixlen).

(** [_count_righthand_zero_bits] *)
Fixpoint trailing_zeros (fuel : nat) (n : Z) : nat :=
  match fuel with
  | O => 0
  | S fuel => if Z.odd n then 0 else S (trailing_zeros fuel (Z.shiftr n 1))
  end.

(** [_prefix_from_ip_int] *)
Definition prefix_from_int (bits n : Z) : option Z :=
  let t := Z.of_nat (trailing_zeros (Z.to_nat bits) n) in
  let prefixlen := bits - t in
  if Z.shiftr n t =? Z.shiftl 1 prefixlen - 1 then Some prefixlen else None.

(** [_prefix_from_prefix_string]; three digits are enough for any prefix, and
    a text of more than 4300 digits is refused as well. *)
Definition prefix_from_string (bits : Z) (s : string) : option Z :=
  if negb (ascii_digits s) then None
  else let n := dec_value 0 s in if n <=? bits then Some n else None.

(** [IPv4Network._make_netmask] on a string *)
Definition v4_prefix (s : string) : option Z :=
  match prefix_from_string 32 s with
  | Some p => Some p
  | None =>
      n ← v4_int s;
      match prefix_from_int 32 n with
      | Some p => Some p
      | None => prefix_from_int 32 (Z.lxor n (all_ones 32))
      end
  end.

(** [_split_optional_netmask]: the address and the mask. *)
Definition split_netmask (s : string) : option (string * option string) :=
  match split_on "/" s with
  | [a] => Some (a, None)
  | [a; m] => Some (a, Some m)
  | _ => None
  end.

(** No host bit is set. *)
Definition strict_ok (bits n prefixlen : Z) : bool := Z.land n (netmask bits prefixlen) =? n.

(** [IPv4Network(s)] *)
Definition parse_net4 (s : string) : option ip_network :=
  '(a, m) ← split_netmask s;
  n ← parse_v4 a;
  p ← match m with None => Some 32 | Some m => v4_prefix m end;
  if strict_ok 32 n p then Some (Net4 n p) else None.

(** [IPv6Network(s)] *)
Definition parse_net6 (s : string) : option ip_network :=
  '(a, m) ← split_netmask s;
  '(n, scope) ← parse_v6 a;
  p ← match m with None => Some 128 | Some m => prefix_from_string 128 m end;
  if strict_ok 128 n p then Some (Net6 n scope p) else None.

(** [ip_network(s)] *)
Definition parse_net (s : string) : option ip_network :=
  match parse_net4 s with
  | Some net => Some net
  | None => parse_net6 s
  end.

(** [ip_network(address)]: the network of one address. *)
Definition host_net (a : ip_address) : ip_network :=
  match a with
  | V4 n => Net4 n 32
  | V6 n scope => Net6 n scope 128
  end.

(** [address in network] *)
Definition in_net (a : ip_address) (net : ip_network) : bool :=
  match a, net with
  | V4 n, Net4 addr p => Z.land n (netmask 32 p) =? addr
  | V6 n _, Net6 addr _ p => Z.land n (netmask 128 p) =? addr
  | _, _ => false
  end.

(** [IPv6Address.ipv4_mapped] *)
Definition ipv4_mapped (n : Z) : option Z :=
  if Z.shiftr n 32 =? 65535 then Some (Z.land n (all_ones 32)) else None.

(** ** Printing *)

(** [str(IPv4Address)] *)
Definition v4_str (n : Z) : string :=
  str (Z.shiftr n 24) +:+ "." +:+ str (Z.land (Z.shiftr n 16) 255) +:+ "." +:+
  str (Z.land (Z.shiftr n 8) 255) +:+ "." +:+ str (Z.land n 255).

(** The eight hextets of an address, most significant first. *)
Definition hextets (n : Z) : list Z :=
  (fun i => Z.land (Z.shiftr n (16 * Z.of_nat i)) 65535) <$> rev (seq 0 8).

(** The loop of [_compress_hextets]: the first of the longest runs of zeros, as
    its start and length. *)
Fixpoint longest_run (index start len best_start best_len : nat) (hs : list Z) : nat * nat :=
  match hs with
  | [] => (best_start, best_len)
  | h :: hs =>
      if h =? 0 then
        let start := if (len =? 0)%nat then index else start in
        let len := S len in
        if (best_len <? len)%nat then longest_run (S index) start len start len hs
        else longest_run (S index) start len best_start best_len hs
      else longest_run (S index) start 0 best_start best_len hs
  end.

(** [_compress_hextets] *)
Definition compress (hs : list Z) : list string :=
  let '(start, len) := longest_run 0 0 0 0 0 hs in
  let strs := hextet_str <$> hs in
  if (1 <? len)%nat then
    (if (start =? 0)%nat then [""%string] else []) ++ take start strs ++ [""%string] ++
    drop (start + len) strs ++ (if (start + len =? length hs)%nat then [""%string] else [])
  else strs.

Definition v6_str (n : Z) (scope : option string) : string :=
  String.concat ":" (compress (hextets n)) +:+
  match scope with Some s => "%" +:+ s | None => "" end.

(** [address.compressed] *)
Definition compressed (a : ip_address) : string :=
  match a with
  | V4 n => v4_str n
  | V6 n scope => v6_str n scope
  end.

(** Examples, evaluated. *)
Example parse_examples :
  parse_ip "192.0.2.1" = Some (V4 3221225985) /\
  parse_ip "::ffff:192.0.2.1" = Some (V6 281473902969345 None) /\
  parse_ip "fe80::1%eth0" = Some (V6 338288524927261089654018896841347694593 (Some "eth0"%string)) /\
  parse_ip "192.0.2.01" = None /\ parse_ip "1::2::3" = None /\ parse_ip "1:2:3:4:5:6:7" = None /\
  parse_net "10.0.0.0/8" = Some (Net4 167772160 8) /\ parse_net "10.0.0.1/8" = None /\
  parse_net "10.0.0.0/255.0.0.0" = Some (Net4 167772160 8) /\
  compressed (V6 338288524927261089654018896841347694593 None) = "fe80::1"%string /\
  compressed (V6 0 None) = "::"%string /\ compressed (V4 3221225985) = "192.0.2.1"%string.
Proof. by vm_compute. Qed.

(** ** The printed text of an address parses to it *)

(** The characters of a printed address. *)
Definition text_char (c : ascii) : bool :=
  match hex_value c with Some _ => true | None => Ascii.eqb c ":" || Ascii.eqb c "." end.

Lemma has_char_free c s : has_char c s = negb (free_of c s).
Proof.
  unfold free_of. induction s as [|d s IH]; [done|]. cbn [has_char string_forall].
  rewrite IH. by destruct (Ascii.eqb d c), (string_forall _ s).
Qed.

Lemma digit_hex c : is_digit c = true -> hex_value c = Some (code c - 48).
Proof. unfold is_digit, hex_value. by intros ->. Qed.

(** Every octet, evaluated. *)
Lemma octets_checked :
  forallb (fun n => bool_decide (parse_octet (str (Z.of_nat n)) = Some (Z.of_nat n))) (seq 0 256) = true.
Proof. by vm_compute. Qed.

Lemma parse_octet_str n : 0 <= n < 256 -> parse_octet (str n) = Some n.
Proof.
  intros Hn. pose proof (proj1 (forallb_forall _ _) octets_checked (Z.to_nat n)) as H.
  cbv beta in H. rewrite Z2Nat.id in H by lia.
  eapply bool_decide_eq_true. apply H, in_seq. lia.
Qed.

Lemma land_ones n k : 0 <= k -> Z.land n (2 ^ k - 1) = n mod 2 ^ k.
Proof. intros Hk. rewrite <- Z.land_ones by done. f_equal. rewrite Z.ones_equiv. lia. Qed.

Lemma land_255 n : Z.land n 255 = n mod 256.
Proof. exact (land_ones n 8 ltac:(lia)). Qed.

Lemma land_65535 n : Z.land n 65535 = n mod 65536.
Proof. exact (land_ones n 16 ltac:(lia)). Qed.

Lemma v4_int_str n : 0 <= n < 2 ^ 32 -> v4_int (v4_str n) = Some n.
Proof.
  intros Hn. unfold v4_int, v4_str.
  assert (forall m, free_of "." (str m) = true) as Hf
    by (intros m; apply digits_free_of; [done|apply str_digits]).
  assert (forall a b, free_of "." a = true -> split_on "." (a +:+ "." +:+ b) = a :: split_on "." b) as Hs
    by (intros a b Ha; by apply (split_on_app "." a b)).
  rewrite !Hs, split_on_free by apply Hf. rewrite !land_255, !Z.shiftr_div_pow2 by lia.
  rewrite !parse_octet_str by (first [apply Z.mod_pos_bound; lia |
    split; [apply Z.div_pos; lia|apply Z.div_lt_upper_bound; lia]]).
  cbn [mbind option_bind]. f_equal.
  change (2 ^ 24) with 16777216. change (2 ^ 16) with 65536. change (2 ^ 8) with 256.
  Z.to_euclidean_division_equations. lia.
Qed.

Lemma string_forall_free (P : ascii -> bool) c s :
  (forall d, P d = true -> Ascii.eqb d c = false) -> string_forall P s = true -> free_of c s = true.
Proof.
  intros HP. apply string_forall_impl. intros d Hd. by rewrite HP.
Qed.

(** *** Hextets *)

Definition is_hex (c : ascii) : bool := match hex_value c with Some _ => true | None => false end.

Lemma hex_digits_checked :
  forallb (fun d => bool_decide (hex_value (hex_digit (Z.of_nat d)) = Some (Z.of_nat d))) (seq 0 16) = true.
Proof. by vm_compute. Qed.

Lemma hex_value_digit d : 0 <= d < 16 -> hex_value (hex_digit d) = Some d.
Proof.
  intros Hd. pose proof (proj1 (forallb_forall _ _) hex_digits_checked (Z.to_nat d)) as H.
  cbv beta in H. rewrite Z2Nat.id in H by lia.
  eapply bool_decide_eq_true. apply H, in_seq. lia.
Qed.

Lemma hextet_str_spec n :
  0 <= n < 65536 ->
  parse_hextet (hextet_str n) = Some n /\ is_empty (hextet_str n) = false /\
  string_forall is_hex (hextet_str n) = true.
Proof.
  intros Hn. unfold hextet_str.
  assert (0 <= n / 4096 < 16) as H3
    by (split; [apply Z.div_pos; lia|apply Z.div_lt_upper_bound; lia]).
  assert (forall m, 0 <= m mod 16 < 16) as Hm by (intros m; apply Z.mod_pos_bound; lia).
  pose proof (hex_value_digit _ H3) as V3. pose proof (fun m => hex_value_digit _ (Hm m)) as V.
  unfold parse_hextet, is_hex.
  destruct (Z.leb_spec 4096 n); [|destruct (Z.leb_spec 256 n); [|destruct (Z.leb_spec 16 n)]].
  all: split; [cbn [is_empty String.eqb orb String.length Nat.ltb Nat.leb hex_int mbind option_bind];
               rewrite ?V3, ?V; cbn [mbind option_bind hex_int]; rewrite ?V; cbn [mbind option_bind hex_int];
               rewrite ?V; cbn [mbind option_bind hex_int]; rewrite ?V; cbn [mbind option_bind hex_int]; f_equal;
               Z.to_euclidean_division_equations; lia|].
  all: split; [done|]; cbn [string_forall]; by rewrite ?V3, ?V.
Qed.

Lemma shift_lor acc h : 0 <= h < 65536 -> Z.lor (Z.shiftl acc 16) h = acc * 65536 + h.
Proof.
  intros Hh. rewrite Z.shiftl_mul_pow2 by lia. change (2 ^ 16) with 65536.
  rewrite <- (Z.add_lor_land (acc * 65536) h).
  assert (Z.land (acc * 65536) h = 0) as ->; [|lia].
  apply Z.bits_inj'. intros i Hi. rewrite Z.land_spec, Z.bits_0.
  change 65536 with (2 ^ 16). destruct (Z.lt_ge_cases i 16) as [Hlt|Hge].
  - by rewrite Z.mul_pow2_bits_low by lia.
  - rewrite (Z.bits_above_log2 h i); [apply andb_false_r|lia|].
    destruct (Z.eq_dec h 0) as [->|]; [simpl; lia|].
    apply Z.lt_le_trans with 16; [|lia]. apply Z.log2_lt_pow2; lia.
Qed.

(** The value of a list of hextets, as the parser builds it. *)
Definition hextets_value (acc : Z) (hs : list Z) : Z := foldl (fun acc h => acc * 65536 + h) acc hs.

Lemma hextets_int_strs acc hs :
  Forall (fun h => 0 <= h < 65536) hs ->
  hextets_int acc (hextet_str <$> hs) = Some (hextets_value acc hs).
Proof.
  intros H. revert acc. induction H as [|h hs Hh H IH]; intros acc; [done|].
  rewrite fmap_cons. cbn [hextets_int]. destruct (hextet_str_spec h Hh) as (-> & _ & _).
  cbn [mbind option_bind]. rewrite shift_lor by done. apply IH.
Qed.

Lemma hextets_value_app acc a b : hextets_value acc (a ++ b) = hextets_value (hextets_value acc a) b.
Proof. apply foldl_app. Qed.

Lemma hextets_value_zeros acc k : hextets_value acc (replicate k 0) = Z.shiftl acc (16 * Z.of_nat k).
Proof.
  rewrite Z.shiftl_mul_pow2 by lia. revert acc. induction k as [|k IH]; intros acc; [simpl; lia|].
  cbn [replicate hextets_value foldl]. unfold hextets_value in IH. rewrite IH.
  rewrite Nat2Z.inj_succ. replace (16 * Z.succ (Z.of_nat k)) with (16 * Z.of_nat k + 16) by lia.
  rewrite Z.pow_add_r by lia. change (2 ^ 16) with 65536. lia.
Qed.

Lemma hextets_range n : Forall (fun h => 0 <= h < 65536) (hextets n).
Proof.
  unfold hextets. apply Forall_fmap, Forall_forall. intros i _. cbn.
  rewrite land_65535. apply Z.mod_pos_bound. lia.
Qed.

Lemma hextets_value_low acc n k :
  hextets_value acc ((fun i => Z.land (Z.shiftr n (16 * Z.of_nat i)) 65535) <$> rev (seq 0 k)) =
  acc * 2 ^ (16 * Z.of_nat k) + n mod 2 ^ (16 * Z.of_nat k).
Proof.
  revert acc. induction k as [|k IH]; intros acc; [simpl; rewrite Z.mod_1_r; lia|].
  rewrite seq_S, rev_app_distr, fmap_app, hextets_value_app, IH.
  cbn [rev app fmap list_fmap hextets_value foldl]. rewrite land_65535, Z.shiftr_div_pow2 by lia.
  rewrite Nat2Z.inj_succ. replace (16 * Z.succ (Z.of_nat k)) with (16 * Z.of_nat k + 16) by lia.
  rewrite Z.pow_add_r by lia. rewrite (Z.rem_mul_r n) by lia.
  change (2 ^ 16) with 65536. rewrite Nat.add_0_l. lia.
Qed.

Lemma hextets_value_hextets n : 0 <= n < 2 ^ 128 -> hextets_value 0 (hextets n) = n.
Proof.
  intros Hn. unfold hextets. rewrite hextets_value_low. rewrite Z.mod_small by (simpl; lia). lia.
Qed.

(** *** The shape of a compressed text

    Which hextets [compress] drops depends only on which are zero, and so does
    the layout the parser finds: the 256 patterns are checked by evaluation. *)

(** The parts as positions of hextets; [None] is an empty part. *)
Definition compress_shape (zs : list bool) : list (option nat) :=
  let '(start, len) := longest_run 0 0 0 0 0 ((fun z : bool => if z then 0 else 1) <$> zs) in
  let all := Some <$> seq 0 8 in
  if (1 <? len)%nat then
    (if (start =? 0)%nat then [None] else []) ++ take start all ++ [None] ++
    drop (start + len) all ++ (if (start + len =? 8)%nat then [None] else [])
  else all.

Definition piece (hs : list Z) (o : option nat) : string :=
  match o with None => "" | Some i => hextet_str (nth i hs 0) end.

Definition missing (o : option nat) : bool := match o with None => true | Some _ => false end.

(** [layout] reads only which parts are empty. *)
Definition layout_of (es : list bool) : option (nat * nat * nat) :=
  let n := length es in
  let first := nth 0 es true in
  let final := List.last es true in
  match List.filter (fun i => nth i es true) (seq 1 (n - 2)) with
  | [skip] =>
      let hi := (skip - if first then 1 else 0)%nat in
      let lo := (n - skip - 1 - if final then 1 else 0)%nat in
      if first && negb (hi =? 0)%nat then None
      else if final && negb (lo =? 0)%nat then None
      else if (8 <=? hi + lo)%nat then None
      else Some (hi, lo, (8 - (hi + lo))%nat)
  | [] => if negb (n =? 8)%nat || first || final then None else Some (n, 0%nat, 0%nat)
  | _ => None
  end.

Lemma last_map {A B} (f : A -> B) l d : List.last (f <$> l) (f d) = f (List.last l d).
Proof. induction l as [|x [|y l] IH]; [done|done|]. exact IH. Qed.

Lemma layout_empties parts : layout parts = layout_of (is_empty <$> parts).
Proof.
  assert (forall i, nth i (is_empty <$> parts) true = is_empty (nth i parts ""%string)) as Hn
    by (intros i; exact (map_nth is_empty parts ""%string i)).
  assert (List.last (is_empty <$> parts) true = is_empty (List.last parts ""%string)) as Hl
    by exact (last_map is_empty parts ""%string).
  unfold layout, layout_of, skips. rewrite length_fmap, Hn, Hl.
  assert (List.filter (fun i => nth i (is_empty <$> parts) true) (seq 1 (length parts - 2)) =
    List.filter (fun i => is_empty (nth i parts ""%string)) (seq 1 (length parts - 2))) as ->; [|done].
  apply List.filter_ext. exact Hn.
Qed.

Definition shape_ok (zs : list bool) : bool :=
  let sh := compress_shape zs in
  (3 <=? length sh)%nat && (length sh <=? 9)%nat &&
  match layout_of (missing <$> sh) with
  | Some (hi, lo, sk) =>
      bool_decide (take hi sh = Some <$> seq 0 hi) &&
      bool_decide (drop (length sh - lo) sh = Some <$> seq (hi + sk) lo) &&
      (hi + sk + lo =? 8)%nat && forallb (fun i => nth i zs false) (seq hi sk)
  | None => false
  end.

Lemma shapes_checked zs : length zs = 8%nat -> shape_ok zs = true.
Proof.
  do 8 (destruct zs as [|[|] zs]; [done| |]); (destruct zs; [intros _; vm_compute; reflexivity|done]).
Qed.

Lemma longest_run_zeros i s l bs bl hs :
  longest_run i s l bs bl hs =
  longest_run i s l bs bl ((fun z : bool => if z then 0 else 1) <$> ((fun h => h =? 0) <$> hs)).
Proof.
  revert i s l bs bl. induction hs as [|h hs IH]; intros i s l bs bl; [done|].
  rewrite !fmap_cons. cbn [longest_run]. destruct (h =? 0); cbn [Z.eqb]; rewrite <- ?IH; done.
Qed.

Lemma nth_seq_eq (hs : list Z) a k :
  (a + k <= length hs)%nat -> (fun i => nth i hs 0) <$> seq a k = take k (drop a hs).
Proof.
  intros H. apply list_eq. intros j. destruct (Nat.lt_ge_cases j k) as [Hj|Hj].
  - rewrite list_lookup_fmap, lookup_seq_lt by done. rewrite lookup_take_lt by done.
    rewrite lookup_drop. cbn [fmap option_fmap option_map].
    destruct (lookup_lt_is_Some_2 hs (a + j)%nat ltac:(lia)) as [x Hx]. rewrite Hx. f_equal.
    by apply nth_lookup_Some.
  - rewrite !lookup_ge_None_2; [done| |]; rewrite ?length_fmap, ?length_seq, ?length_take; lia.
Qed.

Lemma pieces_some hs (l : list nat) : piece hs <$> (Some <$> l) = hextet_str <$> ((fun i => nth i hs 0) <$> l).
Proof. by rewrite <- !list_fmap_compose. Qed.

Lemma compress_pieces hs :
  length hs = 8%nat -> compress hs = piece hs <$> compress_shape ((fun h => h =? 0) <$> hs).
Proof.
  intros Hl. unfold compress, compress_shape. rewrite <- longest_run_zeros.
  assert (hextet_str <$> hs = piece hs <$> (Some <$> seq 0 8)) as E.
  { rewrite pieces_some, nth_seq_eq by lia. by rewrite drop_0, firstn_all2 by lia. }
  destruct (longest_run 0 0 0 0 0 hs) as [start len]. rewrite Hl, E.
  destruct (1 <? len)%nat; [|done]. rewrite !fmap_app, fmap_take, fmap_drop.
  by destruct (start =? 0)%nat, (start + len =? 8)%nat.
Qed.

Lemma zeros_replicate (hs : list Z) a k :
  (a + k <= length hs)%nat ->
  forallb (fun i => nth i ((fun h => h =? 0) <$> hs) false) (seq a k) = true ->
  take k (drop a hs) = replicate k 0.
Proof.
  intros Hl H. rewrite <- nth_seq_eq by done. revert a Hl H.
  induction k as [|k IH]; intros a Hl H; [done|]. cbn [seq forallb] in H.
  apply andb_prop in H as [H0 H]. cbn [seq replicate]. rewrite fmap_cons, IH by (done || lia). f_equal.
  destruct (lookup_lt_is_Some_2 hs a ltac:(lia)) as [x Hx].
  rewrite (nth_lookup_Some _ _ _ (x =? 0)) in H0 by (by rewrite list_lookup_fmap, Hx).
  rewrite (nth_lookup_Some _ _ _ _ Hx). by apply Z.eqb_eq.
Qed.

(** *** Parsing a printed IPv6 address *)

Lemma piece_spec hs o :
  Forall (fun h => 0 <= h < 65536) hs ->
  is_empty (piece hs o) = missing o /\ string_forall is_hex (piece hs o) = true.
Proof.
  intros Hhs. destruct o as [i|]; [|done]. cbn [piece missing].
  assert (0 <= nth i hs 0 < 65536) as Hh.
  { destruct (hs !! i) as [h|] eqn:E.
    - rewrite (nth_lookup_Some _ _ _ _ E). exact (Forall_lookup_1 _ _ _ _ Hhs E).
    - rewrite nth_overflow; [lia|]. by apply lookup_ge_None_1. }
  by destruct (hextet_str_spec _ Hh) as (_ & H1 & H2).
Qed.

Lemma hex_free c s : is_hex c = false -> string_forall is_hex s = true -> free_of c s = true.
Proof.
  intros Hc. apply string_forall_free. intros d Hd. apply Ascii.eqb_neq. congruence.
Qed.

Lemma v6_int_compress hs :
  length hs = 8%nat -> Forall (fun h => 0 <= h < 65536) hs ->
  v6_int (String.concat ":" (compress hs)) = Some (hextets_value 0 hs).
Proof.
  intros Hl Hhs. rewrite (compress_pieces hs Hl). set (zs := (fun h => h =? 0) <$> hs).
  pose proof (shapes_checked zs ltac:(unfold zs; by rewrite length_fmap)) as Hok.
  unfold shape_ok in Hok. set (sh := compress_shape zs) in *.
  apply andb_prop in Hok as [[H3 H9]%andb_prop Hok].
  apply Nat.leb_le in H3, H9.
  destruct (layout_of (missing <$> sh)) as [[[hi lo] sk]|] eqn:El; [|done].
  apply andb_prop in Hok as [[[Hhi Hlo]%andb_prop H8]%andb_prop Hz].
  apply bool_decide_eq_true in Hhi, Hlo. apply Nat.eqb_eq in H8.
  set (parts := piece hs <$> sh).
  assert (length parts = length sh) as Hlen by apply length_fmap.
  assert (Forall (fun p => string_forall is_hex p = true) parts) as Hhex.
  { apply Forall_fmap, Forall_forall. intros o _. by apply piece_spec. }
  unfold v6_int. rewrite (split_on_concat ":" parts).
  2: { intros E. apply (f_equal length) in E. simpl in E. lia. }
  2: { eapply Forall_impl; [exact Hhex|]. intros p Hp. by apply hex_free. }
  rewrite (proj2 (Nat.ltb_ge (length parts) 3)) by lia.
  assert (expand_suffix parts = Some parts) as ->.
  { unfold expand_suffix. rewrite has_char_free.
    assert (free_of "." (List.last parts ""%string) = true) as ->; [|done].
    apply hex_free; [done|]. change ""%string with (piece hs None). unfold parts. rewrite last_map.
    by apply piece_spec. }
  cbn [mbind option_bind]. rewrite (proj2 (Nat.ltb_ge 9 (length parts))) by lia.
  rewrite layout_empties.
  assert (is_empty <$> parts = missing <$> sh) as ->.
  { unfold parts. rewrite <- list_fmap_compose. apply list_fmap_ext. intros i o _.
    by destruct (piece_spec hs o Hhs). }
  rewrite El. cbn [mbind option_bind]. rewrite Hlen. unfold parts.
  rewrite <- fmap_take, <- fmap_drop, Hhi, Hlo, !pieces_some, !nth_seq_eq by lia.
  rewrite drop_0, hextets_int_strs by (by apply Forall_take). cbn [mbind option_bind].
  rewrite hextets_int_strs by (by apply Forall_take, Forall_drop). f_equal.
  rewrite <- hextets_value_zeros, <- (zeros_replicate hs hi sk) by (lia || exact Hz).
  rewrite <- !hextets_value_app. f_equal.
  rewrite (firstn_all2 (drop (hi + sk) hs)) by (rewrite length_drop; lia).
  rewrite <- (drop_drop hs sk hi), take_drop. by rewrite take_drop.
Qed.

(** The addresses that [ipaddress] can hold; no zone. *)
Definition valid_address (a : ip_address) : Prop :=
  match a with
  | V4 n => 0 <= n < 2 ^ 32
  | V6 n scope => 0 <= n < 2 ^ 128 /\ scope = None
  end.

Lemma append_empty_r (s : string) : s +:+ "" = s.
Proof.
  induction s as [|c s IH]; [done|]. change (String c s +:+ "") with (String c (s +:+ "")).
  by rewrite IH.
Qed.

Lemma v4_str_digits n : string_forall (fun c => is_digit c || Ascii.eqb c ".") (v4_str n) = true.
Proof.
  assert (forall m, string_forall (fun c => is_digit c || Ascii.eqb c ".") (str m) = true) as Hs.
  { intros m. eapply string_forall_impl; [|apply str_digits]. intros c Hc. by rewrite Hc. }
  unfold v4_str. by rewrite !string_forall_app, !Hs.
Qed.

(** Printing an address and parsing the text gives the address back: the text
    identifies the address. *)
Lemma parse_compressed a : valid_address a -> parse_ip (compressed a) = Some a.
Proof.
  destruct a as [n|n scope]; cbn [valid_address compressed]; unfold parse_ip, parse_v4.
  - intros Hn. rewrite has_char_free.
    assert (free_of "/" (v4_str n) = true) as ->.
    { eapply string_forall_free, v4_str_digits. intros d Hd. apply orb_prop in Hd as [Hd|Hd].
      - by apply digit_neq.
      - apply Ascii.eqb_eq in Hd as ->. done. }
    cbn [negb]. by rewrite v4_int_str.
  - intros [Hn ->]. unfold v6_str.
    set (s := String.concat ":" (compress (hextets n))).
    rewrite append_empty_r.
    assert (string_forall (fun c => is_hex c || Ascii.eqb c ":") s = true) as Hs.
    { apply string_forall_concat; [done|]. rewrite compress_pieces by done.
      apply Forall_fmap, Forall_forall. intros o _. eapply string_forall_impl;
        [|apply piece_spec, hextets_range]. intros c Hc. cbv beta. by rewrite Hc. }
    assert (forall c, is_hex c = false -> Ascii.eqb ":" c = false -> free_of c s = true) as Hf.
    { intros c Hc Hcol. eapply string_forall_free, Hs. intros d Hd. apply orb_prop in Hd as [Hd|Hd].
      - apply Ascii.eqb_neq. congruence.
      - by apply Ascii.eqb_eq in Hd as ->. }
    rewrite has_char_free, Hf by done. cbn [negb].
    assert (v4_int s = None) as -> by (unfold v4_int; by rewrite split_on_free by (by apply Hf)).
    unfold parse_v6. rewrite has_char_free, Hf by done. cbn [negb].
    rewrite partition_free by (by apply Hf). cbn [negb].
    unfold s. rewrite v6_int_compress by (done || apply hextets_range).
    cbn [mbind option_bind]. by rewrite hextets_value_hextets.
Qed.

(** ** A parsed address is in range *)

Lemma dec_value_nonneg acc s : 0 <= acc -> string_forall is_digit s = true -> 0 <= dec_value acc s.
Proof.
  revert acc. induction s as [|c s IH]; intros acc Ha; [done|]. cbn [string_forall dec_value].
  intros [Hc Hs]%andb_prop. apply IH; [|done]. unfold is_digit in Hc.
  apply andb_prop in Hc as [Hc _]. apply Z.leb_le in Hc. lia.
Qed.

Lemma parse_octet_range s n : parse_octet s = Some n -> 0 <= n < 256.
Proof.
  unfold parse_octet. destruct (ascii_digits s) eqn:Hd; [|done].
  apply andb_prop in Hd as [_ Hd]. pose proof (dec_value_nonneg 0 s ltac:(lia) Hd).
  cbn [negb]. destruct (3 <? _)%nat; [done|]. destruct (_ && _); [done|].
  destruct (Z.ltb_spec 255 (dec_value 0 s)); [done|]. intros [= <-]. lia.
Qed.

Lemma v4_int_range s n : v4_int s = Some n -> 0 <= n < 2 ^ 32.
Proof.
  unfold v4_int. destruct (split_on "." s) as [|a [|b [|c [|d [|]]]]]; try done.
  destruct (parse_octet a) eqn:Ea; [|done]. destruct (parse_octet b) eqn:Eb; [|done].
  destruct (parse_octet c) eqn:Ec; [|done]. destruct (parse_octet d) eqn:Ed; [|done].
  apply parse_octet_range in Ea, Eb, Ec, Ed. intros [= <-]. change (2 ^ 32) with 4294967296. lia.
Qed.

Lemma hex_value_range c d : hex_value c = Some d -> 0 <= d < 16.
Proof.
  unfold hex_value. intros H.
  destruct (_ && _) eqn:E1 in H; [|destruct (_ && _) eqn:E2 in H; [|destruct (_ && _) eqn:E3 in H; [|done]]].
  all: injection H as <-; apply andb_prop in E1 || apply andb_prop in E2 || apply andb_prop in E3.
  all: rewrite ?andb_true_iff, ?Z.leb_le in *; lia.
Qed.

Lemma hex_int_range acc s n :
  0 <= acc -> hex_int acc s = Some n ->
  0 <= n < (acc + 1) * 16 ^ Z.of_nat (String.length s).
Proof.
  revert acc. induction s as [|c s IH]; intros acc Ha; cbn [hex_int String.length].
  - intros [= <-]. simpl. lia.
  - destruct (hex_value c) as [d|] eqn:Ed; [|done]. cbn [mbind option_bind]. intros E.
    apply hex_value_range in Ed. apply IH in E; [|lia].
    rewrite Nat2Z.inj_succ, Z.pow_succ_r by lia.
    assert (0 < 16 ^ Z.of_nat (String.length s)) by (apply Z.pow_pos_nonneg; lia). nia.
Qed.

Lemma parse_hextet_range s n : parse_hextet s = Some n -> 0 <= n < 65536.
Proof.
  unfold parse_hextet. destruct (is_empty s); [done|]. cbn [orb].
  destruct (Nat.ltb_spec 4 (String.length s)); [done|]. intros E.
  apply hex_int_range in E; [|lia].
  assert (16 ^ Z.of_nat (String.length s) <= 16 ^ 4) by (apply Z.pow_le_mono_r; lia).
  change (16 ^ 4) with 65536 in *. lia.
Qed.

Lemma hextets_int_range acc parts n :
  0 <= acc -> hextets_int acc parts = Some n ->
  0 <= n < (acc + 1) * 2 ^ (16 * Z.of_nat (length parts)).
Proof.
  revert acc. induction parts as [|p parts IH]; intros acc Ha; cbn [hextets_int].
  - intros [= <-]. simpl. lia.
  - destruct (parse_hextet p) as [h|] eqn:Eh; [|done]. cbn [mbind option_bind]. intros E.
    apply parse_hextet_range in Eh. rewrite shift_lor in E by done. apply IH in E; [|lia].
    cbn [Datatypes.length]. rewrite Nat2Z.inj_succ.
    replace (16 * Z.succ (Z.of_nat (length parts))) with (16 * Z.of_nat (length parts) + 16) by lia.
    rewrite Z.pow_add_r by lia. change (2 ^ 16) with 65536.
    assert (0 < 2 ^ (16 * Z.of_nat (length parts))) by (apply Z.pow_pos_nonneg; lia). nia.
Qed.

Lemma layout_sum parts hi lo sk :
  layout parts = Some (hi, lo, sk) -> (hi + lo + sk = 8)%nat.
Proof.
  unfold layout. destruct (skips parts) as [|skip [|]]; [| |done].
  - destruct (Nat.eqb_spec (length parts) 8); cbn [negb orb]; [|done].
    destruct (_ || _); [done|]. intros [= <- <- <-]. lia.
  - destruct (_ && _); [done|]. destruct (_ && _); [done|].
    destruct (Nat.leb_spec 8 (skip - (if is_empty (nth 0 parts ""%string) then 1 else 0) +
      (length parts - skip - 1 - (if is_empty (List.last parts ""%string) then 1 else 0)))); [done|].
    intros [= <- <- <-]. lia.
Qed.

Lemma v6_int_range s n : v6_int s = Some n -> 0 <= n < 2 ^ 128.
Proof.
  unfold v6_int. destruct (_ <? _)%nat; [done|].
  destruct (expand_suffix _) as [parts|]; [|done]. cbn [mbind option_bind].
  destruct (_ <? _)%nat; [done|]. destruct (layout parts) as [[[hi lo] sk]|] eqn:El; [|done].
  apply layout_sum in El. cbn [mbind option_bind].
  destruct (hextets_int 0 (take hi parts)) as [acc|] eqn:Ea; [|done]. cbn [mbind option_bind].
  intros E. apply hextets_int_range in Ea; [|lia]. rewrite length_take in Ea.
  assert (2 ^ (16 * Z.of_nat (Nat.min hi (length parts))) <= 2 ^ (16 * Z.of_nat hi)) as H1
    by (apply Z.pow_le_mono_r; lia).
  rewrite Z.shiftl_mul_pow2 in E by lia.
  assert (0 < 2 ^ (16 * Z.of_nat sk)) as Hsk by (apply Z.pow_pos_nonneg; lia).
  apply hextets_int_range in E; [|nia]. rewrite length_drop in E.
  set (m := (length parts - (length parts - lo))%nat) in E.
  assert (2 ^ (16 * Z.of_nat m) <= 2 ^ (16 * Z.of_nat lo)) as H2
    by (apply Z.pow_le_mono_r; unfold m; lia).
  assert (2 ^ 128 = 2 ^ (16 * Z.of_nat hi) * 2 ^ (16 * Z.of_nat sk) * 2 ^ (16 * Z.of_nat lo)) as ->.
  { rewrite <- !Z.pow_add_r by lia. f_equal. lia. }
  assert (0 < 2 ^ (16 * Z.of_nat m)) by (apply Z.pow_pos_nonneg; lia).
  assert (acc * 2 ^ (16 * Z.of_nat sk) + 1 <= 2 ^ (16 * Z.of_nat hi) * 2 ^ (16 * Z.of_nat sk)) as H3 by nia.
  split; [lia|]. destruct E as [_ E]. eapply Z.lt_le_trans; [exact E|].
  apply Z.mul_le_mono_nonneg; lia.
Qed.

Lemma parse_ip_range s a :
  parse_ip s = Some a ->
  match a with V4 n => 0 <= n < 2 ^ 32 | V6 n _ => 0 <= n < 2 ^ 128 end.
Proof.
  unfold parse_ip. destruct (parse_v4 s) as [n|] eqn:E4.
  - intros [= <-]. unfold parse_v4 in E4. destruct (has_char "/" s); [done|]. by eapply v4_int_range.
  - destruct (parse_v6 s) as [[n scope]|] eqn:E6; [|done]. intros [= <-].
    unfold parse_v6 in E6. destruct (has_char "/" s); [done|].
    destruct (partition "%" s) as [[addr found] sc]. destruct found; cbn [negb] in E6.
    + destruct (_ || _); [done|]. destruct (v6_int addr) eqn:Ev; [|done].
      injection E6 as <- _. by eapply v6_int_range.
    + destruct (v6_int addr) eqn:Ev; [|done]. injection E6 as <- _. by eapply v6_int_range.
Qed.

Lemma ipv4_mapped_range n m : ipv4_mapped n = Some m -> 0 <= m < 2 ^ 32.
Proof.
  unfold ipv4_mapped. destruct (_ =? _); [|done]. intros [= <-].
  change (all_ones 32) with (2 ^ 32 - 1). rewrite land_ones by lia. apply Z.mod_pos_bound. lia.
Qed.
