(* ===== verification/ClientIP.v ===== *)
(** * The client address behind trusted proxies

    [grelmicro/clientip.py]: which address of an [X-Forwarded-For] header a
    trusted proxy vouched for.  The set of trusted networks, the host and port
    of an entry, the collection of the header under its limits, the walk from
    the right, and the middleware that stores the result.  Bytes and text are
    both strings: decoding Latin-1 changes nothing. *)

From S2P Require Import Prelude Errors PyStr IpAddress.
From Stdlib Require Import Ascii String.

Local Open Scope list_scope.
Local Open Scope Z_scope.

#[local] Abbreviation length := Datatypes.length.

(** [_MAX_PORT], [_IPV4_MAPPED_PREFIX], [_MAX_WARNED_PEERS] *)
Definition MAX_PORT : Z := 65535.
Definition IPV4_MAPPED_PREFIX : Z := 96.
Definition MAX_WARNED_PEERS : nat := 8.

(** [int(s)] refuses a text of more digits ([sys.get_int_max_str_digits]). *)
Definition INT_MAX_STR_DIGITS : nat := 4300.

Inductive ClientAddressReason : Type :=
| RESOLVED | NO_FORWARDED_HEADER | UNTRUSTED_PEER | CHAIN_EXHAUSTED | HOP_LIMIT
| MALFORMED_ENTRY | HEADER_TOO_LARGE | TOO_MANY_ENTRIES.

#[export] Instance reason_eq_dec : EqDecision ClientAddressReason.
Proof. solve_decision. Defined.

Record ClientAddress : Type := mkClientAddress {
  ca_ip : ip_address;
  ca_port : option Z;
  ca_reason : ClientAddressReason;
  ca_hops : Z;
}.

(** [ClientAddress.forwarded], [degraded] and [key] *)
Definition forwarded (c : ClientAddress) : bool := bool_decide (ca_reason c = RESOLVED).

Definition degraded (c : ClientAddress) : bool :=
  match ca_reason c with
  | RESOLVED | NO_FORWARDED_HEADER | UNTRUSTED_PEER => false
  | _ => true
  end.

Definition address_key (c : ClientAddress) : string := compressed (ca_ip c).

(** [_canonical] *)
Definition canonical (a : ip_address) : ip_address :=
  match a with
  | V6 n scope =>
      match ipv4_mapped n with
      | Some m => V4 m
      | None => V6 n None
      end
  | V4 n => V4 n
  end.

(** [_canonical_network] *)
Definition canonical_network (net : ip_network) : ip_network :=
  match net with
  | Net6 addr scope p =>
      match (if IPV4_MAPPED_PREFIX <=? p then ipv4_mapped addr else None) with
      | Some host =>
          let q := p - IPV4_MAPPED_PREFIX in
          Net4 (Z.land host (netmask 32 q)) q
      | None => net
      end
  | Net4 _ _ => net
  end.

(** What a trusted set is built from. *)
Inductive proxy_entry : Type :=
| EntryText (s : string)
| EntryAddress (a : ip_address)
| EntryNetwork (n : ip_network).

(** [_compile_entry] *)
Definition compile_entry (e : proxy_entry) : outcome exn ip_network :=
  match e with
  | EntryNetwork n => Return (canonical_network n)
  | EntryAddress a => Return (canonical_network (host_net (canonical a)))
  | EntryText s =>
      match parse_net s with
      | Some n => Return (canonical_network n)
      | None => Raise (mk_exn ValueError (Message s))
      end
  end.

(** [TrustedProxies]; the peers reported so far, [None] when the reports are
    over or there is nothing to trust. *)
Record TrustedProxies : Type := mkTrusted {
  tp_networks : list ip_network;
  tp_max_hops : option Z;
  tp_max_entries : Z;
  tp_max_header_bytes : Z;
  tp_warned_peers : option (list ip_address);
}.

Fixpoint compile_entries (es : list proxy_entry) : outcome exn (list ip_network) :=
  match es with
  | [] => Return []
  | e :: es =>
      match compile_entry e with
      | Raise x => Raise x
      | Return n => match compile_entries es with
                    | Raise x => Raise x
                    | Return ns => Return (n :: ns)
                    end
      end
  end.

(** [TrustedProxies.__init__] *)
Definition trusted_init (networks : list proxy_entry) (max_hops : option Z)
    (max_entries max_header_bytes : Z) : outcome exn TrustedProxies :=
  match compile_entries networks with
  | Raise x => Raise x
  | Return ns =>
      Return (mkTrusted ns max_hops max_entries max_header_bytes
                (match ns with [] => None | _ => Some [] end))
  end.

(** [TrustedProxies.__contains__] *)
Definition trusts (tp : TrustedProxies) (a : ip_address) : bool :=
  existsb (in_net (canonical a)) (tp_networks tp).

(** ** One entry *)

(** [_with_port]: a port of too many digits makes [int] raise. *)
Definition with_port (host port : string) : outcome exn (option (string * option Z)) :=
  if negb (ascii_digits port) then Return None
  else if (INT_MAX_STR_DIGITS <? String.length port)%nat
  then Raise (mk_exn ValueError (Message "int"))
  else
    let n := dec_value 0 port in
    if MAX_PORT <? n then Return None else Return (Some (host, Some n)).

(** [s.count(c)] *)
Fixpoint count_char (c : ascii) (s : string) : nat :=
  match s with
  | EmptyString => 0
  | String d s => (if Ascii.eqb d c then 1 else 0) + count_char c s
  end.

(** [_split_host_port] *)
Definition split_host_port (value : string) : outcome exn (option (string * option Z)) :=
  match value with
  | String "[" inner =>
      let '(host, found, rest) := partition "]" inner in
      if negb found then Return None
      else match rest with
           | EmptyString => Return (Some (host, None))
           | String ":" port => with_port host port
           | _ => Return None
           end
  | _ =>
      let colons := count_char ":" value in
      if (1 <? colons)%nat then Return (Some (value, None))
      else if (colons =? 1)%nat then
        let '(host, _, port) := partition ":" value in with_port host port
      else Return (Some (value, None))
  end.

(** ** The header *)

(** [bytes.strip()] *)
Definition byte_space (c : ascii) : bool :=
  let n := code c in ((9 <=? n) && (n <=? 13)) || (n =? 32).

Fixpoint lstrip (s : string) : string :=
  match s with
  | String c s' => if byte_space c then lstrip s' else s
  | EmptyString => ""
  end.

Fixpoint rstrip (s : string) : string :=
  match s with
  | EmptyString => ""
  | String c s =>
      match rstrip s with
      | EmptyString => if byte_space c then EmptyString else String c EmptyString
      | s => String c s
      end
  end.

Definition strip (s : string) : string := rstrip (lstrip s).

(** [_FORWARDED_FOR] *)
Definition FORWARDED_FOR : string := "x-forwarded-for".

Definition is_forwarded_for (h : string * string) : bool := String.eqb (lower h.1) FORWARDED_FOR.

(** The loop of [_collect_header] *)
Fixpoint collect_loop (limit total : Z) (headers : list (string * string)) : option (list string) :=
  match headers with
  | [] => Some []
  | h :: headers =>
      if is_forwarded_for h then
        let total := total + (Z.of_nat (String.length h.2) + 1) in
        if limit <? total then None
        else parts ← collect_loop limit total headers; Some (h.2 :: parts)
      else collect_loop limit total headers
  end.

(** [_collect_header] *)
Definition collect_header (headers : list (string * string)) (limit : Z) : option string :=
  String.concat "," <$> collect_loop limit 0 headers.

(** The entries of the joined header. *)
Definition header_entries (raw : string) : list string :=
  List.filter (fun s => negb (is_empty s)) (strip <$> split_on "," raw).

(** [entries[k:]] *)
Definition slice_from {A} (k : Z) (l : list A) : list A :=
  if k <? 0 then drop (Z.to_nat (Z.max 0 (Z.of_nat (length l) + k))) l
  else drop (Z.to_nat k) l.

(** [_warn_untrusted_peer]: the peers reported from now on, and whether this one
    was. *)
Definition warn_untrusted_peer (warned : list ip_address) (headers : list (string * string))
    (peer : ip_address) : option (list ip_address) * bool :=
  if negb (existsb (fun h => is_forwarded_for h && negb (is_empty (strip h.2))) headers)
  then (Some warned, false)
  else
    let warned := peer :: warned in
    (if (MAX_WARNED_PEERS <=? length warned)%nat then None else Some warned, true).

(** ** The walk *)

(** [from_peer] *)
Definition from_peer (peer : ip_address) (port : option Z) (reason : ClientAddressReason)
    (hops : Z) : ClientAddress := mkClientAddress peer port reason hops.

(** The loop of [resolve_client_address] over the entries from the right. *)
Fixpoint walk (tp : TrustedProxies) (peer : ip_address) (port : option Z)
    (exhausted : ClientAddressReason) (hops : Z) (entries : list string) :
    outcome exn ClientAddress :=
  match entries with
  | [] => Return (from_peer peer port exhausted hops)
  | entry :: entries =>
      match split_host_port entry with
      | Raise x => Raise x
      | Return None => Return (from_peer peer port MALFORMED_ENTRY hops)
      | Return (Some (host, entry_port)) =>
          match parse_ip host with
          | None => Return (from_peer peer port MALFORMED_ENTRY hops)
          | Some a =>
              let address := canonical a in
              if negb (trusts tp address)
              then Return (mkClientAddress address entry_port RESOLVED hops)
              else
                let hops := hops + 1 in
                if match tp_max_hops tp with Some m => m <? hops | None => false end
                then Return (from_peer peer port HOP_LIMIT hops)
                else walk tp peer port exhausted hops entries
          end
      end
  end.

(** The client and the headers of an ASGI scope. *)
Record Scope : Type := mkScope {
  sc_client : option (string * option Z);
  sc_headers : list (string * string);
}.

(** What follows once the peer is known to be trusted. *)
Definition resolve_header (tp : TrustedProxies) (peer : ip_address) (port : option Z)
    (headers : list (string * string)) : outcome exn ClientAddress :=
  match collect_header headers (tp_max_header_bytes tp) with
  | None => Return (from_peer peer port HEADER_TOO_LARGE 0)
  | Some raw =>
      match header_entries raw with
      | [] => Return (from_peer peer port NO_FORWARDED_HEADER 0)
      | entries =>
          if tp_max_entries tp <? Z.of_nat (length entries)
          then walk tp peer port TOO_MANY_ENTRIES 0
                 (rev (slice_from (- tp_max_entries tp) entries))
          else walk tp peer port CHAIN_EXHAUSTED 0 (rev entries)
      end
  end.

(** [resolve_client_address], with the trusted set afterwards and the peer it
    reported. *)
Definition resolve_client_address (s : Scope) (tp : TrustedProxies) :
    outcome exn (option ClientAddress) * TrustedProxies * option ip_address :=
  match sc_client s with
  | None => (Return None, tp, None)
  | Some (host, port) =>
      match parse_ip host with
      | None => (Return None, tp, None)
      | Some a =>
          let peer := canonical a in
          if negb (trusts tp peer) then
            let '(warned, reported) :=
              match tp_warned_peers tp with
              | Some warned =>
                  if bool_decide (peer ∈ warned) then (Some warned, false)
                  else warn_untrusted_peer warned (sc_headers s) peer
              | None => (None, false)
              end in
            (Return (Some (from_peer peer port UNTRUSTED_PEER 0)),
             mkTrusted (tp_networks tp) (tp_max_hops tp) (tp_max_entries tp)
               (tp_max_header_bytes tp) warned,
             if (reported : bool) then Some peer else None)
          else
            (match resolve_header tp peer port (sc_headers s) with
             | Return c => Return (Some c)
             | Raise x => Raise x
             end, tp, None)
      end
  end.

(** [ClientAddressMiddleware.__call__] up to the call of the next application:
    the scope it is given and the stored address. *)
Definition middleware (overwrite http : bool) (s : Scope) (tp : TrustedProxies) :
    outcome exn (Scope * option ClientAddress) * TrustedProxies :=
  if negb http then (Return (s, None), tp)
  else
    let '(r, tp, _) := resolve_client_address s tp in
    (match r with
     | Raise x => Raise x
     | Return None => Return (s, None)
     | Return (Some c) =>
         Return (if overwrite
                 then mkScope (Some (address_key c, Some (default 0 (ca_port c)))) (sc_headers s)
                 else s, Some c)
     end, tp).

(** ** A request as it comes through two proxies *)

Definition demo_proxies : TrustedProxies :=
  mkTrusted [Net4 167772160 8] None 64 8192 (Some []).

Definition demo_request (xff : string) : Scope :=
  mkScope (Some ("10.0.0.1"%string, Some 443)) [("X-Forwarded-For"%string, xff)].

#[local] Opaque ipv4_mapped netmask parse_ip split_host_port.

(** ** Canonical addresses *)

Definition is_canonical (a : ip_address) : Prop :=
  match a with
  | V4 _ => True
  | V6 n scope => ipv4_mapped n = None /\ scope = None
  end.

Lemma canonical_is_canonical a : is_canonical (canonical a).
Proof. destruct a as [n|n scope]; [done|]. simpl. by destruct (ipv4_mapped n) eqn:E. Qed.

Lemma canonical_idem a : is_canonical a -> canonical a = a.
Proof. destruct a as [n|n scope]; [done|]. by intros [H ->]; simpl; rewrite H. Qed.

(** Trust does not depend on how an address is written. *)
Lemma trusts_canonical tp a : trusts tp (canonical a) = trusts tp a.
Proof. unfold trusts. by rewrite (canonical_idem _ (canonical_is_canonical a)). Qed.

(** ** What the walk returns *)

Section Walk.
Context (tp : TrustedProxies) (peer : ip_address) (port : option Z).

(** An entry that names a trusted proxy. *)
Definition names_proxy (entry : string) : Prop :=
  exists host p a, split_host_port entry = Return (Some (host, p)) /\ parse_ip host = Some a /\
    trusts tp (canonical a) = true.

(** An entry that names an address outside of the trusted set. *)
Definition names_client (entry : string) (a : ip_address) (p : option Z) : Prop :=
  exists host b, split_host_port entry = Return (Some (host, p)) /\ parse_ip host = Some b /\
    a = canonical b /\ trusts tp a = false.

(** The hops so far are within the limit. *)
Definition within_hops (n : Z) : Prop :=
  match tp_max_hops tp with Some m => n <= m | None => True end.

(** How a result comes about from the entries, taken from the right. *)
Definition walk_ok (exhausted : ClientAddressReason) (entries : list string) (hops : Z)
    (c : ClientAddress) : Prop :=
  exists right rest, entries = right ++ rest /\ Forall names_proxy right /\
    match ca_reason c with
    | RESOLVED => exists e rest', rest = e :: rest' /\ names_client e (ca_ip c) (ca_port c) /\
        ca_hops c = hops + Z.of_nat (length right) /\ (right <> [] -> within_hops (ca_hops c))
    | HOP_LIMIT => ca_ip c = peer /\ ca_hops c = hops + Z.of_nat (length right) /\
        ~ within_hops (ca_hops c)
    | MALFORMED_ENTRY => ca_ip c = peer /\ rest <> []
    | r => ca_ip c = peer /\ r = exhausted /\ rest = []
    end.

Lemma walk_spec exhausted entries hops c :
  exhausted = CHAIN_EXHAUSTED \/ exhausted = TOO_MANY_ENTRIES ->
  walk tp peer port exhausted hops entries = Return c -> walk_ok exhausted entries hops c.
Proof.
  intros Hex. revert hops. induction entries as [|e entries IH]; intros hops; cbn [walk].
  { intros [= <-]. exists [], []. by destruct Hex as [-> | ->]. }
  destruct (split_host_port e) as [[[host p]|]|x] eqn:Es; [| |done].
  2: { intros [= <-]. by exists [], (e :: entries). }
  destruct (parse_ip host) as [a|] eqn:Ep; [|intros [= <-]; by exists [], (e :: entries)].
  destruct (trusts tp (canonical a)) eqn:Et; cbn [negb].
  - assert (names_proxy e) as Hp by (by exists host, p, a).
    destruct (tp_max_hops tp) as [m|] eqn:Em; [destruct (Z.ltb_spec m (hops + 1)) as [Hlt|Hle]|].
    + intros [= <-]. exists [e], entries. split; [done|]. split; [by apply Forall_singleton|].
      simpl. unfold within_hops. rewrite Em. split; [done|]. split; lia.
    + intros H. destruct (IH _ H) as (right & rest & -> & Hr & Hc). exists (e :: right), rest.
      split; [done|]. split; [by apply Forall_cons|]. revert Hc. destruct (ca_reason c); try done.
      * intros (e' & rest' & Hrest & Hn & Hh & Hw). exists e', rest'. cbn [Datatypes.length].
        split_and!; try done; [lia|]. intros _. destruct right as [|e2 right]; [|by apply Hw].
        unfold within_hops. rewrite Em. simpl in Hh. lia.
      * intros (Hi & Hh & Hw). cbn [Datatypes.length]. split_and!; try done. lia.
    + intros H. destruct (IH _ H) as (right & rest & -> & Hr & Hc). exists (e :: right), rest.
      split; [done|]. split; [by apply Forall_cons|]. revert Hc. destruct (ca_reason c); try done.
      * intros (e' & rest' & Hrest & Hn & Hh & Hw). exists e', rest'. cbn [Datatypes.length].
        split_and!; try done; [lia|]. intros _. unfold within_hops. by rewrite Em.
      * intros (Hi & Hh & Hw). cbn [Datatypes.length]. split_and!; try done. lia.
  - intros [= <-]. exists [], (e :: entries). split; [done|]. split; [done|]. simpl.
    exists e, entries. split; [done|]. split; [by exists host, a|]. split; [lia|done].
Qed.

(** What lies further left is only read when the walk gets there. *)
Lemma walk_app exhausted exhausted' entries more hops c :
  exhausted = CHAIN_EXHAUSTED \/ exhausted = TOO_MANY_ENTRIES ->
  walk tp peer port exhausted hops entries = Return c -> ca_reason c <> exhausted ->
  walk tp peer port exhausted' hops (entries ++ more) = Return c.
Proof.
  intros Hex. revert hops. induction entries as [|e entries IH]; intros hops; cbn [walk app].
  { by intros [= <-]. }
  destruct (split_host_port e) as [[[host p]|]|x]; [|done..].
  destruct (parse_ip host) as [a|]; [|done]. destruct (negb _); [done|].
  destruct (match tp_max_hops tp with Some m => _ | None => _ end); [done|]. apply IH.
Qed.
End Walk.

(** ** The header's entries *)

Lemma slice_from_suffix {A} (k : Z) (pre l : list A) :
  0 < k -> k <= Z.of_nat (length l) -> slice_from (- k) (pre ++ l) = slice_from (- k) l.
Proof.
  intros Hk Hl. unfold slice_from. rewrite (proj2 (Z.ltb_lt (- k) 0)) by lia.
  rewrite length_app, drop_app_ge by lia. f_equal. lia.
Qed.

Lemma slice_from_longer {A} (k : Z) (pre l : list A) :
  Z.of_nat (length l) <= k -> 0 < k -> k < Z.of_nat (length (pre ++ l)) ->
  exists pre', slice_from (- k) (pre ++ l) = pre' ++ l.
Proof.
  intros Hl Hk Hlt. rewrite length_app in Hlt. unfold slice_from.
  rewrite (proj2 (Z.ltb_lt (- k) 0)) by lia. rewrite length_app.
  eexists. rewrite drop_app_le by lia. done.
Qed.

(** Entries to the left never change a result the walk reached without them. *)
Lemma resolve_entries_app tp peer port pre entries c :
  0 < tp_max_entries tp -> entries <> [] ->
  let run es := if tp_max_entries tp <? Z.of_nat (length es)
    then walk tp peer port TOO_MANY_ENTRIES 0 (rev (slice_from (- tp_max_entries tp) es))
    else walk tp peer port CHAIN_EXHAUSTED 0 (rev es) in
  run entries = Return c -> ca_reason c <> CHAIN_EXHAUSTED -> ca_reason c <> TOO_MANY_ENTRIES ->
  run (pre ++ entries) = Return c.
Proof.
  intros Hm Hne run. unfold run. intros Hw H1 H2.
  destruct (Z.ltb_spec (tp_max_entries tp) (Z.of_nat (length entries))) as [Hlt|Hge].
  - rewrite (proj2 (Z.ltb_lt _ _)) by (rewrite length_app; lia).
    by rewrite slice_from_suffix by lia.
  - destruct (Z.ltb_spec (tp_max_entries tp) (Z.of_nat (length (pre ++ entries)))) as [Hlt'|Hge'].
    + destruct (slice_from_longer (tp_max_entries tp) pre entries Hge Hm Hlt') as [pre' ->].
      rewrite rev_app_distr. eapply walk_app; [|exact Hw|done]. by left.
    + rewrite rev_app_distr. eapply walk_app; [|exact Hw|done]. by left.
Qed.

(** *** Joining and splitting *)

Lemma split_on_nonempty sep s : split_on sep s <> [].
Proof. destruct s as [|c s]; [done|]. cbn [split_on]. destruct (Ascii.eqb c sep); [done|]. by destruct (split_on sep s). Qed.

Lemma split_on_sep sep a b :
  split_on sep (a +:+ String sep b) = split_on sep a ++ split_on sep b.
Proof.
  induction a as [|c a IH].
  - change ("" +:+ String sep b) with (String sep b). cbn [split_on]. by rewrite Ascii.eqb_refl.
  - change (String c a +:+ String sep b) with (String c (a +:+ String sep b)). cbn [split_on].
    rewrite IH. destruct (Ascii.eqb c sep); [done|]. pose proof (split_on_nonempty sep a).
    by destruct (split_on sep a).
Qed.

Lemma header_entries_join a b :
  header_entries (a +:+ String "," b) = header_entries a ++ header_entries b.
Proof. unfold header_entries. by rewrite split_on_sep, fmap_app, List.filter_app. Qed.

Lemma header_entries_concat parts :
  header_entries (String.concat "," parts) = mbind header_entries parts.
Proof.
  induction parts as [|p [|q parts] IH]; [done|cbn [String.concat mbind list_bind]; by rewrite app_nil_r|].
  change (String.concat "," (p :: q :: parts)) with (p +:+ String "," (String.concat "," (q :: parts))).
  by rewrite header_entries_join, IH.
Qed.

(** The values of a header, and the bytes [_collect_header] counts for them. *)
Definition forwarded_values (hs : list (string * string)) : list string :=
  snd <$> List.filter is_forwarded_for hs.

Fixpoint value_bytes (vs : list string) : Z :=
  match vs with [] => 0 | v :: vs => Z.of_nat (String.length v) + 1 + value_bytes vs end.

Lemma value_bytes_nonneg vs : 0 <= value_bytes vs.
Proof. induction vs; simpl; lia. Qed.

Lemma collect_loop_spec limit total hs :
  collect_loop limit total hs =
  if bool_decide (forwarded_values hs = []) || (total + value_bytes (forwarded_values hs) <=? limit)
  then Some (forwarded_values hs) else None.
Proof.
  unfold forwarded_values. revert total. induction hs as [|h hs IH]; intros total; [done|].
  cbn [collect_loop List.filter]. destruct (is_forwarded_for h); [|apply IH].
  rewrite fmap_cons. cbn [value_bytes].
  rewrite (bool_decide_false (h.2 :: _ = [])) by done. cbn [orb]. rewrite IH.
  set (vs := snd <$> List.filter is_forwarded_for hs).
  pose proof (value_bytes_nonneg vs).
  destruct (Z.ltb_spec limit (total + (Z.of_nat (String.length h.2) + 1))) as [Hlt|Hge].
  - by rewrite (proj2 (Z.leb_gt _ _)) by lia.
  - assert (bool_decide (vs = []) || (total + (Z.of_nat (String.length h.2) + 1) + value_bytes vs <=? limit) =
      (total + (Z.of_nat (String.length h.2) + 1 + value_bytes vs) <=? limit)) as ->.
    { clear IH. clearbody vs. destruct vs as [|v vs].
      - rewrite bool_decide_true by done. symmetry. apply Z.leb_le. simpl. lia.
      - rewrite bool_decide_false by done. cbn [orb]. f_equal. lia. }
    by destruct (_ <=? _).
Qed.

Lemma collect_header_spec hs limit raw :
  collect_header hs limit = Some raw ->
  raw = String.concat "," (forwarded_values hs) /\
  (forwarded_values hs = [] \/ value_bytes (forwarded_values hs) <= limit).
Proof.
  unfold collect_header. rewrite collect_loop_spec.
  case_bool_decide as E; cbn [orb]; [intros [= <-]; auto|].
  destruct (Z.leb_spec (0 + value_bytes (forwarded_values hs)) limit); [|done].
  intros [= <-]. split; [done|]. right. lia.
Qed.

Lemma collect_header_some hs limit :
  forwarded_values hs = [] \/ value_bytes (forwarded_values hs) <= limit ->
  collect_header hs limit = Some (String.concat "," (forwarded_values hs)).
Proof.
  intros H. unfold collect_header. rewrite collect_loop_spec.
  case_bool_decide as E; [done|]. destruct H as [|H]; [done|].
  by rewrite (proj2 (Z.leb_le _ _)) by lia.
Qed.

(** ** Forging *)

(** What a caller can do to the headers a proxy appends to: put header lines of
    its own in front, or text in front of the value the proxy extends. *)
Inductive forge : list (string * string) -> list (string * string) -> Prop :=
| forge_line h hs : forge hs (h :: hs)
| forge_value n v junk hs :
    is_forwarded_for (n, v) = true -> forge ((n, v) :: hs) ((n, junk +:+ String "," v) :: hs).

Lemma string_length_app a b : String.length (a +:+ b) = (String.length a + String.length b)%nat.
Proof.
  induction a as [|c a IH]; [done|].
  change (String c a +:+ b) with (String c (a +:+ b)). simpl. by rewrite IH.
Qed.

Lemma forge_values hs hs' :
  forge hs hs' ->
  (exists pre, mbind header_entries (forwarded_values hs') =
     pre ++ mbind header_entries (forwarded_values hs)) /\
  value_bytes (forwarded_values hs) <= value_bytes (forwarded_values hs').
Proof.
  unfold forwarded_values. intros [h hs0|n v junk hs0 Hf].
  - cbn [List.filter]. destruct (is_forwarded_for h); [|split; [by exists []|lia]].
    rewrite fmap_cons. split; [by exists (header_entries h.2)|]. cbn [value_bytes]. lia.
  - cbn [List.filter]. assert (is_forwarded_for (n, junk +:+ String "," v) = true) as -> by done.
    rewrite Hf, !fmap_cons. cbn [snd]. split.
    + exists (header_entries junk). cbn [mbind list_bind]. by rewrite header_entries_join, app_assoc.
    + cbn [value_bytes]. rewrite string_length_app. simpl. lia.
Qed.

Lemma forges_values hs hs' :
  rtc forge hs hs' ->
  (exists pre, mbind header_entries (forwarded_values hs') =
     pre ++ mbind header_entries (forwarded_values hs)) /\
  value_bytes (forwarded_values hs) <= value_bytes (forwarded_values hs').
Proof.
  induction 1 as [hs|hs1 hs2 hs3 Hf _ ((pre & IH) & Hb)]; [split; [by exists []|lia]|].
  destruct (forge_values _ _ Hf) as ((pre' & E) & Hb'). split; [|lia].
  exists (pre ++ pre'). by rewrite IH, E, app_assoc.
Qed.

(** What the loop over the entries gives, as a function of the entries. *)
Definition resolve_entries (tp : TrustedProxies) (peer : ip_address) (port : option Z)
    (entries : list string) : outcome exn ClientAddress :=
  if tp_max_entries tp <? Z.of_nat (length entries)
  then walk tp peer port TOO_MANY_ENTRIES 0 (rev (slice_from (- tp_max_entries tp) entries))
  else walk tp peer port CHAIN_EXHAUSTED 0 (rev entries).

(** The results the walk reaches before it runs out of entries. *)
Definition decided (r : ClientAddressReason) : Prop :=
  r = RESOLVED \/ r = HOP_LIMIT \/ r = MALFORMED_ENTRY.

Lemma resolve_header_values tp peer port hs :
  resolve_header tp peer port hs =
  if bool_decide (forwarded_values hs = []) ||
     (value_bytes (forwarded_values hs) <=? tp_max_header_bytes tp)
  then match mbind header_entries (forwarded_values hs) with
       | [] => Return (from_peer peer port NO_FORWARDED_HEADER 0)
       | es => resolve_entries tp peer port es
       end
  else Return (from_peer peer port HEADER_TOO_LARGE 0).
Proof.
  unfold resolve_header, collect_header. rewrite collect_loop_spec, Z.add_0_l.
  destruct (_ || _); cbn [fmap option_fmap option_map]; [|done].
  by rewrite header_entries_concat.
Qed.

Lemma resolve_header_forged tp peer port hs hs' c :
  0 < tp_max_entries tp -> rtc forge hs hs' ->
  resolve_header tp peer port hs = Return c -> decided (ca_reason c) ->
  resolve_header tp peer port hs' = Return c \/
  resolve_header tp peer port hs' = Return (from_peer peer port HEADER_TOO_LARGE 0).
Proof.
  intros Hm Hf. rewrite !resolve_header_values. intros Hr Hc.
  destruct (forges_values _ _ Hf) as ((pre & E) & _). rewrite E.
  destruct (bool_decide (forwarded_values hs' = []) || _); [left|by right].
  destruct (bool_decide _ || _); [|injection Hr as <-; by destruct Hc as [|[|]]].
  destruct (mbind header_entries (forwarded_values hs)) as [|e es] eqn:Ee;
    [injection Hr as <-; by destruct Hc as [|[|]]|].
  assert (resolve_entries tp peer port (pre ++ e :: es) = Return c) as Hx.
  { apply (resolve_entries_app tp peer port pre (e :: es)); try done;
      destruct Hc as [Hc|[Hc|Hc]]; rewrite Hc; discriminate. }
  by destruct pre.
Qed.

(** ** What the resolution promises *)

(** The scope's peer, as the resolution reads it. *)
Definition peer_of (s : Scope) : option (ip_address * option Z) :=
  '(host, port) ← sc_client s; a ← parse_ip host; Some (canonical a, port).

Lemma resolve_peer s tp :
  (resolve_client_address s tp).1.1 =
  match peer_of s with
  | None => Return None
  | Some (peer, port) =>
      if trusts tp peer
      then match resolve_header tp peer port (sc_headers s) with
           | Return c => Return (Some c)
           | Raise x => Raise x
           end
      else Return (Some (from_peer peer port UNTRUSTED_PEER 0))
  end.
Proof.
  unfold resolve_client_address, peer_of. destruct (sc_client s) as [[host port]|]; [|done].
  cbn [mbind option_bind]. destruct (parse_ip host) as [a|]; [|done]. cbn [mbind option_bind].
  destruct (trusts tp (canonical a)); cbn [negb]; [done|].
  by destruct (match tp_warned_peers tp with Some _ => _ | None => _ end).
Qed.

Lemma peer_of_canonical s peer port : peer_of s = Some (peer, port) -> is_canonical peer.
Proof.
  unfold peer_of. destruct (sc_client s) as [[host q]|]; [|done]. cbn [mbind option_bind].
  destruct (parse_ip host); [|done]. intros [= <- _]. apply canonical_is_canonical.
Qed.

Lemma slice_from_app {A} (k : Z) (l : list A) : exists pre, l = pre ++ slice_from k l.
Proof. unfold slice_from. case_match; eexists; symmetry; apply take_drop. Qed.

Lemma resolve_entries_ok tp peer port es c :
  resolve_entries tp peer port es = Return c ->
  exists left entries exhausted, es = left ++ rev entries /\
    (exhausted = CHAIN_EXHAUSTED \/ exhausted = TOO_MANY_ENTRIES) /\
    walk_ok tp peer exhausted entries 0 c.
Proof.
  unfold resolve_entries. destruct (_ <? _); intros Hw; apply walk_spec in Hw as Hok; auto.
  - destruct (slice_from_app (- tp_max_entries tp) es) as [pre E].
    exists pre, (rev (slice_from (- tp_max_entries tp) es)), TOO_MANY_ENTRIES.
    rewrite rev_involutive. auto.
  - exists [], (rev es), CHAIN_EXHAUSTED. rewrite rev_involutive. auto.
Qed.

(** A result that names no client is the address of the peer. *)
Lemma walk_ok_peer tp peer exhausted entries c :
  exhausted = CHAIN_EXHAUSTED \/ exhausted = TOO_MANY_ENTRIES ->
  walk_ok tp peer exhausted entries 0 c ->
  ca_reason c = RESOLVED \/
  (ca_ip c = peer /\ ca_reason c ∈ [CHAIN_EXHAUSTED; TOO_MANY_ENTRIES; HOP_LIMIT; MALFORMED_ENTRY]).
Proof.
  intros Hex (right & rest & _ & _ & Hc).
  destruct (ca_reason c) eqn:E; [by left|right; split; [apply Hc|]..];
    destruct Hex as [-> | ->]; destruct Hc as (_ & Hc); try (destruct Hc as [Hc _]; discriminate Hc);
    rewrite ?list_elem_of_In; simpl; tauto.
Qed.

(** An address is only ever vouched for by the trusted proxies.  When the
    result is [RESOLVED] the peer is a trusted proxy, every entry to the right of
    the chosen one names a trusted proxy (as many as the reported hops, within
    [max_hops]), and the address itself, in canonical form, is not one.  In every
    other case the result is the transport peer, and it is marked as degraded
    exactly when it is one of the trusted proxies and its chain led nowhere. *)
Lemma resolved_is_vouched (s : Scope) (tp : TrustedProxies) (c : ClientAddress) :
  (resolve_client_address s tp).1.1 = Return (Some c) ->
  exists peer port, peer_of s = Some (peer, port) /\ is_canonical (ca_ip c) /\
  if forwarded c
  then trusts tp peer = true /\ trusts tp (ca_ip c) = false /\
    exists raw left e right,
      collect_header (sc_headers s) (tp_max_header_bytes tp) = Some raw /\
      header_entries raw = left ++ e :: right /\
      names_client tp e (ca_ip c) (ca_port c) /\ Forall (names_proxy tp) right /\
      ca_hops c = Z.of_nat (length right) /\ (right <> [] -> within_hops tp (ca_hops c))
  else ca_ip c = peer /\
    (degraded c = true -> trusts tp peer = true) /\
    (ca_reason c = NO_FORWARDED_HEADER -> trusts tp peer = true) /\
    (ca_reason c = UNTRUSTED_PEER <-> trusts tp peer = false).
Proof.
  rewrite resolve_peer. destruct (peer_of s) as [[peer port]|] eqn:Ep; [|done].
  intros Hr. exists peer, port. split; [done|]. pose proof (peer_of_canonical _ _ _ Ep) as Hcan.
  destruct (trusts tp peer) eqn:Et; [|by injection Hr as <-].
  destruct (resolve_header tp peer port (sc_headers s)) as [c'|] eqn:Eh; [|done]. injection Hr as ->.
  revert Eh. unfold resolve_header.
  destruct (collect_header (sc_headers s) (tp_max_header_bytes tp)) as [raw|]; [|by intros [= <-]].
  destruct (header_entries raw) as [|e0 es] eqn:Ee; [by intros [= <-]|]. rewrite <- Ee.
  intros Hw. apply resolve_entries_ok in Hw as (left & entries & ex & El & Hex & Hok).
  unfold forwarded. case_bool_decide as Hres.
  - destruct Hok as (right & rest & -> & Hright & Hc). rewrite Hres in Hc.
    destruct Hc as (e & rest' & -> & Hn & Hh & Hw). destruct Hn as (host & b & H1 & H2 & H3 & H4).
    split; [rewrite H3; apply canonical_is_canonical|]. split; [done|]. split; [done|].
    exists raw, (left ++ rev rest'), e, (rev right). split; [done|].
    rewrite El, rev_app_distr. cbn [rev]. rewrite <- !app_assoc. split; [done|].
    split; [by exists host, b|]. split; [by apply Forall_rev|].
    rewrite length_rev. split; [lia|]. intros Hne. apply Hw. intros ->. by apply Hne.
  - destruct (walk_ok_peer tp peer ex entries c Hex Hok) as [|[Hi Hrs]]; [done|].
    split; [by rewrite Hi|]. split; [done|]. split; [done|]. split; [done|].
    split; [|done]. intros E. rewrite E in Hrs. rewrite list_elem_of_In in Hrs. simpl in Hrs. naive_solver.
Qed.

(** C8 A caller cannot choose the address it is resolved to.  Whatever header
    lines it adds in front of those the proxies wrote, and whatever it puts in
    front of the value they extended, an address that was resolved stays the
    same, with the same port and hops, unless the header grows past the limit:
    then the result is the proxy's own address, marked as degraded. *)
Theorem forging_changes_nothing (s : Scope) (tp : TrustedProxies) (c : ClientAddress)
    (headers : list (string * string)) :
  0 < tp_max_entries tp ->
  (resolve_client_address s tp).1.1 = Return (Some c) -> forwarded c = true ->
  rtc forge (sc_headers s) headers ->
  exists c', (resolve_client_address (mkScope (sc_client s) headers) tp).1.1 = Return (Some c') /\
    (c' = c \/ (degraded c' = true /\ trusts tp (ca_ip c') = true)).
Proof.
  intros Hm Hr Hfw Hf. apply bool_decide_eq_true in Hfw. rewrite resolve_peer in *.
  assert (peer_of (mkScope (sc_client s) headers) = peer_of s) as -> by done.
  destruct (peer_of s) as [[peer port]|]; [|done].
  destruct (trusts tp peer) eqn:Et; [|by injection Hr as <-].
  destruct (resolve_header tp peer port (sc_headers s)) as [c0|] eqn:Eh; [|done].
  injection Hr as ->. cbn [sc_headers].
  destruct (resolve_header_forged tp peer port _ _ c Hm Hf Eh) as [-> | ->]; [by left| |].
  - exists c. auto.
  - eexists. split; [reflexivity|]. by right.
Qed.

(** ** The reports of untrusted peers *)

(** The peers reported by the requests of a run, in order. *)
Fixpoint serve (tp : TrustedProxies) (requests : list Scope) : list ip_address * TrustedProxies :=
  match requests with
  | [] => ([], tp)
  | s :: requests =>
      let '(_, tp, reported) := resolve_client_address s tp in
      let '(rest, tp) := serve tp requests in
      (match reported with Some p => p :: rest | None => rest end, tp)
  end.

(** The trusted set after some peers have been reported. *)
Definition reported_ok (reported : list ip_address) (tp : TrustedProxies) : Prop :=
  NoDup reported /\ (length reported <= MAX_WARNED_PEERS)%nat /\
  forall ws, tp_warned_peers tp = Some ws ->
    ws = rev reported /\ (length reported < MAX_WARNED_PEERS)%nat.

Lemma resolve_reported s tp reported :
  reported_ok reported tp ->
  let '(_, tp', r) := resolve_client_address s tp in
  reported_ok (reported ++ match r with Some p => [p] | None => [] end) tp'.
Proof.
  intros (Hnd & Hlen & Hw). unfold resolve_client_address.
  destruct (sc_client s) as [[host port]|]; [|by rewrite app_nil_r].
  destruct (parse_ip host) as [a|]; [|by rewrite app_nil_r].
  destruct (trusts tp (canonical a)); cbn [negb]; [by rewrite app_nil_r|].
  destruct (tp_warned_peers tp) as [ws|] eqn:Ews; [|by rewrite app_nil_r].
  destruct (Hw ws eq_refl) as [-> Hlt].
  case_bool_decide as Hin; [rewrite app_nil_r; split; [done|]; split; [done|]; by intros ws [= <-]|].
  unfold warn_untrusted_peer. destruct (negb _);
    [rewrite app_nil_r; split; [done|]; split; [done|]; by intros ws [= <-]|].
  assert (NoDup (reported ++ [canonical a])) as Hnd'.
  { apply NoDup_app. split; [done|]. split; [|apply NoDup_singleton].
    intros x Hx ->%list_elem_of_singleton. apply Hin. by rewrite list_elem_of_In, <- in_rev, <- list_elem_of_In. }
  cbn [Datatypes.length]. rewrite length_rev.
  split; [done|]. rewrite length_app. cbn [Datatypes.length]. split; [lia|]. cbn [tp_warned_peers].
  destruct (Nat.leb_spec MAX_WARNED_PEERS (S (length reported))); [done|].
  intros ws [= <-]. rewrite rev_app_distr. split; [done|lia].
Qed.

Lemma serve_reported requests tp reported :
  reported_ok reported tp ->
  let '(rs, tp') := serve tp requests in reported_ok (reported ++ rs) tp'.
Proof.
  revert tp reported. induction requests as [|s requests IH]; intros tp reported Hok;
    cbn [serve]; [by rewrite app_nil_r|].
  pose proof (resolve_reported s tp reported Hok) as H1.
  destruct (resolve_client_address s tp) as [[x tp1] r]. specialize (IH tp1 _ H1).
  destruct (serve tp1 requests) as [rs tp2]. rewrite <- app_assoc in IH. by destruct r.
Qed.

(** However many requests arrive, at most eight untrusted peers are reported and
    none of them twice. *)
Lemma reports_bounded networks hops entries bytes tp requests :
  trusted_init networks hops entries bytes = Return tp ->
  NoDup (serve tp requests).1 /\ (length (serve tp requests).1 <= MAX_WARNED_PEERS)%nat.
Proof.
  intros Hi. assert (reported_ok [] tp) as Hok.
  { split; [apply NoDup_nil_2|]. split; [unfold MAX_WARNED_PEERS; simpl; lia|].
    revert Hi. unfold trusted_init. destruct (compile_entries networks) as [[|n ns]|]; [..|done];
      intros [= <-] ws; simpl; [done|]. intros [= <-]. split; [done|]. unfold MAX_WARNED_PEERS. lia. }
  pose proof (serve_reported requests tp [] Hok) as Hs. destruct (serve tp requests) as [rs tp'].
  by destruct Hs as (H1 & H2 & _).
Qed.

(** ** Boundary inputs *)

Fixpoint nines (n : nat) : string := match n with O => "" | S n => String "9" (nines n) end.

(** A port of 4301 digits is not a malformed entry: the resolution raises. *)
Lemma long_port_raises :
  exists e, (resolve_client_address
    (demo_request ("10.0.0.2:" +:+ nines 4301)) demo_proxies).1.1 = Raise e /\
    exn_cls e = ValueError.
Proof. eexists. split; vm_compute; reflexivity. Qed.

(** With [max_entries=0] the slice keeps every entry: the cap is no cap. *)
Lemma zero_entries_reads_all :
  (resolve_client_address (demo_request "203.0.113.7, 10.0.0.3, 10.0.0.2")
     (mkTrusted [Net4 167772160 8] None 0 8192 None)).1.1 =
  Return (Some (mkClientAddress (V4 3405803783) None RESOLVED 2)).
Proof. by vm_compute. Qed.

Lemma resolved_is_vouched_witness :
  exists c, (resolve_client_address (demo_request "6.6.6.6, 203.0.113.7, 10.0.0.2") demo_proxies).1.1 =
    Return (Some c) /\ forwarded c = true /\ trusts demo_proxies (ca_ip c) = false.
Proof.
  exists (mkClientAddress (V4 3405803783) None RESOLVED 1).
  assert ((resolve_client_address (demo_request "6.6.6.6, 203.0.113.7, 10.0.0.2") demo_proxies).1.1 =
    Return (Some (mkClientAddress (V4 3405803783) None RESOLVED 1))) as E by (by vm_compute).
  split; [exact E|]. split; [done|].
  destruct (resolved_is_vouched _ _ _ E) as (peer & port & _ & _ & _ & H & _). exact H.
Defined.

Lemma forging_changes_nothing_witness :
  exists c c', (resolve_client_address (demo_request "203.0.113.7, 10.0.0.2") demo_proxies).1.1 =
      Return (Some c) /\
    (resolve_client_address
       (mkScope (sc_client (demo_request ""))
          [("X-Forwarded-For", "6.6.6.6,203.0.113.7, 10.0.0.2")]%string) demo_proxies).1.1 =
      Return (Some c') /\
    (c' = c \/ (degraded c' = true /\ trusts demo_proxies (ca_ip c') = true)).
Proof.
  exists (mkClientAddress (V4 3405803783) None RESOLVED 1).
  assert ((resolve_client_address (demo_request "203.0.113.7, 10.0.0.2") demo_proxies).1.1 =
    Return (Some (mkClientAddress (V4 3405803783) None RESOLVED 1))) as E by (by vm_compute).
  destruct (forging_changes_nothing (demo_request "203.0.113.7, 10.0.0.2") demo_proxies _
    [("X-Forwarded-For", "6.6.6.6,203.0.113.7, 10.0.0.2")]%string eq_refl E eq_refl) as (c' & H1 & H2).
  - apply rtc_once. by apply (forge_value "X-Forwarded-For" "203.0.113.7, 10.0.0.2" "6.6.6.6" []).
  - exists c'. split; [exact E|]. split; [exact H1|exact H2].
Defined.

(** ** The key of a caller *)

Lemma canonical_valid s a : parse_ip s = Some a -> valid_address (canonical a).
Proof.
  intros H. apply parse_ip_range in H. destruct a as [n|n scope]; [done|]. cbn [canonical].
  destruct (ipv4_mapped n) as [m|] eqn:E; [|done]. by eapply ipv4_mapped_range.
Qed.

Lemma resolved_valid s tp c :
  (resolve_client_address s tp).1.1 = Return (Some c) -> valid_address (ca_ip c).
Proof.
  rewrite resolve_peer. destruct (peer_of s) as [[peer port]|] eqn:Ep; [|done].
  assert (valid_address peer) as Hpeer.
  { revert Ep. unfold peer_of. destruct (sc_client s) as [[host q]|]; [|done]. cbn [mbind option_bind].
    destruct (parse_ip host) eqn:Eh; [|done]. intros [= <- _]. by eapply canonical_valid. }
  destruct (trusts tp peer); [|by intros [= <-]].
  destruct (resolve_header tp peer port (sc_headers s)) as [c'|] eqn:Eh; [|done]. intros [= ->].
  revert Eh. unfold resolve_header.
  destruct (collect_header _ _) as [raw|]; [|by intros [= <-]].
  destruct (header_entries raw) as [|e0 es] eqn:Ee; [by intros [= <-]|]. rewrite <- Ee.
  intros Hw. apply resolve_entries_ok in Hw as (left & entries & ex & _ & Hex & Hok).
  destruct (walk_ok_peer tp peer ex entries c Hex Hok) as [Hres|[-> _]]; [|done].
  destruct Hok as (right & rest & _ & _ & Hc). rewrite Hres in Hc.
  destruct Hc as (e & rest' & _ & (host & b & _ & Hb & -> & _) & _). by eapply canonical_valid.
Qed.

(** The key of a resolved address is the address: its text parses back to it,
    IPv4 and compressed IPv6 alike.  So two requests fall into one bucket if and
    only if they were resolved to one address, however each was written in its
    header (mapped, with a zone, uncompressed or in upper case). *)
Lemma key_identifies_address (s1 s2 : Scope) (tp1 tp2 : TrustedProxies) (c1 c2 : ClientAddress) :
  (resolve_client_address s1 tp1).1.1 = Return (Some c1) ->
  (resolve_client_address s2 tp2).1.1 = Return (Some c2) ->
  parse_ip (address_key c1) = Some (ca_ip c1) /\
  (address_key c1 = address_key c2 <-> ca_ip c1 = ca_ip c2).
Proof.
  intros H1%resolved_valid H2%resolved_valid.
  pose proof (parse_compressed _ H1) as P1. pose proof (parse_compressed _ H2) as P2.
  split; [done|]. unfold address_key. split; [|by intros ->].
  intros E. rewrite E in P1. congruence.
Qed.

Lemma key_identifies_address_witness :
  exists c1 c2,
    (resolve_client_address (demo_request "::ffff:203.0.113.7") demo_proxies).1.1 = Return (Some c1) /\
    (resolve_client_address (demo_request "203.0.113.7:80") demo_proxies).1.1 = Return (Some c2) /\
    (address_key c1 = address_key c2 <-> ca_ip c1 = ca_ip c2) /\ ca_ip c1 = ca_ip c2.
Proof.
  exists (mkClientAddress (V4 3405803783) None RESOLVED 0),
         (mkClientAddress (V4 3405803783) (Some 80) RESOLVED 0).
  assert ((resolve_client_address (demo_request "::ffff:203.0.113.7") demo_proxies).1.1 =
    Return (Some (mkClientAddress (V4 3405803783) None RESOLVED 0))) as E1 by (by vm_compute).
  assert ((resolve_client_address (demo_request "203.0.113.7:80") demo_proxies).1.1 =
    Return (Some (mkClientAddress (V4 3405803783) (Some 80) RESOLVED 0))) as E2 by (by vm_compute).
  split; [exact E1|]. split; [exact E2|].
  split; [exact (proj2 (key_identifies_address _ _ _ _ _ _ E1 E2))|reflexivity].
Defined.

(** A middleware that overwrites the scope's client makes the resolved address
    the peer of whatever resolves after it. *)
Lemma overwritten_peer s tp s' c tp' :
  middleware true true s tp = (Return (s', Some c), tp') ->
  (resolve_client_address s tp).1.1 = Return (Some c) ->
  peer_of s' = Some (canonical (ca_ip c), Some (default 0 (ca_port c))).
Proof.
  unfold middleware. cbn [negb]. intros Hm Hr. pose proof (resolved_valid _ _ _ Hr) as Hv.
  destruct (resolve_client_address s tp) as [[r tp1] w]. cbn [fst] in Hr. subst r.
  injection Hm as <- _. unfold peer_of, address_key. cbn [sc_client mbind option_bind].
  by rewrite parse_compressed.
Qed.

Example resolve_example :
  (resolve_client_address (demo_request "6.6.6.6, 203.0.113.7:5000, 10.0.0.2") demo_proxies).1.1 =
  Return (Some (mkClientAddress (V4 3405803783) (Some 5000) RESOLVED 1)).
Proof. by vm_compute. Qed.
