(* ===== verification/Asyncio.v ===== *)
(** * The parts of asyncio the concurrency patterns use

    [asyncio.Semaphore] and [asyncio.timeout] as [resilience/bulkhead.py] and
    [resilience/timeout.py] use them: the text of CPython 3.13, an asyncio task
    running without interruption between two suspensions. *)

From S2P Require Import Prelude Errors.
From stdpp Require Import sorting.

Local Open Scope Z_scope.

(** ** Semaphore *)

(** What has become of the future a task waits on. *)
Inductive future_state : Type := Pending | Resolved | Cancelled.

#[export] Instance future_state_eq_dec : EqDecision future_state.
Proof. solve_decision. Defined.

(** [_value] and [_waiters]: the futures in order, each with the task that
    awaits it. *)
Record Semaphore : Type := mkSemaphore {
  sem_value : Z;
  sem_waiters : list (nat * future_state);
}.

Definition new_semaphore (value : Z) : Semaphore := mkSemaphore value [].

(** [locked] *)
Definition sem_locked (s : Semaphore) : bool :=
  (sem_value s =? 0) ||
  existsb (fun w => negb (bool_decide (w.2 = Cancelled))) (sem_waiters s).

(** The first waiter that is not done gets its result. *)
Fixpoint resolve_first (ws : list (nat * future_state)) : option (list (nat * future_state)) :=
  match ws with
  | [] => None
  | (t, Pending) :: ws => Some ((t, Resolved) :: ws)
  | w :: ws => cons w <$> resolve_first ws
  end.

(** [_wake_up_next] *)
Definition wake_up_next (s : Semaphore) : bool * Semaphore :=
  match resolve_first (sem_waiters s) with
  | Some ws => (true, mkSemaphore (sem_value s - 1) ws)
  | None => (false, s)
  end.

(** [while self._value > 0: if not self._wake_up_next(): break] *)
Fixpoint wake_all (fuel : nat) (s : Semaphore) : Semaphore :=
  match fuel with
  | O => s
  | S fuel =>
      if 0 <? sem_value s
      then let '(woken, s) := wake_up_next s in if woken then wake_all fuel s else s
      else s
  end.

(** [release] *)
Definition sem_release (s : Semaphore) : Semaphore :=
  (wake_up_next (mkSemaphore (sem_value s + 1) (sem_waiters s))).2.

(** [acquire], up to its suspension: [None] when the permit is taken at once. *)
Definition acquire_begin (t : nat) (s : Semaphore) : bool * Semaphore :=
  if sem_locked s
  then (false, mkSemaphore (sem_value s) (sem_waiters s ++ [(t, Pending)]))
  else (true, mkSemaphore (sem_value s - 1) (sem_waiters s)).

(** The future a task awaits, and [self._waiters.remove(fut)]. *)
Fixpoint take_waiter (t : nat) (ws : list (nat * future_state)) :
    option (future_state * list (nat * future_state)) :=
  match ws with
  | [] => None
  | (u, f) :: ws =>
      if bool_decide (u = t) then Some (f, ws)
      else '(g, rest) ← take_waiter t ws; Some (g, (u, f) :: rest)
  end.

(** [fut.cancel()] on the future the task awaits: true when it was not done. *)
Fixpoint cancel_waiter (t : nat) (ws : list (nat * future_state)) :
    bool * list (nat * future_state) :=
  match ws with
  | [] => (false, [])
  | (u, f) :: ws =>
      if bool_decide (u = t) then
        match f with
        | Pending => (true, (u, Cancelled) :: ws)
        | _ => (false, (u, f) :: ws)
        end
      else let '(b, ws') := cancel_waiter t ws in (b, (u, f) :: ws')
  end.

(** The rest of [acquire], once the awaited future is done and the task runs:
    [thrown] says that it resumes with a [CancelledError]. *)
Definition acquire_end (thrown : bool) (f : future_state) (ws : list (nat * future_state))
    (s : Semaphore) : Semaphore :=
  let v := if thrown && bool_decide (f = Resolved) then sem_value s + 1 else sem_value s in
  wake_all (S (length ws)) (mkSemaphore v ws).

(** *** Permits

    A permit is free, or given to a waiter that has not resumed yet. *)
Definition is_resolved (w : nat * future_state) : bool :=
  match w.2 with Resolved => true | _ => false end.
Definition is_pending (w : nat * future_state) : bool :=
  match w.2 with Pending => true | _ => false end.

Definition count_if {A} (p : A -> bool) (l : list A) : Z := Z.of_nat (length (List.filter p l)).

Definition permits (s : Semaphore) : Z := sem_value s + count_if is_resolved (sem_waiters s).

(** [a] waits ahead of [b]: [b] is not served while [a] is not done. *)
Definition in_order (a b : nat * future_state) : Prop := a.2 = Pending -> b.2 <> Resolved.

(** No permit is free while a waiter sleeps, unless a waiter that is about to
    resume will hand it on; and the queue is served in order. *)
Record sem_ok (s : Semaphore) : Prop := {
  so_value : 0 <= sem_value s;
  so_handed_on : 0 < sem_value s -> (exists w, w ∈ sem_waiters s /\ w.2 = Pending) ->
    exists w, w ∈ sem_waiters s /\ w.2 <> Pending;
  so_fifo : StronglySorted in_order (sem_waiters s);
}.

(** ** [asyncio.timeout] *)

Inductive timeout_state : Type := Created | Entered | Expiring | Expired | Exited.

#[export] Instance timeout_state_eq_dec : EqDecision timeout_state.
Proof. solve_decision. Defined.

(** [Timeout]: its state, its deadline and the number of cancel requests of
    the task when it was entered. *)
Record timeout_scope : Type := mkScope {
  ts_state : timeout_state;
  ts_when : Q;
  ts_cancelling : Z;
}.

(** [asyncio.timeout(delay)] and [Timeout.__aenter__] *)
Definition timeout_enter (now delay : Q) (cancels : Z) : timeout_scope :=
  mkScope Entered (now + delay) cancels.

(** [_on_timeout]; the caller has the task cancelled. *)
Definition on_timeout (sc : timeout_scope) : timeout_scope :=
  mkScope Expiring (ts_when sc) (ts_cancelling sc).

(** [Task.uncancel] *)
Definition uncancel (cancels : Z) : Z := if 0 <? cancels then cancels - 1 else cancels.

Definition timeout_error : exn := mk_exn TimeoutError NoInfo.
Definition cancelled_error : exn := mk_exn CancelledError NoInfo.

(** [Timeout.__aexit__] with the exception of the block, if any: the cancel
    requests of the task, the scope, and the exception that leaves. *)
Definition timeout_exit (cancels : Z) (sc : timeout_scope) (exc : option exn) :
    Z * timeout_scope * option exn :=
  match ts_state sc with
  | Expiring =>
      let n := uncancel cancels in
      (n, mkScope Expired (ts_when sc) (ts_cancelling sc),
       match exc with
       | Some e =>
           if (n <=? ts_cancelling sc) && isinstance e CancelledError
           then Some timeout_error else Some e
       | None => None
       end)
  | Entered => (cancels, mkScope Exited (ts_when sc) (ts_cancelling sc), exc)
  | _ => (cancels, sc, exc)
  end.

(** [Timeout.expired] *)
Definition timeout_expired (sc : timeout_scope) : bool :=
  match ts_state sc with Expiring | Expired => true | _ => false end.

(** ** Lemmas on the semaphore *)

Lemma count_if_app {A} (p : A -> bool) l1 l2 :
  count_if p (l1 ++ l2) = count_if p l1 + count_if p l2.
Proof. unfold count_if. rewrite List.filter_app, length_app. lia. Qed.

Lemma count_if_cons {A} (p : A -> bool) x l :
  count_if p (x :: l) = (if p x then 1 else 0) + count_if p l.
Proof. unfold count_if. simpl. destruct (p x); simpl; lia. Qed.

Lemma count_if_nonneg {A} (p : A -> bool) l : 0 <= count_if p l.
Proof. unfold count_if. lia. Qed.

Lemma count_if_pos {A} (p : A -> bool) l :
  0 < count_if p l <-> exists x, x ∈ l /\ p x = true.
Proof.
  induction l as [|y l IH].
  { split; [intros H; by apply Z.lt_irrefl in H|by intros (x & ?%elem_of_nil & _)]. }
  rewrite count_if_cons. pose proof (count_if_nonneg p l). split.
  - destruct (p y) eqn:E; [intros _; exists y; split; [left|done]|].
    intros Hl. destruct IH as [IH _]. destruct IH as (x & Hx & Hp); [lia|]. exists x.
    split; [by right|done].
  - intros (x & [->|Hx]%elem_of_cons & Hp); [rewrite Hp; lia|].
    destruct IH as [_ IH]. pose proof (IH (ex_intro _ x (conj Hx Hp))). destruct (p y); lia.
Qed.

(** The first pending waiter of a queue. *)
Lemma resolve_first_spec ws :
  match resolve_first ws with
  | Some ws' => exists l1 t l2, ws = l1 ++ (t, Pending) :: l2 /\ ws' = l1 ++ (t, Resolved) :: l2 /\
      forall w, w ∈ l1 -> w.2 <> Pending
  | None => forall w, w ∈ ws -> w.2 <> Pending
  end.
Proof.
  assert (Hskip : forall w ws, w.2 <> Pending ->
    match resolve_first ws with
    | Some ws' => exists l1 t l2, ws = l1 ++ (t, Pending) :: l2 /\ ws' = l1 ++ (t, Resolved) :: l2 /\
        forall w, w ∈ l1 -> w.2 <> Pending
    | None => forall w, w ∈ ws -> w.2 <> Pending
    end ->
    match cons w <$> resolve_first ws with
    | Some ws' => exists l1 t l2, w :: ws = l1 ++ (t, Pending) :: l2 /\
        ws' = l1 ++ (t, Resolved) :: l2 /\ forall w, w ∈ l1 -> w.2 <> Pending
    | None => forall w', w' ∈ w :: ws -> w'.2 <> Pending
    end).
  { intros w ws' Hw IH. destruct (resolve_first ws') as [ws1|]; simpl.
    - destruct IH as (l1 & t & l2 & -> & -> & Hl1). exists (w :: l1), t, l2.
      split_and!; [done|done|]. intros w' [->|Hw']%elem_of_cons; auto.
    - intros w' [->|Hw']%elem_of_cons; auto. }
  induction ws as [|[u f] ws IH]; [by intros w ?%elem_of_nil|]. simpl.
  destruct f; [|by apply Hskip..].
  exists [], u, ws. split_and!; [done|done|]. by intros w ?%elem_of_nil.
Qed.

Lemma in_order_mid f g l1 t l2 :
  (g = Pending -> f = Pending) -> (g = Resolved -> forall w, w ∈ l1 -> w.2 <> Pending) ->
  StronglySorted in_order (l1 ++ (t, f) :: l2) -> StronglySorted in_order (l1 ++ (t, g) :: l2).
Proof.
  intros Hp Hr. rewrite !StronglySorted_app. intros (H12 & H1 & H2).
  apply StronglySorted_inv in H2 as [H2 Hall]. split_and!; [|done|].
  - intros a b Ha [->|Hb]%elem_of_cons; [|apply H12; [done|by right]].
    intros Ea E. by apply (Hr E a).
  - constructor; [done|]. eapply Forall_impl; [exact Hall|]. intros b Hb E. simpl in *.
    apply Hb. by apply Hp.
Qed.

Lemma wake_up_next_ok woken s s' :
  wake_up_next s = (woken, s') -> 0 < sem_value s -> StronglySorted in_order (sem_waiters s) ->
  permits s' = permits s /\ 0 <= sem_value s' /\ StronglySorted in_order (sem_waiters s') /\
  if woken
  then count_if is_pending (sem_waiters s') = count_if is_pending (sem_waiters s) - 1
  else s' = s /\ count_if is_pending (sem_waiters s) = 0.
Proof.
  unfold wake_up_next. pose proof (resolve_first_spec (sem_waiters s)) as Hr.
  destruct (resolve_first _) as [ws|]; intros [= <- <-] Hv Hs.
  - destruct Hr as (l1 & t & l2 & E & -> & Hl1). unfold permits. cbn [sem_value sem_waiters].
    rewrite E in *. rewrite !count_if_app, !count_if_cons. cbn.
    split_and!; [lia|lia| |lia]. eapply in_order_mid; [|by intros _|exact Hs]. done.
  - split_and!; [done|lia|done|done|].
    pose proof (count_if_nonneg is_pending (sem_waiters s)).
    destruct (decide (0 < count_if is_pending (sem_waiters s))) as [Hc|]; [|lia].
    apply count_if_pos in Hc as (w & Hw & Hp). specialize (Hr w Hw).
    unfold is_pending in Hp. by destruct (w.2).
Qed.

(** Waking everybody a permit is free for: with one turn per pending waiter and
    one more, the loop ends by its own test. *)
Lemma wake_all_ok fuel s :
  0 <= sem_value s -> StronglySorted in_order (sem_waiters s) ->
  count_if is_pending (sem_waiters s) < Z.of_nat fuel ->
  permits (wake_all fuel s) = permits s /\ 0 <= sem_value (wake_all fuel s) /\
  StronglySorted in_order (sem_waiters (wake_all fuel s)) /\
  (sem_value (wake_all fuel s) = 0 \/ count_if is_pending (sem_waiters (wake_all fuel s)) = 0).
Proof.
  revert s. induction fuel as [|fuel IH]; intros s Hv Hs Hf.
  { pose proof (count_if_nonneg is_pending (sem_waiters s)). lia. }
  simpl. destruct (Z.ltb_spec 0 (sem_value s)) as [Hp|Hp]; [|split_and!; [done..|lia]].
  destruct (wake_up_next s) as [woken s'] eqn:E.
  apply wake_up_next_ok in E as (Hperm & Hv' & Hs' & Hw); [|done..].
  destruct woken.
  - rewrite <- Hperm. apply IH; [done..|lia].
  - destruct Hw as [-> Hw]. auto.
Qed.

Lemma no_pending_ok s :
  0 <= sem_value s -> StronglySorted in_order (sem_waiters s) ->
  (sem_value s = 0 \/ count_if is_pending (sem_waiters s) = 0) -> sem_ok s.
Proof.
  intros Hv Hs Hp. split; [done| |done]. intros Hpos (w & Hw & E).
  destruct Hp as [Hp|Hp]; [lia|].
  assert (0 < count_if is_pending (sem_waiters s)); [|lia].
  apply count_if_pos. exists w. split; [done|]. unfold is_pending. by rewrite E.
Qed.

Lemma new_semaphore_ok v : 0 <= v -> sem_ok (new_semaphore v) /\ permits (new_semaphore v) = v.
Proof.
  intros Hv. split; [|unfold permits; simpl; unfold count_if; simpl; lia]. apply no_pending_ok; [done|constructor|by right].
Qed.

Lemma sem_release_ok s :
  sem_ok s -> sem_ok (sem_release s) /\ permits (sem_release s) = permits s + 1.
Proof.
  intros [Hv Hh Hs]. unfold sem_release.
  destruct (wake_up_next _) as [woken s'] eqn:E. cbn [snd].
  pose proof E as E0.
  apply wake_up_next_ok in E as (Hperm & Hv' & Hs' & Hw); simpl in *; [|lia|done].
  split; [|rewrite Hperm; unfold permits; simpl; lia].
  split; [done| |done]. intros Hpos Hpend.
  unfold wake_up_next in E0. simpl in E0. pose proof (resolve_first_spec (sem_waiters s)) as Hr.
  destruct (resolve_first _) as [ws|]; injection E0 as <- <-; simpl in *.
  - destruct Hr as (l1 & t & l2 & E & -> & Hl1). exists (t, Resolved). split; [|done].
    apply elem_of_app. right. by left.
  - destruct Hpend as (w & Hw' & Hp). by destruct (Hr w Hw').
Qed.

(** Taking a permit at once, or queueing. *)
Lemma acquire_begin_ok t s granted s' :
  acquire_begin t s = (granted, s') -> sem_ok s ->
  sem_ok s' /\ permits s' = permits s - (if granted then 1 else 0) /\
  sem_waiters s' = sem_waiters s ++ (if granted then [] else [(t, Pending)]).
Proof.
  unfold acquire_begin, sem_locked. intros E [Hv Hh Hs].
  destruct ((sem_value s =? 0) || _) eqn:El; injection E as <- <-; cbn.
  - assert (forall a, a ∈ sem_waiters s -> forall b, b ∈ [(t, Pending)] -> in_order a b) as Ho.
    { intros a _ b ->%list_elem_of_singleton. by intros _. }
    split_and!; [split; cbn; [done| |]|unfold permits; simpl; rewrite count_if_app; unfold count_if at 2; simpl; lia|done].
    + intros Hpos _. apply orb_prop in El as [El%Z.eqb_eq|El]; [lia|].
      apply existsb_exists in El as (w & Hw%list_elem_of_In & Hc).
      destruct (w.2) eqn:Ew.
      * destruct Hh as (w' & Hw' & Hd); [done|by exists w|]. exists w'.
        split; [by apply elem_of_app; left|done].
      * exists w. split; [by apply elem_of_app; left|by rewrite Ew].
      * by rewrite bool_decide_eq_true_2 in Hc.
    + apply StronglySorted_app. split_and!; [intros; by eapply Ho|done|repeat constructor].
  - apply orb_false_elim in El as [E0%Z.eqb_neq El]. rewrite app_nil_r.
    split_and!; [|unfold permits; simpl; lia|done]. split; simpl; [lia| |done].
    intros _ (w & Hw & Hp). exfalso.
    assert (existsb (fun w => negb (bool_decide (w.2 = Cancelled))) (sem_waiters s) = true) as C;
      [|congruence].
    apply existsb_exists. exists w. split; [by apply list_elem_of_In|]. by rewrite Hp.
Qed.

Lemma take_waiter_spec t ws f rest :
  take_waiter t ws = Some (f, rest) ->
  exists l1 l2, ws = l1 ++ (t, f) :: l2 /\ rest = l1 ++ l2.
Proof.
  revert f rest. induction ws as [|[u g] ws IH]; intros f rest; simpl; [done|].
  case_bool_decide as E.
  - intros [= <- <-]. subst. by exists [], ws.
  - destruct (take_waiter t ws) as [[h r]|]; [|done]. simpl. intros [= -> <-].
    destruct (IH f r eq_refl) as (l1 & l2 & -> & ->). by exists ((u, g) :: l1), l2.
Qed.

Lemma take_waiter_none t ws : take_waiter t ws = None <-> forall f, (t, f) ∉ ws.
Proof.
  induction ws as [|[u g] ws IH]; simpl; [split; [by intros _ f ?%elem_of_nil|done]|].
  case_bool_decide as E.
  - subst. split; [done|]. intros H. destruct (H g). left.
  - destruct (take_waiter t ws) as [[h r]|]; simpl; split; try done.
    + intros H. destruct IH as [_ IH]. discriminate IH. intros f Hf. apply (H f). by right.
    + intros _ f [[= -> _]|Hf]%elem_of_cons; [done|]. by apply IH in Hf.
Qed.

Lemma cancel_waiter_spec t ws b ws' :
  cancel_waiter t ws = (b, ws') ->
  if b then exists l1 l2, ws = l1 ++ (t, Pending) :: l2 /\ ws' = l1 ++ (t, Cancelled) :: l2
  else ws' = ws.
Proof.
  revert b ws'. induction ws as [|[u g] ws IH]; intros b ws'; simpl; [by intros [= <- <-]|].
  case_bool_decide as E.
  - subst. destruct g; intros [= <- <-]; [|done..]. by exists [], ws.
  - destruct (cancel_waiter t ws) as [b' r]. intros [= -> <-].
    specialize (IH b r eq_refl). destruct b; [|by subst].
    destruct IH as (l1 & l2 & -> & ->). by exists ((u, g) :: l1), l2.
Qed.

Lemma in_order_remove l1 w l2 :
  StronglySorted in_order (l1 ++ w :: l2) -> StronglySorted in_order (l1 ++ l2).
Proof.
  rewrite !StronglySorted_app, StronglySorted_cons. intros (H & H1 & _ & H2).
  split_and!; [|done..]. intros a b Ha Hb. apply H; [done|by right].
Qed.

(** Resuming a queued [acquire]: the permit is taken, or given back. *)
Lemma acquire_end_ok t thrown f rest s :
  take_waiter t (sem_waiters s) = Some (f, rest) -> sem_ok s ->
  (thrown = false -> f = Resolved) -> f <> Pending ->
  let s' := acquire_end thrown f rest s in
  sem_ok s' /\ permits s' = permits s - (if thrown then 0 else 1).
Proof.
  intros E [Hv Hh Hs] Ht Hf. unfold acquire_end.
  apply take_waiter_spec in E as (l1 & l2 & E & ->). rewrite E in Hs.
  apply in_order_remove in Hs as Hs'.
  set (v := if _ && _ then _ else _).
  assert (Hv' : 0 <= v) by (unfold v; destruct (_ && _); lia).
  destruct (wake_all_ok (S (length (l1 ++ l2))) (mkSemaphore v (l1 ++ l2))) as (Hp & Hv1 & Hs1 & Hn);
    [done|done| |split; [by apply no_pending_ok|]].
  - simpl. unfold count_if. pose proof (List.filter_length_le is_pending (l1 ++ l2)). lia.
  - rewrite Hp. unfold permits. simpl. rewrite E, !count_if_app, count_if_cons.
    unfold v. destruct f; [done| |].
    + rewrite bool_decide_eq_true_2 by done. destruct thrown; simpl; lia.
    + destruct thrown; [|by specialize (Ht eq_refl)]. simpl. lia.
Qed.

(** Cancelling the future of a waiter. *)
Lemma cancel_waiter_ok t s b ws :
  cancel_waiter t (sem_waiters s) = (b, ws) -> sem_ok s ->
  sem_ok (mkSemaphore (sem_value s) ws) /\ permits (mkSemaphore (sem_value s) ws) = permits s.
Proof.
  intros E [Hv Hh Hs]. apply cancel_waiter_spec in E. destruct b; [|by subst; split].
  destruct E as (l1 & l2 & E & ->). unfold permits. rewrite E in *. split; [split; simpl|].
  - done.
  - intros _ _. exists (t, Cancelled). split; [|done]. apply elem_of_app. right. left.
  - by eapply in_order_mid; [| |exact Hs].
  - simpl. by rewrite !count_if_app, !count_if_cons.
Qed.

(** *** The futures of the queue

    What an operation of one task does to the futures of the others. *)
Definition future (t : nat) (ws : list (nat * future_state)) : option future_state :=
  fst <$> take_waiter t ws.

Lemma future_cons u v g ws :
  future u ((v, g) :: ws) = if decide (v = u) then Some g else future u ws.
Proof.
  unfold future. simpl. case_bool_decide; case_decide; try done.
  by destruct (take_waiter u ws) as [[? ?]|].
Qed.

(** Some pending futures got their result. *)
Definition served (ws ws' : list (nat * future_state)) : Prop :=
  Forall2 (fun a b => a.1 = b.1 /\ (a.2 = b.2 \/ a.2 = Pending /\ b.2 = Resolved)) ws ws'.

#[export] Instance served_preorder : PreOrder served.
Proof.
  split.
  - intros ws. apply Forall_Forall2_diag. by apply Forall_forall; auto.
  - intros ws1 ws2 ws3 H. revert ws3. induction H as [|a b l1 l2 [E H] Hl IH];
      intros ws3 H3; inversion H3 as [|? c ? l3 [E' H'] Hl']; subst; [constructor|].
    constructor; [|by apply IH]. split; [congruence|]. intuition congruence.
Qed.

Lemma served_keys ws ws' : served ws ws' -> ws'.*1 = ws.*1.
Proof. induction 1 as [|a b l1 l2 [E _] _ IH]; [done|]. cbn. congruence. Qed.

Lemma served_future t ws ws' f :
  served ws ws' -> future t ws = Some f ->
  exists f', future t ws' = Some f' /\ (f' = f \/ f = Pending /\ f' = Resolved).
Proof.
  unfold future. induction 1 as [|[u g] [u' g'] l1 l2 [E Hg] _ IH]; simpl; [done|].
  simpl in *. subst u'. case_bool_decide; simpl.
  - intros [= <-]. exists g'. split; [done|]. destruct Hg as [->|[-> ->]]; auto.
  - destruct (take_waiter t l1) as [[h r]|]; [|done]. simpl in *. intros [= ->].
    destruct (IH eq_refl) as (f' & Hf' & H'). destruct (take_waiter t l2) as [[h' r']|]; [|done].
    simpl in *. eauto.
Qed.

Lemma future_key t ws : future t ws = None <-> t ∉ ws.*1.
Proof.
  unfold future. induction ws as [|[u g] ws IH]; simpl; [split; [by intros _ ?%elem_of_nil|done]|].
  rewrite not_elem_of_cons. case_bool_decide; simpl; [by split; [|intros [? _]]|].
  destruct (take_waiter t ws) as [[h r]|]; simpl in *; [|naive_solver].
  split; [done|]. intros [_ H']. by apply IH in H'.
Qed.

Lemma future_elem t f ws : future t ws = Some f -> (t, f) ∈ ws.
Proof.
  unfold future. destruct (take_waiter t ws) as [[h r]|] eqn:E; simpl; [|done]. intros [= ->].
  apply take_waiter_spec in E as (l1 & l2 & -> & _). apply elem_of_app. right. left.
Qed.

Lemma elem_future t f ws : NoDup (ws.*1) -> (t, f) ∈ ws -> future t ws = Some f.
Proof.
  unfold future. induction ws as [|[u g] ws IH]; simpl; [by intros _ ?%elem_of_nil|].
  intros [Hu Hd]%NoDup_cons [[= <- <-]|H]%elem_of_cons.
  - by rewrite bool_decide_eq_true_2.
  - rewrite bool_decide_eq_false_2.
    + specialize (IH Hd H). by destruct (take_waiter t ws) as [[h r]|].
    + intros ->. destruct Hu. by apply (list_elem_of_fmap_2 fst) in H.
Qed.

(** Removing, queueing and cancelling change one future only. *)
Lemma take_waiter_keys t ws f rest :
  take_waiter t ws = Some (f, rest) -> NoDup (ws.*1) ->
  NoDup (rest.*1) /\ forall u, future u rest = if decide (u = t) then None else future u ws.
Proof.
  revert f rest.
  induction ws as [|[v g] ws IH]; simpl; intros f rest E Hd; [done|].
  apply NoDup_cons in Hd as [Hv Hd]. case_bool_decide as Ev; simplify_eq.
  - split; [done|]. intros u. case_decide as Eu.
    + subst. by apply future_key.
    + unfold future. simpl. case_bool_decide; [by subst|].
      by destruct (take_waiter u rest) as [[? ?]|].
  - destruct (take_waiter t ws) as [[h r]|] eqn:E'; [|done]. simpl in *. simplify_eq.
    destruct (IH f r eq_refl Hd) as [Hr Hu]. split.
    + cbn. apply NoDup_cons. split; [|done]. intros Hc. apply Hv.
      apply take_waiter_spec in E' as (l1 & l2 & -> & ->). revert Hc.
      rewrite !fmap_app, !elem_of_app, fmap_cons, elem_of_cons. tauto.
    + intros u. unfold future in *. simpl. destruct (decide (u = t)) as [->|Hne].
      * rewrite bool_decide_eq_false_2 by done. specialize (Hu t).
        rewrite decide_True in Hu by done. by destruct (take_waiter t r) as [[? ?]|].
      * case_bool_decide; [done|]. specialize (Hu u). rewrite decide_False in Hu by done.
        destruct (take_waiter u r) as [[? ?]|], (take_waiter u ws) as [[? ?]|]; simpl in *; congruence.
Qed.

Lemma future_app u ws t f :
  t ∉ ws.*1 -> future u (ws ++ [(t, f)]) = if decide (u = t) then Some f else future u ws.
Proof.
  unfold future. induction ws as [|[v g] ws IH]; simpl; intros Ht.
  - case_bool_decide; case_decide; by simplify_eq.
  - apply not_elem_of_cons in Ht as [Hv Ht]. case_bool_decide; simpl.
    + subst. by rewrite decide_False.
    + specialize (IH Ht). destruct (decide (u = t)); destruct (take_waiter u _) as [[? ?]|];
        simpl in *; try done; by destruct (take_waiter u ws) as [[? ?]|].
Qed.

Lemma cancel_waiter_keys t ws b ws' :
  cancel_waiter t ws = (b, ws') ->
  ws'.*1 = ws.*1 /\
  (forall u, u <> t -> future u ws' = future u ws) /\
  future t ws' = if b then Some Cancelled else future t ws.
Proof.
  revert b ws'. induction ws as [|[v g] ws IH]; simpl; intros b ws' E.
  { by simplify_eq. }
  case_bool_decide as Ev.
  - subst. destruct g; simplify_eq; split_and!; try done; intros; rewrite !future_cons;
      by repeat case_decide.
  - destruct (cancel_waiter t ws) as [b' r]. simplify_eq. destruct (IH b r eq_refl) as (Hk & Hu & Ht).
    split_and!; [by rewrite !fmap_cons, Hk| |].
    + intros u Hne. rewrite !future_cons. by rewrite Hu.
    + rewrite !future_cons, Ht. by case_decide.
Qed.

Lemma cancel_waiter_false t ws ws' :
  cancel_waiter t ws = (false, ws') -> future t ws <> Some Pending.
Proof.
  unfold future. revert ws'. induction ws as [|[v g] ws IH]; simpl; intros ws' E; [done|].
  case_bool_decide; [destruct g; simplify_eq; simpl; congruence|].
  destruct (cancel_waiter t ws) as [b' r]. simplify_eq.
  specialize (IH r eq_refl). by destruct (take_waiter t ws) as [[? ?]|].
Qed.

Lemma resolve_first_served ws ws' : resolve_first ws = Some ws' -> served ws ws'.
Proof.
  intros E. pose proof (resolve_first_spec ws) as H. rewrite E in H.
  destruct H as (l1 & t & l2 & -> & -> & _). apply Forall2_app; [reflexivity|].
  constructor; [auto|reflexivity].
Qed.

Lemma wake_up_next_served s : served (sem_waiters s) (sem_waiters (wake_up_next s).2).
Proof.
  unfold wake_up_next. destruct (resolve_first _) as [ws|] eqn:E; simpl; [|reflexivity].
  by apply resolve_first_served.
Qed.

Lemma wake_all_served fuel s : served (sem_waiters s) (sem_waiters (wake_all fuel s)).
Proof.
  revert s. induction fuel as [|fuel IH]; intros s; simpl; [reflexivity|].
  destruct (0 <? sem_value s); [|reflexivity].
  pose proof (wake_up_next_served s) as H. destruct (wake_up_next s) as [[] s']; simpl in *; [|done].
  by transitivity (sem_waiters s').
Qed.

Definition future_le (a b : option future_state) : Prop :=
  a = b \/ a = Some Pending /\ b = Some Resolved.

Lemma served_le t ws ws' : served ws ws' -> future_le (future t ws) (future t ws').
Proof.
  intros H. destruct (future t ws) as [f|] eqn:E.
  - destruct (served_future t ws ws' f H E) as (f' & -> & [->|[-> ->]]); [by left|by right].
  - left. symmetry. apply future_key. rewrite (served_keys _ _ H). by apply future_key.
Qed.
