(* ===== verification/Bulkhead.v ===== *)
(** * Bulkhead

    [resilience/bulkhead.py]: a limit on the number of concurrent calls, over
    [asyncio.Semaphore] and [asyncio.timeout] ([Asyncio]).  A world holds the
    bulkhead, its semaphores, the asyncio tasks that use it and the
    applications whose exit stack its components are opened on; an event is
    what one task does between two suspensions, or what the event loop does. *)

From S2P Require Import Prelude Errors Asyncio.
From stdpp Require Import sorting.

Local Open Scope Z_scope.

(** [BulkheadConfig] *)
Record BulkheadConfig : Type := mkBulkheadConfig {
  max_concurrent : option Z;
  max_wait : option Q;
  max_workers : option Z;
}.

(** The constraints pydantic checks: [PositiveInt], [NonNegativeFloat]. *)
Definition bulkhead_config_valid (c : BulkheadConfig) : bool :=
  match max_concurrent c with Some n => 0 <? n | None => true end &&
  match max_wait c with Some q => (0 <=? q)%py | None => true end &&
  match max_workers c with Some n => 0 <? n | None => true end.

(** [_State]: the semaphore is a reference into the heap of semaphores. *)
Record BulkheadState : Type := mkBulkheadState {
  bs_config : BulkheadConfig;
  bs_semaphore : option nat;
}.

(** An item of [uses=]; a provider has no key, a component has one. *)
Record used_item : Type := mkUsed { u_id : nat; u_key : option (string * string) }.

Abbreviation overrides := (gmap (string * string) nat).

(** An entry of [_scopes]: the semaphore and the token of the context variable,
    which holds the value the variable had. *)
Abbreviation scope := (option nat * option (option overrides))%type.

(** What a task is doing: outside the methods, with the outcome of the last
    one; in [semaphore.acquire()]; waiting for [_open_lock]; opening items. *)
Inductive activity : Type :=
| Idle (r : outcome exn unit)
| Waiting (st : BulkheadState) (i : nat) (sc : timeout_scope)
| AtOpenLock (sem : option nat)
| OpeningUses (sem : option nat) (app : nat) (item : used_item) (rest : list used_item).

(** An asyncio task: [_num_cancels_requested] and [_must_cancel]. *)
Record task : Type := mkTask {
  t_activity : activity;
  t_cancels : Z;
  t_must_cancel : bool;
}.

Definition idle_task : task := mkTask (Idle (Return tt)) 0 false.

(** The mutable attributes of [Bulkhead]. *)
Record Bulkhead : Type := mkBulkhead {
  b_state : BulkheadState;
  b_executor : option Z;
  b_opened : bool;
  b_open_lock : option nat;
  b_scopes : gmap nat (list scope);
}.

(** The bulkhead, the semaphores it has built, the tasks, the value of
    [_active_bulkhead] in each of them, the exit stacks of the applications,
    those that run, and the metrics.  [w_capacity] records what each semaphore
    was built with, [w_lost] the permits no scope will release. *)
Record world : Type := mkWorld {
  w_now : Q;
  w_self : Bulkhead;
  w_semaphores : list Semaphore;
  w_tasks : gmap nat task;
  w_context : gmap nat overrides;
  w_stacks : gmap nat (list used_item);
  w_running : gset nat;
  w_active : Z;
  w_rejections : Z;
  w_capacity : list Z;
  w_lost : list nat;
}.

Definition get_task (t : nat) (w : world) : task := default idle_task (w_tasks w !! t).

Definition set_self (b : Bulkhead) (w : world) : world :=
  mkWorld (w_now w) b (w_semaphores w) (w_tasks w) (w_context w) (w_stacks w) (w_running w)
    (w_active w) (w_rejections w) (w_capacity w) (w_lost w).
Definition set_task (t : nat) (x : task) (w : world) : world :=
  mkWorld (w_now w) (w_self w) (w_semaphores w) (<[t := x]> (w_tasks w)) (w_context w)
    (w_stacks w) (w_running w) (w_active w) (w_rejections w) (w_capacity w) (w_lost w).
Definition set_semaphore (i : nat) (s : Semaphore) (w : world) : world :=
  mkWorld (w_now w) (w_self w) (<[i := s]> (w_semaphores w)) (w_tasks w) (w_context w)
    (w_stacks w) (w_running w) (w_active w) (w_rejections w) (w_capacity w) (w_lost w).
Definition set_context (c : gmap nat overrides) (w : world) : world :=
  mkWorld (w_now w) (w_self w) (w_semaphores w) (w_tasks w) c
    (w_stacks w) (w_running w) (w_active w) (w_rejections w) (w_capacity w) (w_lost w).
Definition set_apps (st : gmap nat (list used_item)) (run : gset nat) (w : world) : world :=
  mkWorld (w_now w) (w_self w) (w_semaphores w) (w_tasks w) (w_context w)
    st run (w_active w) (w_rejections w) (w_capacity w) (w_lost w).
Definition count_active (d : Z) (w : world) : world :=
  mkWorld (w_now w) (w_self w) (w_semaphores w) (w_tasks w) (w_context w)
    (w_stacks w) (w_running w) (w_active w + d) (w_rejections w) (w_capacity w) (w_lost w).
Definition count_rejection (w : world) : world :=
  mkWorld (w_now w) (w_self w) (w_semaphores w) (w_tasks w) (w_context w)
    (w_stacks w) (w_running w) (w_active w) (w_rejections w + 1) (w_capacity w) (w_lost w).

(** The call of task [t] ends with an outcome; its cancel counter is [n]. *)
Definition task_finish (t : nat) (n : Z) (r : outcome exn unit) (w : world) : world :=
  set_task t (mkTask (Idle r) n false) w.

Section Bulkhead.
Context (name : string) (uses : list used_item).

(** [self._overrides]: a later component with the same key replaces the
    earlier one. *)
Definition own_overrides : overrides :=
  foldl (fun m u => match u_key u with Some k => <[k := u_id u]> m | None => m end) ∅ uses.

(** [_build_semaphore]: the new heap and the reference. *)
Definition build_semaphore (c : BulkheadConfig) (h : list Semaphore) :
    list Semaphore * option nat :=
  match max_concurrent c with
  | None => (h, None)
  | Some n => (h ++ [new_semaphore n], Some (length h))
  end.

Definition built (c : BulkheadConfig) : list Z :=
  match max_concurrent c with Some n => [n] | None => [] end.

(** [__init__] *)
Definition bulkhead_init (c : BulkheadConfig) : world :=
  let '(h, sem) := build_semaphore c [] in
  mkWorld 0 (mkBulkhead (mkBulkheadState c sem) None false None ∅) h ∅ ∅ ∅ ∅ 0 0 (built c) [].

Definition set_scopes (m : gmap nat (list scope)) (b : Bulkhead) : Bulkhead :=
  mkBulkhead (b_state b) (b_executor b) (b_opened b) (b_open_lock b) m.
Definition set_open (opened : bool) (lock : option nat) (b : Bulkhead) : Bulkhead :=
  mkBulkhead (b_state b) (b_executor b) opened lock (b_scopes b).

(** [__aenter__] after the permit and the components: the overrides of the
    context, the scope of the task (top first), the gauge. *)
Definition admit_call (t : nat) (n : Z) (sem : option nat) (w : world) : world :=
  let current := w_context w !! t in
  let '(ctx, token) :=
    if bool_decide (own_overrides = ∅) then (w_context w, None)
    else (<[t := own_overrides ∪ default ∅ current]> (w_context w), Some current) in
  let b := w_self w in
  let stack := (sem, token) :: default [] (b_scopes b !! t) in
  task_finish t n (Return tt)
    (count_active 1
      (set_self (set_scopes (<[t := stack]> (b_scopes b)) b) (set_context ctx w))).

(** [if self._uses and not self._opened: await self._open_uses()] *)
Definition after_permit (t : nat) (n : Z) (sem : option nat) (w : world) : world :=
  if negb (bool_decide (uses = [])) && negb (b_opened (w_self w))
  then set_task t (mkTask (AtOpenLock sem) n false) w
  else admit_call t n sem w.

(** [__aenter__], up to its first suspension. *)
Definition bulkhead_enter (t : nat) (w : world) : option world :=
  let st := b_state (w_self w) in
  let x := get_task t w in
  match t_activity x with
  | Idle _ =>
      match bs_semaphore st with
      | None => Some (after_permit t (t_cancels x) None w)
      | Some i =>
          s ← w_semaphores w !! i;
          let wait := default 0%Q (max_wait (bs_config st)) in
          let sc := timeout_enter (w_now w) wait (t_cancels x) in
          let '(granted, s') := acquire_begin t s in
          if granted
          then let '(n, _, _) := timeout_exit (t_cancels x) sc None in
               Some (after_permit t n (Some i) (set_semaphore i s' w))
          else Some (set_task t (mkTask (Waiting st i sc) (t_cancels x) (t_must_cancel x))
                       (set_semaphore i s' w))
      end
  | _ => None
  end.

(** [BulkheadFullError(name=..., max_concurrent=...)] *)
Definition bulkhead_full (c : BulkheadConfig) : exn :=
  mk_exn BulkheadFullError (BulkheadInfo name (default 0 (max_concurrent c))).

(** The task that waited for a permit runs again: the rest of [acquire], the
    exit of the timeout, and the [except TimeoutError] clause. *)
Definition bulkhead_resume (t : nat) (w : world) : option world :=
  let x := get_task t w in
  match t_activity x with
  | Waiting st i sc =>
      s ← w_semaphores w !! i;
      '(f, rest) ← take_waiter t (sem_waiters s);
      if bool_decide (f = Pending) then None
      else
        let thrown := t_must_cancel x || bool_decide (f = Cancelled) in
        let w1 := set_semaphore i (acquire_end thrown f rest s) w in
        match timeout_exit (t_cancels x) sc (if thrown then Some cancelled_error else None) with
        | (n, _, None) => Some (after_permit t n (Some i) w1)
        | (n, _, Some e) =>
            if isinstance e TimeoutError
            then Some (task_finish t n (Raise (bulkhead_full (bs_config st))) (count_rejection w1))
            else Some (task_finish t n (Raise e) w1)
        end
  | _ => None
  end.

(** [Task.cancel] of a task that waits for a permit. *)
Definition cancel_task (t : nat) (st : BulkheadState) (i : nat) (sc : timeout_scope) (w : world) :
    option world :=
  let x := get_task t w in
  s ← w_semaphores w !! i;
  let '(cancelled, ws) := cancel_waiter t (sem_waiters s) in
  Some (set_task t (mkTask (Waiting st i sc) (t_cancels x + 1) (t_must_cancel x || negb cancelled))
          (set_semaphore i (mkSemaphore (sem_value s) ws) w)).

(** The deadline of [asyncio.timeout(wait)] has come. *)
Definition bulkhead_expire (t : nat) (w : world) : option world :=
  match t_activity (get_task t w) with
  | Waiting st i sc =>
      if bool_decide (ts_state sc = Entered) && (ts_when sc <=? w_now w)%py
      then cancel_task t st i (on_timeout sc) w else None
  | _ => None
  end.

(** Somebody else cancels a task.  Outside [acquire] the exception reaches the
    code of the caller or of an item ([EvOpenItem], [EvOpenCancelled]), and only
    the counter shows here. *)
Definition bulkhead_cancel (t : nat) (w : world) : option world :=
  let x := get_task t w in
  match t_activity x with
  | Waiting st i sc => cancel_task t st i sc w
  | a => Some (set_task t (mkTask a (t_cancels x + 1) (t_must_cancel x)) w)
  end.

(** An exception leaves [_open_uses]: nothing of [__aenter__] catches it. *)
Definition open_fails (t : nat) (sem : option nat) (e : exn) (w : world) : world :=
  let w' := task_finish t (t_cancels (get_task t w)) (Raise e) w in
  mkWorld (w_now w') (w_self w') (w_semaphores w') (w_tasks w') (w_context w') (w_stacks w')
    (w_running w') (w_active w') (w_rejections w') (w_capacity w') (option_list sem ++ w_lost w').

(** [_open_uses] once the task holds [_open_lock]; [app] is what
    [_current_micro] holds in the context of the task. *)
Definition open_begin (t : nat) (app : option nat) (w : world) : option world :=
  let x := get_task t w in
  let b := w_self w in
  match t_activity x, b_open_lock b with
  | AtOpenLock sem, None =>
      if b_opened b then Some (admit_call t (t_cancels x) sem w)
      else match app with
           | None => Some (open_fails t sem (mk_exn NoActiveAppError NoInfo) w)
           | Some a =>
               if bool_decide (a ∈ w_running w)
               then match uses with
                    | [] => Some (admit_call t (t_cancels x) sem (set_self (set_open true None b) w))
                    | u :: us =>
                        Some (set_task t (mkTask (OpeningUses sem a u us) (t_cancels x) false)
                                (set_self (set_open false (Some t) b) w))
                    end
               else Some (open_fails t sem (mk_exn RuntimeError NoInfo) w)
           end
  | _, _ => None
  end.

(** [await exit_stack.enter_async_context(item)] ends. *)
Definition open_item (t : nat) (r : outcome exn unit) (w : world) : option world :=
  let x := get_task t w in
  let b := w_self w in
  match t_activity x with
  | OpeningUses sem a u us =>
      match r with
      | Raise e => Some (open_fails t sem e (set_self (set_open (b_opened b) None b) w))
      | Return _ =>
          let w1 := set_apps (<[a := u :: default [] (w_stacks w !! a)]> (w_stacks w))
                      (w_running w) w in
          match us with
          | [] => Some (admit_call t (t_cancels x) sem (set_self (set_open true None b) w1))
          | u' :: us' =>
              Some (set_task t (mkTask (OpeningUses sem a u' us') (t_cancels x) false) w1)
          end
      end
  | _ => None
  end.

(** [__aexit__] *)
Definition bulkhead_exit (t : nat) (w : world) : option world :=
  let x := get_task t w in
  let b := w_self w in
  match t_activity x with
  | Idle _ =>
      match b_scopes b !! t with
      | None | Some [] => Some (task_finish t (t_cancels x) (Raise (mk_exn KeyError NoInfo)) w)
      | Some ((sem, token) :: rest) =>
          let scopes := if bool_decide (rest = []) then delete t (b_scopes b)
                        else <[t := rest]> (b_scopes b) in
          let ctx := match token with
                     | None => w_context w
                     | Some None => delete t (w_context w)
                     | Some (Some m) => <[t := m]> (w_context w)
                     end in
          let w1 := set_self (set_scopes scopes b) (set_context ctx w) in
          let w2 := match sem with
                    | None => w1
                    | Some i => match w_semaphores w1 !! i with
                                | None => w1
                                | Some s => set_semaphore i (sem_release s) w1
                                end
                    end in
          Some (task_finish t (t_cancels x) (Return tt) (count_active (-1) w2))
      end
  | _ => None
  end.

(** [_apply_reconfigure] *)
Definition bulkhead_reconfigure (c : BulkheadConfig) (w : world) : option world :=
  if bulkhead_config_valid c then
    let b := w_self w in
    let executor :=
      match b_executor b with
      | None => None
      | Some n =>
          if bool_decide (max_workers c = max_workers (bs_config (b_state b)))
          then Some n else None
      end in
    let '(h, sem) := build_semaphore c (w_semaphores w) in
    Some (mkWorld (w_now w)
            (mkBulkhead (mkBulkheadState c sem) executor (b_opened b) (b_open_lock b) (b_scopes b))
            h (w_tasks w) (w_context w) (w_stacks w) (w_running w) (w_active w) (w_rejections w)
            (w_capacity w ++ built c) (w_lost w))
  else None.

(** [to_thread]: the size of the private pool the function runs on, [None] for
    the shared executor. *)
Definition to_thread (b : Bulkhead) : option Z * Bulkhead :=
  match max_workers (bs_config (b_state b)) with
  | None => (None, b)
  | Some n =>
      let pool := default n (b_executor b) in
      (Some pool, mkBulkhead (b_state b) (Some pool) (b_opened b) (b_open_lock b) (b_scopes b))
  end.

(** ** The system *)

Inductive bulkhead_event : Type :=
| EvEnter (t : nat) | EvResume (t : nat) | EvExpire (t : nat) | EvCancel (t : nat)
| EvOpenBegin (t : nat) (app : option nat) | EvOpenItem (t : nat) (r : outcome exn unit)
| EvOpenCancelled (t : nat) | EvExit (t : nat)
| EvReconfigure (c : BulkheadConfig) | EvToThread
| EvAppStart (a : nat) | EvAppStop (a : nat) | EvTick (dt : Q).

(** The effect of an event, [None] when it cannot happen. *)
Definition bulkhead_exec (e : bulkhead_event) (w : world) : option world :=
  match e with
  | EvEnter t => bulkhead_enter t w
  | EvResume t => bulkhead_resume t w
  | EvExpire t => bulkhead_expire t w
  | EvCancel t => bulkhead_cancel t w
  | EvOpenBegin t app => open_begin t app w
  | EvOpenItem t r => open_item t r w
  | EvOpenCancelled t =>
      match t_activity (get_task t w) with
      | AtOpenLock sem => Some (open_fails t sem cancelled_error w)
      | _ => None
      end
  | EvExit t => bulkhead_exit t w
  | EvReconfigure c => bulkhead_reconfigure c w
  | EvToThread => Some (set_self (to_thread (w_self w)).2 w)
  | EvAppStart a =>
      if bool_decide (a ∈ w_running w) then None
      else Some (set_apps (<[a := []]> (w_stacks w)) ({[a]} ∪ w_running w) w)
  | EvAppStop a => Some (set_apps (<[a := []]> (w_stacks w)) (w_running w ∖ {[a]}) w)
  | EvTick dt =>
      if (0 <=? dt)%py
      then Some (mkWorld (w_now w + dt) (w_self w) (w_semaphores w) (w_tasks w) (w_context w)
                   (w_stacks w) (w_running w) (w_active w) (w_rejections w) (w_capacity w)
                   (w_lost w))
      else None
  end.

Fixpoint bulkhead_run (es : list bulkhead_event) (w : world) : option world :=
  match es with
  | [] => Some w
  | e :: es => bulkhead_exec e w ≫= bulkhead_run es
  end.

Definition bulkhead_step (w w' : world) : Prop := exists e, bulkhead_exec e w = Some w'.

(** ** Permits

    Who holds a permit of semaphore [i]: the scopes, the tasks that open the
    components, and nobody any more. *)
Definition of_semaphore (i : nat) (sc : scope) : bool := bool_decide (sc.1 = Some i).

Definition inside (i : nat) (w : world) : Z :=
  msum (count_if (of_semaphore i)) (b_scopes (w_self w)).

Definition opens (i : nat) (x : task) : Z :=
  match t_activity x with
  | AtOpenLock sem | OpeningUses sem _ _ _ => if bool_decide (sem = Some i) then 1 else 0
  | _ => 0
  end.

Definition opening (i : nat) (w : world) : Z := msum (opens i) (w_tasks w).
Definition lost (i : nat) (w : world) : Z := count_if (fun j => bool_decide (j = i)) (w_lost w).
Definition held (i : nat) (w : world) : Z := inside i w + opening i w + lost i w.

Definition semaphore_ok (i : nat) (w : world) (h : Z) : Prop :=
  match w_semaphores w !! i, w_capacity w !! i with
  | Some s, Some c => sem_ok s /\ permits s + h = c
  | None, None => h = 0
  | _, _ => False
  end.

Definition permits_ok (w : world) : Prop := forall i, semaphore_ok i w (held i w).

Lemma get_set_task t u x w :
  get_task u (set_task t x w) = if decide (u = t) then x else get_task u w.
Proof.
  unfold get_task. simpl. case_decide; [subst; by rewrite lookup_insert_eq|].
  by rewrite lookup_insert_ne.
Qed.

Lemma held_set_task i t x w :
  held i (set_task t x w) = held i w - opens i (get_task t w) + opens i x.
Proof.
  unfold held, opening, inside, lost, get_task. simpl. rewrite msum_insert.
  assert (from_option (opens i) 0 (w_tasks w !! t) =
    opens i (default idle_task (w_tasks w !! t))) as -> by by destruct (w_tasks w !! t).
  lia.
Qed.

Lemma held_finish i t n r w : held i (task_finish t n r w) = held i w - opens i (get_task t w).
Proof. unfold task_finish. rewrite held_set_task. simpl. unfold opens at 2. simpl. lia. Qed.

Definition permit (i : nat) (sem : option nat) : Z := if bool_decide (sem = Some i) then 1 else 0.

Lemma held_admit i t n sem w :
  held i (admit_call t n sem w) = held i w - opens i (get_task t w) + permit i sem.
Proof.
  unfold admit_call. destruct (if bool_decide _ then _ else _) as [ctx token].
  rewrite held_finish. unfold held, inside, opening, lost, get_task. simpl.
  rewrite msum_insert, count_if_cons. unfold of_semaphore at 3, permit. simpl.
  assert (from_option (count_if (of_semaphore i)) 0 (b_scopes (w_self w) !! t) =
    count_if (of_semaphore i) (default [] (b_scopes (w_self w) !! t))) as ->
    by by destruct (b_scopes (w_self w) !! t).
  lia.
Qed.

Lemma held_after_permit i t n sem w :
  held i (after_permit t n sem w) = held i w - opens i (get_task t w) + permit i sem.
Proof.
  unfold after_permit. destruct (_ && _); [|apply held_admit].
  rewrite held_set_task. done.
Qed.

Lemma held_fail_open i t sem e w :
  held i (open_fails t sem e w) = held i w - opens i (get_task t w) + permit i sem.
Proof.
  pose proof (held_finish i t (t_cancels (get_task t w)) (Raise e) w) as H.
  unfold held, lost in *. simpl in *. rewrite count_if_app.
  assert (count_if (fun j => bool_decide (j = i)) (option_list sem) = permit i sem) as ->.
  { unfold permit. destruct sem as [j|]; simpl; [|done]. rewrite count_if_cons.
    unfold count_if. simpl. repeat case_bool_decide; simplify_eq; done. }
  unfold inside, opening in *. simpl in *. lia.
Qed.

Lemma permits_same w w' :
  w_semaphores w' = w_semaphores w -> w_capacity w' = w_capacity w ->
  (forall i, held i w' = held i w) -> permits_ok w -> permits_ok w'.
Proof. intros Hs Hc Hh H i. unfold semaphore_ok. rewrite Hs, Hc, Hh. apply H. Qed.

Lemma permits_set j s s' w w' :
  w_semaphores w !! j = Some s -> w_semaphores w' = <[j := s']> (w_semaphores w) ->
  w_capacity w' = w_capacity w -> sem_ok s' ->
  (forall i, held i w' = held i w + if decide (i = j) then permits s - permits s' else 0) ->
  permits_ok w -> permits_ok w'.
Proof.
  intros Hj Hs Hc Hok Hh H i. specialize (H i). unfold semaphore_ok in *.
  rewrite Hs, Hc, Hh. case_decide as E.
  - subst. rewrite Hj in H. rewrite list_lookup_insert_eq by (by eapply lookup_lt_Some).
    destruct (w_capacity w !! j); [|done]. destruct H as [_ H]. split; [done|lia].
  - rewrite list_lookup_insert_ne by done. by rewrite Z.add_0_r.
Qed.

Lemma sem_of_permits i s w : permits_ok w -> w_semaphores w !! i = Some s -> sem_ok s.
Proof.
  intros H E. specialize (H i). unfold semaphore_ok in H. rewrite E in H.
  destruct (w_capacity w !! i); [|done]. by destruct H.
Qed.

(** The parts of a world the helpers leave alone. *)
Lemma admit_frame t n sem w :
  w_semaphores (admit_call t n sem w) = w_semaphores w /\ w_capacity (admit_call t n sem w) = w_capacity w /\
  w_now (admit_call t n sem w) = w_now w /\ w_lost (admit_call t n sem w) = w_lost w /\
  b_state (w_self (admit_call t n sem w)) = b_state (w_self w) /\
  forall u, get_task u (admit_call t n sem w) =
    if decide (u = t) then mkTask (Idle (Return tt)) n false else get_task u w.
Proof.
  unfold admit_call. destruct (if bool_decide _ then _ else _) as [ctx token].
  split_and!; try done. intros u. unfold task_finish. by rewrite get_set_task.
Qed.

Lemma after_permit_frame t n sem w :
  let w' := after_permit t n sem w in
  w_semaphores w' = w_semaphores w /\ w_capacity w' = w_capacity w /\
  w_now w' = w_now w /\ w_lost w' = w_lost w /\ b_state (w_self w') = b_state (w_self w) /\
  forall u, get_task u w' =
    if decide (u = t)
    then mkTask (if negb (bool_decide (uses = [])) && negb (b_opened (w_self w))
                 then AtOpenLock sem else Idle (Return tt)) n false
    else get_task u w.
Proof.
  unfold after_permit. destruct (_ && _); [|apply admit_frame].
  split_and!; try done. intros u. by rewrite get_set_task.
Qed.

Lemma permits_after_permit j t n s s' w :
  w_semaphores w !! j = Some s -> opens j (get_task t w) = 0 ->
  (forall i, opens i (get_task t w) = 0) ->
  sem_ok s' -> permits s' = permits s - 1 ->
  permits_ok w -> permits_ok (after_permit t n (Some j) (set_semaphore j s' w)).
Proof.
  intros Hj _ Ho Hok Hp H.
  destruct (after_permit_frame t n (Some j) (set_semaphore j s' w)) as (Es & Ec & _).
  eapply permits_set; [exact Hj|exact Es|exact Ec|done| |done].
  intros i. rewrite held_after_permit. change (get_task t (set_semaphore j s' w)) with (get_task t w).
  change (held i (set_semaphore j s' w)) with (held i w). rewrite Ho. unfold permit.
  case_decide; case_bool_decide; simplify_eq; lia.
Qed.

Lemma enter_permits t w w' : bulkhead_enter t w = Some w' -> permits_ok w -> permits_ok w'.
Proof.
  unfold bulkhead_enter. intros E H.
  destruct (t_activity (get_task t w)) eqn:Ea; try done.
  assert (Ho : forall i, opens i (get_task t w) = 0) by (intros i; unfold opens; by rewrite Ea).
  destruct (bs_semaphore _) as [i|]; simpl in E; [|simplify_eq].
  - destruct (w_semaphores w !! i) as [s|] eqn:Es; [|done]. simpl in E.
    destruct (acquire_begin t s) as [granted s'] eqn:Eb.
    destruct (acquire_begin_ok _ _ _ _ Eb (sem_of_permits _ _ _ H Es)) as (Hok & Hp & _).
    destruct granted; simplify_eq.
    + eapply permits_after_permit; eauto.
    + eapply permits_set; [exact Es|done|done|done| |done].
      intros j. rewrite held_set_task. change (get_task t (set_semaphore i s' w)) with (get_task t w).
      rewrite Ho. change (held j (set_semaphore i s' w)) with (held j w). unfold opens. simpl.
      case_decide; lia.
  - destruct (after_permit_frame t (t_cancels (get_task t w)) None w) as (Es & Ec & _).
    eapply (permits_same w); [exact Es|exact Ec| |done].
    intros i. rewrite held_after_permit, Ho. unfold permit. simpl. lia.
Qed.

(** What a resumed waiter comes to. *)
Lemma resume_cases t w w' :
  bulkhead_resume t w = Some w' ->
  exists st i sc s f rest,
    t_activity (get_task t w) = Waiting st i sc /\ w_semaphores w !! i = Some s /\
    take_waiter t (sem_waiters s) = Some (f, rest) /\ f <> Pending /\
    let x := get_task t w in
    let thrown := t_must_cancel x || bool_decide (f = Cancelled) in
    let w1 := set_semaphore i (acquire_end thrown f rest s) w in
    let n := (timeout_exit (t_cancels x) sc None).1.1 in
    w' = if thrown then
           if bool_decide (ts_state sc = Expiring) && (n <=? ts_cancelling sc)
           then task_finish t n (Raise (bulkhead_full (bs_config st))) (count_rejection w1)
           else task_finish t n (Raise cancelled_error) w1
         else after_permit t n (Some i) w1.
Proof.
  unfold bulkhead_resume. intros E. destruct (t_activity (get_task t w)) eqn:Ea; try done.
  destruct (w_semaphores w !! i) as [s|] eqn:Es; [|done]. simpl in E.
  destruct (take_waiter t (sem_waiters s)) as [[f rest]|] eqn:Et; [|done]. simpl in E.
  case_bool_decide; [done|].
  exists st, i, sc, s, f, rest. split_and!; [done..|]. cbv zeta.
  set (thrown := _ || _) in *. unfold timeout_exit in *.
  destruct thrown, (ts_state sc); simpl in E |- *; simplify_eq; try done.
  destruct (_ <=? _); simpl in E; by simplify_eq.
Qed.

Lemma resume_permits t w w' : bulkhead_resume t w = Some w' -> permits_ok w -> permits_ok w'.
Proof.
  intros E H. apply resume_cases in E as (st & i & sc & s & f & rest & Ea & Es & Et & Hf & ->).
  assert (Ho : forall i, opens i (get_task t w) = 0) by (intros j; unfold opens; by rewrite Ea).
  set (thrown := _ || _). cbv zeta. set (n := (timeout_exit _ _ _).1.1).
  destruct (acquire_end_ok t thrown f rest s Et (sem_of_permits _ _ _ H Es)) as [Hok Hp]; [|done|].
  { unfold thrown. intros [_ Hc]%orb_false_elim. by destruct f. }
  destruct thrown; [|by eapply permits_after_permit; eauto].
  assert (Hset : permits_ok (set_semaphore i (acquire_end true f rest s) w)).
  { eapply permits_set; [exact Es|done|done|done| |done]. intros j.
    change (held j (set_semaphore i _ w)) with (held j w). case_decide; lia. }
  destruct (_ && _); (eapply permits_same; [| | |exact Hset]; [done|done|]);
    intros j; rewrite held_finish;
    [change (get_task t (count_rejection _)) with (get_task t w)
    |change (get_task t (set_semaphore i _ w)) with (get_task t w)]; rewrite Ho;
    [change (held j (count_rejection ?x)) with (held j x)|]; lia.
Qed.

Lemma cancel_task_permits t st0 i0 sc0 st i sc w w' :
  t_activity (get_task t w) = Waiting st0 i0 sc0 ->
  cancel_task t st i sc w = Some w' -> permits_ok w -> permits_ok w'.
Proof.
  intros Ea E H. unfold cancel_task in E. destruct (w_semaphores w !! i) as [s|] eqn:Es; [|done].
  simpl in E. destruct (cancel_waiter t (sem_waiters s)) as [b ws] eqn:Ec. simplify_eq.
  destruct (cancel_waiter_ok _ _ _ _ Ec (sem_of_permits _ _ _ H Es)) as [Hok Hp].
  eapply permits_set; [exact Es|done|done|exact Hok| |done].
  intros j. rewrite held_set_task.
  change (get_task t (set_semaphore i _ w)) with (get_task t w).
  change (held j (set_semaphore i _ w)) with (held j w).
  unfold opens. rewrite Ea. simpl. case_decide; lia.
Qed.

Lemma open_begin_permits t app w w' :
  open_begin t app w = Some w' -> permits_ok w -> permits_ok w'.
Proof.
  unfold open_begin. intros E H. destruct (t_activity (get_task t w)) eqn:Ea; try done.
  assert (Ho : forall i, opens i (get_task t w) = permit i sem)
    by (intros i; unfold opens; by rewrite Ea).
  assert (Hadmit : forall b, b_scopes b = b_scopes (w_self w) ->
    permits_ok (admit_call t (t_cancels (get_task t w)) sem (set_self b w))).
  { intros b Hb. destruct (admit_frame t (t_cancels (get_task t w)) sem (set_self b w))
      as (Hs & Hc & _). eapply (permits_same w); [exact Hs|exact Hc| |exact H].
    intros i. rewrite held_admit. change (get_task t (set_self b w)) with (get_task t w).
    rewrite Ho. unfold held, inside, opening, lost. simpl. rewrite Hb. lia. }
  assert (Hfail : forall e, permits_ok (open_fails t sem e w)).
  { intros e. eapply (permits_same w); [done|done| |exact H]. intros i.
    rewrite held_fail_open, Ho. lia. }
  destruct (b_open_lock (w_self w)); [done|].
  destruct (b_opened (w_self w)) eqn:Eo; simplify_eq.
  - specialize (Hadmit (w_self w) eq_refl). by destruct w.
  - destruct app as [a|]; simplify_eq; [|apply Hfail].
    case_bool_decide; simplify_eq; [|apply Hfail].
    destruct uses as [|u us] eqn:Eu; simplify_eq; [by apply Hadmit|].
    eapply (permits_same w); [done|done| |exact H]. intros i. rewrite held_set_task.
    change (get_task t (set_self ?b w)) with (get_task t w). rewrite Ho.
    unfold opens, held, inside, opening, lost, permit. simpl. lia.
Qed.

Lemma open_item_permits t r w w' :
  open_item t r w = Some w' -> permits_ok w -> permits_ok w'.
Proof.
  unfold open_item. intros E H. destruct (t_activity (get_task t w)) eqn:Ea; try done.
  assert (Ho : forall i, opens i (get_task t w) = permit i sem)
    by (intros i; unfold opens; by rewrite Ea).
  destruct r as [[]|e]; [destruct rest as [|u us]|]; simplify_eq.
  - set (w1 := set_self _ _).
    destruct (admit_frame t (t_cancels (get_task t w)) sem w1) as (Hs & Hc & _).
    eapply (permits_same w); [exact Hs|exact Hc| |exact H]. intros i. rewrite held_admit.
    change (get_task t w1) with (get_task t w). change (held i w1) with (held i w).
    rewrite Ho. lia.
  - eapply (permits_same w); [done|done| |exact H]. intros i. rewrite held_set_task.
    change (get_task t (set_apps ?a ?b w)) with (get_task t w). rewrite Ho.
    change (held i (set_apps ?a ?b w)) with (held i w). unfold opens, permit. simpl. lia.
  - eapply (permits_same w); [done|done| |exact H]. intros i. rewrite held_fail_open.
    change (get_task t (set_self ?b w)) with (get_task t w).
    change (held i (set_self (set_open _ _ _) w)) with (held i w). rewrite Ho. lia.
Qed.

(** Popping the scope of a task. *)
Definition popped (t : nat) (rest : list scope) (m : gmap nat (list scope)) :
    gmap nat (list scope) :=
  if bool_decide (rest = []) then delete t m else <[t := rest]> m.

Lemma popped_sum (f : scope -> bool) t sc rest m :
  m !! t = Some (sc :: rest) ->
  msum (count_if f) (popped t rest m) = msum (count_if f) m - (if f sc then 1 else 0).
Proof.
  intros E. unfold popped. case_bool_decide; [subst; rewrite msum_delete|rewrite msum_insert];
    rewrite E; simpl; rewrite count_if_cons; [|lia].
  change (count_if f []) with 0. lia.
Qed.

Lemma count_scopes_nonneg f m : 0 <= msum (count_if (A:=scope) f) m.
Proof. apply msum_nonneg. intros. apply count_if_nonneg. Qed.

Lemma opening_nonneg i w : 0 <= opening i w.
Proof.
  apply msum_nonneg. intros k x _. unfold opens. destruct (t_activity x); try lia;
    case_bool_decide; lia.
Qed.

Lemma inside_nonneg i w : 0 <= inside i w.
Proof. apply count_scopes_nonneg. Qed.

Lemma lost_nonneg i w : 0 <= lost i w.
Proof. apply count_if_nonneg. Qed.

Lemma exit_permits t w w' : bulkhead_exit t w = Some w' -> permits_ok w -> permits_ok w'.
Proof.
  unfold bulkhead_exit. intros E H. destruct (t_activity (get_task t w)) eqn:Ea; try done.
  assert (Ho : forall i, opens i (get_task t w) = 0) by (intros i; unfold opens; by rewrite Ea).
  assert (Hfin : forall r, permits_ok (task_finish t (t_cancels (get_task t w)) r w)).
  { intros e. eapply (permits_same w); [done|done| |exact H]. intros i. rewrite held_finish, Ho. lia. }
  destruct (b_scopes (w_self w) !! t) as [[|[sem token] rest]|] eqn:Es; simplify_eq; try apply Hfin.
  set (ctx := match token with None => _ | _ => _ end).
  change (if bool_decide (rest = []) then _ else _) with (popped t rest (b_scopes (w_self w))).
  set (w1 := set_self _ _).
  assert (Hin : forall i, inside i w1 = inside i w - permit i sem).
  { intros i. unfold inside, permit. simpl. by rewrite (popped_sum _ t (sem, token)) by done. }
  assert (Hh1 : forall i, held i w1 = held i w - permit i sem).
  { intros i. unfold held. rewrite Hin. unfold opening, lost. simpl. lia. }
  assert (Hfin1 : forall d v i, get_task t v = get_task t w ->
    held i (task_finish t (t_cancels (get_task t w)) (Return tt) (count_active d v)) = held i v).
  { intros d v i Hv. rewrite held_finish. change (get_task t (count_active d v)) with (get_task t v).
    rewrite Hv, Ho. change (held i (count_active d v)) with (held i v). lia. }
  destruct sem as [j|].
  - change (w_semaphores w1) with (w_semaphores w).
    destruct (w_semaphores w !! j) as [s|] eqn:Ej.
    + destruct (sem_release_ok s (sem_of_permits _ _ _ H Ej)) as [Hok Hp].
      eapply (permits_set j s _ w); [exact Ej|done|done|exact Hok| |done].
      intros i. rewrite Hfin1 by done. change (held i (set_semaphore j _ w1)) with (held i w1).
      rewrite Hh1. unfold permit. case_decide; case_bool_decide; simplify_eq; lia.
    + exfalso. specialize (H j). unfold semaphore_ok in H. rewrite Ej in H.
      destruct (w_capacity w !! j); [done|]. specialize (Hin j). unfold held in H.
      pose proof (inside_nonneg j w1). pose proof (opening_nonneg j w).
      pose proof (lost_nonneg j w). unfold permit in Hin. rewrite bool_decide_eq_true_2 in Hin by done.
      lia.
  - eapply (permits_same w); [done|done| |exact H]. intros i. rewrite Hfin1 by done. rewrite Hh1.
    unfold permit. simpl. lia.
Qed.

Lemma permits_length w : permits_ok w -> length (w_semaphores w) = length (w_capacity w).
Proof.
  intros H. apply Nat.le_antisymm; apply Nat.nlt_ge; intros C; apply lookup_lt_is_Some in C as [x Hx].
  - specialize (H (length (w_capacity w))). unfold semaphore_ok in H.
    by rewrite Hx, (proj2 (lookup_ge_None _ _) (Nat.le_refl _)) in H.
  - specialize (H (length (w_semaphores w))). unfold semaphore_ok in H.
    by rewrite Hx, (proj2 (lookup_ge_None _ _) (Nat.le_refl _)) in H.
Qed.

Lemma reconfigure_permits c w w' :
  bulkhead_reconfigure c w = Some w' -> permits_ok w -> permits_ok w'.
Proof.
  unfold bulkhead_reconfigure. intros E H. destruct (bulkhead_config_valid c) eqn:Ev; [|done].
  unfold build_semaphore, built in E. unfold bulkhead_config_valid in Ev.
  pose proof (permits_length w H) as Hlen.
  destruct (max_concurrent c) as [n|]; simplify_eq.
  - intros i. specialize (H i). unfold semaphore_ok in *. simpl.
    change (held i (mkWorld _ _ _ _ _ _ _ _ _ _ _)) with (held i w).
    apply andb_prop in Ev as [[Ev _]%andb_prop _]. apply Z.ltb_lt in Ev.
    destruct (decide (i < length (w_semaphores w))%nat) as [Hi|Hi].
    + by rewrite !lookup_app_l by lia.
    + rewrite !(lookup_ge_None_2 _ i) in H by lia. rewrite !lookup_app_r, Hlen by lia. rewrite H.
      destruct (i - length (w_capacity w))%nat; simpl; [|done].
      destruct (new_semaphore_ok n); [lia|]. split; [done|lia].
  - eapply (permits_same w); [done| |done|exact H]. simpl. apply app_nil_r.
Qed.

Lemma init_permits c : bulkhead_config_valid c = true -> permits_ok (bulkhead_init c).
Proof.
  unfold bulkhead_config_valid, bulkhead_init, build_semaphore, built.
  intros [[Ev _]%andb_prop _]%andb_prop i.
  destruct (max_concurrent c) as [n|]; unfold semaphore_ok; simpl; [|by destruct i].
  apply Z.ltb_lt in Ev. destruct (new_semaphore_ok n) as [Hok Hp]; [lia|].
  destruct i as [|i]; simpl; [|done]. split; [done|]. rewrite Hp. vm_compute. by destruct n.
Qed.

Lemma exec_permits e w w' : bulkhead_exec e w = Some w' -> permits_ok w -> permits_ok w'.
Proof.
  destruct e as [t|t|t|t|t app|t r|t|t|c| |a|a|dt]; simpl.
  - apply enter_permits.
  - apply resume_permits.
  - unfold bulkhead_expire. destruct (t_activity (get_task t w)) eqn:Ea; try done.
    destruct (_ && _); [|done]. by eapply cancel_task_permits.
  - unfold bulkhead_cancel. destruct (t_activity (get_task t w)) eqn:Ea;
      try (by eapply cancel_task_permits); intros E H; simplify_eq;
      (eapply (permits_same w); [done|done| |exact H]); intros i; rewrite held_set_task;
      unfold opens; rewrite Ea; simpl; lia.
  - apply open_begin_permits.
  - apply open_item_permits.
  - destruct (t_activity (get_task t w)) eqn:Ea; try done. intros E H. simplify_eq.
    eapply (permits_same w); [done|done| |exact H]. intros i. rewrite held_fail_open.
    unfold opens. rewrite Ea. unfold permit. lia.
  - apply exit_permits.
  - apply reconfigure_permits.
  - intros E H. simplify_eq. eapply (permits_same w); [done|done| |exact H]. intros i.
    unfold held, inside, opening, lost. simpl. unfold to_thread. by destruct (max_workers _).
  - case_bool_decide; [done|]. intros E Hw. by simplify_eq.
  - intros E H. by simplify_eq.
  - destruct (0 <=? dt)%py; [|done]. intros E H. by simplify_eq.
Qed.

Definition bulkhead_reachable (c : BulkheadConfig) : world -> Prop :=
  rtc bulkhead_step (bulkhead_init c).

Lemma reachable_permits c w :
  bulkhead_config_valid c = true -> bulkhead_reachable c w -> permits_ok w.
Proof.
  intros Hc Hw. apply (invariant_rtc bulkhead_step permits_ok) with (bulkhead_init c);
    [|done|by apply init_permits].
  intros s s' [e He]. by eapply exec_permits.
Qed.

(** ** Tasks and queues

    A task is in one queue while it waits for a permit, and in none otherwise. *)
Definition heap_frame (u : nat) (h h' : list Semaphore) : Prop :=
  (forall j, is_Some (h !! j) -> is_Some (h' !! j)) /\
  forall j s', h' !! j = Some s' ->
    match h !! j with
    | Some s => future_le (future u (sem_waiters s)) (future u (sem_waiters s'))
    | None => future u (sem_waiters s') = None
    end.

(** The exception is on its way exactly when the task has been cancelled since
    it entered the timeout. *)
Record wait_ok (h : list Semaphore) (now : Q) (u i : nat) (sc : timeout_scope) (x : task) : Prop := {
  wk_future : exists s f, h !! i = Some s /\ future u (sem_waiters s) = Some f /\
    (t_must_cancel x = true \/ f = Cancelled <-> ts_cancelling sc < t_cancels x);
  wk_timer : ts_state sc = Entered \/ ts_state sc = Expiring /\ (ts_when sc <= now)%Q;
  wk_cancels : ts_cancelling sc + (if bool_decide (ts_state sc = Expiring) then 1 else 0)
                 <= t_cancels x;
  wk_cancelling : 0 <= ts_cancelling sc;
  wk_others : forall j s, h !! j = Some s -> j <> i -> future u (sem_waiters s) = None;
}.

Definition task_ok (h : list Semaphore) (now : Q) (u : nat) (x : task) : Prop :=
  0 <= t_cancels x /\
  match t_activity x with
  | Waiting st i sc => wait_ok h now u i sc x
  | _ => t_must_cancel x = false /\ forall j s, h !! j = Some s -> future u (sem_waiters s) = None
  end.

Record tasks_ok (w : world) : Prop := {
  tk_tasks : forall u, task_ok (w_semaphores w) (w_now w) u (get_task u w);
  tk_keys : forall j s, w_semaphores w !! j = Some s -> NoDup ((sem_waiters s).*1);
}.

Lemma heap_frame_refl u h : heap_frame u h h.
Proof. split; [done|]. intros j s' ->. by left. Qed.

Lemma heap_frame_set u h i s s' :
  h !! i = Some s -> future_le (future u (sem_waiters s)) (future u (sem_waiters s')) ->
  heap_frame u h (<[i := s']> h).
Proof.
  intros Hi Hf. pose proof (lookup_lt_Some _ _ _ Hi) as Hlt. split.
  - intros j Hj. destruct (decide (j = i)) as [->|]; [by rewrite list_lookup_insert_eq|].
    by rewrite list_lookup_insert_ne.
  - intros j s1. destruct (decide (j = i)) as [->|].
    + rewrite list_lookup_insert_eq, Hi by done. by intros [= <-].
    + rewrite list_lookup_insert_ne by done. intros ->. by left.
Qed.

Lemma heap_frame_app u h s : sem_waiters s = [] -> heap_frame u h (h ++ [s]).
Proof.
  intros Hs. split; [intros j [x Hx]; by rewrite (lookup_app_l_Some _ _ _ _ Hx)|].
  intros j s' Hj. apply lookup_app_Some in Hj as [Hj|[Hlt Hj]]; [rewrite Hj; by left|].
  rewrite lookup_ge_None_2 by done. destruct (j - length h)%nat; simplify_eq/=.
  by rewrite Hs.
Qed.

Lemma task_ok_frame h h' now now' u x :
  heap_frame u h h' -> (now <= now')%Q -> task_ok h now u x -> task_ok h' now' u x.
Proof.
  intros [Hdom Hle] Hnow [Hc Hx]. split; [done|].
  assert (Hnone : forall j, (forall s, h !! j = Some s -> future u (sem_waiters s) = None) ->
    forall s', h' !! j = Some s' -> future u (sem_waiters s') = None).
  { intros j Hj s' Hs'. specialize (Hle j s' Hs'). destruct (h !! j) as [s|]; [|done].
    rewrite (Hj s eq_refl) in Hle. by destruct Hle as [<-|[? _]]. }
  destruct (t_activity x) as [r|st i sc|sem|sem a it rest]; 
    try (destruct Hx as [Hm Hx]; split; [done|]; intros j; apply Hnone; intros s1; apply Hx).
  destruct Hx as [(s & f & Hs & Hf & Hiff) Ht Hcc Hc0 Ho]. split; try done.
  - destruct (Hdom i) as [s' Hs']; [by exists s|]. specialize (Hle i s' Hs'). rewrite Hs, Hf in Hle.
    destruct Hle as [E|[[= ->] E]]; [by exists s', f|].
    exists s', Resolved. split; [done|]. split; [done|]. rewrite <- Hiff. intuition congruence.
  - destruct Ht as [|[? ?]]; [by left|right; split; [done|lra]].
  - intros j s' Hj Hne. eapply (Hnone j); [|exact Hj]. intros s1 Hs1. by apply (Ho j).
Qed.

(** An operation of task [t] that changes the queues for the others only by
    serving them. *)
Lemma tasks_ok_at t w w' :
  (forall u, u <> t -> get_task u w' = get_task u w) ->
  (forall u, u <> t -> heap_frame u (w_semaphores w) (w_semaphores w')) ->
  (w_now w <= w_now w')%Q ->
  (forall j s, w_semaphores w' !! j = Some s -> NoDup ((sem_waiters s).*1)) ->
  task_ok (w_semaphores w') (w_now w') t (get_task t w') -> tasks_ok w -> tasks_ok w'.
Proof.
  intros Ht Hh Hn Hk Hx [H _]. split; [|done]. intros u.
  destruct (decide (u = t)) as [->|Hu]; [done|]. rewrite Ht by done.
  eapply task_ok_frame; [by apply Hh|done|apply H].
Qed.

(** One semaphore changes. *)
Lemma keys_set i s' w :
  NoDup ((sem_waiters s').*1) -> tasks_ok w ->
  forall j s, <[i := s']> (w_semaphores w) !! j = Some s -> NoDup ((sem_waiters s).*1).
Proof.
  intros Hs [_ Hk] j s Hj. apply list_lookup_insert_Some in Hj as [(_ & <- & _)|(_ & Hj)]; eauto.
Qed.

(** The task is where it was, outside every queue. *)
Lemma tasks_ok_outside t x w w' :
  (forall u, get_task u w' = if decide (u = t) then x else get_task u w) ->
  w_semaphores w' = w_semaphores w -> (w_now w <= w_now w')%Q ->
  match t_activity x with Waiting _ _ _ => False | _ => True end ->
  match t_activity (get_task t w) with Waiting _ _ _ => False | _ => True end ->
  t_must_cancel x = false -> 0 <= t_cancels x -> tasks_ok w -> tasks_ok w'.
Proof.
  intros Ht Hs Hn Hx Hold Hm Hc H. pose proof (tk_tasks _ H t) as [_ Hin].
  apply (tasks_ok_at t w); try done.
  - intros u Hu. rewrite Ht. by rewrite decide_False.
  - intros u _. rewrite Hs. apply heap_frame_refl.
  - rewrite Hs. apply H.
  - rewrite Ht, decide_True by done. split; [done|]. rewrite Hs.
    destruct (t_activity x), (t_activity (get_task t w)); try done; by destruct Hin.
Qed.

Lemma tasks_ok_served i s s' w :
  w_semaphores w !! i = Some s -> served (sem_waiters s) (sem_waiters s') ->
  tasks_ok w -> tasks_ok (set_semaphore i s' w).
Proof.
  intros Hi Hs H. split; simpl.
  - intros u. eapply task_ok_frame; [|apply Qle_refl|apply (tk_tasks _ H)].
    apply (heap_frame_set u _ i s); [done|]. by apply served_le.
  - apply keys_set; [|done]. rewrite (served_keys _ _ Hs). by apply (tk_keys _ H i).
Qed.

Lemma tasks_ok_after_permit t n sem w :
  match t_activity (get_task t w) with Waiting _ _ _ => False | _ => True end ->
  0 <= n -> tasks_ok w -> tasks_ok (after_permit t n sem w).
Proof.
  intros Ha Hn H.
  destruct (after_permit_frame t n sem w) as (Es & _ & En & _ & _ & Et).
  eapply tasks_ok_outside; [exact Et|exact Es|rewrite En; apply Qle_refl| |done|done|done|done].
  simpl. by destruct (_ && _).
Qed.

Lemma tasks_ok_admit t n sem w :
  match t_activity (get_task t w) with Waiting _ _ _ => False | _ => True end ->
  0 <= n -> tasks_ok w -> tasks_ok (admit_call t n sem w).
Proof.
  intros Ha Hn H. destruct (admit_frame t n sem w) as (Es & _ & En & _ & _ & Et).
  by eapply tasks_ok_outside; [exact Et|exact Es|rewrite En; apply Qle_refl|..].
Qed.

(** Two worlds with the same semaphores and tasks. *)
Lemma tasks_ok_same w w' :
  w_semaphores w' = w_semaphores w -> w_tasks w' = w_tasks w -> (w_now w <= w_now w')%Q ->
  tasks_ok w -> tasks_ok w'.
Proof.
  intros Hs Ht Hn [H1 H2]. split; [|by rewrite Hs]. intros u.
  unfold get_task. rewrite Ht, Hs.
  eapply task_ok_frame; [apply heap_frame_refl|exact Hn|apply H1].
Qed.

Lemma enter_tasks t w w' : bulkhead_enter t w = Some w' -> permits_ok w -> tasks_ok w -> tasks_ok w'.
Proof.
  unfold bulkhead_enter. intros E Hp H.
  destruct (t_activity (get_task t w)) eqn:Ea; try done.
  pose proof (tk_tasks _ H t) as [Hc Hin]. rewrite Ea in Hin. destruct Hin as [Hm Hin].
  destruct (bs_semaphore _) as [i|]; simpl in E; [|simplify_eq; apply tasks_ok_after_permit; by rewrite ?Ea].
  destruct (w_semaphores w !! i) as [s|] eqn:Es; [|done]. simpl in E.
  destruct (acquire_begin t s) as [granted s'] eqn:Eb.
  destruct (acquire_begin_ok _ _ _ _ Eb (sem_of_permits _ _ _ Hp Es)) as (_ & _ & Hw).
  destruct granted; simplify_eq.
  - apply tasks_ok_after_permit; [change (get_task t (set_semaphore _ _ w)) with (get_task t w);
      by rewrite Ea|done|].
    eapply tasks_ok_served; [exact Es| |done]. by rewrite Hw, app_nil_r.
  - pose proof (proj1 (future_key t _) (Hin i s Es)) as Hkey.
    apply (tasks_ok_at t w); [..|done]; simpl.
    + intros u Hu. rewrite get_set_task. by rewrite decide_False.
    + intros u Hu. apply (heap_frame_set u _ i s); [done|]. rewrite Hw, future_app by done.
      rewrite decide_False by done. by left.
    + apply Qle_refl.
    + apply keys_set; [|done]. rewrite Hw, fmap_app. apply NoDup_app.
      split_and!; [by apply (tk_keys _ H i)| |by apply NoDup_singleton].
      intros v Hv ->%list_elem_of_singleton. done.
    + rewrite get_set_task, decide_True by done. split; [done|]. simpl. split; simpl; try lia.
      * exists s', Pending. split; [apply list_lookup_insert_eq; by eapply lookup_lt_Some|].
        split; [rewrite Hw, future_app, decide_True by done; done|]. rewrite Hm.
        split; [intros [?|?]; done|lia].
      * by left.
      * intros j s1 Hj Hne. rewrite list_lookup_insert_ne in Hj by done. by apply (Hin j).
Qed.

Lemma timeout_exit_cancels n sc e : 0 <= n -> 0 <= (timeout_exit n sc e).1.1.
Proof.
  intros Hn. unfold timeout_exit, uncancel. destruct (ts_state sc); simpl; try done.
  destruct (0 <? n) eqn:E; [|done]. apply Z.ltb_lt in E. lia.
Qed.

Lemma resume_tasks t w w' : bulkhead_resume t w = Some w' -> tasks_ok w -> tasks_ok w'.
Proof.
  intros E H. apply resume_cases in E as (st & i & sc & s & f & rest & Ea & Es & Et & Hf & E).
  revert E. cbv zeta. set (thrown := _ || _). set (n := (timeout_exit _ _ _).1.1). intros E.
  pose proof (tk_tasks _ H t) as [Hc Hin]. rewrite Ea in Hin.
  assert (Hn : 0 <= n) by by apply timeout_exit_cancels.
  destruct (take_waiter_keys _ _ _ _ Et (tk_keys _ H i s Es)) as [Hd Hfut].
  set (s' := acquire_end thrown f rest s) in *.
  assert (Hserved : served rest (sem_waiters s')) by apply (wake_all_served _ (mkSemaphore _ rest)).
  assert (Hw' : w_semaphores w' = <[i := s']> (w_semaphores w) /\ w_now w' = w_now w /\
    exists a, match a with Waiting _ _ _ => False | _ => True end /\
    forall u, get_task u w' = if decide (u = t) then mkTask a n false else get_task u w).
  { destruct thrown; [destruct (_ && _)|]; subst w'.
    - split_and!; [done..|]. eexists. split; [|intros u; unfold task_finish; rewrite get_set_task; done]. done.
    - split_and!; [done..|]. eexists. split; [|intros u; unfold task_finish; rewrite get_set_task; done]. done.
    - destruct (after_permit_frame t n (Some i) (set_semaphore i s' w)) as (-> & _ & -> & _ & _ & Ht).
      split_and!; [done..|]. eexists. split; [|exact Ht]. by destruct (_ && _). }
  destruct Hw' as (Hs & Hnow & a & Ha & Ht).
  apply (tasks_ok_at t w); [..|done].
  - intros u Hu. by rewrite Ht, decide_False.
  - intros u Hu. rewrite Hs. apply (heap_frame_set u _ i s); [done|].
    replace (future u (sem_waiters s)) with (future u rest) by (by rewrite Hfut, decide_False).
    by apply served_le.
  - rewrite Hnow. apply Qle_refl.
  - rewrite Hs. apply keys_set; [|done]. by rewrite (served_keys _ _ Hserved).
  - rewrite Ht, decide_True by done. split; [done|]. rewrite Hs.
    assert (Hnone : forall j s1, <[i := s']> (w_semaphores w) !! j = Some s1 ->
      future t (sem_waiters s1) = None).
    { intros j s1 [(-> & <- & _)|(Hne & Hj)]%list_lookup_insert_Some.
      - pose proof (served_le t _ _ Hserved) as Hle. rewrite Hfut, decide_True in Hle by done.
        by destruct Hle as [<-|[? _]].
      - apply (wk_others _ _ _ _ _ _ Hin j s1 Hj). congruence. }
    by destruct a.
Qed.

Lemma cancel_task_tasks t st0 i sc0 st sc w w' :
  t_activity (get_task t w) = Waiting st0 i sc0 ->
  cancel_task t st i sc w = Some w' ->
  ts_cancelling sc = ts_cancelling sc0 ->
  (ts_state sc = ts_state sc0 \/ ts_state sc0 = Entered) ->
  (ts_state sc = Entered \/ ts_state sc = Expiring /\ (ts_when sc <= w_now w)%Q) ->
  tasks_ok w -> tasks_ok w'.
Proof.
  intros Ea E Hcc Hst Htimer H. unfold cancel_task in E.
  destruct (w_semaphores w !! i) as [s|] eqn:Es; [|done]. simpl in E.
  destruct (cancel_waiter t (sem_waiters s)) as [b ws] eqn:Ec. simplify_eq.
  pose proof (tk_tasks _ H t) as [Hc Hin]. rewrite Ea in Hin.
  destruct (cancel_waiter_keys _ _ _ _ Ec) as (Hk & Hu & Hft).
  apply (tasks_ok_at t w); [..|done]; simpl.
  - intros u Hne. by rewrite get_set_task, decide_False.
  - intros u Hne. apply (heap_frame_set u _ i s); [done|]. simpl. rewrite Hu by done. by left.
  - apply Qle_refl.
  - apply keys_set; [|done]. simpl. rewrite Hk. by apply (tk_keys _ H i).
  - rewrite get_set_task, decide_True by done.
    destruct Hin as [(s0 & f & Hs0 & Hf & Hiff) Ht Hn Hc0 Ho]. simplify_eq.
    split; simpl; [lia|]. split; simpl; try lia.
    + exists (mkSemaphore (sem_value s) ws), (if b then Cancelled else f).
      split; [apply list_lookup_insert_eq; by eapply lookup_lt_Some|].
      split; [simpl; rewrite Hft; by destruct b|].
      rewrite Hcc. assert (ts_cancelling sc0 < t_cancels (get_task t w) + 1); [|].
      { case_bool_decide; lia. }
      split; [done|]. intros _. destruct b; [by right|]. left. by rewrite orb_true_r.
    + done.
    + rewrite Hcc. destruct Hst as [->|E0]; [lia|]. rewrite E0 in Hn. simpl in Hn.
      case_bool_decide; lia.
    + intros j s1 Hj Hne. rewrite list_lookup_insert_ne in Hj by done. by apply (Ho j).
Qed.

Lemma tasks_ok_fail t sem e w :
  match t_activity (get_task t w) with Waiting _ _ _ => False | _ => True end ->
  tasks_ok w -> tasks_ok (open_fails t sem e w).
Proof.
  intros Ha H. pose proof (tk_tasks _ H t) as [Hc _].
  by apply (tasks_ok_outside t (mkTask (Idle (Raise e)) (t_cancels (get_task t w)) false) w);
    [intros u; apply get_set_task|done|apply Qle_refl|done..].
Qed.

Lemma exec_tasks e w w' :
  bulkhead_exec e w = Some w' -> permits_ok w -> tasks_ok w -> tasks_ok w'.
Proof.
  intros E Hp H. destruct e as [t|t|t|t|t app|t r|t|t|c| |a|a|dt]; simpl in E.
  - by eapply enter_tasks.
  - by eapply resume_tasks.
  - unfold bulkhead_expire in E. destruct (t_activity (get_task t w)) eqn:Ea; try done.
    destruct (_ && _) eqn:Eb; [|done]. apply andb_prop in Eb as [Eb%bool_decide_eq_true Et].
    eapply cancel_task_tasks; [exact Ea|exact E|done|by right| |done].
    right. split; [done|]. by apply Qle_bool_iff.
  - unfold bulkhead_cancel in E. pose proof (tk_tasks _ H t) as [Hc Hin].
    destruct (t_activity (get_task t w)) eqn:Ea.
    2: { eapply cancel_task_tasks; [exact Ea|exact E|done|by left| |done]. apply Hin. }
    all: simplify_eq; destruct Hin as [Hm Hin];
      (eapply (tasks_ok_outside t _ w); [intros u; apply get_set_task|done|apply Qle_refl|..|exact H]);
      simpl; rewrite ?Ea; try done; lia.
  - unfold open_begin in E. destruct (t_activity (get_task t w)) eqn:Ea; try done.
    pose proof (tk_tasks _ H t) as [Hc _].
    destruct (b_open_lock (w_self w)); [done|].
    destruct (b_opened (w_self w)); simplify_eq; [by apply tasks_ok_admit; rewrite ?Ea|].
    destruct app as [a|]; simplify_eq; [|apply tasks_ok_fail; by rewrite ?Ea].
    case_bool_decide; simplify_eq; [|apply tasks_ok_fail; by rewrite ?Ea].
    destruct uses as [|u us] eqn:Eu; simplify_eq.
    + apply tasks_ok_admit; [|done|].
      * change (get_task t (set_self _ w)) with (get_task t w). by rewrite Ea.
      * by eapply tasks_ok_same; [| | |exact H]; [done|done|apply Qle_refl].
    + by eapply (tasks_ok_outside t _ w); [intros u0; rewrite (get_set_task t u0); reflexivity|done|apply Qle_refl| |
        rewrite Ea|done| |exact H].
  - unfold open_item in E. destruct (t_activity (get_task t w)) eqn:Ea; try done.
    pose proof (tk_tasks _ H t) as [Hc _].
    destruct r as [[]|e]; [destruct rest as [|u us]|]; simplify_eq.
    + set (w1 := set_self _ _). apply tasks_ok_admit; [|done|].
      * change (get_task t w1) with (get_task t w). by rewrite Ea.
      * by eapply tasks_ok_same; [| | |exact H]; [done|done|apply Qle_refl].
    + by eapply (tasks_ok_outside t _ w); [intros u0; rewrite (get_set_task t u0); reflexivity|done|apply Qle_refl| |
        rewrite Ea|done| |exact H].
    + apply tasks_ok_fail.
      * change (get_task t (set_self ?b w)) with (get_task t w). by rewrite Ea.
      * by eapply tasks_ok_same; [| | |exact H]; [done|done|apply Qle_refl].
  - destruct (t_activity (get_task t w)) eqn:Ea; simplify_eq. apply tasks_ok_fail; by rewrite ?Ea.
  - unfold bulkhead_exit in E. destruct (t_activity (get_task t w)) eqn:Ea; try done.
    pose proof (tk_tasks _ H t) as [Hc _].
    assert (Hfin : forall r v, tasks_ok v -> w_tasks v = w_tasks w ->
      tasks_ok (task_finish t (t_cancels (get_task t w)) r v)).
    { intros r' v Hv Ht. eapply (tasks_ok_outside t _ v);
        [intros u; apply get_set_task|done|apply Qle_refl|done| |done|done|exact Hv].
      unfold get_task. rewrite Ht. change (w_tasks w !! t) with (w_tasks w !! t).
      fold (get_task t w). by rewrite Ea. }
    destruct (b_scopes (w_self w) !! t) as [[|[sem token] rest]|] eqn:Es; simplify_eq;
      try (by apply Hfin).
    set (w1 := set_self _ _).
    assert (Hw1 : tasks_ok w1) by (by eapply tasks_ok_same; [| | |exact H]; [done|done|apply Qle_refl]).
    destruct sem as [j|]; [|apply Hfin; [|done];
      by eapply tasks_ok_same; [| | |exact Hw1]; [done|done|apply Qle_refl]].
    destruct (w_semaphores w1 !! j) as [s|] eqn:Ej; apply Hfin; try done.
    + eapply (tasks_ok_same (set_semaphore j (sem_release s) w1)); [done|done|apply Qle_refl|].
      eapply tasks_ok_served; [exact Ej| |done]. apply (wake_up_next_served (mkSemaphore _ _)).
    + by eapply tasks_ok_same; [| | |exact Hw1]; [done|done|apply Qle_refl].
  - unfold bulkhead_reconfigure in E. destruct (bulkhead_config_valid c); [|done].
    unfold build_semaphore in E. destruct (max_concurrent c) as [n|]; simplify_eq.
    + split; simpl.
      * intros u. eapply task_ok_frame; [by apply heap_frame_app|apply Qle_refl|apply (tk_tasks _ H)].
      * intros j s [Hj|[_ Hj]]%lookup_app_Some; [by apply (tk_keys _ H j)|].
        destruct (j - _)%nat; simplify_eq/=. constructor.
    + by eapply tasks_ok_same; [| | |exact H]; [done|done|apply Qle_refl].
  - simplify_eq. by eapply tasks_ok_same; [| | |exact H]; [done|done|apply Qle_refl].
  - case_bool_decide; simplify_eq.
    by eapply tasks_ok_same; [| | |exact H]; [done|done|apply Qle_refl].
  - simplify_eq. by eapply tasks_ok_same; [| | |exact H]; [done|done|apply Qle_refl].
  - destruct (0 <=? dt)%py eqn:Ed; simplify_eq. apply Qle_bool_iff in Ed.
    eapply tasks_ok_same; [| | |exact H]; [done|done|simpl; lra].
Qed.

Lemma init_tasks c : tasks_ok (bulkhead_init c).
Proof.
  unfold bulkhead_init, build_semaphore.
  assert (forall u w, w_tasks w = ∅ -> get_task u w = idle_task) as Hg.
  { intros u w E. unfold get_task. rewrite E. done. }
  destruct (max_concurrent c) as [n|]; split; intros u; simpl.
  - rewrite Hg by done. split; [done|]. split; [done|]. by intros [|j] s; intros ?; simplify_eq/=.
  - intros s Hs. destruct u; simplify_eq/=. constructor.
  - rewrite Hg by done. by split; [|split].
  - done.
Qed.

(** The semaphore in use is the one of the current configuration. *)
Definition state_ok (w : world) : Prop :=
  match bs_semaphore (b_state (w_self w)) with
  | Some i => exists n, max_concurrent (bs_config (b_state (w_self w))) = Some n /\
                w_capacity w !! i = Some n
  | None => max_concurrent (bs_config (b_state (w_self w))) = None
  end.

Lemma reconfigure_state c w w' :
  bulkhead_reconfigure c w = Some w' -> permits_ok w -> state_ok w'.
Proof.
  unfold bulkhead_reconfigure. intros E H. destruct (bulkhead_config_valid c); [|done].
  unfold build_semaphore, built in E. pose proof (permits_length w H) as Hlen.
  destruct (max_concurrent c) as [n|] eqn:Em; simplify_eq; unfold state_ok; simpl; [|done].
  exists n. split; [done|]. rewrite lookup_app_r, Hlen, Nat.sub_diag by lia. done.
Qed.

(** Every other event leaves the configuration and its semaphore alone. *)
Lemma exec_keeps_state e w w' :
  bulkhead_exec e w = Some w' -> (forall c, e <> EvReconfigure c) ->
  bs_config (b_state (w_self w')) = bs_config (b_state (w_self w)) /\
  bs_semaphore (b_state (w_self w')) = bs_semaphore (b_state (w_self w)) /\
  w_capacity w' = w_capacity w.
Proof.
  intros E He.
  assert (Hadmit : forall t n sem v, b_state (w_self v) = b_state (w_self w) ->
    w_capacity v = w_capacity w ->
    b_state (w_self (admit_call t n sem v)) = b_state (w_self w) /\
    w_capacity (admit_call t n sem v) = w_capacity w).
  { intros t n sem v H1 H2. destruct (admit_frame t n sem v) as (_ & -> & _ & _ & -> & _). done. }
  assert (Hafter : forall t n sem v, b_state (w_self v) = b_state (w_self w) ->
    w_capacity v = w_capacity w ->
    b_state (w_self (after_permit t n sem v)) = b_state (w_self w) /\
    w_capacity (after_permit t n sem v) = w_capacity w).
  { intros t n sem v H1 H2. destruct (after_permit_frame t n sem v) as (_ & -> & _ & _ & -> & _). done. }
  assert (b_state (w_self w') = b_state (w_self w) /\ w_capacity w' = w_capacity w) as [-> ->]; [|done].
  destruct e as [t|t|t|t|t app|t r|t|t|c| |a|a|dt]; simpl in E.
  - unfold bulkhead_enter in E. destruct (t_activity _); try done.
    destruct (bs_semaphore _) as [i|]; simpl in E; [|simplify_eq; by apply Hafter].
    destruct (w_semaphores w !! i) as [s|]; [|done]. simpl in E.
    destruct (acquire_begin t s) as [[] s']; simplify_eq; [by apply Hafter|done].
  - apply resume_cases in E as (st & i & sc & s & f & rest & _ & _ & _ & _ & ->).
    cbv zeta. destruct (t_must_cancel _ || _); [by destruct (_ && _)|by apply Hafter].
  - unfold bulkhead_expire, cancel_task in E. destruct (t_activity _); try done.
    destruct (_ && _); [|done]. destruct (w_semaphores w !! i) as [s|]; [|done]. simpl in E.
    destruct (cancel_waiter _ _). by simplify_eq.
  - unfold bulkhead_cancel, cancel_task in E. destruct (t_activity _); simplify_eq; try done.
    destruct (w_semaphores w !! i) as [s|]; [|done]. simpl in E.
    destruct (cancel_waiter _ _). by simplify_eq.
  - unfold open_begin in E. destruct (t_activity _); try done.
    destruct (b_open_lock (w_self w)); [done|].
    destruct (b_opened (w_self w)); simplify_eq; [by apply Hadmit|].
    destruct app as [a|]; simplify_eq; [|done]. case_bool_decide; simplify_eq; [|done].
    destruct uses; simplify_eq; [|done]. by apply Hadmit.
  - unfold open_item in E. destruct (t_activity _); try done.
    destruct r as [[]|e]; [destruct rest|]; simplify_eq; [by apply Hadmit|done..].
  - destruct (t_activity _); by simplify_eq.
  - unfold bulkhead_exit in E. destruct (t_activity _); try done.
    destruct (b_scopes _ !! t) as [[|[[i|] token] rest]|]; simplify_eq; try done.
    simpl. by destruct (w_semaphores w !! i).
  - by destruct (He c).
  - simplify_eq. split; [|done]. simpl. unfold to_thread. by destruct (max_workers _).
  - case_bool_decide; by simplify_eq.
  - by simplify_eq.
  - destruct (0 <=? dt)%py; by simplify_eq.
Qed.

Lemma exec_state e w w' :
  bulkhead_exec e w = Some w' -> permits_ok w -> state_ok w -> state_ok w'.
Proof.
  intros E Hp H. assert ((exists c, e = EvReconfigure c) \/ forall c, e <> EvReconfigure c) as [[c ->]|Hne]
    by (destruct e; eauto; by right).
  - by eapply reconfigure_state.
  - destruct (exec_keeps_state _ _ _ E Hne) as (Hc & Hs & Hcap).
    unfold state_ok. by rewrite Hc, Hs, Hcap.
Qed.

Record bulkhead_ok (w : world) : Prop := {
  bo_permits : permits_ok w;
  bo_tasks : tasks_ok w;
  bo_state : state_ok w;
}.

Lemma exec_ok e w w' : bulkhead_exec e w = Some w' -> bulkhead_ok w -> bulkhead_ok w'.
Proof.
  intros E [H1 H2 H3]. split; [by eapply exec_permits|by eapply exec_tasks|by eapply exec_state].
Qed.

Lemma init_ok c : bulkhead_config_valid c = true -> bulkhead_ok (bulkhead_init c).
Proof.
  intros Hc. split; [by apply init_permits|apply init_tasks|].
  unfold state_ok, bulkhead_init, build_semaphore, built.
  destruct (max_concurrent c) as [n|] eqn:E; simpl; [by exists n|done].
Qed.

Lemma bulkhead_reachable_ok c w :
  bulkhead_config_valid c = true -> bulkhead_reachable c w -> bulkhead_ok w.
Proof.
  intros Hc Hw. apply (invariant_rtc bulkhead_step bulkhead_ok) with (bulkhead_init c);
    [|done|by apply init_ok].
  intros s s' [e He]. by eapply exec_ok.
Qed.

Lemma run_reachable c es w w' :
  bulkhead_run es w = Some w' -> bulkhead_reachable c w -> bulkhead_reachable c w'.
Proof.
  revert w. induction es as [|e es IH]; simpl; intros w E H; [by simplify_eq|].
  destruct (bulkhead_exec e w) as [w1|] eqn:E1; [|done]. simpl in E.
  apply (IH w1); [done|]. eapply rtc_r; [exact H|]. by exists e.
Qed.

(** ** What other tasks and the event loop do not touch *)
Definition event_task (e : bulkhead_event) : option nat :=
  match e with
  | EvEnter t | EvResume t | EvExpire t | EvCancel t | EvOpenBegin t _ | EvOpenItem t _
  | EvOpenCancelled t | EvExit t => Some t
  | _ => None
  end.

(** What task [u] sees of a world: itself, its scopes, its context. *)
Definition view (u : nat) (w : world) : task * option (list scope) * option overrides :=
  (get_task u w, b_scopes (w_self w) !! u, w_context w !! u).

Lemma view_set_task u t x w : u <> t -> view u (set_task t x w) = view u w.
Proof. intros Hu. unfold view. rewrite get_set_task. by rewrite decide_False. Qed.

Lemma view_finish u t n r w : u <> t -> view u (task_finish t n r w) = view u w.
Proof. apply view_set_task. Qed.

Lemma view_fail u t sem e w : u <> t -> view u (open_fails t sem e w) = view u w.
Proof. intros Hu. by rewrite <- (view_finish u t (t_cancels (get_task t w)) (Raise e) w Hu). Qed.

Lemma view_admit u t n sem w : u <> t -> view u (admit_call t n sem w) = view u w.
Proof.
  intros Hu. unfold admit_call.
  destruct (bool_decide (own_overrides = ∅)); rewrite view_finish by done; unfold view; simpl;
    by rewrite ?(lookup_insert_ne _ t u) by done.
Qed.

Lemma view_after_permit u t n sem w : u <> t -> view u (after_permit t n sem w) = view u w.
Proof.
  intros Hu. unfold after_permit. destruct (_ && _); [by apply view_set_task|by apply view_admit].
Qed.

Lemma popped_other u t rest m : u <> t -> popped t rest m !! u = m !! u.
Proof.
  intros Hu. unfold popped. case_bool_decide; [by rewrite lookup_delete_ne|by rewrite lookup_insert_ne].
Qed.

Lemma exec_other u e w w' :
  bulkhead_exec e w = Some w' -> event_task e <> Some u -> view u w' = view u w.
Proof.
  intros E He.
  assert (Hct : forall t st i sc, Some t <> Some u -> cancel_task t st i sc w = Some w' ->
    view u w' = view u w).
  { intros t st i sc Ht Hc. unfold cancel_task in Hc.
    destruct (w_semaphores w !! i) as [s|]; [|done]. simpl in Hc.
    destruct (cancel_waiter _ _). simplify_eq. by rewrite view_set_task by congruence. }
  destruct e as [t|t|t|t|t app|t r|t|t|c| |a|a|dt]; simpl in E, He.
  - unfold bulkhead_enter in E. destruct (t_activity _); try done.
    destruct (bs_semaphore _) as [i|]; simpl in E; [|simplify_eq; by rewrite view_after_permit by congruence].
    destruct (w_semaphores w !! i) as [s|]; [|done]. simpl in E.
    destruct (acquire_begin t s) as [[] s']; simplify_eq;
      [by rewrite view_after_permit by congruence|by rewrite view_set_task by congruence].
  - apply resume_cases in E as (st & i & sc & s & f & rest & _ & _ & _ & _ & ->).
    cbv zeta. destruct (t_must_cancel _ || _); [|by rewrite view_after_permit by congruence].
    destruct (_ && _); by rewrite view_finish by congruence.
  - unfold bulkhead_expire in E. destruct (t_activity _); try done.
    destruct (_ && _); [|done]. by eapply Hct.
  - unfold bulkhead_cancel in E. destruct (t_activity _); simplify_eq;
      try (by eapply Hct); by rewrite view_set_task by congruence.
  - unfold open_begin in E. destruct (t_activity _); try done.
    destruct (b_open_lock (w_self w)); [done|].
    destruct (b_opened (w_self w)); simplify_eq; [by rewrite view_admit by congruence|].
    destruct app as [a|]; simplify_eq; [|by rewrite view_fail by congruence].
    case_bool_decide; simplify_eq; [|by rewrite view_fail by congruence].
    destruct uses; simplify_eq; [by rewrite view_admit by congruence|].
    by rewrite view_set_task by congruence.
  - unfold open_item in E. destruct (t_activity _); try done.
    destruct r as [[]|e]; [destruct rest|]; simplify_eq; [by rewrite view_admit by congruence| |].
    + by rewrite view_set_task by congruence.
    + by rewrite view_fail by congruence.
  - destruct (t_activity _); simplify_eq. by rewrite view_fail by congruence.
  - unfold bulkhead_exit in E. destruct (t_activity _); try done.
    destruct (b_scopes _ !! t) as [[|[sem token] rest]|] eqn:Es; simplify_eq;
      try (by rewrite view_finish by congruence).
    change (if bool_decide (rest = []) then _ else _) with (popped t rest (b_scopes (w_self w))).
    rewrite view_finish by congruence. set (w1 := set_self _ _).
    assert (view u w1 = view u w) as Hw1.
    { unfold view. simpl. rewrite popped_other by congruence.
      destruct token as [[m|]|]; rewrite ?(lookup_insert_ne _ t u), ?(lookup_delete_ne _ t u)
        by congruence; done. }
    destruct sem as [j|]; [|done]. destruct (w_semaphores w1 !! j); done.
  - unfold bulkhead_reconfigure in E. destruct (bulkhead_config_valid c); [|done].
    unfold build_semaphore in E. destruct (max_concurrent c); by simplify_eq.
  - simplify_eq. unfold view. simpl. unfold to_thread. by destruct (max_workers _).
  - case_bool_decide; by simplify_eq.
  - by simplify_eq.
  - destruct (0 <=? dt)%py; by simplify_eq.
Qed.

Definition is_cancel (t : nat) (e : bulkhead_event) : bool :=
  match e with EvCancel u => bool_decide (u = t) | _ => false end.

Definition expiring (sc : timeout_scope) : Z :=
  if bool_decide (ts_state sc = Expiring) then 1 else 0.

(** A task that waits for a permit waits on until it resumes, with the same
    deadline; its cancel counter counts the requests of others and the timeout. *)
Lemma wait_persists t e w w' st i sc :
  bulkhead_exec e w = Some w' -> e <> EvResume t ->
  t_activity (get_task t w) = Waiting st i sc ->
  exists sc', t_activity (get_task t w') = Waiting st i sc' /\ ts_when sc' = ts_when sc /\
    ts_cancelling sc' = ts_cancelling sc /\
    t_cancels (get_task t w') - expiring sc' =
      t_cancels (get_task t w) - expiring sc + (if is_cancel t e then 1 else 0).
Proof.
  intros E He Ha.
  assert (Hct : forall sc', cancel_task t st i sc' w = Some w' ->
    t_activity (get_task t w') = Waiting st i sc' /\
    t_cancels (get_task t w') = t_cancels (get_task t w) + 1).
  { intros sc' Hc. unfold cancel_task in Hc. destruct (w_semaphores w !! i) as [s|]; [|done].
    simpl in Hc. destruct (cancel_waiter _ _). simplify_eq. by rewrite get_set_task, decide_True. }
  assert (Hother : event_task e <> Some t -> exists sc',
    t_activity (get_task t w') = Waiting st i sc' /\ ts_when sc' = ts_when sc /\
    ts_cancelling sc' = ts_cancelling sc /\
    t_cancels (get_task t w') - expiring sc' =
      t_cancels (get_task t w) - expiring sc + (if is_cancel t e then 1 else 0)).
  { intros Hne. pose proof (exec_other t e w w' E Hne) as Hv. unfold view in Hv.
    injection Hv as Hv _ _. rewrite Hv. exists sc. split_and!; [done..|].
    destruct e; simpl in *; try lia. rewrite bool_decide_eq_false_2 by congruence. lia. }
  destruct e as [u|u|u|u|u app|u r|u|u|c| |a|a|dt]; simpl in *; try (by apply Hother);
    (destruct (decide (u = t)) as [->|Hu]; [|apply Hother; congruence]); try done;
    unfold bulkhead_enter, bulkhead_expire, bulkhead_cancel, open_begin, open_item, bulkhead_exit in E;
    rewrite Ha in E; try done.
  - destruct (_ && _) eqn:Eb; [|done]. apply andb_prop in Eb as [Eb%bool_decide_eq_true _].
    destruct (Hct _ E) as [H1 H2]. exists (on_timeout sc). split_and!; [done..|].
    rewrite H2. unfold expiring. rewrite Eb. simpl. lia.
  - destruct (Hct _ E) as [H1 H2]. exists sc. split_and!; [done..|].
    rewrite H2, bool_decide_eq_true_2 by done. lia.
Qed.

Lemma wait_persists_run t es w w' st i sc :
  bulkhead_run es w = Some w' -> EvResume t ∉ es ->
  t_activity (get_task t w) = Waiting st i sc ->
  exists sc', t_activity (get_task t w') = Waiting st i sc' /\ ts_when sc' = ts_when sc /\
    ts_cancelling sc' = ts_cancelling sc /\
    t_cancels (get_task t w') - expiring sc' =
      t_cancels (get_task t w) - expiring sc + count_if (is_cancel t) es.
Proof.
  revert w sc. induction es as [|e es IH]; simpl; intros w sc E Hn Ha.
  { simplify_eq. exists sc. split_and!; [done..|]. change (count_if (is_cancel t) []) with 0. lia. }
  destruct (bulkhead_exec e w) as [w1|] eqn:E1; [|done]. simpl in E.
  apply not_elem_of_cons in Hn as [He Hn].
  destruct (wait_persists t e w w1 st i sc E1) as (sc1 & H1 & H2 & H3 & H4); [congruence|done|].
  destruct (IH w1 sc1 E Hn H1) as (sc2 & H5 & H6 & H7 & H8).
  exists sc2. split_and!; [done|congruence|congruence|]. rewrite count_if_cons. lia.
Qed.

(** ** What the bulkhead promises *)

(** However calls enter, wait, time out, are cancelled, fail and leave, and
    however the bulkhead is reconfigured meanwhile: the calls inside under one
    semaphore never exceed the limit it was built with, so the calls admitted
    under the current configuration never exceed its [max_concurrent]; and each
    of its permits is free, promised to a waiter, held by a call inside, held by
    a call that opens the components, or lost by a call that failed there. *)
Lemma bulkhead_bounds_calls c w :
  bulkhead_config_valid c = true -> bulkhead_reachable c w ->
  (forall i n, w_capacity w !! i = Some n ->
     inside i w <= n /\
     exists s, w_semaphores w !! i = Some s /\ 0 <= sem_value s /\
       sem_value s + count_if is_resolved (sem_waiters s)
         + inside i w + opening i w + lost i w = n) /\
  forall i, bs_semaphore (b_state (w_self w)) = Some i ->
    exists n, max_concurrent (bs_config (b_state (w_self w))) = Some n /\ inside i w <= n.
Proof.
  intros Hc Hw. destruct (bulkhead_reachable_ok c w Hc Hw) as [Hp _ Hs].
  assert (Hb : forall i n, w_capacity w !! i = Some n -> inside i w <= n /\
     exists s, w_semaphores w !! i = Some s /\ 0 <= sem_value s /\
       sem_value s + count_if is_resolved (sem_waiters s)
         + inside i w + opening i w + lost i w = n).
  { intros i n Hn. specialize (Hp i). unfold semaphore_ok in Hp. rewrite Hn in Hp.
    destruct (w_semaphores w !! i) as [s|]; [|done]. destruct Hp as [[Hv _ _] Hp].
    unfold permits, held in Hp.
    pose proof (count_if_nonneg is_resolved (sem_waiters s)). pose proof (opening_nonneg i w).
    pose proof (lost_nonneg i w). split; [lia|]. exists s. split_and!; [done..|lia]. }
  split; [done|]. intros i Hi. unfold state_ok in Hs. rewrite Hi in Hs.
  destruct Hs as (n & Hn & Hcap). exists n. split; [done|]. by apply (Hb i).
Qed.

(** C22 No wake-up is lost: while a call waits for a permit and one is free or on
    its way to a waiter, some waiting call is ready to run, so a free permit
    never stays unused behind a sleeping waiter. *)
Theorem free_permit_reaches_a_waiter c w i s n t :
  bulkhead_config_valid c = true -> bulkhead_reachable c w ->
  w_semaphores w !! i = Some s -> w_capacity w !! i = Some n ->
  (t, Pending) ∈ sem_waiters s -> inside i w + opening i w + lost i w < n ->
  exists u st sc w', t_activity (get_task u w) = Waiting st i sc /\
    bulkhead_exec (EvResume u) w = Some w'.
Proof.
  intros Hc Hw Hs Hn Ht Hlt. destruct (bulkhead_reachable_ok c w Hc Hw) as [Hp [Htk Hkeys] _].
  specialize (Hp i). unfold semaphore_ok in Hp. rewrite Hs, Hn in Hp. destruct Hp as [[Hv Hh _] Hp].
  unfold permits, held in Hp.
  assert (exists u f, (u, f) ∈ sem_waiters s /\ f <> Pending) as (u & f & Hu & Hf).
  { destruct (decide (0 < sem_value s)) as [Hpos|Hz].
    - destruct Hh as ([u f] & Hu & Hf); [done|by exists (t, Pending)|]. by exists u, f.
    - assert (0 < count_if is_resolved (sem_waiters s)) as Hr by lia.
      apply count_if_pos in Hr as ([u f] & Hu & Hf). exists u, f. split; [done|].
      by destruct f. }
  pose proof (elem_future u f _ (Hkeys i s Hs) Hu) as Hfut.
  destruct (Htk u) as [_ Hin].
  assert (exists st sc, t_activity (get_task u w) = Waiting st i sc) as (st & sc & Ha).
  { destruct (t_activity (get_task u w)) as [r|st j sc|sem|sem a it rest];
      try (destruct Hin as [_ Hin]; specialize (Hin i s Hs); congruence).
    destruct (decide (i = j)) as [->|Hne]; [by exists st, sc|].
    pose proof (wk_others _ _ _ _ _ _ Hin i s Hs Hne). congruence. }
  exists u, st, sc.
  assert (is_Some (bulkhead_resume u w)) as [w' Hw']; [|by exists w'].
  unfold bulkhead_resume. rewrite Ha, Hs. simpl. unfold future in Hfut.
  destruct (take_waiter u (sem_waiters s)) as [[g rest]|]; simplify_eq/=.
  rewrite bool_decide_eq_false_2 by done.
  destruct (timeout_exit _ _ _) as [[m x] [e|]]; [|done]. by destruct (isinstance e TimeoutError).
Qed.

Lemma enter_waits t w w1 st i sc :
  bulkhead_enter t w = Some w1 -> t_activity (get_task t w1) = Waiting st i sc ->
  st = b_state (w_self w) /\
  sc = timeout_enter (w_now w) (default 0%Q (max_wait (bs_config st))) (t_cancels (get_task t w)) /\
  t_cancels (get_task t w1) = t_cancels (get_task t w).
Proof.
  unfold bulkhead_enter. intros E Ha.
  assert (Hafter : forall n sem v, t_activity (get_task t (after_permit t n sem v)) <> Waiting st i sc).
  { intros n sem v. destruct (after_permit_frame t n sem v) as (_ & _ & _ & _ & _ & ->).
    rewrite decide_True by done. simpl. by destruct (_ && _). }
  destruct (t_activity (get_task t w)) eqn:Ea; try done.
  destruct (bs_semaphore _) as [j|]; simpl in E; [|simplify_eq; by apply Hafter in Ha].
  destruct (w_semaphores w !! j) as [s|]; [|done]. simpl in E.
  destruct (acquire_begin t s) as [[] s']; simplify_eq; [by apply Hafter in Ha|].
  rewrite get_set_task, decide_True in Ha |- * by done. simpl in *. by simplify_eq.
Qed.

Lemma count_cancels t es : 0 < count_if (is_cancel t) es <-> EvCancel t ∈ es.
Proof.
  rewrite count_if_pos. split; [|intros H; exists (EvCancel t); split; [done|]; simpl;
    by apply bool_decide_eq_true].
  intros (e & He & Hc). destruct e; try done. simpl in Hc. apply bool_decide_eq_true in Hc.
  by subst.
Qed.

(** A call that has to wait, whatever the others and the clock do in the
    meantime: cancelled by somebody else, it ends with [CancelledError], even
    when the deadline has passed too; otherwise it is admitted, or rejected with
    [BulkheadFullError] and the limit it met, and then [max_wait] has passed. *)
Lemma queued_call_outcome c w t w1 st i sc es w2 w3 :
  bulkhead_config_valid c = true -> bulkhead_reachable c w ->
  bulkhead_exec (EvEnter t) w = Some w1 -> t_activity (get_task t w1) = Waiting st i sc ->
  bulkhead_run es w1 = Some w2 -> EvResume t ∉ es -> bulkhead_exec (EvResume t) w2 = Some w3 ->
  let config := bs_config (b_state (w_self w)) in
  let result := t_activity (get_task t w3) in
  (EvCancel t ∈ es -> result = Idle (Raise cancelled_error)) /\
  (EvCancel t ∉ es ->
     result = Idle (Return tt) \/ result = AtOpenLock (Some i) \/
     result = Idle (Raise (bulkhead_full config)) /\
     (w_now w + default 0 (max_wait config) <= w_now w2)%Q).
Proof.
  intros Hc Hw E1 Ha E2 Hn E3. cbv zeta.
  destruct (enter_waits t w w1 st i sc E1 Ha) as (-> & -> & Hcan).
  assert (Hr2 : bulkhead_reachable c w2).
  { apply (run_reachable c es w1); [done|]. eapply rtc_r; [exact Hw|]. by exists (EvEnter t). }
  destruct (wait_persists_run t es w1 w2 _ _ _ E2 Hn Ha) as (sc2 & Ha2 & Hwhen & Hcc & Hcount).
  unfold expiring at 2 in Hcount. simpl in Hcount, Hwhen, Hcc.
  rewrite Hcan, <- Hcc in Hcount. rewrite Z.sub_0_r in Hcount.
  destruct (tk_tasks _ (bo_tasks _ (bulkhead_reachable_ok c w2 Hc Hr2)) t) as [_ Hin]. rewrite Ha2 in Hin.
  destruct Hin as [(s & f & Hs & Hf & Hiff) Htimer Hge H0 _].
  apply resume_cases in E3 as (st' & i' & sc' & s' & f' & rest & Ha' & Hs' & Ht' & Hpend & ->).
  rewrite Ha2 in Ha'. simplify_eq. unfold future in Hf. rewrite Ht' in Hf. simpl in Hf. simplify_eq.
  cbv zeta. set (thrown := _ || _). set (n := (timeout_exit _ _ _).1.1).
  set (v := set_semaphore _ _ _).
  assert (Hthrown : thrown = true <-> ts_cancelling sc' < t_cancels (get_task t w2)).
  { rewrite <- Hiff. unfold thrown. by rewrite orb_true_iff, bool_decide_eq_true. }
  assert (Hfin : forall r m x, t_activity (get_task t (task_finish t m r x)) = Idle r).
  { intros r m x. unfold task_finish. by rewrite get_set_task, decide_True. }
  unfold expiring in Hcount.
  assert (Hexp : ts_state sc' = Expiring -> n = t_cancels (get_task t w2) - 1).
  { intros He. unfold n, timeout_exit, uncancel. rewrite He in *. simpl.
    destruct (Z.ltb_spec 0 (t_cancels (get_task t w2))); [done|]. simpl in *. lia. }
  split; intros Hcancel; rewrite <- count_cancels in Hcancel.
  - destruct thrown; [|exfalso; case_bool_decide; destruct Hthrown as [_ Hth]; discriminate Hth; lia].
    case_bool_decide as He; simpl; [|apply Hfin]. rewrite (Hexp He).
    replace (_ <=? _) with false by (symmetry; apply Z.leb_gt; lia). apply Hfin.
  - pose proof (count_if_nonneg (is_cancel t) es). destruct thrown.
    + right. right. case_bool_decide as He; [|exfalso; destruct Hthrown as [Hth _]; specialize (Hth eq_refl); lia].
      simpl. rewrite (Hexp He). replace (_ <=? _) with true by (symmetry; apply Z.leb_le; lia).
      split; [apply Hfin|]. destruct Htimer as [|[_ Hd]]; [congruence|]. by rewrite Hwhen in Hd.
    + destruct (after_permit_frame t n (Some i') v) as (_ & _ & _ & _ & _ & ->).
      rewrite decide_True by done. simpl. destruct (_ && _); auto.
Qed.

(** Permits are given in the order of arrival: a call that does not wait meets
    no call that still waits, and when a waiting call gets its permit nobody who
    queued before it is still waiting for one. *)
Lemma bulkhead_serves_in_order c w t w' :
  bulkhead_config_valid c = true -> bulkhead_reachable c w ->
  (bulkhead_exec (EvEnter t) w = Some w' ->
     (forall st i sc, t_activity (get_task t w') <> Waiting st i sc) ->
     forall i s u, bs_semaphore (b_state (w_self w)) = Some i -> w_semaphores w !! i = Some s ->
       future u (sem_waiters s) <> Some Pending) /\
  (bulkhead_exec (EvResume t) w = Some w' ->
     (forall e, t_activity (get_task t w') <> Idle (Raise e)) ->
     forall st i sc s, t_activity (get_task t w) = Waiting st i sc -> w_semaphores w !! i = Some s ->
       exists ahead behind, sem_waiters s = ahead ++ (t, Resolved) :: behind /\
         forall u, future u ahead <> Some Pending).
Proof.
  intros Hc Hw. destruct (bulkhead_reachable_ok c w Hc Hw) as [Hp Htk _]. split.
  - simpl. unfold bulkhead_enter. intros E Ha i s u Hi Hs Hf.
    destruct (t_activity (get_task t w)); try done. rewrite Hi, Hs in E. simpl in E.
    assert (sem_locked s = true) as Hl.
    { unfold sem_locked. apply orb_true_intro. right. apply existsb_exists. exists (u, Pending).
      split; [apply list_elem_of_In; by apply future_elem|done]. }
    unfold acquire_begin in E. rewrite Hl in E. simplify_eq.
    eapply Ha. rewrite get_set_task, decide_True by done. done.
  - intros E Ha st i sc s Hwait Hs.
    apply resume_cases in E as (st' & i' & sc' & s' & f & rest & Ha' & Hs' & Ht & Hf & ->).
    rewrite Hwait in Ha'. simplify_eq. revert Ha. cbv zeta.
    destruct (t_must_cancel _ || _) eqn:Eth.
    { intros Ha. exfalso. destruct (_ && _); eapply Ha; unfold task_finish;
        rewrite get_set_task, decide_True by done; done. }
    intros _. apply orb_false_elim in Eth as [_ Eth%bool_decide_eq_false].
    destruct f; try done.
    apply take_waiter_spec in Ht as (l1 & l2 & E & _). exists l1, l2. split; [done|].
    intros u Hu. pose proof (so_fifo _ (sem_of_permits _ _ _ Hp Hs')) as Hord.
    rewrite E, StronglySorted_app in Hord. destruct Hord as (Hord & _ & _).
    apply (Hord (u, Pending) (t, Resolved)); [by apply future_elem|left|done|done].
Qed.

Lemma enter_admits t w w1 :
  bulkhead_enter t w = Some w1 -> t_activity (get_task t w1) = Idle (Return tt) ->
  exists n v, w1 = admit_call t n (bs_semaphore (b_state (w_self w))) v /\ view t v = view t w.
Proof.
  unfold bulkhead_enter. intros E Ha.
  assert (Hafter : forall n sem v, t_activity (get_task t (after_permit t n sem v)) = Idle (Return tt) ->
    after_permit t n sem v = admit_call t n sem v).
  { intros n sem v. unfold after_permit. destruct (_ && _); [|done].
    by rewrite get_set_task, decide_True. }
  destruct (t_activity (get_task t w)); try done.
  destruct (bs_semaphore _) as [j|]; simpl in E.
  - destruct (w_semaphores w !! j) as [s|]; [|done]. simpl in E.
    destruct (acquire_begin t s) as [[] s']; simplify_eq.
    + rewrite Hafter by done. eauto.
    + by rewrite get_set_task, decide_True in Ha.
  - simplify_eq. rewrite Hafter by done. eauto.
Qed.

Lemma view_run u es w w' :
  bulkhead_run es w = Some w' -> (forall e, e ∈ es -> event_task e <> Some u) ->
  view u w' = view u w.
Proof.
  revert w. induction es as [|e es IH]; simpl; intros w E H; [by simplify_eq|].
  destruct (bulkhead_exec e w) as [w1|] eqn:E1; [|done]. simpl in E.
  rewrite (IH w1 E); [|intros; apply H; by right]. eapply exec_other; [exact E1|apply H; by left].
Qed.

Lemma exit_effect t sem token rest w w' :
  bulkhead_exit t w = Some w' -> b_scopes (w_self w) !! t = Some ((sem, token) :: rest) ->
  default [] (b_scopes (w_self w') !! t) = rest /\
  w_context w' !! t = match token with None => w_context w !! t | Some m => m end /\
  (forall i, inside i w' = inside i w - permit i sem) /\
  w_active w' = w_active w - 1 /\
  forall i, w_semaphores w' !! i =
    if bool_decide (sem = Some i) then sem_release <$> w_semaphores w !! i else w_semaphores w !! i.
Proof.
  unfold bulkhead_exit. intros E Es. destruct (t_activity (get_task t w)); try done.
  rewrite Es in E. simplify_eq.
  change (if bool_decide (rest = []) then _ else _) with (popped t rest (b_scopes (w_self w))).
  set (w1 := set_self _ _).
  assert (H1 : default [] (b_scopes (w_self w1) !! t) = rest).
  { simpl. unfold popped. case_bool_decide; subst; [by rewrite lookup_delete_eq|].
    by rewrite lookup_insert_eq. }
  assert (H2 : w_context w1 !! t = match token with None => w_context w !! t | Some m => m end).
  { simpl. destruct token as [[m|]|]; [apply lookup_insert_eq|apply lookup_delete_eq|done]. }
  assert (H3 : forall i, inside i w1 = inside i w - permit i sem).
  { intros i. unfold inside, permit. simpl. by rewrite (popped_sum _ t (sem, token)). }
  destruct sem as [j|]; [|split_and!; try done].
  change (w_semaphores w1) with (w_semaphores w).
  destruct (w_semaphores w !! j) as [s|] eqn:Ej; split_and!; try done; intros i; simpl.
  - case_bool_decide; simplify_eq.
    + rewrite Ej, list_lookup_insert_eq by (by eapply lookup_lt_Some). done.
    + apply list_lookup_insert_ne. congruence.
  - case_bool_decide; simplify_eq; by rewrite ?Ej.
Qed.

(** A call that entered at once and leaves again, whatever the other tasks do in
    between, a reconfiguration included: the active overrides of its task and the
    enclosing scopes are what they were, its permit goes back to the semaphore it
    was taken from, and the gauge goes down by one. *)
Lemma scope_is_restored w t w1 es w2 w3 :
  bulkhead_exec (EvEnter t) w = Some w1 -> t_activity (get_task t w1) = Idle (Return tt) ->
  bulkhead_run es w1 = Some w2 -> (forall e, e ∈ es -> event_task e <> Some t) ->
  bulkhead_exec (EvExit t) w2 = Some w3 ->
  let sem := bs_semaphore (b_state (w_self w)) in
  t_activity (get_task t w3) = Idle (Return tt) /\
  w_context w3 !! t = w_context w !! t /\
  default [] (b_scopes (w_self w3) !! t) = default [] (b_scopes (w_self w) !! t) /\
  w_active w3 = w_active w2 - 1 /\
  (forall i, inside i w3 = inside i w2 - permit i sem) /\
  forall i, w_semaphores w3 !! i =
    if bool_decide (sem = Some i) then sem_release <$> w_semaphores w2 !! i
    else w_semaphores w2 !! i.
Proof.
  intros E1 Ha E2 Hother E3. cbv zeta.
  destruct (enter_admits t w w1 E1 Ha) as (n & v & -> & Hv).
  pose proof (view_run t es _ _ E2 Hother) as Hv2.
  set (sem := bs_semaphore _) in *. simpl in E3.
  unfold view in Hv, Hv2. injection Hv as _ Hvs Hvc. injection Hv2 as Hx Hs2 Hc2.
  assert (exists token, b_scopes (w_self w2) !! t =
      Some ((sem, token) :: default [] (b_scopes (w_self w) !! t)) /\
    match token with None => w_context w2 !! t = w_context w !! t
    | Some m => m = w_context w !! t end) as (token & Hscope & Htoken).
  { rewrite Hs2, Hc2. unfold admit_call. case_bool_decide; simpl; rewrite lookup_insert_eq, Hvs;
      eexists; (split; [done|]); simpl; by rewrite ?Hvc. }
  destruct (exit_effect t _ _ _ _ _ E3 Hscope) as (H1 & H2 & H3 & H4 & H5).
  split_and!; try done.
  - unfold bulkhead_exit in E3. destruct (t_activity (get_task t w2)); try done.
    rewrite Hscope in E3. simplify_eq. unfold task_finish. by rewrite get_set_task, decide_True.
  - rewrite H2. by destruct token.
Qed.

(** The private pool has the size the configuration asks for. *)
Definition executor_ok (b : Bulkhead) : Prop :=
  forall n, b_executor b = Some n -> max_workers (bs_config (b_state b)) = Some n.

Lemma pool_follows_config c w w' :
  executor_ok (w_self w) ->
  (to_thread (w_self w)).1 = max_workers (bs_config (b_state (w_self w))) /\
  executor_ok (to_thread (w_self w)).2 /\
  (bulkhead_reconfigure c w = Some w' -> executor_ok (w_self w')).
Proof.
  intros H. unfold to_thread. split_and!.
  - destruct (max_workers _) as [n|] eqn:E; [|done]. simpl. f_equal.
    destruct (b_executor (w_self w)) as [m|] eqn:Em; simpl; [|done].
    specialize (H m Em). congruence.
  - destruct (max_workers _) as [n|] eqn:E; [|done]. intros m. simpl. rewrite E.
    destruct (b_executor (w_self w)) as [k|] eqn:Em; simpl; [|done].
    specialize (H k Em). congruence.
  - unfold bulkhead_reconfigure. destruct (bulkhead_config_valid c); [|done].
    destruct (build_semaphore c (w_semaphores w)) as [h sem]. intros E. simplify_eq. intros n. simpl.
    destruct (b_executor (w_self w)) as [k|] eqn:Em; [|done]. case_bool_decide as Ec; [|done].
    intros [= ->]. rewrite Ec. by apply H.
Qed.
End Bulkhead.

(** ** Concrete runs *)

Definition one_call : BulkheadConfig := mkBulkheadConfig (Some 1) (Some 5%Q) None.

Definition run_or_init (uses : list used_item) (es : list bulkhead_event) : world :=
  default (bulkhead_init one_call) (bulkhead_run "b" uses es (bulkhead_init one_call)).

Lemma run_or_init_reachable uses es : bulkhead_reachable "b" uses one_call (run_or_init uses es).
Proof.
  unfold run_or_init. destruct (bulkhead_run _ _ _ _) as [w|] eqn:E; [|by apply rtc_refl].
  by eapply run_reachable; [exact E|apply rtc_refl].
Qed.

Lemma bulkhead_bounds_calls_witness :
  let w := run_or_init [] [EvEnter 1; EvEnter 2] in
  bulkhead_config_valid one_call = true /\ w_capacity w !! 0%nat = Some 1 /\ inside 0 w <= 1.
Proof.
  split; [reflexivity|]. split; [reflexivity|].
  apply (bulkhead_bounds_calls "b" [] one_call (run_or_init [] [EvEnter 1; EvEnter 2]));
    [reflexivity|apply run_or_init_reachable|reflexivity].
Defined.

(** Task 1 has left: its permit is on the way to task 2, and task 3 sleeps. *)
Lemma free_permit_reaches_a_waiter_witness :
  exists u st sc w',
    t_activity (get_task u (run_or_init [] [EvEnter 1; EvEnter 2; EvEnter 3; EvExit 1]))
      = Waiting st 0 sc /\
    bulkhead_exec "b" [] (EvResume u) (run_or_init [] [EvEnter 1; EvEnter 2; EvEnter 3; EvExit 1])
      = Some w'.
Proof.
  apply (free_permit_reaches_a_waiter "b" [] one_call _ 0%nat
    (mkSemaphore 0 [(2%nat, Resolved); (3%nat, Pending)]) 1 3%nat);
    [reflexivity|apply run_or_init_reachable|vm_compute; reflexivity|vm_compute; reflexivity| |].
  - right. left.
  - vm_compute. reflexivity.
Defined.

(** Task 2 waits five seconds and is rejected; cancelled as well, it is
    cancelled. *)
Lemma queued_call_outcome_witness :
  let es := [EvTick 5; EvExpire 2; EvCancel 2] in
  (EvCancel 2 ∈ es) /\
  exists w3, bulkhead_run "b" [] (es ++ [EvResume 2]) (run_or_init [] [EvEnter 1; EvEnter 2]) = Some w3 /\
    t_activity (get_task 2 w3) = Idle (Raise cancelled_error).
Proof.
  cbv zeta. split; [right; right; left|]. eexists. split; [vm_compute; reflexivity|].
  set (w := run_or_init [] [EvEnter 1]). set (w1 := run_or_init [] [EvEnter 1; EvEnter 2]).
  set (es := [EvTick 5; EvExpire 2; EvCancel 2]).
  destruct (bulkhead_run "b" [] es w1) as [w2|] eqn:E2; [|vm_compute in E2; discriminate].
  refine (proj1 (queued_call_outcome "b" [] one_call w 2 w1 _ _ _ es w2 _ eq_refl _ _ _ E2 _ _) _).
  - apply run_or_init_reachable.
  - vm_compute. reflexivity.
  - vm_compute. reflexivity.
  - unfold es. intros [?|[?|[?|?%elem_of_nil]%elem_of_cons]%elem_of_cons]%elem_of_cons; done.
  - vm_compute in E2. injection E2 as <-. vm_compute. reflexivity.
  - right. right. left.
Defined.

Lemma bulkhead_serves_in_order_witness :
  let w := run_or_init [] [EvEnter 1; EvEnter 2; EvEnter 3; EvExit 1] in
  exists ahead behind, [(2%nat, Resolved); (3%nat, Pending)] = ahead ++ (2%nat, Resolved) :: behind /\
    forall u, future u ahead <> Some Pending.
Proof.
  set (w := run_or_init [] [EvEnter 1; EvEnter 2; EvEnter 3; EvExit 1]). cbv zeta.
  destruct (bulkhead_exec "b" [] (EvResume 2) w) as [w'|] eqn:E; [|vm_compute in E; discriminate].
  refine (proj2 (bulkhead_serves_in_order "b" [] one_call w 2 w' eq_refl _) E _ _ _ _
    (mkSemaphore 0 [(2%nat, Resolved); (3%nat, Pending)]) _ _).
  - apply run_or_init_reachable.
  - vm_compute in E. injection E as <-. intros e. vm_compute. discriminate.
  - vm_compute. reflexivity.
  - vm_compute. reflexivity.
Defined.

Definition other_limit : BulkheadConfig := mkBulkheadConfig (Some 3) None None.

Lemma scope_is_restored_witness :
  let w := run_or_init [] [] in
  exists w3, bulkhead_run "b" [] [EvEnter 1; EvReconfigure other_limit; EvEnter 2; EvExit 1] w = Some w3 /\
    w_context w3 !! 1%nat = w_context w !! 1%nat.
Proof.
  set (w := run_or_init [] []). cbv zeta. eexists. split; [vm_compute; reflexivity|].
  destruct (bulkhead_exec "b" [] (EvEnter 1) w) as [w1|] eqn:E1; [|vm_compute in E1; discriminate].
  destruct (bulkhead_run "b" [] [EvReconfigure other_limit; EvEnter 2] w1) as [w2|] eqn:E2;
    [|vm_compute in E1; injection E1 as <-; vm_compute in E2; discriminate].
  refine (proj1 (proj2 (scope_is_restored "b" [] w 1 w1 _ w2 _ E1 _ E2 _ _))).
  - vm_compute in E1. injection E1 as <-. vm_compute. reflexivity.
  - intros e [->|[->|?%elem_of_nil]%elem_of_cons]%elem_of_cons; done.
  - vm_compute in E1. injection E1 as <-. vm_compute in E2. injection E2 as <-. vm_compute. reflexivity.
Defined.

(** ** What the code does not handle *)

Definition cache_item : used_item := mkUsed 7 (Some ("cache", "default")%string).

(** A call that fails while it opens the components (here no application is
    active) never gives its permit back: with one permit, the bulkhead then
    rejects every call although nobody is inside. *)
Lemma failed_open_loses_the_permit :
  let w := run_or_init [cache_item]
    [EvEnter 1; EvOpenBegin 1 None; EvAppStart 0; EvEnter 2; EvTick 5; EvExpire 2; EvResume 2] in
  t_activity (get_task 1 w) = Idle (Raise (mk_exn NoActiveAppError NoInfo)) /\
  inside 0 w = 0 /\ opening 0 w = 0 /\ w_active w = 0 /\
  t_activity (get_task 2 w) = Idle (Raise (bulkhead_full "b" one_call)).
Proof. vm_compute. repeat split. Qed.

(** The components are opened once: when the application they were opened in has
    stopped, a call under the next one gets a component that is closed. *)
Lemma components_stay_closed_after_restart :
  let w := run_or_init [cache_item]
    [EvAppStart 0; EvEnter 1; EvOpenBegin 1 (Some 0%nat); EvOpenItem 1 (Return tt); EvExit 1;
     EvAppStop 0; EvAppStart 1; EvEnter 2] in
  t_activity (get_task 2 w) = Idle (Return tt) /\
  (m ← w_context w !! 2%nat; m !! ("cache", "default")%string) = Some 7%nat /\
  w_stacks w !! 0%nat = Some [] /\ w_stacks w !! 1%nat = Some [].
Proof. vm_compute. repeat split. Qed.

(** An item that fails to open leaves the ones before it open, and the next call
    opens them again. *)
Lemma failed_open_opens_twice :
  let db := mkUsed 3 None in
  let w := run_or_init [db; cache_item]
    [EvAppStart 0; EvEnter 1; EvOpenBegin 1 (Some 0%nat); EvOpenItem 1 (Return tt);
     EvOpenItem 1 (Raise (mk_exn RuntimeError NoInfo)); EvReconfigure other_limit; EvEnter 2;
     EvOpenBegin 2 (Some 0%nat); EvOpenItem 2 (Return tt); EvOpenItem 2 (Return tt)] in
  t_activity (get_task 2 w) = Idle (Return tt) /\
  w_stacks w !! 0%nat = Some [cache_item; db; db].
Proof. vm_compute. repeat split. Qed.
