(* ===== verification/Timeout.v ===== *)
(** * Timeout

    [resilience/timeout.py]: a deadline around a block, over [asyncio.timeout]
    ([Asyncio]).  The code under the deadline is a coroutine: what one asyncio
    task does between its suspensions, with the blocks it enters.  [eval] runs it
    on the clock of the event loop, with the cancellations that other tasks
    request. *)

From S2P Require Import Prelude Errors Asyncio.

Local Open Scope Z_scope.

Section Timeout.
Context {A : Type}.

(** A coroutine: finished; suspended on a future that is done after [d] seconds
    ([None]: never), and resumed with its result or with a [CancelledError]; the
    block [async with timeout: body], and what follows; a [reconfigure]. *)
Inductive coro : Type :=
| Done (r : outcome exn A)
| Suspend (d : option Q) (k : option exn -> coro)
| Within (tm : nat) (body : coro) (k : outcome exn A -> coro)
| Retune (tm : nat) (seconds : Q) (k : coro).

(** [Timeout]: the [seconds] of its snapshot, and [_scopes], whose values are
    stacks (top first) of references to [asyncio.Timeout] objects; the counter
    [grelmicro.timeout.exceeded]. *)
Record Timeout : Type := mkTimeout {
  tm_seconds : Q;
  tm_scopes : gmap nat (list nat);
  tm_exceeded : Z;
}.

(** The clock, the cancel requests of the task, the [asyncio.Timeout] objects,
    the [Timeout] objects, and when others will cancel the task. *)
Record clockwork : Type := mkClockwork {
  cw_now : Q;
  cw_cancels : Z;
  cw_scopes : list timeout_scope;
  cw_timeouts : gmap nat Timeout;
  cw_requests : list Q;
}.

Definition set_timeout (i : nat) (x : Timeout) (w : clockwork) : clockwork :=
  mkClockwork (cw_now w) (cw_cancels w) (cw_scopes w) (<[i := x]> (cw_timeouts w)) (cw_requests w).

(** The running task. *)
Context (me : nat).

(** [__aenter__] *)
Definition timeout_aenter (i : nat) (x : Timeout) (w : clockwork) : clockwork :=
  let scope := timeout_enter (cw_now w) (tm_seconds x) (cw_cancels w) in
  let r := length (cw_scopes w) in
  let stack := match tm_scopes x !! me with None => [r] | Some stack => r :: stack end in
  set_timeout i (mkTimeout (tm_seconds x) (<[me := stack]> (tm_scopes x)) (tm_exceeded x))
    (mkClockwork (cw_now w) (cw_cancels w) (cw_scopes w ++ [scope]) (cw_timeouts w)
       (cw_requests w)).

Definition raised_exn (r : outcome exn A) : option exn :=
  match r with Raise e => Some e | Return _ => None end.

(** [__aexit__]: [None] when there is no scope to pop.  The exception that
    [scope.__aexit__] raises leaves; otherwise the outcome of the block stays. *)
Definition timeout_aexit (i : nat) (x : Timeout) (r : outcome exn A) (w : clockwork) :
    option (outcome exn A * clockwork) :=
  match tm_scopes x !! me with
  | None | Some [] => None
  | Some (ref :: stack) =>
      let scopes := if bool_decide (stack = []) then delete me (tm_scopes x)
                    else <[me := stack]> (tm_scopes x) in
      scope ← cw_scopes w !! ref;
      let '(n, scope', e) := timeout_exit (cw_cancels w) scope (raised_exn r) in
      let x' := mkTimeout (tm_seconds x) scopes
                  (tm_exceeded x + if timeout_expired scope' then 1 else 0) in
      let r' := match e with Some e => Raise e | None => r end in
      Some (r', set_timeout i x'
                  (mkClockwork (cw_now w) n (<[ref := scope']> (cw_scopes w)) (cw_timeouts w)
                     (cw_requests w)))
  end.

(** [_apply_reconfigure] *)
Definition timeout_reconfigure (seconds : Q) (x : Timeout) : Timeout :=
  mkTimeout seconds (tm_scopes x) (tm_exceeded x).

(** *** The event loop *)

Definition earlier (a b : option Q) : option Q :=
  match a, b with
  | Some x, Some y => Some (if (y <? x)%py then y else x)
  | Some x, None => Some x
  | None, b => b
  end.

(** The deadlines that are set, and the first of them. *)
Definition set_deadline (sc : timeout_scope) : option Q :=
  match ts_state sc with Entered => Some (ts_when sc) | _ => None end.

Definition next_alarm (w : clockwork) : option Q :=
  foldr (fun sc a => earlier (set_deadline sc) a) (head (cw_requests w)) (cw_scopes w).

Definition due (t : Q) (sc : timeout_scope) : bool :=
  match set_deadline sc with Some q => (q <=? t)%py | None => false end.

Definition fire (t : Q) (sc : timeout_scope) : timeout_scope :=
  if due t sc then on_timeout sc else sc.

(** The requests made by [t], and the later ones. *)
Fixpoint drop_due (t : Q) (rs : list Q) : list Q :=
  match rs with
  | r :: rs' => if (r <=? t)%py then drop_due t rs' else rs
  | [] => []
  end.

(** The event loop at [t]: every timer that is due cancels the task, and so do
    the requests of the other tasks. *)
Definition ring (t : Q) (w : clockwork) : clockwork :=
  mkClockwork t
    (cw_cancels w + count_if (due t) (cw_scopes w)
       + (Z.of_nat (length (cw_requests w)) - Z.of_nat (length (drop_due t (cw_requests w)))))
    (fire t <$> cw_scopes w) (cw_timeouts w) (drop_due t (cw_requests w)).

Definition at_time (t : Q) (w : clockwork) : clockwork :=
  mkClockwork t (cw_cancels w) (cw_scopes w) (cw_timeouts w) (cw_requests w).

(** A run of the coroutine; [None] when it never ends.  A future and an alarm at
    the same instant: the task resumes with the [CancelledError]. *)
Fixpoint eval (c : coro) (w : clockwork) : option (outcome exn A * clockwork) :=
  match c with
  | Done r => Some (r, w)
  | Suspend d k =>
      match d, next_alarm w with
      | None, None => None
      | Some d, None => eval (k None) (at_time (cw_now w + d) w)
      | Some d, Some a =>
          if (cw_now w + d <? a)%py then eval (k None) (at_time (cw_now w + d) w)
          else eval (k (Some cancelled_error)) (ring (py_max (cw_now w) a) w)
      | None, Some a => eval (k (Some cancelled_error)) (ring (py_max (cw_now w) a) w)
      end
  | Within i body k =>
      x ← cw_timeouts w !! i;
      '(r, w1) ← eval body (timeout_aenter i x w);
      x1 ← cw_timeouts w1 !! i;
      '(r', w2) ← timeout_aexit i x1 r w1;
      eval (k r') w2
  | Retune i seconds k =>
      x ← cw_timeouts w !! i;
      eval k (set_timeout i (timeout_reconfigure seconds x) w)
  end.

(** [Timeout.__call__]: the decorated function. *)
Definition decorated (i : nat) (fn : coro) : coro := Within i fn Done.

(** ** Blocks nest *)

(** No stack of [_scopes] is empty. *)
Definition scopes_ok (w : clockwork) : Prop :=
  forall i x t, cw_timeouts w !! i = Some x -> tm_scopes x !! t <> Some [].

(** [w'] has the same [Timeout] objects with the same stacks. *)
Definition same_stacks (w w' : clockwork) : Prop :=
  forall i, (tm_scopes <$> cw_timeouts w !! i) = (tm_scopes <$> cw_timeouts w' !! i).

Lemma same_stacks_ok w w' : same_stacks w w' -> scopes_ok w -> scopes_ok w'.
Proof.
  intros H Hw i x t Hx. specialize (H i). rewrite Hx in H.
  destruct (cw_timeouts w !! i) as [y|] eqn:Hy; [|done]. injection H as <-. by apply (Hw i).
Qed.

Lemma same_stacks_trans w1 w2 w3 : same_stacks w1 w2 -> same_stacks w2 w3 -> same_stacks w1 w3.
Proof. intros H1 H2 i. by rewrite H1. Qed.

Lemma aenter_ok i x w :
  cw_timeouts w !! i = Some x -> scopes_ok w -> scopes_ok (timeout_aenter i x w).
Proof.
  intros Hx H j y t. unfold timeout_aenter. simpl. intros [[_ <-]|[_ Hy]]%lookup_insert_Some.
  - simpl. destruct (decide (t = me)) as [->|]; [rewrite lookup_insert_eq|].
    + by destruct (tm_scopes x !! me).
    + rewrite lookup_insert_ne by done. by apply (H i).
  - by apply (H j).
Qed.

(** Leaving a block after a body that restored the stacks: the scope that is
    closed is the one the block opened. *)
Lemma aexit_closes i x w w1 r :
  cw_timeouts w !! i = Some x -> scopes_ok w -> same_stacks (timeout_aenter i x w) w1 ->
  is_Some (cw_scopes w1 !! length (cw_scopes w)) ->
  exists x1 sc w2,
    cw_timeouts w1 !! i = Some x1 /\ cw_scopes w1 !! length (cw_scopes w) = Some sc /\
    timeout_aexit i x1 r w1 =
      Some (match (timeout_exit (cw_cancels w1) sc (raised_exn r)).2 with
            | Some e => Raise e | None => r end, w2) /\
    same_stacks w w2 /\ length (cw_scopes w2) = length (cw_scopes w1).
Proof.
  intros Hx Hok Hsame [sc Hsc].
  pose proof (Hsame i) as Hi. simpl in Hi. rewrite lookup_insert_eq in Hi.
  destruct (cw_timeouts w1 !! i) as [x1|] eqn:Hx1; [|done]. simpl in Hi. injection Hi as Hi.
  assert (exists stack, tm_scopes x1 !! me = Some (length (cw_scopes w) :: stack) /\
    (if bool_decide (stack = []) then delete me (tm_scopes x1)
     else <[me := stack]> (tm_scopes x1)) = tm_scopes x) as (stack & Hstack & Hback).
  { rewrite <- Hi, lookup_insert_eq. destruct (tm_scopes x !! me) as [stack|] eqn:Em.
    - exists stack. split; [done|]. rewrite bool_decide_eq_false_2.
      + by rewrite insert_insert_eq, insert_id.
      + intros ->. by apply (Hok i x me).
    - exists []. split; [done|]. simpl. rewrite delete_insert_eq. by apply delete_id. }
  exists x1, sc. unfold timeout_aexit. rewrite Hstack, Hsc. simpl.
  destruct (timeout_exit (cw_cancels w1) sc (raised_exn r)) as [[n sc'] e].
  rewrite Hback. eexists. split_and!; [done|done|done| |].
  - intros j. simpl. destruct (decide (j = i)) as [->|Hj].
    + by rewrite lookup_insert_eq, Hx.
    + rewrite lookup_insert_ne by done. rewrite <- Hsame. simpl. by rewrite lookup_insert_ne.
  - simpl. by rewrite length_insert.
Qed.

Lemma eval_restores c w r w' :
  eval c w = Some (r, w') -> scopes_ok w ->
  same_stacks w w' /\ (length (cw_scopes w) <= length (cw_scopes w'))%nat.
Proof.
  revert w r w'. induction c as [r0|d k IH|i body IHb k IHk|i s k IH]; intros w r w' E Hok; simpl in E.
  - by simplify_eq.
  - assert (Hk : forall e w1, scopes_ok w1 -> eval (k e) w1 = Some (r, w') ->
      same_stacks w w1 -> length (cw_scopes w1) = length (cw_scopes w) ->
      same_stacks w w' /\ (length (cw_scopes w) <= length (cw_scopes w'))%nat).
    { intros e w1 Hok1 E1 Hs Hl. destruct (IH e w1 r w' E1 Hok1) as [H1 H2].
      split; [by eapply same_stacks_trans|lia]. }
    destruct d as [d|], (next_alarm w) as [a|]; try done.
    + destruct (_ <? _)%py; (eapply Hk; [|exact E|done|]; [done|]); simpl; by rewrite ?length_fmap.
    + by eapply Hk; [|exact E|done|].
    + eapply Hk; [|exact E|done|]; [done|]. simpl. by rewrite length_fmap.
  - destruct (cw_timeouts w !! i) as [x|] eqn:Hx; [|done]. simpl in E.
    destruct (eval body (timeout_aenter i x w)) as [[r1 w1]|] eqn:Eb; [|done]. simpl in E.
    destruct (IHb _ _ _ Eb) as [Hs1 Hl1]; [by apply aenter_ok|].
    unfold timeout_aenter in Hl1. simpl in Hl1. rewrite length_app in Hl1. simpl in Hl1.
    destruct (aexit_closes i x w w1 r1 Hx Hok Hs1) as (x1 & sc & w2 & Hx1 & _ & Ex & Hs2 & Hl2).
    { apply lookup_lt_is_Some. lia. }
    rewrite Hx1 in E. simpl in E. rewrite Ex in E. simpl in E.
    apply IHk in E as [Hs3 Hl3]; [|by eapply same_stacks_ok].
    split; [by eapply same_stacks_trans|lia].
  - destruct (cw_timeouts w !! i) as [x|] eqn:Hx; [|done]. simpl in E.
    assert (Hs : same_stacks w (set_timeout i (timeout_reconfigure s x) w)).
    { intros j. simpl. destruct (decide (j = i)) as [->|Hj];
        [by rewrite lookup_insert_eq, Hx|by rewrite lookup_insert_ne]. }
    apply IH in E as [Hs' Hl]; [|by eapply same_stacks_ok].
    split; [by eapply same_stacks_trans|done].
Qed.

(** Blocks of any number of timeouts nest, the same one entered several times
    included: leaving a block never fails to find its scope, closes exactly the
    scope that this block opened, and so raises what [asyncio.timeout] raises for
    it; the stacks of every task are then what they were before the block. *)
Lemma block_closes_its_scope i x body w r1 w1 :
  cw_timeouts w !! i = Some x -> scopes_ok w ->
  eval body (timeout_aenter i x w) = Some (r1, w1) ->
  exists sc w2,
    cw_scopes w1 !! length (cw_scopes w) = Some sc /\
    eval (decorated i body) w =
      Some (match (timeout_exit (cw_cancels w1) sc (raised_exn r1)).2 with
            | Some e => Raise e | None => r1 end, w2) /\
    same_stacks w w2.
Proof.
  intros Hx Hok E.
  destruct (eval_restores _ _ _ _ E) as [Hs Hl]; [by apply aenter_ok|].
  unfold timeout_aenter in Hl. simpl in Hl. rewrite length_app in Hl. simpl in Hl.
  destruct (aexit_closes i x w w1 r1 Hx Hok Hs) as (x1 & sc & w2 & Hx1 & Hsc & Ex & Hs2 & _).
  { apply lookup_lt_is_Some. lia. }
  exists sc, w2. split; [done|]. split; [|done].
  simpl. rewrite Hx. simpl. rewrite E. simpl. rewrite Hx1. simpl. by rewrite Ex.
Qed.

(** ** One deadline *)

(** A coroutine that lets the cancellation through, and opens no block. *)
Inductive simple : coro -> Prop :=
| simple_done r : simple (Done r)
| simple_suspend d k :
    (forall q, d = Some q -> (0 <= q)%Q) -> k (Some cancelled_error) = Done (Raise cancelled_error) ->
    simple (k None) -> simple (Suspend d k).

(** What it does when nothing disturbs it: its outcome and the instant; [None]
    when it never ends. *)
Fixpoint alone (c : coro) (now : Q) : option (outcome exn A * Q) :=
  match c with
  | Done r => Some (r, now)
  | Suspend (Some d) k => alone (k None) (now + d)
  | _ => None
  end.

Lemma alone_later c now r t : simple c -> alone c now = Some (r, t) -> (now <= t)%Q.
Proof.
  intros H. revert now. induction H as [r0|d k Hd Hk Hs IH]; simpl; intros now E.
  - simplify_eq. apply Qle_refl.
  - destruct d as [d|]; [|done]. specialize (Hd d eq_refl). apply IH in E. lra.
Qed.

(** The run of a simple coroutine up to the first alarm. *)
Lemma eval_simple c w a :
  simple c -> next_alarm w = Some a -> (cw_now w < a)%Q ->
  eval c w =
    match alone c (cw_now w) with
    | Some (r, t) => if (t <? a)%py then Some (r, at_time t w)
                     else Some (Raise cancelled_error, ring a w)
    | None => Some (Raise cancelled_error, ring a w)
    end.
Proof.
  intros H Ha Hlt. revert w Ha Hlt. induction H as [r0|d k Hd Hk Hs IH]; intros w Ha Hlt; simpl.
  - destruct (Qlt_bool_spec (cw_now w) a); [by destruct w|lra].
  - rewrite Ha, Hk. simpl.
    assert (Hmax : py_max (cw_now w) a = a).
    { destruct (py_max_cases (cw_now w) a) as [[_ E]|[E _]]; [done|lra]. }
    rewrite Hmax. destruct d as [d|]; [|done]. specialize (Hd d eq_refl).
    destruct (Qlt_bool_spec (cw_now w + d) a) as [Hda|Hda].
    + rewrite (IH (at_time (cw_now w + d) w)) by done. simpl.
      by destruct (alone (k None) (cw_now w + d)) as [[r t]|].
    + destruct (alone (k None) (cw_now w + d)) as [[r t]|] eqn:E; [|done].
      pose proof (alone_later _ _ _ _ Hs E). destruct (Qlt_bool_spec t a); [lra|done].
Qed.

(** No deadline is set but the one of the block. *)
Definition no_deadline (w : clockwork) : Prop :=
  Forall (fun sc => set_deadline sc = None) (cw_scopes w).

Lemma alarm_of_block i x w :
  no_deadline w ->
  next_alarm (timeout_aenter i x w) =
    Some match head (cw_requests w) with
         | Some c => if (c <? cw_now w + tm_seconds x)%py then c else (cw_now w + tm_seconds x)%Q
         | None => (cw_now w + tm_seconds x)%Q
         end.
Proof.
  intros H. unfold next_alarm, timeout_aenter. simpl. rewrite foldr_app.
  assert (forall l b, Forall (fun sc => set_deadline sc = None) l ->
    foldr (fun sc a => earlier (set_deadline sc) a) b l = b) as ->; [|by destruct (cw_requests w)|done].
  intros l b. induction 1 as [|sc l Hsc _ IH]; [done|]. simpl. by rewrite Hsc, IH.
Qed.

Lemma count_due_none t l :
  Forall (fun sc => set_deadline sc = None) l -> count_if (due t) l = 0.
Proof.
  induction 1 as [|sc l Hsc _ IH]; [done|]. rewrite count_if_cons, IH. unfold due. by rewrite Hsc.
Qed.

(** The number of requests made by [t]. *)
Lemma requests_due t rs :
  0 <= Z.of_nat (length rs) - Z.of_nat (length (drop_due t rs)) /\
  (0 < Z.of_nat (length rs) - Z.of_nat (length (drop_due t rs)) <->
   exists c, head rs = Some c /\ (c <= t)%Q).
Proof.
  assert (Hle : (length (drop_due t rs) <= length rs)%nat).
  { induction rs as [|r rs IH]; simpl; [done|]. destruct (r <=? t)%py; simpl; lia. }
  split; [lia|]. destruct rs as [|r rs]; simpl.
  - split; [lia|by intros (c & ? & _)].
  - destruct (Qle_bool_spec r t) as [H|H].
    + assert (length (drop_due t rs) <= length rs)%nat; [|split; [by exists r|lia]].
      clear. induction rs as [|r' rs IH]; simpl; [done|]. destruct (r' <=? t)%py; simpl; lia.
    + split; [simpl; lia|]. intros (c & [= <-] & Hc). lra.
Qed.

Definition exceeded (i : nat) (w : clockwork) : Z :=
  default 0 (tm_exceeded <$> cw_timeouts w !! i).

(** The deadline of a call, and the first alarm: the deadline, or somebody who
    cancels the call before. *)
Definition call_deadline (x : Timeout) (w : clockwork) : Q := (cw_now w + tm_seconds x)%Q.

Definition first_alarm (x : Timeout) (w : clockwork) : Q :=
  match head (cw_requests w) with
  | Some c => if (c <? call_deadline x w)%py then c else call_deadline x w
  | None => call_deadline x w
  end.

(** Nobody cancels the call up to its deadline. *)
Definition undisturbed (x : Timeout) (w : clockwork) : bool :=
  match head (cw_requests w) with Some c => (call_deadline x w <? c)%py | None => true end.

(** The first alarm is the deadline alone, the deadline together with requests, or
    a request; [k] is the number of requests made by then. *)
Lemma alarm_cases x w k :
  0 <= k -> (0 < k <-> exists c, head (cw_requests w) = Some c /\ (c <= first_alarm x w)%Q) ->
  (undisturbed x w = true /\ (call_deadline x w <= first_alarm x w)%Q /\ k = 0) \/
  (undisturbed x w = false /\ (call_deadline x w <= first_alarm x w)%Q /\ 0 < k) \/
  (undisturbed x w = false /\ (first_alarm x w < call_deadline x w)%Q).
Proof.
  unfold first_alarm, undisturbed. set (D := call_deadline x w). intros Hk Hiff.
  destruct (head (cw_requests w)) as [c|].
  - destruct (Qlt_bool_spec c D), (Qlt_bool_spec D c); try lra; [left|right; left].
    + split_and!; [done|lra|]. destruct (decide (0 < k)) as [Hp|]; [|lia].
      apply Hiff in Hp as (c' & [= <-] & ?). lra.
    + split_and!; [done|lra|]. apply Hiff. exists c. split; [done|lra].
  - left. split_and!; [done|lra|]. destruct (decide (0 < k)) as [Hp|]; [|lia].
    by apply Hiff in Hp as (c' & ? & ?).
Qed.

(** The block's scope when the body ends. *)
Lemma decorated_eval i x body w r1 w1 :
  cw_timeouts w !! i = Some x -> scopes_ok w ->
  eval body (timeout_aenter i x w) = Some (r1, w1) ->
  cw_timeouts w1 = cw_timeouts (timeout_aenter i x w) ->
  forall sc, cw_scopes w1 !! length (cw_scopes w) = Some sc ->
  exists w2, eval (decorated i body) w =
      Some (match (timeout_exit (cw_cancels w1) sc (raised_exn r1)).2 with
            | Some e => Raise e | None => r1 end, w2) /\
    cw_now w2 = cw_now w1 /\
    exceeded i w2 = exceeded i w +
      if timeout_expired (timeout_exit (cw_cancels w1) sc (raised_exn r1)).1.2 then 1 else 0.
Proof.
  intros Hx Hok E Ht sc Hsc. simpl. rewrite Hx. simpl. rewrite E. simpl. rewrite Ht. simpl.
  rewrite lookup_insert_eq. simpl. unfold timeout_aexit. simpl. rewrite lookup_insert_eq.
  destruct (tm_scopes x !! me); simpl; rewrite Hsc; simpl;
    (destruct (timeout_exit (cw_cancels w1) sc (raised_exn r1)) as [[n sc'] e]);
    (eexists; split; [done|]); simpl; unfold exceeded; simpl; rewrite lookup_insert_eq, Hx; done.
Qed.

(** A function under a timeout, called when no other deadline is set, whether it
    would end or not.  If it ends before the first alarm, its outcome is the
    outcome, at its own instant, and the counter stays.  Otherwise the call ends
    at the first alarm: with [TimeoutError] when nobody cancels the call up to the
    deadline, else with [CancelledError], never turned into a [TimeoutError]; and
    the counter goes up by one exactly when the deadline has passed. *)
Lemma timeout_outcome i x fn w :
  simple fn -> no_deadline w -> cw_timeouts w !! i = Some x -> scopes_ok w ->
  (0 < tm_seconds x)%Q -> 0 <= cw_cancels w ->
  (forall c, head (cw_requests w) = Some c -> (cw_now w < c)%Q) ->
  exists r w', eval (decorated i fn) w = Some (r, w') /\
    let stopped :=
      r = Raise (if undisturbed x w then timeout_error else cancelled_error) /\
      cw_now w' = first_alarm x w /\
      exceeded i w' = exceeded i w +
        if (first_alarm x w <? call_deadline x w)%py then 0 else 1 in
    match alone fn (cw_now w) with
    | Some (r0, t) =>
        if (t <? first_alarm x w)%py
        then r = r0 /\ cw_now w' = t /\ exceeded i w' = exceeded i w else stopped
    | None => stopped
    end.
Proof.
  intros Hs Hno Hx Hok Hpos Hc Hreq.
  pose proof (alarm_of_block i x w Hno) as Ha. fold (call_deadline x w) in Ha.
  fold (first_alarm x w) in Ha. set (a := first_alarm x w) in *. set (D := call_deadline x w) in *.
  assert (Hlt : (cw_now w < a)%Q).
  { unfold a, first_alarm. fold D. assert (cw_now w < D)%Q by (unfold D, call_deadline; lra).
    destruct (head (cw_requests w)) as [c|]; [|done].
    destruct (c <? D)%py; [by apply Hreq|done]. }
  pose proof (eval_simple fn (timeout_aenter i x w) a Hs Ha Hlt) as E.
  set (we := timeout_aenter i x w) in *. change (cw_now we) with (cw_now w) in E.
  assert (Hscope : cw_scopes we !! length (cw_scopes w) =
    Some (timeout_enter (cw_now w) (tm_seconds x) (cw_cancels w))).
  { simpl. by rewrite lookup_app_r, Nat.sub_diag. }
  assert (Hstop : eval fn we = Some (Raise cancelled_error, ring a we) ->
    exists r w', eval (decorated i fn) w = Some (r, w') /\
      r = Raise (if undisturbed x w then timeout_error else cancelled_error) /\
      cw_now w' = a /\ exceeded i w' = exceeded i w + if (a <? D)%py then 0 else 1).
  { intros Er.
    destruct (decorated_eval i x fn w _ _ Hx Hok Er eq_refl
      (fire a (timeout_enter (cw_now w) (tm_seconds x) (cw_cancels w)))) as (w2 & E2 & Hn & He).
    { cbn [ring cw_scopes]. by rewrite list_lookup_fmap, Hscope. }
    do 2 eexists. split; [exact E2|]. rewrite Hn, He. clear E2 Hn He.
    assert (Hcount : cw_cancels (ring a we) = cw_cancels w + (if (D <=? a)%py then 1 else 0) +
      (Z.of_nat (length (cw_requests w)) - Z.of_nat (length (drop_due a (cw_requests w))))).
    { simpl. rewrite count_if_app, count_due_none, count_if_cons by done. fold D.
      change (due a _) with (D <=? a)%py. change (count_if (due a) []) with 0. lia. }
    rewrite Hcount. destruct (requests_due a (cw_requests w)) as [Hrd Hiff].
    set (k := Z.of_nat _ - Z.of_nat _) in *. clearbody k.
    unfold fire. change (due a _) with (D <=? a)%py.
    pose proof (alarm_cases x w k Hrd Hiff) as Hcase. fold a D in Hcase.
    destruct (Qlt_bool_spec a D), (Qle_bool_spec D a); try lra;
      destruct Hcase as [(-> & ? & ?)|[(-> & ? & ?)|(-> & ?)]]; try lra; simpl;
      unfold uncancel; try (destruct (Z.ltb_spec 0 (cw_cancels w + 1 + k)); [|lia]);
      destruct (Z.leb_spec (cw_cancels w + 1 + k - 1) (cw_cancels w)); try lia;
      simpl; split_and!; try done; lia. }
  destruct (alone fn (cw_now w)) as [[r0 t]|]; [|by apply Hstop].
  destruct (Qlt_bool_spec t a) as [Hta|]; [|by apply Hstop].
  destruct (decorated_eval i x fn w _ _ Hx Hok E eq_refl _ Hscope) as (w2 & E2 & Hn & He).
  do 2 eexists. split; [exact E2|]. rewrite Hn, He. simpl. split_and!; [by destruct r0|done|lia].
Qed.
End Timeout.

(** ** Concrete runs *)

(** Sleep for [d] seconds, or for ever, then return [v]. *)
Definition sleeper (d : option Q) (v : nat) : coro :=
  Suspend d (fun e => match e with Some e => Done (Raise e) | None => Done (Return v) end).

Definition five_seconds : Timeout := mkTimeout 5 ∅ 0.
Definition idle_clock (requests : list Q) : clockwork :=
  mkClockwork 10 0 [] {[0%nat := five_seconds]} requests.

Lemma idle_clock_ok requests : scopes_ok (idle_clock requests).
Proof.
  intros i x t H. simpl in H. apply lookup_singleton_Some in H as [_ <-]. simpl. by rewrite lookup_empty.
Qed.

(** A function that never ends is ended at the deadline. *)
Lemma timeout_outcome_witness :
  exists r w', eval 1 (decorated 0 (sleeper None 3)) (idle_clock [20%Q]) = Some (r, w') /\
    r = Raise timeout_error /\ cw_now w' = 15%Q /\ exceeded 0 w' = 1.
Proof.
  destruct (timeout_outcome 1 0 five_seconds (sleeper None 3) (idle_clock [20%Q]))
    as (r & w' & E & H).
  - constructor; [done|done|constructor].
  - constructor.
  - reflexivity.
  - apply idle_clock_ok.
  - reflexivity.
  - discriminate.
  - intros c [= <-]. reflexivity.
  - exists r, w'. split; [exact E|]. exact H.
Defined.

(** The same timeout, entered twice: the inner block is closed first. *)
Lemma block_closes_its_scope_witness :
  let inner := decorated 0 (sleeper (Some 1%Q) 3) in
  exists w1 sc w2,
    eval 1 inner (timeout_aenter 1 0 five_seconds (idle_clock [])) = Some (Return 3%nat, w1) /\
    cw_scopes w1 !! 0%nat = Some sc /\
    eval 1 (decorated 0 inner) (idle_clock []) = Some (Return 3%nat, w2) /\
    same_stacks (idle_clock []) w2.
Proof.
  cbv zeta. eexists.
  destruct (block_closes_its_scope 1 0 five_seconds (decorated 0 (sleeper (Some 1%Q) 3))
    (idle_clock []) (Return 3%nat) _ eq_refl (idle_clock_ok []) eq_refl) as (sc & w2 & Hsc & E & Hs).
  exists sc, w2. split; [reflexivity|]. split; [exact Hsc|]. split; [|exact Hs].
  vm_compute in Hsc. injection Hsc as <-. exact E.
Defined.
