(* ===== verification/Fallback.v ===== *)
(** * Fallback

    [resilience/fallback.py]: a value in place of an exception that matches, as a
    decorator and as a block; and the [when=] argument, which [Retry] and
    [Fallback] read in the same way ([resilience/retry.py]). *)

From S2P Require Import Prelude Errors PyStr Match.
From Stdlib Require Import Ascii String.

Section Fallback.
Context {V : Type}.

(** An attribute of a module, and [import_module]: [None] is
    [ModuleNotFoundError], then [AttributeError]. *)
Inductive module_attr : Type := AttrClass (c : exn_class) | AttrOther.
Context (import_module : string -> option (string -> option module_attr)).

(** An item of a sequence given as [when=]. *)
Inductive when_item : Type :=
| ItemClass (c : exn_class)
| ItemCallable (p : exn -> bool)
| ItemName (fqn : string)
| ItemOther.

(** [json_loads] of a string that starts with a bracket. *)
Context (json_items : string -> outcome exn (list when_item)).

Definition value_error : exn := mk_exn ValueError NoInfo.

(** [s.rpartition(sep)]: what is before the last separator, and after it. *)
Fixpoint rpartition (sep : ascii) (s : string) : option (string * string) :=
  match s with
  | EmptyString => None
  | String c s =>
      match rpartition sep s with
      | Some (a, b) => Some (String c a, b)
      | None => if Ascii.eqb c sep then Some (EmptyString, s) else None
      end
  end.

(** [_resolve_fqn] *)
Definition resolve_fqn (fqn : string) : outcome exn exn_class :=
  match rpartition "." fqn with
  | None | Some (EmptyString, _) => Raise value_error
  | Some (module_path, name) =>
      match import_module module_path with
      | None => Raise value_error
      | Some attrs =>
          match attrs name with
          | None => Raise value_error
          | Some (AttrClass c) => if issubclass c Exception_ then Return c else Raise type_error
          | Some AttrOther => Raise type_error
          end
      end
  end.

(** [item.strip()] *)
Definition strip_spaces (s : string) : string := drop_trailing_spaces (drop_spaces s).

(** [parse_csv_or_json] of a string. *)
Definition parse_csv_or_json (value : string) : outcome exn (list when_item) :=
  let s := strip_spaces value in
  if String.prefix "[" s then json_items s
  else Return (ItemName <$> filter (fun x => x <> ""%string) (strip_spaces <$> split_on "," s)).

(** The arguments of [Match.exception], names resolved in order; an object that
    is neither a class nor callable is refused there like a class outside
    [Exception]. *)
Fixpoint match_args (items : list when_item) : outcome exn (list exception_arg) :=
  match items with
  | [] => Return []
  | item :: items =>
      match
        match item with
        | ItemClass c => Return (AClass c)
        | ItemCallable p => Return (APredicate p)
        | ItemName fqn => match resolve_fqn fqn with
                          | Return c => Return (AClass c) | Raise e => Raise e end
        | ItemOther => Return (AClass BaseException)
        end
      with
      | Raise e => Raise e
      | Return a => match match_args items with
                    | Return args => Return (a :: args) | Raise e => Raise e end
      end
  end.

Definition match_items (items : list when_item) : outcome exn (Match (V := V)) :=
  match match_args items with
  | Return args => match_exception args
  | Raise e => Raise e
  end.

(** What may be given as [when=]. *)
Inductive when_input : Type :=
| WhenMatch (m : Match (V := V))
| WhenClass (c : exn_class)
| WhenCallable (p : exn -> bool)
| WhenString (s : string)
| WhenList (items : list when_item)
| WhenTuple (items : list when_item)
| WhenOther.

(** [all(isinstance(item, type) and issubclass(item, Exception) ...)] *)
Definition exception_class (i : when_item) : bool :=
  match i with ItemClass c => issubclass c Exception_ | _ => false end.

(** [_coerce_to_match]; a class outside [Exception] is callable, and refused by
    [Match.exception]. *)
Definition coerce_to_match (value : when_input) : outcome exn (Match (V := V)) :=
  match value with
  | WhenClass c => match_exception [AClass c]
  | WhenTuple items =>
      if forallb exception_class items then match_items items else Raise type_error
  | WhenCallable p => match_exception [APredicate p]
  | _ => Raise type_error
  end.

(** [_coerce_when] *)
Definition coerce_when (value : when_input) : outcome exn (Match (V := V)) :=
  match value with
  | WhenMatch m => Return m
  | WhenString s =>
      match parse_csv_or_json s with
      | Return items => match_items items
      | Raise e => Raise e
      end
  | WhenList items => match_items items
  | WhenTuple items =>
      if forallb exception_class items then coerce_to_match value else match_items items
  | _ => coerce_to_match value
  end.

(** [FallbackConfig]; [default] is [None] for [_UNSET], and the outcome of
    [factory] is an argument of the model. *)
Record FallbackConfig : Type := mkFallbackConfig {
  fb_when : Match (V := V);
  fb_default : option V;
  fb_factory : option (exn -> outcome exn V);
}.

(** [model_validate] with its two validators: [_coerce_when], then
    [_check_mutual_exclusion]. *)
Definition make_config (w : when_input) (default : option V)
    (factory : option (exn -> outcome exn V)) : outcome exn FallbackConfig :=
  match coerce_when w with
  | Raise e => Raise e
  | Return m =>
      match default, factory with
      | Some _, Some _ | None, None => Raise value_error
      | _, _ => Return (mkFallbackConfig m default factory)
      end
  end.

(** [_resolve_config] without the environment: a pre-built configuration, or
    the keyword arguments. *)
Definition resolve_fallback_config (w : option when_input) (default : option V)
    (factory : option (exn -> outcome exn V)) (config : option FallbackConfig) :
    outcome exn FallbackConfig :=
  match config with
  | Some c =>
      match w, default, factory with
      | None, None, None => Return c
      | _, _, _ => Raise type_error
      end
  | None =>
      match w with
      | Some w => make_config w default factory
      | None => Raise value_error
      end
  end.

(** [_resolve_value]; [none] is never the value of a valid configuration. *)
Definition resolve_value (c : FallbackConfig) (none : V) (e : exn) : outcome exn V :=
  match fb_factory c with
  | Some f => f e
  | None => Return (default none (fb_default c))
  end.

Context (none : V).

(** The wrappers of [Fallback.__call__] and [fallback], around a call with an
    outcome; the snapshot is read before the call. *)
Definition run_fallback (c : FallbackConfig) (call : outcome exn V) : outcome exn V :=
  match call with
  | Return v => Return v
  | Raise e =>
      if negb (is_exception e) then Raise e
      else if negb (fb_when c (Raise e)) then Raise e
      else resolve_value c none e
  end.

(** [FallbackResult] *)
Record FallbackResult : Type := mkFallbackResult { fr_value : V; fr_was_set : bool }.

Definition new_result : FallbackResult := mkFallbackResult none false.
Definition set_result (v : V) (r : FallbackResult) : FallbackResult := mkFallbackResult v true.

(** [FallbackResult.value] *)
Definition result_value (r : FallbackResult) : outcome exn V :=
  if fr_was_set r then Return (fr_value r) else Raise (mk_exn RuntimeError NoInfo).

(** [_FallbackBlock._handle_exit]: whether the exception is suppressed; an
    exception of the factory escapes. *)
Definition fallback_handle_exit (c : FallbackConfig) (exc : option exn) (r : FallbackResult) :
    outcome exn bool * FallbackResult :=
  match exc with
  | None => (Return false, r)
  | Some e =>
      if negb (is_exception e) then (Return false, r)
      else if negb (fb_when c (Raise e)) then (Return false, r)
      else match resolve_value c none e with
           | Raise e' => (Raise e', r)
           | Return v => (Return true, set_result v r)
           end
  end.

(** [with falling_back(...) as result: body], then [result.value]. *)
Definition run_falling_back (c : FallbackConfig)
    (body : FallbackResult -> outcome exn unit * FallbackResult) : outcome exn V :=
  let '(o, r) := body new_result in
  match o with
  | Return _ =>
      let '(_, r) := fallback_handle_exit c None r in result_value r
  | Raise e =>
      match fallback_handle_exit c (Some e) r with
      | (Raise e', _) => Raise e'
      | (Return true, r) => result_value r
      | (Return false, _) => Raise e
      end
  end.

(** A body that sets the result, maybe several times, and ends. *)
Definition block_body (sets : list V) (last : outcome exn V) (r : FallbackResult) :
    outcome exn unit * FallbackResult :=
  let r := foldl (fun r v => set_result v r) r sets in
  match last with
  | Return v => (Return tt, set_result v r)
  | Raise e => (Raise e, r)
  end.

(** ** Theory *)

(** The block form does what the decorator does: a block that sets its result,
    however often, and then raises or sets it a last time, gives the value or the
    exception that the decorated function gives; what the block had set before it
    failed never survives into the fallback. *)
Lemma falling_back_is_fallback c (sets : list V) (last : outcome exn V) :
  run_falling_back c (block_body sets last) = run_fallback c last.
Proof.
  unfold run_falling_back, block_body, run_fallback. destruct last as [v|e]; [done|].
  simpl. destruct (is_exception e); simpl; [|done]. destruct (fb_when c (Raise e)); simpl; [|done].
  by destruct (resolve_value c none e).
Qed.

Lemma strip_no_space s : string_forall (fun c => negb (is_space c)) s = true -> strip_spaces s = s.
Proof.
  intros H. assert (drop_spaces s = s) as Hd.
  { destruct s as [|c s]; [done|]. simpl in *. apply andb_prop in H as [H _].
    by destruct (is_space c). }
  unfold strip_spaces. rewrite Hd. clear Hd. induction s as [|c s IH]; [done|]. simpl in *.
  apply andb_prop in H as [Hc H]. rewrite (IH H). destruct s; [|done]. by destruct (is_space c).
Qed.

(** A dotted name of the environment form: no space, no comma, no bracket. *)
Definition plain_name (s : string) : bool :=
  string_forall (fun c => negb (is_space c)) s && free_of "," s && free_of "[" s &&
  negb (bool_decide (s = ""%string)).

Lemma plain_names_parse names :
  names <> [] -> Forall (fun s => plain_name s = true) names ->
  parse_csv_or_json (String.concat "," names) = Return (ItemName <$> names).
Proof.
  intros Hne H. rewrite Forall_forall in H.
  assert (Hall : forall s, s ∈ names -> string_forall (fun c => negb (is_space c)) s = true /\
    free_of "," s = true /\ free_of "[" s = true /\ s <> ""%string).
  { intros s Hs. specialize (H s Hs). unfold plain_name in H.
    apply andb_prop in H as [[[H1 H2]%andb_prop H3]%andb_prop H4].
    split_and!; try done. apply negb_true_iff, bool_decide_eq_false in H4. done. }
  unfold parse_csv_or_json. rewrite strip_no_space.
  2: { apply string_forall_concat; [done|]. apply Forall_forall. intros s Hs. by apply Hall. }
  assert (free_of "[" (String.concat "," names) = true) as Hb.
  { apply string_forall_concat; [done|]. apply Forall_forall. intros s Hs. by apply Hall. }
  replace (String.prefix "[" _) with false.
  2: { destruct (String.concat "," names) as [|c s]; [done|]. unfold String.prefix.
       destruct (ascii_dec "[" c) as [<-|]; [discriminate Hb|done]. }
  rewrite split_on_concat; [|done|apply Forall_forall; intros s Hs; by apply Hall].
  f_equal. f_equal. clear Hb H Hne. induction names as [|s names IH]; [done|].
  destruct (Hall s) as (Hs & _ & _ & Hn); [by left|]. rewrite fmap_cons, strip_no_space by done.
  rewrite filter_cons_True by done. f_equal. apply IH. intros s' Hs'. apply Hall. by right.
Qed.

Lemma match_names names cs :
  Forall2 (fun s c => resolve_fqn s = Return c) names cs ->
  match_args (ItemName <$> names) = Return (AClass <$> cs).
Proof. induction 1 as [|s c names cs Hs _ IH]; [done|]. cbn. by rewrite Hs, IH. Qed.

Lemma match_classes cs : match_args (ItemClass <$> cs) = Return (AClass <$> cs).
Proof. induction cs as [|c cs IH]; [done|]. cbn. by rewrite IH. Qed.

Lemma all_classes_of cs :
  Forall (fun c => issubclass c Exception_ = true) cs ->
  all_classes Exception_ (AClass <$> cs) = Some cs /\
  forallb exception_class (ItemClass <$> cs) = true.
Proof. induction 1 as [|c cs Hc _ [IH1 IH2]]; [done|]. cbn. by rewrite Hc, IH1, IH2. Qed.

(** Resolved names are exception classes. *)
Lemma resolve_fqn_exception s c : resolve_fqn s = Return c -> issubclass c Exception_ = true.
Proof.
  unfold resolve_fqn. destruct (rpartition "." s) as [[[|a p] n]|]; try done.
  destruct (import_module _) as [attrs|]; [|done]. destruct (attrs n) as [[d|]|]; try done.
  destruct (issubclass d Exception_) eqn:E; [|done]. congruence.
Qed.

(** The three ways to name exception classes in [when=] (a tuple of classes, a
    list, and the environment's comma separated dotted names) are one filter, and
    the fallback it gives takes exactly the exceptions of these classes: a result
    passes through, an exception of another class is raised again, and so is one
    that is no [Exception] ([CancelledError], [KeyboardInterrupt]), whatever the
    classes are. *)
Lemma when_shorthands_agree names cs (default : option V) factory cfg :
  names <> [] -> Forall (fun s => plain_name s = true) names ->
  Forall2 (fun s c => resolve_fqn s = Return c) names cs ->
  make_config (WhenString (String.concat "," names)) default factory = Return cfg ->
  make_config (WhenTuple (ItemClass <$> cs)) default factory = Return cfg /\
  make_config (WhenList (ItemClass <$> cs)) default factory = Return cfg /\
  (forall v, run_fallback cfg (Return v) = Return v) /\
  forall e, run_fallback cfg (Raise e) =
    if isinstance_any e cs then resolve_value cfg none e else Raise e.
Proof.
  intros Hne Hplain Hres E.
  assert (Hcs : Forall (fun c => issubclass c Exception_ = true) cs).
  { clear Hne Hplain E. induction Hres as [|s c names cs Hs _ IH]; constructor; [|done].
    by eapply resolve_fqn_exception. }
  assert (Hcne : cs <> []) by (intros ->; inversion Hres; by subst).
  destruct (all_classes_of cs Hcs) as [Hall Hfor].
  assert (Hm : match_exception (V := V) (AClass <$> cs) = Return (fun o => match o with
    | Raise e => isinstance_any e cs | Return _ => false end)).
  { destruct cs as [|c cs]; [done|]. unfold match_exception. cbn [fmap list_fmap] in *.
    rewrite Hall. by destruct cs. }
  assert (Hcfg : forall w, coerce_when w = match_exception (AClass <$> cs) ->
    make_config w default factory = Return cfg).
  { intros w Hw. unfold make_config in *. rewrite Hw. cbn in E. rewrite plain_names_parse in E by done.
    unfold match_items in E. by rewrite (match_names _ _ Hres) in E. }
  split_and!.
  - apply Hcfg. cbn. rewrite !Hfor. unfold match_items. by rewrite match_classes.
  - apply Hcfg. cbn. unfold match_items. by rewrite match_classes.
  - done.
  - intros e. unfold make_config in E. cbn in E. rewrite plain_names_parse in E by done.
    unfold match_items in E. rewrite (match_names _ _ Hres), Hm in E.
    assert (fb_when cfg = fun o => match o with
      | Raise e => isinstance_any e cs | Return _ => false end) as Hw.
    { destruct default, factory; by simplify_eq. }
    unfold run_fallback. rewrite Hw. destruct (isinstance_any e cs) eqn:Ei.
    + replace (is_exception e) with true; [done|]. symmetry.
      apply existsb_exists in Ei as (c & Hc%list_elem_of_In & He).
      rewrite Forall_forall in Hcs. unfold is_exception, isinstance in *.
      eapply issubclass_trans; [exact He|by apply Hcs].
    + by destruct (is_exception e).
Qed.
End Fallback.

(** ** A concrete environment *)

(** A module [app.errors] with two classes and a constant. *)
Definition app_module (m : string) : option (string -> option module_attr) :=
  if String.eqb m "app.errors" then
    Some (fun name =>
      if String.eqb name "Timeout" then Some (AttrClass (UserError 1 TimeoutError))
      else if String.eqb name "Missing" then Some (AttrClass (UserError 2 KeyError))
      else if String.eqb name "LIMIT" then Some AttrOther else None)
  else None.

Definition no_json (s : string) : outcome exn (list when_item) := Raise value_error.

Lemma when_shorthands_agree_witness :
  exists cfg,
    make_config app_module no_json (WhenString "app.errors.Timeout,app.errors.Missing")
      (Some 0%nat) None = Return cfg /\
    make_config app_module no_json
      (WhenList (ItemClass <$> [UserError 1 TimeoutError; UserError 2 KeyError]))
      (Some 0%nat) None = Return cfg /\
    run_fallback 7%nat cfg (Raise (mk_exn (UserError 2 KeyError) NoInfo)) = Return 0%nat /\
    run_fallback 7%nat cfg (Raise (mk_exn CancelledError NoInfo))
      = Raise (mk_exn CancelledError NoInfo).
Proof.
  eexists. split; [reflexivity|].
  destruct (when_shorthands_agree app_module no_json 7%nat
    ["app.errors.Timeout"; "app.errors.Missing"]%string
    [UserError 1 TimeoutError; UserError 2 KeyError] (Some 0%nat) None _
    ltac:(discriminate) ltac:(repeat constructor) ltac:(repeat constructor) eq_refl)
    as (_ & H2 & _ & H4).
  split; [exact H2|]. split; [exact (H4 (mk_exn (UserError 2 KeyError) NoInfo))|].
  exact (H4 (mk_exn CancelledError NoInfo)).
Defined.
