(* ===== verification/Kubernetes.v ===== *)
(** * Kubernetes coordination adapters

    [coordination/kubernetes.py]: locks and leader elections kept in Lease
    objects of a Kubernetes API server.  The server is not part of the package:
    it is given by the class [LeaseApi], with the optimistic concurrency that its
    documentation states.  A method of an adapter reads a Lease, decides, and
    writes; other clients act between the read and the write, so a method is a
    plan made at the read and a write that carries it out. *)

From S2P Require Import Prelude Errors CoordinationMemory.
From Stdlib Require Import Ascii.
From stdpp Require Import pretty.

Local Open Scope list_scope.
Local Open Scope Z_scope.

(** ** Lease names *)

Definition MAX_NAME_LENGTH : nat := 253.

Definition char_between (lo hi c : ascii) : bool :=
  (nat_of_ascii lo <=? nat_of_ascii c)%nat && (nat_of_ascii c <=? nat_of_ascii hi)%nat.

Definition lower_alnum (c : ascii) : bool := char_between "a" "z" c || char_between "0" "9" c.

(** [str.lower] on one character; names are ASCII text here. *)
Definition lower_ascii (c : ascii) : ascii :=
  if char_between "A" "Z" c then ascii_of_nat (nat_of_ascii c + 32) else c.

(** [_INVALID_CHARS.sub("-", ...)] *)
Definition valid_or_hyphen (c : ascii) : ascii := if lower_alnum c then c else "-"%char.

(** [_CONSECUTIVE_HYPHENS.sub("-", ...)] *)
Fixpoint squeeze (s : list ascii) : list ascii :=
  match s with
  | [] => []
  | c :: s =>
      match squeeze s with
      | d :: s' => if (Ascii.eqb c "-" && Ascii.eqb d "-")%char then d :: s' else c :: d :: s'
      | [] => [c]
      end
  end.

(** [s.strip("-")] *)
Fixpoint strip_left (s : list ascii) : list ascii :=
  match s with
  | c :: s' => if Ascii.eqb c "-" then strip_left s' else s
  | [] => []
  end.
Definition strip_hyphens (s : list ascii) : list ascii := reverse (strip_left (reverse (strip_left s))).

(** [_sanitize_lease_name] *)
Definition sanitize_lease_name (name : string) : outcome exn string :=
  let s := squeeze ((fun c => valid_or_hyphen (lower_ascii c)) <$> String.list_ascii_of_string name) in
  let s := strip_hyphens (take MAX_NAME_LENGTH s) in
  match s with
  | [] => Raise (mk_exn ValueError NoInfo)
  | _ => Return (String.string_of_list_ascii s)
  end.

(** What RFC 1123 asks of a label in a resource name. *)
Definition rfc1123 (s : list ascii) : Prop :=
  Forall (fun c => lower_alnum c = true \/ c = "-"%char) s /\
  (length s <= MAX_NAME_LENGTH)%nat /\
  (exists c, head s = Some c /\ lower_alnum c = true) /\
  exists c, last s = Some c /\ lower_alnum c = true.

Lemma valid_or_hyphen_ok c :
  lower_alnum (valid_or_hyphen c) = true \/ valid_or_hyphen c = "-"%char.
Proof. unfold valid_or_hyphen. destruct (lower_alnum c) eqn:E; auto. Qed.

Lemma squeeze_forall (P : ascii -> Prop) s : Forall P s -> Forall P (squeeze s).
Proof.
  induction 1 as [|c s Hc _ IH]; [done|]. simpl.
  destruct (squeeze s) as [|d s']; [by constructor|]. by destruct (_ && _); [|constructor].
Qed.

Lemma strip_left_suffix s : exists a, s = a ++ strip_left s.
Proof.
  induction s as [|c s [a IH]]; [by exists []|]. simpl.
  destruct (Ascii.eqb c "-"); [|by exists []]. exists (c :: a). simpl. by rewrite <- IH.
Qed.

Lemma strip_left_head s c s' : strip_left s = c :: s' -> c <> "-"%char.
Proof.
  induction s as [|d s IH]; simpl; [done|]. destruct (Ascii.eqb_spec d "-"); [done|].
  by intros [= <- <-].
Qed.

Lemma strip_sub s : exists a b, s = a ++ strip_hyphens s ++ b.
Proof.
  unfold strip_hyphens. destruct (strip_left_suffix s) as [a Ha].
  destruct (strip_left_suffix (reverse (strip_left s))) as [b Hb]. exists a, (reverse b).
  rewrite Ha at 1. f_equal. rewrite <- reverse_app. by rewrite <- Hb, reverse_involutive.
Qed.

Lemma strip_last s : match last (strip_hyphens s) with Some c => c <> "-"%char | None => True end.
Proof.
  unfold strip_hyphens. destruct (strip_left (reverse (strip_left s))) as [|c l] eqn:E; [done|].
  rewrite reverse_cons, last_snoc. by eapply strip_left_head.
Qed.

Lemma strip_head s : match head (strip_hyphens s) with Some c => c <> "-"%char | None => True end.
Proof.
  unfold strip_hyphens. destruct (strip_left_suffix (reverse (strip_left s))) as [b Hb].
  destruct (strip_left s) as [|c l] eqn:E; [done|]. pose proof (strip_left_head _ _ _ E) as Hc.
  destruct (reverse (strip_left (reverse (c :: l)))) as [|d m] eqn:Er; [done|]. simpl.
  assert (c :: l = (d :: m) ++ reverse b) as Heq.
  { by rewrite <- Er, <- reverse_app, <- Hb, reverse_involutive. }
  injection Heq as -> _. done.
Qed.

Lemma sanitized_is_valid name s :
  sanitize_lease_name name = Return s -> rfc1123 (String.list_ascii_of_string s).
Proof.
  unfold sanitize_lease_name.
  set (l := squeeze _). assert (Hl : Forall (fun c => lower_alnum c = true \/ c = "-"%char) l).
  { apply squeeze_forall, Forall_fmap, Forall_forall. intros c _. apply valid_or_hyphen_ok. }
  set (m := strip_hyphens (take MAX_NAME_LENGTH l)).
  destruct (strip_sub (take MAX_NAME_LENGTH l)) as (a & b & Hab). fold m in Hab.
  pose proof (strip_head (take MAX_NAME_LENGTH l)) as Hh.
  pose proof (strip_last (take MAX_NAME_LENGTH l)) as Ht. fold m in Hh, Ht.
  assert (Hm : Forall (fun c => lower_alnum c = true \/ c = "-"%char) m).
  { pose proof (Forall_take _ MAX_NAME_LENGTH _ Hl) as H. rewrite Hab in H.
    by apply Forall_app in H as [_ [H _]%Forall_app]. }
  assert (Hlen : (length m <= MAX_NAME_LENGTH)%nat).
  { pose proof (length_take l MAX_NAME_LENGTH) as H. rewrite Hab, !length_app in H. lia. }
  destruct m as [|c m'] eqn:Em; [done|]. intros [= <-].
  change (rfc1123 (String.list_ascii_of_string (String.string_of_list_ascii (c :: m')))).
  rewrite String.list_ascii_of_string_of_list_ascii. split_and!; [done..| |].
  - exists c. split; [done|]. apply Forall_cons in Hm as [[?|?] _]; [done|]. by simpl in Hh.
  - destruct (last (c :: m')) as [d|] eqn:El; [|by apply last_None in El]. exists d. split; [done|].
    apply last_Some in El as [l' El]. rewrite El in Hm. apply Forall_app in Hm as [_ Hm].
    apply Forall_cons in Hm as [[?|?] _]; done.
Qed.

(** Names of locks that differ only in their punctuation or case share a Lease. *)
Lemma lease_names_collide :
  sanitize_lease_name "lock:billing_eu" = sanitize_lease_name "lock:billing.EU".
Proof. reflexivity. Qed.

(** ** The API server *)

(** [lightkube]'s [LeaseSpec]; instants are seconds. *)
Record LeaseSpec : Type := mkLeaseSpec {
  holderIdentity : option string;
  leaseDurationSeconds : option Z;
  acquireTime : option Q;
  renewTime : option Q;
  leaseTransitions : option Z;
}.

(** A namespaced name. *)
Abbreviation lease_key := (string * string)%type.

(** [lightkube]'s [Lease] with the part of [ObjectMeta] that the code uses. *)
Record KubeLease : Type := mkKubeLease {
  kl_key : lease_key;
  resourceVersion : option string;
  kl_labels : gmap string string;
  kl_annotations : option (gmap string string);
  kl_spec : option LeaseSpec;
}.

Definition with_version (v : string) (l : KubeLease) : KubeLease :=
  mkKubeLease (kl_key l) (Some v) (kl_labels l) (kl_annotations l) (kl_spec l).

(** What a call of the client can raise: the [ApiError] of an HTTP status, or
    an exception of the package. *)
Inductive kexn : Type :=
| ApiError (code : Z)
| Pkg (e : exn).

Definition NOT_FOUND : Z := 404.
Definition CONFLICT : Z := 409.

(** A request on the objects of a server: what it did to them, or that a request
    whose answer was lost may have done it. *)
Definition took_effect {A} (r : outcome kexn A) (done_ unchanged : Prop) : Prop :=
  match r with
  | Return _ => done_
  | Raise (ApiError code) =>
      if bool_decide (code = NOT_FOUND \/ code = CONFLICT) then unchanged else unchanged \/ done_
  | Raise (Pkg _) => unchanged \/ done_
  end.

(** The API server, with its optimistic concurrency: a write gives the object a
    resource version that was never used before (an update that changes nothing
    keeps the old one), and an update that names a version is carried out only on
    an object that still has it. *)
Class LeaseApi (S : Type) := {
  api_get : lease_key -> S -> outcome kexn KubeLease * S;
  api_list : string -> gmap string string -> S -> outcome kexn (list KubeLease) * S;
  api_create : KubeLease -> S -> outcome kexn unit * S;
  api_replace : KubeLease -> S -> outcome kexn unit * S;
  api_delete : lease_key -> S -> outcome kexn unit * S;
  api_view : S -> gmap lease_key KubeLease;
  api_seen : S -> string -> Prop;
  api_stored s k l : api_view s !! k = Some l ->
    kl_key l = k /\ exists v, resourceVersion l = Some v /\ api_seen s v;
  api_get_spec k s : let '(r, s') := api_get k s in
    api_view s' = api_view s /\ (forall v, api_seen s' v <-> api_seen s v) /\
    match r with
    | Return l => api_view s !! k = Some l
    | Raise (ApiError code) => code = NOT_FOUND -> api_view s !! k = None
    | Raise (Pkg _) => True
    end;
  api_list_spec ns labels s : let '(r, s') := api_list ns labels s in
    api_view s' = api_view s /\ (forall v, api_seen s' v <-> api_seen s v) /\
    match r with
    | Return ls => forall l, l ∈ ls <->
        api_view s !! kl_key l = Some l /\ (kl_key l).1 = ns /\ labels ⊆ kl_labels l
    | Raise _ => True
    end;
  api_create_spec l s : let '(r, s') := api_create l s in
    took_effect r
      (exists v, ~ api_seen s v /\ api_view s !! kl_key l = None /\
         api_view s' = <[kl_key l := with_version v l]> (api_view s) /\
         forall u, api_seen s' u <-> u = v \/ api_seen s u)
      (api_view s' = api_view s /\ forall v, api_seen s' v <-> api_seen s v);
  api_replace_spec l v s : resourceVersion l = Some v -> let '(r, s') := api_replace l s in
    took_effect r
      (exists old v', api_view s !! kl_key l = Some old /\ resourceVersion old = Some v /\
         (api_seen s v' -> with_version v' l = old) /\
         api_view s' = <[kl_key l := with_version v' l]> (api_view s) /\
         forall u, api_seen s' u <-> u = v' \/ api_seen s u)
      (api_view s' = api_view s /\ forall v, api_seen s' v <-> api_seen s v);
  api_delete_spec k s : let '(r, s') := api_delete k s in
    took_effect r
      (is_Some (api_view s !! k) /\ api_view s' = delete k (api_view s) /\
       forall v, api_seen s' v <-> api_seen s v)
      (api_view s' = api_view s /\ forall v, api_seen s' v <-> api_seen s v);
}.

(** ** What the adapters share *)

Definition MANAGED_BY : gmap string string := {["app.kubernetes.io/managed-by" := "grelmicro"]}.

Definition ANNOTATION_PREFIX : string := "grelmicro.io/".

(** [key[len(prefix):]] of the keys that start with the prefix *)
Fixpoint strip_prefix (p s : string) : option string :=
  match p, s with
  | EmptyString, _ => Some s
  | String a p, String b s => if Ascii.eqb a b then strip_prefix p s else None
  | String _ _, EmptyString => None
  end.

(** [_annotations_to_metadata] *)
Definition annotations_to_metadata (annotations : option (gmap string string)) :
    gmap string string :=
  match annotations with
  | None => ∅
  | Some m =>
      list_to_map (omap (fun '(key, value) => (., value) <$> strip_prefix ANNOTATION_PREFIX key)
        (map_to_list m))
  end.

(** [_metadata_to_annotations] *)
Definition metadata_to_annotations (metadata : gmap string string) : gmap string string :=
  kmap (fun key => (ANNOTATION_PREFIX +:+ key)) metadata.

(** An adapter object; [k_open] tells whether [_client] is set. *)
Record KubeAdapter : Type := mkKubeAdapter {
  k_namespace : string;
  k_prefix : string;
  k_open : bool;
}.

(** [_get_kube_namespace]; the setting is read from the environment. *)
Definition get_kube_namespace (KUBE_NAMESPACE : option string) : outcome exn string :=
  match KUBE_NAMESPACE with
  | Some ns => if decide (ns = "") then Raise (mk_exn CoordinationSettingsValidationError NoInfo)
               else Return ns
  | None => Raise (mk_exn CoordinationSettingsValidationError NoInfo)
  end.

(** [__init__]: [namespace or _get_kube_namespace()] *)
Definition kube_adapter (namespace KUBE_NAMESPACE : option string) (prefix : string) :
    outcome exn KubeAdapter :=
  match namespace with
  | Some ns => if decide (ns = "")
               then match get_kube_namespace KUBE_NAMESPACE with
                    | Return ns => Return (mkKubeAdapter ns prefix false)
                    | Raise e => Raise e
                    end
               else Return (mkKubeAdapter ns prefix false)
  | None => match get_kube_namespace KUBE_NAMESPACE with
            | Return ns => Return (mkKubeAdapter ns prefix false)
            | Raise e => Raise e
            end
  end.

(** [__aenter__]; and [__aexit__] of the election adapter. *)
Definition k8s_open (a : KubeAdapter) : KubeAdapter :=
  mkKubeAdapter (k_namespace a) (k_prefix a) true.
Definition k8s_leader_close (a : KubeAdapter) : KubeAdapter :=
  mkKubeAdapter (k_namespace a) (k_prefix a) false.

(** The key of a name, or what the start of each method raises. *)
Definition k_lease_key (a : KubeAdapter) (name : string) : outcome kexn lease_key :=
  if k_open a then
    match sanitize_lease_name (k_prefix a +:+ name) with
    | Return ln => Return (k_namespace a, ln)
    | Raise e => Raise (Pkg e)
    end
  else Raise (Pkg (mk_exn OutOfContextError NoInfo)).

(** [_get_expire_at]; the truth value of a [datetime] is true. *)
Definition get_expire_at (lease : KubeLease) : option Q :=
  match kl_spec lease with
  | Some spec =>
      match renewTime spec, leaseDurationSeconds spec with
      | Some t, Some d => Some (t + inject_Z d)%Q
      | _, _ => None
      end
  | None => None
  end.

(** [lease.spec.holderIdentity if lease.spec else None] *)
Definition current_holder (lease : KubeLease) : option string :=
  match kl_spec lease with Some spec => holderIdentity spec | None => None end.

(** [spec.leaseTransitions if spec and spec.leaseTransitions else 0] *)
Definition current_transitions (lease : KubeLease) : Z :=
  match kl_spec lease with Some spec => default 0 (leaseTransitions spec) | None => 0 end.

(** [expire_at is not None and expire_at >= now] *)
Definition unexpired (lease : KubeLease) (now : Q) : bool :=
  match get_expire_at lease with Some e => (e >=? now)%py | None => false end.

(** ** [KubernetesLockAdapter] *)

(** The object that [_create_lease] sends. *)
Definition created_lease (key : lease_key) (token : string) (duration now : Q) : KubeLease :=
  mkKubeLease key None MANAGED_BY None
    (Some (mkLeaseSpec (Some token) (Some (Qceiling duration)) (Some now) (Some now) (Some 1))).

(** The new [leaseTransitions] of [_replace_lease]. *)
Definition replace_fence (existing : KubeLease) (token : string) (live : bool)
    (holder : option string) : Z :=
  if live && bool_decide (holder = Some token) then current_transitions existing
  else current_transitions existing + 1.

(** The object that [_replace_lease] sends. *)
Definition replaced_lease (a : KubeAdapter) (existing : KubeLease) (token : string)
    (duration : Q) (live : bool) (holder : option string) (now : Q) : KubeLease :=
  mkKubeLease (k_namespace a, (kl_key existing).2) (resourceVersion existing) MANAGED_BY None
    (Some (mkLeaseSpec (Some token) (Some (Qceiling duration)) (Some now) (Some now)
             (Some (replace_fence existing token live holder)))).

(** The object that [_vacate_lease] sends. *)
Definition vacated_lease (a : KubeAdapter) (existing : KubeLease) : KubeLease :=
  mkKubeLease (k_namespace a, (kl_key existing).2) (resourceVersion existing) MANAGED_BY None
    (Some (mkLeaseSpec None None None None (Some (current_transitions existing)))).

(** [e.status.code == code] *)
Definition has_status (e : kexn) (code : Z) : bool :=
  match e with ApiError c => bool_decide (c = code) | Pkg _ => false end.

(** What a method decided at its read: a write to carry out, with the arguments
    of the private method that carries it out. *)
Inductive lock_plan : Type :=
| CreateLease (key : lease_key) (token : string) (duration now : Q)
| ReplaceLease (existing : KubeLease) (token : string) (duration : Q) (live : bool)
    (holder : option string) (now : Q)
| VacateLease (existing : KubeLease).

Lemma strip_prefix_app p s : strip_prefix p (p +:+ s) = Some s.
Proof. induction p as [|c p IH]; simpl; [done|]. by rewrite Ascii.eqb_refl. Qed.

#[export] Instance annotation_key_inj : Inj (=) (=) (fun key => ANNOTATION_PREFIX +:+ key).
Proof.
  intros x y Heq. pose proof (strip_prefix_app ANNOTATION_PREFIX x) as Hx.
  rewrite Heq, strip_prefix_app in Hx. by injection Hx.
Qed.

(** The metadata of a record survives its way through the annotations. *)
Lemma metadata_roundtrip m : annotations_to_metadata (Some (metadata_to_annotations m)) = m.
Proof.
  unfold annotations_to_metadata, metadata_to_annotations.
  set (f := fun kv : string * string => _).
  assert (Hp : omap f (map_to_list (kmap (fun key => ANNOTATION_PREFIX +:+ key) m : gmap string string))
    ≡ₚ map_to_list m).
  { rewrite map_to_list_kmap by apply _. induction (map_to_list m) as [|[k v] l IH]; [done|].
    cbn [fmap list_fmap omap list_omap]. unfold f at 1. cbn [prod_map].
    rewrite strip_prefix_app. simpl. by rewrite IH. }
  rewrite <- (list_to_map_to_list m) at 2. apply list_to_map_proper; [|done].
  rewrite Hp. apply NoDup_fst_map_to_list.
Qed.

(** ** [KubernetesLeaderElectionAdapter] *)

(** [_lease_to_record] *)
Definition lease_to_record (lease : KubeLease) : option LeaderRecord :=
  match kl_spec lease with
  | Some (mkLeaseSpec (Some holder) (Some d) (Some acquired) (Some renewed) transitions) =>
      Some (mkLeaderRecord holder (inject_Z d) acquired renewed (default 0 transitions)
              (annotations_to_metadata (kl_annotations lease)))
  | _ => None
  end.

(** [_is_live] *)
Definition is_live (record : LeaderRecord) (now : Q) : bool :=
  (now <? lr_renewed_at record + lr_lease_duration record)%py.

(** The record that [_create] writes and returns. *)
Definition created_record (token : string) (duration : Q) (metadata : gmap string string)
    (now : Q) : LeaderRecord :=
  mkLeaderRecord token (inject_Z (Qceiling duration)) now now 0 metadata.

(** The record that [_replace] writes, unless the lease of another is live:
    that record is then the answer. *)
Definition next_record (lease : KubeLease) (token : string) (duration : Q)
    (metadata : gmap string string) (now : Q) : LeaderRecord + LeaderRecord :=
  let record acquired transitions :=
    mkLeaderRecord token (inject_Z (Qceiling duration)) acquired now transitions metadata in
  match lease_to_record lease with
  | Some current =>
      if is_live current now then
        if decide (lr_holder current <> token) then inl current
        else inr (record (lr_acquired_at current) (lr_transitions current))
      else if decide (lr_holder current <> token)
      then inr (record now (lr_transitions current + 1))
      else inr (record now (lr_transitions current))
  | None => inr (record now 0)
  end.

(** The object for a record; [version] is unset on creation. *)
Definition record_lease (key : lease_key) (version : option string) (duration : Q)
    (record : LeaderRecord) : KubeLease :=
  mkKubeLease key version MANAGED_BY (Some (metadata_to_annotations (lr_metadata record)))
    (Some (mkLeaseSpec (Some (lr_holder record)) (Some (Qceiling duration))
             (Some (lr_acquired_at record)) (Some (lr_renewed_at record))
             (Some (lr_transitions record)))).

(** [_empty_record] *)
Definition empty_record (now : Q) : LeaderRecord := mkLeaderRecord "" 0 now now 0 ∅.

(** What [acquire_or_renew] decided at its read. *)
Inductive leader_plan : Type :=
| CreateRecord (key : lease_key) (token : string) (duration : Q) (metadata : gmap string string)
    (now : Q)
| ReplaceRecord (lease : KubeLease) (duration : Q) (record : LeaderRecord).

Section Adapters.
Context {S : Type} `{LeaseApi S}.

(** [_create_lease] *)
Definition create_lease (key : lease_key) (token : string) (duration now : Q) :
    py S kexn (option Z) := fun s =>
  match api_create (created_lease key token duration now) s with
  | (Return _, s) => (Return (Some 1), s)
  | (Raise e, s) => if has_status e CONFLICT then (Return None, s) else (Raise e, s)
  end.

(** [_replace_lease] *)
Definition replace_lease (a : KubeAdapter) (existing : KubeLease) (token : string)
    (duration : Q) (live : bool) (holder : option string) (now : Q) :
    py S kexn (option Z) := fun s =>
  match api_replace (replaced_lease a existing token duration live holder now) s with
  | (Return _, s) => (Return (Some (replace_fence existing token live holder)), s)
  | (Raise e, s) => if has_status e CONFLICT then (Return None, s) else (Raise e, s)
  end.

(** [_vacate_lease] *)
Definition vacate_lease (a : KubeAdapter) (existing : KubeLease) : py S kexn bool := fun s =>
  match api_replace (vacated_lease a existing) s with
  | (Return _, s) => (Return true, s)
  | (Raise e, s) =>
      if has_status e NOT_FOUND || has_status e CONFLICT then (Return false, s) else (Raise e, s)
  end.

(** [get] inside [try]: an object, [None] when there is none, or the error. *)
Definition try_get (key : lease_key) (s : S) : outcome kexn (option KubeLease) * S :=
  match api_get key s with
  | (Return lease, s) => (Return (Some lease), s)
  | (Raise e, s) => if has_status e NOT_FOUND then (Return None, s) else (Raise e, s)
  end.

(** [acquire] up to its write; [now1] is read before the request. *)
Definition acquire_read (a : KubeAdapter) (name token : string) (duration now1 now2 : Q) :
    py S kexn (option Z + lock_plan) := fun s =>
  match k_lease_key a name with
  | Raise e => (Raise e, s)
  | Return key =>
      match try_get key s with
      | (Raise e, s) => (Raise e, s)
      | (Return None, s) => (Return (inr (CreateLease key token duration now2)), s)
      | (Return (Some lease), s) =>
          let holder := current_holder lease in
          let live := unexpired lease now1 in
          if live && bool_decide (holder <> Some token) then (Return (inl None), s)
          else (Return (inr (ReplaceLease lease token duration live holder now2)), s)
      end
  end.

(** [release] up to its write *)
Definition release_read (a : KubeAdapter) (name token : string) (now : Q) :
    py S kexn (bool + lock_plan) := fun s =>
  match k_lease_key a name with
  | Raise e => (Raise e, s)
  | Return key =>
      match try_get key s with
      | (Raise e, s) => (Raise e, s)
      | (Return None, s) => (Return (inl false), s)
      | (Return (Some lease), s) =>
          if bool_decide (current_holder lease <> Some token) || negb (unexpired lease now)
          then (Return (inl false), s)
          else (Return (inr (VacateLease lease)), s)
      end
  end.

Definition carry_out (a : KubeAdapter) (p : lock_plan) : py S kexn (option Z + bool) := fun s =>
  match p with
  | CreateLease key token d now =>
      match create_lease key token d now s with
      | (Return v, s) => (Return (inl v), s) | (Raise e, s) => (Raise e, s)
      end
  | ReplaceLease lease token d live holder now =>
      match replace_lease a lease token d live holder now s with
      | (Return v, s) => (Return (inl v), s) | (Raise e, s) => (Raise e, s)
      end
  | VacateLease lease =>
      match vacate_lease a lease s with
      | (Return v, s) => (Return (inr v), s) | (Raise e, s) => (Raise e, s)
      end
  end.

(** [acquire], when nobody comes between its two requests. *)
Definition k8s_acquire (a : KubeAdapter) (name token : string) (duration now1 now2 : Q) :
    py S kexn (option Z) := fun s =>
  match acquire_read a name token duration now1 now2 s with
  | (Raise e, s) => (Raise e, s)
  | (Return (inl r), s) => (Return r, s)
  | (Return (inr p), s) =>
      match carry_out a p s with
      | (Return (inl r), s) => (Return r, s)
      | (Return (inr _), s) => (Return None, s)
      | (Raise e, s) => (Raise e, s)
      end
  end.

(** [release], when nobody comes between its two requests. *)
Definition k8s_release (a : KubeAdapter) (name token : string) (now : Q) : py S kexn bool := fun s =>
  match release_read a name token now s with
  | (Raise e, s) => (Raise e, s)
  | (Return (inl r), s) => (Return r, s)
  | (Return (inr (VacateLease lease)), s) => vacate_lease a lease s
  | (Return (inr _), s) => (Return false, s)
  end.

(** [locked]; the clock is read after the request. *)
Definition k8s_locked (a : KubeAdapter) (name : string) (now : Q) : py S kexn bool := fun s =>
  match k_lease_key a name with
  | Raise e => (Raise e, s)
  | Return key =>
      match try_get key s with
      | (Raise e, s) => (Raise e, s)
      | (Return None, s) => (Return false, s)
      | (Return (Some lease), s) => (Return (unexpired lease now), s)
      end
  end.

(** [owned] *)
Definition k8s_owned (a : KubeAdapter) (name token : string) (now : Q) : py S kexn bool := fun s =>
  match k_lease_key a name with
  | Raise e => (Raise e, s)
  | Return key =>
      match try_get key s with
      | (Raise e, s) => (Raise e, s)
      | (Return None, s) => (Return false, s)
      | (Return (Some lease), s) =>
          (Return (bool_decide (current_holder lease = Some token) && unexpired lease now), s)
      end
  end.

(** The leases that [__aexit__] vacates, of those in the listing. *)
Definition swept (now : Q) (lease : KubeLease) : bool :=
  bool_decide (is_Some (current_holder lease)) &&
  match get_expire_at lease with Some e => (e <? now)%py | None => false end.

Fixpoint vacate_all (a : KubeAdapter) (ls : list KubeLease) : py S kexn unit := fun s =>
  match ls with
  | [] => (Return tt, s)
  | l :: ls =>
      match vacate_lease a l s with
      | (Return _, s) => vacate_all a ls s
      | (Raise e, s) => (Raise e, s)
      end
  end.

(** [__aexit__], with the adapter it leaves: an error keeps it open. *)
Definition k8s_close (a : KubeAdapter) (now : Q) (s : S) : (outcome kexn unit * KubeAdapter) * S :=
  if k_open a then
    match api_list (k_namespace a) MANAGED_BY s with
    | (Raise e, s) => (Raise e, a, s)
    | (Return ls, s) =>
        match vacate_all a (base.filter (fun l => swept now l = true) ls) s with
        | (Raise e, s) => (Raise e, a, s)
        | (Return _, s) => (Return tt, mkKubeAdapter (k_namespace a) (k_prefix a) false, s)
        end
    end
  else (Return tt, a, s).

(** [_reread]; [now] is read by [_empty_record] only. *)
Definition reread (key : lease_key) (now : Q) : py S kexn LeaderRecord := fun s =>
  match try_get key s with
  | (Raise e, s) => (Raise e, s)
  | (Return None, s) => (Return (empty_record now), s)
  | (Return (Some lease), s) => (Return (default (empty_record now) (lease_to_record lease)), s)
  end.

(** [_create], and [_replace] from its write on; [now'] is read after a lost
    race. *)
Definition leader_write (a : KubeAdapter) (p : leader_plan) (now' : Q) :
    py S kexn LeaderRecord := fun s =>
  match p with
  | CreateRecord key token d metadata now =>
      let record := created_record token d metadata now in
      match api_create (record_lease key None d record) s with
      | (Return _, s) => (Return record, s)
      | (Raise e, s) => if has_status e CONFLICT then reread key now' s else (Raise e, s)
      end
  | ReplaceRecord lease d record =>
      let key := (k_namespace a, (kl_key lease).2) in
      match api_replace (record_lease key (resourceVersion lease) d record) s with
      | (Return _, s) => (Return record, s)
      | (Raise e, s) => if has_status e CONFLICT then reread key now' s else (Raise e, s)
      end
  end.

(** [acquire_or_renew] up to its write; [now] is read after the request. *)
Definition leader_read (a : KubeAdapter) (name token : string) (duration : Q)
    (metadata : option (gmap string string)) (now : Q) : py S kexn (LeaderRecord + leader_plan) :=
  fun s =>
  let meta := default ∅ metadata in
  match k_lease_key a name with
  | Raise e => (Raise e, s)
  | Return key =>
      match try_get key s with
      | (Raise e, s) => (Raise e, s)
      | (Return None, s) => (Return (inr (CreateRecord key token duration meta now)), s)
      | (Return (Some lease), s) =>
          match next_record lease token duration meta now with
          | inl current => (Return (inl current), s)
          | inr record => (Return (inr (ReplaceRecord lease duration record)), s)
          end
      end
  end.

(** [acquire_or_renew], when nobody comes between its requests. *)
Definition k8s_acquire_or_renew (a : KubeAdapter) (name token : string) (duration : Q)
    (metadata : option (gmap string string)) (now now' : Q) : py S kexn LeaderRecord := fun s =>
  match leader_read a name token duration metadata now s with
  | (Raise e, s) => (Raise e, s)
  | (Return (inl r), s) => (Return r, s)
  | (Return (inr p), s) => leader_write a p now' s
  end.

(** [release] up to its deletion: the key to delete, or the answer. *)
Definition leader_release_read (a : KubeAdapter) (name token : string) (now : Q) :
    py S kexn (bool + lease_key) := fun s =>
  match k_lease_key a name with
  | Raise e => (Raise e, s)
  | Return key =>
      match try_get key s with
      | (Raise e, s) => (Raise e, s)
      | (Return None, s) => (Return (inl false), s)
      | (Return (Some lease), s) =>
          match lease_to_record lease with
          | Some record =>
              if decide (lr_holder record = token /\ is_live record now = true)
              then (Return (inr key), s) else (Return (inl false), s)
          | None => (Return (inl false), s)
          end
      end
  end.

(** The deletion names no version. *)
Definition leader_delete (key : lease_key) : py S kexn bool := fun s =>
  match api_delete key s with
  | (Return _, s) => (Return true, s)
  | (Raise e, s) => if has_status e NOT_FOUND then (Return false, s) else (Raise e, s)
  end.

Definition k8s_leader_release (a : KubeAdapter) (name token : string) (now : Q) :
    py S kexn bool := fun s =>
  match leader_release_read a name token now s with
  | (Raise e, s) => (Raise e, s)
  | (Return (inl r), s) => (Return r, s)
  | (Return (inr key), s) => leader_delete key s
  end.

(** [get] *)
Definition k8s_leader_get (a : KubeAdapter) (name : string) (now : Q) :
    py S kexn (option LeaderRecord) := fun s =>
  match k_lease_key a name with
  | Raise e => (Raise e, s)
  | Return key =>
      match try_get key s with
      | (Raise e, s) => (Raise e, s)
      | (Return None, s) => (Return None, s)
      | (Return (Some lease), s) =>
          match lease_to_record lease with
          | Some record => (Return (if is_live record now then Some record else None), s)
          | None => (Return None, s)
          end
      end
  end.

(** ** Reads and writes among those of other clients *)

(** A request of anybody. *)
Inductive api_step : S -> S -> Prop :=
| DoGet k s : api_step s (api_get k s).2
| DoList ns labels s : api_step s (api_list ns labels s).2
| DoCreate l s : api_step s (api_create l s).2
| DoReplace l v s : resourceVersion l = Some v -> api_step s (api_replace l s).2
| DoDelete k s : api_step s (api_delete k s).2.

(** An object that is there later with a version seen before was there before. *)
Definition api_later (s s' : S) : Prop :=
  (forall v, api_seen s v -> api_seen s' v) /\
  forall k l v, api_view s' !! k = Some l -> resourceVersion l = Some v -> api_seen s v ->
    api_view s !! k = Some l.

#[export] Instance api_later_preorder : PreOrder api_later.
Proof.
  split; [done|]. intros s1 s2 s3 [Hs1 Hl1] [Hs2 Hl2]. split; [auto|].
  intros k l v Hv Hr Hs. eauto.
Qed.

Lemma api_later_same s s' :
  api_view s' = api_view s -> (forall v, api_seen s' v <-> api_seen s v) -> api_later s s'.
Proof. intros Hv Hs. split; [intros v; apply Hs|]. intros k l v. by rewrite Hv. Qed.

Lemma api_later_insert s s' k v (l : KubeLease) :
  (api_seen s v -> api_view s !! k = Some (with_version v l)) ->
  api_view s' = <[k := with_version v l]> (api_view s) ->
  (forall u, api_seen s' u <-> u = v \/ api_seen s u) -> api_later s s'.
Proof.
  intros Hf Hv Hs. split; [intros u Hu; apply Hs; auto|].
  intros k' l' u. rewrite Hv. destruct (decide (k = k')) as [<-|Hne].
  - rewrite lookup_insert_eq. by intros [= <-] [= <-].
  - by rewrite lookup_insert_ne.
Qed.

Lemma took_effect_or {A} (r : outcome kexn A) (D U : Prop) : took_effect r D U -> U \/ D.
Proof. destruct r as [|[|]]; simpl; [auto| |auto]. case_bool_decide; auto. Qed.

Lemma took_effect_mono {A} (r : outcome kexn A) (D D' U U' : Prop) :
  (D -> D') -> (U -> U') -> took_effect r D U -> took_effect r D' U'.
Proof.
  intros HD HU. destruct r as [|[|]]; simpl; [auto| |tauto]. case_bool_decide; tauto.
Qed.

Lemma took_effect_status {A} (e : kexn) (D U : Prop) code :
  has_status e code = true -> code = NOT_FOUND \/ code = CONFLICT ->
  took_effect (Raise e : outcome kexn A) D U -> U.
Proof.
  destruct e as [c|]; simpl; [|done]. intros Hc%bool_decide_eq_true. subst c. intros Hc.
  by rewrite bool_decide_eq_true_2.
Qed.

Lemma api_step_later s s' : api_step s s' -> api_later s s'.
Proof.
  destruct 1 as [k s|ns labels s|l s|l v s Hv|k s].
  - pose proof (api_get_spec k s) as H1. destruct (api_get k s) as [r s'].
    destruct H1 as (? & ? & _). by apply api_later_same.
  - pose proof (api_list_spec ns labels s) as H1. destruct (api_list ns labels s) as [r s'].
    destruct H1 as (? & ? & _). by apply api_later_same.
  - pose proof (api_create_spec l s) as H1. destruct (api_create l s) as [r s']. simpl.
    destruct (took_effect_or _ _ _ H1) as [[? ?]|(v & Hf & _ & Hw & Hs)]; [by apply api_later_same|].
    eapply api_later_insert; done.
  - pose proof (api_replace_spec l v s Hv) as H1. destruct (api_replace l s) as [r s']. simpl.
    destruct (took_effect_or _ _ _ H1) as [[? ?]|(old & v' & Ho & _ & Hf & Hw & Hs)];
      [by apply api_later_same|].
    eapply api_later_insert; [|done..]. intros Hv'. by rewrite (Hf Hv').
  - pose proof (api_delete_spec k s) as H1. destruct (api_delete k s) as [r s']. simpl.
    destruct (took_effect_or _ _ _ H1) as [[? ?]|(_ & Hw & Hs)]; [by apply api_later_same|].
    split; [intros v; apply Hs|]. intros k' l v. rewrite Hw. by intros [_ ?]%lookup_delete_Some.
Qed.

Lemma api_steps_later s s' : rtc api_step s s' -> api_later s s'.
Proof. induction 1 as [|s s1 s' H1 _ IH]; [done|]. etrans; [by apply api_step_later|done]. Qed.

(** The object was read from the server, now or before. *)
Definition read_before (s : S) (lease : KubeLease) : Prop :=
  exists v, resourceVersion lease = Some v /\ api_seen s v /\
    forall l, api_view s !! kl_key lease = Some l -> resourceVersion l = Some v -> l = lease.

Lemma read_before_later s s' lease : api_later s s' -> read_before s lease -> read_before s' lease.
Proof.
  intros [Hs Hl] (v & Hv & Hsv & Hu). exists v. split_and!; [done|auto|].
  intros l Hl' Hr. apply Hu; [by eapply Hl|done].
Qed.

Lemma try_get_spec key s r s' :
  try_get key s = (r, s') ->
  api_step s s' /\ api_view s' = api_view s /\
  match r with
  | Return (Some lease) => api_view s !! key = Some lease /\ kl_key lease = key /\
                           read_before s' lease
  | Return None => api_view s !! key = None
  | Raise _ => True
  end.
Proof.
  unfold try_get. pose proof (api_get_spec key s) as H1. pose proof (DoGet key s) as Hstep.
  destruct (api_get key s) as [[lease|e] s1]; simpl in *; destruct H1 as (Hv & Hs & Hr).
  - intros [= <- <-]. destruct (api_stored _ _ _ Hr) as (Hk & v & Hrv & Hsv). split_and!; try done.
    exists v. split_and!; [done|by apply Hs|]. intros l. rewrite Hv, Hk. congruence.
  - destruct (has_status e NOT_FOUND) eqn:E; intros [= <- <-]; split_and!; try done.
    destruct e as [c|]; [|done]. apply bool_decide_eq_true in E. by apply Hr.
Qed.

(** *** What a plan does *)

Definition plan_object (a : KubeAdapter) (p : lock_plan) : KubeLease :=
  match p with
  | CreateLease key token d now => created_lease key token d now
  | ReplaceLease lease token d live holder now => replaced_lease a lease token d live holder now
  | VacateLease lease => vacated_lease a lease
  end.

Definition plan_result (p : lock_plan) : option Z + bool :=
  match p with
  | CreateLease _ _ _ _ => inl (Some 1)
  | ReplaceLease lease token _ live holder _ => inl (Some (replace_fence lease token live holder))
  | VacateLease _ => inr true
  end.

(** The object a plan replaces; [None] when it creates one. *)
Definition plan_reads (p : lock_plan) : option KubeLease :=
  match p with
  | CreateLease _ _ _ _ => None
  | ReplaceLease lease _ _ _ _ _ | VacateLease lease => Some lease
  end.

Definition plan_ok (a : KubeAdapter) (s : S) (p : lock_plan) : Prop :=
  match plan_reads p with
  | Some lease => read_before s lease /\ (kl_key lease).1 = k_namespace a
  | None => True
  end /\
  if p is ReplaceLease lease _ _ _ holder _ then holder = current_holder lease else True.

Definition plan_done (a : KubeAdapter) (p : lock_plan) (s s' : S) : Prop :=
  let key := kl_key (plan_object a p) in
  exists v, api_view s' = <[key := with_version v (plan_object a p)]> (api_view s) /\
            api_view s !! key = plan_reads p.

Lemma plan_ok_later a s s' p : api_later s s' -> plan_ok a s p -> plan_ok a s' p.
Proof.
  intros Hl [H1 H2]. split; [|done]. destruct (plan_reads p); [|done].
  destruct H1. split; [by eapply read_before_later|done].
Qed.

Lemma replace_done a p (s s' : S) lease (r : outcome kexn unit) :
  plan_reads p = Some lease -> plan_ok a s p ->
  kl_key (plan_object a p) = (k_namespace a, (kl_key lease).2) ->
  resourceVersion (plan_object a p) = resourceVersion lease ->
  api_replace (plan_object a p) s = (r, s') ->
  api_step s s' /\ took_effect r (plan_done a p s s') (api_view s' = api_view s).
Proof.
  unfold plan_ok. intros Hp Hok Hk Hv Er. rewrite Hp in Hok. destruct Hok as [[Hb Hn] _].
  destruct Hb as (v & Hrv & Hsv & Hu). rewrite Hrv in Hv.
  pose proof (api_replace_spec _ _ s Hv) as H1. pose proof (DoReplace _ _ s Hv) as H2.
  rewrite Er in H1, H2. split; [done|]. eapply took_effect_mono; [| |exact H1]; [|tauto].
  intros (old & v' & Ho & Hov & _ & Hw & _). exists v'. split; [done|]. rewrite Ho, Hp.
  f_equal. apply Hu; [|done]. rewrite <- Ho, Hk, <- Hn. by destruct (kl_key lease).
Qed.

(** A plan is carried out as a whole on the object that it read, or leaves the
    server alone; after an error other than a conflict it may be either. *)
Lemma carry_out_spec a p s r s' :
  plan_ok a s p -> carry_out a p s = (r, s') ->
  api_step s s' /\
  match r with
  | Return v => (v = plan_result p /\ plan_done a p s s') \/
                ((v = inl None \/ v = inr false) /\ api_view s' = api_view s)
  | Raise _ => api_view s' = api_view s \/ plan_done a p s s'
  end.
Proof.
  intros Hok E. destruct p as [key token d now|lease token d live holder now|lease].
  - unfold carry_out, create_lease in E.
    pose proof (api_create_spec (created_lease key token d now) s) as H1.
    pose proof (DoCreate (created_lease key token d now) s) as H2.
    destruct (api_create _ s) as [r1 s1]. simpl in H2.
    assert (H3 : took_effect r1 (plan_done a (CreateLease key token d now) s s1)
                   (api_view s1 = api_view s)).
    { eapply took_effect_mono; [| |exact H1]; [|tauto]. intros (v & _ & Hn & Hw & _). by exists v. }
    clear H1. destruct r1 as [u|e]; [injection E as <- <-; simpl in *; auto|].
    destruct (has_status e CONFLICT) eqn:Ec; injection E as <- <-.
    + split; [done|]. right. split; [auto|]. eapply took_effect_status; eauto.
    + split; [done|]. by apply took_effect_or in H3.
  - unfold carry_out, replace_lease in E. destruct (api_replace _ s) as [r1 s1] eqn:Er.
    destruct (replace_done a (ReplaceLease lease token d live holder now)
      s s1 lease r1 eq_refl Hok eq_refl eq_refl Er) as [H2 H3].
    destruct r1 as [u|e]; [injection E as <- <-; simpl in *; auto|].
    destruct (has_status e CONFLICT) eqn:Ec; injection E as <- <-.
    + split; [done|]. right. split; [auto|]. eapply took_effect_status; eauto.
    + split; [done|]. by apply took_effect_or in H3.
  - unfold carry_out, vacate_lease in E. destruct (api_replace _ s) as [r1 s1] eqn:Er.
    destruct (replace_done a (VacateLease lease) s s1 lease r1 eq_refl Hok eq_refl eq_refl Er) as [H2 H3].
    destruct r1 as [u|e]; [injection E as <- <-; simpl in *; auto|].
    destruct (has_status e NOT_FOUND || has_status e CONFLICT) eqn:Ec; injection E as <- <-.
    + split; [done|]. right. split; [auto|].
      apply orb_true_iff in Ec as [Ec|Ec]; eapply took_effect_status; eauto.
    + split; [done|]. by apply took_effect_or in H3.
Qed.

Lemma k_lease_key_namespace a name key :
  k_lease_key a name = Return key -> key.1 = k_namespace a.
Proof.
  unfold k_lease_key. destruct (k_open a); [|done].
  destruct (sanitize_lease_name _); [|done]. by intros [= <-].
Qed.

(** ** A system of lock clients *)

Inductive lock_call : Type :=
| CallAcquire (name token : string) (duration now1 now2 : Q)
| CallRelease (name token : string) (now : Q)
| CallClose (now : Q).

(** What a call reads, and the writes it decides on. *)
Definition call_read (a : KubeAdapter) (c : lock_call) : py S kexn (list lock_plan) := fun s =>
  match c with
  | CallAcquire name token d now1 now2 =>
      match acquire_read a name token d now1 now2 s with
      | (Return (inr p), s) => (Return [p], s)
      | (Return (inl _), s) => (Return [], s)
      | (Raise e, s) => (Raise e, s)
      end
  | CallRelease name token now =>
      match release_read a name token now s with
      | (Return (inr p), s) => (Return [p], s)
      | (Return (inl _), s) => (Return [], s)
      | (Raise e, s) => (Raise e, s)
      end
  | CallClose now =>
      match api_list (k_namespace a) MANAGED_BY s with
      | (Raise e, s) => (Raise e, s)
      | (Return ls, s) => (Return (VacateLease <$> base.filter (fun l => swept now l = true) ls), s)
      end
  end.

(** The fencing token that a write granted, with the Lease and the holder. *)
Definition granted_tokens (p : lock_plan) (r : outcome kexn (option Z + bool)) :
    list (lease_key * string * Z) :=
  match p, r with
  | CreateLease key token _ _, Return (inl (Some f)) => [(key, token, f)]
  | ReplaceLease lease token _ _ _ _, Return (inl (Some f)) => [(kl_key lease, token, f)]
  | _, _ => []
  end.

(** [kw_inflight]: the calls whose writes are still to come; [kw_grants]: the
    tokens granted so far, the oldest first. *)
Record KubeWorld : Type := mkKubeWorld {
  kw_api : S;
  kw_inflight : gmap nat (KubeAdapter * list lock_plan);
  kw_grants : list (lease_key * string * Z);
}.

Inductive kube_step : KubeWorld -> KubeWorld -> Prop :=
| KubeRead c a call ps s s' fl gs :
    fl !! c = None -> call_read a call s = (Return ps, s') ->
    kube_step (mkKubeWorld s fl gs) (mkKubeWorld s' (<[c := (a, ps)]> fl) gs)
| KubeReadFails a call e s s' fl gs :
    call_read a call s = (Raise e, s') ->
    kube_step (mkKubeWorld s fl gs) (mkKubeWorld s' fl gs)
| KubeWrite c a p ps v s s' fl gs :
    fl !! c = Some (a, p :: ps) -> carry_out a p s = (Return v, s') ->
    kube_step (mkKubeWorld s fl gs)
      (mkKubeWorld s' (<[c := (a, ps)]> fl) (gs ++ granted_tokens p (Return v)))
| KubeWriteFails c a p ps e s s' fl gs :
    fl !! c = Some (a, p :: ps) -> carry_out a p s = (Raise e, s') ->
    kube_step (mkKubeWorld s fl gs) (mkKubeWorld s' (delete c fl) gs)
| KubeEnds c s fl gs :
    kube_step (mkKubeWorld s fl gs) (mkKubeWorld s (delete c fl) gs).

Definition inflight_ok (s : S) (fl : gmap nat (KubeAdapter * list lock_plan)) : Prop :=
  forall c a ps, fl !! c = Some (a, ps) -> Forall (plan_ok a s) ps.

(** What the stored object says of a token granted before. *)
Definition grant_ok (s : S) (g : lease_key * string * Z) : Prop :=
  let '(key, token, f) := g in
  exists l, api_view s !! key = Some l /\ f <= current_transitions l /\
    (f = current_transitions l -> current_holder l = None \/ current_holder l = Some token).

(** The numbers of a Lease do not go down, and one number names one token. *)
Definition grants_fenced (gs : list (lease_key * string * Z)) : Prop :=
  forall i j key t1 t2 f1 f2, (i < j)%nat ->
    gs !! i = Some (key, t1, f1) -> gs !! j = Some (key, t2, f2) ->
    f1 <= f2 /\ (f1 = f2 -> t1 = t2).

Definition kube_ok (w : KubeWorld) : Prop :=
  inflight_ok (kw_api w) (kw_inflight w) /\ Forall (grant_ok (kw_api w)) (kw_grants w) /\
  grants_fenced (kw_grants w).

Lemma inflight_ok_later s s' fl : api_later s s' -> inflight_ok s fl -> inflight_ok s' fl.
Proof.
  intros Hl Hok c a ps Hc. eapply Forall_impl; [by apply (Hok c)|].
  intros p. by apply plan_ok_later.
Qed.

Lemma inflight_ok_insert s fl c a ps :
  inflight_ok s fl -> Forall (plan_ok a s) ps -> inflight_ok s (<[c := (a, ps)]> fl).
Proof.
  intros Hok Hps c' a' ps'. destruct (decide (c = c')) as [<-|Hne].
  - rewrite lookup_insert_eq. by intros [= <- <-].
  - rewrite lookup_insert_ne by done. apply Hok.
Qed.

Lemma inflight_ok_delete s fl c : inflight_ok s fl -> inflight_ok s (delete c fl).
Proof. intros Hok c' a' ps' [_ ?]%lookup_delete_Some. by apply (Hok c'). Qed.

Lemma grants_fenced_snoc gs key token f :
  grants_fenced gs ->
  (forall t f', (key, t, f') ∈ gs -> f' <= f /\ (f' = f -> t = token)) ->
  grants_fenced (gs ++ [(key, token, f)]).
Proof.
  intros Hgs Hnew i j k t1 t2 f1 f2 Hij Hi Hj.
  apply lookup_app_Some in Hj as [Hj|[Hlen Hj]].
  - rewrite lookup_app_l in Hi by (apply lookup_lt_Some in Hj; lia). by eapply Hgs.
  - destruct (j - length gs)%nat eqn:Ej; [|done]. simpl in Hj. injection Hj as <- <- <-.
    rewrite lookup_app_l in Hi by lia. apply list_elem_of_lookup_2 in Hi. by apply Hnew.
Qed.

(** A read decides on writes to objects of its own namespace that it read. *)
Lemma call_read_ok a c s ps s' :
  call_read a c s = (Return ps, s') ->
  api_step s s' /\ api_view s' = api_view s /\ Forall (plan_ok a s') ps.
Proof.
  destruct c as [name token d now1 now2|name token now|now]; unfold call_read, acquire_read, release_read.
  - destruct (k_lease_key a name) as [key|] eqn:Ek; [|done].
    pose proof (k_lease_key_namespace _ _ _ Ek) as Hns.
    destruct (try_get key s) as [[[lease|]|e] s1] eqn:Eg; [| |done];
      destruct (try_get_spec _ _ _ _ Eg) as (Hs & Hv & Hr).
    + destruct Hr as (_ & Hk & Hb).
      destruct (_ && _); intros [= <- <-]; split_and!; try done.
      constructor; [|constructor]. split; simpl; [|done]. by rewrite Hk.
    + intros [= <- <-]. split_and!; try done. constructor; [|constructor]. done.
  - destruct (k_lease_key a name) as [key|] eqn:Ek; [|done].
    pose proof (k_lease_key_namespace _ _ _ Ek) as Hns.
    destruct (try_get key s) as [[[lease|]|e] s1] eqn:Eg; [| |done];
      destruct (try_get_spec _ _ _ _ Eg) as (Hs & Hv & Hr).
    + destruct Hr as (_ & Hk & Hb).
      destruct (_ || _); intros [= <- <-]; split_and!; try done.
      constructor; [|constructor]. split; simpl; [|done]. by rewrite Hk.
    + intros [= <- <-]. split_and!; done.
  - pose proof (api_list_spec (k_namespace a) MANAGED_BY s) as H1.
    pose proof (DoList (k_namespace a) MANAGED_BY s) as H2.
    destruct (api_list _ _ s) as [[ls|e] s1]; [|done]. simpl in H2. intros [= <- <-].
    destruct H1 as (Hv & Hs & Hls). split_and!; [done..|].
    apply Forall_fmap, Forall_forall. intros l Hl.
    apply list_elem_of_filter in Hl as [_ Hl]. apply Hls in Hl as (Hl & Hns & _).
    destruct (api_stored _ _ _ Hl) as (_ & v & Hrv & Hsv).
    split; [|done]. split; [|done]. exists v. split_and!; [done|by apply Hs|].
    intros l'. rewrite Hv. congruence.
Qed.

Lemma call_read_fails a c s e s' :
  call_read a c s = (Raise e, s') -> api_step s s' /\ api_view s' = api_view s \/ s' = s.
Proof.
  destruct c as [name token d now1 now2|name token now|now]; unfold call_read, acquire_read, release_read.
  - destruct (k_lease_key a name) as [key|]; [|intros [= <- <-]; auto].
    destruct (try_get key s) as [[[lease|]|e'] s1] eqn:Eg;
      destruct (try_get_spec _ _ _ _ Eg) as (Hs & Hv & _); [by destruct (_ && _)|done|].
    intros [= <- <-]. auto.
  - destruct (k_lease_key a name) as [key|]; [|intros [= <- <-]; auto].
    destruct (try_get key s) as [[[lease|]|e'] s1] eqn:Eg;
      destruct (try_get_spec _ _ _ _ Eg) as (Hs & Hv & _); [by destruct (_ || _)|done|].
    intros [= <- <-]. auto.
  - pose proof (DoList (k_namespace a) MANAGED_BY s) as H2.
    pose proof (api_list_spec (k_namespace a) MANAGED_BY s) as H1.
    destruct (api_list _ _ s) as [[ls|e'] s1]; [done|]. destruct H1. intros [= <- <-]. auto.
Qed.

Lemma grant_ok_same s s' g : api_view s' = api_view s -> grant_ok s g -> grant_ok s' g.
Proof. intros Hv. destruct g as [[key token] f]. unfold grant_ok. by rewrite Hv. Qed.

(** The number that a done plan stores, and its holder, agree with the tokens
    granted before. *)
Lemma plan_done_grants a p s s' gs :
  plan_ok a s p -> plan_done a p s s' ->
  Forall (grant_ok s) gs -> Forall (grant_ok s') gs /\
  forall key token f, granted_tokens p (Return (plan_result p)) = [(key, token, f)] ->
    grant_ok s' (key, token, f) /\
    forall t f', (key, t, f') ∈ gs -> f' <= f /\ (f' = f -> t = token).
Proof.
  intros [Hok Hho] (v & Hw & Ho) Hgs. rewrite Forall_forall in Hgs.
  assert (Hself : grant_ok s' (kl_key (plan_object a p), default "" (current_holder (plan_object a p)),
      current_transitions (plan_object a p)) ).
  { exists (with_version v (plan_object a p)). rewrite Hw, lookup_insert_eq. split_and!; [done|apply Z.le_refl|].
    intros _. destruct p; simpl; auto. }
  assert (Hnew : forall t f', (kl_key (plan_object a p), t, f') ∈ gs ->
      f' <= current_transitions (plan_object a p) /\
      (f' = current_transitions (plan_object a p) ->
       current_holder (plan_object a p) = None \/ current_holder (plan_object a p) = Some t)).
  { intros t f' Hin. destruct (Hgs _ Hin) as (l & Hl & Hle & Hh). rewrite Ho in Hl.
    destruct p as [key token d now|lease token d live holder now|lease]; simpl in Hl; [done| |];
      injection Hl as ->; unfold plan_object, replaced_lease, vacated_lease, current_transitions,
      current_holder; simpl; [|split; [done|auto]].
    unfold replace_fence. simpl in Hho. subst holder.
    destruct live; simpl; [case_bool_decide as Hc|]; split; try lia.
    intros ->. destruct (Hh eq_refl) as [Hn|Hn]; [congruence|right; congruence]. }
  split.
  - apply Forall_forall. intros [[key token] f] Hin.
    destruct (decide (key = kl_key (plan_object a p))) as [->|Hne].
    + exists (with_version v (plan_object a p)). rewrite Hw, lookup_insert_eq.
      split; [done|]. apply Hnew, Hin.
    + destruct (Hgs _ Hin) as (l & Hl & Hr). exists l. rewrite Hw, lookup_insert_ne by done. done.
  - destruct p as [key token d now|lease token d live holder now|lease]; simpl in *; [| |done];
      intros key' token' f' [= <- <- <-].
    + split; [done|]. intros t f Hin. destruct (Hnew _ _ Hin) as [? Hn]. split; [done|].
      intros Heq. destruct (Hn Heq) as [?|[= ->]]; done.
    + assert (Hkey : kl_key lease = (k_namespace a, (kl_key lease).2)).
      { destruct Hok as [_ <-]. by destruct (kl_key lease). }
      rewrite Hkey. split; [done|]. intros t f Hin. destruct (Hnew _ _ Hin) as [? Hn]. split; [done|].
      intros Heq. destruct (Hn Heq) as [?|[= ->]]; done.
Qed.

Lemma kube_step_ok w w' : kube_step w w' -> kube_ok w -> kube_ok w'.
Proof.
  intros Hst (Hf & Hg & Ho).
  destruct Hst as [c a call ps s s' fl gs Hc Er|a call e s s' fl gs Er|
    c a p ps v s s' fl gs Hc Ew|c a p ps e s s' fl gs Hc Ew|c s fl gs]; simpl in *.
  - destruct (call_read_ok _ _ _ _ _ Er) as (Hs & Hv & Hps). split_and!; [| |done]; simpl.
    + apply inflight_ok_insert; [|done]. eapply inflight_ok_later; [by apply api_step_later|done].
    + eapply Forall_impl; [done|]. intros g. by apply grant_ok_same.
  - destruct (call_read_fails _ _ _ _ _ Er) as [[Hs Hv]| ->]; [|done]. split_and!; [| |done]; simpl.
    + eapply inflight_ok_later; [by apply api_step_later|done].
    + eapply Forall_impl; [done|]. intros g. by apply grant_ok_same.
  - pose proof (Hf _ _ _ Hc) as Hok. apply Forall_cons in Hok as [Hp Hps].
    destruct (carry_out_spec _ _ _ _ _ Hp Ew) as [Hs Hr].
    assert (Hl : api_later s s') by by apply api_step_later.
    assert (Hfl : inflight_ok s' (<[c:=(a, ps)]> fl)).
    { apply inflight_ok_insert; [by eapply inflight_ok_later|].
      eapply Forall_impl; [done|]. intros q. by apply plan_ok_later. }
    destruct Hr as [[-> Hd]|[Hn Hv]].
    + destruct (plan_done_grants _ _ _ _ _ Hp Hd Hg) as [Hg' Hnew].
      assert (granted_tokens p (Return (plan_result p)) = [] \/
        exists key token f, granted_tokens p (Return (plan_result p)) = [(key, token, f)]) as [E|(key & token & f & E)].
      { destruct p; simpl; eauto. }
      * rewrite E, app_nil_r. by split_and!.
      * destruct (Hnew _ _ _ E) as [? ?]. rewrite E. split_and!; [done| |]; simpl.
        -- apply Forall_app. split; [done|]. by constructor.
        -- by apply grants_fenced_snoc.
    + assert (granted_tokens p (Return v) = []) as ->.
      { destruct p, Hn as [->| ->]; done. }
      rewrite app_nil_r. split_and!; [done| |done]. eapply Forall_impl; [done|].
      intros g. by apply grant_ok_same.
  - pose proof (Hf _ _ _ Hc) as Hok. apply Forall_cons in Hok as [Hp Hps].
    destruct (carry_out_spec _ _ _ _ _ Hp Ew) as [Hs Hr]. split_and!; [| |done]; simpl.
    + apply inflight_ok_delete. eapply inflight_ok_later; [by apply api_step_later|done].
    + destruct Hr as [Hv|Hd].
      * eapply Forall_impl; [done|]. intros g. by apply grant_ok_same.
      * by destruct (plan_done_grants _ _ _ _ _ Hp Hd Hg).
  - split_and!; [|done..]. by apply inflight_ok_delete.
Qed.

Lemma kube_ok_init s : kube_ok (mkKubeWorld s ∅ []).
Proof. split_and!; [done|constructor|]. intros i j ? ? ? ? ? _ Hi. done. Qed.

(** C3 Fencing tokens from Kubernetes leases identify the holder: any number of
    lock adapters, in any namespaces, acquire, release and sweep; their reads and
    writes interleave in any order, requests fail with or without effect, clocks
    are arbitrary and clients die anywhere.  The numbers that are granted on one
    Lease never go down, and a number is granted to one token only. *)
Theorem k8s_fencing_identifies_holder (s : S) (w : KubeWorld) (i j : nat) (key : lease_key)
    (t1 t2 : string) (f1 f2 : Z) :
  rtc kube_step (mkKubeWorld s ∅ []) w -> (i < j)%nat ->
  kw_grants w !! i = Some (key, t1, f1) -> kw_grants w !! j = Some (key, t2, f2) ->
  f1 <= f2 /\ (f1 = f2 -> t1 = t2).
Proof.
  intros Hr. apply (invariant_rtc kube_step kube_ok kube_step_ok _ _ Hr (kube_ok_init s)).
Qed.

(** ** Calls are atomic at their write *)

(** The Lease as the contract of a lock backend sees it. *)
Definition k8s_lease (o : option KubeLease) : Lease :=
  match o with
  | Some l =>
      mkLease (match current_holder l, get_expire_at l with
               | Some token, Some e => Some (token, e) | _, _ => None end)
        (current_transitions l)
  | None => no_lease
  end.

(** An object that names no holder has no expiry; so the adapters write them. *)
Definition lease_wf (l : KubeLease) : Prop := current_holder l = None -> get_expire_at l = None.

Lemma written_lease_wf a p : lease_wf (plan_object a p).
Proof. by destruct p. Qed.

(** What the contract of a lock backend says of a call; a duration is rounded up
    to whole seconds. *)
Definition call_spec (c : lock_call) (l : Lease) : (option Z + bool) * Lease :=
  match c with
  | CallAcquire _ token d now1 now2 =>
      let '(r, l') := lease_acquire token (inject_Z (Qceiling d)) now1 now2 l in (inl r, l')
  | CallRelease _ token now => let '(r, l') := lease_release token now l in (inr r, l')
  | CallClose _ => (inr true, l)
  end.

Definition call_name (c : lock_call) : option string :=
  match c with
  | CallAcquire name _ _ _ _ | CallRelease name _ _ => Some name
  | CallClose _ => None
  end.

(** A call up to its write: its answer, or the write it decided on. *)
Definition call_start (a : KubeAdapter) (c : lock_call) : py S kexn ((option Z + bool) + lock_plan) :=
  fun s =>
  match c with
  | CallAcquire name token d now1 now2 =>
      match acquire_read a name token d now1 now2 s with
      | (Return (inl r), s) => (Return (inl (inl r)), s)
      | (Return (inr p), s) => (Return (inr p), s)
      | (Raise e, s) => (Raise e, s)
      end
  | CallRelease name token now =>
      match release_read a name token now s with
      | (Return (inl r), s) => (Return (inl (inr r)), s)
      | (Return (inr p), s) => (Return (inr p), s)
      | (Raise e, s) => (Raise e, s)
      end
  | CallClose _ => (Return (inl (inr true)), s)
  end.

Lemma live_holder_k8s l t :
  live_holder t (k8s_lease (Some l)) = if unexpired l t then current_holder l else None.
Proof.
  unfold live_holder, k8s_lease, unexpired. simpl.
  destruct (current_holder l) as [token|], (get_expire_at l) as [e|]; simpl; try done;
    [|by destruct (_ >=? _)%py].
  qcases.
Qed.

#[local] Arguments k8s_lease _ : simpl never.

Lemma k8s_replaced a lease token d live holder now :
  k8s_lease (Some (replaced_lease a lease token d live holder now)) =
  mkLease (Some (token, now + inject_Z (Qceiling d))%Q) (replace_fence lease token live holder).
Proof. done. Qed.

(** What a call decided is what the contract says of the object it read. *)
Lemma call_start_spec a c key s r s' :
  is_Some (call_name c) -> (name ← call_name c; Some (k_lease_key a name)) = Some (Return key) ->
  call_start a c s = (Return r, s') ->
  (forall l, api_view s !! key = Some l -> lease_wf l) ->
  api_step s s' /\ api_view s' = api_view s /\
  match r with
  | inl v => call_spec c (k8s_lease (api_view s !! key)) = (v, k8s_lease (api_view s !! key))
  | inr p => plan_ok a s' p /\ kl_key (plan_object a p) = key /\
             call_spec c (k8s_lease (plan_reads p)) =
               (plan_result p, k8s_lease (Some (plan_object a p)))
  end.
Proof.
  destruct c as [name token d now1 now2|name token now|now]; simpl; intros Hn Hk E Hwf;
    [| |by destruct Hn]; injection Hk as Hk;
    unfold acquire_read, release_read in E; rewrite Hk in E;
    destruct (try_get key s) as [[[lease|]|e] s1] eqn:Eg; try done;
    destruct (try_get_spec _ _ _ _ Eg) as (Hs & Hv & Hr);
    pose proof (k_lease_key_namespace _ _ _ Hk) as Hns.
  - destruct Hr as (Hl & Hkey & Hb). specialize (Hwf _ Hl). rewrite Hl.
    pose proof (live_holder_k8s lease now1) as Hlive.
    destruct (unexpired lease now1) eqn:Eu; simpl in E;
      [destruct (current_holder lease) as [h|] eqn:Eh;
       [destruct (decide (h = token)) as [->|Hne]|]|].
    + rewrite bool_decide_eq_false_2 in E by naive_solver. injection E as <- <-.
      split; [done|split; [done|]].
      split; [split; simpl; [by rewrite Hkey|done]|split; [simpl; rewrite Hkey, <- Hns; by destruct key|]].
      unfold call_spec, lease_acquire, plan_reads. rewrite Hlive, decide_True by done.
      unfold plan_result, plan_object. rewrite k8s_replaced. unfold replace_fence.
      by rewrite bool_decide_eq_true_2.
    + rewrite bool_decide_eq_true_2 in E by congruence. injection E as <- <-.
      split_and!; [done..|]. unfold call_spec, lease_acquire. rewrite Hlive.
      by rewrite decide_False.
    + unfold lease_wf in Hwf. unfold unexpired in Eu. by rewrite (Hwf Eh) in Eu.
    + injection E as <- <-. split; [done|split; [done|]].
      split; [split; simpl; [by rewrite Hkey|done]|split; [simpl; rewrite Hkey, <- Hns; by destruct key|]].
      unfold call_spec, lease_acquire, plan_reads. by rewrite Hlive.
  - injection E as <- <-. by split_and!.
  - destruct Hr as (Hl & Hkey & Hb). rewrite Hl. pose proof (live_holder_k8s lease now) as Hlive.
    destruct (bool_decide_reflect (current_holder lease <> Some token)) as [Hh|Hh]; simpl in E;
      [|destruct (unexpired lease now) eqn:Eu; simpl in E].
    + injection E as <- <-. split_and!; [done..|]. unfold call_spec, lease_release. rewrite Hlive.
      rewrite decide_False; [done|]. by destruct (unexpired lease now).
    + injection E as <- <-. split; [done|split; [done|]].
      split; [split; simpl; [by rewrite Hkey|done]|split; [simpl; rewrite Hkey, <- Hns; by destruct key|]].
      unfold call_spec, lease_release, plan_reads. rewrite Hlive.
      by rewrite decide_True by (by apply dec_stable).
    + injection E as <- <-. split_and!; [done..|]. unfold call_spec, lease_release. rewrite Hlive.
      by rewrite decide_False.
  - injection E as <- <-. split_and!; [done..|]. by rewrite Hr.
Qed.

(** A call is atomic, whatever other clients do between its read and its
    write: if the write is carried out, it does to the Lease as it then is what
    the contract of a lock backend says, and answers that; if another client came
    first, nothing is written; after any other error it is one of the two.  A
    call that is refused at its read changes nothing, and the contract refuses
    it.  No other Lease is touched. *)
Lemma k8s_calls_are_atomic (a : KubeAdapter) (c : lock_call) (name : string) (key : lease_key)
    (s0 s1 s2 s3 : S) (r : (option Z + bool) + lock_plan) (r' : outcome kexn (option Z + bool)) :
  call_name c = Some name -> k_lease_key a name = Return key ->
  (forall l, api_view s0 !! key = Some l -> lease_wf l) ->
  call_start a c s0 = (Return r, s1) ->
  match r with
  | inl v => api_view s1 = api_view s0 /\
             call_spec c (k8s_lease (api_view s0 !! key)) = (v, k8s_lease (api_view s0 !! key))
  | inr p =>
      rtc api_step s1 s2 -> carry_out a p s2 = (r', s3) ->
      let '(v, lease) := call_spec c (k8s_lease (api_view s2 !! key)) in
      let unchanged := api_view s3 = api_view s2 in
      let done_ := k8s_lease (api_view s3 !! key) = lease /\
                   forall k, k <> key -> api_view s3 !! k = api_view s2 !! k in
      match r' with
      | Return u => (u = v /\ done_) \/ ((u = inl None \/ u = inr false) /\ unchanged)
      | Raise _ => unchanged \/ done_
      end
  end.
Proof.
  intros Hn Hk Hwf E. pose proof (call_start_spec a c key s0 r s1) as Hs.
  rewrite Hn in Hs. simpl in Hs. rewrite Hk in Hs.
  destruct (Hs ltac:(done) eq_refl E Hwf) as (_ & Hv & Hr). clear Hs.
  destruct r as [v|p]; [done|]. destruct Hr as (Hok & Hkey & Hspec). intros Hsteps Ec.
  destruct (carry_out_spec a p s2 r' s3) as [_ Hd];
    [by eapply plan_ok_later; [apply api_steps_later|]|done|].
  assert (Hdone : plan_done a p s2 s3 ->
    call_spec c (k8s_lease (api_view s2 !! key)) = (plan_result p, k8s_lease (api_view s3 !! key)) /\
    forall k, k <> key -> api_view s3 !! k = api_view s2 !! k).
  { intros (u & Hw & Ho). rewrite Hkey in Hw, Ho. split.
    - rewrite Ho, Hspec, Hw, lookup_insert_eq. done.
    - intros k Hne. by rewrite Hw, lookup_insert_ne. }
  revert Hdone. destruct (call_spec c (k8s_lease (api_view s2 !! key))) as [v lease].
  intros Hdone. destruct r' as [u|e].
  - destruct Hd as [[-> Hd]|?]; [|by right]. destruct (Hdone Hd) as [[= -> ->] ?]. by left.
  - destruct Hd as [?|Hd]; [by left|]. destruct (Hdone Hd) as [[= -> ->] ?]. by right.
Qed.

(** ** Leader elections *)

(** The Lease as the record store of the in-memory adapter. *)
Definition k8s_records (name : string) (o : option KubeLease) : Records :=
  match o ≫= lease_to_record with Some r => {[name := r]} | None => ∅ end.

Lemma record_lease_record key v d token acquired now n m :
  lease_to_record (with_version v (record_lease key None d
    (mkLeaderRecord token (inject_Z (Qceiling d)) acquired now n m))) =
  Some (mkLeaderRecord token (inject_Z (Qceiling d)) acquired now n m).
Proof.
  unfold lease_to_record, record_lease, with_version.
  cbn [kl_spec kl_annotations lr_holder lr_acquired_at lr_renewed_at lr_transitions lr_metadata default].
  by rewrite metadata_roundtrip.
Qed.

(** The decision of [_replace] is the one of the in-memory adapter. *)
Lemma next_record_spec name lease token d m now :
  let '(r, s) := acquire_or_renew name token (inject_Z (Qceiling d)) (Some m) now now
                   (k8s_records name (Some lease)) in
  match next_record lease token d m now with
  | inl current => current = r /\ s = k8s_records name (Some lease)
  | inr record => record = r /\ s = {[name := r]} /\
      exists acquired n, record = mkLeaderRecord token (inject_Z (Qceiling d)) acquired now n m
  end.
Proof.
  unfold k8s_records. simpl. unfold acquire_or_renew, leader_live, next_record, is_live.
  destruct (lease_to_record lease) as [current|] eqn:El; simpl.
  - rewrite lookup_singleton_eq.
    destruct (Qle_bool_spec (lr_renewed_at current + lr_lease_duration current) now),
      (Qlt_bool_spec now (lr_renewed_at current + lr_lease_duration current)); try lra.
    + repeat case_decide; try tauto; rewrite insert_singleton, (decide_True_pi eq_refl); split_and!; eauto.
    + repeat case_decide; try tauto; try done. rewrite insert_singleton, (decide_True_pi eq_refl).
      assert (lr_holder current = token) as -> by tauto. split_and!; eauto.
  - rewrite lookup_empty. split; [done|split; [done|eauto]].
Qed.

Definition leader_plan_ok (a : KubeAdapter) (s : S) (p : leader_plan) : Prop :=
  match p with
  | CreateRecord _ _ _ _ _ => True
  | ReplaceRecord lease _ _ => read_before s lease /\ (kl_key lease).1 = k_namespace a
  end.

Definition leader_plan_key (a : KubeAdapter) (p : leader_plan) : lease_key :=
  match p with
  | CreateRecord key _ _ _ _ => key
  | ReplaceRecord lease _ _ => (k_namespace a, (kl_key lease).2)
  end.

Definition leader_plan_reads (p : leader_plan) : option KubeLease :=
  match p with CreateRecord _ _ _ _ _ => None | ReplaceRecord lease _ _ => Some lease end.

(** The record that a plan writes, and for how long. *)
Definition leader_plan_record (p : leader_plan) : LeaderRecord * Q :=
  match p with
  | CreateRecord _ token d m now => (created_record token d m now, d)
  | ReplaceRecord _ d record => (record, d)
  end.

Definition leader_plan_done (a : KubeAdapter) (p : leader_plan) (s s' : S) : Prop :=
  let key := leader_plan_key a p in
  let '(record, d) := leader_plan_record p in
  api_view s !! key = leader_plan_reads p /\
  exists v, api_view s' = <[key := with_version v (record_lease key None d record)]> (api_view s).

Lemma reread_spec key now s r s' :
  reread key now s = (r, s') ->
  api_view s' = api_view s /\
  match r with
  | Return u => u = empty_record now \/ api_view s !! key ≫= lease_to_record = Some u
  | Raise _ => True
  end.
Proof.
  unfold reread. destruct (try_get key s) as [[[lease|]|e] s1] eqn:Eg;
    destruct (try_get_spec _ _ _ _ Eg) as (_ & Hv & Hr); intros [= <- <-]; split; try done; auto.
  destruct Hr as (Hl & _). rewrite Hl. simpl. destruct (lease_to_record lease); auto.
Qed.

Lemma leader_write_spec a p now' s r s' :
  leader_plan_ok a s p -> leader_write a p now' s = (r, s') ->
  match r with
  | Return u => (u = (leader_plan_record p).1 /\ leader_plan_done a p s s') \/
      api_view s' = api_view s /\
      (u = empty_record now' \/ api_view s !! leader_plan_key a p ≫= lease_to_record = Some u)
  | Raise _ => api_view s' = api_view s \/ leader_plan_done a p s s'
  end.
Proof.
  intros Hok. destruct p as [key token d m now|lease d record]; unfold leader_write.
  - pose proof (api_create_spec (record_lease key None d (created_record token d m now)) s) as H1.
    destruct (api_create _ s) as [r1 s1].
    assert (H3 : took_effect r1 (leader_plan_done a (CreateRecord key token d m now) s s1)
                   (api_view s1 = api_view s)).
    { eapply took_effect_mono; [| |exact H1]; [|tauto]. intros (v & _ & Hn & Hw & _). split; eauto. }
    clear H1. destruct r1 as [u|e]; [intros [= <- <-]; simpl in *; auto|].
    destruct (has_status e CONFLICT) eqn:Ec;
      [|intros [= <- <-]; by apply took_effect_or in H3].
    intros Hr. apply reread_spec in Hr as [Hv Hr].
    rewrite (took_effect_status _ _ _ _ Ec ltac:(auto) H3) in Hv, Hr. destruct r; auto.
  - destruct Hok as [(v & Hrv & Hsv & Hu) Hns].
    pose proof (api_replace_spec (record_lease (k_namespace a, (kl_key lease).2)
      (resourceVersion lease) d record) v s Hrv) as H1.
    destruct (api_replace _ s) as [r1 s1].
    assert (H3 : took_effect r1 (leader_plan_done a (ReplaceRecord lease d record) s s1)
                   (api_view s1 = api_view s)).
    { eapply took_effect_mono; [| |exact H1]; [|tauto].
      intros (old & v' & Ho & Hov & _ & Hw & _). split; [|by eauto]. simpl in *. rewrite Ho.
      f_equal. apply Hu; [|done]. rewrite <- Ho, <- Hns. by destruct (kl_key lease). }
    clear H1. destruct r1 as [u|e]; [intros [= <- <-]; simpl in *; auto|].
    destruct (has_status e CONFLICT) eqn:Ec;
      [|intros [= <- <-]; by apply took_effect_or in H3].
    intros Hr. apply reread_spec in Hr as [Hv Hr].
    rewrite (took_effect_status _ _ _ _ Ec ltac:(auto) H3) in Hv, Hr. destruct r; auto.
Qed.

Lemma leader_read_spec a name token d meta now key s r s' :
  k_lease_key a name = Return key -> leader_read a name token d meta now s = (Return r, s') ->
  api_step s s' /\ api_view s' = api_view s /\
  let after := acquire_or_renew name token (inject_Z (Qceiling d)) meta now now in
  match r with
  | inl current => after (k8s_records name (api_view s !! key)) =
                   (current, k8s_records name (api_view s !! key))
  | inr p => leader_plan_ok a s' p /\ leader_plan_key a p = key /\
      after (k8s_records name (leader_plan_reads p)) =
        ((leader_plan_record p).1, {[name := (leader_plan_record p).1]}) /\
      exists acquired n, leader_plan_record p =
        (mkLeaderRecord token (inject_Z (Qceiling d)) acquired now n (default ∅ meta), d)
  end.
Proof.
  intros Hk. unfold leader_read. rewrite Hk.
  destruct (try_get key s) as [[[lease|]|e] s1] eqn:Eg; [| |done];
    destruct (try_get_spec _ _ _ _ Eg) as (Hs & Hv & Hr).
  - destruct Hr as (Hl & Hkey & Hb). pose proof (k_lease_key_namespace _ _ _ Hk) as Hns.
    pose proof (next_record_spec name lease token d (default ∅ meta) now) as Hn.
    assert (Hm : forall rs, acquire_or_renew name token (inject_Z (Qceiling d))
      (Some (default ∅ meta)) now now rs =
      acquire_or_renew name token (inject_Z (Qceiling d)) meta now now rs) by by destruct meta.
    rewrite Hm in Hn. destruct (acquire_or_renew _ _ _ _ _ _ _) as [rec recs] eqn:Ea.
    destruct (next_record _ _ _ _ _) as [current|record]; intros [= <- <-];
      (split; [done|split; [done|]]).
    + destruct Hn as [-> ->]. by rewrite Hl.
    + destruct Hn as (-> & -> & acq & n & ->). split; [|split; [|split]].
      * split; [done|]. by rewrite Hkey.
      * simpl. rewrite Hkey, <- Hns. by destruct key.
      * done.
      * by exists acq, n.
  - intros [= <- <-]. split; [done|split; [done|]]. split; [done|split; [done|split]].
    + unfold acquire_or_renew, leader_live, k8s_records. simpl. rewrite lookup_empty. by destruct meta.
    + by eexists _, _.
Qed.

(** [acquire_or_renew] is atomic, whatever other clients do between its read
    and its write: if its write is carried out, the Lease then holds the record
    that the in-memory adapter computes from what it held just before, with the
    duration rounded up to whole seconds, and that record is the answer.  If
    another client came first nothing is written, and the answer is the record
    that is there, or the empty one; after any other error it is one of the two. *)
Lemma k8s_election_is_atomic (a : KubeAdapter) (name token : string) (d now now' : Q)
    (meta : option (gmap string string)) (key : lease_key) (s0 s1 s2 s3 : S)
    (r : LeaderRecord + leader_plan) (r' : outcome kexn LeaderRecord) :
  k_lease_key a name = Return key ->
  leader_read a name token d meta now s0 = (Return r, s1) ->
  let after := acquire_or_renew name token (inject_Z (Qceiling d)) meta now now in
  match r with
  | inl current => api_view s1 = api_view s0 /\
      after (k8s_records name (api_view s0 !! key)) =
        (current, k8s_records name (api_view s0 !! key))
  | inr p =>
      rtc api_step s1 s2 -> leader_write a p now' s2 = (r', s3) ->
      let '(record, records) := after (k8s_records name (api_view s2 !! key)) in
      let unchanged := api_view s3 = api_view s2 in
      let done_ := k8s_records name (api_view s3 !! key) = records /\
                   forall k, k <> key -> api_view s3 !! k = api_view s2 !! k in
      match r' with
      | Return u => (u = record /\ done_) \/
          (unchanged /\ (u = empty_record now' \/ k8s_records name (api_view s2 !! key) = {[name := u]}))
      | Raise _ => unchanged \/ done_
      end
  end.
Proof.
  intros Hk Er. apply (leader_read_spec _ _ _ _ _ _ key) in Er as (_ & Hv & Hr); [|done].
  destruct r as [current|p]; [done|]. destruct Hr as (Hok & Hkey & Hspec & acq & n & Hrec).
  cbv zeta. intros Hsteps Ew.
  assert (Hok2 : leader_plan_ok a s2 p).
  { destruct p; [done|]. destruct Hok. split; [|done].
    eapply read_before_later; [by apply api_steps_later|done]. }
  pose proof (leader_write_spec _ _ _ _ _ _ Hok2 Ew) as Hw. rewrite Hkey in Hw.
  assert (Hdone : leader_plan_done a p s2 s3 ->
    acquire_or_renew name token (inject_Z (Qceiling d)) meta now now (k8s_records name (api_view s2 !! key))
      = ((leader_plan_record p).1, k8s_records name (api_view s3 !! key)) /\
    forall k, k <> key -> api_view s3 !! k = api_view s2 !! k).
  { unfold leader_plan_done. rewrite Hkey. rewrite Hrec in Hspec |- *.
    intros (Hrd & v & Hv3). split.
    - rewrite Hrd, Hspec, Hv3, lookup_insert_eq. f_equal. unfold k8s_records.
      cbn [mbind option_bind]. by rewrite record_lease_record.
    - intros k Hne. by rewrite Hv3, lookup_insert_ne. }
  destruct r' as [u|e].
  - destruct Hw as [[-> Hd]|[Hn Hu]]; [destruct (Hdone Hd) as [-> ?]; by left|].
    destruct (acquire_or_renew name token _ meta now now (k8s_records name (api_view s2 !! key))). right. split; [done|].
    destruct Hu as [->|Hu]; [by left|right]. unfold k8s_records. by rewrite Hu.
  - destruct Hw as [?|Hd]; [by destruct (acquire_or_renew name token _ meta now now (k8s_records name (api_view s2 !! key))); left|].
    destruct (Hdone Hd) as [-> ?]. by right.
Qed.

End Adapters.

(** ** A server in memory

    An instance of the class: it numbers the versions and never fails
    otherwise. *)

Record Server : Type := mkServer {
  sv_objects : gmap lease_key (nat * KubeLease);
  sv_next : nat;
}.

(** More than any version given so far. *)
Definition sv_bound (s : Server) : nat :=
  map_fold (fun _ x acc => Nat.max (1 + x.1) acc) (sv_next s) (sv_objects s).

Definition sv_object (k : lease_key) (x : nat * KubeLease) : option KubeLease :=
  Some (mkKubeLease k (Some (pretty x.1)) (kl_labels x.2) (kl_annotations x.2) (kl_spec x.2)).

Definition sv_view (s : Server) : gmap lease_key KubeLease := map_imap sv_object (sv_objects s).

Definition sv_seen (s : Server) (v : string) : Prop := exists n, (n < sv_bound s)%nat /\ v = pretty n.

Definition sv_get (k : lease_key) (s : Server) : outcome kexn KubeLease * Server :=
  match sv_view s !! k with
  | Some l => (Return l, s)
  | None => (Raise (ApiError NOT_FOUND), s)
  end.

Definition sv_list (ns : string) (labels : gmap string string) (s : Server) :
    outcome kexn (list KubeLease) * Server :=
  (Return (base.filter (fun l => (kl_key l).1 = ns /\ labels ⊆ kl_labels l)
             ((map_to_list (sv_view s)).*2)), s).

Definition sv_store (l : KubeLease) (s : Server) : Server :=
  mkServer (<[kl_key l := (sv_bound s, l)]> (sv_objects s)) (1 + sv_bound s).

Definition sv_create (l : KubeLease) (s : Server) : outcome kexn unit * Server :=
  match sv_view s !! kl_key l with
  | Some _ => (Raise (ApiError CONFLICT), s)
  | None => (Return tt, sv_store l s)
  end.

Definition sv_replace (l : KubeLease) (s : Server) : outcome kexn unit * Server :=
  match sv_view s !! kl_key l with
  | Some old =>
      if decide (resourceVersion old = resourceVersion l) then (Return tt, sv_store l s)
      else (Raise (ApiError CONFLICT), s)
  | None => (Raise (ApiError NOT_FOUND), s)
  end.

Definition sv_delete (k : lease_key) (s : Server) : outcome kexn unit * Server :=
  match sv_view s !! k with
  | Some _ => (Return tt, mkServer (delete k (sv_objects s)) (sv_bound s))
  | None => (Raise (ApiError NOT_FOUND), s)
  end.

Lemma sv_bound_le s m :
  (sv_bound s <= m)%nat <->
  (sv_next s <= m)%nat /\ forall k x, sv_objects s !! k = Some x -> (x.1 < m)%nat.
Proof.
  unfold sv_bound. destruct s as [objs next]. simpl.
  induction objs as [|k x objs Hk IH] using map_ind.
  - rewrite map_fold_empty. split; [|by intros [? _]]. intros. split; [done|].
    intros k x. by rewrite lookup_empty.
  - rewrite map_fold_insert_L by (done || intros; lia). split.
    + intros Hm. destruct (proj1 IH) as [Hn Ho]; [lia|]. split; [done|]. intros k' x'.
      destruct (decide (k = k')) as [<-|Hne].
      * rewrite lookup_insert_eq. intros [= <-]. lia.
      * rewrite lookup_insert_ne by done. apply Ho.
    + intros [Hn Ho]. pose proof (Ho k x (lookup_insert_eq _ _ _)).
      enough (map_fold (fun _ (x : nat * KubeLease) acc => Nat.max (1 + x.1) acc) next objs <= m)%nat by (simpl in *; lia).
      apply IH. split; [done|]. intros k' x' Hx. apply (Ho k').
      rewrite lookup_insert_ne; [done|]. congruence.
Qed.

Lemma sv_view_Some s k l :
  sv_view s !! k = Some l -> exists x, sv_objects s !! k = Some x /\ sv_object k x = Some l.
Proof. unfold sv_view. rewrite map_lookup_imap. destruct (_ !! k); naive_solver. Qed.

Lemma sv_store_view l s :
  sv_view (sv_store l s) = <[kl_key l := with_version (pretty (sv_bound s)) l]> (sv_view s).
Proof.
  apply map_eq. intros k. unfold sv_view, sv_store. rewrite map_lookup_imap. simpl.
  destruct (decide (kl_key l = k)) as [<-|Hne].
  - rewrite !lookup_insert_eq. done.
  - by rewrite !lookup_insert_ne, map_lookup_imap.
Qed.

Lemma sv_store_seen l s u : sv_seen (sv_store l s) u <-> u = pretty (sv_bound s) \/ sv_seen s u.
Proof.
  assert (sv_bound (sv_store l s) = 1 + sv_bound s)%nat as Hb.
  { apply Nat.le_antisymm.
    - apply sv_bound_le. split; [done|]. intros k x. simpl.
      destruct (decide (kl_key l = k)) as [<-|Hne]; [rewrite lookup_insert_eq; intros [= <-]; simpl; lia|].
      rewrite lookup_insert_ne by done. intros Hx.
      destruct (proj1 (sv_bound_le s _) (le_n _)) as [_ Ho]. specialize (Ho _ _ Hx). lia.
    - by destruct (proj1 (sv_bound_le (sv_store l s) _) (le_n _)). }
  unfold sv_seen. rewrite Hb. split.
  - intros (n & Hn & ->). destruct (decide (n = sv_bound s)) as [->|]; [auto|right]. exists n. split; [lia|done].
  - intros [->|(n & Hn & ->)]; eexists; (split; [|done]); lia.
Qed.

Lemma sv_fresh s : ~ sv_seen s (pretty (sv_bound s)).
Proof. intros (n & Hn & He). apply (inj pretty) in He. lia. Qed.

#[local] Obligation Tactic := idtac.

#[export] Program Instance memory_server : LeaseApi Server := {
  api_get := sv_get;
  api_list := sv_list;
  api_create := sv_create;
  api_replace := sv_replace;
  api_delete := sv_delete;
  api_view := sv_view;
  api_seen := sv_seen;
}.
Next Obligation.
  intros s k l Hl. destruct (sv_view_Some _ _ _ Hl) as (x & Hx & [= <-]). split; [done|].
  eexists. split; [done|]. exists x.1. split; [|done].
  destruct (proj1 (sv_bound_le s _) (le_n _)) as [_ Ho]. by eapply Ho.
Qed.
Next Obligation. intros k s. unfold sv_get. destruct (sv_view s !! k) eqn:E; by split_and!. Qed.
Next Obligation.
  intros ns labels s. unfold sv_list. split_and!; [done..|]. intros l.
  rewrite list_elem_of_filter, list_elem_of_fmap. split.
  - intros [[Hns Hl] ([k l'] & -> & Hin)]. apply elem_of_map_to_list in Hin. simpl in *.
    destruct (sv_view_Some _ _ _ Hin) as (x & Hx & [= <-]). by split_and!.
  - intros (Hl & Hns & Hlab). split; [done|]. exists (kl_key l, l). split; [done|].
    by apply elem_of_map_to_list.
Qed.
Next Obligation.
  intros l s. unfold sv_create. destruct (sv_view s !! kl_key l) eqn:E; simpl.
  - done.
  - exists (pretty (sv_bound s)). split_and!; [apply sv_fresh|done|apply sv_store_view|].
    intros u. apply sv_store_seen.
Qed.
Next Obligation.
  intros l v s Hv. unfold sv_replace. destruct (sv_view s !! kl_key l) as [old|] eqn:E; simpl.
  2: done.
  case_decide as Hr; simpl; [|done].
  exists old, (pretty (sv_bound s)). split_and!; [done|congruence| |apply sv_store_view|].
  - intros Hs. by apply sv_fresh in Hs.
  - intros u. apply sv_store_seen.
Qed.
Next Obligation.
  intros k s. unfold sv_delete. destruct (sv_view s !! k) as [old|] eqn:E; simpl.
  2: done.
  split_and!; [done| |].
  - apply map_eq. intros k'. unfold sv_view. simpl. rewrite map_lookup_imap.
    destruct (decide (k = k')) as [<-|Hne].
    + by rewrite !lookup_delete_eq.
    + by rewrite !lookup_delete_ne, map_lookup_imap.
  - assert (sv_bound (mkServer (delete k (sv_objects s)) (sv_bound s)) = sv_bound s) as Hb.
    { apply Nat.le_antisymm.
      - apply sv_bound_le. split; [done|]. intros k' x. simpl. intros [_ Hx]%lookup_delete_Some.
        destruct (proj1 (sv_bound_le s _) (le_n _)) as [_ Ho]. by eapply Ho.
      - by destruct (proj1 (sv_bound_le (mkServer (delete k (sv_objects s)) (sv_bound s)) _) (le_n _)). }
    intros v. unfold sv_seen. by rewrite Hb.
Qed.

(** ** Concrete runs *)

Definition no_objects : Server := mkServer ∅ 0.

Definition kube_lock : KubeAdapter := mkKubeAdapter "prod" "" true.
Definition kube_election : KubeAdapter := mkKubeAdapter "prod" "" true.

(** Two clients, [a] and then [b] once the lease of [a] is over. *)
Definition lock_run : (outcome kexn (option Z) * outcome kexn (option Z) * outcome kexn (option Z)) * Server :=
  let '(r1, s) := k8s_acquire kube_lock "job" "a" 10 0 0 no_objects in
  let '(r2, s) := k8s_acquire kube_lock "job" "b" 10 5 5 s in
  let '(r3, s) := k8s_acquire kube_lock "job" "b" 10 11 11 s in
  (r1, r2, r3, s).

Lemma lock_run_answers : lock_run.1 = (Return (Some 1), Return None, Return (Some 2)).
Proof. by vm_compute. Qed.

(** What the two halves of a call that succeeds come to. *)
Definition plan_of (r : outcome kexn (list lock_plan) * Server) : list lock_plan :=
  match r.1 with Return ps => ps | Raise _ => [] end.

Definition world_read (c : nat) (a : KubeAdapter) (call : lock_call) (w : KubeWorld) : KubeWorld :=
  mkKubeWorld (call_read a call (kw_api w)).2
    (<[c := (a, plan_of (call_read a call (kw_api w)))]> (kw_inflight w)) (kw_grants w).

Definition world_write (c : nat) (w : KubeWorld) : KubeWorld :=
  match kw_inflight w !! c with
  | Some (a, p :: ps) =>
      let '(r, s) := carry_out a p (kw_api w) in
      mkKubeWorld s (<[c := (a, ps)]> (kw_inflight w)) (kw_grants w ++ granted_tokens p r)
  | _ => w
  end.

Definition kube_world : KubeWorld :=
  world_write 1 (world_read 1 kube_lock (CallAcquire "job" "b" 10 11 11)
    (world_write 0 (world_read 0 kube_lock (CallAcquire "job" "a" 10 0 0)
      (mkKubeWorld no_objects ∅ [])))).

Lemma k8s_fencing_identifies_holder_witness : 1 <= 2 /\ (1 = 2 -> "a" = "b").
Proof.
  apply (k8s_fencing_identifies_holder no_objects kube_world 0 1 ("prod", "job") "a" "b" 1 2);
    [|lia|reflexivity|reflexivity].
  eapply rtc_l; [|eapply rtc_l; [|eapply rtc_l; [|eapply rtc_l; [|apply rtc_refl]]]].
  - by apply (KubeRead 0 kube_lock (CallAcquire "job" "a" 10 0 0)).
  - eapply (KubeWrite 0 kube_lock _ [] (inl (Some 1))); reflexivity.
  - by apply (KubeRead 1 kube_lock (CallAcquire "job" "b" 10 11 11)).
  - eapply (KubeWrite 1 kube_lock _ [] (inl (Some 2))); reflexivity.
Defined.

Lemma k8s_calls_are_atomic_witness :
  let call := CallAcquire "job" "a" 10 0 0 in
  let p := CreateLease ("prod", "job") "a" 10 0 in
  let '(v, lease) := call_spec call (k8s_lease (api_view no_objects !! ("prod", "job"))) in
  let s := (carry_out kube_lock p no_objects).2 in
  let u : option Z + bool := inl (Some 1) in
  (u = v /\ k8s_lease (api_view s !! ("prod", "job")) = lease /\
   forall k, k <> ("prod", "job") -> api_view s !! k = api_view no_objects !! k) \/
  ((u = inl None \/ u = inr false) /\ api_view s = api_view no_objects).
Proof.
  apply (k8s_calls_are_atomic kube_lock (CallAcquire "job" "a" 10 0 0) "job" ("prod", "job")
    no_objects no_objects no_objects _ (inr (CreateLease ("prod", "job") "a" 10 0))
    (Return (inl (Some 1)))); [reflexivity|reflexivity| |reflexivity|apply rtc_refl|reflexivity].
  intros l Hl. done.
Defined.

Lemma k8s_election_is_atomic_witness :
  let p := CreateRecord ("prod", "job") "a" 10 ∅ 0 in
  let s := (leader_write kube_election p 0 no_objects).2 in
  let record0 := created_record "a" 10 ∅ 0 in
  let '(record, records) := acquire_or_renew "job" "a" (inject_Z (Qceiling 10)) None 0 0
    (k8s_records "job" (api_view no_objects !! ("prod", "job"))) in
  (record0 = record /\ k8s_records "job" (api_view s !! ("prod", "job")) = records /\
   forall k, k <> ("prod", "job") -> api_view s !! k = api_view no_objects !! k) \/
  (api_view s = api_view no_objects /\
   (record0 = empty_record 0 \/
    k8s_records "job" (api_view no_objects !! ("prod", "job")) = {["job" := record0]})).
Proof.
  apply (k8s_election_is_atomic kube_election "job" "a" 10 0 0 None ("prod", "job")
    no_objects no_objects no_objects
    (leader_write kube_election (CreateRecord ("prod", "job") "a" 10 ∅ 0) 0 no_objects).2
    (inr (CreateRecord ("prod", "job") "a" 10 ∅ 0))
    (Return (created_record "a" 10 ∅ 0)));
    [reflexivity|reflexivity|apply rtc_refl|reflexivity].
Defined.

(** [release] reads a live record of its own and deletes by name: in between the
    lease of [a] can run out and [b] take it over.  The deletion then removes the
    lease of [b], and [c] is elected while [b] still holds a live record. *)
Lemma release_deletes_successor :
  let s1 := (k8s_acquire_or_renew kube_election "job" "a" 10 None 0 0 no_objects).2 in
  let '(reading, s2) := leader_release_read kube_election "job" "a" (99 # 10) s1 in
  let '(taken, s3) := k8s_acquire_or_renew kube_election "job" "b" 10 None 10 10 s2 in
  let '(deleted, s4) := leader_delete ("prod", "job") s3 in
  let '(elected, _) := k8s_acquire_or_renew kube_election "job" "c" 10 None 11 11 s4 in
  reading = Return (inr ("prod", "job")) /\ deleted = Return true /\
  exists rb rc, taken = Return rb /\ elected = Return rc /\ lr_holder rb = "b" /\
    lr_holder rc = "c" /\ is_live rb 11 = true /\ is_live rc 11 = true.
Proof. vm_compute. repeat split. eexists _, _. repeat split. Qed.

(** Leaving a lock adapter sweeps the Leases of elections too: a leader whose
    lease has run out is no longer the previous holder, and the next election
    starts counting again. *)
Lemma lock_close_forgets_transitions :
  let s := (k8s_acquire_or_renew kube_election "job" "a" 10 None 0 0 no_objects).2 in
  let s := (k8s_acquire_or_renew kube_election "job" "b" 10 None 20 20 s).2 in
  let swept := (k8s_close kube_lock 40 s).2 in
  let transitions s :=
    match (k8s_acquire_or_renew kube_election "job" "c" 10 None 50 50 s).1 with
    | Return r => Some (lr_transitions r) | Raise _ => None end in
  transitions s = Some 2 /\ transitions swept = Some 0.
Proof. vm_compute. repeat split. Qed.
