(* ===== verification/HealthChecks.v ===== *)
(** * Health checks

    [health/_checks.py]: the registry of checks, one execution of a check, the
    cache and the single flight that concurrent rounds share, and the report.
    A round is a [TaskGroup] with one caller of [_get_or_run] per selected check;
    [health_step] interleaves the callers of any number of rounds at their
    [await]s. *)

From S2P Require Import Prelude Errors Dict Asyncio.
From stdpp Require Import sorting.
From Stdlib Require Import Ascii.

Local Open Scope Z_scope.

(** ** Data *)

(** A details payload is an object of the application. *)
Definition HealthDetails : Type := nat.

Inductive HealthStatus : Type := OK | ERROR.

#[export] Instance health_status_eq_dec : EqDecision HealthStatus.
Proof. solve_decision. Defined.

(** The text under [error], by what it is made of. *)
Inductive check_error : Type :=
| TimedOutText (name : string) (timeout : Q)
| ReportedText (message : string)
| UnexpectedText (e : exn).

Record CheckResult : Type := mkCheckResult {
  cr_status : HealthStatus;
  cr_critical : bool;
  cr_error : option check_error;
  cr_details : option HealthDetails;
}.

(** [checks] is a dict: in its order. *)
Record HealthReport : Type := mkHealthReport {
  hr_status : HealthStatus;
  hr_checks : list (string * CheckResult);
}.

Record HealthChecksConfig : Type := mkHealthConfig { hc_timeout : Q; hc_cache_ttl : Q }.

(** A function object of the application, or the wrapper that runs one in a
    thread. *)
Inductive check_func : Type :=
| AsyncFunc (id : nat)
| ThreadWrapper (id : nat).

#[export] Instance check_func_eq_dec : EqDecision check_func.
Proof. solve_decision. Defined.

(** [_Entry]; an event is known by its number. *)
Record Entry : Type := mkEntry {
  en_name : string;
  en_func : check_func;
  en_critical : bool;
  en_timeout : Q;
  en_cached_result : option CheckResult;
  en_cached_at : Q;
  en_inflight : option nat;
}.

Abbreviation Entries := (list (string * Entry)).

(** ** The registry *)

Definition CHECK_NAME_MAX_LEN : nat := 64.

Definition name_start (c : Ascii.ascii) : bool :=
  let n := Ascii.nat_of_ascii c in
  ((97 <=? n) && (n <=? 122) || (48 <=? n) && (n <=? 57))%nat.

Definition name_char (c : Ascii.ascii) : bool :=
  name_start c || Ascii.eqb c ":"%char || Ascii.eqb c "_"%char || Ascii.eqb c "-"%char.

Definition newline : Ascii.ascii := Ascii.ascii_of_nat 10.

(** [[a-z0-9:_-]*$]: the end, or a newline at the end. *)
Fixpoint name_rest (s : string) : bool :=
  match s with
  | EmptyString => true
  | String c s' =>
      (name_char c && name_rest s') ||
      (Ascii.eqb c newline && match s' with EmptyString => true | _ => false end)
  end.

(** [_NAME_PATTERN.match] *)
Definition name_matches (s : string) : bool :=
  match s with EmptyString => false | String c s => name_start c && name_rest s end.

(** [_normalize] *)
Definition normalize (is_async : bool) (id : nat) : check_func :=
  if is_async then AsyncFunc id else ThreadWrapper id.

Definition key_le (a b : string * Entry) : Prop := String.leb a.1 b.1 = true.

#[export] Instance key_le_dec a b : Decision (key_le a b).
Proof. unfold key_le. apply _. Defined.

#[export] Instance key_le_total : Total key_le.
Proof. intros a b. apply String.leb_total. Qed.

(** [dict(sorted(self._entries.items()))] *)
Definition sort_entries (es : Entries) : Entries := merge_sort key_le es.

(** [add] *)
Definition add_check (config : HealthChecksConfig) (name : string) (is_async : bool) (func : nat)
    (critical : bool) (timeout : option Q) (es : Entries) : outcome exn unit * Entries :=
  if bool_decide (name = "") || (CHECK_NAME_MAX_LEN <? String.length name)%nat ||
     negb (name_matches name)
  then (Raise (mk_exn ValueError NoInfo), es)
  else match dict_get name es with
  | Some _ => (Raise (mk_exn ValueError NoInfo), es)
  | None =>
      let entry := mkEntry name (normalize is_async func) critical
                     (default (hc_timeout config) timeout) None 0 None in
      (Return tt, sort_entries (dict_set name entry es))
  end.

(** A [Provider]: its short name and its bound method [check], [None] for a class
    that does not override it. *)
Record provider : Type := mkProvider { pv_short_name : string; pv_check : option nat }.

(** [add_provider]; [name or provider.short_name] *)
Definition add_provider (config : HealthChecksConfig) (p : provider) (name : option string)
    (critical : bool) (timeout : option Q) (es : Entries) : outcome exn unit * Entries :=
  match pv_check p with
  | None => (Raise (mk_exn ValueError NoInfo), es)
  | Some check =>
      let suffix := match name with
                    | Some n => if decide (n = "") then pv_short_name p else n
                    | None => pv_short_name p end in
      add_check config ("provider:" +:+ suffix) true check critical timeout es
  end.

(** [_register_active_providers] *)
Fixpoint register_active_providers (config : HealthChecksConfig) (ps : list provider)
    (es : Entries) : outcome exn unit * Entries :=
  match ps with
  | [] => (Return tt, es)
  | p :: ps =>
      match pv_check p with
      | None => register_active_providers config ps es
      | Some check =>
          if existsb (fun e => bool_decide (en_func e.2 = AsyncFunc check)) es
          then register_active_providers config ps es
          else
            let check_name := "provider:" +:+ pv_short_name p in
            match dict_get check_name es with
            | Some _ => register_active_providers config ps es
            | None =>
                match add_check config check_name true check true None es with
                | (Return _, es) => register_active_providers config ps es
                | (Raise e, es) => (Raise e, es)
                end
            end
      end
  end.

(** [selected] of [run] *)
Definition selected (critical_only : bool) (excluded : list string) (es : Entries) : Entries :=
  List.filter (fun '(name, entry) =>
    bool_decide (name ∉ excluded) && (negb critical_only || en_critical entry)) es.

(** ** One execution of a check *)

Definition exn_message (e : exn) : string :=
  match exn_inf e with HealthInfo m _ => m | _ => "" end.
Definition exn_details (e : exn) : option HealthDetails :=
  match exn_inf e with HealthInfo _ d => d | _ => None end.

(** [_run_check_inner].  [body] is what the check function comes to, [start] when
    its deadline was set, [fired] whether the timer of the deadline went off, and
    [cancels] the number of cancel requests to the task at either end. *)
Definition run_check_inner (entry : Entry) (start : Q) (cancels0 cancels1 : Z) (fired : bool)
    (body : outcome exn (option HealthDetails)) : outcome exn CheckResult :=
  let scope := timeout_enter start (en_timeout entry) cancels0 in
  let scope := if fired then on_timeout scope else scope in
  let '(_, scope, raised) :=
    timeout_exit cancels1 scope (match body with Raise e => Some e | Return _ => None end) in
  let failed error details := Return (mkCheckResult ERROR (en_critical entry) (Some error) details) in
  match raised, body with
  | None, Return details => Return (mkCheckResult OK (en_critical entry) None details)
  | None, Raise e | Some e, _ =>
      if isinstance e TimeoutError && timeout_expired scope
      then failed (TimedOutText (en_name entry) (en_timeout entry)) None
      else if isinstance e HealthError then failed (ReportedText (exn_message e)) (exn_details e)
      else if is_exception e then failed (UnexpectedText e) None
      else Raise e
  end.

(** ** Rounds and their callers *)

(** Where a caller of [_get_or_run] is: before the loop's test, at
    [entry.inflight.wait()], in its execution of the check, or done. *)
Inductive caller_phase : Type :=
| AtLoop
| AwaitEvent (event : nat)
| RunningCheck (event : nat) (start : Q)
| Answered (r : CheckResult)
| Aborted (e : exn).

(** A caller with its [entry], known by name, and the [cache_ttl] of its round. *)
Record check_caller : Type := mkCheckCaller {
  ca_check : string;
  ca_ttl : Q;
  ca_began : Q;
  ca_phase : caller_phase;
}.

Definition moves (p : caller_phase) (c : check_caller) : check_caller :=
  mkCheckCaller (ca_check c) (ca_ttl c) (ca_began c) p.

(** A round: when [run] was called, and the callers of its task group. *)
Record round : Type := mkRound { rd_began : Q; rd_callers : list (string * nat) }.

(** A finished execution, with the [cache_ttl] of the caller that ran it. *)
Record execution : Type := mkExecution {
  ex_check : string;
  ex_ttl : Q;
  ex_start : Q;
  ex_finish : Q;
  ex_result : CheckResult;
}.

(** [he_events]: the events that were made, set or not. *)
Record health : Type := mkHealth {
  he_now : Q;
  he_config : HealthChecksConfig;
  he_entries : Entries;
  he_events : gmap nat bool;
  he_callers : gmap nat check_caller;
  he_rounds : list round;
  he_log : list execution;
}.

Definition set_phase (i : nat) (p : caller_phase) (c : check_caller) (s : health) : health :=
  mkHealth (he_now s) (he_config s) (he_entries s) (he_events s)
    (<[i := moves p c]> (he_callers s)) (he_rounds s) (he_log s).

Definition set_entry (entry : Entry) (s : health) : health :=
  mkHealth (he_now s) (he_config s) (dict_set (en_name entry) entry (he_entries s)) (he_events s)
    (he_callers s) (he_rounds s) (he_log s).

Definition set_event (event : nat) (b : bool) (s : health) : health :=
  mkHealth (he_now s) (he_config s) (he_entries s) (<[event := b]> (he_events s))
    (he_callers s) (he_rounds s) (he_log s).

Definition log_execution (x : execution) (s : health) : health :=
  mkHealth (he_now s) (he_config s) (he_entries s) (he_events s) (he_callers s) (he_rounds s)
    (he_log s ++ [x]).

(** The test of the cache in the loop. *)
Definition cached (ttl now : Q) (entry : Entry) : option CheckResult :=
  match en_cached_result entry with
  | Some r => if (0 <? ttl)%py && (now - en_cached_at entry <? ttl)%py then Some r else None
  | None => None
  end.

(** [_get_or_run] from the head of its loop to an [await]; [fresh] is the event
    made when the caller takes the lead. *)
Definition get_or_run (i : nat) (c : check_caller) (entry : Entry) (fresh : nat) (s : health) : health :=
  match cached (ca_ttl c) (he_now s) entry with
  | Some r => set_phase i (Answered r) c s
  | None =>
      match en_inflight entry with
      | Some event => set_phase i (AwaitEvent event) c s
      | None =>
          set_phase i (RunningCheck fresh (he_now s)) c
            (set_event fresh false
               (set_entry (mkEntry (en_name entry) (en_func entry) (en_critical entry)
                  (en_timeout entry) (en_cached_result entry) (en_cached_at entry) (Some fresh)) s))
      end
  end.

(** The rest of the leader's turn: the result is stored, and the [finally]. *)
Definition check_finished (i : nat) (c : check_caller) (entry : Entry) (event : nat) (start : Q)
    (r : outcome exn CheckResult) (s : health) : health :=
  let released e := mkEntry (en_name e) (en_func e) (en_critical e) (en_timeout e)
                      (en_cached_result e) (en_cached_at e) None in
  match r with
  | Return result =>
      let stored := mkEntry (en_name entry) (en_func entry) (en_critical entry) (en_timeout entry)
                      (Some result) (he_now s) (en_inflight entry) in
      set_phase i (Answered result) c
        (set_event event true
           (set_entry (released stored)
              (log_execution (mkExecution (en_name entry) (ca_ttl c) start (he_now s) result) s)))
  | Raise e => set_phase i (Aborted e) c (set_event event true (set_entry (released entry) s))
  end.

(** [run] up to its task group: one caller per selected check, numbered from
    [next] on. *)
Fixpoint spawn (next : nat) (ttl now : Q) (sel : Entries) : list (string * nat) * list (nat * check_caller) :=
  match sel with
  | [] => ([], [])
  | (name, _) :: sel =>
      let '(ids, cs) := spawn (S next) ttl now sel in
      ((name, next) :: ids, (next, mkCheckCaller name ttl now AtLoop) :: cs)
  end.

Definition start_round (critical_only : bool) (excluded : list string) (next : nat) (s : health) :
    health :=
  let '(ids, cs) := spawn next (hc_cache_ttl (he_config s)) (he_now s)
                      (selected critical_only excluded (he_entries s)) in
  mkHealth (he_now s) (he_config s) (he_entries s) (he_events s)
    (list_to_map cs ∪ he_callers s) (he_rounds s ++ [mkRound (he_now s) ids]) (he_log s).

(** [_aggregate_status] *)
Fixpoint aggregate_status (rs : list CheckResult) : HealthStatus :=
  match rs with
  | [] => OK
  | r :: rs =>
      if bool_decide (cr_status r = ERROR) && cr_critical r then ERROR else aggregate_status rs
  end.

(** The results of a round's callers, [None] until all have answered. *)
Fixpoint round_results (callers : gmap nat check_caller) (ids : list (string * nat)) :
    option (list (string * CheckResult)) :=
  match ids with
  | [] => Some []
  | (name, i) :: ids =>
      match callers !! i with
      | Some (mkCheckCaller _ _ _ (Answered r)) =>
          rs ← round_results callers ids; Some ((name, r) :: rs)
      | _ => None
      end
  end.

(** [run] from the end of its task group on; a round of no check reports OK. *)
Definition round_report (s : health) (rd : round) : option HealthReport :=
  rs ← round_results (he_callers s) (rd_callers rd);
  Some (mkHealthReport (aggregate_status rs.*2) rs).

Definition unused (next : nat) (callers : gmap nat check_caller) : Prop :=
  forall i, (next <= i)%nat -> callers !! i = None.

Inductive health_step : health -> health -> Prop :=
(* time passes, and the configuration is swapped *)
| HealthTick s now config :
    (he_now s <= now)%Q -> (0 <= hc_cache_ttl config)%Q ->
    health_step s (mkHealth now config (he_entries s) (he_events s) (he_callers s) (he_rounds s)
                     (he_log s))
(* a check is registered *)
| HealthAdd s name is_async func critical timeout es :
    add_check (he_config s) name is_async func critical timeout (he_entries s) = (Return tt, es) ->
    health_step s (mkHealth (he_now s) (he_config s) es (he_events s) (he_callers s) (he_rounds s)
                     (he_log s))
(* [run] is called *)
| HealthRound s critical_only excluded next :
    unused next (he_callers s) -> health_step s (start_round critical_only excluded next s)
(* a caller runs from the loop's test *)
| HealthLoop s i c entry fresh :
    he_callers s !! i = Some c -> ca_phase c = AtLoop ->
    dict_get (ca_check c) (he_entries s) = Some entry -> he_events s !! fresh = None ->
    health_step s (get_or_run i c entry fresh s)
(* a waiting caller resumes, its event being set *)
| HealthWake s i c event :
    he_callers s !! i = Some c -> ca_phase c = AwaitEvent event ->
    he_events s !! event = Some true -> health_step s (set_phase i AtLoop c s)
(* the check function comes to an end; its timer may have gone off by then *)
| HealthFinish s i c event start entry cancels0 cancels1 fired body :
    he_callers s !! i = Some c -> ca_phase c = RunningCheck event start ->
    dict_get (ca_check c) (he_entries s) = Some entry ->
    (fired = true -> (start + en_timeout entry <= he_now s)%Q) ->
    health_step s (check_finished i c entry event start
                     (run_check_inner entry start cancels0 cancels1 fired body) s)
(* a caller that does not run a check is cancelled *)
| HealthCancel s i c :
    he_callers s !! i = Some c ->
    (ca_phase c = AtLoop \/ exists event, ca_phase c = AwaitEvent event) ->
    health_step s (set_phase i (Aborted cancelled_error) c s).

(** ** The registry is well formed *)

Lemma dict_get_perm {V} (es es' : list (string * V)) k :
  es ≡ₚ es' -> dict_wf es -> dict_get k es = dict_get k es'.
Proof.
  intros Hp Hwf.
  assert (Hwf' : dict_wf es') by (unfold dict_wf in *; by rewrite <- Hp).
  destruct (dict_get k es) as [v|] eqn:E; symmetry.
  - apply dict_in_get; [done|]. rewrite <- Hp. by apply dict_get_in.
  - apply dict_get_none. rewrite <- Hp. by apply dict_get_none.
Qed.

Lemma sort_entries_get k es : dict_wf es -> dict_get k (sort_entries es) = dict_get k es.
Proof.
  intros Hwf. symmetry. apply dict_get_perm; [|done]. symmetry. apply merge_sort_Permutation.
Qed.

Definition name_le (a b : string) : Prop := String.leb a b = true.

Lemma sorted_keys es : Sorted key_le es -> Sorted name_le es.*1.
Proof.
  induction 1 as [|[n e] es Hs IH Hh]; simpl; constructor; [done|].
  destruct Hh; simpl; by constructor.
Qed.

(** Unique names in alphabetical order, each within the documented form. *)
Definition registry_ok (es : Entries) : Prop :=
  dict_wf es /\ Sorted name_le es.*1 /\
  forall name e, dict_get name es = Some e ->
    en_name e = name /\ name_matches name = true /\ (String.length name <= CHECK_NAME_MAX_LEN)%nat.

Lemma add_check_ok config name is_async func critical timeout es r es' :
  registry_ok es -> add_check config name is_async func critical timeout es = (r, es') ->
  registry_ok es' /\
  match r with
  | Raise _ => es' = es
  | Return _ => dict_get name es = None /\ forall n, dict_get n es' =
      if decide (name = n)
      then Some (mkEntry name (normalize is_async func) critical
                   (default (hc_timeout config) timeout) None 0 None)
      else dict_get n es
  end.
Proof.
  intros Hok. unfold add_check. destruct (_ || _) eqn:Ev; [by intros [= <- <-]|].
  destruct (dict_get name es) eqn:En; [by intros [= <- <-]|]. intros [= <- <-].
  apply orb_false_iff in Ev as [[Hne Hlen]%orb_false_iff Hm].
  apply negb_false_iff in Hm. apply Nat.ltb_ge in Hlen.
  destruct Hok as (Hwf & _ & Hnames).
  set (e := mkEntry _ _ _ _ _ _ _).
  assert (Hget : forall n, dict_get n (sort_entries (dict_set name e es)) =
                           if decide (name = n) then Some e else dict_get n es).
  { intros n. rewrite sort_entries_get by by apply dict_set_wf. apply dict_get_set. }
  split; [|done]. split_and!.
  - unfold dict_wf, sort_entries. rewrite merge_sort_Permutation. by apply dict_set_wf.
  - apply sorted_keys, Sorted_merge_sort. apply _.
  - intros n e'. rewrite Hget. destruct (decide (name = n)) as [<-|]; [|apply Hnames].
    by intros [= <-].
Qed.

(** Storing into a check that is there keeps the registry. *)
Lemma dict_set_keys {V} (es : list (string * V)) k v :
  is_Some (dict_get k es) -> (dict_set k v es).*1 = es.*1.
Proof.
  induction es as [|[k' v'] es IH]; simpl; [by intros [? ?]|].
  case_decide as Hd; simpl; [by subst|]. intros Hs. f_equal. by apply IH.
Qed.

Lemma set_registry_ok es e e0 :
  registry_ok es -> dict_get (en_name e) es = Some e0 -> registry_ok (dict_set (en_name e) e es).
Proof.
  intros (Hwf & Hs & Hn) He. split_and!.
  - by apply dict_set_wf.
  - by rewrite dict_set_keys by eauto.
  - intros n e'. rewrite dict_get_set. destruct (decide (en_name e = n)) as [<-|]; [|apply Hn].
    intros [= <-]. split; [done|]. by apply (Hn _ e0).
Qed.

(** ** Single flight *)

Definition running (s : health) (i : nat) (name : string) (event : nat) : Prop :=
  exists c start, he_callers s !! i = Some c /\ ca_check c = name /\
    ca_phase c = RunningCheck event start.

(** The event of a check is unset while, and only while, one caller runs it; who
    waits for an event that is unset waits for that caller. *)
Record flight_ok (s : health) : Prop := {
  fo_registry : registry_ok (he_entries s);
  fo_check i c : he_callers s !! i = Some c -> is_Some (dict_get (ca_check c) (he_entries s));
  fo_running i name event : running s i name event ->
    exists e, dict_get name (he_entries s) = Some e /\ en_inflight e = Some event;
  fo_event name e event : dict_get name (he_entries s) = Some e -> en_inflight e = Some event ->
    he_events s !! event = Some false /\ exists i, running s i name event;
  fo_unique i j n m event : running s i n event -> running s j m event -> i = j;
  fo_waiting i c event : he_callers s !! i = Some c -> ca_phase c = AwaitEvent event ->
    he_events s !! event = Some true \/
    he_events s !! event = Some false /\
    exists e, dict_get (ca_check c) (he_entries s) = Some e /\ en_inflight e = Some event;
}.

Lemma flight_same_event s n m en em event :
  flight_ok s -> dict_get n (he_entries s) = Some en -> en_inflight en = Some event ->
  dict_get m (he_entries s) = Some em -> en_inflight em = Some event -> n = m.
Proof.
  intros Hok Hn Hin Hm Him.
  destruct (fo_event _ Hok _ _ _ Hn Hin) as [_ [i Hi]].
  destruct (fo_event _ Hok _ _ _ Hm Him) as [_ [j Hj]].
  pose proof (fo_unique _ Hok _ _ _ _ _ Hi Hj) as <-.
  destruct Hi as (c & st & Hc & <- & _), Hj as (c' & st' & Hc' & <- & _). congruence.
Qed.

Lemma running_set_phase s i c p j n event :
  he_callers s !! i = Some c -> (forall ev st, p <> RunningCheck ev st) ->
  running (set_phase i p c s) j n event <-> j <> i /\ running s j n event.
Proof.
  intros Hc Hp. unfold running. simpl. destruct (decide (i = j)) as [<-|Hne].
  - split; [|by intros [? _]]. intros (c' & st & Hl & _ & Hr). rewrite lookup_insert_eq in Hl.
    injection Hl as <-. simpl in Hr. by edestruct Hp.
  - rewrite lookup_insert_ne by done. naive_solver.
Qed.

(** A caller that runs no check moves on without running one. *)
Lemma flight_move s i c p :
  flight_ok s -> he_callers s !! i = Some c ->
  (forall ev st, ca_phase c <> RunningCheck ev st) -> (forall ev st, p <> RunningCheck ev st) ->
  (forall event, p = AwaitEvent event -> exists e, dict_get (ca_check c) (he_entries s) = Some e /\
     en_inflight e = Some event) ->
  flight_ok (set_phase i p c s).
Proof.
  intros Hok Hc Hold Hnew Hwait.
  assert (Hrun : forall j n event, running (set_phase i p c s) j n event <-> running s j n event).
  { intros j n event. rewrite running_set_phase by done. split; [tauto|]. intros Hr. split; [|done].
    intros ->. destruct Hr as (c' & st & Hc' & _ & Hph). rewrite Hc in Hc'. injection Hc' as <-.
    by edestruct Hold. }
  split; simpl.
  - apply Hok.
  - intros j c'. destruct (decide (i = j)) as [<-|Hne].
    + rewrite lookup_insert_eq. intros [= <-]. exact (fo_check _ Hok i c Hc).
    + rewrite lookup_insert_ne by done. by apply (fo_check _ Hok j).
  - intros j n event Hr%Hrun. by apply (fo_running _ Hok j).
  - intros n e event Hn He. destruct (fo_event _ Hok _ _ _ Hn He) as [Hf [j Hj]].
    split; [done|]. exists j. by apply Hrun.
  - intros j k n m event Hj%Hrun Hk%Hrun. by eapply (fo_unique _ Hok).
  - intros j c' event. destruct (decide (i = j)) as [<-|Hne].
    + rewrite lookup_insert_eq. intros [= <-]. simpl. intros ->.
      destruct (Hwait _ eq_refl) as (e & He & Hi). right. split; [|by exists e].
      by destruct (fo_event _ Hok _ _ _ He Hi).
    + rewrite lookup_insert_ne by done. by apply (fo_waiting _ Hok).
Qed.

(** Nobody runs the check, and the caller takes the lead. *)
Lemma flight_lead s i c entry entry' fresh start :
  flight_ok s -> he_callers s !! i = Some c ->
  (forall ev st, ca_phase c <> RunningCheck ev st) ->
  dict_get (ca_check c) (he_entries s) = Some entry -> en_inflight entry = None ->
  en_name entry' = en_name entry -> en_inflight entry' = Some fresh ->
  he_events s !! fresh = None ->
  flight_ok (set_phase i (RunningCheck fresh start) c (set_event fresh false (set_entry entry' s))).
Proof.
  intros Hok Hc Hold He Hi Hname Hi' Hfresh.
  pose proof (fo_registry _ Hok) as Hreg. destruct Hreg as (Hwf & Hsort & Hnames).
  destruct (Hnames _ _ He) as (Hen & _). rewrite Hen in Hname.
  set (s' := set_phase _ _ _ _).
  assert (Hget : forall n, dict_get n (he_entries s') =
    if decide (ca_check c = n) then Some entry' else dict_get n (he_entries s)).
  { intros n. simpl. by rewrite dict_get_set, Hname. }
  assert (Hrun : forall j n event, running s' j n event <->
    (j = i /\ n = ca_check c /\ event = fresh) \/ running s j n event).
  { intros j n event. unfold running. simpl. destruct (decide (i = j)) as [<-|Hne].
    - rewrite lookup_insert_eq. split.
      + intros (c' & st & [= <-] & <- & [= <- <-]). by left.
      + intros [(_ & -> & ->)|(c' & st & Hl & _ & Hr)]; [by eexists _, _|].
        rewrite Hc in Hl. injection Hl as <-. by edestruct Hold.
    - rewrite lookup_insert_ne by done. naive_solver. }
  assert (Hev : forall event b, he_events s !! event = Some b -> he_events s' !! event = Some b).
  { intros event b Hb. simpl. rewrite lookup_insert_ne; [done|]. congruence. }
  assert (Hother : forall n e event, dict_get n (he_entries s) = Some e ->
    en_inflight e = Some event -> n <> ca_check c) by congruence.
  split.
  - apply set_registry_ok with entry; [done|]. by rewrite Hname.
  - intros j c' Hj. rewrite Hget. case_decide; [done|].
    simpl in Hj. destruct (decide (i = j)) as [<-|Hne].
    + rewrite lookup_insert_eq in Hj. by injection Hj as <-.
    + rewrite lookup_insert_ne in Hj by done. by apply (fo_check _ Hok j).
  - intros j n event [(_ & -> & ->)|Hr]%Hrun.
    + exists entry'. by rewrite Hget, decide_True.
    + destruct (fo_running _ Hok _ _ _ Hr) as (e & Hn & Hin). exists e. split; [|done].
      rewrite Hget, decide_False; [done|]. intros <-. by eapply Hother.
  - intros n e event. rewrite Hget. destruct (decide (ca_check c = n)) as [<-|Hne].
    + intros [= <-]. rewrite Hi'. intros [= <-]. simpl. rewrite lookup_insert_eq. split; [done|].
      exists i. apply Hrun. by left.
    + intros Hn Hin. destruct (fo_event _ Hok _ _ _ Hn Hin) as [Hf [j Hj]].
      split; [by apply Hev|]. exists j. apply Hrun. by right.
  - assert (Hnofresh : forall j n, ~ running s j n fresh).
    { intros j n Hr. destruct (fo_running _ Hok _ _ _ Hr) as (e & Hn & Hin).
      destruct (fo_event _ Hok _ _ _ Hn Hin). congruence. }
    intros j k n m event [(-> & _ & ->)|Hj]%Hrun [(-> & _ & Hef)|Hk]%Hrun; [done| | |].
    + by apply Hnofresh in Hk.
    + subst event. by apply Hnofresh in Hj.
    + by eapply (fo_unique _ Hok).
  - intros j c' event Hj Hp. simpl in Hj. destruct (decide (i = j)) as [<-|Hne].
    { rewrite lookup_insert_eq in Hj. by injection Hj as <-. }
    rewrite lookup_insert_ne in Hj by done.
    destruct (fo_waiting _ Hok _ _ _ Hj Hp) as [Ht|[Hf (e & Hn & Hin)]]; [left; by apply Hev|right].
    split; [by apply Hev|]. exists e. split; [|done].
    rewrite Hget, decide_False; [done|]. intros Heq. by eapply Hother.
Qed.

(** The leader is done: its event is set. *)
Lemma flight_done s i c entry entry' event start p :
  flight_ok s -> he_callers s !! i = Some c -> ca_phase c = RunningCheck event start ->
  dict_get (ca_check c) (he_entries s) = Some entry ->
  en_name entry' = en_name entry -> en_inflight entry' = None ->
  (forall ev st, p <> RunningCheck ev st) -> (forall ev, p <> AwaitEvent ev) ->
  flight_ok (set_phase i p c (set_event event true (set_entry entry' s))).
Proof.
  intros Hok Hc Hp He Hname Hi' Hnew Hnwait.
  pose proof (fo_registry _ Hok) as Hreg. destruct Hreg as (Hwf & Hsort & Hnames).
  destruct (Hnames _ _ He) as (Hen & _). rewrite Hen in Hname.
  assert (Hlead : running s i (ca_check c) event) by by exists c, start.
  destruct (fo_running _ Hok _ _ _ Hlead) as (e0 & He0 & Hi0). rewrite He in He0. injection He0 as <-.
  set (s' := set_phase _ _ _ _).
  assert (Hget : forall n, dict_get n (he_entries s') =
    if decide (ca_check c = n) then Some entry' else dict_get n (he_entries s)).
  { intros n. simpl. by rewrite dict_get_set, Hname. }
  assert (Hrun : forall j n ev, running s' j n ev <-> j <> i /\ running s j n ev).
  { intros j n ev. by apply (running_set_phase (set_event event true (set_entry entry' s))). }
  assert (Hdiff : forall j n ev, j <> i -> running s j n ev -> n <> ca_check c).
  { intros j n ev Hne Hr ->. destruct (fo_running _ Hok _ _ _ Hr) as (e & Hn & Hin).
    rewrite He in Hn. injection Hn as <-. rewrite Hi0 in Hin. injection Hin as <-.
    by pose proof (fo_unique _ Hok _ _ _ _ _ Hr Hlead). }
  assert (Hev : forall n e ev, n <> ca_check c -> dict_get n (he_entries s) = Some e ->
    en_inflight e = Some ev -> ev <> event).
  { intros n e ev Hne Hn Hin ->. apply Hne. by eapply flight_same_event. }
  split.
  - apply set_registry_ok with entry; [done|]. by rewrite Hname.
  - intros j c' Hj. rewrite Hget. case_decide; [done|].
    simpl in Hj. destruct (decide (i = j)) as [<-|Hne].
    + rewrite lookup_insert_eq in Hj. by injection Hj as <-.
    + rewrite lookup_insert_ne in Hj by done. by apply (fo_check _ Hok j).
  - intros j n ev [Hne Hr]%Hrun. destruct (fo_running _ Hok _ _ _ Hr) as (e & Hn & Hin).
    exists e. split; [|done]. rewrite Hget, decide_False; [done|]. intros <-. by eapply Hdiff.
  - intros n e ev. rewrite Hget. destruct (decide (ca_check c = n)) as [<-|Hne].
    + intros [= <-]. by rewrite Hi'.
    + intros Hn Hin. destruct (fo_event _ Hok _ _ _ Hn Hin) as [Hf [j Hj]]. split.
      * simpl. rewrite lookup_insert_ne; [done|]. intros <-. by eapply (Hev n e event).
      * exists j. apply Hrun. split; [|done]. intros ->. apply Hne.
        destruct Hj as (c' & st & Hc' & <- & _). by simplify_eq.
  - intros j k n m ev [_ Hj]%Hrun [_ Hk]%Hrun. by eapply (fo_unique _ Hok).
  - intros j c' ev Hj Hpj. simpl in Hj. destruct (decide (i = j)) as [<-|Hne].
    { rewrite lookup_insert_eq in Hj. injection Hj as <-. by edestruct Hnwait. }
    rewrite lookup_insert_ne in Hj by done. simpl.
    destruct (decide (event = ev)) as [<-|Hde]; [left; by rewrite lookup_insert_eq|].
    rewrite lookup_insert_ne by done.
    destruct (fo_waiting _ Hok _ _ _ Hj Hpj) as [Ht|[Hf (e & Hn & Hin)]]; [by left|right].
    split; [done|]. exists e. split; [|done].
    fold (he_entries s'). rewrite Hget, decide_False; [done|]. intros Heq. rewrite <- Heq in Hn.
    rewrite He in Hn. by simplify_eq.
Qed.

Lemma spawn_spec next ttl now sel ids cs :
  spawn next ttl now sel = (ids, cs) ->
  ids.*1 = sel.*1 /\
  (forall i c, (i, c) ∈ cs -> (next <= i)%nat /\ c = mkCheckCaller (ca_check c) ttl now AtLoop /\
     ca_check c ∈ sel.*1) /\
  (forall name i, (name, i) ∈ ids -> (list_to_map cs : gmap nat check_caller) !! i =
     Some (mkCheckCaller name ttl now AtLoop)).
Proof.
  revert next ids cs. induction sel as [|[name e] sel IH]; intros next ids cs; simpl.
  { intros [= <- <-]. split_and!; [done| |]; intros ? ?; by rewrite elem_of_nil. }
  destruct (spawn (S next) ttl now sel) as [ids' cs'] eqn:Es. intros [= <- <-].
  destruct (IH _ _ _ Es) as (Hk & Hcs & Hids). split_and!.
  - change (name :: ids'.*1 = name :: sel.*1). by rewrite Hk.
  - intros i c [[= -> ->]|Hin]%elem_of_cons; simpl; [split_and!; [lia|done|left]|].
    destruct (Hcs _ _ Hin) as (Hle & Hc & Hn). split_and!; [lia|done|by right].
  - intros n i Hin. simpl. apply elem_of_cons in Hin as [[= -> ->]|Hin]; [by rewrite lookup_insert_eq|].
    rewrite lookup_insert_ne; [by apply Hids|]. intros <-.
    pose proof (Hids _ _ Hin) as Hl. apply elem_of_list_to_map_2 in Hl.
    destruct (Hcs _ _ Hl). lia.
Qed.

(** A caller after [run] was called is an old one, or a new one that has not
    moved. *)
Lemma start_round_callers critical_only excluded next s i c :
  unused next (he_callers s) ->
  he_callers (start_round critical_only excluded next s) !! i = Some c <->
  he_callers s !! i = Some c \/
  (he_callers s !! i = None /\
   (list_to_map (spawn next (hc_cache_ttl (he_config s)) (he_now s)
      (selected critical_only excluded (he_entries s))).2 : gmap nat check_caller) !! i = Some c).
Proof.
  intros Hun. unfold start_round. destruct (spawn _ _ _ _) as [ids cs] eqn:Es. simpl.
  destruct (spawn_spec _ _ _ _ _ _ Es) as (_ & Hcs & _).
  rewrite lookup_union_Some_raw. split.
  - intros [Hl|[Hn Hl]]; [|by left]. right. split; [|done].
    apply elem_of_list_to_map_2 in Hl. apply Hun. by destruct (Hcs _ _ Hl).
  - intros [Hl|[Hn Hl]]; [|by left]. right. split; [|done].
    destruct (list_to_map cs !! i) as [c'|] eqn:E; [|done].
    apply elem_of_list_to_map_2 in E. destruct (Hcs _ _ E) as [Hle _].
    by rewrite Hun in Hl.
Qed.

Lemma flight_start_round critical_only excluded next s :
  flight_ok s -> unused next (he_callers s) -> flight_ok (start_round critical_only excluded next s).
Proof.
  intros Hok Hun.
  pose proof (fun i c => start_round_callers critical_only excluded next s i c Hun) as Hcallers.
  assert (Hnew : forall i c, he_callers (start_round critical_only excluded next s) !! i = Some c ->
    he_callers s !! i = Some c \/
    (ca_phase c = AtLoop /\ is_Some (dict_get (ca_check c) (he_entries s)))).
  { intros i c [Hl|[_ Hl]]%Hcallers; [by left|right].
    destruct (spawn _ _ _ _) as [ids cs] eqn:Es. simpl in Hl.
    destruct (spawn_spec _ _ _ _ _ _ Es) as (_ & Hcs & _).
    apply elem_of_list_to_map_2 in Hl. destruct (Hcs _ _ Hl) as (_ & Hceq & Hsel).
    split; [by rewrite Hceq|]. clear Hceq.
    apply list_elem_of_fmap in Hsel as ([n e] & Hn & Hin). apply list_elem_of_In in Hin.
    apply List.filter_In in Hin as [Hin _]. apply list_elem_of_In in Hin. simpl in Hn.
    destruct (fo_registry _ Hok) as (Hwf & _). rewrite Hn. exists e. by apply dict_in_get. }
  assert (Hsame : he_entries (start_round critical_only excluded next s) = he_entries s /\
    he_events (start_round critical_only excluded next s) = he_events s).
  { unfold start_round. by destruct (spawn _ _ _ _). }
  destruct Hsame as [Hent Hevt].
  assert (Hrun : forall i n ev, running (start_round critical_only excluded next s) i n ev <->
    running s i n ev).
  { intros i n ev. split; intros (c & st & Hc & Hn & Hp).
    - apply Hnew in Hc as [Hc|[Hc _]]; [by exists c, st|congruence].
    - exists c, st. split_and!; [|done..]. apply Hcallers. by left. }
  split; rewrite ?Hent, ?Hevt.
  - apply Hok.
  - intros i c [Hc|[_ Hc]]%Hnew; [by apply (fo_check _ Hok i)|done].
  - intros i n ev Hr%Hrun. by apply (fo_running _ Hok i).
  - intros n e ev Hn He. destruct (fo_event _ Hok _ _ _ Hn He) as [Hf [i Hi]].
    split; [done|]. exists i. by apply Hrun.
  - intros i j n m ev Hi%Hrun Hj%Hrun. by eapply (fo_unique _ Hok).
  - intros i c ev [Hc|[Hp' _]]%Hnew Hp; [|congruence]. by apply (fo_waiting _ Hok i).
Qed.

Lemma flight_add s name is_async func critical timeout es :
  flight_ok s ->
  add_check (he_config s) name is_async func critical timeout (he_entries s) = (Return tt, es) ->
  flight_ok (mkHealth (he_now s) (he_config s) es (he_events s) (he_callers s) (he_rounds s)
               (he_log s)).
Proof.
  intros Hok Ea. destruct (add_check_ok _ _ _ _ _ _ _ _ _ (fo_registry _ Hok) Ea) as (Hreg & Hn & Hget).
  assert (Hold : forall n e, dict_get n (he_entries s) = Some e -> dict_get n es = Some e).
  { intros n e He. rewrite Hget, decide_False; [done|]. congruence. }
  split; simpl.
  - done.
  - intros i c Hc. destruct (fo_check _ Hok _ _ Hc) as [e He]. eauto.
  - intros i n ev Hr. destruct (fo_running _ Hok _ _ _ Hr) as (e & He & Hi). eauto.
  - intros n e ev. rewrite Hget. destruct (decide (name = n)); [by intros [= <-]|].
    intros He Hi. by apply (fo_event _ Hok n e).
  - intros i j n m ev. apply (fo_unique _ Hok).
  - intros i c ev Hc Hp. destruct (fo_waiting _ Hok _ _ _ Hc Hp) as [?|[? (e & He & Hi)]]; [by left|].
    right. eauto.
Qed.

Lemma flight_log s x : flight_ok s -> flight_ok (log_execution x s).
Proof. intros []. by split. Qed.

Lemma flight_step s s' : health_step s s' -> flight_ok s -> flight_ok s'.
Proof.
  intros Hst Hok. destruct Hst as [s now config _ _|s name is_async func critical timeout es Ea|
    s critical_only excluded next Hun|s i c entry fresh Hc Hp He Hf|s i c ev Hc Hp Hev|
    s i c ev start entry c0 c1 fired body Hc Hp He Hfired|s i c Hc Hp].
  - destruct Hok. by split.
  - by eapply flight_add.
  - by apply flight_start_round.
  - unfold get_or_run. destruct (cached _ _ entry) as [r|].
    + apply flight_move; try done; congruence.
    + destruct (en_inflight entry) as [ev|] eqn:Ei.
      * apply flight_move; try done; [congruence|]. intros ev' [= <-]. by exists entry.
      * eapply flight_lead with entry; try done; congruence.
  - apply flight_move; try done; congruence.
  - unfold check_finished. destruct (run_check_inner _ _ _ _ _ _) as [r|e].
    + eapply (flight_done (log_execution (mkExecution (en_name entry) (ca_ttl c) start (he_now s) r) s));
        try done. by apply flight_log.
    + by eapply flight_done.
  - apply flight_move; try done. destruct Hp as [->|[? ->]]; congruence.
Qed.

(** The empty registry. *)
Definition health_init (now : Q) (config : HealthChecksConfig) : health :=
  mkHealth now config [] ∅ ∅ [] [].

Lemma flight_init now config : flight_ok (health_init now config).
Proof.
  split; try done.
  - split; [constructor|]. by split; [constructor|].
  - by intros i n ev (c & st & Hc & _).
  - by intros i j n m ev (c & st & Hc & _).
Qed.

(** ** What the cache hands out *)

(** The stored result of a check is the one of its last execution; executions of
    one check follow each other at the distance of the [cache_ttl]; an answer is
    the result of an execution that ended after the call, or less than the
    [cache_ttl] before it. *)
Record results_ok (s : health) : Prop := {
  ho_config : (0 <= hc_cache_ttl (he_config s))%Q;
  ho_log x : x ∈ he_log s -> is_Some (dict_get (ex_check x) (he_entries s)) /\
    (ex_start x <= ex_finish x)%Q /\ (ex_finish x <= he_now s)%Q;
  ho_cached n e r : dict_get n (he_entries s) = Some e -> en_cached_result e = Some r ->
    (en_cached_at e <= he_now s)%Q /\ exists x, x ∈ he_log s /\ ex_check x = n /\
      ex_finish x = en_cached_at e /\ ex_result x = r;
  ho_latest x e : x ∈ he_log s -> dict_get (ex_check x) (he_entries s) = Some e ->
    is_Some (en_cached_result e) /\ (ex_finish x <= en_cached_at e)%Q /\
    cr_critical (ex_result x) = en_critical e;
  ho_began i c : he_callers s !! i = Some c -> (ca_began c <= he_now s)%Q /\ (0 <= ca_ttl c)%Q;
  ho_running i c event start : he_callers s !! i = Some c -> ca_phase c = RunningCheck event start ->
    (ca_began c <= start)%Q /\ (start <= he_now s)%Q /\
    forall x, x ∈ he_log s -> ex_check x = ca_check c -> (ex_finish x + ca_ttl c <= start)%Q;
  ho_answered i c r : he_callers s !! i = Some c -> ca_phase c = Answered r ->
    exists x, x ∈ he_log s /\ ex_check x = ca_check c /\ ex_result x = r /\
      (ca_began c - ca_ttl c <= ex_finish x)%Q;
  ho_spaced a b x y : (a < b)%nat -> he_log s !! a = Some x -> he_log s !! b = Some y ->
    ex_check x = ex_check y -> (ex_finish x + ex_ttl y <= ex_start y)%Q;
}.

(** A caller moves. *)
Lemma results_phase s i c p :
  results_ok s -> he_callers s !! i = Some c ->
  (forall event start, p = RunningCheck event start ->
    (ca_began c <= start)%Q /\ (start <= he_now s)%Q /\
    forall x, x ∈ he_log s -> ex_check x = ca_check c -> (ex_finish x + ca_ttl c <= start)%Q) ->
  (forall r, p = Answered r -> exists x, x ∈ he_log s /\ ex_check x = ca_check c /\
    ex_result x = r /\ (ca_began c - ca_ttl c <= ex_finish x)%Q) ->
  results_ok (set_phase i p c s).
Proof.
  intros Hok Hc Hrun Hans. destruct (ho_began _ Hok _ _ Hc) as [Hb Ht].
  split; simpl; try apply Hok; intros j c';
    (destruct (decide (i = j)) as [<-|Hne];
      [rewrite lookup_insert_eq|rewrite lookup_insert_ne by done; by apply (ho_began _ Hok j) ||
        (by apply (ho_running _ Hok j)) || by apply (ho_answered _ Hok j)]).
  - by intros [= <-].
  - intros event start [= <-]. simpl. apply Hrun.
  - intros r [= <-]. simpl. apply Hans.
Qed.

(** Storing an entry with the same cached result. *)
Lemma results_entry s e e' :
  results_ok s -> dict_get (en_name e') (he_entries s) = Some e ->
  en_cached_result e' = en_cached_result e -> en_cached_at e' = en_cached_at e ->
  en_critical e' = en_critical e -> results_ok (set_entry e' s).
Proof.
  intros Hok He Hr Ha Hcr. split; simpl; try apply Hok.
  - intros x Hx. destruct (ho_log _ Hok _ Hx) as [? ?]. split; [|done]. rewrite dict_get_set.
    by case_decide.
  - intros n e0 r. rewrite dict_get_set. destruct (decide (en_name e' = n)) as [<-|];
      [|apply (ho_cached _ Hok)]. intros [= <-]. rewrite Hr, Ha. by apply (ho_cached _ Hok).
  - intros x e0 Hx. rewrite dict_get_set. destruct (decide (en_name e' = ex_check x)) as [Heq|];
      [|by apply (ho_latest _ Hok)]. intros [= <-]. rewrite Hr, Ha, Hcr.
    apply (ho_latest _ Hok); [done|]. by rewrite <- Heq.
Qed.

Lemma results_event s ev b : results_ok s -> results_ok (set_event ev b s).
Proof. intros Hok. split; apply Hok. Qed.

(** The leader stores its result. *)
Lemma results_store s i c event start entry entry' r :
  flight_ok s -> results_ok s -> he_callers s !! i = Some c ->
  ca_phase c = RunningCheck event start -> dict_get (ca_check c) (he_entries s) = Some entry ->
  en_name entry' = ca_check c -> en_critical entry' = en_critical entry ->
  en_cached_result entry' = Some r -> en_cached_at entry' = he_now s ->
  cr_critical r = en_critical entry ->
  results_ok (set_phase i (Answered r) c (set_event event true (set_entry entry'
    (log_execution (mkExecution (ca_check c) (ca_ttl c) start (he_now s) r) s)))).
Proof.
  intros Hf Hok Hc Hp He Hname Hcr Hres Hat Hr.
  set (x := mkExecution _ _ _ _ _).
  destruct (ho_running _ Hok _ _ _ _ Hc Hp) as (Hbs & Hsn & Hlast).
  destruct (ho_began _ Hok _ _ Hc) as [Hb Ht].
  assert (Hget : forall n, dict_get n (dict_set (en_name entry') entry' (he_entries s)) =
    if decide (ca_check c = n) then Some entry' else dict_get n (he_entries s)).
  { intros n. by rewrite dict_get_set, Hname. }
  assert (Helem : forall y, y ∈ he_log s ++ [x] <-> y ∈ he_log s \/ y = x).
  { intros y. by rewrite elem_of_app, list_elem_of_singleton. }
  split; simpl; [apply Hok|..].
  - intros y [Hy| ->]%Helem; rewrite Hget;
      [|rewrite decide_True by done; split; [done|]; simpl; split; lra].
    destruct (ho_log _ Hok _ Hy) as [? ?]. split; [|done]. by case_decide.
  - intros n e0 r0. rewrite Hget. destruct (decide (ca_check c = n)) as [<-|].
    + intros [= <-]. rewrite Hres, Hat. intros [= <-]. split; [lra|].
      exists x. split; [|done]. apply Helem. by right.
    + intros Hn Hr0. destruct (ho_cached _ Hok _ _ _ Hn Hr0) as (? & y & Hy & Hrest).
      split; [done|]. exists y. split; [|done]. apply Helem. by left.
  - intros y e0 [Hy| ->]%Helem; rewrite Hget.
    + destruct (decide (ca_check c = ex_check y)) as [Heq|].
      * intros [= <-]. rewrite Hres, Hat, Hcr. split; [done|].
        destruct (ho_log _ Hok _ Hy) as (_ & _ & ?). split; [done|].
        apply (ho_latest _ Hok); [done|]. by rewrite <- Heq.
      * by apply (ho_latest _ Hok).
    + rewrite decide_True by done. intros [= <-]. rewrite Hres, Hat, Hcr. split_and!; [done|simpl; lra|done].
  - intros j c'. destruct (decide (i = j)) as [<-|Hne].
    + rewrite lookup_insert_eq. by intros [= <-].
    + rewrite lookup_insert_ne by done. by apply (ho_began _ Hok j).
  - intros j c' event' start'. destruct (decide (i = j)) as [<-|Hne].
    + rewrite lookup_insert_eq. by intros [= <-].
    + rewrite lookup_insert_ne by done. intros Hj Hpj.
      destruct (ho_running _ Hok _ _ _ _ Hj Hpj) as (? & ? & Hl). split_and!; [done..|].
      intros y [Hy| ->]%Helem; [by apply Hl|]. simpl. intros Heq.
      assert (running s j (ca_check c) event') as Hrj by by exists c', start'.
      assert (running s i (ca_check c) event) as Hri by by exists c, start.
      destruct (fo_running _ Hf _ _ _ Hrj) as (ej & Hej & Hij).
      destruct (fo_running _ Hf _ _ _ Hri) as (ei & Hei & Hii).
      assert (event' = event) as -> by congruence.
      by pose proof (fo_unique _ Hf _ _ _ _ _ Hrj Hri).
  - intros j c' r'. destruct (decide (i = j)) as [<-|Hne].
    + rewrite lookup_insert_eq. intros [= <-]. simpl. intros [= <-].
      exists x. split; [apply Helem; by right|]. split_and!; [done..|]. simpl. lra.
    + rewrite lookup_insert_ne by done. intros Hj Hpj.
      destruct (ho_answered _ Hok _ _ _ Hj Hpj) as (y & Hy & Hrest).
      exists y. split; [|done]. apply Helem. by left.
  - intros a b y z Hab Ha Hb' Heq. apply lookup_app_Some in Hb' as [Hb'|[Hlen Hb']].
    + rewrite lookup_app_l in Ha by (apply lookup_lt_Some in Hb'; lia). by eapply (ho_spaced _ Hok).
    + destruct (b - length (he_log s))%nat eqn:Eb; [|done]. simpl in Hb'. injection Hb' as <-.
      rewrite lookup_app_l in Ha by lia. apply Hlast; [by eapply list_elem_of_lookup_2|done].
Qed.

Lemma run_check_critical entry start c0 c1 fired body r :
  run_check_inner entry start c0 c1 fired body = Return r -> cr_critical r = en_critical entry.
Proof.
  unfold run_check_inner. destruct (timeout_exit _ _ _) as [[n sc] [e|]].
  - repeat case_match; by intros [= <-].
  - destruct body as [d|e]; [by intros [= <-]|]. repeat case_match; by intros [= <-].
Qed.

Lemma results_start_round critical_only excluded next s :
  results_ok s -> unused next (he_callers s) -> results_ok (start_round critical_only excluded next s).
Proof.
  intros Hok Hun.
  pose proof (fun i c => start_round_callers critical_only excluded next s i c Hun) as Hcallers.
  assert (Hnew : forall i c, he_callers (start_round critical_only excluded next s) !! i = Some c ->
    he_callers s !! i = Some c \/
    c = mkCheckCaller (ca_check c) (hc_cache_ttl (he_config s)) (he_now s) AtLoop).
  { intros i c [Hl|[_ Hl]]%Hcallers; [by left|right].
    destruct (spawn _ _ _ _) as [ids cs] eqn:Es. simpl in Hl.
    destruct (spawn_spec _ _ _ _ _ _ Es) as (_ & Hcs & _).
    apply elem_of_list_to_map_2 in Hl. by destruct (Hcs _ _ Hl) as (_ & ? & _). }
  assert (Hsame : exists cs rds, start_round critical_only excluded next s =
    mkHealth (he_now s) (he_config s) (he_entries s) (he_events s) cs rds (he_log s)).
  { unfold start_round. destruct (spawn _ _ _ _). by eexists _, _. }
  destruct Hsame as (cs & rds & Hsame). rewrite Hsame in Hnew |- *. simpl in Hnew.
  split; simpl; try apply Hok.
  - intros i c [Hc| ->]%Hnew; [by apply (ho_began _ Hok i)|]. simpl. split; [lra|apply Hok].
  - intros i c ev st [Hc| ->]%Hnew; [by apply (ho_running _ Hok i)|done].
  - intros i c r [Hc| ->]%Hnew; [by apply (ho_answered _ Hok i)|done].
Qed.

Lemma cached_spec ttl now e r :
  cached ttl now e = Some r -> en_cached_result e = Some r /\ (0 < ttl)%Q /\ (now - en_cached_at e < ttl)%Q.
Proof.
  unfold cached. destruct (en_cached_result e) as [r'|]; [|done].
  by destruct (Qlt_bool_spec 0 ttl), (Qlt_bool_spec (now - en_cached_at e) ttl); intros [= ->].
Qed.

Lemma results_step s s' : health_step s s' -> flight_ok s -> results_ok s -> results_ok s'.
Proof.
  intros Hst Hf Hok. destruct Hst as [s now config Hle Hcfg|s name is_async func critical timeout es Ea|
    s critical_only excluded next Hun|s i c entry fresh Hc Hp He Hfr|s i c ev Hc Hp Hev|
    s i c ev start entry c0 c1 fired body Hc Hp He Hfired|s i c Hc Hp].
  - split; simpl; try apply Hok; [done|..].
    + intros x Hx. destruct (ho_log _ Hok _ Hx) as (? & ? & ?). split_and!; [done..|lra].
    + intros n e r Hn Hr. destruct (ho_cached _ Hok _ _ _ Hn Hr). split; [lra|done].
    + intros i c Hc. destruct (ho_began _ Hok _ _ Hc). split; [lra|done].
    + intros i c ev st Hc Hp. destruct (ho_running _ Hok _ _ _ _ Hc Hp) as (? & ? & ?).
      split_and!; [done|lra|done].
  - destruct (add_check_ok _ _ _ _ _ _ _ _ _ (fo_registry _ Hf) Ea) as (Hreg & Hn & Hget).
    split; simpl; try apply Hok.
    + intros x Hx. destruct (ho_log _ Hok _ Hx) as [[e He] ?]. split; [|done].
      rewrite Hget. case_decide; eauto.
    + intros n e r. rewrite Hget. destruct (decide (name = n)); [by intros [= <-]|apply (ho_cached _ Hok)].
    + intros x e Hx. rewrite Hget. destruct (decide (name = ex_check x)) as [->|]; [|by apply (ho_latest _ Hok)].
      destruct (ho_log _ Hok _ Hx) as [[? ?] _]. congruence.
  - by apply results_start_round.
  - destruct (ho_began _ Hok _ _ Hc) as [Hb Ht].
    destruct (fo_registry _ Hf) as (_ & _ & Hnames). destruct (Hnames _ _ He) as (Hname & _).
    unfold get_or_run. destruct (cached _ _ entry) as [r|] eqn:Ecache.
    + apply cached_spec in Ecache as (Hr & Hpos & Hage).
      apply results_phase; [done..|]. intros r' [= <-].
      destruct (ho_cached _ Hok _ _ _ He Hr) as (_ & x & Hx & Hxn & Hxf & Hxr).
      exists x. rewrite Hxf. split_and!; [done..|]. lra.
    + destruct (en_inflight entry) as [ev|]; [by apply results_phase|].
      apply (results_phase (set_event fresh false (set_entry _ s))); [|done| |done].
      * apply results_event, results_entry with entry; try done. simpl. by rewrite Hname.
      * intros ev st [= <- <-]. simpl. split_and!; [done|lra|]. intros x Hx Hxn. rewrite <- Hxn in He.
        destruct (ho_latest _ Hok _ _ Hx He) as ([r Hr] & Hle & _).
        destruct (ho_log _ Hok _ Hx) as (_ & _ & Hxnow).
        destruct (ho_cached _ Hok _ _ _ He Hr) as [Hat _].
        unfold cached in Ecache. rewrite Hr in Ecache.
        destruct (Qlt_bool_spec 0 (ca_ttl c)); simpl in Ecache; [|lra].
        destruct (Qlt_bool_spec (he_now s - en_cached_at entry) (ca_ttl c)); [done|]. lra.
  - by apply results_phase.
  - destruct (fo_registry _ Hf) as (_ & _ & Hnames). destruct (Hnames _ _ He) as (Hname & _).
    unfold check_finished. destruct (run_check_inner _ _ _ _ _ _) as [r|e] eqn:Er.
    + rewrite Hname. eapply results_store with entry; try done.
      by eapply run_check_critical.
    + apply (results_phase (set_event ev true (set_entry _ s))); [|done..].
      apply results_event, results_entry with entry; try done. simpl. by rewrite Hname.
  - by apply results_phase.
Qed.

(** ** Rounds *)

(** The callers of a round are those of its checks, with its time of call. *)
Definition rounds_ok (s : health) : Prop :=
  forall rd name i, rd ∈ he_rounds s -> (name, i) ∈ rd_callers rd ->
    exists c, he_callers s !! i = Some c /\ ca_check c = name /\ ca_began c = rd_began rd.

Lemma rounds_phase s i p c : he_callers s !! i = Some c -> rounds_ok s -> rounds_ok (set_phase i p c s).
Proof.
  intros Hc Hok rd name j Hrd Hin. simpl in *. destruct (Hok _ _ _ Hrd Hin) as (c' & Hc' & Hrest).
  destruct (decide (i = j)) as [<-|Hne].
  - rewrite lookup_insert_eq. eexists. split; [done|]. rewrite Hc in Hc'. by injection Hc' as ->.
  - rewrite lookup_insert_ne by done. eauto.
Qed.

Lemma rounds_step s s' : health_step s s' -> rounds_ok s -> rounds_ok s'.
Proof.
  intros Hst Hok. destruct Hst as [| |s critical_only excluded next Hun|s i c entry fresh Hc Hp He Hfr|
    s i c ev Hc Hp Hev|s i c ev start entry c0 c1 fired body Hc Hp He Hfired|s i c Hc Hp]; try done.
  - intros rd name i Hrd Hin. unfold start_round in Hrd. pose proof (fun c =>
      start_round_callers critical_only excluded next s i c Hun) as Hcallers.
    destruct (spawn _ _ _ _) as [ids cs] eqn:Es. simpl in Hrd.
    destruct (spawn_spec _ _ _ _ _ _ Es) as (_ & Hcs & Hids).
    apply elem_of_app in Hrd as [Hrd|Hrd%list_elem_of_singleton].
    + destruct (Hok _ _ _ Hrd Hin) as (c & Hc & Hrest). exists c. split; [|done]. apply Hcallers. by left.
    + subst rd. simpl in Hin |- *. pose proof (Hids _ _ Hin) as Hl.
      exists (mkCheckCaller name (hc_cache_ttl (he_config s)) (he_now s) AtLoop). split; [|done].
      apply Hcallers. right. split; [|done]. apply elem_of_list_to_map_2 in Hl.
      apply Hun. by destruct (Hcs _ _ Hl).
  - unfold get_or_run. destruct (cached _ _ _); [by apply rounds_phase|].
    destruct (en_inflight entry); by apply rounds_phase.
  - by apply rounds_phase.
  - unfold check_finished. destruct (run_check_inner _ _ _ _ _ _); by apply rounds_phase.
  - by apply rounds_phase.
Qed.

Definition health_ok (s : health) : Prop := flight_ok s /\ results_ok s /\ rounds_ok s.

Lemma health_step_ok s s' : health_step s s' -> health_ok s -> health_ok s'.
Proof.
  intros Hst (Hf & Hh & Hr). split_and!; [by eapply flight_step|by eapply results_step|by eapply rounds_step].
Qed.

Lemma health_init_ok now config : (0 <= hc_cache_ttl config)%Q -> health_ok (health_init now config).
Proof.
  intros Hc. split; [apply flight_init|]. split; [|by intros rd name i Hrd%elem_of_nil].
  split; try done; by intros x Hx%elem_of_nil.
Qed.

(** ** What the checks promise *)

(** Single flight: in every state that any number of rounds can reach, with
    checks that succeed, fail, time out or are cancelled, and callers cancelled
    anywhere, at most one caller is running a given check. *)
Lemma one_execution_per_check (now : Q) (config : HealthChecksConfig) (s : health) (i j : nat)
    (name : string) (ev1 ev2 : nat) :
  (0 <= hc_cache_ttl config)%Q -> rtc health_step (health_init now config) s ->
  running s i name ev1 -> running s j name ev2 -> i = j.
Proof.
  intros Hc Hr Hi Hj.
  destruct (invariant_rtc _ _ health_step_ok _ _ Hr (health_init_ok now config Hc)) as (Hf & _).
  destruct (fo_running _ Hf _ _ _ Hi) as (e & He & Hei).
  destruct (fo_running _ Hf _ _ _ Hj) as (e' & He' & Hej).
  assert (ev2 = ev1) as -> by congruence. by eapply (fo_unique _ Hf).
Qed.

(** A check runs at most once per [cache_ttl], however many rounds ask for it:
    an execution begins no earlier than the [cache_ttl] of its caller after the
    end of every execution before it that was not cancelled. *)
Lemma check_runs_once_per_ttl (now : Q) (config : HealthChecksConfig) (s : health) (a b : nat)
    (x y : execution) :
  (0 <= hc_cache_ttl config)%Q -> rtc health_step (health_init now config) s ->
  (a < b)%nat -> he_log s !! a = Some x -> he_log s !! b = Some y -> ex_check x = ex_check y ->
  (ex_finish x + ex_ttl y <= ex_start y)%Q.
Proof.
  intros Hc Hr.
  destruct (invariant_rtc _ _ health_step_ok _ _ Hr (health_init_ok now config Hc)) as (_ & Hh & _).
  apply (ho_spaced _ Hh).
Qed.

Definition answered_at (i : nat) (s : health) : Prop :=
  exists c r, he_callers s !! i = Some c /\ ca_phase c = Answered r.

Definition waits_or_runs (p : caller_phase) : Prop :=
  match p with Answered _ | Aborted _ => False | _ => True end.

(** The check function returns [details] at once. *)
Lemma run_check_returns entry start details :
  run_check_inner entry start 0 0 false (Return details) =
  Return (mkCheckResult OK (en_critical entry) None details).
Proof. done. Qed.

Lemma leader_finishes s i name event (details : option HealthDetails) :
  flight_ok s -> running s i name event ->
  exists s', health_step s s' /\ he_events s' !! event = Some true /\
    (exists e, dict_get name (he_entries s') = Some e /\ en_inflight e = None) /\
    answered_at i s' /\ forall j, j <> i -> he_callers s' !! j = he_callers s !! j.
Proof.
  intros Hf (c & start & Hc & <- & Hp).
  destruct (fo_check _ Hf _ _ Hc) as [entry He].
  destruct (fo_registry _ Hf) as (_ & _ & Hnames). destruct (Hnames _ _ He) as (Hname & _).
  eexists. split; [by eapply (HealthFinish s i c event start entry 0 0 false (Return details))|].
  rewrite run_check_returns. simpl. rewrite lookup_insert_eq, Hname. split_and!; [done| | |].
  - rewrite dict_get_set_eq. by eexists.
  - eexists _, _. simpl. by rewrite lookup_insert_eq.
  - intros j Hj. by rewrite lookup_insert_ne.
Qed.

(** A caller at the loop answers in two steps when nobody runs its check. *)
Lemma free_check_answers s i c e (details : option HealthDetails) :
  flight_ok s -> he_callers s !! i = Some c -> ca_phase c = AtLoop ->
  dict_get (ca_check c) (he_entries s) = Some e -> en_inflight e = None ->
  exists s', bsteps health_step 2 s s' /\ answered_at i s'.
Proof.
  intros Hf Hc Hp He Hi. pose (ev := fresh (dom (he_events s))).
  assert (Hev : he_events s !! ev = None) by apply not_elem_of_dom, is_fresh.
  pose proof (HealthLoop s i c e ev Hc Hp He Hev) as Hst.
  destruct (cached (ca_ttl c) (he_now s) e) as [r|] eqn:Ecache.
  - eexists. split; [eapply bsteps_l; [done|apply bsteps_refl]|].
    unfold get_or_run. rewrite Ecache. eexists _, _. simpl. by rewrite lookup_insert_eq.
  - pose proof (flight_step _ _ Hst Hf) as Hf'.
    assert (Hrun : running (get_or_run i c e ev s) i (ca_check c) ev).
    { unfold get_or_run. rewrite Ecache, Hi. eexists _, _. simpl. by rewrite lookup_insert_eq. }
    destruct (leader_finishes _ _ _ _ details Hf' Hrun) as (s' & Hst' & _ & _ & Ha & _).
    exists s'. split; [|done]. eapply bsteps_l; [done|]. eapply bsteps_l; [done|apply bsteps_refl].
Qed.

Lemma loop_answers s i c (details : option HealthDetails) :
  flight_ok s -> he_callers s !! i = Some c -> ca_phase c = AtLoop ->
  exists s', bsteps health_step 3 s s' /\ answered_at i s'.
Proof.
  intros Hf Hc Hp. destruct (fo_check _ Hf _ _ Hc) as [e He].
  destruct (en_inflight e) as [ev|] eqn:Ei.
  - destruct (fo_event _ Hf _ _ _ He Ei) as [_ [j Hj]].
    assert (j <> i) as Hne.
    { intros ->. destruct Hj as (c' & st & Hc' & _ & Hp'). congruence. }
    destruct (leader_finishes _ _ _ _ details Hf Hj) as (s1 & Hst & _ & (e1 & He1 & Hi1) & _ & Hother).
    destruct (free_check_answers s1 i c e1 details) as (s2 & Hs2 & Ha); try done.
    { by eapply flight_step. } { by rewrite Hother. }
    exists s2. split; [|done]. by eapply bsteps_l.
  - destruct (free_check_answers s i c e details) as (s2 & Hs2 & Ha); try done.
    exists s2. split; [|done]. eapply bsteps_weaken; [|done]. lia.
Qed.

(** C23 No caller is stranded: from every state that rounds can reach, whoever was
    cancelled on the way there (a leader in the middle of its check included), a
    caller that still waits or runs has its answer four steps later, once the
    checks that run do return: who waits for a leader is woken or takes the lead. *)
Theorem no_caller_is_stranded (now : Q) (config : HealthChecksConfig) (s : health) (i : nat)
    (c : check_caller) (details : option HealthDetails) :
  (0 <= hc_cache_ttl config)%Q -> rtc health_step (health_init now config) s ->
  he_callers s !! i = Some c -> waits_or_runs (ca_phase c) ->
  exists s', bsteps health_step 4 s s' /\ answered_at i s'.
Proof.
  intros Hcfg Hr Hc Hp.
  destruct (invariant_rtc _ _ health_step_ok _ _ Hr (health_init_ok now config Hcfg)) as (Hf & _).
  destruct (ca_phase c) as [|ev|ev st|r|e] eqn:Ep; try done.
  - destruct (loop_answers s i c details) as (s' & Hs' & Ha); try done.
    exists s'. split; [|done]. eapply bsteps_weaken; [|done]. lia.
  - assert (Hwoken : forall s1, flight_ok s1 -> he_callers s1 !! i = Some c ->
      he_events s1 !! ev = Some true -> exists s', bsteps health_step 4 s1 s' /\ answered_at i s').
    { intros s1 Hf1 Hc1 Hev1. pose proof (HealthWake s1 i c ev Hc1 Ep Hev1) as Hst.
      destruct (loop_answers (set_phase i AtLoop c s1) i (moves AtLoop c) details) as (s2 & Hs2 & Ha).
      - by eapply flight_step.
      - simpl. by rewrite lookup_insert_eq.
      - done.
      - exists s2. split; [|done]. by eapply bsteps_l. }
    destruct (fo_waiting _ Hf _ _ _ Hc Ep) as [Hev|[Hev (e & He & Hi)]]; [by apply Hwoken|].
    destruct (fo_event _ Hf _ _ _ He Hi) as [_ [j Hj]].
    assert (j <> i) as Hne.
    { intros ->. destruct Hj as (c' & st & Hc' & _ & Hp'). congruence. }
    destruct (leader_finishes _ _ _ _ details Hf Hj) as (s1 & Hst & Hev1 & (e1 & He1 & Hi1) & _ & Hother).
    assert (Hf1 : flight_ok s1) by by eapply flight_step.
    assert (Hc1 : he_callers s1 !! i = Some c) by by rewrite Hother.
    pose proof (HealthWake s1 i c ev Hc1 Ep Hev1) as Hst1.
    destruct (free_check_answers (set_phase i AtLoop c s1) i (moves AtLoop c) e1 details) as (s2 & Hs2 & Ha).
    + by eapply flight_step.
    + simpl. by rewrite lookup_insert_eq.
    + done.
    + done.
    + done.
    + exists s2. split; [|done]. eapply bsteps_l; [done|]. by eapply bsteps_l.
  - assert (Hrun : running s i (ca_check c) ev) by by exists c, st.
    destruct (leader_finishes _ _ _ _ details Hf Hrun) as (s' & Hst & _ & _ & Ha & _).
    exists s'. split; [|done]. eapply bsteps_l; [done|apply bsteps_refl].
Qed.

(** *** Reports *)

Lemma aggregate_status_error rs :
  aggregate_status rs = ERROR <-> exists r, r ∈ rs /\ cr_status r = ERROR /\ cr_critical r = true.
Proof.
  induction rs as [|r rs IH]; simpl.
  - split; [done|]. by intros (r & ?%elem_of_nil & _).
  - destruct (bool_decide_reflect (cr_status r = ERROR)) as [Hs|Hs]; simpl;
      [destruct (cr_critical r) eqn:Ec|]; [split; [intros _; exists r; by split; [left|]|done]|..];
      rewrite IH; split; intros (x & Hx & Hxs & Hxc); exists x;
      (apply elem_of_cons in Hx as [->|Hx]; [congruence|done]) || by split; [right|].
Qed.

Lemma round_results_spec callers ids rs :
  round_results callers ids = Some rs ->
  rs.*1 = ids.*1 /\
  forall name r, (name, r) ∈ rs -> exists i c, (name, i) ∈ ids /\ callers !! i = Some c /\
    ca_phase c = Answered r.
Proof.
  revert rs. induction ids as [|[name i] ids IH]; intros rs; simpl.
  { intros [= <-]. split; [done|]. by intros ? ? ?%elem_of_nil. }
  destruct (callers !! i) as [[n ttl b [| | |r|]]|] eqn:Ec; try done.
  destruct (round_results callers ids) as [rs'|]; [|done]. intros [= <-].
  destruct (IH _ eq_refl) as [Hk Hin]. split.
  - change (name :: rs'.*1 = name :: ids.*1). by rewrite Hk.
  - intros n' r' [[= -> ->]|Hr]%elem_of_cons.
    + exists i. eexists. split; [left|]. by rewrite Ec.
    + destruct (Hin _ _ Hr) as (j & c & ? & ?). exists j, c. split; [by right|done].
Qed.

(** A report can be trusted: it names the checks of its round in their order;
    every result is the one of an execution of that check that ended after the
    round was called, or less than the [cache_ttl] before; and the status is
    [ERROR] if and only if a critical check failed. *)
Lemma report_is_sound (now : Q) (config : HealthChecksConfig) (s : health) (rd : round)
    (rep : HealthReport) :
  (0 <= hc_cache_ttl config)%Q -> rtc health_step (health_init now config) s ->
  rd ∈ he_rounds s -> round_report s rd = Some rep ->
  (hr_checks rep).*1 = (rd_callers rd).*1 /\
  (forall name r, (name, r) ∈ hr_checks rep -> exists x i c,
     x ∈ he_log s /\ ex_check x = name /\ ex_result x = r /\
     (name, i) ∈ rd_callers rd /\ he_callers s !! i = Some c /\
     (rd_began rd - ca_ttl c <= ex_finish x)%Q /\
     exists e, dict_get name (he_entries s) = Some e /\ cr_critical r = en_critical e) /\
  (hr_status rep = ERROR <->
   exists name r e, (name, r) ∈ hr_checks rep /\ cr_status r = ERROR /\
     dict_get name (he_entries s) = Some e /\ en_critical e = true).
Proof.
  intros Hc Hr Hrd Hrep.
  destruct (invariant_rtc _ _ health_step_ok _ _ Hr (health_init_ok now config Hc)) as (Hf & Hh & Hrs).
  unfold round_report in Hrep. destruct (round_results _ _) as [rs|] eqn:Er; [|done].
  injection Hrep as <-. simpl. destruct (round_results_spec _ _ _ Er) as [Hk Hin].
  assert (Hres : forall name r, (name, r) ∈ rs -> exists x i c,
     x ∈ he_log s /\ ex_check x = name /\ ex_result x = r /\
     (name, i) ∈ rd_callers rd /\ he_callers s !! i = Some c /\
     (rd_began rd - ca_ttl c <= ex_finish x)%Q /\
     exists e, dict_get name (he_entries s) = Some e /\ cr_critical r = en_critical e).
  { intros name r Hnr. destruct (Hin _ _ Hnr) as (i & c & Hi & Hci & Hp).
    destruct (Hrs _ _ _ Hrd Hi) as (c' & Hc' & Hcn & Hcb). rewrite Hci in Hc'. injection Hc' as <-.
    destruct (ho_answered _ Hh _ _ _ Hci Hp) as (x & Hx & Hxn & Hxr & Hxf).
    exists x, i, c. rewrite <- Hcb. split_and!; try done; [congruence|].
    destruct (ho_log _ Hh _ Hx) as [[e He] _]. exists e.
    destruct (ho_latest _ Hh _ _ Hx He) as (_ & _ & Hcr). split; congruence. }
  split_and!; [done|done|]. rewrite aggregate_status_error. split.
  - intros (r & Hr1 & Hst & Hcr). apply list_elem_of_fmap in Hr1 as ([name r'] & -> & Hnr). simpl in *.
    destruct (Hres _ _ Hnr) as (x & i & c & _ & _ & _ & _ & _ & _ & e & He & Hce).
    exists name, r', e. split_and!; try done. congruence.
  - intros (name & r & e & Hnr & Hst & He & Hce).
    destruct (Hres _ _ Hnr) as (x & i & c & _ & _ & _ & _ & _ & _ & e' & He' & Hce').
    exists r. split_and!; [apply list_elem_of_fmap; by exists (name, r)|done|congruence].
Qed.

(** ** Concrete runs *)

Definition pass_time (now : Q) (s : health) : health :=
  mkHealth now (he_config s) (he_entries s) (he_events s) (he_callers s) (he_rounds s) (he_log s).

Definition loop_caller (i fresh : nat) (s : health) : health :=
  match he_callers s !! i with
  | Some c => match dict_get (ca_check c) (he_entries s) with
              | Some e => get_or_run i c e fresh s | None => s end
  | None => s
  end.

Definition finish_caller (i : nat) (body : outcome exn (option HealthDetails)) (s : health) : health :=
  match he_callers s !! i with
  | Some c => match ca_phase c, dict_get (ca_check c) (he_entries s) with
              | RunningCheck ev start, Some e =>
                  check_finished i c e ev start (run_check_inner e start 0 0 false body) s
              | _, _ => s end
  | None => s
  end.

Definition wake_caller (i : nat) (s : health) : health :=
  match he_callers s !! i with Some c => set_phase i AtLoop c s | None => s end.

Definition one_second : HealthChecksConfig := mkHealthConfig 5 1.
Definition uncached : HealthChecksConfig := mkHealthConfig 5 0.

(** One check; two rounds call it at time 0, the first one takes the lead. *)
Definition two_rounds (config : HealthChecksConfig) : health :=
  let s := health_init 0 config in
  let s := mkHealth 0 config (add_check config "db" true 0 true None []).2 ∅ ∅ [] [] in
  loop_caller 1 1 (loop_caller 0 0 (start_round false [] 1 (start_round false [] 0 s))).

Lemma unused_above n m : unused n m -> forall c k, (k <= n)%nat -> unused (S n) (<[k := c]> m).
Proof. intros Hu c k Hk i Hi. rewrite lookup_insert_ne by lia. apply Hu. lia. Qed.

Lemma two_rounds_reachable config :
  rtc health_step (health_init 0 config) (two_rounds config).
Proof.
  unfold two_rounds. eapply rtc_l; [by eapply (HealthAdd _ "db" true 0 true None)|].
  eapply rtc_l; [by apply (HealthRound _ false [] 0)|].
  eapply rtc_l; [apply (HealthRound _ false [] 1); intros i Hi; simpl|].
  { by rewrite lookup_union_l, lookup_insert_ne, lookup_empty by lia || done. }
  eapply rtc_l; [by eapply (HealthLoop _ 0 _ _ 0)|].
  eapply rtc_l; [by eapply (HealthLoop _ 1 _ _ 1)|]. apply rtc_refl.
Qed.

(** Each of these functions is a step where it does anything. *)
Lemma loop_caller_step i ev s c e :
  he_callers s !! i = Some c -> ca_phase c = AtLoop ->
  dict_get (ca_check c) (he_entries s) = Some e -> he_events s !! ev = None ->
  health_step s (loop_caller i ev s).
Proof. intros Hc Hp He Hev. unfold loop_caller. rewrite Hc, He. by apply HealthLoop. Qed.

Lemma finish_caller_step i body s c ev start e :
  he_callers s !! i = Some c -> ca_phase c = RunningCheck ev start ->
  dict_get (ca_check c) (he_entries s) = Some e -> health_step s (finish_caller i body s).
Proof. intros Hc Hp He. unfold finish_caller. rewrite Hc, Hp, He. by eapply HealthFinish. Qed.

Lemma wake_caller_step i s c ev :
  he_callers s !! i = Some c -> ca_phase c = AwaitEvent ev -> he_events s !! ev = Some true ->
  health_step s (wake_caller i s).
Proof. intros Hc Hp Hev. unfold wake_caller. rewrite Hc. by eapply HealthWake. Qed.

Lemma tick_step now s :
  (he_now s <= now)%Q -> (0 <= hc_cache_ttl (he_config s))%Q -> health_step s (pass_time now s).
Proof. apply HealthTick. Qed.

(** The check succeeds, and the second caller goes on. *)
Definition shared (config : HealthChecksConfig) : health :=
  loop_caller 1 1 (wake_caller 1 (finish_caller 0 (Return (Some 7%nat)) (two_rounds config))).

Definition check_passed : CheckResult := mkCheckResult OK true None (Some 7%nat).

(** The only check, with what is stored of it. *)
Definition db_entry (r : option CheckResult) (at_ : Q) (inflight : option nat) : Entry :=
  mkEntry "db" (AsyncFunc 0) true 5 r at_ inflight.
Definition db_caller (began : Q) (p : caller_phase) : check_caller := mkCheckCaller "db" 1 began p.

Lemma shared_reachable : rtc health_step (health_init 0 one_second) (shared one_second).
Proof.
  unfold shared. etrans; [apply two_rounds_reachable|].
  eapply rtc_l; [apply (finish_caller_step 0 (Return (Some 7%nat)) _ (db_caller 0 (RunningCheck 0 0)) 0 0
    (db_entry None 0 (Some 0%nat))); by vm_compute|].
  eapply rtc_l; [apply (wake_caller_step 1 _ (db_caller 0 (AwaitEvent 0)) 0); by vm_compute|].
  eapply rtc_l; [apply (loop_caller_step 1 1 _ (db_caller 0 AtLoop) (db_entry (Some check_passed) 0 None));
    by vm_compute|].
  apply rtc_refl.
Qed.

(** Two rounds share one execution, unless the cache is disabled: the second
    caller waits for the first one and then runs the check again. *)
Lemma disabled_cache_does_not_share :
  length (he_log (shared one_second)) = 1%nat /\
  (he_callers (shared one_second) !! 1%nat : option check_caller) =
    Some (mkCheckCaller "db" 1 0 (Answered check_passed)) /\
  (he_callers (shared uncached) !! 1%nat : option check_caller) =
    Some (mkCheckCaller "db" 0 0 (RunningCheck 1 0)).
Proof. vm_compute. by repeat split. Qed.

(** [$] also matches before a newline at the end, so a name may end in one. *)
Lemma name_with_newline :
  add_check one_second ("db" +:+ String newline "") true 0 true None [] =
  (Return tt, (add_check one_second ("db" +:+ String newline "") true 0 true None []).2).
Proof. reflexivity. Qed.

Lemma one_execution_per_check_witness : 0%nat = 0%nat.
Proof.
  apply (one_execution_per_check 0 one_second (two_rounds one_second) 0 0 "db" 0 0);
    [done|apply two_rounds_reachable|by eexists _, _|by eexists _, _].
Defined.

(** ... and a third round later, when the result is too old. *)
Definition later_round : health :=
  finish_caller 2 (Raise (mk_exn TimeoutError NoInfo))
    (loop_caller 2 2 (start_round false [] 2 (pass_time 3 (shared one_second)))).

Lemma shared_callers : unused 2 (he_callers (shared one_second)).
Proof.
  assert (he_callers (shared one_second) =
    {[0%nat := db_caller 0 (Answered check_passed); 1%nat := db_caller 0 (Answered check_passed)]}) as ->
    by by vm_compute.
  intros i Hi. rewrite lookup_insert_ne, lookup_singleton_ne by lia. done.
Qed.

Lemma later_round_reachable : rtc health_step (health_init 0 one_second) later_round.
Proof.
  unfold later_round. etrans; [apply shared_reachable|].
  apply (rtc_l _ _ (pass_time 3 (shared one_second))); [by apply tick_step; vm_compute|].
  apply (rtc_l _ _ (start_round false [] 2 (pass_time 3 (shared one_second))));
    [apply HealthRound, shared_callers|].
  eapply rtc_l; [apply (loop_caller_step 2 2 _ (db_caller 3 AtLoop) (db_entry (Some check_passed) 0 None));
    by vm_compute|].
  eapply rtc_l; [apply (finish_caller_step 2 (Raise (mk_exn TimeoutError NoInfo)) _
    (db_caller 3 (RunningCheck 2 3)) 2 3 (db_entry (Some check_passed) 0 (Some 2%nat))); by vm_compute|].
  apply rtc_refl.
Qed.

Definition failed_check : CheckResult :=
  mkCheckResult ERROR true (Some (UnexpectedText (mk_exn TimeoutError NoInfo))) None.

Lemma check_runs_once_per_ttl_witness : (0 + 1 <= 3)%Q.
Proof.
  apply (check_runs_once_per_ttl 0 one_second later_round 0 1
    (mkExecution "db" 1 0 0 check_passed) (mkExecution "db" 1 3 3 failed_check));
    [done|apply later_round_reachable|lia|by vm_compute..].
Defined.

Lemma no_caller_is_stranded_witness :
  exists s', bsteps health_step 4 (two_rounds one_second) s' /\ answered_at 1 s'.
Proof.
  apply (no_caller_is_stranded 0 one_second (two_rounds one_second) 1
    (mkCheckCaller "db" 1 0 (AwaitEvent 0)) None); [done|apply two_rounds_reachable|reflexivity|exact I].
Defined.

Lemma report_is_sound_witness :
  let s := later_round in
  let rep := mkHealthReport ERROR [("db", failed_check)] in
  (hr_checks rep).*1 = ["db"] /\
  (forall name r, (name, r) ∈ hr_checks rep -> exists x i c,
     x ∈ he_log s /\ ex_check x = name /\ ex_result x = r /\
     (name, i) ∈ [("db", 2%nat)] /\ he_callers s !! i = Some c /\
     (3 - ca_ttl c <= ex_finish x)%Q /\
     exists e, dict_get name (he_entries s) = Some e /\ cr_critical r = en_critical e) /\
  (hr_status rep = ERROR <->
   exists name r e, (name, r) ∈ hr_checks rep /\ cr_status r = ERROR /\
     dict_get name (he_entries s) = Some e /\ en_critical e = true).
Proof.
  apply (report_is_sound 0 one_second later_round (mkRound 3 [("db", 2%nat)]));
    [done|apply later_round_reachable|apply list_elem_of_lookup_2 with 2%nat; by vm_compute|by vm_compute].
Defined.
