(* ===== verification/LogFilters.v ===== *)
(** * Log filters

    [log/_dedup.py] and [log/_ratelimit.py]: the filter that drops repeated
    records, over an ordered dictionary of counters with a sweep, and the filter
    that limits the rate of records with [MemoryTokenBucket].  [filter] holds a
    lock over everything but the clock reading and the key, so a record is one
    step. *)

From S2P Require Import Prelude Errors Dict RateLimitMemory.
From stdpp Require Import pretty.

Local Open Scope Z_scope.

(** ** Records and keys *)

(** The part of a [LogRecord] that the keys read: [lr_rendered] is what
    [getMessage()] comes to, [None] when it raises. *)
Record LogRecord : Type := mkLogRecord {
  rec_name : string;
  rec_levelno : Z;
  rec_msg : string;
  rec_rendered : option string;
}.

Inductive KeyMode : Type := ByLogger | ByLevel | ByGlobal | ByTemplate | ByRendered.

(** The hashable values that the key functions of [_dedup.py] return, and those of
    a [key=] callable. *)
Inductive log_key : Type :=
| KeyStr (s : string)
| KeyInt (n : Z)
| KeyTuple (name : string) (levelno : Z) (text : string)
| KeyOther (id : nat).

#[export] Instance log_key_eq_dec : EqDecision log_key.
Proof. solve_decision. Defined.

(** [getMessage()], or [str(record.msg)] when it raises *)
Definition rendered_text (r : LogRecord) : string := default (rec_msg r) (rec_rendered r).

(** [_KEY_FUNCS] of [_dedup.py] *)
Definition dedup_key (mode : KeyMode) (r : LogRecord) : log_key :=
  match mode with
  | ByLogger => KeyStr (rec_name r)
  | ByLevel => KeyInt (rec_levelno r)
  | ByGlobal => KeyStr ""
  | ByTemplate => KeyTuple (rec_name r) (rec_levelno r) (rec_msg r)
  | ByRendered => KeyTuple (rec_name r) (rec_levelno r) (rendered_text r)
  end.

(** [_KEY_FUNCS] of [_ratelimit.py] *)
Definition rate_key (mode : KeyMode) (r : LogRecord) : string :=
  match mode with
  | ByLogger => rec_name r
  | ByLevel => "level:" +:+ pretty (rec_levelno r)
  | ByGlobal => ""
  | ByTemplate => rec_name r +:+ "|" +:+ pretty (rec_levelno r) +:+ "|" +:+ rec_msg r
  | ByRendered => rec_name r +:+ "|" +:+ pretty (rec_levelno r) +:+ "|" +:+ rendered_text r
  end.

(** ** [DuplicateFilter] *)

Record DuplicateFilterConfig : Type := mkDuplicateConfig {
  df_allowed : Z;
  df_cache_size : nat;
  df_key_mode : KeyMode;
  df_ttl : option Q;
}.

Definition duplicate_config_valid (c : DuplicateFilterConfig) : Prop :=
  0 < df_allowed c /\ (0 < df_cache_size c)%nat /\ (forall t, df_ttl c = Some t -> 0 < t)%Q.

(** [_counts], least recently seen first, and [_next_sweep]. *)
Record DuplicateFilter : Type := mkDuplicateFilter {
  df_counts : list (log_key * (Z * Q));
  df_next_sweep : Q;
}.

(** [_setup] *)
Definition duplicate_setup : DuplicateFilter := mkDuplicateFilter [] 0.

(** [self._key_fn] *)
Definition duplicate_key (c : DuplicateFilterConfig) (key : option (LogRecord -> log_key))
    (r : LogRecord) : log_key :=
  match key with Some f => f r | None => dedup_key (df_key_mode c) r end.

(** The cleanup at the head of [filter]. *)
Definition sweep (c : DuplicateFilterConfig) (now : Q) (d : DuplicateFilter) : DuplicateFilter :=
  match df_ttl c with
  | Some ttl =>
      if (now >=? df_next_sweep d)%py then
        let cutoff := (now - ttl)%Q in
        mkDuplicateFilter
          (List.filter (fun kv => negb (snd (snd kv) <=? cutoff)%py) (df_counts d))
          (now + ttl)%Q
      else d
  | None => d
  end.

(** [counts[k] = v; counts.move_to_end(k)] *)
Definition touch (k : log_key) (v : Z * Q) (d : list (log_key * (Z * Q))) :
    list (log_key * (Z * Q)) := dict_move_to_end k (dict_set k v d).

(** [ttl is not None and now - last_seen > ttl] *)
Definition silent (c : DuplicateFilterConfig) (now last_seen : Q) : bool :=
  match df_ttl c with Some ttl => (now - last_seen >? ttl)%py | None => false end.

(** [filter] on the key of a record *)
Definition duplicate_filter (c : DuplicateFilterConfig) (key : log_key) (now : Q)
    (d : DuplicateFilter) : bool * DuplicateFilter :=
  let d := sweep c now d in
  let with_counts counts := mkDuplicateFilter counts (df_next_sweep d) in
  match dict_get key (df_counts d) with
  | None =>
      let counts := dict_set key (1, now) (df_counts d) in
      (true, with_counts (if (df_cache_size c <? length counts)%nat then tail counts else counts))
  | Some (count, last_seen) =>
      if silent c now last_seen then (true, with_counts (touch key (1, now) (df_counts d)))
      else if df_allowed c <? count
      then (false, with_counts (dict_move_to_end key (df_counts d)))
      else (count <? df_allowed c, with_counts (touch key (count + 1, now) (df_counts d)))
  end.

(** ** [RateLimitFilter] *)

Record RateLimitFilterConfig : Type := mkRateFilterConfig {
  rf_capacity : Z;
  rf_refill_rate : Q;
  rf_key_mode : KeyMode;
  rf_cost : Q;
}.

Definition rate_filter_config_valid (c : RateLimitFilterConfig) : Prop :=
  0 < rf_capacity c /\ (0 < rf_refill_rate c)%Q /\ (0 < rf_cost c)%Q.

(** [_setup] *)
Definition rate_filter_setup (c : RateLimitFilterConfig) : outcome exn MemoryTokenBucket.t :=
  MemoryTokenBucket.init (rf_capacity c) (rf_refill_rate c).

(** [filter] *)
Definition rate_filter (c : RateLimitFilterConfig) (key : option (LogRecord -> string))
    (r : LogRecord) (now : Q) (b : MemoryTokenBucket.t) : outcome exn bool * MemoryTokenBucket.t :=
  let k := match key with Some f => f r | None => rate_key (rf_key_mode c) r end in
  MemoryTokenBucket.try_acquire k (rf_cost c) now b.

(** [reset] *)
Definition rate_filter_reset (key : string) (b : MemoryTokenBucket.t) : MemoryTokenBucket.t :=
  MemoryTokenBucket.reset key b.

(** ** Runs of the duplicate filter *)

(** A record that reached the filter: its key, when, and whether it passed. *)
Record seen_record : Type := mkSeen { se_key : log_key; se_at : Q; se_passed : bool }.

(** The records in order, with their answers. *)
Fixpoint duplicate_run (c : DuplicateFilterConfig) (rs : list (log_key * Q)) (d : DuplicateFilter) :
    list seen_record * DuplicateFilter :=
  match rs with
  | [] => ([], d)
  | (k, now) :: rs =>
      let '(b, d) := duplicate_filter c k now d in
      let '(h, d) := duplicate_run c rs d in
      (mkSeen k now b :: h, d)
  end.

(** When the records of a key passed. *)
Definition passes (k : log_key) (h : list seen_record) : list Q :=
  se_at <$> List.filter (fun e => bool_decide (se_key e = k) && se_passed e) h.

(** Two passes that are one [ttl] apart; without a [ttl] there are none. *)
Definition ttl_apart (c : DuplicateFilterConfig) (p q : Q) : Prop :=
  exists ttl, df_ttl c = Some ttl /\ (p + ttl <= q)%Q.

(** The passes of a key, from the one at [i] on, come in bursts of [df_allowed]. *)
Definition spaced (c : DuplicateFilterConfig) (ps : list Q) : Prop :=
  forall i p q, ps !! i = Some p -> ps !! (i + Z.to_nat (df_allowed c))%nat = Some q -> ttl_apart c p q.

(** What a counter says of the passes of its key: it counts the last burst. *)
Definition counter_ok (c : DuplicateFilterConfig) (now : Q) (ps : list Q) (n : Z) (s : Q) : Prop :=
  1 <= n <= df_allowed c + 1 /\ (s <= now)%Q /\
  exists ps1 ps2, ps = ps1 ++ ps2 /\ length ps2 = Z.to_nat (Z.min n (df_allowed c)) /\
    (forall p, p ∈ ps2 -> (p <= s)%Q) /\ (forall p q, p ∈ ps1 -> q ∈ ps2 -> ttl_apart c p q).

Definition key_ok (c : DuplicateFilterConfig) (h : list seen_record) (now : Q) (k : log_key)
    (e : option (Z * Q)) : Prop :=
  spaced c (passes k h) /\
  match e with
  | None => forall p, p ∈ passes k h -> ttl_apart c p now
  | Some (n, s) => counter_ok c now (passes k h) n s /\
                   exists e, e ∈ h /\ se_key e = k /\ se_at e = s
  end.

Definition filter_ok (c : DuplicateFilterConfig) (keys : list log_key) (h : list seen_record) (now : Q)
    (d : DuplicateFilter) : Prop :=
  dict_wf (df_counts d) /\ (forall k, k ∈ (df_counts d).*1 -> k ∈ keys) /\
  forall k, key_ok c h now k (dict_get k (df_counts d)).

Lemma ttl_apart_trans c p q r : duplicate_config_valid c ->
  ttl_apart c p q -> (q <= r)%Q -> ttl_apart c p r.
Proof. intros _ (ttl & Ht & Hp) Hr. exists ttl. split; [done|]. lra. Qed.

Lemma passes_app k h1 h2 : passes k (h1 ++ h2) = passes k h1 ++ passes k h2.
Proof. unfold passes. by rewrite List.filter_app, fmap_app. Qed.

Lemma passes_snoc k h k' now b :
  passes k (h ++ [mkSeen k' now b]) =
  passes k h ++ (if bool_decide (k' = k) && b then [now] else []).
Proof. rewrite passes_app. unfold passes at 2. simpl. by destruct (_ && _). Qed.

(** Every pass is before the counter's last sight. *)
Lemma counter_passes_before c now ps n s p :
  duplicate_config_valid c -> counter_ok c now ps n s -> p ∈ ps -> (p <= s)%Q.
Proof.
  intros (Ha & _ & Httl) (Hn & Hs & ps1 & ps2 & -> & Hlen & H2 & H12) Hp.
  apply elem_of_app in Hp as [Hp|Hp]; [|by apply H2].
  destruct ps2 as [|q ps2]; [simpl in Hlen; lia|].
  destruct (H12 p q Hp ltac:(left)) as (ttl & Ht & Hpq).
  specialize (H2 q ltac:(left)). specialize (Httl _ Ht). lra.
Qed.

Lemma key_ok_later c h t now k e : (t <= now)%Q -> key_ok c h t k e -> key_ok c h now k e.
Proof.
  intros Hle [Hsp He]. split; [done|]. destruct e as [[n s]|].
  - destruct He as [(Hn & Hs & Hrest) Hex]. split; [|done]. split; [done|]. split; [lra|done].
  - intros p Hp. destruct (He p Hp) as (ttl & Ht & Hpt). exists ttl. split; [done|]. lra.
Qed.

Lemma sweep_ok c keys h t now d :
  duplicate_config_valid c -> (t <= now)%Q -> filter_ok c keys h t d ->
  filter_ok c keys h now (sweep c now d).
Proof.
  intros Hc Hle (Hwf & Hk & Hok).
  assert (filter_ok c keys h now d) as Hsame.
  { split_and!; [done..|]. intros k. by apply (key_ok_later c h t). }
  unfold sweep. destruct (df_ttl c) as [ttl|] eqn:Et; [|done].
  destruct (Qle_bool_spec (df_next_sweep d) now); [|done]. split_and!; simpl.
  - by apply dict_filter_wf.
  - intros k Hin. by eapply Hk, dict_filter_keys.
  - intros k. rewrite dict_get_filter by done. destruct Hsame as (_ & _ & Hs). specialize (Hs k).
    destruct (dict_get k (df_counts d)) as [[n s]|]; [|done]. simpl.
    destruct (Qle_bool_spec s (now - ttl)); simpl; [|done].
    destruct Hs as [Hsp [Hcnt _]]. split; [done|]. intros p Hp. exists ttl. split; [done|].
    pose proof (counter_passes_before _ _ _ _ _ _ Hc Hcnt Hp). lra.
Qed.

(** A pass that is one [ttl] after the burst before it, with fewer than
    [df_allowed] passes since. *)
Lemma spaced_snoc c ps1 ps2 now :
  spaced c (ps1 ++ ps2) -> (length ps2 < Z.to_nat (df_allowed c))%nat ->
  (forall p, p ∈ ps1 -> ttl_apart c p now) -> spaced c ((ps1 ++ ps2) ++ [now]).
Proof.
  intros Hsp Hlen H1 i p q Hp Hq.
  destruct (decide (i + Z.to_nat (df_allowed c) < length (ps1 ++ ps2))%nat) as [Hlt|Hge].
  - rewrite lookup_app_l in Hq by done. rewrite lookup_app_l in Hp by lia. by eapply Hsp.
  - assert (i + Z.to_nat (df_allowed c) = length (ps1 ++ ps2))%nat as Heq.
    { apply lookup_lt_Some in Hq. rewrite length_app in Hq. simpl in Hq. lia. }
    rewrite Heq, lookup_app_r, Nat.sub_diag in Hq by done. injection Hq as <-.
    rewrite length_app in Heq. rewrite lookup_app_l in Hp by (rewrite length_app; lia).
    rewrite lookup_app_l in Hp by lia. apply H1. by eapply list_elem_of_lookup_2.
Qed.

Lemma touch_get k k' v d :
  dict_wf d -> dict_get k' (touch k v d) = if decide (k = k') then Some v else dict_get k' d.
Proof.
  intros Hwf. unfold touch. rewrite dict_move_to_end_get by by apply dict_set_wf.
  apply dict_get_set.
Qed.

Lemma touch_wf k v d : dict_wf d -> dict_wf (touch k v d).
Proof. intros Hwf. by apply dict_move_to_end_wf, dict_set_wf. Qed.

Lemma dict_keys_get {V} k (d : list (log_key * V)) : k ∈ d.*1 <-> is_Some (dict_get k d).
Proof.
  destruct (dict_get k d) eqn:E.
  - split; [eauto|]. intros _. apply dict_get_in in E. apply list_elem_of_fmap. by eexists (_, _).
  - apply dict_get_none in E. split; [done|]. by intros [? ?].
Qed.

(** One key's counter changes with one more record. *)
Lemma filter_ok_update c keys h now d counts k b :
  filter_ok c keys h now d -> k ∈ keys -> dict_wf counts ->
  (forall k', k' <> k -> dict_get k' counts = dict_get k' (df_counts d)) ->
  key_ok c (h ++ [mkSeen k now b]) now k (dict_get k counts) ->
  filter_ok c keys (h ++ [mkSeen k now b]) now (mkDuplicateFilter counts (df_next_sweep d)).
Proof.
  intros (Hwf & Hk & Hok) Hin Hwf' Hget Hnew. split_and!; simpl; [done|..].
  - intros k' [v Hv]%dict_keys_get. destruct (decide (k' = k)) as [->|Hne]; [done|].
    apply Hk, dict_keys_get. rewrite <- Hget by done. eauto.
  - intros k'. destruct (decide (k' = k)) as [->|Hne]; [done|]. rewrite Hget by done.
    specialize (Hok k'). unfold key_ok in *. rewrite passes_snoc.
    rewrite bool_decide_eq_false_2 by congruence. simpl. rewrite app_nil_r.
    destruct (dict_get k' (df_counts d)) as [[n s]|]; [|done].
    destruct Hok as (? & ? & e & He & ?). split_and!; [done..|]. exists e.
    split; [apply elem_of_app; by left|done].
Qed.

(** The counter starts again at one. *)
Lemma key_ok_restart c h now k :
  duplicate_config_valid c -> spaced c (passes k h) ->
  (forall p, p ∈ passes k h -> ttl_apart c p now) ->
  key_ok c (h ++ [mkSeen k now true]) now k (Some (1, now)).
Proof.
  intros (Ha & _) Hsp Hold. unfold key_ok. rewrite passes_snoc, bool_decide_eq_true_2 by done. simpl.
  split_and!.
  - rewrite <- (app_nil_r (passes k h)). apply spaced_snoc; [by rewrite app_nil_r|simpl; lia|done].
  - split; [lia|]. split; [lra|]. exists (passes k h), [now]. split_and!; [done|simpl; lia|..].
    + intros p ->%list_elem_of_singleton. lra.
    + intros p q Hp ->%list_elem_of_singleton. by apply Hold.
  - eexists. split; [apply elem_of_app; right; apply list_elem_of_singleton; done|done].
Qed.

(** The counter goes up. *)
Lemma key_ok_count c h now k n s :
  duplicate_config_valid c -> key_ok c h now k (Some (n, s)) -> n <= df_allowed c ->
  key_ok c (h ++ [mkSeen k now (n <? df_allowed c)]) now k (Some (n + 1, now)).
Proof.
  intros Hc [Hsp [Hcnt _]] Hle. pose proof Hc as (Ha & _).
  pose proof (fun p => counter_passes_before _ _ _ _ _ p Hc Hcnt) as Hbefore.
  destruct Hcnt as (Hn & Hs & ps1 & ps2 & Hps & Hlen & H2 & H12).
  assert (Hex : exists e, e ∈ h ++ [mkSeen k now (n <? df_allowed c)] /\ se_key e = k /\ se_at e = now).
  { eexists. split; [apply elem_of_app; right; apply list_elem_of_singleton; done|done]. }
  unfold key_ok. rewrite passes_snoc, bool_decide_eq_true_2 by done. simpl.
  destruct (Z.ltb_spec n (df_allowed c)) as [Hlt|Hge].
  - assert (H1 : forall p, p ∈ ps1 -> ttl_apart c p now).
    { intros p Hp. destruct ps2 as [|q ps2]; [simpl in Hlen; lia|].
      apply ttl_apart_trans with q; [done|by apply H12; [|left]|].
      specialize (H2 q ltac:(left)). lra. }
    split_and!; [| |done].
    + rewrite Hps. apply spaced_snoc; [by rewrite <- Hps|lia|done].
    + split; [lia|]. split; [lra|]. exists ps1, (ps2 ++ [now]).
      split_and!; [by rewrite Hps, <- app_assoc|rewrite length_app; simpl; lia|..].
      * intros p [Hp| ->%list_elem_of_singleton]%elem_of_app; [specialize (H2 _ Hp)|]; lra.
      * intros p q Hp [Hq| ->%list_elem_of_singleton]%elem_of_app; [by apply H12|by apply H1].
  - rewrite app_nil_r. split_and!; [done| |done]. split; [lia|]. split; [lra|].
    exists ps1, ps2. split_and!; [done|lia| |done]. intros p Hp. specialize (H2 _ Hp). lra.
Qed.

(** A record of the key, and how long ago. *)
Definition silent_since (k : log_key) (h : list seen_record) (t : Q) : Prop :=
  forall e, e ∈ h -> se_key e = k -> (se_at e < t)%Q.

Lemma duplicate_filter_ok c keys h t k now d :
  duplicate_config_valid c -> (length keys <= df_cache_size c)%nat -> k ∈ keys -> (t <= now)%Q ->
  filter_ok c keys h t d ->
  let '(b, d') := duplicate_filter c k now d in
  filter_ok c keys (h ++ [mkSeen k now b]) now d' /\
  (b = false -> (Z.to_nat (df_allowed c) <= length (passes k h))%nat) /\
  (forall ttl, df_ttl c = Some ttl -> silent_since k h (now - ttl) -> b = true).
Proof.
  intros Hc Hsize Hk Hle Hok0. apply (sweep_ok _ _ _ _ now) in Hok0; [|done..].
  unfold duplicate_filter. set (d1 := sweep c now d) in *. clearbody d1.
  pose proof Hok0 as (Hwf & Hkeys & Hok). pose proof (Hok k) as Hkey.
  destruct (dict_get k (df_counts d1)) as [[n s]|] eqn:Eg.
  - assert (Htouch : forall v k', k' <> k ->
      dict_get k' (touch k v (df_counts d1)) = dict_get k' (df_counts d1)).
    { intros v k' Hne. rewrite touch_get, decide_False by done. done. }
    destruct (silent c now s) eqn:Es; [|destruct (Z.ltb_spec (df_allowed c) n) as [Hlt|Hge]].
    + split_and!; [|done|done]. apply filter_ok_update; [done..|by apply touch_wf|by apply Htouch|].
      rewrite touch_get, decide_True by done. destruct Hkey as [Hsp [Hcnt _]].
      apply key_ok_restart; [done..|]. intros p Hp.
      pose proof (counter_passes_before _ _ _ _ _ _ Hc Hcnt Hp). unfold silent in Es.
      destruct (df_ttl c) as [ttl|] eqn:Et; [|done]. exists ttl. split; [done|].
      destruct (Qlt_bool_spec ttl (now - s)); [|done]. lra.
    + split_and!.
      * apply filter_ok_update; [done..|by apply dict_move_to_end_wf| |].
        -- intros k' _. by apply dict_move_to_end_get.
        -- rewrite dict_move_to_end_get, Eg by done. destruct Hkey as (Hsp & Hcnt & e & He & Hrest).
           unfold key_ok. rewrite passes_snoc, andb_false_r, app_nil_r. split_and!; [done..|].
           exists e. split; [apply elem_of_app; by left|done].
      * intros _. destruct Hkey as (_ & (Hn & _ & ps1 & ps2 & -> & Hlen & _) & _).
        rewrite length_app. lia.
      * intros ttl Et Hsil. destruct Hkey as (_ & _ & e & He & Hek & Hes). specialize (Hsil e He Hek).
        unfold silent in Es. rewrite Et in Es. destruct (Qlt_bool_spec ttl (now - s)); [done|].
        rewrite Hes in Hsil. lra.
    + split_and!.
      * apply filter_ok_update; [done..|by apply touch_wf|by apply Htouch|].
        rewrite touch_get, decide_True by done. by apply key_ok_count with s.
      * intros Hb. apply Z.ltb_ge in Hb. destruct Hkey as (_ & (Hn & _ & ps1 & ps2 & -> & Hlen & _) & _).
        rewrite length_app. lia.
      * intros ttl Et Hsil. destruct Hkey as (_ & _ & e & He & Hek & Hes). specialize (Hsil e He Hek).
        unfold silent in Es. rewrite Et in Es. destruct (Qlt_bool_spec ttl (now - s)); [done|].
        rewrite Hes in Hsil. lra.
  - assert (Hlen : (length (dict_set k (1%Z, now) (df_counts d1)) <= df_cache_size c)%nat).
    { rewrite <- (length_fmap fst). etrans; [|done]. apply submseteq_length, NoDup_submseteq.
      - by apply dict_set_wf.
      - intros k' [->|Hk']%dict_keys_set; [done|by apply Hkeys]. }
    destruct (Nat.ltb_spec (df_cache_size c) (length (dict_set k (1%Z, now) (df_counts d1)))); [lia|].
    split_and!; [|done|done]. apply filter_ok_update; [done..|by apply dict_set_wf| |].
    + intros k' Hne. rewrite dict_get_set, decide_False by done. done.
    + rewrite dict_get_set, decide_True by done. destruct Hkey as [Hsp Hold]. by apply key_ok_restart.
Qed.

(** The clock does not go back. *)
Fixpoint clock_from (t : Q) (rs : list (log_key * Q)) : Prop :=
  match rs with
  | [] => True
  | (_, now) :: rs => (t <= now)%Q /\ clock_from now rs
  end.

(** What holds of each record, given those before it. *)
Definition answer_ok (c : DuplicateFilterConfig) (before : list seen_record) (e : seen_record) : Prop :=
  (se_passed e = false -> (Z.to_nat (df_allowed c) <= length (passes (se_key e) before))%nat) /\
  (forall ttl, df_ttl c = Some ttl -> silent_since (se_key e) before (se_at e - ttl) ->
     se_passed e = true).

Lemma duplicate_run_ok c keys rs h t d :
  duplicate_config_valid c -> (length keys <= df_cache_size c)%nat ->
  (forall r, r ∈ rs -> r.1 ∈ keys) -> clock_from t rs -> filter_ok c keys h t d ->
  let '(h', d') := duplicate_run c rs d in
  (forall k, spaced c (passes k (h ++ h'))) /\
  forall h1 e h2, h' = h1 ++ e :: h2 -> answer_ok c (h ++ h1) e.
Proof.
  intros Hc Hsize. revert h t d. induction rs as [|[k now] rs IH]; intros h t d Hkeys Ht Hok; simpl.
  { split; [|by intros [|? ?] ? ?]. intros k. rewrite app_nil_r. by apply Hok. }
  destruct Ht as [Hle Ht].
  pose proof (duplicate_filter_ok c keys h t k now d Hc Hsize
    (Hkeys (k, now) ltac:(left)) Hle Hok) as Hstep.
  destruct (duplicate_filter c k now d) as [b d1]. destruct Hstep as (Hok1 & Hdrop & Hsil).
  specialize (IH (h ++ [mkSeen k now b]) now d1 ltac:(intros; apply Hkeys; by right) Ht Hok1).
  destruct (duplicate_run c rs d1) as [h' d2]. destruct IH as [Hsp Hans]. split.
  - intros k'. specialize (Hsp k'). by rewrite <- app_assoc in Hsp.
  - intros [|e1 h1] e h2 [= <- ->]; [by rewrite app_nil_r|].
    specialize (Hans h1 e h2 eq_refl). by rewrite <- app_assoc in Hans.
Qed.

(** The duplicate filter lets bursts pass and nothing more: while no more keys
    are in use than the cache holds and the clock does not go back, the passes of a
    key come in bursts of [allowed_repetitions], the first of a burst one [ttl]
    after the first of the burst before it (without a [ttl] there is one burst); a
    record is dropped only after [allowed_repetitions] records of its key passed;
    and a record whose key was silent for more than the [ttl] passes. *)
Lemma duplicate_filter_bursts (c : DuplicateFilterConfig) (keys : list log_key)
    (rs : list (log_key * Q)) (t : Q) :
  duplicate_config_valid c -> (length keys <= df_cache_size c)%nat ->
  (forall r, r ∈ rs -> r.1 ∈ keys) -> clock_from t rs ->
  let h := (duplicate_run c rs duplicate_setup).1 in
  (forall k, spaced c (passes k h)) /\
  forall h1 e h2, h = h1 ++ e :: h2 -> answer_ok c h1 e.
Proof.
  intros Hc Hsize Hkeys Ht.
  pose proof (duplicate_run_ok c keys rs [] t duplicate_setup Hc Hsize Hkeys Ht) as H.
  destruct (duplicate_run c rs duplicate_setup) as [h d]. apply H. split_and!; simpl.
  - apply dict_wf_nil.
  - by intros k Hk%elem_of_nil.
  - intros k. split; [by intros i p q Hp|]. by intros p Hp%elem_of_nil.
Qed.

(** The map never holds more than [cache_size] keys. *)
Lemma duplicate_filter_size c k now d :
  (0 < df_cache_size c)%nat -> (length (df_counts d) <= df_cache_size c)%nat ->
  (length (df_counts (duplicate_filter c k now d).2) <= df_cache_size c)%nat.
Proof.
  intros Hpos Hlen. unfold duplicate_filter.
  assert (length (df_counts (sweep c now d)) <= df_cache_size c)%nat as Hs.
  { unfold sweep. destruct (df_ttl c); [|done]. destruct (_ >=? _)%py; [|done]. simpl.
    etrans; [apply List.filter_length_le|done]. }
  destruct (dict_get k (df_counts (sweep c now d))) as [[n s]|] eqn:Eg.
  - destruct (silent _ _ _); [|destruct (_ <? _)]; simpl; unfold touch;
      rewrite dict_move_to_end_length, ?dict_set_length, ?Eg; done.
  - simpl. destruct (Nat.ltb_spec (df_cache_size c) (length (dict_set k (1%Z, now) (df_counts (sweep c now d))))).
    + rewrite dict_set_length, Eg in *. destruct (dict_set k (1, now)%Z _) eqn:Ed; simpl; [lia|].
      assert (length (dict_set k (1%Z, now) (df_counts (sweep c now d))) = S (length l)) by by rewrite Ed.
      rewrite dict_set_length, Eg in *. lia.
    + done.
Qed.

(** ** Rate of records *)

(** The configuration does not bound [cost] by [capacity], and a cost above it
    makes every log call raise. *)
Lemma cost_above_capacity_raises c key r now b :
  rate_filter_config_valid c -> (inject_Z (rf_capacity c) < rf_cost c)%Q ->
  rate_filter_setup c = Return b ->
  rate_filter c key r now b = (Raise (mk_exn ValueError (Message "cost")), b).
Proof.
  intros (Hcap & Hrate & _) Hcost. unfold rate_filter_setup, MemoryTokenBucket.init.
  destruct (Z.leb_spec (rf_capacity c) 0); [lia|]. destruct (Qle_bool_spec (rf_refill_rate c) 0); [lra|].
  intros [= <-]. unfold rate_filter, MemoryTokenBucket.try_acquire. simpl.
  destruct (Qlt_bool_spec (inject_Z (rf_capacity c)) (rf_cost c)); [|lra]. by rewrite orb_true_r.
Qed.

(** ** Concrete runs *)

Definition two_per_minute : DuplicateFilterConfig := mkDuplicateConfig 2 100 ByGlobal (Some 60%Q).

(** A record every 20 seconds: the third one is dropped, and so are those that
    follow for a [ttl] after it, although the key is never silent. *)
Definition flood : list (log_key * Q) :=
  (fun t => (KeyStr "", t)) <$> [0; 20; 40; 60; 80; 100; 120; 140]%Q.

Lemma flood_passes_again :
  se_passed <$> (duplicate_run two_per_minute flood duplicate_setup).1 =
  [true; true; false; false; false; false; true; true].
Proof. reflexivity. Qed.

Lemma duplicate_filter_bursts_witness :
  let h := (duplicate_run two_per_minute flood duplicate_setup).1 in
  (forall k, spaced two_per_minute (passes k h)) /\
  forall h1 e h2, h = h1 ++ e :: h2 -> answer_ok two_per_minute h1 e.
Proof.
  apply (duplicate_filter_bursts two_per_minute [KeyStr ""] flood 0).
  - split; [done|]. split; [simpl; lia|]. by intros t [= <-].
  - simpl. lia.
  - intros r Hr. apply list_elem_of_fmap in Hr as (t & -> & _). left.
  - simpl. split_and!; done || lra.
Defined.
