(* ===== verification/Logfmt.v ===== *)
(** * Logfmt

    The logfmt serializer of [log/_shared.py], and a reader of its lines: what is
    written can be read back, field by field, and takes one line. *)

From S2P Require Import Prelude Dict PyStr.
From Stdlib Require Import Ascii.

Local Open Scope list_scope.

(** ** The serializer *)

(** A field of a record: [VText] is [isoformat()] of a [datetime] and [str(value)]
    of anything else that is not [None], a [bool] or a [dict]. *)
Inductive log_value : Type :=
| VNone
| VBool (b : bool)
| VText (s : string)
| VDict (d : list (string * log_value)).

Definition newline_char : ascii := ascii_of_nat 10.
Definition quote : ascii := ascii_of_nat 34.
Definition backslash : ascii := ascii_of_nat 92.

(** [[a-zA-Z0-9._/@:\-+]] *)
Definition safe_char (c : ascii) : bool :=
  let n := nat_of_ascii c in
  ((97 <=? n) && (n <=? 122) || (65 <=? n) && (n <=? 90) || (48 <=? n) && (n <=? 57))%nat ||
  Ascii.eqb c "."%char || Ascii.eqb c "_"%char || Ascii.eqb c "/"%char || Ascii.eqb c "@"%char ||
  Ascii.eqb c ":"%char || Ascii.eqb c "-"%char || Ascii.eqb c "+"%char.

(** [+$]: more of them to the end, or to a newline at the end. *)
Fixpoint safe_rest (s : string) : bool :=
  match s with
  | EmptyString => true
  | String c s' =>
      (safe_char c && safe_rest s') ||
      (Ascii.eqb c newline_char && match s' with EmptyString => true | _ => false end)
  end.

(** [_LOGFMT_SAFE.match] *)
Definition logfmt_safe (s : string) : bool :=
  match s with EmptyString => false | String c s => safe_char c && safe_rest s end.

Definition logfmt_escape (s : string) : string :=
  replace_char newline_char (String backslash "n")
    (replace_char quote (String backslash (String quote ""))
      (replace_char backslash (String backslash (String backslash "")) s)).

Definition quoted (s : string) : string := String quote (s +:+ String quote "").

(** [_logfmt_format_value]; it is never called on a [dict]. *)
Definition logfmt_format_value (v : log_value) : string :=
  match v with
  | VNone | VDict _ => ""
  | VBool b => if b then "true" else "false"
  | VText s =>
      match s with
      | EmptyString => quoted ""
      | _ => if logfmt_safe s then s else quoted (logfmt_escape s)
      end
  end.

(** [f"{prefix}.{key}" if prefix else key] *)
Definition logfmt_full_key (prefix key : string) : string :=
  match prefix with EmptyString => key | _ => prefix +:+ "." +:+ key end.

(** [_logfmt_flatten] on one item, and on a dict *)
Fixpoint flatten_item (key : string) (v : log_value) : list (string * string) :=
  match v with
  | VNone => []
  | VDict d =>
      (fix go (d : list (string * log_value)) : list (string * string) :=
         match d with
         | [] => []
         | (k, v) :: d => flatten_item (logfmt_full_key key k) v ++ go d
         end) d
  | _ => [(key, logfmt_format_value v)]
  end.

Definition logfmt_flatten (prefix : string) (d : list (string * log_value)) :
    list (string * string) :=
  d ≫= (fun '(k, v) => flatten_item (logfmt_full_key prefix k) v).

Definition CORE_KEYS_ORDER : list string :=
  ["time"; "level"; "msg"; "logger"; "caller"; "trace_id"; "span_id"; "error"].

(** The branches that both loops of [logfmt_dumps] share. *)
Definition dump_item (key : string) (v : log_value) : list (string * string) :=
  match v with
  | VNone => []
  | VDict d => logfmt_flatten key d
  | _ => [(key, logfmt_format_value v)]
  end.

Definition logfmt_pairs (record : list (string * log_value)) : list (string * string) :=
  (CORE_KEYS_ORDER ≫= (fun key =>
     match dict_get key record with Some v => dump_item key v | None => [] end)) ++
  (record ≫= (fun '(key, v) =>
     if bool_decide (key ∈ CORE_KEYS_ORDER) then [] else dump_item key v)).

(** [" ".join(f"{k}={v}" for k, v in pairs)] *)
Definition logfmt_item (kv : string * string) : string := kv.1 +:+ "=" +:+ kv.2.

(** [logfmt_dumps] *)
Definition logfmt_dumps (record : list (string * log_value)) : string :=
  String.concat " " (logfmt_item <$> logfmt_pairs record).

(** ** A reader *)

(** Up to the first [sep], which is dropped. *)
Fixpoint read_until (sep : ascii) (s : string) : string * option string :=
  match s with
  | EmptyString => (EmptyString, None)
  | String c s =>
      if Ascii.eqb c sep then (EmptyString, Some s)
      else let '(a, r) := read_until sep s in (String c a, r)
  end.

(** The rest of a quoted value. *)
Fixpoint read_quoted (s : string) : option (string * string) :=
  match s with
  | EmptyString => None
  | String c s =>
      if Ascii.eqb c quote then Some (EmptyString, s)
      else if Ascii.eqb c backslash then
        match s with
        | EmptyString => None
        | String d s =>
            '(a, r) ← read_quoted s;
            Some (String (if Ascii.eqb d "n"%char then newline_char else d) a, r)
        end
      else '(a, r) ← read_quoted s; Some (String c a, r)
  end.

(** The value, and what follows the space after it. *)
Definition read_value (s : string) : option (string * option string) :=
  match s with
  | String c s' =>
      if Ascii.eqb c quote then
        '(v, r) ← read_quoted s';
        match r with
        | EmptyString => Some (v, None)
        | String d r => if Ascii.eqb d " "%char then Some (v, Some r) else None
        end
      else Some (read_until " "%char s)
  | EmptyString => Some (EmptyString, None)
  end.

Fixpoint read_pairs (fuel : nat) (s : string) : option (list (string * string)) :=
  match fuel with
  | O => None
  | S fuel =>
      match read_until "="%char s with
      | (_, None) => None
      | (key, Some s) =>
          '(v, r) ← read_value s;
          match r with
          | None => Some [(key, v)]
          | Some s => cons (key, v) <$> read_pairs fuel s
          end
      end
  end.

(** A line; every pair takes a character at least. *)
Definition read_line (s : string) : option (list (string * string)) :=
  match s with EmptyString => Some [] | _ => read_pairs (String.length s) s end.

(** ** What a record says *)

(** The text of a field before any quoting. *)
Definition value_text (v : log_value) : string :=
  match v with
  | VBool b => if b then "true" else "false"
  | VText s => s
  | VNone | VDict _ => ""
  end.

Fixpoint item_fields (key : string) (v : log_value) : list (string * log_value) :=
  match v with
  | VNone => []
  | VDict d =>
      (fix go (d : list (string * log_value)) : list (string * log_value) :=
         match d with
         | [] => []
         | (k, v) :: d => item_fields (logfmt_full_key key k) v ++ go d
         end) d
  | _ => [(key, v)]
  end.

(** The fields of a record, core fields first. *)
Definition record_fields (record : list (string * log_value)) : list (string * log_value) :=
  (CORE_KEYS_ORDER ≫= (fun key =>
     match dict_get key record with Some v => item_fields key v | None => [] end)) ++
  (record ≫= (fun '(key, v) =>
     if bool_decide (key ∈ CORE_KEYS_ORDER) then [] else item_fields key v)).

(** ** Lemmas *)

Section LogValueInduction.
Context (P : log_value -> Prop).
Hypothesis P_none : P VNone.
Hypothesis P_bool : forall b, P (VBool b).
Hypothesis P_text : forall s, P (VText s).
Hypothesis P_dict : forall d, Forall (fun kv => P kv.2) d -> P (VDict d).

(** Induction that reaches the values of a dict. *)
Fixpoint log_value_nested (v : log_value) : P v :=
  match v with
  | VNone => P_none
  | VBool b => P_bool b
  | VText s => P_text s
  | VDict d =>
      P_dict d ((fix go (d : list (string * log_value)) : Forall (fun kv => P kv.2) d :=
        match d with
        | [] => Forall_nil_2 _
        | kv :: d => Forall_cons_2 _ kv d (log_value_nested kv.2) (go d)
        end) d)
  end.
End LogValueInduction.

Definition formatted (kv : string * log_value) : string * string := (kv.1, logfmt_format_value kv.2).

Lemma flatten_item_fields key v : flatten_item key v = formatted <$> item_fields key v.
Proof.
  revert key. induction v as [|b|s|d IH] using log_value_nested; intros key; try done.
  simpl. induction IH as [|[k v] d Hv _ IHd]; [done|]. by rewrite fmap_app, <- IHd, <- Hv.
Qed.

Lemma dump_item_flatten key v : dump_item key v = flatten_item key v.
Proof.
  destruct v as [|b|s|d]; try done. simpl. unfold logfmt_flatten.
  induction d as [|[k v] d IH]; [done|]. simpl. by rewrite <- IH.
Qed.

Lemma logfmt_pairs_fields record : logfmt_pairs record = formatted <$> record_fields record.
Proof.
  unfold logfmt_pairs, record_fields. rewrite fmap_app. f_equal.
  - generalize CORE_KEYS_ORDER. intros l. induction l as [|key l IH]; [done|].
    rewrite !bind_cons, fmap_app, <- IH. f_equal.
    destruct (dict_get key record); [|done]. by rewrite dump_item_flatten, flatten_item_fields.
  - induction record as [|[key v] record IH]; [done|].
    rewrite !bind_cons, fmap_app, <- IH. f_equal.
    destruct (bool_decide _); [done|]. by rewrite dump_item_flatten, flatten_item_fields.
Qed.

Definition escape_char (c : ascii) : string :=
  if Ascii.eqb c backslash then String backslash (String backslash "")
  else if Ascii.eqb c quote then String backslash (String quote "")
  else if Ascii.eqb c newline_char then String backslash "n" else String c "".

(** The three replacements do not meet. *)
Lemma logfmt_escape_cons c s : logfmt_escape (String c s) = escape_char c +:+ logfmt_escape s.
Proof.
  unfold logfmt_escape, escape_char. simpl.
  destruct (Ascii.eqb_spec c backslash) as [->|Hb]; [done|]. simpl.
  destruct (Ascii.eqb_spec c quote) as [->|Hq]; [done|]. simpl.
  by destruct (Ascii.eqb_spec c newline_char) as [->|Hn].
Qed.

#[local] Arguments logfmt_escape _ : simpl never.

Lemma append_nil_r s : s +:+ "" = s.
Proof. induction s as [|c s IH]; [done|]. change (String c (s +:+ "") = String c s). by rewrite IH. Qed.

Lemma append_cons c s t : String c s +:+ t = String c (s +:+ t).
Proof. done. Qed.

Lemma append_empty s : "" +:+ s = s.
Proof. done. Qed.

Lemma read_quoted_escape s tail :
  read_quoted (logfmt_escape s +:+ String quote tail) = Some (s, tail).
Proof.
  induction s as [|c s IH]; [done|]. rewrite logfmt_escape_cons, append_assoc. unfold escape_char.
  destruct (Ascii.eqb_spec c backslash) as [->|Hb]; [simpl; by rewrite append_empty, IH|].
  destruct (Ascii.eqb_spec c quote) as [->|Hq]; [simpl; by rewrite append_empty, IH|].
  destruct (Ascii.eqb_spec c newline_char) as [->|Hn]; [simpl; by rewrite append_empty, IH|].
  simpl. destruct (Ascii.eqb_spec c quote); [done|]. destruct (Ascii.eqb_spec c backslash); [done|].
  by rewrite append_empty, IH.
Qed.

Lemma read_until_free sep a : free_of sep a = true -> read_until sep a = (a, None).
Proof.
  induction a as [|c a IH]; [done|]. unfold free_of in *. simpl. intros [Hc Ha]%andb_true_iff.
  rewrite negb_true_iff in Hc. rewrite Hc, IH by done. done.
Qed.

Lemma read_until_app sep a b :
  free_of sep a = true -> read_until sep (a +:+ String sep b) = (a, Some b).
Proof.
  induction a as [|c a IH]; simpl; [by rewrite Ascii.eqb_refl|].
  unfold free_of in *. simpl. intros [Hc Ha]%andb_true_iff.
  rewrite negb_true_iff in Hc. rewrite Hc, IH by done. done.
Qed.

(** ** What is written can be read *)

(** A value that is not safe text followed by one newline: that is written as it
    is. *)
Definition readable (v : log_value) : Prop :=
  match v with
  | VText s => logfmt_safe s = true -> string_forall safe_char s = true
  | _ => True
  end.

Definition field_ok (kv : string * log_value) : Prop :=
  string_forall safe_char kv.1 = true /\ readable kv.2 /\
  match kv.2 with VNone | VDict _ => False | _ => True end.

Definition field_text (kv : string * log_value) : string * string := (kv.1, value_text kv.2).

Lemma safe_char_free c sep : safe_char sep = false -> safe_char c = true -> Ascii.eqb c sep = false.
Proof. intros Hs Hc. destruct (Ascii.eqb_spec c sep) as [->|]; [congruence|done]. Qed.

Lemma safe_free sep s : safe_char sep = false -> string_forall safe_char s = true -> free_of sep s = true.
Proof.
  intros Hs. apply string_forall_impl. intros c Hc. by rewrite (safe_char_free c sep).
Qed.

(** The line after a value: its end, or a space and more. *)
Definition line_after (rest : option string) : string :=
  match rest with None => "" | Some s => String " " s end.

Lemma read_safe_value s rest :
  s <> "" -> string_forall safe_char s = true -> read_value (s +:+ line_after rest) = Some (s, rest).
Proof.
  intros Hne Hs. assert (free_of " "%char s = true) as Hf by by apply safe_free.
  destruct s as [|c s]; [done|]. pose proof Hs as Hc. simpl in Hc. apply andb_true_iff in Hc as [Hc _].
  change (String c s +:+ line_after rest) with (String c (s +:+ line_after rest)). cbn [read_value].
  rewrite (safe_char_free c quote) by done.
  change (String c (s +:+ line_after rest)) with (String c s +:+ line_after rest).
  destruct rest as [r|]; cbn [line_after].
  - by rewrite read_until_app.
  - rewrite append_nil_r. by rewrite read_until_free.
Qed.

Lemma read_quoted_value s t rest :
  read_quoted (t +:+ String quote (line_after rest)) = Some (s, line_after rest) ->
  read_value (quoted t +:+ line_after rest) = Some (s, rest).
Proof.
  intros Hr. unfold quoted. rewrite append_cons, append_assoc, append_cons, append_empty.
  cbn [read_value]. rewrite Ascii.eqb_refl, Hr. by destruct rest.
Qed.

Lemma read_formatted kv rest :
  field_ok kv -> read_value (logfmt_format_value kv.2 +:+ line_after rest) = Some (value_text kv.2, rest).
Proof.
  destruct kv as [k v]. intros (_ & Hv & Hleaf). simpl in *. destruct v as [|b|s|d]; try done.
  - by destruct b; apply read_safe_value.
  - simpl. destruct s as [|c s]; [by apply (read_quoted_value "" "")|].
    destruct (logfmt_safe (String c s)) eqn:Es.
    + apply read_safe_value; [done|]. by apply Hv.
    + apply read_quoted_value, read_quoted_escape.
Qed.

Lemma read_pairs_dumps fs fuel :
  Forall field_ok fs -> fs <> [] -> (length fs <= fuel)%nat ->
  read_pairs fuel (String.concat " " ((fun kv => logfmt_item (formatted kv)) <$> fs)) =
  Some (field_text <$> fs).
Proof.
  intros Hok. revert fuel. induction Hok as [|kv fs Hkv Hfs IH]; intros fuel Hne Hlen; [done|].
  destruct fuel as [|fuel]; [simpl in Hlen; lia|].
  assert (Hline : String.concat " " ((fun kv => logfmt_item (formatted kv)) <$> kv :: fs) =
    kv.1 +:+ String "=" (logfmt_format_value kv.2 +:+
      line_after match fs with [] => None
            | _ => Some (String.concat " " ((fun kv => logfmt_item (formatted kv)) <$> fs)) end)).
  { destruct fs as [|kv' fs]; simpl; unfold logfmt_item, formatted; simpl.
    - by rewrite append_nil_r.
    - by rewrite !append_assoc. }
  rewrite Hline. cbn [read_pairs].
  pose proof Hkv as (Hkey & _). rewrite read_until_app by by apply safe_free.
  rewrite read_formatted by done. simpl.
  destruct fs as [|kv' fs]; [done|]. rewrite IH; [done|done|]. simpl in *. lia.
Qed.

(** Every item takes a character, so the length of the line is enough fuel. *)
Lemma line_length fs :
  (length fs <= String.length (String.concat " " ((fun kv => logfmt_item (formatted kv)) <$> fs)))%nat.
Proof.
  assert (Happ : forall a b, String.length (a +:+ b) = (String.length a + String.length b)%nat).
  { induction a as [|c a IHa]; intros b; simpl; [done|]. by rewrite IHa. }
  induction fs as [|kv fs IH]; [simpl; lia|].
  destruct fs as [|kv' fs]; simpl in *; unfold logfmt_item in *; rewrite !Happ in *; simpl in *; lia.
Qed.

(** C24 A logfmt line can be read back: reading the line of a record gives its
    fields, core fields first, nested keys joined by dots, with the text of every
    value, whatever characters it has.  The keys are made of safe characters, and
    no value is safe text followed by a single newline. *)
Theorem logfmt_roundtrip (record : list (string * log_value)) :
  Forall field_ok (record_fields record) ->
  read_line (logfmt_dumps record) = Some (field_text <$> record_fields record).
Proof.
  intros Hok. unfold logfmt_dumps. rewrite logfmt_pairs_fields.
  rewrite <- list_fmap_compose. change (logfmt_item ∘ formatted) with (fun kv => logfmt_item (formatted kv)).
  destruct (record_fields record) as [|kv fs] eqn:Ef; [done|].
  pose proof (line_length (kv :: fs)) as Hlen.
  unfold read_line. destruct (String.concat _ _) as [|c l] eqn:El; [simpl in Hlen; lia|].
  rewrite <- El. apply read_pairs_dumps; [done|done|]. by rewrite El.
Qed.

(** ... and it is one line. *)
Lemma string_forall_append P a b : string_forall P (a +:+ b) = string_forall P a && string_forall P b.
Proof. apply string_forall_app. Qed.

Lemma escape_one_line s : free_of newline_char (logfmt_escape s) = true.
Proof.
  induction s as [|c s IH]; [done|]. rewrite logfmt_escape_cons. unfold free_of in *.
  rewrite string_forall_append, IH, andb_true_r. unfold escape_char.
  destruct (Ascii.eqb_spec c backslash); [done|]. destruct (Ascii.eqb_spec c quote); [done|].
  destruct (Ascii.eqb_spec c newline_char) as [|Hn]; [done|]. simpl.
  by apply Ascii.eqb_neq in Hn as ->.
Qed.

Lemma formatted_one_line v :
  readable v -> free_of newline_char (logfmt_format_value v) = true.
Proof.
  intros Hv. destruct v as [|b|s|d]; [done|by destruct b| |done]. simpl in *.
  destruct s as [|c s]; [done|]. destruct (logfmt_safe (String c s)).
  - apply safe_free; [done|]. by apply Hv.
  - unfold quoted, free_of. cbn [string_forall]. rewrite string_forall_append.
    pose proof (escape_one_line (String c s)) as He. unfold free_of in He. by rewrite He.
Qed.

Lemma logfmt_one_line record :
  Forall field_ok (record_fields record) -> free_of newline_char (logfmt_dumps record) = true.
Proof.
  intros Hok. unfold logfmt_dumps. rewrite logfmt_pairs_fields. unfold free_of.
  induction Hok as [|kv fs (Hk & Hv & _) _ IH]; [done|].
  assert (Hkv : string_forall (fun a => negb (Ascii.eqb a newline_char)) (logfmt_item (formatted kv)) = true).
  { unfold logfmt_item. rewrite !string_forall_append. apply andb_true_iff. split.
    - by apply (safe_free newline_char).
    - by apply (formatted_one_line kv.2). }
  destruct fs as [|kv' fs]; [done|].
  change (string_forall (fun a => negb (Ascii.eqb a newline_char))
    (logfmt_item (formatted kv) +:+ " " +:+ String.concat " " (logfmt_item <$> (formatted <$> kv' :: fs))) = true).
  rewrite !string_forall_append, Hkv, IH. done.
Qed.

(** ** Concrete records *)

(** [$] also matches before a newline at the end: such a value breaks the line. *)
Lemma trailing_newline_breaks_the_line :
  logfmt_dumps [("msg", VText ("done" +:+ String newline_char "")); ("user", VText "root")] =
  "msg=done" +:+ String newline_char " user=root".
Proof. reflexivity. Qed.

(** Keys are written as they are. *)
Lemma keys_are_not_quoted :
  logfmt_dumps [("a level", VText "x")] = "a level=x".
Proof. reflexivity. Qed.

Definition sample_record : list (string * log_value) :=
  [("user", VText "ann lee"); ("msg", VText ("say " +:+ String quote "hi" +:+ String newline_char "!"));
   ("error", VDict [("type", VText "ValueError"); ("fatal", VBool false); ("cause", VNone)]); ("empty", VText "")].

Lemma logfmt_roundtrip_witness :
  read_line (logfmt_dumps sample_record) =
  Some [("msg", "say " +:+ String quote "hi" +:+ String newline_char "!"); ("error.type", "ValueError");
        ("error.fatal", "false"); ("user", "ann lee"); ("empty", "")].
Proof.
  apply (logfmt_roundtrip sample_record).
  repeat (constructor; [split; [reflexivity|split; [try done; by intros ?|exact I]]|]). constructor.
Defined.
