(* ===== verification/TaskRouter.v ===== *)
(** * Task routers

    [task/router.py] and the naming of tasks of [task/_utils.py].  Routers are objects on a
    heap, because a router can still be changed after it was included in another; tasks are
    known by number. *)

From S2P Require Import Prelude Errors PyStr.
From Stdlib Require Import Ascii.

Local Open Scope Z_scope.

(** ** Routers *)

(** [TaskRouter] *)
Record TaskRouter : Type := mkRouter {
  rt_started : bool;
  rt_tasks : list nat;
  rt_routers : list nat;
}.

Abbreviation routers := (gmap nat TaskRouter).

(** [__init__] *)
Definition new_router (tasks : list nat) : TaskRouter := mkRouter false tasks [].

Definition task_add_error : exn := mk_exn TaskAddOperationError NoInfo.

(** [add_task], and so [every] and [cron] *)
Definition add_task (r task : nat) (h : routers) : outcome exn unit * routers :=
  match h !! r with
  | Some x =>
      if rt_started x then (Raise task_add_error, h)
      else (Return tt, <[r := mkRouter (rt_started x) (rt_tasks x ++ [task]) (rt_routers x)]> h)
  | None => (Raise task_add_error, h)
  end.

(** [include_router] *)
Definition include_router (r child : nat) (h : routers) : outcome exn unit * routers :=
  match h !! r with
  | Some x =>
      if rt_started x then (Raise task_add_error, h)
      else (Return tt, <[r := mkRouter (rt_started x) (rt_tasks x) (rt_routers x ++ [child])]> h)
  | None => (Raise task_add_error, h)
  end.

(** [tasks]; the fuel bounds the depth of the tree. *)
Fixpoint router_tasks (fuel : nat) (h : routers) (r : nat) : list nat :=
  match fuel with
  | O => []
  | S fuel =>
      match h !! r with
      | Some x => rt_tasks x ++ (rt_routers x ≫= router_tasks fuel h)
      | None => []
      end
  end.

(** [do_mark_as_started] *)
Fixpoint mark_as_started (fuel : nat) (r : nat) (h : routers) : routers :=
  match fuel with
  | O => h
  | S fuel =>
      match h !! r with
      | Some x =>
          foldr (mark_as_started fuel) (<[r := mkRouter true (rt_tasks x) (rt_routers x)]> h)
            (rev (rt_routers x))
      | None => h
      end
  end.

(** [started] *)
Definition router_started (h : routers) (r : nat) : bool :=
  match h !! r with Some x => rt_started x | None => false end.

Definition included (h : routers) (r s : nat) : Prop :=
  exists x, h !! r = Some x /\ s ∈ rt_routers x.

(** No router includes itself, by way of others or not. *)
Definition router_tree (h : routers) (depth : nat -> nat) : Prop :=
  forall r s, included h r s -> (depth s < depth r)%nat /\ is_Some (h !! s).

(** The same tasks and routers, whatever was started. *)
Definition same_tree (h h' : routers) : Prop :=
  forall r, (fun x => (rt_tasks x, rt_routers x)) <$> h' !! r =
            (fun x => (rt_tasks x, rt_routers x)) <$> h !! r.

#[export] Instance same_tree_equivalence : Equivalence same_tree.
Proof.
  split; [done|..].
  - intros a b H r. by rewrite H.
  - intros a b c H H' r. by rewrite H', H.
Qed.

Lemma mark_foldr (f : nat -> routers -> routers) (P : routers -> routers -> Prop) :
  Reflexive P -> Transitive P -> (forall s h, P h (f s h)) -> forall l h, P h (foldr f h l).
Proof. intros Hr Ht Hf l h. induction l as [|s l IH]; simpl; [done|]. etrans; [apply IH|done]. Qed.

Lemma same_tree_mark h r x :
  h !! r = Some x -> same_tree h (<[r := mkRouter true (rt_tasks x) (rt_routers x)]> h).
Proof.
  intros Hx s. destruct (decide (r = s)) as [<-|Hne].
  - by rewrite lookup_insert_eq, Hx.
  - by rewrite lookup_insert_ne.
Qed.

Lemma mark_same_tree fuel r h : same_tree h (mark_as_started fuel r h).
Proof.
  revert r h. induction fuel as [|fuel IH]; intros r h; simpl; [done|].
  destruct (h !! r) as [x|] eqn:Ex; [|done]. etrans; [by apply same_tree_mark|].
  apply (mark_foldr _ same_tree); [apply _|apply _|]. intros s h'. apply IH.
Qed.

Lemma same_tree_lookup h h' r x :
  same_tree h h' -> h !! r = Some x ->
  exists x', h' !! r = Some x' /\ rt_tasks x' = rt_tasks x /\ rt_routers x' = rt_routers x.
Proof.
  intros Hs Hx. specialize (Hs r). rewrite Hx in Hs.
  destruct (h' !! r) as [x'|]; [|done]. injection Hs as Ht Hr. eauto.
Qed.

Lemma same_tree_included h h' r s : same_tree h h' -> included h r s -> included h' r s.
Proof.
  intros Hs (x & Hx & Hin). destruct (same_tree_lookup _ _ _ _ Hs Hx) as (x' & Hx' & _ & E).
  exists x'. by rewrite E.
Qed.

Lemma same_tree_tree h h' depth : same_tree h h' -> router_tree h depth -> router_tree h' depth.
Proof.
  intros Hs Ht r s Hi. destruct (Ht r s) as [? [x Hx]].
  { apply (same_tree_included h'); [by symmetry|done]. }
  split; [done|]. destruct (same_tree_lookup _ _ _ _ Hs Hx) as (x' & ? & _). eauto.
Qed.

Lemma router_tasks_same fuel h h' r :
  same_tree h h' -> router_tasks fuel h' r = router_tasks fuel h r.
Proof.
  intros Hs. revert r. induction fuel as [|fuel IH]; intros r; simpl; [done|].
  destruct (h !! r) as [x|] eqn:Ex.
  - destruct (same_tree_lookup _ _ _ _ Hs Ex) as (x' & -> & -> & ->). f_equal.
    clear Ex. induction (rt_routers x) as [|s l IHl]; [done|].
    cbn [mbind list_bind]. by rewrite IH, IHl.
  - specialize (Hs r). rewrite Ex in Hs. by destruct (h' !! r).
Qed.

(** What is started stays started. *)
Definition starts_more (h h' : routers) : Prop :=
  forall r, router_started h r = true -> router_started h' r = true.

#[export] Instance starts_more_preorder : PreOrder starts_more.
Proof. split; unfold starts_more; [intros h r; done|intros a b c; auto]. Qed.

Lemma mark_starts_more fuel r h : starts_more h (mark_as_started fuel r h).
Proof.
  revert r h. induction fuel as [|fuel IH]; intros r h; simpl; [done|].
  destruct (h !! r) as [x|] eqn:Ex; [|done].
  assert (starts_more h (<[r := mkRouter true (rt_tasks x) (rt_routers x)]> h)) as H1.
  { intros s. unfold router_started. destruct (decide (r = s)) as [<-|Hne].
    - by rewrite lookup_insert_eq.
    - by rewrite lookup_insert_ne. }
  intros s Hs. apply H1 in Hs. revert s Hs.
  apply (mark_foldr _ starts_more); [apply _|apply _|]. intros s h'. apply IH.
Qed.

Lemma mark_foldr_at (f : nat -> routers -> routers) (s : nat) l h :
  s ∈ l ->
  (forall u h, same_tree h (f u h)) -> (forall u h, starts_more h (f u h)) ->
  exists h', same_tree h h' /\ starts_more (f s h') (foldr f h l).
Proof.
  intros Hs Ht Hm. induction l as [|u l IH]; [by apply elem_of_nil in Hs|]. simpl.
  apply elem_of_cons in Hs as [<-|Hs].
  - exists (foldr f h l). split; [|done]. apply (mark_foldr _ same_tree); [apply _|apply _|done].
  - destruct (IH Hs) as (h' & ? & Hm'). exists h'. split; [done|]. intros v Hv. by apply Hm, Hm'.
Qed.

(** Starting a router starts every router below it. *)
Lemma mark_reaches depth fuel r s h :
  router_tree h depth -> (depth r < fuel)%nat -> is_Some (h !! r) ->
  rtc (included h) r s -> router_started (mark_as_started fuel r h) s = true.
Proof.
  revert r s h. induction fuel as [|fuel IH]; intros r s h Ht Hd [x Hx] Hrs; [lia|].
  simpl. rewrite Hx. set (h1 := <[r := _]> h).
  assert (same_tree h h1) as H1 by by apply same_tree_mark.
  destruct Hrs as [|s0 c s Hi Hrs].
  - assert (starts_more h1 (foldr (mark_as_started fuel) h1 (rev (rt_routers x)))) as Hm.
    { apply (mark_foldr _ starts_more); [apply _|apply _|].
      intros u h'. apply mark_starts_more. }
    apply Hm. unfold router_started, h1. by rewrite lookup_insert_eq.
  - destruct (Ht _ _ Hi) as [Hdc Hc]. destruct Hi as (x' & Hx' & Hin). simplify_eq.
    destruct (mark_foldr_at (mark_as_started fuel) c (rev (rt_routers x)) h1) as (h' & H' & Hm').
    { by rewrite list_elem_of_In, <- in_rev, <- list_elem_of_In. }
    { apply mark_same_tree. }
    { apply mark_starts_more. }
    apply Hm'. assert (same_tree h h') as H2 by by etrans.
    apply IH; [by apply (same_tree_tree h)|lia| |].
    + destruct Hc as [y Hy]. destruct (same_tree_lookup _ _ _ _ H2 Hy) as (y' & ? & _). eauto.
    + clear -Hrs H2. induction Hrs as [|a b d Hab]; [done|].
      eapply rtc_l; [by apply (same_tree_included h)|done].
Qed.

(** What an application does with its routers after the start. *)
Inductive router_op : Type :=
| NewRouter (r : nat) (tasks : list nat)
| AddTask (r task : nat)
| IncludeRouter (r child : nat).

Definition exec_router (o : router_op) (h : routers) : outcome exn unit * routers :=
  match o with
  | NewRouter r tasks =>
      (Return tt, match h !! r with None => <[r := new_router tasks]> h | Some _ => h end)
  | AddTask r task => add_task r task h
  | IncludeRouter r child => include_router r child h
  end.

(** The started routers [R] are as they were. *)
Definition frozen (R : nat -> Prop) (h1 h : routers) : Prop := forall s, R s -> h !! s = h1 !! s.

Lemma exec_router_frozen R h1 o h :
  (forall s, R s -> router_started h1 s = true) ->
  frozen R h1 h -> frozen R h1 (exec_router o h).2.
Proof.
  intros HR Hf s Hs. pose proof (HR s Hs) as Hst. unfold router_started in Hst.
  rewrite <- (Hf s Hs) in Hst |- *.
  assert (forall r x y, h !! r = Some x -> rt_started x = false -> <[r := y]> h !! s = h !! s) as Hne.
  { intros r x y Hx Hx'. apply lookup_insert_ne. intros ->. by rewrite Hx, Hx' in Hst. }
  destruct o as [r l|r k|r c]; simpl; unfold add_task, include_router;
    destruct (h !! r) as [x|] eqn:Ex; try done.
  - apply lookup_insert_ne. intros ->. by rewrite Ex in Hst.
  - destruct (rt_started x) eqn:E; [done|]. by eapply Hne.
  - destruct (rt_started x) eqn:E; [done|]. by eapply Hne.
Qed.

Lemma exec_routers_frozen R h1 ops :
  (forall s, R s -> router_started h1 s = true) ->
  frozen R h1 (run exec_router ops h1).2.
Proof.
  intros HR. apply (run_invariant exec_router (frozen R h1) (fun _ _ => True)); [|done|done].
  intros o h Hf _. by apply exec_router_frozen.
Qed.

Lemma router_tasks_agree fuel h h' r :
  (forall s, rtc (included h) r s -> h' !! s = h !! s) ->
  router_tasks fuel h' r = router_tasks fuel h r.
Proof.
  revert r. induction fuel as [|fuel IH]; intros r Hr; simpl; [done|].
  rewrite (Hr r) by done. destruct (h !! r) as [x|] eqn:Ex; [|done]. f_equal.
  assert (forall s, s ∈ rt_routers x -> included h r s) as Hi by (intros s Hs; by exists x).
  clear Ex. revert Hi. induction (rt_routers x) as [|s l IHl]; intros Hi; [done|]. simpl. f_equal.
  - apply IH. intros u Hu. apply Hr. eapply rtc_l; [apply Hi; by left|done].
  - apply IHl. intros u Hu. apply Hi. by right.
Qed.

Lemma mark_included fuel r h s : rtc (included (mark_as_started fuel r h)) r s -> rtc (included h) r s.
Proof.
  intros H. induction H as [|a b d Hab]; [done|]. eapply rtc_l; [|done].
  eapply same_tree_included; [|done]. symmetry. apply mark_same_tree.
Qed.

(** Starting freezes the tasks.  Let the routers be a tree (none includes itself by way of
    others), and let a router be marked as started.  Then [tasks] lists what it listed before,
    and whatever the application adds to any router or includes afterwards, new routers among
    them, [tasks] of the started router stays the same; adding to any router below it raises. *)
Lemma started_tasks_are_frozen (h : routers) (depth : nat -> nat) (fuel r : nat)
    (ops : list router_op)
    (Htree : router_tree h depth) (Hfuel : (depth r < fuel)%nat) (Hr : is_Some (h !! r)) :
  let h' := (run exec_router ops (mark_as_started fuel r h)).2 in
  router_tasks fuel h' r = router_tasks fuel h r /\
  forall s, rtc (included h) r s -> forall x,
    add_task s x h' = (Raise task_add_error, h') /\
    include_router s x h' = (Raise task_add_error, h').
Proof.
  intros h'. set (h1 := mark_as_started fuel r h).
  set (R := rtc (included h) r).
  assert (forall s, R s -> router_started h1 s = true) as HR.
  { intros s Hs. by apply (mark_reaches depth). }
  pose proof (exec_routers_frozen R h1 ops HR) as Hf. fold h' in Hf. split.
  - rewrite <- (router_tasks_same fuel h h1) by apply mark_same_tree.
    apply router_tasks_agree. intros s Hs. apply Hf. by apply mark_included in Hs.
  - intros s Hs x. pose proof (HR s Hs) as Hst. unfold router_started in Hst.
    assert (h' !! s = h1 !! s) as E by by apply Hf. rewrite <- E in Hst.
    unfold add_task, include_router. destruct (h' !! s) as [y|]; [|done]. by rewrite Hst.
Qed.

(** A manager with two routers, one inside the other. *)
Definition nested_routers : routers :=
  <[0%nat := mkRouter false [10%nat] [1%nat; 2%nat]]>
    (<[1%nat := mkRouter false [11%nat] [2%nat]]> (<[2%nat := mkRouter false [12%nat] []]> ∅)).

(** A router that is included twice has its tasks listed, and so started, twice. *)
Example included_twice : router_tasks 3 nested_routers 0 = [10; 11; 12; 12]%nat.
Proof. reflexivity. Qed.

Lemma started_tasks_are_frozen_witness :
  let ops := [NewRouter 7 [70%nat]; AddTask 2 99; IncludeRouter 1 7; IncludeRouter 7 0] in
  let h' := (run exec_router ops (mark_as_started 3 0 nested_routers)).2 in
  router_tasks 3 h' 0 = [10; 11; 12; 12]%nat /\
  add_task 2 5 h' = (Raise task_add_error, h').
Proof.
  intros ops h'.
  destruct (started_tasks_are_frozen nested_routers (fun r => 2 - r)%nat 3 0 ops) as [H1 H2].
  - intros r s (x & Hx & Hs). unfold nested_routers in Hx.
    destruct r as [|[|[|r]]]; simpl in Hx; simplify_map_eq; cbn in Hs; set_unfold in Hs;
      destruct_or?; subst; (done || (split; [simpl; lia|by eexists])).
  - simpl. lia.
  - by eexists.
  - split; [exact H1|]. apply H2. eapply rtc_l; [|done].
    eexists. split; [reflexivity|]. vm_compute. by right; left.
Defined.

(** ** The name of a task *)

(** What [inspect] sees of the function of a task; [None] for an attribute that is missing. *)
Inductive callable : Type :=
| PartialObject
| BoundMethod
| Callable (module qualname : option string).

(** [sub in s] *)
Fixpoint has_substring (sub s : string) : bool :=
  String.prefix sub s || match s with EmptyString => false | String _ s => has_substring sub s end.

Definition function_type_error (reference : string) : exn :=
  mk_exn FunctionTypeError (Message reference).

(** [validate_and_generate_reference]; an empty attribute counts as missing. *)
Definition validate_and_generate_reference (function : callable) : outcome exn string :=
  match function with
  | PartialObject => Raise (function_type_error "partial()")
  | BoundMethod => Raise (function_type_error "method")
  | Callable module qualname =>
      let module := default "" module in
      let qualname := default "" qualname in
      if String.eqb module "" || String.eqb qualname ""
      then Raise (function_type_error "callable without __module__ or __qualname__ attribute")
      else if has_substring "<lambda>" qualname then Raise (function_type_error "lambda")
      else if has_substring "<locals>" qualname then Raise (function_type_error "nested function")
      else Return (module +:+ ":" +:+ qualname)
  end.

(** Functions with the same generated name are the same function, as module names have no
    colon: the first one separates the module from the qualified name. *)
Lemma reference_names_function (m1 q1 m2 q2 : string) (r : string) :
  free_of ":"%char m1 = true -> free_of ":"%char m2 = true ->
  validate_and_generate_reference (Callable (Some m1) (Some q1)) = Return r ->
  validate_and_generate_reference (Callable (Some m2) (Some q2)) = Return r ->
  m1 = m2 /\ q1 = q2.
Proof.
  intros F1 F2 H1 H2.
  assert (forall m q, validate_and_generate_reference (Callable (Some m) (Some q)) = Return r ->
    r = m +:+ ":" +:+ q) as E.
  { intros m q. simpl. destruct (_ || _); [done|]. destruct (has_substring _ _); [done|].
    destruct (has_substring _ _); [done|]. by intros [= <-]. }
  apply E in H1, H2.
  pose proof (partition_app ":"%char m1 q1 F1) as P1. pose proof (partition_app ":"%char m2 q2 F2) as P2.
  change (m1 +:+ String ":"%char q1) with (m1 +:+ ":" +:+ q1) in P1.
  change (m2 +:+ String ":"%char q2) with (m2 +:+ ":" +:+ q2) in P2.
  rewrite <- H1 in P1. rewrite <- H2 in P2. rewrite P1 in P2. by injection P2.
Qed.
