(* ===== verification/TaskManager.v ===== *)
(** * Running scheduled tasks

    [task/_tasks.py] with the loops of [task/_interval.py] and [task/_cron.py]: how a loop
    sleeps and stops, starting the tasks one after the other inside an [asyncio.TaskGroup],
    and the drain on the way out.  Time is the clock of the event loop. *)

From S2P Require Import Prelude Errors TaskRouter CoordinationMemory Lock TaskLock.
From S2P Require Import Calendar Cron CronTask IntervalTask.

Local Open Scope Z_scope.

(** ** The loops of the tasks *)

(** [sleep_or_stop] ([_async.py]): [stop] is the time at which the event is set, [None] when
    it never is or there is none.  When the event is set at the very moment the time is up,
    [tie] says which of the two the event loop sees first.  Returns the result and the time. *)
Definition sleep_or_stop (tie : bool) (now seconds : Q) (stop : option Q) : bool * Q :=
  let wake := (now + py_max 0 seconds)%Q in
  match stop with
  | None => (false, wake)
  | Some at_ =>
      if (at_ <? now)%py then (true, now)
      else if (at_ <? wake)%py || Qeq_bool at_ wake && tie then (true, at_)
      else (false, wake)
  end.

Section Loop.
Context {S : Type}.
(** The [n]-th turn: its result, how long it took and the state it left; and the sleep that
    follows a turn, at the time it starts. *)
Context (turn : nat -> S -> outcome exn unit * Q * S) (delay : nat -> S -> outcome exn Q)
  (tie : nat -> bool).

(** The [while True] of [__call__], started at [now]: how it ends and when, and the times
    between which its turns ran. *)
Fixpoint task_loop (fuel n : nat) (now : Q) (stop : option Q) (s : S) :
    option (outcome exn unit * Q * S * list (Q * Q)) :=
  match fuel with
  | O => None
  | Datatypes.S fuel =>
      let '(r, took, s) := turn n s in
      let done := (now + took)%Q in
      match r with
      | Raise e => Some (Raise e, done, s, [(now, done)])
      | Return _ =>
          match delay n s with
          | Raise e => Some (Raise e, done, s, [(now, done)])
          | Return seconds =>
              let '(stopped, woken) := sleep_or_stop (tie n) done seconds stop in
              if stopped then Some (Return tt, woken, s, [(now, done)])
              else '(r, t, s, turns) ← task_loop fuel (Datatypes.S n) woken stop s;
                   Some (r, t, s, (now, done) :: turns)
          end
      end
  end.
End Loop.

(** [IntervalTask.__call__]: the [n]-th fire happens at [dates n] and takes [took n]. *)
Definition interval_call {W} (ps : list Primitive) (body : py W exn unit)
    (dates : nat -> datetime * datetime) (took : nat -> W -> Q) (seconds : Q) (tie : nat -> bool)
    (fuel : nat) (start : Q) (stop : option Q) (s : TaskState * W) :=
  task_loop
    (fun n '(t, w) =>
       let '(r, s) := iteration ps body (dates n).1 (dates n).2 false (t, w) in (r, took n w, s))
    (fun _ _ => Return seconds) tie fuel 0 start stop s.

(** [CronTask.__call__]: the first tick catches up; a search that runs out of turns would be
    an endless loop of the code and is proved away in [Cron]. *)
Definition cron_call {B} `{ScheduleBackend B} (name : string) (expr : CronExpression)
    (grace : option Q) (utcoffset : datetime -> Q)
    (dates : nat -> datetime * datetime * datetime) (env : nat -> fire_env) (took : nat -> B -> Q)
    (tie : nat -> bool) (fuel : nat) (start : Q) (stop : option Q) (s : TaskState * B) :=
  task_loop
    (fun n '(t, b) =>
       let '(now, now', _) := dates n in
       let '(r, t, b') := tick_guarded name expr grace utcoffset (bool_decide (n = 0%nat))
                            now now' (env n) false t b in
       (r, took n b, (t, b')))
    (fun n _ => default (Raise (mk_exn CronError NoInfo))
                  (loop_delay expr utcoffset (dates n).2))
    tie fuel 0 start stop s.

Lemma sleep_or_stop_wakes tie now seconds at_ :
  let '(stopped, woken) := sleep_or_stop tie now seconds (Some at_) in
  if stopped then (woken == py_max now at_)%Q
  else (woken <= at_)%Q /\ (woken == now + py_max 0 seconds)%Q.
Proof.
  unfold sleep_or_stop. set (wake := (now + py_max 0 seconds)%Q).
  assert (now <= wake)%Q by (unfold wake; qcases).
  destruct (Qlt_bool_spec at_ now); [qcases|].
  destruct (Qlt_bool_spec at_ wake); simpl; [qcases|].
  destruct (Qeq_bool_spec at_ wake), tie; simpl; qcases.
Qed.

Arguments sleep_or_stop : simpl never.

Section LoopEnds.
Context {S : Type} (turn : nat -> S -> outcome exn unit * Q * S)
  (delay : nat -> S -> outcome exn Q) (tie : nat -> bool) (longest shortest : Q).
Hypothesis turn_returns : forall n s,
  (turn n s).1.1 = Return tt /\ (0 <= (turn n s).1.2 <= longest)%Q.
Hypothesis shortest_pos : (0 < shortest)%Q.
Hypothesis delay_returns : forall n s, exists q, delay n s = Return q /\ (shortest <= q)%Q.

(** Turns that are enough from [now] to a stop at [at_]. *)
Definition loop_fuel (now at_ : Q) : nat := (2 + Z.to_nat (Qceiling ((at_ - now) / shortest)))%nat.

Lemma loop_fuel_enough now at_ :
  (at_ - now <= shortest * (inject_Z (Z.of_nat (loop_fuel now at_)) - 2))%Q.
Proof.
  unfold loop_fuel. set (x := ((at_ - now) / shortest)%Q).
  pose proof (Qle_ceiling x) as Hx.
  assert (Qceiling x <= Z.of_nat (2 + Z.to_nat (Qceiling x)) - 2) as Hc by lia.
  rewrite inject_Z_le in Hc. unfold Z.sub in Hc. rewrite inject_Z_plus in Hc.
  change (inject_Z (- (2))) with (-2)%Q in Hc.
  assert (x <= inject_Z (Z.of_nat (2 + Z.to_nat (Qceiling x))) - 2)%Q as H by lra.
  unfold x in H at 1. rewrite Qdiv_le_iff in H by done. lra.
Qed.

(** A loop told to stop ends, at the end of the turn it is in or of its sleep. *)
Lemma loop_ends fuel n now at_ s :
  (now <= at_)%Q -> (at_ - now <= shortest * (inject_Z (Z.of_nat fuel) - 2))%Q ->
  exists t s' turns,
    task_loop turn delay tie fuel n now (Some at_) s = Some (Return tt, t, s', turns) /\
    (at_ <= t <= at_ + longest)%Q /\
    forall b e, (b, e) ∈ turns -> (b <= at_)%Q /\ (b <= e <= t)%Q.
Proof.
  revert n now s. induction fuel as [|fuel IH]; intros n now s Hnow Hf.
  { change (inject_Z (Z.of_nat 0)) with 0%Q in Hf. lra. }
  replace (Z.of_nat (Datatypes.S fuel)) with (Z.of_nat fuel + 1) in Hf by lia.
  rewrite inject_Z_plus in Hf. change (inject_Z 1) with 1%Q in Hf. simpl.
  destruct (turn_returns n s) as [Hr Hd]. destruct (turn n s) as [[r took] s1]. simpl in Hr, Hd.
  subst r. destruct (delay_returns n s1) as (q & -> & Hq). set (done := (now + took)%Q).
  pose proof (sleep_or_stop_wakes (tie n) done q at_) as Hw.
  destruct (sleep_or_stop (tie n) done q (Some at_)) as [[|] woken].
  - exists woken, s1, [(now, done)]. split; [done|]. rewrite Hw.
    assert (now <= done)%Q by (unfold done; lra). assert (done <= at_ + longest)%Q by (unfold done; lra).
    split; [qcases|]. intros b e [= -> ->]%list_elem_of_singleton. split; [done|]. rewrite Hw.
    qcases.
  - destruct Hw as [Hw Hw'].
    assert (now + shortest <= woken)%Q by (rewrite Hw'; unfold done; qcases).
    destruct (IH (Datatypes.S n) woken s1) as (t & s' & turns & -> & Ht & Hall); [done|lra|].
    simpl. eexists t, s', _. split; [done|]. split; [done|].
    intros b e [[= -> ->]|Hin]%elem_of_cons; [|by apply Hall].
    split; [done|]. unfold done in *. qcases.
Qed.

(** Without a stop it does not end. *)
Lemma loop_runs_on fuel n now s : task_loop turn delay tie fuel n now None s = None.
Proof.
  revert n now s. induction fuel as [|fuel IH]; intros n now s; simpl; [done|].
  destruct (turn_returns n s) as [Hr _]. destruct (turn n s) as [[r took] s1]. simpl in Hr. subst r.
  destruct (delay_returns n s1) as (q & -> & _). by rewrite IH.
Qed.
End LoopEnds.

(** A failure that an [except Exception] clause would catch. *)
Definition ordinary {A} (r : outcome exn A) : Prop :=
  forall e, r = Raise e -> is_exception e = true /\ isinstance e CancelledError = false.

Definition ordinary_primitive {W} (p : Primitive (W := W)) : Prop :=
  (forall w, ordinary (p_enter p w).1) /\ (forall e w, ordinary (p_exit p e w).1).

Lemma run_with_sync_ordinary {W} (ps : list (Primitive (W := W))) body now s :
  Forall ordinary_primitive ps -> (forall w, ordinary (body w).1) ->
  ordinary (run_with_sync ps body now s).1.
Proof.
  intros Hps Hb. revert s. induction Hps as [|p ps [He Hx] _ IH]; intros [t w]; simpl.
  - specialize (Hb w). destruct (body w) as [[[]|e] w']; [done|].
    destruct (Hb e) as [-> _]; [done|]. done.
  - specialize (He w). destruct (p_enter p w) as [[[]|e] w1]; [|by intros e' [= ->]; apply He].
    specialize (IH (t, w1)). destruct (run_with_sync ps body now (t, w1)) as [r [t2 w2]].
    set (x := match r with Return _ => None | Raise e => Some e end).
    specialize (Hx x w2). destruct (p_exit p x w2) as [[b|e] w3]; [|by intros e' [= ->]; apply Hx].
    destruct r as [[]|e]; [done|]. destruct b; [done|]. intros e' [= ->]. by apply IH.
Qed.

#[local] Arguments iteration : simpl never.

Lemma iteration_returns {W} (ps : list (Primitive (W := W))) body now now' s :
  Forall ordinary_primitive ps -> (forall w, ordinary (body w).1) ->
  (iteration ps body now now' false s).1 = Return tt.
Proof.
  intros Hps Hb. destruct s as [t w]. unfold iteration.
  pose proof (run_with_sync_ordinary ps body now (reset_started t, w) Hps Hb) as Ho.
  destruct (run_with_sync ps body now _) as [r [t1 w1]]. simpl in Ho.
  destruct r as [[]|e]; simpl; [done|]. destruct (Ho e eq_refl) as [He Hc]. rewrite Hc, He.
  by destruct (is_would_block e), (is_not_owned e).
Qed.

Section IntervalCall.
Context {W : Type} (ps : list (Primitive (W := W))) (body : py W exn unit)
  (dates : nat -> datetime * datetime) (took : nat -> W -> Q) (seconds longest : Q)
  (tie : nat -> bool).
Hypothesis ps_ordinary : Forall ordinary_primitive ps.
Hypothesis body_ordinary : forall w, ordinary (body w).1.
Hypothesis took_bounds : forall n w, (0 <= took n w <= longest)%Q.
Hypothesis seconds_pos : (0 < seconds)%Q.

Lemma interval_turn_returns n s :
  let turn := (fun n '(t, w) =>
    let '(r, s) := iteration ps body (dates n).1 (dates n).2 false (t, w) in (r, took n w, s)) in
  (turn n s).1.1 = Return tt /\ (0 <= (turn n s).1.2 <= longest)%Q.
Proof.
  destruct s as [t w]. simpl.
  pose proof (iteration_returns ps body (dates n).1 (dates n).2 (t, w) ps_ordinary body_ordinary).
  destruct (iteration _ _ _ _ _ _) as [r s']. simpl in *. split; [done|apply took_bounds].
Qed.

Lemma interval_loop_ends start at_ s :
  (start <= at_)%Q ->
  exists t s' turns,
    interval_call ps body dates took seconds tie (loop_fuel seconds start at_) start (Some at_) s =
      Some (Return tt, t, s', turns) /\
    (at_ <= t <= at_ + longest)%Q /\
    forall b e, (b, e) ∈ turns -> (b <= at_)%Q /\ (b <= e <= t)%Q.
Proof.
  intros H. unfold interval_call.
  apply (loop_ends _ _ tie longest seconds interval_turn_returns seconds_pos);
    [intros; exists seconds; split; [done|lra]|done|].
  by apply loop_fuel_enough.
Qed.

Lemma interval_loop_runs_on fuel start s :
  interval_call ps body dates took seconds tie fuel start None s = None.
Proof.
  unfold interval_call. apply (loop_runs_on _ _ tie longest seconds interval_turn_returns).
  intros. exists seconds. split; [done|lra].
Qed.
End IntervalCall.

(** ** The manager

    A task of the manager: how long after its creation it resolves [ready], and how and when
    it ends by itself, given when it was created and when the stop signal was set. *)
Record Task : Type := mkManaged {
  t_ready : option Q;
  t_run : Q -> option Q -> option (outcome exn unit * Q);
}.

Inductive handle_state : Type :=
| Running | Cancelling | Done (o : outcome exn unit) | CancelledHandle.

(** An [asyncio.Task] of the group, and the future [ready] it was given. *)
Record handle : Type := mkHandle {
  h_task : Task;
  h_start : Q;
  h_ready : bool;
  h_state : handle_state;
}.

Definition settled (h : handle) : bool :=
  match h_state h with Done _ | CancelledHandle => true | _ => false end.

(** How the [async with] block is left: with an exception or none, or with the group of
    exceptions that [asyncio.TaskGroup] makes. *)
Inductive leaving : Type := Leaves (e : option exn) | Group (es : list exn).

(** Where the task that owns the manager is.  [Starting]: awaiting the last handle or its
    [ready], with the tasks still to be started and whether [__aenter__] called [start].
    [Closing]: in [TaskGroup.__aexit__], with the exception of the body and the cancellation
    to propagate. *)
Inductive where_ : Type :=
| Outside
| Starting (auto : bool) (rest : list Task)
| Body
| Draining (e : option exn) (deadline : Q)
| Closing (e : option exn) (propagate : option exn)
| Left_ (closed : bool) (l : leaving).

(** [Tasks] with its task group.  [m_cancel] says that a [CancelledError] is about to be
    thrown into the owner; [m_outer] that somebody else cancelled it. *)
Record Tasks : Type := mkTasks {
  m_clock : Q;
  m_where : where_;
  m_started : bool;
  m_handles : list handle;
  m_stop : option Q;
  m_aborting : bool;
  m_requested : bool;
  m_errors : list exn;
  m_cancel : bool;
  m_outer : bool;
}.

Definition set_where (x : where_) (m : Tasks) : Tasks :=
  mkTasks (m_clock m) x (m_started m) (m_handles m) (m_stop m) (m_aborting m) (m_requested m)
    (m_errors m) (m_cancel m) (m_outer m).
Definition set_handles (hs : list handle) (m : Tasks) : Tasks :=
  mkTasks (m_clock m) (m_where m) (m_started m) hs (m_stop m) (m_aborting m) (m_requested m)
    (m_errors m) (m_cancel m) (m_outer m).
Definition set_cancel (b : bool) (m : Tasks) : Tasks :=
  mkTasks (m_clock m) (m_where m) (m_started m) (m_handles m) (m_stop m) (m_aborting m)
    (m_requested m) (m_errors m) b (m_outer m).

Definition runtime_error : exn := mk_exn RuntimeError NoInfo.
Definition cancellation : exn := mk_exn CancelledError NoInfo.

(** [__init__]: its check *)
Definition shutdown_timeout_valid (shutdown_timeout : Q) : bool := negb (shutdown_timeout <? 0)%py.

(** [asyncio.Task.cancel] *)
Definition cancel_handle (h : handle) : handle :=
  match h_state h with
  | Running => mkHandle (h_task h) (h_start h) (h_ready h) Cancelling
  | _ => h
  end.

(** [TaskGroup._abort] *)
Definition abort (m : Tasks) : Tasks :=
  mkTasks (m_clock m) (m_where m) (m_started m) (cancel_handle <$> m_handles m) (m_stop m) true
    (m_requested m) (m_errors m) (m_cancel m) (m_outer m).

(** How a coroutine that ends with [o] leaves its [asyncio.Task]. *)
Definition settled_as (o : outcome exn unit) : handle_state :=
  match o with
  | Raise e => if isinstance e CancelledError then CancelledHandle else Done o
  | Return _ => Done o
  end.

(** [TaskGroup._on_task_done], for the handle [i] that settles as [s]. *)
Definition on_task_done (i : nat) (h : handle) (s : handle_state) (m : Tasks) : Tasks :=
  let hs := <[i := mkHandle (h_task h) (h_start h) (h_ready h) s]> (m_handles m) in
  match s with
  | Done (Raise e) =>
      let m := mkTasks (m_clock m) (m_where m) (m_started m) hs (m_stop m) (m_aborting m)
                 (m_requested m) (m_errors m ++ [e]) (m_cancel m) (m_outer m) in
      if m_aborting m || m_requested m then m
      else let m := abort m in
           mkTasks (m_clock m) (m_where m) (m_started m) (m_handles m) (m_stop m) true true
             (m_errors m) true (m_outer m)
  | _ => set_handles hs m
  end.

Section Manager.
Context (auto_start : bool) (shutdown_timeout : Q) (tasks : list Task).

Definition new_tasks (now : Q) : Tasks := mkTasks now Outside false [] None false false [] false false.

(** [start] raises: into [__aenter__], which leaves the task group as it is, or into the body. *)
Definition start_raises (auto : bool) (e : exn) (m : Tasks) : Tasks :=
  set_where (if auto then Left_ false (Leaves (Some e)) else Body) m.

(** The loop of [start] up to its next [await]. *)
Definition start_next (auto : bool) (rest : list Task) (m : Tasks) : Tasks :=
  match rest with
  | [] => set_where Body m
  | task :: rest =>
      if m_aborting m then start_raises auto runtime_error m
      else set_where (Starting auto rest)
             (set_handles (m_handles m ++ [mkHandle task (m_clock m) false Running]) m)
  end.

(** [start] *)
Definition start (auto : bool) (m : Tasks) : Tasks :=
  if m_started m then start_raises auto task_add_error m
  else start_next auto tasks
         (mkTasks (m_clock m) (m_where m) true (m_handles m) (m_stop m) (m_aborting m)
            (m_requested m) (m_errors m) (m_cancel m) (m_outer m)).

(** [start] again, after its [await] on [asyncio.wait]. *)
Definition start_wakes (auto : bool) (rest : list Task) (h : handle) (m : Tasks) : Tasks :=
  if m_cancel m then start_raises auto cancellation (set_cancel false m)
  else if h_ready h then start_next auto rest m
  else start_raises auto
         match h_state h with
         | Done (Raise e) => e
         | CancelledHandle => cancellation
         | _ => runtime_error
         end m.

(** [__aenter__] *)
Definition tasks_enter (m : Tasks) : Tasks :=
  let m := mkTasks (m_clock m) Body (m_started m) (m_handles m) None false false []
             (m_cancel m) (m_outer m) in
  if auto_start then start true m else m.

(** [TaskGroup.__aexit__] up to its first [await] *)
Definition close_group (e : option exn) (m : Tasks) : Tasks :=
  let propagate :=
    match e with
    | Some x => if isinstance x CancelledError && negb (m_requested m && negb (m_outer m))
                then Some x else None
    | None => None
    end in
  let m := if m_requested m && negb (m_outer m) then set_cancel false m else m in
  let m := match e with Some _ => if m_aborting m then m else abort m | None => m end in
  set_where (Closing e propagate) m.

(** The part of [_drain] after [asyncio.wait]: the handles that have not settled are cancelled. *)
Definition cancel_pending (e : option exn) (m : Tasks) : Tasks :=
  close_group e (set_handles (cancel_handle <$> m_handles m) m).

(** [__aexit__], and [_drain] up to its [await] *)
Definition tasks_exit (e : option exn) (m : Tasks) : Tasks :=
  let m := mkTasks (m_clock m) (m_where m) (m_started m) (m_handles m) (Some (m_clock m))
             (m_aborting m) (m_requested m) (m_errors m) (m_cancel m) (m_outer m) in
  if negb (bool_decide (m_handles m = [])) && (0 <? shutdown_timeout)%py
  then set_where (Draining e (m_clock m + shutdown_timeout)) m
  else cancel_pending e m.

(** The end of [TaskGroup.__aexit__] *)
Definition is_base_error (e : exn) : bool := isinstance e KeyboardInterrupt.

Definition group_exit (e propagate : option exn) (errors : list exn) : leaving :=
  match List.find is_base_error (errors ++ option_list e), propagate, errors with
  | Some x, _, _ => Leaves (Some x)
  | None, Some x, [] => Leaves (Some x)
  | None, _, _ =>
      match errors ++ filter (fun x => isinstance x CancelledError = false) (option_list e) with
      | [] => Leaves e
      | es => Group es
      end
  end.

(** When a running task does something by itself. *)
Definition ready_at (h : handle) : option Q :=
  if h_ready h then None else (fun d => (h_start h + d)%Q) <$> t_ready (h_task h).
Definition ends_at (m : Tasks) (h : handle) : option Q :=
  snd <$> t_run (h_task h) (h_start h) (m_stop m).

(** Whether the owner is due to continue. *)
Definition owner_due (m : Tasks) : bool :=
  match m_where m with
  | Starting _ _ =>
      m_cancel m ||
      match last (m_handles m) with Some h => h_ready h || settled h | None => true end
  | Draining _ deadline =>
      m_cancel m || forallb settled (m_handles m) || (deadline <=? m_clock m)%py
  | Closing _ _ => m_cancel m || forallb settled (m_handles m)
  | _ => false
  end.

(** Time passes as long as nobody has something to do. *)
Definition may_wait (m : Tasks) (now : Q) : Prop :=
  (m_clock m <= now)%Q /\ owner_due m = false /\
  forall h, h ∈ m_handles m -> h_state h = Running ->
    (forall q, ready_at h = Some q -> (now <= q)%Q) /\
    (forall q, ends_at m h = Some q -> (now <= q)%Q).

Definition set_clock (now : Q) (m : Tasks) : Tasks :=
  mkTasks now (m_where m) (m_started m) (m_handles m) (m_stop m) (m_aborting m) (m_requested m)
    (m_errors m) (m_cancel m) (m_outer m).

(** The steps of the owner, of the tasks and of time; [outer] says whether somebody else may
    cancel the owner. *)
Inductive manager_step (outer : bool) : Tasks -> Tasks -> Prop :=
| MEnter m : m_where m = Outside -> manager_step outer m (tasks_enter m)
| MStart m : m_where m = Body -> manager_step outer m (start false m)
| MWakes m auto rest h :
    m_where m = Starting auto rest -> last (m_handles m) = Some h -> owner_due m = true ->
    manager_step outer m (start_wakes auto rest h m)
(* the body ends, having received the cancellation that was due or not *)
| MBodyEnds m e received :
    m_where m = Body -> (received = true -> m_cancel m = true) ->
    manager_step outer m (tasks_exit e (if received then set_cancel false m else m))
| MDrained m e deadline :
    m_where m = Draining e deadline -> m_cancel m = false -> owner_due m = true ->
    manager_step outer m (cancel_pending e m)
| MDrainCancelled m e deadline :
    m_where m = Draining e deadline -> m_cancel m = true ->
    manager_step outer m
      (set_where (Left_ false (Leaves (Some cancellation))) (set_cancel false m))
| MClosingCancelled m e p :
    m_where m = Closing e p -> m_cancel m = true ->
    manager_step outer m
      (if m_aborting m then set_cancel false m
       else set_where (Closing e (Some cancellation)) (abort (set_cancel false m)))
| MClosed m e p :
    m_where m = Closing e p -> forallb settled (m_handles m) = true ->
    manager_step outer m (set_where (Left_ true (group_exit e p (m_errors m))) m)
| MOuterCancel m :
    outer = true ->
    manager_step outer m
      (mkTasks (m_clock m) (m_where m) (m_started m) (m_handles m) (m_stop m) (m_aborting m)
         (m_requested m) (m_errors m) true true)
| MReady m i h q :
    m_handles m !! i = Some h -> h_state h = Running -> ready_at h = Some q ->
    (q <= m_clock m)%Q ->
    manager_step outer m
      (set_handles (<[i := mkHandle (h_task h) (h_start h) true (h_state h)]> (m_handles m)) m)
| MEnds m i h o q :
    m_handles m !! i = Some h -> h_state h = Running ->
    t_run (h_task h) (h_start h) (m_stop m) = Some (o, q) -> (q <= m_clock m)%Q ->
    manager_step outer m (on_task_done i h (settled_as o) m)
| MWindsUp m i h s :
    m_handles m !! i = Some h -> h_state h = Cancelling -> (s = CancelledHandle \/ exists o, s = settled_as o) ->
    manager_step outer m (on_task_done i h s m)
| MWaits m now :
    may_wait m now -> manager_step outer m (set_clock now m).
End Manager.

(** ** A graceful shutdown *)

(** A task that is ready at once, runs until it is told to stop and then ends within
    [longest]. *)
Definition graceful_task (longest : Q) (t : Task) : Prop :=
  t_ready t = Some 0%Q /\
  (forall start, t_run t start None = None) /\
  forall start at_, (start <= at_)%Q ->
    exists q, t_run t start (Some at_) = Some (Return tt, q) /\ (at_ <= q <= at_ + longest)%Q.

Section Graceful.
Context (auto_start : bool) (shutdown_timeout longest : Q) (tasks : list Task).
Hypothesis tasks_graceful : Forall (graceful_task longest) tasks.
Hypothesis longest_short : (0 <= longest < shutdown_timeout)%Q.

Definition is_running (h : handle) : Prop := h_state h = Running.
Definition finished (h : handle) : Prop := h_state h = Done (Return tt).

#[local] Instance is_running_dec h : Decision (is_running h).
Proof. unfold is_running. destruct (h_state h); (by left) || (by right). Defined.

Definition graceful_handle (m : Tasks) (h : handle) : Prop :=
  graceful_task longest (h_task h) /\ (h_start h <= m_clock m)%Q /\
  (is_running h \/ (finished h /\ is_Some (m_stop m))).

(** Since the stop signal, set at [at_], at most [longest] has passed. *)
Definition stopping (m : Tasks) (at_ : Q) : Prop :=
  m_stop m = Some at_ /\ (at_ <= m_clock m <= at_ + longest)%Q.

Record graceful_data (m : Tasks) : Prop := {
  gi_handles : Forall (graceful_handle m) (m_handles m);
  gi_quiet : m_requested m = false /\ m_errors m = [] /\ m_cancel m = false /\ m_outer m = false;
  gi_started : m_started m = false -> m_handles m = [];
  gi_due : forall at_, m_stop m = Some at_ -> forall h, h ∈ m_handles m -> is_running h ->
    (h_start h <= at_)%Q /\ forall q, ends_at m h = Some q -> (m_clock m <= q)%Q;
}.

Definition graceful_where (m : Tasks) : Prop :=
  match m_where m with
  | Outside => m_stop m = None /\ m_aborting m = false /\ m_started m = false
  | Body => m_stop m = None /\ m_aborting m = false
  | Starting _ rest =>
      m_stop m = None /\ m_aborting m = false /\ m_started m = true /\
      Forall (graceful_task longest) rest
  | Draining _ deadline =>
      m_aborting m = false /\
      exists at_, stopping m at_ /\ deadline = (at_ + shutdown_timeout)%Q
  | Closing _ _ => Forall finished (m_handles m) /\ exists at_, stopping m at_
  | Left_ closed _ => closed = true /\ Forall finished (m_handles m)
  end.

Lemma cancel_finished hs : Forall finished hs -> cancel_handle <$> hs = hs.
Proof.
  induction 1 as [|h hs Hh _ IH]; [done|]. cbn. fold (fmap cancel_handle hs) in *.
  change (cancel_handle h :: (cancel_handle <$> hs) = h :: hs).
  rewrite IH. unfold cancel_handle. by rewrite Hh.
Qed.

Lemma settled_finished m hs :
  Forall (graceful_handle m) hs -> forallb settled hs = true -> Forall finished hs.
Proof.
  intros H. induction H as [|h hs (_ & _ & Hh) _ IH]; simpl; [done|].
  intros [Hs Ht]%andb_prop. constructor; [|by apply IH].
  destruct Hh as [Hh|[Hh _]]; [|done]. unfold settled in Hs. by rewrite Hh in Hs.
Qed.

Lemma unsettled_runs m :
  Forall (graceful_handle m) (m_handles m) -> forallb settled (m_handles m) = false ->
  exists h, h ∈ m_handles m /\ is_running h.
Proof.
  induction 1 as [|h hs (_ & _ & Hh) _ IH]; [done|]. simpl. intros Hs.
  destruct Hh as [Hh|[Hh _]]; [exists h; split; [by left|done]|].
  unfold settled at 1 in Hs. rewrite Hh in Hs. destruct (IH Hs) as (u & Hu & Hr).
  exists u. split; [by right|done].
Qed.

Lemma start_next_graceful auto rest m :
  graceful_data m -> m_stop m = None -> m_aborting m = false -> m_started m = true ->
  Forall (graceful_task longest) rest ->
  graceful_data (start_next auto rest m) /\ graceful_where (start_next auto rest m).
Proof.
  intros [Hh Hq Hs Hd] Hstop Hab Hst Hr. destruct Hr as [|t rest Ht Hr]; simpl.
  - split; [by constructor|done].
  - rewrite Hab. split; [|done]. constructor; simpl; try done; [|congruence|by rewrite Hstop].
    apply Forall_app. split; [done|]. constructor; [|done].
    split; [done|]. split; [apply Qle_refl|by left].
Qed.

Lemma start_graceful m :
  graceful_data m -> graceful_where m -> m_where m = Body ->
  graceful_data (start tasks false m) /\ graceful_where (start tasks false m).
Proof.
  intros Hm Hw Hb. unfold graceful_where in Hw. rewrite Hb in Hw. destruct Hw as [Hstop Hab].
  unfold start. destruct (m_started m) eqn:Est; [split; [by destruct Hm|done]|].
  apply start_next_graceful; simpl; try done. destruct Hm as [Hh Hq Hs Hd].
  constructor; simpl; try done.
Qed.

Lemma aenter_graceful m :
  graceful_data m -> graceful_where m -> m_where m = Outside ->
  graceful_data (tasks_enter auto_start tasks m) /\ graceful_where (tasks_enter auto_start tasks m).
Proof.
  intros [Hh (Hr & He & Hc & Ho) Hs Hd] Hw Hb. unfold graceful_where in Hw. rewrite Hb in Hw.
  destruct Hw as (Hstop & Hab & Hst). unfold tasks_enter, start. simpl. rewrite Hst. destruct auto_start.
  - apply start_next_graceful; simpl; try done. constructor; simpl; rewrite ?(Hs Hst); done.
  - split; [|done]. constructor; simpl; rewrite ?(Hs Hst); done.
Qed.

Lemma cancel_pending_graceful e m at_ :
  graceful_data m -> Forall finished (m_handles m) -> stopping m at_ -> m_aborting m = false ->
  graceful_data (cancel_pending e m) /\ graceful_where (cancel_pending e m).
Proof.
  intros [Hh (Hr & He & Hc & Ho) Hs Hd] Hf Hst Hab.
  unfold cancel_pending, close_group, abort, graceful_where. simpl. rewrite Hr. simpl.
  assert (cancel_handle <$> (cancel_handle <$> m_handles m) = m_handles m) as E.
  { by rewrite !cancel_finished by (try rewrite cancel_finished by done; done). }
  destruct e as [x|]; simpl; rewrite ?Hab; simpl; rewrite ?E, ?(cancel_finished _ Hf).
  all: split; [constructor; simpl; rewrite ?E, ?(cancel_finished _ Hf); done|split; [done|by exists at_]].
Qed.

Lemma aexit_graceful e m :
  graceful_data m -> graceful_where m -> m_where m = Body ->
  graceful_data (tasks_exit shutdown_timeout e m) /\ graceful_where (tasks_exit shutdown_timeout e m).
Proof.
  intros [Hh Hq Hs Hd] Hw Hb. unfold graceful_where in Hw. rewrite Hb in Hw.
  destruct Hw as [Hstop Hab]. unfold tasks_exit. set (m1 := mkTasks _ _ _ _ _ _ _ _ _ _).
  assert (stopping m1 (m_clock m)) as Hst by (split; [done|simpl; lra]).
  assert (graceful_data m1) as Hm1.
  { constructor; simpl; try done.
    - eapply Forall_impl; [exact Hh|]. intros h (Ht & Hc & [Hr|[_ Hx]]).
      + split; [done|]. split; [done|]. by left.
      + rewrite Hstop in Hx. by destruct Hx.
    - intros at_ [= <-] h Hin _. rewrite Forall_forall in Hh.
      destruct (Hh h Hin) as ((_ & _ & Hg) & Hc & _). split; [done|]. intros q. unfold ends_at. simpl.
      destruct (Hg _ _ Hc) as (q' & -> & Hq' & _). by intros [= <-]. }
  destruct (negb _ && _) eqn:Ew.
  - split; [by destruct Hm1|]. split; [done|]. by exists (m_clock m).
  - apply (cancel_pending_graceful e m1 (m_clock m)); [done| |done|done].
    simpl in *. destruct (m_handles m); [done|]. simpl in Ew.
    destruct (Qlt_bool_spec 0 shutdown_timeout); [done|lra].
Qed.

(** Replacing one handle by another of the same task, ready or ended. *)
Lemma set_handle_graceful m i h h' :
  graceful_data m -> m_handles m !! i = Some h ->
  h_task h' = h_task h -> h_start h' = h_start h ->
  (h_state h' = h_state h \/ (finished h' /\ is_Some (m_stop m))) ->
  graceful_data (set_handles (<[i := h']> (m_handles m)) m).
Proof.
  intros [Hh Hq Hs Hd] Hi Ht Hst Hx. assert (h ∈ m_handles m) as Hin by by eapply list_elem_of_lookup_2.
  constructor; simpl; [|done| |].
  - apply Forall_insert; [done|]. rewrite Forall_forall in Hh. destruct (Hh h Hin) as (Hg & Hc & Hr).
    unfold graceful_handle, is_running, finished in *. rewrite Ht, Hst. split; [done|]. split; [done|].
    destruct Hx as [->|Hx]; [done|by right].
  - intros E. by rewrite (Hs E).
  - intros at_ Hat u Hu Hr. apply list_elem_of_lookup in Hu as [j Hj].
    apply list_lookup_insert_Some in Hj as [(<- & <- & _)|[_ Hj]].
    + destruct Hx as [Hx|[Hf _]]; [|unfold is_running, finished in *; congruence].
      destruct (Hd at_ Hat h Hin) as [? He]; [unfold is_running in *; congruence|].
      unfold ends_at in *. by rewrite Ht, Hst.
    + apply (Hd at_ Hat u); [by eapply list_elem_of_lookup_2|done].
Qed.

Lemma set_handle_where m i h h' :
  graceful_where m -> m_handles m !! i = Some h -> (is_running h -> finished h' \/ is_running h') ->
  (finished h -> finished h') -> (is_running h \/ finished h) ->
  graceful_where (set_handles (<[i := h']> (m_handles m)) m).
Proof.
  intros Hw Hi H1 H2 H3. unfold graceful_where in *. simpl.
  assert (Forall finished (m_handles m) -> Forall finished (<[i := h']> (m_handles m))) as Hf.
  { intros Hf. apply Forall_insert; [done|]. apply H2. eapply Forall_lookup_1; [exact Hf|done]. }
  destruct (m_where m); try done; destruct Hw as [? Hw]; split; auto.
Qed.

Lemma waits_graceful m now :
  graceful_data m -> graceful_where m -> may_wait m now ->
  graceful_data (set_clock now m) /\ graceful_where (set_clock now m).
Proof.
  intros [Hh Hq Hs Hd] Hw (Hnow & Hdue & Hwait). split.
  - constructor; simpl; [|done|done|].
    + eapply Forall_impl; [exact Hh|]. intros h (Hg & Hc & Hr). split; [done|]. split; [simpl; lra|done].
    + intros at_ Hat h Hin Hr. destruct (Hd at_ Hat h Hin Hr) as [Hc _]. split; [done|].
      by apply (Hwait h Hin Hr).
  - unfold graceful_where in *. simpl. destruct (m_where m) eqn:Ew; try done.
    + destruct Hw as (Hab & at_ & [Hat Hc] & ->). split; [done|]. exists at_. split; [|done].
      split; [done|]. simpl. split; [lra|].
      unfold owner_due in Hdue. rewrite Ew in Hdue. apply orb_false_iff in Hdue as [Hdue _].
      apply orb_false_iff in Hdue as [_ Hdue].
      destruct (unsettled_runs m Hh Hdue) as (h & Hin & Hr).
      destruct (Hd at_ Hat h Hin Hr) as [Hst _].
      rewrite Forall_forall in Hh. destruct (Hh h Hin) as ((_ & _ & Hg) & _).
      destruct (Hg _ at_ Hst) as (q & Hq' & _ & Hle).
      destruct (Hwait h Hin Hr) as [_ Hend]. unfold ends_at in Hend. rewrite Hat, Hq' in Hend.
      specialize (Hend q eq_refl). lra.
    + destruct Hw as [Hf _]. unfold owner_due in Hdue. rewrite Ew in Hdue.
      apply orb_false_iff in Hdue as [_ Hdue].
      assert (forallb settled (m_handles m) = true); [|congruence].
      clear -Hf. induction Hf as [|h hs Hh _ IH]; [done|]. simpl. unfold settled at 1. by rewrite Hh.
Qed.

Lemma handle_running m i h :
  graceful_data m -> m_handles m !! i = Some h -> graceful_handle m h.
Proof. intros [Hh _ _ _] Hi. eapply Forall_lookup_1; [exact Hh|done]. Qed.

Lemma wakes_graceful auto rest h m :
  graceful_data m -> graceful_where m -> m_where m = Starting auto rest ->
  last (m_handles m) = Some h -> owner_due m = true ->
  graceful_data (start_wakes auto rest h m) /\ graceful_where (start_wakes auto rest h m).
Proof.
  intros Hm Hw Ew Hl Hdue. unfold graceful_where in Hw. rewrite Ew in Hw.
  destruct Hw as (Hstop & Hab & Hst & Hr). pose proof Hm as [Hh (_ & _ & Hc & _) _ _].
  unfold start_wakes. unfold owner_due in Hdue. rewrite Ew, Hc, Hl in Hdue. simpl in Hdue.
  rewrite Hc. destruct (h_ready h); [by apply start_next_graceful|].
  apply last_Some_elem_of in Hl. rewrite Forall_forall in Hh. destruct (Hh h Hl) as (_ & _ & [Hx|[_ Hx]]).
  - simpl in Hdue. unfold settled in Hdue. by rewrite Hx in Hdue.
  - rewrite Hstop in Hx. by destruct Hx.
Qed.

Lemma ends_graceful m i h o q :
  graceful_data m -> graceful_where m -> m_handles m !! i = Some h -> h_state h = Running ->
  t_run (h_task h) (h_start h) (m_stop m) = Some (o, q) ->
  graceful_data (on_task_done i h (settled_as o) m) /\ graceful_where (on_task_done i h (settled_as o) m).
Proof.
  intros Hm Hw Hi Hr Hrun. destruct (handle_running m i h Hm Hi) as ((_ & Hnone & Hg) & _).
  destruct (m_stop m) as [at_|] eqn:Hat; [|by rewrite Hnone in Hrun].
  pose proof Hm as [_ _ _ Hd].
  destruct (Hd at_ Hat h ltac:(by eapply list_elem_of_lookup_2) Hr) as [Hst _].
  destruct (Hg _ _ Hst) as (q' & Hq' & _). rewrite Hq' in Hrun. injection Hrun as <- <-.
  unfold on_task_done. simpl. split.
  - apply (set_handle_graceful m i h); [done|done|done|done|]. right. by rewrite Hat.
  - apply (set_handle_where m i h); [done|done|by left|done|by left].
Qed.

Lemma manager_step_graceful m m' :
  manager_step auto_start shutdown_timeout tasks false m m' ->
  graceful_data m /\ graceful_where m -> graceful_data m' /\ graceful_where m'.
Proof.
  intros Hstep [Hm Hw]. pose proof Hm as [Hh (Hr & He & Hc & Ho) Hs Hd].
  destruct Hstep as [m E|m E|m auto rest h E Hl Hdue|m e received E Hrc|m e dl E _ Hdue
    |m e dl E Hx|m e p E Hx|m e p E Hf|m Hx|m i h q Hi Hrun Hq _|m i h o q Hi Hrun Hq _
    |m i h s Hi Hx _|m now Hwait].
  - by apply aenter_graceful.
  - by apply start_graceful.
  - by apply wakes_graceful.
  - destruct received; [rewrite Hrc in Hc by done; done|]. by apply aexit_graceful.
  - unfold graceful_where in Hw. rewrite E in Hw. destruct Hw as (Hab & at_ & Hst & ->).
    apply (cancel_pending_graceful e m at_); try done.
    unfold owner_due in Hdue. rewrite E, Hc in Hdue. apply orb_prop in Hdue as [Hdue|Hdue].
    + by eapply settled_finished.
    + apply Qle_bool_iff in Hdue. destruct Hst as [_ Hst]. lra.
  - congruence.
  - congruence.
  - split; [by constructor|]. split; [done|]. by eapply settled_finished.
  - done.
  - split.
    + apply (set_handle_graceful m i h); [done|done|done|done|by left].
    + apply (set_handle_where m i h); [done|done|by right|unfold finished; simpl; congruence|by left].
  - by eapply ends_graceful.
  - destruct (handle_running m i h Hm Hi) as (_ & _ & [?|[? _]]); unfold is_running, finished in *; congruence.
  - by apply waits_graceful.
Qed.

(** What the tasks have still to do: to get ready and to end. *)
Definition work (h : handle) : nat :=
  (if h_ready h then 0 else 1) + (if settled h then 0 else 1).

Lemma work_decreases (hs : list handle) i h h' :
  hs !! i = Some h -> (work h' < work h)%nat ->
  (sum_list_with work (<[i := h']> hs) < sum_list_with work hs)%nat.
Proof.
  revert i. induction hs as [|u hs IH]; intros [|i] Hi Hlt; simpl in *; simplify_eq; [lia|].
  specialize (IH i Hi Hlt). lia.
Qed.

Lemma least (f : handle -> Q) (hs : list handle) h :
  h ∈ hs -> exists u, u ∈ hs /\ forall v, v ∈ hs -> (f u <= f v)%Q.
Proof.
  revert h. induction hs as [|x hs IH]; intros h; [by intros ?%elem_of_nil|]. intros _.
  destruct hs as [|y hs].
  { exists x. split; [by left|]. intros v ->%list_elem_of_singleton. apply Qle_refl. }
  destruct (IH y) as (u & Hu & Hl); [by left|].
  destruct (Qlt_le_dec (f x) (f u)) as [Hlt|Hle].
  - exists x. split; [by left|]. intros v [->|Hv]%elem_of_cons; [apply Qle_refl|].
    specialize (Hl v Hv). lra.
  - exists u. split; [by right|]. intros v [->|Hv]%elem_of_cons; [done|by apply Hl].
Qed.

Abbreviation step := (manager_step auto_start shutdown_timeout tasks false).

Definition leaves (m : Tasks) : Prop := exists m' l, rtc step m m' /\ m_where m' = Left_ true l.

Lemma leaves_step m m' : step m m' -> leaves m' -> leaves m.
Proof. intros H (u & l & Hu & Hl). exists u, l. split; [by eapply rtc_l|done]. Qed.

Lemma closing_leaves m e p :
  graceful_data m -> graceful_where m -> m_where m = Closing e p -> leaves m.
Proof.
  intros Hm Hw E. unfold graceful_where in Hw. rewrite E in Hw. destruct Hw as [Hf _].
  eapply leaves_step.
  - eapply MClosed; [exact E|]. clear -Hf. induction Hf as [|h hs Hh _ IH]; [done|].
    simpl. unfold settled at 1. by rewrite Hh.
  - eexists _, _. split; [done|]. simpl. reflexivity.
Qed.

Lemma cancel_pending_where e m : exists p, m_where (cancel_pending e m) = Closing e p.
Proof. unfold cancel_pending, close_group. simpl. eexists. reflexivity. Qed.

Lemma waits_then_ends m h :
  graceful_data m -> graceful_where m -> owner_due m = false -> h ∈ m_handles m -> is_running h ->
  is_Some (m_stop m) ->
  (forall u, u ∈ m_handles m -> is_running u -> h_ready u = true) ->
  exists m1 i u q, step m m1 /\ m_handles m1 = m_handles m /\ m_where m1 = m_where m /\
    m_handles m1 !! i = Some u /\ is_running u /\
    t_run (h_task u) (h_start u) (m_stop m1) = Some (Return tt, q) /\ (q <= m_clock m1)%Q.
Proof.
  intros Hm Hw Hdue Hin Hr [at_ Hat] Hready.
  set (f := fun h => default 0%Q (ends_at m h)).
  destruct (least f (filter is_running (m_handles m)) h) as (u & Hu & Hl).
  { by apply list_elem_of_filter. }
  apply list_elem_of_filter in Hu as [Hur Hu].
  assert (forall v, v ∈ m_handles m -> is_running v -> exists q,
    t_run (h_task v) (h_start v) (m_stop m) = Some (Return tt, q) /\ (m_clock m <= q)%Q) as Hends.
  { intros v Hv Hvr. destruct Hm as [Hh _ _ Hd]. rewrite Forall_forall in Hh.
    destruct (Hd at_ Hat v Hv Hvr) as [Hst Hq]. destruct (Hh v Hv) as ((_ & _ & Hg) & _).
    destruct (Hg _ _ Hst) as (q & Hrun & _). exists q. rewrite Hat. split; [done|].
    apply Hq. unfold ends_at. by rewrite Hat, Hrun. }
  destruct (Hends u Hu Hur) as (q & Hq & Hcq).
  apply list_elem_of_lookup in Hu as Hi. destruct Hi as [i Hi].
  exists (set_clock q m), i, u, q.
  split; [|split_and!; try done; apply Qle_refl].
  apply MWaits. split; [done|]. split; [done|]. intros v Hv Hvr. split.
  - intros x. unfold ready_at. by rewrite (Hready v Hv Hvr).
  - intros x Hx. specialize (Hl v). unfold f, ends_at at 1 in Hl. rewrite Hq, Hx in Hl. simpl in Hl.
    apply Hl. by apply list_elem_of_filter.
Qed.

Lemma draining_leaves n m e dl :
  (sum_list_with work (m_handles m) <= n)%nat ->
  graceful_data m -> graceful_where m -> m_where m = Draining e dl -> leaves m.
Proof.
  revert m. induction n as [n IH] using lt_wf_ind. intros m Hn Hm Hw E.
  destruct (owner_due m) eqn:Hdue.
  { destruct (cancel_pending_where e m) as [p Hp].
    assert (step m (cancel_pending e m)) as Hst.
    { eapply MDrained; [done|by destruct Hm as [_ (_ & _ & ? & _) _ _]|done]. }
    destruct (manager_step_graceful _ _ Hst) as [Hm' Hw']; [done|].
    eapply leaves_step; [done|]. by eapply closing_leaves. }
  unfold owner_due in Hdue. rewrite E in Hdue. pose proof Hdue as Hdue'.
  apply orb_false_iff in Hdue as [Hdue _]. apply orb_false_iff in Hdue as [_ Hdue].
  pose proof Hm as [Hh _ _ _]. destruct (unsettled_runs m Hh Hdue) as (h & Hin & Hr).
  destruct (decide (Forall (fun u => is_running u -> h_ready u = true) (m_handles m))) as [Hall|Hex].
  - rewrite Forall_forall in Hall. pose proof Hw as Hw'. unfold graceful_where in Hw'. rewrite E in Hw'.
    assert (is_Some (m_stop m)) as Hat by (destruct Hw' as (_ & at_ & [-> _] & _); by eexists).
    assert (owner_due m = false) as Ho by (unfold owner_due; by rewrite E).
    destruct (waits_then_ends m h Hm Hw Ho Hin Hr Hat) as (m1 & i & u & q & Hst & Ehs & Ew & Hi & Hu
      & Hrun & Hq); [done|].
    destruct (manager_step_graceful _ _ Hst) as [Hm1 Hw1]; [done|].
    eapply leaves_step; [exact Hst|]. eapply leaves_step; [by eapply MEnds|].
    destruct (ends_graceful m1 i u (Return tt) q) as [Hm2 Hw2]; try done.
    eapply (IH _); [|done|exact Hm2|exact Hw2|simpl; by rewrite Ew].
    simpl. rewrite Ehs in Hi |- *. eapply Nat.lt_le_trans; [|exact Hn].
    apply (work_decreases _ i u); [done|]. unfold work, settled. simpl. rewrite Hu. lia.
  - apply not_Forall_Exists, Exists_exists in Hex as (u & Hu & Hx); [|apply _].
    assert (is_running u /\ h_ready u = false) as [Hur Hun].
    { destruct (decide (is_running u)) as [|Hne]; [|exfalso; apply Hx; done]. split; [done|].
      destruct (h_ready u) eqn:Eu; [exfalso; apply Hx; done|done]. }
    apply list_elem_of_lookup in Hu as [i Hi].
    destruct (handle_running m i u Hm Hi) as ((Hz & _ & _) & Hc & _).
    assert (step m (set_handles (<[i := mkHandle (h_task u) (h_start u) true (h_state u)]>
      (m_handles m)) m)) as Hst.
    { eapply (MReady _ _ _ _ m i u (h_start u + 0)%Q); [done|done| |lra].
      unfold ready_at. by rewrite Hun, Hz. }
    destruct (manager_step_graceful _ _ Hst) as [Hm1 Hw1]; [done|].
    eapply leaves_step; [exact Hst|]. eapply (IH _); [|done|exact Hm1|exact Hw1|exact E].
    simpl. eapply Nat.lt_le_trans; [|exact Hn]. apply (work_decreases _ i u); [done|].
    unfold work, settled. simpl. rewrite Hun. lia.
Qed.
End Graceful.

(** [IntervalTask] and [CronTask] as tasks of the manager: [ready] is resolved at once. *)
Definition loop_task {A B : Type} (call : nat -> Q -> option Q -> option (outcome exn unit * Q * A * B))
    (fuel : Q -> option Q -> nat) : Task :=
  mkManaged (Some 0%Q)
    (fun start stop => (fun '(r, t, _, _) => (r, t)) <$> call (fuel start stop) start stop).

Lemma loop_task_graceful {A B} (call : nat -> Q -> option Q -> option (outcome exn unit * Q * A * B))
    fuel longest :
  (forall f start, call f start None = None) ->
  (forall start at_, (start <= at_)%Q -> exists t s turns,
     call (fuel start (Some at_)) start (Some at_) = Some (Return tt, t, s, turns) /\
     (at_ <= t <= at_ + longest)%Q) ->
  graceful_task longest (loop_task call fuel).
Proof.
  intros Hnone Hends. split; [done|]. split; simpl.
  - intros start. by rewrite Hnone.
  - intros start at_ Hat. destruct (Hends start at_ Hat) as (t & s & turns & -> & Ht). by exists t.
Qed.

(** Turns for a loop whose shortest sleep is [seconds]; [unstopped] for a loop that nobody
    stops. *)
Definition turns_for (seconds : Q) (unstopped : nat) (start : Q) (stop : option Q) : nat :=
  match stop with Some at_ => loop_fuel seconds start at_ | None => unstopped end.

Lemma guard_returns now' r t : ordinary r -> (guard now' r t).1 = Return tt.
Proof.
  intros Ho. destruct r as [[]|e]; simpl; [done|]. destruct (Ho e eq_refl) as [-> ->].
  by destruct (is_would_block e), (is_not_owned e).
Qed.

(** The tasks of [every] and [cron]: whatever fails in them is an ordinary exception, no turn
    takes longer than [longest], and they sleep between two turns. *)
Inductive scheduled (longest : Q) : Task -> Prop :=
| scheduled_interval W (ps : list (Primitive (W := W))) body dates took seconds tie unstopped s :
    Forall ordinary_primitive ps -> (forall w, ordinary (body w).1) ->
    (forall n w, 0 <= took n w <= longest)%Q -> (0 < seconds)%Q ->
    scheduled longest
      (loop_task (fun f start stop => interval_call ps body dates took seconds tie f start stop s)
         (turns_for seconds unstopped))
| scheduled_cron B (H : ScheduleBackend B) name expr grace utcoffset dates env took tie shortest
    unstopped s :
    (forall n catchup t b,
       ordinary (tick name expr grace utcoffset catchup (dates n).1.1 (env n) t b).1.1) ->
    (forall n b, 0 <= took n b <= longest)%Q -> (0 < shortest)%Q ->
    (forall n, exists q, loop_delay expr utcoffset (dates n).2 = Some (Return q) /\ (shortest <= q)%Q) ->
    scheduled longest
      (loop_task (fun f start stop =>
         cron_call name expr grace utcoffset dates env took tie f start stop s)
         (turns_for shortest unstopped)).

Lemma scheduled_graceful longest t : scheduled longest t -> graceful_task longest t.
Proof.
  intros [W ps body dates took seconds tie unstopped s Hps Hb Ht Hs
    |B H name expr grace utcoffset dates env took tie shortest unstopped s Ho Ht Hs Hd].
  - apply loop_task_graceful.
    + intros f start. by apply (interval_loop_runs_on ps body dates took seconds longest).
    + intros start at_ Hat.
      destruct (interval_loop_ends ps body dates took seconds longest tie Hps Hb Ht Hs start at_ s Hat)
        as (x & s' & turns & E & Hx & _). eauto.
  - assert (forall n (s : TaskState * B),
      let turn := (fun n '(t, b) =>
        let '(now, now', _) := dates n in
        let '(r, t, b') := tick_guarded name expr grace utcoffset (bool_decide (n = 0%nat))
                             now now' (env n) false t b in
        (r, took n b, (t, b'))) in
      (turn n s).1.1 = Return tt /\ (0 <= (turn n s).1.2 <= longest)%Q) as Hturn.
    { intros n [u b]. specialize (Ho n (bool_decide (n = 0%nat)) (reset_started u) b).
      cbv beta iota zeta. unfold tick_guarded. destruct (dates n) as [[now now'] late].
      simpl in Ho. destruct (tick _ _ _ _ _ _ _ _ _) as [[r u1] b1]. simpl in Ho.
      pose proof (guard_returns now' r u1 Ho) as Hg. destruct (guard now' r u1) as [r' u'].
      simpl in Hg. subst r'. split; [done|apply Ht]. }
    assert (forall n (s : TaskState * B), exists q,
      (fun n (_ : TaskState * B) => default (Raise (mk_exn CronError NoInfo))
         (loop_delay expr utcoffset (dates n).2)) n s = Return q /\ (shortest <= q)%Q) as Hdelay.
    { intros n _. destruct (Hd n) as (q & -> & Hq). eauto. }
    apply loop_task_graceful.
    + intros f start. by apply (loop_runs_on _ _ tie longest shortest Hturn Hdelay).
    + intros start at_ Hat.
      destruct (loop_ends _ _ tie longest shortest Hturn Hs Hdelay
        (turns_for shortest unstopped start (Some at_)) 0 start at_ s Hat)
        as (x & s' & turns & E & Hx & _); [by apply loop_fuel_enough|]. by exists x, s', turns.
Qed.

(** C25 A graceful shutdown.  Let every task be one of [every] or [cron] that
    - sleeps for a positive time between two turns: for a cron task, at every turn the
      expression has a next fire, and it is at least some fixed positive delay away;
    - raises in a turn, from its body, its primitives or its schedule backend, nothing
      but ordinary exceptions (no cancellation, no other [BaseException]);
    - takes at most [longest] for a turn, where [longest] is less than [shutdown_timeout];
    and let nobody cancel the task that owns the manager.
    Then, whatever the order in which the tasks, the owner and time go on, the manager cancels
    no task and every task ends by returning; once the block is being left, at most the longest
    turn passes until it is left, it can be left from every state, and when it is, with or
    without an exception of the body, every task has returned. *)
Theorem graceful_shutdown (auto_start : bool) (shutdown_timeout longest : Q) (tasks : list Task)
    (now : Q) (m : Tasks)
    (Htasks : Forall (scheduled longest) tasks)
    (Hlongest : (0 <= longest < shutdown_timeout)%Q)
    (Hrun : rtc (manager_step auto_start shutdown_timeout tasks false) (new_tasks now) m) :
  Forall (fun h => h_state h = Running \/ h_state h = Done (Return tt)) (m_handles m) /\
  match m_where m with
  | Draining _ _ | Closing _ _ =>
      (exists at_, m_stop m = Some at_ /\ (m_clock m <= at_ + longest)%Q) /\
      exists m' l, rtc (manager_step auto_start shutdown_timeout tasks false) m m' /\
        m_where m' = Left_ true l
  | Left_ closed _ => closed = true /\ Forall (fun h => h_state h = Done (Return tt)) (m_handles m)
  | _ => True
  end.
Proof.
  assert (Forall (graceful_task longest) tasks) as Hg
    by (eapply Forall_impl; [exact Htasks|apply scheduled_graceful]).
  assert (graceful_data longest m /\ graceful_where shutdown_timeout longest m) as [Hm Hw].
  { eapply (invariant_rtc _ (fun m => graceful_data longest m /\ graceful_where shutdown_timeout longest m));
      [|exact Hrun|].
    - intros a b. by apply manager_step_graceful.
    - split; [|done]. constructor; simpl; try done. }
  split.
  - destruct Hm as [Hh _ _ _]. eapply Forall_impl; [exact Hh|]. intros h (_ & _ & [?|[? _]]); auto.
  - pose proof Hw as Hw'. unfold graceful_where in Hw'. destruct (m_where m) eqn:E; try done.
    + destruct Hw' as (_ & at_ & [Hat Hc] & _). split; [exists at_; split; [done|apply Hc]|].
      by eapply (draining_leaves auto_start shutdown_timeout longest tasks Hg Hlongest).
    + destruct Hw' as (_ & at_ & [Hat Hc]). split; [exists at_; split; [done|apply Hc]|].
      by eapply closing_leaves.
Qed.

(** One interval task whose body takes two seconds, every ten seconds. *)
Definition two_seconds : Task :=
  loop_task (fun f start stop =>
    interval_call (W := unit) [] (fun w => (Return tt, w))
      (fun _ => (mkDatetime 2025 3 1 0 0 0 0, mkDatetime 2025 3 1 0 0 0 0)) (fun _ _ => 2%Q) 10 (fun _ => true)
      f start stop (new_task, tt)) (turns_for 10 5).

Definition manager_run (auto_start : bool) (tasks : list Task) : Tasks -> Tasks -> Prop :=
  rtc (manager_step auto_start 30 tasks false).

(** [Tasks] with the given tasks, entered, and the first task ready. *)
Definition entered (tasks : list Task) : Tasks := tasks_enter true tasks (new_tasks 0).
Definition set_ready (i : nat) (m : Tasks) : Tasks :=
  set_handles (alter (fun h => mkHandle (h_task h) (h_start h) true (h_state h)) i (m_handles m)) m.
Definition first_ready (tasks : list Task) : Tasks := set_ready 0 (entered tasks).
Definition first_started (t : Task) (rest : list Task) : Tasks :=
  start_wakes true rest (mkHandle t 0 true Running) (first_ready (t :: rest)).

Lemma first_started_run t rest :
  t_ready t = Some 0%Q -> manager_run true (t :: rest) (new_tasks 0) (first_started t rest).
Proof.
  intros Ht. eapply rtc_l; [by apply MEnter|]. eapply rtc_l.
  - apply (MReady _ _ _ _ _ 0 (mkHandle t 0 false Running) (0 + 0)%Q); try done.
    unfold ready_at. simpl. by rewrite Ht.
  - apply rtc_once. by apply (MWakes _ _ _ _ _ true rest (mkHandle t 0 true Running)).
Qed.

(** At 13 seconds, in the middle of the second turn of the task, the body ends. *)
Definition in_second_turn : Tasks :=
  tasks_exit 30 None (set_clock 13 (first_started two_seconds [])).

Lemma graceful_shutdown_witness :
  m_where in_second_turn = Draining None 43 /\
  (exists at_, m_stop in_second_turn = Some at_ /\ (m_clock in_second_turn <= at_ + 2)%Q) /\
  exists m' l, manager_run true [two_seconds] in_second_turn m' /\ m_where m' = Left_ true l.
Proof.
  split; [reflexivity|].
  apply (graceful_shutdown true 30 2 [two_seconds] 0 in_second_turn).
  - constructor; [|done]. apply scheduled_interval; try done; try (intros; lra).
  - lra.
  - etrans; [by apply (first_started_run two_seconds [])|].
    eapply rtc_l; [|apply rtc_once; apply (MBodyEnds _ _ _ _ _ None false); done].
    apply MWaits. split; [by vm_compute|]. split; [done|].
    intros h Hh _. apply list_elem_of_singleton in Hh as ->. split; [done|]. intros q Hq.
    by vm_compute in Hq.
Defined.

(** ** Ways to leave the tasks running

    The task group is only left when [__aexit__] gets as far as the exit stack. *)
Definition early_failure : exn := mk_exn ValueError NoInfo.

(** A task that ends with [o] as soon as it runs, and one that fails a second after the stop. *)
Definition ends_at_once (o : outcome exn unit) : Task :=
  mkManaged None (fun start _ => Some (o, start)).
Definition fails_on_stop : Task :=
  mkManaged (Some 0%Q)
    (fun _ stop => match stop with Some at_ => Some (Raise early_failure, (at_ + 1)%Q) | None => None end).

(** A task that returns before it is ready: [async with] raises on the way in, the stop signal is
    never set and the tasks that were started run on. *)
Lemma unready_task_leaks :
  exists m, manager_run true [two_seconds; ends_at_once (Return tt)] (new_tasks 0) m /\
    m_where m = Left_ false (Leaves (Some runtime_error)) /\ m_stop m = None /\
    (h_state <$> m_handles m) = [Running; Done (Return tt)].
Proof.
  set (m1 := first_started two_seconds [ends_at_once (Return tt)]).
  set (u := mkHandle (ends_at_once (Return tt)) 0 false Running).
  set (m2 := on_task_done 1 u (Done (Return tt)) m1).
  exists (start_wakes true [] (mkHandle (ends_at_once (Return tt)) 0 false (Done (Return tt))) m2).
  split; [|done]. etrans; [by apply (first_started_run two_seconds)|].
  eapply rtc_l; [by apply (MEnds _ _ _ _ m1 1 u (Return tt) 0)|].
  apply rtc_once. by apply MWakes.
Qed.

(** A task that fails before it is ready: the group cancels the owner, so what [start] raises is
    not the error of the task, which is lost with the group. *)
Lemma failing_task_is_hidden :
  exists m, manager_run true [ends_at_once (Raise early_failure)] (new_tasks 0) m /\
    m_where m = Left_ false (Leaves (Some cancellation)) /\ m_errors m = [early_failure].
Proof.
  set (m1 := entered [ends_at_once (Raise early_failure)]).
  set (u := mkHandle (ends_at_once (Raise early_failure)) 0 false Running).
  set (m2 := on_task_done 0 u (Done (Raise early_failure)) m1).
  exists (start_wakes true [] (mkHandle (ends_at_once (Raise early_failure)) 0 false (Done (Raise early_failure))) m2).
  split; [|done]. eapply rtc_l; [by apply MEnter|].
  eapply rtc_l; [by apply (MEnds _ _ _ _ m1 0 u (Raise early_failure) 0)|]. apply rtc_once. by apply MWakes.
Qed.

(** A task that fails while the others drain: the drain is cancelled, and the block is left
    without waiting for the task that is being cancelled. *)
Lemma failure_during_drain_leaks :
  exists m, manager_run true [two_seconds; fails_on_stop] (new_tasks 0) m /\
    m_where m = Left_ false (Leaves (Some cancellation)) /\
    (h_state <$> m_handles m) = [Cancelling; Done (Raise early_failure)] /\ m_errors m = [early_failure].
Proof.
  set (m1 := first_started two_seconds [fails_on_stop]).
  set (m2 := set_ready 1 m1).
  set (u := mkHandle fails_on_stop 0 true Running).
  set (m3 := start_wakes true [] u m2).
  set (m4 := tasks_exit 30 None m3).
  set (m5 := set_clock 1 m4).
  set (m6 := on_task_done 1 u (Done (Raise early_failure)) m5).
  exists (set_where (Left_ false (Leaves (Some cancellation))) (set_cancel false m6)).
  split; [|done]. etrans; [by apply (first_started_run two_seconds)|].
  eapply rtc_l; [by apply (MReady _ _ _ _ m1 1 (mkHandle fails_on_stop 0 false Running) (0 + 0)%Q)|].
  eapply rtc_l; [by apply (MWakes _ _ _ _ m2 true [] u)|].
  eapply rtc_l; [by apply (MBodyEnds _ _ _ _ m3 None false)|].
  eapply rtc_l.
  { apply (MWaits _ _ _ _ m4 1). split; [by vm_compute|]. split; [by vm_compute|].
    intros h [->|[->|[]%elem_of_nil]%elem_of_cons]%elem_of_cons _; (split; [done|]);
      intros q Hq; vm_compute in Hq; injection Hq as <-; by vm_compute. }
  eapply rtc_l; [by apply (MEnds _ _ _ _ m5 1 u (Raise early_failure) (0 + 1)%Q)|].
  apply rtc_once. by apply (MDrainCancelled _ _ _ _ m6 None (0 + 30)%Q).
Qed.

(** A manager that was started once is never started again: entering it a second time raises,
    with the new task group open. *)
Lemma second_entry_raises tasks m :
  m_started m = true ->
  m_where (tasks_enter true tasks m) = Left_ false (Leaves (Some task_add_error)).
Proof. intros H. unfold tasks_enter, start. simpl. by rewrite H. Qed.
