(* ===== verification/AppRegistry.v ===== *)
(** * The registry of an application

    The registration half of [_app.py]: what [Grelmicro(uses=[...])] and [use] accept, the
    index of the components by kind and name, the default components a provider fills in, and
    looking a component up.  Objects are known by number; [heap] says which provider an adapter
    holds and whether it owns it, and numbers the objects that the application builds. *)

From S2P Require Import Prelude Errors Dict.
From stdpp Require Import sorting.

Local Open Scope nat_scope.

(** ** Objects *)

Record heap : Type := mkHeap {
  hp_next : nat;
  hp_provider : gmap nat (nat * bool);
}.

(** What [Grelmicro] looks at in a registered item: whether it is a provider or a component,
    and the attributes [_lock_backend], [_election_backend], [_schedule_backend] and
    [backend]. *)
Inductive shape : Type :=
| ComponentItem (kind name : string) (singleton : bool)
| ProviderItem
| PlainItem.

Record item : Type := mkItem {
  it_id : nat;
  it_shape : shape;
  it_lock_backend : option nat;
  it_election_backend : option nat;
  it_schedule_backend : option nat;
  it_backend : option nat;
}.

#[export] Instance shape_eq_dec : EqDecision shape.
Proof. solve_decision. Defined.
#[export] Instance item_eq_dec : EqDecision item.
Proof. solve_decision. Defined.

(** [_iter_provider_backends] *)
Definition iter_provider_backends (it : item) : list nat :=
  match option_list (it_lock_backend it) ++ option_list (it_election_backend it) ++
        option_list (it_schedule_backend it) with
  | [] => [default (it_id it) (it_backend it)]
  | backends => backends
  end.

(** ** Providers

    A factory of a provider raises [NotImplementedError], builds an adapter that borrows the
    provider, or returns the adapter it keeps. *)
Inductive factory : Type := Unsupported | Builds | Keeps (adapter : nat).

Record Provider : Type := mkProvider {
  pr_id : nat;
  pr_lock : factory;
  pr_leaderelection : factory;
  pr_schedule : factory;
  pr_cache : factory;
  pr_ratelimiter : factory;
  pr_circuitbreaker : factory;
}.

Definition provider_item (p : nat) : item := mkItem p ProviderItem None None None None.

(** [_provider_backend_or_none] *)
Definition provider_backend_or_none (p : nat) (f : factory) (h : heap) : option nat * heap :=
  match f with
  | Unsupported => (None, h)
  | Builds => (Some (hp_next h), mkHeap (S (hp_next h)) (<[hp_next h := (p, false)]> (hp_provider h)))
  | Keeps adapter => (Some adapter, h)
  end.

(** A component built by the application. *)
Definition new_component (kind : string) (lock election schedule backend : option nat) (h : heap) :
    item * heap :=
  (mkItem (hp_next h) (ComponentItem kind "default" false) lock election schedule backend,
   mkHeap (S (hp_next h)) (hp_provider h)).

(** [Cache(backend)], [RateLimiterRegistry(backend)] and [CircuitBreakerRegistry(backend)] *)
Definition backend_component (kind : string) (p : nat) (f : factory) (h : heap) : list item * heap :=
  let '(backend, h) := provider_backend_or_none p f h in
  match backend with
  | Some b => let '(c, h) := new_component kind None None None (Some b) h in ([c], h)
  | None => ([], h)
  end.

(** [_default_components_for_provider] *)
Definition default_components_for_provider (p : Provider) (h : heap) : list item * heap :=
  let '(lock, h) := provider_backend_or_none (pr_id p) (pr_lock p) h in
  let '(election, h) := provider_backend_or_none (pr_id p) (pr_leaderelection p) h in
  let '(schedule, h) := provider_backend_or_none (pr_id p) (pr_schedule p) h in
  let '(coordination, h) :=
    match lock, election, schedule with
    | None, None, None => ([], h)
    | _, _, _ => let '(c, h) := new_component "coordination" lock election schedule None h in ([c], h)
    end in
  let '(cache, h) := backend_component "cache" (pr_id p) (pr_cache p) h in
  let '(ratelimiter, h) := backend_component "ratelimiter" (pr_id p) (pr_ratelimiter p) h in
  let '(circuitbreaker, h) := backend_component "circuitbreaker" (pr_id p) (pr_circuitbreaker p) h in
  (coordination ++ cache ++ ratelimiter ++ circuitbreaker, h).

(** ** The application *)

Record Grelmicro : Type := mkApp {
  ap_items : list item;
  ap_by_key : list ((string * string) * item);
  ap_by_kind : gmap string item;
  ap_pending : list Provider;
  ap_deferring : bool;
}.

Definition new_app (deferring : bool) : Grelmicro := mkApp [] [] ∅ [] deferring.

Definition add_item (it : item) (a : Grelmicro) : Grelmicro :=
  mkApp (ap_items a ++ [it]) (ap_by_key a) (ap_by_kind a) (ap_pending a) (ap_deferring a).

Definition already_registered : exn := mk_exn ComponentAlreadyRegisteredError NoInfo.

(** The kind of what is indexed. *)
Definition item_kind (it : item) : option string :=
  match it_shape it with ComponentItem kind _ _ => Some kind | _ => None end.

(** [_register_component], for the item [c] of kind [kind] *)
Definition register_component (c : item) (kind name : string) (singleton : bool) (a : Grelmicro) :
    outcome exn unit * Grelmicro :=
  match dict_get (kind, name) (ap_by_key a) with
  | Some existing =>
      (if bool_decide (it_id existing = it_id c) then Return tt else Raise already_registered, a)
  | None =>
      if singleton && existsb (fun other => bool_decide (item_kind other = Some kind)) (ap_by_key a).*2
      then (Raise already_registered, a)
      else
        (Return tt,
         mkApp (ap_items a ++ [c]) (dict_set (kind, name) c (ap_by_key a))
           (if bool_decide (name = "default") then <[kind := c]> (ap_by_kind a) else ap_by_kind a)
           (ap_pending a) (ap_deferring a))
  end.

Definition register_item (c : item) (a : Grelmicro) : outcome exn unit * Grelmicro :=
  match it_shape c with
  | ComponentItem kind name singleton => register_component c kind name singleton a
  | _ => (Return tt, add_item c a)
  end.

(** The loop of [_register_one_provider] over the components. *)
Fixpoint register_unclaimed (claimed : list string) (cs : list item) (a : Grelmicro) :
    outcome exn unit * Grelmicro :=
  match cs with
  | [] => (Return tt, a)
  | c :: cs =>
      match item_kind c with
      | Some kind =>
          if bool_decide (kind ∈ claimed) then register_unclaimed claimed cs a
          else match register_item c a with
               | (Return _, a) => register_unclaimed claimed cs a
               | r => r
               end
      | None => register_unclaimed claimed cs a
      end
  end.

(** [_register_one_provider] *)
Definition register_one_provider (p : Provider) (s : Grelmicro * heap) :
    outcome exn unit * (Grelmicro * heap) :=
  let '(a, h) := s in
  let claimed := omap item_kind (ap_by_key a).*2 in
  let '(cs, h) := default_components_for_provider p h in
  let '(r, a) := register_unclaimed claimed cs a in
  (r, (a, h)).

Definition ambiguous_provider : exn := mk_exn AmbiguousProviderError NoInfo.

(** [_register_provider_defaults] *)
Definition register_provider_defaults (s : Grelmicro * heap) : outcome exn unit * (Grelmicro * heap) :=
  let '(a, h) := s in
  let pending := ap_pending a in
  let a := mkApp (ap_items a) (ap_by_key a) (ap_by_kind a) [] (ap_deferring a) in
  match pending with
  | [] => (Return tt, (a, h))
  | [p] => register_one_provider p (a, h)
  | _ =>
      (match ap_by_key a with [] => Raise ambiguous_provider | _ => Return tt end, (a, h))
  end.

(** [_use_provider] *)
Definition use_provider (p : Provider) (s : Grelmicro * heap) : outcome exn unit * (Grelmicro * heap) :=
  let '(a, h) := s in
  let a := add_item (provider_item (pr_id p)) a in
  if ap_deferring a
  then (Return tt, (mkApp (ap_items a) (ap_by_key a) (ap_by_kind a) (ap_pending a ++ [p]) true, h))
  else register_one_provider p (a, h).

(** ** What can be used *)

Inductive protocol : Type :=
| CacheBackendProtocol | LeaderElectionBackendProtocol | LockBackendProtocol
| CircuitBreakerBackendProtocol | RateLimiterBackendProtocol.

#[export] Instance protocol_eq_dec : EqDecision protocol.
Proof. solve_decision. Defined.

(** An instance: a provider, something with a kind and a name, or any other context manager with
    the backend protocols it implements. *)
Inductive instance : Type :=
| AProvider (p : Provider)
| AComponent (c : item)
| AnObject (x : item) (protocols : list protocol).

(** A bare class gives an instance, or [None] when it needs arguments. *)
Inductive usable : Type :=
| UseNone
| UseClass (made : option instance)
| UseInstance (i : instance).

(** [instantiate_if_class] *)
Definition instantiate_if_class (u : usable) : outcome exn instance :=
  match u with
  | UseNone => Raise (mk_exn TypeError NoInfo)
  | UseClass (Some i) | UseInstance i => Return i
  | UseClass None => Raise (mk_exn TypeError NoInfo)
  end.

(** [_maybe_wrap_first_party_backend] *)
Definition maybe_wrap_first_party_backend (x : item) (protocols : list protocol) (h : heap) :
    option (item * heap) :=
  let has p := bool_decide (p ∈ protocols) in
  let id := Some (it_id x) in
  if has CacheBackendProtocol then Some (new_component "cache" None None None id h)
  else if has LeaderElectionBackendProtocol
  then Some (new_component "coordination" None id None None h)
  else if has LockBackendProtocol then Some (new_component "coordination" id None None None h)
  else if has CircuitBreakerBackendProtocol
  then Some (new_component "circuitbreaker" None None None id h)
  else if has RateLimiterBackendProtocol then Some (new_component "ratelimiter" None None None id h)
  else None.

(** [use] *)
Definition use (u : usable) (s : Grelmicro * heap) : outcome exn unit * (Grelmicro * heap) :=
  match instantiate_if_class u with
  | Raise e => (Raise e, s)
  | Return (AProvider p) => use_provider p s
  | Return (AComponent c) => let '(r, a) := register_item c s.1 in (r, (a, s.2))
  | Return (AnObject x protocols) =>
      match maybe_wrap_first_party_backend x protocols s.2 with
      | Some (c, h) => let '(r, a) := register_item c s.1 in (r, (a, h))
      | None => (Return tt, (add_item x s.1, s.2))
      end
  end.

(** The loop of [__init__] over [uses]: a [None] is skipped. *)
Fixpoint use_all (us : list usable) (s : Grelmicro * heap) : outcome exn unit * (Grelmicro * heap) :=
  match us with
  | [] => (Return tt, s)
  | UseNone :: us => use_all us s
  | u :: us => match use u s with (Return _, s) => use_all us s | r => r end
  end.

(** [__init__] *)
Definition grelmicro_init (uses : option (list usable)) (h : heap) :
    outcome exn unit * (Grelmicro * heap) :=
  match uses with
  | None => (Return tt, (new_app false, h))
  | Some us =>
      let '(r, (a, h)) := use_all us (new_app true, h) in
      let a := mkApp (ap_items a) (ap_by_key a) (ap_by_kind a) (ap_pending a) false in
      match r with
      | Raise e => (Raise e, (a, h))
      | Return _ => register_provider_defaults (a, h)
      end
  end.

(** ** Looking up *)

(** [get], under the overrides of the active bulkhead. *)
Definition app_get (kind name : string) (overrides : option (gmap (string * string) item))
    (a : Grelmicro) : outcome exn item :=
  match overrides ≫= (fun o => o !! (kind, name)) with
  | Some c => Return c
  | None =>
      match dict_get (kind, name) (ap_by_key a) with
      | Some c => Return c
      | None => Raise (mk_exn ComponentNotRegisteredError NoInfo)
      end
  end.

(** [_resolve_kind], and so the typed properties and [__getattr__]; an [AttributeError] is
    [None]. *)
Definition resolve_kind (kind : string) (a : Grelmicro) : option item :=
  match ap_by_kind a !! kind with
  | Some c => Some c
  | None =>
      match List.filter (fun e => bool_decide (e.1.1 = kind)) (ap_by_key a) with
      | [e] => Some e.2
      | _ => None
      end
  end.

(** [components] and [providers] *)
Definition app_components (a : Grelmicro) : list item := (ap_by_key a).*2.

Definition is_provider (it : item) : bool :=
  match it_shape it with ProviderItem => true | _ => false end.

Definition app_providers (a : Grelmicro) : list nat :=
  rev (remove_dups (rev (it_id <$> List.filter is_provider (ap_items a)))).

(** [_ambient_component_labels], without the sorting and the text. *)
Definition AMBIENT_KINDS : list string := ["coordination"; "cache"; "ratelimiter"; "circuitbreaker"].

Definition ambient_components (a : Grelmicro) : list (string * string) :=
  (List.filter (fun e => bool_decide (e.1.1 ∈ AMBIENT_KINDS)) (ap_by_key a)).*1.

(** ** The index is consistent *)

Record registry_wf (a : Grelmicro) : Prop := {
  rw_keys : dict_wf (ap_by_key a);
  rw_shape : forall k n c, dict_get (k, n) (ap_by_key a) = Some c ->
    exists singleton, it_shape c = ComponentItem k n singleton;
  rw_default : forall k, ap_by_kind a !! k = dict_get (k, "default") (ap_by_key a);
  rw_items : forall key c, dict_get key (ap_by_key a) = Some c -> c ∈ ap_items a;
}.

Lemma new_app_wf deferring : registry_wf (new_app deferring).
Proof. by constructor; simpl; [apply dict_wf_nil|..]. Qed.

Lemma add_item_wf it a : registry_wf a -> registry_wf (add_item it a).
Proof.
  intros [H1 H2 H3 H4]. constructor; simpl; [done|done|done|].
  intros key c Hc. apply elem_of_app. left. by eapply H4.
Qed.

Lemma register_wf c a : registry_wf a -> registry_wf (register_item c a).2.
Proof.
  intros Ha. pose proof Ha as [H1 H2 H3 H4]. unfold register_item. destruct (it_shape c) as [kind name s| |] eqn:Es;
    [|by apply add_item_wf..].
  unfold register_component. destruct (dict_get _ _) as [existing|] eqn:Eg; [done|].
  destruct (_ && _); [done|]. constructor; simpl.
  - by apply dict_set_wf.
  - intros k n x. rewrite dict_get_set. case_decide as E; [|apply H2].
    injection E as <- <-. intros [= <-]. by exists s.
  - intros k. rewrite dict_get_set. case_bool_decide as Hn.
    + subst name. destruct (decide (k = kind)) as [->|Hne].
      * by rewrite lookup_insert_eq, decide_True.
      * rewrite lookup_insert_ne by congruence. rewrite decide_False by congruence. apply H3.
    + rewrite decide_False by congruence. apply H3.
  - intros key x. rewrite dict_get_set, elem_of_app. case_decide.
    + intros [= <-]. right. by left.
    + intros Hx. left. by eapply H4.
Qed.

Lemma register_unclaimed_wf claimed cs a :
  registry_wf a -> registry_wf (register_unclaimed claimed cs a).2.
Proof.
  revert a. induction cs as [|c cs IH]; intros a Ha; simpl; [done|].
  destruct (item_kind c); [|by apply IH]. case_bool_decide; [by apply IH|].
  pose proof (register_wf c a Ha) as Hr. destruct (register_item c a) as [[]]; [by apply IH|done].
Qed.

Lemma use_wf u s : registry_wf s.1 -> registry_wf (use u s).2.1.
Proof.
  destruct s as [a h]. intros Ha. unfold use. destruct (instantiate_if_class u) as [[p|c|x ps]|e]; simpl; [| | |done].
  - unfold use_provider. destruct (ap_deferring _).
    + destruct (add_item_wf (provider_item (pr_id p)) a Ha). by constructor.
    + unfold register_one_provider. destruct (default_components_for_provider p h) as [cs h'].
      pose proof (register_unclaimed_wf (omap item_kind (ap_by_key (add_item (provider_item (pr_id p)) a)).*2)
        cs _ (add_item_wf (provider_item (pr_id p)) a Ha)) as Hr.
      by destruct (register_unclaimed _ _ _).
  - pose proof (register_wf c a Ha) as Hr. by destruct (register_item c a).
  - destruct (maybe_wrap_first_party_backend x ps h) as [[c h']|]; simpl.
    + pose proof (register_wf c a Ha) as Hr. by destruct (register_item c a).
    + by apply add_item_wf.
Qed.

(** ** Explicit wins, the provider fills the rest *)

Lemma register_get c kind name singleton a key :
  it_shape c = ComponentItem kind name singleton ->
  dict_get (kind, name) (ap_by_key a) = None ->
  (singleton = false) ->
  (register_item c a).1 = Return tt /\
  dict_get key (ap_by_key (register_item c a).2) =
    if decide (key = (kind, name)) then Some c else dict_get key (ap_by_key a).
Proof.
  intros Es Eg ->. unfold register_item, register_component. rewrite Es, Eg. simpl. split; [done|].
  rewrite dict_get_set. case_decide as H1; case_decide as H2; congruence.
Qed.

(** Components of different kinds, named by default. *)
Definition default_components (cs : list item) : Prop :=
  NoDup (omap item_kind cs) /\
  forall c, c ∈ cs -> exists kind, it_shape c = ComponentItem kind "default" false.

Lemma register_unclaimed_get claimed cs a :
  default_components cs ->
  (forall c kind, c ∈ cs -> item_kind c = Some kind -> (kind ∉ claimed) ->
     dict_get (kind, "default") (ap_by_key a) = None) ->
  (register_unclaimed claimed cs a).1 = Return tt /\
  forall key, dict_get key (ap_by_key (register_unclaimed claimed cs a).2) =
    match List.find (fun c => bool_decide (item_kind c = Some key.1 /\ key.2 = "default" /\
                                           (key.1 ∉ claimed))) cs with
    | Some c => Some c
    | None => dict_get key (ap_by_key a)
    end.
Proof.
  revert a. induction cs as [|c cs IH]; intros a [Hnd Hall] Hfree; [done|]. simpl.
  destruct (Hall c ltac:(by left)) as [kind Ek].
  assert (item_kind c = Some kind) as Eik by (unfold item_kind; by rewrite Ek).
  simpl in Hnd. rewrite Eik in *. apply NoDup_cons in Hnd as [Hk Hnd].
  assert (default_components cs) as Hcs by (split; [done|]; intros x Hx; apply Hall; by right).
  case_bool_decide as Hcl.
  - destruct (IH a Hcs) as [Hr Hg]; [intros x k Hx; apply Hfree; by right|]. split; [done|].
    intros key. rewrite Hg, bool_decide_eq_false_2; [done|]. by intros ([= <-] & _ & Hn).
  - assert (dict_get (kind, "default") (ap_by_key a) = None) as Hn by (apply (Hfree c); [by left|done|done]).
    pose proof (fun key => register_get c kind "default" false a key Ek Hn eq_refl) as Hreg.
    destruct (register_item c a) as [r a'] eqn:Er. destruct (Hreg (kind, "default")) as [Hr' _]. simpl in Hr'. subst r.
    destruct (IH a' Hcs) as [Hr Hg].
    { intros x k Hx Hik Hkc. destruct (Hreg (k, "default")) as [_ Hx']. simpl in Hx'. rewrite Hx'.
      rewrite decide_False; [apply (Hfree x); [by right|done|done]|].
      intros [= ->]. apply Hk. apply list_elem_of_omap. eauto. }
    split; [done|]. intros key. rewrite Hg. destruct (Hreg key) as [_ Hx]. simpl in Hx. rewrite Hx.
    destruct key as [k n]. simpl. case_bool_decide as Hb.
    + destruct Hb as ([= <-] & -> & _). rewrite decide_True by done.
      destruct (List.find _ cs) as [x|] eqn:Ef; [|done]. exfalso. apply List.find_some in Ef as [Hin Hf].
      apply bool_decide_eq_true in Hf as [Hf _]. apply Hk, list_elem_of_omap. exists x.
      split; [by apply list_elem_of_In|done].
    + destruct (List.find _ cs) as [x|] eqn:Ef; [done|]. rewrite decide_False; [done|].
      intros [= -> ->]. by apply Hb.
Qed.

Lemma backend_component_shape kind p f h :
  let cs := (backend_component kind p f h).1 in
  cs = [] \/ exists c, cs = [c] /\ it_shape c = ComponentItem kind "default" false.
Proof.
  unfold backend_component, new_component. destruct f; simpl; [by left|right; eauto..].
Qed.

Lemma provider_default_components p h : default_components (default_components_for_provider p h).1.
Proof.
  unfold default_components_for_provider.
  destruct (provider_backend_or_none _ (pr_lock p) h) as [lock h1].
  destruct (provider_backend_or_none _ (pr_leaderelection p) h1) as [election h2].
  destruct (provider_backend_or_none _ (pr_schedule p) h2) as [schedule h3].
  set (co := match lock, election, schedule with None, None, None => _ | _, _, _ => _ end).
  assert (co.1 = [] \/ exists c, co.1 = [c] /\ it_shape c = ComponentItem "coordination" "default" false) as H1.
  { unfold co, new_component. destruct lock, election, schedule; simpl; eauto. }
  destruct co as [coordination h4].
  pose proof (backend_component_shape "cache" (pr_id p) (pr_cache p) h4) as H2.
  destruct (backend_component "cache" _ _ _) as [cache h5].
  pose proof (backend_component_shape "ratelimiter" (pr_id p) (pr_ratelimiter p) h5) as H3.
  destruct (backend_component "ratelimiter" _ _ _) as [ratelimiter h6].
  pose proof (backend_component_shape "circuitbreaker" (pr_id p) (pr_circuitbreaker p) h6) as H4.
  destruct (backend_component "circuitbreaker" _ _ _) as [circuitbreaker h7]. simpl in *.
  destruct H1 as [->|(c1 & -> & E1)], H2 as [->|(c2 & -> & E2)], H3 as [->|(c3 & -> & E3)],
    H4 as [->|(c4 & -> & E4)]; (split; [cbn; unfold item_kind; rewrite ?E1, ?E2, ?E3, ?E4; compute_done|]);
    intros c Hc; simpl in Hc; rewrite ?elem_of_cons, ?elem_of_nil in Hc; destruct_or?; subst; eauto; done.
Qed.

Lemma kind_unique cs x c kind :
  NoDup (omap item_kind cs) -> x ∈ cs -> c ∈ cs ->
  item_kind x = Some kind -> item_kind c = Some kind -> x = c.
Proof.
  induction cs as [|y cs IH]; intros Hnd Hx Hc Hkx Hkc; [by apply elem_of_nil in Hx|].
  assert (forall z, z ∈ cs -> item_kind z = Some kind -> kind ∈ omap item_kind cs) as Hin.
  { intros z Hz Hk. apply list_elem_of_omap. eauto. }
  simpl in Hnd. apply elem_of_cons in Hx as [->|Hx], Hc as [->|Hc]; [done| | |].
  - rewrite Hkx in Hnd. apply NoDup_cons in Hnd as [Hn _]. destruct Hn. by eapply Hin.
  - rewrite Hkc in Hnd. apply NoDup_cons in Hnd as [Hn _]. destruct Hn. by eapply Hin.
  - apply IH; try done. destruct (item_kind y); [by apply NoDup_cons in Hnd as [_ ?]|done].
Qed.

(** A provider registers the default component of every kind it serves that nothing claims, and
    changes nothing that was registered. *)
Lemma provider_fills_the_rest (p : Provider) (a : Grelmicro) (h : heap) (Hwf : registry_wf a) :
  let '(r, (a', _)) := register_one_provider p (a, h) in
  r = Return tt /\
  (forall key c, dict_get key (ap_by_key a) = Some c -> dict_get key (ap_by_key a') = Some c) /\
  forall c kind, c ∈ (default_components_for_provider p h).1 -> item_kind c = Some kind ->
    if bool_decide (kind ∈ omap item_kind (ap_by_key a).*2)
    then forall n, dict_get (kind, n) (ap_by_key a') = dict_get (kind, n) (ap_by_key a)
    else dict_get (kind, "default") (ap_by_key a') = Some c.
Proof.
  unfold register_one_provider. pose proof (provider_default_components p h) as Hd.
  destruct (default_components_for_provider p h) as [cs h']. simpl in Hd.
  set (claimed := omap item_kind (ap_by_key a).*2).
  assert (forall k n c, dict_get (k, n) (ap_by_key a) = Some c -> k ∈ claimed) as Hclaimed.
  { intros k n c Hc. unfold claimed. apply list_elem_of_omap. exists c.
    split; [|destruct (rw_shape _ Hwf _ _ _ Hc) as [s Hs]; unfold item_kind; by rewrite Hs].
    apply dict_get_in in Hc. apply list_elem_of_fmap. by exists ((k, n), c). }
  destruct (register_unclaimed_get claimed cs a Hd) as [Hr Hg].
  { intros c kind _ _ Hn. destruct (dict_get (kind, "default") (ap_by_key a)) eqn:E; [|done].
    exfalso. by eapply Hn, Hclaimed. }
  destruct (register_unclaimed claimed cs a) as [r a']. simpl in *. subst r. split; [done|]. split.
  - intros [k n] c Hc. rewrite Hg. destruct (List.find _ cs) as [x|] eqn:Ef; [|done].
    exfalso. apply List.find_some in Ef as [_ Hf]. apply bool_decide_eq_true in Hf as (_ & _ & Hn).
    simpl in Hn. by eapply Hn, Hclaimed.
  - intros c kind Hc Hk. case_bool_decide as Hcl.
    + intros n. rewrite Hg. destruct (List.find _ cs) as [x|] eqn:Ef; [|done].
      exfalso. apply List.find_some in Ef as [_ Hf]. apply bool_decide_eq_true in Hf as (_ & _ & Hn). done.
    + rewrite Hg. destruct (List.find _ cs) as [x|] eqn:Ef.
      * apply List.find_some in Ef as [Hin Hf]. apply bool_decide_eq_true in Hf as (Hxk & _). simpl in Hxk.
        f_equal. destruct Hd as [Hnd _]. apply list_elem_of_In in Hin. by eapply kind_unique.
      * exfalso. apply list_elem_of_In in Hc. pose proof (List.find_none _ _ Ef c Hc) as Hf.
        apply bool_decide_eq_false in Hf. apply Hf. simpl. done.
Qed.
