(* ===== verification/AppProviders.v ===== *)
(** * Providers in the lifecycle of an application

    The part of [_app.py] that prepares the items of an application before they are opened:
    [_discover_shared_providers], [_order_providers_before_dependents] and
    [_resolve_provider_sharing]; and opening and closing the items with the providers their
    backends use, as the adapters, [Coordination] and the registries do it. *)

From S2P Require Import Prelude Errors AppRegistry.

Local Open Scope nat_scope.

(** [_provider] and [_owns_provider] of an object. *)
Abbreviation bindings := (gmap nat (nat * bool)).

(** ** Preparing the items *)

(** [_discover_shared_providers] on the backends of one item: the providers to adopt. *)
Fixpoint discover_targets (b : bindings) (known : list nat) (ts : list nat) : list nat :=
  match ts with
  | [] => []
  | t :: ts =>
      match b !! t with
      | Some (p, false) =>
          if bool_decide (p ∈ known) then discover_targets b known ts
          else p :: discover_targets b (p :: known) ts
      | _ => discover_targets b known ts
      end
  end.

Fixpoint discover_items (b : bindings) (known : list nat) (items : list item) : list item :=
  match items with
  | [] => []
  | it :: items =>
      let found := discover_targets b known (iter_provider_backends it) in
      (provider_item <$> found) ++ it :: discover_items b (rev found ++ known) items
  end.

(** [_discover_shared_providers] *)
Definition discover_shared_providers (b : bindings) (items : list item) : list item :=
  discover_items b (it_id <$> items) items.

(** [list.index], [list.pop] and [list.insert] *)
Fixpoint index_of (p : nat) (items : list item) : option nat :=
  match items with
  | [] => None
  | it :: items => if bool_decide (it_id it = p) then Some 0 else S <$> index_of p items
  end.

(** [_move_provider_ahead] *)
Definition move_provider_ahead (strict : bool) (p index : nat) (items : list item) :
    outcome exn (list item) :=
  match index_of p items with
  | None => Raise (mk_exn ValueError NoInfo)
  | Some position =>
      if position <=? index then Return items
      else if strict then Raise (mk_exn LifecycleOrderError NoInfo)
      else Return (take index items ++ option_list (items !! position) ++
                   drop index (delete position items))
  end.

(** The inner loop of [_order_providers_before_dependents] *)
Fixpoint order_targets (b : bindings) (strict : bool) (index : nat) (ts : list nat)
    (items : list item) : outcome exn (list item) :=
  match ts with
  | [] => Return items
  | t :: ts =>
      match b !! t with
      | Some (p, false) =>
          match move_provider_ahead strict p index items with
          | Return items => order_targets b strict index ts items
          | Raise e => Raise e
          end
      | _ => order_targets b strict index ts items
      end
  end.

(** The loop of [_order_providers_before_dependents] from [index] on; it reads the list it
    changes, whose length stays the same. *)
Fixpoint order_loop (b : bindings) (strict : bool) (fuel index : nat) (items : list item) :
    outcome exn (list item) :=
  match fuel with
  | O => Return items
  | S fuel =>
      match items !! index with
      | None => Return items
      | Some it =>
          match order_targets b strict index (iter_provider_backends it) items with
          | Return items => order_loop b strict fuel (S index) items
          | Raise e => Raise e
          end
      end
  end.

Definition order_providers_before_dependents (b : bindings) (strict : bool) (items : list item) :
    outcome exn (list item) :=
  order_loop b strict (length items) 0 items.

Section Sharing.
(** The class of a provider and its [env_prefix]. *)
Context (provider_key : nat -> string * string).

(** [_resolve_provider_sharing] over the backends in order; [cache] maps a key to the first
    provider that was owned under it. *)
Fixpoint share_targets (cache : gmap (string * string) nat) (ts : list nat) (b : bindings) : bindings :=
  match ts with
  | [] => b
  | t :: ts =>
      match b !! t with
      | Some (p, true) =>
          match cache !! provider_key p with
          | None => share_targets (<[provider_key p := p]> cache) ts b
          | Some shared =>
              share_targets cache ts (if bool_decide (shared = p) then b else <[t := (shared, false)]> b)
          end
      | _ => share_targets cache ts b
      end
  end.

Definition targets_of (items : list item) : list nat := items ≫= iter_provider_backends.

Definition resolve_provider_sharing (items : list item) (b : bindings) : bindings :=
  share_targets ∅ (targets_of items) b.

(** The first half of [__aenter__] *)
Definition prepare (strict : bool) (items : list item) (b : bindings) :
    outcome exn (list item * bindings) :=
  let items := discover_shared_providers b items in
  match order_providers_before_dependents b strict items with
  | Raise e => Raise e
  | Return items => Return (items, resolve_provider_sharing items b)
  end.
End Sharing.

(** ** Opening and closing *)

(** [__aenter__] of an adapter, given the providers that are open: it opens the one it owns, and
    uses the one it borrows, which fails when that is not open. *)
Definition open_backend (b : bindings) (t : nat) (opened : gset nat) : option (gset nat) :=
  match b !! t with
  | Some (p, true) => Some ({[p]} ∪ opened)
  | Some (p, false) => if bool_decide (p ∈ opened) then Some opened else None
  | None => Some opened
  end.

(** [__aexit__] of an adapter closes the provider it owns. *)
Definition close_backend (b : bindings) (t : nat) (opened : gset nat) : gset nat :=
  match b !! t with
  | Some (p, true) => opened ∖ {[p]}
  | _ => opened
  end.

(** [__aenter__] of an item: a provider opens itself, a component its backends in order. *)
Definition open_app_item (b : bindings) (it : item) (opened : gset nat) : option (gset nat) :=
  if is_provider it then Some ({[it_id it]} ∪ opened)
  else foldl (fun o t => o ≫= open_backend b t) (Some opened) (iter_provider_backends it).

(** [__aexit__] of an item; [Coordination] closes its backends in the order it opened them. *)
Definition close_item (b : bindings) (it : item) (opened : gset nat) : gset nat :=
  if is_provider it then opened ∖ {[it_id it]}
  else foldl (fun o t => close_backend b t o) opened (iter_provider_backends it).

(** Opening the items in order, and closing them in reverse. *)
Definition open_items (b : bindings) (items : list item) (opened : gset nat) : option (gset nat) :=
  foldl (fun o it => o ≫= open_app_item b it) (Some opened) items.

Definition close_items (b : bindings) (items : list item) (opened : gset nat) : gset nat :=
  foldr (close_item b) opened items.

(** ** Discovery *)

(** What is assumed of the items at the first entry: every object is listed once; the objects
    that act as providers are providers, and hold no provider themselves; a provider that an
    adapter built for itself is known to that adapter alone. *)
Record wf_items (b : bindings) (items : list item) : Prop := {
  wf_ids : NoDup (it_id <$> items);
  wf_targets : NoDup (targets_of items);
  wf_providers : forall it, it ∈ items -> is_provider it = true ->
    iter_provider_backends it = [it_id it] /\ b !! it_id it = None;
  wf_borrowed : forall t p, b !! t = Some (p, false) ->
    b !! p = None /\
    forall it, it ∈ items -> it_id it = p \/ p ∈ iter_provider_backends it ->
      it_id it = p /\ is_provider it = true;
  wf_owned : forall t p, b !! t = Some (p, true) ->
    (p ∉ (it_id <$> items)) /\ forall t' o, b !! t' = Some (p, o) -> t' = t;
}.

Definition borrows (b : bindings) (it : item) (p : nat) : Prop :=
  exists t, t ∈ iter_provider_backends it /\ b !! t = Some (p, false).

Lemma discover_targets_spec b known ts p :
  (p ∈ discover_targets b known ts) <->
  (p ∉ known) /\ exists t, t ∈ ts /\ b !! t = Some (p, false).
Proof.
  revert known. induction ts as [|t ts IH]; intros known; simpl.
  { split; [by intros ?%elem_of_nil|]. by intros (_ & t & ?%elem_of_nil & _). }
  assert ((forall q, b !! t <> Some (q, false)) ->
    (p ∈ discover_targets b known ts) <->
    (p ∉ known) /\ exists u, u ∈ t :: ts /\ b !! u = Some (p, false)) as Hskip.
  { intros Ht. rewrite IH. split; intros (Hk & u & Hu & Hb); (split; [done|]); exists u.
    - split; [by right|done].
    - apply elem_of_cons in Hu as [->|Hu]; [|done]. by apply Ht in Hb. }
  destruct (b !! t) as [[q [|]]|] eqn:E; [by apply Hskip| |by apply Hskip].
  case_bool_decide as Hq.
  - rewrite IH. split; intros (Hk & u & Hu & Hb); (split; [done|]); exists u.
    + split; [by right|done].
    + apply elem_of_cons in Hu as [->|Hu]; [|done]. rewrite E in Hb. by simplify_eq.
  - rewrite elem_of_cons, IH, not_elem_of_cons. split.
    + intros [->|((Hne & Hk) & u & Hu & Hb)].
      * split; [done|]. exists t. split; [by left|done].
      * split; [done|]. exists u. split; [by right|done].
    + intros (Hk & u & Hu & Hb). destruct (decide (p = q)) as [->|Hne]; [by left|].
      right. split; [done|]. exists u. split; [|done].
      apply elem_of_cons in Hu as [->|Hu]; [|done]. rewrite E in Hb. by simplify_eq.
Qed.

Lemma discover_targets_nodup b known ts : NoDup (discover_targets b known ts).
Proof.
  revert known. induction ts as [|t ts IH]; intros known; simpl; [constructor|].
  destruct (b !! t) as [[q [|]]|]; [done| |done]. case_bool_decide; [done|].
  constructor; [|done]. rewrite discover_targets_spec. intros [Hn _]. apply Hn. by left.
Qed.

(** The items of a list and the providers adopted for them. *)
Lemma discover_items_spec b known items it :
  (it ∈ discover_items b known items) <->
  it ∈ items \/ exists p, it = provider_item p /\ (p ∉ known) /\ exists u, u ∈ items /\ borrows b u p.
Proof.
  revert known. induction items as [|u items IH]; intros known; simpl.
  { split; [by intros ?%elem_of_nil|]. by intros [?%elem_of_nil|(p & _ & _ & u & ?%elem_of_nil & _)]. }
  rewrite elem_of_app, elem_of_cons, list_elem_of_fmap, IH. split.
  - intros [(p & -> & Hp)|[->|[Hin|(p & -> & Hp & v & Hv & Hb)]]].
    + apply discover_targets_spec in Hp as [Hk Hb]. right. exists p. split; [done|]. split; [done|].
      exists u. split; [by left|done].
    + left. by left.
    + left. by right.
    + right. exists p. split; [done|]. split.
      * intros Hk. apply Hp. apply elem_of_app. by right.
      * exists v. split; [by right|done].
  - intros [[->|Hin]%elem_of_cons|(p & -> & Hk & v & [->|Hv]%elem_of_cons & Hb)].
    + right. by left.
    + right. right. by left.
    + left. exists p. split; [done|]. by apply discover_targets_spec.
    + destruct (decide (p ∈ discover_targets b known (iter_provider_backends u))) as [Hd|Hd].
      * left. by exists p.
      * right. right. right. exists p. split; [done|]. split; [|eauto].
        intros [Hr|Hr]%elem_of_app; [|done]. apply Hd. by rewrite list_elem_of_In, in_rev, <- list_elem_of_In.
Qed.

Lemma discover_shared_spec b items it :
  (it ∈ discover_shared_providers b items) <->
  it ∈ items \/
  exists p, it = provider_item p /\ (p ∉ (it_id <$> items)) /\ exists u, u ∈ items /\ borrows b u p.
Proof. apply discover_items_spec. Qed.

Lemma discover_items_nodup b known items :
  NoDup (it_id <$> items) -> (it_id <$> items) ⊆ known ->
  NoDup (it_id <$> discover_items b known items).
Proof.
  revert known. induction items as [|u items IH]; intros known Hnd Hk; simpl; [constructor|].
  apply NoDup_cons in Hnd as [Hu Hnd]. rewrite fmap_app. cbn [fmap list_fmap].
  assert (it_id <$> (provider_item <$> discover_targets b known (iter_provider_backends u)) =
          discover_targets b known (iter_provider_backends u)) as ->.
  { rewrite <- list_fmap_compose. apply list_fmap_id. }
  assert (forall p, p ∈ (it_id <$> discover_items b (rev (discover_targets b known
    (iter_provider_backends u)) ++ known) items) -> p ∈ (it_id <$> items) \/
    ((p ∉ known) /\ p ∉ discover_targets b known (iter_provider_backends u))) as Hspec.
  { intros p (it & -> & Hit)%list_elem_of_fmap. apply discover_items_spec in Hit as [Hit|(q & -> & Hq & _)].
    - left. by apply list_elem_of_fmap_2.
    - right. simpl. split; intros Hk'; apply Hq, elem_of_app; [by right|left].
      by rewrite list_elem_of_In, <- in_rev, <- list_elem_of_In. }
  apply NoDup_app. split; [apply discover_targets_nodup|]. split.
  - intros p Hp Hin. apply discover_targets_spec in Hp as Hp'. destruct Hp' as [Hpk _].
    apply elem_of_cons in Hin as [->|Hin].
    + apply Hpk, Hk. by left.
    + destruct (Hspec p Hin) as [Hin'|[_ Hn]]; [|done]. apply Hpk, Hk. by right.
  - constructor.
    + intros Hin. destruct (Hspec _ Hin) as [?|[Hn _]]; [done|]. apply Hn, Hk. by left.
    + apply IH; [done|]. intros x Hx. apply elem_of_app. right. apply Hk. by right.
Qed.

Lemma discover_items_perm b known items :
  exists found, discover_items b known items ≡ₚ (provider_item <$> found) ++ items /\ NoDup found /\
    forall p, p ∈ found -> (p ∉ known) /\ exists u, u ∈ items /\ borrows b u p.
Proof.
  revert known. induction items as [|u items IH]; intros known; simpl.
  { exists []. split_and!; [done|constructor|by intros ? ?%elem_of_nil]. }
  set (ds := discover_targets b known (iter_provider_backends u)).
  destruct (IH (rev ds ++ known)) as (found & Hp & Hnd & Hf). exists (ds ++ found).
  assert (forall p, p ∈ found -> (p ∉ ds) /\ (p ∉ known)) as Hout.
  { intros p Hin. destruct (Hf p Hin) as [Hk _].
    split; intros Hx; apply Hk, elem_of_app; [left|by right].
    by rewrite list_elem_of_In, <- in_rev, <- list_elem_of_In. }
  split_and!.
  - rewrite Hp, fmap_app, <- app_assoc. apply Permutation_app_head. by rewrite Permutation_middle.
  - apply NoDup_app. split; [apply discover_targets_nodup|]. split; [|done].
    intros p Hd Hin. by destruct (Hout p Hin).
  - intros p [Hin|Hin]%elem_of_app.
    + apply discover_targets_spec in Hin as [Hk Hb]. split; [done|]. exists u. split; [by left|done].
    + split; [apply (Hout p Hin)|]. destruct (Hf p Hin) as [_ (v & Hv & Hb)]. exists v.
      split; [by right|done].
Qed.

Lemma discover_wf b items : wf_items b items -> wf_items b (discover_shared_providers b items).
Proof.
  intros Hwf. unfold discover_shared_providers.
  destruct (discover_items_perm b (it_id <$> items) items) as (found & Hp & Hnd & Hf).
  assert (forall it, it ∈ discover_items b (it_id <$> items) items ->
    it ∈ items \/ exists p, p ∈ found /\ it = provider_item p) as Hin.
  { intros it Hit. rewrite Hp in Hit. apply elem_of_app in Hit as [(p & -> & ?)%list_elem_of_fmap|]; eauto. }
  assert (forall p, p ∈ found -> exists t, b !! t = Some (p, false)) as Hb.
  { intros p Hin'. destruct (Hf p Hin') as [_ (u & _ & t & _ & Ht)]. eauto. }
  assert (forall p, p ∈ found -> p ∉ targets_of items) as Hnt.
  { intros p Hpf (u & Hu & Hin')%list_elem_of_bind. destruct (Hb p Hpf) as [t Ht].
    destruct (wf_borrowed _ _ Hwf t p Ht) as [_ Hx]. destruct (Hx u Hin' (or_intror Hu)) as [Hid _].
    apply (proj1 (Hf p Hpf)). rewrite <- Hid. by apply list_elem_of_fmap_2. }
  constructor.
  - apply discover_items_nodup; [apply Hwf|done].
  - unfold targets_of. rewrite Hp, bind_app. apply NoDup_app.
    assert ((provider_item <$> found) ≫= iter_provider_backends = found) as ->.
    { clear. induction found as [|p found IH]; [done|]. cbn. f_equal. apply IH. }
    split; [done|]. split; [|apply Hwf]. intros p Hpf. by apply Hnt.
  - intros it [Hit|(p & Hpf & ->)]%Hin Hprov; [by apply Hwf|]. split; [done|].
    destruct (Hb p Hpf) as [t Ht]. apply (wf_borrowed _ _ Hwf t p Ht).
  - intros t p Ht. destruct (wf_borrowed _ _ Hwf t p Ht) as [Hn Hx]. split; [done|].
    intros it [Hit|(q & _ & ->)]%Hin Hor; [by apply Hx|]. simpl. destruct Hor as [?|Hor]; [done|].
    by apply list_elem_of_singleton in Hor as ->.
  - intros t p Ht. destruct (wf_owned _ _ Hwf t p Ht) as [Hn Hu]. split; [|done].
    intros (it & Hid & [Hit|(q & Hq & ->)]%Hin)%list_elem_of_fmap.
    + apply Hn. rewrite Hid. by apply list_elem_of_fmap_2.
    + simpl in Hid. subst q. destruct (Hb p Hq) as [u Hu']. rewrite (Hu u false Hu') in Hu'. congruence.
Qed.

Lemma discover_complete b items it p :
  wf_items b items -> it ∈ discover_shared_providers b items -> borrows b it p ->
  p ∈ (it_id <$> discover_shared_providers b items).
Proof.
  intros Hwf Hit Hb. apply discover_shared_spec in Hit as [Hit|(q & -> & _ & u & _ & v & _ & Hv)].
  - destruct (decide (p ∈ (it_id <$> items))) as [(u & -> & Hu)%list_elem_of_fmap|Hn].
    + apply list_elem_of_fmap_2, discover_shared_spec. by left.
    + apply list_elem_of_fmap. exists (provider_item p). split; [done|]. apply discover_shared_spec.
      right. exists p. eauto.
  - destruct Hb as (t & Ht & Hb). apply list_elem_of_singleton in Ht as ->. simpl in Hb.
    destruct (wf_borrowed _ _ Hwf v q Hv) as [Hn _]. congruence.
Qed.

(** ** Ordering *)

Lemma index_of_spec p items :
  match index_of p items with
  | Some i => exists it, items !! i = Some it /\ it_id it = p
  | None => p ∉ (it_id <$> items)
  end.
Proof.
  induction items as [|u items IH]; simpl; [by intros ?%elem_of_nil|].
  case_bool_decide as Hu; [by exists u|].
  destruct (index_of p items) as [i|]; simpl; [done|].
  rewrite not_elem_of_cons. by split.
Qed.

(** Moving the item at [position] to [index]. *)
Lemma moved_items index position items (x : item) :
  items !! position = Some x -> index < position ->
  let items' := take index items ++ option_list (items !! position) ++ drop index (delete position items) in
  items' ≡ₚ items /\ take index items' = take index items /\ items' !! index = Some x.
Proof.
  intros Hx Hlt. rewrite Hx. simpl.
  assert (index < length items) as Hlen by (apply lookup_lt_Some in Hx; lia).
  assert (length (take index items) = index) as El by (rewrite length_take; lia).
  split_and!.
  - assert (take index items = take index (delete position items)) as ->.
    { rewrite delete_take_drop, take_app_le by (rewrite length_take; lia).
      rewrite take_take. f_equal. lia. }
    simpl. rewrite <- Permutation_middle, take_drop. symmetry. by apply delete_Permutation.
  - rewrite take_app_le by lia. apply take_idemp.
  - rewrite lookup_app_r by lia. by rewrite El, Nat.sub_diag.
Qed.

Definition at_or_before (items : list item) (i p : nat) : Prop :=
  exists j it, j <= i /\ items !! j = Some it /\ it_id it = p.

Lemma at_or_before_take items items' i k p :
  take k items = take k items' -> i < k -> at_or_before items i p -> at_or_before items' i p.
Proof.
  intros Ht Hi (j & it & Hj & Hit & Hp). exists j, it. split; [done|]. split; [|done].
  rewrite <- (lookup_take_lt items' k) by lia. rewrite <- Ht. by rewrite lookup_take_lt by lia.
Qed.

(** After the backends [ts] of the item at [index]: nothing moved and their providers are in
    place, or one of their providers is now at [index]. *)
Lemma order_targets_spec b index ts items :
  (forall t p, t ∈ ts -> b !! t = Some (p, false) -> p ∈ (it_id <$> items)) ->
  exists items', order_targets b false index ts items = Return items' /\
    items' ≡ₚ items /\ take index items' = take index items /\
    ((items' = items /\
      forall t p, t ∈ ts -> b !! t = Some (p, false) -> at_or_before items index p) \/
     exists t p x, b !! t = Some (p, false) /\ items' !! index = Some x /\ it_id x = p).
Proof.
  revert items. induction ts as [|t ts IH]; intros items Hin; simpl.
  { exists items. split_and!; try done. left. split; [done|]. by intros ? ? ?%elem_of_nil. }
  assert (forall u p, u ∈ ts -> b !! u = Some (p, false) -> p ∈ (it_id <$> items)) as Hin'.
  { intros u p Hu. apply Hin. by right. }
  destruct (b !! t) as [[p [|]]|] eqn:E.
  - destruct (IH items Hin') as (items' & -> & Hp & Ht & [[-> Hall]|Hx]); eexists;
      split_and!; try done; [left|by right].
    split; [done|]. intros u q [->|Hu]%elem_of_cons Hb; [congruence|by eapply Hall].
  - unfold move_provider_ahead. pose proof (index_of_spec p items) as Hix.
    destruct (index_of p items) as [position|]; [|by destruct (Hix (Hin t p ltac:(by left) E))].
    destruct Hix as (x & Hx & Hxp). destruct (Nat.leb_spec position index) as [Hle|Hlt].
    + destruct (IH items Hin') as (items' & -> & Hp & Ht & [[-> Hall]|Hy]); eexists;
        split_and!; try done; [left|by right].
      split; [done|]. intros u q [->|Hu]%elem_of_cons Hb; [|by eapply Hall].
      rewrite E in Hb. simplify_eq. by exists position, x.
    + destruct (moved_items index position items x Hx Hlt) as (Hp1 & Ht1 & Hi1).
      set (items1 := take index items ++ _) in *.
      destruct (IH items1) as (items' & -> & Hp & Ht & Hor).
      { intros u q Hu Hb. rewrite Hp1. by apply (Hin' u q). }
      exists items'. split; [done|]. split; [by rewrite Hp|]. split; [by rewrite Ht|]. right.
      destruct Hor as [[-> _]|Hy]; [by exists t, p, x|done].
  - destruct (IH items Hin') as (items' & -> & Hp & Ht & [[-> Hall]|Hx]); eexists;
      split_and!; try done; [left|by right].
    split; [done|]. intros u q [->|Hu]%elem_of_cons Hb; [congruence|by eapply Hall].
Qed.

(** The providers an item borrows are at its place or before. *)
Definition placed (b : bindings) (items : list item) (i : nat) : Prop :=
  forall it p, items !! i = Some it -> borrows b it p -> at_or_before items i p.

Lemma order_loop_spec b fuel index items0 items :
  wf_items b items0 -> items ≡ₚ items0 -> length items <= fuel + index ->
  (forall it p, it ∈ items0 -> borrows b it p -> p ∈ (it_id <$> items0)) ->
  (forall i, i < index -> placed b items i) ->
  exists items', order_loop b false fuel index items = Return items' /\ items' ≡ₚ items0 /\
    forall i, placed b items' i.
Proof.
  intros Hwf. revert index items. induction fuel as [|fuel IH]; intros index items Hp Hlen Hin Hpl; simpl.
  { exists items. split_and!; try done. intros i it p Hi. apply (Hpl i); [|done].
    apply lookup_lt_Some in Hi. lia. }
  destruct (items !! index) as [it|] eqn:Ei.
  2:{ exists items. split_and!; try done. intros i it p Hi. apply (Hpl i); [|done].
      apply lookup_lt_Some in Hi. apply lookup_ge_None in Ei. lia. }
  assert (it ∈ items0) as Hit by (rewrite <- Hp; by eapply list_elem_of_lookup_2).
  destruct (order_targets_spec b index (iter_provider_backends it) items) as (items1 & -> & Hp1 & Ht1 & Hor).
  { intros t p Ht Hb. rewrite Hp. apply (Hin it p Hit). by exists t. }
  apply IH; [by rewrite Hp1|by rewrite Hp1; lia|done|]. intros i Hi u p Hu Hbor.
  assert (i < index -> at_or_before items1 i p) as Hbefore.
  { intros Hlt. apply (at_or_before_take items _ _ index); [done|done|]. apply (Hpl i Hlt u p); [|done].
    rewrite <- (lookup_take_lt items index) by lia. rewrite <- Ht1. by rewrite lookup_take_lt by lia. }
  destruct (decide (i < index)) as [Hlt|Hge]; [by apply Hbefore|].
  assert (i = index) as -> by lia. destruct Hor as [[-> Hall]|(t & q & x & Hb & Hx & Hq)].
  - rewrite Ei in Hu. simplify_eq. destruct Hbor as (t & Ht & Hb). by eapply Hall.
  - rewrite Hu in Hx. simplify_eq. exfalso.
    destruct (wf_borrowed _ _ Hwf t (it_id x) Hb) as [Hnone Hprov].
    destruct (Hprov x) as [_ Hpx]; [|by left|].
    { rewrite <- Hp, <- Hp1. by eapply list_elem_of_lookup_2. }
    destruct (wf_providers _ _ Hwf x) as [Hiter _]; [|done|].
    { rewrite <- Hp, <- Hp1. by eapply list_elem_of_lookup_2. }
    destruct Hbor as (u & Hu' & Hbu). rewrite Hiter in Hu'. apply list_elem_of_singleton in Hu' as ->.
    congruence.
Qed.

(** ** Sharing *)

Lemma wf_perm b items items' : items ≡ₚ items' -> wf_items b items -> wf_items b items'.
Proof.
  intros Hp Hwf. constructor.
  - rewrite <- Hp. apply Hwf.
  - unfold targets_of. rewrite <- Hp. apply Hwf.
  - intros it. rewrite <- Hp. apply Hwf.
  - intros t p Ht. destruct (wf_borrowed _ _ Hwf t p Ht) as [? H]. split; [done|].
    intros it. rewrite <- Hp. apply H.
  - intros t p Ht. rewrite <- Hp. by apply Hwf.
Qed.

Section SharingSpec.
Context (provider_key : nat -> string * string).

Definition before (ts : list nat) (t1 t : nat) : Prop := exists l1 l2, ts = l1 ++ t :: l2 /\ t1 ∈ l1.

Lemma before_cons u ts t1 t : before ts t1 t -> before (u :: ts) t1 t.
Proof. intros (l1 & l2 & -> & H). exists (u :: l1), l2. split; [done|by right]. Qed.

Lemma before_head u ts t : t ∈ ts -> before (u :: ts) u t.
Proof. intros (l1 & l2 & ->)%list_elem_of_split. exists (u :: l1), l2. split; [done|by left]. Qed.

Record shared_ok (cache : gmap (string * string) nat) (ts : list nat) (b b' : bindings) : Prop := {
  sh_others : forall t, (t ∉ ts) -> b' !! t = b !! t;
  sh_none : forall t, b !! t = None -> b' !! t = None;
  sh_owned : forall t p, b' !! t = Some (p, true) -> b !! t = Some (p, true);
  sh_borrowed : forall t p, b' !! t = Some (p, false) -> t ∈ ts ->
    b !! t = Some (p, false) \/
    (exists k, cache !! k = Some p) \/ exists t1, before ts t1 t /\ b' !! t1 = Some (p, true);
  sh_cached : forall t p, t ∈ ts -> b' !! t = Some (p, true) ->
    cache !! provider_key p = None \/ cache !! provider_key p = Some p;
}.

Lemma share_targets_ok cache ts b :
  NoDup ts -> shared_ok cache ts b (share_targets provider_key cache ts b).
Proof.
  revert cache b. induction ts as [|t ts IH]; intros cache b Hnd; simpl.
  { constructor; [done|done|done|by intros t p _ ?%elem_of_nil|by intros t p ?%elem_of_nil]. }
  apply NoDup_cons in Hnd as [Ht Hnd].
  assert (forall cache b, (share_targets provider_key cache ts b) !! t = b !! t) as Hhead.
  { intros c b0. by apply (sh_others _ _ _ _ (IH c b0 Hnd)). }
  assert (forall b1, (forall u, u <> t -> b1 !! u = b !! u) ->
    (forall p, b1 !! t = Some (p, true) -> b !! t = Some (p, true) /\
       (cache !! provider_key p = None \/ cache !! provider_key p = Some p)) ->
    (forall p, b1 !! t = Some (p, false) -> b !! t = Some (p, false) \/ exists k, cache !! k = Some p) ->
    (b !! t = None -> b1 !! t = None) ->
    shared_ok cache (t :: ts) b (share_targets provider_key cache ts b1)) as Hkeep.
  { intros b1 Hne Hown Hbor Hnone. destruct (IH cache b1 Hnd) as [H1 H0 H2 H3 H4]. constructor.
    - intros u [Hu Hu']%not_elem_of_cons. by rewrite H1, Hne.
    - intros u Hu. apply H0. destruct (decide (u = t)) as [->|Hn]; [by apply Hnone|by rewrite Hne].
    - intros u p Hu. apply H2 in Hu. destruct (decide (u = t)) as [->|Hn]; [by apply Hown|]. by rewrite <- Hne.
    - intros u p Hu Hin. destruct (decide (u = t)) as [->|Hn].
      + rewrite Hhead in Hu. destruct (Hbor p Hu); auto.
      + apply elem_of_cons in Hin as [|Hin]; [done|]. destruct (H3 u p Hu Hin) as [Hx|[Hx|(t1 & Hb & Hx)]].
        * left. by rewrite <- Hne.
        * by right; left.
        * right; right. exists t1. split; [by apply before_cons|done].
    - intros u p Hin Hu. destruct (decide (u = t)) as [->|Hn].
      + rewrite Hhead in Hu. by apply Hown.
      + apply elem_of_cons in Hin as [|Hin]; [done|]. by apply (H4 u). }
  destruct (b !! t) as [[p [|]]|] eqn:E.
  2:{ apply Hkeep; [done|intros q Hq; congruence| |done]. intros q Hq. rewrite E in Hq. simplify_eq. by left. }
  2:{ apply Hkeep; [done|intros q Hq; congruence|intros q Hq; congruence|done]. }
  destruct (cache !! provider_key p) as [shared|] eqn:Ec.
  - case_bool_decide as Hs; [subst shared|].
    + apply Hkeep; [done| |intros q Hq; congruence|done]. intros q Hq. rewrite E in Hq. simplify_eq. auto.
    + apply Hkeep.
      * intros u Hu. by rewrite lookup_insert_ne.
      * intros q Hq. rewrite lookup_insert_eq in Hq. by simplify_eq.
      * intros q Hq. rewrite lookup_insert_eq in Hq. simplify_eq. eauto.
      * congruence.
  - destruct (IH (<[provider_key p := p]> cache) b Hnd) as [H1 H0 H2 H3 H4]. constructor.
    + intros u [_ Hu]%not_elem_of_cons. by apply H1.
    + done.
    + done.
    + intros u q Hu Hin. apply elem_of_cons in Hin as [->|Hin].
      { rewrite Hhead, E in Hu. by simplify_eq. }
      destruct (H3 u q Hu Hin) as [Hx|[[k Hk]|(t1 & Hb & Hx)]]; [by left| |].
      * destruct (decide (k = provider_key p)) as [->|Hn].
        -- rewrite lookup_insert_eq in Hk. simplify_eq. right; right. exists t. rewrite Hhead.
           split; [by apply before_head|done].
        -- rewrite lookup_insert_ne in Hk by done. right; left. eauto.
      * right; right. exists t1. split; [by apply before_cons|done].
    + intros u q Hin Hu. apply elem_of_cons in Hin as [->|Hin].
      { rewrite Hhead, E in Hu. simplify_eq. by left. }
      specialize (H4 u q Hin Hu). destruct (decide (provider_key q = provider_key p)) as [Ek|Ek].
      * rewrite Ek, Ec. by left.
      * by rewrite lookup_insert_ne in H4 by done.
Qed.
End SharingSpec.

(** ** The providers that are open *)

(** One thing to open: a provider item, or a backend. *)
Definition steps_of (it : item) : list (nat + nat) :=
  if is_provider it then [inl (it_id it)] else inr <$> iter_provider_backends it.

Definition opens_provider (b : bindings) (s : nat + nat) : list nat :=
  match s with
  | inl p => [p]
  | inr t => match b !! t with Some (p, true) => [p] | _ => [] end
  end.

Definition opened_by (b : bindings) (items : list item) : gset nat :=
  list_to_set ((items ≫= steps_of) ≫= opens_provider b).

Definition open_step (b : bindings) (s : nat + nat) (opened : gset nat) : option (gset nat) :=
  match s with inl p => Some ({[p]} ∪ opened) | inr t => open_backend b t opened end.

Definition open_steps (b : bindings) (ss : list (nat + nat)) (opened : gset nat) : option (gset nat) :=
  foldl (fun o s => o ≫= open_step b s) (Some opened) ss.

Lemma foldl_bind_none {A B} (f : A -> B -> option B) l :
  foldl (fun o x => o ≫= f x) None l = None.
Proof. by induction l. Qed.

Lemma open_steps_app b l1 l2 opened :
  open_steps b (l1 ++ l2) opened = open_steps b l1 opened ≫= open_steps b l2.
Proof.
  unfold open_steps. rewrite foldl_app. destruct (foldl _ _ l1); [done|].
  apply foldl_bind_none.
Qed.

Lemma open_item_steps b it opened : open_app_item b it opened = open_steps b (steps_of it) opened.
Proof.
  unfold open_app_item, steps_of, open_steps. destruct (is_provider it); [done|].
  generalize (Some opened). induction (iter_provider_backends it) as [|t ts IH]; intros o; [done|].
  simpl. apply IH.
Qed.

Lemma open_items_steps b items opened : open_items b items opened = open_steps b (items ≫= steps_of) opened.
Proof.
  unfold open_items. revert opened. induction items as [|it items IH]; intros opened; [done|].
  simpl. rewrite open_steps_app, open_item_steps. simpl.
  destruct (open_steps b (steps_of it) opened) as [o|]; simpl; [apply IH|apply foldl_bind_none].
Qed.

(** Every borrowed provider was opened by an earlier step. *)
Definition steps_ready (b : bindings) (ss : list (nat + nat)) : Prop :=
  forall l1 t l2 p, ss = l1 ++ inr t :: l2 -> b !! t = Some (p, false) -> p ∈ (l1 ≫= opens_provider b).

Lemma open_steps_ready b ss :
  steps_ready b ss -> open_steps b ss ∅ = Some (list_to_set (ss ≫= opens_provider b)).
Proof.
  induction ss as [|s ss IH] using rev_ind; intros Hr; [done|].
  rewrite open_steps_app, IH.
  2:{ intros l1 t l2 p -> Hb. eapply Hr; [|done]. by rewrite <- app_assoc. }
  rewrite bind_app, list_to_set_app_L. unfold open_steps. simpl. destruct s as [p|t]; simpl.
  - f_equal. set_solver.
  - unfold open_backend. destruct (b !! t) as [[p [|]]|] eqn:E; simpl.
    + f_equal. set_solver.
    + rewrite bool_decide_eq_true_2; [f_equal; set_solver|]. apply elem_of_list_to_set. by eapply Hr.
    + f_equal. set_solver.
Qed.

Lemma close_item_steps b it opened :
  close_item b it opened = opened ∖ list_to_set (steps_of it ≫= opens_provider b).
Proof.
  unfold close_item, steps_of. destruct (is_provider it); [simpl; f_equal; set_solver|].
  revert opened. induction (iter_provider_backends it) as [|t ts IH]; intros opened; simpl; [set_solver|].
  rewrite IH, list_to_set_app_L. unfold close_backend.
  destruct (b !! t) as [[p [|]]|]; simpl; set_solver.
Qed.

Lemma close_items_steps b items opened : close_items b items opened = opened ∖ opened_by b items.
Proof.
  unfold close_items, opened_by. induction items as [|it items IH]; simpl; [set_solver|].
  rewrite IH, close_item_steps, bind_app, list_to_set_app_L. set_solver.
Qed.

Lemma split_unique {A} (k1 k2 l1 l2 : list A) x :
  NoDup (k1 ++ x :: k2) -> k1 ++ x :: k2 = l1 ++ x :: l2 -> k1 = l1.
Proof.
  revert l1. induction k1 as [|y k1 IH]; intros [|z l1] Hnd E; simpl in *; simplify_eq; [done| | |].
  - apply NoDup_cons in Hnd as [Hx _]. destruct Hx. set_solver.
  - apply NoDup_cons in Hnd as [Hx _]. destruct Hx. set_solver.
  - f_equal. apply NoDup_cons in Hnd as [_ Hnd]. by apply (IH l1).
Qed.

(** Where an element of a concatenation comes from. *)
Lemma bind_split {A B} (f : A -> list B) (l : list A) l1 x l2 :
  l ≫= f = l1 ++ x :: l2 ->
  exists i a l1' l2', l !! i = Some a /\ f a = l1' ++ x :: l2' /\ l1 = (take i l ≫= f) ++ l1'.
Proof.
  revert l1. induction l as [|a l IH]; intros l1 E; [by destruct l1|]. simpl in E.
  apply app_eq_inv in E as [(k & E1 & E2)|(k & E1 & E2)].
  - destruct k as [|y k]; simpl in E2.
    + destruct (IH []) as (i & c & l1' & l2' & Hi & Hf & E); [done|].
      exists (S i), c, l1', l2'. split; [done|]. split; [done|].
      rewrite app_nil_r in E1. change (take (S i) (a :: l) ≫= f) with (f a ++ (take i l ≫= f)).
      by rewrite <- app_assoc, <- E, app_nil_r, E1.
    + injection E2 as -> ->. by exists 0, a, l1, k.
  - destruct (IH k) as (i & c & l1' & l2' & Hi & Hf & ->); [done|].
    exists (S i), c, l1', l2'. split; [done|]. split; [done|].
    change (take (S i) (a :: l) ≫= f) with (f a ++ (take i l ≫= f)). by rewrite E1, <- app_assoc.
Qed.

Section Available.
Context (provider_key : nat -> string * string) (b : bindings).

Definition unstep (s : nat + nat) : nat := match s with inl p | inr p => p end.

Lemma targets_steps items : wf_items b items -> targets_of items = unstep <$> (items ≫= steps_of).
Proof.
  intros Hwf. assert (forall it, it ∈ items -> iter_provider_backends it = unstep <$> steps_of it) as H.
  { intros it Hit. unfold steps_of. destruct (is_provider it) eqn:Ep.
    - by destruct (wf_providers _ _ Hwf it Hit Ep) as [-> _].
    - rewrite <- list_fmap_compose. symmetry. apply list_fmap_id. }
  clear Hwf. unfold targets_of. induction items as [|it items IH]; [done|]. cbn [mbind list_bind].
  rewrite fmap_app, <- (H it) by (by left). f_equal. apply IH. intros u Hu. apply H. by right.
Qed.

Section Prepared.
Context (items : list item).
Hypothesis Hwf : wf_items b items.
Hypothesis Hplaced : forall i, placed b items i.

Abbreviation b' := (resolve_provider_sharing provider_key items b).

Lemma sharing_ok : shared_ok provider_key ∅ (targets_of items) b b'.
Proof. apply share_targets_ok, Hwf. Qed.

Lemma prepared_ready : steps_ready b' (items ≫= steps_of).
Proof.
  intros l1 t l2 p Hs Hb. destruct sharing_ok as [_ _ Hown Hbor _].
  assert (t ∈ targets_of items) as Hin.
  { rewrite (targets_steps items Hwf), Hs, list_elem_of_fmap. exists (inr t).
    split; [done|]. apply elem_of_app. right. by left. }
  destruct (Hbor t p Hb Hin) as [Hx|[[k Hk]|(t1 & (k1 & k2 & Hk & Hin1) & Ht1)]].
  - apply bind_split in Hs as (i & it & l1' & l2' & Hi & Hf & ->).
    assert (t ∈ iter_provider_backends it /\ is_provider it = false) as [Ht Hnp].
    { unfold steps_of in Hf. destruct (is_provider it); [by destruct l1' as [|? []]|].
      split; [|done]. assert (@inr nat nat t ∈ inr <$> iter_provider_backends it) as Hx'
        by (rewrite Hf; apply elem_of_app; right; by left).
      apply list_elem_of_fmap in Hx' as (u & [= ->] & ?). done. }
    destruct (Hplaced i it p Hi) as (j & u & Hj & Hu & Hp); [by exists t|].
    destruct (wf_borrowed _ _ Hwf t p Hx) as [_ Hpr].
    destruct (Hpr u) as [_ Hpu]; [by eapply list_elem_of_lookup_2|by left|].
    assert (j <> i) as Hne by (intros ->; rewrite Hi in Hu; simplify_eq; congruence).
    rewrite bind_app. apply elem_of_app. left. apply list_elem_of_bind. exists (inl p). split; [by left|].
    apply list_elem_of_bind. exists u. split; [unfold steps_of; rewrite Hpu, Hp; by left|].
    apply (list_elem_of_lookup_2 _ j). by rewrite lookup_take_lt by lia.
  - by rewrite lookup_empty in Hk.
  - rewrite (targets_steps items Hwf), Hs, fmap_app, fmap_cons in Hk. cbn [unstep] in Hk.
    assert ((unstep <$> l1) = k1) as <-.
    { eapply split_unique; [|exact Hk].
      replace ((unstep <$> l1) ++ t :: (unstep <$> l2)) with (unstep <$> (l1 ++ inr t :: l2))
        by (by rewrite fmap_app).
      rewrite <- Hs, <- (targets_steps items Hwf). apply Hwf. }
    apply list_elem_of_fmap in Hin1 as (s & -> & Hsl). apply list_elem_of_bind. exists s. split; [|done].
    destruct s as [q|q]; simpl in *; [|rewrite Ht1; by left].
    exfalso. apply Hown in Ht1.
    assert (@inl nat nat q ∈ items ≫= steps_of) as Hq by (rewrite Hs; apply elem_of_app; by left).
    apply list_elem_of_bind in Hq as (u & Hq & Hu). unfold steps_of in Hq.
    destruct (is_provider u) eqn:Ep; [|by apply list_elem_of_fmap in Hq as (? & ? & _)].
    apply list_elem_of_singleton in Hq as [= ->]. destruct (wf_providers _ _ Hwf u Hu Ep) as [_ Hn].
    congruence.
Qed.

Lemma prepared_once : NoDup ((items ≫= steps_of) ≫= opens_provider b').
Proof.
  destruct sharing_ok as [_ _ Hown _ _].
  assert (forall s p, s ∈ items ≫= steps_of -> p ∈ opens_provider b' s ->
    (s = inl p /\ exists it, it ∈ items /\ it_id it = p) \/
    exists t, s = inr t /\ b !! t = Some (p, true)) as Hs.
  { intros s p Hin Hp. destruct s as [q|t]; simpl in Hp.
    - apply list_elem_of_singleton in Hp as ->. left. split; [done|].
      apply list_elem_of_bind in Hin as (u & Hq & Hu). unfold steps_of in Hq.
      destruct (is_provider u); [|by apply list_elem_of_fmap in Hq as (? & ? & _)].
      apply list_elem_of_singleton in Hq as [= ->]. eauto.
    - destruct (b' !! t) as [[q [|]]|] eqn:E; [|by apply elem_of_nil in Hp..].
      apply list_elem_of_singleton in Hp as ->. right. eauto. }
  apply NoDup_bind.
  - intros s1 s2 p H1 H2 Hp1 Hp2.
    destruct (Hs s1 p H1 Hp1) as [[-> (u & Hu & <-)]|(t1 & -> & Ht1)],
             (Hs s2 _ H2 Hp2) as [[-> (v & Hv & Hid)]|(t2 & -> & Ht2)]; try done.
    + exfalso. destruct (wf_owned _ _ Hwf t2 _ Ht2) as [Hn _]. apply Hn. by apply list_elem_of_fmap_2.
    + exfalso. destruct (wf_owned _ _ Hwf t1 _ Ht1) as [Hn _]. apply Hn. rewrite <- Hid.
      by apply list_elem_of_fmap_2.
    + destruct (wf_owned _ _ Hwf t2 _ Ht2) as [_ Hu]. by rewrite (Hu t1 true Ht1).
  - intros [p|t] _; simpl; [apply NoDup_singleton|].
    destruct (b' !! t) as [[q [|]]|]; [apply NoDup_singleton|constructor..].
  - apply (NoDup_fmap_1 unstep). rewrite <- (targets_steps items Hwf). apply Hwf.
Qed.

Lemma prepared_available k :
  open_items b' (take k items) ∅ = Some (opened_by b' (take k items)) /\
  close_items b' (drop k items) (opened_by b' items) = opened_by b' (take k items) /\
  forall it t p o, it ∈ take k items -> t ∈ iter_provider_backends it -> b' !! t = Some (p, o) ->
    p ∈ opened_by b' (take k items).
Proof.
  assert (items ≫= steps_of = (take k items ≫= steps_of) ++ (drop k items ≫= steps_of)) as Esplit
    by (by rewrite <- bind_app, take_drop).
  assert (steps_ready b' (take k items ≫= steps_of)) as Hready.
  { intros l1 t l2 p E Hb. apply (prepared_ready l1 t (l2 ++ (drop k items ≫= steps_of)) p); [|done].
    by rewrite Esplit, E, <- app_assoc. }
  split_and!.
  - rewrite open_items_steps. by apply open_steps_ready.
  - rewrite close_items_steps. unfold opened_by. rewrite Esplit, bind_app, list_to_set_app_L.
    pose proof prepared_once as Hnd. rewrite Esplit, bind_app in Hnd.
    apply NoDup_app in Hnd as (_ & Hdis & _). apply set_eq. intros p.
    rewrite elem_of_difference, elem_of_union, !elem_of_list_to_set. specialize (Hdis p). tauto.
  - intros it t p o Hit Ht Hb. unfold opened_by. rewrite elem_of_list_to_set.
    assert (it ∈ items) as Hit' by (rewrite <- (take_drop k items); apply elem_of_app; by left).
    destruct (is_provider it) eqn:Ep.
    { destruct (wf_providers _ _ Hwf it Hit' Ep) as [Hiter Hn]. rewrite Hiter in Ht.
      apply list_elem_of_singleton in Ht as ->. apply (sh_none _ _ _ _ _ sharing_ok) in Hn. congruence. }
    assert (@inr nat nat t ∈ take k items ≫= steps_of) as Hin.
    { apply list_elem_of_bind. exists it. split; [|done]. unfold steps_of. rewrite Ep.
      by apply list_elem_of_fmap_2. }
    destruct o.
    + apply list_elem_of_bind. exists (inr t). split; [|done]. simpl. rewrite Hb. by left.
    + apply list_elem_of_split in Hin as (l1 & l2 & E). rewrite E, bind_app. apply elem_of_app. left.
      by apply (Hready l1 t l2).
Qed.
End Prepared.
End Available.

(** Providers are open when they are used.  Whatever the order in which providers and
    components are listed, an application that was not opened before prepares its items
    without error, adopting exactly the providers that its components borrow and that are not
    listed; every item then opens without finding a provider closed; and at every moment of the
    start and of the shutdown, the provider of every backend of every open item is open. *)
Lemma providers_available (provider_key : nat -> string * string) (b : bindings)
    (items : list item) (Hwf : wf_items b items) :
  exists items' b',
    prepare provider_key false items b = Return (items', b') /\
    items' ≡ₚ discover_shared_providers b items /\
    forall k, exists opened,
      open_items b' (take k items') ∅ = Some opened /\
      (exists all, open_items b' items' ∅ = Some all /\ close_items b' (drop k items') all = opened) /\
      forall it t p o, it ∈ take k items' -> t ∈ iter_provider_backends it ->
        b' !! t = Some (p, o) -> p ∈ opened.
Proof.
  pose proof (discover_wf b items Hwf) as Hwf0.
  destruct (order_loop_spec b (length (discover_shared_providers b items)) 0 _
    (discover_shared_providers b items) Hwf0) as (items' & Ho & Hp & Hpl); [done|lia| |lia|].
  { intros it p. by apply discover_complete. }
  exists items', (resolve_provider_sharing provider_key items' b).
  unfold prepare, order_providers_before_dependents. rewrite Ho. split; [done|]. split; [done|].
  assert (wf_items b items') as Hwf' by (by eapply wf_perm).
  intros k. destruct (prepared_available provider_key b items' Hwf' Hpl k) as (H1 & H2 & H3).
  destruct (prepared_available provider_key b items' Hwf' Hpl (length items')) as (H4 & _).
  rewrite take_ge in H4 by lia. eauto 10.
Qed.

(** With [strict] the items keep the order in which they were listed. *)
Lemma strict_keeps_order provider_key items b items' b' :
  prepare provider_key true items b = Return (items', b') ->
  items' = discover_shared_providers b items.
Proof.
  unfold prepare, order_providers_before_dependents.
  assert (forall index ts l l', order_targets b true index ts l = Return l' -> l' = l) as Ht.
  { intros index ts. induction ts as [|t ts IH]; intros l l'; simpl; [by intros [= ->]|].
    destruct (b !! t) as [[p [|]]|]; [apply IH| |apply IH]. unfold move_provider_ahead.
    destruct (index_of p l) as [i|]; [|done]. destruct (i <=? index); [apply IH|done]. }
  generalize (length (discover_shared_providers b items)) at 1. intros fuel.
  assert (forall index l l', order_loop b true fuel index l = Return l' -> l' = l) as Hl.
  { induction fuel as [|fuel IH]; intros index l l'; simpl; [by intros [= ->]|].
    destruct (l !! index) as [it|]; [|by intros [= ->]].
    destruct (order_targets _ _ _ _ _) as [l1|] eqn:E; [|done]. apply Ht in E as ->. apply IH. }
  destruct (order_loop _ _ _ _ _) as [l|] eqn:E; [|done]. intros [= <- _]. by apply Hl in E.
Qed.

(** A coordination component whose lock backend (10) borrows the provider 1 and whose election
    backend (11) owns the provider 20, a cache whose backend (12) owns the provider 21, and the
    provider 1 listed last; 20 and 21 have one class and prefix. *)
Definition some_items : list item :=
  [ mkItem 2 (ComponentItem "coordination" "default" false) (Some 10) (Some 11) None None;
    mkItem 3 (ComponentItem "cache" "default" false) None None None (Some 12);
    provider_item 1 ].
Definition some_bindings : bindings :=
  <[10 := (1, false)]> (<[11 := (20, true)]> (<[12 := (21, true)]> ∅)).
Definition some_key (p : nat) : string * string :=
  if bool_decide (p = 1) then ("RedisProvider", "") else ("PostgresProvider", "POSTGRES_").

Example some_items_prepared :
  prepare some_key false some_items some_bindings =
  Return ([ provider_item 1;
            mkItem 2 (ComponentItem "coordination" "default" false) (Some 10) (Some 11) None None;
            mkItem 3 (ComponentItem "cache" "default" false) None None None (Some 12) ],
          <[12 := (20, false)]> some_bindings).
Proof. vm_compute. reflexivity. Qed.

Lemma some_items_wf : wf_items some_bindings some_items.
Proof.
  assert (forall t p o, some_bindings !! t = Some (p, o) ->
    (t = 10 /\ p = 1 /\ o = false) \/ (t = 11 /\ p = 20 /\ o = true) \/ (t = 12 /\ p = 21 /\ o = true)) as Hb.
  { intros t p o H. unfold some_bindings in H.
    apply lookup_insert_Some in H as [[<- [= <- <-]]|[_ H]]; [auto|].
    apply lookup_insert_Some in H as [[<- [= <- <-]]|[_ H]]; [auto|].
    apply lookup_insert_Some in H as [[<- [= <- <-]]|[_ H]]; [auto|done]. }
  assert (forall it, it ∈ some_items -> it = provider_item 1 \/ is_provider it = false /\
    (it_id it = 2 /\ iter_provider_backends it = [10; 11] \/ it_id it = 3 /\ iter_provider_backends it = [12])) as Hi.
  { intros it Hit. unfold some_items in Hit.
    apply elem_of_cons in Hit as [->|Hit]; [by right; split; [|left]|].
    apply elem_of_cons in Hit as [->|Hit]; [by right; split; [|right]|].
    apply list_elem_of_singleton in Hit as ->. by left. }
  constructor.
  - compute_done.
  - compute_done.
  - intros it [->|[Hn _]]%Hi Hp; [done|congruence].
  - intros t p [(-> & -> & _)|[(_ & _ & ?)|(_ & _ & ?)]]%Hb; [|done|done]. split; [done|].
    intros it Hit Hor. apply Hi in Hit as [->|[_ Hit]]; [done|]. exfalso.
    destruct Hit as [[Hid Ht]|[Hid Ht]]; rewrite Hid, Ht in Hor; destruct Hor as [?|Hor]; try done;
      rewrite ?elem_of_cons, ?elem_of_nil in Hor; by destruct_or?.
  - intros t p [(_ & _ & ?)|Hor]%Hb; [done|]. split.
    + destruct Hor as [(_ & -> & _)|(_ & -> & _)]; compute_done.
    + intros t' o Ht'. apply Hb in Ht'. lia.
Qed.

Lemma providers_available_witness :
  exists items' b',
    prepare some_key false some_items some_bindings = Return (items', b') /\
    items' ≡ₚ discover_shared_providers some_bindings some_items /\
    forall k, exists opened,
      open_items b' (take k items') ∅ = Some opened /\
      (exists all, open_items b' items' ∅ = Some all /\ close_items b' (drop k items') all = opened) /\
      forall it t p o, it ∈ take k items' -> t ∈ iter_provider_backends it ->
        b' !! t = Some (p, o) -> p ∈ opened.
Proof. exact (providers_available some_key some_bindings some_items some_items_wf). Defined.

(** ** What the theorem does not cover

    The second entry.  An adapter that was rebound at the first entry no longer owns its
    provider, so the second entry adopts the shared provider as an item, although the first
    adapter still owns it: it is opened twice, and on the way out it is closed while the
    component of its owner is still open. *)
Definition two_caches : list item :=
  [ mkItem 2 (ComponentItem "coordination" "default" false) (Some 10) None None None;
    mkItem 3 (ComponentItem "cache" "default" false) None None None (Some 11) ].
Definition two_owned : bindings := <[10 := (20, true)]> (<[11 := (21, true)]> ∅).
Definition one_key (_ : nat) : string * string := ("PostgresProvider", "POSTGRES_").

Lemma second_entry_closes_early :
  exists items1 b1 items2 b2 all,
    prepare one_key false two_caches two_owned = Return (items1, b1) /\
    prepare one_key false items1 b1 = Return (items2, b2) /\
    (it_id <$> items1) = [2; 3] /\ (it_id <$> items2) = [2; 20; 3] /\
    open_items b2 items2 ∅ = Some all /\
    b2 !! 10 = Some (20, true) /\ 20 ∉ close_items b2 (drop 1 items2) all.
Proof. eexists _, _, _, _, _. repeat split; try reflexivity. compute_done. Qed.

(** [Coordination] closes its backends in the order in which it opened them, so a lock backend
    that owns the provider closes it while the election backend that shares it is open. *)
Definition one_coordination : list item :=
  [ mkItem 2 (ComponentItem "coordination" "default" false) (Some 10) (Some 11) None None ].

Lemma coordination_closes_provider_first :
  exists items1 b1 all,
    prepare one_key false one_coordination two_owned = Return (items1, b1) /\
    open_items b1 items1 ∅ = Some all /\
    b1 !! 11 = Some (20, false) /\ 20 ∈ all /\ 20 ∉ close_backend b1 10 all.
Proof.
  eexists _, _, _. repeat split; try reflexivity; compute_done.
Qed.
