(* ===== verification/App.v ===== *)
(** * The lifecycle of applications

    [Grelmicro.__aenter__], [__aexit__], [current] and [override] ([_app.py]): any number of
    applications of one process that are entered and left by any number of tasks, with the
    items that open, fail to open, and fail to close.  [_current_micro] is a variable of the
    context a task runs in; [_active_apps] belongs to the process. *)

From S2P Require Import Prelude Errors Dict AppRegistry AppProviders.
From stdpp Require Import sorting.

Local Open Scope nat_scope.

(** What the application is doing; [Unwinding] after a failed start, with the error of the start,
    the exception on its way and whether a closing item raised it ([AsyncExitStack]). *)
Inductive app_phase : Type :=
| Idle
| Opening (ctx : nat) (rest : list item)
| Running
| Unwinding (failure : exn) (e : option exn) (raised : bool)
| Closing (e : option exn) (raised : bool).

(** An application: [_items], [_strict], [_allow_multiple], [_exit_stack] (the items to close,
    first the one opened last) and [_token], with the context it belongs to. *)
Record Micro : Type := mkMicro {
  mi_items : list item;
  mi_strict : bool;
  mi_allow_multiple : bool;
  mi_exit_stack : option (list item);
  mi_token : option (nat * option nat);
  mi_phase : app_phase;
}.

Inductive lifecycle_event : Type := Opened (it : item) | Closed (it : item).

Record process : Type := mkProcess {
  ps_apps : gmap nat Micro;
  ps_active : list nat;
  ps_current : gmap nat nat;
  ps_bindings : bindings;
  ps_log : list (nat * lifecycle_event);
}.

Section Process.
Context (provider_key : nat -> string * string).
(** [owns_global_state()] of an item that refines the default. *)
Context (refine : item -> option bool).

Definition GLOBAL_STATE_KINDS : list string := ["log"; "trace"; "metrics"].

(** [_item_owns_global_state] *)
Definition item_owns_global_state (it : item) : bool :=
  match item_kind it with
  | Some kind => bool_decide (kind ∈ GLOBAL_STATE_KINDS) && default true (refine it)
  | None => false
  end.

(** [_owns_global_state] *)
Definition owns_global_state (m : Micro) : bool := existsb item_owns_global_state (mi_items m).

(** [list.remove] *)
Fixpoint list_remove (a : nat) (l : list nat) : list nat :=
  match l with
  | [] => []
  | x :: l => if bool_decide (x = a) then l else x :: list_remove a l
  end.

Definition set_app (a : nat) (m : Micro) (w : process) : process :=
  mkProcess (<[a := m]> (ps_apps w)) (ps_active w) (ps_current w) (ps_bindings w) (ps_log w).
Definition set_active_apps (l : list nat) (w : process) : process :=
  mkProcess (ps_apps w) l (ps_current w) (ps_bindings w) (ps_log w).

(** [ContextVar.set] and [reset], in the context [ctx] *)
Definition set_current (ctx : nat) (value : option nat) (w : process) : process :=
  mkProcess (ps_apps w) (ps_active w)
    (match value with Some a => <[ctx := a]> (ps_current w) | None => delete ctx (ps_current w) end)
    (ps_bindings w) (ps_log w).

Definition log_event (a : nat) (e : lifecycle_event) (w : process) : process :=
  mkProcess (ps_apps w) (ps_active w) (ps_current w) (ps_bindings w) (ps_log w ++ [(a, e)]).

(** [current] *)
Definition current (ctx : nat) (w : process) : outcome exn nat :=
  match ps_current w !! ctx with
  | Some a => Return a
  | None => Raise (mk_exn NoActiveAppError NoInfo)
  end.

Definition with_phase (p : app_phase) (stack : option (list item)) (m : Micro) : Micro :=
  mkMicro (mi_items m) (mi_strict m) (mi_allow_multiple m) stack (mi_token m) p.

(** The guard of [__aenter__] *)
Definition app_blocked (m : Micro) (w : process) : bool :=
  negb (mi_allow_multiple m) && owns_global_state m &&
  existsb (fun a => match ps_apps w !! a with Some x => owns_global_state x | None => false end)
    (ps_active w).

(** [__aenter__] up to its first [await] *)
Definition app_enter (ctx a : nat) (m : Micro) (w : process) : outcome exn unit * process :=
  match mi_exit_stack m with
  | Some _ => (Raise (mk_exn OutOfContextError NoInfo), w)
  | None =>
      if app_blocked m w then (Raise (mk_exn MultipleActiveAppsError NoInfo), w)
      else
        match prepare provider_key (mi_strict m) (mi_items m) (ps_bindings w) with
        | Raise e =>
            (Raise e,
             set_app a (mkMicro (discover_shared_providers (ps_bindings w) (mi_items m)) (mi_strict m)
                          (mi_allow_multiple m) None (mi_token m) Idle)
               (set_active_apps (list_remove a (ps_active w ++ [a])) w))
        | Return (items, b) =>
            let w := mkProcess (ps_apps w) (ps_active w ++ [a]) (ps_current w) b (ps_log w) in
            (Return tt,
             set_current ctx (Some a)
               (set_app a (mkMicro items (mi_strict m) (mi_allow_multiple m) (Some [])
                             (Some (ctx, ps_current w !! ctx)) (Opening ctx items)) w))
        end
  end.

(** The [except BaseException] clause of [__aenter__], up to its [await]: the application is
    taken off the active list and the context variable is reset, then the items are closed. *)
Definition start_failed (a : nat) (m : Micro) (e : exn) (w : process) : process :=
  let w := set_active_apps (list_remove a (ps_active w)) w in
  let w := match mi_token m with Some (ctx, old) => set_current ctx old w | None => w end in
  set_app a (mkMicro (mi_items m) (mi_strict m) (mi_allow_multiple m) (mi_exit_stack m) None
               (Unwinding e (Some e) false)) w.

(** One item opens or fails to; after the last one, [_instrument_providers]. *)
Definition open_next (a ctx : nat) (rest : list item) (r : outcome exn unit) (m : Micro) (w : process) :
    process :=
  match r with
  | Raise e => start_failed a m e w
  | Return _ =>
      match rest with
      | it :: rest =>
          set_app a (with_phase (Opening ctx rest) (cons it <$> mi_exit_stack m) m)
            (log_event a (Opened it) w)
      | [] => set_app a (with_phase Running (mi_exit_stack m) m) w
      end
  end.

(** What one [__aexit__] of the exit stack does to the exception on its way. *)
Definition after_close (r : outcome exn bool) (e : option exn) (raised : bool) : option exn * bool :=
  match r with
  | Return true => (None, false)
  | Return false => (e, raised)
  | Raise e => (Some e, true)
  end.

(** Closing the item that was opened last, in either phase. *)
Definition close_next (a : nat) (it : item) (stack : list item) (r : outcome exn bool) (m : Micro)
    (w : process) : process :=
  let p := match mi_phase m with
           | Unwinding failure e raised =>
               let '(e, raised) := after_close r e raised in Unwinding failure e raised
           | Closing e raised => let '(e, raised) := after_close r e raised in Closing e raised
           | p => p
           end in
  set_app a (with_phase p (Some stack) m) (log_event a (Closed it) w).

(** The end of the [except] clause: when a closing item raised, [_exit_stack] is not reset. *)
Definition unwound (a : nat) (failure : exn) (e : option exn) (raised : bool) (m : Micro) (w : process) :
    exn * process :=
  (if raised then default failure e else failure,
   set_app a (with_phase Idle (if raised then mi_exit_stack m else None) m) w).

(** [__aexit__] up to its first [await] *)
Definition app_exit (a : nat) (e : option exn) (m : Micro) (w : process) : process :=
  set_app a (with_phase (Closing e false) (mi_exit_stack m) m) w.

(** The [finally] clause of [__aexit__], in the context [ctx]: resetting a token of another context
    raises, and what follows is not done. *)
Definition app_exited (a ctx : nat) (m : Micro) (w : process) : outcome exn unit * process :=
  let idle token stack := mkMicro (mi_items m) (mi_strict m) (mi_allow_multiple m) stack token Idle in
  match mi_token m with
  | Some (c, old) =>
      if bool_decide (c = ctx)
      then (Return tt,
            set_app a (idle None None)
              (set_active_apps (list_remove a (ps_active w)) (set_current ctx old w)))
      else (Raise (mk_exn ValueError NoInfo), set_app a (idle (mi_token m) (mi_exit_stack m)) w)
  | None =>
      (Return tt, set_app a (idle None None) (set_active_apps (list_remove a (ps_active w)) w))
  end.

(** The steps of all the applications and tasks; [AFork] is a task that is created, with a copy
    of the context of its creator. *)
Inductive app_step : process -> process -> Prop :=
| AFork w ctx ctx' :
    app_step w (set_current ctx' (ps_current w !! ctx) w)
| AEnter w ctx a m :
    ps_apps w !! a = Some m -> mi_phase m = Idle ->
    app_step w (app_enter ctx a m w).2
| AOpen w a m ctx rest r :
    ps_apps w !! a = Some m -> mi_phase m = Opening ctx rest ->
    app_step w (open_next a ctx rest r m w)
| AClose w a m it stack r :
    ps_apps w !! a = Some m -> mi_exit_stack m = Some (it :: stack) ->
    (match mi_phase m with Unwinding _ _ _ | Closing _ _ => True | _ => False end) ->
    app_step w (close_next a it stack r m w)
| AUnwound w a m failure e raised :
    ps_apps w !! a = Some m -> mi_phase m = Unwinding failure e raised -> mi_exit_stack m = Some [] ->
    app_step w (unwound a failure e raised m w).2
| AExit w a m e :
    ps_apps w !! a = Some m -> mi_phase m = Running ->
    app_step w (app_exit a e m w)
| AExited w a m ctx e raised :
    ps_apps w !! a = Some m -> mi_phase m = Closing e raised -> mi_exit_stack m = Some [] ->
    app_step w (app_exited a ctx m w).2.
End Process.

(** ** The items of an application *)

Lemma order_targets_perm b strict index ts items items' :
  order_targets b strict index ts items = Return items' -> items' ≡ₚ items.
Proof.
  revert items. induction ts as [|t ts IH]; intros items; simpl; [by intros [= ->]|].
  destruct (b !! t) as [[p [|]]|]; [apply IH| |apply IH]. unfold move_provider_ahead.
  pose proof (index_of_spec p items) as Hi. destruct (index_of p items) as [i|]; [|done].
  destruct (Nat.leb_spec i index) as [|Hlt]; [apply IH|]. destruct strict; [done|].
  destruct Hi as (x & Hx & _). intros H. rewrite (IH _ H). by eapply (moved_items index i items x).
Qed.

Lemma order_loop_perm b strict fuel index items items' :
  order_loop b strict fuel index items = Return items' -> items' ≡ₚ items.
Proof.
  revert index items. induction fuel as [|fuel IH]; intros index items; simpl; [by intros [= ->]|].
  destruct (items !! index) as [it|]; [|by intros [= ->]].
  destruct (order_targets _ _ _ _ _) as [l|] eqn:E; [|done]. intros H.
  rewrite (IH _ _ H). by eapply order_targets_perm.
Qed.

Section Invariants.
Context (provider_key : nat -> string * string) (refine : item -> option bool).

Abbreviation owns := (owns_global_state refine).
Abbreviation step := (app_step provider_key refine).

Lemma existsb_perm {A} (f : A -> bool) l l' : l ≡ₚ l' -> existsb f l = existsb f l'.
Proof.
  induction 1 as [|x l l' _ IH|x y l|l1 l2 l3 _ IH1 _ IH2]; simpl; [done|by rewrite IH| |by rewrite IH1].
  by rewrite !orb_assoc, (orb_comm (f x)).
Qed.

Lemma discover_owns b items :
  existsb (item_owns_global_state refine) (discover_shared_providers b items) =
  existsb (item_owns_global_state refine) items.
Proof.
  unfold discover_shared_providers.
  destruct (discover_items_perm b (it_id <$> items) items) as (found & Hp & _ & _).
  rewrite (existsb_perm _ _ _ Hp), existsb_app.
  assert (existsb (item_owns_global_state refine) (provider_item <$> found) = false) as ->; [|done].
  clear. by induction found.
Qed.

Lemma prepare_owns strict items b items' b' :
  prepare provider_key strict items b = Return (items', b') ->
  existsb (item_owns_global_state refine) items' = existsb (item_owns_global_state refine) items.
Proof.
  unfold prepare. destruct (order_providers_before_dependents _ _ _) as [l|] eqn:E; [|done].
  intros [= <- _]. rewrite <- (discover_owns b items). apply existsb_perm.
  by eapply order_loop_perm.
Qed.

(** What an application owns and allows, by its number. *)
Definition app_owns (w : process) (a : nat) : bool := from_option owns false (ps_apps w !! a).
Definition app_allows (w : process) (a : nat) : bool :=
  from_option mi_allow_multiple false (ps_apps w !! a).

Definition same_config (w w' : process) : Prop :=
  forall a, app_owns w' a = app_owns w a /\ app_allows w' a = app_allows w a.

Lemma set_app_config a m m' w w' :
  ps_apps w !! a = Some m -> ps_apps w' = <[a := m']> (ps_apps w) ->
  owns m' = owns m -> mi_allow_multiple m' = mi_allow_multiple m -> same_config w w'.
Proof.
  intros Ha E Ho Hm c. unfold app_owns, app_allows. rewrite E.
  destruct (decide (a = c)) as [<-|Hne].
  - by rewrite lookup_insert_eq, Ha.
  - by rewrite lookup_insert_ne.
Qed.

Lemma step_same_config w w' : step w w' -> same_config w w'.
Proof.
  intros [w0 ctx ctx'|w0 ctx a m Ha _|w0 a m ctx rest r Ha _|w0 a m it st r Ha _ _
    |w0 a m f e raised Ha _ _|w0 a m e Ha _|w0 a m ctx e raised Ha _ _].
  - done.
  - unfold app_enter. destruct (mi_exit_stack m); [done|]. destruct (app_blocked _ _ _); [done|].
    destruct (prepare _ _ _ _) as [[items b]|e] eqn:E; simpl.
    + apply prepare_owns in E. by eapply (set_app_config a m).
    + eapply (set_app_config a m); [done|done| |done]. apply discover_owns.
  - unfold open_next, start_failed. destruct r as [_|e]; [destruct rest; by eapply (set_app_config a m)|].
    destruct (mi_token m) as [[c old]|]; by eapply (set_app_config a m).
  - by eapply (set_app_config a m).
  - by eapply (set_app_config a m).
  - by eapply (set_app_config a m).
  - unfold app_exited. destruct (mi_token m) as [[c old]|]; [case_bool_decide|];
      by eapply (set_app_config a m).
Qed.

(** ** The active list *)

Lemma elem_of_list_remove a x l : NoDup l -> (x ∈ list_remove a l) <-> x <> a /\ x ∈ l.
Proof.
  induction l as [|y l IH]; intros Hnd; simpl.
  { split; [by intros ?%elem_of_nil|by intros [_ ?%elem_of_nil]]. }
  apply NoDup_cons in Hnd as [Hy Hnd]. case_bool_decide as Hya.
  - subst y. rewrite elem_of_cons. split.
    + intros Hx. split; [by intros ->|by right].
    + by intros [Hx [?|?]].
  - rewrite !elem_of_cons, (IH Hnd). naive_solver.
Qed.

Lemma list_remove_nodup a l : NoDup l -> NoDup (list_remove a l).
Proof.
  induction l as [|y l IH]; intros Hnd; simpl; [done|].
  apply NoDup_cons in Hnd as [Hy Hnd]. case_bool_decide; [done|].
  constructor; [|by apply IH]. rewrite elem_of_list_remove by done. by intros [_ ?].
Qed.

Lemma list_remove_forall {P : nat -> Prop} a l : Forall P l -> Forall P (list_remove a l).
Proof. induction 1; simpl; [constructor|]. case_bool_decide; [done|by constructor]. Qed.

Lemma list_remove_sorted {R : nat -> nat -> Prop} a l :
  StronglySorted R l -> StronglySorted R (list_remove a l).
Proof.
  induction 1; simpl; [constructor|]. case_bool_decide; [done|].
  constructor; [done|by apply list_remove_forall].
Qed.

Lemma list_remove_snoc a l : a ∉ l -> list_remove a (l ++ [a]) = l.
Proof.
  induction l as [|y l IH]; simpl; intros Ha; [by rewrite bool_decide_eq_true_2|].
  apply not_elem_of_cons in Ha as [Hy Ha]. rewrite bool_decide_eq_false_2 by done. by rewrite IH.
Qed.

(** Of two active applications with process-global state, the one that entered later was
    allowed to. *)
Definition may_follow (w : process) (a b : nat) : Prop :=
  app_owns w a = true -> app_owns w b = true -> app_allows w b = true.

Lemma may_follow_config w w' l :
  same_config w w' -> StronglySorted (may_follow w) l -> StronglySorted (may_follow w') l.
Proof.
  intros Hc. induction 1 as [|a l _ IH Ha]; constructor; [done|].
  eapply Forall_impl; [exact Ha|]. intros b. unfold may_follow.
  destruct (Hc a) as [-> _], (Hc b) as [-> ->]. done.
Qed.

(** ** The exit stack *)

(** The items that are open after a history, first the one opened last; [None] when something is
    closed that was not opened last. *)
Definition replay_event (s : option (list item)) (e : lifecycle_event) : option (list item) :=
  match e with
  | Opened it => cons it <$> s
  | Closed it => match s with
                 | Some (x :: s) => if bool_decide (x = it) then Some s else None
                 | _ => None
                 end
  end.

Definition replay_log (l : list lifecycle_event) : option (list item) := foldl replay_event (Some []) l.

Definition log_of (a : nat) (w : process) : list lifecycle_event :=
  (List.filter (fun e => bool_decide (e.1 = a)) (ps_log w)).*2.

Lemma log_of_tagged (a c : nat) (es : list lifecycle_event) :
  (List.filter (fun e => bool_decide (e.1 = c)) ((fun e => (a, e)) <$> es)).*2 =
  if bool_decide (c = a) then es else [].
Proof.
  induction es as [|e es IH]; [by case_bool_decide|]. rewrite fmap_cons. cbn [List.filter fst].
  destruct (decide (a = c)) as [->|Hne].
  - rewrite bool_decide_eq_true_2 in * by done. rewrite fmap_cons, IH. done.
  - rewrite (bool_decide_eq_false_2 (a = c)), IH, !bool_decide_eq_false_2; congruence.
Qed.

Definition phase_ok (active : bool) (m : Micro) : Prop :=
  match mi_phase m with
  | Idle => (mi_exit_stack m = None /\ active = false) \/ mi_exit_stack m = Some []
  | Opening _ rest => active = true /\ exists s, mi_exit_stack m = Some s /\ rev s ++ rest = mi_items m
  | Running => active = true /\ mi_exit_stack m = Some (rev (mi_items m))
  | Unwinding _ _ _ => active = false /\ exists s, mi_exit_stack m = Some s /\ forall it, it ∈ s -> it ∈ mi_items m
  | Closing _ _ => active = true /\ exists s, mi_exit_stack m = Some s /\ forall it, it ∈ s -> it ∈ mi_items m
  end.

Record app_inv (w : process) : Prop := {
  ai_nodup : NoDup (ps_active w);
  ai_order : StronglySorted (may_follow w) (ps_active w);
  ai_phase : forall a m, ps_apps w !! a = Some m ->
    phase_ok (bool_decide (a ∈ ps_active w)) m /\
    replay_log (log_of a w) = Some (default [] (mi_exit_stack m));
  ai_none : forall a, ps_apps w !! a = None -> (a ∉ ps_active w) /\ log_of a w = [];
}.

(** A step of the application [a]. *)
Lemma app_inv_update a m' w w' events :
  app_inv w -> same_config w w' ->
  ps_apps w' = <[a := m']> (ps_apps w) ->
  NoDup (ps_active w') -> StronglySorted (may_follow w) (ps_active w') ->
  (forall c, c <> a -> (c ∈ ps_active w') <-> c ∈ ps_active w) ->
  ps_log w' = ps_log w ++ ((fun e => (a, e)) <$> events) ->
  phase_ok (bool_decide (a ∈ ps_active w')) m' ->
  foldl replay_event (replay_log (log_of a w)) events = Some (default [] (mi_exit_stack m')) ->
  app_inv w'.
Proof.
  intros Hw Hc Ha Hnd Hord Hact Hlog Hph Hre.
  assert (forall c, log_of c w' = log_of c w ++ (if bool_decide (c = a) then events else [])) as Hl.
  { intros c. unfold log_of. by rewrite Hlog, List.filter_app, fmap_app, log_of_tagged. }
  constructor; [done|by eapply may_follow_config| |].
  - intros c m Hm. rewrite Ha in Hm. rewrite Hl. destruct (decide (c = a)) as [->|Hne].
    + rewrite lookup_insert_eq in Hm. simplify_eq. split; [done|].
      rewrite bool_decide_eq_true_2 by done. unfold replay_log. by rewrite foldl_app.
    + rewrite lookup_insert_ne in Hm by done. destruct (ai_phase _ Hw c m Hm) as [Hp Hr].
      rewrite (bool_decide_eq_false_2 (c = a)) by done. rewrite app_nil_r. split; [|done].
      by rewrite (bool_decide_ext _ (c ∈ ps_active w)) by by apply Hact.
  - intros c Hm. rewrite Ha in Hm. destruct (decide (c = a)) as [->|Hne].
    { by rewrite lookup_insert_eq in Hm. }
    rewrite lookup_insert_ne in Hm by done. destruct (ai_none _ Hw c Hm) as [Hn He].
    rewrite Hl, He, bool_decide_eq_false_2 by done. split; [|done]. by rewrite Hact.
Qed.

(** A step that keeps the active list. *)
Lemma app_inv_keep a m m' w w' events :
  app_inv w -> same_config w w' -> ps_apps w !! a = Some m ->
  ps_apps w' = <[a := m']> (ps_apps w) -> ps_active w' = ps_active w ->
  ps_log w' = ps_log w ++ ((fun e => (a, e)) <$> events) ->
  phase_ok (bool_decide (a ∈ ps_active w)) m' ->
  foldl replay_event (Some (default [] (mi_exit_stack m))) events = Some (default [] (mi_exit_stack m')) ->
  app_inv w'.
Proof.
  intros Hw Hc Hm Ha Hact Hlog Hph Hre. destruct (ai_phase _ Hw a m Hm) as [_ Hr].
  eapply (app_inv_update a m' w w' events); try done.
  - rewrite Hact. apply Hw.
  - rewrite Hact. apply Hw.
  - by rewrite Hact.
  - by rewrite Hact.
  - by rewrite Hr.
Qed.

(** A step that takes the application off the active list. *)
Lemma app_inv_leave a m m' w w' :
  app_inv w -> same_config w w' -> ps_apps w !! a = Some m ->
  ps_apps w' = <[a := m']> (ps_apps w) -> ps_active w' = list_remove a (ps_active w) ->
  ps_log w' = ps_log w -> phase_ok false m' ->
  default [] (mi_exit_stack m') = default [] (mi_exit_stack m) ->
  app_inv w'.
Proof.
  intros Hw Hc Hm Ha Hact Hlog Hph Hst. destruct (ai_phase _ Hw a m Hm) as [_ Hr].
  pose proof (ai_nodup _ Hw) as Hnd.
  eapply (app_inv_update a m' w w' []); try done.
  - rewrite Hact. by apply list_remove_nodup.
  - rewrite Hact. apply list_remove_sorted, Hw.
  - intros c Hne. rewrite Hact, elem_of_list_remove by done. naive_solver.
  - by rewrite Hlog, app_nil_r.
  - rewrite Hact, bool_decide_eq_false_2; [done|]. rewrite elem_of_list_remove by done. by intros [? _].
  - simpl. by rewrite Hr, Hst.
Qed.

Lemma enter_inv ctx a m w :
  ps_apps w !! a = Some m -> mi_phase m = Idle -> app_inv w ->
  app_inv (app_enter provider_key refine ctx a m w).2.
Proof.
  intros Hm Hph Hw. destruct (ai_phase _ Hw a m Hm) as [Hok Hr]. unfold phase_ok in Hok. rewrite Hph in Hok.
  pose proof (step_same_config _ _ (AEnter provider_key refine w ctx a m Hm Hph)) as Hc.
  unfold app_enter in *. destruct (mi_exit_stack m) as [st|] eqn:Est; [done|].
  destruct Hok as [[_ Hact]|]; [|done]. apply bool_decide_eq_false in Hact.
  destruct (app_blocked refine m w) eqn:Eb; [done|].
  destruct (prepare _ _ _ _) as [[items b]|e] eqn:Ep; simpl in *.
  - eapply (app_inv_update a _ w _ []); [done|done|simpl; reflexivity|simpl|simpl|simpl|simpl|simpl|simpl].
    + apply NoDup_app. split; [apply Hw|]. split; [|apply NoDup_singleton].
      intros x Hx ->%list_elem_of_singleton. done.
    + apply StronglySorted_app. split; [|split; [apply Hw|repeat constructor]].
      intros x y Hx ->%list_elem_of_singleton Hox Hoa.
      unfold app_owns, app_allows in *. rewrite Hm in Hoa |- *. simpl in *.
      unfold app_blocked in Eb. rewrite Hoa in Eb. destruct (mi_allow_multiple m); [done|]. simpl in Eb.
      exfalso. apply not_true_iff_false in Eb. apply Eb, existsb_exists. exists x.
      split; [by apply list_elem_of_In|]. by destruct (ps_apps w !! x).
    + intros c Hne. rewrite elem_of_app, list_elem_of_singleton. naive_solver.
    + by rewrite app_nil_r.
    + unfold phase_ok. simpl. rewrite bool_decide_eq_true_2 by (apply elem_of_app; right; by left).
      split; [done|]. by exists [].
    + by rewrite Hr.
  - rewrite list_remove_snoc in * by done. eapply (app_inv_keep a m _ w _ []); try done.
    + by rewrite app_nil_r.
    + unfold phase_ok. simpl. left. split; [done|]. by apply bool_decide_eq_false_2.
    + simpl. by rewrite Est.
Qed.

Lemma open_inv a ctx rest r m w :
  ps_apps w !! a = Some m -> mi_phase m = Opening ctx rest -> app_inv w ->
  app_inv (open_next a ctx rest r m w).
Proof.
  intros Hm Hph Hw. destruct (ai_phase _ Hw a m Hm) as [Hok Hr]. unfold phase_ok in Hok. rewrite Hph in Hok.
  destruct Hok as [Hact (s & Est & Hs)].
  pose proof (step_same_config _ _ (AOpen provider_key refine w a m ctx rest r Hm Hph)) as Hc.
  unfold open_next in *. destruct r as [[]|e].
  - destruct rest as [|it rest].
    + eapply (app_inv_keep a m _ w _ []); try done; simpl; [by rewrite app_nil_r|].
      unfold phase_ok. simpl. rewrite app_nil_r in Hs. split; [done|].
      by rewrite Est, <- Hs, rev_involutive.
    + eapply (app_inv_keep a m _ w _ [Opened it]); try done; simpl.
      * unfold phase_ok. simpl. split; [done|]. rewrite Est. exists (it :: s). split; [done|].
        simpl. by rewrite <- app_assoc.
      * by rewrite Est.
  - unfold start_failed in *.
    assert (phase_ok false (mkMicro (mi_items m) (mi_strict m) (mi_allow_multiple m) (mi_exit_stack m) None
      (Unwinding e (Some e) false))) as Hp.
    { unfold phase_ok. simpl. split; [done|]. exists s. split; [done|]. intros it Hit.
      rewrite <- Hs. apply elem_of_app. left. by rewrite list_elem_of_In, <- in_rev, <- list_elem_of_In. }
    destruct (mi_token m) as [[c old]|]; by eapply (app_inv_leave a m).
Qed.

Lemma close_inv a it st r m w :
  ps_apps w !! a = Some m -> mi_exit_stack m = Some (it :: st) ->
  (match mi_phase m with Unwinding _ _ _ | Closing _ _ => True | _ => False end) -> app_inv w ->
  app_inv (close_next a it st r m w).
Proof.
  intros Hm Hst Hph Hw. destruct (ai_phase _ Hw a m Hm) as [Hok Hr]. unfold phase_ok in Hok.
  pose proof (step_same_config _ _ (AClose provider_key refine w a m it st r Hm Hst Hph)) as Hc.
  unfold close_next in *.
  eapply (app_inv_keep a m _ w _ [Closed it]); [done|done|done|simpl; reflexivity|done|done| |].
  - unfold phase_ok. simpl. destruct (mi_phase m) as [| | |f e raised|e raised]; try done;
      destruct (after_close r e raised) as [e' raised']; destruct Hok as [Hact (s & Hs & Hin)];
      rewrite Hs in Hst; simplify_eq; (split; [done|]); exists st; (split; [done|]);
      intros x Hx; apply Hin; by right.
  - rewrite Hst. simpl. by rewrite bool_decide_eq_true_2.
Qed.

Lemma app_step_inv w w' : step w w' -> app_inv w -> app_inv w'.
Proof.
  intros Hstep Hw. pose proof (step_same_config _ _ Hstep) as Hc. destruct Hstep as [w0 ctx ctx'|w0 ctx a m Ha Hp|w0 a m ctx rest r Ha Hp
    |w0 a m it st r Ha Hs Hp|w0 a m f e raised Ha Hp Hs|w0 a m e Ha Hp|w0 a m ctx e raised Ha Hp Hs].
  - by destruct Hw.
  - by apply enter_inv.
  - by apply open_inv.
  - by apply close_inv.
  - destruct (ai_phase _ Hw a m Ha) as [Hok _].
    unfold phase_ok in Hok. rewrite Hp in Hok. destruct Hok as [Hact _].
    eapply (app_inv_keep a m _ w0 _ []); [done|exact Hc|done|done|done|simpl; by rewrite app_nil_r| |].
    + unfold phase_ok. simpl. destruct raised; [by right|by left].
    + simpl. rewrite Hs. by destruct raised; rewrite ?Hs.
  - destruct (ai_phase _ Hw a m Ha) as [Hok _].
    unfold phase_ok in Hok. rewrite Hp in Hok. destruct Hok as [Hact Hst].
    eapply (app_inv_keep a m _ w0 _ []); [done|exact Hc|done|done|done|simpl; by rewrite app_nil_r| |done].
    unfold phase_ok. simpl. split; [done|]. exists (rev (mi_items m)). split; [done|].
    intros it Hit. by rewrite list_elem_of_In, in_rev, <- list_elem_of_In.
  - destruct (ai_phase _ Hw a m Ha) as [Hok _].
    clear Hok. unfold app_exited in *. destruct (mi_token m) as [[c old]|]; [case_bool_decide|]; simpl in *.
    + eapply (app_inv_leave a m); [done|exact Hc|done|done|done|done| |by rewrite Hs].
      by left.
    + eapply (app_inv_keep a m _ w0 _ []); [done|exact Hc|done|done|done|simpl; by rewrite app_nil_r| |done].
      by right.
    + eapply (app_inv_leave a m); [done|exact Hc|done|done|done|done| |by rewrite Hs].
      by left.
Qed.

(** A process whose applications were constructed and not entered. *)
Definition fresh_process (w : process) : Prop :=
  ps_active w = [] /\ ps_log w = [] /\
  forall a m, ps_apps w !! a = Some m -> mi_phase m = Idle /\ mi_exit_stack m = None.

Lemma reachable_inv w0 w : fresh_process w0 -> rtc step w0 w -> app_inv w.
Proof.
  intros (Hact & Hlog & Hm) Hrun. eapply (invariant_rtc _ app_inv app_step_inv); [done|].
  constructor; rewrite ?Hact; [constructor|constructor| |].
  - intros a m Ha. destruct (Hm a m Ha) as [Hp Hs]. unfold phase_ok, log_of. rewrite Hp, Hs, Hlog.
    split; [|done]. by left.
  - intros a _. unfold log_of. rewrite Hlog. split; [apply not_elem_of_nil|done].
Qed.

Lemma sorted_either {R : nat -> nat -> Prop} l x y :
  StronglySorted R l -> x ∈ l -> y ∈ l -> x <> y -> R x y \/ R y x.
Proof.
  induction 1 as [|z l _ IH Hz]; [by intros ?%elem_of_nil|]. rewrite Forall_forall in Hz.
  intros [->|Hx]%elem_of_cons [->|Hy]%elem_of_cons Hne; auto. done.
Qed.

Definition holds_global (m : Micro) : Prop :=
  exists it, it ∈ default [] (mi_exit_stack m) /\ item_owns_global_state refine it = true.

Lemma holder_active w a m :
  app_inv w -> ps_apps w !! a = Some m -> holds_global m ->
  (match mi_phase m with Unwinding _ _ _ => False | _ => True end) ->
  a ∈ ps_active w /\ app_owns w a = true.
Proof.
  intros Hw Hm (it & Hit & Hown) Hp. destruct (ai_phase _ Hw a m Hm) as [Hok _].
  unfold phase_ok in Hok. unfold app_owns. rewrite Hm. simpl. unfold owns_global_state.
  assert (bool_decide (a ∈ ps_active w) = true /\ it ∈ mi_items m) as [Hact Hin].
  { destruct (mi_phase m); try done.
    - destruct Hok as [[Hs _]|Hs]; rewrite Hs in Hit; by apply elem_of_nil in Hit.
    - destruct Hok as [Hact (s & Hs & Hitems)]. rewrite Hs in Hit. split; [done|]. rewrite <- Hitems.
      apply elem_of_app. left. by rewrite list_elem_of_In, <- in_rev, <- list_elem_of_In.
    - destruct Hok as [Hact Hs]. rewrite Hs in Hit. split; [done|].
      by rewrite list_elem_of_In, in_rev, <- list_elem_of_In.
    - destruct Hok as [Hact (s & Hs & Hitems)]. rewrite Hs in Hit. split; [done|]. by apply Hitems. }
  split; [by apply bool_decide_eq_true in Hact|]. apply existsb_exists. exists it.
  split; [by apply list_elem_of_In|done].
Qed.

(** Process-global state has one owner.  However the applications of a process are entered,
    left and fail, by any number of tasks: two applications that both hold an open [Log],
    [Trace] or other item of process-global state, neither of them unwinding a failed start,
    only exist when one of them was built with [allow_multiple]. *)
Lemma one_global_app (w0 w : process) (a b : nat) (ma mb : Micro)
    (Hfresh : fresh_process w0) (Hrun : rtc (app_step provider_key refine) w0 w)
    (Hne : a <> b) (Ha : ps_apps w !! a = Some ma) (Hb : ps_apps w !! b = Some mb)
    (Hpa : match mi_phase ma with Unwinding _ _ _ => False | _ => True end)
    (Hpb : match mi_phase mb with Unwinding _ _ _ => False | _ => True end)
    (Hga : holds_global ma) (Hgb : holds_global mb) :
  mi_allow_multiple ma = true \/ mi_allow_multiple mb = true.
Proof.
  pose proof (reachable_inv w0 w Hfresh Hrun) as Hw.
  destruct (holder_active w a ma Hw Ha Hga Hpa) as [Hact Hoa].
  destruct (holder_active w b mb Hw Hb Hgb Hpb) as [Hbct Hob].
  destruct (sorted_either _ a b (ai_order _ Hw) Hact Hbct Hne) as [H|H];
    [specialize (H Hoa Hob)|specialize (H Hob Hoa)]; unfold app_allows in H;
    rewrite ?Ha, ?Hb in H; auto.
Qed.

(** Items are closed in the reverse of the order in which they were opened.  Whatever fails on
    the way in or out, and whatever the applications of the process do meanwhile: what an
    application has open is exactly what its history opened and has not closed, every item it
    closes is the one opened last, and an application that is not entered has nothing open;
    while it runs, every one of its items is open. *)
Lemma items_close_in_reverse (w0 w : process) (a : nat) (m : Micro)
    (Hfresh : fresh_process w0) (Hrun : rtc (app_step provider_key refine) w0 w)
    (Ha : ps_apps w !! a = Some m) :
  replay_log (log_of a w) = Some (default [] (mi_exit_stack m)) /\
  match mi_phase m with
  | Idle => replay_log (log_of a w) = Some []
  | Opening _ rest => exists s, replay_log (log_of a w) = Some s /\ rev s ++ rest = mi_items m
  | Running => replay_log (log_of a w) = Some (rev (mi_items m))
  | _ => True
  end.
Proof.
  pose proof (reachable_inv w0 w Hfresh Hrun) as Hw.
  destruct (ai_phase _ Hw a m Ha) as [Hok Hr]. split; [done|]. unfold phase_ok in Hok. rewrite Hr.
  destruct (mi_phase m); try done.
  - by destruct Hok as [[-> _]| ->].
  - destruct Hok as [_ (s & -> & Hs)]. eauto.
  - by destruct Hok as [_ ->].
Qed.
End Invariants.

(** Two applications with a [Log], the second one built with [allow_multiple]. *)
Definition log_item (id : nat) : item :=
  mkItem id (ComponentItem "log" "default" true) None None None None.
Definition idle_app (items : list item) (allow_multiple : bool) : Micro :=
  mkMicro items false allow_multiple None None Idle.
Definition no_key (_ : nat) : string * string := ("", "").
Definition no_refine (_ : item) : option bool := None.
Definition two_logs (allow : bool) : process :=
  mkProcess (<[0 := idle_app [log_item 10; mkItem 11 PlainItem None None None None] false]>
    (<[1 := idle_app [log_item 12] allow]> ∅)) [] ∅ ∅ [].

Lemma two_logs_fresh allow : fresh_process (two_logs allow).
Proof.
  split; [done|]. split; [done|]. intros a m H. unfold two_logs in H. simpl in H.
  apply lookup_insert_Some in H as [[_ <-]|[_ H]]; [done|].
  apply lookup_insert_Some in H as [[_ <-]|[_ H]]; [done|]. by rewrite lookup_empty in H.
Qed.

(** An application is entered in the context 0, and opens its next item. *)
Definition enters_app (a : nat) (w : process) : process :=
  match ps_apps w !! a with Some m => (app_enter no_key no_refine 0 a m w).2 | None => w end.
Definition opens_next (a : nat) (r : outcome exn unit) (w : process) : process :=
  match ps_apps w !! a with
  | Some m => match mi_phase m with Opening c rest => open_next a c rest r m w | _ => w end
  | None => w
  end.

Abbreviation run_apps := (rtc (app_step no_key no_refine)).

Lemma enter_run a w m :
  ps_apps w !! a = Some m -> mi_phase m = Idle -> run_apps w (enters_app a w).
Proof. intros Hm Hp. unfold enters_app. rewrite Hm. apply rtc_once. by apply AEnter. Qed.

Lemma opens_next_run a r w : run_apps w (opens_next a r w).
Proof.
  unfold opens_next. destruct (ps_apps w !! a) as [m|] eqn:Hm; [|done].
  destruct (mi_phase m) eqn:Hp; try done. apply rtc_once. by apply AOpen.
Qed.

Definition both_open : process :=
  opens_next 1 (Return tt) (enters_app 1 (opens_next 0 (Return tt) (enters_app 0 (two_logs true)))).

Lemma both_open_run : run_apps (two_logs true) both_open.
Proof.
  etrans; [by eapply (enter_run 0)|]. etrans; [apply (opens_next_run 0 (Return tt))|].
  etrans; [by eapply (enter_run 1)|]. apply opens_next_run.
Qed.

Lemma one_global_app_witness :
  exists ma mb, ps_apps both_open !! 0 = Some ma /\ ps_apps both_open !! 1 = Some mb /\
    holds_global no_refine ma /\ holds_global no_refine mb /\
    (mi_allow_multiple ma = true \/ mi_allow_multiple mb = true).
Proof.
  eexists _, _. split; [reflexivity|]. split; [reflexivity|].
  split; [exists (log_item 10); split; [by left|done]|].
  split; [exists (log_item 12); split; [by left|done]|].
  eapply (one_global_app no_key no_refine (two_logs true) both_open 0 1);
    [apply two_logs_fresh|apply both_open_run|done|reflexivity|reflexivity|done|done| |].
  - exists (log_item 10). split; [by left|done].
  - exists (log_item 12). split; [by left|done].
Defined.

Lemma items_close_in_reverse_witness :
  exists m, ps_apps both_open !! 0 = Some m /\
    replay_log (log_of 0 both_open) = Some (default [] (mi_exit_stack m)).
Proof.
  eexists. split; [reflexivity|].
  apply (items_close_in_reverse no_key no_refine (two_logs true) both_open 0).
  - apply two_logs_fresh.
  - apply both_open_run.
  - reflexivity.
Defined.

(** ** Where it goes wrong *)

Definition closes_next (a : nat) (r : outcome exn bool) (w : process) : process :=
  match ps_apps w !! a with
  | Some m => match mi_exit_stack m, mi_phase m with
              | Some (it :: st), Unwinding _ _ _ | Some (it :: st), Closing _ _ => close_next a it st r m w
              | _, _ => w
              end
  | None => w
  end.
Definition ends_unwinding (a : nat) (w : process) : process :=
  match ps_apps w !! a with
  | Some m => match mi_exit_stack m, mi_phase m with
              | Some [], Unwinding f e raised => (unwound a f e raised m w).2
              | _, _ => w
              end
  | None => w
  end.
Definition leaves_app (a : nat) (w : process) : process :=
  match ps_apps w !! a with
  | Some m => match mi_phase m with Running => app_exit a None m w | _ => w end
  | None => w
  end.
Definition has_left (a ctx : nat) (w : process) : process :=
  match ps_apps w !! a with
  | Some m => match mi_exit_stack m, mi_phase m with
              | Some [], Closing _ _ => (app_exited a ctx m w).2
              | _, _ => w
              end
  | None => w
  end.

Lemma closes_next_run a r w : run_apps w (closes_next a r w).
Proof.
  unfold closes_next. destruct (ps_apps w !! a) as [m|] eqn:Hm; [|done].
  destruct (mi_exit_stack m) as [[|it st]|] eqn:Hs; try done.
  destruct (mi_phase m) eqn:Hp; try done; apply rtc_once; apply AClose; rewrite ?Hp; done.
Qed.

Lemma ends_unwinding_run a w : run_apps w (ends_unwinding a w).
Proof.
  unfold ends_unwinding. destruct (ps_apps w !! a) as [m|] eqn:Hm; [|done].
  destruct (mi_exit_stack m) as [[|it st]|] eqn:Hs; try done.
  destruct (mi_phase m) eqn:Hp; try done. apply rtc_once. by apply AUnwound.
Qed.

Lemma leaves_app_run a w : run_apps w (leaves_app a w).
Proof.
  unfold leaves_app. destruct (ps_apps w !! a) as [m|] eqn:Hm; [|done].
  destruct (mi_phase m) eqn:Hp; try done. apply rtc_once. by apply AExit.
Qed.

Lemma has_left_run a ctx w : run_apps w (has_left a ctx w).
Proof.
  unfold has_left. destruct (ps_apps w !! a) as [m|] eqn:Hm; [|done].
  destruct (mi_exit_stack m) as [[|it st]|] eqn:Hs; try done.
  destruct (mi_phase m) eqn:Hp; try done. apply rtc_once. by eapply AExited.
Qed.

Definition open_error : exn := mk_exn OSError NoInfo.

(** The second item of the first application fails to open. *)
Definition failed_start : process :=
  opens_next 0 (Raise open_error) (opens_next 0 (Return tt) (enters_app 0 (two_logs false))).

Lemma failed_start_run : run_apps (two_logs false) failed_start.
Proof.
  etrans; [by eapply (enter_run 0)|]. etrans; [apply (opens_next_run 0 (Return tt))|].
  apply opens_next_run.
Qed.

(** A failed start takes the application off the active list before its items are closed, so
    another application with a [Log] starts while the first [Log] is still open, although neither
    was built with [allow_multiple]. *)
Lemma failed_start_frees_the_guard :
  exists w ma mb, run_apps (two_logs false) w /\
    ps_apps w !! 0 = Some ma /\ ps_apps w !! 1 = Some mb /\
    mi_exit_stack ma = Some [log_item 10] /\ mi_exit_stack mb = Some [log_item 12] /\
    mi_allow_multiple ma = false /\ mi_allow_multiple mb = false.
Proof.
  exists (opens_next 1 (Return tt) (enters_app 1 failed_start)). eexists _, _. split.
  - etrans; [apply failed_start_run|]. etrans; [by eapply (enter_run 1)|]. apply opens_next_run.
  - repeat split; reflexivity.
Qed.

(** When an item also fails to close, the exit stack of the application is not reset, and the
    application can never be entered again. *)
Lemma failed_unwinding_sticks :
  exists w m, run_apps (two_logs false) w /\ ps_apps w !! 0 = Some m /\ mi_phase m = Idle /\
    forall ctx w', ps_apps w' !! 0 = Some m ->
      app_enter no_key no_refine ctx 0 m w' = (Raise (mk_exn OutOfContextError NoInfo), w').
Proof.
  exists (ends_unwinding 0 (closes_next 0 (Raise open_error) failed_start)). eexists. split.
  - etrans; [apply failed_start_run|]. etrans; [apply (closes_next_run 0 (Raise open_error))|].
    apply ends_unwinding_run.
  - split; [reflexivity|]. split; [reflexivity|]. done.
Qed.

(** The first application, running. *)
Definition running_app : process :=
  opens_next 0 (Return tt) (opens_next 0 (Return tt) (opens_next 0 (Return tt) (enters_app 0 (two_logs true)))).
Definition closed_app (w : process) : process :=
  closes_next 0 (Return false) (closes_next 0 (Return false) (leaves_app 0 w)).

Lemma running_app_run : run_apps (two_logs true) running_app.
Proof.
  etrans; [by eapply (enter_run 0)|]. etrans; [apply (opens_next_run 0 (Return tt))|].
  etrans; [apply (opens_next_run 0 (Return tt))|]. apply opens_next_run.
Qed.

Lemma closed_app_run w : run_apps w (closed_app w).
Proof.
  etrans; [apply (leaves_app_run 0)|]. etrans; [apply (closes_next_run 0 (Return false))|].
  apply closes_next_run.
Qed.

(** Left by a task with another context than the one that entered: the token cannot be reset, and
    the application stays on the active list with its exit stack set. *)
Lemma exit_in_other_context_sticks :
  exists w m, run_apps (two_logs true) w /\ ps_apps w !! 0 = Some m /\ mi_phase m = Idle /\
    mi_exit_stack m = Some [] /\ ps_active w = [0].
Proof.
  exists (has_left 0 1 (closed_app running_app)). eexists. split.
  - etrans; [apply running_app_run|]. etrans; [apply closed_app_run|]. apply has_left_run.
  - repeat split; reflexivity.
Qed.

(** Two applications whose blocks overlap in one task without nesting: after the first is left
    nothing is current although the second is running, and after both are left the first, which
    is closed, is current. *)
Lemma overlapping_blocks_lose_current :
  exists w1 w2, run_apps (two_logs true) w1 /\ run_apps w1 w2 /\
    ps_active w1 = [1] /\ current 0 w1 = Raise (mk_exn NoActiveAppError NoInfo) /\
    ps_active w2 = [] /\ current 0 w2 = Return 0.
Proof.
  set (w0 := opens_next 1 (Return tt) (opens_next 1 (Return tt) (enters_app 1 running_app))).
  set (w1 := has_left 0 0 (closed_app w0)).
  exists w1, (has_left 1 0 (closes_next 1 (Return false) (leaves_app 1 w1))). split; [|split].
  - etrans; [apply running_app_run|]. etrans; [by eapply (enter_run 1)|].
    etrans; [apply (opens_next_run 1 (Return tt))|]. etrans; [apply (opens_next_run 1 (Return tt))|].
    etrans; [apply closed_app_run|]. apply has_left_run.
  - etrans; [apply (leaves_app_run 1)|]. etrans; [apply (closes_next_run 1 (Return false))|].
    apply has_left_run.
  - repeat split; reflexivity.
Qed.

(** ** Overrides *)

(** One turn of the loop of [override]; the component opens as [r] says. *)
Definition override_install (c : item) (kind name : string) (a : Grelmicro) : Grelmicro :=
  mkApp (if bool_decide (c ∈ ap_items a) then ap_items a else ap_items a ++ [c])
    (dict_set (kind, name) c (ap_by_key a))
    (if bool_decide (name = "default") then <[kind := c]> (ap_by_kind a) else ap_by_kind a)
    (ap_pending a) (ap_deferring a).

Fixpoint override_open (cs : list (item * string * string * outcome exn unit)) (a : Grelmicro) :
    outcome exn unit * Grelmicro :=
  match cs with
  | [] => (Return tt, a)
  | (c, kind, name, r) :: cs =>
      let a := override_install c kind name a in
      match r with Return _ => override_open cs a | Raise e => (Raise e, a) end
  end.

(** The [finally] clause *)
Definition override_restore (snapshot a : Grelmicro) : Grelmicro :=
  mkApp (ap_items snapshot) (ap_by_key snapshot) (ap_by_kind snapshot) (ap_pending a) (ap_deferring a).

(** [override] around a body, in an application that is entered or not. *)
Definition override (entered : bool) (cs : list (item * string * string * outcome exn unit))
    (body : Grelmicro -> outcome exn unit * Grelmicro) (a : Grelmicro) : outcome exn unit * Grelmicro :=
  if negb entered then (Raise (mk_exn OutOfContextError NoInfo), a)
  else
    let '(r, a') := match override_open cs a with (Return _, a') => body a' | (Raise e, a') => (Raise e, a') end in
    (r, override_restore a a').

(** Whatever fails, the registry is what it was. *)
Lemma override_restores entered cs body a :
  let a' := (override entered cs body a).2 in
  ap_items a' = ap_items a /\ ap_by_key a' = ap_by_key a /\ ap_by_kind a' = ap_by_kind a.
Proof.
  unfold override. destruct entered; simpl; [|done]. destruct (override_open cs a) as [[[]|e] a1]; simpl; [|done].
  by destruct (body a1).
Qed.

Lemma find_app {A} (f : A -> bool) l l' :
  List.find f (l ++ l') = match List.find f l with Some x => Some x | None => List.find f l' end.
Proof. induction l as [|x l IH]; simpl; [done|]. by destruct (f x). Qed.

(** In the block a key resolves to the last component given for it, and every other key as before. *)
Lemma override_is_seen cs a :
  Forall (fun x => x.2 = Return tt) cs ->
  (override_open cs a).1 = Return tt /\
  forall kind name, dict_get (kind, name) (ap_by_key (override_open cs a).2) =
    match List.find (fun x => bool_decide (x.1.1.2 = kind /\ x.1.2 = name)) (rev cs) with
    | Some x => Some x.1.1.1
    | None => dict_get (kind, name) (ap_by_key a)
    end.
Proof.
  revert a. induction cs as [|[[[c k] n] r] cs IH]; intros a Hall; simpl; [done|].
  apply Forall_cons in Hall as [Hr Hall]. simpl in Hr. subst r.
  destruct (IH (override_install c k n a) Hall) as [H1 H2]. split; [done|]. intros kind name.
  rewrite H2, find_app. destruct (List.find _ (rev cs)); [done|]. simpl.
  rewrite dict_get_set. case_bool_decide as Hb; case_decide as Hd; naive_solver.
Qed.

(** Two overrides of two tasks that overlap without nesting: the snapshot of the second holds the
    component of the first, which is closed by the time it is restored for good. *)
Lemma overlapping_overrides_leak (c1 c2 : item) :
  let a0 := new_app false in
  let a1 := override_install c1 "cache" "default" a0 in
  let a2 := override_install c2 "cache" "default" a1 in
  let a3 := override_restore a0 a2 in
  let a4 := override_restore a1 a3 in
  resolve_kind "cache" a0 = None /\ resolve_kind "cache" a4 = Some c1.
Proof. done. Qed.
