(* ===== verification/Sqlite.v ===== *)
(** * Calls on a SQLite file

    What the SQLite adapters share: every method holds the connection lock of
    its [SQLiteProvider] ([grelmicro/providers/sqlite.py]) and either sends one
    statement in autocommit mode, or runs [BEGIN IMMEDIATE], a read, a write and
    [COMMIT], with [ROLLBACK] when anything in between raises.

    The file is a value of a type [T] of tables with at most one write
    transaction.  A method is a [body]: statements and readings of the clock.
    [advance] is one round trip of a call to its connection, whatever the
    connection answers: it may serve the statement, refuse it, roll the
    transaction back by itself, or serve it for a caller that was cancelled
    while it waited (the request is in the connection's queue by then).
    [file_step] interleaves the calls of any number of connections. *)

From S2P Require Import Prelude Errors.

(** [sqlite3.OperationalError] and [asyncio.CancelledError], as raised here. *)
Definition operational_error : exn := mk_exn (UserError 0 Exception_) NoInfo.
Definition sql_cancelled : exn := mk_exn CancelledError NoInfo.

(** What became of a request: [Abandoned] is a request whose caller was
    cancelled while it waited for the answer. *)
Inductive response : Type :=
| Served
| Refused (e : exn)
| TransactionLost (e : exn)
| Abandoned.

(** Was the statement carried out? *)
Definition carried_out (r : response) : bool :=
  match r with Served | Abandoned => true | Refused _ | TransactionLost _ => false end.

(** ** Statements and bodies *)

Inductive stmt (T : Type) : Type -> Type :=
| Select {R} (f : T -> R) : stmt T R
| Modify {R} (f : T -> R * T) : stmt T R.
Arguments Select {T R} f.
Arguments Modify {T R} f.

(** What a statement answers and leaves, on the tables it runs on. *)
Definition stmt_run {T R} (s : stmt T R) : T -> R * T :=
  match s in stmt _ R return T -> R * T with
  | Select f => fun t => (f t, t)
  | Modify f => f
  end.

Definition is_modify {T R} (s : stmt T R) : bool :=
  match s with Select _ => false | Modify _ => true end.

Inductive body (T A : Type) : Type :=
| Ret (a : A)
| Throw (e : exn)
| Run {R : Type} (s : stmt T R) (k : R -> body T A)
| Now (k : Q -> body T A).
Arguments Ret {T A} a.
Arguments Throw {T A} e.
Arguments Run {T A R} s k.
Arguments Now {T A} k.

Fixpoint body_bind {T A B} (m : body T A) (k : A -> body T B) : body T B :=
  match m with
  | Ret a => k a
  | Throw e => Throw e
  | Run s k' => Run s (fun x => body_bind (k' x) k)
  | Now k' => Now (fun t => body_bind (k' t) k)
  end.

#[export] Instance body_mret {T} : MRet (body T) := @Ret T.
#[export] Instance body_mbind {T} : MBind (body T) := fun A B k m => body_bind m k.

Definition run_stmt {T R} (s : stmt T R) : body T R := Run s Ret.
Definition read_clock {T} : body T Q := Now Ret.

(** The body alone on the tables, with the readings of the clock it makes. *)
Fixpoint body_eval {T A} (b : body T A) (clock : list Q) (t : T) :
    option (outcome exn A * T) :=
  match b with
  | Ret a => if clock is [] then Some (Return a, t) else None
  | Throw e => if clock is [] then Some (Raise e, t) else None
  | Run s k => let '(x, t) := stmt_run s t in body_eval (k x) clock t
  | Now k => if clock is now :: clock then body_eval (k now) clock t else None
  end.

Lemma eval_bind {T A B} (m : body T A) (k : A -> body T B) l1 l2 t a t' :
  body_eval m l1 t = Some (Return a, t') ->
  body_eval (body_bind m k) (l1 ++ l2) t = body_eval (k a) l2 t'.
Proof.
  revert l1 t. induction m as [x|e|R s k' IH|k' IH]; intros l1 t; simpl.
  - destruct l1; [|done]. by intros [= -> ->].
  - by destruct l1.
  - destruct (stmt_run s t) as [x t1] eqn:E. intros Hk.
    by apply IH.
  - destruct l1 as [|now l1]; [done|]. intros Hk. by apply IH.
Qed.

(** ** The file *)

Section File.
Context {T : Type}.

(** [writing] is the connection that holds the write lock, with the tables as
    its transaction sees them. *)
Record database : Type := mkDb {
  committed : T;
  writing : option (nat * T);
}.

Definition open_db (t : T) : database := mkDb t None.

(** The tables as connection [c] sees them. *)
Definition visible (c : nat) (db : database) : T :=
  match writing db with
  | Some (c', w) => if decide (c' = c) then w else committed db
  | None => committed db
  end.

Inductive request : Type -> Type :=
| BeginImmediate : request unit
| Commit : request unit
| Rollback : request unit
| Execute {R} (s : stmt T R) : request R.

Definition end_transaction (c : nat) (keep : bool) (db : database) :
    outcome exn unit * database :=
  match writing db with
  | Some (c', w) =>
      if decide (c' = c)
      then (Return tt, mkDb (if keep then w else committed db) None)
      else (Raise operational_error, db)
  | None => (Raise operational_error, db)
  end.

(** A writing statement needs the write lock; a reading one sees the last
    committed tables (write-ahead logging). *)
Definition sql_execute {R} (c : nat) (s : stmt T R) (db : database) :
    outcome exn R * database :=
  match writing db with
  | Some (c', w) =>
      if decide (c' = c)
      then let '(x, w) := stmt_run s w in (Return x, mkDb (committed db) (Some (c', w)))
      else if is_modify s then (Raise operational_error, db)
      else (Return (stmt_run s (committed db)).1, db)
  | None => let '(x, t) := stmt_run s (committed db) in (Return x, mkDb t None)
  end.

Definition sql_serve {R} (c : nat) (q : request R) (db : database) :
    outcome exn R * database :=
  match q in request R return outcome exn R * database with
  | BeginImmediate =>
      match writing db with
      | Some _ => (Raise operational_error, db)
      | None => (Return tt, mkDb (committed db) (Some (c, committed db)))
      end
  | Commit => end_transaction c true db
  | Rollback => end_transaction c false db
  | Execute s => sql_execute c s db
  end.

Definition respond {R} (c : nat) (q : request R) (r : response) (db : database) :
    outcome exn R * database :=
  match r with
  | Served => sql_serve c q db
  | Refused e => (Raise e, db)
  | TransactionLost e => (Raise e, (end_transaction c false db).2)
  | Abandoned => (Raise sql_cancelled, (sql_serve c q db).2)
  end.

(** ** Calls

    [Transaction b] is [BEGIN IMMEDIATE; try: b; COMMIT; except: ROLLBACK;
    raise]; [Statements b] sends the statements of [b] in autocommit mode. *)
Section Calls.
Context {A : Type}.

Inductive sql_call : Type :=
| Transaction (b : body T A)
| Statements (b : body T A).

(** Where a call is: [Running whole rest] is inside the [try]. *)
Inductive call_frame : Type :=
| Opening (b : body T A)
| Running (whole rest : body T A)
| Undoing (e : exn)
| Autocommit (rest : body T A)
| Finished (o : outcome exn A).

Definition begin_call (k : sql_call) : call_frame :=
  match k with Transaction b => Opening b | Statements b => Autocommit b end.

(** One round trip, or one reading of the clock, of connection [c]'s call. *)
Definition advance (c : nat) (r : response) (now : Q) (f : call_frame) (db : database) :
    call_frame * database :=
  match f with
  | Opening b =>
      match respond c BeginImmediate r db with
      | (Return _, db) => (Running b b, db)
      | (Raise e, db) => (Finished (Raise e), db)
      end
  | Running whole (Run s k) =>
      match respond c (Execute s) r db with
      | (Return x, db) => (Running whole (k x), db)
      | (Raise e, db) => (Undoing e, db)
      end
  | Running whole (Now k) => (Running whole (k now), db)
  | Running whole (Throw e) => (Undoing e, db)
  | Running whole (Ret a) =>
      match respond c Commit r db with
      | (Return _, db) => (Finished (Return a), db)
      | (Raise e, db) => (Undoing e, db)
      end
  | Undoing e =>
      match respond c Rollback r db with
      | (Return _, db) => (Finished (Raise e), db)
      | (Raise e', db) => (Finished (Raise e'), db)
      end
  | Autocommit (Run s k) =>
      match respond c (Execute s) r db with
      | (Return x, db) => (Autocommit (k x), db)
      | (Raise e, db) => (Finished (Raise e), db)
      end
  | Autocommit (Now k) => (Autocommit (k now), db)
  | Autocommit (Ret a) => (Finished (Return a), db)
  | Autocommit (Throw e) => (Finished (Raise e), db)
  | Finished o => (Finished o, db)
  end.

(** [n] steps; [env i] is the answer and the clock of the [i]-th. *)
Definition environment : Type := nat -> response * Q.
Definition later (env : environment) : environment := fun i => env (S i).
Definition served_at (clock : nat -> Q) : environment := fun i => (Served, clock i).

Fixpoint advances (n : nat) (c : nat) (env : environment) (f : call_frame)
    (db : database) : call_frame * database :=
  match n with
  | O => (f, db)
  | S n =>
      let '(f, db) := advance c (env O).1 (env O).2 f db in
      advances n c (later env) f db
  end.

(** The method a caller runs, as the adapters write it. *)
Definition undo (c : nat) (env : environment) (e : exn) (db : database) :
    outcome exn A * database :=
  match respond c Rollback (env O).1 db with
  | (Return _, db) => (Raise e, db)
  | (Raise e', db) => (Raise e', db)
  end.

Fixpoint in_try (c : nat) (env : environment) (b : body T A) (db : database) :
    outcome exn A * database :=
  match b with
  | Ret a =>
      match respond c Commit (env O).1 db with
      | (Return _, db) => (Return a, db)
      | (Raise e, db) => undo c (later env) e db
      end
  | Throw e => undo c (later env) e db
  | Run s k =>
      match respond c (Execute s) (env O).1 db with
      | (Return x, db) => in_try c (later env) (k x) db
      | (Raise e, db) => undo c (later env) e db
      end
  | Now k => in_try c (later env) (k (env O).2) db
  end.

Fixpoint autocommit (c : nat) (env : environment) (b : body T A) (db : database) :
    outcome exn A * database :=
  match b with
  | Ret a => (Return a, db)
  | Throw e => (Raise e, db)
  | Run s k =>
      match respond c (Execute s) (env O).1 db with
      | (Return x, db) => autocommit c (later env) (k x) db
      | (Raise e, db) => (Raise e, db)
      end
  | Now k => autocommit c (later env) (k (env O).2) db
  end.

Definition perform (c : nat) (env : environment) (k : sql_call) (db : database) :
    outcome exn A * database :=
  match k with
  | Transaction b =>
      match respond c BeginImmediate (env O).1 db with
      | (Return _, db) => in_try c (later env) b db
      | (Raise e, db) => (Raise e, db)
      end
  | Statements b => autocommit c env b db
  end.
End Calls.
End File.
Arguments database T : clear implicits.
Arguments request T R : clear implicits.
Arguments sql_call T A : clear implicits.
Arguments call_frame T A : clear implicits.
Arguments Transaction {T A} b.
Arguments Statements {T A} b.
Arguments Opening {T A} b.
Arguments Running {T A} whole rest.
Arguments Undoing {T A} e.
Arguments Autocommit {T A} rest.
Arguments Finished {T A} o.

(** ** Every call ends

    [perform] is what the steps of a call come to. *)
Section Ends.
Context {T A : Type}.
Implicit Types (b : body T A) (db : database T) (f : call_frame T A).

Definition ends (c : nat) (env : environment) f db (o : outcome exn A * database T) : Prop :=
  exists n, advances n c env f db = (Finished o.1, o.2).

Lemma ends_finished c env o db : ends c env (Finished o) db (o, db).
Proof. by exists O. Qed.

Lemma ends_step c env f db o :
  (let '(f', db') := advance c (env O).1 (env O).2 f db in ends c (later env) f' db' o) ->
  ends c env f db o.
Proof.
  destruct (advance _ _ _ f db) as [f' db'] eqn:E. intros [n Hn].
  exists (S n). simpl. by rewrite E.
Qed.

Lemma undo_ends c env e db : ends c env (Undoing e) db (undo c env e db).
Proof.
  apply ends_step. simpl. unfold undo.
  destruct (respond c Rollback (env O).1 db) as [[x|e'] db']; apply ends_finished.
Qed.

Lemma in_try_ends c env whole b db : ends c env (Running whole b) db (in_try c env b db).
Proof.
  revert env db. induction b as [a|e|R s k IH|k IH]; intros env db; apply ends_step; simpl.
  - destruct (respond c Commit _ db) as [[x|e] db']; [apply ends_finished|apply undo_ends].
  - apply undo_ends.
  - destruct (respond c (Execute s) _ db) as [[x|e] db']; [apply IH|apply undo_ends].
  - apply IH.
Qed.

Lemma autocommit_ends c env b db : ends c env (Autocommit b) db (autocommit c env b db).
Proof.
  revert env db. induction b as [a|e|R s k IH|k IH]; intros env db; apply ends_step; simpl.
  - apply ends_finished.
  - apply ends_finished.
  - destruct (respond c (Execute s) _ db) as [[x|e] db']; [apply IH|apply ends_finished].
  - apply IH.
Qed.

Lemma perform_ends c env (k : sql_call T A) db : ends c env (begin_call k) db (perform c env k db).
Proof.
  destruct k as [b|b]; simpl; [|apply autocommit_ends].
  apply ends_step. simpl.
  destruct (respond c BeginImmediate _ db) as [[x|e] db']; [apply in_try_ends|apply ends_finished].
Qed.
End Ends.

(** ** Many connections on one file

    A connection runs one call at a time: the callers of one process queue on
    the connection lock of its provider.  A process may die at any moment, and
    its open transaction with it. *)
Section System.
Context {T A : Type}.

Record sql_system : Type := mkSystem {
  file : database T;
  clock : Q;
  calls : gmap nat (call_frame T A);
}.

Definition new_file (t : T) (now : Q) : sql_system := mkSystem (open_db t) now ∅.

(** What reached the committed tables: a whole transaction with its result, or
    one statement in autocommit mode. *)
Inductive commit_entry : Type :=
| Committed (c : nat) (b : body T A) (a : A)
| Wrote (c : nat) (f : T -> T).

Definition effect (c : nat) (r : response) (f : call_frame T A) (db : database T) :
    option commit_entry :=
  if carried_out r then
    match f, writing db with
    | Running whole (Ret a), Some (c', _) =>
        if decide (c' = c) then Some (Committed c whole a) else None
    | Autocommit (Run s k), None =>
        if is_modify s then Some (Wrote c (fun t => (stmt_run s t).2)) else None
    | _, _ => None
    end
  else None.

Inductive file_step : sql_system -> option commit_entry -> sql_system -> Prop :=
| step_tick s now :
    (clock s <= now)%Q ->
    file_step s None (mkSystem (file s) now (calls s))
| step_begin s c k :
    calls s !! c = None ->
    file_step s None (mkSystem (file s) (clock s) (<[c := begin_call k]> (calls s)))
| step_advance s c r f :
    calls s !! c = Some f ->
    file_step s (effect c r f (file s))
      (mkSystem (advance c r (clock s) f (file s)).2 (clock s)
         (<[c := (advance c r (clock s) f (file s)).1]> (calls s)))
| step_return s c o :
    calls s !! c = Some (Finished o) ->
    file_step s None (mkSystem (file s) (clock s) (delete c (calls s)))
| step_crash s c :
    file_step s None (mkSystem (end_transaction c false (file s)).2 (clock s)
                        (delete c (calls s))).

Inductive reaches (s0 : sql_system) : list commit_entry -> sql_system -> Prop :=
| reaches_refl : reaches s0 [] s0
| reaches_step h s e s' :
    reaches s0 h s -> file_step s e s' ->
    reaches s0 (h ++ option_list e) s'.

(** Readings of a clock that does not go back, between two instants. *)
Fixpoint within (lo : Q) (l : list Q) (hi : Q) : Prop :=
  match l with
  | [] => (lo <= hi)%Q
  | x :: l => (lo <= x)%Q /\ within x l hi
  end.

Lemma within_le lo l hi : within lo l hi -> (lo <= hi)%Q.
Proof.
  revert lo. induction l as [|x l IH]; intros lo; simpl; [done|].
  intros [H1 H2%IH]. lra.
Qed.

Lemma within_later lo l hi hi' : within lo l hi -> (hi <= hi')%Q -> within lo l hi'.
Proof.
  revert lo. induction l as [|x l IH]; intros lo; simpl; [intros; lra|].
  intros [H1 H2] Hh. split; [done|]. by apply IH.
Qed.

Lemma within_snoc lo l hi : within lo l hi -> within lo (l ++ [hi]) hi.
Proof.
  revert lo. induction l as [|x l IH]; intros lo; simpl.
  - intros. split; [done|lra].
  - intros [H1 H2]. split; [done|]. by apply IH.
Qed.

(** The entries one after the other, alone, each transaction with its own
    readings of the clock after those of the one before. *)
Inductive serial (t0 : T) (lo : Q) : list commit_entry -> Q -> T -> Prop :=
| serial_nil : serial t0 lo [] lo t0
| serial_call h mid t c b a l hi t' :
    serial t0 lo h mid t -> within mid l hi ->
    body_eval b l t = Some (Return a, t') ->
    serial t0 lo (h ++ [Committed c b a]) hi t'
| serial_write h mid t c f :
    serial t0 lo h mid t ->
    serial t0 lo (h ++ [Wrote c f]) mid (f t).

Lemma serial_app_inv t0 lo h1 h2 hi t :
  serial t0 lo (h1 ++ h2) hi t ->
  exists mid t1, serial t0 lo h1 mid t1 /\ serial t1 mid h2 hi t.
Proof.
  intros H. remember (h1 ++ h2) as h eqn:E. revert h1 h2 E.
  induction H as [|h mid t c b a l hi t' Hs IH Hl He|h mid t c f Hs IH]; intros h1 h2 E.
  - symmetry in E. apply app_eq_nil in E as [-> ->]. exists lo, t0. split; constructor.
  - destruct h2 as [|x h2 _] using rev_ind.
    { rewrite app_nil_r in E. subst h1. eexists hi, t'. split; [by econstructor|constructor]. }
    rewrite app_assoc in E. apply app_inj_tail in E as [-> <-].
    destruct (IH h1 h2 eq_refl) as (m & t1 & H1 & H2).
    exists m, t1. split; [done|by econstructor].
  - destruct h2 as [|x h2 _] using rev_ind.
    { rewrite app_nil_r in E. subst h1. eexists mid, (f t). split; [by econstructor|constructor]. }
    rewrite app_assoc in E. apply app_inj_tail in E as [-> <-].
    destruct (IH h1 h2 eq_refl) as (m & t1 & H1 & H2).
    exists m, t1. split; [done|by econstructor].
Qed.

Lemma serial_single t0 lo c b a hi t :
  serial t0 lo [Committed c b a] hi t -> exists l, body_eval b l t0 = Some (Return a, t).
Proof.
  intros H. remember [Committed c b a] as h eqn:E.
  destruct H as [|h mid t1 c' b' a' l hi t' Hs Hl He|h mid t1 c' f Hs]; [done| |].
  - apply (app_inj_tail h []) in E as [-> E].
    injection E as _ -> ->. inversion Hs as [|? ? ? ? ? ? ? ? ? ? ? ? E|? ? ? ? ? ? E]; subst; eauto;
      by destruct h.
  - by apply (app_inj_tail h []) in E as [_ E].
Qed.

(** A running transaction holds the write lock, and has done a prefix of its
    body on the tables that are still the committed ones. *)
Definition running_ok (mid : Q) (s : sql_system) : Prop :=
  forall c whole rest, calls s !! c = Some (Running whole rest) ->
    exists w l, writing (file s) = Some (c, w) /\ within mid l (clock s) /\
      forall l', body_eval whole (l ++ l') (committed (file s)) = body_eval rest l' w.

Definition serial_ok (t0 : T) (lo : Q) (h : list commit_entry) (s : sql_system) : Prop :=
  exists mid, serial t0 lo h mid (committed (file s)) /\ (mid <= clock s)%Q /\
    running_ok mid s.

Implicit Types (db : database T).

(** A request of one connection leaves the transaction of another alone. *)
Lemma respond_other {R} c c' (q : request T R) r db w :
  c <> c' -> writing db = Some (c', w) -> (respond c q r db).2 = db.
Proof.
  intros Hne E.
  assert (forall keep, end_transaction c keep db = (Raise operational_error, db)) as Hend.
  { intros keep. unfold end_transaction. by rewrite E, decide_False by done. }
  assert ((sql_serve c q db).2 = db) as Hs.
  { destruct q; simpl; rewrite ?Hend; try done.
    - by rewrite E.
    - unfold sql_execute. rewrite E, decide_False by done. by destruct (is_modify s). }
  destruct r; simpl; by rewrite ?Hend.
Qed.

(** The committed tables change only when a transaction commits or a statement
    runs with no transaction open. *)
Definition quiet {R} (q : request T R) db : Prop :=
  match q with
  | Commit => False
  | Execute s => is_modify s = false \/ writing db <> None
  | BeginImmediate | Rollback => True
  end.

Lemma committed_end_false c db : committed (end_transaction c false db).2 = committed db.
Proof.
  unfold end_transaction. destruct (writing db) as [[c' w]|]; [|done]. by case_decide.
Qed.

Lemma respond_committed {R} c (q : request T R) r db :
  quiet q db -> committed (respond c q r db).2 = committed db.
Proof.
  intros Hq. assert (committed (sql_serve c q db).2 = committed db) as Hs.
  { destruct q; simpl in *; try done.
    - by destruct (writing db).
    - apply committed_end_false.
    - unfold sql_execute. destruct (writing db) as [[c' w]|] eqn:E.
      + case_decide; [by destruct (stmt_run s w)|]. by destruct (is_modify s).
      + destruct Hq as [Hq|Hq]; [|done]. by destruct s. }
  destruct r; simpl; by rewrite ?committed_end_false.
Qed.

Lemma respond_return {R} c (q : request T R) r db x db' :
  respond c q r db = (Return x, db') -> r = Served /\ sql_serve c q db = (Return x, db').
Proof. by destruct r. Qed.

Lemma advance_other c c' r now f db w :
  c <> c' -> writing db = Some (c', w) -> (advance (A := A) c r now f db).2 = db.
Proof.
  intros Hne E.
  assert (forall R (q : request T R), (respond c q r db).2 = db) as Hr
    by (intros; by eapply respond_other).
  destruct f as [b|whole [a|e|R st k|k]|e|[a|e|R st k|k]|o]; simpl; try done;
    match goal with |- context [respond c ?q r db] => specialize (Hr _ q) end;
    destruct (respond _ _ _ _) as [[x|e'] db']; by simpl in *.
Qed.

(** What the invariant asks of the connection that has just made a step. *)
Definition own_ok (mid now : Q) (c : nat) (f : call_frame T A) db : Prop :=
  forall whole rest, f = Running whole rest ->
    exists w l, writing db = Some (c, w) /\ within mid l now /\
      forall l', body_eval whole (l ++ l') (committed db) = body_eval rest l' w.

Lemma running_ok_own mid s c f :
  running_ok mid s -> calls s !! c = Some f -> own_ok mid (clock s) c f (file s).
Proof. intros Hr E whole rest ->. by apply Hr. Qed.

Lemma running_ok_step mid s c f' db' :
  running_ok mid s ->
  (forall c' w, c <> c' -> writing (file s) = Some (c', w) -> db' = file s) ->
  own_ok mid (clock s) c f' db' ->
  running_ok mid (mkSystem db' (clock s) (<[c := f']> (calls s))).
Proof.
  intros Hr Hother Hown c' whole rest. simpl. destruct (decide (c = c')) as [<-|Hne].
  - rewrite lookup_insert_eq. intros [= ->]. by apply Hown.
  - rewrite lookup_insert_ne by done. intros E.
    destruct (Hr c' whole rest E) as (w & l & Ew & Hl & Hev).
    rewrite (Hother c' w Hne Ew). by exists w, l.
Qed.

Lemma advance_own mid now c r f db :
  own_ok mid now c f db -> (mid <= now)%Q ->
  own_ok mid now c (advance c r now f db).1 (advance c r now f db).2.
Proof.
  intros Hown Hle whole rest.
  destruct f as [b|whole0 [a|e|R st k|k]|e|[a|e|R st k|k]|o]; simpl; try done;
    try (destruct (respond c _ r db) as [[x|e'] db'] eqn:E; simpl; try done).
  - intros [= <- <-]. apply respond_return in E as [-> E]. simpl in E.
    destruct (writing db) eqn:Ew; [done|]. simplify_eq/=.
    by exists (committed db), [].
  - intros [= <- <-]. destruct (Hown whole0 _ eq_refl) as (w & l & Ew & Hl & Hev).
    apply respond_return in E as [-> E]. simpl in E. unfold sql_execute in E.
    rewrite Ew, decide_True in E by done.
    destruct (stmt_run st w) as [y w'] eqn:Es. injection E as <- <-. simpl.
    exists w', l. split_and!; try done. intros l'. rewrite Hev. simpl. by rewrite Es.
  - intros [= <- <-]. destruct (Hown whole0 _ eq_refl) as (w & l & Ew & Hl & Hev).
    exists w, (l ++ [now]). split_and!; try done; [by apply within_snoc|].
    intros l'. rewrite <- app_assoc. simpl. by rewrite Hev.
Qed.

(** A step leaves the committed tables alone, commits, or writes at once. *)
Lemma advance_cases mid now c r f db :
  own_ok mid now c f db ->
  (effect c r f db = None /\ committed (advance c r now f db).2 = committed db) \/
  (exists whole a w, f = Running whole (Ret a) /\ writing db = Some (c, w) /\
     effect c r f db = Some (Committed c whole a) /\
     (advance c r now f db).2 = mkDb w None) \/
  (exists g, writing db = None /\ effect c r f db = Some (Wrote c g) /\
     (advance c r now f db).2 = mkDb (g (committed db)) None).
Proof.
  intros Hown. unfold effect.
  assert (forall R (q : request T R), quiet q db ->
    committed (respond c q r db).2 = committed db) as Hq
    by (intros; by apply respond_committed).
  destruct f as [b|whole [a|e|R st k|k]|e|[a|e|R st k|k]|o]; simpl;
    try (left; split; [by case_match|done]).
  - left. specialize (Hq _ BeginImmediate I).
    destruct (respond c _ r db) as [[x|e'] db']; split; by try case_match.
  - destruct (Hown whole _ eq_refl) as (w & l & Ew & _ & _). rewrite Ew, decide_True by done.
    destruct r as [|e|e|]; simpl; unfold end_transaction; rewrite ?Ew, ?decide_True by done;
      simpl; [right; left| by left | by left | right; left]; by exists whole, a, w.
  - left. destruct (Hown whole _ eq_refl) as (w & l & Ew & _ & _).
    assert (quiet (Execute st) db) as Hqe by (simpl; right; by rewrite Ew).
    specialize (Hq _ _ Hqe).
    destruct (respond c _ r db) as [[x|e'] db']; split; by try case_match.
  - left. specialize (Hq _ Rollback I).
    destruct (respond c _ r db) as [[x|e'] db']; split; by try case_match.
  - destruct (writing db) as [[c' w]|] eqn:Ew; [|destruct (is_modify st) eqn:Em].
    + left. assert (quiet (Execute st) db) as Hqe by (simpl; right; by rewrite Ew).
      specialize (Hq _ _ Hqe).
      destruct (respond c _ r db) as [[x|e'] db']; split; by try case_match.
    + destruct r as [|e|e|]; simpl; unfold sql_execute, end_transaction; rewrite ?Ew; simpl;
        [right; right| by left | by left | right; right];
        (eexists; split; [done|]; split; [done|]; simpl; by destruct (stmt_run st (committed db))).
    + left. assert (quiet (Execute st) db) as Hqe by (simpl; by left).
      specialize (Hq _ _ Hqe).
      destruct (respond c _ r db) as [[x|e'] db']; split; by try case_match.
Qed.

Lemma running_ok_calls mid s now cs :
  (clock s <= now)%Q -> running_ok mid s ->
  (forall c whole rest, cs !! c = Some (Running whole rest) ->
     calls s !! c = Some (Running whole rest)) ->
  running_ok mid (mkSystem (file s) now cs).
Proof.
  intros Hle Hr Hc c whole rest E.
  destruct (Hr c whole rest (Hc _ _ _ E)) as (w & l & ? & ? & ?).
  exists w, l. split_and!; try done. by eapply within_later.
Qed.

(** With no transaction open, nobody is in the middle of one. *)
Lemma running_ok_closed mid mid' s c f t :
  (forall c' w, writing (file s) = Some (c', w) -> c' = c) ->
  (forall whole rest, f <> Running whole rest) -> running_ok mid s ->
  running_ok mid' (mkSystem (mkDb t None) (clock s) (<[c := f]> (calls s))).
Proof.
  intros Hw Hf Hr c' whole rest. simpl. destruct (decide (c = c')) as [<-|Hne].
  - rewrite lookup_insert_eq. intros [= E]. by destruct (Hf whole rest).
  - rewrite lookup_insert_ne by done. intros E.
    destruct (Hr c' whole rest E) as (w & _ & Ew & _). by rewrite (Hw _ _ Ew) in Hne.
Qed.

Lemma effect_wrote_not_running c r now f db c' g whole rest :
  effect c r f db = Some (Wrote c' g) ->
  (advance c r now f db).1 <> Running whole rest.
Proof.
  unfold effect. destruct (carried_out r); [|done].
  destruct f as [b|whole0 [a|e|R st k|k]|e|[a|e|R st k|k]|o]; try done; simpl.
  - intros E. repeat case_match; done.
  - intros _. by destruct (respond c (Execute st) r db) as [[x|e] db'].
Qed.

Lemma serial_step t0 lo h s e s' :
  serial_ok t0 lo h s -> file_step s e s' -> serial_ok t0 lo (h ++ option_list e) s'.
Proof.
  intros (mid & Hs & Hle & Hr) Hstep. destruct Hstep as [s now Ht|s c k E|s c r f E|s c o E|s c];
    try (simpl; rewrite app_nil_r).
  - exists mid. simpl. split_and!; [done|lra|]. by apply running_ok_calls.
  - exists mid. split_and!; [done..|]. apply running_ok_step; [done|done|].
    by destruct k.
  - pose proof (running_ok_own mid s c f Hr E) as Hown.
    destruct (advance_cases mid (clock s) c r f (file s) Hown)
      as [[Ee Ec]|[(whole & a & w & -> & Ew & Ee & Ea)|(g & Ew & Ee & Ea)]];
      unfold serial_ok; rewrite Ee; simpl.
    + rewrite app_nil_r, Ec. exists mid. split_and!; [done..|].
      apply running_ok_step; [done| |by apply advance_own].
      intros c' w Hne Ew. by eapply advance_other.
    + destruct (Hown whole _ eq_refl) as (w' & l & Ew' & Hl & Hev).
      assert (w' = w) as -> by congruence.
      exists (clock s). split_and!; [|simpl; lra|].
      * simpl in Ea. rewrite Ea. eapply serial_call; [done..|].
        specialize (Hev []). by rewrite app_nil_r in Hev.
      * simpl in Ea. rewrite Ea. eapply running_ok_closed; [congruence| |done].
        intros ??. by destruct (respond c Commit r (file s)) as [[x|e] db'].
    + rewrite Ea. exists mid. split_and!; [by constructor|done|].
      eapply running_ok_closed; [congruence| |done].
      intros ??. by eapply effect_wrote_not_running.
  - exists mid. simpl. split_and!; [done..|]. apply running_ok_calls; [simpl; lra|done|].
    intros c' whole rest. by intros [_ E']%lookup_delete_Some.
  - exists mid. simpl. rewrite committed_end_false. split_and!; [done..|].
    intros c' whole rest. simpl. intros [Hne E']%lookup_delete_Some.
    destruct (Hr c' whole rest E') as (w & l & Ew & ? & ?).
    assert ((end_transaction c false (file s)).2 = file s) as ->.
    { unfold end_transaction. by rewrite Ew, decide_False. }
    by exists w, l.
Qed.

Lemma serial_ok_reaches t0 lo h s : reaches (new_file t0 lo) h s -> serial_ok t0 lo h s.
Proof.
  induction 1 as [|h s e s' _ IH Hstep]; [|by eapply serial_step].
  exists lo. split_and!; [constructor|simpl; lra|].
  intros c whole rest. simpl. by rewrite lookup_empty.
Qed.

Lemma committed_inj c c' (b b' : body T A) a a' :
  Committed c b a = Committed c' b' a' -> b = b' /\ a = a'.
Proof. by intros [= _ -> ->]. Qed.

(** C26 Connections that share a SQLite file, whatever the interleaving of their
    requests, the answers they get and the processes that die: what is committed
    is what the committed calls would have left had they run one after the
    other, each whole, with readings of the clock in that order; and a
    transaction that returns is one of them, with the result it returns. *)
Theorem calls_are_serial (t0 : T) (lo : Q) h s :
  reaches (new_file t0 lo) h s ->
  (exists hi, serial t0 lo h hi (committed (file s)) /\ (hi <= clock s)%Q) /\
  (forall c whole rest r a,
     calls s !! c = Some (Running whole rest) ->
     (advance c r (clock s) (Running whole rest) (file s)).1 = Finished (Return a) ->
     effect c r (Running whole rest) (file s) = Some (Committed c whole a)).
Proof.
  intros Hr. destruct (serial_ok_reaches t0 lo h s Hr) as (mid & Hs & Hle & Hrun).
  split; [by exists mid|]. intros c whole rest r a E.
  destruct (Hrun c whole rest E) as (w & l & Ew & _).
  destruct rest as [x|e|R st k|k]; simpl; try done.
  - destruct r; simpl; unfold end_transaction; rewrite ?Ew, ?decide_True by done; simpl;
      try done. intros [= ->]. unfold effect. simpl. by rewrite Ew, decide_True.
  - by destruct (respond c (Execute st) r (file s)) as [[x|e'] db'].
Qed.

(** An executable schedule, one action after the other; an action that is not
    possible is skipped. *)
Inductive action : Type :=
| Begin_call (c : nat) (k : sql_call T A)
| Step_call (c : nat) (r : response)
| Return_call (c : nat)
| Pass (d : Q)
| Crash (c : nat).

Definition act (x : action) (s : sql_system) : option (option commit_entry * sql_system) :=
  match x with
  | Begin_call c k =>
      match calls s !! c with
      | None => Some (None, mkSystem (file s) (clock s) (<[c := begin_call k]> (calls s)))
      | Some _ => None
      end
  | Step_call c r =>
      match calls s !! c with
      | Some f =>
          let '(f', db) := advance c r (clock s) f (file s) in
          Some (effect c r f (file s), mkSystem db (clock s) (<[c := f']> (calls s)))
      | None => None
      end
  | Return_call c =>
      match calls s !! c with
      | Some (Finished o) => Some (None, mkSystem (file s) (clock s) (delete c (calls s)))
      | _ => None
      end
  | Pass d =>
      if (0 <=? d)%py then Some (None, mkSystem (file s) (clock s + d)%Q (calls s)) else None
  | Crash c =>
      Some (None, mkSystem (end_transaction c false (file s)).2 (clock s) (delete c (calls s)))
  end.

Fixpoint schedule (l : list action) (s : sql_system) : list commit_entry * sql_system :=
  match l with
  | [] => ([], s)
  | x :: l =>
      match act x s with
      | Some (e, s) => let '(h, s) := schedule l s in (option_list e ++ h, s)
      | None => schedule l s
      end
  end.

Lemma act_step x s e s' : act x s = Some (e, s') -> file_step s e s'.
Proof.
  destruct x as [c k|c r|c|d|c]; simpl.
  - destruct (calls s !! c) eqn:E; [done|]. intros [= <- <-]. by constructor.
  - destruct (calls s !! c) as [f|] eqn:E; [|done].
    destruct (advance c r (clock s) f (file s)) as [f' db] eqn:Ea. intros [= <- <-].
    pose proof (step_advance s c r f E) as H. by rewrite Ea in H.
  - destruct (calls s !! c) as [[]|] eqn:E; try done. intros [= <- <-]. by econstructor.
  - destruct (Qle_bool_spec 0 d); [|done]. intros [= <- <-]. constructor. lra.
  - intros [= <- <-]. constructor.
Qed.

Lemma schedule_reaches l s0 h s :
  reaches s0 h s -> reaches s0 (h ++ (schedule l s).1) (schedule l s).2.
Proof.
  revert h s. induction l as [|x l IH]; intros h s Hr; simpl; [by rewrite app_nil_r|].
  destruct (act x s) as [[e s']|] eqn:E; [|by apply IH].
  specialize (IH (h ++ option_list e) s' (reaches_step _ _ _ _ _ Hr (act_step _ _ _ _ E))).
  destruct (schedule l s') as [h' s'']. simpl in *. by rewrite app_assoc.
Qed.

Lemma scheduled l s : reaches s (schedule l s).1 (schedule l s).2.
Proof. apply (schedule_reaches l s []). constructor. Qed.
End System.
Arguments sql_system T A : clear implicits.
Arguments commit_entry T A : clear implicits.

(** ** One call *)

Section Outcome.
Context {T A : Type}.
Implicit Types (b : body T A) (db : database T).

Definition abandoned_once (env : environment) : Prop := exists i, (env i).1 = Abandoned.

Lemma abandoned_later env : abandoned_once (later env) -> abandoned_once env.
Proof. intros [i Hi]. by exists (S i). Qed.

(** Some of the environment's clock, in order. *)
Fixpoint env_readings (env : environment) (l : list Q) : Prop :=
  match l with
  | [] => True
  | x :: l => exists i, x = (env i).2 /\ env_readings (fun j => env (S i + j)%nat) l
  end.

Lemma readings_later env l : env_readings (later env) l -> env_readings env l.
Proof. destruct l; [done|]. intros (i & -> & H). by exists (S i). Qed.

(** What a call did to the tables it found at [t], seen in its outcome. *)
Definition all_or_nothing (env : environment) b (t : T) (before : T)
    (r : outcome exn A * database T) : Prop :=
  match r.1 with
  | Return a =>
      writing r.2 = None /\
      exists l, env_readings env l /\ body_eval b l t = Some (Return a, committed r.2)
  | Raise _ =>
      committed r.2 = before \/
      (abandoned_once env /\
       exists l a, env_readings env l /\ body_eval b l t = Some (Return a, committed r.2))
  end.

Lemma undo_committed c env e db :
  exists e', (undo (A := A) c env e db).1 = Raise e' /\
    committed (undo (A := A) c env e db).2 = committed db.
Proof.
  unfold undo. pose proof (respond_committed c Rollback (env O).1 db I) as H.
  destruct (respond c Rollback (env O).1 db) as [[x|e'] db']; eauto.
Qed.

Lemma undo_all_or_nothing c env env' e b t db :
  all_or_nothing env b t (committed db) (undo c env' e db).
Proof.
  unfold all_or_nothing. destruct (undo_committed c env' e db) as (e' & -> & ->). by left.
Qed.

Lemma all_or_nothing_weaken env env' b b' t t' before r :
  (abandoned_once env -> abandoned_once env') ->
  (forall l x, env_readings env l -> body_eval b l t = x ->
     exists l', env_readings env' l' /\ body_eval b' l' t' = x) ->
  all_or_nothing env b t before r -> all_or_nothing env' b' t' before r.
Proof.
  intros Ha He. unfold all_or_nothing. destruct (r.1).
  - intros (? & l & Hl & Hev). split; [done|].
    destruct (He _ _ Hl Hev) as (l' & ? & ?). by exists l'.
  - intros [?|(Hab & l & a & Hl & Hev)]; [by left|]. right. split; [auto|].
    destruct (He _ _ Hl Hev) as (l' & ? & ?). by exists l', a.
Qed.

Lemma in_try_all_or_nothing c env b w db :
  writing db = Some (c, w) ->
  all_or_nothing env b w (committed db) (in_try c env b db).
Proof.
  revert env w db. induction b as [a|e|R s k IH|k IH]; intros env w db Ew; simpl.
  - destruct (env O).1 eqn:Er; simpl; unfold end_transaction; rewrite ?Ew, ?decide_True by done;
      simpl; try apply undo_all_or_nothing.
    + split; [done|]. by exists [].
    + apply (undo_all_or_nothing c env (later env) e (Ret a) w (mkDb (committed db) None)).
    + unfold all_or_nothing.
      destruct (undo_committed c (later env) sql_cancelled (mkDb w None)) as (e' & -> & ->).
      right. split; [by exists O|]. by exists [], a.
  - apply undo_all_or_nothing.
  - destruct (respond c (Execute s) (env O).1 db) as [[x|e] db'] eqn:E.
    + apply respond_return in E as [_ E]. simpl in E. unfold sql_execute in E.
      rewrite Ew, decide_True in E by done.
      destruct (stmt_run s w) as [y w'] eqn:Es. simplify_eq.
      eapply all_or_nothing_weaken; [apply abandoned_later| |by apply (IH x (later env) w' (mkDb (committed db) (Some (c, w'))))].
      intros l z Hl Hz. exists l. split; [by apply readings_later|]. simpl. by rewrite Es.
    + assert (committed db' = committed db) as <-.
      { change db' with ((Raise (A := R) e, db').2). rewrite <- E. apply respond_committed.
        simpl. right. by rewrite Ew. }
      apply undo_all_or_nothing.
  - eapply all_or_nothing_weaken; [apply abandoned_later| |by apply (IH (env O).2 (later env) w)].
    intros l z Hl Hz. exists ((env O).2 :: l). split; [|done]. by exists O.
Qed.

(** A method that works in a transaction is all or nothing, whatever its
    connection answers: when it returns, its whole body has run on the tables it
    found and is committed, and the write lock is free; when it raises, the
    committed tables are as they were, unless its caller was cancelled while it
    waited, in which case the whole body may have been committed. *)
Lemma transaction_all_or_nothing c env b db :
  all_or_nothing env b (committed db) (committed db) (perform c env (Transaction b) db).
Proof.
  simpl. destruct (respond c BeginImmediate (env O).1 db) as [[x|e] db'] eqn:E.
  - apply respond_return in E as [_ E]. simpl in E.
    destruct (writing db) eqn:Ew; simplify_eq.
    eapply all_or_nothing_weaken; [apply abandoned_later|by eauto using readings_later|].
    by apply (in_try_all_or_nothing c (later env) b (committed db) (mkDb _ _)).
  - left. change db' with ((Raise (A := unit) e, db').2). rewrite <- E.
    by apply respond_committed.
Qed.

(** ** A call that nothing disturbs, with all its readings at one instant *)
Fixpoint eval_at (now : Q) (b : body T A) (t : T) : outcome exn A * T :=
  match b with
  | Ret a => (Return a, t)
  | Throw e => (Raise e, t)
  | Run s k => let '(x, t) := stmt_run s t in eval_at now (k x) t
  | Now k => eval_at now (k now) t
  end.

Lemma eval_eval_at now b l t r :
  Forall (eq now) l -> body_eval b l t = Some r -> eval_at now b t = r.
Proof.
  revert l t. induction b as [a|e|R s k IH|k IH]; intros l t Hl; simpl.
  - destruct l; [by intros [= <-]|done].
  - destruct l; [by intros [= <-]|done].
  - destruct (stmt_run s t) as [x t']. by apply IH.
  - destruct l as [|q l]; [done|]. apply Forall_cons in Hl as [<- Hl]. by apply IH.
Qed.

Lemma eval_at_eval now b t :
  exists n, body_eval b (replicate n now) t = Some (eval_at now b t).
Proof.
  revert t. induction b as [a|e|R s k IH|k IH]; intros t; simpl.
  - by exists O.
  - by exists O.
  - destruct (stmt_run s t) as [x t']. apply IH.
  - destruct (IH now t) as [n Hn]. by exists (S n).
Qed.

Definition keep_if_returned (t : T) (r : outcome exn A * T) : outcome exn A * database T :=
  (r.1, open_db (if r.1 is Return _ then r.2 else t)).

Lemma in_try_served c now b t w :
  in_try c (served_at (fun _ => now)) b (mkDb t (Some (c, w))) =
  ((eval_at now b w).1,
   open_db (if (eval_at now b w).1 is Return _ then (eval_at now b w).2 else t)).
Proof.
  revert w. induction b as [a|e|R s k IH|k IH]; intros w; simpl.
  - unfold end_transaction. simpl. by rewrite decide_True.
  - unfold undo. simpl. unfold end_transaction. simpl. by rewrite decide_True.
  - unfold sql_execute. simpl. rewrite decide_True by done.
    destruct (stmt_run s w) as [x w']. apply IH.
  - apply IH.
Qed.

Lemma transaction_served c now b t :
  perform c (served_at (fun _ => now)) (Transaction b) (open_db t) =
  keep_if_returned t (eval_at now b t).
Proof. apply (in_try_served c now b t t). Qed.

Lemma statements_served c now b t :
  perform c (served_at (fun _ => now)) (Statements b) (open_db t) =
  ((eval_at now b t).1, open_db (eval_at now b t).2).
Proof.
  simpl. revert t. induction b as [a|e|R s k IH|k IH]; intros t; simpl; try done.
  unfold sql_execute. simpl. destruct (stmt_run s t) as [x t']. apply IH.
Qed.

(** ** A caller cancelled while [BEGIN] is on its way

    [BEGIN IMMEDIATE] is outside the [try], so nobody rolls back: the
    transaction stays open on the connection, and every later transaction of
    this process, and of the others, is refused. *)
Lemma begin_abandoned c env b db :
  writing db = None -> (env O).1 = Abandoned ->
  perform c env (Transaction b) db =
  (Raise sql_cancelled, mkDb (committed db) (Some (c, committed db))).
Proof. intros Ew Er. simpl. rewrite Er. simpl. by rewrite Ew. Qed.

Lemma wedged_refuses c w c' env b db :
  writing db = Some (c, w) -> (env O).1 = Served ->
  perform c' env (Transaction b) db = (Raise operational_error, db).
Proof. intros Ew Er. simpl. rewrite Er. simpl. by rewrite Ew. Qed.

(** A caller cancelled while [COMMIT] is on its way: the work is committed, and
    the [ROLLBACK] that follows has nothing to roll back, so the caller gets an
    [OperationalError] in place of its cancellation. *)
Lemma commit_abandoned c env a w t :
  (env O).1 = Abandoned -> (env 1%nat).1 = Served ->
  in_try c env (Ret a : body T A) (mkDb t (Some (c, w))) =
  (Raise operational_error, mkDb w None).
Proof.
  intros E0 E1. simpl. rewrite E0. simpl. unfold end_transaction. simpl.
  rewrite decide_True by done. simpl. unfold undo, later. by rewrite E1.
Qed.
End Outcome.

Lemma eval_at_bind {T A C} now (m : body T A) (k : A -> body T C) t :
  eval_at now (body_bind m k) t =
  match eval_at now m t with
  | (Return a, t') => eval_at now (k a) t'
  | (Raise e, t') => (Raise e, t')
  end.
Proof.
  revert t. induction m as [a|e|R s k' IH|k' IH]; intros t; simpl; try done.
  destruct (stmt_run s t) as [x t']. apply IH.
Qed.

(** ** Every transaction of [eval_at] can happen

    A transaction that finds the file idle and is served runs as its body does. *)
Section Reachable.
Context {T A : Type}.
Implicit Types (s : sql_system T A) (b : body T A).

Lemma reaches_advance s0 h s c r f :
  reaches s0 h s -> calls s !! c = Some f ->
  reaches s0 (h ++ option_list (effect c r f (file s)))
    (mkSystem (advance c r (clock s) f (file s)).2 (clock s)
       (<[c := (advance c r (clock s) f (file s)).1]> (calls s))).
Proof. intros Hr E. eapply reaches_step; [done|]. by apply step_advance. Qed.

Lemma reaches_quiet s0 h s s' : reaches s0 h s -> file_step s None s' -> reaches s0 h s'.
Proof. intros Hr Hs. rewrite <- (app_nil_r h). by apply (reaches_step s0 h s None s'). Qed.

Lemma reaches_running s0 h t w now cs c whole rest a t' :
  reaches s0 h (mkSystem (mkDb t (Some (c, w))) now (<[c := Running whole rest]> cs)) ->
  eval_at now rest w = (Return a, t') ->
  reaches s0 (h ++ [Committed c whole a])
    (mkSystem (open_db t') now (<[c := Finished (Return a)]> cs)).
Proof.
  revert w. induction rest as [x|e|R s k IH|k IH]; intros w Hr He; simpl in He.
  - simplify_eq.
    pose proof (reaches_advance _ _ _ c Served _ Hr (lookup_insert_eq _ _ _)) as H.
    unfold effect in H. simpl in H. unfold end_transaction in H. simpl in H.
    rewrite !decide_True, insert_insert_eq in H by done. exact H.
  - done.
  - destruct (stmt_run s w) as [x w'] eqn:Es. apply (IH x w'); [|done].
    pose proof (reaches_advance _ _ _ c Served _ Hr (lookup_insert_eq _ _ _)) as H.
    unfold effect in H. simpl in H. unfold sql_execute in H. simpl in H.
    rewrite decide_True, Es, insert_insert_eq, app_nil_r in H by done. exact H.
  - apply (IH now w); [|done].
    pose proof (reaches_advance _ _ _ c Served _ Hr (lookup_insert_eq _ _ _)) as H.
    unfold effect in H. simpl in H. by rewrite insert_insert_eq, app_nil_r in H.
Qed.

Lemma reaches_transaction s0 h t now cs c b a t' :
  reaches s0 h (mkSystem (open_db t) now cs) -> cs !! c = None ->
  eval_at now b t = (Return a, t') ->
  reaches s0 (h ++ [Committed c b a]) (mkSystem (open_db t') now cs).
Proof.
  intros Hr E He.
  apply (reaches_quiet _ _ _ (mkSystem (open_db t) now (<[c := Opening b]> cs))) in Hr;
    [|exact (step_begin (mkSystem (open_db t) now cs) c (Transaction b) E)].
  pose proof (reaches_advance _ _ _ c Served _ Hr (lookup_insert_eq _ _ _)) as H.
  simpl in H. rewrite app_nil_r, insert_insert_eq in H.
  pose proof (reaches_running _ _ _ _ _ _ _ _ _ _ _ H He) as Hf.
  eapply reaches_quiet; [exact Hf|].
  pose proof (step_return (mkSystem (open_db t') now (<[c := Finished (Return a)]> cs)) c
    (Return a) (lookup_insert_eq _ _ _)) as Hs.
  simpl in Hs. by rewrite delete_insert_id in Hs.
Qed.
End Reachable.

(** ** Two processes on one file

    A counter: the two transactions overlap, the second is refused while the
    first holds the write lock, and a third process dies before it commits. *)
Definition add_to (n : Z) : body Z Z :=
  Run (Select (fun t => t)) (fun x => Now (fun _ =>
  Run (Modify (fun _ => (tt, x + n)%Z)) (fun _ => Ret (x + n)%Z))).

Definition two_writers : list (action (T := Z) (A := Z)) :=
  [Begin_call 0 (Transaction (add_to 5)); Begin_call 1 (Transaction (add_to 7));
   Step_call 0 Served; Step_call 1 Served; Return_call 1; Step_call 0 Served; Pass 1;
   Step_call 0 Served; Step_call 0 Served; Step_call 0 Abandoned; Step_call 0 Served;
   Begin_call 1 (Transaction (add_to 7)); Step_call 1 Served; Step_call 1 Served;
   Step_call 1 Served; Step_call 1 Served; Crash 1; Begin_call 1 (Transaction (add_to 1));
   Step_call 1 Served; Step_call 1 Served; Step_call 1 Served; Step_call 1 Served].

Lemma calls_are_serial_witness :
  let s := (schedule two_writers (new_file 0%Z 0)).2 in
  committed (file s) = 5%Z /\ calls s !! 0%nat = Some (Finished (Raise operational_error)) /\
  (exists hi, serial 0%Z 0 (schedule two_writers (new_file 0%Z 0)).1 hi (committed (file s)) /\
     (hi <= clock s)%Q) /\
  effect 1 Served (Running (add_to 1) (Ret 6%Z)) (file s) = Some (Committed 1 (add_to 1) 6%Z).
Proof.
  intros s. split; [by vm_compute|]. split; [by vm_compute|].
  destruct (calls_are_serial 0%Z 0 _ s (scheduled two_writers (new_file 0%Z 0))) as [H1 H2].
  split; [exact H1|]. apply (H2 1%nat (add_to 1) (Ret 6%Z) Served 6%Z); vm_compute; reflexivity.
Defined.
