(* ===== verification/SqliteLimiter.v ===== *)
(** * Rate limits in a SQLite file

    [grelmicro/resilience/ratelimiter/sqlite.py]: the two strategies as calls on
    the file of [Sqlite], over one table of rows that both share.  [now] is the
    [time()] a method reads before it waits for the connection lock, so the
    order of the calls on the file need not be the order of their [now]s. *)

From S2P Require Import Prelude Errors Sqlite RateLimitMemory.

Local Open Scope Q_scope.

(** [{table_name}]: key, then [tokens] and [updated_at]. *)
Abbreviation rate_rows := (gmap string (Q * Q)).

Definition select_rate (key : string) : stmt rate_rows (option (Q * Q)) :=
  Select (fun t => t !! key).
Definition upsert_rate (key : string) (tokens now : Q) : stmt rate_rows unit :=
  Modify (fun t => (tt, <[key := (tokens, now)]> t)).
Definition delete_rate (key : string) : stmt rate_rows unit :=
  Modify (fun t => (tt, delete key t)).

(** ** [_SQLiteTokenBucket] *)

Definition tb_key (prefix key : string) : string := prefix +:+ "tb:" +:+ key.

Definition sq_refill (c : TokenBucketConfig) (tokens last now : Q) : Q :=
  let elapsed := py_max 0 (now - last) in
  py_min (tb_cap c) (tokens + elapsed * refill_rate c).

Definition sq_tb_acquire (prefix : string) (c : TokenBucketConfig) (key : string)
    (cost : Z) (now : Q) : body rate_rows RateLimitResult :=
  let full_key := tb_key prefix key in
  Run (select_rate full_key) (fun row =>
  let '(tokens, last) := default (tb_cap c, now) row in
  let tokens := sq_refill c tokens last now in
  if (tokens >=? inject_Z cost)%py then
    let remaining := tokens - inject_Z cost in
    Run (upsert_rate full_key remaining now) (fun _ =>
    Ret (mkResult true (capacity c) (py_int remaining) 0
           ((tb_cap c - remaining) / refill_rate c)))
  else
    Run (upsert_rate full_key tokens now) (fun _ =>
    Ret (mkResult false (capacity c) (py_int tokens)
           ((inject_Z cost - tokens) / refill_rate c)
           ((tb_cap c - tokens) / refill_rate c)))).

Definition sq_tb_peek (prefix : string) (c : TokenBucketConfig) (key : string)
    (now : Q) : body rate_rows RateLimitResult :=
  Run (select_rate (tb_key prefix key)) (fun row =>
  let '(tokens, last) := default (tb_cap c, now) row in
  let tokens := sq_refill c tokens last now in
  Ret (if (tokens >=? 1)%py then
         mkResult true (capacity c) (py_int tokens) 0
           ((tb_cap c - tokens) / refill_rate c)
       else
         mkResult false (capacity c) (py_int tokens)
           ((1 - tokens) / refill_rate c) ((tb_cap c - tokens) / refill_rate c))).

Definition sq_tb_reset (prefix key : string) : body rate_rows unit :=
  run_stmt (delete_rate (tb_key prefix key)).

(** ** [_SQLiteGCRA] *)

Definition gcra_key (prefix key : string) : string := prefix +:+ "gcra:" +:+ key.

Definition sq_gcra_acquire (prefix : string) (c : SlidingWindowConfig) (key : string)
    (cost : Z) (now : Q) : body rate_rows RateLimitResult :=
  let full_key := gcra_key prefix key in
  let increment := emission_interval c * inject_Z cost in
  Run (select_rate full_key) (fun row =>
  let tat := default now (fst <$> row) in
  let new_tat := py_max tat now + increment in
  let allow_at := new_tat - window c in
  let diff := now - allow_at in
  let remaining := Qfloor (diff / emission_interval c + (1 # 2)) in
  if (remaining <? 0)%Z then
    Ret (mkResult false (sw_limit c) 0 (py_max 0 (- diff)) (py_max 0 (tat - now)))
  else
    Run (upsert_rate full_key new_tat now) (fun _ =>
    Ret (mkResult true (sw_limit c) remaining 0 (new_tat - now)))).

Definition sq_gcra_peek (prefix : string) (c : SlidingWindowConfig) (key : string)
    (now : Q) : body rate_rows RateLimitResult :=
  Run (select_rate (gcra_key prefix key)) (fun row =>
  let tat := default now (fst <$> row) in
  let new_tat := py_max tat now in
  let allow_at := new_tat - window c in
  let diff := now - allow_at in
  let remaining := Qfloor (diff / emission_interval c + (1 # 2)) in
  Ret (if (remaining <=? 0)%Z then
         let retry_after :=
           if (remaining <? 0)%Z then - diff else emission_interval c - diff in
         mkResult false (sw_limit c) 0 (py_max 0 retry_after) (py_max 0 (tat - now))
       else mkResult true (sw_limit c) remaining 0 (py_max 0 (new_tat - now)))).

Definition sq_gcra_reset (prefix key : string) : body rate_rows unit :=
  run_stmt (delete_rate (gcra_key prefix key)).

(** ** [SQLiteRateLimiterAdapter]

    [bind] picks the strategy by the configuration; [acquire] is a transaction,
    the other two methods are single statements. *)
Definition sq_limiter_call (prefix : string) (c : RateLimiterConfig) (o : limiter_op) :
    sql_call rate_rows (option RateLimitResult) :=
  match c, o with
  | TokenBucket c, OAcquire key cost now =>
      Transaction (body_bind (sq_tb_acquire prefix c key cost now) (fun r => Ret (Some r)))
  | TokenBucket c, OPeek key now =>
      Statements (body_bind (sq_tb_peek prefix c key now) (fun r => Ret (Some r)))
  | TokenBucket c, OReset key =>
      Statements (body_bind (sq_tb_reset prefix key) (fun _ => Ret None))
  | SlidingWindow c, OAcquire key cost now =>
      Transaction (body_bind (sq_gcra_acquire prefix c key cost now) (fun r => Ret (Some r)))
  | SlidingWindow c, OPeek key now =>
      Statements (body_bind (sq_gcra_peek prefix c key now) (fun r => Ret (Some r)))
  | SlidingWindow c, OReset key =>
      Statements (body_bind (sq_gcra_reset prefix key) (fun _ => Ret None))
  end.

(** An operation that nothing disturbs; the strategies do not read the clock
    during a call. *)
Definition sq_limiter_exec (prefix : string) (o : RateLimiterConfig * limiter_op)
    (t : rate_rows) : outcome exn (option RateLimitResult) * rate_rows :=
  let '(r, db) := perform 0 (served_at (fun _ => 0))
                    (sq_limiter_call prefix o.1 o.2) (open_db t) in
  (r, committed db).

(** ** Keys *)

Lemma tb_key_inj prefix k k' : tb_key prefix k = tb_key prefix k' -> k = k'.
Proof.
  unfold tb_key. intros H. apply (inj (String.app prefix)) in H.
  by apply (inj (String.app "tb:")) in H.
Qed.

Lemma gcra_key_inj prefix k k' : gcra_key prefix k = gcra_key prefix k' -> k = k'.
Proof.
  unfold gcra_key. intros H. apply (inj (String.app prefix)) in H.
  by apply (inj (String.app "gcra:")) in H.
Qed.

(** The two algorithms never touch each other's rows. *)
Lemma tb_gcra_key prefix k k' : tb_key prefix k <> gcra_key prefix k'.
Proof. unfold tb_key, gcra_key. intros H. by apply (inj (String.app prefix)) in H. Qed.

(** ** What an undisturbed operation does *)

(** The tokens a row stands for at [now]. *)
Definition row_level (c : TokenBucketConfig) (row : option (Q * Q)) (now : Q) : Q :=
  let '(tokens, last) := default (tb_cap c, now) row in sq_refill c tokens last now.

Lemma sq_exec_tb prefix c o t :
  sq_limiter_exec prefix (TokenBucket c, o) t =
  match o with
  | OAcquire key cost now =>
      let lv := row_level c (t !! tb_key prefix key) now in
      let ok := (lv >=? inject_Z cost)%py in
      let lv' := if ok then lv - inject_Z cost else lv in
      (Return (Some (mkResult ok (capacity c) (py_int lv')
         (if ok then 0 else (inject_Z cost - lv) / refill_rate c)
         ((tb_cap c - lv') / refill_rate c))),
       <[tb_key prefix key := (lv', now)]> t)
  | OPeek key now =>
      let lv := row_level c (t !! tb_key prefix key) now in
      let ok := (lv >=? 1)%py in
      (Return (Some (mkResult ok (capacity c) (py_int lv)
         (if ok then 0 else (1 - lv) / refill_rate c)
         ((tb_cap c - lv) / refill_rate c))), t)
  | OReset key => (Return None, delete (tb_key prefix key) t)
  end.
Proof.
  unfold sq_limiter_exec, row_level. cbn [fst snd].
  destruct o as [key cost now|key now|key]; cbn [sq_limiter_call].
  - rewrite transaction_served. unfold keep_if_returned. simpl.
    destruct (default _ _) as [tk l]. by destruct (_ >=? _)%py.
  - rewrite statements_served. simpl.
    destruct (default _ _) as [tk l]. by destruct (_ >=? _)%py.
  - by rewrite statements_served.
Qed.

(** The arrival time a row stands for, never in the past. *)
Definition row_tat (row : option (Q * Q)) (now : Q) : Q :=
  py_max (default now (fst <$> row)) now.

Definition row_quota (c : SlidingWindowConfig) (row : option (Q * Q)) (now : Q) : Z :=
  Qfloor ((now - (row_tat row now - window c)) / emission_interval c + (1 # 2)).

(** The column read as the in-memory strategy's map. *)
Definition row_map (key : string) (row : option (Q * Q)) : gmap string Q :=
  if row is Some (tat, _) then {[key := tat]} else ∅.

Lemma row_map_lookup key row : row_map key row !! key = fst <$> row.
Proof. destruct row as [[tat u]|]; simpl; [by rewrite lookup_singleton_eq|by rewrite lookup_empty]. Qed.

Lemma row_map_small key row now : gcra_evict now (row_map key row) = row_map key row.
Proof.
  unfold gcra_evict. destruct row as [[tat u]|]; simpl; [by rewrite map_size_singleton|done].
Qed.

Lemma row_tat_memory key row now : row_tat row now = eff_tat (row_map key row) key now.
Proof. unfold row_tat, eff_tat. by rewrite row_map_lookup. Qed.

(** On one key the strategy is the in-memory one. *)
Lemma sq_exec_gcra prefix c o t :
  sq_limiter_exec prefix (SlidingWindow c, o) t =
  match o with
  | OAcquire key cost now =>
      let '(r, m) := gcra_acquire c key cost now (row_map key (t !! gcra_key prefix key)) in
      (Return (Some r),
       if allowed r then <[gcra_key prefix key := (default 0 (m !! key), now)]> t else t)
  | OPeek key now =>
      (Return (Some (gcra_peek c key now (row_map key (t !! gcra_key prefix key)))), t)
  | OReset key => (Return None, delete (gcra_key prefix key) t)
  end.
Proof.
  unfold sq_limiter_exec. cbn [fst snd].
  destruct o as [key cost now|key now|key]; cbn [sq_limiter_call].
  - rewrite transaction_served. unfold keep_if_returned, gcra_acquire. simpl.
    rewrite row_map_small, row_map_lookup.
    case_match; simpl; [done|]. by rewrite lookup_insert_eq.
  - rewrite statements_served. unfold gcra_peek. simpl. by rewrite row_map_lookup.
  - by rewrite statements_served.
Qed.

(** ** Refinement

    One adapter with a token-bucket limiter and a sliding-window limiter, as
    two ideal limiters that share nothing. *)
Inductive algorithm : Type := Bucket | Window.

Section Refinement.
Context (prefix : string) (ctb : TokenBucketConfig) (csw : SlidingWindowConfig).
Context (Htb : tb_config_valid ctb) (Hsw : sw_config_valid csw).
Implicit Types (t : rate_rows) (b : ideal_bucket) (g : string -> option Q).

Definition algorithm_config (a : algorithm) : RateLimiterConfig :=
  match a with Bucket => TokenBucket ctb | Window => SlidingWindow csw end.

Definition sq_exec (o : algorithm * limiter_op) t :
    outcome exn (option RateLimitResult) * rate_rows :=
  sq_limiter_exec prefix (algorithm_config o.1, o.2) t.

Definition limits_exec (o : algorithm * limiter_op)
    (s : ideal_bucket * (string -> option Q)) :
    option RateLimitResult * (ideal_bucket * (string -> option Q)) :=
  match o.1 with
  | Bucket => let '(r, b) := ideal_exec ctb o.2 s.1 in (r, (b, s.2))
  | Window => let '(r, g) := ideal_gcra_exec csw o.2 s.2 in (r, (s.1, g))
  end.

(** The order of the calls on the file is that of their readings of the clock,
    and costs are what [_validate_cost] lets through. *)
Fixpoint sq_ops_ok (now : Q) (ops : list (algorithm * limiter_op)) : Prop :=
  match ops with
  | [] => True
  | (a, o) :: ops =>
      ops_ok (match a with Bucket => capacity ctb | Window => sw_limit csw end) now [o] /\
      sq_ops_ok (end_time now [o]) ops
  end.

Definition row_ok (now : Q) (row : option (Q * Q)) (lv : Q) : Prop :=
  (forall tk l, row = Some (tk, l) -> 0 <= tk <= tb_cap ctb /\ l <= now) /\
  row_level ctb row now == lv.

Lemma row_level_spec row now :
  (forall tk l, row = Some (tk, l) -> l <= now) ->
  row_level ctb row now == level (tb_cap ctb) (refill_rate ctb)
    (if row is Some p then {["" := p]} else ∅) "" now.
Proof.
  intros Hl. unfold row_level, level, bucket_get, sq_refill, refill.
  destruct row as [[tk l]|]; simpl.
  - rewrite lookup_singleton_eq. simpl. specialize (Hl tk l eq_refl).
    apply py_min_proper; [done|]. apply Qplus_comp; [done|].
    apply Qmult_comp; [|done]. qcase1; lra.
  - rewrite lookup_empty. simpl. apply py_min_proper; [done|].
    apply Qplus_comp; [done|]. apply Qmult_comp; [|done]. qcase1; lra.
Qed.

Lemma row_ok_wf now row lv :
  row_ok now row lv ->
  bucket_wf (tb_cap ctb) now (if row is Some p then {["" := p]} else ∅ : gmap string (Q * Q)).
Proof.
  intros [Hr _] k p Hp. destruct row as [[tk l]|]; simpl in Hp; [|by rewrite lookup_empty in Hp].
  apply lookup_singleton_Some in Hp as [_ <-]. simpl. by apply Hr.
Qed.

Lemma row_ok_later now now' row lv :
  row_ok now row lv -> now <= now' ->
  row_ok now' row (py_min (tb_cap ctb) (lv + (now' - now) * refill_rate ctb)).
Proof.
  intros Hok Hle. pose proof (row_ok_wf _ _ _ Hok) as Hwf. destruct Hok as [Hr Hl]. split.
  - intros tk l E. specialize (Hr tk l E). lra.
  - rewrite <- Hl. rewrite !row_level_spec by (intros tk l E; specialize (Hr tk l E); lra).
    apply level_later; auto using tb_cap_pos, tb_rate_pos.
Qed.

Lemma row_ok_bounds now row lv : row_ok now row lv -> 0 <= lv <= tb_cap ctb.
Proof.
  intros Hok. pose proof (row_ok_wf _ _ _ Hok) as Hwf. destruct Hok as [Hr Hl].
  rewrite <- Hl, row_level_spec by (intros tk l E; specialize (Hr tk l E); lra).
  apply level_bounds; auto using tb_cap_pos, tb_rate_pos.
Qed.

Lemma row_ok_written now tk : 0 <= tk <= tb_cap ctb -> row_ok now (Some (tk, now)) tk.
Proof.
  intros Ht. split; [intros ?? [= <- <-]; lra|]. unfold row_level, sq_refill. simpl.
  repeat qcase1; lra.
Qed.

Lemma row_ok_proper now row lv lv' : lv == lv' -> row_ok now row lv -> row_ok now row lv'.
Proof. intros E [H1 H2]. split; [done|]. by rewrite H2. Qed.

(** The file stands for the two ideal limiters, at [now]. *)
Definition sq_related (now : Q) t (s : ideal_bucket * (string -> option Q)) : Prop :=
  ib_now s.1 <= now /\
  (forall key, row_ok (ib_now s.1) (t !! tb_key prefix key) (ib_level s.1 key)) /\
  (forall key now', now <= now' ->
     row_tat (t !! gcra_key prefix key) now' == ideal_tat s.2 key now').

Lemma sq_related_later now now' t s : now <= now' -> sq_related now t s -> sq_related now' t s.
Proof.
  intros Hle (H1 & H2 & H3). split; [lra|]. split; [done|]. intros key now2 Hn.
  apply H3. lra.
Qed.

Lemma sq_related_tat now t s key :
  sq_related now t s ->
  gcra_related now (row_map key (t !! gcra_key prefix key))
    (fun k => if decide (k = key) then s.2 k else None).
Proof.
  intros (_ & _ & Hg) k now' Hn. unfold ideal_tat. case_decide as E.
  - subst. rewrite <- row_tat_memory. by apply Hg.
  - unfold eff_tat. destruct (t !! gcra_key prefix key) as [[tat u]|]; simpl;
      rewrite ?lookup_empty, ?lookup_singleton_ne by done; simpl; qcase1; lra.
Qed.

(** Writing one row of a bucket leaves every other key as it was. *)
Lemma sq_related_write_tb now t b g b' key row :
  sq_related now t (b, g) -> ib_now b' <= now ->
  (forall k, k <> key -> row_ok (ib_now b') (t !! tb_key prefix k) (ib_level b' k)) ->
  row_ok (ib_now b') row (ib_level b' key) ->
  sq_related now (partial_alter (fun _ => row) (tb_key prefix key) t) (b', g).
Proof.
  intros (_ & _ & Hg) Hn Hk Hrow. split_and!; [done| |].
  - intros k. cbn [fst snd]. destruct (decide (k = key)) as [->|Hne].
    + by rewrite lookup_partial_alter_eq.
    + rewrite lookup_partial_alter_ne by (by intros ->%tb_key_inj). by apply Hk.
  - intros k now' Hle. cbn [fst snd].
    rewrite lookup_partial_alter_ne by apply tb_gcra_key. by apply Hg.
Qed.

Lemma sq_related_write_gcra now t b g g' key row :
  sq_related now t (b, g) ->
  (forall k, k <> key -> g' k = g k) ->
  (forall now', now <= now' -> row_tat row now' == ideal_tat g' key now') ->
  sq_related now (partial_alter (fun _ => row) (gcra_key prefix key) t) (b, g').
Proof.
  intros (Hn & Hb & Hg) Hk Hrow. split_and!; [done| |].
  - intros k. cbn [fst snd]. rewrite lookup_partial_alter_ne by (intros H; by apply (tb_gcra_key prefix k key)).
    apply Hb.
  - intros k now' Hle. cbn [fst snd]. destruct (decide (k = key)) as [->|Hne].
    + rewrite lookup_partial_alter_eq. by apply Hrow.
    + rewrite lookup_partial_alter_ne by (by intros ->%gcra_key_inj).
      unfold ideal_tat. rewrite Hk by done. by apply Hg.
Qed.

Definition simulates (o : algorithm * limiter_op) (now : Q) t s : Prop :=
  sq_related (end_time now [o.2]) (sq_exec o t).2 (limits_exec o s).2 /\
  exists r, (sq_exec o t).1 = Return r /\
    option_Forall2 result_equiv r (limits_exec o s).1.

Lemma bucket_sim o now t s :
  sq_related now t s -> ops_ok (capacity ctb) now [o] -> simulates (Bucket, o) now t s.
Proof.
  destruct s as [b g]. intros HR Hok. pose proof HR as (Hn & Hb & _). unfold simulates.
  unfold sq_exec. cbn [fst snd algorithm_config]. rewrite sq_exec_tb.
  destruct o as [key cost now'|key now'|key]; cbn [ops_ok end_time] in *; simpl in Hn, Hb.
  - destruct Hok as (Hle & Hcost & _).
    assert (forall k, row_ok now' (t !! tb_key prefix k) (ideal_at ctb b k now')) as Hk.
    { intros k. eapply row_ok_later; [apply Hb|lra]. }
    pose proof (Hk key) as Hrow. pose proof (row_ok_bounds _ _ _ Hrow) as Hbd.
    destruct Hrow as [_ E]. cbn -[row_level ideal_at].
    assert ((row_level ctb (t !! tb_key prefix key) now' >=? inject_Z cost)%py =
            (ideal_at ctb b key now' >=? inject_Z cost)%py) as -> by (by rewrite E).
    set (ok := (ideal_at ctb b key now' >=? inject_Z cost)%py).
    set (lv := row_level ctb (t !! tb_key prefix key) now') in *.
    assert (0 <= (if ok then lv - inject_Z cost else lv) <= tb_cap ctb) as Hlv.
    { pose proof (proj1 (inject_Z_nonneg cost) ltac:(lia)).
      subst ok. qcase1; lra. }
    split.
    + apply (sq_related_write_tb now' t b g); simpl.
      * by apply (sq_related_later now).
      * lra.
      * intros k Hne. by rewrite decide_False.
      * rewrite decide_True by done. eapply row_ok_proper; [|by apply row_ok_written].
        destruct ok; by rewrite E.
    + eexists. split; [done|]. constructor.
      destruct ok; [apply (ideal_result_equiv ctb true)|apply (ideal_result_equiv ctb false)];
        solve [apply Hlv | by rewrite E].
  - destruct Hok as (Hle & _).
    pose proof (row_ok_later _ now' _ _ (Hb key) ltac:(lra)) as Hrow.
    pose proof (row_ok_bounds _ _ _ Hrow) as Hbd. destruct Hrow as [_ E].
    fold (ideal_at ctb b key now') in E, Hbd. cbn -[row_level ideal_at].
    split; [by apply (sq_related_later now)|]. eexists. split; [done|]. constructor.
    assert ((row_level ctb (t !! tb_key prefix key) now' >=? 1)%py =
            (ideal_at ctb b key now' >=? 1)%py) as -> by (by rewrite E).
    apply ideal_result_equiv; [rewrite E; apply Hbd|done].
  - simpl. split; [|by eexists; split; [done|constructor]].
    apply (sq_related_write_tb now t b g); simpl; [done..| |].
    + intros k Hne. by rewrite decide_False.
    + rewrite decide_True by done. split; [done|]. unfold row_level, sq_refill. simpl.
      pose proof (tb_cap_pos ctb Htb). repeat qcase1; lra.
Qed.

Lemma window_sim o now t s :
  sq_related now t s -> ops_ok (sw_limit csw) now [o] -> simulates (Window, o) now t s.
Proof.
  destruct s as [b g]. intros HR Hok. unfold simulates.
  unfold sq_exec. cbn [fst snd algorithm_config]. rewrite sq_exec_gcra.
  destruct o as [key cost now'|key now'|key]; cbn [ops_ok end_time] in *.
  - destruct Hok as (Hle & _). apply (sq_related_later now now') in HR; [|done].
    pose proof (sq_related_tat _ _ _ key HR) as Hg.
    destruct (gcra_acquire_sim csw Hsw now' key cost now' _ _ Hg (Qle_refl _)) as [Hr Hres].
    destruct (gcra_acquire_quota csw Hsw key cost now'
      (row_map key (t !! gcra_key prefix key))) as (Ha & _ & Hm).
    rewrite (quota_ideal csw now' _ _ key now' Hg (Qle_refl _)) in Ha.
    unfold limits_exec. simpl in *.
    assert (forall q, ideal_tat (fun k => if decide (k = key) then g k else None) key q =
      ideal_tat g key q) as Et by (intros q; unfold ideal_tat; by rewrite decide_True).
    unfold ideal_quota in *. rewrite Et in *.
    destruct (gcra_acquire csw key cost now' _) as [r m]. simpl in *. rewrite Ha in *.
    destruct (cost <=? _)%Z; simpl in *.
    + split; [|by eexists]. destruct Hm as (tat & _ & ->). rewrite lookup_insert_eq in *. simpl.
      apply (sq_related_write_gcra now' t b g); [done|intros k Hne; by rewrite decide_False|].
      intros now2 Hle2. specialize (Hr key now2 Hle2). unfold eff_tat in Hr.
      rewrite lookup_insert_eq in Hr. simpl in Hr. unfold ideal_tat in *.
      by rewrite !decide_True in * by done.
    + split; [done|by eexists].
  - destruct Hok as (Hle & _). apply (sq_related_later now now') in HR; [|done].
    pose proof (sq_related_tat _ _ _ key HR) as Hg. simpl in Hg.
    pose proof (gcra_peek_sim csw now' key now' _ _ Hg (Qle_refl _)) as Hres.
    split; [done|]. eexists. split; [done|]. simpl in Hres |- *.
    assert (forall q, ideal_tat (fun k => if decide (k = key) then g k else None) key q =
      ideal_tat g key q) as Et by (intros q; unfold ideal_tat; by rewrite decide_True).
    unfold ideal_quota in *. by rewrite Et in *.
  - simpl. split; [|by eexists; split; [done|constructor]].
    apply (sq_related_write_gcra now t b g); [done|intros k Hne; by rewrite decide_False|].
    intros now' Hle. unfold row_tat, ideal_tat. rewrite decide_True by done. simpl.
    qcase1; lra.
Qed.

Lemma sq_run_sim ops now t s :
  sq_related now t s -> sq_ops_ok now ops ->
  Forall2 (fun r r' => exists x, r = Return x /\ option_Forall2 result_equiv x r')
    (run sq_exec ops t).1 (run limits_exec ops s).1.
Proof.
  revert now t s. induction ops as [|[a o] ops IH]; intros now t s HR Hok; [constructor|].
  destruct Hok as [Ho Hok]. assert (simulates (a, o) now t s) as [HR' Hres].
  { destruct a; [by apply bucket_sim|by apply window_sim]. }
  cbn [run]. destruct (sq_exec (a, o) t) as [r t'], (limits_exec (a, o) s) as [r' s'].
  simpl in *. specialize (IH _ t' s' HR' Hok).
  destruct (run sq_exec ops t'), (run limits_exec ops s'). by constructor.
Qed.

Lemma sq_related_fresh now : sq_related now ∅ (mkIdeal now (fun _ => tb_cap ctb), fun _ => None).
Proof.
  split_and!; simpl; [lra| |].
  - intros key. rewrite lookup_empty. split; [done|]. unfold row_level, sq_refill. simpl.
    pose proof (tb_cap_pos ctb Htb). repeat qcase1; lra.
  - intros key now' _. rewrite lookup_empty. unfold row_tat, ideal_tat. simpl. qcase1; lra.
Qed.
End Refinement.

(** Over one SQLite file, a token-bucket limiter and a sliding-window limiter
    of one adapter are two ideal limiters that share nothing: on every sequence
    of acquires, peeks and resets of both, in the order of their clock readings,
    each call returns and its result has the decision, limit and remaining count
    of the ideal one and equal waiting times. *)
Lemma sqlite_limiter_refines_ideal prefix ctb csw now ops :
  tb_config_valid ctb -> sw_config_valid csw -> sq_ops_ok ctb csw now ops ->
  Forall2 (fun r r' => exists x, r = Return x /\ option_Forall2 result_equiv x r')
    (run (sq_exec prefix ctb csw) ops ∅).1
    (run (limits_exec ctb csw) ops
       (mkIdeal now (fun _ => tb_cap ctb), fun _ => None)).1.
Proof.
  intros Htb Hsw Hok. apply (sq_run_sim prefix ctb csw Htb Hsw ops now); [|done].
  by apply sq_related_fresh.
Qed.

Definition sq_demo : list (algorithm * limiter_op) :=
  [(Bucket, OAcquire "a" 2 0); (Window, OAcquire "a" 1 0); (Window, OAcquire "a" 2 1);
   (Bucket, OAcquire "a" 2 1); (Bucket, OPeek "a" 2); (Bucket, OReset "a");
   (Bucket, OAcquire "a" 3 2); (Window, OPeek "a" 3)].

Lemma sqlite_limiter_refines_ideal_witness :
  Forall2 (fun r r' => exists x, r = Return x /\ option_Forall2 result_equiv x r')
    (run (sq_exec "app:" cfg_tb cfg_sw) sq_demo ∅).1
    (run (limits_exec cfg_tb cfg_sw) sq_demo
       (mkIdeal 0 (fun _ => tb_cap cfg_tb), fun _ => None)).1.
Proof.
  apply (sqlite_limiter_refines_ideal "app:" cfg_tb cfg_sw 0 sq_demo).
  - apply cfg_tb_valid.
  - apply cfg_sw_valid.
  - vm_compute; repeat split; (discriminate || done).
Defined.

(** ** The order of the clock readings

    [time()] is read before the connection lock, and another process reads its
    own, so requests may reach the file in another order than their [now]s. *)

(** Total cost admitted by the acquires of [key]. *)
Fixpoint sq_admitted (key : string)
    (l : list (string * Z * Q * RateLimitResult)) : Z :=
  match l with
  | [] => 0
  | (k, cost, _, r) :: l =>
      (if decide (k = key) then if allowed r then cost else 0 else 0) + sq_admitted key l
  end.

Lemma sq_admitted_app key l1 l2 :
  sq_admitted key (l1 ++ l2) = (sq_admitted key l1 + sq_admitted key l2)%Z.
Proof. induction l1 as [|[[[k z] n] r] l1 IH]; simpl; [done|]. rewrite IH. lia. Qed.

(** The history of a file used by sliding-window limiters of one adapter:
    entry by entry, the request and the result it committed with. *)
Definition gcra_entry (prefix : string) (c : SlidingWindowConfig)
    (e : commit_entry (rate_rows) (option RateLimitResult))
    (o : string * Z * Q * RateLimitResult) : Prop :=
  let '(key, cost, now, r) := o in
  exists conn,
    e = Committed conn (body_bind (sq_gcra_acquire prefix c key cost now)
                          (fun r => Ret (Some r))) (Some r).

(** One committed request, whatever the row was. *)
Lemma gcra_commit prefix c key cost now l t r t' :
  sw_config_valid c ->
  body_eval (body_bind (sq_gcra_acquire prefix c key cost now) (fun r => Ret (Some r))) l t =
    Some (Return (Some r), t') ->
  (forall k, k <> key -> t' !! gcra_key prefix k = t !! gcra_key prefix k) /\
  if allowed r then
    exists tat, (fst <$> t' !! gcra_key prefix key) = Some tat /\
      tat == row_tat (t !! gcra_key prefix key) now + emission_interval c * inject_Z cost /\
      tat <= now + window c + emission_interval c * (1 # 2)
  else t' = t.
Proof.
  intros Hc. cbn [sq_gcra_acquire body_bind body_eval stmt_run select_rate]. set (tat := default now (fst <$> t !! gcra_key prefix key)).
  set (new_tat := py_max tat now + emission_interval c * inject_Z cost).
  set (x := (now - (new_tat - window c)) / emission_interval c).
  destruct (Z.ltb_spec (Qfloor (x + (1 # 2))) 0) as [L|L];
    cbn [body_bind body_eval stmt_run upsert_rate]; (destruct l; [|done]); intros [= <- <-];
    cbn [allowed]; [by split|]. split.
  { intros k Hk. rewrite lookup_insert_ne; [done|]. by intros E%gcra_key_inj. }
  exists new_tat. rewrite lookup_insert_eq. simpl. split; [done|]. split; [done|].
  apply (proj2 (Qfloor_ge _ 0)) in L. change (inject_Z 0) with 0 in L.
  pose proof (ei_pos c Hc) as He.
  assert (- (1 # 2) <= x) as L' by lra.
  apply (Qmult_le_r _ _ (emission_interval c) He) in L'. unfold x in L'.
  rewrite Qdiv_mul in L' by done. lra.
Qed.

Definition request_between (lo hi : Q) (o : string * Z * Q * RateLimitResult) : Prop :=
  let '(_, cost, now, _) := o in (1 <= cost)%Z /\ lo <= now <= hi.

Lemma gcra_serial prefix c key t0 lo h hi t ops a b :
  sw_config_valid c -> a <= b ->
  serial t0 lo h hi t -> Forall2 (gcra_entry prefix c) h ops ->
  Forall (request_between a b) ops ->
  let tat0 := row_tat (t0 !! gcra_key prefix key) a in
  let tat := row_tat (t !! gcra_key prefix key) a in
  tat0 + emission_interval c * inject_Z (sq_admitted key ops) <= tat /\
  (tat <= tat0 \/ tat <= b + window c + emission_interval c * (1 # 2)).
Proof.
  intros Hc Hab Hs. pose proof (ei_pos c Hc) as He. revert ops.
  induction Hs as [|h mid t c' bd x l hi t' Hs IH Hl Hev|h mid t c' f Hs IH]; intros ops Ho Hb.
  - inversion Ho; subst. simpl. qz. split; [lra|left; lra].
  - apply Forall2_app_inv_l in Ho as (ops1 & ops2 & Ho1 & Ho2 & ->).
    apply Forall_app in Hb as [Hb1 Hb2].
    inversion Ho2 as [|? o ? ? Hone Hnil]; subst. inversion Hnil; subst.
    rewrite Forall_singleton in Hb2. destruct o as [[[k cost] now] r].
    destruct Hone as (conn & Heq).
    apply committed_inj in Heq as [-> ->]. destruct Hb2 as [Hcost Hnow].
    destruct (IH ops1 Ho1 Hb1) as [IH1 IH2]. clear IH. cbv zeta in *.
    destruct (gcra_commit prefix c k cost now l t r t' Hc Hev) as [Hother Hk].
    rewrite sq_admitted_app, inject_Z_plus. cbn [sq_admitted]. rewrite Z.add_0_r.
    destruct (allowed r).
    + destruct (decide (k = key)) as [->|Hne]; [|rewrite Hother by done; qz; split; [lra|done]].
      destruct Hk as (tat & E & Ht & Hbd).
      pose proof (proj1 (inject_Z_nonneg cost) ltac:(lia)) as Hz.
      assert (0 <= emission_interval c * inject_Z cost) as Hz' by nra.
      assert (row_tat (t !! gcra_key prefix key) a <= row_tat (t !! gcra_key prefix key) now) as Hm.
      { unfold row_tat. destruct (t !! gcra_key prefix key) as [[y u]|]; simpl; repeat qcase1; lra. }
      set (rt := row_tat (t' !! gcra_key prefix key) a).
      assert (tat <= rt) as H1 by (unfold rt, row_tat; rewrite E; simpl; qcase1; lra).
      assert (rt <= b + window c + emission_interval c * (1 # 2)) as H2.
      { unfold rt, row_tat. rewrite E. simpl. destruct Hc as [_ Hw]. qcase1; lra. }
      split; [lra|by right].
    + subst t'. case_decide; qz; by split; [lra|].
  - apply Forall2_app_inv_l in Ho as (ops1 & ops2 & _ & Ho2 & ->).
    inversion Ho2 as [|? o ? ? Hone _]; subst. destruct o as [[[k cost] now] r].
    by destruct Hone as (conn & ?).
Qed.

(** C27 Processes that share a SQLite file and limit one key by a sliding window,
    with their requests interleaved, cancelled, refused and cut short in any
    way, and reaching the file in another order than their readings of the
    clock: what they are granted together in a period stays within the limit,
    the rate times the period, and half a request. *)
Theorem sqlite_window_bounds_the_fleet prefix c key (t0 : rate_rows) start h
    (s : sql_system rate_rows (option RateLimitResult)) ops a b :
  sw_config_valid c -> a <= b ->
  reaches (new_file t0 start) h s ->
  Forall2 (gcra_entry prefix c) h ops -> Forall (request_between a b) ops ->
  emission_interval c * inject_Z (sq_admitted key ops) <=
  (b - a) + window c + emission_interval c * (1 # 2).
Proof.
  intros Hc Hab Hr Ho Hb.
  destruct (serial_ok_reaches t0 start h s Hr) as (mid & Hs & _).
  destruct (gcra_serial prefix c key _ _ _ _ _ ops a b Hc Hab Hs Ho Hb) as [H1 H2].
  pose proof (ei_pos c Hc) as He. destruct Hc as [_ Hw].
  assert (a <= row_tat (t0 !! gcra_key prefix key) a) by (unfold row_tat; qcase1; lra).
  destruct H2; lra.
Qed.

(** Two processes; the later reading of the clock reaches the file first. *)
Definition fleet_request (now : Q) : body rate_rows (option RateLimitResult) :=
  body_bind (sq_gcra_acquire "" cfg_sw "a" 1 now) (fun r => Ret (Some r)).

Definition fleet_result (now : Q) (t : rate_rows) : RateLimitResult :=
  if (eval_at 10 (fleet_request now) t).1 is Return (Some r) then r
  else mkResult false 0 0 0 0.

Definition fleet_rows : rate_rows := (eval_at 10 (fleet_request 9) ∅).2.

Lemma sqlite_window_bounds_the_fleet_witness :
  let ops := [("a", 1%Z, 9, fleet_result 9 ∅); ("a", 1%Z, 4, fleet_result 4 fleet_rows)] in
  sq_admitted "a" ops = 1%Z /\
  emission_interval cfg_sw * inject_Z (sq_admitted "a" ops) <=
  (10 - 0) + window cfg_sw + emission_interval cfg_sw * (1 # 2).
Proof.
  intros ops. split; [by vm_compute|].
  refine (sqlite_window_bounds_the_fleet "" cfg_sw "a" ∅ 10
    (([] ++ [Committed 1 (fleet_request 9) (Some (fleet_result 9 ∅))]) ++
     [Committed 0 (fleet_request 4) (Some (fleet_result 4 fleet_rows))])
    (mkSystem (open_db (eval_at 10 (fleet_request 4) fleet_rows).2) 10 ∅) ops 0 10 _ _ _ _ _).
  - apply cfg_sw_valid.
  - lra.
  - apply (reaches_transaction _ _ fleet_rows); [|done|by vm_compute].
    apply (reaches_transaction _ _ ∅); [apply reaches_refl|done|by vm_compute].
  - repeat constructor; by eexists.
  - repeat constructor; vm_compute; discriminate.
Defined.

(** A request whose reading of the clock is old stores it over a newer one, and
    the token bucket refills the same seconds again: a bucket of three with one
    token every two seconds, whose clock readings lie between 0 and 6, grants
    twelve where [tb_admission_bound] allows six. *)
Lemma late_writer_refills_twice :
  let acquire cost now := (TokenBucket cfg_tb, OAcquire "a" cost now) in
  let ops := [acquire 3%Z 6; acquire 1%Z 0; acquire 3%Z 6; acquire 1%Z 0;
              acquire 3%Z 6; acquire 1%Z 0; acquire 3%Z 6] in
  let granted r := if r is Return (Some r) then allowed r else false in
  List.map granted (run (sq_limiter_exec "") ops ∅).1 =
    [true; false; true; false; true; false; true] /\
  tb_cap cfg_tb + (6 - 0) * refill_rate cfg_tb == 6.
Proof. by vm_compute. Qed.
