(* ===== verification/SqliteCoordination.v ===== *)
(** * Locks and schedules in a SQLite file

    [grelmicro/coordination/sqlite.py]: the lock adapter, whose decision is one
    upsert with a fencing number, and the schedule adapter, whose decision is a
    gated upsert.  [datetime('now')] is SQLite's clock in whole seconds; a
    statement reads it once.  Text dates compare as their instants do (years up
    to 9999). *)

From S2P Require Import Prelude Errors CoordinationMemory CronTask Sqlite.

Local Open Scope Z_scope.

(** ** [SQLiteLockAdapter] *)

(** A row: [token], [expire_at] in seconds, [fence]. *)
Record lock_row : Type := mkLockRow {
  sr_token : option string;
  sr_expire_at : option Z;
  sr_fence : Z;
}.

Abbreviation lock_rows := (gmap string lock_row).

(** [datetime('now')] *)
Definition sql_now (now : Q) : Z := Qfloor now.

(** [expire_at >= datetime('now')]; false when [expire_at] is null. *)
Definition sql_live (now : Q) (r : lock_row) : bool :=
  if sr_expire_at r is Some e then sql_now now <=? e else false.

(** [expire_at < datetime('now')]; false when [expire_at] is null. *)
Definition sql_over (now : Q) (r : lock_row) : bool :=
  if sr_expire_at r is Some e then e <? sql_now now else false.

(** [_SQL_ACQUIRE_OR_EXTEND]; [seconds] is [ceil(duration)]. *)
Definition acquire_or_extend (name token : string) (seconds : Z) (now : Q)
    (t : lock_rows) : option Z * lock_rows :=
  let write fence :=
    (Some fence, <[name := mkLockRow (Some token) (Some (sql_now now + seconds)) fence]> t) in
  match t !! name with
  | None => write 1
  | Some r =>
      let same := bool_decide (sr_token r = Some token) in
      if same || bool_decide (sr_token r = None) || bool_decide (sr_expire_at r = None)
         || sql_over now r
      then write (if same && sql_live now r then sr_fence r else sr_fence r + 1)
      else (None, t)
  end.

(** [_SQL_RELEASE] *)
Definition release_row (name token : string) (now : Q) (t : lock_rows) :
    bool * lock_rows :=
  match t !! name with
  | Some r =>
      if bool_decide (sr_token r = Some token) && sql_live now r
      then (true, <[name := mkLockRow None None (sr_fence r)]> t)
      else (false, t)
  | None => (false, t)
  end.

(** [_SQL_RELEASE_ALL_EXPIRED] *)
Definition release_all_expired (now : Q) (t : lock_rows) : lock_rows :=
  (fun r => if sql_over now r then mkLockRow None None (sr_fence r) else r) <$> t.

(** [_SQL_LOCKED] and [_SQL_OWNED] *)
Definition select_locked (name : string) (now : Q) (t : lock_rows) : bool :=
  if t !! name is Some r then negb (bool_decide (sr_token r = None)) && sql_live now r
  else false.

Definition select_owned (name token : string) (now : Q) (t : lock_rows) : bool :=
  if t !! name is Some r then bool_decide (sr_token r = Some token) && sql_live now r
  else false.

Inductive lock_reply : Type :=
| RFence (fence : option Z)
| RBool (b : bool)
| RUnit.

(** [acquire]: the body of its transaction. *)
Definition sq_acquire (name token : string) (duration : Q) : body lock_rows lock_reply :=
  Now (fun now =>
  Run (Modify (acquire_or_extend name token (Qceiling duration) now)) (fun fence =>
  Ret (RFence fence))).

(** The other methods are single statements. *)
Definition sq_release (name token : string) : body lock_rows lock_reply :=
  Now (fun now => Run (Modify (release_row name token now)) (fun b => Ret (RBool b))).
Definition sq_locked (name : string) : body lock_rows lock_reply :=
  Now (fun now => Run (Select (select_locked name now)) (fun b => Ret (RBool b))).
Definition sq_owned (name token : string) : body lock_rows lock_reply :=
  Now (fun now => Run (Select (select_owned name token now)) (fun b => Ret (RBool b))).

(** [__aexit__] of the adapter frees every lease that is over. *)
Definition sq_lock_close : body lock_rows lock_reply :=
  Now (fun now => Run (Modify (fun t => (tt, release_all_expired now t))) (fun _ => Ret RUnit)).

Inductive lock_method : Type :=
| MAcquire (name token : string) (duration : Q)
| MRelease (name token : string)
| MLocked (name : string)
| MOwned (name token : string)
| MClose.

Definition sq_lock_call (m : lock_method) : sql_call lock_rows lock_reply :=
  match m with
  | MAcquire name token duration => Transaction (sq_acquire name token duration)
  | MRelease name token => Statements (sq_release name token)
  | MLocked name => Statements (sq_locked name)
  | MOwned name token => Statements (sq_owned name token)
  | MClose => Statements sq_lock_close
  end.

(** A method that nothing disturbs, at [now]. *)
Definition sq_lock_exec (m : lock_method) (now : Q) (t : lock_rows) :
    outcome exn lock_reply * lock_rows :=
  let '(r, db) := perform 0 (served_at (fun _ => now)) (sq_lock_call m) (open_db t) in
  (r, committed db).

Lemma sq_lock_exec_spec m now t :
  sq_lock_exec m now t =
  match m with
  | MAcquire name token d =>
      let '(f, t) := acquire_or_extend name token (Qceiling d) now t in (Return (RFence f), t)
  | MRelease name token =>
      let '(b, t) := release_row name token now t in (Return (RBool b), t)
  | MLocked name => (Return (RBool (select_locked name now t)), t)
  | MOwned name token => (Return (RBool (select_owned name token now t)), t)
  | MClose => (Return RUnit, release_all_expired now t)
  end.
Proof.
  unfold sq_lock_exec. destruct m as [n tk d|n tk|n|n tk|]; cbn [sq_lock_call].
  - rewrite transaction_served. unfold keep_if_returned. simpl.
    by destruct (acquire_or_extend n tk (Qceiling d) now t).
  - rewrite statements_served. simpl. by destruct (release_row n tk now t).
  - by rewrite statements_served.
  - by rewrite statements_served.
  - by rewrite statements_served.
Qed.

#[local] Arguments sq_lock_exec : simpl never.

(** ** The lease it keeps, in whole seconds *)

Definition row_lease (r : option lock_row) : Lease :=
  match r with
  | Some r =>
      mkLease (match sr_token r, sr_expire_at r with
               | Some token, Some e => Some (token, inject_Z e)
               | _, _ => None
               end) (sr_fence r)
  | None => no_lease
  end.

(** A row has a token exactly when it has a deadline. *)
Definition lock_rows_ok (t : lock_rows) : Prop :=
  map_Forall (fun _ r => is_Some (sr_token r) <-> is_Some (sr_expire_at r)) t.

(** The instant at which the whole second of [now] began. *)
Definition second (now : Q) : Q := inject_Z (sql_now now).

Lemma Qlt_bool_inject (a b : Z) : (inject_Z a <? inject_Z b)%py = (a <? b).
Proof.
  destruct (Qlt_bool_spec (inject_Z a) (inject_Z b)) as [H|H], (Z.ltb_spec a b); try done.
  - rewrite <- inject_Z_lt in H. lia.
  - rewrite <- inject_Z_le in H. lia.
Qed.

Lemma inject_Z_add (a b : Z) : (inject_Z a + inject_Z b)%Q = inject_Z (a + b).
Proof. unfold inject_Z, Qplus. simpl. by rewrite !Z.mul_1_r. Qed.

Lemma row_live_holder now r :
  live_holder (second now) (row_lease (Some r)) =
  if sql_live now r then sr_token r else None.
Proof.
  unfold live_holder, row_lease, sql_live, second. simpl.
  destruct (sr_token r) as [tk|]; [|by case_match; [case_match|]].
  destruct (sr_expire_at r) as [e|]; [|done]. rewrite Qlt_bool_inject.
  destruct (Z.ltb_spec e (sql_now now)), (Z.leb_spec (sql_now now) e); done || lia.
Qed.

Lemma acquire_row_refines name token seconds now t :
  lock_rows_ok t ->
  let '(f, t') := acquire_or_extend name token seconds now t in
  (f, row_lease (t' !! name)) =
    lease_acquire token (inject_Z seconds) (second now) (second now) (row_lease (t !! name)) /\
  lock_rows_ok t' /\ forall n, n <> name -> t' !! n = t !! n.
Proof.
  intros Hok. unfold lease_acquire.
  assert (forall f, lock_rows_ok (<[name := mkLockRow (Some token)
            (Some (sql_now now + seconds)) f]> t)) as Hw.
  { intros f. apply map_Forall_insert_2; [|done]. simpl. split; by eexists. }
  assert (forall f, row_lease (<[name := mkLockRow (Some token)
            (Some (sql_now now + seconds)) f]> t !! name) =
          mkLease (Some (token, (second now + inject_Z seconds)%Q)) f) as Hl.
  { intros f. rewrite lookup_insert_eq. unfold row_lease. simpl. unfold second.
    by rewrite inject_Z_add. }
  assert (forall f n, n <> name -> (<[name := mkLockRow (Some token)
            (Some (sql_now now + seconds)) f]> t) !! n = t !! n) as Hn
    by (intros; by apply lookup_insert_ne).
  unfold acquire_or_extend. destruct (t !! name) as [r|] eqn:E.
  2: { lazy beta iota zeta. rewrite Hl. by split_and!; auto. }
  rewrite row_live_holder. specialize (Hok name r E) as Hr. simpl in Hr.
  unfold sql_live, sql_over. destruct r as [[tk|] [e|] f]; simpl in *;
    try (destruct Hr as [H1 H2]; by destruct (H1 (ex_intro _ _ eq_refl)) || by destruct (H2 (ex_intro _ _ eq_refl))).
  - destruct (Z.leb_spec (sql_now now) e), (Z.ltb_spec e (sql_now now)); try lia.
    + destruct (decide (tk = token)) as [->|Hne].
      * rewrite bool_decide_eq_true_2 by done. lazy beta iota zeta delta [orb andb]. rewrite Hl. by split_and!; auto.
      * rewrite !bool_decide_eq_false_2 by congruence. lazy beta iota zeta delta [orb andb]. rewrite E. by split_and!.
    + rewrite !orb_true_r, andb_false_r. lazy beta iota zeta. rewrite Hl. by split_and!; auto.
  - lazy beta iota zeta delta [orb andb]. rewrite Hl. by split_and!; auto.
Qed.

Lemma release_row_refines name token now t :
  lock_rows_ok t ->
  let '(b, t') := release_row name token now t in
  (b, row_lease (t' !! name)) = lease_release token (second now) (row_lease (t !! name)) /\
  lock_rows_ok t' /\ forall n, n <> name -> t' !! n = t !! n.
Proof.
  intros Hok. unfold release_row, lease_release. destruct (t !! name) as [r|] eqn:E.
  2: { by rewrite E. }
  rewrite row_live_holder. destruct (sql_live now r) eqn:El.
  - rewrite andb_true_r. case_bool_decide as Eb.
    + rewrite decide_True by done. rewrite lookup_insert_eq. split; [done|]. split.
      * apply map_Forall_insert_2; [|done]. simpl. split; by intros [].
      * intros n Hn. by apply lookup_insert_ne.
    + by rewrite decide_False, E.
  - rewrite andb_false_r, decide_False by done. by rewrite E.
Qed.

Lemma select_owned_lease name token now t :
  select_owned name token now t =
  bool_decide (live_holder (second now) (row_lease (t !! name)) = Some token).
Proof.
  unfold select_owned. destruct (t !! name) as [r|]; [|done].
  rewrite row_live_holder. destruct (sql_live now r); [by rewrite andb_true_r|].
  by rewrite andb_false_r.
Qed.

Lemma select_locked_lease name now t :
  select_locked name now t =
  bool_decide (is_Some (live_holder (second now) (row_lease (t !! name)))).
Proof.
  assert (~ is_Some (@None string)) as Hno by (by intros []).
  unfold select_locked. destruct (t !! name) as [r|].
  2: { symmetry. by apply bool_decide_eq_false_2. }
  rewrite row_live_holder. destruct (sql_live now r).
  - rewrite andb_true_r. destruct (sr_token r); [by rewrite (bool_decide_eq_true_2 (is_Some (Some _)))|].
    by rewrite (bool_decide_eq_false_2 (is_Some None)).
  - rewrite andb_false_r. by rewrite bool_decide_eq_false_2.
Qed.

Lemma close_refines now t n :
  lock_rows_ok t ->
  lock_rows_ok (release_all_expired now t) /\
  lease_equiv (second now) (row_lease (release_all_expired now t !! n)) (row_lease (t !! n)).
Proof.
  intros Hok. unfold release_all_expired. split.
  - intros k r. rewrite lookup_fmap. destruct (t !! k) as [r'|] eqn:E; [|done]. simpl.
    intros [= <-]. specialize (Hok k r' E). simpl in *. destruct (sql_over now r'); [|done].
    simpl. split; by intros [].
  - rewrite lookup_fmap. destruct (t !! n) as [r|]; [|done]. simpl.
    destruct (sql_over now r) eqn:Eo; [|done]. unfold sql_over in Eo.
    destruct (sr_expire_at r) as [e|] eqn:Ee; [|done]. apply Z.ltb_lt in Eo.
    unfold row_lease. simpl. destruct (sr_token r) as [tk|]; rewrite ?Ee; [|done].
    apply lease_equiv_expired. unfold second. by rewrite <- inject_Z_lt.
Qed.

(** ** Refinement: one lease per name, on a clock of whole seconds *)

Definition put_lease (n : string) (l : Lease) (ls : string -> Lease) : string -> Lease :=
  fun n' => if decide (n' = n) then l else ls n'.

Definition lease_method (o : lock_method * Q) (ls : string -> Lease) :
    lock_reply * (string -> Lease) :=
  let '(m, now) := o in
  let now := second now in
  match m with
  | MAcquire name token d =>
      let '(f, l) := lease_acquire token (inject_Z (Qceiling d)) now now (ls name) in
      (RFence f, put_lease name l ls)
  | MRelease name token =>
      let '(b, l) := lease_release token now (ls name) in (RBool b, put_lease name l ls)
  | MLocked name => (RBool (bool_decide (is_Some (live_holder now (ls name)))), ls)
  | MOwned name token => (RBool (bool_decide (live_holder now (ls name) = Some token)), ls)
  | MClose => (RUnit, ls)
  end.

Fixpoint methods_timed (now : Q) (ops : list (lock_method * Q)) : Prop :=
  match ops with
  | [] => True
  | o :: ops => (now <= o.2)%Q /\ methods_timed o.2 ops
  end.

Definition leases_related (now : Q) (t : lock_rows) (ls : string -> Lease) : Prop :=
  lock_rows_ok t /\ forall n, lease_equiv (second now) (row_lease (t !! n)) (ls n).

Lemma second_mono now now' : (now <= now')%Q -> (second now <= second now')%Q.
Proof. intros H. unfold second. rewrite <- inject_Z_le. by apply Qfloor_resp_le. Qed.

Lemma leases_related_later now now' t ls :
  (now <= now')%Q -> leases_related now t ls -> leases_related now' t ls.
Proof.
  intros H [Hok Hl]. split; [done|]. intros n.
  eapply lease_equiv_later; [by apply second_mono|done].
Qed.

Lemma leases_related_put now t t' ls name l :
  leases_related now t ls -> lock_rows_ok t' ->
  (forall n, n <> name -> t' !! n = t !! n) ->
  lease_equiv (second now) (row_lease (t' !! name)) l ->
  leases_related now t' (put_lease name l ls).
Proof.
  intros [_ Hl] Hok Hn He. split; [done|]. intros n. unfold put_lease.
  case_decide as E; [by subst|]. by rewrite Hn.
Qed.

Lemma lease_acquire_equiv token d now l l' :
  lease_equiv now l l' ->
  (lease_acquire token d now now l).1 = (lease_acquire token d now now l').1 /\
  lease_equiv now (lease_acquire token d now now l).2 (lease_acquire token d now now l').2.
Proof.
  intros [Hf Hl]. unfold lease_acquire. rewrite (Hl now) by lra.
  destruct (live_holder now l') as [h|]; [case_decide|]; by rewrite ?Hf.
Qed.

Lemma lease_release_equiv token now l l' :
  lease_equiv now l l' ->
  (lease_release token now l).1 = (lease_release token now l').1 /\
  lease_equiv now (lease_release token now l).2 (lease_release token now l').2.
Proof.
  intros [Hf Hl]. unfold lease_release. rewrite (Hl now) by lra.
  case_decide; simpl; [|done]. by rewrite Hf.
Qed.

Lemma lock_method_sim m now t ls :
  leases_related now t ls ->
  (sq_lock_exec m now t).1 = Return (lease_method (m, now) ls).1 /\
  leases_related now (sq_lock_exec m now t).2 (lease_method (m, now) ls).2.
Proof.
  intros HR. pose proof HR as [Hok Hl]. rewrite sq_lock_exec_spec.
  destruct m as [n tk d|n tk|n|n tk|]; simpl.
  - pose proof (acquire_row_refines n tk (Qceiling d) now t Hok) as H.
    destruct (acquire_or_extend n tk (Qceiling d) now t) as [f t']. destruct H as (E & Hok' & Hn).
    destruct (lease_acquire_equiv tk (inject_Z (Qceiling d)) (second now) _ _ (Hl n)) as [E1 E2].
    rewrite <- E in E1, E2. simpl in E1, E2.
    destruct (lease_acquire _ _ _ _ (ls n)) as [f' l']. simpl in *. subst.
    split; [done|]. by eapply leases_related_put.
  - pose proof (release_row_refines n tk now t Hok) as H.
    destruct (release_row n tk now t) as [b t']. destruct H as (E & Hok' & Hn).
    destruct (lease_release_equiv tk (second now) _ _ (Hl n)) as [E1 E2].
    rewrite <- E in E1, E2. simpl in E1, E2.
    destruct (lease_release _ _ (ls n)) as [b' l']. simpl in *. subst.
    split; [done|]. by eapply leases_related_put.
  - rewrite select_locked_lease. by rewrite (proj2 (Hl n)) by lra.
  - rewrite select_owned_lease. by rewrite (proj2 (Hl n)) by lra.
  - split; [done|]. split.
    + by apply (close_refines now t "").
    + intros n. destruct (close_refines now t n Hok) as [_ H]. by etrans.
Qed.

Lemma lock_methods_sim now t ls ops :
  leases_related now t ls -> methods_timed now ops ->
  (run (fun o t => sq_lock_exec o.1 o.2 t) ops t).1 =
  Return <$> (run lease_method ops ls).1.
Proof.
  revert now t ls. induction ops as [|[m now'] ops IH]; intros now t ls HR Ht; [done|].
  destruct Ht as [Hle Ht]. simpl in Hle.
  destruct (lock_method_sim m now' t ls (leases_related_later _ _ _ _ Hle HR)) as [E HR'].
  cbn [run fst snd]. destruct (sq_lock_exec m now' t) as [r t'].
  destruct (lease_method (m, now') ls) as [r' ls']. simpl in *. subst.
  specialize (IH now' t' ls' HR' Ht).
  destruct (run _ ops t') as [rs t2], (run lease_method ops ls') as [rs' ls2]. simpl in *.
  by subst.
Qed.

(** C28 The SQLite lock keeps one lease per name on a clock of whole seconds: over
    any sequence of its methods, closings of an adapter included, with a clock
    that does not go back, each returns and answers what a lease answers whose
    duration is rounded up to whole seconds. *)
Theorem sqlite_lock_refines_leases now ops :
  methods_timed now ops ->
  (run (fun o t => sq_lock_exec o.1 o.2 t) ops ∅).1 =
  Return <$> (run lease_method ops (fun _ => no_lease)).1.
Proof. intros Ht. eapply (lock_methods_sim now); [|done]. split; done. Qed.

Definition lock_demo : list (lock_method * Q) :=
  [(MAcquire "a" "w1" (5 # 2), 1 # 2); (MAcquire "a" "w2" 1, 1); (MLocked "a", 3);
   (MOwned "a" "w1", 7 # 2); (MClose, 4); (MAcquire "a" "w2" 1, 4); (MRelease "a" "w2", 5);
   (MAcquire "a" "w2" 1, 5)]%Q.

Lemma sqlite_lock_refines_leases_witness :
  (run (fun o t => sq_lock_exec o.1 o.2 t) lock_demo ∅).1 =
  Return <$> (run lease_method lock_demo (fun _ => no_lease)).1 /\
  (run lease_method lock_demo (fun _ => no_lease)).1 =
    [RFence (Some 1); RFence None; RBool true; RBool true; RUnit; RFence (Some 2);
     RBool true; RFence (Some 3)].
Proof.
  split; [|by vm_compute].
  apply (sqlite_lock_refines_leases 0 lock_demo); vm_compute; repeat split; discriminate.
Defined.

(** How long a SQLite lease lasts: a lock granted at [now] for [d] seconds is
    owned by its token at least until [now + d], nobody else is granted it before,
    and it is free two seconds later, unless the token renews or releases it. *)
Lemma sqlite_lease_duration name token other d now later t f :
  (0 < d)%Q -> (now <= later)%Q -> other <> token ->
  (sq_lock_exec (MAcquire name token d) now t).1 = Return (RFence (Some f)) ->
  let t' := (sq_lock_exec (MAcquire name token d) now t).2 in
  ((later <= now + d)%Q ->
     (sq_lock_exec (MOwned name token) later t').1 = Return (RBool true) /\
     (forall d', (sq_lock_exec (MAcquire name other d') later t').1 = Return (RFence None))) /\
  ((now + d + 2 <= later)%Q ->
     (sq_lock_exec (MLocked name) later t').1 = Return (RBool false) /\
     (forall d', (sq_lock_exec (MAcquire name other d') later t').1 = Return (RFence (Some (f + 1))))).
Proof.
  intros Hd Hle Hne. rewrite sq_lock_exec_spec. simpl. intros Hf.
  assert (exists e, (let '(f0, t0) := acquire_or_extend name token (Qceiling d) now t in
      (@Return exn _ (RFence f0), t0)).2 = e /\
      e !! name = Some (mkLockRow (Some token) (Some (sql_now now + Qceiling d)) f))
    as (t' & -> & Hrow).
  { unfold acquire_or_extend in *. destruct (t !! name) as [r|].
    - destruct (_ || _); [|done]. simpl in *. injection Hf as <-. eexists. split; [done|].
      by rewrite lookup_insert_eq.
    - simpl in *. injection Hf as <-. eexists. split; [done|]. by rewrite lookup_insert_eq. }
  pose proof (Qfloor_le now) as F1. pose proof (Qlt_floor now) as F2.
  pose proof (Qle_ceiling d) as C1. pose proof (Qceiling_lt d) as C2.
  rewrite inject_Z_plus in F2. unfold Z.sub in C2. rewrite inject_Z_plus in C2.
  change (inject_Z 1) with 1%Q in *. change (inject_Z (- (1))) with (-1)%Q in *.
  split; intros Hl; (split; [|intros d']); rewrite ?sq_lock_exec_spec;
    unfold select_owned, select_locked, acquire_or_extend; rewrite Hrow;
    unfold sql_live, sql_over, sql_now; simpl.
  - rewrite bool_decide_eq_true_2 by done.
    rewrite (proj2 (Z.leb_le _ _)); [done|]. apply Z.lt_succ_r, Qfloor_lt.
    unfold Z.succ. rewrite !inject_Z_plus. change (inject_Z 1) with 1%Q. lra.
  - rewrite bool_decide_eq_false_2 by congruence.
    rewrite (proj2 (Z.ltb_ge _ _)); [done|]. apply Z.lt_succ_r, Qfloor_lt.
    unfold Z.succ. rewrite !inject_Z_plus. change (inject_Z 1) with 1%Q. lra.
  - rewrite (proj2 (Z.leb_gt _ _)); [done|]. apply Z.le_succ_l, Qfloor_ge.
    unfold Z.succ. rewrite !inject_Z_plus. change (inject_Z 1) with 1%Q. lra.
  - rewrite bool_decide_eq_false_2 by congruence.
    rewrite (proj2 (Z.ltb_lt _ _)); [done|]. apply Z.le_succ_l, Qfloor_ge.
    unfold Z.succ. rewrite !inject_Z_plus. change (inject_Z 1) with 1%Q. lra.
Qed.

Lemma sqlite_lease_duration_witness :
  let t := (sq_lock_exec (MAcquire "a" "w1" (5 # 2)) (1 # 2) ∅).2 in
  (sq_lock_exec (MOwned "a" "w1") 3 t).1 = Return (RBool true) /\
  (sq_lock_exec (MLocked "a") 5 t).1 = Return (RBool false).
Proof.
  pose proof (sqlite_lease_duration "a" "w1" "w2" (5 # 2) (1 # 2)) as H. split.
  - refine (proj1 (proj1 (H 3%Q ∅ 1 _ _ _ _) _)); done.
  - refine (proj1 (proj2 (H 5%Q ∅ 1 _ _ _ _) _)); done.
Defined.

(** ** Fencing, for every process on the file *)

(** What the lock adapters of any number of processes commit. *)
Definition lock_commit (e : commit_entry lock_rows lock_reply) : Prop :=
  match e with
  | Committed _ b _ => exists name token d, b = sq_acquire name token d
  | Wrote _ f =>
      (exists name token now, forall t, f t = (release_row name token now t).2) \/
      (exists now, forall t, f t = release_all_expired now t)
  end.

Definition sq_granted (c : nat) (name token : string) (d : Q) (fence : Z) :
    commit_entry lock_rows lock_reply :=
  Committed c (sq_acquire name token d) (RFence (Some fence)).

(** Since [token] was granted [fence]: the number has grown, or nobody else has
    the lock. *)
Definition fenced (name token : string) (fence : Z) (t : lock_rows) : Prop :=
  exists r, t !! name = Some r /\
    (fence < sr_fence r \/
     (sr_fence r = fence /\ (sr_token r = Some token \/ sr_token r = None))).

Lemma sq_acquire_eval name token d l t o t' :
  body_eval (sq_acquire name token d) l t = Some (o, t') ->
  exists now, o = Return (RFence (acquire_or_extend name token (Qceiling d) now t).1) /\
    t' = (acquire_or_extend name token (Qceiling d) now t).2.
Proof.
  simpl. destruct l as [|now l]; [done|]. intros H. exists now.
  destruct (acquire_or_extend name token (Qceiling d) now t) as [f t1].
  simpl in *. destruct l; [|done]. by injection H as <- <-.
Qed.

Lemma acquire_fenced name token seconds now t n tk f :
  fenced n tk f t -> fenced n tk f (acquire_or_extend name token seconds now t).2.
Proof.
  intros (r & E & Hr). unfold acquire_or_extend.
  destruct (decide (n = name)) as [->|Hne].
  - rewrite E. destruct (_ || _); simpl; [|by exists r].
    eexists. rewrite lookup_insert_eq. split; [done|]. simpl.
    case_bool_decide as Eb; simpl; [|destruct Hr; lia].
    destruct (sql_live now r); [|destruct Hr; lia].
    destruct Hr as [Hr|[-> Hr]]; [by left|]. right. split; [done|].
    destruct Hr as [Hr|Hr]; [left; congruence|congruence].
  - destruct (t !! name) as [r'|]; [destruct (_ || _)|]; simpl;
      exists r; rewrite ?lookup_insert_ne by done; done.
Qed.

Lemma release_fenced name token now t n tk f :
  fenced n tk f t -> fenced n tk f (release_row name token now t).2.
Proof.
  intros (r & E & Hr). unfold release_row.
  destruct (decide (n = name)) as [->|Hne].
  - rewrite E. destruct (_ && _); simpl; [|by exists r].
    eexists. rewrite lookup_insert_eq. split; [done|]. simpl. naive_solver.
  - destruct (t !! name) as [r'|]; [destruct (_ && _)|]; simpl;
      exists r; rewrite ?lookup_insert_ne by done; done.
Qed.

Lemma close_fenced now t n tk f : fenced n tk f t -> fenced n tk f (release_all_expired now t).
Proof.
  intros (r & E & Hr). unfold fenced, release_all_expired. rewrite lookup_fmap, E. simpl.
  eexists. split; [done|]. destruct (sql_over now r); simpl; naive_solver.
Qed.

Lemma fenced_serial n tk f t0 lo h hi t :
  serial t0 lo h hi t -> Forall lock_commit h -> fenced n tk f t0 -> fenced n tk f t.
Proof.
  intros Hs Hh Hf.
  induction Hs as [|h mid t c b a l hi t' Hs IH Hl He|h mid t c g Hs IH]; [done| |];
    apply Forall_app in Hh as [Hh He']; rewrite Forall_singleton in He'; specialize (IH Hh).
  - destruct He' as (name & token & d & ->). apply sq_acquire_eval in He as (now & _ & ->).
    by apply acquire_fenced.
  - destruct He' as [(name & token & now & Hg)|(now & Hg)]; rewrite Hg;
      [by apply release_fenced|by apply close_fenced].
Qed.

(** A grant is fenced, and comes after those before it. *)
Lemma sq_granted_fenced name token d l t f t' :
  body_eval (sq_acquire name token d) l t = Some (Return (RFence (Some f)), t') ->
  fenced name token f t' /\
  forall tk0 f0, fenced name tk0 f0 t -> f0 < f \/ (f0 = f /\ tk0 = token).
Proof.
  intros (now & [= Hf] & ->)%sq_acquire_eval. unfold acquire_or_extend in *. split.
  - destruct (t !! name) as [r|]; [destruct (_ || _); [|done]|]; simpl in *;
      injection Hf as <-; eexists; rewrite lookup_insert_eq; split; try done; simpl; auto.
  - intros tk0 f0 (r & E & Hr). rewrite E in Hf. destruct (_ || _); [|done].
    simpl in Hf. injection Hf as ->.
    case_bool_decide as Eb; simpl; [|left; destruct Hr; lia].
    destruct (sql_live now r); [|left; destruct Hr; lia].
    destruct Hr as [Hr|[Hr1 Hr2]]; [by left|]. right. split; [done|].
    rewrite Eb in Hr2. by destruct Hr2 as [[= ->]|].
Qed.

(** Fencing numbers in a SQLite file order the grants of a name for all the
    processes that share it, whatever is interleaved, cancelled, refused or cut
    short, and whatever their clocks say: a later grant has a greater number, or
    the same number and the same token. *)
Lemma sqlite_fencing_orders_grants (t0 : lock_rows) start h1 h2 h3
    (s : sql_system lock_rows lock_reply) c1 c2 name token1 token2 d1 d2 f1 f2 :
  reaches (new_file t0 start)
    (h1 ++ sq_granted c1 name token1 d1 f1 :: h2 ++ sq_granted c2 name token2 d2 f2 :: h3) s ->
  Forall lock_commit h2 ->
  f1 < f2 \/ (f1 = f2 /\ token1 = token2).
Proof.
  intros Hr Hh. destruct (serial_ok_reaches _ _ _ _ Hr) as (hi & Hs & _).
  rewrite (cons_middle _ h1), app_assoc in Hs.
  rewrite (cons_middle (sq_granted c2 _ _ _ _)), !app_assoc in Hs.
  apply serial_app_inv in Hs as (m4 & t4 & Hs & _).
  apply serial_app_inv in Hs as (m3 & t3 & Hs & Hg2).
  apply serial_app_inv in Hs as (m2 & t2 & Hs & Hmid).
  apply serial_app_inv in Hs as (m1 & t1 & _ & Hg1).
  apply serial_single in Hg1 as (l1 & E1). apply serial_single in Hg2 as (l2 & E2).
  apply sq_granted_fenced in E1 as [E1 _]. apply sq_granted_fenced in E2 as [_ E2].
  eapply E2, fenced_serial; done.
Qed.

Definition fencing_history : list (commit_entry lock_rows lock_reply) :=
  [sq_granted 0 "a" "w1" 1 1; sq_granted 0 "a" "w1" 1 1; sq_granted 1 "a" "w2" 1 2]%Q.

Lemma fencing_reached :
  exists s, reaches (new_file ∅ 10%Q) fencing_history s.
Proof.
  pose (t1 := (acquire_or_extend "a" "w1" 1 10 ∅).2).
  pose (t2 := (acquire_or_extend "a" "w2" 1 20 t1).2).
  exists (mkSystem (open_db t2) 20%Q ∅).
  apply (reaches_transaction _ [sq_granted 0 "a" "w1" 1 1; sq_granted 0 "a" "w1" 1 1]%Q t1);
    [|done|by vm_compute].
  eapply reaches_quiet; [|apply (step_tick (mkSystem (open_db t1) 10%Q ∅) 20); vm_compute; discriminate].
  apply (reaches_transaction _ [sq_granted 0 "a" "w1" 1 1]%Q t1); [|done|by vm_compute].
  apply (reaches_transaction _ [] ∅); [constructor|done|by vm_compute].
Qed.

Lemma sqlite_fencing_orders_grants_witness : 1 < 2 \/ (1 = 2 /\ "w1" = "w2").
Proof.
  destruct fencing_reached as [s Hs].
  apply (sqlite_fencing_orders_grants ∅ 10 [] [sq_granted 0 "a" "w1" 1 1]%Q [] s
    0 1 "a" "w1" "w2" 1 1 1 2 Hs).
  constructor; [by eexists _, _, _|constructor].
Defined.

(** ** [SQLiteScheduleAdapter] *)

(** [_SQL_CLAIM]: the number of changed rows. *)
Definition claim_row (name : string) (due : Q) (t : Schedules) : Z * Schedules :=
  match t !! name with
  | Some last => if (last <? due)%py then (1, <[name := due]> t) else (0, t)
  | None => (1, <[name := due]> t)
  end.

(** [claim] and [last_fired] *)
Definition sq_claim (name : string) (due : Q) : sql_call Schedules bool :=
  Transaction (Run (Modify (claim_row name due)) (fun changes => Ret (changes =? 1))).

Definition sq_last_fired (name : string) : sql_call Schedules (option Q) :=
  Statements (Run (Select (fun t => t !! name)) Ret).

(** The adapter of one process: the file, and what its connection is going to
    answer.  A claim makes at most four requests.  SQLite does not roll the
    transaction of these answers back by itself. *)
Inductive answer : Type := Answered | Failed (e : exn) | Cut.

Definition response_of (a : answer) : response :=
  match a with Answered => Served | Failed e => Refused e | Cut => Abandoned end.

Record schedule_file : Type := mkScheduleFile {
  sf_db : database Schedules;
  sf_answers : nat -> answer;
}.

Definition sf_env (b : schedule_file) : environment :=
  fun i => (response_of (sf_answers b i), 0%Q).

Definition schedule_claim (name : string) (due : Q) (b : schedule_file) :
    outcome exn bool * schedule_file :=
  let '(r, db) := perform 0 (sf_env b) (sq_claim name due) (sf_db b) in
  (r, mkScheduleFile db (fun i => sf_answers b (4 + i)%nat)).

Definition read_last_fired (name : string) (b : schedule_file) :
    outcome exn (option Q) * schedule_file :=
  let '(r, db) := perform 0 (sf_env b) (sq_last_fired name) (sf_db b) in
  (r, mkScheduleFile db (fun i => sf_answers b (1 + i)%nat)).

Definition schedule_stored (b : schedule_file) (name : string) : option Q :=
  visible 0 (sf_db b) !! name.

(** What a claim may leave on the tables its connection sees. *)
Definition claim_effect (name : string) (due : Q) (t : Schedules)
    (r : outcome exn bool) (t' : Schedules) : Prop :=
  match r with
  | Return won => ((claim_row name due t).1 =? 1) = won /\ t' = (claim_row name due t).2
  | Raise _ => t' = t \/ t' = (claim_row name due t).2
  end.

Lemma sq_claim_effect name due b :
  claim_effect name due (visible 0 (sf_db b)) (schedule_claim name due b).1
    (visible 0 (sf_db (schedule_claim name due b).2)).
Proof.
  unfold schedule_claim. destruct b as [[t [[c w]|]] answers];
    destruct (perform 0 _ _ _) as [r db] eqn:E; simpl; revert E; simpl;
    unfold sf_env; simpl.
  - destruct (answers O); simpl; intros [= <- <-]; by left.
  - destruct (claim_row name due t) as [n t'] eqn:Ec.
    repeat (match goal with |- context [answers ?i] => destruct (answers i) end;
      simpl; unfold sql_execute, undo, later, end_transaction; simpl; rewrite ?Ec; simpl);
      intros [= <- <-]; unfold visible; simpl; rewrite ?Ec; auto.
Qed.

Lemma claim_row_law name due t :
  (((claim_row name due t).1 =? 1) = true /\
     (forall d, t !! name = Some d -> (d < due)%Q) /\
     (claim_row name due t).2 !! name = Some due) \/
  (((claim_row name due t).1 =? 1) = false /\
     (exists d, t !! name = Some d /\ (due <= d)%Q) /\ (claim_row name due t).2 = t).
Proof.
  unfold claim_row. destruct (t !! name) as [last|] eqn:E.
  - destruct (Qlt_bool_spec last due); simpl; [left|right].
    + rewrite lookup_insert_eq. by split_and!; [|intros ? [= <-]|].
    + split_and!; [done|by exists last|done].
  - left. simpl. by rewrite lookup_insert_eq.
Qed.

#[local] Obligation Tactic := idtac.

(** The schedule adapter is the backend the cron tasks are proved against,
    whatever its connection answers. *)
#[export] Program Instance sqlite_schedule : ScheduleBackend schedule_file := {
  sb_stored := schedule_stored;
  sb_claim := schedule_claim;
  sb_last_fired := read_last_fired;
}.
Next Obligation.
  intros name due b name' Hne. unfold schedule_stored.
  pose proof (sq_claim_effect name due b) as H.
  assert (forall t, (claim_row name due t).2 !! name' = t !! name') as Hr.
  { intros t. unfold claim_row. destruct (t !! name); [case_match|]; simpl;
      by rewrite ?lookup_insert_ne by done. }
  destruct (schedule_claim name due b).1; simpl in H; [by destruct H as [_ ->]|].
  by destruct H as [->| ->].
Qed.
Next Obligation.
  intros name due b. unfold schedule_stored. pose proof (sq_claim_effect name due b) as H.
  destruct (schedule_claim name due b) as [[[|]|e] b']; simpl in *;
    destruct (claim_row_law name due (visible 0 (sf_db b))) as [(E1 & E2 & E3)|(E1 & E2 & E3)].
  - by destruct H as [_ ->].
  - by destruct H as [H _]; rewrite E1 in H.
  - by destruct H as [H _]; rewrite E1 in H.
  - destruct H as [_ ->]. by rewrite E3.
  - destruct H as [->| ->]; [by left|by right].
  - destruct H as [->| ->]; [by left|left; by rewrite E3].
Qed.
Next Obligation.
  intros name b. unfold schedule_stored, read_last_fired.
  destruct b as [[t [[c w]|]] answers]; simpl; unfold sf_env, visible; simpl;
    destruct (answers O); simpl; unfold sql_execute; simpl; try case_decide; simpl;
    split; try done; intros d; simpl; try (by intros [= <-]);
    unfold end_transaction; simpl; case_decide; done.
Qed.
