(* ===== verification/SqliteCircuit.v ===== *)
(** * Circuits in a SQLite file

    [grelmicro/resilience/circuitbreaker/sqlite.py]: one row per breaker name,
    read, changed and written back in a transaction of [Sqlite].  Unlike the
    in-memory strategy a method reads [time()] several times, once where it
    decides and once for each row it stamps. *)

From S2P Require Import Prelude Errors Dict CircuitMemory CircuitBreaker Sqlite.

Local Open Scope Z_scope.

Definition CLEANUP_LIMIT : nat := 100.

(** [_Row] *)
Record circuit_row : Type := mkRow {
  cr_state : CircuitBreakerState;
  cr_opened_at : Q;
  cr_cool_down : Q;
  cr_cerr : Z;
  cr_csucc : Z;
  cr_ho_admit : Z;
}.

Definition new_row (state : CircuitBreakerState) : circuit_row := mkRow state 0 0 0 0 0.

(** [{table_name}]: the row and its [updated_at]. *)
Abbreviation circuit_rows := (gmap string (circuit_row * Q)).

Definition row_snapshot (r : circuit_row) : CircuitBreakerSnapshot :=
  mkSnapshot (cr_state r) (cr_opened_at r) (cr_cerr r) (cr_csucc r).

(** [_FORCED_STATES] *)
Definition is_forced (s : CircuitBreakerState) : bool :=
  match s with FORCED_OPEN | FORCED_CLOSED => true | _ => false end.

(** [_read] *)
Definition read_row (name : string) : body circuit_rows circuit_row :=
  Run (Select (fun t => t !! name)) (fun found =>
  match found with
  | None => Ret (new_row CLOSED)
  | Some (r, updated_at) =>
      if is_forced (cr_state r) then Ret r
      else Now (fun now =>
        Ret (if (updated_at + resolve_state_ttl (cr_cool_down r) <=? now)%py
             then new_row CLOSED else r))
  end).

(** [_delete] and [_write] *)
Definition delete_row (name : string) : body circuit_rows unit :=
  Run (Modify (fun t => (tt, delete name t))) Ret.
Definition write_row (name : string) (r : circuit_row) : body circuit_rows unit :=
  Now (fun now => Run (Modify (fun t => (tt, <[name := (r, now)]> t))) Ret).

(** [_try_acquire], from the test of the half-open state on. *)
Definition admit_probe (b : Strategy) (r : circuit_row) : body circuit_rows bool :=
  if bool_decide (cr_state r = HALF_OPEN)
     && (cr_ho_admit r <? half_open_capacity (s_config b))
  then write_row (s_name b)
         (mkRow (cr_state r) (cr_opened_at r) (cr_cool_down r) (cr_cerr r) (cr_csucc r)
            (cr_ho_admit r + 1)) ≫= fun _ => Ret true
  else Ret false.

(** [_try_acquire] *)
Definition sqc_try_acquire (b : Strategy) : body circuit_rows bool :=
  read_row (s_name b) ≫= fun r =>
  match cr_state r with
  | CLOSED | FORCED_CLOSED => Ret true
  | FORCED_OPEN => Ret false
  | OPEN =>
      Now (fun now =>
        if (now >=? cr_opened_at r + cr_cool_down r)%py then
          write_row (s_name b) (new_row HALF_OPEN) ≫= fun _ => admit_probe b (new_row HALF_OPEN)
        else Ret false)
  | HALF_OPEN => admit_probe b r
  end.

Definition free_slot (r : circuit_row) : Z :=
  if bool_decide (cr_state r = HALF_OPEN) && (0 <? cr_ho_admit r)
  then cr_ho_admit r - 1 else cr_ho_admit r.

(** [_record_outcome], where the call succeeded. *)
Definition record_success (b : Strategy) (r : circuit_row) :
    body circuit_rows CircuitBreakerSnapshot :=
  let csucc := cr_csucc r + 1 in
  if bool_decide (cr_state r = HALF_OPEN) && (success_threshold (s_config b) <=? csucc)
  then delete_row (s_name b) ≫= fun _ => Ret DEFAULT_SNAPSHOT
  else
    let r := mkRow (cr_state r) (cr_opened_at r) (cr_cool_down r) 0 csucc (free_slot r) in
    write_row (s_name b) r ≫= fun _ => Ret (row_snapshot r).

(** [_record_outcome], where it failed. *)
Definition record_failure (b : Strategy) (r : circuit_row) :
    body circuit_rows CircuitBreakerSnapshot :=
  let cerr := cr_cerr r + 1 in
  if error_threshold (s_config b) <=? cerr
  then Now (fun now =>
    let r := mkRow OPEN now (reset_timeout (s_config b)) 0 0 0 in
    write_row (s_name b) r ≫= fun _ => Ret (row_snapshot r))
  else
    let r := mkRow (cr_state r) (cr_opened_at r) (cr_cool_down r) cerr 0 (free_slot r) in
    write_row (s_name b) r ≫= fun _ => Ret (row_snapshot r).

(** [_record_outcome] *)
Definition sqc_record_outcome (b : Strategy) (success : bool) :
    body circuit_rows CircuitBreakerSnapshot :=
  read_row (s_name b) ≫= fun r =>
  match cr_state r with
  | FORCED_OPEN | FORCED_CLOSED | OPEN => Ret (row_snapshot r)
  | CLOSED | HALF_OPEN => if success then record_success b r else record_failure b r
  end.

(** [transition] *)
Definition sqc_transition (b : Strategy) (desired : CircuitBreakerState)
    (cool_down : option Q) : body circuit_rows unit :=
  match desired with
  | CLOSED => delete_row (s_name b)
  | OPEN =>
      Now (fun now =>
        write_row (s_name b)
          (mkRow OPEN now (default (reset_timeout (s_config b)) cool_down) 0 0 0))
  | _ => write_row (s_name b) (new_row desired)
  end.

(** [get_snapshot] *)
Definition sqc_get_snapshot (b : Strategy) : body circuit_rows CircuitBreakerSnapshot :=
  read_row (s_name b) ≫= fun r => Ret (row_snapshot r).

(** [_SQL_CLEANUP]: the rows that are over, at most [_CLEANUP_LIMIT] of them;
    SQLite picks which, so the names it [chose] are an argument. *)
Definition row_over (now : Q) (row : circuit_row * Q) : bool :=
  negb (is_forced (cr_state row.1)) &&
  (row.2 + py_max STATE_TTL (STATE_TTL_RESET_FACTOR * cr_cool_down row.1) <=? now)%py.

Definition cleanup_rows (chose : list string) (now : Q) (t : circuit_rows) : circuit_rows :=
  foldr (fun n t => if t !! n is Some row then if row_over now row then delete n t else t else t)
    t (take CLEANUP_LIMIT chose).

(** One sweep of [_janitor_loop]. *)
Definition circuit_sweep (chose : list string) : body circuit_rows unit :=
  Now (fun now => Run (Modify (fun t => (tt, cleanup_rows chose now t))) Ret).

(** ** Calls

    The methods of a strategy, and the sweep of an adapter, as calls; [name] is
    the key in the table, the prefix of the adapter included. *)
Inductive circuit_call : Type :=
| OnCircuit (name : string) (cfg : ConsecutiveCountConfig) (o : operation)
| Sweep (chose : list string).

Definition circuit_body (k : circuit_call) : body circuit_rows result :=
  match k with
  | OnCircuit name cfg Acquire =>
      sqc_try_acquire (bind name cfg) ≫= fun r => Ret (Admitted_ r)
  | OnCircuit name cfg (Record_ success) =>
      sqc_record_outcome (bind name cfg) success ≫= fun s => Ret (Snap s)
  | OnCircuit name cfg (Transition d cd) =>
      sqc_transition (bind name cfg) d cd ≫= fun _ => Ret Done
  | OnCircuit name cfg Snapshot =>
      sqc_get_snapshot (bind name cfg) ≫= fun s => Ret (Snap s)
  | Sweep chose => circuit_sweep chose ≫= fun _ => Ret Done
  end.

Definition sq_circuit_call (k : circuit_call) : sql_call circuit_rows result :=
  match k with
  | OnCircuit _ _ Snapshot => Statements (circuit_body k)
  | _ => Transaction (circuit_body k)
  end.

(** ** Rows as circuits *)

Definition row_entry (row : circuit_row * Q) : BreakerState :=
  let r := row.1 in
  mkBreaker (cr_state r) (cr_opened_at r) (cr_cool_down r) (cr_cerr r) (cr_csucc r)
    (cr_ho_admit r)
    (if is_forced (cr_state r) then Never else At (row.2 + resolve_state_ttl (cr_cool_down r))).

Definition circuit_rows_ok (t : circuit_rows) : Prop :=
  map_Forall (fun _ row => wf_entry (row_entry row)) t.

(** The table stands for the circuits, seen from [now] on. *)
Definition rows_implement (now : Q) (t : circuit_rows) (m : circuits) : Prop :=
  circuit_rows_ok t /\
  forall n u, (now <= u)%Q -> entry_view u (row_entry <$> t !! n) = circuit_view u (m n).

(** The instant a circuit stamped at [ts] is forgotten. *)
Definition stamped (ts : Q) (cd : circuit * deadline) : circuit * deadline :=
  (cd.1, match cd.1 with
         | Held _ => Never
         | Tripped _ wait => At (ts + resolve_state_ttl wait)
         | Closed _ _ | Probing _ _ _ => At (ts + STATE_TTL)
         end).

(** One operation on the circuits, that looks at [tv], decides at [td] and stamps
    at [ts]. *)
Definition late_exec (name : string) (cfg : ConsecutiveCountConfig) (o : operation)
    (tv td ts : Q) (m : circuits) : result * circuits :=
  let c := circuit_view tv (m name) in
  match o with
  | Acquire =>
      let '(r, o) := circuit_acquire cfg td c in
      (Admitted_ r, put_opt name (stamped ts <$> o) m)
  | Record_ success =>
      let o := circuit_record cfg success td c in
      (Snap (circuit_snapshot (default c (fst <$> o))), put_opt name (stamped ts <$> o) m)
  | Transition d cd => (Done, put name (stamped ts (circuit_transition cfg d cd td)) m)
  | Snapshot => (Snap (circuit_snapshot c), m)
  end.

(** ** Refinement *)

Definition row_circuit (r : circuit_row) : circuit := circuit_of (row_entry (r, 0%Q)).

Lemma implement_later now now' t m :
  rows_implement now t m -> (now <= now')%Q -> rows_implement now' t m.
Proof. intros [H1 H2] Hle. split; [done|]. intros n u Hu. apply H2. lra. Qed.

Lemma row_deadline r ts :
  wf_entry (row_entry (r, ts)) ->
  (row_circuit r, expires_at (row_entry (r, ts))) = stamped ts (row_circuit r, Never).
Proof.
  unfold stamped, row_circuit, wf_entry. destruct r as [st oa cd e s k]. simpl.
  destruct st; simpl; naive_solver.
Qed.

Lemma implement_write lo ts name r cd t m :
  rows_implement lo t m -> (lo <= ts)%Q -> wf_entry (row_entry (r, ts)) ->
  cd.1 = row_circuit r ->
  rows_implement ts (<[name := (r, ts)]> t) (put name (stamped ts cd) m).
Proof.
  intros [H1 H2] Hle Hwf Hc. split; [by apply map_Forall_insert_2|].
  intros n u Hu. destruct (decide (n = name)) as [->|Hne].
  - rewrite lookup_insert_eq, put_eq.
    transitivity (circuit_view u (row_circuit r, expires_at (row_entry (r, ts)))); [done|].
    rewrite row_deadline by done. unfold stamped. by rewrite Hc.
  - rewrite lookup_insert_ne, put_ne by done. apply H2. lra.
Qed.

Lemma implement_delete lo ts name d t m :
  rows_implement lo t m -> (lo <= ts)%Q ->
  rows_implement ts (delete name t) (put name (Closed 0 0, d) m).
Proof.
  intros [H1 H2] Hle. split; [by apply map_Forall_delete|].
  intros n u Hu. destruct (decide (n = name)) as [->|Hne].
  - rewrite lookup_delete_eq, put_eq. simpl. by rewrite circuit_view_fresh.
  - rewrite lookup_delete_ne, put_ne by done. apply H2. lra.
Qed.

Lemma fresh_row_wf : wf_entry (row_entry (new_row CLOSED, 0%Q)).
Proof. done. Qed.

(** What [_read] finds: the circuit as it stands at the instant it looks. *)
Lemma read_row_eval {A} name (k : circuit_row -> body circuit_rows A) lo hi l t m x :
  rows_implement lo t m -> within lo l hi ->
  body_eval (body_bind (read_row name) k) l t = Some x ->
  exists r tv l2, (lo <= tv)%Q /\ within tv l2 hi /\ body_eval (k r) l2 t = Some x /\
    row_circuit r = circuit_view tv (m name) /\ (forall u, wf_entry (row_entry (r, u))).
Proof.
  intros [Hok Hv] Hl. simpl. destruct (t !! name) as [[r upd]|] eqn:E; simpl.
  2: { intros He. exists (new_row CLOSED), lo, l. split_and!; try done; [lra|].
       rewrite <- Hv by lra. by rewrite E. }
  assert (forall u, wf_entry (row_entry (r, u))) as Hwf.
  { intros u. pose proof (Hok name (r, upd) E) as H. unfold wf_entry, row_entry in *.
    simpl in *. destruct (cr_state r); simpl in *; naive_solver. }
  destruct (is_forced (cr_state r)) eqn:Ef; simpl.
  { intros He. exists r, lo, l. split_and!; try done; [lra|].
    rewrite <- Hv by lra. rewrite E. simpl. unfold circuit_view, row_entry. simpl.
    by rewrite Ef. }
  destruct l as [|now l]; [done|]. destruct Hl as [Hnow Hl]. intros He.
  eexists _, now, l. split_and!; [done|done|exact He| |].
  - rewrite <- Hv by done. rewrite E. simpl. unfold circuit_view, row_entry. simpl.
    rewrite Ef. simpl. by destruct (_ <=? _)%py.
  - intros u. destruct (_ <=? _)%py; [|done]. done.
Qed.

Lemma write_row_eval {A} name r (k : unit -> body circuit_rows A) lo hi l t x :
  within lo l hi -> body_eval (body_bind (write_row name r) k) l t = Some x ->
  exists ts l2, (lo <= ts)%Q /\ within ts l2 hi /\
    body_eval (k tt) l2 (<[name := (r, ts)]> t) = Some x.
Proof.
  simpl. destruct l as [|ts l]; [done|]. intros [Hts Hl] He. by exists ts, l.
Qed.

Lemma ret_eval {A} (a : A) lo hi l (t : circuit_rows) x :
  within lo l hi -> body_eval (Ret a) l t = Some x -> x = (Return a, t) /\ (lo <= hi)%Q.
Proof. simpl. destruct l; [|done]. by intros H [= <-]. Qed.

Lemma body_bind_assoc {A B C} (m : body circuit_rows A) (k : A -> body circuit_rows B)
    (h : B -> body circuit_rows C) l t :
  body_eval (body_bind (body_bind m k) h) l t =
  body_eval (body_bind m (fun a => body_bind (k a) h)) l t.
Proof.
  revert l t. induction m as [a|e|R s k' IH|k' IH]; intros l t; simpl; try done.
  - destruct (stmt_run s t). apply IH.
  - destruct l; [done|]. apply IH.
Qed.

(** Shape of the step of one operation. *)
Definition op_refines (name : string) (cfg : ConsecutiveCountConfig) (o : operation)
    (lo hi : Q) (m : circuits) (r : result) (t' : circuit_rows) : Prop :=
  exists tv td ts, (lo <= tv)%Q /\ (tv <= td)%Q /\ (td <= ts)%Q /\ (ts <= hi)%Q /\
    r = (late_exec name cfg o tv td ts m).1 /\
    rows_implement hi t' (late_exec name cfg o tv td ts m).2.

Section Operations.
Context (name : string) (cfg : ConsecutiveCountConfig) (Hcfg : cc_valid cfg).
Context (lo hi : Q) (t : circuit_rows) (m : circuits) (l : list Q).
Hypothesis Him : rows_implement lo t m.
Hypothesis Hl : within lo l hi.

Lemma refines_intro o tv td ts r t' :
  (lo <= tv)%Q -> (tv <= td)%Q -> (td <= ts)%Q -> (ts <= hi)%Q ->
  r = (late_exec name cfg o tv td ts m).1 ->
  rows_implement hi t' (late_exec name cfg o tv td ts m).2 ->
  op_refines name cfg o lo hi m r t'.
Proof. intros. exists tv, td, ts. by split_and!. Qed.

(** A read-only outcome. *)
Lemma refines_same o tv l2 r x t' :
  (lo <= tv)%Q -> within tv l2 hi ->
  body_eval (Ret r : body circuit_rows result) l2 t = Some (Return x, t') ->
  late_exec name cfg o tv tv tv m = (r, m) ->
  op_refines name cfg o lo hi m x t'.
Proof.
  intros Htv Hl2 [[= -> ->] Hle]%(ret_eval _ tv hi); [|done].
  intros E. apply (refines_intro o tv tv tv); rewrite ?E; try done; try lra.
  eapply implement_later; [done|]. simpl. lra.
Qed.

(** One row written, then nothing. *)
Lemma refines_write o tv td ts l2 row r x cd u t' :
  (lo <= tv)%Q -> (tv <= td)%Q -> (td <= ts)%Q -> within ts l2 hi ->
  body_eval (Ret r : body circuit_rows result) l2 u = Some (Return x, t') ->
  u = <[name := (row, ts)]> t -> wf_entry (row_entry (row, ts)) ->
  cd.1 = row_circuit row ->
  late_exec name cfg o tv td ts m = (r, put name (stamped ts cd) m) ->
  op_refines name cfg o lo hi m x t'.
Proof.
  intros Htv Htd Hts Hl2 [[= -> ->] Hle]%(ret_eval _ ts hi); [|done].
  intros -> Hwf Hcd E. apply (refines_intro o tv td ts); rewrite ?E; try done.
  eapply implement_later; [|done]. simpl.
  apply (implement_write lo); [done|lra|done|done].
Qed.

Definition bumped (row : circuit_row) : circuit_row :=
  mkRow (cr_state row) (cr_opened_at row) (cr_cool_down row) (cr_cerr row) (cr_csucc row)
    (cr_ho_admit row + 1).

Lemma admit_probe_eval {A} row (k : bool -> body circuit_rows A) lo' l' u x :
  cr_state row = HALF_OPEN -> within lo' l' hi ->
  body_eval (body_bind (admit_probe (bind name cfg) row) k) l' u = Some x ->
  if cr_ho_admit row <? half_open_capacity cfg then
    exists ts l2, (lo' <= ts)%Q /\ within ts l2 hi /\
      body_eval (k true) l2 (<[name := (bumped row, ts)]> u) = Some x
  else body_eval (k false) l' u = Some x.
Proof.
  intros Es Hl'. unfold admit_probe, mbind, body_mbind. cbn [bind s_name s_config].
  rewrite bool_decide_eq_true_2 by done. cbn [andb].
  destruct (cr_ho_admit row <? half_open_capacity cfg); [|done].
  rewrite body_bind_assoc. intros He.
  apply (write_row_eval _ _ _ lo' hi) in He; [exact He|done].
Qed.

Lemma acquire_step r t' :
  body_eval (circuit_body (OnCircuit name cfg Acquire)) l t = Some (Return r, t') ->
  op_refines name cfg Acquire lo hi m r t'.
Proof.
  destruct Hcfg as (_ & _ & _ & Hcap). cbn [circuit_body].
  unfold sqc_try_acquire, mbind, body_mbind.
  rewrite body_bind_assoc. intros He.
  apply (read_row_eval _ _ lo hi _ _ m) in He as (row & tv & l2 & Htv & Hl2 & He & Hc & Hwf);
    [|done..].
  unfold row_circuit, circuit_of in Hc. simpl in Hc.
  pose proof (Hwf 0%Q) as Hwf0. unfold wf_entry in Hwf0. simpl in Hwf0.
  destruct (cr_state row) eqn:Es; cbn [body_bind] in He.
  - eapply refines_same; [done|done|exact He|]. simpl. by rewrite <- Hc.
  - destruct l2 as [|td l2]; [done|]. cbn [body_eval] in He. destruct Hl2 as [Htd Hl2].
    destruct (Qle_bool_spec (cr_opened_at row + cr_cool_down row) td) as [Hd|Hd].
    + rewrite body_bind_assoc in He.
      apply (write_row_eval _ _ _ td hi) in He as (t1 & l3 & H1 & Hl3 & He); [|done].
      apply (admit_probe_eval _ _ t1) in He; [|done..]. simpl in He.
      rewrite (proj2 (Z.ltb_lt _ _)) in He by done. destruct He as (t2 & l4 & H2 & Hl4 & He).
      eapply (refines_write Acquire tv td t2 l4 (bumped (new_row HALF_OPEN)) _ _ (Probing 0 0 1, Never));
        [done|done|lra|done|exact He|by rewrite insert_insert_eq|done|done|].
      simpl. rewrite <- Hc. simpl. destruct (Qlt_bool_spec td (cr_opened_at row + cr_cool_down row)); [lra|done].
    + apply (ret_eval _ td hi) in He as [[= -> ->] Hhi]; [|done].
      apply (refines_intro Acquire tv td td); simpl; rewrite <- ?Hc; simpl;
        destruct (Qlt_bool_spec td (cr_opened_at row + cr_cool_down row)); try done; try lra.
      eapply implement_later; [done|lra].
  - apply (admit_probe_eval _ _ tv) in He; [|done..].
    destruct (cr_ho_admit row <? half_open_capacity cfg) eqn:Ek.
    + destruct He as (ts & l3 & Hts & Hl3 & He).
      eapply (refines_write Acquire tv tv ts l3 (bumped row) _ _
        (Probing (cr_cerr row) (cr_csucc row) (cr_ho_admit row + 1), Never));
        [done|lra|done|done|exact He|done| | |].
      * unfold wf_entry, bumped. simpl. rewrite Es. simpl.
        destruct Hwf0 as (-> & -> & ? & _). split_and!; done || lia.
      * unfold row_circuit, circuit_of, bumped. simpl. by rewrite Es.
      * simpl. rewrite <- Hc. simpl. by rewrite Ek.
    + eapply refines_same; [done|done|exact He|]. simpl. rewrite <- Hc. simpl. by rewrite Ek.
  - eapply refines_same; [done|done|exact He|]. simpl. by rewrite <- Hc.
  - eapply refines_same; [done|done|exact He|]. simpl. by rewrite <- Hc.
Qed.

Lemma free_slot_half_open row :
  cr_state row = HALF_OPEN -> 0 <= cr_ho_admit row ->
  free_slot row = Z.max 0 (cr_ho_admit row - 1).
Proof.
  intros Es Hk. unfold free_slot. rewrite bool_decide_eq_true_2 by done. simpl.
  destruct (Z.ltb_spec 0 (cr_ho_admit row)); lia.
Qed.

(** Recording on a circuit that counts. *)
Lemma record_success_step row tv l2 r t' :
  (lo <= tv)%Q -> within tv l2 hi -> (forall v, wf_entry (row_entry (row, v))) ->
  row_circuit row = circuit_view tv (m name) ->
  cr_state row = CLOSED \/ cr_state row = HALF_OPEN ->
  body_eval (body_bind (record_success (bind name cfg) row) (fun s => Ret (Snap s))) l2 t =
    Some (Return r, t') ->
  op_refines name cfg (Record_ true) lo hi m r t'.
Proof.
  intros Htv Hl2 Hwf Hc Es He.
  pose proof (Hwf 0%Q) as Hwf0. unfold wf_entry in Hwf0. simpl in Hwf0.
  unfold row_circuit, circuit_of in Hc. simpl in Hc.
  unfold record_success, mbind, body_mbind in He. cbn [bind s_name s_config] in He.
  destruct (bool_decide (cr_state row = HALF_OPEN) &&
    (success_threshold cfg <=? cr_csucc row + 1)) eqn:Eclose.
  - apply andb_prop in Eclose as [Eh%bool_decide_eq_true Ethr].
    rewrite body_bind_assoc in He. cbn [delete_row body_bind body_eval stmt_run] in He.
    apply (ret_eval _ tv hi) in He as [[= -> ->] Hhi]; [|done].
    rewrite Eh in Hc.
    apply (refines_intro (Record_ true) tv tv hi); simpl; rewrite <- ?Hc; simpl;
      rewrite ?Ethr; try done; try lra.
    by apply (implement_delete lo); [|lra].
  - rewrite body_bind_assoc in He.
    apply (write_row_eval _ _ _ tv hi) in He as (ts & l3 & Hts & Hl3 & He); [|done].
    cbn [body_bind] in He.
    eapply (refines_write (Record_ true) tv tv ts l3 _ _ _ (row_circuit
      (mkRow (cr_state row) (cr_opened_at row) (cr_cool_down row) 0 (cr_csucc row + 1)
         (free_slot row)), Never)); [done|lra|done|done|exact He|done| |done|].
    + unfold wf_entry. simpl. destruct Es as [Es|Es]; rewrite Es in *; simpl in *.
      * destruct Hwf0 as (-> & -> & Hk & _). unfold free_slot. rewrite Es, Hk. done.
      * destruct Hwf0 as (-> & -> & Hk & _). rewrite free_slot_half_open by done.
        split_and!; done || lia.
    + simpl. rewrite <- Hc. unfold row_circuit, circuit_of, row_snapshot. simpl.
      destruct Es as [Es|Es]; rewrite Es in *; simpl in *.
      * destruct Hwf0 as (-> & _). done.
      * destruct Hwf0 as (-> & _ & Hk & _). rewrite Eclose. simpl.
        by rewrite free_slot_half_open.
Qed.

Lemma record_failure_step row tv l2 r t' :
  (lo <= tv)%Q -> within tv l2 hi -> (forall v, wf_entry (row_entry (row, v))) ->
  row_circuit row = circuit_view tv (m name) ->
  cr_state row = CLOSED \/ cr_state row = HALF_OPEN ->
  body_eval (body_bind (record_failure (bind name cfg) row) (fun s => Ret (Snap s))) l2 t =
    Some (Return r, t') ->
  op_refines name cfg (Record_ false) lo hi m r t'.
Proof.
  intros Htv Hl2 Hwf Hc Es He.
  pose proof (Hwf 0%Q) as Hwf0. unfold wf_entry in Hwf0. simpl in Hwf0.
  unfold row_circuit, circuit_of in Hc. simpl in Hc.
  unfold record_failure, mbind, body_mbind in He. cbn [bind s_name s_config] in He.
  destruct (error_threshold cfg <=? cr_cerr row + 1) eqn:Ethr.
  - cbn [body_bind] in He. destruct l2 as [|td l2]; [done|]. cbn [body_eval] in He.
    destruct Hl2 as [Htd Hl2]. rewrite body_bind_assoc in He.
    apply (write_row_eval _ _ _ td hi) in He as (ts & l3 & Hts & Hl3 & He); [|done].
    cbn [body_bind] in He.
    eapply (refines_write (Record_ false) tv td ts l3 _ _ _
      (Tripped td (reset_timeout cfg), Never)); [done|done|done|done|exact He|done|done|done|].
    simpl. rewrite <- Hc. destruct Es as [Es|Es]; rewrite Es; simpl; by rewrite Ethr.
  - rewrite body_bind_assoc in He.
    apply (write_row_eval _ _ _ tv hi) in He as (ts & l3 & Hts & Hl3 & He); [|done].
    cbn [body_bind] in He.
    eapply (refines_write (Record_ false) tv tv ts l3 _ _ _ (row_circuit
      (mkRow (cr_state row) (cr_opened_at row) (cr_cool_down row) (cr_cerr row + 1) 0
         (free_slot row)), Never)); [done|lra|done|done|exact He|done| |done|].
    + unfold wf_entry. simpl. destruct Es as [Es|Es]; rewrite Es in *; simpl in *.
      * destruct Hwf0 as (-> & -> & Hk & _). unfold free_slot. rewrite Es, Hk. done.
      * destruct Hwf0 as (-> & -> & Hk & _). rewrite free_slot_half_open by done.
        split_and!; done || lia.
    + simpl. rewrite <- Hc. unfold row_circuit, circuit_of, row_snapshot. simpl.
      destruct Es as [Es|Es]; rewrite Es in *; simpl in *; rewrite Ethr; simpl.
      * destruct Hwf0 as (-> & _). done.
      * destruct Hwf0 as (-> & _ & Hk & _). by rewrite free_slot_half_open.
Qed.

Lemma record_step success r t' :
  body_eval (circuit_body (OnCircuit name cfg (Record_ success))) l t = Some (Return r, t') ->
  op_refines name cfg (Record_ success) lo hi m r t'.
Proof.
  cbn [circuit_body]. unfold sqc_record_outcome, mbind, body_mbind.
  rewrite body_bind_assoc. intros He.
  apply (read_row_eval _ _ lo hi _ _ m) in He as (row & tv & l2 & Htv & Hl2 & He & Hc & Hwf);
    [|done..].
  cbn [bind s_name] in Hc. pose proof (Hwf 0%Q) as Hwf0.
  destruct (cr_state row) eqn:Es.
  1,3: destruct success; [eapply record_success_step|eapply record_failure_step]; eauto.
  all: cbn [body_bind] in He; (eapply refines_same; [done|done|exact He|]);
    simpl; rewrite <- Hc; unfold row_circuit, circuit_of, row_snapshot; simpl;
    unfold wf_entry in Hwf0; simpl in Hwf0; rewrite Es in *; simpl; destruct_and! Hwf0; repeat f_equal; congruence.
Qed.

Lemma transition_step d cd r t' :
  body_eval (circuit_body (OnCircuit name cfg (Transition d cd))) l t = Some (Return r, t') ->
  op_refines name cfg (Transition d cd) lo hi m r t'.
Proof.
  cbn [circuit_body]. unfold sqc_transition, mbind, body_mbind. cbn [bind s_name s_config].
  assert (forall st, body_eval (body_bind (write_row name (new_row st))
      (fun _ => Ret Done)) l t = Some (Return r, t') -> st <> CLOSED -> st <> OPEN ->
      d = st -> op_refines name cfg (Transition d cd) lo hi m r t') as Hset.
  { intros st He H1 H2 ->.
    apply (write_row_eval _ _ _ lo hi) in He as (ts & l3 & Hts & Hl3 & He); [|done].
    eapply (refines_write (Transition st cd) lo lo ts l3 (new_row st) _ _
      (circuit_transition cfg st cd lo)); [lra|lra|done|done|exact He|done| | |done];
      by destruct st. }
  destruct d; intros He; try (by eapply Hset).
  - cbn [delete_row body_bind body_eval stmt_run] in He.
    apply (ret_eval _ lo hi) in He as [[= -> ->] Hhi]; [|done].
    apply (refines_intro (Transition CLOSED cd) lo lo lo); simpl; try done; try lra.
    by apply (implement_delete lo).
  - cbn [body_bind] in He. destruct l as [|td l2]; [done|]. cbn [body_eval] in He.
    destruct Hl as [Htd Hl2].
    apply (write_row_eval _ _ _ td hi) in He as (ts & l3 & Hts & Hl3 & He); [|done].
    eapply (refines_write (Transition OPEN cd) lo td ts l3 _ _ _
      (circuit_transition cfg OPEN cd td)); [lra|done|done|done|exact He|done|done|done|done].
Qed.

Lemma snapshot_step r t' :
  body_eval (circuit_body (OnCircuit name cfg Snapshot)) l t = Some (Return r, t') ->
  op_refines name cfg Snapshot lo hi m r t'.
Proof.
  cbn [circuit_body]. unfold sqc_get_snapshot, mbind, body_mbind.
  rewrite body_bind_assoc. intros He.
  apply (read_row_eval _ _ lo hi _ _ m) in He as (row & tv & l2 & Htv & Hl2 & He & Hc & Hwf);
    [|done..].
  cbn [bind s_name] in Hc. cbn [body_bind] in He. (eapply refines_same; [done|done|exact He|]).
  simpl. rewrite <- Hc. f_equal. f_equal. symmetry.
  by apply (snapshot_circuit (row_entry (row, 0%Q))).
Qed.
End Operations.

Lemma cleanup_implements lo now chose t m :
  rows_implement lo t m -> (lo <= now)%Q ->
  rows_implement now (cleanup_rows chose now t) m.
Proof.
  intros Him Hle. apply (implement_later lo now) in Him; [|done]. clear Hle.
  unfold cleanup_rows. induction (take CLEANUP_LIMIT chose) as [|n ns IH]; [done|].
  simpl. set (u := foldr _ t ns) in *. clearbody u.
  destruct (u !! n) as [[r upd]|] eqn:E; [|done].
  destruct (row_over now (r, upd)) eqn:Ho; [|done].
  destruct IH as [Hok Hv]. split; [by apply map_Forall_delete|].
  intros n' v Hle. destruct (decide (n' = n)) as [->|Hne].
  - rewrite lookup_delete_eq, <- Hv by done. rewrite E. simpl.
    unfold circuit_view, row_entry. simpl. unfold row_over in Ho. simpl in Ho.
    apply andb_prop in Ho as [->%negb_true_iff Ho]. simpl.
    apply Qle_bool_iff in Ho. unfold resolve_state_ttl.
    rewrite (proj2 (Qle_bool_iff _ _)); [done|]. lra.
  - rewrite lookup_delete_ne by done. by apply Hv.
Qed.

(** ** The fleet

    What the circuits do along a history: each committed call is one operation,
    at instants after those of the call before; a sweep does nothing. *)
Inductive circuits_run (lo : Q) : list (commit_entry circuit_rows result) -> Q -> circuits -> Prop :=
| circuits_nil : circuits_run lo [] lo no_circuits
| circuits_op h mid m conn name cfg o tv td ts hi :
    circuits_run lo h mid m ->
    (mid <= tv)%Q -> (tv <= td)%Q -> (td <= ts)%Q -> (ts <= hi)%Q ->
    circuits_run lo
      (h ++ [Committed conn (circuit_body (OnCircuit name cfg o))
               (late_exec name cfg o tv td ts m).1])
      hi (late_exec name cfg o tv td ts m).2
| circuits_sweep h mid m conn chose hi :
    circuits_run lo h mid m -> (mid <= hi)%Q ->
    circuits_run lo (h ++ [Committed conn (circuit_body (Sweep chose)) Done]) hi m.

(** An entry of the adapters of this file, each strategy with a valid
    configuration. *)
Definition circuit_entry (e : commit_entry circuit_rows result) : Prop :=
  exists conn k r, e = Committed conn (circuit_body k) r /\
    if k is OnCircuit _ cfg _ then cc_valid cfg else True.

Lemma op_step name cfg o lo hi t m l r t' :
  cc_valid cfg -> rows_implement lo t m -> within lo l hi ->
  body_eval (circuit_body (OnCircuit name cfg o)) l t = Some (Return r, t') ->
  op_refines name cfg o lo hi m r t'.
Proof.
  intros Hcfg Him Hl He. destruct o as [|success|d cd|].
  - by eapply acquire_step.
  - by eapply record_step.
  - by eapply transition_step.
  - by eapply snapshot_step.
Qed.

Lemma circuit_sweep_step chose lo hi t m l r t' :
  rows_implement lo t m -> within lo l hi ->
  body_eval (circuit_body (Sweep chose)) l t = Some (Return r, t') ->
  r = Done /\ rows_implement hi t' m.
Proof.
  intros Him Hl. simpl. destruct l as [|now l]; [done|]. destruct Hl as [Hnow Hl].
  intros [[= -> ->] Hhi]%(ret_eval Done now hi); [|done]. split; [done|].
  apply (implement_later now); [|done]. by apply (cleanup_implements lo).
Qed.

Lemma serial_circuits lo h hi t :
  serial ∅ lo h hi t -> Forall circuit_entry h ->
  exists m, circuits_run lo h hi m /\ rows_implement hi t m.
Proof.
  induction 1 as [|h mid t conn b a l hi t' Hs IH Hl He|h mid t conn f Hs IH]; intros Hh.
  - exists no_circuits. split; [constructor|]. split; [apply map_Forall_empty|].
    intros n u _. rewrite lookup_empty. done.
  - apply Forall_app in Hh as [Hh Hx].
    destruct (IH Hh) as (m & Hrun & Him). rewrite Forall_singleton in Hx.
    destruct Hx as (conn' & k & r & [-> ->]%committed_inj & Hk).
    destruct k as [name cfg o|chose].
    + destruct (op_step _ _ _ _ _ _ _ _ _ _ Hk Him Hl He)
        as (tv & td & ts & H1 & H2 & H3 & H4 & -> & Him').
      exists (late_exec name cfg o tv td ts m).2. split; [|done]. by econstructor.
    + destruct (circuit_sweep_step _ _ _ _ _ _ _ _ Him Hl He) as [-> Him'].
      exists m. split; [|done]. econstructor; [done|]. by apply (within_le _ l).
  - apply Forall_app in Hh as [_ Hx]. rewrite Forall_singleton in Hx.
    destruct Hx as (conn' & k & r & Hx & _). done.
Qed.

Lemma within_replicate lo now n : (lo <= now)%Q -> within lo (replicate n now) now.
Proof. revert lo. induction n as [|n IH]; intros lo Hle; [done|]. split; [done|]. apply IH. lra. Qed.

Lemma snapshot_alone name cfg lo now t m :
  rows_implement lo t m -> (lo <= now)%Q ->
  (eval_at now (circuit_body (OnCircuit name cfg Snapshot)) t).1 =
  Return (Snap (circuit_snapshot (circuit_view now (m name)))).
Proof.
  intros Him Hle. apply (implement_later lo now) in Him; [|done].
  destruct (eval_at_eval now (circuit_body (OnCircuit name cfg Snapshot)) t) as [n He].
  assert (exists r t', eval_at now (circuit_body (OnCircuit name cfg Snapshot)) t = (Return r, t'))
    as (r & t' & E).
  { simpl. destruct (t !! name) as [[row upd]|]; simpl; [|by eauto].
    destruct (is_forced (cr_state row)); simpl; by eauto. }
  rewrite E in *. simpl.
  destruct (snapshot_step _ _ _ _ _ _ _ Him (within_replicate now now n ltac:(lra)) _ _ He)
    as (tv & td & ts & H1 & H2 & H3 & H4 & -> & _).
  simpl. do 2 f_equal. assert (tv == now)%Q as Hq by lra.
  unfold circuit_view, expired. destruct (m name).2; [|done]. by rewrite Hq.
Qed.

(** Breakers of many processes over one SQLite file, whatever the interleaving
    of their requests and whatever dies: what the committed calls answered and
    left is what one circuit per name does when it gets those calls one after
    the other, and a snapshot taken afterwards is of that circuit. *)
Lemma sqlite_circuits_are_shared lo h s :
  reaches (new_file ∅ lo) h s -> Forall circuit_entry h ->
  exists hi m, circuits_run lo h hi m /\ (hi <= clock s)%Q /\
    forall name cfg now, (clock s <= now)%Q ->
      (eval_at now (circuit_body (OnCircuit name cfg Snapshot)) (committed (file s))).1 =
      Return (Snap (circuit_snapshot (circuit_view now (m name)))).
Proof.
  intros Hr Hh. destruct (serial_ok_reaches ∅ lo h s Hr) as (hi & Hs & Hle & _).
  destruct (serial_circuits _ _ _ _ Hs Hh) as (m & Hrun & Him).
  exists hi, m. split_and!; [done|done|]. intros name cfg now Hnow.
  eapply snapshot_alone; [done|lra].
Qed.

Definition tripping : ConsecutiveCountConfig := mkConsecutiveCountConfig [] 2 2 30 1 "WARNING".

Definition demo_call (conn : nat) (o : operation) (r : result) :
    commit_entry circuit_rows result :=
  Committed conn (circuit_body (OnCircuit "db" tripping o)) r.

(** Two processes trip the circuit together; none is admitted before the cool-down,
    one probe is after it. *)
Definition tripped_together : list (commit_entry circuit_rows result) :=
  [demo_call 0 (Record_ false) (Snap (mkSnapshot CLOSED 0 1 0));
   demo_call 1 (Record_ false) (Snap (mkSnapshot OPEN 10 0 0));
   demo_call 0 Acquire (Admitted_ false)].

Definition probed : list (commit_entry circuit_rows result) :=
  tripped_together ++ [demo_call 1 Acquire (Admitted_ true)] ++
  [demo_call 0 Acquire (Admitted_ false)].

Lemma tripping_valid : cc_valid tripping.
Proof. by split_and!. Qed.

Lemma probed_reached :
  exists s, reaches (new_file ∅ 10%Q) probed s /\ clock s = 40%Q.
Proof.
  pose (ev now o t := (eval_at now (circuit_body (OnCircuit "db" tripping o)) t).2).
  pose (t2 := ev 10%Q (Record_ false) (ev 10%Q (Record_ false) ∅)).
  pose (t3 := ev 40%Q Acquire t2).
  exists (mkSystem (open_db t3) 40%Q ∅). split; [|done].
  unfold probed. rewrite app_assoc.
  apply (reaches_transaction _ (tripped_together ++ _) t3); [|done|by vm_compute].
  apply (reaches_transaction _ tripped_together t2); [|done|by vm_compute].
  eapply reaches_quiet; [|apply (step_tick (mkSystem (open_db t2) 10%Q ∅) 40); vm_compute; discriminate].
  apply (reaches_transaction _ (take 2 tripped_together) t2); [|done|by vm_compute].
  apply (reaches_transaction _ (take 1 tripped_together) (ev 10%Q (Record_ false) ∅));
    [|done|by vm_compute].
  apply (reaches_transaction _ [] ∅); [constructor|done|by vm_compute].
Qed.

Lemma sqlite_circuits_are_shared_witness :
  exists hi m, circuits_run 10 probed hi m /\ (hi <= 40)%Q.
Proof.
  destruct probed_reached as (s & Hs & Hc).
  destruct (sqlite_circuits_are_shared 10 probed s Hs) as (hi & m & H1 & H2 & _).
  - repeat (constructor; [by eexists _, _, _; split; [done|]; apply tripping_valid|]). constructor.
  - exists hi, m. by rewrite Hc in H2.
Defined.
