(* ===== verification/IdempotentHttp.v ===== *)
(** * Idempotent HTTP requests

    [IdempotencyMiddleware] of [grelmicro/integrations/fastapi.py]: the key of a
    request, the buffering of its body, the capture of a response, the replay,
    over [Idempotency].  The wrapped application is any program that receives
    and sends ASGI messages.

    One request is followed that nobody interrupts; the application does not
    touch the store.  The JSON text of the middleware's own errors and the
    digest of a body are parameters.  Strings are lists of the first 256 code
    points ([PyStr]), so [latin-1] is the identity on them. *)

From S2P Require Import Prelude Errors Dict PyStr CacheMemory TTLCache Idempotency.
From stdpp Require Import pretty.
From Stdlib Require Ascii Strings.Byte Strings.String.

Local Open Scope Z_scope.

#[export] Instance byte_eq_dec : EqDecision Byte.byte := Byte.byte_eq_dec.
#[export] Instance bytes_eq_dec : EqDecision bytes.
Proof. unfold bytes. apply _. Defined.

(** [bytes.decode("latin-1")] and [str.encode("latin-1")] *)
Definition latin1_decode (b : bytes) : string := decode b.
Definition latin1_encode (s : string) : bytes := encode s.

Definition _MAX_KEY_LENGTH : Z := 255.
Definition _MIN_CONTENT_STATUS : Z := 200.
Definition _BODYLESS_STATUSES : list Z := [204; 304].
Definition _KEY_SEPARATOR : string := String (Ascii.ascii_of_nat 31) "".
Definition _REPLAY_HEADER : bytes := latin1_encode "idempotent-replayed".

(** [bytes.lower()] *)
Definition bytes_lower (b : bytes) : bytes := latin1_encode (lower (latin1_decode b)).

(** ** ASGI *)

Definition headers : Type := list (bytes * bytes).

Record scope : Type := mkScope {
  sc_type : string;
  sc_method : string;
  sc_path : string;
  sc_query : bytes;
  sc_headers : headers;
}.

Inductive request_message : Type :=
| RequestBody (body : bytes) (more_body : bool)
| Disconnected.

Inductive message : Type :=
| ResponseStart (status : Z) (hs : headers) (trailers : bool)
| ResponseBody (body : bytes) (more_body : bool)
| OtherMessage (kind : string).

(** The application, called with its scope. *)
Inductive asgi : Type :=
| AppReturns
| AppRaises (e : exn)
| Receive (k : request_message -> asgi)
| Send (m : message) (k : outcome exn unit -> asgi).

Fixpoint run_asgi {S} (receive : S -> request_message * S) (send : message -> py S exn unit)
    (app : asgi) : py S exn unit := fun s =>
  match app with
  | AppReturns => (Return tt, s)
  | AppRaises e => (Raise e, s)
  | Receive k => let '(m, s) := receive s in run_asgi receive send (k m) s
  | Send m k => let '(r, s) := send m s in run_asgi receive send (k r) s
  end.

(** ** The response to store *)

(** [_Entry] *)
Record http_entry : Type := mkHttpEntry {
  he_status : Z;
  he_headers : list (string * string);
  he_body : string;
}.

Record StoredResponse : Type := mkStoredResponse {
  sr_status : Z;
  sr_headers : list (string * string);
  sr_body : bytes;
}.

Record idem_middleware : Type := mkMiddleware {
  mw_header : string;
  mw_methods : list string;
  (** what [key_maker] returns; [None] is not a string *)
  mw_key_maker : option (scope -> string -> outcome exn (option string));
  mw_skip : option (StoredResponse -> bool);
  mw_require_key : bool;
  mw_fingerprint_body : bool;
  mw_max_body_size : Z;
}.

(** [_ResponseCapture] *)
Record capture : Type := mkCapture {
  cp_status : Z;
  cp_headers : list (string * string);
  cp_chunks : list bytes;
  cp_size : Z;
  cp_storable : bool;
  cp_stored : option http_entry;
}.

Definition new_capture : capture := mkCapture 0 [] [] 0 false None.

Definition blocks_storing (name : bytes) : bool :=
  bool_decide (bytes_lower name = latin1_encode "set-cookie" \/
               bytes_lower name = latin1_encode "content-encoding").

Definition kept_headers (hs : headers) : list (string * string) :=
  (fun p => (latin1_decode p.1, latin1_decode p.2)) <$>
  filter (fun p => bytes_lower p.1 <> latin1_encode "content-length") hs.

Definition storable_start (hs : headers) (trailers : bool) : bool :=
  negb (existsb (fun p => blocks_storing p.1) hs || trailers).

(** [_start] *)
Definition capture_start (status : Z) (hs : headers) (trailers : bool) (c : capture) : capture :=
  mkCapture status (kept_headers hs) (cp_chunks c) (cp_size c) (storable_start hs trailers)
    (cp_stored c).

(** [_body] *)
Definition capture_body (mw : idem_middleware) (chunk : bytes) (more_body : bool) (c : capture) : capture :=
  if negb (cp_storable c) then c
  else
    let size := cp_size c + Z.of_nat (length chunk) in
    if mw_max_body_size mw <? size then
      mkCapture (cp_status c) (cp_headers c) [] size false (cp_stored c)
    else
      let chunks := cp_chunks c ++ [chunk] in
      let c := mkCapture (cp_status c) (cp_headers c) chunks size true (cp_stored c) in
      if more_body then c
      else
        let body := concat chunks in
        let skipped :=
          match mw_skip mw with
          | Some skip =>
              skip (mkStoredResponse (cp_status c)
                (foldl (fun d p => dict_set p.1 p.2 d) [] (cp_headers c)) body)
          | None => false
          end in
        if skipped then c
        else mkCapture (cp_status c) (cp_headers c) chunks size true
               (Some (mkHttpEntry (cp_status c) (cp_headers c) (latin1_decode body))).

Definition capture_message (mw : idem_middleware) (m : message) (c : capture) : capture :=
  match m with
  | ResponseStart status hs trailers => capture_start status hs trailers c
  | ResponseBody chunk more_body => capture_body mw chunk more_body c
  | OtherMessage _ => c
  end.

(** ** The key *)

(** [_header_value] *)
Fixpoint header_value (hs : headers) (name : bytes) : option string :=
  match hs with
  | [] => None
  | (raw_name, raw_value) :: hs =>
      if decide (bytes_lower raw_name = name) then Some (py_strip (latin1_decode raw_value))
      else header_value hs name
  end.

Definition word_char (c : Ascii.ascii) : bool :=
  let n := Ascii.nat_of_ascii c in
  (((48 <=? n) && (n <=? 57)) || ((65 <=? n) && (n <=? 90)) || ((97 <=? n) && (n <=? 122)) ||
   (n =? 95))%nat.

Definition ends_token (s : string) : bool :=
  match s with EmptyString => true | String c _ => negb (word_char c) end.

(** [_UNRESOLVED_TOKEN.search]; [free] when what comes before is the start or
    not of a word. *)
Fixpoint unresolved_from (free : bool) (s : string) : bool :=
  (free && String.prefix "None" s && ends_token (String.substring 4 (String.length s - 4) s)) ||
  match s with EmptyString => false | String c s => unresolved_from (negb (word_char c)) s end.
Definition unresolved : string -> bool := unresolved_from true.

(** [_checked_key] *)
Definition checked_key (built : option string) (client_key : string) : outcome exn string :=
  match built with
  | None => Raise (mk_exn IdempotencyKeyMakerError NoInfo)
  | Some built =>
      if decide (built = ""%string) then Raise (mk_exn IdempotencyKeyMakerError NoInfo)
      else if negb (contains client_key built) then Raise (mk_exn IdempotencyKeyMakerError NoInfo)
      else if unresolved built then Raise (mk_exn IdempotencyKeyMakerError NoInfo)
      else Return built
  end.

(** The default of [_storage_key] *)
Definition route_key (sc : scope) (key : string) : string :=
  String.concat _KEY_SEPARATOR
    ([sc_method sc; sc_path sc] ++
     (if decide (sc_query sc = []) then [] else [latin1_decode (sc_query sc)]) ++ [key]).

(** [_storage_key] *)
Definition storage_key (mw : idem_middleware) (sc : scope) (key : string) : outcome exn string :=
  match mw_key_maker mw with
  | Some key_maker =>
      match key_maker sc key with
      | Return built => checked_key built key
      | Raise e => Raise e
      end
  | None => Return (route_key sc key)
  end.

(** ** One exchange *)

(** The errors the middleware answers with. *)
Inductive http_error : Type :=
| MissingKey | KeyTooLong | BodyTooLarge | KeyReused | InFlight.

Definition error_status (e : http_error) : Z :=
  match e with
  | MissingKey | KeyTooLong => 400
  | BodyTooLarge => 413
  | KeyReused => 422
  | InFlight => 409
  end.

Definition error_headers (e : http_error) : headers :=
  match e with
  | InFlight => [(latin1_encode "retry-after", latin1_encode "1")]
  | _ => []
  end.

Section Exchange.
Context {B : Type} {CB : CacheBackend B}.
Context (serializer : CacheSerializer http_entry).
(** The name and the default fingerprint of the [Idempotency]. *)
Context (name : string) (default_fingerprint : option string).
(** [hashlib.sha256(body).hexdigest()], and the JSON of an error. *)
Context (hexdigest : bytes -> string) (error_body : http_error -> bytes).

(** The client of a request: what it sends until it is gone, what it got, and
    what sending to it raises. *)
Record exchange : Type := mkExchange {
  x_in : list request_message;
  x_out : list message;
  x_fails : list message -> option exn;
  x_store : TTLCache * B;
}.
Abbreviation http := (py exchange exn).

Definition receive (x : exchange) : request_message * exchange :=
  match x_in x with
  | [] => (Disconnected, x)
  | m :: l => (m, mkExchange l (x_out x) (x_fails x) (x_store x))
  end.

Definition send (m : message) : http unit := fun x =>
  match x_fails x (x_out x) with
  | Some e => (Raise e, x)
  | None => (Return tt, mkExchange (x_in x) (x_out x ++ [m]) (x_fails x) (x_store x))
  end.

Definition on_store {A} (m : py (TTLCache * B) exn A) : http A := fun x =>
  let '(r, st) := m (x_store x) in (r, mkExchange (x_in x) (x_out x) (x_fails x) st).

(** [_send_error] *)
Definition send_error (e : http_error) : http unit :=
  let body := error_body e in
  send (ResponseStart (error_status e)
    ([(latin1_encode "content-type", latin1_encode "application/json");
      (latin1_encode "content-length", latin1_encode (str (Z.of_nat (length body))))] ++
     error_headers e) false);;
  send (ResponseBody body false).

(** [_send_stored] *)
Definition replay_headers (e : http_entry) : headers :=
  ((fun p => (latin1_encode p.1, latin1_encode p.2)) <$> he_headers e) ++
  (if bool_decide (_MIN_CONTENT_STATUS <= he_status e) &&
      negb (bool_decide (he_status e ∈ _BODYLESS_STATUSES))
   then [(latin1_encode "content-length",
          latin1_encode (str (Z.of_nat (length (latin1_encode (he_body e))))))]
   else []) ++
  [(_REPLAY_HEADER, latin1_encode "true")].

Definition replay_messages (e : http_entry) (head : bool) : list message :=
  [ResponseStart (he_status e) (replay_headers e) false;
   ResponseBody (if head then [] else latin1_encode (he_body e)) false].

Definition send_stored (e : http_entry) (head : bool) : http unit :=
  send (ResponseStart (he_status e) (replay_headers e) false);;
  send (ResponseBody (if head then [] else latin1_encode (he_body e)) false).

(** The loop of [_buffer_request]: the body, whether it is too large, the
    messages to replay, and what is left. *)
Fixpoint buffer_loop (max_body_size size : Z) (chunks : list bytes)
    (consumed l : list request_message) :
    option bytes * bool * list request_message * list request_message :=
  match l with
  | [] => (None, false, consumed ++ [Disconnected], [])
  | Disconnected :: l => (None, false, consumed ++ [Disconnected], l)
  | RequestBody chunk more_body :: l =>
      let consumed := consumed ++ [RequestBody chunk more_body] in
      let size := size + Z.of_nat (length chunk) in
      if max_body_size <? size then (None, true, [], l)
      else
        let chunks := chunks ++ [chunk] in
        if more_body then buffer_loop max_body_size size chunks consumed l
        else (Some (concat chunks), false, consumed, l)
  end.

Definition buffer_request (max_body_size : Z) (x : exchange) :
    option bytes * bool * list request_message * exchange :=
  let '(body, too_large, pending, l) := buffer_loop max_body_size 0 [] [] (x_in x) in
  (body, too_large, pending, mkExchange l (x_out x) (x_fails x) (x_store x)).

(** The application inside the block: [replay_receive] over the [pending]
    messages, none where nothing was buffered, and the capture for [send]. *)
Definition app_state : Type := capture * list request_message * exchange.

Definition replay_receive (s : app_state) : request_message * app_state :=
  let '(c, pending, x) := s in
  match pending with
  | [] => let '(m, x) := receive x in (m, (c, [], x))
  | m :: pending => (m, (c, pending, x))
  end.

(** [_ResponseCapture.__call__] *)
Definition capture_send (mw : idem_middleware) (m : message) : py app_state exn unit := fun s =>
  let '(c, pending, x) := s in
  let c := capture_message mw m c in
  let '(r, x) := send m x in (r, (c, pending, x)).

Definition run_captured (mw : idem_middleware) (app : asgi) (pending : list request_message)
    (x : exchange) : outcome exn unit * app_state :=
  run_asgi replay_receive (capture_send mw) app (new_capture, pending, x).

(** [_Block.__aenter__] with the bound on the wait: [timed_out] when the lock did
    not come in time. *)
Definition enter_block (timed_out : bool) (key : string) (fp : option string) (n1 n2 n3 n4 : Q) :
    py (TTLCache * B) exn (Operation (T := http_entry)) :=
  let look := replay (Some serializer) (fun _ => mkHttpEntry 0 [] "") name key fp in
  r ← look n1 n2;
  match r with
  | Some v => mret (replayed v)
  | None =>
      if timed_out then py_raise (mk_exn IdempotencyWaitTimeoutError NoInfo)
      else
        r ← look n3 n4;
        match r with Some v => mret (replayed v) | None => mret first_execution end
  end.

Definition leave_block (key : string) (fp : option string) (ttl : Q) (o : Operation)
    (raised : bool) (n5 n6 : Q) : http unit :=
  on_store (block_exit (Some serializer) (fun _ => None) name key fp ttl o raised n5 n6).

(** The readings of the clock one request makes, and whether its wait for the
    lock of its key was too long. *)
Record timing : Type := mkTiming {
  n1 : Q; n2 : Q; n3 : Q; n4 : Q; n5 : Q; n6 : Q; timed_out : bool;
}.

(** [_execute], where the block is entered. *)
Definition within_block (mw : idem_middleware) (app : asgi) (sc : scope)
    (pending : list request_message) (o : Operation) : exchange -> outcome exn Operation * exchange :=
  fun x =>
  if op_replayed o then
    match op_result o with
    | Return (Some stored) =>
        let '(r, x) := send_stored stored (bool_decide (sc_method sc = "HEAD"%string)) x in
        (match r with Return _ => Return o | Raise e => Raise e end, x)
    | Return None => (Return o, x)
    | Raise e => (Raise e, x)
    end
  else
    let '(r, (c, _, x)) := run_captured mw app pending x in
    match r with
    | Raise e => (Raise e, x)
    | Return _ =>
        (Return (match cp_stored c with Some v => op_store v o | None => o end), x)
    end.

(** [_execute] *)
Definition idem_execute (mw : idem_middleware) (app : asgi) (sc : scope) (pending : list request_message)
    (key : string) (fingerprint : option string) (ttl : Q) (t : timing) : http unit := fun x =>
  let fp := if fingerprint is Some f then Some f else default_fingerprint in
  match on_store (enter_block (timed_out t) key fp (n1 t) (n2 t) (n3 t) (n4 t)) x with
  | (Raise e, x) =>
      if isinstance e IdempotencyConflictError then send_error KeyReused x
      else if isinstance e IdempotencyWaitTimeoutError then send_error InFlight x
      else if isinstance e OutOfContextError then (Raise (mk_exn OutOfContextError NoInfo), x)
      else (Raise e, x)
  | (Return o, x) =>
      match within_block mw app sc pending o x with
      | (Raise e, x) =>
          match leave_block key fp ttl o true (n5 t) (n6 t) x with
          | (Return _, x) => (Raise e, x)
          | (Raise e', x) => (Raise e', x)
          end
      | (Return o, x) => leave_block key fp ttl o false (n5 t) (n6 t) x
      end
  end.

(** [IdempotencyMiddleware.__call__] *)
Definition idem_handle (mw : idem_middleware) (app : asgi) (sc : scope) (ttl : Q) (t : timing) : http unit :=
  fun x =>
  if negb (bool_decide (sc_type sc = "http"%string)) ||
     negb (bool_decide (sc_method sc ∈ upper <$> mw_methods mw))
  then run_asgi receive send app x
  else
    match header_value (sc_headers sc) (latin1_encode (lower (mw_header mw))) with
    | None | Some EmptyString =>
        if mw_require_key mw then send_error MissingKey x else run_asgi receive send app x
    | Some key =>
        if _MAX_KEY_LENGTH <? Z.of_nat (String.length key) then send_error KeyTooLong x
        else
          let go pending fingerprint x :=
            match storage_key mw sc key with
            | Return key => idem_execute mw app sc pending key fingerprint ttl t x
            | Raise e => (Raise e, x)
            end in
          if mw_fingerprint_body mw then
            let '(body, too_large, pending, x) := buffer_request (mw_max_body_size mw) x in
            if too_large then send_error BodyTooLarge x
            else go pending (hexdigest <$> body) x
          else go [] None x
    end.

(** ** Lemmas *)

Lemma latin1_roundtrip b : latin1_encode (latin1_decode b) = b.
Proof. apply String.list_byte_of_string_of_list_byte. Qed.

Definition takes_all (x : exchange) : Prop := forall out, x_fails x out = None.

Definition captures (mw : idem_middleware) (c : capture) (ms : list message) : capture :=
  foldl (fun c m => capture_message mw m c) c ms.

Lemma captures_cons mw c m ms : captures mw c (m :: ms) = captures mw (capture_message mw m c) ms.
Proof. done. Qed.

(** What the application sends is what the client gets and what is captured. *)
Lemma captured_run mw app c pending x r c' pending' x' :
  takes_all x ->
  run_asgi replay_receive (capture_send mw) app (c, pending, x) = (r, (c', pending', x')) ->
  exists ms, x_out x' = x_out x ++ ms /\ c' = captures mw c ms /\
    x_store x' = x_store x /\ x_fails x' = x_fails x.
Proof.
  revert c pending x. induction app as [|e|k IH|m k IH]; intros c pending x Hall; cbn [run_asgi].
  - intros [= <- <- <- <-]. exists []. by rewrite app_nil_r.
  - intros [= <- <- <- <-]. exists []. by rewrite app_nil_r.
  - unfold replay_receive. destruct pending as [|m pending]; [|by apply IH].
    unfold receive. destruct (x_in x) as [|m l]; [by apply IH|]. intros Hr.
    by apply IH in Hr.
  - unfold capture_send, send. rewrite Hall. intros Hr.
    apply IH in Hr as (ms & H1 & H2 & H3 & H4); [|done]. cbn in *.
    exists (m :: ms). rewrite H1, <- app_assoc. done.
Qed.

Lemma plain_send m x :
  takes_all x -> send m x = (Return tt, mkExchange (x_in x) (x_out x ++ [m]) (x_fails x) (x_store x)).
Proof. intros H. unfold send. by rewrite H. Qed.

Lemma send_two m m' x :
  takes_all x ->
  (send m;; send m') x =
  (Return tt, mkExchange (x_in x) (x_out x ++ [m; m']) (x_fails x) (x_store x)).
Proof.
  intros H. change ((send m;; send m') x) with (py_bind (send m) (fun _ => send m') x).
  unfold py_bind. rewrite plain_send, plain_send by done. cbn. by rewrite <- app_assoc.
Qed.

(** A response as an application sends it. *)
Fixpoint body_messages (chunk : bytes) (chunks : list bytes) : list message :=
  match chunks with
  | [] => [ResponseBody chunk false]
  | next :: chunks => ResponseBody chunk true :: body_messages next chunks
  end.

Definition asgi_response (status : Z) (hs : headers) (trailers : bool) (chunk : bytes)
    (chunks : list bytes) : list message :=
  ResponseStart status hs trailers :: body_messages chunk chunks.

(** What is stored of it. *)
Definition skipped (mw : idem_middleware) (status : Z) (hs : headers) (body : bytes) : bool :=
  match mw_skip mw with
  | Some skip => skip (mkStoredResponse status
      (foldl (fun d p => dict_set p.1 p.2 d) [] (kept_headers hs)) body)
  | None => false
  end.

Definition entry_of (status : Z) (hs : headers) (body : bytes) : http_entry :=
  mkHttpEntry status (kept_headers hs) (latin1_decode body).

Definition stored_response (mw : idem_middleware) (status : Z) (hs : headers) (trailers : bool)
    (body : bytes) : option http_entry :=
  if storable_start hs trailers && (Z.of_nat (length body) <=? mw_max_body_size mw) &&
     negb (skipped mw status hs body)
  then Some (entry_of status hs body) else None.


Lemma capture_refused mw chunk chunks c :
  cp_storable c = false -> cp_stored (captures mw c (body_messages chunk chunks)) = cp_stored c.
Proof.
  revert c chunk. induction chunks as [|next chunks IH]; intros c chunk Hc;
    cbn [body_messages]; rewrite captures_cons; cbn [capture_message]; unfold capture_body;
    rewrite Hc; [done|by apply IH].
Qed.

Lemma capture_bodies mw status hs cs chunk chunks :
  Z.of_nat (length (concat cs)) <= mw_max_body_size mw -> storable_start hs false = true ->
  cp_stored (captures mw
    (mkCapture status (kept_headers hs) cs (Z.of_nat (length (concat cs))) true None)
    (body_messages chunk chunks)) =
  stored_response mw status hs false (concat (cs ++ chunk :: chunks)).
Proof.
  revert cs chunk. induction chunks as [|next chunks IH]; intros cs chunk Hsz Hst;
    cbn [body_messages]; rewrite captures_cons; cbn [capture_message]; unfold capture_body at 1;
    cbn [cp_storable cp_size negb cp_chunks cp_status cp_headers cp_stored];
    destruct (mw_max_body_size mw <? Z.of_nat (length (concat cs)) + Z.of_nat (length chunk)) eqn:E.
  - apply Z.ltb_lt in E. cbn. unfold stored_response. rewrite Hst, concat_app, length_app.
    cbn [concat]. rewrite app_nil_r. by rewrite (proj2 (Z.leb_gt _ _)) by lia.
  - apply Z.ltb_ge in E. cbn [captures foldl]. unfold stored_response, skipped, entry_of.
    rewrite Hst, (proj2 (Z.leb_le _ _)) by (rewrite concat_app, length_app; cbn; rewrite app_nil_r; lia).
    destruct (mw_skip mw) as [f|]; [|done]. cbn [andb]. by destruct (f _).
  - apply Z.ltb_lt in E. rewrite capture_refused by done. cbn [cp_stored]. unfold stored_response.
    rewrite Hst, concat_app, length_app. cbn [concat]. rewrite length_app.
    by rewrite (proj2 (Z.leb_gt _ _)) by lia.
  - apply Z.ltb_ge in E. specialize (IH (cs ++ [chunk]) next).
    assert (concat (cs ++ [chunk]) = concat cs ++ chunk) as Hc
      by (rewrite concat_app; cbn; by rewrite app_nil_r).
    rewrite Hc, length_app, Nat2Z.inj_add, <- app_assoc in IH. by apply IH.
Qed.

Lemma capture_response mw status hs trailers chunk chunks :
  0 <= mw_max_body_size mw ->
  cp_stored (captures mw new_capture (asgi_response status hs trailers chunk chunks)) =
  stored_response mw status hs trailers (concat (chunk :: chunks)).
Proof.
  intros Hm. unfold asgi_response. rewrite captures_cons. cbn [capture_message]. unfold capture_start.
  destruct (storable_start hs trailers) eqn:Es.
  - assert (trailers = false) as ->.
    { destruct trailers; [|done]. unfold storable_start in Es. by rewrite orb_true_r in Es. }
    by apply (capture_bodies mw status hs []).
  - rewrite capture_refused by done. unfold stored_response. by rewrite Es.
Qed.

(** A request that carries a key, under [skey]. *)
Definition keyed (mw : idem_middleware) (sc : scope) (skey : string) : Prop :=
  exists key, sc_type sc = "http"%string /\ sc_method sc ∈ upper <$> mw_methods mw /\
    header_value (sc_headers sc) (latin1_encode (lower (mw_header mw))) = Some key /\
    key <> ""%string /\ Z.of_nat (String.length key) <= _MAX_KEY_LENGTH /\
    storage_key mw sc key = Return skey.

(** What is left of a request once its body is read, and its fingerprint. *)
Definition fingerprinted (mw : idem_middleware) (x : exchange) :
    option (option string * list request_message * exchange) :=
  if mw_fingerprint_body mw then
    let '(body, too_large, pending, x) := buffer_request (mw_max_body_size mw) x in
    if too_large then None else Some (hexdigest <$> body, pending, x)
  else Some (None, [], x).

Lemma handle_keyed mw app sc skey ttl t x fp pending x1 :
  keyed mw sc skey -> fingerprinted mw x = Some (fp, pending, x1) ->
  idem_handle mw app sc ttl t x = idem_execute mw app sc pending skey fp ttl t x1.
Proof.
  intros (key & Et & Em & Eh & Hne & Hlen & Es) Hf. unfold idem_handle, fingerprinted in *.
  rewrite (bool_decide_eq_true_2 (sc_type sc = _)), (bool_decide_eq_true_2 (sc_method sc ∈ _)), Eh by done.
  cbn [negb orb]. destruct key as [|a key]; [done|].
  rewrite (proj2 (Z.ltb_ge _ _)), Es by done. destruct (mw_fingerprint_body mw).
  - destruct (buffer_request (mw_max_body_size mw) x) as [[[body large] pend] x']. destruct large; [done|].
    by injection Hf as <- <- <-.
  - by injection Hf as <- <- <-.
Qed.

Lemma fingerprinted_same mw x fp pending x1 :
  fingerprinted mw x = Some (fp, pending, x1) ->
  x_out x1 = x_out x /\ x_fails x1 = x_fails x /\ x_store x1 = x_store x.
Proof.
  unfold fingerprinted, buffer_request. destruct (mw_fingerprint_body mw).
  - destruct (buffer_loop _ _ _ _ _) as [[[body large] pend] l]. destruct large; [done|].
    by intros [= _ _ <-].
  - by intros [= _ _ <-].
Qed.

Definition used_fingerprint (fp : option string) : option string :=
  if fp is Some f then Some f else default_fingerprint.

Context {RC : ReliableCache B}.
Hypothesis round_trip_ok : forall v raw,
  dumps serializer v = Return raw -> loads serializer raw = Return v.

Lemma enter_first key fp t c b :
  look (value_key (scoped name key)) (n1 t) b = None -> (n1 t <= n3 t)%Q -> timed_out t = false ->
  exists c' b', enter_block (timed_out t) key fp (n1 t) (n2 t) (n3 t) (n4 t) (c, b) =
      (Return first_execution, (c', b')) /\ tc_maxsize c' = tc_maxsize c.
Proof.
  intros Hl H13 ->. unfold enter_block. set (ofb := fun _ : bytes => mkHttpEntry 0 [] "").
  destruct (replay_absent (Some serializer) ofb name key fp (n1 t) (n2 t) c b Hl) as (c1 & b1 & E1 & M1 & Hb1).
  erewrite bind_step by exact E1. cbv beta iota.
  assert (Hl3 : look (value_key (scoped name key)) (n3 t) b1 = None).
  { unfold look, seen_value. rewrite Hb1 by done. by apply (look_later _ (n1 t)). }
  destruct (replay_absent (Some serializer) ofb name key fp (n3 t) (n4 t) c1 b1 Hl3) as (c2 & b2 & E2 & M2 & _).
  erewrite bind_step by exact E2. exists c2, b2. split; [done|congruence].
Qed.

Lemma enter_found key fp t c b raw v :
  look (value_key (scoped name key)) (n1 t) b = Some raw -> dumps serializer v = Return raw ->
  (n1 t <= n2 t)%Q ->
  exists st, enter_block (timed_out t) key fp (n1 t) (n2 t) (n3 t) (n4 t) (c, b) =
    (match checked name key fp (look (fingerprint_key name key) (n2 t) b) v with
     | Return _ => Return (replayed v)
     | Raise e => Raise e
     end, st).
Proof.
  intros Hl Hd H12. unfold enter_block.
  destruct (replay_found (Some serializer) (fun _ => mkHttpEntry 0 [] "") name key fp (n1 t) (n2 t) c b raw v
    H12 Hl (round_trip_ok v raw Hd)) as [st E].
  match goal with |- context [(?m ≫= ?k) ?s] => change ((m ≫= k) s) with (py_bind m k s) end.
  unfold py_bind. rewrite E. exists st. unfold checked.
  destruct fp as [f|]; [|done]. destruct (look (fingerprint_key name key) (n2 t) b) as [r|]; [|done].
  by case_decide.
Qed.

(** A first request that ends well leaves the response its client got, for the
    time to live of the response. *)
Lemma first_request_stores mw app sc key ttl t x pending fp x' status hs trailers chunk chunks :
  0 <= mw_max_body_size mw -> takes_all x ->
  look (value_key (scoped name key)) (n1 t) (x_store x).2 = None -> (n1 t <= n3 t)%Q ->
  timed_out t = false -> tc_maxsize (x_store x).1 = 0 ->
  idem_execute mw app sc pending key fp ttl t x = (Return tt, x') ->
  x_out x' = x_out x ++ asgi_response status hs trailers chunk chunks ->
  forall e, stored_response mw status hs trailers (concat (chunk :: chunks)) = Some e ->
  exists raw, dumps serializer e = Return raw /\
    cb_entry (x_store x').2 (value_key (scoped name key)) = Some (mkEntry raw (n6 t + ttl) ∅) /\
    forall f, used_fingerprint fp = Some f ->
      cb_entry (x_store x').2 (fingerprint_key name key) =
        Some (mkEntry (encode f) (n5 t + (ttl + 1)) ∅).
Proof.
  intros Hmax Hall Hl H13 Ht Hm. destruct x as [xi xo xf [c b]]. cbn [x_store fst snd] in *.
  unfold idem_execute. fold (used_fingerprint fp). unfold on_store at 1. cbn [x_store].
  destruct (enter_first key (used_fingerprint fp) t c b Hl H13 Ht) as (c1 & b1 & E & M).
  rewrite E. unfold within_block. cbn [op_replayed first_execution].
  set (x0 := mkExchange _ _ _ _).
  destruct (run_captured mw app pending x0) as [r [[cp pend] x1]] eqn:Er.
  apply (captured_run mw app new_capture pending x0) in Er as (ms & Ho & -> & Hst & _); [|done].
  destruct r as [[]|e0]; [|destruct (leave_block _ _ _ _ _ _ _ x1) as [[]]; done].
  intros Hx Hout e He.
  assert (x_out x' = x_out x1) as Hsame.
  { revert Hx. unfold leave_block, on_store. destruct (block_exit _ _ _ _ _ _ _ _ _ _ _) as [r st].
    by intros [= _ <-]. }
  rewrite Hsame, Ho in Hout. apply app_inv_head in Hout as ->.
  rewrite capture_response, He in Hx by done. unfold leave_block, on_store in Hx.
  rewrite Hst in Hx. cbn [x_store x0] in Hx. unfold block_exit in Hx. cbn in Hx.
  destruct (persist _ _ _ _ _ _ _ _ _ _) as [rp sp] eqn:Ep. injection Hx as -> <-.
  destruct (persist_entries (Some serializer) (fun _ => None) name key e (used_fingerprint fp) ttl (n5 t) (n6 t)
    c1 b1 sp Ep) as (raw & Hd & H1 & H2).
  exists raw. split; [done|]. split; [done|]. apply H2. congruence.
Qed.

Definition error_messages (e : http_error) : list message :=
  [ResponseStart (error_status e)
     ([(latin1_encode "content-type", latin1_encode "application/json");
       (latin1_encode "content-length",
        latin1_encode (str (Z.of_nat (length (error_body e)))))] ++ error_headers e) false;
   ResponseBody (error_body e) false].

Definition replayed_response (status : Z) (hs : headers) (body : bytes) (head : bool) : list message :=
  [ResponseStart status
     (filter (fun p => bytes_lower p.1 <> latin1_encode "content-length") hs ++
      (if bool_decide (_MIN_CONTENT_STATUS <= status) &&
          negb (bool_decide (status ∈ _BODYLESS_STATUSES))
       then [(latin1_encode "content-length", latin1_encode (str (Z.of_nat (length body))))]
       else []) ++
      [(_REPLAY_HEADER, latin1_encode "true")]) false;
   ResponseBody (if head then [] else body) false].

Lemma replay_of_entry status hs body head :
  replay_messages (entry_of status hs body) head = replayed_response status hs body head.
Proof.
  unfold replay_messages, replay_headers, entry_of, replayed_response, kept_headers. cbn [he_status he_headers he_body].
  rewrite latin1_roundtrip. do 3 f_equal. rewrite <- list_fmap_compose.
  set (l := filter _ hs). rewrite <- (list_fmap_id l) at 2.
  apply list_fmap_ext. intros i [a b] _. unfold compose. cbn [fst snd].
  by rewrite !latin1_roundtrip.
Qed.

Lemma sends_error e x :
  takes_all x -> (send_error e x).1 = Return tt /\ x_out (send_error e x).2 = x_out x ++ error_messages e.
Proof. intros H. unfold send_error. by rewrite send_two. Qed.

Lemma second_request_replays mw app sc key ttl t y pending fp e raw :
  takes_all y -> look (value_key (scoped name key)) (n1 t) (x_store y).2 = Some raw ->
  dumps serializer e = Return raw -> (n1 t <= n2 t)%Q ->
  let again := idem_execute mw app sc pending key fp ttl t y in
  again.1 = Return tt /\
  x_out again.2 = x_out y ++
    match checked name key (used_fingerprint fp)
            (look (fingerprint_key name key) (n2 t) (x_store y).2) e with
    | Return _ => replay_messages e (bool_decide (sc_method sc = "HEAD"%string))
    | Raise _ => error_messages KeyReused
    end.
Proof.
  intros Hall Hl Hd H12. destruct y as [yi yo yf [c b]]. cbn [x_store x_out fst snd] in *.
  cbv zeta. destruct (idem_execute _ _ _ _ _ _ _ _ _) as [r y'] eqn:Ex. revert Ex.
  unfold idem_execute. fold (used_fingerprint fp). unfold on_store at 1. cbn [x_store fst snd].
  destruct (enter_found key (used_fingerprint fp) t c b raw e Hl Hd H12) as [st E].
  rewrite E. destruct (checked _ _ _ _ e) as [o|err] eqn:Ec.
  - unfold within_block. cbn [op_replayed op_result replayed op_response].
    unfold send_stored. rewrite send_two by done. unfold leave_block, on_store, block_exit.
    cbn [op_stored op_replayed replayed]. by intros [= <- <-].
  - assert (err = conflict name key) as ->.
    { unfold checked in Ec. repeat case_match; simplify_eq; done. }
    change (isinstance (conflict name key) IdempotencyConflictError) with true. cbv iota.
    unfold send_error. rewrite send_two by done. by intros [= <- <-].
Qed.

(** C29 A response is replayed.  Let the idempotency store be a cache backend that never
    fails ([ReliableCache]) behind a [TTLCache] without [maxsize], with a serializer whose
    [loads] inverts its [dumps].  When a request with a key finds no response under it,
    does not time out waiting for the lock of the key, runs the application to its end,
    and its whole response was sent and may be stored, then every later request that
    builds the same key within the time to live, and for whose looks the two entries of
    the key (the response, the fingerprint) are as the first request left them, whatever
    else has happened to the store, gets that status, those headers with the length
    computed again and the mark of a replay, and that body (none for [HEAD]), whatever
    the application would do; with the digest of another body it gets the error 422
    instead (while the stored fingerprint lives: a second longer).  The digests are of
    bodies within [max_body_size]; a request reads a clock that does not go back; both
    clients take all messages they are sent, and neither request is cancelled. *)
Theorem http_response_replayed mw app sc skey ttl t x fp pending x0 x' status hs trailers chunk chunks e :
  0 <= mw_max_body_size mw -> takes_all x ->
  keyed mw sc skey -> fingerprinted mw x = Some (fp, pending, x0) ->
  look (value_key (scoped name skey)) (n1 t) (x_store x).2 = None -> (n1 t <= n3 t)%Q ->
  timed_out t = false -> tc_maxsize (x_store x).1 = 0 ->
  idem_handle mw app sc ttl t x = (Return tt, x') ->
  x_out x' = x_out x ++ asgi_response status hs trailers chunk chunks ->
  stored_response mw status hs trailers (concat (chunk :: chunks)) = Some e ->
  forall app' sc' ttl' t' y fp' pending' y0,
    takes_all y ->
    look (value_key (scoped name skey)) (n1 t') (x_store y).2 =
      look (value_key (scoped name skey)) (n1 t') (x_store x').2 ->
    look (fingerprint_key name skey) (n2 t') (x_store y).2 =
      look (fingerprint_key name skey) (n2 t') (x_store x').2 ->
    keyed mw sc' skey -> fingerprinted mw y = Some (fp', pending', y0) ->
    (n1 t' <= n2 t')%Q -> (n1 t' < n6 t + ttl)%Q ->
    let again := idem_handle mw app' sc' ttl' t' y in
    again.1 = Return tt /\
    (used_fingerprint fp' = None \/ used_fingerprint fp' = used_fingerprint fp ->
       x_out again.2 = x_out y ++ replayed_response status hs (concat (chunk :: chunks))
                                    (bool_decide (sc_method sc' = "HEAD"%string))) /\
    (forall f f', used_fingerprint fp = Some f -> used_fingerprint fp' = Some f' -> f <> f' ->
       (n2 t' < n5 t + ttl + 1)%Q -> x_out again.2 = x_out y ++ error_messages KeyReused).
Proof.
  intros Hmax Hall Hk Hf Hl H13 Ht Hm Hrun Hout He app' sc' ttl' t' y fp' pending' y0 Hall' Hst Hstf Hk' Hf' H12 Hlt.
  rewrite (handle_keyed _ _ _ _ _ _ _ _ _ _ Hk Hf) in Hrun.
  destruct (fingerprinted_same _ _ _ _ _ Hf) as (Ho & Hfl & Hs).
  destruct (fingerprinted_same _ _ _ _ _ Hf') as (Ho' & Hfl' & Hs').
  rewrite (handle_keyed _ _ _ _ _ _ _ _ _ _ Hk' Hf').
  destruct (first_request_stores mw app sc skey ttl t x0 pending fp x' status hs trailers chunk chunks)
    with (e := e) as (raw & Hd & H1 & H2); rewrite ?Hs, ?Ho; try done.
  { intros out. by rewrite Hfl. }
  assert (Hlook : look (value_key (scoped name skey)) (n1 t') (x_store y0).2 = Some raw).
  { rewrite Hs', Hst. unfold look, seen_value, seen, entry_live. rewrite H1. cbn.
    by destruct (Qlt_bool_spec (n1 t') (n6 t + ttl)); [|lra]. }
  assert (takes_all y0) as Hall0 by (intros out; rewrite Hfl'; apply Hall').
  destruct (second_request_replays mw app' sc' skey ttl' t' y0 pending' fp' e raw Hall0 Hlook Hd H12)
    as [R1 R2].
  cbv zeta. split; [exact R1|]. rewrite R2, Ho'. unfold stored_response in He.
  destruct (_ && _); [|done]. injection He as <-. split.
  - intros Hfp. rewrite replay_of_entry. destruct Hfp as [->| ->]; [done|].
    unfold checked. destruct (used_fingerprint fp) as [f|] eqn:Ef; [|done].
    destruct (look (fingerprint_key name skey) (n2 t') (x_store y0).2) as [r|] eqn:Er; [|done].
    assert (r = encode f) as ->.
    { revert Er. rewrite Hs', Hstf. unfold look, seen_value, seen. rewrite (H2 f eq_refl).
      cbn. destruct (entry_live _ _); [by intros [= <-]|done]. }
    rewrite decode_encode. by rewrite decide_False by (intros H; by apply H).
  - intros f f' Ef Ef' Hne Hn2. unfold checked. rewrite Ef'.
    assert (look (fingerprint_key name skey) (n2 t') (x_store y0).2 = Some (encode f)) as ->.
    { rewrite Hs', Hstf. unfold look, seen_value, seen, entry_live. rewrite (H2 f Ef). cbn.
      by destruct (Qlt_bool_spec (n2 t') (n5 t + (ttl + 1))); [|lra]. }
    rewrite decode_encode. by rewrite decide_True.
Qed.

(** ** Buffering *)

(** What a client that sends [l] makes [receive] return, again and again. *)
Definition same_stream (l l' : list request_message) : Prop :=
  forall i, default Disconnected (l !! i) = default Disconnected (l' !! i).

Lemma same_stream_cons m l l' : same_stream l l' -> same_stream (m :: l) (m :: l').
Proof. intros H [|i]; [done|]. apply H. Qed.

Lemma same_stream_next l l' :
  same_stream l l' ->
  hd Disconnected l = hd Disconnected l' /\ same_stream (tail l) (tail l').
Proof.
  intros H. split.
  - specialize (H O). by destruct l, l'.
  - intros i. specialize (H (S i)). by destruct l, l'.
Qed.

Lemma buffer_loop_stream max size chunks consumed l body pending l' :
  buffer_loop max size chunks consumed l = (body, false, pending, l') ->
  exists read, pending = consumed ++ read /\ same_stream l (read ++ l').
Proof.
  revert size chunks consumed. induction l as [|[chunk more|] l IH]; intros size chunks consumed; cbn.
  - intros [= <- <- <-]. exists [Disconnected]. split; [done|]. by intros [|i].
  - destruct (max <? _); [done|]. destruct more.
    + intros H. apply IH in H as (read & -> & Hs).
      exists (RequestBody chunk true :: read). split; [by rewrite <- app_assoc|]. by apply same_stream_cons.
    + intros [= <- <- <-]. by exists [RequestBody chunk false].
  - intros [= <- <- <-]. by exists [Disconnected].
Qed.

(** Two states the application cannot tell apart. *)
Definition same_state (s s' : app_state) : Prop :=
  let '(c, pending, x) := s in let '(c', pending', x') := s' in
  c = c' /\ same_stream (pending ++ x_in x) (pending' ++ x_in x') /\
  x_out x = x_out x' /\ x_fails x = x_fails x' /\ x_store x = x_store x'.

Lemma replay_receive_stream s :
  let '(c, pending, x) := s in let '(m, (c', pending', x')) := replay_receive s in
  m = hd Disconnected (pending ++ x_in x) /\ c' = c /\
  pending' ++ x_in x' = tail (pending ++ x_in x) /\
  x_out x' = x_out x /\ x_fails x' = x_fails x /\ x_store x' = x_store x.
Proof.
  destruct s as [[c [|m pending]] x]; cbn; [|done]. unfold receive.
  by destruct x as [[|m l] xo xf xs].
Qed.

Lemma run_same_state mw app s s' :
  same_state s s' ->
  (run_asgi replay_receive (capture_send mw) app s).1 =
    (run_asgi replay_receive (capture_send mw) app s').1 /\
  same_state (run_asgi replay_receive (capture_send mw) app s).2
    (run_asgi replay_receive (capture_send mw) app s').2.
Proof.
  revert s s'. induction app as [|e|k IH|m k IH]; intros s s' H; cbn [run_asgi]; [done..| |].
  - pose proof (replay_receive_stream s) as R. pose proof (replay_receive_stream s') as R'.
    destruct s as [[c p] x], s' as [[c' p'] x'].
    destruct (replay_receive (c, p, x)) as [m [[c1 p1] x1]].
    destruct (replay_receive (c', p', x')) as [m' [[c1' p1'] x1']].
    destruct H as (-> & Hs & Ho & Hf & Hst), R as (-> & -> & Ht & ? & ? & ?),
      R' as (-> & -> & Ht' & ? & ? & ?).
    apply same_stream_next in Hs as [-> Hs]. apply IH. split_and!; [done|by rewrite Ht, Ht'|congruence..].
  - destruct s as [[c p] x], s' as [[c' p'] x']. destruct H as (-> & Hs & Ho & Hf & Hst).
    unfold capture_send, send. rewrite Ho, Hf. destruct (x_fails x' (x_out x')).
    + by apply IH.
    + apply IH. split_and!; cbn; congruence || done.
Qed.

(** Reading the body first changes nothing for the application: with the
    messages replayed it ends the same way, sends the same messages and has
    the same response captured as if the body had not been read. *)
Lemma buffering_is_transparent mw app x body pending x1 :
  buffer_request (mw_max_body_size mw) x = (body, false, pending, x1) ->
  let buffered := run_captured mw app pending x1 in
  let direct := run_captured mw app [] x in
  buffered.1 = direct.1 /\ buffered.2.1.1 = direct.2.1.1 /\
  x_out buffered.2.2 = x_out direct.2.2 /\ x_store buffered.2.2 = x_store direct.2.2.
Proof.
  unfold buffer_request. destruct (buffer_loop _ _ _ _ _) as [[[b large] pend] l] eqn:E.
  intros [= -> -> -> <-]. apply buffer_loop_stream in E as (read & Hp & Hs). cbn in Hp. subst pending.
  cbv zeta. unfold run_captured.
  destruct (run_same_state mw app
    (new_capture, read, mkExchange l (x_out x) (x_fails x) (x_store x)) (new_capture, [], x)) as [H1 H2].
  { split_and!; try done. cbn. intros i. symmetry. apply Hs. }
  destruct (run_asgi replay_receive (capture_send mw) app (new_capture, [], x)) as [r' [[c' p'] y']].
  destruct (run_asgi replay_receive (capture_send mw) app _) as [r [[c p] y]].
  cbn in H1 |- *. by destruct H2 as (-> & _ & -> & _ & ->).
Qed.

(** ** The guards *)

(** A request that is not for this middleware, or carries no key, goes to the
    application as it came. *)
Lemma passes_through mw app sc ttl t x :
  sc_type sc <> "http"%string \/ sc_method sc ∉ upper <$> mw_methods mw \/
  (mw_require_key mw = false /\
   (header_value (sc_headers sc) (latin1_encode (lower (mw_header mw))) = None \/
    header_value (sc_headers sc) (latin1_encode (lower (mw_header mw))) = Some ""%string)) ->
  idem_handle mw app sc ttl t x = run_asgi receive send app x.
Proof.
  intros H. unfold idem_handle. destruct (bool_decide_reflect (sc_type sc = "http"%string)); [|done].
  destruct (bool_decide_reflect (sc_method sc ∈ upper <$> mw_methods mw)); [|done]. cbn [negb orb].
  destruct H as [?|[?|[Hr [-> | ->]]]]; by rewrite ?Hr.
Qed.

End Exchange.

(** ** Keys *)

Definition separator : Ascii.ascii := Ascii.ascii_of_nat 31.

(** No part of the key carries the separator. *)
Definition plain_request (sc : scope) (key : string) : Prop :=
  free_of separator (sc_method sc) = true /\ free_of separator (sc_path sc) = true /\
  free_of separator (latin1_decode (sc_query sc)) = true /\ free_of separator key = true.

Definition key_parts (sc : scope) (key : string) : list string :=
  [sc_method sc; sc_path sc] ++
  (if decide (sc_query sc = []) then [] else [latin1_decode (sc_query sc)]) ++ [key].

Lemma split_route_key sc key :
  plain_request sc key -> split_on separator (route_key sc key) = key_parts sc key.
Proof.
  intros (H1 & H2 & H3 & H4). unfold route_key. apply split_on_concat; [done|].
  unfold key_parts. by case_decide; repeat constructor.
Qed.

(** Two requests never share a stored key by accident: with the default key,
    when neither the method, the path, the query nor the client's key carries
    the separator, equal stored keys come from the same method, the same path,
    the same query string and the same client key. *)
Lemma route_keys_apart mw sc sc' key key' skey :
  mw_key_maker mw = None -> plain_request sc key -> plain_request sc' key' ->
  storage_key mw sc key = Return skey -> storage_key mw sc' key' = Return skey ->
  sc_method sc = sc_method sc' /\ sc_path sc = sc_path sc' /\ sc_query sc = sc_query sc' /\ key = key'.
Proof.
  intros Hmk Hp Hp'. unfold storage_key. rewrite Hmk. intros [= H1] [= H2].
  assert (key_parts sc key = key_parts sc' key') as E.
  { rewrite <- !split_route_key by done. congruence. }
  unfold key_parts in E. repeat case_decide; cbn in E; simplify_eq; split_and!; try done; try congruence.
  rewrite <- (latin1_roundtrip (sc_query sc)), <- (latin1_roundtrip (sc_query sc')). by f_equal.
Qed.

(** The checks on a built key. *)

(** What comes before the word ends it: nothing, or not a letter. *)
Fixpoint ends_free (free : bool) (a : string) : bool :=
  match a with
  | EmptyString => free
  | String c a => ends_free (negb (word_char c)) a
  end.

Lemma substring_suffix s n : String.substring 0 n s = s \/ (n < String.length s)%nat.
Proof.
  revert n. induction s as [|c s IH]; intros [|n]; cbn; [by left..|right; lia|].
  destruct (IH n) as [E|]; [left; by rewrite E|right; lia].
Qed.

Lemma after_none t : String.substring 4 (String.length ("None" +:+ t) - 4) ("None" +:+ t) = t.
Proof.
  change (String.substring 0 (S (S (S (S (String.length t)))) - 4) t = t).
  replace (S (S (S (S (String.length t)))) - 4)%nat with (String.length t) by lia.
  destruct (substring_suffix t (String.length t)); [done|lia].
Qed.

Lemma unresolved_from_spec free s :
  unresolved_from free s = true <->
  exists a b, s = a +:+ ("None" +:+ b) /\ ends_free free a = true /\ ends_token b = true.
Proof.
  revert free. induction s as [|c s IH]; intros free; cbn [unresolved_from].
  - rewrite orb_false_r, !andb_true_iff. split; [by intros [[_ ?] _]|].
    intros (a & b & E & _). by destruct a.
  - rewrite orb_true_iff, !andb_true_iff, IH. split.
    + intros [[[-> Hp] Ht]|(a & b & -> & Ha & Hb)].
      * apply string_prefix_spec in Hp as [t E]. exists "", t. split_and!; [done|done|].
        by rewrite E, after_none in Ht.
      * exists (String c a), b. by split_and!.
    + intros ([|c' a] & b & E & Ha & Hb).
      * left. cbn in E. split_and!; [done|by apply string_prefix_spec; exists b|].
        change (("" +:+ ("None" +:+ b))%string) with ("None" +:+ b) in E. by rewrite E, after_none.
      * right. injection E as <- ->. by exists a, b.
Qed.

(** A built key that is accepted carries the client's key, and no [None] between
    separators. *)
Lemma checked_key_ok built key skey :
  checked_key built key = Return skey <->
  built = Some skey /\ skey <> ""%string /\ (exists a b, skey = a +:+ (key +:+ b)) /\
  ~ (exists a b, skey = a +:+ ("None" +:+ b) /\ ends_free true a = true /\ ends_token b = true).
Proof.
  unfold checked_key. destruct built as [s|]; [|by split; [|intros [? _]]].
  rewrite <- contains_spec, <- unresolved_from_spec. fold (unresolved skey).
  case_decide as Hs; [split; [done|]; intros ([= ->] & ? & _); done|].
  destruct (contains key s) eqn:Ec; cbn [negb];
    [|split; [done|]; intros ([= ->] & _ & ? & _); congruence].
  destruct (unresolved s) eqn:Eu.
  - split; [done|]. intros ([= ->] & _ & _ & H). congruence.
  - split; [intros [= <-]|by intros ([= ->] & _)]. split_and!; [done|done|done|congruence].
Qed.

(** ** Concrete requests *)

#[export] Instance http_entry_eq_dec : EqDecision http_entry.
Proof. solve_decision. Defined.

Definition ascii_bytes : string -> bytes := latin1_encode.

Definition orders_header : headers :=
  [(ascii_bytes "content-type", ascii_bytes "text/plain"); (ascii_bytes "content-length", ascii_bytes "2")].
Definition order_entry : http_entry := entry_of 201 orders_header (ascii_bytes "ok").

(** A serializer that knows the response of this application. *)
Definition order_serializer : CacheSerializer http_entry :=
  mkSerializer _
    (fun v => if decide (v = order_entry) then Return (ascii_bytes "entry")
              else Raise (mk_exn TypeError NoInfo))
    (fun raw => if decide (raw = ascii_bytes "entry") then Return order_entry
                else Raise (mk_exn ValueError NoInfo)).

Lemma order_round_trip v raw :
  dumps order_serializer v = Return raw -> loads order_serializer raw = Return v.
Proof. cbn. case_decide; [intros [= <-]|done]. by rewrite decide_True by done; subst. Qed.

Definition orders_app : asgi :=
  Receive (fun _ => Send (ResponseStart 201 orders_header false) (fun _ =>
    Send (ResponseBody (ascii_bytes "o") true) (fun _ =>
    Send (ResponseBody (ascii_bytes "k") false) (fun _ => AppReturns)))).

Definition broken_app : asgi := AppRaises cache_boom.

Definition orders_middleware (fingerprint_body : bool) : idem_middleware :=
  mkMiddleware "Idempotency-Key" ["post"] None None false fingerprint_body 1024.

Definition order_request (query key : string) : scope :=
  mkScope "http" "POST" "/orders" (ascii_bytes query) [(ascii_bytes "IDEMPOTENCY-key", ascii_bytes (" " +:+ key))].

Definition order_errors (e : http_error) : bytes := ascii_bytes "error".

Definition order_exchange (body : string) (st : TTLCache * cache_store) : exchange (B := cache_store) :=
  mkExchange [RequestBody (ascii_bytes body) false] [] (fun _ => None) st.

Definition at_instant (now : Q) : timing := mkTiming now now now now now now false.

Definition order_handle (app : asgi) (sc : scope) (now : Q) (body : string) (st : TTLCache * cache_store) :=
  idem_handle order_serializer "http" None decode order_errors (orders_middleware true) app sc 60 (at_instant now)
    (order_exchange body st).

Definition after_first : TTLCache * cache_store :=
  x_store (order_handle orders_app (order_request "" "k") 0 "x" empty_cache).2.

Definition order_response : list message :=
  asgi_response 201 orders_header false (ascii_bytes "o") [ascii_bytes "k"].

Lemma order_keyed query key :
  (query, key) = ("", "k")%string -> keyed (orders_middleware true) (order_request query key)
    (route_key (order_request query key) key).
Proof. intros [= -> ->]. exists "k"%string. split_and!; try done; by vm_compute; left. Qed.

Lemma order_first_run :
  order_handle orders_app (order_request "" "k") 0 "x" empty_cache =
  (Return tt, (order_handle orders_app (order_request "" "k") 0 "x" empty_cache).2).
Proof.
  assert ((order_handle orders_app (order_request "" "k") 0 "x" empty_cache).1 = Return tt) as E
    by (by vm_compute).
  destruct (order_handle _ _ _ _ _) as [r x]. cbn in E |- *. by rewrite E.
Qed.

(** A request with another key comes between the two. *)
Definition after_other : TTLCache * cache_store :=
  x_store (order_handle orders_app (order_request "" "other") 20 "z" after_first).2.

Lemma http_response_replayed_witness :
  let again body := order_handle broken_app (order_request "" "k") 30 body after_other in
  (again "x"%string).1 = Return tt /\
  x_out (again "x"%string).2 = replayed_response 201 orders_header (ascii_bytes "ok") false /\
  x_out (again "y"%string).2 = error_messages order_errors KeyReused.
Proof.
  pose proof (http_response_replayed (RC := memory_cache_reliable) order_serializer "http" None decode
    order_errors order_round_trip (orders_middleware true) orders_app (order_request "" "k")
    (route_key (order_request "" "k") "k") 60 (at_instant 0) (order_exchange "x" empty_cache) (Some "x"%string)
    [RequestBody (ascii_bytes "x") false] (mkExchange [] [] (fun _ => None) empty_cache)
    (order_handle orders_app (order_request "" "k") 0 "x" empty_cache).2
    201 orders_header false (ascii_bytes "o") [ascii_bytes "k"] order_entry) as H.
  assert (Hk := order_keyed "" "k" eq_refl).
  specialize (H ltac:(by vm_compute) ltac:(done) Hk ltac:(by vm_compute) ltac:(by vm_compute)
    ltac:(by vm_compute) eq_refl eq_refl order_first_run ltac:(by vm_compute) ltac:(by vm_compute)).
  assert (forall body, body = "x"%string \/ body = "y"%string ->
    fingerprinted decode (orders_middleware true) (order_exchange body after_other) =
    Some (Some body, [RequestBody (ascii_bytes body) false],
          mkExchange [] [] (fun _ => None) after_other)) as Hf by (by intros ? [-> | ->]).
  intros again. split; [|split].
  - apply (H broken_app (order_request "" "k") 60%Q (at_instant 30) (order_exchange "x" after_other) _ _ _
      ltac:(done) ltac:(by vm_compute) ltac:(by vm_compute) Hk (Hf "x"%string (or_introl eq_refl))); by vm_compute.
  - apply (H broken_app (order_request "" "k") 60%Q (at_instant 30) (order_exchange "x" after_other) _ _ _
      ltac:(done) ltac:(by vm_compute) ltac:(by vm_compute) Hk (Hf "x"%string (or_introl eq_refl))); [by vm_compute..|by right].
  - apply (H broken_app (order_request "" "k") 60%Q (at_instant 30) (order_exchange "y" after_other) _ _ _
      ltac:(done) ltac:(by vm_compute) ltac:(by vm_compute) Hk (Hf "y"%string (or_intror eq_refl))) with (f := "x"%string) (f' := "y"%string);
      try done; by vm_compute.
Defined.

Lemma buffering_is_transparent_witness :
  let x := mkExchange [RequestBody (ascii_bytes "a") true; Disconnected] [] (fun _ => None) empty_cache in
  let x1 := mkExchange [] [] (fun _ => None) empty_cache in
  let pending := [RequestBody (ascii_bytes "a") true; Disconnected] in
  x_out (run_captured (orders_middleware true) orders_app pending x1).2.2 =
  x_out (run_captured (orders_middleware true) orders_app [] x).2.2.
Proof.
  intros x x1 pending.
  apply (buffering_is_transparent (orders_middleware true) orders_app x None pending x1). reflexivity.
Defined.

Lemma route_keys_apart_witness :
  sc_query (order_request "q" "k") = sc_query (order_request "q" "k").
Proof.
  apply (route_keys_apart (orders_middleware true) (order_request "q" "k") (order_request "q" "k") "k" "k"
    (route_key (order_request "q" "k") "k")); split_and! || idtac; by vm_compute.
Defined.

(** A path is percent-decoded, so it may carry the separator: [/orders%1Fq] and
    [/orders?q] are two routes with one key. *)
Lemma separator_in_path_meets :
  route_key (mkScope "http" "POST" ("/orders" +:+ _KEY_SEPARATOR +:+ "q") [] []) "k" =
  route_key (order_request "q" "k") "k".
Proof. by vm_compute. Qed.

(** The fingerprint of a request is stored under the key of another request, whose
    query is the client key of the first and whose client key is [fp]; that
    request fails before it reaches the application. *)
Lemma fingerprint_is_another_request :
  fingerprint_key "http" (route_key (order_request "" "k") "k") =
    value_key (scoped "http" (route_key (order_request "k" "fp") "fp")) /\
  (order_handle orders_app (order_request "k" "fp") 1 "x" after_first).1 =
    Raise (mk_exn ValueError NoInfo).
Proof. by vm_compute. Qed.
