(* ===== verification/SqliteCache.v ===== *)
(** * The cache in a SQLite file

    [grelmicro/cache/sqlite.py]: a table of values with their expiry and a table
    of tags whose rows go with the value they belong to, used in transactions
    and single statements of [Sqlite].  [LIKE] is SQLite's: [%] and [_], the
    escape character, and letters of ASCII without their case.  [PostgresCache] has
    tables of the same columns. *)

From S2P Require Import Prelude Errors PyStr CacheMemory TTLCache Sqlite.
From Stdlib Require Import Ascii String.

Local Open Scope Z_scope.

Definition _JANITOR_LIMIT : nat := 1000.

(** [{table_name}] and [{table_name}_tags] *)
Record cache_tables : Type := mkTables {
  ct_rows : gmap string (bytes * Q);
  ct_tags : gset (string * string);
}.

Definition empty_tables : cache_tables := mkTables ∅ ∅.

(** ** [LIKE] *)

Inductive like_token : Type := LikeAny | LikeOne | LikeChar (c : ascii).

(** The pattern with [ESCAPE '\']; an escape at the end matches nothing. *)
Fixpoint like_pattern (p : string) : option (list like_token) :=
  match p with
  | EmptyString => Some []
  | String "\"%char EmptyString => None
  | String "\"%char (String c p) => cons (LikeChar c) <$> like_pattern p
  | String "%"%char p => cons LikeAny <$> like_pattern p
  | String "_"%char p => cons LikeOne <$> like_pattern p
  | String c p => cons (LikeChar c) <$> like_pattern p
  end.

Fixpoint like_match (same : ascii -> ascii -> bool) (l : list like_token) (s : string) : bool :=
  match l with
  | [] => match s with EmptyString => true | _ => false end
  | LikeAny :: l =>
      (fix rest s := like_match same l s || match s with EmptyString => false | String _ s => rest s end) s
  | LikeOne :: l => match s with EmptyString => false | String _ s => like_match same l s end
  | LikeChar c :: l =>
      match s with
      | EmptyString => false
      | String d s => same c d && like_match same l s
      end
  end.

Definition sql_like (s p : string) : bool :=
  match like_pattern p with
  | Some l => like_match (fun c d => Ascii.eqb (lower_char c) (lower_char d)) l s
  | None => false
  end.

(** [_escape_like] *)
Definition escape_like (value : string) : string :=
  replace_char "_"%char "\_" (replace_char "%"%char "\%" (replace_char "\"%char "\\" value)).

(** ** Statements *)

(** [_SQL_GET] *)
Definition select_value (key : string) (now : Q) (t : cache_tables) : option bytes :=
  match ct_rows t !! key with
  | Some (value, expires_at) => if (expires_at >? now)%py then Some value else None
  | None => None
  end.

(** The select of [get_many] *)
Definition select_values (keys : list string) (now : Q) (t : cache_tables) : list (string * bytes) :=
  omap (fun key => pair key <$> select_value key now t) (remove_dups keys).

(** [_SQL_SET], [_SQL_DELETE_TAGS_OF_KEY] and [_SQL_INSERT_TAG] over the tags *)
Definition upsert_value (key : string) (value : bytes) (expires_at : Q) (t : cache_tables) : cache_tables :=
  mkTables (<[key := (value, expires_at)]> (ct_rows t)) (ct_tags t).
Definition delete_tags_of_key (key : string) (t : cache_tables) : cache_tables :=
  mkTables (ct_rows t) (filter (fun kt => kt.1 <> key) (ct_tags t)).
Definition insert_tags (key : string) (tags : list string) (t : cache_tables) : cache_tables :=
  mkTables (ct_rows t) (list_to_set (pair key <$> tags) ∪ ct_tags t).

(** A [DELETE] of the rows that satisfy [P], with [ON DELETE CASCADE]. *)
Definition deleted (P : string -> bytes * Q -> bool) (t : cache_tables) (key : string) : bool :=
  match ct_rows t !! key with Some row => P key row | None => false end.

Definition delete_where (P : string -> bytes * Q -> bool) (t : cache_tables) : cache_tables :=
  mkTables (filter (fun kr => P kr.1 kr.2 = false) (ct_rows t))
    (filter (fun kt => deleted P t kt.1 = false) (ct_tags t)).

(** [_SQL_DELETE] and the delete of [delete_many], [_SQL_DELETE_BY_TAG],
    [_SQL_CLEAR_PREFIX] and [_SQL_CLEAR_ALL] *)
Definition delete_keys (keys : list string) : cache_tables -> cache_tables :=
  delete_where (fun key _ => bool_decide (key ∈ keys)).
Definition delete_by_tag (tag : string) (t : cache_tables) : cache_tables :=
  delete_where (fun key _ => bool_decide ((key, tag) ∈ ct_tags t)) t.
Definition clear_prefix (pattern : string) : cache_tables -> cache_tables :=
  delete_where (fun key _ => sql_like key pattern).
Definition clear_all : cache_tables -> cache_tables := delete_where (fun _ _ => true).

(** [_SQL_JANITOR]: at most [limit] of the rows; SQLite picks which, so the keys
    it [chose] are an argument. *)
Definition janitor_rows (chose : list string) (before : Q) (limit : nat) : cache_tables -> cache_tables :=
  delete_where (fun key row => bool_decide (key ∈ take limit chose) && (row.2 <? before)%py).

Definition execute_ (f : cache_tables -> cache_tables) : body cache_tables unit :=
  Run (Modify (fun t => (tt, f t))) Ret.

(** ** [SQLiteCacheAdapter] *)

Section Adapter.
Context (prefix : string).

Definition prefixed (key : string) : string := prefix +:+ key.

(** [get] *)
Definition sqv_get (key : string) : sql_call cache_tables (option bytes) :=
  Statements (Now (fun now => Run (Select (select_value (prefixed key) now)) Ret)).

(** The statements for one key of [set] and [set_many] *)
Definition store_one (key : string) (value : bytes) (expires_at : Q) (tags : list string) :
    body cache_tables unit :=
  execute_ (upsert_value (prefixed key) value expires_at) ≫= fun _ =>
  execute_ (delete_tags_of_key (prefixed key)) ≫= fun _ =>
  match tags with
  | [] => Ret tt
  | _ => execute_ (insert_tags (prefixed key) tags)
  end.

Fixpoint store_all (items : list (string * bytes)) (expires_at : Q) (tags : list string) :
    body cache_tables unit :=
  match items with
  | [] => Ret tt
  | (key, value) :: items => store_one key value expires_at tags ≫= fun _ => store_all items expires_at tags
  end.

(** [set]; [now] is read before the connection is taken *)
Definition sqv_set (key : string) (value : bytes) (ttl : Q) (tags : list string) (now : Q) :
    sql_call cache_tables unit :=
  Transaction (store_one key value (now + ttl) tags).

(** [row[0][plen:]] *)
Fixpoint drop_string (n : nat) (s : string) : string :=
  match n, s with S n, String _ s => drop_string n s | _, _ => s end.

(** [get_many] and [set_many]; [None] where there is nothing to ask. *)
Definition sqv_get_many (keys : list string) : option (sql_call cache_tables (gmap string bytes)) :=
  match keys with
  | [] => None
  | _ => Some (Statements (Now (fun now =>
      Run (Select (select_values (prefixed <$> keys) now)) (fun rows =>
      Ret (foldl (fun m row => <[drop_string (String.length prefix) row.1 := row.2]> m) ∅ rows)))))
  end.

Definition sqv_set_many (items : list (string * bytes)) (ttl : Q) (tags : list string) (now : Q) :
    option (sql_call cache_tables unit) :=
  match items with [] => None | _ => Some (Transaction (store_all items (now + ttl) tags)) end.

(** [delete] and [delete_many] *)
Definition sqv_delete (key : string) : sql_call cache_tables unit :=
  Statements (execute_ (delete_keys [prefixed key])).
Definition sqv_delete_many (keys : list string) : option (sql_call cache_tables unit) :=
  match keys with [] => None | _ => Some (Statements (execute_ (delete_keys (prefixed <$> keys)))) end.

(** [delete_tags] *)
Fixpoint delete_each_tag (tags : list string) : body cache_tables unit :=
  match tags with
  | [] => Ret tt
  | tag :: tags => execute_ (delete_by_tag tag) ≫= fun _ => delete_each_tag tags
  end.

Definition sqv_delete_tags (tags : list string) : option (sql_call cache_tables unit) :=
  match tags with [] => None | _ => Some (Transaction (delete_each_tag tags)) end.

(** [clear] *)
Definition sqv_clear : sql_call cache_tables unit :=
  Statements (match prefix with
              | EmptyString => execute_ clear_all
              | _ => execute_ (clear_prefix (escape_like prefix +:+ "%"))
              end).

(** One turn of [_janitor_loop] *)
Definition sqv_janitor (chose : list string) : sql_call cache_tables unit :=
  Statements (Now (fun now => execute_ (janitor_rows chose (now - 3600) _JANITOR_LIMIT))).

(** ** What the statements do *)

Definition tags_of (key : string) (t : cache_tables) : gset string :=
  set_map snd (filter (fun kt => kt.1 = key) (ct_tags t)).

(** The row of a key, with its tags. *)
Definition stored_entry (t : cache_tables) (key : string) : option entry :=
  match ct_rows t !! key with
  | Some (value, expires_at) => Some (mkEntry value expires_at (tags_of key t))
  | None => None
  end.

Lemma elem_of_tags_of key tag t : tag ∈ tags_of key t <-> (key, tag) ∈ ct_tags t.
Proof.
  unfold tags_of. rewrite elem_of_map. split.
  - intros ([k tg] & -> & [<- Hin]%elem_of_filter). done.
  - intros Hin. exists (key, tag). by rewrite elem_of_filter.
Qed.

(** What one store leaves. *)
Definition store_row (key : string) (value : bytes) (expires_at : Q) (tags : list string)
    (t : cache_tables) : cache_tables :=
  mkTables (<[key := (value, expires_at)]> (ct_rows t))
    (list_to_set (pair key <$> tags) ∪ filter (fun kt => kt.1 <> key) (ct_tags t)).

Lemma store_one_eval key value expires_at tags now t :
  eval_at now (store_one key value expires_at tags) t =
  (Return tt, store_row (prefixed key) value expires_at tags t).
Proof.
  unfold store_one, store_row, insert_tags, mbind, body_mbind. destruct tags as [|tag tags]; cbn [body_bind execute_ eval_at stmt_run].
  - unfold delete_tags_of_key, upsert_value. cbn [ct_rows ct_tags fmap list_fmap list_to_set].
    do 2 f_equal. set_solver.
  - done.
Qed.

Lemma store_row_entry key value expires_at tags t k :
  stored_entry (store_row key value expires_at tags t) k =
  if decide (k = key) then Some (mkEntry value expires_at (list_to_set tags)) else stored_entry t k.
Proof.
  unfold stored_entry, store_row. cbn [ct_rows]. case_decide as E.
  - subst k. rewrite lookup_insert_eq. do 2 f_equal. apply set_eq. intros tag.
    rewrite elem_of_tags_of. cbn. set_solver.
  - rewrite lookup_insert_ne by done. destruct (ct_rows t !! k) as [[v e]|]; [|done].
    do 2 f_equal. apply set_eq. intros tag. rewrite !elem_of_tags_of. cbn. set_solver.
Qed.

(** The dictionary the tables hold. *)
Definition table_entries (t : cache_tables) : entries :=
  map_imap (fun key row => Some (mkEntry row.1 row.2 (tags_of key t))) (ct_rows t).

Lemma table_entries_lookup t key : table_entries t !! key = stored_entry t key.
Proof.
  unfold table_entries, stored_entry. rewrite map_lookup_imap.
  by destruct (ct_rows t !! key) as [[v e]|].
Qed.

Lemma store_row_entries key value expires_at tags t :
  table_entries (store_row key value expires_at tags t) =
  spec_put key value expires_at tags (table_entries t).
Proof.
  apply map_eq. intros k. rewrite table_entries_lookup, store_row_entry. unfold spec_put.
  case_decide as E; [subst; by rewrite lookup_insert_eq|].
  by rewrite lookup_insert_ne, table_entries_lookup by done.
Qed.

Lemma store_all_eval items expires_at tags now t :
  exists t', eval_at now (store_all items expires_at tags) t = (Return tt, t') /\
    table_entries t' =
      fold_left (fun m item => spec_put (prefixed item.1) item.2 expires_at tags m) items (table_entries t).
Proof.
  revert t. induction items as [|[key value] items IH]; intros t; [by exists t|].
  destruct (IH (store_row (prefixed key) value expires_at tags t)) as (t' & E & H).
  exists t'. split.
  - cbn [store_all]. unfold mbind, body_mbind. by rewrite eval_at_bind, store_one_eval.
  - by rewrite H, store_row_entries.
Qed.

Lemma delete_where_entry P t k :
  stored_entry (delete_where P t) k = if deleted P t k then None else stored_entry t k.
Proof.
  unfold stored_entry, delete_where, deleted. cbn [ct_rows].
  rewrite map_lookup_filter. destruct (ct_rows t !! k) as [[v e]|] eqn:E; cbn; [|done].
  case_guard as Hg; destruct (P k (v, e)) eqn:Ep; cbn in *; try done. cbn.
  do 2 f_equal. apply set_eq. intros tag. rewrite !elem_of_tags_of. cbn.
  rewrite elem_of_filter. cbn. unfold deleted. rewrite E, Ep. naive_solver.
Qed.

Lemma delete_keys_entry keys t k :
  stored_entry (delete_keys keys t) k = if decide (k ∈ keys) then None else stored_entry t k.
Proof.
  unfold delete_keys. rewrite delete_where_entry. unfold deleted, stored_entry.
  destruct (ct_rows t !! k) as [[v e]|]; case_decide as Hd.
  - by rewrite bool_decide_eq_true_2.
  - by rewrite bool_decide_eq_false_2.
  - done.
  - done.
Qed.

Lemma delete_by_tag_entry tag t k :
  stored_entry (delete_by_tag tag t) k =
  match stored_entry t k with
  | Some e => if decide (tag ∈ e_tags e) then None else Some e
  | None => None
  end.
Proof.
  unfold delete_by_tag. rewrite delete_where_entry. unfold deleted, stored_entry.
  destruct (ct_rows t !! k) as [[v e]|]; [|done]. cbn.
  case_decide as Hd; rewrite elem_of_tags_of in Hd.
  - by rewrite bool_decide_eq_true_2.
  - by rewrite bool_decide_eq_false_2.
Qed.

Lemma delete_each_tag_eval tags now t :
  exists t', eval_at now (delete_each_tag tags) t = (Return tt, t') /\
    forall k, stored_entry t' k =
      match stored_entry t k with
      | Some e => if decide (e_tags e ## list_to_set tags) then Some e else None
      | None => None
      end.
Proof.
  revert t. induction tags as [|tag tags IH]; intros t.
  - exists t. split; [done|]. intros k. destruct (stored_entry t k); [|done].
    rewrite decide_True; [done|]. set_solver.
  - destruct (IH (delete_by_tag tag t)) as (t' & E & H). exists t'. split.
    + cbn [delete_each_tag]. unfold mbind, body_mbind. by rewrite eval_at_bind.
    + intros k. rewrite H, delete_by_tag_entry. destruct (stored_entry t k) as [e|]; [|done].
      repeat case_decide; try done; set_solver.
Qed.

Lemma drop_prefix key : drop_string (String.length prefix) (prefixed key) = key.
Proof. unfold prefixed. induction prefix as [|c p IH]; cbn; [by destruct key|]. done. Qed.

#[global] Instance prefixed_inj : Inj (=) (=) prefixed.
Proof. intros k k' E. by apply (inj (String.append prefix)) in E. Qed.

(** The dictionary of [get_many]. *)
Definition add_row (m : gmap string bytes) (row : string * bytes) : gmap string bytes :=
  <[drop_string (String.length prefix) row.1 := row.2]> m.

Lemma collect_rows (sel : string -> option bytes) ks m j :
  NoDup ks -> Forall (fun k => exists x, k = prefixed x) ks ->
  foldl add_row m (omap (fun k => pair k <$> sel k) ks) !! j =
  if decide (prefixed j ∈ ks) then
    match sel (prefixed j) with Some v => Some v | None => m !! j end
  else m !! j.
Proof.
  revert m. induction ks as [|k ks IH]; intros m Hnd Hks.
  - rewrite decide_False; [done|]. by intros ?%elem_of_nil.
  - apply NoDup_cons in Hnd as [Hnin Hnd]. apply Forall_cons in Hks as [[x ->] Hks].
    cbn. destruct (sel (prefixed x)) as [v|] eqn:E; cbn [fmap option_fmap option_map foldl]; rewrite IH by done.
    + unfold add_row. cbn. rewrite drop_prefix. destruct (decide (j = x)) as [->|Hne].
      * rewrite decide_False, (decide_True (P := prefixed x ∈ _)) by (done || by left). by rewrite E, lookup_insert_eq.
      * rewrite lookup_insert_ne by done. destruct (decide (prefixed j ∈ ks)).
        -- by rewrite decide_True by (by right).
        -- rewrite decide_False; [done|]. by intros [?%(inj prefixed)|?]%elem_of_cons.
    + destruct (decide (prefixed j ∈ ks)) as [Hin|Hin].
      * by rewrite decide_True by (by right).
      * destruct (decide (j = x)) as [->|Hne].
        -- rewrite decide_True by (by left). by rewrite E.
        -- rewrite decide_False; [done|]. by intros [?%(inj prefixed)|?]%elem_of_cons.
Qed.

Lemma select_value_seen key now t : select_value key now t = seen_value now (stored_entry t key).
Proof.
  unfold select_value, seen_value, seen, stored_entry, entry_live.
  destruct (ct_rows t !! key) as [[v e]|]; [|done]. cbn. by destruct (now <? e)%py.
Qed.

(** The keys of the request found live. *)
Definition found_entries (keys : list string) (now : Q) (m : entries) : gmap string bytes :=
  list_to_map (omap (fun key => pair key <$> seen_value now (m !! prefixed key)) (remove_dups keys)).

Lemma found_entries_lookup keys now m key :
  found_entries keys now m !! key =
  if decide (key ∈ keys) then seen_value now (m !! prefixed key) else None.
Proof.
  unfold found_entries.
  assert (forall ks, NoDup ks ->
    (list_to_map (omap (fun key => pair key <$> seen_value now (m !! prefixed key)) ks) : gmap string bytes)
      !! key = if decide (key ∈ ks) then seen_value now (m !! prefixed key) else None) as H.
  { induction ks as [|k ks IH]; intros Hnd; [by rewrite decide_False by apply not_elem_of_nil|].
    apply NoDup_cons in Hnd as [Hnin Hnd]. specialize (IH Hnd). cbn.
    destruct (decide (key = k)) as [->|Hne].
    - rewrite decide_True by (by left). rewrite decide_False in IH by done.
      destruct (seen_value now (m !! prefixed k)); cbn; [by rewrite lookup_insert_eq|done].
    - destruct (seen_value now (m !! prefixed k)); cbn; rewrite ?lookup_insert_ne by done; rewrite IH;
        repeat case_decide; try done; exfalso; set_solver. }
  rewrite H by apply NoDup_remove_dups. repeat case_decide; try done; exfalso; rewrite elem_of_remove_dups in *; done.
Qed.

Lemma found_rows keys now t :
  foldl add_row ∅ (select_values (prefixed <$> keys) now t) = found_entries keys now (table_entries t).
Proof.
  apply map_eq. intros k. unfold select_values.
  rewrite (collect_rows (fun k => select_value k now t)).
  - rewrite found_entries_lookup, table_entries_lookup, lookup_empty, select_value_seen.
    assert (prefixed k ∈ remove_dups (prefixed <$> keys) <-> k ∈ keys) as Hiff.
    { rewrite elem_of_remove_dups, list_elem_of_fmap. split; [|by exists k].
      intros (x & ?%(inj prefixed) & ?). by subst. }
    repeat case_decide; try tauto. by destruct (seen_value _ _).
  - apply NoDup_remove_dups.
  - apply Forall_forall. intros x Hx.
    apply elem_of_remove_dups, list_elem_of_fmap in Hx as (y & -> & _). by exists y.
Qed.

Lemma get_many_eval keys now t :
  eval_at now (Now (fun now => Run (Select (select_values (prefixed <$> keys) now))
    (fun rows => Ret (foldl add_row ∅ rows)))) t =
  (Return (found_entries keys now (table_entries t)), t).
Proof.
  cbn [eval_at stmt_run fst snd]. by rewrite found_rows.
Qed.

(** The calls of an adapter whose connection answers, one after the other. *)
Definition call_at {A} (now : Q) (call : sql_call cache_tables A) (t : cache_tables) :
    outcome exn A * cache_tables :=
  let '(r, db) := perform 0 (served_at (fun _ => now)) call (open_db t) in (r, committed db).

(** A method that returns at once where there is nothing to ask. *)
Definition call_or {A} (now : Q) (nothing : A) (call : option (sql_call cache_tables A)) (t : cache_tables) :
    outcome exn A * cache_tables :=
  match call with Some call => call_at now call t | None => (Return nothing, t) end.

Lemma execute_at now f t : call_at now (Statements (execute_ f)) t = (Return tt, f t).
Proof. unfold call_at. by rewrite statements_served. Qed.

Lemma transaction_at {A} now (b : body cache_tables A) t a t' :
  eval_at now b t = (Return a, t') -> call_at now (Transaction b) t = (Return a, t').
Proof. intros E. unfold call_at. rewrite transaction_served. unfold keep_if_returned. by rewrite E. Qed.
End Adapter.

(** ** [LIKE] with an escaped prefix *)

Lemma escape_like_cons c s :
  escape_like (String c s) = escape_like (String c "") +:+ escape_like s.
Proof.
  unfold escape_like. change (String c s) with (String c "" +:+ s).
  by rewrite !replace_char_app.
Qed.

Lemma like_pattern_escaped c p :
  like_pattern (escape_like (String c "") +:+ p) = cons (LikeChar c) <$> like_pattern p.
Proof. by destruct c as [[] [] [] [] [] [] [] []]; destruct p. Qed.

Fixpoint chars (s : string) : list ascii :=
  match s with EmptyString => [] | String c s => c :: chars s end.

Lemma like_pattern_prefix p :
  like_pattern (escape_like p +:+ "%") = Some ((LikeChar <$> chars p) ++ [LikeAny]).
Proof.
  induction p as [|c p IH]; [done|]. rewrite escape_like_cons, append_assoc, like_pattern_escaped, IH. done.
Qed.

Lemma like_any same s : like_match same [LikeAny] s = true.
Proof. induction s as [|c s IH]; [done|]. exact IH. Qed.

(** The pattern [clear] makes matches the keys that begin with the prefix, letters
    of ASCII compared without their case. *)
Lemma like_escaped_prefix p s :
  sql_like s (escape_like p +:+ "%") = true <-> exists a b, s = a +:+ b /\ lower a = lower p.
Proof.
  unfold sql_like. rewrite like_pattern_prefix. revert s. induction p as [|c p IH]; intros s; cbn [chars fmap list_fmap app].
  - rewrite like_any. split; [|done]. intros _. by exists "", s.
  - destruct s as [|d s]; cbn [like_match].
    + split; [done|]. intros (a & b & E & Hl). by destruct a.
    + rewrite andb_true_iff, Ascii.eqb_eq, IH. split.
      * intros (Ec & a & b & -> & Hl). exists (String d a), b. split; [done|]. cbn. by rewrite Ec, Hl.
      * intros ([|d' a] & b & E & Hl); [done|]. injection E as <- ->. injection Hl as E Hl.
        split; [done|]. by exists a, b.
Qed.

(** ** One dictionary for all the adapters of a file *)

(** An operation of the adapter with a prefix, or a turn of a janitor. *)
Inductive shared_op : Type :=
| Cached (prefix : string) (op : cache_op)
| Swept (chose : list string).

Definition no_result {A} (r : outcome exn A * cache_tables) (f : A -> cache_result) :
    outcome exn cache_result * cache_tables :=
  (match r.1 with Return a => Return (f a) | Raise e => Raise e end, r.2).

Definition sqv_do (o : shared_op) (now : Q) (t : cache_tables) : outcome exn cache_result * cache_tables :=
  match o with
  | Cached p (CGet key) => no_result (call_at now (sqv_get p key) t) CValue
  | Cached p (CSet key value ttl tags) =>
      no_result (call_at now (sqv_set p key value ttl tags now) t) (fun _ => CNone)
  | Cached p (CGetMany keys) => no_result (call_or now ∅ (sqv_get_many p keys) t) CFound
  | Cached p (CSetMany items ttl tags) =>
      no_result (call_or now tt (sqv_set_many p items ttl tags now) t) (fun _ => CNone)
  | Cached p (CDelete key) => no_result (call_at now (sqv_delete p key) t) (fun _ => CNone)
  | Cached p (CDeleteMany keys) =>
      no_result (call_or now tt (sqv_delete_many p keys) t) (fun _ => CNone)
  | Cached p (CDeleteTags tags) =>
      no_result (call_or now tt (sqv_delete_tags tags) t) (fun _ => CNone)
  | Cached p CClear => no_result (call_at now (sqv_clear p) t) (fun _ => CNone)
  | Swept chose => no_result (call_at now (sqv_janitor chose) t) (fun _ => CNone)
  end.

(** The key is in the namespace that [clear] removes. *)
Definition in_namespace (p key : string) : Prop := exists a b, key = a +:+ b /\ lower a = lower p.

#[global] Instance in_namespace_dec p key : Decision (in_namespace p key).
Proof.
  refine (cast_if (decide (sql_like key (escape_like p +:+ "%") = true)));
    [by apply like_escaped_prefix|]; unfold in_namespace; by rewrite <- like_escaped_prefix.
Defined.

Definition shared_do (o : shared_op) (now : Q) (m : entries) : cache_result * entries :=
  match o with
  | Cached p (CGet key) => (CValue (seen_value now (m !! prefixed p key)), m)
  | Cached p (CSet key value ttl tags) => (CNone, spec_put (prefixed p key) value (now + ttl) tags m)
  | Cached p (CGetMany keys) => (CFound (found_entries p keys now m), m)
  | Cached p (CSetMany items ttl tags) =>
      (CNone, fold_left (fun m item => spec_put (prefixed p item.1) item.2 (now + ttl) tags m) items m)
  | Cached p (CDelete key) => (CNone, filter (fun e => e.1 ∉ [prefixed p key]) m)
  | Cached p (CDeleteMany keys) => (CNone, filter (fun e => e.1 ∉ prefixed p <$> keys) m)
  | Cached p (CDeleteTags tags) => (CNone, spec_delete_tags tags m)
  | Cached p CClear => (CNone, filter (fun e => ~ in_namespace p e.1) m)
  | Swept chose =>
      (CNone, filter (fun e => ~ (e.1 ∈ take _JANITOR_LIMIT chose /\
                                  (e_expiry e.2 <? now - 3600)%py = true)) m)
  end.

Lemma delete_where_filter P (Q : string * entry -> Prop) `{!forall x, Decision (Q x)} t :
  (forall key value expires_at, ct_rows t !! key = Some (value, expires_at) ->
     (P key (value, expires_at) = false <-> Q (key, mkEntry value expires_at (tags_of key t)))) ->
  table_entries (delete_where P t) = filter Q (table_entries t).
Proof.
  intros Hiff. apply map_eq. intros k. rewrite table_entries_lookup, delete_where_entry, map_lookup_filter.
  rewrite table_entries_lookup. unfold deleted, stored_entry.
  destruct (ct_rows t !! k) as [[v e]|] eqn:E; [|done]. cbn.
  specialize (Hiff k v e E). destruct (P k (v, e)).
  - rewrite option_guard_False; [done|]. intros HQ. by apply Hiff in HQ.
  - rewrite option_guard_True by tauto. done.
Qed.

Lemma delete_keys_filter keys t :
  table_entries (delete_keys keys t) = filter (fun e => e.1 ∉ keys) (table_entries t).
Proof.
  apply delete_where_filter. intros k v e _. cbn. by rewrite bool_decide_eq_false.
Qed.

Lemma delete_tags_filter tags now t :
  exists t', eval_at now (delete_each_tag tags) t = (Return tt, t') /\
    table_entries t' = spec_delete_tags tags (table_entries t).
Proof.
  destruct (delete_each_tag_eval tags now t) as (t' & E & H). exists t'. split; [done|].
  apply map_eq. intros k. unfold spec_delete_tags.
  rewrite table_entries_lookup, H, map_lookup_filter, table_entries_lookup.
  destruct (stored_entry t k) as [e|]; [|done]. cbn. case_decide.
  - by rewrite option_guard_True.
  - by rewrite option_guard_False.
Qed.

Lemma sqv_do_spec o now t :
  (sqv_do o now t).1 = Return (shared_do o now (table_entries t)).1 /\
  table_entries (sqv_do o now t).2 = (shared_do o now (table_entries t)).2.
Proof.
  destruct o as [p [key|key value ttl tags|keys|items ttl tags|key|keys|tags|]|chose];
    cbn [sqv_do shared_do]; unfold no_result, call_or.
  - unfold call_at, sqv_get. rewrite statements_served. cbn.
    by rewrite select_value_seen, table_entries_lookup.
  - unfold sqv_set. erewrite transaction_at by apply store_one_eval. cbn. by rewrite store_row_entries.
  - destruct keys as [|key keys]; [done|]. cbn [sqv_get_many]. unfold call_at.
    rewrite statements_served. rewrite (get_many_eval p (key :: keys)). done.
  - destruct items as [|item items]; [done|]. cbn [sqv_set_many].
    destruct (store_all_eval p (item :: items) (now + ttl) tags now t) as (t' & E & H).
    by erewrite transaction_at by exact E.
  - unfold sqv_delete. rewrite execute_at. cbn. by rewrite delete_keys_filter.
  - destruct keys as [|key keys].
    { cbn. split; [done|]. symmetry. apply map_filter_id. intros k e _. cbn. apply not_elem_of_nil. }
    cbn [sqv_delete_many]. rewrite execute_at. cbn [fst snd]. by rewrite delete_keys_filter.
  - destruct tags as [|tag tags].
    { cbn. split; [done|]. symmetry. apply map_filter_id. intros k e _. cbn. set_solver. }
    cbn [sqv_delete_tags]. destruct (delete_tags_filter (tag :: tags) now t) as (t' & E & H).
    by erewrite transaction_at by exact E.
  - unfold sqv_clear. destruct p as [|c p]; rewrite execute_at; cbn [fst snd]; (split; [done|]);
      apply delete_where_filter; intros k v e _; cbn [fst].
    + split; [done|]. intros H. exfalso. apply H. by exists "", k.
    + unfold in_namespace. rewrite <- like_escaped_prefix. by destruct (sql_like _ _).
  - unfold sqv_janitor, call_at. rewrite statements_served. cbn [eval_at stmt_run execute_ fst snd]. split; [done|].
    apply delete_where_filter. intros k v e _. cbn [fst snd e_expiry].
    rewrite andb_false_iff, bool_decide_eq_false. destruct (_ <? _)%py; naive_solver.
Qed.

(** Every tag row belongs to a value. *)
Definition tags_have_rows (t : cache_tables) : Prop :=
  forall key tag, (key, tag) ∈ ct_tags t -> is_Some (ct_rows t !! key).

Lemma store_row_tags key value expires_at tags t :
  tags_have_rows t -> tags_have_rows (store_row key value expires_at tags t).
Proof.
  intros Ht k tag [Hin|[Hne Hin]%elem_of_filter]%elem_of_union; cbn in *.
  - apply elem_of_list_to_set, list_elem_of_fmap in Hin as (tg & [= -> ->] & _).
    rewrite lookup_insert_eq. by eexists.
  - rewrite lookup_insert_ne by done. by apply (Ht k tag).
Qed.

Lemma store_all_tags p items expires_at tags now t :
  tags_have_rows t -> tags_have_rows (eval_at now (store_all p items expires_at tags) t).2.
Proof.
  revert t. induction items as [|[key value] items IH]; intros t Ht; [done|]. cbn [store_all].
  unfold mbind, body_mbind. rewrite eval_at_bind, store_one_eval. by apply IH, store_row_tags.
Qed.

Lemma delete_where_tags P t : tags_have_rows t -> tags_have_rows (delete_where P t).
Proof.
  intros Ht key tag [Hk Hin]%elem_of_filter. cbn in *. destruct (Ht key tag Hin) as [row E].
  exists row. apply map_lookup_filter_Some_2; [done|]. cbn. unfold deleted in Hk. by rewrite E in Hk.
Qed.

Lemma delete_tags_tags tags now t :
  tags_have_rows t -> tags_have_rows (eval_at now (delete_each_tag tags) t).2.
Proof.
  revert t. induction tags as [|tag tags IH]; intros t Ht; [done|]. cbn [delete_each_tag].
  unfold mbind, body_mbind. rewrite eval_at_bind. cbn. by apply IH, delete_where_tags.
Qed.

Lemma call_at_tags {A} now (call : sql_call cache_tables A) t :
  tags_have_rows t ->
  (forall b, call = Transaction b \/ call = Statements b -> tags_have_rows (eval_at now b t).2) ->
  tags_have_rows (call_at now call t).2.
Proof.
  intros Ht H. unfold call_at. destruct call as [b|b].
  - rewrite transaction_served. unfold keep_if_returned. cbn. specialize (H b (or_introl eq_refl)).
    by destruct (eval_at now b t).1.
  - rewrite statements_served. cbn. apply H. by right.
Qed.

Lemma sqv_do_tags o now t : tags_have_rows t -> tags_have_rows (sqv_do o now t).2.
Proof.
  intros Ht. destruct o as [p [key|key value ttl tags|[|key keys]|[|item items] ttl tags|key|[|key keys]|[|tag tags]|]|chose];
    cbn [sqv_do no_result call_or snd sqv_get_many sqv_set_many sqv_delete_many sqv_delete_tags]; try done;
    apply call_at_tags; try done; intros b [[= <-]|[= <-]]; try done.
  - rewrite store_one_eval. by apply store_row_tags.
  - exact (store_all_tags p (item :: items) (now + ttl) tags now t Ht).
  - by apply delete_where_tags.
  - by apply delete_where_tags.
  - exact (delete_tags_tags (tag :: tags) now t Ht).
  - by destruct p; apply delete_where_tags.
  - by apply delete_where_tags.
Qed.

(** A history of the file: each adapter's operations, alone, at their instants. *)
Fixpoint shared_run {S R} (step : shared_op -> Q -> S -> R * S) (ops : list (shared_op * Q)) (s : S) :
    list R * S :=
  match ops with
  | [] => ([], s)
  | (o, now) :: ops =>
      let '(r, s) := step o now s in
      let '(rs, s) := shared_run step ops s in (r :: rs, s)
  end.

(** C30 The adapters of a SQLite cache file, whatever their prefixes, work on one
    dictionary: over any sequence of their operations and of janitor turns each
    call returns what that dictionary answers under the prefixed keys; a
    deletion by tags reaches the entries of every prefix, and a clear the keys
    that begin with its prefix in any case of the letters; and no tag outlives
    the entry it was put on. *)
Theorem sqlite_cache_is_one_dictionary ops t :
  tags_have_rows t ->
  let '(rs, t') := shared_run sqv_do ops t in
  let '(rs', m') := shared_run shared_do ops (table_entries t) in
  rs = Return <$> rs' /\ table_entries t' = m' /\ tags_have_rows t'.
Proof.
  revert t. induction ops as [|[o now] ops IH]; intros t Ht; [done|]. cbn [shared_run].
  destruct (sqv_do_spec o now t) as [H1 H2]. pose proof (sqv_do_tags o now t Ht) as H3.
  destruct (sqv_do o now t) as [r t1], (shared_do o now (table_entries t)) as [r' m1]. cbn in *. subst.
  specialize (IH t1 H3).
  destruct (shared_run sqv_do ops t1) as [rs t2], (shared_run shared_do ops (table_entries t1)) as [rs' m2].
  by destruct IH as (-> & -> & ?).
Qed.

(** Two applications on one file. *)
Definition two_namespaces : list (shared_op * Q) :=
  [(Cached "app:" (CSet "k" byte_a 60 ["users"]), 0%Q); (Cached "App:" (CSet "k" byte_b 60 ["users"]), 1%Q);
   (Cached "app:" (CGet "k"), 2%Q); (Cached "App:" CClear, 3%Q); (Cached "app:" (CGet "k"), 4%Q);
   (Cached "app:" (CSet "k" byte_a 60 ["users"]), 5%Q); (Cached "web:" (CDeleteTags ["users"]), 6%Q);
   (Cached "app:" (CGetMany ["k"; "l"]), 7%Q); (Swept [], 9%Q)].

Lemma sqlite_cache_is_one_dictionary_witness :
  (shared_run sqv_do two_namespaces empty_tables).1 =
  Return <$> [CNone; CNone; CValue (Some byte_a); CNone; CValue None; CNone; CNone; CFound ∅; CNone].
Proof.
  assert (tags_have_rows empty_tables) as Ht by (intros key tag Hin; cbn in Hin; set_solver).
  pose proof (sqlite_cache_is_one_dictionary two_namespaces empty_tables Ht) as H.
  assert ((shared_run shared_do two_namespaces (table_entries empty_tables)).1 =
    [CNone; CNone; CValue (Some byte_a); CNone; CValue None; CNone; CNone; CFound ∅; CNone]) as E
    by (vm_compute; reflexivity).
  destruct (shared_run sqv_do two_namespaces empty_tables) as [rs t].
  destruct (shared_run shared_do two_namespaces (table_entries empty_tables)) as [rs' m].
  cbn [fst] in *. destruct H as [H _]. by rewrite H, E.
Defined.

(** ** The interface of the cache

    An adapter over the tables, whose connection answers, is the store that
    [TTLCache], and with it the stampede guard and the idempotency keys, are proved
    against.  [do] is what its operations do. *)
Section Store.
Context (do : shared_op -> Q -> cache_tables -> outcome exn cache_result * cache_tables) (p : string).
Implicit Types b : cache_tables.

Hypothesis do_answers : forall op now b,
  (do (Cached p op) now b).1 = Return (shared_do (Cached p op) now (table_entries b)).1.
Hypothesis do_leaves : forall op now b, op <> CClear ->
  table_entries (do (Cached p op) now b).2 = (shared_do (Cached p op) now (table_entries b)).2.
Hypothesis do_clears : forall now b key,
  table_entries (do (Cached p CClear) now b).2 !! prefixed p key = None.

Definition table_entry (b : cache_tables) (key : string) : option entry :=
  table_entries b !! prefixed p key.

(** What an operation returns and leaves. *)
Definition adapter_do {A} (op : cache_op) (now : Q) (f : cache_result -> A) (b : cache_tables) :
    outcome exn A * cache_tables :=
  let '(r, b) := do (Cached p op) now b in
  (match r with Return a => Return (f a) | Raise e => Raise e end, b).

Lemma adapter_do_spec {A} op now (f : cache_result -> A) b :
  (adapter_do op now f b).1 = Return (f (shared_do (Cached p op) now (table_entries b)).1) /\
  (op <> CClear -> forall key, table_entry (adapter_do op now f b).2 key =
    (shared_do (Cached p op) now (table_entries b)).2 !! prefixed p key).
Proof.
  unfold adapter_do, table_entry. pose proof (do_answers op now b) as H1. pose proof (do_leaves op now b) as H2.
  destruct (do (Cached p op) now b) as [r b']. cbn [fst snd] in *. subst r. split; [done|].
  intros Hop key. by rewrite <- H2.
Qed.

#[local] Obligation Tactic := idtac.

Program Definition table_cache : CacheBackend cache_tables := {|
  cb_entry := table_entry;
  cb_get key now b := adapter_do (CGet key) now value_of b;
  cb_get_many keys now b := adapter_do (CGetMany keys) now found_of b;
  cb_set key value ttl tags now b := adapter_do (CSet key value ttl tags) now (fun _ => tt) b;
  cb_set_many items ttl tags now b := adapter_do (CSetMany items ttl tags) now (fun _ => tt) b;
  cb_delete_many keys b := adapter_do (CDeleteMany keys) 0 (fun _ => tt) b;
  cb_delete_tags tags b := adapter_do (CDeleteTags tags) 0 (fun _ => tt) b;
  cb_clear b := adapter_do CClear 0 (fun _ => tt) b;
|}.
Next Obligation.
  intros key now b. destruct (adapter_do_spec (CGet key) now value_of b) as [H1 H2]. specialize (H2 ltac:(done)).
  destruct (adapter_do (CGet key) now value_of b) as [r b']. cbn in *. subst r.
  split; [intros t k _; by rewrite H2|]. by intros v [= <-].
Qed.
Next Obligation.
  intros keys now b. destruct (adapter_do_spec (CGetMany keys) now found_of b) as [H1 H2]. specialize (H2 ltac:(done)).
  destruct (adapter_do (CGetMany keys) now found_of b) as [r b']. cbn in *. subst r.
  split; [intros t k _; by rewrite H2|]. intros m [= <-] k Hk.
  by rewrite found_entries_lookup, decide_True.
Qed.
Next Obligation.
  intros key value ttl tags now b.
  destruct (adapter_do_spec (CSet key value ttl tags) now (fun _ => tt) b) as [H1 H2]. specialize (H2 ltac:(done)).
  destruct (adapter_do (CSet key value ttl tags) now (fun _ => tt) b) as [r b']. cbn in *. subst r.
  unfold spec_put in H2. split.
  - intros k Hne. rewrite H2, lookup_insert_ne; [done|]. by intros ->%(inj (prefixed p)).
  - intros _. by rewrite H2, lookup_insert_eq.
Qed.
Next Obligation.
  intros items ttl tags now b.
  destruct (adapter_do_spec (CSetMany items ttl tags) now (fun _ => tt) b) as [H1 H2]. specialize (H2 ltac:(done)).
  destruct (adapter_do (CSetMany items ttl tags) now (fun _ => tt) b) as [r b']. cbn in *. subst r.
  pose proof (spec_put_many_lookup (prod_map (prefixed p) id <$> items) (now + ttl) tags (table_entries b)) as [S1 S2].
  assert (forall (l : list (string * bytes)) (m : entries),
    fold_left (fun m item => spec_put item.1 item.2 (now + ttl) tags m) (prod_map (prefixed p) id <$> l) m =
    fold_left (fun m item => spec_put (prefixed p item.1) item.2 (now + ttl) tags m) l m) as Hf.
  { induction l as [|[k v] l IH]; intros m; [done|]. apply IH. }
  rewrite Hf in S1, S2.
  assert ((prod_map (prefixed p) id <$> items).*1 = prefixed p <$> items.*1) as Ek
    by (rewrite <- !list_fmap_compose; done).
  rewrite Ek in S1, S2. split.
  - intros k Hk. rewrite H2, S1; [done|]. intros (x & ->%(inj (prefixed p)) & ?)%list_elem_of_fmap. done.
  - intros _ Hnd k v Hin. rewrite H2. apply S2; [by apply (NoDup_fmap_2 (prefixed p))|].
    apply list_elem_of_fmap. by exists (k, v).
Qed.
Next Obligation.
  intros keys b. destruct (adapter_do_spec (CDeleteMany keys) 0 (fun _ => tt) b) as [H1 H2]. specialize (H2 ltac:(done)).
  destruct (adapter_do (CDeleteMany keys) 0 (fun _ => tt) b) as [r b']. cbn in *. subst r.
  assert (forall k, prefixed p k ∈ prefixed p <$> keys <-> k ∈ keys) as Hiff.
  { intros k. rewrite list_elem_of_fmap. split; [|by exists k]. intros (x & ?%(inj (prefixed p)) & ?). by subst. }
  split; intros *; [intros Hk|intros _ k Hk]; rewrite H2, map_lookup_filter; unfold table_entry.
  - destruct (table_entries b !! prefixed p k); [|done]. cbn. rewrite option_guard_True; [done|]. by rewrite Hiff.
  - destruct (table_entries b !! prefixed p k); [|done]. cbn. rewrite option_guard_False; [done|].
    rewrite Hiff. tauto.
Qed.
Next Obligation.
  intros tags b. destruct (adapter_do_spec (CDeleteTags tags) 0 (fun _ => tt) b) as [H1 H2]. specialize (H2 ltac:(done)).
  destruct (adapter_do (CDeleteTags tags) 0 (fun _ => tt) b) as [r b']. cbn in *. intros _ k.
  rewrite H2. unfold spec_delete_tags, table_entry. rewrite map_lookup_filter.
  destruct (table_entries b !! prefixed p k); [|done]. cbn. case_decide.
  - by rewrite option_guard_True.
  - by rewrite option_guard_False.
Qed.
Next Obligation.
  intros b. unfold adapter_do. pose proof (do_clears 0 b) as H. unfold table_entry.
  destruct (do (Cached p CClear) 0 b) as [r b']. by intros _ k.
Qed.

Lemma table_cache_reliable : ReliableCache (H := table_cache) cache_tables.
Proof.
  split.
  - intros key now b. eexists. exact (proj1 (adapter_do_spec (CGet key) now value_of b)).
  - intros key value ttl tags now b. exact (proj1 (adapter_do_spec (CSet key value ttl tags) now (fun _ => tt) b)).
  - intros keys b. exact (proj1 (adapter_do_spec (CDeleteMany keys) 0 (fun _ => tt) b)).
Qed.
End Store.

(** The adapter of a SQLite file *)
Section SqliteStore.
Context (p : string).

Definition sqlite_store : Type := cache_tables.

Lemma sqlite_clears now (b : cache_tables) key : table_entries (sqv_do (Cached p CClear) now b).2 !! prefixed p key = None.
Proof.
  rewrite (proj2 (sqv_do_spec (Cached p CClear) now b)). cbn [shared_do snd]. rewrite map_lookup_filter.
  destruct (table_entries b !! prefixed p key); [|done]. cbn. rewrite option_guard_False; [done|].
  intros H. apply H. by exists p, key.
Qed.

#[export] Instance sqlite_cache : CacheBackend sqlite_store :=
  table_cache sqv_do p (fun op now b => proj1 (sqv_do_spec (Cached p op) now b))
    (fun op now b _ => proj2 (sqv_do_spec (Cached p op) now b)) sqlite_clears.

#[export] Instance sqlite_cache_reliable : ReliableCache sqlite_store.
Proof. apply table_cache_reliable. Qed.
End SqliteStore.
