(* ===== verification/Cached.v ===== *)
(** * Cached functions

    [grelmicro/cache/cached.py]: what [cached] accepts, the wrapper of a function
    (async, and sync on the loop of the cache), its [refresh], the early refresh,
    and the stream of an async generator with its buffered twin.

    One caller is followed that nobody interrupts; concurrent callers of a key
    are in [Stampede].  The key and the tags are what the key maker and the
    templates make of the arguments.  Not modelled: the lock across replicas,
    the task of an early refresh, which is a [refresh] started later, metrics. *)

From S2P Require Import Prelude Errors CacheMemory TTLCache.

Local Open Scope Z_scope.

(** ** What [cached] accepts *)

Inductive lock_choice : Type := LockTrue | LockFalse | LockLocal | LockOther.

Inductive function_kind : Type := SyncFunction | AsyncFunction | SyncGenerator | AsyncGenerator.

#[export] Instance function_kind_eq_dec : EqDecision function_kind.
Proof. solve_decision. Defined.

Record decoration : Type := mkDecoration {
  dc_has_cache : bool;
  dc_ttl : option Q;
  dc_maxsize : Z;
  dc_has_key : bool;
  dc_has_key_maker : bool;
  dc_lock : lock_choice;
  dc_early : option Q;
  dc_stale_ttl : option Q;
}.

Definition option_type_error : exn := mk_exn TypeError NoInfo.
Definition option_value_error : exn := mk_exn ValueError NoInfo.

(** [_resolve_cache]: whether the cache is private.  The [ValidationError] of its
    configuration is a [ValueError]. *)
Definition resolve_cache (d : decoration) : outcome exn bool :=
  match dc_has_cache d, dc_ttl d with
  | true, Some _ => Raise option_type_error
  | true, None => Return false
  | false, None => Raise option_type_error
  | false, Some ttl =>
      if cache_config_valid (dc_maxsize d) ttl then Return true else Raise option_value_error
  end.

Definition early_ok (early : option Q) : bool :=
  match early with Some e => (0 <=? e)%py && (e <? 1)%py | None => true end.

(** [cached], called with its options; [true] for a private cache. *)
Definition cached_options (d : decoration) : outcome exn bool :=
  if dc_has_key d && dc_has_key_maker d then Raise option_type_error
  else
    match resolve_cache d with
    | Raise e => Raise e
    | Return private =>
        match dc_lock d with
        | LockOther => Raise option_value_error
        | _ =>
            if negb (early_ok (dc_early d)) then Raise option_value_error
            else if negb (positive (dc_stale_ttl d)) then Raise option_value_error
            else Return private
        end
    end.

(** [decorator], given a function. *)
Definition decorate (d : decoration) (kind : function_kind) (takes_self : bool) : outcome exn function_kind :=
  match cached_options d with
  | Raise e => Raise e
  | Return private =>
      match kind with
      | SyncGenerator => Raise option_type_error
      | _ =>
          if negb (dc_has_key d) && negb (dc_has_key_maker d) && takes_self then Raise option_type_error
          else if private && bool_decide (kind = SyncFunction) then Raise option_type_error
          else Return kind
      end
  end.

(** ** Calls *)

Section Calls.
Context {V B : Type} {CB : CacheBackend B}.
Context (serializer : option (CacheSerializer V)) (as_bytes : V -> option bytes) (of_bytes : bytes -> V).
(** The sidecar of the early refresh: [json.dumps] and [json.loads], and the die
    rolled for a computation that took [delta]. *)
Context (dump_meta : Q -> Q -> bytes) (load_meta : bytes -> option (Q * Q)) (threshold : Q -> Q).
Abbreviation cache_py := (py (TTLCache * B) exn).

(** The options a wrapper keeps. *)
Record wrapper : Type := mkWrapper {
  wr_per_key : bool;
  wr_skip : V -> bool;
  wr_early : option Q;
  wr_stale_ttl : option Q;
}.

(** One call: its key and tags, the clock where it is read, how long the function
    took, and whether the lock of the key is taken. *)
Record moment : Type := mkMoment {
  m_key : string;
  m_tags : list string;
  m_get : Q; m_meta : Q; m_due : Q; m_peek : Q;
  m_set : Q; m_reserve : Q; m_write : Q; m_stale : Q;
  m_written : Q; m_delta : Q;
  m_busy : bool;
}.

(** [_maybe_refresh_async], up to the start of the task. *)
Definition maybe_refresh (w : wrapper) (m : moment) : cache_py bool :=
  match wr_early w with
  | None => mret false
  | Some early =>
      raw ← call_store (cb_get (xfetch_key (m_key m)) (m_meta m));
      ttl ← read_cache tc_ttl;
      mret (due_for_early_refresh (raw ≫= load_meta) ttl early threshold (m_due m) && negb (m_busy m))
  end.

(** [_compute_and_cache] *)
Definition store_result (w : wrapper) (m : moment) (result : outcome exn V) : cache_py V :=
  compute_and_cache serializer as_bytes (m_key m) result (wr_skip w) (wr_early w) (m_tags m)
    (wr_stale_ttl w) dump_meta (m_written m) (m_delta m) (m_set m) (m_reserve m) (m_write m).

(** [compute_with_stampede] *)
Definition guarded {A} (w : wrapper) (m : moment) (found : V -> A) (compute : cache_py A) : cache_py A :=
  if wr_per_key w then
    r ← ttl_peek serializer of_bytes (m_key m) (m_peek m);
    match r with Some v => mret (found v) | None => compute end
  else compute.

(** [async_wrapper]: the result, and whether an early refresh was started. *)
Definition cached_call (w : wrapper) (m : moment) (result : outcome exn V) : cache_py (V * bool) :=
  r ← ttl_get serializer of_bytes (m_key m) (m_get m);
  match r with
  | Some v => due ← maybe_refresh w m; mret (v, due)
  | None =>
      v ← (let miss := guarded w m (fun v => v) (store_result w m result) in
           match wr_stale_ttl w with
           | None => miss
           | Some _ => py_try miss is_exception (serve_stale serializer of_bytes (m_key m) (m_stale m))
           end);
      mret (v, false)
  end.

(** [async_refresh], inside the locks or without. *)
Definition cached_refresh (w : wrapper) (m : moment) (result : outcome exn V) : cache_py V :=
  store_result w m result.

(** [sync_wrapper] and [sync_refresh]: the same on the loop of the cache, where
    the backend has one. *)
Definition sync_cached_call (loop : bool) (w : wrapper) (m : moment) (result : outcome exn V) :
    cache_py (V * bool) :=
  if loop then cached_call w m result else py_raise (mk_exn RuntimeError NoInfo).
Definition sync_cached_refresh (loop : bool) (w : wrapper) (m : moment) (result : outcome exn V) :
    cache_py V :=
  if loop then cached_refresh w m result else py_raise (mk_exn RuntimeError NoInfo).
End Calls.
Arguments wrapper V : clear implicits.

(** ** Streams *)

Section Streams.
Context {T B : Type} {CB : CacheBackend B}.
Abbreviation V := (list T).
Context (serializer : option (CacheSerializer V)) (as_bytes : V -> option bytes) (of_bytes : bytes -> V).
Context (dump_meta : Q -> Q -> bytes) (load_meta : bytes -> option (Q * Q)) (threshold : Q -> Q).
Abbreviation cache_py := (py (TTLCache * B) exn).

(** An async generator. *)
Inductive producer : Type :=
| PEnd
| PFails (e : exn)
| PYields (v : T) (next : producer).

Fixpoint items_of (l : list T) : producer :=
  match l with [] => PEnd | v :: l => PYields v (items_of l) end.

(** How a stream ended for its reader, who closes it after [limit] items. *)
Inductive stream_end : Type := Exhausted | Closed | Failed (e : exn).

Definition limit_reached (limit : option nat) : bool := match limit with Some O => true | _ => false end.

(** Reading a generator: the items that come, and the end. *)
Fixpoint drain (limit : option nat) (p : producer) : list T * stream_end :=
  if limit_reached limit then ([], Closed)
  else
    match p with
    | PEnd => ([], Exhausted)
    | PFails e => ([], Failed e)
    | PYields v p => let '(l, e) := drain (Nat.pred <$> limit) p in (v :: l, e)
    end.

(** Replaying a stored list. *)
Definition replay_items (limit : option nat) (l : list T) : list T * stream_end := drain limit (items_of l).

(** A stream over the cache, with what its reader got and how it ended. *)
Definition stream_py : Type := TTLCache * B -> (list T * stream_end) * (TTLCache * B).

(** [_stream_and_store]: nothing is stored until the producer is exhausted. *)
Definition stream_and_store (w : wrapper V) (m : moment) (p : producer) (limit : option nat) : stream_py :=
  fun s =>
  match drain limit p with
  | (items, Exhausted) =>
      match store_result serializer as_bytes dump_meta w m (Return items) s with
      | (Return _, s) => ((items, Exhausted), s)
      | (Raise e, s) => ((items, Failed e), s)
      end
  | (items, e) => ((items, e), s)
  end.

(** [stream_with_stampede] *)
Definition guarded_stream (w : wrapper V) (m : moment) (p : producer) (limit : option nat) : stream_py :=
  fun s =>
  if wr_per_key w then
    match ttl_peek serializer of_bytes (m_key m) (m_peek m) s with
    | (Raise e, s) => (([], Failed e), s)
    | (Return (Some l), s) => (replay_items limit l, s)
    | (Return None, s) => stream_and_store w m p limit s
    end
  else stream_and_store w m p limit s.

(** [_stream_stale_on_error] *)
Definition stream_stale_on_error (m : moment) (limit : option nat) (stream : stream_py) : stream_py :=
  fun s =>
  match stream s with
  | (([], Failed e), s) =>
      if is_exception e then
        match read_stale serializer of_bytes (m_key m) (m_stale m) s with
        | (Return (Some l), s) => (replay_items limit l, s)
        | (Return None, s) => (([], Failed e), s)
        | (Raise e', s) => (([], Failed e'), s)
        end
      else (([], Failed e), s)
  | r => r
  end.

(** [stream_wrapper]; a stream closed before its first item never runs. *)
Definition stream_call (w : wrapper V) (m : moment) (p : producer) (limit : option nat) : stream_py :=
  fun s =>
  if limit_reached limit then (([], Closed), s)
  else
    match ttl_get serializer of_bytes (m_key m) (m_get m) s with
    | (Raise e, s) => (([], Failed e), s)
    | (Return (Some l), s) =>
        match maybe_refresh load_meta threshold w m s with
        | (Raise e, s) => (([], Failed e), s)
        | (Return _, s) => (replay_items limit l, s)
        end
    | (Return None, s) =>
        let stream := guarded_stream w m p limit in
        match wr_stale_ttl w with
        | None => stream s
        | Some _ => stream_stale_on_error m limit stream s
        end
    end.

(** [collector]: the producer drained into a list, for [collect] and [refresh]. *)
Definition collected (p : producer) : outcome exn V :=
  match drain None p with
  | (items, Failed e) => Raise e
  | (items, _) => Return items
  end.

Definition collect_call (w : wrapper V) (m : moment) (p : producer) : cache_py (V * bool) :=
  cached_call serializer as_bytes of_bytes dump_meta load_meta threshold w m (collected p).

Definition stream_refresh (w : wrapper V) (m : moment) (p : producer) : cache_py V :=
  cached_refresh serializer as_bytes dump_meta w m (collected p).
End Streams.

(** ** The two ways to compute on a miss *)

Section Same.
Context {V B : Type} {CB : CacheBackend B}.
Context (serializer : option (CacheSerializer V)) (as_bytes : V -> option bytes) (of_bytes : bytes -> V).
Context (dump_meta : Q -> Q -> bytes) (load_meta : bytes -> option (Q * Q)) (threshold : Q -> Q).
Abbreviation cache_py := (py (TTLCache * B) exn).

(** The wrapper of [cached] without early refresh and without [skip]. *)
Definition plain_wrapper (stale_ttl : option Q) : wrapper V := mkWrapper true (fun _ => false) None stale_ttl.

Lemma store_is_compute stale_ttl m result s :
  store_result serializer as_bytes dump_meta (plain_wrapper stale_ttl) m result s =
  compute serializer as_bytes (m_key m) result None (m_tags m) stale_ttl (m_set m) (m_reserve m) s.
Proof.
  unfold store_result, compute_and_cache, compute, plain_wrapper. cbn [wr_skip wr_early wr_stale_ttl].
  cbv [mbind py_mbind py_bind lift mret py_mret py_ret]. destruct result as [v|e]; [|done].
  by destruct (ttl_set _ _ _ _ _ _ _ _ _ s) as [[[]|e] s1].
Qed.

(** A function decorated without early refresh and [skip] is [get_or_set] of its
    result: for every store, key and outcome of the function, the same result
    or error comes back and the same state is left. *)
Lemma cached_is_get_or_set stale_ttl m result s :
  cached_call serializer as_bytes of_bytes dump_meta load_meta threshold (plain_wrapper stale_ttl) m result s =
  (v ← get_or_set serializer as_bytes of_bytes (m_key m) result None (m_tags m) stale_ttl
         (m_get m) (m_peek m) (m_set m) (m_reserve m) (m_stale m); mret (v, false)) s.
Proof.
  unfold cached_call, get_or_set, maybe_refresh, guarded. cbn [plain_wrapper wr_early wr_per_key wr_stale_ttl].
  cbv [mbind py_mbind py_bind mret py_mret py_ret].
  destruct (ttl_get _ _ _ _ s) as [[[v|]|e] s1]; try done.
  destruct stale_ttl as [extra|]; cbv [py_try];
    destruct (ttl_peek _ _ _ _ s1) as [[[v|]|e] s2]; rewrite ?store_is_compute; try done.
  all: repeat case_match; simplify_eq; done.
Qed.
End Same.

(** ** Streams *)

Section Sequences.
Context {T B : Type} {CB : CacheBackend B}.
Abbreviation V := (list T).
Context (serializer : option (CacheSerializer V)) (as_bytes : V -> option bytes) (of_bytes : bytes -> V).
Context (dump_meta : Q -> Q -> bytes) (load_meta : bytes -> option (Q * Q)) (threshold : Q -> Q).
Abbreviation stream := (stream_call serializer as_bytes of_bytes dump_meta load_meta threshold).
Abbreviation collect_of := (collect_call serializer as_bytes of_bytes dump_meta load_meta threshold).

Lemma drain_items limit l :
  drain limit (items_of (T := T) l) =
  match limit with
  | None => (l, Exhausted)
  | Some n => (take n l, if (n <=? length l)%nat then Closed else Exhausted)
  end.
Proof.
  revert limit. induction l as [|v l IH]; intros [[|n]|]; cbn; try done; rewrite IH; [|done].
  done.
Qed.

(** A reader that does not stop is never the one that closes. *)
Lemma drain_all (p : producer (T := T)) : (drain None p).2 <> Closed.
Proof.
  induction p as [|e|v p IH]; cbn; try done. by destruct (drain None p).
Qed.

(** What nothing but looks leaves. *)
Definition only_looked (t : Q) (s s' : TTLCache * B) : Prop :=
  forall u k, (t <= u)%Q -> seen u (cb_entry s'.2 k) = seen u (cb_entry s.2 k).

Lemma only_looked_refl t s : only_looked t s s.
Proof. done. Qed.
Lemma only_looked_trans t s s1 s2 : only_looked t s s1 -> only_looked t s1 s2 -> only_looked t s s2.
Proof. intros H1 H2 u k Hu. by rewrite H2, H1. Qed.

Lemma call_get_looked full now t s r s' :
  (now <= t)%Q -> call_store (cb_get full now) s = (r, s') -> only_looked t s s'.
Proof.
  unfold call_store. pose proof (cb_get_law full now s.2) as H.
  destruct (cb_get full now s.2) as [x b]. destruct H as [H _].
  intros Ht [= _ <-] u k Hu. apply H. lra.
Qed.

Lemma get_looked key now t s r s' :
  (now <= t)%Q -> ttl_get serializer of_bytes key now s = (r, s') -> only_looked t s s'.
Proof.
  intros Ht. unfold ttl_get. cbv [mbind py_mbind py_bind mret py_mret py_ret update py_modify lift].
  destruct (call_store _ s) as [[raw|e] s1] eqn:E; [|by intros [= _ <-]; eapply call_get_looked].
  apply (call_get_looked _ _ t) in E; [|done].
  destruct raw as [raw|]; [destruct (deserialize _ _ raw)|]; intros [= _ <-]; exact E.
Qed.

Lemma read_looked full now t s r s' :
  (now <= t)%Q -> read_at serializer of_bytes full now s = (r, s') -> only_looked t s s'.
Proof.
  intros Ht. unfold read_at. cbv [mbind py_mbind py_bind mret py_mret py_ret lift].
  destruct (call_store _ s) as [[raw|e] s1] eqn:E; [|by intros [= _ <-]; eapply call_get_looked].
  apply (call_get_looked _ _ t) in E; [|done].
  destruct raw as [raw|]; [destruct (deserialize _ _ raw)|]; intros [= _ <-]; exact E.
Qed.

Lemma refresh_looked w m t s r s' :
  (m_meta m <= t)%Q -> maybe_refresh (V := V) load_meta threshold w m s = (r, s') -> only_looked t s s'.
Proof.
  intros Ht. unfold maybe_refresh. destruct (wr_early w); [|by intros [= _ <-]].
  cbv [mbind py_mbind py_bind mret py_mret py_ret read_cache].
  destruct (call_store _ s) as [[raw|e] s1] eqn:E; intros [= _ <-]; by eapply call_get_looked.
Qed.

(** C31 A truncated sequence is never published: unless the producer was read to
    its end, whether its reader stopped or it failed, the call only looks at the
    store, and every later look finds what it would have found. *)
Theorem truncated_is_never_stored w m p limit t s :
  (m_get m <= t)%Q -> (m_meta m <= t)%Q -> (m_peek m <= t)%Q -> (m_stale m <= t)%Q ->
  (drain limit p).2 <> Exhausted ->
  forall k, seen t (cb_entry (stream w m p limit s).2.2 k) = seen t (cb_entry s.2 k).
Proof.
  intros H1 H2 H3 H4 Hd k. enough (only_looked t s (stream w m p limit s).2) as H by (apply H; lra).
  assert (forall s, stream_and_store serializer as_bytes dump_meta w m p limit s = (drain limit p, s)) as Hss.
  { intros s'. unfold stream_and_store. destruct (drain limit p) as [l []]; done. }
  assert (forall s, only_looked t s
    (guarded_stream serializer as_bytes of_bytes dump_meta w m p limit s).2) as Hg.
  { intros s'. unfold guarded_stream. rewrite Hss. destruct (wr_per_key w); [|done].
    destruct (ttl_peek _ _ _ _ s') as [r s1] eqn:E. eapply read_looked in E; [|exact H3].
    destruct r as [[l|]|e]; [exact E|rewrite Hss; exact E|exact E]. }
  unfold stream_call. destruct (limit_reached limit); [done|].
  destruct (ttl_get _ _ _ _ s) as [r s1] eqn:E. eapply get_looked in E; [|exact H1].
  destruct r as [[l|]|e]; [| |exact E].
  - destruct (maybe_refresh _ _ _ _ s1) as [r s2] eqn:E2. eapply refresh_looked in E2; [|exact H2].
    destruct r; by eapply only_looked_trans.
  - specialize (Hg s1). destruct (wr_stale_ttl w); [|by eapply only_looked_trans].
    unfold stream_stale_on_error. destruct (guarded_stream _ _ _ _ _ _ _ _ s1) as [[l e] s2].
    cbn [snd] in Hg.
    destruct l as [|v l], e as [| |e]; try (by eapply only_looked_trans).
    destruct (is_exception e); [|by eapply only_looked_trans].
    destruct (read_stale _ _ _ _ s2) as [r s3] eqn:E3. eapply read_looked in E3; [|exact H4].
    destruct r as [[l|]|e']; (eapply only_looked_trans; [exact E|]); by eapply only_looked_trans.
Qed.

(** ** A stream read to its end *)

Context {RC : ReliableCache B}.

Lemma store_result_reliable w m l raw s :
  positive (wr_stale_ttl w) = true -> serialize serializer as_bytes l = Return raw ->
  (store_result serializer as_bytes dump_meta w m (Return l) s).1 = Return l.
Proof.
  intros Hp Hs. destruct s as [c b]. unfold store_result, compute_and_cache.
  cbv [mbind py_mbind py_bind mret py_mret py_ret lift]. destruct (wr_skip w l); [done|].
  pose proof (ttl_set_reliable serializer as_bytes (m_key m) l raw None (m_tags m) (wr_stale_ttl w)
    (m_set m) (m_reserve m) c b eq_refl Hp Hs) as Hr.
  destruct (ttl_set _ _ _ _ _ _ _ _ _ (c, b)) as [r [c1 b1]]. cbn in Hr. subst r.
  destruct (wr_early w); [|done]. cbv [read_cache call_store]. cbn [fst snd].
  pose proof (rc_set (xfetch_key (m_key m)) (dump_meta (m_written m) (m_delta m)) (tc_ttl c1) [] (m_write m) b1) as Hx.
  destruct (cb_set _ _ _ _ _ b1) as [r b2]. cbn in Hx. by subst r.
Qed.

(** C32 Streaming to the end is collecting.  Over a cache backend that never fails
    ([ReliableCache]), with a positive [stale_ttl] if there is one, and a producer whose
    list of items, if it comes to its end, the serializer accepts: where the producer
    ends, or fails before its first item, a reader that takes every item gets the list
    that [collect] returns, item by item, or the error it raises, and leaves the same
    state, whether the list came from the producer, from the cache, from another call
    that computed it meanwhile, or from the stale copy.  (When the value cannot be
    stored, [collect] serves the stale copy or the error, and the reader of a stream
    has its items already: [stream_outruns_a_failed_store].) *)
Theorem streaming_is_collecting w m p s :
  positive (wr_stale_ttl w) = true ->
  (forall items, drain None p = (items, Exhausted) ->
     exists raw, serialize serializer as_bytes items = Return raw) ->
  (forall e, (drain None p).2 = Failed e -> (drain None p).1 = []) ->
  stream w m p None s =
  match collect_of w m p s with
  | (Return (items, _), s') => ((items, Exhausted), s')
  | (Raise e, s') => (([], Failed e), s')
  end.
Proof.
  intros Hp Hser Hfail. unfold stream_call, collect_call, cached_call. cbn [limit_reached].
  cbv [mbind py_mbind py_bind mret py_mret py_ret].
  destruct (ttl_get _ _ _ _ s) as [[[l|]|e] s1]; [| |done].
  { destruct (maybe_refresh _ _ _ _ s1) as [[due|e] s2]; [|done].
    unfold replay_items. by rewrite drain_items. }
  assert (forall s, match store_result serializer as_bytes dump_meta w m (collected p) s with
     | (Return l, s') => ((l, Exhausted), s')
     | (Raise e, s') => (([], Failed e), s')
     end = stream_and_store serializer as_bytes dump_meta w m p None s) as Hstore.
  { intros s'. unfold stream_and_store, collected. pose proof (drain_all p) as Hc.
    destruct (drain None p) as [items [| |e]] eqn:Ed; [|done|].
    - destruct (Hser items eq_refl) as [raw Hraw].
      pose proof (store_result_reliable w m items raw s' Hp Hraw) as Hr.
      destruct (store_result _ _ _ _ _ (Return items) s') as [r s2]. cbn in Hr. by subst r.
    - specialize (Hfail e eq_refl). cbn in Hfail. by subst items. }
  assert (forall s, match guarded serializer of_bytes w m (fun v => v)
       (store_result serializer as_bytes dump_meta w m (collected p)) s with
     | (Return l, s') => ((l, Exhausted), s')
     | (Raise e, s') => (([], Failed e), s')
     end = guarded_stream serializer as_bytes of_bytes dump_meta w m p None s) as Hg.
  { intros s'. unfold guarded, guarded_stream. destruct (wr_per_key w); [|apply Hstore].
    cbv [mbind py_mbind py_bind mret py_mret py_ret].
    destruct (ttl_peek _ _ _ _ s') as [[[l|]|e] s2]; [|apply Hstore|done].
    unfold replay_items. by rewrite drain_items. }
  destruct (wr_stale_ttl w); cbv [py_try];
    [unfold stream_stale_on_error, serve_stale|]; rewrite <- Hg;
    destruct (guarded _ _ _ _ _ _ s1) as [[l|e] s2]; try done.
  - by destruct l.
  - destruct (is_exception e); [|done]. cbv [mbind py_mbind py_bind mret py_mret py_ret py_raise].
    destruct (read_stale _ _ _ _ s2) as [[[l|]|e'] s3]; try done.
    unfold replay_items. by rewrite drain_items.
Qed.
End Sequences.

(** ** What is accepted *)

(** A private cache has a TTL of its own, and only an async function may use it; a
    method needs a key. *)
Lemma decorate_accepts d kind takes_self k :
  decorate d kind takes_self = Return k <->
  k = kind /\ kind <> SyncGenerator /\
  (dc_has_key d && dc_has_key_maker d = false) /\
  (takes_self = true -> dc_has_key d || dc_has_key_maker d = true) /\
  ((dc_has_cache d = true /\ dc_ttl d = None) \/
   (dc_has_cache d = false /\ kind <> SyncFunction /\
    exists ttl, dc_ttl d = Some ttl /\ cache_config_valid (dc_maxsize d) ttl = true)) /\
  dc_lock d <> LockOther /\ early_ok (dc_early d) = true /\ positive (dc_stale_ttl d) = true.
Proof.
  unfold decorate, cached_options, resolve_cache.
  destruct d as [c ttl ms hk hm lk ea st]; cbn.
  destruct hk, hm; cbn; try (split; [done|]; by intros (_ & _ & ? & _));
    (destruct c, ttl as [ttl|]; [by split; [|intros (_ & _ & _ & _ & [[_ ?]|[? _]] & _)]| | |
       by split; [|intros (_ & _ & _ & _ & [[? _]|(_ & _ & ? & ? & _)] & _)]]);
    try destruct (cache_config_valid ms ttl) eqn:E;
    destruct lk, (early_ok ea), (positive st), kind; cbn; try destruct takes_self; cbn; split;
    try (by intros [= <-]; split_and!; try done; (by left) || (right; split_and!; try done; by exists ttl));
    try done; intros (-> & H1 & H2 & H3 & H4 & H5 & H6 & H7); try done;
    try (by specialize (H3 eq_refl)); destruct H4 as [[? ?]|(? & ? & ttl' & [= <-] & ?)]; try done; congruence.
Qed.

(** ** Concrete streams *)

Definition byte_stream (m : moment) (p : producer (T := Byte.byte)) (limit : option nat)
    (s : TTLCache * cache_store) :=
  stream_call None (fun v => Some v) (fun v => v) (fun _ _ => []) (fun _ => None) (fun d => d)
    (mkWrapper true (fun _ => false) None (Some 60%Q)) m p limit s.

Definition at_moment (t : Q) : moment := mkMoment "k" [] t t t t t t t t t 0 false.

Lemma truncated_is_never_stored_witness :
  let s := (byte_stream (at_moment 0) (PYields Byte.x61 (PYields Byte.x62 PEnd)) None small_cache).2 in
  let cut := byte_stream (at_moment 70) (PYields Byte.x63 (PFails cache_boom)) None s in
  cut.1 = ([Byte.x63], Failed cache_boom) /\
  seen 100 (cb_entry cut.2.2 (stale_key "k")) = seen 100 (cb_entry s.2 (stale_key "k")).
Proof.
  intros s cut. split; [by vm_compute|].
  apply (truncated_is_never_stored None (fun v => Some v) (fun v => v) (fun _ _ => []) (fun _ => None) (fun d => d)
    (mkWrapper true (fun _ => false) None (Some 60%Q)) (at_moment 70)
    (PYields Byte.x63 (PFails cache_boom)) None 100 s); try (vm_compute; discriminate).
Defined.

Lemma streaming_is_collecting_witness :
  (byte_stream (at_moment 0) (PYields Byte.x61 (PYields Byte.x62 PEnd)) None small_cache).1 =
  ([Byte.x61; Byte.x62], Exhausted).
Proof.
  unfold byte_stream.
  rewrite streaming_is_collecting.
  - by vm_compute.
  - apply memory_cache_reliable.
  - done.
  - intros items _. by exists items.
  - done.
Defined.

(** A list that the serializer refuses is an error of [collect]; a reader of the stream
    gets it after the items. *)
Lemma stream_outruns_a_failed_store :
  let w := mkWrapper true (fun _ => false) None None in
  let p := PYields Byte.x61 PEnd in
  let refuse := fun _ : list Byte.byte => None in
  exists e,
    (collect_call None refuse (fun v => v) (fun _ _ => []) (fun _ => None) (fun d => d)
       w (at_moment 0) p small_cache).1 = Raise e /\
    (stream_call None refuse (fun v => v) (fun _ _ => []) (fun _ => None) (fun d => d)
       w (at_moment 0) p None small_cache).1 = ([Byte.x61], Failed e).
Proof. eexists. split; by vm_compute. Qed.

(** A reader gets part of a sequence live, or the reserve whole, never both. *)
Lemma stale_stands_in_at_the_start :
  let s := (byte_stream (at_moment 0) (PYields Byte.x61 PEnd) None small_cache).2 in
  (byte_stream (at_moment 70) (PFails cache_boom) None s).1 = ([Byte.x61], Exhausted) /\
  (byte_stream (at_moment 70) (PYields Byte.x62 (PFails cache_boom)) None s).1 =
    ([Byte.x62], Failed cache_boom).
Proof. by vm_compute. Qed.
