(* ===== verification/Config.v ===== *)
(** * Configuration

    [grelmicro/_config.py]: the names of environment variables, the resolution of
    a configuration from keyword arguments or the environment, the reports of
    variables that were not applied, and the reconfiguration of live instances
    from a mapping.

    A configuration class is its field names with two functions of pydantic,
    parameters of the model: [model_validate] on a dictionary, and the settings
    class that reads the environment.  Warning filters that turn a report into
    an error are not modelled. *)

From S2P Require Import Prelude Errors Dict PyStr.
From Stdlib Require Import Ascii String.

Local Open Scope Z_scope.

(** ** Names *)

(** [str.upper] on the first 256 code points, where only the sharp s becomes
    letters of ASCII; the other letters stay outside [A-Z]. *)
Fixpoint env_upper (s : string) : string :=
  match s with
  | EmptyString => EmptyString
  | String c s =>
      if code c =? 223 then String "S" (String "S" (env_upper s)) else String (upper_char c) (env_upper s)
  end.

(** [[A-Z0-9_]] *)
Definition env_char (c : ascii) : bool :=
  ((65 <=? code c) && (code c <=? 90)) || ((48 <=? code c) && (code c <=? 57)) || (code c =? 95).

(** [_NON_ENV_CHARS.sub("_", s)] and [_REPEATED_UNDERSCORES.sub("_", s)]: [run] when
    the character before was part of a run that is already replaced. *)
Fixpoint sub_non_env (run : bool) (s : string) : string :=
  match s with
  | EmptyString => EmptyString
  | String c s =>
      if env_char c then String c (sub_non_env false s)
      else if run then sub_non_env true s else String "_" (sub_non_env true s)
  end.

Fixpoint squeeze_underscores (run : bool) (s : string) : string :=
  match s with
  | EmptyString => EmptyString
  | String c s =>
      if Ascii.eqb c "_" then
        if run then squeeze_underscores true s else String "_" (squeeze_underscores true s)
      else String c (squeeze_underscores false s)
  end.

(** [s.strip("_")] *)
Fixpoint lstrip_underscores (s : string) : string :=
  match s with
  | String c s' => if Ascii.eqb c "_" then lstrip_underscores s' else s
  | EmptyString => EmptyString
  end.
Fixpoint rstrip_underscores (s : string) : string :=
  match s with
  | EmptyString => EmptyString
  | String c s =>
      match rstrip_underscores s with
      | EmptyString => if Ascii.eqb c "_" then EmptyString else String c EmptyString
      | s => String c s
      end
  end.

Definition clean_name (name : string) : string :=
  rstrip_underscores (lstrip_underscores (squeeze_underscores false (sub_non_env false (env_upper name)))).

(** [env_segment] *)
Definition env_segment (name : string) : outcome exn string :=
  match clean_name name with
  | EmptyString => Raise (mk_exn ValueError NoInfo)
  | String c s => if is_digit c then Raise (mk_exn ValueError NoInfo) else Return (String c s)
  end.

(** [default_env_prefix] *)
Definition default_env_prefix (component name : string) : outcome exn string :=
  if decide (name = "default"%string) then Return ("GREL_" +:+ component +:+ "_")
  else
    match env_segment name with
    | Return segment => Return ("GREL_" +:+ component +:+ "_" +:+ segment +:+ "_")
    | Raise e => Raise e
    end.

(** ** The environment *)

Definition environ : Type := gmap string string.

Definition _ENV_LOAD_VAR : string := "GREL_ENV_LOAD".
Definition _ENV_LOAD_TRUTHY : list string := ["1"; "true"; "yes"; "on"].

(** [env_load_default] *)
Definition env_load_default (env : environ) : bool :=
  bool_decide (lower (py_strip (default "" (env !! _ENV_LOAD_VAR))) ∈ _ENV_LOAD_TRUTHY).

(** The process-wide state of the reports: the names reported, those waiting for a
    log record, whether logging is configured, and what the two channels got. *)
Record reports : Type := mkReports {
  warned_ignored_env : gset string;
  pending_ignored_env : list string;
  logging_configured : bool;
  warnings_issued : list string;
  log_records : list string;
}.

Definition no_reports : reports := mkReports ∅ [] false [] [].

(** One turn of the loop of [_warn_ignored_env]. *)
Definition report_variable (name : string) (r : reports) : reports :=
  if logging_configured r then
    mkReports ({[name]} ∪ warned_ignored_env r) (pending_ignored_env r) true
      (warnings_issued r ++ [name]) (log_records r ++ [name])
  else
    mkReports ({[name]} ∪ warned_ignored_env r) (pending_ignored_env r ++ [name]) false
      (warnings_issued r ++ [name]) (log_records r).

(** [_warn_ignored_env] *)
Definition warn_ignored_env (fields provided : list string) (env_prefix : string) (env : environ)
    (r : reports) : reports :=
  foldl (fun r field =>
    if decide (field ∈ provided) then r
    else
      let name := env_prefix +:+ upper field in
      if bool_decide (is_Some (env !! name)) && negb (bool_decide (name ∈ warned_ignored_env r))
      then report_variable name r else r) r fields.

(** [flush_ignored_env_reports] *)
Definition flush_ignored_env_reports (r : reports) : reports :=
  mkReports (warned_ignored_env r) [] true (warnings_issued r)
    (log_records r ++ pending_ignored_env r).

(** [hold_ignored_env_reports] *)
Definition hold_ignored_env_reports (r : reports) : reports :=
  mkReports (warned_ignored_env r) (pending_ignored_env r) false (warnings_issued r) (log_records r).

(** ** Resolution *)

Section Resolve.
(** A configuration class: values of keyword arguments, configurations, the
    fields, [model_validate], and the settings class for a prefix, which also
    reads the environment; both raise [ValidationError] with [None]. *)
Context {K C : Type} (model_fields : list string).
Context (model_validate : list (string * K) -> option C).
Context (settings : string -> list (string * K) -> environ -> option C).

(** The arguments that are not [None]. *)
Definition provided_kwargs (kwargs : list (string * option K)) : list (string * K) :=
  omap (fun p => pair p.1 <$> p.2) kwargs.

(** [resolve_config]; [error_type] is the class a [ValidationError] becomes. *)
Definition resolve_config (explicit : option C) (kwargs : list (string * option K)) (env_prefix : string)
    (env_load : option bool) (validation_error : exn) (error_type : option exn_class) (env : environ) :
    py reports exn C := fun r =>
  let provided := provided_kwargs kwargs in
  match explicit with
  | Some c => (if decide (provided = []) then Return c else Raise (mk_exn TypeError NoInfo), r)
  | None =>
      let implicit := bool_decide (env_load = None) in
      let env_load := default (env_load_default env) env_load in
      let result r (c : option C) :=
        (match c with
         | Some c => Return c
         | None => Raise (match error_type with Some cls => mk_exn cls NoInfo | None => validation_error end)
         end, r) in
      if negb env_load then
        let r := if implicit then warn_ignored_env model_fields (provided.*1) env_prefix env r else r in
        result r (model_validate provided)
      else result r (settings env_prefix provided env)
  end.
End Resolve.

(** ** Reconfiguration *)

(** The loop of [resolve_config_from_mapping]: what overrides the fields, and how
    many keys match none. *)
Fixpoint drop_chars (n : nat) (s : string) : string :=
  match n, s with S n, String _ s => drop_chars n s | _, _ => s end.

Definition key_field (env_prefix key : string) : option string :=
  if String.prefix (env_upper env_prefix) (env_upper key)
  then Some (lower (drop_chars (String.length env_prefix) key)) else None.

Fixpoint mapping_overrides (fields immutable : list string) (env_prefix : string)
    (mapping : list (string * string)) (overrides : list (string * string)) (unmatched : nat) :
    list (string * string) * nat :=
  match mapping with
  | [] => (overrides, unmatched)
  | (key, value) :: mapping =>
      match key_field env_prefix key with
      | None => mapping_overrides fields immutable env_prefix mapping overrides unmatched
      | Some field =>
          if decide (field ∈ immutable)
          then mapping_overrides fields immutable env_prefix mapping overrides unmatched
          else if decide (field ∈ fields)
          then mapping_overrides fields immutable env_prefix mapping (dict_set field value overrides) unmatched
          else mapping_overrides fields immutable env_prefix mapping overrides (S unmatched)
      end
  end.

Section Reconfigure.
(** Configurations of every class, with their equality. *)
Context {C : Type} `{EqDecision C}.

(** A live instance: the prefix it was built with, its class, its fields, those it
    never changes, [model_validate] of its configuration with overrides, and
    [_apply_reconfigure]. *)
Record live_instance : Type := mkInstance {
  in_prefix : option string;
  in_kind : C -> C -> bool;
  in_fields : list string;
  in_immutable : list string;
  in_patch : C -> list (string * string) -> option C;
  in_apply : C -> C -> option exn;
  in_config : C;
}.

Definition with_config (c : C) (i : live_instance) : live_instance :=
  mkInstance (in_prefix i) (in_kind i) (in_fields i) (in_immutable i) (in_patch i) (in_apply i) c.

(** [resolve_config_from_mapping]; [None] is [ValidationError]. *)
Definition resolve_config_from_mapping (i : live_instance) (env_prefix : string)
    (mapping : list (string * string)) : option C :=
  match (mapping_overrides (in_fields i) (in_immutable i) env_prefix mapping [] 0).1 with
  | [] => Some (in_config i)
  | overrides => in_patch i (in_config i) overrides
  end.

(** [reconfigure_live], for a caller that nobody interrupts. *)
Definition reconfigure_live (new_config : C) (i : live_instance) : outcome exn unit * live_instance :=
  if negb (in_kind i new_config (in_config i)) then (Raise (mk_exn TypeError NoInfo), i)
  else if decide (new_config = in_config i) then (Return tt, i)
  else
    match in_apply i (in_config i) new_config with
    | Some e => (Raise e, i)
    | None => (Return tt, with_config new_config i)
    end.

(** One turn of the loop of [reconfigure_all]: [Raise] leaves the loop. *)
Definition reconfigure_one (mapping : list (string * string)) (i : live_instance) : outcome exn unit * live_instance :=
  match in_prefix i with
  | None => (Return tt, i)
  | Some env_prefix =>
      match resolve_config_from_mapping i env_prefix mapping with
      | None => (Return tt, i)
      | Some new_config =>
          match reconfigure_live new_config i with
          | (Raise e, i) =>
              if isinstance e ValueError || isinstance e TypeError then (Return tt, i) else (Raise e, i)
          | r => r
          end
      end
  end.

(** [reconfigure_all] *)
Fixpoint reconfigure_all (mapping : list (string * string)) (l : list live_instance) :
    outcome exn unit * list live_instance :=
  match l with
  | [] => (Return tt, [])
  | i :: l =>
      match reconfigure_one mapping i with
      | (Raise e, i) => (Raise e, i :: l)
      | (Return _, i) => let '(r, l) := reconfigure_all mapping l in (r, i :: l)
      end
  end.
End Reconfigure.

(** ** Segments *)

(** No underscore at the start, at the end, or next to another one; [under] when
    the character before forbids an underscore. *)
Fixpoint tight (under : bool) (s : string) : bool :=
  match s with
  | EmptyString => negb under
  | String c s => if Ascii.eqb c "_" then negb under && tight true s else tight false s
  end.
Fixpoint no_double (under : bool) (s : string) : bool :=
  match s with
  | EmptyString => true
  | String c s => if Ascii.eqb c "_" then negb under && no_double true s else no_double false s
  end.

(** A portable variable name, as POSIX has them: [[A-Z][A-Z0-9_]*], here without
    an underscore at the end or a double one. *)
Definition portable (s : string) : bool :=
  string_forall env_char s && tight true s &&
  match s with String c _ => negb (is_digit c) | EmptyString => false end.

Lemma sub_non_env_chars run s : string_forall env_char (sub_non_env run s) = true.
Proof.
  revert run. induction s as [|c s IH]; intros run; simpl; [done|].
  destruct (env_char c) eqn:E; [simpl; by rewrite E, IH|]. destruct run; simpl; by rewrite IH.
Qed.

Lemma squeeze_chars run s : string_forall env_char s = true ->
  string_forall env_char (squeeze_underscores run s) = true.
Proof.
  revert run. induction s as [|c s IH]; intros run; simpl; [done|].
  intros [Hc Hs]%andb_prop. destruct (Ascii.eqb c "_"); [destruct run|]; simpl; rewrite ?Hc; eauto.
Qed.

Lemma squeeze_no_double run s : no_double run (squeeze_underscores run s) = true.
Proof.
  revert run. induction s as [|c s IH]; intros run; simpl; [done|].
  destruct (Ascii.eqb c "_") eqn:E; [destruct run|]; simpl; rewrite ?E; eauto.
Qed.

Lemma lstrip_chars P s : string_forall P s = true -> string_forall P (lstrip_underscores s) = true.
Proof.
  induction s as [|c s IH]; simpl; [done|]. intros [Hc Hs]%andb_prop.
  destruct (Ascii.eqb c "_"); simpl; [auto|by rewrite Hc].
Qed.

Lemma rstrip_chars P s : string_forall P s = true -> string_forall P (rstrip_underscores s) = true.
Proof.
  induction s as [|c s IH]; simpl; [done|]. intros [Hc Hs]%andb_prop. specialize (IH Hs).
  destruct (rstrip_underscores s); [destruct (Ascii.eqb c "_")|]; simpl in *; rewrite ?Hc; auto.
Qed.

Lemma lstrip_no_double b s : no_double b s = true -> no_double true (lstrip_underscores s) = true.
Proof.
  revert b. induction s as [|c s IH]; intros b; simpl; [done|].
  destruct (Ascii.eqb c "_") eqn:E; [intros [_ H]%andb_prop; eauto|]. simpl. by rewrite E.
Qed.

Lemma rstrip_tight b s : no_double b s = true -> rstrip_underscores s <> ""%string ->
  tight b (rstrip_underscores s) = true.
Proof.
  revert b. induction s as [|c s IH]; intros b; simpl; [done|].
  destruct (rstrip_underscores s) as [|d t] eqn:Et.
  - destruct (Ascii.eqb c "_") eqn:E; [done|]. intros _ _. simpl. by rewrite E.
  - intros H _. change (tight b (String c (String d t)))
      with (if Ascii.eqb c "_" then negb b && tight true (String d t) else tight false (String d t)).
    destruct (Ascii.eqb c "_"); [|by apply IH].
    apply andb_prop in H as [Hb H]. rewrite Hb. by apply (IH true).
Qed.

Lemma tight_no_double b s : tight b s = true -> no_double b s = true.
Proof.
  revert b. induction s as [|c s IH]; intros b; simpl; [done|].
  destruct (Ascii.eqb c "_"); [intros [Hb H]%andb_prop; rewrite Hb|intros H]; simpl; auto.
Qed.

Lemma tight_lstrip s : tight true s = true -> lstrip_underscores s = s.
Proof. destruct s as [|c s]; simpl; [done|]. by destruct (Ascii.eqb c "_"). Qed.

Lemma tight_rstrip b s : tight b s = true -> rstrip_underscores s = s.
Proof.
  revert b. induction s as [|c s IH]; intros b; simpl; [done|].
  destruct (Ascii.eqb c "_") eqn:E.
  - intros [_ H]%andb_prop. rewrite (IH _ H). by destruct s.
  - intros H. rewrite (IH _ H). by destruct s.
Qed.

Lemma no_double_squeeze b s : no_double b s = true -> squeeze_underscores b s = s.
Proof.
  revert b. induction s as [|c s IH]; intros b; simpl; [done|].
  destruct (Ascii.eqb c "_") eqn:E.
  - intros [Hb H]%andb_prop. destruct b; [done|]. apply Ascii.eqb_eq in E as ->. by rewrite IH.
  - intros H. by rewrite IH.
Qed.

Lemma env_char_upper c s : env_char c = true -> env_upper (String c s) = String c (env_upper s).
Proof.
  unfold env_char. intros H. simpl. unfold upper_char.
  destruct (code c =? 223) eqn:E; [lia|]. destruct ((97 <=? code c) && (code c <=? 122)) eqn:E'; [lia|done].
Qed.

Lemma env_chars_clean s : string_forall env_char s = true ->
  sub_non_env false (env_upper s) = s.
Proof.
  induction s as [|c s IH]; [done|]. cbn [string_forall]. intros [Hc Hs]%andb_prop.
  rewrite env_char_upper by done. cbn [sub_non_env]. by rewrite Hc, IH.
Qed.

Lemma clean_name_shape name : string_forall env_char (clean_name name) = true /\
  (clean_name name <> ""%string -> tight true (clean_name name) = true).
Proof.
  unfold clean_name. split.
  - apply rstrip_chars, lstrip_chars, squeeze_chars, sub_non_env_chars.
  - apply rstrip_tight. eapply lstrip_no_double, squeeze_no_double.
Qed.

Lemma clean_name_portable s : portable s = true -> clean_name s = s.
Proof.
  unfold portable. intros [[Hc Ht]%andb_prop _]%andb_prop. unfold clean_name.
  rewrite env_chars_clean by done.
  rewrite no_double_squeeze by (apply (tight_no_double true) in Ht; revert Ht; clear; destruct s as [|c s]; simpl; [done|]; destruct (Ascii.eqb c "_"); done).
  rewrite tight_lstrip by done. by eapply tight_rstrip.
Qed.

Lemma env_segment_spec name s : env_segment name = Return s -> portable s = true /\ clean_name name = s.
Proof.
  unfold env_segment, portable. destruct (clean_name_shape name) as [Hc Ht].
  destruct (clean_name name) as [|c t]; [done|]. destruct (is_digit c) eqn:E; [done|]. intros [= <-].
  rewrite Hc, Ht by done. split; [|done]. by rewrite E.
Qed.

Lemma env_segment_portable_id s : portable s = true -> env_segment s = Return s.
Proof.
  intros H. unfold env_segment. rewrite clean_name_portable by done. unfold portable in H.
  destruct s as [|c s]; [by rewrite andb_false_r in H|]. apply andb_prop in H as [_ H].
  apply negb_true_iff in H. by rewrite H.
Qed.

(** (type): the segment of a variable name is always portable: the characters
    [[A-Z0-9_]], a letter first, no underscore at either end and never two in a row;
    segments are the portable names, and the segment of a segment is itself.  What
    has no segment raises [ValueError]. *)
Lemma segments_are_portable : forall name,
  match env_segment name with
  | Return s => portable s = true /\ env_segment s = Return s
  | Raise e => e = mk_exn ValueError NoInfo /\ portable (clean_name name) = false
  end.
Proof.
  intros name. destruct (env_segment name) as [s|e] eqn:E.
  - apply env_segment_spec in E as [H _]. split; [done|]. by apply env_segment_portable_id.
  - unfold env_segment in E. unfold portable.
    destruct (clean_name name) as [|c t]; [injection E as <-; split; [done|apply andb_false_r]|].
    destruct (is_digit c) eqn:Ec; [|done]. injection E as <-. split; [done|].
    apply andb_false_r.
Qed.

(** ** The reports *)

Inductive report_op : Type :=
  | Warn (fields provided : list string) (env_prefix : string) (env : environ)
  | Flush
  | Hold.

Definition report_step (r : reports) (op : report_op) : reports :=
  match op with
  | Warn fields provided p env => warn_ignored_env fields provided p env r
  | Flush => flush_ignored_env_reports r
  | Hold => hold_ignored_env_reports r
  end.

(** Every name reported is in the set once, and its log record is either emitted or
    waiting, in the order of the warnings; nothing waits while logging is
    configured. *)
Record reports_ok (r : reports) : Prop := {
  ok_order : warnings_issued r = log_records r ++ pending_ignored_env r;
  ok_once : NoDup (warnings_issued r);
  ok_set : forall name, name ∈ warned_ignored_env r <-> name ∈ warnings_issued r;
  ok_drained : logging_configured r = true -> pending_ignored_env r = [];
}.

Lemma report_variable_ok name r : reports_ok r -> name ∉ warned_ignored_env r ->
  reports_ok (report_variable name r).
Proof.
  intros [Ho Hn Hs Hd] Hnew. rewrite Hs in Hnew. unfold report_variable.
  assert (NoDup (warnings_issued r ++ [name])).
  { apply NoDup_app. repeat split; [done| |apply NoDup_singleton].
    intros x Hx ->%list_elem_of_singleton. done. }
  destruct (logging_configured r) eqn:E; split; simpl; try done.
  - by rewrite Ho, (Hd eq_refl), !app_nil_r.
  - intros x. rewrite elem_of_app, list_elem_of_singleton, <- Hs. set_solver.
  - by rewrite Ho, app_assoc.
  - intros x. rewrite elem_of_app, list_elem_of_singleton, <- Hs. set_solver.
Qed.

Lemma warn_ignored_env_ind (P : reports -> Prop) fields provided p env r :
  P r ->
  (forall r field, field ∈ fields -> field ∉ provided -> is_Some (env !! (p +:+ upper field)) ->
     p +:+ upper field ∉ warned_ignored_env r -> P r -> P (report_variable (p +:+ upper field) r)) ->
  P (warn_ignored_env fields provided p env r).
Proof.
  intros Hr Hstep. unfold warn_ignored_env.
  assert (forall l, (forall f, f ∈ l -> f ∈ fields) -> forall r, P r ->
    P (foldl (fun r field => if decide (field ∈ provided) then r else
      if bool_decide (is_Some (env !! (p +:+ upper field))) &&
         negb (bool_decide (p +:+ upper field ∈ warned_ignored_env r))
      then report_variable (p +:+ upper field) r else r) r l)) as H; [|by apply H].
  clear r Hr. induction l as [|f l IH]; intros Hl r Hr; simpl; [done|].
  apply IH; [intros g Hg; apply Hl; by right|].
  destruct (decide (f ∈ provided)); [done|].
  destruct (bool_decide _ && _) eqn:E; [|done].
  apply andb_prop in E as [E1 E2]. apply bool_decide_eq_true in E1. apply negb_true_iff, bool_decide_eq_false in E2.
  apply Hstep; try done. apply Hl. by left.
Qed.

Lemma report_step_ok r op : reports_ok r -> reports_ok (report_step r op).
Proof.
  intros Hr. destruct op as [fields provided p env| |]; simpl.
  - by apply warn_ignored_env_ind; [|intros; apply report_variable_ok].
  - destruct Hr. by split; simpl; rewrite ?app_nil_r.
  - destruct Hr. by split.
Qed.

(** (invariant): whatever components are built and however logging starts and
    stops, every variable that was set and not applied is reported once on each
    channel: as a warning at once, as a log record at once or as soon as logging is
    configured, in the order of the warnings. *)
Lemma ignored_variables_are_reported_once : forall ops,
  let r := foldl report_step no_reports ops in
  reports_ok r /\ log_records (flush_ignored_env_reports r) = warnings_issued r.
Proof.
  intros ops r. assert (reports_ok r) as H.
  { unfold r. clear r. assert (reports_ok no_reports) as H.
    { split; simpl; [done|apply NoDup_nil_2|intros name; set_solver|done]. }
    revert H. generalize no_reports. induction ops as [|op ops IH]; intros r H; simpl; [done|].
    apply IH. by apply report_step_ok. }
  split; [done|]. simpl. symmetry. apply H.
Qed.

Lemma report_variable_warned name r x :
  x ∈ warned_ignored_env (report_variable name r) <-> x = name \/ x ∈ warned_ignored_env r.
Proof. unfold report_variable. destruct (logging_configured r); simpl; set_solver. Qed.

Lemma warn_ignored_env_warned fields provided p env r x :
  x ∈ warned_ignored_env (warn_ignored_env fields provided p env r) <->
  x ∈ warned_ignored_env r \/
  exists f, f ∈ fields /\ (f ∉ provided) /\ x = String.append p (upper f) /\ is_Some (env !! x).
Proof.
  unfold warn_ignored_env. revert r. induction fields as [|f fields IH]; intros r; simpl.
  { set_solver. }
  rewrite IH. clear IH. setoid_rewrite elem_of_cons.
  destruct (decide (f ∈ provided)) as [Hp|Hp]; [naive_solver|].
  destruct (bool_decide _ && _) eqn:E; rewrite ?report_variable_warned.
  - apply andb_prop in E as [E1 E2]. apply bool_decide_eq_true in E1. naive_solver.
  - apply andb_false_iff in E. rewrite bool_decide_eq_false, negb_false_iff, bool_decide_eq_true in E.
    split; [naive_solver|]. intros [?|(g & [->|?] & ? & -> & ?)]; naive_solver.
Qed.

(** ** Resolution *)

(** Whether a construction reads the environment. *)
Definition opted_in (env_load : option bool) (env : environ) : bool :=
  default (env_load_default env) env_load.

(** (safety): a component reads the environment only when the call or
    [GREL_ENV_LOAD] opts in: otherwise what it resolves is the same in every
    environment.  Reports are made only when nobody chose, and then for exactly the
    variables of its fields that are set, that no argument overrides and that no
    report named before. *)
Lemma environment_is_opt_in {K C} : forall fields (validate : list (string * K) -> option C) settings
    explicit kwargs p env_load e cls env r,
  opted_in env_load env = false ->
  let run load env := resolve_config fields validate settings explicit kwargs p load e cls env in
  (forall env' r', (run env_load env r).1 = (run (Some false) env' r').1) /\
  (explicit <> None \/ env_load <> None -> (run env_load env r).2 = r) /\
  (explicit = None -> env_load = None -> forall x,
   x ∈ warned_ignored_env (run env_load env r).2 <->
   x ∈ warned_ignored_env r \/
   exists f, f ∈ fields /\ (f ∉ (provided_kwargs kwargs).*1) /\ x = String.append p (upper f) /\ is_Some (env !! x)).
Proof.
  intros fields validate settings explicit kwargs p env_load e cls env r Hin run.
  subst run. unfold resolve_config, opted_in in *. destruct explicit as [c|].
  { split; [done|]. split; [done|]. done. }
  destruct env_load as [b|]; simpl in *.
  - subst b. done.
  - rewrite Hin. simpl. split; [done|]. split; [by intros [?|?]|].
    intros _ _ x. apply warn_ignored_env_warned.
Qed.

Lemma environment_is_opt_in_witness :
  let run load env := resolve_config ["token"%string; "worker"%string] (fun d : list (string * Z) => Some d) (fun _ _ _ => None)
    None [("worker"%string, Some 1); ("token"%string, None)] "GREL_LOCK_" load
    (mk_exn ValueError NoInfo) None env in
  let env := {["GREL_LOCK_TOKEN"%string := "x"%string; "GREL_LOCK_WORKER" := "y"%string]} : environ in
  (run None env no_reports).1 = (run (Some false) ∅ no_reports).1 /\
  "GREL_LOCK_TOKEN"%string ∈ warned_ignored_env (run None env no_reports).2.
Proof.
  intros run env. pose proof (environment_is_opt_in ["token"%string; "worker"%string]
    (fun d : list (string * Z) => Some d) (fun _ _ _ => None) None
    [("worker"%string, Some 1); ("token"%string, None)] "GREL_LOCK_" None
    (mk_exn ValueError NoInfo) None env no_reports eq_refl) as H.
  destruct H as (H1 & _ & H3).
  split; [apply H1|]. apply H3; [done|done|]. right. exists "token"%string.
  split; [by left|]. split; [by eapply bool_decide_eq_false|]. split; [done|by eexists].
Defined.

(** ** Reconfiguration *)

(** The values a mapping has for a field, in its order. *)
Definition field_values (env_prefix f : string) (mapping : list (string * string)) : list string :=
  omap (fun kv => if decide (key_field env_prefix kv.1 = Some f) then Some kv.2 else None) mapping.

Lemma mapping_overrides_get fields immutable p mapping overrides n f :
  dict_get f (mapping_overrides fields immutable p mapping overrides n).1 =
  if decide (f ∈ fields /\ f ∉ immutable)
  then match last (field_values p f mapping) with Some v => Some v | None => dict_get f overrides end
  else dict_get f overrides.
Proof.
  revert overrides n. induction mapping as [|[key value] mapping IH]; intros overrides n; simpl.
  { by destruct (decide _). }
  unfold field_values. simpl. fold (field_values p f mapping).
  destruct (key_field p key) as [g|] eqn:Eg; [|rewrite (decide_False (P := None = Some f)) by done; apply IH].
  destruct (decide (g = f)) as [->|Hne].
  - rewrite (decide_True (P := Some f = Some f)) by done.
    destruct (decide (f ∈ immutable)) as [|]; [|destruct (decide (f ∈ fields)) as [|]]; rewrite IH.
    + by rewrite !decide_False by tauto.
    + rewrite !decide_True by done. rewrite last_cons, dict_get_set_eq. by destruct (last _).
    + by rewrite !decide_False by tauto.
  - rewrite (decide_False (P := Some g = Some f)) by congruence.
    destruct (decide (g ∈ immutable)) as [|]; [|destruct (decide (g ∈ fields)) as [|]]; rewrite IH; try done.
    by rewrite dict_get_set_ne.
Qed.

Lemma mapping_overrides_wf fields immutable p mapping overrides n : dict_wf overrides ->
  dict_wf (mapping_overrides fields immutable p mapping overrides n).1.
Proof.
  revert overrides n. induction mapping as [|[key value] mapping IH]; intros overrides n H; simpl; [done|].
  destruct (key_field p key); [|by apply IH]. repeat case_decide; apply IH; by try apply dict_set_wf.
Qed.

(** (functional): a mapping patches a configuration with exactly its keys: a
    field is overridden when it is one of the configuration's, not one that never
    changes, and some key is the prefix and its name in any case, the last such key
    winning; with no override at all the configuration is the one it was, not
    validated again. *)
Lemma mapping_patches_exactly_its_keys {C} : forall (i : @live_instance C) p mapping,
  exists overrides, dict_wf overrides /\
  (forall f, dict_get f overrides =
   if decide (f ∈ in_fields i /\ f ∉ in_immutable i) then last (field_values p f mapping) else None) /\
  resolve_config_from_mapping i p mapping =
  (if decide (overrides = []) then Some (in_config i) else in_patch i (in_config i) overrides).
Proof.
  intros i p mapping. exists (mapping_overrides (in_fields i) (in_immutable i) p mapping [] 0).1.
  split; [apply mapping_overrides_wf, dict_wf_nil|]. split.
  - intros f. rewrite mapping_overrides_get. case_decide; [|done]. by destruct (last _).
  - unfold resolve_config_from_mapping. by destruct (mapping_overrides _ _ _ _ _ _).1.
Qed.

Section Live.
Context {C : Type} `{EqDecision C}.
Implicit Types (i : @live_instance C) (l : list (@live_instance C)).

(** The errors [_apply_reconfigure] documents: the value is rejected. *)
Definition rejects_by_value i : Prop :=
  forall c c' e, in_apply i c c' = Some e -> isinstance e ValueError || isinstance e TypeError = true.

Lemma reconfigure_one_returns mapping i : rejects_by_value i ->
  (reconfigure_one mapping i).1 = Return tt.
Proof.
  intros H. unfold reconfigure_one. destruct (in_prefix i) as [p|]; [|done].
  destruct (resolve_config_from_mapping i p mapping) as [c|]; [|done].
  unfold reconfigure_live. destruct (in_kind i c (in_config i)); simpl; [|done].
  destruct (decide _); [done|]. destruct (in_apply i (in_config i) c) eqn:E; [|done].
  by rewrite (H _ _ _ E).
Qed.

(** What an instance has after the mapping was applied to it. *)
Lemma reconfigure_one_config mapping i :
  (reconfigure_one mapping i).2 = i \/
  exists p c, in_prefix i = Some p /\ resolve_config_from_mapping i p mapping = Some c /\
    in_kind i c (in_config i) = true /\ in_apply i (in_config i) c = None /\
    (reconfigure_one mapping i).2 = with_config c i.
Proof.
  unfold reconfigure_one. destruct (in_prefix i) as [p|] eqn:Ep; [|by left].
  destruct (resolve_config_from_mapping i p mapping) as [c|] eqn:Ec; [|by left].
  unfold reconfigure_live. destruct (in_kind i c (in_config i)) eqn:Ek; simpl; [|by left].
  destruct (decide _); [by left|].
  destruct (in_apply i (in_config i) c) as [e|] eqn:Ea; [|right; naive_solver].
  left. by destruct (_ || _).
Qed.

Lemma reconfigure_all_each mapping l : Forall rejects_by_value l ->
  reconfigure_all mapping l = (Return tt, map (fun i => (reconfigure_one mapping i).2) l).
Proof.
  induction 1 as [|i l Hi _ IH]; simpl; [done|].
  pose proof (reconfigure_one_returns mapping i Hi) as E.
  destruct (reconfigure_one mapping i) as [o j]. simpl in *. subst o. by rewrite IH.
Qed.

(** (safety): one bad key never stops the others: when instances reject a value
    with [ValueError] or [TypeError], the pass returns and every instance is left
    as if it had been alone: unchanged, or with the validated patch of its own keys
    that it accepted. *)
Lemma bad_values_never_stop_the_others : forall mapping l, Forall rejects_by_value l ->
  let '(r, l') := reconfigure_all mapping l in
  r = Return tt /\
  Forall2 (fun i i' => i' = (reconfigure_one mapping i).2 /\
    (i' = i \/ exists p c, in_prefix i = Some p /\ resolve_config_from_mapping i p mapping = Some c /\
       in_kind i c (in_config i) = true /\ in_apply i (in_config i) c = None /\ i' = with_config c i)) l l'.
Proof.
  intros mapping l H. rewrite reconfigure_all_each by done. split; [done|]. clear H.
  induction l as [|i l IH]; simpl; constructor; [|done]. split; [done|]. apply reconfigure_one_config.
Qed.
End Live.

(** Three locks with a lease: the second one's value is no number, the third one
    rejects a lease of 7; configurations are leases. *)
Definition demo_instance (p : string) (reject : Z) : @live_instance Z :=
  mkInstance (Some p) (fun _ _ => true) ["lease_duration"%string; "worker"%string] ["worker"%string]
    (fun _ d => match dict_get "lease_duration"%string d with Some v => int_of_string v | None => None end)
    (fun _ c => if decide (c = reject) then Some (mk_exn ValueError NoInfo) else None) 5.

Lemma demo_instance_rejects p reject : rejects_by_value (demo_instance p reject).
Proof. intros c c' e. simpl. case_decide; [by intros [= <-]|done]. Qed.

Lemma bad_values_never_stop_the_others_witness :
  let l := [demo_instance "GREL_LOCK_A_" 0; demo_instance "GREL_LOCK_B_" 0; demo_instance "GREL_LOCK_C_" 7;
            demo_instance "GREL_LOCK_D_" 0] in
  let mapping := [("grel_lock_a_lease_duration", "8"); ("GREL_LOCK_B_LEASE_DURATION", "x");
    ("GREL_LOCK_C_LEASE_DURATION", "7"); ("GREL_LOCK_D_WORKER", "w"); ("GREL_LOCK_D_LEASE_DURATION", "9")]%string in
  (reconfigure_all mapping l).1 = Return tt /\ map in_config (reconfigure_all mapping l).2 = [8; 5; 5; 9].
Proof.
  intros l mapping. pose proof (bad_values_never_stop_the_others mapping l) as H.
  split; [|vm_compute; reflexivity].
  destruct (reconfigure_all mapping l). apply H.
  repeat constructor; apply demo_instance_rejects.
Defined.
