(* ===== verification/ExternalConfig.v ===== *)
(** * External configuration

    [grelmicro/config/file.py] and [grelmicro/config/_external.py]: the reader of a
    mounted directory or file, with its detection of changes, and the component
    that polls a configuration and a secrets source and reconfigures the live
    instances ([Config]).  The parsers of JSON, YAML and TOML documents are
    parameters; a source is any implementation of the interface
    [ConfigBackend], of which the file adapter is an instance.  Opening and closing
    the sources is not modelled. *)

From S2P Require Import Prelude Errors Dict PyStr Config.
From Stdlib Require Import Ascii String.

Local Open Scope Z_scope.

(** A mapping of variable names to values. *)
Definition mapping : Type := list (string * string).

(** [{**a, **b}] *)
Definition dict_merge (a b : mapping) : mapping := foldl (fun d kv => dict_set kv.1 kv.2 d) a b.

(** The mapping without its order: what [==] compares. *)
Definition as_map (m : mapping) : gmap string string := list_to_map m.

(** ** Files *)

(** [s.rstrip(chars)] and [s.strip(chars)] for a set of characters. *)
Fixpoint rstrip_of (chars : list ascii) (s : string) : string :=
  match s with
  | EmptyString => EmptyString
  | String c s =>
      match rstrip_of chars s with
      | EmptyString => if decide (c ∈ chars) then EmptyString else String c EmptyString
      | s => String c s
      end
  end.
Fixpoint lstrip_of (chars : list ascii) (s : string) : string :=
  match s with
  | String c s' => if decide (c ∈ chars) then lstrip_of chars s' else s
  | EmptyString => EmptyString
  end.
Definition strip_of (chars : list ascii) (s : string) : string := rstrip_of chars (lstrip_of chars s).

Definition line_feed : ascii := "010".
Definition quotes : list ascii := ["034"; "'"]%char.

(** The line boundaries of [str.splitlines] among the first 256 code points. *)
Definition is_break (c : ascii) : bool :=
  let n := code c in
  ((10 <=? n) && (n <=? 13)) || ((28 <=? n) && (n <=? 30)) || (n =? 133).

(** [s.splitlines()] *)
Fixpoint splitlines (s : string) : list string :=
  match s with
  | EmptyString => []
  | String c s' =>
      if is_break c then
        match s' with
        | String d s'' =>
            if (code c =? 13) && (code d =? 10) then ""%string :: splitlines s'' else ""%string :: splitlines s'
        | EmptyString => [""%string]
        end
      else
        match splitlines s' with
        | l :: ls => String c l :: ls
        | [] => [String c EmptyString]
        end
  end.

(** One turn of the loop of [_parse_env]. *)
Definition parse_env_line (result : mapping) (raw : string) : mapping :=
  let line := py_strip raw in
  if String.eqb line "" || String.prefix "#" line || negb (contains "=" line) then result
  else
    let '(key, _, value) := partition "=" line in
    dict_set (py_strip key) (strip_of quotes (py_strip value)) result.

(** [_parse_env] *)
Definition parse_env (text : string) : mapping := foldl parse_env_line [] (splitlines text).

(** A parsed document: booleans, mappings in their order with [str] of their keys,
    and anything else as its [str]. *)
Inductive document : Type :=
  | DBool (b : bool)
  | DText (s : string)
  | DMap (items : list (string * document)).

(** [_stringify] of a boolean *)
Definition stringify_bool (b : bool) : string := if b then "true" else "false".

(** [f"{prefix}_{key}" if prefix else str(key)] *)
Definition child_name (prefix key : string) : string :=
  if String.eqb prefix "" then key else prefix +:+ "_" +:+ key.

(** [_flatten_into], from a name and a value. *)
Fixpoint flatten_value (result : mapping) (name : string) (value : document) : mapping :=
  match value with
  | DMap items =>
      fold_left (fun result kv => flatten_value result (child_name name kv.1) kv.2) items result
  | DBool b => dict_set (env_upper name) (stringify_bool b) result
  | DText s => dict_set (env_upper name) s result
  end.

Lemma document_nested_ind (P : document -> Prop) :
  (forall b, P (DBool b)) -> (forall s, P (DText s)) ->
  (forall items, Forall (fun kv => P kv.2) items -> P (DMap items)) -> forall d, P d.
Proof.
  intros Hb Hs Hm. fix go 1. intros [b|s|items]; [apply Hb|apply Hs|]. apply Hm.
  induction items as [|[key value] items IH]; constructor; [apply go|apply IH].
Qed.

(** [_flatten_document] *)
Definition flatten_document (data : document) : outcome exn mapping :=
  match data with
  | DMap _ => Return (flatten_value [] "" data)
  | _ => Raise (mk_exn ValueError NoInfo)
  end.

(** What reading a file or a directory raises: [OSError], or [UnicodeDecodeError],
    a [ValueError], when a file is no text. *)
Inductive file_error : Type := Unreadable | NotText.

Definition read_error {A} (o : outcome file_error A) : outcome exn A :=
  match o with
  | Return a => Return a
  | Raise Unreadable => Raise (mk_exn OSError NoInfo)
  | Raise NotText => Raise (mk_exn ValueError NoInfo)
  end.

(** What is at a path: nothing, a directory with its entries in the order of
    [iterdir] ([None] when one is no file), or a file with its name. *)
Inductive disk : Type :=
  | Absent
  | Directory (entries : outcome file_error (list (string * option (outcome file_error string))))
  | File (name : string) (text : outcome file_error string).

(** [path.suffix] of a file name *)
Fixpoint last_dot (n : nat) (s : string) : option nat :=
  match s with
  | EmptyString => None
  | String c s =>
      match last_dot (S n) s with
      | Some i => Some i
      | None => if Ascii.eqb c "." then Some n else None
      end
  end.
Definition path_suffix (name : string) : string :=
  match last_dot 0 name with
  | Some i => if (0 <? Z.of_nat i) && (Z.of_nat i <? Z.of_nat (String.length name) - 1) then drop_chars i name else ""
  | None => ""
  end.

Section Files.
(** [json_loads], [_yaml_load] and [tomllib.loads] *)
Context (json_loads yaml_load toml_loads : string -> outcome exn document).

Definition outcome_bind {A B} (o : outcome exn A) (f : A -> outcome exn B) : outcome exn B :=
  match o with Return a => f a | Raise e => Raise e end.

(** The comprehension over the entries of a directory. *)
Fixpoint read_entries (result : mapping) (entries : list (string * option (outcome file_error string))) :
    outcome exn mapping :=
  match entries with
  | [] => Return result
  | (name, file) :: entries =>
      if String.prefix ".." name then read_entries result entries
      else
        match file with
        | None => read_entries result entries
        | Some text =>
            outcome_bind (read_error text) (fun text => read_entries (dict_set name (rstrip_of [line_feed] text) result) entries)
        end
  end.

(** [FileConfigAdapter._read] *)
Definition read_path (d : disk) : outcome exn mapping :=
  match d with
  | Directory entries => outcome_bind (read_error entries) (read_entries [])
  | Absent => Return []
  | File name text =>
      outcome_bind (read_error text) (fun text =>
        let suffix := path_suffix name in
        if String.eqb suffix ".json" then outcome_bind (json_loads text) flatten_document
        else if String.eqb suffix ".yaml" || String.eqb suffix ".yml" then outcome_bind (yaml_load text) flatten_document
        else if String.eqb suffix ".toml" then outcome_bind (toml_loads text) flatten_document
        else Return (parse_env text))
  end.

Record file_adapter : Type := mkFileAdapter { fa_last : option mapping; fa_loaded : bool }.

Definition new_file_adapter : file_adapter := mkFileAdapter None false.

(** [FileConfigAdapter.load] *)
Definition file_load (d : disk) (a : file_adapter) : outcome exn (option mapping) * file_adapter :=
  match read_path d with
  | Raise e => (Raise e, a)
  | Return current =>
      if fa_loaded a && bool_decide (Some (as_map current) = as_map <$> fa_last a)
      then (Return None, a)
      else (Return (Some current), mkFileAdapter (Some current) true)
  end.
End Files.

(** ** Sources *)

(** [_detect_scheme] *)
Definition str_endswith (suffix s : string) : bool :=
  String.eqb (drop_chars (String.length s - String.length suffix) s) suffix.
Definition _detect_scheme (text : string) : string :=
  let low := lower text in
  if String.prefix "http://" low || String.prefix "https://" low then "http"
  else if String.prefix "git@" low || String.prefix "git+" low || String.prefix "ssh://" low
          || str_endswith ".git" low then "git"
  else "file".

(** [_coerce_source]: a string or a path names an adapter, anything else is one. *)
Definition _coerce_source {A} (file_adapter : string -> A) (load_adapter : string -> string -> outcome exn A)
    (value : string + A) : outcome exn A :=
  match value with
  | inl text =>
      let scheme := _detect_scheme text in
      if String.eqb scheme "file" then Return (file_adapter text) else load_adapter scheme text
  | inr backend => Return backend
  end.

(** [ConfigBackend]: [load] in a state of the world. *)
Class ConfigBackend (W S : Type) : Type := {
  load : W -> S -> outcome exn (option mapping) * S;
}.

(** What the protocol promises: [source_content] is what the world holds for the
    source ([None] when it cannot be read), [source_seen] what the source
    returned last.  [load] returns the content, or [None] when it is what was
    returned last, or raises an exception that leaves what was seen. *)
Class ConfigBackendLaws (W S : Type) {B : ConfigBackend W S} : Type := {
  source_content : W -> option mapping;
  source_seen : S -> option mapping;
  load_unreadable w s : source_content w = None ->
    exists e s', load w s = (Raise e, s') /\ is_exception e = true /\ source_seen s' = source_seen s;
  load_readable w s m : source_content w = Some m ->
    (exists s', source_seen s' = Some m /\ load w s = (Return (Some m), s')) \/
    (exists s' m', source_seen s = Some m' /\ source_seen s' = Some m' /\ as_map m' = as_map m /\
      load w s = (Return None, s'));
  source_keys w m : source_content w = Some m -> dict_wf m;
}.

Section External.
Context {W S C : Type} {B : ConfigBackend W S} `{EqDecision C}.

(** The state of [ExternalConfig]. *)
Record external_config : Type := mkExternal {
  _config_src : option S;
  _secrets_src : option S;
  _config_data : option mapping;
  _secrets_data : option mapping;
}.

(** [ExternalConfig.__init__] *)
Definition new_external (config secrets : option S) : outcome exn external_config :=
  match config, secrets with
  | None, None => Raise (mk_exn ValueError NoInfo)
  | _, _ => Return (mkExternal config secrets None None)
  end.

(** [_load_source] *)
Definition _load_source (w : W) (src : S) (last : option mapping) : outcome exn (option mapping) * S :=
  match load w src with
  | (Raise e, src) => (if is_exception e then Return last else Raise e, src)
  | (Return (Some data), src) => (Return (Some data), src)
  | (Return None, src) => (Return last, src)
  end.

(** The two [if] statements of [_load_merged]. *)
Definition load_config (w : W) (x : external_config) : outcome exn unit * external_config :=
  match _config_src x with
  | None => (Return tt, x)
  | Some src =>
      match _load_source w src (_config_data x) with
      | (Raise e, src) => (Raise e, mkExternal (Some src) (_secrets_src x) (_config_data x) (_secrets_data x))
      | (Return data, src) => (Return tt, mkExternal (Some src) (_secrets_src x) data (_secrets_data x))
      end
  end.
Definition load_secrets (w : W) (x : external_config) : outcome exn unit * external_config :=
  match _secrets_src x with
  | None => (Return tt, x)
  | Some src =>
      match _load_source w src (_secrets_data x) with
      | (Raise e, src) => (Raise e, mkExternal (_config_src x) (Some src) (_config_data x) (_secrets_data x))
      | (Return data, src) => (Return tt, mkExternal (_config_src x) (Some src) (_config_data x) data)
      end
  end.

(** [_load_merged]; each source has its own world. *)
Definition _load_merged (wc ws : W) (x : external_config) :
    outcome exn (option mapping) * external_config :=
  match load_config wc x with
  | (Raise e, x) => (Raise e, x)
  | (Return _, x) =>
      match load_secrets ws x with
      | (Raise e, x) => (Raise e, x)
      | (Return _, x) =>
          (Return (match _config_data x, _secrets_data x with
                   | None, None => None
                   | c, s => Some (dict_merge (default [] c) (default [] s))
                   end), x)
      end
  end.

(** [reload], with the live instances. *)
Definition reload (wc ws : W) (x : external_config) (l : list (@live_instance C)) :
    outcome exn unit * external_config * list (@live_instance C) :=
  match _load_merged wc ws x with
  | (Raise e, x) => (Raise e, x, l)
  | (Return None, x) => (Return tt, x, l)
  | (Return (Some merged), x) => let '(r, l) := reconfigure_all merged l in (r, x, l)
  end.

(** [_poll], one turn per world: an exception ends the task. *)
Fixpoint _poll (worlds : list (W * W)) (x : external_config) (l : list (@live_instance C)) :
    outcome exn unit * external_config * list (@live_instance C) :=
  match worlds with
  | [] => (Return tt, x, l)
  | (wc, ws) :: worlds =>
      match reload wc ws x l with
      | (Raise e, x, l) => (Raise e, x, l)
      | (Return _, x, l) => _poll worlds x l
      end
  end.
End External.

(** ** The file adapter is a source *)

Section FileSource.
Context (json_loads yaml_load toml_loads : string -> outcome exn document).

(** A parser returns or raises an exception. *)
Definition parses (parser : string -> outcome exn document) : Prop :=
  forall text e, parser text = Raise e -> is_exception e = true.

Context (Hjson : parses json_loads) (Hyaml : parses yaml_load) (Htoml : parses toml_loads).

#[local] Instance file_backend : ConfigBackend disk file_adapter :=
  {| load := file_load json_loads yaml_load toml_loads |}.

Lemma read_error_exception {A} (o : outcome file_error A) e : read_error o = Raise e -> is_exception e = true.
Proof. by destruct o as [a|[]]; simpl; intros [= <-]. Qed.

Lemma flatten_document_exception d e : flatten_document d = Raise e -> is_exception e = true.
Proof. by destruct d; simpl; intros [= <-]. Qed.

Lemma outcome_bind_exception {A D} (o : outcome exn A) (f : A -> outcome exn D) e :
  (forall e, o = Raise e -> is_exception e = true) ->
  (forall a e, f a = Raise e -> is_exception e = true) ->
  outcome_bind o f = Raise e -> is_exception e = true.
Proof. intros H1 H2. destruct o as [a|e']; simpl; [apply H2|]. intros [= <-]. by apply H1. Qed.

Lemma read_entries_exception entries m e : read_entries m entries = Raise e -> is_exception e = true.
Proof.
  revert m e. induction entries as [|[name [text|]] entries IH]; intros m e; simpl; [done| |].
  - destruct (String.prefix ".." name); [apply IH|].
    apply outcome_bind_exception; [apply read_error_exception|]. intros a e'. apply IH.
  - destruct (String.prefix ".." name); apply IH.
Qed.

Lemma read_path_exception d e : read_path json_loads yaml_load toml_loads d = Raise e -> is_exception e = true.
Proof.
  destruct d as [|entries|name text]; simpl; [done| |].
  - apply outcome_bind_exception; [apply read_error_exception|]. intros l e'. apply read_entries_exception.
  - apply outcome_bind_exception; [apply read_error_exception|]. intros a e'.
    assert (forall parser, parses parser ->
      outcome_bind (parser a) flatten_document = Raise e' -> is_exception e' = true) as H.
    { intros parser Hp. apply outcome_bind_exception; [apply Hp|apply flatten_document_exception]. }
    destruct (String.eqb _ ".json"); [by apply H|]. destruct (_ || _); [by apply H|].
    destruct (String.eqb _ ".toml"); [by apply H|done].
Qed.

(** What a path holds; [None] when reading it raises. *)
Definition file_content (d : disk) : option mapping :=
  match read_path json_loads yaml_load toml_loads d with Return m => Some m | Raise _ => None end.

Lemma read_entries_wf entries m m' : dict_wf m -> read_entries m entries = Return m' -> dict_wf m'.
Proof.
  revert m. induction entries as [|[name [text|]] entries IH]; intros m Hm; simpl; [by intros [= <-]| |].
  - destruct (String.prefix ".." name); [by apply IH|].
    destruct (read_error text); [|done]. apply IH. by apply dict_set_wf.
  - destruct (String.prefix ".." name); by apply IH.
Qed.

Lemma flatten_value_wf data result name : dict_wf result -> dict_wf (flatten_value result name data).
Proof.
  revert result name. induction data as [b|s|items IH] using document_nested_ind; intros result name H; simpl;
    try by apply dict_set_wf.
  revert result H. induction IH as [|[key value] items Hv _ IH]; intros result H; simpl; [done|].
  by apply IH, Hv.
Qed.

Lemma parse_env_wf text : dict_wf (parse_env text).
Proof.
  unfold parse_env. generalize (splitlines text) as lines. intros lines.
  assert (forall m, dict_wf m -> dict_wf (foldl parse_env_line m lines)) as H; [|apply H, dict_wf_nil].
  induction lines as [|l lines IH]; intros m Hm; simpl; [done|]. apply IH.
  unfold parse_env_line. destruct (_ || _); [done|].
  destruct (partition "=" (py_strip l)) as [[k found] v]. by apply dict_set_wf.
Qed.

Lemma flatten_document_wf d m : flatten_document d = Return m -> dict_wf m.
Proof. destruct d as [| |items]; [done|done|]. intros [= <-]. apply (flatten_value_wf (DMap items)), dict_wf_nil. Qed.

Lemma file_content_wf d m : file_content d = Some m -> dict_wf m.
Proof.
  unfold file_content. destruct (read_path _ _ _ d) as [m'|] eqn:E; [|done]. intros [= ->].
  revert E. destruct d as [|entries|name text]; simpl.
  - intros [= <-]. apply dict_wf_nil.
  - destruct (read_error entries); [|done]. apply read_entries_wf, dict_wf_nil.
  - destruct (read_error text) as [a|]; [|done]. simpl.
    assert (forall parser : string -> outcome exn document,
      outcome_bind (parser a) flatten_document = Return m -> dict_wf m) as H.
    { intros parser. destruct (parser a); [|done]. apply flatten_document_wf. }
    destruct (String.eqb _ ".json"); [apply H|]. destruct (_ || _); [apply H|].
    destruct (String.eqb _ ".toml"); [apply H|]. intros [= <-]. apply parse_env_wf.
Qed.

Lemma file_load_unreadable d a : file_content d = None ->
  exists e a', load d a = (Raise e, a') /\ is_exception e = true /\ fa_last a' = fa_last a.
Proof.
  unfold file_content, load, file_backend, file_load.
  destruct (read_path _ _ _ d) as [m|e] eqn:E; [done|]. intros _. exists e, a.
  split; [done|]. split; [by eapply read_path_exception|done].
Qed.

Lemma file_load_readable d a m : file_content d = Some m ->
  (exists a', fa_last a' = Some m /\ load d a = (Return (Some m), a')) \/
  (exists a' m', fa_last a = Some m' /\ fa_last a' = Some m' /\ as_map m' = as_map m /\
     load d a = (Return None, a')).
Proof.
  unfold file_content, load, file_backend, file_load.
  destruct (read_path _ _ _ d) as [m'|e] eqn:E; [|done]. intros [= ->].
  destruct (fa_loaded a && _) eqn:El; [right|left; by exists (mkFileAdapter (Some m) true)].
  apply andb_prop in El as [_ El]. apply bool_decide_eq_true in El.
  destruct (fa_last a) as [m'|] eqn:Ea; [|done]. injection El as El. by exists a, m'.
Qed.

#[local] Instance file_backend_laws : ConfigBackendLaws disk file_adapter :=
  {| source_content := file_content; source_seen := fa_last;
     load_unreadable := file_load_unreadable; load_readable := file_load_readable; source_keys := file_content_wf |}.
End FileSource.

(** ** The last good configuration *)

(** The content of the last readable world. *)
Definition last_good {W} (content : W -> option mapping) (worlds : list W) : option mapping :=
  last (omap content worlds).

Lemma last_good_app {W} (content : W -> option mapping) ws w :
  last_good content (ws ++ [w]) = match content w with Some m => Some m | None => last_good content ws end.
Proof.
  unfold last_good. rewrite omap_app. simpl. destruct (content w); [by rewrite last_snoc|by rewrite app_nil_r].
Qed.

Lemma as_map_set k v m : as_map (dict_set k v m) = <[k := v]> (as_map m).
Proof.
  induction m as [|[k' v'] m IH]; simpl; [done|]. case_decide as E; simpl.
  - subst k'. by rewrite insert_insert_eq.
  - rewrite IH. by rewrite insert_insert_ne.
Qed.

Lemma as_map_none k m : k ∉ m.*1 -> as_map m !! k = None.
Proof. apply not_elem_of_list_to_map_1. Qed.

Lemma dict_merge_map a b : dict_wf b -> as_map (dict_merge a b) = as_map b ∪ as_map a.
Proof.
  unfold dict_merge, dict_wf. revert a. induction b as [|[k v] b IH]; intros a; simpl.
  { intros _. unfold as_map at 2. simpl. by rewrite (left_id_L ∅ (∪)). }
  intros [Hk Hb]%NoDup_cons. rewrite IH by done. rewrite as_map_set.
  rewrite <- insert_union_r by (by apply as_map_none). by rewrite <- insert_union_l.
Qed.

Section Tracks.
Context {W S C : Type} {B : ConfigBackend W S} {L : ConfigBackendLaws W S} `{EqDecision C}.
Implicit Types (x : @external_config S) (worlds : list (W * W)) (l : list (@live_instance C)).

(** What the component holds for a source after its worlds. *)
Definition tracked (contents : list W) (src : option S) (data : option mapping) : Prop :=
  match src with
  | None => data = None
  | Some s => source_seen s = data /\ as_map <$> data = as_map <$> last_good source_content contents /\
      (forall m, data = Some m -> dict_wf m)
  end.

Lemma load_source_tracked contents w s data : tracked contents (Some s) data ->
  exists data' s', _load_source w s data = (Return data', s') /\ tracked (contents ++ [w]) (Some s') data'.
Proof.
  intros (Hs & Hd & Hw). unfold _load_source, tracked. rewrite last_good_app.
  destruct (source_content w) as [m|] eqn:E.
  - destruct (load_readable w s m E) as [(s' & H1 & ->)|(s' & m' & H1 & H2 & H3 & ->)].
    + exists (Some m), s'. split; [done|]. split; [done|]. split; [done|].
      intros m' [= <-]. by eapply source_keys.
    + exists data, s'. split; [done|]. split; [congruence|]. split; [|done]. rewrite <- Hs, H1. simpl. by rewrite H3.
  - destruct (load_unreadable w s E) as (e & s' & -> & He & Hs'). rewrite He.
    exists data, s'. split; [done|]. split; [congruence|done].
Qed.

(** The worlds' last good contents, secrets over configuration; [None] when no
    source was ever readable. *)
Definition good_of (src : option S) (contents : list W) : option (gmap string string) :=
  match src with None => None | Some _ => as_map <$> last_good source_content contents end.
Definition good_merged (x : @external_config S) worlds : option (gmap string string) :=
  match good_of (_config_src x) worlds.*1, good_of (_secrets_src x) worlds.*2 with
  | None, None => None
  | c, s => Some (default ∅ s ∪ default ∅ c)
  end.

Definition tracks worlds x : Prop :=
  tracked worlds.*1 (_config_src x) (_config_data x) /\ tracked worlds.*2 (_secrets_src x) (_secrets_data x).

Definition same_sources x x' : Prop :=
  (is_Some (_config_src x) <-> is_Some (_config_src x')) /\
  (is_Some (_secrets_src x) <-> is_Some (_secrets_src x')).

Lemma tracked_good contents src data : tracked contents src data -> as_map <$> data = good_of src contents.
Proof. destruct src as [s|]; [by intros (_ & H & _)|]. by intros ->. Qed.

Lemma tracked_wf contents src data m : tracked contents src data -> data = Some m -> dict_wf m.
Proof. destruct src as [s|]; [intros (_ & _ & H); apply H|]. by intros ->. Qed.

Lemma good_of_presence src src' contents : is_Some src <-> is_Some src' -> good_of src contents = good_of src' contents.
Proof. destruct src, src'; simpl; try done; intros [H1 H2]; [by destruct (H1 (ltac:(by eexists)))|by destruct (H2 (ltac:(by eexists)))]. Qed.

Lemma good_merged_same x x' worlds : same_sources x x' -> good_merged x worlds = good_merged x' worlds.
Proof. intros [Hc Hs]. unfold good_merged. by rewrite (good_of_presence _ _ _ Hc), (good_of_presence _ _ _ Hs). Qed.

Lemma load_config_tracks contents wc x : tracked contents (_config_src x) (_config_data x) ->
  exists x', load_config wc x = (Return tt, x') /\ same_sources x x' /\
    _secrets_src x' = _secrets_src x /\ _secrets_data x' = _secrets_data x /\
    tracked (contents ++ [wc]) (_config_src x') (_config_data x').
Proof.
  intros Hc. unfold load_config, same_sources. destruct (_config_src x) as [s|] eqn:E.
  - destruct (load_source_tracked _ wc _ _ Hc) as (d & s' & -> & H). eexists. split; [done|]. simpl.
    split; [|done]. split; [|done]. by split; eexists.
  - exists x. by rewrite E.
Qed.

Lemma load_secrets_tracks contents ws x : tracked contents (_secrets_src x) (_secrets_data x) ->
  exists x', load_secrets ws x = (Return tt, x') /\ same_sources x x' /\
    _config_src x' = _config_src x /\ _config_data x' = _config_data x /\
    tracked (contents ++ [ws]) (_secrets_src x') (_secrets_data x').
Proof.
  intros Hs. unfold load_secrets, same_sources. destruct (_secrets_src x) as [s|] eqn:E.
  - destruct (load_source_tracked _ ws _ _ Hs) as (d & s' & -> & H). eexists. split; [done|]. simpl.
    split; [|done]. split; [done|]. by split; eexists.
  - exists x. by rewrite E.
Qed.

Lemma load_merged_tracks worlds wc ws x : tracks worlds x ->
  exists m x', _load_merged wc ws x = (Return m, x') /\ same_sources x x' /\ tracks (worlds ++ [(wc, ws)]) x' /\
    as_map <$> m = good_merged x (worlds ++ [(wc, ws)]).
Proof.
  intros [Hc Hs]. unfold _load_merged.
  destruct (load_config_tracks _ wc x Hc) as (x1 & -> & H1 & E1 & E2 & Hc1).
  rewrite <- E1, <- E2 in Hs.
  destruct (load_secrets_tracks _ ws x1 Hs) as (x2 & -> & H2 & E3 & E4 & Hs2).
  rewrite <- E3, <- E4 in Hc1. eexists _, x2. split; [done|].
  assert (same_sources x x2) as H by (unfold same_sources in *; tauto). split; [done|].
  assert (tracks (worlds ++ [(wc, ws)]) x2) as Ht by (unfold tracks; by rewrite !fmap_app). split; [done|].
  rewrite (good_merged_same _ _ _ H). unfold good_merged. destruct Ht as [Hc2 Hs3].
  rewrite <- (tracked_good _ _ _ Hc2), <- (tracked_good _ _ _ Hs3).
  destruct (_config_data x2) as [c|], (_secrets_data x2) as [s|] eqn:Es; [| | |done].
  all: cbn [fmap option_fmap option_map default]; rewrite dict_merge_map; [done|].
  1,3: by eapply tracked_wf. apply dict_wf_nil.
Qed.

(** The worlds of a poll loop, one after the other. *)
Definition after_loads worlds x : @external_config S :=
  foldl (fun x w => (_load_merged w.1 w.2 x).2) x worlds.

Lemma after_loads_tracks worlds x : tracks [] x ->
  tracks worlds (after_loads worlds x) /\ same_sources x (after_loads worlds x).
Proof.
  intros H0. induction worlds as [|[wc ws] worlds IH] using rev_ind; [done|].
  destruct IH as [Ht Hs]. unfold after_loads in *. rewrite foldl_snoc. simpl.
  destruct (load_merged_tracks worlds wc ws _ Ht) as (m & x' & -> & H1 & H2 & _).
  split; [done|]. simpl. unfold same_sources in *. tauto.
Qed.

(** Sources that have not been loaded yet. *)
Definition unloaded (src : option S) : Prop := match src with Some s => source_seen s = None | None => True end.

Lemma fresh_tracks config secrets : unloaded config -> unloaded secrets ->
  tracks [] (mkExternal config secrets None None).
Proof. intros Hc Hs. unfold tracks. simpl. destruct config, secrets; by repeat split. Qed.

(** C33 (refinement): with any sources that keep the protocol, whatever they hold at
    each poll and whichever polls fail, what [_load_merged] returns next is what
    each source held the last time it was readable, a secret winning over a
    configuration value of the same name; nothing as long as no source was ever
    readable.  The sources' detection of changes and the failures never show, and
    no exception comes out. *)
Theorem external_config_is_the_last_good : forall config secrets x worlds wc ws,
  unloaded config -> unloaded secrets -> new_external config secrets = Return x ->
  exists m x', _load_merged wc ws (after_loads worlds x) = (Return m, x') /\
    as_map <$> m = good_merged x (worlds ++ [(wc, ws)]).
Proof.
  intros config secrets x worlds wc ws Hc Hs Hx.
  assert (x = mkExternal config secrets None None) as E by (by destruct config, secrets; simplify_eq/=).
  pose proof (fresh_tracks config secrets Hc Hs) as H. rewrite <- E in H.
  destruct (after_loads_tracks worlds x H) as [Ht Hsame].
  destruct (load_merged_tracks worlds wc ws _ Ht) as (m & x' & -> & _ & _ & Hm).
  exists m, x'. split; [done|]. by rewrite Hm, (good_merged_same _ _ _ Hsame).
Qed.

(** Every instance rejects values by [ValueError] or [TypeError], and still does. *)
Lemma reconfigure_one_rejects m (i : @live_instance C) : rejects_by_value i -> rejects_by_value (reconfigure_one m i).2.
Proof. intros H. destruct (reconfigure_one_config m i) as [->|(p & c & _ & _ & _ & _ & ->)]; exact H. Qed.

Lemma reload_tracks worlds wc ws x l : tracks worlds x -> Forall rejects_by_value l ->
  exists x' l', reload wc ws x l = (Return tt, x', l') /\ same_sources x x' /\
    tracks (worlds ++ [(wc, ws)]) x' /\ Forall rejects_by_value l' /\
    match good_merged x (worlds ++ [(wc, ws)]) with
    | None => l' = l
    | Some g => exists m, as_map m = g /\ l' = map (fun i => (reconfigure_one m i).2) l
    end.
Proof.
  intros Ht Hl. unfold reload. destruct (load_merged_tracks worlds wc ws x Ht) as (m & x' & -> & H1 & H2 & <-).
  destruct m as [m|]; simpl; [|by exists x', l].
  rewrite reconfigure_all_each by done. eexists x', _. do 3 (split; [done|]). split; [|by exists m].
  apply Forall_map. eapply Forall_impl; [exact Hl|]. intros i. apply reconfigure_one_rejects.
Qed.

Lemma poll_tracks done_ worlds x l : tracks done_ x -> Forall rejects_by_value l ->
  exists x' l', _poll worlds x l = (Return tt, x', l') /\ same_sources x x' /\
    tracks (done_ ++ worlds) x' /\ Forall rejects_by_value l'.
Proof.
  revert done_ x l. induction worlds as [|[wc ws] worlds IH]; intros done_ x l Ht Hl; simpl.
  { exists x, l. by rewrite app_nil_r. }
  destruct (reload_tracks done_ wc ws x l Ht Hl) as (x1 & l1 & -> & H1 & H2 & H3 & _).
  destruct (IH _ x1 l1 H2 H3) as (x' & l' & -> & H4 & H5 & H6). exists x', l'.
  split; [done|]. rewrite <- app_assoc in H5. split; [unfold same_sources in *; tauto|done].
Qed.

(** (liveness): the poll loop survives every poll: whatever the sources hold and
    however they fail, no number of polls ends the task, and the next one patches
    every live instance with the last good contents, each as if it were alone, or
    leaves them all as long as no source was ever readable. *)
Lemma polls_never_stop : forall config secrets x l worlds wc ws,
  unloaded config -> unloaded secrets -> new_external config secrets = Return x -> Forall rejects_by_value l ->
  exists x' l' x'' l'', _poll worlds x l = (Return tt, x', l') /\ reload wc ws x' l' = (Return tt, x'', l'') /\
    match good_merged x (worlds ++ [(wc, ws)]) with
    | None => l'' = l'
    | Some g => exists m, as_map m = g /\ l'' = map (fun i => (reconfigure_one m i).2) l'
    end.
Proof.
  intros config secrets x l worlds wc ws Hc Hs Hx Hl.
  assert (x = mkExternal config secrets None None) as E by (by destruct config, secrets; simplify_eq/=).
  pose proof (fresh_tracks config secrets Hc Hs) as H. rewrite <- E in H.
  destruct (poll_tracks [] worlds x l H Hl) as (x' & l' & -> & H1 & H2 & H3). simpl in H2.
  destruct (reload_tracks worlds wc ws x' l' H2 H3) as (x'' & l'' & Hr & _ & _ & _ & H4).
  rewrite <- (good_merged_same _ _ _ H1) in H4. by exists x', l', x'', l''.
Qed.
End Tracks.

(** ** Env files *)

(** The lines of a [.env] file: blank, a comment, or a pair with its value in
    double quotes. *)
Inductive env_line : Type :=
  | Blank (spaces : string)
  | Comment (spaces text : string)
  | Pair (key value : string).

Definition render_line (l : env_line) : string :=
  match l with
  | Blank spaces => spaces
  | Comment spaces text => spaces +:+ String "#" text
  | Pair key value => key +:+ String "=" (String "034" (value +:+ String "034" ""))
  end.

Fixpoint render_env (ls : list env_line) : string :=
  match ls with
  | [] => ""
  | l :: ls => render_line l +:+ String line_feed (render_env ls)
  end.

Definition env_pairs (ls : list env_line) : mapping :=
  omap (fun l => match l with Pair key value => Some (key, value) | _ => None end) ls.

Definition unbroken : string -> bool := string_forall (fun c => negb (is_break c)).
Definition spaces_only (s : string) : bool := string_forall is_space s && unbroken s.

(** A key without [=], line breaks, spaces around it, or [#] in front; a value
    without line breaks and without quotes around it. *)
Definition line_ok (l : env_line) : Prop :=
  match l with
  | Blank spaces => spaces_only spaces = true
  | Comment spaces text => spaces_only spaces = true /\ unbroken text = true
  | Pair key value =>
      unbroken key = true /\ free_of "=" key = true /\ py_strip key = key /\ String.prefix "#" key = false /\
      unbroken value = true /\ lstrip_of quotes value = value /\ rstrip_of quotes value = value
  end.

Lemma splitlines_line a s : unbroken a = true ->
  splitlines (a +:+ String line_feed s) = a :: splitlines s.
Proof.
  unfold unbroken. induction a as [|c a IH]; intros H.
  - cbn. by destruct s.
  - change (String c a +:+ String line_feed s) with (String c (a +:+ String line_feed s)).
    cbn [string_forall] in H. apply andb_prop in H as [Hc Ha]. apply negb_true_iff in Hc.
    cbn [splitlines]. by rewrite Hc, IH.
Qed.

Lemma drop_spaces_app a c s : string_forall is_space a = true -> is_space c = false ->
  drop_spaces (a +:+ String c s) = String c s.
Proof.
  intros Ha Hc. induction a as [|d a IH]; [change (drop_spaces (String c s) = String c s); cbn [drop_spaces]; by rewrite Hc|].
  change (String d a +:+ String c s) with (String d (a +:+ String c s)).
  cbn [string_forall] in Ha. apply andb_prop in Ha as [Hd Ha]. cbn [drop_spaces]. rewrite Hd. by apply IH.
Qed.

Lemma strip_spaces a : string_forall is_space a = true -> py_strip a = ""%string.
Proof.
  intros Ha. unfold py_strip. replace (drop_spaces a) with ""%string; [done|].
  induction a as [|d a IH]; [done|]. cbn [string_forall] in Ha. apply andb_prop in Ha as [Hd Ha].
  cbn [drop_spaces]. rewrite Hd. by apply IH.
Qed.

Lemma drop_trailing_last a c : is_space c = false ->
  drop_trailing_spaces (a +:+ String c "") = a +:+ String c "".
Proof.
  intros Hc. induction a as [|d a IH]; [change (drop_trailing_spaces (String c "") = String c ""); cbn [drop_trailing_spaces]; by rewrite Hc|].
  change (String d a +:+ String c "") with (String d (a +:+ String c "")).
  cbn [drop_trailing_spaces]. rewrite IH. by destruct a.
Qed.

Lemma drop_spaces_length s : (String.length (drop_spaces s) <= String.length s)%nat.
Proof. induction s as [|c s IH]; simpl; [done|]. destruct (is_space c); simpl; lia. Qed.

Lemma drop_trailing_length s : (String.length (drop_trailing_spaces s) <= String.length s)%nat.
Proof.
  induction s as [|c s IH]; simpl; [done|]. destruct (drop_trailing_spaces s); [destruct (is_space c)|]; simpl in *; lia.
Qed.

Lemma stripped_head c s : py_strip (String c s) = String c s -> is_space c = false.
Proof.
  intros H. destruct (is_space c) eqn:E; [|done]. exfalso.
  assert (String.length (py_strip (String c s)) <= String.length s)%nat.
  { unfold py_strip. cbn [drop_spaces]. rewrite E.
    pose proof (drop_trailing_length (drop_spaces s)). pose proof (drop_spaces_length s). lia. }
  rewrite H in H0. simpl in H0. lia.
Qed.

Lemma rstrip_of_last chars a c : c ∈ chars -> rstrip_of chars (a +:+ String c "") = rstrip_of chars a.
Proof.
  intros Hc. induction a as [|d a IH]; [change (rstrip_of chars (String c "") = ""%string); cbn [rstrip_of]; by rewrite decide_True|].
  change (String d a +:+ String c "") with (String d (a +:+ String c "")). cbn [rstrip_of]. by rewrite IH.
Qed.

Lemma lstrip_of_app chars c a s : lstrip_of chars (String c a) = String c a ->
  lstrip_of chars (String c a +:+ s) = String c a +:+ s.
Proof.
  change (String c a +:+ s) with (String c (a +:+ s)). cbn [lstrip_of]. destruct (decide (c ∈ chars)); [|done].
  intros H. exfalso. assert (forall t, (String.length (lstrip_of chars t) <= String.length t)%nat) as Hl.
  { induction t as [|d t IH]; cbn [lstrip_of]; [done|]. case_decide; simpl; lia. }
  specialize (Hl a). rewrite H in Hl. simpl in Hl. lia.
Qed.

Lemma quoted_strip v : lstrip_of quotes v = v -> rstrip_of quotes v = v ->
  strip_of quotes (String "034" (v +:+ String "034" "")) = v.
Proof.
  intros Hl Hr. unfold strip_of. cbn [lstrip_of]. rewrite decide_True by (by left).
  destruct v as [|c v]; [done|]. rewrite lstrip_of_app by done. by rewrite rstrip_of_last by (by left).
Qed.

Lemma parse_pair m key value : line_ok (Pair key value) ->
  parse_env_line m (render_line (Pair key value)) = dict_set key value m.
Proof.
  intros (_ & Hf & Hk & Hp & _ & Hl & Hr). unfold parse_env_line. cbn [render_line].
  set (v := String "034" (value +:+ String "034" "")).
  assert (py_strip v = v) as Hv.
  { unfold py_strip, v. cbn [drop_spaces]. change (is_space "034") with false. cbv iota.
    by apply (drop_trailing_last (String "034" value)). }
  assert (py_strip (key +:+ String "=" v) = key +:+ String "=" v) as ->.
  { unfold py_strip. replace (drop_spaces (key +:+ String "=" v)) with (key +:+ String "=" v).
    - unfold v. replace (key +:+ String "=" (String "034" (value +:+ String "034" "")))
        with ((key +:+ String "=" (String "034" value)) +:+ String "034" "") by (by rewrite append_assoc).
      by apply drop_trailing_last.
    - destruct key as [|c key]; [done|]. apply stripped_head in Hk.
      change (String c key +:+ String "=" v) with (String c (key +:+ String "=" v)). cbn [drop_spaces]. by rewrite Hk. }
  assert (contains "=" (key +:+ String "=" v) = true) as -> by (apply contains_spec; by exists key, v).
  assert (String.eqb (key +:+ String "=" v) "" = false) as -> by (by destruct key).
  assert (String.prefix "#" (key +:+ String "=" v) = false) as ->.
  { destruct key as [|c key]; [done|]. change (String.prefix "#" (String c (key +:+ String "=" v)) = false).
    cbn [String.prefix] in Hp |- *. destruct (ascii_dec "#" c); [by destruct key|done]. }
  simpl. rewrite partition_app by done. rewrite Hv, Hk. unfold v. by rewrite quoted_strip.
Qed.

Lemma parse_line m l : line_ok l ->
  parse_env_line m (render_line l) = match l with Pair key value => dict_set key value m | _ => m end.
Proof.
  destruct l as [spaces|spaces text|key value]; [| |by apply parse_pair].
  - intros [H _]%andb_prop. unfold parse_env_line. simpl. by rewrite strip_spaces.
  - intros [[H _]%andb_prop _]. unfold parse_env_line, py_strip. cbn [render_line].
    rewrite drop_spaces_app by done. cbn [drop_trailing_spaces].
    assert (forall t, String.prefix "#" (String "#" t) = true) as Hh by (intros t; apply string_prefix_spec; by exists t).
    destruct (drop_trailing_spaces text) as [|d t].
    + done.
    + by rewrite Hh, orb_true_r.
Qed.

Lemma render_line_unbroken l : line_ok l -> unbroken (render_line l) = true.
Proof.
  unfold unbroken. destruct l as [spaces|spaces text|key value]; cbn [render_line line_ok].
  - by intros [_ H]%andb_prop.
  - intros [[_ H]%andb_prop Ht]. rewrite string_forall_app. cbn. unfold unbroken in *. by rewrite H, Ht.
  - intros (H1 & _ & _ & _ & H2 & _). unfold unbroken in *. rewrite string_forall_app, H1. cbn.
    rewrite string_forall_app, H2. done.
Qed.

(** (roundtrip): a [.env] file of blank lines, comments and quoted values reads
    as exactly its pairs, the last of a repeated key winning: quotes keep the
    spaces, the [=] and the [#] of a value. *)
Lemma env_file_round_trip : forall ls, Forall line_ok ls ->
  parse_env (render_env ls) = dict_merge [] (env_pairs ls).
Proof.
  intros ls H. unfold parse_env, dict_merge. generalize (@nil (string * string)) as m.
  induction H as [|l ls Hl _ IH]; intros m; [done|]. cbn [render_env].
  rewrite splitlines_line by (by apply render_line_unbroken). cbn [foldl]. rewrite parse_line by done.
  unfold env_pairs. cbn [omap list_omap]. destruct l; apply IH.
Qed.

(** ** Examples *)

Definition no_parser (text : string) : outcome exn document := Raise (mk_exn ValueError NoInfo).
Lemma no_parser_parses : parses no_parser.
Proof. by intros text e [= <-]. Qed.

#[local] Instance demo_backend : ConfigBackend disk file_adapter := file_backend no_parser no_parser no_parser.
#[local] Instance demo_laws : ConfigBackendLaws disk file_adapter :=
  file_backend_laws no_parser no_parser no_parser no_parser_parses no_parser_parses no_parser_parses.

Definition demo_mount (lease : string) : disk :=
  Directory (Return [("..data"%string, None); ("GREL_LOCK_A_LEASE_DURATION"%string, Some (Return (lease +:+ String line_feed "")))]).
Definition demo_secrets : disk :=
  File "secrets.env" (Return (render_env [Comment "" " rotated"; Pair "GREL_LOCK_B_LEASE_DURATION" "9"])).
Definition demo_external : external_config :=
  mkExternal (Some new_file_adapter) (Some new_file_adapter) None None.

Lemma external_config_is_the_last_good_witness :
  let worlds := [(demo_mount "8", Absent); (Directory (Raise Unreadable), demo_secrets); (demo_mount "8", demo_secrets)] in
  exists m x', _load_merged (Directory (Raise Unreadable)) (File "secrets.env" (Raise NotText))
      (after_loads worlds demo_external) = (Return m, x') /\
    as_map <$> m = Some {["GREL_LOCK_A_LEASE_DURATION"%string := "8"%string; "GREL_LOCK_B_LEASE_DURATION"%string := "9"%string]}.
Proof.
  intros worlds. assert (unloaded (Some new_file_adapter)) as Hf by done. destruct (external_config_is_the_last_good (Some new_file_adapter) (Some new_file_adapter)
    demo_external worlds (Directory (Raise Unreadable)) (File "secrets.env" (Raise NotText))
    Hf Hf eq_refl) as (m & x' & E & Hm).
  exists m, x'. split; [exact E|]. rewrite Hm. vm_compute. reflexivity.
Defined.

Lemma polls_never_stop_witness :
  let l := [demo_instance "GREL_LOCK_A_" 0; demo_instance "GREL_LOCK_B_" 9] in
  let worlds := [(demo_mount "x", Absent); (Directory (Raise Unreadable), demo_secrets)] in
  (_poll worlds demo_external l).1.1 = Return tt /\
  map in_config (_poll (worlds ++ [(demo_mount "8", demo_secrets)]) demo_external l).2 = [8; 5].
Proof.
  intros l worlds. assert (Forall rejects_by_value l) as Hl by (repeat constructor; apply demo_instance_rejects).
  assert (unloaded (Some new_file_adapter)) as Hf by done.
  destruct (polls_never_stop (Some new_file_adapter) (Some new_file_adapter) demo_external l worlds
    (demo_mount "8") demo_secrets Hf Hf eq_refl Hl) as (x' & l' & x'' & l'' & -> & _).
  split; [reflexivity|vm_compute; reflexivity].
Defined.

Lemma env_file_round_trip_witness :
  let ls := [Comment " " " a = b"; Blank " "; Pair "GREL_X" " a=#b "; Pair "GREL_X" "it's"] in
  parse_env (render_env ls) = [("GREL_X"%string, "it's"%string)].
Proof.
  intros ls. rewrite (env_file_round_trip ls); [reflexivity|].
  repeat constructor.
Defined.

(** A lock was reconfigured by hand after the sources were applied; they do not
    change, and the next poll puts the file's value back. *)
Theorem unchanged_sources_revert_a_reconfigure :
  let l := [demo_instance "GREL_LOCK_A_" 0] in
  let '(_, x, l1) := reload (demo_mount "8") Absent demo_external l in
  let l2 := map (fun i => (reconfigure_live 30 i).2) l1 in
  (load (demo_mount "8") (default new_file_adapter (_config_src x))).1 = Return None /\
  (load Absent (default new_file_adapter (_secrets_src x))).1 = Return None /\
  map in_config l2 = [30] /\ map in_config (reload (demo_mount "8") Absent x l2).2 = [8].
Proof. vm_compute. repeat split. Qed.
