(* ===== verification/Redis.v ===== *)
(** * A Redis server

    What the Redis adapters rely on.  The server is not code of the repository: it
    is a parameter, an instance of the class [RedisServer] of its commands, and
    [RedisLaws] is what its documentation says of them, in terms of
    [redis_view], what a key holds at an instant when no further command arrives.
    A Lua script runs alone, at one reading of the server's clock, so a script is a
    function of that reading and the server.  [store_server] is a concrete server
    with these laws.

    A number that a script or a client passes to a command is written with 17
    digits, which [tonumber] reads back as the same double, so a cell holds a text or
    a number.  Losing data, in a failover or for want of memory, is not modelled. *)

From S2P Require Import Prelude Errors PyStr.
From Stdlib Require Import Ascii String.

Local Open Scope Z_scope.

(** [redis.exceptions.ResponseError] *)
Definition response_error : exn := mk_exn (UserError 1 Exception_) NoInfo.

Inductive cell : Type := Text (s : string) | Number (q : Q).

Inductive rvalue : Type :=
| RCell (c : cell)
| RHash (fields : gmap string cell)
| RSet (members : gset string).

(** The clock of expiries has whole milliseconds. *)
Definition redis_ms (now : Q) : Z := Qfloor (now * 1000).

Lemma redis_ms_mono a b : (a <= b)%Q -> redis_ms a <= redis_ms b.
Proof. intros H. apply Qfloor_resp_le. lra. Qed.

(** Operations in the order of the server's clock. *)
Fixpoint in_clock_order {A} (now : Q) (ops : list (A * Q)) : Prop :=
  match ops with
  | [] => True
  | (_, now') :: ops => (now <= now')%Q /\ in_clock_order now' ops
  end.

(** ** Commands *)

Class RedisServer (R : Type) : Type := {
  redis_view : R -> Q -> string -> option rvalue;
  redis_get : string -> Q -> R -> outcome exn (option cell) * R;
  redis_set : string -> cell -> option Z -> Q -> R -> outcome exn unit * R;
  redis_incr : string -> Q -> R -> outcome exn Z * R;
  redis_pexpire : string -> Z -> Q -> R -> outcome exn unit * R;
  redis_del : string -> Q -> R -> outcome exn unit * R;
  redis_hmget : string -> list string -> Q -> R -> outcome exn (list (option cell)) * R;
  redis_hset : string -> list (string * cell) -> Q -> R -> outcome exn unit * R;
  redis_hincrby : string -> string -> Z -> Q -> R -> outcome exn Z * R;
  redis_hdel : string -> list string -> Q -> R -> outcome exn unit * R;
  redis_persist : string -> Q -> R -> outcome exn unit * R;
  redis_sadd : string -> string -> Q -> R -> outcome exn unit * R;
  redis_srem : string -> string -> Q -> R -> outcome exn unit * R;
  redis_smembers : string -> Q -> R -> outcome exn (list string) * R;
  (* a whole iteration of [SSCAN], page by page *)
  redis_sscan : string -> Z -> Q -> R -> outcome exn (list (list string)) * R;
  redis_mget : list string -> Q -> R -> outcome exn (list (option cell)) * R;
  (* a whole iteration of [SCAN], and the patterns of its [MATCH] *)
  redis_scan : string -> Q -> R -> outcome exn (list string) * R;
  redis_matches : string -> string -> bool;
}.

(** [EXPIRE] and [EX] count seconds. *)
Definition seconds (s : Z) : Z := 1000 * s.

(** From [now] on the server differs at [key] alone, where it has [v]. *)
Definition redis_changed {R} `{RedisServer R} (key : string) (v : Q -> option rvalue) (now : Q) (r r' : R) : Prop :=
  forall t k, (now <= t)%Q -> redis_view r' t k = if decide (k = key) then v t else redis_view r t k.

Definition redis_unchanged {R} `{RedisServer R} (now : Q) (r r' : R) : Prop :=
  forall t k, (now <= t)%Q -> redis_view r' t k = redis_view r t k.

(** A value until the deadline has passed. *)
Definition lives_for (ms : Z) (now : Q) (v : option rvalue) (t : Q) : option rvalue :=
  if redis_ms t <=? redis_ms now + ms then v else None.

(** What is written keeps the deadline of what was there. *)
Definition keeps_deadline {R} `{RedisServer R} (r : R) (key : string) (now : Q) (v : rvalue) (t : Q) : option rvalue :=
  match redis_view r now key with
  | None => Some v
  | Some _ => match redis_view r t key with Some _ => Some v | None => None end
  end.

Definition hash_set (fields : list (string * cell)) (h : gmap string cell) : gmap string cell :=
  foldl (fun h f => <[f.1 := f.2]> h) h fields.

Definition hash_del (fields : list string) (h : gmap string cell) : gmap string cell :=
  foldl (fun h f => delete f h) h fields.

Class RedisLaws (R : Type) `{RedisServer R} : Prop := {
  view_expires : forall r now t key, (now <= t)%Q ->
    redis_view r t key = redis_view r now key \/ redis_view r t key = None;
  get_law : forall key now r, exists r', redis_unchanged now r r' /\
    redis_get key now r =
    (match redis_view r now key with
     | None => Return None
     | Some (RCell c) => Return (Some c)
     | Some _ => Raise response_error
     end, r');
  set_law : forall key c now r, exists r', redis_set key c None now r = (Return tt, r') /\
    redis_changed key (fun _ => Some (RCell c)) now r r';
  set_px_law : forall key c ms now r, 0 < ms ->
    exists r', redis_set key c (Some ms) now r = (Return tt, r') /\
    redis_changed key (lives_for ms now (Some (RCell c))) now r r';
  set_px_bad : forall key c ms now r, ms <= 0 ->
    exists r', redis_set key c (Some ms) now r = (Raise response_error, r') /\ redis_unchanged now r r';
  incr_law : forall key now r n,
    (redis_view r now key = None /\ n = 0) \/
    (exists s, redis_view r now key = Some (RCell (Text s)) /\ int_of_string s = Some n) ->
    exists r', redis_incr key now r = (Return (n + 1), r') /\
    redis_changed key (keeps_deadline r key now (RCell (Text (str (n + 1))))) now r r';
  pexpire_law : forall key ms now r, 0 < ms ->
    exists r', redis_pexpire key ms now r = (Return tt, r') /\
    redis_changed key (lives_for ms now (redis_view r now key)) now r r';
  del_law : forall key now r, exists r', redis_del key now r = (Return tt, r') /\
    redis_changed key (fun _ => None) now r r';
  hmget_law : forall key fields now r, exists r', redis_unchanged now r r' /\
    redis_hmget key fields now r =
    (match redis_view r now key with
     | None => Return (map (fun _ => None) fields)
     | Some (RHash h) => Return (map (fun f => h !! f) fields)
     | Some _ => Raise response_error
     end, r');
  hset_law : forall key fields now r h,
    redis_view r now key = None /\ h = ∅ \/ redis_view r now key = Some (RHash h) ->
    exists r', redis_hset key fields now r = (Return tt, r') /\
    redis_changed key (keeps_deadline r key now (RHash (hash_set fields h))) now r r';
  hincrby_law : forall key field d now r h n,
    redis_view r now key = None /\ h = ∅ \/ redis_view r now key = Some (RHash h) ->
    h !! field = None /\ n = 0 \/ h !! field = Some (Number (inject_Z n)) ->
    exists r', redis_hincrby key field d now r = (Return (n + d), r') /\
    redis_changed key (keeps_deadline r key now (RHash (<[field := Number (inject_Z (n + d))]> h))) now r r';
  hdel_law : forall key fields now r h,
    redis_view r now key = Some (RHash h) -> hash_del fields h <> ∅ ->
    exists r', redis_hdel key fields now r = (Return tt, r') /\
    redis_changed key (keeps_deadline r key now (RHash (hash_del fields h))) now r r';
  persist_law : forall key now r, exists r', redis_persist key now r = (Return tt, r') /\
    redis_changed key (fun _ => redis_view r now key) now r r';
  sadd_law : forall key member now r s,
    redis_view r now key = None /\ s = ∅ \/ redis_view r now key = Some (RSet s) ->
    exists r', redis_sadd key member now r = (Return tt, r') /\
    redis_changed key (keeps_deadline r key now (RSet ({[member]} ∪ s))) now r r';
  srem_law : forall key member now r s, redis_view r now key = Some (RSet s) -> s ∖ {[member]} <> ∅ ->
    exists r', redis_srem key member now r = (Return tt, r') /\
    redis_changed key (keeps_deadline r key now (RSet (s ∖ {[member]}))) now r r';
  srem_last_law : forall key member now r s,
    redis_view r now key = None /\ s = ∅ \/ redis_view r now key = Some (RSet s) -> s ∖ {[member]} = ∅ ->
    exists r', redis_srem key member now r = (Return tt, r') /\ redis_changed key (fun _ => None) now r r';
  smembers_law : forall key now r s,
    redis_view r now key = None /\ s = ∅ \/ redis_view r now key = Some (RSet s) ->
    exists members r', redis_smembers key now r = (Return members, r') /\ redis_unchanged now r r' /\
    forall x, x ∈ members <-> x ∈ s;
  sscan_law : forall key count now r s,
    redis_view r now key = None /\ s = ∅ \/ redis_view r now key = Some (RSet s) ->
    exists pages r', redis_sscan key count now r = (Return pages, r') /\ redis_unchanged now r r' /\
    forall x, x ∈ List.concat pages <-> x ∈ s;
  mget_law : forall keys now r, exists r', redis_unchanged now r r' /\
    redis_mget keys now r =
    (Return (map (fun key => match redis_view r now key with Some (RCell c) => Some c | _ => None end) keys), r');
  scan_law : forall pattern now r, exists keys r', redis_scan pattern now r = (Return keys, r') /\
    redis_unchanged now r r' /\
    forall key, key ∈ keys <-> is_Some (redis_view r now key) /\ redis_matches (R := R) pattern key = true;
  (* a pattern whose only special character is a star at its end *)
  matches_prefix : forall prefix key,
    Forall (fun c => c ∉ ["*"%char; "?"%char; "["%char; "]"%char; "\"%char]) (list_ascii_of_string prefix) ->
    redis_matches (R := R) (prefix +:+ "*") key = true <-> exists rest, key = prefix +:+ rest;
}.

Section Changed.
Context {R : Type} `{RedisServer R}.

Lemma redis_changed_other key v now r r' t k :
  redis_changed key v now r r' -> (now <= t)%Q -> k <> key -> redis_view r' t k = redis_view r t k.
Proof. intros Hc Ht Hne. rewrite Hc by done. by rewrite decide_False. Qed.

Lemma redis_changed_same key v now r r' t :
  redis_changed key v now r r' -> (now <= t)%Q -> redis_view r' t key = v t.
Proof. intros Hc Ht. rewrite Hc by done. by rewrite decide_True. Qed.

(** Within a script: the server differs at [key] alone, which now has [v]. *)
Definition redis_now_has (key : string) (v : option rvalue) (now : Q) (r r' : R) : Prop :=
  redis_view r' now key = v /\ forall t k, (now <= t)%Q -> k <> key -> redis_view r' t k = redis_view r t k.

Lemma now_has_start key now r r' : redis_unchanged now r r' -> redis_now_has key (redis_view r now key) now r r'.
Proof. intros Hu. split; [apply Hu; lra|]. intros t k Ht _. by apply Hu. Qed.

Lemma now_has_changed key v w now r r' r'' : redis_now_has key v now r r' ->
  redis_changed key w now r' r'' ->
  redis_now_has key (w now) now r r'' /\ redis_changed key w now r r''.
Proof.
  intros [_ Ho] Hc. split.
  - split; [by apply (redis_changed_same _ _ _ _ _ _ Hc); lra|].
    intros t k Ht Hne. by rewrite (redis_changed_other _ _ _ _ _ _ _ Hc), Ho.
  - intros t k Ht. rewrite (Hc t k Ht). case_decide; [done|]. by apply Ho.
Qed.

Lemma redis_changed_later key v now now' r r' :
  redis_changed key v now r r' -> (now <= now')%Q -> redis_changed key v now' r r'.
Proof. intros Hc Hle t k Ht. apply Hc. lra. Qed.
End Changed.

(** ** A concrete server *)

Abbreviation store := (gmap string (rvalue * option Z)).

Definition store_view (r : store) (t : Q) (key : string) : option rvalue :=
  match r !! key with
  | Some (v, None) => Some v
  | Some (v, Some d) => if redis_ms t <=? d then Some v else None
  | None => None
  end.

(** The entry of a key that is still alive keeps its deadline. *)
Definition store_deadline (r : store) (now : Q) (key : string) : option Z :=
  match store_view r now key with Some _ => r !! key ≫= snd | None => None end.

(** The set of a key, or none where it holds something else. *)
Definition set_of (v : option rvalue) : option (gset string) :=
  match v with None => Some ∅ | Some (RSet s) => Some s | _ => None end.

(** The patterns that are a prefix and a star. *)
Fixpoint star_matches (pattern key : string) : bool :=
  match pattern, key with
  | String "*"%char EmptyString, _ => true
  | String c pattern, String d key => Ascii.eqb c d && star_matches pattern key
  | EmptyString, EmptyString => true
  | _, _ => false
  end.

Lemma star_matches_prefix prefix key :
  Forall (fun c => c ∉ ["*"%char; "?"%char; "["%char; "]"%char; "\"%char]) (list_ascii_of_string prefix) ->
  star_matches (prefix +:+ "*") key = true <-> exists rest, key = prefix +:+ rest.
Proof.
  revert key. induction prefix as [|c prefix IH]; intros key Hp.
  - split; [|done]. intros _. by exists key.
  - cbn in Hp. apply Forall_cons in Hp as [Hc Hp].
    assert (c <> "*"%char) as Hne by (intros ->; apply Hc; by left).
    assert (forall p key, star_matches (String c p) key =
      match key with String d key => Ascii.eqb c d && star_matches p key | EmptyString => false end) as Hs.
    { intros p k. destruct c as [[] [] [] [] [] [] [] []], k, p; done. }
    change (star_matches (String c (prefix +:+ "*")) key = true <-> exists rest, key = String c prefix +:+ rest).
    rewrite Hs. destruct key as [|d key].
    + split; [done|]. by intros [rest E].
    + rewrite andb_true_iff, Ascii.eqb_eq, IH by done. split.
      * intros [-> [rest ->]]. by exists rest.
      * intros [rest E]. injection E as -> ->. split; [done|]. by exists rest.
Qed.

Lemma set_of_spec v s : v = None /\ s = ∅ \/ v = Some (RSet s) -> set_of v = Some s.
Proof. by intros [[-> ->]| ->]. Qed.

#[export] Instance store_server : RedisServer store := {
  redis_view := store_view;
  redis_get key now r :=
    (match store_view r now key with
     | None => Return None
     | Some (RCell c) => Return (Some c)
     | Some _ => Raise response_error
     end, r);
  redis_set key c px now r :=
    match px with
    | None => (Return tt, <[key := (RCell c, None)]> r)
    | Some ms =>
        if 0 <? ms then (Return tt, <[key := (RCell c, Some (redis_ms now + ms))]> r)
        else (Raise response_error, r)
    end;
  redis_incr key now r :=
    let write n := (Return (n + 1), <[key := (RCell (Text (str (n + 1))), store_deadline r now key)]> r) in
    match store_view r now key with
    | None => write 0
    | Some (RCell (Text s)) => match int_of_string s with Some n => write n | None => (Raise response_error, r) end
    | Some _ => (Raise response_error, r)
    end;
  redis_pexpire key ms now r :=
    (Return tt,
     match store_view r now key with
     | Some v => if 0 <? ms then <[key := (v, Some (redis_ms now + ms))]> r else delete key r
     | None => r
     end);
  redis_del key now r := (Return tt, delete key r);
  redis_hmget key fields now r :=
    (match store_view r now key with
     | None => Return (map (fun _ => None) fields)
     | Some (RHash h) => Return (map (fun f => h !! f) fields)
     | Some _ => Raise response_error
     end, r);
  redis_hset key fields now r :=
    let write h := (Return tt, <[key := (RHash (hash_set fields h), store_deadline r now key)]> r) in
    match store_view r now key with
    | None => write ∅
    | Some (RHash h) => write h
    | Some _ => (Raise response_error, r)
    end;
  redis_hincrby key field d now r :=
    let write h n :=
      (Return (n + d), <[key := (RHash (<[field := Number (inject_Z (n + d))]> h), store_deadline r now key)]> r) in
    match store_view r now key with
    | Some (RCell _) | Some (RSet _) => (Raise response_error, r)
    | v =>
        let h := match v with Some (RHash h) => h | _ => ∅ end in
        match h !! field with
        | None => write h 0
        | Some (Number (n # 1)) => write h n
        | Some _ => (Raise response_error, r)
        end
    end;
  redis_hdel key fields now r :=
    match store_view r now key with
    | None => (Return tt, r)
    | Some (RHash h) =>
        (Return tt,
         if decide (hash_del fields h = ∅) then delete key r
         else <[key := (RHash (hash_del fields h), store_deadline r now key)]> r)
    | Some _ => (Raise response_error, r)
    end;
  redis_persist key now r :=
    (Return tt, match store_view r now key with Some v => <[key := (v, None)]> r | None => r end);
  redis_sadd key member now r :=
    match set_of (store_view r now key) with
    | Some s => (Return tt, <[key := (RSet ({[member]} ∪ s), store_deadline r now key)]> r)
    | None => (Raise response_error, r)
    end;
  redis_srem key member now r :=
    match set_of (store_view r now key) with
    | Some s =>
        (Return tt,
         if decide (s ∖ {[member]} = ∅) then delete key r
         else <[key := (RSet (s ∖ {[member]}), store_deadline r now key)]> r)
    | None => (Raise response_error, r)
    end;
  redis_smembers key now r :=
    (match set_of (store_view r now key) with Some s => Return (elements s) | None => Raise response_error end, r);
  redis_sscan key count now r :=
    (match set_of (store_view r now key) with Some s => Return [elements s] | None => Raise response_error end, r);
  redis_mget keys now r :=
    (Return (map (fun key => match store_view r now key with Some (RCell c) => Some c | _ => None end) keys), r);
  redis_scan pattern now r :=
    (Return (filter (fun key => is_Some (store_view r now key) /\ star_matches pattern key = true) (map_to_list r).*1), r);
  redis_matches := star_matches;
}.

Lemma store_view_insert r key e t k :
  store_view (<[key := e]> r) t k =
  if decide (k = key) then match e with (v, None) => Some v | (v, Some d) => if redis_ms t <=? d then Some v else None end
  else store_view r t k.
Proof.
  unfold store_view. case_decide as E; [subst; by rewrite lookup_insert_eq|by rewrite lookup_insert_ne].
Qed.

Lemma store_view_delete r key t k :
  store_view (delete key r) t k = if decide (k = key) then None else store_view r t k.
Proof.
  unfold store_view. case_decide as E; [subst; by rewrite lookup_delete_eq|by rewrite lookup_delete_ne].
Qed.

Lemma store_view_expires r now t key : (now <= t)%Q ->
  store_view r t key = store_view r now key \/ store_view r t key = None.
Proof.
  intros Hle%redis_ms_mono. unfold store_view. destruct (r !! key) as [[v [d|]]|]; auto.
  destruct (Z.leb_spec (redis_ms t) d); [left|by right]. by rewrite (proj2 (Z.leb_le _ _)) by lia.
Qed.

(** What is written under the old deadline. *)
Lemma store_keeps_deadline r key now v t : (now <= t)%Q ->
  match store_deadline r now key with
  | None => Some v
  | Some d => if redis_ms t <=? d then Some v else None
  end = keeps_deadline r key now v t.
Proof.
  intros Hle%redis_ms_mono. unfold keeps_deadline, store_deadline. simpl. unfold store_view.
  destruct (r !! key) as [[w [d|]]|]; simpl; [|done|done].
  destruct (Z.leb_spec (redis_ms now) d); [by destruct (Z.leb_spec (redis_ms t) d)|done].
Qed.

Lemma store_write_changed r key now v : 
  redis_changed key (keeps_deadline r key now v) now r (<[key := (v, store_deadline r now key)]> r).
Proof.
  intros t k Ht. simpl. rewrite store_view_insert. case_decide; [|done].
  rewrite <- (store_keeps_deadline r key now v t Ht). by destruct (store_deadline r now key).
Qed.

#[export] Instance store_laws : RedisLaws store.
Proof.
  split.
  - intros r now t key. apply store_view_expires.
  - intros key now r. by exists r.
  - intros key c now r. eexists. split; [done|]. intros t k Ht. simpl. by rewrite store_view_insert.
  - intros key c ms now r Hms. simpl. rewrite (proj2 (Z.ltb_lt _ _)) by done. eexists. split; [done|].
    intros t k Ht. simpl. by rewrite store_view_insert.
  - intros key c ms now r Hms. simpl. rewrite (proj2 (Z.ltb_ge _ _)) by done. by exists r.
  - intros key now r n [[E ->]|(s & E & Es)]; simpl in *; rewrite E, ?Es; eexists; (split; [done|]);
      apply store_write_changed.
  - intros key ms now r Hms. simpl. eexists. split; [done|]. intros t k Ht. simpl.
    destruct (store_view r now key) as [v|] eqn:E.
    + rewrite (proj2 (Z.ltb_lt _ _)) by done. by rewrite store_view_insert.
    + case_decide as Ek; [|done]. subst k. unfold lives_for.
      destruct (store_view_expires r now t key Ht) as [->| ->]; rewrite ?E; by case_match.
  - intros key now r. eexists. split; [done|]. intros t k Ht. simpl. by rewrite store_view_delete.
  - intros key fields now r. by exists r.
  - intros key fields now r h [[E ->]|E]; simpl in *; rewrite E; eexists; (split; [done|]);
      apply store_write_changed.
  - intros key field d now r h n [[E ->]|E] [[Ef ->]|Ef]; simpl in *; rewrite E, Ef; eexists; (split; [done|]);
      apply store_write_changed.
  - intros key fields now r h E Hne. simpl in *. rewrite E. eexists. split; [done|].
    rewrite decide_False by done. apply store_write_changed.
  - intros key now r. simpl. eexists. split; [done|]. intros t k Ht. simpl.
    destruct (store_view r now key) as [v|] eqn:E; [by rewrite store_view_insert|].
    case_decide as Ek; [|done]. subst k.
    destruct (store_view_expires r now t key Ht) as [->| ->]; by rewrite ?E.
  - intros key member now r s Hs%set_of_spec. simpl in *. rewrite Hs. eexists. split; [done|]. apply store_write_changed.
  - intros key member now r s E Hne. simpl in *. rewrite E. cbn [set_of]. rewrite decide_False by done.
    eexists. split; [done|]. apply store_write_changed.
  - intros key member now r s Hs%set_of_spec Hne. simpl in *. rewrite Hs, decide_True by done.
    eexists. split; [done|]. intros t k Ht. simpl. by rewrite store_view_delete.
  - intros key now r s Hs%set_of_spec. simpl in *. rewrite Hs. exists (elements s), r. split_and!; [done..|].
    intros x. by rewrite elem_of_elements.
  - intros key count now r s Hs%set_of_spec. simpl in *. rewrite Hs. exists [elements s], r. split_and!; [done..|].
    intros x. simpl. by rewrite app_nil_r, elem_of_elements.
  - intros keys now r. by exists r.
  - intros pattern now r. simpl. eexists _, r. split_and!; [done..|]. intros key. rewrite list_elem_of_filter. split; [by intros [? _]|].
    intros [[v Hv] Hm]. split; [split; [by eexists|done]|]. unfold store_view in Hv.
    destruct (r !! key) as [e|] eqn:E; [|done]. apply list_elem_of_fmap. exists (key, e).
    split; [done|by apply elem_of_map_to_list].
  - exact star_matches_prefix.
Qed.

(** ** Commands inside a script *)

Section InScripts.
Context {R : Type} `{RedisLaws R}.
Implicit Types (r : R) (h : gmap string cell).

(** The hash of a key: its fields, or none. *)
Definition is_hash (v : option rvalue) (h : gmap string cell) : Prop := v = None /\ h = ∅ \/ v = Some (RHash h).

Lemma keeps_deadline_now r key now v : keeps_deadline r key now v now = Some v.
Proof. unfold keeps_deadline. by destruct (redis_view r now key). Qed.

Lemma hset_now_has key v now r r' h fields : redis_now_has key v now r r' -> is_hash v h ->
  exists r'', redis_hset key fields now r' = (Return tt, r'') /\
    redis_now_has key (Some (RHash (hash_set fields h))) now r r''.
Proof.
  intros Hn Hh. destruct (hset_law key fields now r' h) as (r'' & E & Hc).
  { by rewrite (proj1 Hn). }
  exists r''. split; [done|]. by rewrite <- (keeps_deadline_now r' key now); apply (now_has_changed _ _ _ _ _ _ _ Hn Hc).
Qed.

Lemma hincrby_now_has key v now r r' h field d n : redis_now_has key v now r r' -> is_hash v h ->
  h !! field = None /\ n = 0 \/ h !! field = Some (Number (inject_Z n)) ->
  exists r'', redis_hincrby key field d now r' = (Return (n + d), r'') /\
    redis_now_has key (Some (RHash (<[field := Number (inject_Z (n + d))]> h))) now r r''.
Proof.
  intros Hn Hh Hf. destruct (hincrby_law key field d now r' h n) as (r'' & E & Hc); [by rewrite (proj1 Hn)|done|].
  exists r''. split; [done|]. by rewrite <- (keeps_deadline_now r' key now); apply (now_has_changed _ _ _ _ _ _ _ Hn Hc).
Qed.

Lemma hdel_now_has key now r r' h fields : redis_now_has key (Some (RHash h)) now r r' -> hash_del fields h <> ∅ ->
  exists r'', redis_hdel key fields now r' = (Return tt, r'') /\
    redis_now_has key (Some (RHash (hash_del fields h))) now r r''.
Proof.
  intros Hn Hne. destruct (hdel_law key fields now r' h) as (r'' & E & Hc); [by rewrite (proj1 Hn)|done|].
  exists r''. split; [done|]. by rewrite <- (keeps_deadline_now r' key now); apply (now_has_changed _ _ _ _ _ _ _ Hn Hc).
Qed.

Lemma hmget_now_has key v now r r' h fields : redis_now_has key v now r r' -> is_hash v h ->
  exists r'', redis_hmget key fields now r' = (Return (map (fun f => h !! f) fields), r'') /\
    redis_now_has key v now r r''.
Proof.
  intros Hn Hh. destruct (hmget_law key fields now r') as (r'' & Hu & E). exists r''. split.
  - rewrite E, (proj1 Hn). by destruct Hh as [[-> ->]| ->].
  - split; [rewrite Hu by lra; apply Hn|]. intros t k Ht Hne. rewrite Hu by done. by apply Hn.
Qed.

Lemma expire_now_has key v now r r' ms : redis_now_has key v now r r' -> 0 < ms ->
  exists r'', redis_pexpire key ms now r' = (Return tt, r'') /\ redis_changed key (lives_for ms now v) now r r''.
Proof.
  intros Hn Hms. destruct (pexpire_law key ms now r' Hms) as (r'' & E & Hc). rewrite (proj1 Hn) in Hc.
  exists r''. split; [done|]. by apply (now_has_changed _ _ _ _ _ _ _ Hn Hc).
Qed.

Lemma persist_now_has key v now r r' : redis_now_has key v now r r' ->
  exists r'', redis_persist key now r' = (Return tt, r'') /\ redis_changed key (fun _ => v) now r r''.
Proof.
  intros Hn. destruct (persist_law key now r') as (r'' & E & Hc). rewrite (proj1 Hn) in Hc.
  exists r''. split; [done|]. by apply (now_has_changed _ _ _ _ _ _ _ Hn Hc).
Qed.

Lemma del_now_has key v now r r' : redis_now_has key v now r r' ->
  exists r'', redis_del key now r' = (Return tt, r'') /\ redis_changed key (fun _ => None) now r r''.
Proof.
  intros Hn. destruct (del_law key now r') as (r'' & E & Hc).
  exists r''. split; [done|]. by apply (now_has_changed _ _ _ _ _ _ _ Hn Hc).
Qed.
End InScripts.
