(* ===== verification/RedisCoordination.v ===== *)
(** * Coordination on Redis

    [grelmicro/coordination/redis.py]: the Lua scripts of the lock and of the
    schedule, and the methods that send them, over any server with the laws of
    [Redis].  The lock is one lease per name on a clock of whole milliseconds; the
    schedule is a [ScheduleBackend], whatever its connection answers.

    [fence .. ':'] writes a number with 14 digits, as [str] does below 10^14. *)

From S2P Require Import Prelude Errors PyStr CoordinationMemory CronTask SqliteCoordination Redis.
From Stdlib Require Import Ascii String.

Local Open Scope Z_scope.

(** ** Scripts *)

Section Scripts.
Context {R : Type} `{RedisServer R}.

(** The error of a script that indexes [nil]. *)
Definition lua_error {A} : py R exn A := py_raise response_error.

(** [_LUA_ACQUIRE_OR_EXTEND] *)
Definition lua_acquire_or_extend (lock_key fence_key token : string) (ms : Z) (now : Q) : py R exn (option Z) :=
  stored ← redis_get lock_key now;
  match stored with
  | None =>
      fence ← redis_incr fence_key now;
      _ ← redis_set lock_key (Text (str fence +:+ String ":" token)) (Some ms) now;
      mret (Some fence)
  | Some (Number _) => lua_error
  | Some (Text stored) =>
      let '(fence, found, holder) := partition ":" stored in
      if negb found then lua_error
      else if decide (holder = token) then
        _ ← redis_pexpire lock_key ms now;
        mret (int_of_string fence)
      else mret None
  end.

(** [_LUA_RELEASE] of the lock *)
Definition lua_release (lock_key token : string) (now : Q) : py R exn bool :=
  stored ← redis_get lock_key now;
  match stored with
  | None => mret false
  | Some (Number _) => lua_error
  | Some (Text stored) =>
      let '(_, found, holder) := partition ":" stored in
      if negb found then lua_error
      else if decide (holder = token) then
        _ ← redis_del lock_key now;
        mret true
      else mret false
  end.

(** ** [RedisLockAdapter] *)

Definition lock_key (prefix name : string) : string := prefix +:+ name.
Definition _fence_key (prefix name : string) : string := prefix +:+ "fence:" +:+ name.

(** [acquire]; [int(duration * 1000)] milliseconds. *)
Definition rd_acquire (prefix name token : string) (duration : Q) (now : Q) : py R exn (option Z) :=
  lua_acquire_or_extend (lock_key prefix name) (_fence_key prefix name) token (py_int (duration * 1000)) now.

Definition rd_release (prefix name token : string) (now : Q) : py R exn bool :=
  lua_release (lock_key prefix name) token now.

Definition rd_locked (prefix name : string) (now : Q) : py R exn bool :=
  stored ← redis_get (lock_key prefix name) now;
  mret (match stored with
        | None => false
        | Some (Text s) => negb (String.eqb s "")
        | Some (Number _) => true
        end).

Definition rd_owned (prefix name token : string) (now : Q) : py R exn bool :=
  stored ← redis_get (lock_key prefix name) now;
  mret (match stored with
        | Some (Text s) =>
            let '(_, found, holder) := partition ":" s in found && bool_decide (holder = token)
        | _ => false
        end).

(** The methods of any number of adapters with one prefix; [__aexit__] sends no
    command. *)
Definition rd_lock_exec (prefix : string) (m : lock_method) (now : Q) : py R exn lock_reply :=
  match m with
  | MAcquire name token duration => f ← rd_acquire prefix name token duration now; mret (RFence f)
  | MRelease name token => b ← rd_release prefix name token now; mret (RBool b)
  | MLocked name => b ← rd_locked prefix name now; mret (RBool b)
  | MOwned name token => b ← rd_owned prefix name token now; mret (RBool b)
  | MClose => mret RUnit
  end.
End Scripts.

(** ** One lease per name, on a clock of milliseconds *)

Definition rd_clock (now : Q) : Q := inject_Z (redis_ms now).

Definition rd_lease_method (o : lock_method * Q) (ls : string -> Lease) : lock_reply * (string -> Lease) :=
  let '(m, now) := o in
  let now := rd_clock now in
  match m with
  | MAcquire name token d =>
      let '(f, l) := lease_acquire token (inject_Z (py_int (d * 1000))) now now (ls name) in
      (RFence f, put_lease name l ls)
  | MRelease name token =>
      let '(b, l) := lease_release token now (ls name) in (RBool b, put_lease name l ls)
  | MLocked name => (RBool (bool_decide (is_Some (live_holder now (ls name)))), ls)
  | MOwned name token => (RBool (bool_decide (live_holder now (ls name) = Some token)), ls)
  | MClose => (RUnit, ls)
  end.

(** Names of locks do not start as the counters do, and leases last a millisecond
    at least. *)
Definition redis_lock_name (name : string) : Prop := String.prefix "fence:" name = false.
Definition rd_method_ok (m : lock_method) : Prop :=
  match m with
  | MAcquire name _ d => redis_lock_name name /\ 1 <= py_int (d * 1000)
  | MRelease name _ | MLocked name | MOwned name _ => redis_lock_name name
  | MClose => True
  end.

Lemma lock_fence_key prefix n n' : redis_lock_name n -> lock_key prefix n <> _fence_key prefix n'.
Proof.
  unfold redis_lock_name, lock_key, _fence_key. intros Hn E. apply (inj (String.app prefix)) in E. subst n.
  assert (String.prefix "fence:" ("fence:" +:+ n') = true) as E by (apply string_prefix_spec; by exists n').
  congruence.
Qed.

Lemma lock_key_inj prefix n n' : lock_key prefix n = lock_key prefix n' -> n = n'.
Proof. unfold lock_key. intros E. by apply (inj (String.app prefix)) in E. Qed.

Lemma fence_key_inj prefix n n' : _fence_key prefix n = _fence_key prefix n' -> n = n'.
Proof.
  unfold _fence_key. intros E. apply (inj (String.app prefix)) in E. by apply (inj (String.app "fence:")) in E.
Qed.

Lemma stored_lock fence token : 0 <= fence ->
  partition ":" (str fence +:+ String ":" token) = (str fence, true, token).
Proof. intros Hf. apply partition_app. apply digits_free_of; [done|apply str_digits]. Qed.

Section LockRefines.
Context {R : Type} `{RedisLaws R} (prefix : string).
Implicit Types (r : R) (ls : string -> Lease).

(** What the two keys of a lease hold. *)
Definition held_value (l : Lease) (t : Q) : option rvalue :=
  match live_holder (rd_clock t) l with
  | Some token => Some (RCell (Text (str (l_fence l) +:+ String ":" token)))
  | None => None
  end.
Definition fence_value (l : Lease) : option rvalue :=
  if decide (l_fence l = 0) then None else Some (RCell (Text (str (l_fence l)))).

Definition lease_at (now : Q) r (name : string) (l : Lease) : Prop :=
  0 <= l_fence l /\
  (forall t, (now <= t)%Q -> redis_view r t (lock_key prefix name) = held_value l t) /\
  (forall t, (now <= t)%Q -> redis_view r t (_fence_key prefix name) = fence_value l).

Definition rd_related (now : Q) r ls : Prop := forall name, redis_lock_name name -> lease_at now r name (ls name).

Lemma rd_related_later now now' r ls : (now <= now')%Q -> rd_related now r ls -> rd_related now' r ls.
Proof. intros Hle HR name Hn. destruct (HR name Hn) as (H1 & H2 & H3). split_and!; [done| |]; intros t Ht; [apply H2|apply H3]; lra. Qed.

Lemma rd_related_unchanged now r r' ls : redis_unchanged now r r' -> rd_related now r ls -> rd_related now r' ls.
Proof.
  intros Hu HR name Hn. destruct (HR name Hn) as (H1 & H2 & H3).
  split_and!; [done| |]; intros t Ht; rewrite Hu by done; auto.
Qed.

(** A change of the lock key of [name] alone. *)
Lemma rd_related_put now r r' ls name l v : redis_lock_name name ->
  rd_related now r ls -> redis_changed (lock_key prefix name) v now r r' ->
  l_fence l = l_fence (ls name) -> (forall t, (now <= t)%Q -> v t = held_value l t) ->
  rd_related now r' (put_lease name l ls).
Proof.
  intros Hname HR Hc Hf Hv n Hn. destruct (HR n Hn) as (H1 & H2 & H3). unfold put_lease.
  destruct (decide (n = name)) as [->|Hne].
  - split_and!; [by rewrite Hf| |]; intros t Ht.
    + rewrite (redis_changed_same _ _ _ _ _ _ Hc) by done. by apply Hv.
    + rewrite (redis_changed_other _ _ _ _ _ _ _ Hc) by (try done; intros E; by apply (lock_fence_key prefix name name)).
      rewrite H3 by done. unfold fence_value. by rewrite Hf.
  - split_and!; [done| |]; intros t Ht.
    + rewrite (redis_changed_other _ _ _ _ _ _ _ Hc); [by apply H2|done|].
      intros E. by apply Hne, (lock_key_inj prefix).
    + rewrite (redis_changed_other _ _ _ _ _ _ _ Hc); [by apply H3|done|].
      intros E. by apply (lock_fence_key prefix name n).
Qed.

(** Counting a grant of a lock that nobody holds. *)
Lemma rd_related_incr now r ls name : redis_lock_name name -> rd_related now r ls ->
  redis_view r now (lock_key prefix name) = None ->
  exists r', redis_incr (_fence_key prefix name) now r = (Return (l_fence (ls name) + 1), r') /\
    rd_related now r' (put_lease name (mkLease None (l_fence (ls name) + 1)) ls).
Proof.
  intros Hname HR Hfree. destruct (HR name Hname) as (H1 & H2 & H3).
  destruct (incr_law (_fence_key prefix name) now r (l_fence (ls name))) as (r' & E & Hc).
  { rewrite H3 by lra. unfold fence_value. case_decide; [by left|right].
    eexists. split; [done|]. by apply int_of_str. }
  exists r'. split; [done|]. intros n Hn. unfold put_lease. destruct (decide (n = name)) as [->|Hne].
  - split_and!; simpl; [lia| |]; intros t Ht.
    + rewrite (redis_changed_other _ _ _ _ _ _ _ Hc) by (try done; by apply lock_fence_key).
      unfold held_value. simpl. destruct (view_expires r now t (lock_key prefix name) Ht) as [->| ->]; done.
    + rewrite (redis_changed_same _ _ _ _ _ _ Hc) by done. unfold keeps_deadline, fence_value. simpl.
      rewrite !H3 by lra. unfold fence_value. rewrite (decide_False (P := l_fence (ls name) + 1 = 0)) by lia.
      by case_decide.
  - destruct (HR n Hn) as (G1 & G2 & G3). split_and!; [done| |]; intros t Ht.
    + rewrite (redis_changed_other _ _ _ _ _ _ _ Hc) by (try done; by apply lock_fence_key). by apply G2.
    + rewrite (redis_changed_other _ _ _ _ _ _ _ Hc); [by apply G3|done|]. intros E'. by apply Hne, (fence_key_inj prefix).
Qed.

Lemma held_granted now ms fence token t :
  lives_for ms now (Some (RCell (Text (str fence +:+ String ":" token)))) t =
  held_value (mkLease (Some (token, rd_clock now + inject_Z ms)%Q) fence) t.
Proof.
  unfold lives_for, held_value, live_holder. simpl. unfold rd_clock. rewrite <- inject_Z_plus, Qlt_bool_inject.
  destruct (Z.leb_spec (redis_ms t) (redis_ms now + ms)), (Z.ltb_spec (redis_ms now + ms) (redis_ms t)); done || lia.
Qed.

Lemma put_put name l l' ls n : put_lease name l (put_lease name l' ls) n = put_lease name l ls n.
Proof. unfold put_lease. by case_decide. Qed.

Lemma rd_acquire_sim now r ls name token ms : redis_lock_name name -> 1 <= ms -> rd_related now r ls ->
  let '(f, l) := lease_acquire token (inject_Z ms) (rd_clock now) (rd_clock now) (ls name) in
  exists r', lua_acquire_or_extend (lock_key prefix name) (_fence_key prefix name) token ms now r = (Return f, r') /\
    rd_related now r' (put_lease name l ls).
Proof.
  intros Hname Hms HR. unfold lua_acquire_or_extend, mbind, py_mbind, py_bind.
  destruct (get_law (lock_key prefix name) now r) as (r1 & Hu & ->).
  apply (rd_related_unchanged now r r1 ls Hu) in HR as HR1.
  destruct (HR name Hname) as (H1 & H2 & _). pose proof (H2 now (Qle_refl _)) as Hv. rewrite Hv.
  pose proof (Hu now (lock_key prefix name) (Qle_refl _)) as Hu1. rewrite Hv in Hu1.
  unfold held_value, lease_acquire in *. destruct (live_holder (rd_clock now) (ls name)) as [h|] eqn:Eh.
  - rewrite stored_lock by done. simpl. destruct (decide (h = token)) as [->|Hne].
    + destruct (pexpire_law (lock_key prefix name) ms now r1 ltac:(lia)) as (r2 & -> & Hc).
      exists r2. rewrite int_of_str by done. split; [done|].
      apply (rd_related_put now r1 r2 ls name _ _ Hname HR1 Hc); [done|]. intros t Ht.
      rewrite Hu1. apply held_granted.
    + exists r1. split; [done|]. intros n Hn. unfold put_lease. case_decide as E; [subst n|]; by apply HR1.
  - destruct (rd_related_incr now r1 ls name Hname HR1 Hu1) as (r2 & -> & HR2).
    destruct (set_px_law (lock_key prefix name) (Text (str (l_fence (ls name) + 1) +:+ String ":" token)) ms now r2
      ltac:(lia)) as (r3 & -> & Hc).
    exists r3. split; [done|]. intros n Hn. rewrite <- (put_put name _ (mkLease None (l_fence (ls name) + 1))).
    apply (rd_related_put now r2 r3 _ name _ _ Hname HR2 Hc); [|intros t Ht; apply held_granted|done].
    unfold put_lease. by rewrite decide_True.
Qed.

Lemma rd_release_sim now r ls name token : redis_lock_name name -> rd_related now r ls ->
  let '(b, l) := lease_release token (rd_clock now) (ls name) in
  exists r', lua_release (lock_key prefix name) token now r = (Return b, r') /\ rd_related now r' (put_lease name l ls).
Proof.
  intros Hname HR. unfold lua_release, mbind, py_mbind, py_bind.
  destruct (get_law (lock_key prefix name) now r) as (r1 & Hu & ->).
  apply (rd_related_unchanged now r r1 ls Hu) in HR as HR1.
  destruct (HR name Hname) as (H1 & H2 & _). rewrite (H2 now (Qle_refl _)).
  assert (rd_related now r1 (put_lease name (ls name) ls)) as HR'.
  { intros n Hn. unfold put_lease. case_decide as E; [subst n|]; by apply HR1. }
  unfold held_value, lease_release. destruct (live_holder (rd_clock now) (ls name)) as [h|]; simpl.
  - rewrite stored_lock by done. simpl. destruct (decide (h = token)) as [->|Hne].
    + rewrite decide_True by done. destruct (del_law (lock_key prefix name) now r1) as (r2 & -> & Hc). exists r2. split; [done|].
      by apply (rd_related_put now r1 r2 ls name _ _ Hname HR1 Hc).
    + rewrite decide_False by congruence. by exists r1.
  - by exists r1.
Qed.

Lemma rd_method_sim m now r ls : rd_method_ok m -> rd_related now r ls ->
  exists r', rd_lock_exec prefix m now r = (Return (rd_lease_method (m, now) ls).1, r') /\
    rd_related now r' (rd_lease_method (m, now) ls).2.
Proof.
  intros Hm HR. destruct m as [name token d|name token|name|name token|]; simpl in Hm.
  - destruct Hm as [Hname Hms]. pose proof (rd_acquire_sim now r ls name token _ Hname Hms HR) as H'.
    simpl. unfold rd_acquire, mbind, py_mbind, py_bind. destruct (lease_acquire _ _ _ _ _) as [f l].
    destruct H' as (r' & -> & HR'). by exists r'.
  - pose proof (rd_release_sim now r ls name token Hm HR) as H'.
    simpl. unfold rd_release, mbind, py_mbind, py_bind. destruct (lease_release _ _ _) as [b l].
    destruct H' as (r' & -> & HR'). by exists r'.
  - simpl. unfold rd_locked, mbind, py_mbind, py_bind.
    destruct (get_law (lock_key prefix name) now r) as (r1 & Hu & ->). exists r1.
    split; [|by eapply rd_related_unchanged]. destruct (HR name Hm) as (H1 & H2 & _).
    rewrite (H2 now (Qle_refl _)). unfold held_value. destruct (live_holder _ _) as [h|]; [|done].
    simpl. destruct (str (l_fence (ls name))); done.
  - simpl. unfold rd_owned, mbind, py_mbind, py_bind.
    destruct (get_law (lock_key prefix name) now r) as (r1 & Hu & ->). exists r1.
    split; [|by eapply rd_related_unchanged]. destruct (HR name Hm) as (H1 & H2 & _).
    rewrite (H2 now (Qle_refl _)). unfold held_value. destruct (live_holder _ _) as [h|]; [|done].
    simpl. rewrite stored_lock by done. simpl.
    by replace (bool_decide (Some h = Some token)) with (bool_decide (h = token))
      by (apply bool_decide_ext; split; congruence).
  - by exists r.
Qed.

Lemma rd_methods_sim now r ls ops : rd_related now r ls -> methods_timed now ops ->
  Forall (fun o => rd_method_ok o.1) ops ->
  (run (fun o r => rd_lock_exec prefix o.1 o.2 r) ops r).1 = Return <$> (run rd_lease_method ops ls).1.
Proof.
  revert now r ls. induction ops as [|[m now'] ops IH]; intros now r ls HR Ht Hok; [done|].
  destruct Ht as [Hle Ht]. inversion_clear Hok as [|? ? Hm Hok'].
  destruct (rd_method_sim m now' r ls Hm (rd_related_later _ _ _ _ Hle HR)) as (r' & E & HR').
  cbn [run fst snd]. rewrite E. specialize (IH now' r' _ HR' Ht Hok').
  destruct (rd_lease_method (m, now') ls) as [a ls']. simpl in *.
  destruct (run _ ops r') as [rs r2], (run rd_lease_method ops ls') as [rs' ls2]. simpl in *. by subst.
Qed.
End LockRefines.

(** No key of the adapters: a server that was just started, or used with other
    prefixes. *)
Definition no_locks {R} `{RedisServer R} (prefix : string) (now : Q) (r : R) : Prop :=
  forall t name, (now <= t)%Q -> redis_view r t (lock_key prefix name) = None /\
    redis_view r t (_fence_key prefix name) = None.

(** C34 (refinement): over any Redis server with the documented commands, the
    adapters of one prefix keep one lease per name on the server's clock of whole
    milliseconds: any sequence of their methods, in the order of that clock, in which
    no name starts with [fence:] and every lease asked for is of at least one
    millisecond, from a server without keys of the prefix, answers what leases answer
    whose duration is cut to milliseconds, with fencing numbers that the expiry of a key
    never resets.  (Without the two
    conditions it is false: [fence_name_is_a_counter], [short_lease_fails].) *)
Theorem redis_lock_refines_leases {R} `{RedisLaws R} : forall prefix now (r : R) ops,
  no_locks prefix now r -> methods_timed now ops -> Forall (fun o => rd_method_ok o.1) ops ->
  (run (fun o r => rd_lock_exec prefix o.1 o.2 r) ops r).1 =
  Return <$> (run rd_lease_method ops (fun _ => no_lease)).1.
Proof.
  intros prefix now r ops Hr Ht Hok. apply (rd_methods_sim prefix now); [|done|done].
  intros name _. split; [done|]. split; intros t Hle; by apply Hr.
Qed.

(** The key of the lock [fence:a] is the counter of the lock [a]: once [a] was
    granted nobody is ever granted [fence:a], and its acquisition is an error; while
    [fence:a] is held the acquisition of [a] is one. *)
Lemma fence_name_is_a_counter :
  let play ops := (run (fun o r => rd_lock_exec "app:" o.1 o.2 r) ops (∅ : store)).1 in
  play [(MAcquire "a" "w1" 5, 1); (MAcquire "fence:a" "w2" 5, 1); (MLocked "fence:a", 1);
        (MAcquire "fence:a" "w2" 5, 1000)]%Q =
    [Return (RFence (Some 1)); Raise response_error; Return (RBool true); Raise response_error] /\
  play [(MAcquire "fence:a" "w2" 5, 1); (MAcquire "a" "w1" 5, 1)]%Q =
    [Return (RFence (Some 1)); Raise response_error].
Proof. by vm_compute. Qed.

(** A lease of less than a millisecond is an error of [SET] when the lock is free, and
    gives the lock up when its holder asks to extend it. *)
Lemma short_lease_fails :
  let play ops := (run (fun o r => rd_lock_exec "app:" o.1 o.2 r) ops (∅ : store)).1 in
  play [(MAcquire "a" "w1" (1 # 2000), 1)]%Q = [Raise response_error] /\
  play [(MAcquire "a" "w1" 5, 1); (MAcquire "a" "w1" (1 # 2000), 2); (MLocked "a", 2)]%Q =
    [Return (RFence (Some 1)); Return (RFence (Some 1)); Return (RBool false)].
Proof. by vm_compute. Qed.

Definition rd_lock_demo : list (lock_method * Q) :=
  [(MAcquire "lock:a" "w1" (5 # 2), 1 # 2); (MAcquire "lock:a" "w:2" 1, 1); (MLocked "lock:a", 3);
   (MOwned "lock:a" "w1", 3); (MAcquire "lock:a" "w1" 1, 3); (MAcquire "lock:a" "w:2" (1 # 10), 9 # 2);
   (MRelease "lock:a" "w:2", 37 # 8); (MAcquire "lock:a" "w1" 1, 5)]%Q.

Lemma redis_lock_refines_leases_witness :
  (run (fun o r => rd_lock_exec "app:" o.1 o.2 r) rd_lock_demo (∅ : store)).1 =
  Return <$> (run rd_lease_method rd_lock_demo (fun _ => no_lease)).1 /\
  (run rd_lease_method rd_lock_demo (fun _ => no_lease)).1 =
    [RFence (Some 1); RFence None; RBool true; RBool true; RFence (Some 1); RFence (Some 2);
     RBool false; RFence (Some 3)].
Proof.
  split; [|by vm_compute]. apply (redis_lock_refines_leases "app:" 0 (∅ : store) rd_lock_demo).
  - intros t name _. simpl. unfold store_view. by rewrite !lookup_empty.
  - vm_compute; repeat split; discriminate.
  - repeat constructor; vm_compute; discriminate.
Defined.

(** ** [RedisScheduleAdapter] *)

Section Schedule.
Context {R : Type} `{RedisServer R}.

(** [_LUA_CLAIM]; [tonumber] of what no claim wrote is not modelled further than its
    error. *)
Definition lua_claim (key : string) (due : Q) (now : Q) : py R exn bool :=
  stored ← redis_get key now;
  match stored with
  | Some (Text _) => lua_error
  | Some (Number last) =>
      if (last >=? due)%py then mret false
      else _ ← redis_set key (Number due) None now; mret true
  | None => _ ← redis_set key (Number due) None now; mret true
  end.

Definition rd_claim (prefix name : string) (due now : Q) : py R exn bool :=
  lua_claim (prefix +:+ name) due now.

(** [last_fired]; [float] of a text raises [ValueError]. *)
Definition rd_last_fired (prefix name : string) (now : Q) : py R exn (option Q) :=
  stored ← redis_get (prefix +:+ name) now;
  match stored with
  | None => mret None
  | Some (Number q) => mret (Some q)
  | Some (Text _) => py_raise (mk_exn ValueError NoInfo)
  end.

Inductive schedule_op : Type := SClaim (name : string) (due : Q) | SLast (name : string).

Definition rd_schedule_exec (prefix : string) (o : schedule_op) (now : Q) : py R exn (bool + option Q) :=
  match o with
  | SClaim name due => won ← rd_claim prefix name due now; mret (inl won)
  | SLast name => last ← rd_last_fired prefix name now; mret (inr last)
  end.

Context {L : RedisLaws R} (prefix : string).

Definition memory_schedule_exec (o : schedule_op) (s : Schedules) : (bool + option Q) * Schedules :=
  match o with
  | SClaim name due => let '(won, s) := claim name due s in (inl won, s)
  | SLast name => (inr (schedule_last_fired name s), s)
  end.

Definition schedule_related (now : Q) (r : R) (s : Schedules) : Prop :=
  forall t name, (now <= t)%Q ->
    redis_view r t (prefix +:+ name) = (fun d => RCell (Number d)) <$> s !! name.

Lemma rd_set_due now r s name due : schedule_related now r s ->
  exists r', redis_set (prefix +:+ name) (Number due) None now r = (Return tt, r') /\
    schedule_related now r' (<[name := due]> s).
Proof.
  intros HR. destruct (set_law (prefix +:+ name) (Number due) now r) as (r' & E & Hc). exists r'.
  split; [done|]. intros t n Ht. destruct (decide (n = name)) as [->|Hne].
  - rewrite (redis_changed_same _ _ _ _ _ _ Hc) by done. by rewrite lookup_insert_eq.
  - rewrite (redis_changed_other _ _ _ _ _ _ _ Hc), lookup_insert_ne by (try done; intros E'%(inj (String.app prefix)); done).
    by apply HR.
Qed.

(** The Redis schedule answers what the schedule in memory answers. *)
Lemma redis_schedule_is_the_memory_one ops now (r : R) s : schedule_related now r s ->
  in_clock_order now ops ->
  (run (fun o r => rd_schedule_exec prefix o.1 o.2 r) ops r).1 =
  Return <$> (run memory_schedule_exec ops.*1 s).1.
Proof.
  revert now r s. induction ops as [|[o now'] ops IH]; intros now r s HR Hs; [done|].
  destruct Hs as [Hn Hs].
  assert (schedule_related now' r s) as HR0 by (intros t name Ht; apply HR; lra).
  assert (exists r', rd_schedule_exec prefix o now' r = (Return (memory_schedule_exec o s).1, r') /\
    schedule_related now' r' (memory_schedule_exec o s).2) as (r' & E & HR').
  { clear IH Hs HR. destruct o as [name due|name]; simpl;
      unfold rd_claim, lua_claim, rd_last_fired, mbind, py_mbind, py_bind, claim, schedule_last_fired;
      destruct (get_law (prefix +:+ name) now' r) as (r1 & Hu & ->);
      assert (schedule_related now' r1 s) as HR1 by (intros t n Ht; rewrite Hu by done; by apply HR0);
      rewrite (HR0 now' name) by lra; destruct (s !! name) as [last|]; simpl.
    - destruct (_ >=? _)%py; [by exists r1|].
      destruct (rd_set_due now' r1 s name due HR1) as (r2 & -> & HR2). by exists r2.
    - destruct (rd_set_due now' r1 s name due HR1) as (r2 & -> & HR2). by exists r2.
    - by exists r1.
    - by exists r1. }
  cbn [run fst snd]. rewrite E. specialize (IH now' r' _ HR').
  cbn [fmap list_fmap run fst]. destruct (memory_schedule_exec o s) as [a s']. simpl in *.
  destruct (run _ ops r') as [rs r2], (run memory_schedule_exec ops.*1 s') as [rs' s2]. simpl in *.
  by rewrite IH.
Qed.
End Schedule.

(** ** [RedisLeaderElectionAdapter] *)

Definition leader_fields : list string :=
  ["holder"; "lease_duration"; "acquired_at"; "renewed_at"; "transitions"; "metadata"]%string.

Section Election.
Context {R : Type} `{RedisServer R}.
(** Lua's [tostring] of a number keeps 14 digits; [json.dumps] and [json.loads]
    of the metadata. *)
Context (lua14 : Q -> Q) (json_dumps : gmap string string -> string)
  (json_loads : string -> outcome exn (gmap string string)).

(** [tonumber] of a stored field *)
Definition lua_number (c : option cell) : py R exn Q :=
  match c with Some (Number q) => mret q | _ => lua_error end.

(** [_LUA_ACQUIRE_OR_RENEW]: the fields of the resulting record. *)
Definition lua_acquire_or_renew (key token : string) (duration : Q) (metadata : string) (now : Q) :
    py R exn (list (option cell)) :=
  stored ← redis_hmget key leader_fields now;
  match stored with
  | None :: _ =>
      _ ← redis_hset key
        [("holder", Text token); ("lease_duration", Number (lua14 duration));
         ("acquired_at", Number (lua14 now)); ("renewed_at", Number (lua14 now));
         ("transitions", Number 0); ("metadata", Text metadata)]%string now;
      redis_hmget key leader_fields now
  | [Some holder; prev_lease; _; prev_renewed_at; prev_transitions; _] =>
      prev_renewed_at ← lua_number prev_renewed_at;
      prev_lease ← lua_number prev_lease;
      prev_transitions ← lua_number prev_transitions;
      let live := (now <? prev_renewed_at + prev_lease)%py in
      let same := match holder with Text h => bool_decide (h = token) | Number _ => false end in
      if live && negb same then mret stored
      else if live then
        _ ← redis_hset key
          [("lease_duration", Number (lua14 duration)); ("renewed_at", Number (lua14 now));
           ("metadata", Text metadata)]%string now;
        redis_hmget key leader_fields now
      else
        let transitions := if same then prev_transitions else (prev_transitions + 1)%Q in
        _ ← redis_hset key
          [("holder", Text token); ("lease_duration", Number (lua14 duration));
           ("acquired_at", Number (lua14 now)); ("renewed_at", Number (lua14 now));
           ("transitions", Number (lua14 transitions)); ("metadata", Text metadata)]%string now;
        redis_hmget key leader_fields now
  | _ => lua_error
  end.

(** [_LUA_RELEASE] *)
Definition lua_leader_release (key token : string) (now : Q) : py R exn bool :=
  stored ← redis_hmget key ["holder"; "lease_duration"; "renewed_at"]%string now;
  match stored with
  | None :: _ => mret false
  | [Some holder; lease; renewed_at] =>
      renewed_at ← lua_number renewed_at;
      lease ← lua_number lease;
      let live := (now <? renewed_at + lease)%py in
      if live && match holder with Text h => bool_decide (h = token) | Number _ => false end then
        _ ← redis_del key now;
        mret true
      else mret false
  | _ => lua_error
  end.

(** [_LUA_GET] *)
Definition lua_leader_get (key : string) (now : Q) : py R exn (option (list (option cell))) :=
  stored ← redis_hmget key leader_fields now;
  match stored with
  | None :: _ => mret None
  | [Some _; lease; _; renewed_at; _; _] =>
      renewed_at ← lua_number renewed_at;
      lease ← lua_number lease;
      mret (if (now <? renewed_at + lease)%py then Some stored else None)
  | _ => lua_error
  end.

(** [_to_record]; a missing field, and text where a number belongs, raise
    [ValueError]. *)
Definition _to_record (raw : list (option cell)) : outcome exn LeaderRecord :=
  match raw with
  | [Some (Text holder); Some (Number lease); Some (Number acquired_at); Some (Number renewed_at);
     Some (Number transitions); Some (Text metadata)] =>
      match json_loads metadata with
      | Return m => Return (mkLeaderRecord holder lease acquired_at renewed_at (py_int transitions) m)
      | Raise e => Raise e
      end
  | _ => Raise (mk_exn ValueError NoInfo)
  end.

(** What is computed from a reply, on the client. *)
Definition reply {A} (o : outcome exn A) : py R exn A := fun r => (o, r).

(** [acquire_or_renew], [release] and [get] *)
Definition rd_acquire_or_renew (prefix name token : string) (duration : Q)
    (metadata : option (gmap string string)) (now : Q) : py R exn LeaderRecord :=
  raw ← lua_acquire_or_renew (prefix +:+ name) token duration (json_dumps (default ∅ metadata)) now;
  reply (_to_record raw).

Definition rd_leader_release (prefix name token : string) (now : Q) : py R exn bool :=
  lua_leader_release (prefix +:+ name) token now.

Definition rd_leader_get (prefix name : string) (now : Q) : py R exn (option LeaderRecord) :=
  raw ← lua_leader_get (prefix +:+ name) now;
  match raw with
  | None => mret None
  | Some raw => rec ← reply (_to_record raw); mret (Some rec)
  end.

Inductive election_op : Type :=
  | EAcquire (name token : string) (duration : Q) (metadata : option (gmap string string))
  | ERelease (name token : string)
  | EGet (name : string).

Inductive election_reply : Type :=
  | ERecord (rec : LeaderRecord) | EReleased (b : bool) | EGot (rec : option LeaderRecord).

Definition rd_election_exec (prefix : string) (o : election_op) (now : Q) : py R exn election_reply :=
  match o with
  | EAcquire name token d m => rec ← rd_acquire_or_renew prefix name token d m now; mret (ERecord rec)
  | ERelease name token => b ← rd_leader_release prefix name token now; mret (EReleased b)
  | EGet name => rec ← rd_leader_get prefix name now; mret (EGot rec)
  end.

(** The same calls on the adapter in memory, with the stamps and durations that
    [tostring] writes. *)
Definition memory_election_exec (o : election_op * Q) (s : Records) : election_reply * Records :=
  let '(o, now) := o in
  match o with
  | EAcquire name token d m =>
      let '(rec, s) := acquire_or_renew name token (lua14 d) m (lua14 now) now s in (ERecord rec, s)
  | ERelease name token => let '(b, s) := leader_release name token now s in (EReleased b, s)
  | EGet name => (EGot (leader_live name now s), s)
  end.
End Election.

Section ElectionRefines.
Context {R : Type} `{RedisLaws R} (prefix : string).
Context (lua14 : Q -> Q) (json_dumps : gmap string string -> string)
  (json_loads : string -> outcome exn (gmap string string)).
(** 14 digits are enough for an integer below 10^14, and JSON keeps a mapping of
    strings. *)
Context (lua14_integer : forall n, 0 <= n < 10 ^ 14 -> lua14 (inject_Z n) = inject_Z n).
Context (json_round_trip : forall m, json_loads (json_dumps m) = Return m).
Implicit Types (r : R) (s : Records) (rec : LeaderRecord).

Definition record_reply rec : list (option cell) :=
  [Some (Text (lr_holder rec)); Some (Number (lr_lease_duration rec)); Some (Number (lr_acquired_at rec));
   Some (Number (lr_renewed_at rec)); Some (Number (inject_Z (lr_transitions rec)));
   Some (Text (json_dumps (lr_metadata rec)))].

Definition record_hash rec (h : gmap string cell) : Prop := map (fun f => h !! f) leader_fields = record_reply rec.

(** The hashes are the records; [bound] bounds the changes of leader. *)
Definition records_related (bound : Z) (now : Q) r s : Prop := forall name,
  match s !! name with
  | None => forall t, (now <= t)%Q -> redis_view r t (prefix +:+ name) = None
  | Some rec => 0 <= lr_transitions rec <= bound /\
      exists h, record_hash rec h /\ forall t, (now <= t)%Q -> redis_view r t (prefix +:+ name) = Some (RHash h)
  end.

Lemma records_related_later bound bound' now now' r s : bound <= bound' -> (now <= now')%Q ->
  records_related bound now r s -> records_related bound' now' r s.
Proof.
  intros Hb Hle HR name. specialize (HR name). destruct (s !! name) as [rec|].
  - destruct HR as (H1 & h & H2 & H3). split; [lia|]. exists h. split; [done|]. intros t Ht. apply H3. lra.
  - intros t Ht. apply HR. lra.
Qed.

Lemma records_related_unchanged bound now r r' s : redis_unchanged now r r' ->
  records_related bound now r s -> records_related bound now r' s.
Proof.
  intros Hu HR name. specialize (HR name). destruct (s !! name) as [rec|].
  - destruct HR as (H1 & h & H2 & H3). split; [done|]. exists h. split; [done|]. intros t Ht. rewrite Hu by done. auto.
  - intros t Ht. rewrite Hu by done. auto.
Qed.

Lemma to_record_reply rec : 0 <= lr_transitions rec -> _to_record json_loads (record_reply rec) = Return rec.
Proof.
  intros Ht. destruct rec as [holder lease acq ren tr m]. unfold record_reply. simpl in *. rewrite json_round_trip.
  rewrite py_int_nonneg, Qfloor_Z; [done|]. by rewrite (Zle_Qle 0) in Ht.
Qed.

Lemma hmget_record bound now r s name : records_related bound now r s ->
  exists r', records_related bound now r' s /\ redis_unchanged now r r' /\
    redis_hmget (prefix +:+ name) leader_fields now r =
    (Return (match s !! name with Some rec => record_reply rec | None => map (fun _ => None) leader_fields end), r').
Proof.
  intros HR. destruct (hmget_law (prefix +:+ name) leader_fields now r) as (r' & Hu & E). exists r'.
  split; [by eapply records_related_unchanged|]. split; [done|]. rewrite E. pose proof (HR name) as Hn.
  destruct (s !! name) as [rec|]; [|by rewrite Hn by lra].
  destruct Hn as (_ & h & Hh & Hv). rewrite Hv by lra. by rewrite Hh.
Qed.

(** Writing fields that turn the record of [name] into [rec], and reading it. *)
Lemma hset_record bound now r s name fields rec : records_related bound now r s ->
  0 <= lr_transitions rec <= bound ->
  (forall h, match s !! name with Some old => record_hash old h | None => h = ∅ end ->
     record_hash rec (hash_set fields h)) ->
  exists r', py_bind (redis_hset (prefix +:+ name) fields now)
      (fun _ => redis_hmget (prefix +:+ name) leader_fields now) r = (Return (record_reply rec), r') /\
    records_related bound now r' (<[name := rec]> s).
Proof.
  intros HR Ht Hf. pose proof (HR name) as Hn. unfold py_bind.
  assert (exists h, (redis_view r now (prefix +:+ name) = None /\ h = ∅ \/
    redis_view r now (prefix +:+ name) = Some (RHash h)) /\ record_hash rec (hash_set fields h) /\
    forall t, (now <= t)%Q -> keeps_deadline r (prefix +:+ name) now (RHash (hash_set fields h)) t =
      Some (RHash (hash_set fields h))) as (h & Hview & Hrec & Hkeep).
  { unfold keeps_deadline. destruct (s !! name) as [old|].
    - destruct Hn as (_ & h & Hh & Hv). exists h. rewrite Hv by lra. split; [by right|]. split; [by apply Hf|].
      intros t Hle. by rewrite Hv.
    - exists ∅. rewrite Hn by lra. split; [by left|]. split; [by apply Hf|]. done. }
  destruct (hset_law (prefix +:+ name) fields now r h Hview) as (r1 & -> & Hc).
  assert (records_related bound now r1 (<[name := rec]> s)) as HR1.
  { intros n. destruct (decide (n = name)) as [->|Hne].
    - rewrite lookup_insert_eq. split; [done|]. exists (hash_set fields h). split; [done|]. intros t Hle.
      rewrite (redis_changed_same _ _ _ _ _ _ Hc) by done. by apply Hkeep.
    - rewrite lookup_insert_ne by done. pose proof (HR n) as Hn'.
      assert (forall t, (now <= t)%Q -> redis_view r1 t (prefix +:+ n) = redis_view r t (prefix +:+ n)) as E.
      { intros t Hle. apply (redis_changed_other _ _ _ _ _ _ _ Hc); [done|]. by intros E%(inj (String.app prefix)). }
      destruct (s !! n) as [old|]; [|intros t Hle; rewrite E by done; by apply Hn'].
      destruct Hn' as (H1 & h' & H2 & H3). split; [done|]. exists h'. split; [done|]. intros t Hle. rewrite E by done. by apply H3. }
  destruct (hmget_record bound now r1 _ name HR1) as (r2 & HR2 & _ & ->). exists r2.
  split; [|done]. by rewrite lookup_insert_eq.
Qed.

Ltac hash_lookups :=
  unfold record_hash, record_reply, leader_fields, hash_set; cbn;
  repeat (rewrite lookup_insert_eq || rewrite lookup_insert_ne by done).

Lemma rd_acquire_record bound now r s name token d m : 0 <= bound -> bound + 1 < 10 ^ 14 -> records_related bound now r s ->
  let '(rec, s') := acquire_or_renew name token (lua14 d) m (lua14 now) now s in
  exists r', lua_acquire_or_renew lua14 (prefix +:+ name) token d (json_dumps (default ∅ m)) now r =
      (Return (record_reply rec), r') /\
    0 <= lr_transitions rec /\ records_related (bound + 1) now r' s'.
Proof.
  intros Hb0 Hb HR. unfold lua_acquire_or_renew, mbind, py_mbind. unfold py_bind at 1.
  destruct (hmget_record bound now r s name HR) as (r1 & HR1 & _ & ->).
  assert (records_related (bound + 1) now r1 s) as HR2 by (eapply records_related_later; [| |exact HR1]; [lia|lra]).
  pose proof (HR1 name) as Hn. unfold acquire_or_renew, leader_live.
  destruct (s !! name) as [old|] eqn:Es.
  - destruct Hn as (Htr & _). unfold record_reply at 1, lua_number, mret, py_mret, py_bind, py_ret.
    cbv beta iota zeta.
    assert ((now >=? lr_renewed_at old + lr_lease_duration old)%py =
            negb (now <? lr_renewed_at old + lr_lease_duration old)%py) as ->.
    { destruct (Qle_bool_spec (lr_renewed_at old + lr_lease_duration old) now),
        (Qlt_bool_spec now (lr_renewed_at old + lr_lease_duration old)); simpl; done || lra. }
    destruct (_ <? _)%py; simpl.
    + destruct (decide (lr_holder old = token)) as [E|E].
      * rewrite (decide_False (P := lr_holder old <> token)) by tauto. rewrite bool_decide_true by done. simpl.
        edestruct (hset_record (bound + 1) now r1 s name) as (r2 & E2 & HR3); [exact HR2| | |exists r2; split; [exact E2|split; [|exact HR3]]].
        -- simpl. lia.
        -- intros h. rewrite Es. intros Hh. revert Hh. hash_lookups. intros [= -> _ -> _ -> _]. done.
        -- simpl. lia.
      * rewrite (decide_True (P := lr_holder old <> token)) by done. rewrite bool_decide_false by done. simpl.
        exists r1. split; [done|]. split; [lia|done].
    + set (tr := if decide (lr_holder old = token) then lr_transitions old else lr_transitions old + 1).
      assert (0 <= tr <= bound + 1) as Ht by (unfold tr; case_decide; lia).
      assert (lua14 (if bool_decide (lr_holder old = token) then inject_Z (lr_transitions old)
        else inject_Z (lr_transitions old) + 1)%Q = inject_Z tr) as ->.
      { unfold tr. destruct (decide (lr_holder old = token)) as [E|E].
        - rewrite bool_decide_true by done. apply lua14_integer. lia.
        - rewrite bool_decide_false by done. change 1%Q with (inject_Z 1). rewrite inject_Z_add. apply lua14_integer. lia. }
      edestruct (hset_record (bound + 1) now r1 s name) as (r2 & E2 & HR3); [exact HR2| | |exists r2; split; [exact E2|split; [|exact HR3]]].
      * simpl. exact Ht.
      * intros h. rewrite Es. intros _. by hash_lookups.
      * simpl. lia.
  - simpl. edestruct (hset_record (bound + 1) now r1 s name) as (r2 & E2 & HR3); [exact HR2| | |exists r2; split; [exact E2|split; [|exact HR3]]].
    + simpl. lia.
    + intros h. rewrite Es. intros ->. by hash_lookups.
    + done.
Qed.

Lemma live_test now rec :
  (now >=? lr_renewed_at rec + lr_lease_duration rec)%py = negb (now <? lr_renewed_at rec + lr_lease_duration rec)%py.
Proof.
  destruct (Qle_bool_spec (lr_renewed_at rec + lr_lease_duration rec) now),
    (Qlt_bool_spec now (lr_renewed_at rec + lr_lease_duration rec)); simpl; done || lra.
Qed.

Lemma rd_release_record bound now r s name token : records_related bound now r s ->
  let '(b, s') := leader_release name token now s in
  exists r', lua_leader_release (prefix +:+ name) token now r = (Return b, r') /\ records_related bound now r' s'.
Proof.
  intros HR. unfold lua_leader_release, mbind, py_mbind, py_bind.
  destruct (hmget_law (prefix +:+ name) ["holder"; "lease_duration"; "renewed_at"]%string now r) as (r1 & Hu & ->).
  apply (records_related_unchanged bound now r r1 s Hu) in HR as HR1.
  unfold leader_release, leader_live. pose proof (HR name) as Hn.
  destruct (s !! name) as [rec|]; [|rewrite Hn by lra; by exists r1].
  destruct Hn as (_ & h & Hh & Hv). rewrite Hv by lra. unfold record_hash, record_reply, leader_fields in Hh. simpl in Hh.
  injection Hh as E1 E2 E3 E4 E5 E6. simpl. rewrite E1, E2, E4. simpl. rewrite live_test.
  destruct (_ <? _)%py; simpl; [|by exists r1].
  destruct (decide (lr_holder rec = token)) as [E|E].
  - rewrite bool_decide_true by done. destruct (del_law (prefix +:+ name) now r1) as (r2 & -> & Hc). exists r2.
    split; [done|]. intros n. destruct (decide (n = name)) as [->|Hne].
    + rewrite lookup_delete_eq. intros t Ht. by rewrite (redis_changed_same _ _ _ _ _ _ Hc).
    + rewrite lookup_delete_ne by done.
      assert (forall t, (now <= t)%Q -> redis_view r2 t (prefix +:+ n) = redis_view r1 t (prefix +:+ n)) as Eo.
      { intros t Ht. apply (redis_changed_other _ _ _ _ _ _ _ Hc); [done|]. by intros E'%(inj (String.app prefix)). }
      specialize (HR1 n). destruct (s !! n) as [old|]; [|intros t Ht; rewrite Eo by done; by apply HR1].
      destruct HR1 as (H1 & h' & H2 & H3). split; [done|]. exists h'. split; [done|]. intros t Ht. rewrite Eo by done. by apply H3.
  - rewrite bool_decide_false by done. by exists r1.
Qed.

Lemma rd_get_record bound now r s name : records_related bound now r s ->
  exists r', rd_leader_get json_loads prefix name now r = (Return (leader_live name now s), r') /\
    records_related bound now r' s.
Proof.
  intros HR. unfold rd_leader_get, lua_leader_get, mbind, py_mbind, py_bind.
  destruct (hmget_record bound now r s name HR) as (r1 & HR1 & _ & ->). exists r1. split; [|done].
  unfold leader_live. pose proof (HR name) as Hn. destruct (s !! name) as [rec|]; [|done].
  destruct Hn as [Ht _]. simpl. rewrite live_test. destruct (_ <? _)%py; [|done].
  unfold reply. fold (record_reply rec). by rewrite to_record_reply by lia.
Qed.

Lemma rd_election_sim bound o now r s : 0 <= bound -> bound + 1 < 10 ^ 14 -> records_related bound now r s ->
  exists r', rd_election_exec lua14 json_dumps json_loads prefix o now r =
      (Return (memory_election_exec lua14 (o, now) s).1, r') /\
    records_related (bound + 1) now r' (memory_election_exec lua14 (o, now) s).2.
Proof.
  intros Hb0 Hb HR. destruct o as [name token d m|name token|name]; simpl.
  - pose proof (rd_acquire_record bound now r s name token d m Hb0 Hb HR) as H'.
    unfold rd_acquire_or_renew, mbind, py_mbind, py_bind.
    destruct (acquire_or_renew _ _ _ _ _ _ _) as [rec s']. destruct H' as (r' & -> & Ht & HR').
    exists r'. split; [|done]. unfold reply. by rewrite to_record_reply.
  - pose proof (rd_release_record bound now r s name token HR) as H'.
    unfold rd_leader_release, mbind, py_mbind, py_bind. destruct (leader_release _ _ _ _) as [b s'].
    destruct H' as (r' & -> & HR'). exists r'. split; [done|].
    eapply records_related_later; [| |exact HR']; [lia|lra].
  - destruct (rd_get_record bound now r s name HR) as (r' & E & HR').
    unfold mbind, py_mbind, py_bind. rewrite E. exists r'. split; [done|].
    eapply records_related_later; [| |exact HR']; [lia|lra].
Qed.

Lemma rd_elections_sim bound now r s ops : 0 <= bound -> bound + Z.of_nat (List.length ops) < 10 ^ 14 ->
  records_related bound now r s -> in_clock_order now ops ->
  (run (fun o r => rd_election_exec lua14 json_dumps json_loads prefix o.1 o.2 r) ops r).1 =
  Return <$> (run (memory_election_exec lua14) ops s).1.
Proof.
  revert bound now r s. induction ops as [|[o now'] ops IH]; intros bound now r s Hb0 Hb HR Ht; [done|].
  destruct Ht as [Hle Ht]. cbn [List.length] in Hb.
  destruct (rd_election_sim bound o now' r s) as (r' & E & HR'); [lia|lia| |].
  { eapply records_related_later; [| |exact HR]; [lia|done]. }
  cbn [run fst snd]. rewrite E. specialize (IH (bound + 1) now' r' _ ltac:(lia) ltac:(lia) HR' Ht).
  destruct (memory_election_exec lua14 (o, now') s) as [a s']. simpl in *.
  destruct (run _ ops r') as [rs r2], (run (memory_election_exec lua14) ops s') as [rs' s2]. simpl in *. by subst.
Qed.
End ElectionRefines.

(** No record of the adapters. *)
Definition no_records {R} `{RedisServer R} (prefix : string) (now : Q) (r : R) : Prop :=
  forall t name, (now <= t)%Q -> redis_view r t (prefix +:+ name) = None.

(** (equivalence): over any Redis server, the election adapters of one prefix
    answer what one adapter in memory answers, call by call, with the durations
    and the stamps of the server's clock rounded to the 14 digits that Lua writes: so
    what is proved of the records in memory (one leader at a time, transitions
    counted) holds of every process on the server. *)
Lemma redis_election_is_the_memory_one {R} `{RedisLaws R} :
  forall lua14 json_dumps json_loads prefix now (r : R) ops,
  (forall n, 0 <= n < 10 ^ 14 -> lua14 (inject_Z n) = inject_Z n) ->
  (forall m, json_loads (json_dumps m) = Return m) ->
  no_records prefix now r -> in_clock_order now ops -> Z.of_nat (List.length ops) < 10 ^ 14 ->
  (run (fun o r => rd_election_exec lua14 json_dumps json_loads prefix o.1 o.2 r) ops r).1 =
  Return <$> (run (memory_election_exec lua14) ops ∅).1.
Proof.
  intros lua14 dumps loads prefix now r ops H1 H2 Hr Ht Hb.
  apply (rd_elections_sim prefix lua14 dumps loads H1 H2 0 now); [done|lia| |done].
  intros name. rewrite lookup_empty. intros t Hle. by apply Hr.
Qed.

(** A coding of mappings as texts, and a rounding to four decimals. *)
Definition demo_dumps (m : gmap string string) : string := str (Z.pos (encode m)).
Definition demo_loads (s : string) : outcome exn (gmap string string) :=
  match int_of_string s with
  | Some (Z.pos p) => match decode p with Some m => Return m | None => Raise (mk_exn ValueError NoInfo) end
  | _ => Raise (mk_exn ValueError NoInfo)
  end.
Definition demo_lua14 (q : Q) : Q :=
  if Pos.eqb (Qden q) 1 then q else Qfloor (q * 10000 + (1 # 2)) # 10000.

Lemma demo_round_trip m : demo_loads (demo_dumps m) = Return m.
Proof. unfold demo_loads, demo_dumps. rewrite int_of_str by lia. by rewrite decode_encode. Qed.

Definition election_demo : list (election_op * Q) :=
  [(EAcquire "leader:a" "w1" 10 None, 1000001 # 1000000); (EAcquire "leader:a" "w2" 10 None, 5);
   (EAcquire "leader:a" "w1" 10 None, 6); (EGet "leader:a", 15); (ERelease "leader:a" "w2", 15);
   (EAcquire "leader:a" "w2" 10 None, 17); (EGet "leader:a", 40)]%Q.

Lemma redis_election_is_the_memory_one_witness :
  (run (fun o r => rd_election_exec demo_lua14 demo_dumps demo_loads "app:" o.1 o.2 r) election_demo (∅ : store)).1 =
  Return <$> (run (memory_election_exec demo_lua14) election_demo ∅).1 /\
  match (run (memory_election_exec demo_lua14) election_demo ∅).1 with
  | [ERecord a; ERecord b; ERecord c; EGot (Some d); EReleased e; ERecord f; EGot None] =>
      lr_holder a = "w1"%string /\ lr_holder b = "w1"%string /\ (lr_acquired_at d == 1)%Q /\ e = false /\
      lr_holder f = "w2"%string /\ lr_transitions f = 1
  | _ => False
  end.
Proof.
  split; [|vm_compute; repeat split].
  apply (redis_election_is_the_memory_one demo_lua14 demo_dumps demo_loads "app:" 0 (∅ : store) election_demo).
  - intros n _. done.
  - apply demo_round_trip.
  - intros t name _. simpl. unfold store_view. by rewrite lookup_empty.
  - vm_compute; repeat split; discriminate.
  - done.
Defined.
