(* ===== verification/RedisLimiter.v ===== *)
(** * Rate limiting on Redis

    [grelmicro/resilience/ratelimiter/redis.py]: the Lua scripts of the token bucket
    and of the sliding window, and the strategies that send them, over any server
    with the laws of [Redis].  The clock is that of the scripts: seconds since the
    first of January 2017 on the server.  [lua14] is what [tostring] keeps of a
    number in a reply. *)

From S2P Require Import Prelude Errors RateLimitMemory SqliteLimiter Redis RedisCoordination.
From Stdlib Require Import Lqa.

Local Open Scope Q_scope.

Section Scripts.
Context {R : Type} `{RedisServer R} (lua14 : Q -> Q).

(** What a script returns: allowed, remaining, retry_after and reset_after. *)
Definition lua_reply : Type := bool * Z * Q * Q.

(** Seconds until a key is not needed. *)
Definition expiry (reset_after : Q) : Z := seconds (Z.max 1 (Qceiling reset_after)).

(** ** [_RedisTokenBucket] *)

(** The tokens of a key at [now]: [HMGET] and the continuous refill. *)
Definition lua_tokens (key : string) (c : TokenBucketConfig) (now : Q) : py R exn Q :=
  stored ← redis_hmget key ["tokens"; "last"]%string now;
  match stored with
  | None :: _ => mret (py_min (tb_cap c) (tb_cap c + (now - now) * refill_rate c))
  | [Some (Number tokens); Some (Number last)] =>
      mret (py_min (tb_cap c) (tokens + (now - last) * refill_rate c))
  | _ => lua_error
  end.

(** [_LUA_ACQUIRE] *)
Definition lua_tb_acquire (key : string) (c : TokenBucketConfig) (cost : Q) (now : Q) : py R exn lua_reply :=
  tokens ← lua_tokens key c now;
  if (tokens >=? cost)%py then
    let remaining := tokens - cost in
    let reset_after := (tb_cap c - remaining) / refill_rate c in
    _ ← redis_hset key [("tokens", Number remaining); ("last", Number now)]%string now;
    _ ← redis_pexpire key (expiry reset_after) now;
    mret (true, Qfloor remaining, 0, lua14 reset_after)
  else
    let retry_after := (cost - tokens) / refill_rate c in
    let reset_after := (tb_cap c - tokens) / refill_rate c in
    _ ← redis_hset key [("tokens", Number tokens); ("last", Number now)]%string now;
    _ ← redis_pexpire key (expiry reset_after) now;
    mret (false, Qfloor tokens, lua14 retry_after, lua14 reset_after).

(** [_LUA_PEEK] *)
Definition lua_tb_peek (key : string) (c : TokenBucketConfig) (now : Q) : py R exn lua_reply :=
  tokens ← lua_tokens key c now;
  mret (if (tokens >=? 1)%py
        then (true, Qfloor tokens, 0, lua14 ((tb_cap c - tokens) / refill_rate c))
        else (false, Qfloor tokens, lua14 ((1 - tokens) / refill_rate c),
              lua14 ((tb_cap c - tokens) / refill_rate c))).

(** ** [_RedisGCRA] *)

Definition lua_tat (key : string) (now : Q) : py R exn Q :=
  tat ← redis_get key now;
  match tat with
  | None => mret now
  | Some (Number tat) => mret tat
  | Some (Text _) => lua_error
  end.

(** [_LUA_ACQUIRE] of a limit [burst] and a rate of [rate] in [period] *)
Definition lua_gcra_acquire (key : string) (burst rate : Z) (period : Q) (cost : Z) (now : Q) : py R exn lua_reply :=
  let emission_interval := period / inject_Z rate in
  let increment := emission_interval * inject_Z cost in
  let burst_offset := emission_interval * inject_Z burst in
  tat ← lua_tat key now;
  let new_tat := py_max tat now + increment in
  let allow_at := new_tat - burst_offset in
  let diff := now - allow_at in
  let remaining := Qfloor (diff / emission_interval + (1 # 2)) in
  if (remaining <? 0)%Z then mret (false, 0%Z, lua14 (- diff), lua14 (tat - now))
  else
    let reset_after := new_tat - now in
    _ ← redis_set key (Number new_tat) (Some (expiry reset_after)) now;
    mret (true, remaining, 0, lua14 reset_after).

(** [_LUA_PEEK] *)
Definition lua_gcra_peek (key : string) (rate : Z) (period : Q) (now : Q) : py R exn lua_reply :=
  let emission_interval := period / inject_Z rate in
  tat ← lua_tat key now;
  let new_tat := py_max tat now in
  let allow_at := new_tat - period in
  let diff := now - allow_at in
  let remaining := Qfloor (diff / emission_interval + (1 # 2)) in
  mret (if (remaining <=? 0)%Z then
          let retry_after := if (remaining <? 0)%Z then - diff else emission_interval - diff in
          (false, 0%Z, lua14 (py_max 0 retry_after), lua14 (py_max 0 (tat - now)))
        else (true, remaining, 0, lua14 (new_tat - now))).

(** ** The strategies *)

Definition to_result (limit : Z) (r : lua_reply) : RateLimitResult :=
  let '(allowed, remaining, retry_after, reset_after) := r in
  mkResult allowed limit remaining retry_after reset_after.

(** [acquire], [peek] and [reset] of the strategy that [bind] picks; a key is prefixed
    as on SQLite. *)
Definition rd_limiter_exec (prefix : string) (c : RateLimiterConfig) (o : limiter_op) (now : Q) :
    py R exn (option RateLimitResult) :=
  match c, o with
  | TokenBucket c, OAcquire key cost _ =>
      r ← lua_tb_acquire (tb_key prefix key) c (inject_Z cost) now; mret (Some (to_result (capacity c) r))
  | TokenBucket c, OPeek key _ =>
      r ← lua_tb_peek (tb_key prefix key) c now; mret (Some (to_result (capacity c) r))
  | TokenBucket c, OReset key => _ ← redis_del (tb_key prefix key) now; mret None
  | SlidingWindow c, OAcquire key cost _ =>
      r ← lua_gcra_acquire (gcra_key prefix key) (sw_limit c) (sw_limit c) (window c) cost now;
      mret (Some (to_result (sw_limit c) r))
  | SlidingWindow c, OPeek key _ =>
      r ← lua_gcra_peek (gcra_key prefix key) (sw_limit c) (window c) now;
      mret (Some (to_result (sw_limit c) r))
  | SlidingWindow c, OReset key => _ ← redis_del (gcra_key prefix key) now; mret None
  end.

(** A result with the times that [tostring] writes. *)
Definition rounded (r : RateLimitResult) : RateLimitResult :=
  mkResult (allowed r) (limit r) (remaining r) (lua14 (retry_after r)) (lua14 (reset_after r)).
End Scripts.

(** ** Two ideal limiters *)

Section Refines.
Context {R : Type} `{RedisLaws R} (lua14 : Q -> Q).
Context {lua14_proper : Proper (Qeq ==> Qeq) lua14} (lua14_zero : lua14 0 == 0).
Context (prefix : string) (ctb : TokenBucketConfig) (csw : SlidingWindowConfig).
Context (Htb : tb_config_valid ctb) (Hsw : sw_config_valid csw).
Implicit Types (r : R) (b : ideal_bucket) (g : string -> option Q).

Let cap := tb_cap ctb.
Let rate := refill_rate ctb.

(** What the value of a key says at an instant. *)
Definition bucket_view (v : option rvalue) (t level : Q) : Prop :=
  (v = None /\ level == cap) \/
  exists h tokens last, v = Some (RHash h) /\ h !! "tokens"%string = Some (Number tokens) /\
    h !! "last"%string = Some (Number last) /\ 0 <= tokens /\ last <= t /\
    level == py_min cap (tokens + (t - last) * rate).

Definition tat_view (v : option rvalue) (t tat : Q) : Prop :=
  (v = None /\ tat == t) \/ exists x, v = Some (RCell (Number x)) /\ tat == py_max x t.

Definition limiters_related (now : Q) r (s : ideal_bucket * (string -> option Q)) : Prop :=
  ib_now s.1 <= now /\
  (forall key t, now <= t -> bucket_view (redis_view r t (tb_key prefix key)) t (ideal_at ctb s.1 key t)) /\
  (forall key t, now <= t -> tat_view (redis_view r t (gcra_key prefix key)) t (ideal_tat s.2 key t)).

Lemma bucket_view_proper v t lv lv' : lv == lv' -> bucket_view v t lv -> bucket_view v t lv'.
Proof.
  intros E [[Hv H1]|(h & tk & l & H1)]; [left|right]; [split; [done|lra]|].
  exists h, tk, l. destruct H1 as (? & ? & ? & ? & ? & H1). split_and!; try done. by rewrite <- E.
Qed.

Lemma bucket_view_bounds v t lv : bucket_view v t lv -> 0 <= lv <= cap.
Proof.
  pose proof (tb_cap_pos ctb Htb) as Hc. pose proof (tb_rate_pos ctb Htb) as Hr. fold cap in Hc. fold rate in Hr.
  intros [[_ H1]|(h & tk & l & _ & _ & _ & H2 & H3 & H1)]; [lra|]. rewrite H1.
  assert (0 <= (t - l) * rate) by (apply Qmult_le_0_compat; lra). unfold py_min. repeat qcase1; lra.
Qed.

Lemma limiters_related_later now now' r s : now <= now' -> limiters_related now r s -> limiters_related now' r s.
Proof. intros Hle (H1 & H2 & H3). split_and!; [lra| |]; intros key t Ht; [apply H2|apply H3]; lra. Qed.

Lemma limiters_related_unchanged now r r' s : redis_unchanged now r r' ->
  limiters_related now r s -> limiters_related now r' s.
Proof. intros Hu (H1 & H2 & H3). split_and!; [done| |]; intros key t Ht; rewrite Hu by done; auto. Qed.

(** Levels at a later instant, from those at [now]. *)
Lemma ideal_at_later b key now t : ib_now b <= now -> now <= t ->
  py_min cap (ideal_at ctb b key now + (t - now) * rate) == ideal_at ctb b key t.
Proof.
  intros H1 H2. pose proof (tb_rate_pos ctb Htb) as Hr. unfold ideal_at. fold cap rate. fold rate in Hr.
  assert (0 <= (t - now) * rate) by (apply Qmult_le_0_compat; lra).
  assert ((t - ib_now b) * rate == (now - ib_now b) * rate + (t - now) * rate) as E by ring.
  rewrite E. unfold py_min. repeat qcase1; lra.
Qed.

(** A key that is gone was not needed. *)
Lemma expiry_passed now t reset : lives_for (expiry reset) now (Some (RHash ∅)) t = None -> now + reset <= t.
Proof.
  unfold lives_for, expiry, seconds, redis_ms. destruct (Z.leb_spec (Qfloor (t * 1000)) (Qfloor (now * 1000) + 1000 * Z.max 1 (Qceiling reset)));
    [done|]. intros _.
  pose proof (Qfloor_le (t * 1000)) as Ht. pose proof (Qlt_floor (now * 1000)) as Hn.
  pose proof (Qle_ceiling reset) as Hc.
  set (a := Qfloor (now * 1000)) in *. set (b := Qfloor (t * 1000)) in *. set (s := Qceiling reset) in *.
  assert (inject_Z (a + 1) + inject_Z 1000 * inject_Z s <= inject_Z b) as Hle.
  { rewrite <- inject_Z_mult, <- inject_Z_plus, <- inject_Z_le. lia. }
  change (inject_Z 1000) with 1000 in Hle. lra.
Qed.

Lemma lives_for_cases ms now v t : lives_for ms now (Some v) t = Some v \/
  (lives_for ms now (Some v) t = None /\ forall w, lives_for ms now (Some w) t = None).
Proof. unfold lives_for. destruct (_ <=? _)%Z; [by left|by right]. Qed.

(** The reading of a bucket. *)
Lemma lua_tokens_spec now r b g key : limiters_related now r (b, g) ->
  exists tk r', lua_tokens (tb_key prefix key) ctb now r = (Return tk, r') /\
    limiters_related now r' (b, g) /\ tk == ideal_at ctb b key now /\ 0 <= tk <= cap /\
    (redis_view r' now (tb_key prefix key) = None \/ exists h, redis_view r' now (tb_key prefix key) = Some (RHash h)).
Proof.
  intros HR. unfold lua_tokens, mbind, py_mbind, py_bind.
  destruct (hmget_law (tb_key prefix key) ["tokens"; "last"]%string now r) as (r1 & Hu & ->).
  pose proof (limiters_related_unchanged _ _ _ _ Hu HR) as HR1.
  destruct HR as (Hn & Hb & _). specialize (Hb key now (Qle_refl _)). cbn [fst] in Hb.
  pose proof (bucket_view_bounds _ _ _ Hb) as Hbd.
  assert (redis_view r1 now (tb_key prefix key) = redis_view r now (tb_key prefix key)) as Ev by (apply Hu; lra).
  destruct Hb as [[Hv E]|(h & tk & l & Hv & H1 & H2 & H3 & H4 & E)]; rewrite Hv in *; cbn [map].
  - eexists _, r1. split; [done|]. split; [done|]. split; [|split; [|by left]]; fold cap rate.
    + rewrite E. unfold py_min. repeat qcase1; lra.
    + unfold py_min. repeat qcase1; lra.
  - rewrite H1, H2. eexists _, r1. split; [done|]. split; [done|]. fold cap rate.
    split; [by rewrite E|]. split; [by rewrite <- E|]. right. by exists h.
Qed.

(** Writing a bucket that has [lv] tokens left. *)
Lemma bucket_write now r b g key lv lv' : limiters_related now r (b, g) ->
  (redis_view r now (tb_key prefix key) = None \/ exists h, redis_view r now (tb_key prefix key) = Some (RHash h)) ->
  0 <= lv <= cap -> lv == lv' ->
  exists r1 r2, redis_hset (tb_key prefix key) [("tokens", Number lv); ("last", Number now)]%string now r = (Return tt, r1) /\
    redis_pexpire (tb_key prefix key) (expiry ((cap - lv) / rate)) now r1 = (Return tt, r2) /\
    limiters_related now r2 (mkIdeal now (fun k => if decide (k = key) then lv' else ideal_at ctb b k now), g).
Proof.
  intros HR Hview Hlv Elv. pose proof HR as (Hn & Hb & Hg). cbn [fst snd] in *.
  pose proof (tb_rate_pos ctb Htb) as Hr. fold rate in Hr.
  assert (exists h, redis_view r now (tb_key prefix key) = None /\ h = ∅ \/
    redis_view r now (tb_key prefix key) = Some (RHash h)) as [h Hh].
  { destruct Hview as [Hv|[h Hv]]; [exists ∅; by left|exists h; by right]. }
  destruct (hset_law (tb_key prefix key) [("tokens", Number lv); ("last", Number now)]%string now r h Hh) as (r1 & E1 & Hc1).
  destruct (pexpire_law (tb_key prefix key) (expiry ((cap - lv) / rate)) now r1) as (r2 & E2 & Hc2).
  { unfold expiry, seconds. lia. }
  exists r1, r2. split; [done|]. split; [done|].
  set (h' := hash_set [("tokens", Number lv); ("last", Number now)]%string h) in *.
  assert (redis_view r1 now (tb_key prefix key) = Some (RHash h')) as Ev.
  { rewrite (redis_changed_same _ _ _ _ _ _ Hc1) by lra. unfold keeps_deadline. by destruct (redis_view r now _). }
  split_and!; cbn [ib_now fst snd]; [lra| |].
  - intros k t Ht. destruct (decide (k = key)) as [->|Hne].
    + rewrite (redis_changed_same _ _ _ _ _ _ Hc2) by done. rewrite Ev.
      assert (ideal_at ctb (mkIdeal now (fun k => if decide (k = key) then lv' else ideal_at ctb b k now)) key t ==
        py_min cap (lv + (t - now) * rate)) as Ei.
      { unfold ideal_at at 1. cbn. rewrite decide_True by done. by rewrite Elv. }
      destruct (lives_for_cases (expiry ((cap - lv) / rate)) now (RHash h') t) as [->|[-> Hdead]].
      * right. exists h', lv, now. split; [done|]. unfold h', hash_set. cbn.
        rewrite lookup_insert_ne, !lookup_insert_eq by done. split_and!; try done; lra.
      * left. split; [done|]. rewrite Ei. specialize (Hdead (RHash ∅)). apply expiry_passed in Hdead.
        assert ((cap - lv) / rate * rate == cap - lv) as Em by (field; lra).
        assert ((cap - lv) / rate * rate <= (t - now) * rate) by (apply Qmult_le_compat_r; lra).
        unfold py_min. repeat qcase1; lra.
    + assert (tb_key prefix k <> tb_key prefix key) as Hk by (intros E%tb_key_inj; done).
      rewrite (redis_changed_other _ _ _ _ _ _ _ Hc2), (redis_changed_other _ _ _ _ _ _ _ Hc1) by done.
      eapply bucket_view_proper; [|by apply Hb]. unfold ideal_at at 2. cbn. rewrite decide_False by done.
      symmetry. by apply ideal_at_later.
  - intros k t Ht. assert (gcra_key prefix k <> tb_key prefix key) as Hk by (intros E; by apply (tb_gcra_key prefix key k)).
    rewrite (redis_changed_other _ _ _ _ _ _ _ Hc2), (redis_changed_other _ _ _ _ _ _ _ Hc1) by done. by apply Hg.
Qed.

Definition simulated (o : algorithm * limiter_op) (now : Q) r s : Prop :=
  exists x r', rd_limiter_exec lua14 prefix (algorithm_config ctb csw o.1) o.2 now r = (Return x, r') /\
    limiters_related now r' (limits_exec ctb csw o s).2 /\
    option_Forall2 result_equiv x (rounded lua14 <$> (limits_exec ctb csw o s).1).

(** The readings of the clock in an operation are the server's, and the costs what
    [_validate_cost] lets through. *)
Definition rd_op_ok (o : (algorithm * limiter_op) * Q) : Prop :=
  match o with
  | (a, OAcquire _ cost now, now') =>
      now = now' /\ (1 <= cost <= match a with Bucket => capacity ctb | Window => sw_limit csw end)%Z
  | (_, OPeek _ now, now') => now = now'
  | (_, OReset _, _) => True
  end.

Lemma bucket_simulated o now r s : limiters_related now r s -> rd_op_ok ((Bucket, o), now) -> simulated (Bucket, o) now r s.
Proof.
  destruct s as [b g]. intros HR Hok. unfold simulated. destruct o as [key cost now'|key now'|key]; simpl in Hok.
  - destruct Hok as [-> Hcost]. cbn -[lua_tb_acquire ideal_at]. unfold lua_tb_acquire, mbind, py_mbind, py_bind.
    destruct (lua_tokens_spec now r b g key HR) as (tk & r1 & -> & HR1 & E & Hbd & Hview).
    assert ((ideal_at ctb b key now >=? inject_Z cost)%py = (tk >=? inject_Z cost)%py) as -> by (by rewrite E).
    assert (0 <= inject_Z cost) as Hc by (apply (proj1 (inject_Z_nonneg cost)); lia).
    destruct (Qle_bool_spec (inject_Z cost) tk) as [Hle|Hlt].
    + destruct (bucket_write now r1 b g key (tk - inject_Z cost) (ideal_at ctb b key now - inject_Z cost) HR1 Hview)
        as (r2 & r3 & E2 & E3 & HR3); [lra|by rewrite E|].
      fold cap rate. rewrite E2, E3. eexists _, r3. split; [done|]. split; [done|]. constructor.
      unfold result_equiv, rounded, ideal_result, to_result; cbn [allowed limit remaining retry_after reset_after]. split_and!; try done.
      * apply Qfloor_comp. by rewrite E.
      * by rewrite E.
    + destruct (bucket_write now r1 b g key tk (ideal_at ctb b key now) HR1 Hview) as (r2 & r3 & E2 & E3 & HR3); [done|done|].
      fold cap rate. rewrite E2, E3. eexists _, r3. split; [done|]. split; [done|]. constructor.
      unfold result_equiv, rounded, ideal_result, to_result; cbn [allowed limit remaining retry_after reset_after]. split_and!; try done.
      * apply Qfloor_comp. by rewrite E.
      * by rewrite E.
      * by rewrite E.
  - subst now'. cbn -[lua_tb_peek ideal_at]. unfold lua_tb_peek, mbind, py_mbind, py_bind.
    destruct (lua_tokens_spec now r b g key HR) as (tk & r1 & -> & HR1 & E & Hbd & _).
    assert ((ideal_at ctb b key now >=? 1)%py = (tk >=? 1)%py) as -> by (by rewrite E).
    destruct (tk >=? 1)%py; (eexists _, r1; split; [done|]; split; [done|]; constructor;
      unfold result_equiv, rounded, ideal_result, to_result; cbn [allowed limit remaining retry_after reset_after]; split_and!; try done;
      solve [apply Qfloor_comp; by rewrite E | by rewrite E]).
  - cbn. unfold mbind, py_mbind, py_bind. destruct (del_law (tb_key prefix key) now r) as (r1 & -> & Hc).
    eexists _, r1. split; [done|]. split; [|constructor]. destruct HR as (Hn & Hb & Hg). cbn [fst snd] in *.
    split_and!; cbn [ib_now fst snd]; [done| |].
    + intros k t Ht. destruct (decide (k = key)) as [->|Hne].
      * rewrite (redis_changed_same _ _ _ _ _ _ Hc) by done. left. split; [done|]. unfold ideal_at. cbn.
        rewrite decide_True by done. fold cap rate. pose proof (tb_rate_pos ctb Htb) as Hr. fold rate in Hr.
        assert (0 <= (t - ib_now b) * rate) by (apply Qmult_le_0_compat; lra). unfold py_min. repeat qcase1; lra.
      * rewrite (redis_changed_other _ _ _ _ _ _ _ Hc) by (try done; intros E%tb_key_inj; done).
        eapply bucket_view_proper; [|by apply Hb]. unfold ideal_at. cbn. by rewrite decide_False.
    + intros k t Ht. rewrite (redis_changed_other _ _ _ _ _ _ _ Hc) by (try done; intros E; by apply (tb_gcra_key prefix key k)).
      by apply Hg.
Qed.

(** The reading of an arrival time. *)
Lemma lua_tat_spec now r b g key : limiters_related now r (b, g) ->
  exists tat r', lua_tat (gcra_key prefix key) now r = (Return tat, r') /\
    limiters_related now r' (b, g) /\ py_max tat now == ideal_tat g key now.
Proof.
  intros HR. unfold lua_tat, mbind, py_mbind, py_bind.
  destruct (get_law (gcra_key prefix key) now r) as (r1 & Hu & ->).
  pose proof (limiters_related_unchanged _ _ _ _ Hu HR) as HR1.
  destruct HR as (_ & _ & Hg). destruct (Hg key now (Qle_refl _)) as [[-> E]|(x & -> & E)]; cbn [fst snd] in *.
  - exists now, r1. split; [done|]. split; [done|]. rewrite E. unfold py_max. by destruct (_ <? _)%py.
  - exists x, r1. split; [done|]. split; [done|]. by rewrite E.
Qed.

Lemma window_write now r b g key tat : limiters_related now r (b, g) -> now <= tat ->
  exists r', redis_set (gcra_key prefix key) (Number tat) (Some (expiry (tat - now))) now r = (Return tt, r') /\
    forall x, x == tat -> limiters_related now r' (b, fun k => if decide (k = key) then Some x else g k).
Proof.
  intros HR Htat.
  destruct (set_px_law (gcra_key prefix key) (Number tat) (expiry (tat - now)) now r) as (r' & E & Hc).
  { unfold expiry, seconds. lia. }
  exists r'. split; [done|]. intros x Hx. destruct HR as (Hn & Hb & Hg). cbn [fst snd] in *. split_and!; cbn [fst snd]; [done| |].
  - intros k t Ht. rewrite (redis_changed_other _ _ _ _ _ _ _ Hc) by (try done; apply tb_gcra_key). by apply Hb.
  - intros k t Ht. destruct (decide (k = key)) as [->|Hne].
    + rewrite (redis_changed_same _ _ _ _ _ _ Hc) by done. unfold ideal_tat. rewrite decide_True by done.
      destruct (lives_for_cases (expiry (tat - now)) now (RCell (Number tat)) t) as [->|[-> Hdead]].
      * right. exists tat. split; [done|]. by rewrite Hx.
      * left. split; [done|]. specialize (Hdead (RHash ∅)). apply expiry_passed in Hdead.
        unfold py_max. qcase1; lra.
    + rewrite (redis_changed_other _ _ _ _ _ _ _ Hc) by (try done; intros E'%gcra_key_inj; done).
      unfold ideal_tat. rewrite decide_False by done. by apply Hg.
Qed.

Lemma burst_is_window : window csw / inject_Z (sw_limit csw) * inject_Z (sw_limit csw) == window csw.
Proof. symmetry. by apply window_ei. Qed.

Lemma window_simulated o now r s : limiters_related now r s -> rd_op_ok ((Window, o), now) -> simulated (Window, o) now r s.
Proof.
  destruct s as [b g]. intros HR Hok. unfold simulated. pose proof (ei_pos csw Hsw) as Hei.
  pose proof burst_is_window as Hbw. fold (emission_interval csw) in Hbw.
  destruct o as [key cost now'|key now'|key]; simpl in Hok.
  - destruct Hok as [-> Hcost]. cbn -[lua_gcra_acquire ideal_gcra_exec]. unfold lua_gcra_acquire, mbind, py_mbind, py_bind.
    fold (emission_interval csw). destruct (lua_tat_spec now r b g key HR) as (tat & r1 & -> & HR1 & E).
    set (ei := emission_interval csw) in *. set (x := ideal_tat g key now) in *.
    assert (Qfloor ((now - (py_max tat now + ei * inject_Z cost - ei * inject_Z (sw_limit csw))) / ei + (1 # 2)) =
            (ideal_quota csw g key now - cost)%Z) as Eq.
    { unfold ideal_quota. fold ei x. rewrite <- (floor_sub_cost csw Hsw). fold ei. apply Qfloor_comp.
      rewrite E, Hbw. apply Qplus_comp; [|done]. apply Qdiv_comp; [ring|done]. }
    rewrite Eq. unfold ideal_gcra_exec. fold ei x.
    assert (((ideal_quota csw g key now - cost <? 0) = negb (cost <=? ideal_quota csw g key now))%Z) as ->.
    { destruct (Z.ltb_spec (ideal_quota csw g key now - cost) 0), (Z.leb_spec cost (ideal_quota csw g key now)); done || lia. }
    destruct (Z.leb_spec cost (ideal_quota csw g key now)) as [Hq|Hq]; cbv beta iota zeta delta [negb].
    + assert (now <= py_max tat now + ei * inject_Z cost) as Hlate.
      { assert (0 <= inject_Z cost) by (apply (proj1 (inject_Z_nonneg cost)); lia).
        assert (0 <= ei * inject_Z cost) by (apply Qmult_le_0_compat; lra). unfold py_max. qcase1; lra. }
      destruct (window_write now r1 b g key _ HR1 Hlate) as (r2 & E2 & HR2). rewrite E2.
      eexists _, r2. split; [done|]. split; [apply HR2; by rewrite E|]. constructor.
      unfold result_equiv, rounded, to_result; cbn [allowed limit remaining retry_after reset_after].
      split_and!; try done. by rewrite E.
    + eexists _, r1. split; [done|]. split; [done|]. constructor.
      unfold result_equiv, rounded, to_result; cbn [allowed limit remaining retry_after reset_after].
      assert (now - (x + ei * inject_Z cost - window csw) < 0) as Hd.
      { destruct (Qlt_le_dec (now - (x + ei * inject_Z cost - window csw)) 0) as [|Hge]; [done|]. exfalso.
        assert (0 <= Qfloor ((now - (x + ei * inject_Z cost - window csw)) / ei + (1 # 2)))%Z as Hf.
        { apply Qfloor_ge. assert (0 <= (now - (x + ei * inject_Z cost - window csw)) / ei) by (apply Qle_shift_div_l; lra).
          change (inject_Z 0) with 0. lra. }
        assert (ideal_quota csw g key now - cost < 0)%Z as Hneg by lia.
        revert Hneg Hf. unfold ideal_quota. fold ei x. rewrite <- (floor_sub_cost csw Hsw). fold ei.
        intros Hneg Hf. rewrite (Qfloor_comp _ ((now - (x + ei * inject_Z cost - window csw)) / ei + (1 # 2))) in Hneg; [lia|].
        apply Qplus_comp; [|done]. apply Qdiv_comp; [ring|done]. }
      split_and!; try done.
      * apply lua14_proper. rewrite E, Hbw. unfold py_max. qcase1; lra.
      * apply lua14_proper.
        assert (ei * inject_Z cost <= ei * inject_Z (sw_limit csw)) as Hmost.
        { apply Qmult_le_l; [done|]. apply (proj1 (inject_Z_le _ _)). lia. }
        clear Eq. revert E. unfold py_max. qcase1; intros E; lra.
  - subst now'. cbn -[lua_gcra_peek ideal_gcra_exec]. unfold lua_gcra_peek, mbind, py_mbind, py_bind.
    fold (emission_interval csw). destruct (lua_tat_spec now r b g key HR) as (tat & r1 & -> & HR1 & E).
    set (ei := emission_interval csw) in *. set (x := ideal_tat g key now) in *.
    eexists _, r1. split; [done|]. split; [done|]. constructor.
    assert (Qfloor ((now - (py_max tat now - window csw)) / ei + (1 # 2)) = ideal_quota csw g key now) as ->.
    { unfold ideal_quota. fold ei x. apply Qfloor_comp. by rewrite E. }
    fold ei x. unfold result_equiv, rounded, to_result.
    destruct (Z.leb_spec (ideal_quota csw g key now) 0) as [Hq|Hq]; cbn [allowed limit remaining retry_after reset_after].
    + rewrite (proj2 (Z.leb_gt _ _)) by lia. split_and!; try done; [lia| |].
      * apply lua14_proper. destruct (_ <? 0)%Z; by rewrite E.
      * apply lua14_proper. rewrite <- E. unfold py_max. repeat qcase1; lra.
    + rewrite (proj2 (Z.leb_le _ _)) by lia. split_and!; try done; [lia|by rewrite E].
  - cbn. unfold mbind, py_mbind, py_bind. destruct (del_law (gcra_key prefix key) now r) as (r1 & -> & Hc).
    eexists _, r1. split; [done|]. split; [|constructor]. destruct HR as (Hn & Hb & Hg). cbn [fst snd] in *.
    split_and!; cbn [fst snd]; [done| |].
    + intros k t Ht. rewrite (redis_changed_other _ _ _ _ _ _ _ Hc) by (try done; apply tb_gcra_key). by apply Hb.
    + intros k t Ht. unfold ideal_tat. destruct (decide (k = key)) as [->|Hne].
      * rewrite (redis_changed_same _ _ _ _ _ _ Hc) by done. by left.
      * rewrite (redis_changed_other _ _ _ _ _ _ _ Hc) by (try done; intros E'%gcra_key_inj; done). by apply Hg.
Qed.

Lemma limiters_simulated now r s ops : limiters_related now r s -> in_clock_order now ops -> Forall rd_op_ok ops ->
  Forall2 (fun x x' => exists y, x = Return y /\ option_Forall2 result_equiv y (rounded lua14 <$> x'))
    (run (fun o r => rd_limiter_exec lua14 prefix (algorithm_config ctb csw o.1.1) o.1.2 o.2 r) ops r).1
    (run (fun o s => limits_exec ctb csw o.1 s) ops s).1.
Proof.
  revert now r s. induction ops as [|[[a o] now'] ops IH]; intros now r s HR Ht Hok; [constructor|].
  destruct Ht as [Hle Ht]. inversion_clear Hok as [|? ? Ho Hok'].
  assert (simulated (a, o) now' r s) as (x & r' & E & HR' & Hx).
  { apply (limiters_related_later now now') in HR; [|done]. destruct a; [by apply bucket_simulated|by apply window_simulated]. }
  cbn [run fst snd] in *. rewrite E. specialize (IH now' r' _ HR' Ht Hok').
  destruct (limits_exec ctb csw (a, o) s) as [x' s']. cbn [fst snd] in *.
  destruct (run _ ops r') as [xs r2], (run _ ops s') as [xs' s2]. cbn [fst snd] in *.
  constructor; [by exists x|done].
Qed.
End Refines.

(** No key of the strategies. *)
Definition no_limits {R} `{RedisServer R} (prefix : string) (now : Q) (r : R) : Prop :=
  forall t key, now <= t -> redis_view r t (tb_key prefix key) = None /\ redis_view r t (gcra_key prefix key) = None.

(** C35 (refinement): over any Redis server, the token-bucket limiter and the
    sliding-window limiter of all processes with one prefix are two ideal limiters
    that share nothing and forget nothing: on every sequence of acquires, peeks
    and resets, in the order of the server's clock, each call returns the decision,
    limit and remaining count of the ideal one, and its times as Lua writes them.
    The expiry of keys never shows. *)
Theorem redis_limiter_refines_ideal {R} `{RedisLaws R} :
  forall (lua14 : Q -> Q) prefix ctb csw now (r : R) ops,
  Proper (Qeq ==> Qeq) lua14 -> lua14 0 == 0 -> tb_config_valid ctb -> sw_config_valid csw ->
  no_limits prefix now r -> in_clock_order now ops -> Forall (rd_op_ok ctb csw) ops ->
  Forall2 (fun x x' => exists y, x = Return y /\ option_Forall2 result_equiv y (rounded lua14 <$> x'))
    (run (fun o r => rd_limiter_exec lua14 prefix (algorithm_config ctb csw o.1.1) o.1.2 o.2 r) ops r).1
    (run (fun o s => limits_exec ctb csw o.1 s) ops (mkIdeal now (fun _ => tb_cap ctb), fun _ => None)).1.
Proof.
  intros lua14 prefix ctb csw now r ops Hp Hz Htb Hsw Hr Ht Hok.
  apply (limiters_simulated lua14 Hz prefix ctb csw Htb Hsw now); [|done|done].
  split_and!; cbn [fst snd ib_now]; [lra| |]; intros key t Hle; left; (split; [by apply Hr|]).
  - unfold ideal_at. cbn. pose proof (tb_rate_pos ctb Htb).
    assert (0 <= (t - now) * refill_rate ctb) by (apply Qmult_le_0_compat; lra). unfold py_min. repeat qcase1; lra.
  - done.
Qed.

(** Four decimals. *)
Definition four_decimals (q : Q) : Q := inject_Z (Qfloor (q * 10000 + (1 # 2))) / 10000.

#[export] Instance four_decimals_proper : Proper (Qeq ==> Qeq) four_decimals.
Proof. intros a b E. unfold four_decimals. by rewrite (Qfloor_comp _ (b * 10000 + (1 # 2))) by (by rewrite E). Qed.

Definition rd_limiter_demo : list ((algorithm * limiter_op) * Q) :=
  [((Bucket, OAcquire "a" 2 0), 0); ((Window, OAcquire "a" 1 0), 0); ((Window, OAcquire "a" 2 1), 1);
   ((Bucket, OAcquire "a" 2 1), 1); ((Bucket, OPeek "a" 2), 2); ((Bucket, OReset "a"), 2);
   ((Bucket, OAcquire "a" 3 2), 2); ((Window, OPeek "a" 100), 100)].

Lemma redis_limiter_refines_ideal_witness :
  Forall2 (fun x x' => exists y, x = Return y /\ option_Forall2 result_equiv y (rounded four_decimals <$> x'))
    (run (fun o r => rd_limiter_exec four_decimals "app:" (algorithm_config cfg_tb cfg_sw o.1.1) o.1.2 o.2 r)
       rd_limiter_demo (∅ : store)).1
    (run (fun o s => limits_exec cfg_tb cfg_sw o.1 s) rd_limiter_demo
       (mkIdeal 0 (fun _ => tb_cap cfg_tb), fun _ => None)).1.
Proof.
  apply (redis_limiter_refines_ideal four_decimals "app:" cfg_tb cfg_sw 0 (∅ : store) rd_limiter_demo).
  - apply four_decimals_proper.
  - reflexivity.
  - apply cfg_tb_valid.
  - apply cfg_sw_valid.
  - intros t key _. simpl. unfold store_view. by rewrite !lookup_empty.
  - vm_compute; repeat split; discriminate.
  - repeat constructor; vm_compute; discriminate.
Defined.
