(* ===== verification/RedisCircuit.v ===== *)
(** * Circuits on Redis

    [grelmicro/resilience/circuitbreaker/redis.py]: the Lua scripts of the
    consecutive-count strategy and the methods that send them, over any server with
    the laws of [Redis].  They are one circuit per name, the state machine of
    [CircuitMemory], with one difference: every write gives a key the lifetime of the
    configuration, so a circuit that was opened for longer is forgotten too early. *)

From S2P Require Import Prelude Errors PyStr CircuitMemory SqliteCoordination Redis RedisCoordination.
From Stdlib Require Import Ascii String.

Local Open Scope Z_scope.

Section Scripts.
Context {R : Type} `{RedisServer R} (lua14 : Q -> Q).

Definition state_text (s : CircuitBreakerState) : string :=
  match s with
  | CLOSED => "CLOSED" | OPEN => "OPEN" | HALF_OPEN => "HALF_OPEN"
  | FORCED_OPEN => "FORCED_OPEN" | FORCED_CLOSED => "FORCED_CLOSED"
  end.

(** [if state == false then state = "CLOSED" end] *)
Definition stored_state (c : option cell) : string :=
  match c with None => "CLOSED" | Some (Text s) => s | Some (Number _) => "" end.

(** [tonumber(x) or d]; what the scripts store there is a number. *)
Definition number_or (d : Q) (c : option cell) : Q := match c with Some (Number q) => q | _ => d end.

(** What the scripts return: the state, both counts and [opened_at]. *)
Definition circuit_reply : Type := string * Q * Q * Q.

(** The branch of [_LUA_TRY_ACQUIRE] for a half-open circuit. *)
Definition lua_admit (key : string) (capacity ttl : Z) (ho_admit : Q) (now : Q) : py R exn bool :=
  if (ho_admit <? inject_Z capacity)%py then
    _ ← redis_hincrby key "ho_admit" 1 now;
    _ ← redis_pexpire key (seconds ttl) now;
    mret true
  else mret false.

(** [_LUA_TRY_ACQUIRE] *)
Definition lua_try_acquire (key : string) (capacity : Z) (reset_timeout : Q) (ttl : Z) (now : Q) : py R exn bool :=
  stored ← redis_hmget key ["state"; "opened_at"; "ho_admit"; "cool_down"]%string now;
  match stored with
  | [state; opened_at; ho_admit; cool_down] =>
      let state := stored_state state in
      let opened_at := number_or 0 opened_at in
      let ho_admit := number_or 0 ho_admit in
      let cool_down := number_or reset_timeout cool_down in
      if String.eqb state "FORCED_CLOSED" || String.eqb state "CLOSED" then mret true
      else if String.eqb state "FORCED_OPEN" then mret false
      else if String.eqb state "OPEN" then
        if (now >=? opened_at + cool_down)%py then
          _ ← redis_hset key [("state", Text "HALF_OPEN"); ("cerr", Number 0); ("csucc", Number 0);
                              ("ho_admit", Number 0)]%string now;
          _ ← redis_hdel key ["opened_at"; "cool_down"]%string now;
          _ ← redis_pexpire key (seconds ttl) now;
          lua_admit key capacity ttl 0 now
        else mret false
      else if String.eqb state "HALF_OPEN" then lua_admit key capacity ttl ho_admit now
      else mret false
  | _ => lua_error
  end.

(** A slot given back, in a half-open circuit. *)
Definition lua_free_slot (key : string) (now : Q) : py R exn unit :=
  ho_admit ← redis_hmget key ["ho_admit"]%string now;
  match ho_admit with
  | [ho_admit] =>
      if (0 <? number_or 0 ho_admit)%py then _ ← redis_hincrby key "ho_admit" (-1) now; mret tt else mret tt
  | _ => lua_error
  end.

(** The outcome counted: one count up, the other reset, a slot given back. *)
Definition lua_count (key up down state : string) (now : Q) : py R exn Z :=
  n ← redis_hincrby key up 1 now;
  _ ← redis_hset key [(down, Number 0)] now;
  _ ← (if String.eqb state "HALF_OPEN" then lua_free_slot key now else mret tt);
  mret n.

(** The states in which an outcome is not counted. *)
Definition ignores_outcomes (state : string) : bool :=
  String.eqb state "FORCED_OPEN" || String.eqb state "FORCED_CLOSED" || String.eqb state "OPEN".

(** [_LUA_RECORD_ERROR] *)
Definition lua_record_error (key : string) (threshold : Z) (reset_timeout : Q) (ttl : Z) (now : Q) :
    py R exn circuit_reply :=
  stored ← redis_hmget key ["state"; "opened_at"]%string now;
  match stored with
  | [state; opened_at] =>
      let state := stored_state state in
      let opened_at := number_or 0 opened_at in
      if ignores_outcomes state then mret (state, 0, 0, lua14 opened_at)%Q
      else
        cerr ← lua_count key "cerr" "csucc" state now;
        if threshold <=? cerr then
          _ ← redis_hset key [("state", Text "OPEN"); ("opened_at", Number now); ("cool_down", Number reset_timeout);
                              ("cerr", Number 0); ("csucc", Number 0); ("ho_admit", Number 0)]%string now;
          _ ← redis_pexpire key (seconds ttl) now;
          mret ("OPEN"%string, 0, 0, lua14 now)%Q
        else
          _ ← redis_pexpire key (seconds ttl) now;
          mret (state, inject_Z cerr, 0, lua14 opened_at)%Q
  | _ => lua_error
  end.

(** [_LUA_RECORD_SUCCESS] *)
Definition lua_record_success (key : string) (threshold : Z) (reset_timeout : Q) (ttl : Z) (now : Q) :
    py R exn circuit_reply :=
  stored ← redis_hmget key ["state"; "opened_at"]%string now;
  match stored with
  | [state; opened_at] =>
      let state := stored_state state in
      let opened_at := number_or 0 opened_at in
      if ignores_outcomes state then mret (state, 0, 0, lua14 opened_at)%Q
      else
        csucc ← lua_count key "csucc" "cerr" state now;
        if String.eqb state "HALF_OPEN" && (threshold <=? csucc) then
          _ ← redis_del key now;
          mret ("CLOSED"%string, 0, 0, 0)%Q
        else
          _ ← redis_pexpire key (seconds ttl) now;
          mret (state, 0, inject_Z csucc, lua14 opened_at)%Q
  | _ => lua_error
  end.

(** The state [_LUA_TRANSITION] writes. *)
Definition lua_write_state (key : string) (desired : CircuitBreakerState) (cool_down : Q) (now : Q) : py R exn unit :=
  if decide (desired = OPEN) then
    redis_hset key [("state", Text (state_text desired)); ("opened_at", Number now);
      ("cool_down", Number cool_down); ("cerr", Number 0); ("csucc", Number 0); ("ho_admit", Number 0)]%string now
  else
    _ ← redis_hset key [("state", Text (state_text desired)); ("cerr", Number 0); ("csucc", Number 0);
          ("ho_admit", Number 0)]%string now;
    redis_hdel key ["opened_at"; "cool_down"]%string now.

(** [_LUA_TRANSITION] *)
Definition lua_transition (key : string) (desired : CircuitBreakerState) (cool_down : Q) (ttl : Z) (now : Q) :
    py R exn unit :=
  if decide (desired = CLOSED) then redis_del key now
  else
    _ ← lua_write_state key desired cool_down now;
    if decide (desired = FORCED_OPEN \/ desired = FORCED_CLOSED) then redis_persist key now
    else redis_pexpire key (seconds ttl) now.

(** [_LUA_GET_STATE] *)
Definition lua_get_state (key : string) (now : Q) : py R exn circuit_reply :=
  stored ← redis_hmget key ["state"; "cerr"; "csucc"; "opened_at"]%string now;
  match stored with
  | [state; cerr; csucc; opened_at] =>
      mret (stored_state state, number_or 0 cerr, number_or 0 csucc, lua14 (number_or 0 opened_at))
  | _ => lua_error
  end.

(** ** [_RedisConsecutiveCountStrategy] *)

Definition state_of_text (s : string) : option CircuitBreakerState :=
  if String.eqb s "CLOSED" then Some CLOSED else if String.eqb s "OPEN" then Some OPEN
  else if String.eqb s "HALF_OPEN" then Some HALF_OPEN else if String.eqb s "FORCED_OPEN" then Some FORCED_OPEN
  else if String.eqb s "FORCED_CLOSED" then Some FORCED_CLOSED else None.

(** [_unpack] *)
Definition _unpack (result : circuit_reply) : py R exn CircuitBreakerSnapshot :=
  let '(state, cerr, csucc, opened_at) := result in
  match state_of_text state with
  | Some state => mret (mkSnapshot state opened_at (py_int cerr) (py_int csucc))
  | None => py_raise (mk_exn ValueError NoInfo)
  end.

(** [_KEY_PREFIX] *)
Definition circuit_key (prefix name : string) : string := prefix +:+ "cb:" +:+ name.

(** [self._ttl], in seconds *)
Definition circuit_ttl (config : ConsecutiveCountConfig) : Z := Qceiling (resolve_state_ttl (reset_timeout config)).

(** [try_acquire], [record_outcome], [transition] and [get_snapshot] *)
Definition rd_circuit_exec (prefix name : string) (c : ConsecutiveCountConfig) (o : operation) (now : Q) :
    py R exn result :=
  let key := circuit_key prefix name in
  match o with
  | Acquire => b ← lua_try_acquire key (half_open_capacity c) (reset_timeout c) (circuit_ttl c) now; mret (Admitted_ b)
  | Record_ success =>
      r ← (if success : bool then lua_record_success key (success_threshold c) (reset_timeout c) (circuit_ttl c) now
           else lua_record_error key (error_threshold c) (reset_timeout c) (circuit_ttl c) now);
      snapshot ← _unpack r;
      mret (Snap snapshot)
  | Transition desired cool_down =>
      _ ← lua_transition key desired (default (reset_timeout c) cool_down) (circuit_ttl c) now; mret Done
  | Snapshot => r ← lua_get_state key now; snapshot ← _unpack r; mret (Snap snapshot)
  end.
End Scripts.

(** ** One circuit per name *)

(** Circuits with the millisecond after which they are forgotten. *)
Definition rc_circuits : Type := string -> circuit * option Z.

Definition rc_view (t : Q) (cd : circuit * option Z) : circuit :=
  match cd.2 with
  | None => cd.1
  | Some d => if redis_ms t <=? d then cd.1 else Closed 0 0
  end.

(** The lifetime that a write gives. *)
Definition rc_kept (cfg : ConsecutiveCountConfig) (now : Q) (c : circuit) : circuit * option Z :=
  (c, match c with Held _ => None | _ => Some (redis_ms now + seconds (circuit_ttl cfg)) end).

Definition rc_put (name : string) (cd : circuit * option Z) (m : rc_circuits) : rc_circuits :=
  fun n => if decide (n = name) then cd else m n.

Definition rc_put_opt (name : string) (o : option (circuit * option Z)) (m : rc_circuits) : rc_circuits :=
  match o with Some cd => rc_put name cd m | None => m end.

Section Spec.
Context (lua14 : Q -> Q).

(** A snapshot as Lua writes its instant. *)
Definition rc_snapshot (c : circuit) : CircuitBreakerSnapshot :=
  let s := circuit_snapshot c in mkSnapshot (sn_state s) (lua14 (sn_opened_at s)) (sn_errors s) (sn_successes s).

(** An operation on the circuit of its name, by the state machine of [CircuitMemory]. *)
Definition rc_exec (name : string) (cfg : ConsecutiveCountConfig) (o : operation) (now : Q) (m : rc_circuits) :
    result * rc_circuits :=
  let c := rc_view now (m name) in
  let kept cd := rc_kept cfg now (fst cd) in
  match o with
  | Acquire => let '(b, o) := circuit_acquire cfg now c in (Admitted_ b, rc_put_opt name (kept <$> o) m)
  | Record_ success =>
      let o := circuit_record cfg success now c in
      (Snap (rc_snapshot (default c (fst <$> o))), rc_put_opt name (kept <$> o) m)
  | Transition d cool_down => (Done, rc_put name (kept (circuit_transition cfg d cool_down now)) m)
  | Snapshot => (Snap (rc_snapshot c), m)
  end.
End Spec.

(** ** Hashes as circuits *)

(** A field that counts; one that is missing is zero. *)
Definition counts (h : gmap string cell) (field : string) (n : Z) : Prop :=
  0 <= n /\ (h !! field = None /\ n = 0 \/ h !! field = Some (Number (inject_Z n))).

Definition circuit_hash (c : circuit) (h : gmap string cell) : Prop :=
  match c with
  | Closed e s => h !! "state"%string = None /\ h !! "opened_at"%string = None /\ counts h "cerr" e /\ counts h "csucc" s
  | Tripped since wait =>
      h !! "state"%string = Some (Text "OPEN") /\ h !! "opened_at"%string = Some (Number since) /\
      h !! "cool_down"%string = Some (Number wait) /\ counts h "cerr" 0 /\ counts h "csucc" 0
  | Probing e s k =>
      h !! "state"%string = Some (Text "HALF_OPEN") /\ h !! "opened_at"%string = None /\
      counts h "cerr" e /\ counts h "csucc" s /\ counts h "ho_admit" k
  | Held open =>
      h !! "state"%string = Some (Text (if open then "FORCED_OPEN" else "FORCED_CLOSED")) /\
      h !! "opened_at"%string = None /\ counts h "cerr" 0 /\ counts h "csucc" 0
  end.

Definition circuit_value (c : circuit) (v : option rvalue) : Prop :=
  (v = None /\ c = Closed 0 0) \/ exists h, v = Some (RHash h) /\ circuit_hash c h.

Lemma counts_number h f n : counts h f n -> number_or 0 (h !! f) = inject_Z n.
Proof. intros [_ [[-> ->]| ->]]; done. Qed.

Lemma value_hash c v : circuit_value c v -> exists h, is_hash v h /\ circuit_hash c h.
Proof.
  intros [[-> ->]|(h & -> & Hh)]; [|exists h; split; [by right|done]].
  exists ∅. split; [by left|]. simpl. unfold counts. rewrite !lookup_empty. repeat split; try done; by left.
Qed.

Ltac hash_cbn :=
  unfold hash_set, hash_del in *; cbn [foldl fst snd] in *;
  repeat first [rewrite lookup_insert_eq in * | rewrite lookup_insert_ne in * by done
               | rewrite lookup_delete_eq in * | rewrite lookup_delete_ne in * by done].

Lemma counts_written h f n : 0 <= n -> counts (<[f := Number (inject_Z n)]> h) f n.
Proof. intros Hn. split; [done|]. right. by rewrite lookup_insert_eq. Qed.

Lemma counts_other h h' f n : h' !! f = h !! f -> counts h f n -> counts h' f n.
Proof. unfold counts. by intros ->. Qed.

Section Counting.
Context {R : Type} `{RedisLaws R}.
Implicit Types (r : R) (h : gmap string cell).

Lemma lua_free_slot_spec key v now r r' h k : redis_now_has key v now r r' -> is_hash v h -> counts h "ho_admit" k ->
  exists r'' v' h', lua_free_slot key now r' = (Return tt, r'') /\ redis_now_has key v' now r r'' /\ is_hash v' h' /\
    counts h' "ho_admit" (Z.max 0 (k - 1)) /\ (forall f, f <> "ho_admit"%string -> h' !! f = h !! f).
Proof.
  intros Hn Hh Hk. unfold lua_free_slot, mbind, py_mbind, py_bind.
  destruct (hmget_now_has _ _ _ _ _ _ ["ho_admit"]%string Hn Hh) as (r1 & -> & Hn1). cbn [map].
  rewrite (counts_number _ _ _ Hk). change 0%Q with (inject_Z 0). rewrite Qlt_bool_inject.
  destruct Hk as [Hk0 Hk]. destruct (Z.ltb_spec 0 k).
  - destruct (hincrby_now_has _ _ _ _ _ _ "ho_admit" (-1) k Hn1 Hh Hk) as (r2 & -> & Hn2).
    eexists r2, _, _. split; [done|]. split; [exact Hn2|]. split; [by right|].
    replace (Z.max 0 (k - 1)) with (k + -1) by lia. split; [apply counts_written; lia|].
    intros f Hf. by rewrite lookup_insert_ne.
  - exists r1, v, h. split; [done|]. split; [done|]. split; [done|]. split; [|done].
    replace (Z.max 0 (k - 1)) with 0 by lia. replace k with 0 in Hk by lia. split; [done|exact Hk].
Qed.

Lemma lua_count_spec key v now r r' h up down state n k : redis_now_has key v now r r' -> is_hash v h ->
  up <> down -> up <> "ho_admit"%string -> down <> "ho_admit"%string -> counts h up n ->
  (state = "HALF_OPEN"%string -> counts h "ho_admit" k) ->
  exists r'' h', lua_count key up down state now r' = (Return (n + 1), r'') /\
    redis_now_has key (Some (RHash h')) now r r'' /\
    counts h' up (n + 1) /\ counts h' down 0 /\
    (state = "HALF_OPEN"%string -> counts h' "ho_admit" (Z.max 0 (k - 1))) /\
    (forall f, f <> up -> f <> down -> f <> "ho_admit"%string -> h' !! f = h !! f).
Proof.
  intros Hn Hh Hud Hua Hda [Hn0 Hup] Hk. unfold lua_count, mbind, py_mbind, py_bind.
  destruct (hincrby_now_has _ _ _ _ _ _ up 1 n Hn Hh Hup) as (r1 & -> & Hn1).
  destruct (hset_now_has _ _ _ _ _ _ [(down, Number 0)] Hn1 (or_intror eq_refl)) as (r2 & -> & Hn2).
  set (h2 := hash_set [(down, Number 0)] (<[up := Number (inject_Z (n + 1))]> h)) in *.
  assert (counts h2 up (n + 1)) as Hu2.
  { split; [lia|]. right. unfold h2. by hash_cbn. }
  assert (counts h2 down 0) as Hd2.
  { split; [lia|]. right. unfold h2. by hash_cbn. }
  assert (forall f, f <> up -> f <> down -> h2 !! f = h !! f) as Ho.
  { intros f H1 H2. unfold h2. unfold hash_set. cbn. by rewrite !lookup_insert_ne by done. }
  destruct (String.eqb_spec state "HALF_OPEN") as [->|Hs].
  - destruct (lua_free_slot_spec _ _ _ _ _ h2 k Hn2 (or_intror eq_refl)) as (r3 & v3 & h3 & -> & Hn3 & Hh3 & Hk3 & Ho3).
    { eapply counts_other; [by apply Ho|by apply Hk]. }
    assert (v3 = Some (RHash h3)) as ->.
    { destruct Hh3 as [[-> ->]| ->]; [|done]. exfalso.
      assert ((∅ : gmap string cell) !! up = h2 !! up) as E by (by apply Ho3).
      rewrite lookup_empty in E. destruct Hu2 as [_ [[_ ?]|E']]; [lia|]. by rewrite E' in E. }
    exists r3, h3. split; [done|]. split; [done|]. split; [by eapply counts_other; [apply Ho3|]|].
    split; [by eapply counts_other; [apply Ho3|]|]. split; [done|]. intros f H1 H2 H3. by rewrite Ho3, Ho.
  - exists r2, h2. split; [done|]. split; [done|]. split; [done|]. split; [done|]. split; [done|].
    intros f H1 H2 _. by apply Ho.
Qed.
End Counting.

Section Refines.
Context {R : Type} `{RedisLaws R} (lua14 : Q -> Q) (lua14_zero : lua14 0%Q = 0%Q) (prefix : string).
Implicit Types (r : R) (m : rc_circuits) (h : gmap string cell).

Definition rc_related (now : Q) r m : Prop := forall name t, (now <= t)%Q ->
  circuit_value (rc_view t (m name)) (redis_view r t (circuit_key prefix name)).

Lemma circuit_key_inj n n' : circuit_key prefix n = circuit_key prefix n' -> n = n'.
Proof. unfold circuit_key. intros E%(inj (String.app prefix)). by apply (inj (String.app "cb:")) in E. Qed.

Lemma rc_related_unchanged now r r' m : redis_unchanged now r r' -> rc_related now r m -> rc_related now r' m.
Proof. intros Hu HR name t Ht. rewrite Hu by done. by apply HR. Qed.

Lemma rc_related_put now r r' m name v cd : rc_related now r m ->
  redis_changed (circuit_key prefix name) v now r r' ->
  (forall t, (now <= t)%Q -> circuit_value (rc_view t cd) (v t)) -> rc_related now r' (rc_put name cd m).
Proof.
  intros HR Hc Hv n t Ht. unfold rc_put. destruct (decide (n = name)) as [->|Hne].
  - rewrite (redis_changed_same _ _ _ _ _ _ Hc) by done. by apply Hv.
  - rewrite (redis_changed_other _ _ _ _ _ _ _ Hc) by (try done; by intros E%circuit_key_inj). by apply HR.
Qed.

Lemma view_of_closed cfg now t : rc_view t (rc_kept cfg now (Closed 0 0)) = Closed 0 0.
Proof. unfold rc_view, rc_kept. simpl. by destruct (_ <=? _). Qed.

Lemma circuit_ttl_pos cfg : 0 < seconds (circuit_ttl cfg).
Proof.
  unfold seconds, circuit_ttl. pose proof (proj1 (resolve_state_ttl_ge (reset_timeout cfg))) as Hl.
  unfold STATE_TTL in Hl. pose proof (Qle_ceiling (resolve_state_ttl (reset_timeout cfg))) as Hc.
  assert (inject_Z 86400 <= inject_Z (Qceiling (resolve_state_ttl (reset_timeout cfg))))%Q as Hle.
  { change (inject_Z 86400) with 86400%Q. lra. }
  rewrite <- inject_Z_le in Hle. lia.
Qed.

Lemma kept_value cfg now c h t : circuit_hash c h -> (forall b, c <> Held b) ->
  circuit_value (rc_view t (rc_kept cfg now c)) (lives_for (seconds (circuit_ttl cfg)) now (Some (RHash h)) t).
Proof.
  intros Hh Hc. unfold rc_view, rc_kept, lives_for. simpl.
  destruct c as [e s|since wait|e s k|b]; [| | |by destruct (Hc b)];
    (destruct (_ <=? _); [right; by exists h|by left]).
Qed.

(** The reading a script starts with. *)
Lemma circuit_read now r m name fields : rc_related now r m ->
  exists h r', is_hash (redis_view r now (circuit_key prefix name)) h /\
    circuit_hash (rc_view now (m name)) h /\
    redis_hmget (circuit_key prefix name) fields now r = (Return (map (fun f => h !! f) fields), r') /\
    redis_now_has (circuit_key prefix name) (redis_view r now (circuit_key prefix name)) now r r' /\
    rc_related now r' m.
Proof.
  intros HR. destruct (value_hash _ _ (HR name now (Qle_refl _))) as (h & Hh & Hc).
  destruct (hmget_law (circuit_key prefix name) fields now r) as (r' & Hu & E). exists h, r'.
  split; [done|]. split; [done|]. split; [|split; [by apply now_has_start|by eapply rc_related_unchanged]].
  rewrite E. by destruct Hh as [[-> ->]| ->].
Qed.

Definition step_simulated (name : string) (cfg : ConsecutiveCountConfig) (o : operation) (now : Q) r m : Prop :=
  exists r', rd_circuit_exec lua14 prefix name cfg o now r = (Return (rc_exec lua14 name cfg o now m).1, r') /\
    rc_related now r' (rc_exec lua14 name cfg o now m).2.

Lemma admit_sim name cfg now r r1 m v h e s k : rc_related now r m ->
  redis_now_has (circuit_key prefix name) v now r r1 -> is_hash v h -> circuit_hash (Probing e s k) h ->
  k < half_open_capacity cfg ->
  exists r', lua_admit (circuit_key prefix name) (half_open_capacity cfg) (circuit_ttl cfg) (inject_Z k) now r1 = (Return true, r') /\
    rc_related now r' (rc_put name (rc_kept cfg now (Probing e s (k + 1))) m).
Proof.
  intros HR Hn Hh (H1 & H2 & H3 & H4 & H5) Hk. unfold lua_admit, mbind, py_mbind, py_bind.
  rewrite Qlt_bool_inject, (proj2 (Z.ltb_lt _ _)) by done.
  destruct (hincrby_now_has _ _ _ _ _ _ "ho_admit" 1 k Hn Hh (proj2 H5)) as (r2 & -> & Hn2).
  destruct (expire_now_has _ _ _ _ _ (seconds (circuit_ttl cfg)) Hn2 (circuit_ttl_pos cfg)) as (r3 & -> & Hc).
  exists r3. split; [done|]. apply (rc_related_put _ _ _ _ _ _ _ HR Hc). intros t Ht.
  apply kept_value; [|done]. simpl. rewrite !lookup_insert_ne by done. split_and!; try done.
  - eapply counts_other; [|exact H3]. by rewrite lookup_insert_ne.
  - eapply counts_other; [|exact H4]. by rewrite lookup_insert_ne.
  - apply counts_written. destruct H5. lia.
Qed.

Lemma acquire_sim name cfg now r m : cc_valid cfg -> rc_related now r m -> step_simulated name cfg Acquire now r m.
Proof.
  intros Hcfg HR. unfold step_simulated. cbn [rd_circuit_exec rc_exec].
  destruct (circuit_read now r m name ["state"; "opened_at"; "ho_admit"; "cool_down"]%string HR)
    as (h & r1 & Hh & Hc & Hg & Hn & HR1).
  unfold lua_try_acquire, mbind, py_mbind. unfold py_bind at 1 2. rewrite Hg. cbn [map].
  destruct (rc_view now (m name)) as [e s|since wait|e s k|b] eqn:Ec; cbn [circuit_acquire].
  - destruct Hc as (-> & _). exists r1. done.
  - destruct Hc as (Hs & Ho & Hcd & He & Hsu). rewrite Hs, Ho, Hcd.
    cbn [stored_state number_or String.eqb Ascii.eqb Bool.eqb orb].
    assert ((now >=? since + wait)%py = negb (now <? since + wait)%py) as ->.
    { destruct (Qle_bool_spec (since + wait) now), (Qlt_bool_spec now (since + wait)); simpl; done || lra. }
    destruct (now <? since + wait)%py; cbn [negb]; [by exists r1|]. unfold py_bind.
    destruct (hset_now_has _ _ _ _ _ _ [("state", Text "HALF_OPEN"); ("cerr", Number 0); ("csucc", Number 0);
      ("ho_admit", Number 0)]%string Hn Hh) as (r2 & -> & Hn2).
    set (h2 := hash_set _ h) in *.
    assert (hash_del ["opened_at"; "cool_down"]%string h2 !! "state"%string = Some (Text "HALF_OPEN")) as Hst.
    { unfold h2. by hash_cbn. }
    destruct (hdel_now_has _ _ _ _ _ ["opened_at"; "cool_down"]%string Hn2) as (r3 & -> & Hn3).
    { intros E. rewrite E, lookup_empty in Hst. done. }
    destruct (expire_now_has _ _ _ _ _ (seconds (circuit_ttl cfg)) Hn3 (circuit_ttl_pos cfg)) as (r4 & -> & Hc4).
    assert (rc_related now r4 (rc_put name (rc_kept cfg now (Probing 0 0 0)) m)) as HR4.
    { apply (rc_related_put _ _ _ _ _ _ _ HR Hc4). intros t Ht. apply kept_value; [|done].
      unfold h2. simpl. unfold counts. hash_cbn. repeat split; try done; by right. }
    assert (redis_now_has (circuit_key prefix name) (lives_for (seconds (circuit_ttl cfg)) now
      (Some (RHash (hash_del ["opened_at"; "cool_down"]%string h2))) now) now r4 r4) as Hn4.
    { split; [|done]. by rewrite (redis_changed_same _ _ _ _ _ _ Hc4) by lra. }
    assert (lives_for (seconds (circuit_ttl cfg)) now (Some (RHash (hash_del ["opened_at"; "cool_down"]%string h2))) now =
      Some (RHash (hash_del ["opened_at"; "cool_down"]%string h2))) as El.
    { unfold lives_for. pose proof (circuit_ttl_pos cfg). by rewrite (proj2 (Z.leb_le _ _)) by lia. }
    rewrite El in Hn4.
    destruct (admit_sim name cfg now r4 r4 _ _ _ 0 0 0 HR4 Hn4 (or_intror eq_refl)) as (r5 & E5 & HR5).
    { unfold h2. simpl. unfold counts. hash_cbn. repeat split; try done; by right. }
    { destruct Hcfg as (_ & _ & _ & Hcap). lia. }
    change 0%Q with (inject_Z 0). rewrite E5. exists r5. split; [done|].
    intros n t Ht. specialize (HR5 n t Ht). revert HR5. unfold rc_put_opt, rc_put. simpl. by case_decide.
  - pose proof Hc as (Hs & Ho & He & Hsu & Hk). rewrite Hs, Ho, (counts_number _ _ _ Hk).
    cbn [stored_state String.eqb Ascii.eqb Bool.eqb orb].
    destruct (Z.ltb_spec k (half_open_capacity cfg)) as [Hlt|Hge].
    + destruct (admit_sim name cfg now r r1 m _ _ e s k HR Hn Hh Hc Hlt) as (r2 & E2 & HR2).
      unfold py_bind. rewrite E2. by exists r2.
    + unfold lua_admit. rewrite Qlt_bool_inject, (proj2 (Z.ltb_ge _ _)) by done. by exists r1.
  - destruct Hc as (Hs & _). rewrite Hs. exists r1. by destruct b.
Qed.

Lemma unpack_spec {A} st a b q (k : CircuitBreakerSnapshot -> py R exn A) r : 0 <= a -> 0 <= b ->
  py_bind (_unpack (state_text st, inject_Z a, inject_Z b, q)) k r = k (mkSnapshot st q a b) r.
Proof.
  intros Ha Hb. unfold _unpack, py_bind. rewrite (Zle_Qle 0) in Ha, Hb.
  rewrite !py_int_nonneg, !Qfloor_Z by done. by destruct st.
Qed.

(** The circuit after an outcome that was counted. *)
Lemma counted_sim up down name now r r1 m v h c e s k st : rc_related now r m ->
  redis_now_has (circuit_key prefix name) v now r r1 -> is_hash v h ->
  (c = Closed e s /\ st = CLOSED \/ c = Probing e s k /\ st = HALF_OPEN) -> circuit_hash c h ->
  (up, down) = ("cerr", "csucc")%string \/ (up, down) = ("csucc", "cerr")%string ->
  let n := if String.eqb up "cerr" then e else s in
  exists r2 h2, lua_count (circuit_key prefix name) up down (state_text st) now r1 = (Return (n + 1), r2) /\
    redis_now_has (circuit_key prefix name) (Some (RHash h2)) now r r2 /\ 0 <= n /\
    circuit_hash (let '(e, s) := if String.eqb up "cerr" then (e + 1, 0) else (0, s + 1) in
                  match c with Closed _ _ => Closed e s | _ => Probing e s (Z.max 0 (k - 1)) end) h2.
Proof.
  intros HR Hn Hh Hst Hc Hud n.
  assert (counts h "cerr" e /\ counts h "csucc" s /\ (st = HALF_OPEN -> counts h "ho_admit" k) /\
    h !! "opened_at"%string = None) as (He & Hs & Hk & Ho).
  { destruct Hst as [[-> ->]|[-> ->]]; simpl in Hc; naive_solver. }
  assert (counts h up n) as Hup by (unfold n; destruct Hud as [[= -> ->]|[= -> ->]]; done).
  destruct (lua_count_spec _ _ _ _ _ h up down (state_text st) n k Hn Hh) as (r2 & h2 & E & Hn2 & H1 & H2 & H3 & H4);
    [by destruct Hud as [[= -> ->]|[= -> ->]]..|done|intros E; apply Hk; by destruct st|].
  exists r2, h2. split; [done|]. split; [done|]. split; [apply Hup|].
  assert (forall f, f = "state"%string \/ f = "opened_at"%string -> h2 !! f = h !! f) as Hf.
  { intros f Hf. apply H4; destruct Hf as [-> | ->], Hud as [[= -> ->]|[= -> ->]]; done. }
  unfold n in *. destruct Hud as [[= -> ->]|[= -> ->]]; simpl in *;
    (destruct Hst as [[-> ->]|[-> ->]]; simpl in Hc |- *; rewrite !Hf by auto;
     split_and!; try done; first [apply Hc|by apply H3]).
Qed.

Lemma state_texts st : String.eqb (state_text st) "HALF_OPEN" = bool_decide (st = HALF_OPEN) /\
  ignores_outcomes (state_text st) = negb (bool_decide (st = CLOSED \/ st = HALF_OPEN)).
Proof. by destruct st. Qed.

(** A circuit that counts outcomes, with the state its key tells. *)
Definition counting (c : circuit) (e s k : Z) (st : CircuitBreakerState) : Prop :=
  c = Closed e s /\ st = CLOSED \/ c = Probing e s k /\ st = HALF_OPEN.

Lemma counting_or_not c h : circuit_hash c h ->
  (exists e s k st, counting c e s k st /\ stored_state (h !! "state"%string) = state_text st /\
     number_or 0 (h !! "opened_at"%string) = 0%Q) \/
  (exists st, stored_state (h !! "state"%string) = state_text st /\ ignores_outcomes (state_text st) = true /\
     circuit_snapshot c = mkSnapshot st (number_or 0 (h !! "opened_at"%string)) 0 0 /\
     forall cfg success now, circuit_record cfg success now c = None).
Proof.
  destruct c as [e s|since wait|e s k|b]; simpl.
  - intros (-> & -> & _). left. exists e, s, 0, CLOSED. split; [by left|done].
  - intros (-> & -> & _). right. by exists OPEN.
  - intros (-> & -> & _). left. exists e, s, k, HALF_OPEN. split; [by right|done].
  - intros (-> & -> & _). right. destruct b; [by exists FORCED_OPEN|by exists FORCED_CLOSED].
Qed.

Lemma counting_state c e s k st : counting c e s k st -> ignores_outcomes (state_text st) = false /\
  circuit_snapshot c = mkSnapshot st 0 e s.
Proof. by intros [[-> ->]|[-> ->]]. Qed.

(** A script that returns what the circuit tells and leaves what it becomes. *)
Definition replies (script : py R exn circuit_reply) (now : Q) r (c : circuit) (m : rc_circuits) : Prop :=
  exists st a b q r', script r = (Return (state_text st, inject_Z a, inject_Z b, q), r') /\ 0 <= a /\ 0 <= b /\
    mkSnapshot st q a b = rc_snapshot lua14 c /\ rc_related now r' m.

Lemma record_failure_replies name cfg now r m : rc_related now r m ->
  let c := rc_view now (m name) in let o := circuit_record cfg false now c in
  replies (lua_record_error lua14 (circuit_key prefix name) (error_threshold cfg) (reset_timeout cfg) (circuit_ttl cfg) now)
    now r (default c (fst <$> o)) (rc_put_opt name ((fun cd => rc_kept cfg now cd.1) <$> o) m).
Proof.
  intros HR c o. subst o. unfold replies.
  destruct (circuit_read now r m name ["state"; "opened_at"]%string HR) as (h & r1 & Hh & Hc & Hg & Hn & HR1).
  fold c in Hc. unfold lua_record_error, mbind, py_mbind, py_bind. rewrite Hg. cbn [map].
  destruct (counting_or_not _ _ Hc) as [(e & s & k & st & Hcount & Est & Eo)|(st & Est & Hig & Esn & Hrec)].
  2: { rewrite Hrec, Est, Hig. eexists st, 0, 0, _, r1. split; [done|]. split; [done|]. split; [done|].
       split; [|done]. unfold rc_snapshot. cbn [default option_map fmap option_fmap]. by rewrite Esn. }
  rewrite Est, Eo, (proj1 (counting_state _ _ _ _ _ Hcount)).
  destruct (counted_sim "cerr" "csucc" name now r r1 m _ h _ e s k st HR Hn Hh Hcount Hc (or_introl eq_refl))
    as (r2 & h2 & E2 & Hn2 & He0 & Hc2). cbn in He0, Hc2, E2. rewrite E2.
  destruct (Z.leb_spec (error_threshold cfg) (e + 1)) as [Hthr|Hthr]; cbv beta iota.
  - destruct (hset_now_has _ _ _ _ _ _ [("state", Text "OPEN"); ("opened_at", Number now);
      ("cool_down", Number (reset_timeout cfg)); ("cerr", Number 0); ("csucc", Number 0); ("ho_admit", Number 0)]%string
      Hn2 (or_intror eq_refl)) as (r3 & -> & Hn3).
    destruct (expire_now_has _ _ _ _ _ (seconds (circuit_ttl cfg)) Hn3 (circuit_ttl_pos cfg)) as (r4 & -> & Hc4).
    assert (circuit_record cfg false now c = Some (tripped cfg now)) as ->.
    { destruct Hcount as [[-> _]|[-> _]]; simpl; by rewrite (proj2 (Z.leb_le _ _)). }
    eexists OPEN, 0, 0, _, r4. split; [done|]. split; [done|]. split; [done|]. split; [done|].
    apply (rc_related_put _ _ _ _ _ _ _ HR Hc4). intros t Ht. apply kept_value; [|done].
    simpl. unfold counts. hash_cbn. repeat split; try done; by right.
  - destruct (expire_now_has _ _ _ _ _ (seconds (circuit_ttl cfg)) Hn2 (circuit_ttl_pos cfg)) as (r3 & -> & Hc3).
    eexists st, (e + 1), 0, _, r3. split; [done|]. split; [lia|]. split; [done|].
    assert ((error_threshold cfg <=? e + 1) = false) as El by (by apply Z.leb_gt).
    destruct Hcount as [[E ->]|[E ->]]; rewrite E in *; simpl; rewrite El; (split; [done|]);
      apply (rc_related_put _ _ _ _ _ _ _ HR Hc3); intros t Ht; by apply kept_value.
Qed.

Lemma record_success_replies name cfg now r m : rc_related now r m ->
  let c := rc_view now (m name) in let o := circuit_record cfg true now c in
  replies (lua_record_success lua14 (circuit_key prefix name) (success_threshold cfg) (reset_timeout cfg) (circuit_ttl cfg) now)
    now r (default c (fst <$> o)) (rc_put_opt name ((fun cd => rc_kept cfg now cd.1) <$> o) m).
Proof.
  intros HR c o. subst o. unfold replies.
  destruct (circuit_read now r m name ["state"; "opened_at"]%string HR) as (h & r1 & Hh & Hc & Hg & Hn & HR1).
  fold c in Hc. unfold lua_record_success, mbind, py_mbind, py_bind. rewrite Hg. cbn [map].
  destruct (counting_or_not _ _ Hc) as [(e & s & k & st & Hcount & Est & Eo)|(st & Est & Hig & Esn & Hrec)].
  2: { rewrite Hrec, Est, Hig. eexists st, 0, 0, _, r1. split; [done|]. split; [done|]. split; [done|].
       split; [|done]. unfold rc_snapshot. cbn [default option_map fmap option_fmap]. by rewrite Esn. }
  rewrite Est, Eo, (proj1 (counting_state _ _ _ _ _ Hcount)), (proj1 (state_texts st)).
  destruct (counted_sim "csucc" "cerr" name now r r1 m _ h _ e s k st HR Hn Hh Hcount Hc (or_intror eq_refl))
    as (r2 & h2 & E2 & Hn2 & Hs0 & Hc2). cbn in Hs0, Hc2, E2. rewrite E2.
  destruct (bool_decide (st = HALF_OPEN) && (success_threshold cfg <=? s + 1)) eqn:Ethr; cbv beta iota.
  - destruct (del_now_has _ _ _ _ _ Hn2) as (r3 & -> & Hc3). apply andb_prop in Ethr as [Eh Ethr].
    destruct Hcount as [[_ ->]|[E ->]]; [done|]. rewrite E. simpl. rewrite Ethr.
    eexists CLOSED, 0, 0, _, r3. split; [done|]. split; [done|]. split; [done|].
    split; [unfold rc_snapshot; simpl; by rewrite lua14_zero|].
    apply (rc_related_put _ _ _ _ _ _ _ HR Hc3). intros t Ht. left. split; [done|]. apply view_of_closed.
  - destruct (expire_now_has _ _ _ _ _ (seconds (circuit_ttl cfg)) Hn2 (circuit_ttl_pos cfg)) as (r3 & -> & Hc3).
    eexists st, 0, (s + 1), _, r3. split; [done|]. split; [done|]. split; [lia|].
    destruct Hcount as [[E ->]|[E ->]]; rewrite E in *; simpl in *; rewrite ?Ethr; (split; [done|]);
      apply (rc_related_put _ _ _ _ _ _ _ HR Hc3); intros t Ht; by apply kept_value.
Qed.

Lemma snapshot_replies name now r m : rc_related now r m ->
  replies (lua_get_state lua14 (circuit_key prefix name) now) now r (rc_view now (m name)) m.
Proof.
  intros HR. unfold replies.
  destruct (circuit_read now r m name ["state"; "cerr"; "csucc"; "opened_at"]%string HR) as (h & r1 & Hh & Hc & Hg & Hn & HR1).
  unfold lua_get_state, mbind, py_mbind, py_bind. rewrite Hg. cbn [map].
  destruct (rc_view now (m name)) as [e s|since wait|e s k|b]; simpl in Hc.
  - destruct Hc as (-> & -> & He & Hs). eexists CLOSED, e, s, _, r1.
    rewrite (counts_number _ _ _ He), (counts_number _ _ _ Hs). split; [done|]. split; [apply He|]. by split; [apply Hs|].
  - destruct Hc as (-> & -> & _ & He & Hs). eexists OPEN, 0, 0, _, r1.
    rewrite (counts_number _ _ _ He), (counts_number _ _ _ Hs). done.
  - destruct Hc as (-> & -> & He & Hs & _). eexists HALF_OPEN, e, s, _, r1.
    rewrite (counts_number _ _ _ He), (counts_number _ _ _ Hs). split; [done|]. split; [apply He|]. by split; [apply Hs|].
  - destruct Hc as (-> & -> & He & Hs). eexists (if b then FORCED_OPEN else FORCED_CLOSED), 0, 0, _, r1.
    rewrite (counts_number _ _ _ He), (counts_number _ _ _ Hs). by destruct b.
Qed.

(** Unpacking a reply. *)
Lemma replies_sim script name cfg o now r c m' : replies script now r c m' ->
  (forall r, rd_circuit_exec lua14 prefix name cfg o now r =
     py_bind script (fun x => py_bind (_unpack x) (fun s => py_ret (Snap s))) r) ->
  exists r', rd_circuit_exec lua14 prefix name cfg o now r = (Return (Snap (rc_snapshot lua14 c)), r') /\ rc_related now r' m'.
Proof.
  intros (st & a & b & q & r' & E & Ha & Hb & Hs & HR) Hx. exists r'. rewrite Hx. unfold py_bind at 1. rewrite E.
  rewrite unpack_spec by done. by rewrite Hs.
Qed.

Lemma write_state_sim name cfg d cd now r v h : d <> CLOSED ->
  redis_now_has (circuit_key prefix name) v now r r -> is_hash v h ->
  exists r1 h1, lua_write_state (circuit_key prefix name) d (default (reset_timeout cfg) cd) now r = (Return tt, r1) /\
    redis_now_has (circuit_key prefix name) (Some (RHash h1)) now r r1 /\
    circuit_hash (circuit_transition cfg d cd now).1 h1.
Proof.
  intros Hd Hn Hh. unfold lua_write_state, mbind, py_mbind, py_bind.
  destruct (decide (d = OPEN)) as [->|Ho].
  - destruct (hset_now_has _ _ _ _ _ _ [("state", Text (state_text OPEN)); ("opened_at", Number now);
      ("cool_down", Number (default (reset_timeout cfg) cd)); ("cerr", Number 0); ("csucc", Number 0);
      ("ho_admit", Number 0)]%string Hn Hh) as (r1 & -> & Hn1).
    eexists r1, _. split; [done|]. split; [exact Hn1|]. simpl. unfold counts. hash_cbn.
    repeat split; try done; by right.
  - destruct (hset_now_has _ _ _ _ _ _ [("state", Text (state_text d)); ("cerr", Number 0);
       ("csucc", Number 0); ("ho_admit", Number 0)]%string Hn Hh) as (r1 & -> & Hn1).
    set (h1 := hash_set _ h) in *.
    assert (hash_del ["opened_at"; "cool_down"]%string h1 !! "state"%string = Some (Text (state_text d))) as Hst.
    { unfold h1. by hash_cbn. }
    destruct (hdel_now_has _ _ _ _ _ ["opened_at"; "cool_down"]%string Hn1) as (r2 & -> & Hn2).
    { intros E. rewrite E, lookup_empty in Hst. done. }
    eexists r2, _. split; [done|]. split; [exact Hn2|]. unfold h1.
    destruct d; try done; simpl; unfold counts; hash_cbn; repeat split; try done; by right.
Qed.

Lemma transition_sim name cfg d cd now r m : rc_related now r m -> step_simulated name cfg (Transition d cd) now r m.
Proof.
  intros HR. unfold step_simulated. cbn [rd_circuit_exec rc_exec].
  destruct (value_hash _ _ (HR name now (Qle_refl _))) as (h & Hh & Hc).
  assert (redis_now_has (circuit_key prefix name) (redis_view r now (circuit_key prefix name)) now r r) as Hn by done.
  unfold lua_transition, mbind, py_mbind, py_bind.
  destruct (decide (d = CLOSED)) as [->|Hd].
  { destruct (del_now_has _ _ _ _ _ Hn) as (r1 & -> & Hc1). exists r1. split; [done|].
    apply (rc_related_put _ _ _ _ _ _ _ HR Hc1). intros t Ht. left. split; [done|]. apply view_of_closed. }
  destruct (write_state_sim name cfg d cd now r _ h Hd Hn Hh) as (r1 & h1 & -> & Hn1 & Hc1).
  destruct (decide (d = FORCED_OPEN \/ d = FORCED_CLOSED)) as [Hf|Hf].
  - destruct (persist_now_has _ _ _ _ _ Hn1) as (r2 & -> & Hc2). exists r2. split; [done|].
    apply (rc_related_put _ _ _ _ _ _ _ HR Hc2). intros t Ht. right. exists h1. split; [done|].
    destruct Hf as [-> | ->]; exact Hc1.
  - destruct (expire_now_has _ _ _ _ _ (seconds (circuit_ttl cfg)) Hn1 (circuit_ttl_pos cfg)) as (r2 & -> & Hc2).
    exists r2. split; [done|]. apply (rc_related_put _ _ _ _ _ _ _ HR Hc2). intros t Ht. apply kept_value; [done|].
    intros b. destruct d; simpl; try done; tauto.
Qed.

Lemma circuit_step_sim name cfg o now r m : cc_valid cfg -> rc_related now r m -> step_simulated name cfg o now r m.
Proof.
  intros Hcfg HR. destruct o as [|success|d cd|].
  - by apply acquire_sim.
  - unfold step_simulated. cbn [rc_exec]. destruct success.
    + eapply replies_sim; [by apply record_success_replies|done].
    + eapply replies_sim; [by apply record_failure_replies|done].
  - by apply transition_sim.
  - unfold step_simulated. cbn [rc_exec]. eapply replies_sim; [by apply snapshot_replies|done].
Qed.

Lemma circuits_sim now r m ops : rc_related now r m -> in_clock_order now ops -> Forall (fun o => cc_valid o.1.1.2) ops ->
  (run (fun o r => rd_circuit_exec lua14 prefix o.1.1.1 o.1.1.2 o.1.2 o.2 r) ops r).1 =
  Return <$> (run (fun o m => rc_exec lua14 o.1.1.1 o.1.1.2 o.1.2 o.2 m) ops m).1.
Proof.
  revert now r m. induction ops as [|[[[name cfg] o] now'] ops IH]; intros now r m HR Ht Hok; [done|].
  destruct Ht as [Hle Ht]. inversion_clear Hok as [|? ? Ho Hok'].
  assert (rc_related now' r m) as HR0 by (intros n t Htt; apply HR; lra).
  destruct (circuit_step_sim name cfg o now' r m Ho HR0) as (r' & E & HR').
  cbn [run fst snd] in *. rewrite E. specialize (IH now' r' _ HR' Ht Hok').
  destruct (rc_exec lua14 name cfg o now' m) as [a m']. cbn [fst snd] in *.
  destruct (run _ ops r') as [rs r2], (run _ ops m') as [rs' m2]. cbn [fst snd] in *. by subst.
Qed.
End Refines.

(** No key of the breakers, and no circuit that was used. *)
Definition no_breakers {R} `{RedisServer R} (prefix : string) (now : Q) (r : R) : Prop :=
  forall t name, (now <= t)%Q -> redis_view r t (circuit_key prefix name) = None.
Definition rc_no_circuits : rc_circuits := fun _ => (Closed 0 0, None).

(** C36 (refinement): over any Redis server, the breakers of all processes with one
    prefix are one circuit per name: every sequence of admissions, outcomes,
    transitions and snapshots, in the order of the server's clock, answers what the
    state machine of that circuit answers, forgotten once the lifetime of the last
    write is over. *)
Theorem redis_circuits_are_shared {R} `{RedisLaws R} :
  forall (lua14 : Q -> Q) prefix now (r : R) (ops : list ((string * ConsecutiveCountConfig * operation) * Q)),
  lua14 0%Q = 0%Q -> no_breakers prefix now r -> in_clock_order now ops -> Forall (fun o => cc_valid o.1.1.2) ops ->
  (run (fun o r => rd_circuit_exec lua14 prefix o.1.1.1 o.1.1.2 o.1.2 o.2 r) ops r).1 =
  Return <$> (run (fun o m => rc_exec lua14 o.1.1.1 o.1.1.2 o.1.2 o.2 m) ops rc_no_circuits).1.
Proof.
  intros lua14 prefix now r ops Hz Hr Ht Hok. apply (circuits_sim lua14 Hz prefix now); [|done|done].
  intros name t Hle. left. split; [by apply Hr|done].
Qed.

Definition rd_demo_config : ConsecutiveCountConfig := mkConsecutiveCountConfig [] 2 2 30 1 "WARNING".

(** Two failures trip the circuit; a probe is admitted once the cool-down is over and
    no second one; its success is not enough to close; the next one closes. *)
Definition rd_circuit_demo : list ((string * ConsecutiveCountConfig * operation) * Q) :=
  [(("db", rd_demo_config, Acquire), 1); (("db", rd_demo_config, Record_ false), 2);
   (("db", rd_demo_config, Record_ false), 3); (("db", rd_demo_config, Acquire), 20);
   (("api", rd_demo_config, Acquire), 20); (("db", rd_demo_config, Acquire), 33);
   (("db", rd_demo_config, Acquire), 34); (("db", rd_demo_config, Record_ true), 35);
   (("db", rd_demo_config, Acquire), 36); (("db", rd_demo_config, Record_ true), 37);
   (("db", rd_demo_config, Transition FORCED_OPEN None), 38); (("db", rd_demo_config, Acquire), 1000000)]%Q.

Lemma redis_circuits_are_shared_witness :
  (run (fun o r => rd_circuit_exec id "app:" o.1.1.1 o.1.1.2 o.1.2 o.2 r) rd_circuit_demo (∅ : store)).1 =
  Return <$> (run (fun o m => rc_exec id o.1.1.1 o.1.1.2 o.1.2 o.2 m) rd_circuit_demo rc_no_circuits).1 /\
  (run (fun o m => rc_exec id o.1.1.1 o.1.1.2 o.1.2 o.2 m) rd_circuit_demo rc_no_circuits).1 =
    [Admitted_ true; Snap (mkSnapshot CLOSED 0 1 0); Snap (mkSnapshot OPEN 3 0 0); Admitted_ false; Admitted_ true;
     Admitted_ true; Admitted_ false; Snap (mkSnapshot HALF_OPEN 0 0 1); Admitted_ true;
     Snap (mkSnapshot CLOSED 0 0 0); Done; Admitted_ false].
Proof.
  split; [|by vm_compute]. apply (redis_circuits_are_shared id "app:" 0 (∅ : store) rd_circuit_demo).
  - done.
  - intros t name _. simpl. unfold store_view. by rewrite lookup_empty.
  - vm_compute; repeat split; discriminate.
  - repeat (constructor; [by split_and!|]). constructor.
Defined.

(** A circuit opened by hand for longer than the lifetime of the configuration admits
    calls once its key expired, although it was to stay open. *)
Theorem redis_forgets_a_long_cool_down {R} `{RedisLaws R} :
  forall (lua14 : Q -> Q) prefix name cfg (cool_down now now' : Q) (r : R),
  lua14 0%Q = 0%Q -> cc_valid cfg -> no_breakers prefix now r -> (now <= now')%Q -> (now' < now + cool_down)%Q ->
  redis_ms now + seconds (circuit_ttl cfg) < redis_ms now' ->
  (run (fun o r => rd_circuit_exec lua14 prefix name cfg o.1 o.2 r)
     [(Transition OPEN (Some cool_down), now); (Acquire, now')] r).1 = [Return Done; Return (Admitted_ true)].
Proof.
  intros lua14 prefix name cfg cd now now' r Hz Hcfg Hr Hle _ Hms.
  pose proof (circuits_sim lua14 Hz prefix now r rc_no_circuits
    [(name, cfg, Transition OPEN (Some cd), now); (name, cfg, Acquire, now')]) as Hrun.
  cbn [run fst snd] in *. destruct (rd_circuit_exec lua14 prefix name cfg (Transition OPEN (Some cd)) now r) as [a r1].
  destruct (rd_circuit_exec lua14 prefix name cfg Acquire now' r1) as [b r2]. cbn [fst snd] in *. rewrite Hrun.
  - cbn. unfold rc_put, rc_view, rc_kept. simpl. rewrite decide_True by done. simpl.
    by rewrite (proj2 (Z.leb_gt _ _)) by done.
  - intros n t Ht. left. split; [by apply Hr|done].
  - split; [lra|]. by split.
  - by constructor; [|constructor; [|constructor]].
Qed.

Lemma redis_forgets_a_long_cool_down_witness :
  (run (fun o r => rd_circuit_exec id "app:" "db" rd_demo_config o.1 o.2 r)
     [(Transition OPEN (Some 172800%Q), 0%Q); (Acquire, 90000%Q)] (∅ : store)).1 =
  [Return Done; Return (Admitted_ true)].
Proof.
  apply redis_forgets_a_long_cool_down; [done|by split_and!| |by vm_compute..].
  intros t name _. simpl. unfold store_view. by rewrite lookup_empty.
Defined.
