(* ===== verification/RedisCache.v ===== *)
(** * The cache on Redis

    [grelmicro/cache/redis.py]: the Lua scripts that write a value with its tags, delete
    one, and delete a tag, over any server with the laws of [Redis].  A value has a
    record of its tags next to it, which goes when it goes; a tag has the set of the
    keys that carry it, which does not.

    The scripts are one dictionary of entries, except that a tag may still name a key
    whose entry had it and ran out: deleting the tag then takes the entry the key has
    since.  [rdc_do] is that dictionary.

    [clear] reads the keys and deletes them at one instant here; the bytes of a value
    are the characters of the text Redis keeps. *)

From S2P Require Import Prelude Errors PyStr CacheMemory TTLCache Redis.
From Stdlib Require Import Ascii String.

Local Open Scope Z_scope.

Definition _TAG_SCAN_BATCH_SIZE : Z := 500.

(** ** The scripts *)

Section Scripts.
Context {R : Type} `{RedisServer R}.

(** [for i = 1, #old do redis.call('SREM', old[i], KEYS[1]) end] *)
Fixpoint srem_each (sets : list string) (member : string) (now : Q) : py R exn unit :=
  match sets with
  | [] => mret tt
  | key :: sets => _ ← redis_srem key member now; srem_each sets member now
  end.

(** The loop of [_SET_WITH_TAGS_SCRIPT] that adds the tags *)
Fixpoint sadd_each (tags : list string) (key record : string) (now : Q) : py R exn unit :=
  match tags with
  | [] => mret tt
  | tag :: tags =>
      _ ← redis_sadd tag key now;
      _ ← redis_sadd record tag now;
      sadd_each tags key record now
  end.

Fixpoint unlink_each (keys : list string) (now : Q) : py R exn unit :=
  match keys with
  | [] => mret tt
  | key :: keys => _ ← redis_del key now; unlink_each keys now
  end.

(** The key is taken out of the sets its record names. *)
Definition lua_untag (key record : string) (now : Q) : py R exn unit :=
  old ← redis_smembers record now;
  srem_each old key now.

(** [_SET_WITH_TAGS_SCRIPT] *)
Definition lua_set_with_tags (key record : string) (value : string) (px : Z) (tags : list string) (now : Q) :
    py R exn unit :=
  _ ← redis_set key (Text value) (Some px) now;
  _ ← lua_untag key record now;
  _ ← redis_del record now;
  _ ← sadd_each tags key record now;
  redis_pexpire record px now.

(** [_DELETE_WITH_TAGS_SCRIPT] *)
Definition lua_delete_with_tags (key record : string) (now : Q) : py R exn unit :=
  _ ← lua_untag key record now;
  unlink_each [key; record] now.

(** [_DELETE_TAG_SCRIPT] *)
Definition lua_delete_tag (tag : string) (count : Z) (now : Q) : py R exn unit :=
  pages ← redis_sscan tag count now;
  _ ← unlink_each (List.concat pages) now;
  redis_del tag now.

(** ** [RedisCacheAdapter] *)

Context (prefix : string).

(** [_full], [_tag_key] and [_rtag_key] *)
Definition _full (key : string) : string := prefix +:+ key.
Definition tag_key (tag : string) : string := prefix +:+ ("cache:tag:" +:+ tag).
Definition rtag_key (key : string) : string := prefix +:+ ("cache:rtag:" +:+ key).

(** [int(ttl * 1000)] *)
Definition px_of (ttl : Q) : Z := py_int (ttl * 1000).

Definition text_of (value : bytes) : string := string_of_list_byte value.
Definition value_of_cell (c : cell) : option bytes :=
  match c with Text s => Some (list_byte_of_string s) | Number _ => None end.

(** The calls that reach the server. *)
Inductive rdc_op : Type :=
| RcGet (key : string)
| RcGetMany (keys : list string)
| RcSet (key : string) (value : bytes) (ttl : Q) (tags : list string)
| RcDelete (key : string)
| RcDeleteTag (tag : string)
| RcClear.

(** The loops of [set_many], [delete_many] and [delete_tags]: each turn is a script of
    its own, and other calls may come in between. *)
Definition rdc_calls (op : cache_op) : list rdc_op :=
  match op with
  | CGet key => [RcGet key]
  | CSet key value ttl tags => [RcSet key value ttl tags]
  | CGetMany keys => if bool_decide (keys = []) then [] else [RcGetMany keys]
  | CSetMany items ttl tags => (fun item => RcSet item.1 item.2 ttl tags) <$> items
  | CDelete key => [RcDelete key]
  | CDeleteMany keys => RcDelete <$> keys
  | CDeleteTags tags => RcDeleteTag <$> tags
  | CClear => [RcClear]
  end.

(** [zip(keys, values)] where a value was found *)
Definition found_values (keys : list string) (values : list (option cell)) : gmap string bytes :=
  foldl (fun m kv => match kv.2 ≫= value_of_cell with Some v => <[kv.1 := v]> m | None => m end) ∅ (zip keys values).

Definition rdc_exec (op : rdc_op) (now : Q) : py R exn cache_result :=
  match op with
  | RcGet key => c ← redis_get (_full key) now; mret (CValue (c ≫= value_of_cell))
  | RcGetMany keys => cs ← redis_mget (_full <$> keys) now; mret (CFound (found_values keys cs))
  | RcSet key value ttl tags =>
      _ ← lua_set_with_tags (_full key) (rtag_key key) (text_of value) (px_of ttl) (tag_key <$> tags) now;
      mret CNone
  | RcDelete key => _ ← lua_delete_with_tags (_full key) (rtag_key key) now; mret CNone
  | RcDeleteTag tag => _ ← lua_delete_tag (tag_key tag) _TAG_SCAN_BATCH_SIZE now; mret CNone
  | RcClear =>
      keys ← redis_scan (prefix +:+ "*") now;
      _ ← unlink_each keys now;
      mret CNone
  end.
End Scripts.

(** ** The dictionary

    The slot of a key: its entry, with its deadline in milliseconds and its tags, and
    the [stale] tags, which may name the key although the entry does not have them. *)
Record rc_slot : Type := mkSlot { sl_value : option (bytes * Z * gset string); sl_stale : gset string }.

Abbreviation rc_slots := (gmap string rc_slot).

Definition slot (m : rc_slots) (key : string) : rc_slot := default (mkSlot None ∅) (m !! key).

Definition slot_value (t : Q) (s : rc_slot) : option bytes :=
  match sl_value s with
  | Some (value, deadline, _) => if redis_ms t <=? deadline then Some value else None
  | None => None
  end.

(** The tags a script that cleans up after a key does not find any more: the record
    of an entry that ran out is gone. *)
Definition uncleaned (now : Q) (s : rc_slot) : gset string :=
  match sl_value s with
  | Some (_, deadline, tags) => if redis_ms now <=? deadline then sl_stale s else sl_stale s ∪ tags
  | None => sl_stale s
  end.

Definition all_tags (s : rc_slot) : gset string :=
  match sl_value s with Some (_, _, tags) => sl_stale s ∪ tags | None => sl_stale s end.

(** A tag is deleted: the entries that have it go, and [also] one that has it stale. *)
Definition slot_without (tag : string) (also : bool) (s : rc_slot) : rc_slot :=
  match sl_value s with
  | Some (value, deadline, tags) =>
      if bool_decide (tag ∈ tags) || also && bool_decide (tag ∈ sl_stale s)
      then mkSlot None (all_tags s ∖ {[tag]})
      else mkSlot (sl_value s) (sl_stale s ∖ {[tag]})
  | None => mkSlot None (sl_stale s ∖ {[tag]})
  end.

Definition rdc_do (also : gset string) (op : rdc_op) (now : Q) (m : rc_slots) : outcome exn cache_result * rc_slots :=
  match op with
  | RcGet key => (Return (CValue (slot_value now (slot m key))), m)
  | RcGetMany keys =>
      (Return (CFound (foldl (fun found key =>
         match slot_value now (slot m key) with Some v => <[key := v]> found | None => found end) ∅ keys)), m)
  | RcSet key value ttl tags =>
      if 0 <? px_of ttl then
        (Return CNone,
         <[key := mkSlot (Some (value, redis_ms now + px_of ttl, list_to_set tags)) (uncleaned now (slot m key))]> m)
      else (Raise response_error, m)
  | RcDelete key => (Return CNone, <[key := mkSlot None (uncleaned now (slot m key))]> m)
  | RcDeleteTag tag =>
      (Return CNone, map_imap (fun key s => Some (slot_without tag (bool_decide (key ∈ also)) s)) m)
  | RcClear => (Return CNone, ∅)
  end.

(** ** Commands on sets

    [sees now r V]: from [now] on the server shows [V]. *)
Section Sees.
Context {R : Type} `{RedisLaws R}.
Implicit Types (r : R) (V : Q -> string -> option rvalue) (s : gset string).

Definition sees (now : Q) r V : Prop := forall t k, (now <= t)%Q -> redis_view r t k = V t k.

Definition set_value s : option rvalue := if decide (s = ∅) then None else Some (RSet s).

(** A key that holds a set, and has no deadline. *)
Definition keeps_set (now : Q) V key s : Prop := forall t, (now <= t)%Q -> V t key = set_value s.

Lemma decide_elem_of_cons {A} (k key : string) keys (a b : A) : k <> key ->
  (if decide (k ∈ key :: keys) then a else b) = if decide (k ∈ keys) then a else b.
Proof.
  intros Hne. destruct (decide (k ∈ keys)) as [Hin|Hout]; [by rewrite decide_True by (by right)|].
  rewrite decide_False; [done|]. by intros [|]%elem_of_cons.
Qed.

Lemma sees_unchanged now r r' V : sees now r V -> redis_unchanged now r r' -> sees now r' V.
Proof. intros Hs Hu t k Ht. rewrite Hu by done. by apply Hs. Qed.

Lemma sees_changed now r r' V key v : sees now r V -> redis_changed key v now r r' ->
  sees now r' (fun t k => if decide (k = key) then v t else V t k).
Proof. intros Hs Hc t k Ht. rewrite (Hc t k Ht). case_decide; [done|]. by apply Hs. Qed.

Lemma sees_ext now r V V' : sees now r V -> (forall t k, (now <= t)%Q -> V t k = V' t k) -> sees now r V'.
Proof. intros Hs HV t k Ht. rewrite <- HV by done. by apply Hs. Qed.

Lemma set_value_cases v s : v = set_value s -> v = None /\ s = ∅ \/ v = Some (RSet s).
Proof. unfold set_value. intros ->. case_decide; auto. Qed.

Lemma keeps_set_now now V key s r : sees now r V -> keeps_set now V key s -> redis_view r now key = set_value s.
Proof. intros Hs Hk. rewrite (Hs now key) by lra. apply Hk. lra. Qed.

(** What is written over such a set has no deadline either. *)
Lemma keeps_set_deadline now V key s r v t : sees now r V -> keeps_set now V key s -> (now <= t)%Q ->
  keeps_deadline r key now v t = Some v.
Proof.
  intros Hs Hk Ht. unfold keeps_deadline. rewrite (keeps_set_now now V key s r Hs Hk), (Hs t key Ht), (Hk t Ht).
  by destruct (set_value s).
Qed.

Lemma sadd_sees now r V key member s : sees now r V -> keeps_set now V key s ->
  exists r', redis_sadd key member now r = (Return tt, r') /\
    sees now r' (fun t k => if decide (k = key) then set_value ({[member]} ∪ s) else V t k).
Proof.
  intros Hs Hk. destruct (sadd_law key member now r s) as (r' & E & Hc).
  { by apply set_value_cases, (keeps_set_now now V key s r). }
  exists r'. split; [done|]. eapply sees_ext; [by eapply sees_changed|]. intros t k Ht. cbn. case_decide; [|done].
  rewrite (keeps_set_deadline now V key s r _ t Hs Hk Ht). unfold set_value. rewrite decide_False; [done|]. set_solver.
Qed.

Lemma srem_sees now r V key member s : sees now r V -> keeps_set now V key s ->
  exists r', redis_srem key member now r = (Return tt, r') /\
    sees now r' (fun t k => if decide (k = key) then set_value (s ∖ {[member]}) else V t k).
Proof.
  intros Hs Hk. pose proof (keeps_set_now now V key s r Hs Hk) as Hv.
  destruct (decide (s ∖ {[member]} = ∅)) as [He|He].
  - destruct (srem_last_law key member now r s) as (r' & E & Hc); [by apply set_value_cases|done|].
    exists r'. split; [done|]. eapply sees_ext; [by eapply sees_changed|]. intros t k Ht. cbn. case_decide; [|done].
    unfold set_value. by rewrite decide_True.
  - destruct (srem_law key member now r s) as (r' & E & Hc); [|done|].
    { rewrite Hv. unfold set_value. rewrite decide_False; [done|]. intros ->. apply He. set_solver. }
    exists r'. split; [done|]. eapply sees_ext; [by eapply sees_changed|]. intros t k Ht. cbn. case_decide; [|done].
    rewrite (keeps_set_deadline now V key s r _ t Hs Hk Ht). unfold set_value. by rewrite decide_False.
Qed.

Lemma del_sees now r V key : sees now r V ->
  exists r', redis_del key now r = (Return tt, r') /\ sees now r' (fun t k => if decide (k = key) then None else V t k).
Proof. intros Hs. destruct (del_law key now r) as (r' & E & Hc). exists r'. split; [done|]. by eapply sees_changed. Qed.

Lemma unlink_each_sees now r V keys : sees now r V ->
  exists r', unlink_each keys now r = (Return tt, r') /\
    sees now r' (fun t k => if decide (k ∈ keys) then None else V t k).
Proof.
  revert r V. induction keys as [|key keys IH]; intros r V Hs.
  - exists r. split; [done|]. eapply sees_ext; [done|]. intros t k Ht. cbn. by rewrite decide_False by apply not_elem_of_nil.
  - destruct (del_sees now r V key Hs) as (r1 & E1 & H1). destruct (IH r1 _ H1) as (r2 & E2 & H2).
    exists r2. split; [cbn; unfold mbind, py_mbind, py_bind; by rewrite E1|].
    eapply sees_ext; [exact H2|]. intros t k Ht. cbn beta.
    destruct (decide (k = key)) as [->|Hne]; [rewrite (decide_True (P := key ∈ key :: keys)) by (by left); by case_decide|].
    by rewrite (decide_elem_of_cons k key).
Qed.

Lemma srem_each_sees now r V sets member (S : string -> gset string) : sees now r V ->
  (forall key, key ∈ sets -> keeps_set now V key (S key)) ->
  exists r', srem_each sets member now r = (Return tt, r') /\
    sees now r' (fun t k => if decide (k ∈ sets) then set_value (S k ∖ {[member]}) else V t k).
Proof.
  revert r V S. induction sets as [|key sets IH]; intros r V S Hs Hk.
  - exists r. split; [done|]. eapply sees_ext; [done|]. intros t k Ht. cbn. by rewrite decide_False by apply not_elem_of_nil.
  - destruct (srem_sees now r V key member (S key) Hs) as (r1 & E1 & H1); [apply Hk; by left|].
    destruct (IH r1 _ (fun k => if decide (k = key) then S k ∖ {[member]} else S k) H1) as (r2 & E2 & H2).
    { intros k Hin t Ht. cbn. case_decide; [by subst|]. apply Hk; [by right|done]. }
    exists r2. split; [cbn; unfold mbind, py_mbind, py_bind; by rewrite E1|].
    eapply sees_ext; [exact H2|]. intros t k Ht. cbn beta. destruct (decide (k = key)) as [->|Hne].
    + rewrite (decide_True (P := key ∈ key :: sets)) by (by left). case_decide; [f_equal; clear; set_solver|done].
    + by rewrite (decide_elem_of_cons k key).
Qed.

Lemma sadd_each_sees now r V tags key record (S : string -> gset string) A : sees now r V ->
  record ∉ tags -> keeps_set now V record A -> (forall tag, tag ∈ tags -> keeps_set now V tag (S tag)) ->
  exists r', sadd_each tags key record now r = (Return tt, r') /\
    sees now r' (fun t k => if decide (k = record) then set_value (A ∪ list_to_set tags)
                            else if decide (k ∈ tags) then set_value ({[key]} ∪ S k) else V t k).
Proof.
  revert r V S A. induction tags as [|tag tags IH]; intros r V S A Hs Hr HA Hk.
  - exists r. split; [done|]. eapply sees_ext; [done|]. intros t k Ht. cbn. rewrite (decide_False (P := k ∈ _)) by apply not_elem_of_nil.
    case_decide; [subst|done]. rewrite (HA t Ht). f_equal. set_solver.
  - apply not_elem_of_cons in Hr as [Hne Hr].
    destruct (sadd_sees now r V tag key (S tag) Hs) as (r1 & E1 & H1); [apply Hk; by left|].
    destruct (sadd_sees now r1 _ record tag A H1) as (r2 & E2 & H2).
    { intros t Ht. cbn. rewrite decide_False by done. by apply HA. }
    destruct (IH r2 _ (fun k => if decide (k = tag) then {[key]} ∪ S k else S k) ({[tag]} ∪ A) H2 Hr) as (r3 & E3 & H3).
    { intros t Ht. cbn. by rewrite decide_True. }
    { intros k Hin t Ht. cbn. rewrite decide_False by (by intros ->). case_decide; [by subst|]. apply Hk; [by right|done]. }
    exists r3. split; [cbn; unfold mbind, py_mbind, py_bind; by rewrite E1, E2|].
    eapply sees_ext; [exact H3|]. intros t k Ht. cbn beta.
    destruct (decide (k = record)) as [->|]; [f_equal; cbn; clear; set_solver|].
    destruct (decide (k = tag)) as [->|Hnt].
    + rewrite (decide_True (P := tag ∈ tag :: tags)) by (by left). case_decide; [f_equal; clear; set_solver|done].
    + by rewrite (decide_elem_of_cons k tag).
Qed.
End Sees.

(** ** What a server keeps of the dictionary *)

(** A key that is not mistaken for a record of the adapter. *)
Definition plain_key (key : string) : Prop :=
  forall x, key <> "cache:tag:" +:+ x /\ key <> "cache:rtag:" +:+ x.

Section Keys.
Context (p : string).

#[export] Instance full_key_inj : Inj (=) (=) (_full p).
Proof. intros a b E. by apply (inj (String.append p)) in E. Qed.
#[export] Instance tag_key_inj : Inj (=) (=) (tag_key p).
Proof. intros a b E. by do 2 apply (inj (String.append _)) in E. Qed.
#[export] Instance rtag_key_inj : Inj (=) (=) (rtag_key p).
Proof. intros a b E. by do 2 apply (inj (String.append _)) in E. Qed.

Lemma full_tag key tag : plain_key key -> _full p key <> tag_key p tag.
Proof. intros Hk E%(inj (String.append p)). by destruct (Hk tag). Qed.
Lemma full_rtag key key' : plain_key key -> _full p key <> rtag_key p key'.
Proof. intros Hk E%(inj (String.append p)). by destruct (Hk key'). Qed.
Lemma tag_rtag tag key : tag_key p tag <> rtag_key p key.
Proof. by intros E%(inj (String.append p)). Qed.
End Keys.

Section Cache.
Context {R : Type} `{RedisLaws R} (p : string).
Implicit Types (r : R) (m : rc_slots).

(** The value of a key. *)
Definition slot_cell (t : Q) (s : rc_slot) : option rvalue := (fun v => RCell (Text (text_of v))) <$> slot_value t s.

(** The record of the tags of an entry. *)
Definition tag_record (tags : gset string) : gset string := set_map (tag_key p) tags.

(** [x] is the key of an entry that has the tag, or has it stale. *)
Definition named_by (m : rc_slots) (tag x : string) : Prop :=
  exists key, plain_key key /\ x = _full p key /\ tag ∈ all_tags (slot m key).

(** The members of the set at a key. *)
Definition set_at (now : Q) r (key : string) : gset string :=
  match redis_view r now key with Some (RSet s) => s | _ => ∅ end.

Record cached_as (now : Q) r m : Prop := {
  ca_value : forall key t, plain_key key -> (now <= t)%Q ->
    redis_view r t (_full p key) = slot_cell t (slot m key);
  ca_live : forall key value deadline tags t, plain_key key ->
    sl_value (slot m key) = Some (value, deadline, tags) -> (now <= t)%Q -> redis_ms t <= deadline ->
    redis_view r t (rtag_key p key) = set_value (tag_record tags);
  ca_record : forall key, plain_key key ->
    exists tags, redis_view r now (rtag_key p key) = set_value (tag_record tags);
  ca_tag : forall tag, keeps_set now (redis_view r) (tag_key p tag) (set_at now r (tag_key p tag));
  ca_named : forall tag x, x ∈ set_at now r (tag_key p tag) -> named_by m tag x;
  ca_member : forall key value deadline tags tag, plain_key key ->
    sl_value (slot m key) = Some (value, deadline, tags) -> redis_ms now <= deadline -> tag ∈ tags ->
    _full p key ∈ set_at now r (tag_key p tag);
}.

Lemma tag_record_empty : tag_record ∅ = ∅.
Proof. unfold tag_record. set_solver. Qed.

Lemma elem_of_tag_record tag tags : tag_key p tag ∈ tag_record tags <-> tag ∈ tags.
Proof.
  unfold tag_record. rewrite elem_of_map. split; [|by exists tag]. by intros (tag' & ->%(inj (tag_key p)) & ?).
Qed.

Lemma set_value_inj (a b : gset string) : set_value a = set_value b -> a = b.
Proof. unfold set_value. repeat case_decide; congruence. Qed.

Lemma set_at_view now r key s : redis_view r now key = set_value s -> set_at now r key = s.
Proof. unfold set_at, set_value. intros ->. by case_decide. Qed.

Lemma cached_later now now' r m : cached_as now r m -> (now <= now')%Q -> cached_as now' r m.
Proof.
  intros [Hv Hl Hr Ht Hn Hin] Hle. pose proof (redis_ms_mono _ _ Hle) as Hms.
  assert (forall tag, set_at now' r (tag_key p tag) = set_at now r (tag_key p tag)) as Es.
  { intros tag. apply set_at_view. by apply Ht. }
  split.
  - intros key t Hk Hle'. apply Hv; [done|lra].
  - intros key value deadline tags t Hk E Hle' Hd. eapply Hl; [done..|lra|done].
  - intros key Hk. destruct (Hr key Hk) as [tags E].
    destruct (view_expires r now now' (rtag_key p key) Hle) as [->| ->]; [by exists tags|].
    exists ∅. by rewrite tag_record_empty.
  - intros tag t Hle'. rewrite Es. apply Ht. lra.
  - intros tag x. rewrite Es. apply Hn.
  - intros key value deadline tags tag Hk E Hd Htag. rewrite Es. eapply Hin; [done..|lia|done].
Qed.

Lemma cached_unchanged now r r' m : cached_as now r m -> redis_unchanged now r r' -> cached_as now r' m.
Proof.
  intros [Hv Hl Hr Ht Hn Hin] Hu.
  assert (forall k, set_at now r' k = set_at now r k) as Es by (intros k; unfold set_at; by rewrite Hu by lra).
  split; try setoid_rewrite Es; try done.
  - intros key t Hk Hle. rewrite Hu by done. by apply Hv.
  - intros key value deadline tags t Hk E Hle Hd. rewrite Hu by done. by eapply Hl.
  - intros key Hk. rewrite Hu by lra. by apply Hr.
  - intros tag t Hle. rewrite Hu by done. by apply Ht.
Qed.

(** A server without a key of the namespace. *)
Lemma cached_nothing now r :
  (forall key t, (now <= t)%Q -> redis_view r t (p +:+ key) = None) -> cached_as now r ∅.
Proof.
  intros Hr. assert (forall tag, set_at now r (tag_key p tag) = ∅) as Es.
  { intros tag. apply set_at_view, Hr. lra. }
  split; try setoid_rewrite Es; try done.
  - intros key t _ Hle. by apply Hr.
  - intros key _. exists ∅. rewrite tag_record_empty. apply Hr. lra.
  - intros tag t Hle. by apply Hr.
Qed.

(** The key is out of the sets its record named. *)
Lemma untag_sees now r m key (V : Q -> string -> option rvalue) r1 :
  cached_as now r m -> plain_key key -> sees now r1 V ->
  (forall t k, (now <= t)%Q -> k <> _full p key -> V t k = redis_view r t k) ->
  exists (old : list string) r2, lua_untag (_full p key) (rtag_key p key) now r1 = (Return tt, r2) /\
    sees now r2 (fun t k => if decide (k ∈ old) then set_value (set_at now r k ∖ {[_full p key]}) else V t k) /\
    exists tags, redis_view r now (rtag_key p key) = set_value (tag_record tags) /\
      forall k, k ∈ old <-> k ∈ tag_record tags.
Proof.
  intros Hc Hk Hs HV. destruct (ca_record _ _ _ Hc key Hk) as [tags Er].
  destruct (smembers_law (rtag_key p key) now r1 (tag_record tags)) as (old & r2 & E & Hu & Hold).
  { apply set_value_cases. rewrite (Hs now) by lra. rewrite HV; [done|lra|]. apply not_eq_sym. by apply full_rtag. }
  destruct (srem_each_sees now r2 V old (_full p key) (set_at now r)) as (r3 & E3 & H3).
  { by eapply sees_unchanged. }
  { intros k Hin t Ht. apply Hold in Hin. unfold tag_record in Hin. apply elem_of_map in Hin as (tag & -> & _).
    rewrite HV; [by apply (ca_tag _ _ _ Hc)|done|]. apply not_eq_sym. by apply full_tag. }
  exists old, r3. split; [unfold lua_untag, mbind, py_mbind, py_bind; by rewrite E|]. split; [done|]. by exists tags.
Qed.

Lemma slot_insert m key sl : slot (<[key := sl]> m) key = sl.
Proof. unfold slot. by rewrite lookup_insert_eq. Qed.

Lemma slot_insert_ne m key key' sl : key' <> key -> slot (<[key := sl]> m) key' = slot m key'.
Proof. intros Hne. unfold slot. by rewrite lookup_insert_ne. Qed.

(** The members of the set of a tag when a script wrote the key with the tags [new], and
    cleaned up the tags [old]. *)
Definition members_after (now : Q) r (key : string) (old new : gset string) (tag : string) : gset string :=
  (if decide (tag ∈ new) then {[_full p key]} else ∅) ∪
  (if decide (tag ∈ old) then set_at now r (tag_key p tag) ∖ {[_full p key]} else set_at now r (tag_key p tag)).

Definition tags_in (v : option (bytes * Z * gset string)) : gset string :=
  match v with Some (_, _, tags) => tags | None => ∅ end.

Lemma slot_updated now r r' m key v old :
  cached_as now r m -> plain_key key -> redis_view r now (rtag_key p key) = set_value (tag_record old) ->
  (forall k t, (now <= t)%Q -> k <> _full p key -> k <> rtag_key p key -> (forall tag, k <> tag_key p tag) ->
     redis_view r' t k = redis_view r t k) ->
  (forall t, (now <= t)%Q -> redis_view r' t (_full p key) = slot_cell t (mkSlot v ∅)) ->
  (forall t, (now <= t)%Q -> redis_view r' t (rtag_key p key) =
     match v with
     | Some (_, deadline, tags) => if redis_ms t <=? deadline then set_value (tag_record tags) else None
     | None => None
     end) ->
  (forall tag, keeps_set now (redis_view r') (tag_key p tag) (members_after now r key old (tags_in v) tag)) ->
  cached_as now r' (<[key := mkSlot v (uncleaned now (slot m key))]> m).
Proof.
  intros [Hv Hl Hr Ht Hn Hin] Hk Hold Hother Hown Hrec Hset.
  assert (forall tag, set_at now r' (tag_key p tag) = members_after now r key old (tags_in v) tag) as Es.
  { intros tag. apply set_at_view, Hset. lra. }
  assert (forall key', plain_key key' -> key' <> key -> forall t, (now <= t)%Q ->
    redis_view r' t (_full p key') = redis_view r t (_full p key') /\
    redis_view r' t (rtag_key p key') = redis_view r t (rtag_key p key')) as Hne.
  { intros key' Hk' Hne t Hle. split; apply Hother; try done.
    - by intros ->%(inj (_full p)).
    - by apply full_rtag.
    - intros tag. by apply full_tag.
    - apply not_eq_sym. by apply full_rtag.
    - by intros ->%(inj (rtag_key p)).
    - intros tag. apply not_eq_sym, tag_rtag. }
  split.
  - intros key' t Hk' Hle. destruct (decide (key' = key)) as [->|Hd]; [rewrite slot_insert; by apply Hown|].
    rewrite slot_insert_ne by done. rewrite (proj1 (Hne key' Hk' Hd t Hle)). by apply Hv.
  - intros key' value deadline tags t Hk' E Hle Hd. destruct (decide (key' = key)) as [->|Hd'].
    + rewrite slot_insert in E. cbn in E. subst v. rewrite Hrec by done. by rewrite (proj2 (Z.leb_le _ _)).
    + rewrite slot_insert_ne in E by done. rewrite (proj2 (Hne key' Hk' Hd' t Hle)). by eapply Hl.
  - intros key' Hk'. destruct (decide (key' = key)) as [->|Hd'].
    + rewrite Hrec by lra. destruct v as [[[value deadline] tags]|]; [destruct (_ <=? _); [by exists tags|]|];
        exists ∅; by rewrite tag_record_empty.
    + rewrite (proj2 (Hne key' Hk' Hd' now ltac:(lra))). by apply Hr.
  - intros tag. rewrite Es. apply Hset.
  - intros tag x. rewrite Es. unfold members_after. intros [Hx|Hx]%elem_of_union.
    + case_decide as Hnew; [|by apply elem_of_empty in Hx]. apply elem_of_singleton in Hx as ->.
      exists key. split_and!; [done..|]. rewrite slot_insert. unfold all_tags. cbn.
      destruct v as [[[value deadline] tags]|]; [cbn in Hnew; clear -Hnew; set_solver|by apply elem_of_empty in Hnew].
    + assert (x ∈ set_at now r (tag_key p tag) /\ (tag ∈ old -> x <> _full p key)) as [Hx' Hout].
      { case_decide; [|done]. apply elem_of_difference in Hx as [? Hx]. split; [done|]. intros _ ->. apply Hx. set_solver. }
      destruct (Hn tag x Hx') as (key' & Hk' & -> & Htag). exists key'. split_and!; [done..|].
      destruct (decide (key' = key)) as [->|Hd']; [|by rewrite slot_insert_ne].
      rewrite slot_insert. assert (tag ∉ old) as Hno by (intros Ho; by apply Hout).
      assert (tag ∈ uncleaned now (slot m key)) as Hun.
      { unfold uncleaned, all_tags in *. destruct (sl_value (slot m key)) as [[[value deadline] tags]|] eqn:E; [|done].
        destruct (Z.leb_spec (redis_ms now) deadline) as [Hlive|]; [|done].
        apply elem_of_union in Htag as [?|Htag]; [done|]. exfalso. apply Hno.
        pose proof (Hl key value deadline tags now Hk E ltac:(lra) Hlive) as Hrv. rewrite Hold in Hrv.
        apply set_value_inj in Hrv. apply elem_of_tag_record. rewrite Hrv. by apply elem_of_tag_record. }
      unfold all_tags. cbn. destruct v as [[[value deadline] tags]|]; [clear -Hun; set_solver|done].
  - intros key' value deadline tags tag Hk' E Hd Htag. rewrite Es. unfold members_after.
    destruct (decide (key' = key)) as [->|Hd'].
    + rewrite slot_insert in E. cbn in E. subst v. cbn. rewrite (decide_True (P := tag ∈ tags)) by done. set_solver.
    + rewrite slot_insert_ne in E by done. pose proof (Hin key' value deadline tags tag Hk' E Hd Htag) as Hx.
      apply elem_of_union_r. case_decide; [|done]. apply elem_of_difference. split; [done|].
      by intros ->%elem_of_singleton%(inj (_full p)).
Qed.

Lemma slot_cell_value t s : slot_cell t s = (fun v => RCell (Text (text_of v))) <$> slot_value t s.
Proof. done. Qed.

Lemma value_of_text v : value_of_cell (Text (text_of v)) = Some v.
Proof. cbn. f_equal. apply list_byte_of_string_of_list_byte. Qed.

(** What a script leaves that took the key out of the sets [old] and put it into those of
    [tags]: [own] at the key, [record] at its record. *)
Definition rewritten (now : Q) r (key : string) (old tags : list string) (own record : Q -> option rvalue) (t : Q)
    (k : string) : option rvalue :=
  let s := if decide (k ∈ old) then set_at now r k ∖ {[_full p key]} else set_at now r k in
  if decide (k = rtag_key p key) then record t
  else if decide (k ∈ tag_key p <$> tags) then set_value ({[_full p key]} ∪ s)
  else if decide (k ∈ old) then set_value s
  else if decide (k = _full p key) then own t
  else redis_view r t k.

Lemma slot_rewritten now r r' m key v old otags tags own record :
  cached_as now r m -> plain_key key -> redis_view r now (rtag_key p key) = set_value (tag_record otags) ->
  (forall k, k ∈ old <-> k ∈ tag_record otags) -> sees now r' (rewritten now r key old tags own record) ->
  tags_in v = list_to_set tags ->
  (forall t, (now <= t)%Q -> own t = slot_cell t (mkSlot v ∅)) ->
  (forall t, (now <= t)%Q -> record t =
     match v with
     | Some (_, deadline, tags) => if redis_ms t <=? deadline then set_value (tag_record tags) else None
     | None => None
     end) ->
  cached_as now r' (<[key := mkSlot v (uncleaned now (slot m key))]> m).
Proof.
  intros Hc Hk Hrec Hold Hs Htags Hown Hrecord.
  assert (forall k, k ∈ old -> exists tag, k = tag_key p tag) as Hot.
  { intros k Hin%Hold. apply elem_of_map in Hin as (tag & -> & _). by exists tag. }
  assert (forall k, k ∈ tag_key p <$> tags -> exists tag, k = tag_key p tag) as Hnt.
  { intros k (tag & -> & _)%list_elem_of_fmap. by exists tag. }
  apply (slot_updated now r r' m key v otags Hc Hk Hrec).
  - intros k t Ht Hf Hr Htag. rewrite (Hs t k Ht). unfold rewritten. cbv zeta. rewrite !decide_False; try done.
    + intros (tag & ->)%Hot. by apply (Htag tag).
    + intros (tag & ->)%Hnt. by apply (Htag tag).
  - intros t Ht. rewrite (Hs t _ Ht), <- Hown by done. unfold rewritten. cbv zeta.
    rewrite decide_False, decide_False, decide_False, decide_True; try done.
    + intros (tag & E)%Hot. by apply (full_tag p key tag).
    + intros (tag & E)%Hnt. by apply (full_tag p key tag).
    + by apply full_rtag.
  - intros t Ht. rewrite (Hs t _ Ht), <- Hrecord by done. unfold rewritten. by rewrite decide_True.
  - intros tag t Ht. rewrite (Hs t _ Ht). unfold rewritten, members_after. cbv zeta. rewrite Htags.
    rewrite decide_False by apply tag_rtag.
    assert (tag_key p tag ∈ tag_key p <$> tags <-> tag ∈ (list_to_set tags : gset string)) as Hnew.
    { rewrite elem_of_list_to_set, list_elem_of_fmap. split; [by intros (x & ->%(inj (tag_key p)) & ?)|]. intros ?. by exists tag. }
    rewrite !(decide_ext (tag_key p tag ∈ tag_key p <$> tags) (tag ∈ (list_to_set tags : gset string))) by done.
    rewrite !(decide_ext (tag_key p tag ∈ old) (tag ∈ otags)) by (rewrite Hold; apply elem_of_tag_record).
    assert (forall s : gset string, ∅ ∪ s = s) as He by (intros s; clear; set_solver).
    destruct (decide (tag ∈ list_to_set tags)), (decide (tag ∈ otags)); rewrite ?He; try done.
    rewrite decide_False by (apply not_eq_sym; by apply full_tag). by apply (ca_tag _ _ _ Hc).
Qed.

(** [_SET_WITH_TAGS_SCRIPT] *)
Lemma set_with_tags_sees now r m key value px tags : cached_as now r m -> plain_key key -> 0 < px ->
  exists old otags r', lua_set_with_tags (_full p key) (rtag_key p key) value px (tag_key p <$> tags) now r =
      (Return tt, r') /\
    redis_view r now (rtag_key p key) = set_value (tag_record otags) /\ (forall k, k ∈ old <-> k ∈ tag_record otags) /\
    sees now r' (rewritten now r key old tags (lives_for px now (Some (RCell (Text value))))
      (lives_for px now (set_value (∅ ∪ list_to_set (tag_key p <$> tags))))).
Proof.
  intros Hc Hk Hpx.
  destruct (set_px_law (_full p key) (Text value) px now r Hpx) as (r1 & E1 & H1).
  assert (sees now r (redis_view r)) as Hs0 by done.
  pose proof (sees_changed now r r1 _ _ _ Hs0 H1) as Hs1.
  destruct (untag_sees now r m key _ r1 Hc Hk Hs1) as (old & r2 & E2 & Hs2 & otags & Hrec & Hold).
  { intros t k _ Hne. by rewrite decide_False. }
  destruct (del_sees now r2 _ (rtag_key p key) Hs2) as (r3 & E3 & Hs3).
  destruct (sadd_each_sees now r3 _ (tag_key p <$> tags) (_full p key) (rtag_key p key)
    (fun k => if decide (k ∈ old) then set_at now r k ∖ {[_full p key]} else set_at now r k) ∅ Hs3)
    as (r4 & E4 & Hs4).
  { intros (tag & E & _)%list_elem_of_fmap. by apply (tag_rtag p tag key). }
  { intros t Ht. cbn beta. by rewrite decide_True. }
  { intros k (tag & -> & _)%list_elem_of_fmap t Ht. cbn beta. rewrite decide_False by apply tag_rtag.
    case_decide; [done|]. rewrite decide_False by (apply not_eq_sym; by apply full_tag). by apply (ca_tag _ _ _ Hc). }
  destruct (pexpire_law (rtag_key p key) px now r4 Hpx) as (r5 & E5 & H5).
  rewrite (Hs4 now (rtag_key p key)), decide_True in H5 by (lra || done).
  exists old, otags, r5. split; [unfold lua_set_with_tags, mbind, py_mbind, py_bind; by rewrite E1, E2, E3, E4, E5|].
  split_and!; [done..|]. eapply sees_ext; [by eapply sees_changed|]. intros t k Ht. cbn beta. unfold rewritten.
  cbv zeta. destruct (decide (k = rtag_key p key)); [done|]. destruct (decide (k ∈ tag_key p <$> tags)); [done|].
  by destruct (decide (k ∈ old)).
Qed.

Lemma set_with_tags_kept now r m key value px tags : cached_as now r m -> plain_key key -> 0 < px ->
  exists r', lua_set_with_tags (_full p key) (rtag_key p key) (text_of value) px (tag_key p <$> tags) now r =
      (Return tt, r') /\
    cached_as now r'
      (<[key := mkSlot (Some (value, redis_ms now + px, list_to_set tags)) (uncleaned now (slot m key))]> m).
Proof.
  intros Hc Hk Hpx. destruct (set_with_tags_sees now r m key (text_of value) px tags Hc Hk Hpx)
    as (old & otags & r' & E & Hrec & Hold & Hs).
  exists r'. split; [done|]. eapply (slot_rewritten _ _ _ _ _ _ old otags); [done..| |].
  - intros t Ht. unfold slot_cell, slot_value, lives_for. cbn. by destruct (_ <=? _).
  - intros t Ht. unfold lives_for. destruct (_ <=? _); [|done]. f_equal. unfold tag_record. clear. apply set_eq. intros x.
    rewrite elem_of_union, elem_of_list_to_set, list_elem_of_fmap, elem_of_map. setoid_rewrite elem_of_list_to_set. set_solver.
Qed.

(** [_DELETE_WITH_TAGS_SCRIPT] *)
Lemma delete_with_tags_kept now r m key : cached_as now r m -> plain_key key ->
  exists r', lua_delete_with_tags (_full p key) (rtag_key p key) now r = (Return tt, r') /\
    cached_as now r' (<[key := mkSlot None (uncleaned now (slot m key))]> m).
Proof.
  intros Hc Hk. assert (sees now r (redis_view r)) as Hs0 by done.
  destruct (untag_sees now r m key _ r Hc Hk Hs0) as (old & r2 & E2 & Hs2 & otags & Hrec & Hold); [done|].
  destruct (unlink_each_sees now r2 _ [_full p key; rtag_key p key] Hs2) as (r3 & E3 & Hs3).
  exists r3. split; [unfold lua_delete_with_tags, mbind, py_mbind, py_bind; by rewrite E2|].
  apply (slot_rewritten now r r3 m key None old otags [] (fun _ => None) (fun _ => None)); try done.
  eapply sees_ext; [done|]. intros t k Ht. cbn beta. unfold rewritten. cbv zeta.
  rewrite (decide_False (P := k ∈ tag_key p <$> [])) by apply not_elem_of_nil.
  assert (_full p key ∉ old) as Hno.
  { intros Hin%Hold. apply elem_of_map in Hin as (tag & E & _). by apply (full_tag p key tag). }
  destruct (decide (k = rtag_key p key)) as [->|Hr]; [by rewrite decide_True by set_solver|].
  destruct (decide (k = _full p key)) as [->|Hf].
  - rewrite decide_True by (by left). by rewrite decide_False.
  - rewrite decide_False; [by destruct (decide (k ∈ old))|]. by rewrite !elem_of_cons, elem_of_nil; intros [|[|]].
Qed.

(** [_DELETE_TAG_SCRIPT] *)
Lemma delete_tag_sees now r m tag count : cached_as now r m ->
  exists r', lua_delete_tag (tag_key p tag) count now r = (Return tt, r') /\
    sees now r' (fun t k => if decide (k = tag_key p tag) then None
                            else if decide (k ∈ set_at now r (tag_key p tag)) then None else redis_view r t k).
Proof.
  intros Hc. assert (sees now r (redis_view r)) as Hs0 by done.
  destruct (sscan_law (tag_key p tag) count now r (set_at now r (tag_key p tag))) as (pages & r1 & E1 & Hu & Hpages).
  { apply set_value_cases, (ca_tag _ _ _ Hc). lra. }
  destruct (unlink_each_sees now r1 _ (List.concat pages) (sees_unchanged _ _ _ _ Hs0 Hu)) as (r2 & E2 & Hs2).
  destruct (del_sees now r2 _ (tag_key p tag) Hs2) as (r3 & E3 & Hs3).
  exists r3. split; [unfold lua_delete_tag, mbind, py_mbind, py_bind; by rewrite E1, E2|].
  eapply sees_ext; [done|]. intros t k Ht. cbn beta. case_decide; [done|].
  by rewrite (decide_ext (k ∈ List.concat pages) (k ∈ set_at now r (tag_key p tag))) by apply Hpages.
Qed.

(** The keys of the dictionary the set of a tag names. *)
Definition named_keys (now : Q) r m (tag : string) : gset string :=
  filter (fun key => _full p key ∈ set_at now r (tag_key p tag)) (dom m).

Lemma slot_without_all m tag also key :
  slot (map_imap (fun key s => Some (slot_without tag (bool_decide (key ∈ (also : gset string))) s)) m) key =
  slot_without tag (bool_decide (key ∈ also)) (slot m key).
Proof.
  unfold slot. rewrite map_lookup_imap. destruct (m !! key); [done|]. cbn. unfold slot_without. cbn. f_equal. set_solver.
Qed.

Lemma slot_without_value tag also s v deadline tags :
  sl_value (slot_without tag also s) = Some (v, deadline, tags) ->
  sl_value s = Some (v, deadline, tags) /\ (tag ∉ tags) /\ (also = true -> tag ∉ sl_stale s).
Proof.
  unfold slot_without. destruct (sl_value s) as [[[v' d'] tags']|] eqn:E; [|done].
  destruct (bool_decide (tag ∈ tags') || also && bool_decide (tag ∈ sl_stale s)) eqn:Eb; [done|].
  cbn. intros [= -> -> ->]. apply orb_false_iff in Eb as [E1%bool_decide_eq_false E2].
  split_and!; [done..|]. intros ->. by apply bool_decide_eq_false in E2.
Qed.

Lemma slot_without_gone tag also s : sl_value (slot_without tag also s) = None ->
  sl_value s = None \/ exists v deadline tags, sl_value s = Some (v, deadline, tags) /\
    (tag ∈ tags \/ also = true).
Proof.
  unfold slot_without. destruct (sl_value s) as [[[v d] tags]|] eqn:E; [|by left].
  destruct (bool_decide (tag ∈ tags)) eqn:E1; cbn.
  - intros _. right. exists v, d, tags. apply bool_decide_eq_true in E1. auto.
  - destruct also; cbn; [|done]. intros _. right. exists v, d, tags. auto.
Qed.

Lemma all_tags_without tag tag' also s : tag' <> tag -> tag' ∈ all_tags s -> tag' ∈ all_tags (slot_without tag also s).
Proof.
  intros Hne. unfold slot_without, all_tags. destruct (sl_value s) as [[[v d] tags]|] eqn:E.
  - destruct (_ || _); cbn; rewrite ?E; clear -Hne; set_solver.
  - cbn. clear -Hne. set_solver.
Qed.

Lemma elem_of_named_keys now r m tag key : cached_as now r m -> plain_key key ->
  _full p key ∈ set_at now r (tag_key p tag) -> key ∈ named_keys now r m tag /\ tag ∈ all_tags (slot m key).
Proof.
  intros Hc Hk Hin. destruct (ca_named _ _ _ Hc tag _ Hin) as (key' & _ & ->%(inj (_full p)) & Htag).
  split; [|done]. apply elem_of_filter. split; [done|]. apply elem_of_dom. unfold slot in Htag.
  destruct (m !! key'); [by eexists|]. by apply elem_of_empty in Htag.
Qed.

(** The value of a key after its tag was deleted. *)
Lemma slot_without_cell now r m tag key t : cached_as now r m -> plain_key key -> (now <= t)%Q ->
  (if decide (_full p key ∈ set_at now r (tag_key p tag)) then None else slot_cell t (slot m key)) =
  slot_cell t (slot_without tag (bool_decide (key ∈ named_keys now r m tag)) (slot m key)).
Proof.
  intros Hc Hk Ht. unfold slot_cell. case_decide as Hin.
  - destruct (elem_of_named_keys now r m tag key Hc Hk Hin) as [Ha Htag]. rewrite bool_decide_eq_true_2 by done.
    unfold slot_value. destruct (sl_value (slot_without tag true (slot m key))) as [[[v d] tags]|] eqn:Ev; [|done].
    apply slot_without_value in Ev as (Ev & Hno & Hst). unfold all_tags in Htag. rewrite Ev in Htag.
    apply elem_of_union in Htag as [?|?]; [by destruct (Hst eq_refl)|done].
  - f_equal. unfold slot_value.
    destruct (sl_value (slot_without tag (bool_decide (key ∈ named_keys now r m tag)) (slot m key)))
      as [[[v d] tags]|] eqn:Ev.
    + apply slot_without_value in Ev as (-> & _). done.
    + apply slot_without_gone in Ev as [->|(v & d & tags & Ev & [Htag|Ha%bool_decide_eq_true])]; [done| |].
      * rewrite Ev. destruct (Z.leb_spec (redis_ms t) d) as [Hle|]; [|done]. exfalso. apply Hin.
        pose proof (redis_ms_mono _ _ Ht). eapply (ca_member _ _ _ Hc); [done|done|lia|done].
      * exfalso. by apply elem_of_filter in Ha as [? _].
Qed.

Lemma delete_tag_kept now r m tag : cached_as now r m ->
  exists r', lua_delete_tag (tag_key p tag) _TAG_SCAN_BATCH_SIZE now r = (Return tt, r') /\
    cached_as now r' (rdc_do (named_keys now r m tag) (RcDeleteTag tag) now m).2.
Proof.
  intros Hc. destruct (delete_tag_sees now r m tag _TAG_SCAN_BATCH_SIZE Hc) as (r' & E & Hs).
  exists r'. split; [done|]. cbn [rdc_do snd].
  assert (forall k, k ∈ set_at now r (tag_key p tag) -> exists key, plain_key key /\ k = _full p key) as Hfull.
  { intros k Hin. destruct (ca_named _ _ _ Hc tag _ Hin) as (key & ? & ? & _). by exists key. }
  assert (forall key t, (now <= t)%Q -> redis_view r' t (rtag_key p key) = redis_view r t (rtag_key p key)) as Hrt.
  { intros key t Ht. rewrite (Hs t _ Ht), !decide_False; [done| |by apply not_eq_sym, tag_rtag].
    intros (key' & Hk' & E')%Hfull. by apply (full_rtag p key' key). }
  assert (forall tag' t, (now <= t)%Q -> tag' <> tag -> redis_view r' t (tag_key p tag') = redis_view r t (tag_key p tag')) as Ht'.
  { intros tag' t Ht Hne. rewrite (Hs t _ Ht), !decide_False; [done| |by intros ->%(inj (tag_key p))].
    intros (key' & Hk' & E')%Hfull. by apply (full_tag p key' tag'). }
  assert (set_at now r' (tag_key p tag) = ∅) as Etag.
  { apply set_at_view. rewrite (Hs now) by lra. by rewrite decide_True. }
  assert (forall tag', tag' <> tag -> set_at now r' (tag_key p tag') = set_at now r (tag_key p tag')) as Eother.
  { intros tag' Hne. unfold set_at. by rewrite Ht' by (lra || done). }
  split.
  - intros key t Hk Ht. rewrite slot_without_all, (Hs t _ Ht).
    rewrite decide_False by (by apply full_tag). rewrite (ca_value _ _ _ Hc) by done. by apply slot_without_cell.
  - intros key value deadline tags t Hk Ev Ht Hd. rewrite slot_without_all in Ev.
    apply slot_without_value in Ev as (Ev & _). rewrite Hrt by done. by eapply (ca_live _ _ _ Hc).
  - intros key Hk. rewrite Hrt by lra. by apply (ca_record _ _ _ Hc).
  - intros tag'. destruct (decide (tag' = tag)) as [->|Hne].
    + rewrite Etag. intros t Ht. rewrite (Hs t _ Ht). by rewrite decide_True.
    + rewrite Eother by done. intros t Ht. rewrite Ht' by done. by apply (ca_tag _ _ _ Hc).
  - intros tag' x. destruct (decide (tag' = tag)) as [->|Hne]; [rewrite Etag; by intros ?%elem_of_empty|].
    rewrite Eother by done. intros Hx. destruct (ca_named _ _ _ Hc tag' x Hx) as (key & Hk & -> & Htag).
    exists key. split_and!; [done..|]. rewrite slot_without_all. by apply all_tags_without.
  - intros key value deadline tags tag' Hk Ev Hd Htag'. rewrite slot_without_all in Ev.
    apply slot_without_value in Ev as (Ev & Hno & _). assert (tag' <> tag) as Hne by (by intros ->).
    rewrite Eother by done. by eapply (ca_member _ _ _ Hc).
Qed.

(** ** Every call *)

Definition plain_op (op : rdc_op) : Prop :=
  match op with
  | RcGet key | RcSet key _ _ _ | RcDelete key => plain_key key
  | RcGetMany keys => Forall plain_key keys
  | RcDeleteTag _ | RcClear => True
  end.

Lemma found_slots (sel : string -> option bytes) keys (m : gmap string bytes) :
  foldl (fun (m : gmap string bytes) (kv : string * option cell) => match kv.2 ≫= value_of_cell with Some v => <[kv.1 := v]> m | None => m end) m
    (zip keys (map (fun key => (fun v => Text (text_of v)) <$> sel key) keys)) =
  foldl (fun found key => match sel key with Some v => <[key := v]> found | None => found end) m keys.
Proof.
  revert m. induction keys as [|key keys IH]; intros m; [done|]. cbn [map zip_with foldl fst snd].
  destruct (sel key) as [v|]; cbn [fmap option_fmap option_map mbind option_bind]; [rewrite value_of_text|]; apply IH.
Qed.

Lemma get_kept now r m key : cached_as now r m -> plain_key key ->
  exists r', rdc_exec p (RcGet key) now r = (Return (CValue (slot_value now (slot m key))), r') /\ cached_as now r' m.
Proof.
  intros Hc Hk. destruct (get_law (_full p key) now r) as (r' & Hu & E). exists r'.
  split; [|by eapply cached_unchanged]. cbn [rdc_exec]. unfold mbind at 1, py_mbind, py_bind. rewrite E.
  rewrite (ca_value _ _ _ Hc) by (done || lra). unfold slot_cell.
  destruct (slot_value now (slot m key)) as [v|]; [|done]. cbn [fmap option_fmap option_map].
  unfold mret, py_mret, py_ret. cbn [mbind option_bind]. by rewrite value_of_text.
Qed.

Lemma get_many_kept now r m keys : cached_as now r m -> Forall plain_key keys ->
  exists r', rdc_exec p (RcGetMany keys) now r = ((rdc_do ∅ (RcGetMany keys) now m).1, r') /\ cached_as now r' m.
Proof.
  intros Hc Hk. destruct (mget_law (_full p <$> keys) now r) as (r' & Hu & E). exists r'.
  split; [|by eapply cached_unchanged]. cbn [rdc_exec rdc_do fst]. unfold mbind, py_mbind, py_bind. rewrite E.
  unfold mret, py_mret, py_ret, found_values. do 3 f_equal. rewrite <- (found_slots (fun key => slot_value now (slot m key))).
  f_equal. f_equal. clear E. induction Hk as [|key keys Hp Hk IH]; [done|]. cbn. rewrite IH. f_equal.
  rewrite (ca_value _ _ _ Hc key) by (done || lra). unfold slot_cell. by destruct (slot_value now (slot m key)).
Qed.

Hypothesis simple_prefix :
  Forall (fun c => c ∉ ["*"%char; "?"%char; "["%char; "]"%char; "\"%char]) (list_ascii_of_string p).

Lemma clear_kept now r m : cached_as now r m ->
  exists r', rdc_exec p RcClear now r = (Return CNone, r') /\ cached_as now r' ∅.
Proof.
  intros Hc. destruct (scan_law (p +:+ "*") now r) as (keys & r1 & E1 & Hu & Hkeys).
  assert (sees now r (redis_view r)) as Hs0 by done.
  destruct (unlink_each_sees now r1 _ keys (sees_unchanged _ _ _ _ Hs0 Hu)) as (r2 & E2 & Hs).
  exists r2. split; [cbn [rdc_exec]; unfold mbind, py_mbind, py_bind; by rewrite E1, E2|].
  apply cached_nothing. intros key t Ht. rewrite (Hs t _ Ht). case_decide as Hin; [done|].
  destruct (view_expires r now t (p +:+ key) Ht) as [->|]; [|done].
  destruct (redis_view r now (p +:+ key)) eqn:E; [|done]. exfalso. apply Hin, Hkeys. split; [by eexists|].
  apply matches_prefix; [done|]. by exists key.
Qed.

Lemma rdc_step op now r m : cached_as now r m -> plain_op op ->
  exists also, (rdc_exec p op now r).1 = (rdc_do also op now m).1 /\
    cached_as now (rdc_exec p op now r).2 (rdc_do also op now m).2.
Proof.
  intros Hc Hop. destruct op as [key|keys|key value ttl tags|key|tag|]; cbn [plain_op] in Hop.
  - exists ∅. by destruct (get_kept now r m key Hc Hop) as (r' & -> & H').
  - exists ∅. by destruct (get_many_kept now r m keys Hc Hop) as (r' & -> & H').
  - exists ∅. cbn [rdc_exec rdc_do]. unfold mbind, py_mbind, py_bind. destruct (Z.ltb_spec 0 (px_of ttl)) as [Hpx|Hpx].
    + by destruct (set_with_tags_kept now r m key value (px_of ttl) tags Hc Hop Hpx) as (r' & -> & H').
    + destruct (set_px_bad (_full p key) (Text (text_of value)) (px_of ttl) now r Hpx) as (r' & E & Hu).
      unfold lua_set_with_tags, mbind, py_mbind, py_bind. rewrite E. split; [done|]. by eapply cached_unchanged.
  - exists ∅. cbn [rdc_exec rdc_do]. unfold mbind, py_mbind, py_bind.
    by destruct (delete_with_tags_kept now r m key Hc Hop) as (r' & -> & H').
  - exists (named_keys now r m tag). cbn [rdc_exec]. unfold mbind, py_mbind, py_bind.
    by destruct (delete_tag_kept now r m tag Hc) as (r' & -> & H').
  - exists ∅. by destruct (clear_kept now r m Hc) as (r' & -> & H').
Qed.

(** What the dictionary does, with the choices of its deletions by tag. *)
Definition rdc_spec (o : rdc_op * Q * gset string) (m : rc_slots) : outcome exn cache_result * rc_slots :=
  rdc_do o.2 o.1.1 o.1.2 m.

Lemma rdc_runs ops now r m : cached_as now r m -> in_clock_order now ops -> Forall (fun o => plain_op o.1) ops ->
  exists also : list (gset string), List.length also = List.length ops /\
    (run (fun o r => rdc_exec p o.1 o.2 r) ops r).1 = (run rdc_spec (zip ops also) m).1.
Proof.
  revert now r m. induction ops as [|[op now'] ops IH]; intros now r m Hc Ho Hok; [by exists []|].
  destruct Ho as [Hle Ho]. apply Forall_cons in Hok as [Hop Hok].
  destruct (rdc_step op now' r m (cached_later _ _ _ _ Hc Hle) Hop) as (a & E & Hc').
  destruct (IH now' _ _ Hc' Ho Hok) as (also & Hlen & Er). exists (a :: also). split; [by cbn; f_equal|].
  cbn [run zip_with fst snd]. unfold rdc_spec at 1. cbn [fst snd].
  destruct (rdc_exec p op now' r) as [x r1], (rdc_do a op now' m) as [x' m1]. cbn [fst snd] in *. subst x'.
  destruct (run _ ops r1) as [xs r2], (run rdc_spec (zip ops also) m1) as [xs' m2]. cbn in *. by subst.
Qed.

(** The scripts are one dictionary.  From a server without a key of the prefix, which has
    no special character of a pattern, the calls of any number of adapters of the
    prefix, in the order of the server's clock, on keys that do not look like the
    records of the adapter, answer what the dictionary [rdc_do] answers: a value is
    found with its latest write until it runs out or is deleted, by key, by a tag of
    it, or by [clear]; except that a deletion by tag may also take a key whose entry
    has the tag no more, when an earlier entry of the key had it and ran out.  A
    duration under one millisecond is an error and changes nothing. *)
Lemma redis_cache_is_one_dictionary ops now r :
  (forall key t, (now <= t)%Q -> redis_view r t (p +:+ key) = None) ->
  in_clock_order now ops -> Forall (fun o => plain_op o.1) ops ->
  exists also : list (gset string), List.length also = List.length ops /\
    (run (fun o r => rdc_exec p o.1 o.2 r) ops r).1 = (run rdc_spec (zip ops also) ∅).1.
Proof. intros Hr Ho Hok. by apply (rdc_runs ops now r ∅ (cached_nothing now r Hr)). Qed.

(** No slot of a key has a stale tag if none of its entries ran out before the key was
    written again or deleted: then the choices make no difference. *)
Definition nothing_stale m : Prop := forall key, sl_stale (slot m key) = ∅.

Lemma slot_without_unstale tag also s : sl_stale s = ∅ -> slot_without tag also s = slot_without tag false s.
Proof.
  intros E. unfold slot_without. rewrite E. destruct (sl_value s) as [[[v d] tags]|]; [|done].
  rewrite (bool_decide_eq_false_2 (tag ∈ ∅)) by apply not_elem_of_empty. by rewrite andb_false_r.
Qed.

Lemma delete_tag_unstale also tag now m : nothing_stale m ->
  rdc_do also (RcDeleteTag tag) now m = rdc_do ∅ (RcDeleteTag tag) now m.
Proof.
  intros Hm. cbn [rdc_do]. f_equal. apply map_eq. intros key. rewrite !map_lookup_imap.
  specialize (Hm key). unfold slot in Hm. destruct (m !! key) as [s|]; [|done]. cbn in *. f_equal.
  rewrite slot_without_unstale by done. symmetry. by apply slot_without_unstale.
Qed.
End Cache.

(** ** Concrete calls *)

Lemma plain_example key : String.prefix "cache:" key = false -> plain_key key.
Proof.
  intros E x. split; intros ->.
  - assert (String.prefix "cache:" ("cache:tag:" +:+ x) = true) as E'
      by (apply string_prefix_spec; by exists ("tag:" +:+ x)). congruence.
  - assert (String.prefix "cache:" ("cache:rtag:" +:+ x) = true) as E'
      by (apply string_prefix_spec; by exists ("rtag:" +:+ x)). congruence.
Qed.


(** [a] runs out with its tag, is written again without, and is deleted by it. *)
Definition rdc_demo : list (rdc_op * Q) :=
  [(RcSet "a" byte_a 1 ["t"], 0); (RcSet "b" byte_b 9 ["t"; "u"], 0); (RcGet "a", 1 # 2);
   (RcSet "b" byte_b 9 ["u"], 1); (RcGet "a", 2); (RcSet "a" byte_a 9 [], 2);
   (RcDeleteTag "t", 3); (RcGetMany ["a"; "b"], 3); (RcSet "c" byte_a (1 # 2000) [], 3);
   (RcDelete "b", 4); (RcGet "b", 4)]%string%Q.

Lemma redis_cache_is_one_dictionary_witness :
  exists also, List.length also = List.length rdc_demo /\
    (run (fun o r => rdc_exec "app:" o.1 o.2 r) rdc_demo (∅ : store)).1 = (run rdc_spec (zip rdc_demo also) ∅).1 /\
    (run (fun o r => rdc_exec "app:" o.1 o.2 r) rdc_demo (∅ : store)).1 =
      [Return CNone; Return CNone; Return (CValue (Some byte_a)); Return CNone; Return (CValue None);
       Return CNone; Return CNone; Return (CFound {[ "b"%string := byte_b ]}); Raise response_error;
       Return CNone; Return (CValue None)].
Proof.
  destruct (redis_cache_is_one_dictionary "app:" ltac:(apply (bool_decide_unpack _); by vm_compute) rdc_demo 0 (∅ : store))
    as (also & Hl & E).
  - intros key t _. cbn. unfold store_view. by rewrite !lookup_empty.
  - vm_compute; repeat split; discriminate.
  - repeat constructor; try (by apply plain_example); by vm_compute.
  - exists also. split; [exact Hl|]. split; [exact E|]. by vm_compute.
Defined.

(** An entry that ran out leaves its key in the set of its tag: the next entry of the
    key, written without tags, is deleted with that tag.  In the memory cache it
    stays. *)
Lemma expired_entry_leaves_its_tag :
  let ops := [(RcSet "a" byte_a 1 ["t"], 0); (RcGet "a", 2); (RcSet "a" byte_b 9 [], 2);
              (RcDeleteTag "t", 3); (RcGet "a", 3)]%string%Q in
  last (run (fun o r => rdc_exec "app:" o.1 o.2 r) ops (∅ : store)).1 = Some (Return (CValue None)).
Proof. by vm_compute. Qed.
