(* ===== verification/Postgres.v ===== *)
(** * Calls on a PostgreSQL database

    What the PostgreSQL adapters rely on.  Each method sends one statement, which is
    a transaction of its own.  A transaction reads the clock when it starts ([NOW()],
    or [clock_timestamp()] where a function declares its variables), then waits: for an
    advisory lock on the name ([pg_advisory_xact_lock]), or for the lock of the row it
    writes.  Once it has the lock it runs on the tables as the transactions before it
    left them, at a later instant of the clock, and what it leaves is there at once, or
    not at all when it raises.  So the order of the calls is the order in which they
    get the lock, and the instants they started at need not be in that order.

    [server_step] interleaves the calls of any number of connections; [pg_serial] is
    what a history of calls comes to. *)

From S2P Require Import Prelude Errors.

Local Open Scope Z_scope.

(** [asyncpg.exceptions.NumericValueOutOfRangeError] *)
Definition out_of_range : exn := mk_exn (UserError 3 Exception_) NoInfo.

(** [INT] is four bytes wide. *)
Definition INT_MAX : Z := 2147483647.
Definition INT_MIN : Z := -2147483648.

Definition fits_int (n : Z) : bool := (INT_MIN <=? n) && (n <=? INT_MAX).
Definition int4 {T} (n : Z) : py T exn Z := if fits_int n then mret n else py_raise out_of_range.

(** A transaction that raises leaves nothing. *)
Definition atomically {T A} (m : py T exn A) : py T exn A :=
  fun t => match m t with
           | (Return a, t') => (Return a, t')
           | (Raise e, _) => (Raise e, t)
           end.

(** [SELECT ... INTO], [INSERT ... ON CONFLICT (key) DO UPDATE], [UPDATE ... WHERE key = ...]
    and [DELETE ... WHERE key = ...] on one row of a table. *)
Section Rows.
Context {Row : Type}.
Definition pg_select (key : string) : py (gmap string Row) exn (option Row) := fun t => (Return (t !! key), t).
Definition pg_upsert (key : string) (f : option Row -> Row) : py (gmap string Row) exn unit :=
  fun t => (Return tt, <[key := f (t !! key)]> t).
Definition pg_update (key : string) (f : Row -> Row) : py (gmap string Row) exn unit :=
  fun t => (Return tt, alter f key t).
Definition pg_delete (key : string) (where_ : Row -> bool) : py (gmap string Row) exn unit :=
  fun t => (Return tt, if t !! key is Some r then if where_ r then delete key t else t else t).

Lemma pg_update_some key f r (t : gmap string Row) : t !! key = Some r ->
  pg_update key f t = (Return tt, <[key := f r]> t).
Proof.
  intros E. unfold pg_update. f_equal. apply map_eq. intros k. destruct (decide (k = key)) as [->|Hne].
  - by rewrite lookup_alter_eq, E, lookup_insert_eq.
  - by rewrite lookup_alter_ne, lookup_insert_ne.
Qed.

Lemma pg_delete_all key (t : gmap string Row) : pg_delete key (fun _ => true) t = (Return tt, delete key t).
Proof. unfold pg_delete. destruct (t !! key) eqn:E; [done|]. by rewrite delete_id. Qed.
End Rows.
#[global] Arguments pg_select : simpl never.
#[global] Arguments pg_upsert : simpl never.
#[global] Arguments pg_update : simpl never.
#[global] Arguments pg_delete : simpl never.
#[global] Arguments int4 : simpl never.

(** ** Interleaving

    [exec k start now] is what call [k] does when it started at [start] and runs at
    [now]. *)
Section Server.
Context {T K A : Type} (exec : K -> Q -> Q -> py T exn A).

Record pg_entry : Type := mkEntry {
  pe_conn : nat;
  pe_call : K;
  pe_start : Q;
  pe_now : Q;
  pe_answer : outcome exn A;
}.

Record pg_server : Type := mkServer {
  pg_tables : T;
  pg_clock : Q;
  pg_waiting : gmap nat (K * Q);
}.

Definition new_server (t : T) (now : Q) : pg_server := mkServer t now ∅.

(** [server_step s e s']: what happens is recorded in [e] when a call is served.  A
    call that fails, whose connection is lost or whose caller gives up before it was
    served leaves nothing; one whose answer does not arrive was served all the same. *)
Inductive server_step : pg_server -> list pg_entry -> pg_server -> Prop :=
| step_time s now : (pg_clock s <= now)%Q -> server_step s [] (mkServer (pg_tables s) now (pg_waiting s))
| step_start s conn k : pg_waiting s !! conn = None ->
    server_step s [] (mkServer (pg_tables s) (pg_clock s) (<[conn := (k, pg_clock s)]> (pg_waiting s)))
| step_serve s conn k start : pg_waiting s !! conn = Some (k, start) ->
    server_step s [mkEntry conn k start (pg_clock s) (exec k start (pg_clock s) (pg_tables s)).1]
      (mkServer (exec k start (pg_clock s) (pg_tables s)).2 (pg_clock s) (delete conn (pg_waiting s)))
| step_lose s conn : server_step s [] (mkServer (pg_tables s) (pg_clock s) (delete conn (pg_waiting s))).

Inductive server_runs (s0 : pg_server) : list pg_entry -> pg_server -> Prop :=
| runs_start : server_runs s0 [] s0
| runs_step h s e s' : server_runs s0 h s -> server_step s e s' -> server_runs s0 (h ++ e) s'.

(** ** Histories

    The calls one after the other, each at an instant not before the one of the call
    ahead and not before the instant it started at. *)
Inductive pg_serial (t0 : T) (lo : Q) : list pg_entry -> Q -> T -> Prop :=
| serial_start : pg_serial t0 lo [] lo t0
| serial_call h hi t conn k start now :
    pg_serial t0 lo h hi t -> (lo <= start)%Q -> (start <= now)%Q -> (hi <= now)%Q ->
    pg_serial t0 lo (h ++ [mkEntry conn k start now (exec k start now t).1]) now (exec k start now t).2.

Lemma server_serial t0 lo h s : server_runs (new_server t0 lo) h s ->
  exists hi, pg_serial t0 lo h hi (pg_tables s) /\ (hi <= pg_clock s)%Q /\
    forall conn k start, pg_waiting s !! conn = Some (k, start) -> (lo <= start <= pg_clock s)%Q.
Proof.
  induction 1 as [|h s e s' _ (hi & Hs & Hle & Hw) Hstep].
  - exists lo. split; [constructor|]. split; [simpl; lra|]. intros conn k start. simpl. by rewrite lookup_empty.
  - assert (lo <= pg_clock s)%Q as Hlo.
    { clear -Hs Hle. revert Hle. generalize (pg_clock s) as c. intros c. induction Hs; intros; lra. }
    destruct Hstep as [s now Hnow|s conn k Hnone|s conn k start Hk|s conn]; simpl in *.
    + rewrite app_nil_r. exists hi. split; [done|]. split; [lra|].
      intros conn k start E. specialize (Hw conn k start E). lra.
    + rewrite app_nil_r. exists hi. split; [done|]. split; [done|]. intros conn' k' start' E.
      destruct (decide (conn' = conn)) as [->|Hne].
      * rewrite lookup_insert_eq in E. injection E as <- <-. lra.
      * rewrite lookup_insert_ne in E by done. by apply (Hw conn' k').
    + exists (pg_clock s). split; [|split; [lra|]].
      * apply (serial_call _ _ _ hi); [done|apply (Hw conn k start Hk)..|done].
      * intros conn' k' start' E. apply lookup_delete_Some in E as [_ E]. by apply (Hw conn' k').
    + rewrite app_nil_r. exists hi. split; [done|]. split; [done|]. intros conn' k' start' E.
      apply lookup_delete_Some in E as [_ E]. by apply (Hw conn' k').
Qed.

(** The same, read from the first call on. *)
Inductive pg_continues : Q -> T -> list pg_entry -> Q -> T -> Prop :=
| continues_stop hi t : pg_continues hi t [] hi t
| continues_call hi t conn k start now h hi' t' :
    (start <= now)%Q -> (hi <= now)%Q -> pg_continues now (exec k start now t).2 h hi' t' ->
    pg_continues hi t (mkEntry conn k start now (exec k start now t).1 :: h) hi' t'.

Lemma continues_app hi t h1 h2 hi' t' : pg_continues hi t (h1 ++ h2) hi' t' <->
  exists mid u, pg_continues hi t h1 mid u /\ pg_continues mid u h2 hi' t'.
Proof.
  split.
  - revert hi t. induction h1 as [|e h1 IH]; intros hi t H; [exists hi, t; split; [constructor|done]|].
    simpl in H. inversion H; subst. destruct (IH _ _ ltac:(eassumption)) as (mid & u & Ha & Hb).
    exists mid, u. split; [by constructor|done].
  - intros (mid & u & H1 & H2). revert H2. induction H1; intros Hc; simpl; [done|]. constructor; auto.
Qed.

Lemma serial_continues t0 lo h hi t : pg_serial t0 lo h hi t -> pg_continues lo t0 h hi t.
Proof.
  induction 1 as [|h hi t conn k start now Hs IH H1 H2 H3]; [constructor|].
  apply continues_app. exists hi, t. split; [done|]. repeat constructor; done.
Qed.

(** The instants of a history: a call runs after it started, and after the calls ahead
    of it. *)
Fixpoint in_lock_order (lo : Q) (h : list pg_entry) : Prop :=
  match h with
  | [] => True
  | e :: h => (pe_start e <= pe_now e)%Q /\ (lo <= pe_now e)%Q /\ in_lock_order (pe_now e) h
  end.

Lemma in_lock_order_snoc lo h e : in_lock_order lo (h ++ [e]) <->
  in_lock_order lo h /\ (pe_start e <= pe_now e)%Q /\ (default lo (pe_now <$> last h) <= pe_now e)%Q.
Proof.
  revert lo. induction h as [|e' h IH]; intros lo; [simpl; tauto|].
  simpl. rewrite IH. destruct h as [|e'' h]; simpl; [tauto|]. change (last (e'' :: h)) with (last (e'' :: h)).
  destruct (last (e'' :: h)) eqn:E; [tauto|]. by apply last_None in E.
Qed.

Lemma serial_ordered t0 lo h hi t : pg_serial t0 lo h hi t ->
  in_lock_order lo h /\ hi = default lo (pe_now <$> last h).
Proof.
  induction 1 as [|h hi t conn k start now Hs [IH ->] H1 H2 H3]; [done|].
  rewrite last_snoc, in_lock_order_snoc. done.
Qed.

(** ** Simulation

    Calls that do, one at a time, what a specification does of them, answer in every
    history what it answers. *)
Definition spec_run {M} (spec : K -> Q -> Q -> M -> outcome exn A * M) (h : list pg_entry) (m : M) :
    list (outcome exn A) * M :=
  run (fun e m => spec (pe_call e) (pe_start e) (pe_now e) m) h m.

Lemma serial_simulated {M} (spec : K -> Q -> Q -> M -> outcome exn A * M) (Rel : T -> M -> Prop) (ok : K -> Prop)
    t0 lo m0 h hi t :
  (forall k start now t m, ok k -> (start <= now)%Q -> Rel t m ->
     (exec k start now t).1 = (spec k start now m).1 /\ Rel (exec k start now t).2 (spec k start now m).2) ->
  pg_serial t0 lo h hi t -> Rel t0 m0 -> Forall (fun e => ok (pe_call e)) h ->
  pe_answer <$> h = (spec_run spec h m0).1 /\ Rel t (spec_run spec h m0).2.
Proof.
  intros Hstep Hs H0. unfold spec_run.
  induction Hs as [|h hi t conn k start now Hs IH H1 H2 H3]; intros Hok; [done|].
  apply Forall_app in Hok as [Hok [Hk _]%Forall_cons]. destruct (IH Hok) as [Ea Hr]. clear IH.
  rewrite run_app. destruct (run _ h m0) as [rs m]. cbn [fst snd] in *. simpl.
  destruct (Hstep k start now t m Hk H2 Hr) as [E Hr']. destruct (spec k start now m) as [a m']. simpl in *.
  split; [|done]. by rewrite fmap_app, Ea, E.
Qed.

(** A schedule played on a server, for the runs of examples. *)
Inductive server_event : Type := Tick (now : Q) | Begin (conn : nat) (k : K) | Serve (conn : nat).

Definition play_event (e : server_event) (s : pg_server) : list pg_entry * pg_server :=
  match e with
  | Tick now => ([], if Qle_bool (pg_clock s) now then mkServer (pg_tables s) now (pg_waiting s) else s)
  | Begin conn k =>
      ([], if pg_waiting s !! conn is None
           then mkServer (pg_tables s) (pg_clock s) (<[conn := (k, pg_clock s)]> (pg_waiting s)) else s)
  | Serve conn =>
      match pg_waiting s !! conn with
      | Some (k, start) =>
          let '(a, t) := exec k start (pg_clock s) (pg_tables s) in
          ([mkEntry conn k start (pg_clock s) a], mkServer t (pg_clock s) (delete conn (pg_waiting s)))
      | None => ([], s)
      end
  end.

Fixpoint play (es : list server_event) (s : pg_server) : list pg_entry * pg_server :=
  match es with
  | [] => ([], s)
  | e :: es => let '(h, s) := play_event e s in let '(h', s) := play es s in (h ++ h', s)
  end.

Lemma play_event_runs s0 h s e : server_runs s0 h s ->
  server_runs s0 (h ++ (play_event e s).1) (play_event e s).2.
Proof.
  intros Hs. destruct e as [now|conn k|conn]; simpl.
  - destruct (Qle_bool (pg_clock s) now) eqn:E; [|by rewrite app_nil_r].
    eapply runs_step; [done|]. constructor. by apply Qle_bool_iff.
  - destruct (pg_waiting s !! conn) eqn:E; [by rewrite app_nil_r|]. eapply runs_step; [done|]. by constructor.
  - destruct (pg_waiting s !! conn) as [[k start]|] eqn:E; [|by rewrite app_nil_r].
    pose proof (step_serve s conn k start E) as Hstep.
    destruct (exec k start (pg_clock s) (pg_tables s)) as [a t]. by eapply runs_step.
Qed.

Lemma play_runs s0 h s es : server_runs s0 h s -> server_runs s0 (h ++ (play es s).1) (play es s).2.
Proof.
  revert h s. induction es as [|e es IH]; intros h s Hs; simpl; [by rewrite app_nil_r|].
  pose proof (play_event_runs _ _ _ e Hs) as H1. destruct (play_event e s) as [h1 s1]. simpl in H1.
  specialize (IH _ _ H1). destruct (play es s1) as [h2 s2]. simpl in *. by rewrite app_assoc.
Qed.
End Server.
Arguments pg_entry K A : clear implicits.
Arguments mkEntry {K A} _ _ _ _ _.
Arguments pg_server T K : clear implicits.
Arguments Tick {K} now.
Arguments Begin {K} conn k.
Arguments Serve {K} conn.
