(* ===== verification/PostgresCircuit.v ===== *)
(** * Circuits in a PostgreSQL table

    [grelmicro/resilience/circuitbreaker/postgres.py]: the PL/pgSQL functions of the
    consecutive-count strategy, the methods that call them and the sweep, on the server
    of [Postgres].  A function reads the clock before it waits for the lock of its name,
    so the instants it decides with need not be in the order of the calls; the counts
    are four bytes wide. *)

From S2P Require Import Prelude Errors CircuitMemory CircuitBreaker Sqlite SqliteCircuit Postgres.

Local Open Scope Z_scope.

(** The [DELETE] that the functions start with: a circuit nobody used for its lifetime
    is not there. *)
Definition pg_forget (name : string) (v_now : Q) : py circuit_rows exn unit := pg_delete name (row_over v_now).

(** The branch of [cb_try_acquire] for a half-open circuit. *)
Definition pg_admit (name : string) (p_capacity v_ho_admit : Z) (v_now : Q) : py circuit_rows exn bool :=
  if v_ho_admit <? p_capacity then
    _ ← pg_update name (fun row => (bumped row.1, v_now));
    mret true
  else mret false.

(** [cb_try_acquire] *)
Definition cb_try_acquire (name : string) (p_capacity : Z) (v_now : Q) : py circuit_rows exn bool :=
  _ ← pg_forget name v_now;
  row ← pg_select name;
  match row with
  | None => mret true
  | Some (r, _) =>
      match cr_state r with
      | FORCED_CLOSED | CLOSED => mret true
      | FORCED_OPEN => mret false
      | OPEN =>
          if (v_now >=? cr_opened_at r + cr_cool_down r)%py then
            _ ← pg_update name (fun _ => (new_row HALF_OPEN, v_now));
            pg_admit name p_capacity 0 v_now
          else mret false
      | HALF_OPEN => pg_admit name p_capacity (cr_ho_admit r) v_now
      end
  end.

Definition unless_null (row : option (circuit_row * Q)) : circuit_row :=
  if row is Some (r, _) then r else new_row CLOSED.

(** [UPDATE ... SET ho_admit = ho_admit - 1] *)
Definition pg_free_slot (name : string) (r : circuit_row) (v_now : Q) : py circuit_rows exn unit :=
  if bool_decide (cr_state r = HALF_OPEN) && (0 <? cr_ho_admit r) then
    pg_update name (fun row =>
      let r := row.1 in
      (mkRow (cr_state r) (cr_opened_at r) (cr_cool_down r) (cr_cerr r) (cr_csucc r) (cr_ho_admit r - 1), v_now))
  else mret tt.

(** The [INSERT ... ON CONFLICT] of [cb_record_error] and its [RETURNING]; the addition
    of two [INT]s raises when the sum is none. *)
Definition pg_count_error (name : string) (r : circuit_row) (v_now : Q) : py circuit_rows exn Z :=
  row ← pg_select name;
  v_cerr ← int4 (if row is Some (r, _) then cr_cerr r + 1 else 1);
  _ ← pg_upsert name (fun row =>
        let r := match row with Some (r, _) => r | None => new_row (cr_state r) end in
        (mkRow (cr_state r) (cr_opened_at r) (cr_cool_down r) v_cerr 0 (cr_ho_admit r), v_now));
  mret v_cerr.

(** The one of [cb_record_success]. *)
Definition pg_count_success (name : string) (r : circuit_row) (v_now : Q) : py circuit_rows exn Z :=
  row ← pg_select name;
  v_csucc ← int4 (if row is Some (r, _) then cr_csucc r + 1 else 1);
  _ ← pg_upsert name (fun row =>
        let r := match row with Some (r, _) => r | None => new_row (cr_state r) end in
        (mkRow (cr_state r) (cr_opened_at r) (cr_cool_down r) 0 v_csucc (cr_ho_admit r), v_now));
  mret v_csucc.

(** [IF v_state IN ('FORCED_OPEN', 'FORCED_CLOSED', 'OPEN')] *)
Definition counts_outcomes (s : CircuitBreakerState) : bool :=
  match s with CLOSED | HALF_OPEN => true | _ => false end.

(** [cb_record_error], once the row is read. *)
Definition pg_error (name : string) (p_threshold : Z) (p_reset_timeout v_now : Q) (r : circuit_row) :
    py circuit_rows exn CircuitBreakerSnapshot :=
  if counts_outcomes (cr_state r) then
    v_cerr ← pg_count_error name r v_now;
    _ ← pg_free_slot name r v_now;
    if p_threshold <=? v_cerr then
      _ ← pg_update name (fun _ => (mkRow OPEN v_now p_reset_timeout 0 0 0, v_now));
      mret (mkSnapshot OPEN v_now 0 0)
    else mret (mkSnapshot (cr_state r) (cr_opened_at r) v_cerr 0)
  else mret (mkSnapshot (cr_state r) (cr_opened_at r) 0 0).

(** [cb_record_error] *)
Definition cb_record_error (name : string) (p_threshold : Z) (p_reset_timeout v_now : Q) :
    py circuit_rows exn CircuitBreakerSnapshot :=
  _ ← pg_forget name v_now;
  row ← pg_select name;
  pg_error name p_threshold p_reset_timeout v_now (unless_null row).

(** [cb_record_success], once the row is read. *)
Definition pg_success (name : string) (p_threshold : Z) (v_now : Q) (r : circuit_row) :
    py circuit_rows exn CircuitBreakerSnapshot :=
  if counts_outcomes (cr_state r) then
    v_csucc ← pg_count_success name r v_now;
    _ ← pg_free_slot name r v_now;
    if bool_decide (cr_state r = HALF_OPEN) && (p_threshold <=? v_csucc) then
      _ ← pg_delete name (fun _ => true);
      mret (mkSnapshot CLOSED 0 0 0)
    else mret (mkSnapshot (cr_state r) (cr_opened_at r) 0 v_csucc)
  else mret (mkSnapshot (cr_state r) (cr_opened_at r) 0 0).

(** [cb_record_success] *)
Definition cb_record_success (name : string) (p_threshold : Z) (v_now : Q) :
    py circuit_rows exn CircuitBreakerSnapshot :=
  _ ← pg_forget name v_now;
  row ← pg_select name;
  pg_success name p_threshold v_now (unless_null row).

(** [cb_transition], which reads the clock once it has the lock. *)
Definition cb_transition (name : string) (p_desired : CircuitBreakerState) (p_cool_down now : Q) :
    py circuit_rows exn unit :=
  match p_desired with
  | CLOSED => pg_delete name (fun _ => true)
  | OPEN => pg_upsert name (fun _ => (mkRow OPEN now p_cool_down 0 0 0, now))
  | _ => pg_upsert name (fun _ => (new_row p_desired, now))
  end.

(** [cb_get_state], which takes no lock. *)
Definition cb_get_state (name : string) (now : Q) : py circuit_rows exn CircuitBreakerSnapshot :=
  row ← pg_select name;
  match row with
  | Some (r, updated_at) =>
      if is_forced (cr_state r) || negb (row_over now (r, updated_at)) then mret (row_snapshot r)
      else mret (mkSnapshot CLOSED 0 0 0)
  | None => mret (mkSnapshot CLOSED 0 0 0)
  end.

(** [cb_cleanup]: the rows the [SELECT] found over, at most [_CLEANUP_LIMIT] of them,
    whose lock was free, are deleted if they are over still; PostgreSQL picks them, so
    the names it [chose] are an argument. *)
Definition cb_cleanup (chose : list string) (v_now : Q) : py circuit_rows exn unit :=
  fun t => (Return tt, cleanup_rows chose v_now t).

(** ** [_PostgresConsecutiveCountStrategy] and the janitor

    [name] is the key in the table, the prefixes of the adapter included. *)
Definition pg_circuit_exec (k : circuit_call) (start now : Q) : py circuit_rows exn result :=
  atomically
    match k with
    | OnCircuit name c Acquire => b ← cb_try_acquire name (half_open_capacity c) start; mret (Admitted_ b)
    | OnCircuit name c (Record_ success) =>
        s ← (if success : bool then cb_record_success name (success_threshold c) start
             else cb_record_error name (error_threshold c) (reset_timeout c) start);
        mret (Snap s)
    | OnCircuit name c (Transition desired cool_down) =>
        _ ← cb_transition name desired (default (reset_timeout c) cool_down) now; mret Done
    | OnCircuit name _ Snapshot => s ← cb_get_state name now; mret (Snap s)
    | Sweep chose => _ ← cb_cleanup chose start; mret Done
    end.

(** ** One circuit per name *)

(** The count an outcome raises is at its limit. *)
Definition counter_full (c : circuit) (success : bool) : bool :=
  match c with
  | Closed e s | Probing e s _ => negb (fits_int ((if success then s else e) + 1))
  | _ => false
  end.

Definition spec_forget (t : Q) (cd : circuit * deadline) : circuit * deadline :=
  if expired t cd.2 then (Closed 0 0, Never) else cd.

(** An operation on the circuit of its name that decides at [start] and runs at
    [now]. *)
Definition pc_op (name : string) (cfg : ConsecutiveCountConfig) (o : operation) (start now : Q) (m : circuits) :
    outcome exn result * circuits :=
  let m' := put name (spec_forget start (m name)) m in
  let c := circuit_view start (m name) in
  match o with
  | Acquire =>
      let '(b, o) := circuit_acquire cfg start c in
      (Return (Admitted_ b), put_opt name (stamped start <$> o) m')
  | Record_ success =>
      if counter_full c success then (Raise out_of_range, m)
      else
        let o := circuit_record cfg success start c in
        (Return (Snap (circuit_snapshot (default c (fst <$> o)))), put_opt name (stamped start <$> o) m')
  | Transition d cd => (Return Done, put name (stamped now (circuit_transition cfg d cd now)) m)
  | Snapshot => (Return (Snap (circuit_snapshot (circuit_view now (m name)))), m)
  end.

(** A sweep at [start] forgets circuits that are over. *)
Definition pc_exec (k : circuit_call) (start now : Q) (m : circuits) : outcome exn result * circuits :=
  match k with
  | OnCircuit name cfg o => pc_op name cfg o start now m
  | Sweep chose =>
      (Return Done, fun n => if decide (n ∈ take CLEANUP_LIMIT chose) then spec_forget start (m n) else m n)
  end.

(** The table stands for the circuits, at whatever instant either is looked at. *)
Definition rows_are (t : circuit_rows) (m : circuits) : Prop :=
  circuit_rows_ok t /\ forall n u, entry_view u (row_entry <$> t !! n) = circuit_view u (m n).

Lemma rows_are_empty : rows_are ∅ no_circuits.
Proof. split; [apply map_Forall_empty|]. intros n u. by rewrite lookup_empty. Qed.

Lemma rows_are_set name row cd t m : rows_are t m -> wf_entry (row_entry row) ->
  (forall u, circuit_view u (circuit_of (row_entry row), expires_at (row_entry row)) = circuit_view u cd) ->
  rows_are (<[name := row]> t) (put name cd m).
Proof.
  intros [H1 H2] Hwf Hcd. split; [by apply map_Forall_insert_2|]. intros n u. unfold put. case_decide as E.
  - subst n. rewrite lookup_insert_eq. apply Hcd.
  - by rewrite lookup_insert_ne.
Qed.

Lemma rows_are_unset name cd t m : rows_are t m -> (forall u, circuit_view u cd = Closed 0 0) ->
  rows_are (delete name t) (put name cd m).
Proof.
  intros [H1 H2] Hcd. split; [by apply map_Forall_delete|]. intros n u. unfold put. case_decide as E.
  - subst n. by rewrite lookup_delete_eq, Hcd.
  - by rewrite lookup_delete_ne.
Qed.

Lemma rows_are_same name cd t m : rows_are t m -> (forall u, circuit_view u cd = circuit_view u (m name)) ->
  rows_are t (put name cd m).
Proof.
  intros [H1 H2] Hcd. split; [done|]. intros n u. rewrite H2. unfold put. case_decide as E; [|done].
  by subst n.
Qed.

Lemma put_twice name cd cd' m : forall n, put name cd (put name cd' m) n = put name cd m n.
Proof. intros n. unfold put. by case_decide. Qed.

Lemma rows_are_ext t m m' : (forall n, m n = m' n) -> rows_are t m -> rows_are t m'.
Proof. intros E [H1 H2]. split; [done|]. intros n u. by rewrite <- E. Qed.

Lemma row_over_expired v row : row_over v row = expired v (expires_at (row_entry row)).
Proof.
  unfold row_over, row_entry, expired. simpl. destruct (is_forced _); [done|]. simpl. done.
Qed.

Lemma forget_views v cd cd' : (forall u, circuit_view u cd = circuit_view u cd') ->
  forall u, circuit_view u (spec_forget v cd) = circuit_view u (spec_forget v cd').
Proof.
  intros Hv u. assert (forall c, circuit_view u (Closed 0 0, Never) = circuit_view u c <-> circuit_view u c = Closed 0 0) as Hn.
  { intros c. pose proof (circuit_view_fresh u Never) as Hf. split; intros; congruence. }
  assert (forall d1 d2, (forall u, circuit_view u d1 = circuit_view u d2) -> expired v d1.2 = true ->
    expired v d2.2 = false -> circuit_view u d2 = Closed 0 0) as Hone.
  { intros d1 [c2 e2] Hd H1 H2. specialize (Hd v). unfold circuit_view in Hd. rewrite H1 in Hd. simpl in *.
    rewrite H2 in Hd. rewrite <- Hd. apply circuit_view_fresh. }
  unfold spec_forget. destruct (expired v cd.2) eqn:E1, (expired v cd'.2) eqn:E2; try done.
  - apply Hn. by apply (Hone cd cd').
  - symmetry. apply Hn. by apply (Hone cd' cd).
Qed.

Lemma forget_sim name v t m : rows_are t m ->
  exists t', pg_forget name v t = (Return tt, t') /\ rows_are t' (put name (spec_forget v (m name)) m) /\
    match t' !! name with
    | Some row => wf_entry (row_entry row) /\ circuit_view v (m name) = circuit_of (row_entry row) /\
                  row_over v row = false
    | None => circuit_view v (m name) = Closed 0 0
    end.
Proof.
  intros [Hok Hv]. unfold pg_forget, pg_delete.
  destruct (t !! name) as [row|] eqn:E.
  - assert (forall u, circuit_view u (circuit_of (row_entry row), expires_at (row_entry row)) = circuit_view u (m name)) as Hr.
    { intros u. by rewrite <- Hv, E. }
    pose proof (forget_views v _ _ Hr) as Hf. unfold spec_forget at 1 in Hf. cbn [snd] in Hf.
    rewrite row_over_expired. destruct (expired v (expires_at (row_entry row))) eqn:Ex; cbv iota in Hf.
    + exists (delete name t). split; [done|]. split.
      * apply rows_are_unset; [by split|]. intros u. by rewrite <- Hf, circuit_view_fresh.
      * rewrite lookup_delete_eq, <- Hr. unfold circuit_view. cbn [fst snd]. by rewrite Ex.
    + exists t. split; [done|]. split.
      * apply rows_are_same; [by split|]. intros u. by rewrite <- Hf, Hr.
      * rewrite E. split; [by apply (Hok name)|]. split; [|by rewrite row_over_expired].
        rewrite <- Hr. unfold circuit_view. cbn [fst snd]. by rewrite Ex.
  - assert (forall u, circuit_view u (m name) = Closed 0 0) as Hr by (intros u; by rewrite <- Hv, E).
    exists t. split; [done|]. split; [|by rewrite E].
    apply rows_are_same; [by split|]. intros u. rewrite Hr.
    rewrite <- (forget_views v (Closed 0 0, Never)); [apply circuit_view_fresh|].
    intros u'. by rewrite Hr, circuit_view_fresh.
Qed.

Definition pc_simulated (k : circuit_call) (start now : Q) (t : circuit_rows) (m : circuits) : Prop :=
  (pg_circuit_exec k start now t).1 = (pc_exec k start now m).1 /\
  rows_are (pg_circuit_exec k start now t).2 (pc_exec k start now m).2.

(** What is written for the circuit [c], as what is kept of it. *)
Lemma rows_are_write name row start c d t m m' : rows_are t m -> (forall n, m' n = put name (stamped start (c, d)) m n) ->
  wf_entry (row_entry row) -> circuit_of (row_entry row) = c -> row.2 = start ->
  rows_are (<[name := row]> t) m'.
Proof.
  intros HR Hm Hwf Hc Hs. eapply rows_are_ext; [intros n; symmetry; apply Hm|].
  apply rows_are_set; [done|done|]. intros u. f_equal. destruct row as [r ts]. simpl in Hs. subst ts c.
  exact (row_deadline r start Hwf).
Qed.

Lemma put_opt_same name o cd m : (forall n, put_opt name o (put name cd m) n = put name (default cd o) m n).
Proof. intros n. destruct o; simpl; [apply put_twice|done]. Qed.

(** The admission of a probe. *)
Lemma admit_sim_pg name cfg v t m m' row cd : rows_are t m -> t !! name = Some row -> cr_state row.1 = HALF_OPEN ->
  wf_entry (row_entry row) -> (forall n, m' n = put name cd m n) ->
  cr_ho_admit row.1 < half_open_capacity cfg ->
  cd = stamped v (Probing (cr_cerr row.1) (cr_csucc row.1) (cr_ho_admit row.1 + 1), Never) ->
  exists t', pg_admit name (half_open_capacity cfg) (cr_ho_admit row.1) v t = (Return true, t') /\ rows_are t' m'.
Proof.
  intros HR E Es Hwf Hm Hlt ->. unfold pg_admit, mbind, py_mbind, py_bind. rewrite (proj2 (Z.ltb_lt _ _)) by done.
  rewrite (pg_update_some _ _ row) by done. eexists. split; [done|].
  eapply rows_are_write; [done|exact Hm| | |done].
  - unfold wf_entry in *. simpl in *. rewrite Es in *. naive_solver lia.
  - unfold circuit_of. simpl. by rewrite Es.
Qed.

Lemma acquire_sim_pg name cfg start now t m : cc_valid cfg -> rows_are t m ->
  pc_simulated (OnCircuit name cfg Acquire) start now t m.
Proof.
  intros (_ & _ & _ & Hcap) HR. unfold pc_simulated, pc_exec, pc_op, pg_circuit_exec.
  destruct (forget_sim name start t m HR) as (t1 & E1 & HR1 & Hrow). set (m1 := put name _ m) in *.
  unfold atomically, cb_try_acquire, mbind, py_mbind, py_bind. cbv beta. rewrite E1. unfold pg_select.
  destruct (t1 !! name) as [row|] eqn:E; [|by rewrite Hrow].
  destruct Hrow as (Hwf & -> & Hov). destruct row as [r upd]. unfold circuit_of, row_entry.
  cbn [fst snd b_state opened_at cool_down consecutive_error_count consecutive_success_count half_open_admit].
  destruct (cr_state r) eqn:Es; cbn [circuit_acquire]; try done.
  - destruct (Qle_bool_spec (cr_opened_at r + cr_cool_down r) start) as [Hd|Hd];
      destruct (Qlt_bool_spec start (cr_opened_at r + cr_cool_down r)) as [Hd'|Hd']; try lra; [|done].
    rewrite (pg_update_some _ _ (r, upd)) by done.
    assert (rows_are (<[name := (new_row HALF_OPEN, start)]> t1)
      (put name (stamped start (Probing 0 0 0, Never)) m1)) as HR2.
    { by eapply rows_are_write. }
    destruct (admit_sim_pg name cfg start _ _ (put_opt name (stamped start <$> Some (kept start (Probing 0 0 1))) m1)
      (new_row HALF_OPEN, start) (stamped start (Probing 0 0 1, Never)) HR2) as (t2 & E2 & HR3); try done.
    { by rewrite lookup_insert_eq. }
    { intros n. simpl. by rewrite put_twice. }
    cbn [cr_ho_admit fst new_row] in E2. by rewrite E2.
  - destruct (Z.ltb_spec (cr_ho_admit r) (half_open_capacity cfg)) as [Hlt|Hge].
    + destruct (admit_sim_pg name cfg start _ _ (put_opt name (stamped start <$> Some (kept start
        (Probing (cr_cerr r) (cr_csucc r) (cr_ho_admit r + 1)))) m1) (r, upd)
        (stamped start (Probing (cr_cerr r) (cr_csucc r) (cr_ho_admit r + 1), Never)) HR1) as (t2 & E2 & HR3); try done.
      cbn [cr_ho_admit fst] in E2. by rewrite E2.
    + unfold pg_admit. by rewrite (proj2 (Z.ltb_ge _ _)).
Qed.

(** The row a function reads: the one that is there, or a fresh one. *)
Definition reads_row (name : string) (t : circuit_rows) (r : circuit_row) : Prop :=
  t !! name = None /\ r = new_row CLOSED \/ exists upd, t !! name = Some (r, upd).

Lemma free_slot_eq name v r r' t : cr_state r' = cr_state r -> cr_ho_admit r' = cr_ho_admit r ->
  t !! name = Some (r', v) ->
  pg_free_slot name r v t =
  (Return tt, <[name := (mkRow (cr_state r') (cr_opened_at r') (cr_cool_down r') (cr_cerr r') (cr_csucc r')
                           (free_slot r), v)]> t).
Proof.
  intros Es Ek E. unfold pg_free_slot, free_slot.
  destruct (bool_decide _ && _).
  - rewrite (pg_update_some _ _ (r', v)) by done. cbn [fst]. by rewrite Ek.
  - unfold mret, py_mret, py_ret. f_equal. symmetry. apply insert_id. rewrite E, <- Ek. by destruct r'.
Qed.

Lemma count_error_eq {A} name v r t (k : Z -> py circuit_rows exn A) : reads_row name t r ->
  (n ← pg_count_error name r v; _ ← pg_free_slot name r v; k n) t =
  if fits_int (cr_cerr r + 1) then
    k (cr_cerr r + 1)
      (<[name := (mkRow (cr_state r) (cr_opened_at r) (cr_cool_down r) (cr_cerr r + 1) 0 (free_slot r), v)]> t)
  else (Raise out_of_range, t).
Proof.
  intros Hr. unfold pg_count_error, mbind, py_mbind, py_bind, pg_select, int4. cbv beta iota.
  assert ((if t !! name is Some (r, _) then cr_cerr r + 1 else 1) = cr_cerr r + 1) as ->.
  { by destruct Hr as [[-> ->]|[upd ->]]. }
  destruct (fits_int (cr_cerr r + 1)); [|done].
  unfold mret, py_mret, py_ret, pg_upsert. cbv beta iota.
  assert ((match t !! name with Some (r, _) => r | None => new_row (cr_state r) end) = r) as ->.
  { by destruct Hr as [[-> ->]|[upd ->]]. }
  erewrite free_slot_eq; [|..|by rewrite lookup_insert_eq]; [|done..]. cbv beta iota. by rewrite insert_insert_eq.
Qed.

Lemma count_success_eq {A} name v r t (k : Z -> py circuit_rows exn A) : reads_row name t r ->
  (n ← pg_count_success name r v; _ ← pg_free_slot name r v; k n) t =
  if fits_int (cr_csucc r + 1) then
    k (cr_csucc r + 1)
      (<[name := (mkRow (cr_state r) (cr_opened_at r) (cr_cool_down r) 0 (cr_csucc r + 1) (free_slot r), v)]> t)
  else (Raise out_of_range, t).
Proof.
  intros Hr. unfold pg_count_success, mbind, py_mbind, py_bind, pg_select, int4. cbv beta iota.
  assert ((if t !! name is Some (r, _) then cr_csucc r + 1 else 1) = cr_csucc r + 1) as ->.
  { by destruct Hr as [[-> ->]|[upd ->]]. }
  destruct (fits_int (cr_csucc r + 1)); [|done].
  unfold mret, py_mret, py_ret, pg_upsert. cbv beta iota.
  assert ((match t !! name with Some (r, _) => r | None => new_row (cr_state r) end) = r) as ->.
  { by destruct Hr as [[-> ->]|[upd ->]]. }
  erewrite free_slot_eq; [|..|by rewrite lookup_insert_eq]; [|done..]. cbv beta iota. by rewrite insert_insert_eq.
Qed.

Definition counted_row (up : bool) (r : circuit_row) : circuit_row :=
  if up then mkRow (cr_state r) (cr_opened_at r) (cr_cool_down r) 0 (cr_csucc r + 1) (free_slot r)
  else mkRow (cr_state r) (cr_opened_at r) (cr_cool_down r) (cr_cerr r + 1) 0 (free_slot r).

Lemma counted_wf up r v : counts_outcomes (cr_state r) = true -> wf_entry (row_entry (r, v)) ->
  wf_entry (row_entry (counted_row up r, v)).
Proof.
  unfold wf_entry, counted_row, free_slot. destruct r as [[] ? ? ? ? k]; simpl; try done; intros _ H; destruct_and! H; subst;
    destruct up; simpl; split_and!; try done; destruct (Z.ltb_spec 0 k); lia.
Qed.

(** The reading that starts a record. *)
Lemma record_read name v t m : rows_are t m ->
  exists t' r, rows_are t' (put name (spec_forget v (m name)) m) /\ reads_row name t' r /\
    circuit_view v (m name) = row_circuit r /\ wf_entry (row_entry (r, v)) /\
    forall A (k : circuit_row -> py circuit_rows exn A),
      (_ ← pg_forget name v; row ← pg_select name; k (unless_null row)) t = k r t'.
Proof.
  intros HR. destruct (forget_sim name v t m HR) as (t' & E & HR' & Hrow). exists t'.
  destruct (t' !! name) as [[r upd]|] eqn:En.
  - exists r. destruct Hrow as (Hwf & Hc & _). split; [done|]. split; [right; by exists upd|]. split; [done|].
    split; [|intros A k; unfold mbind, py_mbind, py_bind, pg_select; by rewrite E, En].
    unfold wf_entry, row_entry in *. simpl in *. destruct (cr_state r); simpl in *; naive_solver.
  - exists (new_row CLOSED). split; [done|]. split; [by left|]. split; [done|]. split; [done|].
    intros A k. unfold mbind, py_mbind, py_bind, pg_select. by rewrite E, En.
Qed.

(** What recording an outcome comes to. *)
Definition recording (script : py circuit_rows exn CircuitBreakerSnapshot) (name : string) (cfg : ConsecutiveCountConfig)
    (success : bool) (start : Q) (t : circuit_rows) (m : circuits) : Prop :=
  let c := circuit_view start (m name) in
  if counter_full c success then exists t', script t = (Raise out_of_range, t')
  else
    let o := circuit_record cfg success start c in
    exists t', script t = (Return (circuit_snapshot (default c (fst <$> o))), t') /\
      rows_are t' (put_opt name (stamped start <$> o) (put name (spec_forget start (m name)) m)).

Lemma ignored_records name cfg success start t m r : circuit_view start (m name) = row_circuit r ->
  wf_entry (row_entry (r, start)) -> counts_outcomes (cr_state r) = false ->
  rows_are t (put name (spec_forget start (m name)) m) ->
  forall script t0, script t0 = (Return (mkSnapshot (cr_state r) (cr_opened_at r) 0 0), t) ->
  recording script name cfg success start t0 m.
Proof.
  intros Hc Hwf Hi HR script t0 Es. unfold recording. rewrite Hc.
  unfold row_circuit, circuit_of, row_entry, wf_entry in *. simpl in *.
  destruct (cr_state r); try done; simpl in *; exists t; destruct_and! Hwf; rewrite Es; (split; [|done]); congruence.
Qed.

Lemma row_circuit_counts r : counts_outcomes (cr_state r) = true ->
  row_circuit r = (if bool_decide (cr_state r = HALF_OPEN) then Probing (cr_cerr r) (cr_csucc r) (cr_ho_admit r)
                   else Closed (cr_cerr r) (cr_csucc r)).
Proof. unfold row_circuit, circuit_of. simpl. by destruct (cr_state r). Qed.

Lemma counted_circuit up r : counts_outcomes (cr_state r) = true -> wf_entry (row_entry (r, 0%Q)) ->
  row_circuit (counted_row up r) =
  let e := if up then 0 else cr_cerr r + 1 in let s := if up then cr_csucc r + 1 else 0 in
  if bool_decide (cr_state r = HALF_OPEN) then Probing e s (Z.max 0 (cr_ho_admit r - 1)) else Closed e s.
Proof.
  intros Ho Hwf. unfold wf_entry in Hwf. simpl in Hwf.
  destruct (decide (cr_state r = HALF_OPEN)) as [E|E].
  - rewrite bool_decide_eq_true_2, <- free_slot_half_open by (try done; rewrite E in Hwf; apply Hwf).
    unfold row_circuit, circuit_of, counted_row. by destruct up; simpl; rewrite E.
  - rewrite bool_decide_eq_false_2 by done. unfold row_circuit, circuit_of, counted_row.
    destruct up; simpl; by destruct (cr_state r).
Qed.

(** What is left when the outcome is counted and no more. *)
Lemma counted_kept name up start t m r : rows_are t m -> counts_outcomes (cr_state r) = true ->
  wf_entry (row_entry (r, start)) ->
  rows_are (<[name := (counted_row up r, start)]> t) (put name (stamped start (kept start (row_circuit (counted_row up r)))) m).
Proof. intros HR Ho Hwf. eapply rows_are_write; [done|done|by apply counted_wf|done|done]. Qed.

Lemma wf_any r u v : wf_entry (row_entry (r, u)) -> wf_entry (row_entry (r, v)).
Proof. unfold wf_entry, row_entry. simpl. destruct (cr_state r); simpl; naive_solver. Qed.

Lemma success_records name cfg start t m : rows_are t m ->
  recording (cb_record_success name (success_threshold cfg) start) name cfg true start t m.
Proof.
  intros HR. destruct (record_read name start t m HR) as (t1 & r & HR1 & Hread & Hc & Hwf & Hk).
  specialize (Hk _ (pg_success name (success_threshold cfg) start)).
  change (cb_record_success name (success_threshold cfg) start t = pg_success name (success_threshold cfg) start r t1) in Hk.
  unfold pg_success in Hk. destruct (counts_outcomes (cr_state r)) eqn:Eo; [|by eapply ignored_records].
  rewrite count_success_eq in Hk by done. unfold recording. rewrite Hk, Hc. pose proof (row_circuit_counts r Eo) as Er.
  pose proof (counted_circuit true r Eo (wf_any _ _ _ Hwf)) as Ec.
  assert (counter_full (row_circuit r) true = negb (fits_int (cr_csucc r + 1))) as ->.
  { rewrite Er. by destruct (bool_decide _). }
  destruct (fits_int (cr_csucc r + 1)) eqn:Ei; cbn [negb]; [|by exists t1].
  destruct (bool_decide (cr_state r = HALF_OPEN) && (success_threshold cfg <=? cr_csucc r + 1)) eqn:Ethr.
  - apply andb_prop in Ethr as [Eh Et]. rewrite Er, Eh. cbn [circuit_record]. rewrite Et.
    unfold mbind, py_mbind, py_bind, pg_delete. rewrite lookup_insert_eq, delete_insert_eq.
    eexists. split; [done|].
    apply (rows_are_unset name); [done|]. intros u. apply circuit_view_fresh.
  - assert (circuit_record cfg true start (row_circuit r) = Some (kept start (row_circuit (counted_row true r)))) as ->.
    { rewrite Er, Ec. destruct (bool_decide _); [|done]. simpl in *. by rewrite Ethr. }
    eexists. split; [|by apply (counted_kept name true start t1)].
    change (circuit_snapshot (default (row_circuit r) (fst <$> Some (kept start (row_circuit (counted_row true r)))))) with
      (circuit_snapshot (row_circuit (counted_row true r))). rewrite Ec.
    unfold mret, py_mret, py_ret. f_equal. f_equal.
    unfold wf_entry in Hwf. destruct r as [[] ? ? ? ? ?]; simpl in *; try done; by destruct_and! Hwf; subst.
Qed.

Lemma failure_records name cfg start t m : rows_are t m ->
  recording (cb_record_error name (error_threshold cfg) (reset_timeout cfg) start) name cfg false start t m.
Proof.
  intros HR. destruct (record_read name start t m HR) as (t1 & r & HR1 & Hread & Hc & Hwf & Hk).
  specialize (Hk _ (pg_error name (error_threshold cfg) (reset_timeout cfg) start)).
  change (cb_record_error name (error_threshold cfg) (reset_timeout cfg) start t =
          pg_error name (error_threshold cfg) (reset_timeout cfg) start r t1) in Hk.
  unfold pg_error in Hk. destruct (counts_outcomes (cr_state r)) eqn:Eo; [|by eapply ignored_records].
  rewrite count_error_eq in Hk by done. unfold recording. rewrite Hk, Hc. pose proof (row_circuit_counts r Eo) as Er.
  pose proof (counted_circuit false r Eo (wf_any _ _ _ Hwf)) as Ec.
  assert (counter_full (row_circuit r) false = negb (fits_int (cr_cerr r + 1))) as ->.
  { rewrite Er. by destruct (bool_decide _). }
  destruct (fits_int (cr_cerr r + 1)) eqn:Ei; cbn [negb]; [|by exists t1].
  destruct (error_threshold cfg <=? cr_cerr r + 1) eqn:Ethr.
  - assert (circuit_record cfg false start (row_circuit r) = Some (tripped cfg start)) as ->.
    { rewrite Er. destruct (bool_decide _); simpl; by rewrite Ethr. }
    unfold mbind, py_mbind, py_bind. erewrite pg_update_some by by rewrite lookup_insert_eq.
    rewrite insert_insert_eq. eexists. split; [done|].
    by eapply rows_are_write.
  - assert (circuit_record cfg false start (row_circuit r) = Some (kept start (row_circuit (counted_row false r)))) as ->.
    { rewrite Er, Ec. destruct (bool_decide _); simpl; by rewrite Ethr. }
    eexists. split; [|by apply (counted_kept name false start t1)].
    change (circuit_snapshot (default (row_circuit r) (fst <$> Some (kept start (row_circuit (counted_row false r)))))) with
      (circuit_snapshot (row_circuit (counted_row false r))). rewrite Ec.
    unfold mret, py_mret, py_ret. f_equal. f_equal.
    unfold wf_entry in Hwf. destruct r as [[] ? ? ? ? ?]; simpl in *; try done; by destruct_and! Hwf; subst.
Qed.

Lemma record_sim_pg name cfg success start now t m : rows_are t m ->
  pc_simulated (OnCircuit name cfg (Record_ success)) start now t m.
Proof.
  intros HR. unfold pc_simulated, pc_exec, pc_op, pg_circuit_exec, atomically, mbind, py_mbind, py_bind.
  assert (recording (if success then cb_record_success name (success_threshold cfg) start
            else cb_record_error name (error_threshold cfg) (reset_timeout cfg) start) name cfg success start t m) as H.
  { destruct success; [by apply success_records|by apply failure_records]. }
  unfold recording in H. destruct (counter_full _ success).
  - destruct H as [t' ->]. done.
  - destruct H as (t' & -> & HR'). done.
Qed.

Lemma transition_sim_pg name cfg d cd start now t m : rows_are t m ->
  pc_simulated (OnCircuit name cfg (Transition d cd)) start now t m.
Proof.
  intros HR. unfold pc_simulated, pc_exec, pc_op, pg_circuit_exec, atomically, mbind, py_mbind, py_bind, cb_transition.
  destruct d; rewrite ?pg_delete_all; unfold pg_upsert; simpl; (split; [done|]).
  1: apply rows_are_unset; [done|]; intros u; apply circuit_view_fresh.
  all: by eapply rows_are_write.
Qed.

Lemma snapshot_sim_pg name cfg start now t m : rows_are t m ->
  pc_simulated (OnCircuit name cfg Snapshot) start now t m.
Proof.
  intros HR. unfold pc_simulated, pc_exec, pc_op, pg_circuit_exec, atomically, cb_get_state, mbind, py_mbind, py_bind, pg_select. cbv beta.
  destruct HR as [Hok Hv]. rewrite <- Hv. destruct (t !! name) as [[r upd]|] eqn:E; [|by split].
  pose proof (Hok name (r, upd) E) as Hwf. cbn beta in Hwf.
  assert (is_forced (cr_state r) || negb (row_over now (r, upd)) = negb (expired now (expires_at (row_entry (r, upd))))) as ->.
  { rewrite row_over_expired. unfold row_entry. simpl. by destruct (is_forced _). }
  cbn [fmap option_fmap option_map entry_view]. unfold circuit_view. cbn [fst snd].
  destruct (expired _ _); simpl; [by split|]. split; [|by split]. do 2 f_equal.
  by apply (snapshot_circuit (row_entry (r, upd))).
Qed.

Lemma forget_again v cd : spec_forget v (spec_forget v cd) = spec_forget v cd.
Proof. unfold spec_forget. destruct (expired v cd.2) eqn:E; cbn [snd]; [done|by rewrite E]. Qed.

Lemma sweep_sim_pg chose start now t m : rows_are t m -> pc_simulated (Sweep chose) start now t m.
Proof.
  intros HR. unfold pc_simulated, pc_exec, pg_circuit_exec, atomically, mbind, py_mbind, py_bind, cb_cleanup. simpl.
  split; [done|]. unfold cleanup_rows. induction (take CLEANUP_LIMIT chose) as [|n ns IH]; simpl.
  { done. }
  destruct (forget_sim n start _ _ IH) as (t' & E & HR' & _). unfold pg_forget, pg_delete in E. injection E as E.
  rewrite E. eapply rows_are_ext; [|exact HR']. intros n'. unfold put.
  destruct (decide (n' = n)) as [->|Hne].
  - rewrite (decide_True (P := n ∈ n :: ns)) by left. case_decide; [apply forget_again|done].
  - destruct (decide (n' ∈ ns)), (decide (n' ∈ n :: ns)); try done; set_solver.
Qed.

Lemma circuit_step_sim_pg k start now t m : (if k is OnCircuit _ cfg _ then cc_valid cfg else True) ->
  rows_are t m -> pc_simulated k start now t m.
Proof.
  intros Hk HR. destruct k as [name cfg [|success|d cd|]|chose].
  - by apply acquire_sim_pg.
  - by apply record_sim_pg.
  - by apply transition_sim_pg.
  - by apply snapshot_sim_pg.
  - by apply sweep_sim_pg.
Qed.

(** A strategy whose configuration is valid and fits the [INT] parameters of the
    functions; the driver refuses to send another. *)
Definition pg_call_ok (k : circuit_call) : Prop :=
  match k with
  | OnCircuit _ cfg _ =>
      cc_valid cfg /\ fits_int (error_threshold cfg) = true /\ fits_int (success_threshold cfg) = true /\
      fits_int (half_open_capacity cfg) = true
  | Sweep _ => True
  end.

(** C37 (refinement): breakers of many processes over one PostgreSQL table, whatever the
    interleaving of their calls, how long each waits for the lock and which are lost:
    every call served answers what one circuit per name answers, one call after the
    other in the order in which they got the lock, each deciding at the instant it
    started at; the only other answer is the error of a count that has no room for the
    next outcome, which changes nothing. *)
Theorem postgres_circuits_are_shared lo h s :
  server_runs pg_circuit_exec (new_server ∅ lo) h s ->
  Forall (fun e => pg_call_ok (pe_call e)) h ->
  in_lock_order lo h /\ pe_answer <$> h = (spec_run pc_exec h no_circuits).1.
Proof.
  intros (hi & Hs & _)%server_serial Hok. split; [by apply (serial_ordered _ _ _ _ _ _ Hs)|].
  refine (proj1 (serial_simulated _ pc_exec rows_are pg_call_ok _ _ no_circuits _ _ _ _ Hs rows_are_empty Hok)).
  intros k start now t m Hk _ HR. apply circuit_step_sim_pg; [|done]. destruct k; [apply Hk|done].
Qed.

Definition pg_demo_config : ConsecutiveCountConfig := mkConsecutiveCountConfig [] 2 1 30 1 "WARNING".

Definition on_db (o : operation) : circuit_call := OnCircuit "cb:db" pg_demo_config o.

(** Two failures trip the circuit.  After the cool-down two probes are asked for, the
    later one is served first, and its success closes the circuit although it started
    after the one that was refused. *)
Definition pg_circuit_demo : list (server_event (K := circuit_call)) :=
  [Begin 0 (on_db (Record_ false)); Serve 0; Begin 1 (on_db (Record_ false)); Tick 11; Serve 1;
   Tick 41; Begin 0 (on_db Acquire); Tick 42; Begin 1 (on_db Acquire); Tick 43; Serve 1; Serve 0;
   Begin 1 (on_db (Record_ true)); Serve 1; Tick 100000; Begin 0 (Sweep ["cb:db"]%string); Serve 0;
   Begin 0 (on_db Snapshot); Serve 0]%Q.

Definition pg_circuit_played : list (pg_entry circuit_call result) * pg_server circuit_rows circuit_call :=
  play pg_circuit_exec pg_circuit_demo (new_server ∅ 10%Q).

Lemma postgres_circuits_are_shared_witness :
  in_lock_order 10 pg_circuit_played.1 /\
  pe_answer <$> pg_circuit_played.1 = (spec_run pc_exec pg_circuit_played.1 no_circuits).1 /\
  pe_answer <$> pg_circuit_played.1 = Return <$>
    [Snap (mkSnapshot CLOSED 0 1 0); Snap (mkSnapshot OPEN 10 0 0); Admitted_ true; Admitted_ false;
     Snap (mkSnapshot CLOSED 0 0 0); Done; Snap (mkSnapshot CLOSED 0 0 0)].
Proof.
  destruct (postgres_circuits_are_shared 10 pg_circuit_played.1 pg_circuit_played.2) as [H1 H2].
  - exact (play_runs pg_circuit_exec _ [] _ pg_circuit_demo (runs_start _ _)).
  - apply (proj1 (Forall_fmap pe_call pg_call_ok _)).
    assert (pe_call <$> pg_circuit_played.1 = [on_db (Record_ false); on_db (Record_ false); on_db Acquire; on_db Acquire;
      on_db (Record_ true); Sweep ["cb:db"]%string; on_db Snapshot]) as -> by (by vm_compute).
    repeat constructor.
  - split; [exact H1|]. split; [exact H2|]. by vm_compute.
Defined.

(** ** What the width of a count does *)

Definition succeed (name : string) (cfg : ConsecutiveCountConfig) (v : Q) : py circuit_rows exn result :=
  pg_circuit_exec (OnCircuit name cfg (Record_ true)) v v.

Lemma not_over_at_once v r : row_over v (r, v) = false.
Proof.
  unfold row_over. simpl. destruct (is_forced _); [done|]. simpl. apply not_true_iff_false. intros H%Qle_bool_iff.
  pose proof (proj1 (resolve_state_ttl_ge (cr_cool_down r))) as Hl. unfold resolve_state_ttl in Hl.
  pose proof STATE_TTL_pos. lra.
Qed.

Definition succeeded (n : Z) : circuit_row := mkRow CLOSED 0 0 0 n 0.

Lemma succeed_step name cfg v t n : reads_row name t (succeeded n) -> (t !! name = None \/ exists r, t !! name = Some (r, v)) ->
  succeed name cfg v t =
  if fits_int (n + 1) then (Return (Snap (mkSnapshot CLOSED 0 0 (n + 1))), <[name := (succeeded (n + 1), v)]> t)
  else (Raise out_of_range, t).
Proof.
  intros Hread Hv.
  assert (pg_forget name v t = (Return tt, t)) as Hf.
  { unfold pg_forget, pg_delete. destruct Hv as [->|[r ->]]; [done|]. by rewrite not_over_at_once. }
  assert (cb_record_success name (success_threshold cfg) v t = pg_success name (success_threshold cfg) v (succeeded n) t) as Hs.
  { unfold cb_record_success, mbind, py_mbind, py_bind, pg_select. cbv beta. rewrite Hf.
    destruct Hread as [[-> ->]|[upd ->]]; done. }
  unfold succeed, pg_circuit_exec, atomically, mbind, py_mbind, py_bind. cbv beta. rewrite Hs.
  change (pg_success name (success_threshold cfg) v (succeeded n) t) with
    ((v_csucc ← pg_count_success name (succeeded n) v; _ ← pg_free_slot name (succeeded n) v;
      mret (mkSnapshot CLOSED 0 0 v_csucc) : py circuit_rows exn CircuitBreakerSnapshot) t).
  rewrite count_success_eq by done. cbn [succeeded cr_csucc]. by destruct (fits_int (n + 1)).
Qed.

(** A breaker whose calls all succeed, in less than a day from one to the next, works
    for [INT_MAX] calls; from then on recording a success raises, and changes nothing. *)
Theorem postgres_successes_run_out name cfg v (n : nat) : Z.of_nat n = INT_MAX ->
  let t k := Nat.iter k (fun t => (succeed name cfg v t).2) ∅ in
  (forall k, (k < n)%nat -> (succeed name cfg v (t k)).1 = Return (Snap (mkSnapshot CLOSED 0 0 (Z.of_nat k + 1)))) /\
  (forall k, (n <= k)%nat -> succeed name cfg v (t k) = (Raise out_of_range, t n)).
Proof.
  intros Hn t.
  assert (forall k, (k <= n)%nat -> reads_row name (t k) (succeeded (Z.of_nat k)) /\
    (t k !! name = None \/ exists r, t k !! name = Some (r, v))) as Ht.
  { induction k as [|k IH]; intros Hk.
    - split; left; [split; [apply lookup_empty|done]|apply lookup_empty].
    - destruct (IH ltac:(lia)) as [H1 H2]. change (t (S k)) with (succeed name cfg v (t k)).2.
      rewrite (succeed_step _ _ _ _ _ H1 H2).
      assert (fits_int (Z.of_nat k + 1) = true) as ->.
      { unfold fits_int, INT_MIN. apply andb_true_intro. split; apply Z.leb_le; lia. }
      replace (Z.of_nat (S k)) with (Z.of_nat k + 1) by lia.
      cbn [snd]. split; right; eexists; by rewrite lookup_insert_eq. }
  assert (fits_int (Z.of_nat n + 1) = false) as Hfull by (by rewrite Hn).
  split.
  - intros k Hk. destruct (Ht k ltac:(lia)) as [H1 H2]. rewrite (succeed_step _ _ _ _ _ H1 H2).
    assert (fits_int (Z.of_nat k + 1) = true) as ->; [|done].
    unfold fits_int, INT_MIN. apply andb_true_intro. split; apply Z.leb_le; lia.
  - destruct (Ht n ltac:(lia)) as [H1 H2]. pose proof (succeed_step _ cfg _ _ _ H1 H2) as Hs. rewrite Hfull in Hs.
    assert (forall j, t (j + n)%nat = t n) as Hj.
    { induction j as [|j IH]; [done|]. change (t (S j + n)%nat) with (succeed name cfg v (t (j + n)%nat)).2.
      rewrite IH, Hs. done. }
    intros k Hk. replace k with (k - n + n)%nat by lia. by rewrite Hj.
Qed.
