(* ===== verification/PostgresCoordination.v ===== *)
(** * Locks, schedules and elections in PostgreSQL tables

    [grelmicro/coordination/postgres.py]: the statements of the lock, the schedule and
    the election, and the methods that send them, on the server of [Postgres].  Every
    decision is taken with [NOW()], the instant the transaction started at, on the row
    as the calls before left it.

    The column [expire_at] of the locks is a [TIMESTAMP] without a time zone: what it
    holds is the local time of the session that wrote it, and a session that reads it
    takes it for its own.  [zone] is the offset of a session.  A [JSONB] column holds
    the mapping it stands for; [make_interval] is exact. *)

From S2P Require Import Prelude Errors CoordinationMemory SqliteCoordination Redis RedisCoordination Postgres.

Local Open Scope Z_scope.

(** ** [PostgresLockAdapter] *)

Record pg_lock_row : Type := mkPgLock {
  pl_token : option string;
  pl_expire_at : option Q;
  pl_fence : Z;
}.

Abbreviation pg_locks := (gmap string pg_lock_row).

(** [expire_at >= NOW()] and [expire_at < NOW()]; neither when [expire_at] is null. *)
Definition pg_live (zone now : Q) (r : pg_lock_row) : bool :=
  if pl_expire_at r is Some e then (e - zone >=? now)%py else false.
Definition pg_over (zone now : Q) (r : pg_lock_row) : bool :=
  if pl_expire_at r is Some e then (e - zone <? now)%py else false.

(** [_SQL_ACQUIRE_OR_EXTEND] *)
Definition pg_acquire_or_extend (zone : Q) (name token : string) (duration now : Q) : py pg_locks exn (option Z) :=
  fun t =>
  let write fence := (Return (Some fence), <[name := mkPgLock (Some token) (Some (now + duration + zone)%Q) fence]> t) in
  match t !! name with
  | None => write 1
  | Some r =>
      let same := bool_decide (pl_token r = Some token) in
      if same || bool_decide (pl_token r = None) || bool_decide (pl_expire_at r = None) || pg_over zone now r
      then write (if same && pg_live zone now r then pl_fence r else pl_fence r + 1)
      else (Return None, t)
  end.

(** [_SQL_RELEASE] *)
Definition pg_release (zone : Q) (name token : string) (now : Q) : py pg_locks exn bool :=
  fun t =>
  match t !! name with
  | Some r =>
      if bool_decide (pl_token r = Some token) && pg_live zone now r
      then (Return true, <[name := mkPgLock None None (pl_fence r)]> t)
      else (Return false, t)
  | None => (Return false, t)
  end.

(** [_SQL_RELEASE_ALL_EXPIRED] *)
Definition pg_release_all_expired (zone now : Q) : py pg_locks exn unit :=
  fun t => (Return tt, (fun r => if pg_over zone now r then mkPgLock None None (pl_fence r) else r) <$> t).

(** [_SQL_LOCKED] and [_SQL_OWNED] *)
Definition pg_locked (zone : Q) (name : string) (now : Q) : py pg_locks exn bool :=
  fun t => (Return (if t !! name is Some r then negb (bool_decide (pl_token r = None)) && pg_live zone now r else false), t).
Definition pg_owned (zone : Q) (name token : string) (now : Q) : py pg_locks exn bool :=
  fun t => (Return (if t !! name is Some r then bool_decide (pl_token r = Some token) && pg_live zone now r else false), t).

(** The methods, in a session with offset [zone]. *)
Definition pg_lock_exec (k : Q * lock_method) (start now : Q) : py pg_locks exn lock_reply :=
  let '(zone, m) := k in
  match m with
  | MAcquire name token duration => f ← pg_acquire_or_extend zone name token duration start; mret (RFence f)
  | MRelease name token => b ← pg_release zone name token start; mret (RBool b)
  | MLocked name => b ← pg_locked zone name start; mret (RBool b)
  | MOwned name token => b ← pg_owned zone name token start; mret (RBool b)
  | MClose => _ ← pg_release_all_expired zone start; mret RUnit
  end.

(** ** What a grant is worth *)

(** The call is one of [token] that may change the row of [name]. *)
Definition meddles (name token : string) (m : lock_method) : bool :=
  match m with
  | MAcquire n tk _ | MRelease n tk => bool_decide (n = name) && bool_decide (tk = token)
  | _ => false
  end.

Section Grants.
Context (zone : Q) (name token : string) (expires : Q) (fence : Z).

(** The row is the one of the grant, or the grant is over. *)
Definition grant_stands (now : Q) (t : pg_locks) : Prop :=
  exists r, t !! name = Some r /\
    (r = mkPgLock (Some token) (Some (expires + zone)%Q) fence \/
     (expires < now)%Q /\ pl_token r <> Some token /\ fence <= pl_fence r /\ (pl_token r <> None -> fence < pl_fence r)).

Lemma grant_kept now now' t t' : grant_stands now t -> (now <= now')%Q -> t' !! name = t !! name -> grant_stands now' t'.
Proof.
  intros (r & E & Hr) Hle Et. exists r. rewrite Et. split; [done|]. destruct Hr as [Hr|(H1 & H2)]; [by left|right].
  split; [lra|done].
Qed.

Lemma grant_step m start now now' t : grant_stands now t -> (now <= now')%Q -> (start <= now')%Q ->
  meddles name token m = false ->
  let '(a, t') := pg_lock_exec (zone, m) start now' t in
  grant_stands now' t' /\
  (forall tk d f, m = MAcquire name tk d -> a = Return (RFence (Some f)) -> (expires < now')%Q /\ fence < f).
Proof.
  intros Hg Hle Hs Hm.
  destruct m as [n tk d|n tk|n|n tk|]; simpl in Hm |- *; unfold mbind, py_mbind, py_bind.
  - unfold pg_acquire_or_extend. destruct (decide (n = name)) as [->|Hne].
    2: { destruct (t !! n) as [r|]; [destruct (_ || pg_over zone start r)|]; simpl; (split; [|by intros ? ? ? [=]]);
         (apply (grant_kept now _ t); [done|done|by rewrite ?lookup_insert_ne by done]). }
    rewrite bool_decide_eq_true_2 in Hm by done. simpl in Hm. apply bool_decide_eq_false in Hm.
    destruct Hg as (r & E & Hr). rewrite E.
    destruct Hr as [-> | (Hx & Ht & Hf & Hft)].
    + unfold pg_over, pg_live. simpl. rewrite bool_decide_eq_false_2 by congruence. simpl.
      destruct (Qlt_bool_spec (expires + zone - zone) start) as [Hlt|Hge]; simpl.
      * split; [|intros ? ? ? [= -> ->] [= <-]; split; [lra|lia]].
        exists (mkPgLock (Some tk) (Some (start + d + zone)%Q) (fence + 1)). rewrite lookup_insert_eq.
        split; [done|]. right. simpl. split; [lra|]. split; [congruence|]. lia.
      * split; [|done]. exists (mkPgLock (Some token) (Some (expires + zone)%Q) fence). split; [done|by left].
    + destruct (_ || pg_over zone start r); simpl.
      * set (f := if bool_decide (pl_token r = Some tk) && pg_live zone start r then pl_fence r else pl_fence r + 1).
        assert (fence < f) as Hlt.
        { subst f. destruct (bool_decide (pl_token r = Some tk)) eqn:Eb; simpl; [|lia].
          apply bool_decide_eq_true in Eb. destruct (pg_live zone start r); [apply Hft; congruence|lia]. }
        split; [|intros ? ? ? [= -> ->] [= <-]; split; [lra|done]].
        exists (mkPgLock (Some tk) (Some (start + d + zone)%Q) f). rewrite lookup_insert_eq.
        split; [done|]. right. simpl. split; [lra|]. split; [congruence|]. lia.
      * split; [|done]. apply (grant_kept now _ t); [|done|done]. exists r. split; [done|by right].
  - unfold pg_release. destruct (decide (n = name)) as [->|Hne].
    2: { destruct (t !! n) as [r|]; [destruct (_ && pg_live zone start r)|]; simpl; (split; [|by intros ? ? ? [=]]);
         (apply (grant_kept now _ t); [done|done|by rewrite ?lookup_insert_ne by done]). }
    rewrite bool_decide_eq_true_2 in Hm by done. simpl in Hm. apply bool_decide_eq_false in Hm.
    destruct Hg as (r & E & Hr). rewrite E. destruct (bool_decide (pl_token r = Some tk)) eqn:Eb; simpl.
    + apply bool_decide_eq_true in Eb. destruct Hr as [-> | (Hx & Ht & Hf & Hft)]; [simpl in Eb; congruence|].
      destruct (pg_live zone start r); simpl; (split; [|by intros ? ? ? [=]]).
      * exists (mkPgLock None None (pl_fence r)). rewrite lookup_insert_eq. split; [done|]. right. simpl.
        split; [lra|]. done.
      * apply (grant_kept now _ t); [|done|done]. exists r. split; [done|by right].
    + split; [|by intros ? ? ? [=]]. apply (grant_kept now _ t); [|done|done]. by exists r.
  - split; [|by intros ? ? ? [=]]. by eapply grant_kept.
  - split; [|by intros ? ? ? [=]]. by eapply grant_kept.
  - split; [|by intros ? ? ? [=]]. destruct Hg as (r & E & Hr).
    exists (if pg_over zone start r then mkPgLock None None (pl_fence r) else r). rewrite lookup_fmap, E. split; [done|].
    destruct (pg_over zone start r) eqn:Eo; [right|destruct Hr as [Hr|(Hx & Hr)]; [by left|right; split; [lra|done]]].
    destruct Hr as [-> | (Hx & Ht & Hf & Hft)]; simpl; (split; [|split; [done|split; [done|done]]]); [|lra].
    unfold pg_over in Eo. simpl in Eo. destruct (Qlt_bool_spec (expires + zone - zone) start); [lra|done].
Qed.
End Grants.

Lemma grant_made zone name token d start now t f t' :
  pg_lock_exec (zone, MAcquire name token d) start now t = (Return (RFence (Some f)), t') -> (start <= now)%Q ->
  grant_stands zone name token (start + d) f now t'.
Proof.
  simpl. unfold mbind, py_mbind, py_bind, pg_acquire_or_extend. intros E _.
  exists (mkPgLock (Some token) (Some (start + d + zone)%Q) f). split; [|by left].
  destruct (t !! name) as [r|]; [destruct (_ || pg_over zone start r)|]; injection E as E1 E2; subst; try done;
    by rewrite lookup_insert_eq.
Qed.

Lemma grant_outlasts zone name token expires fence now t h now' t' :
  grant_stands zone name token expires fence now t ->
  pg_continues pg_lock_exec now t h now' t' ->
  Forall (fun x => (pe_call x).1 = zone /\ meddles name token (pe_call x).2 = false) h ->
  grant_stands zone name token expires fence now' t'.
Proof.
  intros Hg Hc. induction Hc as [|hi t conn [z m] start now h hi' t' H1 H2 Hc IH]; intros Hok; [done|].
  apply Forall_cons in Hok as [[Hz Hm] Hok]. simpl in Hz, Hm. subst z. apply IH; [|done].
  pose proof (grant_step zone name token expires fence m start hi now t Hg H2 H1 Hm) as Hstep.
  destruct (pg_lock_exec (zone, m) start now t) as [a u]. apply Hstep.
Qed.

(** C38 (safety): when all sessions that use the locks, in a table empty at the start,
    have the same time zone, a lock is held by one token at a time, by the clock of the
    server, however long the calls wait and in whatever order they are served: once
    [token] was granted the lock at [start] for [d] and makes no further call that could
    change it, another token is granted it only after [start + d], and with a greater
    fencing number.  (With
    sessions of different zones it is false: [zones_break_locks].) *)
Theorem postgres_lock_excludes zone lo h1 g h2 e s name token d f other d' f' :
  server_runs pg_lock_exec (new_server ∅ lo) (h1 ++ g :: h2 ++ [e]) s ->
  Forall (fun x => (pe_call x).1 = zone) (h1 ++ g :: h2 ++ [e]) ->
  pe_call g = (zone, MAcquire name token d) -> pe_answer g = Return (RFence (Some f)) ->
  Forall (fun x => meddles name token (pe_call x).2 = false) h2 ->
  pe_call e = (zone, MAcquire name other d') -> pe_answer e = Return (RFence (Some f')) -> other <> token ->
  (pe_start g + d < pe_now e)%Q /\ f < f'.
Proof.
  intros (hi & Hs%serial_continues & _)%server_serial Hz Eg Ag Hm Ee Ae Hne.
  apply continues_app in Hs as (mid & u & _ & Hs). inversion Hs; subst; clear Hs.
  match goal with Hc : pg_continues _ _ _ (h2 ++ _) _ _ |- _ => apply continues_app in Hc as (mid' & u' & Hc & He) end.
  inversion He; subst; clear He. simpl in *. subst.
  apply Forall_app in Hz as [_ [_ [Hz _]%Forall_app]%Forall_cons].
  match type of Ag with (pg_lock_exec ?k ?st ?nw ?t).1 = _ => destruct (pg_lock_exec k st nw t) as [a t1] eqn:Eg end.
  simpl in Ag. subst a. apply grant_made in Eg; [|done].
  eapply grant_outlasts in Eg; [|done|by apply Forall_and].
  match type of Ae with (pg_lock_exec (_, ?m) ?st ?nw ?t).1 = _ =>
    pose proof (grant_step zone name token _ f m st _ nw t Eg ltac:(done) ltac:(done)) as Hstep;
    destruct (pg_lock_exec (zone, m) st nw t) as [a t2] end.
  simpl in Ae. subst a. eapply Hstep; [|done..]. simpl.
  by rewrite bool_decide_eq_true_2, bool_decide_eq_false_2.
Qed.

Definition pg_lock_demo : list (server_event (K := Q * lock_method)) :=
  [Begin 0 (3600, MAcquire "job" "w1" 5); Tick 11; Begin 1 (3600, MAcquire "job" "w2" 9); Serve 0;
   Begin 2 (3600, MOwned "job" "w1"); Serve 2; Tick 20; Serve 1; Begin 1 (3600, MAcquire "job" "w2" 9); Serve 1]%Q.

Definition pg_lock_played : list (pg_entry (Q * lock_method) lock_reply) * pg_server pg_locks (Q * lock_method) :=
  play pg_lock_exec pg_lock_demo (new_server ∅ 10%Q).

Lemma pg_lock_played_eq : pg_lock_played.1 =
  [] ++ mkEntry 0 (3600%Q, MAcquire "job" "w1" 5) 10 11 (Return (RFence (Some 1))) ::
  [mkEntry 2 (3600%Q, MOwned "job" "w1") 11 11 (Return (RBool true));
   mkEntry 1 (3600%Q, MAcquire "job" "w2" 9) 11 20 (Return (RFence None))] ++
  [mkEntry 1 (3600%Q, MAcquire "job" "w2" 9) 20 20 (Return (RFence (Some 2)))].
Proof. by vm_compute. Qed.

Lemma postgres_lock_excludes_witness : (10 + 5 < 20)%Q /\ 1 < 2.
Proof.
  pose proof (play_runs pg_lock_exec _ [] _ pg_lock_demo (runs_start _ (new_server ∅ 10%Q))) as Hr.
  change ([] ++ (play pg_lock_exec pg_lock_demo (new_server ∅ 10%Q)).1) with pg_lock_played.1 in Hr.
  rewrite pg_lock_played_eq in Hr.
  refine (postgres_lock_excludes 3600 10 [] _ _ _ _ "job" "w1" 5 1 "w2" 9 2 Hr _ eq_refl eq_refl _ eq_refl eq_refl _).
  - repeat constructor.
  - repeat constructor.
  - done.
Defined.

(** A session whose local time is ahead of the one that took the lock by more than the
    lock still has to run is granted it at once. *)
Theorem zones_break_locks name token d start now zone zone' other d' start' now' t f t1 :
  pg_lock_exec (zone, MAcquire name token d) start now t = (Return (RFence (Some f)), t1) ->
  other <> token -> (start' <= start + d)%Q -> (start + d - start' < zone' - zone)%Q ->
  (pg_lock_exec (zone', MAcquire name other d') start' now' t1).1 = Return (RFence (Some (f + 1))).
Proof.
  intros E Hne Hlate Hz.
  assert (t1 !! name = Some (mkPgLock (Some token) (Some (start + d + zone)%Q) f)) as E1.
  { simpl in E. unfold mbind, py_mbind, py_bind, pg_acquire_or_extend in E.
    destruct (t !! name) as [r|]; [destruct (_ || pg_over zone start r)|]; injection E as Ef Et; subst; try done;
      by rewrite lookup_insert_eq. }
  simpl. unfold mbind, py_mbind, py_bind, pg_acquire_or_extend. rewrite E1. unfold pg_over. simpl.
  rewrite bool_decide_eq_false_2 by congruence. simpl.
  destruct (Qlt_bool_spec (start + d + zone - zone') start') as [|H]; [done|lra].
Qed.

(** ** [PostgresScheduleAdapter] *)

(** [_SQL_CLAIM] *)
Definition pg_claim (name : string) (due : Q) : py Schedules exn bool :=
  fun t =>
  match t !! name with
  | Some last_fired =>
      if (last_fired <? due)%py then (Return true, <[name := due]> t) else (Return false, t)
  | None => (Return true, <[name := due]> t)
  end.

(** [claim] and [last_fired] *)
Definition pg_schedule_exec (o : schedule_op) (start now : Q) : py Schedules exn (bool + option Q) :=
  match o with
  | SClaim name due => b ← pg_claim name due; mret (inl b)
  | SLast name => stored ← pg_select name; mret (inr stored)
  end.

Lemma postgres_schedule_is_the_memory_one o start now s :
  pg_schedule_exec o start now s = (Return (memory_schedule_exec o s).1, (memory_schedule_exec o s).2).
Proof.
  destruct o as [name due|name]; simpl; unfold mbind, py_mbind, py_bind, pg_claim, claim, pg_select, schedule_last_fired; [|done].
  destruct (s !! name) as [last|]; [|done].
  destruct (Qlt_bool_spec last due), (Qle_bool_spec due last); try lra; done.
Qed.

(** ** [PostgresLeaderElectionAdapter] *)

(** [le_acquire_or_renew]; [v_now] is [NOW()], read before the wait for the lock. *)
Definition le_acquire_or_renew (name token : string) (duration : Q) (metadata : gmap string string) (v_now : Q) :
    py Records exn LeaderRecord :=
  row ← pg_select name;
  let take v_new_transitions :=
    let record := mkLeaderRecord token duration v_now v_now v_new_transitions metadata in
    _ ← pg_upsert name (fun _ => record); mret record in
  match row with
  | Some r =>
      let v_expired := (v_now >=? lr_renewed_at r + lr_lease_duration r)%py in
      if negb v_expired && negb (bool_decide (lr_holder r = token)) then mret r
      else if negb v_expired then
        _ ← pg_update name (fun r => mkLeaderRecord (lr_holder r) duration (lr_acquired_at r) v_now (lr_transitions r) metadata);
        mret (mkLeaderRecord token duration (lr_acquired_at r) v_now (lr_transitions r) metadata)
      else if bool_decide (lr_holder r = token) then take (lr_transitions r)
      else v_new_transitions ← int4 (lr_transitions r + 1); take v_new_transitions
  | None => take 0
  end.

(** [_SQL_RELEASE] *)
Definition le_release (name token : string) (now : Q) : py Records exn bool :=
  fun t =>
  match t !! name with
  | Some r =>
      if bool_decide (lr_holder r = token) && (now <? lr_renewed_at r + lr_lease_duration r)%py
      then (Return true, delete name t) else (Return false, t)
  | None => (Return false, t)
  end.

(** [_SQL_GET] *)
Definition le_get (name : string) (now : Q) : py Records exn (option LeaderRecord) :=
  fun t =>
  (Return (match t !! name with
           | Some r => if (now <? lr_renewed_at r + lr_lease_duration r)%py then Some r else None
           | None => None
           end), t).

(** [acquire_or_renew], [release] and [get] *)
Definition pg_election_exec (o : election_op) (start now : Q) : py Records exn election_reply :=
  atomically
    match o with
    | EAcquire name token duration metadata =>
        r ← le_acquire_or_renew name token duration (default ∅ metadata) start; mret (ERecord r)
    | ERelease name token => b ← le_release name token start; mret (EReleased b)
    | EGet name => r ← le_get name start; mret (EGot r)
    end.

(** The next takeover has no number. *)
Definition takeover_full (o : election_op) (start : Q) (s : Records) : bool :=
  match o with
  | EAcquire name token _ _ =>
      match leader_live name start s, s !! name with
      | None, Some r => negb (bool_decide (lr_holder r = token)) && negb (fits_int (lr_transitions r + 1))
      | _, _ => false
      end
  | _ => false
  end.

Definition numbered_election (o : election_op) (start now : Q) (s : Records) : outcome exn election_reply * Records :=
  if takeover_full o start s then (Raise out_of_range, s)
  else (Return (memory_election_exec id (o, start) s).1, (memory_election_exec id (o, start) s).2).

Lemma election_step o start now s : pg_election_exec o start now s = numbered_election o start now s.
Proof.
  unfold pg_election_exec, numbered_election, atomically.
  destruct o as [name token d m|name token|name]; simpl; unfold mbind, py_mbind, py_bind.
  - unfold le_acquire_or_renew, acquire_or_renew, leader_live, mbind, py_mbind, py_bind, pg_select. cbv beta.
    destruct (s !! name) as [r|] eqn:E; [|done].
    destruct (Qle_bool_spec (lr_renewed_at r + lr_lease_duration r) start); cbn [negb andb].
    + destruct (decide (lr_holder r = token)) as [->|Hne].
      * by rewrite bool_decide_eq_true_2.
      * rewrite bool_decide_eq_false_2 by done. simpl. unfold int4. by destruct (fits_int _).
    + destruct (decide (lr_holder r = token)) as [<-|Hne].
      * rewrite bool_decide_eq_true_2 by done. cbn [negb andb]. rewrite decide_False by tauto.
        by rewrite (pg_update_some _ _ r).
      * rewrite bool_decide_eq_false_2, decide_True by done. done.
  - unfold le_release, leader_release, leader_live. destruct (s !! name) as [r|]; [|done].
    destruct (Qle_bool_spec (lr_renewed_at r + lr_lease_duration r) start),
      (Qlt_bool_spec start (lr_renewed_at r + lr_lease_duration r)); try lra;
      rewrite ?andb_false_r, ?andb_true_r; [done|]. case_decide; [by rewrite bool_decide_eq_true_2|by rewrite bool_decide_eq_false_2].
  - unfold le_get, leader_live. destruct (s !! name) as [r|]; [|done].
    destruct (Qle_bool_spec (lr_renewed_at r + lr_lease_duration r) start),
      (Qlt_bool_spec start (lr_renewed_at r + lr_lease_duration r)); try lra; done.
Qed.
