(* ===== verification/PostgresLimiter.v ===== *)
(** * Rate limits in a PostgreSQL table

    [grelmicro/resilience/ratelimiter/postgres.py]: the PL/pgSQL functions of both
    strategies, over one table of rows that both share, on the server of [Postgres].  A
    function reads the clock before it waits for the lock of its key, so the row it
    finds may be newer than its reading; [FLOOR(x)::INT] raises when the number does not
    fit.  [DOUBLE PRECISION] and the difference of two instants are exact. *)

From S2P Require Import Prelude Errors RateLimitMemory SqliteLimiter Postgres.

Local Open Scope Q_scope.

(** [LEAST(p_capacity, v_tokens + EXTRACT(EPOCH FROM (v_now - v_last)) * p_refill_rate)],
    where a missing row is a full bucket. *)
Definition pg_refilled (c : TokenBucketConfig) (row : option (Q * Q)) (v_now : Q) : Q :=
  let '(v_tokens, v_last) := default (tb_cap c, v_now) row in
  py_min (tb_cap c) (v_tokens + (v_now - v_last) * refill_rate c).

(** [tb_acquire] *)
Definition pg_tb_acquire (key : string) (c : TokenBucketConfig) (cost : Z) (v_now : Q) : py rate_rows exn RateLimitResult :=
  row ← pg_select key;
  let v_new := pg_refilled c row v_now in
  if (v_new >=? inject_Z cost)%py then
    _ ← pg_upsert key (fun _ => (v_new - inject_Z cost, v_now));
    remaining ← int4 (Qfloor (v_new - inject_Z cost));
    mret (mkResult true (capacity c) remaining 0 ((tb_cap c - (v_new - inject_Z cost)) / refill_rate c))
  else
    _ ← pg_upsert key (fun _ => (v_new, v_now));
    remaining ← int4 (Qfloor v_new);
    mret (mkResult false (capacity c) remaining ((inject_Z cost - v_new) / refill_rate c)
            ((tb_cap c - v_new) / refill_rate c)).

(** [tb_peek], which takes no lock. *)
Definition pg_tb_peek (key : string) (c : TokenBucketConfig) (v_now : Q) : py rate_rows exn RateLimitResult :=
  row ← pg_select key;
  let v_new := pg_refilled c row v_now in
  remaining ← int4 (Qfloor v_new);
  mret (if (v_new >=? 1)%py
        then mkResult true (capacity c) remaining 0 ((tb_cap c - v_new) / refill_rate c)
        else mkResult false (capacity c) remaining ((1 - v_new) / refill_rate c) ((tb_cap c - v_new) / refill_rate c)).

(** [gcra_acquire] *)
Definition pg_gcra_acquire (key : string) (c : SlidingWindowConfig) (cost : Z) (v_now now : Q) :
    py rate_rows exn RateLimitResult :=
  let v_emission := emission_interval c in
  let v_increment := v_emission * inject_Z cost in
  row ← pg_select key;
  let v_tat := default v_now (fst <$> row) in
  let v_new_tat := py_max v_tat v_now + v_increment in
  let v_diff := v_now - (v_new_tat - v_emission * inject_Z (sw_limit c)) in
  v_remaining ← int4 (Qfloor (v_diff / v_emission + (1 # 2)));
  if (v_remaining <? 0)%Z then mret (mkResult false (sw_limit c) 0 (py_max 0 (- v_diff)) (py_max 0 (v_tat - v_now)))
  else
    _ ← pg_upsert key (fun _ => (v_new_tat, now));
    mret (mkResult true (sw_limit c) v_remaining 0 (v_new_tat - v_now)).

(** [gcra_peek] *)
Definition pg_gcra_peek (key : string) (c : SlidingWindowConfig) (v_now : Q) : py rate_rows exn RateLimitResult :=
  let v_emission := emission_interval c in
  row ← pg_select key;
  let v_tat := default v_now (fst <$> row) in
  let v_new_tat := py_max v_tat v_now in
  let v_diff := v_now - (v_new_tat - window c) in
  v_remaining ← int4 (Qfloor (v_diff / v_emission + (1 # 2)));
  mret (if (v_remaining <=? 0)%Z then
          let v_retry := if (v_remaining <? 0)%Z then - v_diff else v_emission - v_diff in
          mkResult false (sw_limit c) 0 (py_max 0 v_retry) (py_max 0 (v_tat - v_now))
        else mkResult true (sw_limit c) v_remaining 0 (py_max 0 (v_new_tat - v_now))).

(** [_SQL_DELETE] *)
Definition pg_limit_reset (key : string) : py rate_rows exn unit := pg_delete key (fun _ => true).

(** ** The strategies

    [bind] picks one by the configuration; the key has the prefix of the algorithm. *)
Inductive pg_limit_op : Type := LAcquire (key : string) (cost : Z) | LPeek (key : string) | LReset (key : string).

Definition pg_limit_exec (prefix : string) (k : RateLimiterConfig * pg_limit_op) (start now : Q) :
    py rate_rows exn (option RateLimitResult) :=
  atomically
    match k with
    | (TokenBucket c, LAcquire key cost) => r ← pg_tb_acquire (tb_key prefix key) c cost start; mret (Some r)
    | (TokenBucket c, LPeek key) => r ← pg_tb_peek (tb_key prefix key) c start; mret (Some r)
    | (TokenBucket c, LReset key) => _ ← pg_limit_reset (tb_key prefix key); mret None
    | (SlidingWindow c, LAcquire key cost) => r ← pg_gcra_acquire (gcra_key prefix key) c cost start now; mret (Some r)
    | (SlidingWindow c, LPeek key) => r ← pg_gcra_peek (gcra_key prefix key) c start; mret (Some r)
    | (SlidingWindow c, LReset key) => _ ← pg_limit_reset (gcra_key prefix key); mret None
    end.

(** ** What the fleet is granted *)

Section Bound.
Context (prefix : string) (c : TokenBucketConfig) (key : string) (a b : Q).
Hypotheses (Hrate : 0 < refill_rate c) (Hab : a <= b).

(** The requests of one bucket: acquisitions with its configuration that started
    between [a] and [b], and whatever leaves its row alone. *)
Definition bucket_request (e : pg_entry (RateLimiterConfig * pg_limit_op) (option RateLimitResult)) : Prop :=
  match pe_call e with
  | (TokenBucket c', LAcquire k cost) => k = key -> c' = c /\ (0 <= cost)%Z /\ a <= pe_start e <= b
  | (TokenBucket _, LReset k) => k <> key
  | _ => True
  end.

(** What an entry was granted of the bucket. *)
Definition granted_of (e : pg_entry (RateLimiterConfig * pg_limit_op) (option RateLimitResult)) : Z :=
  match pe_call e, pe_answer e with
  | (TokenBucket _, LAcquire k cost), Return (Some r) =>
      if decide (k = key) then if allowed r then cost else 0%Z else 0%Z
  | _, _ => 0%Z
  end.

Definition granted_all (h : list (pg_entry (RateLimiterConfig * pg_limit_op) (option RateLimitResult))) : Z :=
  foldr (fun e n => (granted_of e + n)%Z) 0%Z h.

Definition bucket_bound : Q := tb_cap c + refill_rate c * (b - a).

(** The level of the bucket as it would be at [b]. *)
Definition level_at_b (t : rate_rows) : option Q :=
  (fun row => row.1 + refill_rate c * (b - row.2)) <$> t !! tb_key prefix key.

Definition within_bound (n : Z) (touched : bool) (t : rate_rows) : Prop :=
  inject_Z n <= bucket_bound /\
  (touched = true -> exists l, level_at_b t = Some l /\ inject_Z n + l <= bucket_bound) /\
  (touched = false -> n = 0%Z).

(** An acquisition: a bucket that is refilled, less what is granted. *)
Lemma pg_acquire_step k cost start now t :
  let v := pg_refilled c (t !! tb_key prefix k) start in
  pg_limit_exec prefix (TokenBucket c, LAcquire k cost) start now t = (Raise out_of_range, t) \/
  exists r, pg_limit_exec prefix (TokenBucket c, LAcquire k cost) start now t =
      (Return (Some r), <[tb_key prefix k := (if allowed r then v - inject_Z cost else v, start)]> t) /\
    (allowed r = true -> inject_Z cost <= v).
Proof.
  unfold pg_limit_exec, atomically, pg_tb_acquire, mbind, py_mbind, py_bind, pg_select. cbv beta iota zeta.
  generalize (pg_refilled c (t !! tb_key prefix k) start) as v. intros v. unfold pg_upsert, int4.
  destruct (Qle_bool_spec (inject_Z cost) v); (destruct (fits_int _); [right|by left]).
  - by exists (mkResult true (capacity c) (Qfloor (v - inject_Z cost)) 0 ((tb_cap c - (v - inject_Z cost)) / refill_rate c)).
  - by exists (mkResult false (capacity c) (Qfloor v) ((inject_Z cost - v) / refill_rate c) ((tb_cap c - v) / refill_rate c)).
Qed.

Lemma pg_refilled_le row v : pg_refilled c row v <= tb_cap c /\
  forall tokens last, row = Some (tokens, last) -> pg_refilled c row v <= tokens + (v - last) * refill_rate c.
Proof.
  unfold pg_refilled. destruct row as [[tokens last]|]; simpl; repeat qcase1; split; try lra;
    intros ? ? [= <- <-]; lra.
Qed.

(** The other requests leave the row alone. *)
Lemma other_request k start now t : (forall c' cost, k <> (TokenBucket c', LAcquire key cost)) ->
  (forall c', k <> (TokenBucket c', LReset key)) ->
  (pg_limit_exec prefix k start now t).2 !! tb_key prefix key = t !! tb_key prefix key.
Proof.
  intros Ha Hr. unfold pg_limit_exec, atomically. destruct k as [[c'|c'] [k cost|k|k]];
    unfold mbind, py_mbind, py_bind, pg_limit_reset.
  - assert (k <> key) as Hne by (by intros ->; destruct (Ha c' cost)).
    unfold pg_tb_acquire, mbind, py_mbind, py_bind, pg_select, pg_upsert, int4. cbv beta.
    destruct (_ >=? _)%py; (destruct (fits_int _); [|done]); simpl; rewrite lookup_insert_ne; try done;
      by intros E%tb_key_inj.
  - unfold pg_tb_peek, mbind, py_mbind, py_bind, pg_select, int4. cbv beta. by destruct (fits_int _).
  - rewrite pg_delete_all. simpl. rewrite lookup_delete_ne; [done|]. intros ->%tb_key_inj. by destruct (Hr c').
  - unfold pg_gcra_acquire, mbind, py_mbind, py_bind, pg_select, pg_upsert, int4. cbv beta.
    destruct (fits_int _); [|done]. cbv beta iota zeta delta [mret py_mret py_ret].
    destruct (Z.ltb _ 0); [done|]. simpl. rewrite lookup_insert_ne; [done|].
    intros E. by apply (tb_gcra_key prefix key k).
  - unfold pg_gcra_peek, mbind, py_mbind, py_bind, pg_select, int4. cbv beta. by destruct (fits_int _).
  - rewrite pg_delete_all. simpl. rewrite lookup_delete_ne; [done|]. intros E. by apply (tb_gcra_key prefix key k).
Qed.

Lemma granted_elsewhere conn k start now x : (forall c' cost, k <> (TokenBucket c', LAcquire key cost)) ->
  granted_of (mkEntry conn k start now x) = 0%Z.
Proof.
  intros Hk. unfold granted_of. simpl. destruct k as [[c'|c'] [k cost|k|k]]; try done.
  destruct x as [[r|]|]; try done. rewrite decide_False; [done|]. intros ->. by destruct (Hk c' cost).
Qed.

Lemma bound_step n touched t conn k start now :
  within_bound n touched t ->
  bucket_request (mkEntry conn k start now (pg_limit_exec prefix k start now t).1) ->
  exists touched', within_bound
    (n + granted_of (mkEntry conn k start now (pg_limit_exec prefix k start now t).1)) touched'
    (pg_limit_exec prefix k start now t).2.
Proof.
  intros (Hn & Ht & Hu) Hq. unfold bucket_request in Hq. cbn [pe_call pe_start] in Hq.
  assert ((exists c' cost, k = (TokenBucket c', LAcquire key cost)) \/
          forall c' cost, k <> (TokenBucket c', LAcquire key cost)) as [(c' & cost & ->)|Hk].
  { destruct k as [[c'|c'] [k cost|k|k]]; try (right; by intros).
    destruct (decide (k = key)) as [->|Hne]; [left; by eauto|right; congruence]. }
  - destruct (Hq eq_refl) as (-> & Hcost & Ha & Hb). clear Hq.
    pose proof (pg_acquire_step key cost start now t) as Hs. cbv zeta in Hs.
    pose proof (pg_refilled_le (t !! tb_key prefix key) start) as [Hcap Hrow].
    set (v := pg_refilled c (t !! tb_key prefix key) start) in *.
    assert (inject_Z n + v + refill_rate c * (b - start) <= bucket_bound) as Hv.
    { destruct touched; [|rewrite (Hu eq_refl); change (inject_Z 0) with 0; unfold bucket_bound; nra].
      destruct (Ht eq_refl) as (l & El & Hl). unfold level_at_b in El.
      destruct (t !! tb_key prefix key) as [[tokens last]|]; [|done]. simpl in El. injection El as <-.
      specialize (Hrow _ _ eq_refl). nra. }
    destruct Hs as [->|(r & -> & Hr)].
    + exists touched. unfold granted_of. simpl. rewrite Z.add_0_r. by split_and!.
    + exists true. unfold granted_of. cbn [pe_call pe_answer fst snd]. rewrite decide_True by done.
      assert (0 <= refill_rate c * (b - start)) as Hpos by nra.
      assert (inject_Z (n + (if allowed r then cost else 0)) == inject_Z n + (if allowed r then inject_Z cost else 0)) as Ez.
      { rewrite inject_Z_plus. by destruct (allowed r). }
      split; [|split; [|done]].
      * rewrite Ez. destruct (allowed r); [specialize (Hr eq_refl); lra|lra].
      * intros _. unfold level_at_b. rewrite lookup_insert_eq. eexists. split; [reflexivity|]. simpl. rewrite Ez.
        destruct (allowed r); lra.
  - exists touched. rewrite granted_elsewhere, Z.add_0_r by done. split; [done|]. split; [|done].
    unfold level_at_b. rewrite other_request; [done..|]. intros c' ->. by apply Hq.
Qed.
Lemma bound_kept n touched hi t h hi' t' : within_bound n touched t ->
  pg_continues (pg_limit_exec prefix) hi t h hi' t' -> Forall bucket_request h ->
  inject_Z (n + granted_all h) <= bucket_bound.
Proof.
  intros Hw Hc. revert n touched Hw. induction Hc as [|hi t conn k start now h hi' t' _ _ _ IH]; intros n touched Hw Hok.
  - simpl. rewrite Z.add_0_r. apply Hw.
  - apply Forall_cons in Hok as [He Hok]. destruct (bound_step _ _ _ conn _ _ _ Hw He) as [touched' Hw'].
    specialize (IH _ _ Hw' Hok). cbn [granted_all foldr]. by rewrite Z.add_assoc.
Qed.
End Bound.

(** C39 (bounds): processes that share a table and limit one key by a bucket, whatever
    the interleaving of their requests and however long each waits, so that a request
    may be decided with a reading older than the row it finds: the requests that
    started within a period are granted together at most the capacity and what refills
    during the period. *)
Theorem postgres_bucket_bounds_the_fleet prefix c key a b t0 lo h1 h2 s :
  tb_config_valid c -> a <= b ->
  server_runs (pg_limit_exec prefix) (new_server t0 lo) (h1 ++ h2) s ->
  Forall (bucket_request c key a b) h2 ->
  inject_Z (granted_all key h2) <= tb_cap c + refill_rate c * (b - a).
Proof.
  intros [Hcap Hrate] Hab (hi & Hs%serial_continues & _)%server_serial Hok.
  apply continues_app in Hs as (mid & u & _ & Hs).
  rewrite <- (Z.add_0_l (granted_all key h2)).
  refine (bound_kept prefix c key a b Hrate 0 false mid u h2 _ _ _ Hs Hok).
  assert (0 <= tb_cap c) as Hc by (unfold tb_cap; change 0 with (inject_Z 0); rewrite <- inject_Z_le; lia).
  split; [|done]. unfold bucket_bound. change (inject_Z 0) with 0. nra.
Qed.

(** A bucket of three with a token every two seconds.  The second request waits so
    long that the row it finds is newer than its reading. *)
Definition pg_bucket_demo : list (server_event (K := RateLimiterConfig * pg_limit_op)) :=
  let take cost := (TokenBucket cfg_tb, LAcquire "a" cost) in
  [Begin 0 (take 3%Z); Serve 0; Begin 1 (take 1%Z); Tick 6; Begin 0 (take 3%Z); Serve 0; Serve 1; Begin 0 (take 3%Z); Serve 0].

Definition pg_bucket_played : list (pg_entry (RateLimiterConfig * pg_limit_op) (option RateLimitResult)) *
    pg_server rate_rows (RateLimiterConfig * pg_limit_op) :=
  play (pg_limit_exec "") pg_bucket_demo (new_server ∅ 0).

Lemma postgres_bucket_bounds_the_fleet_witness :
  granted_all "a" pg_bucket_played.1 = 6%Z /\
  inject_Z (granted_all "a" pg_bucket_played.1) <= tb_cap cfg_tb + refill_rate cfg_tb * (6 - 0).
Proof.
  split; [by vm_compute|].
  refine (postgres_bucket_bounds_the_fleet "" cfg_tb "a" 0 6 ∅ 0 [] pg_bucket_played.1 pg_bucket_played.2 _ _ _ _).
  - by vm_compute.
  - lra.
  - exact (play_runs (pg_limit_exec "") _ [] _ pg_bucket_demo (runs_start _ _)).
  - assert ((fun e => (pe_call e, pe_start e)) <$> pg_bucket_played.1 =
      [((TokenBucket cfg_tb, LAcquire "a" 3), 0); ((TokenBucket cfg_tb, LAcquire "a" 3), 6);
       ((TokenBucket cfg_tb, LAcquire "a" 1), 0); ((TokenBucket cfg_tb, LAcquire "a" 3), 6)]) as E by (by vm_compute).
    apply (proj1 (Forall_fmap (fun e => (pe_call e, pe_start e)) (fun p =>
      match p with
      | ((TokenBucket c', LAcquire k cost), start) => k = "a"%string -> c' = cfg_tb /\ (0 <= cost)%Z /\ 0 <= start <= 6
      | ((TokenBucket _, LReset k), _) => k <> "a"%string
      | _ => True
      end) pg_bucket_played.1)).
    rewrite E. repeat constructor; vm_compute; discriminate.
Defined.

(** The same request that waited is told that a negative number of tokens is left. *)
Lemma late_request_owes_tokens :
  (fun e => if pe_answer e is Return (Some r) then remaining r else 0%Z) <$> pg_bucket_played.1 = [0; 0; -3; 0]%Z.
Proof. by vm_compute. Qed.
