(* ===== verification/PostgresOutbox.v ===== *)
(** * The outbox in a PostgreSQL table

    [grelmicro/outbox/postgres.py]: the statements of [PostgresOutboxAdapter] and the
    methods that send them, on the server of [Postgres].  A message is staged in the
    caller's transaction; a claim takes due rows that no other transaction holds
    ([FOR UPDATE SKIP LOCKED]) and leases them.  [NOW()] is the instant the transaction
    started at.

    The adapter implements [OutboxBackend], so what [OutboxRelay] proves of the relays
    holds over this table too.  Instants, [make_interval] and [float8] are exact; an id
    is the integer of its [UUID], which is how the server compares two. *)

From S2P Require Import Prelude Errors PyStr OutboxMemory OutboxRelay Postgres.
From Stdlib Require Import Ascii.
From Stdlib Require String.

Local Open Scope Z_scope.

(** [asyncpg.exceptions.UniqueViolationError], [CharacterNotInRepertoireError] and
    [InvalidRowCountInLimitClauseError] *)
Definition unique_violation : exn := mk_exn (UserError 4 Exception_) NoInfo.
Definition invalid_text : exn := mk_exn (UserError 5 Exception_) NoInfo.
Definition negative_limit : exn := mk_exn (UserError 6 Exception_) NoInfo.

(** [_validate_table] *)
Definition is_letter (c : ascii) : bool :=
  let n := code c in (65 <=? n) && (n <=? 90) || (97 <=? n) && (n <=? 122) || (n =? 95).

Definition validate_table (table : string) : outcome exn string :=
  match table with
  | String.String c rest =>
      if is_letter c && forallb (fun c => is_letter c || is_digit c) (String.list_ascii_of_string rest)
      then Return table else Raise (mk_exn ValueError NoInfo)
  | String.EmptyString => Raise (mk_exn ValueError NoInfo)
  end.

(** ** The table *)

Record pg_message : Type := mkPgMessage {
  pm_topic : string;
  pm_key : option string;
  pm_payload : list (string * json);
  pm_headers : list (string * json);
  pm_dedup_key : option string;
  pm_attempts : Z;
  pm_available_at : Q;
  pm_state : row_state;
  pm_last_error : option string;
  pm_delivered_at : option Q;
  pm_created_at : Q;
}.

Abbreviation pg_messages := (gmap Z pg_message).

(** A parameter of type [TEXT] holds no zero byte. *)
Definition has_nul (s : string) : bool := existsb (Ascii.eqb zero) (String.list_ascii_of_string s).
Definition pg_text {T} (s : string) : py T exn unit := if has_nul s then py_raise invalid_text else mret tt.
Definition pg_text_or_null {T} (s : option string) : py T exn unit := if s is Some s then pg_text s else mret tt.
Definition of_outcome {T A} (o : outcome exn A) : py T exn A := fun t => (o, t).

(** [(dedup_key) WHERE dedup_key IS NOT NULL] *)
Definition dedup_conflict (k : option string) (t : pg_messages) : bool :=
  match k with
  | Some _ => existsb (fun p => bool_decide (pm_dedup_key p.2 = k)) (map_to_list t)
  | None => false
  end.

(** [_available_in_seconds], at the client's instant [now] *)
Definition available_in_seconds (r : OutboxRecord) (now : Q) : Q :=
  match ob_available_at r with None => 0 | Some a => py_max 0 (a - now) end%Q.

(** The conditions and assignments of [_SQL_CLAIM] *)
Definition pg_claimable (topics : list string) (now : Q) (m : pg_message) : bool :=
  bool_decide (pm_topic m ∈ topics) &&
  (bool_decide (pm_state m = Pending) || bool_decide (pm_state m = Processing)) &&
  (pm_available_at m <=? now)%py.

Definition pg_claim_before (a b : Z * pg_message) : bool :=
  (pm_available_at a.2 <? pm_available_at b.2)%py ||
  (Qeq_bool (pm_available_at a.2) (pm_available_at b.2) && (a.1 <=? b.1)).
#[local] Instance pg_claim_before_dec a b : Decision (pg_claim_before a b = true) := _.

Definition pg_claimed (lease now : Q) (m : pg_message) : pg_message :=
  mkPgMessage (pm_topic m) (pm_key m) (pm_payload m) (pm_headers m) (pm_dedup_key m) (pm_attempts m + 1)
    (now + lease) Processing (pm_last_error m) (pm_delivered_at m) (pm_created_at m).

(** The rows of the subquery: [locked] are the rows other transactions hold. *)
Definition pg_due (topics : list string) (limit : Z) (now : Q) (locked : list Z) (t : pg_messages) :
    list (Z * pg_message) :=
  take (Z.to_nat limit)
    (filter (fun p => p.1 ∉ locked)
       (merge_sort (fun a b => pg_claim_before a b = true)
          (filter (fun p => pg_claimable topics now p.2 = true) (map_to_list t)))).

Definition pg_take (lease now : Q) (due : list (Z * pg_message)) (t : pg_messages) : pg_messages :=
  fold_left (fun t p => <[p.1 := pg_claimed lease now p.2]> t) due t.

(** [OutboxRecord(id=row["id"], ...)] *)
Definition record_of_row (p : Z * pg_message) : OutboxRecord :=
  mkOutboxRecord p.1 (pm_topic p.2) (pm_payload p.2) (pm_key p.2) (pm_headers p.2) None (pm_attempts p.2) None.

(** [_SQL_CLAIM]: the statement writes all its rows or none, and returns them in
    the order [returning] of the executor. *)
Definition pg_claim_messages (returning : list (Z * pg_message) -> list (Z * pg_message)) (topics : list string) (limit : Z)
    (lease : Q) (locked : list Z) (now : Q) : py pg_messages exn (list OutboxRecord) :=
  if bool_decide (topics = []) then mret []
  else fun t =>
    if limit <? 0 then (Raise negative_limit, t)
    else
      let due := returning (pg_due topics limit now locked t) in
      if forallb (fun p => fits_int (pm_attempts p.2 + 1)) due
      then (Return ((fun p => record_of_row (p.1, pg_claimed lease now p.2)) <$> due), pg_take lease now due t)
      else (Raise out_of_range, t).

(** [WHERE id = $1 AND attempts = $2] *)
Definition pg_at_attempt (id n : Z) (f : pg_message -> option pg_message) : py pg_messages exn unit := fun t =>
  (Return tt,
   match t !! id with
   | Some m => if bool_decide (pm_attempts m = n) then partial_alter (fun _ => f m) id t else t
   | None => t
   end).

(** [complete]: [_SQL_MARK_DELIVERED] or [_SQL_DELETE] *)
Definition pg_complete (id n : Z) (keep : bool) (now : Q) : py pg_messages exn unit :=
  n ← int4 n;
  if keep then
    pg_at_attempt id n (fun m => Some (mkPgMessage (pm_topic m) (pm_key m) (pm_payload m) (pm_headers m)
      (pm_dedup_key m) (pm_attempts m) (pm_available_at m) Delivered None (Some now) (pm_created_at m)))
  else pg_at_attempt id n (fun _ => None).

(** [reschedule]: [_SQL_DEAD] or [_SQL_RETRY] *)
Definition pg_reschedule (id n : Z) (delay : Q) (error : string) (dead : bool) (now : Q) :
    py pg_messages exn unit :=
  n ← int4 n;
  _ ← pg_text error;
  pg_at_attempt id n (fun m => Some
    (if dead
     then mkPgMessage (pm_topic m) (pm_key m) (pm_payload m) (pm_headers m) (pm_dedup_key m) (pm_attempts m)
            (pm_available_at m) Dead (Some error) (pm_delivered_at m) (pm_created_at m)
     else mkPgMessage (pm_topic m) (pm_key m) (pm_payload m) (pm_headers m) (pm_dedup_key m) (pm_attempts m)
            (now + delay) Pending (Some error) (pm_delivered_at m) (pm_created_at m))).

(** [redrive] *)
Definition pg_redrivable (topic : option string) (m : pg_message) : bool :=
  bool_decide (pm_state m = Dead) && match topic with None => true | Some t => bool_decide (pm_topic m = t) end.

Definition pg_redriven (now : Q) (m : pg_message) : pg_message :=
  mkPgMessage (pm_topic m) (pm_key m) (pm_payload m) (pm_headers m) (pm_dedup_key m) 0 now Pending None
    (pm_delivered_at m) (pm_created_at m).

(** [_SQL_REDRIVE], and what it affected *)
Definition pg_redrive_all (topic : option string) (now : Q) : py pg_messages exn Z := fun t =>
  (Return (Z.of_nat (size (filter (fun p => pg_redrivable topic p.2 = true) t))),
   (fun m => if pg_redrivable topic m then pg_redriven now m else m) <$> t).

Definition pg_redrive (topic : option string) (now : Q) : py pg_messages exn Z :=
  _ ← pg_text_or_null topic;
  pg_redrive_all topic now.

(** [purge] *)
Definition pg_purgeable (before : option Q) (states : list row_state) (now : Q) (m : pg_message) : bool :=
  bool_decide (pm_state m ∈ states) &&
  match before with
  | None => true
  | Some seconds => (default (pm_created_at m) (pm_delivered_at m) <? now - seconds)%py
  end.

Definition pg_purge (before : option Q) (states : list row_state) (now : Q) : py pg_messages exn Z := fun t =>
  (Return (Z.of_nat (size (filter (fun p => pg_purgeable before states now p.2 = true) t))),
   filter (fun p => pg_purgeable before states now p.2 = false) t).

(** ** Publishing *)

(** What [publish] may be handed: a pool, a connection of asyncpg, an
    [AsyncSession] or [AsyncConnection] of SQLAlchemy, or anything else. *)
Inductive pg_handle : Type :=
| PoolHandle
| AsyncpgHandle (is_in_transaction : bool)
| SqlAlchemyHandle (in_transaction : bool)
| OtherHandle.

(** The database: the table and how many notifications of the channel were sent. *)
Record pg_outbox : Type := mkPgOutbox { po_table : pg_messages; po_notified : nat }.

(** Inside a transaction: the table, and whether a notification is due.  The server
    folds the notifications of a transaction into one and sends it on commit. *)
Abbreviation pg_open := (pg_messages * bool)%type.

Section Publish.
Context (json_dumps_str : list (string * json) -> outcome exn string).
(** What [_load_object] makes of a text once a [JSONB] column held it. *)
Context (jsonb : string -> outcome exn (list (string * json))).
(** [self._notify] *)
Context (notify : bool).

(** The row of [VALUES], with the defaults of the table *)
Definition pg_staged (r : OutboxRecord) (payload headers : list (string * json)) (delay now : Q) : pg_message :=
  mkPgMessage (ob_topic r) (ob_key r) payload headers (ob_dedup_key r) 0 (now + delay) Pending None None now.

(** [ON CONFLICT (dedup_key) WHERE dedup_key IS NOT NULL DO NOTHING]; an id that is
    taken is an error. *)
Definition pg_insert_row (id : Z) (m : pg_message) : py pg_open exn bool := fun '(t, n) =>
  if dedup_conflict (pm_dedup_key m) t then (Return false, (t, n))
  else if t !! id is Some _ then (Raise unique_violation, (t, n))
  else (Return true, (<[id := m]> t, n)).

(** [_SQL_ENQUEUE], and [_SQL_ENQUEUE_NAMED], which is the same statement *)
Definition pg_insert (r : OutboxRecord) (payload headers : string) (delay now : Q) : py pg_open exn bool :=
  _ ← pg_text (ob_topic r);
  _ ← pg_text_or_null (ob_key r);
  _ ← pg_text_or_null (ob_dedup_key r);
  payload ← of_outcome (jsonb payload);
  headers ← of_outcome (jsonb headers);
  pg_insert_row (ob_id r) (pg_staged r payload headers delay now).

(** [_enqueue_asyncpg] and [_enqueue_sqlalchemy] once the handle passed *)
Definition pg_stage (r : OutboxRecord) (payload headers : string) (delay now : Q) : py pg_open exn bool :=
  inserted ← pg_insert r payload headers delay now;
  _ ← py_modify (fun '(t, n) => (t, n || inserted && notify));
  mret inserted.

(** [enqueue], in a transaction that started at [now], at the client's instant
    [client_now] *)
Definition pg_enqueue (h : pg_handle) (r : OutboxRecord) (client_now now : Q) : py pg_open exn bool :=
  payload ← of_outcome (json_dumps_str (ob_payload r));
  headers ← of_outcome (json_dumps_str (ob_headers r));
  let delay := available_in_seconds r client_now in
  match h with
  | PoolHandle | OtherHandle => py_raise (mk_exn OutboxHandleError NoInfo)
  | AsyncpgHandle false | SqlAlchemyHandle false => py_raise (mk_exn OutboxTransactionError NoInfo)
  | AsyncpgHandle true | SqlAlchemyHandle true => pg_stage r payload headers delay now
  end.

(** The messages a caller publishes in one transaction. *)
Fixpoint pg_publish (ps : list (pg_handle * OutboxRecord * Q)) (now : Q) : py pg_open exn (list bool) :=
  match ps with
  | [] => mret []
  | (h, r, client_now) :: ps =>
      staged ← pg_enqueue h r client_now now;
      rest ← pg_publish ps now;
      mret (staged :: rest)
  end.

(** [async with conn.transaction()]: an exception rolls everything back. *)
Definition pg_transaction {A} (body : py pg_open exn A) : py pg_outbox exn A := fun s =>
  match body (po_table s, false) with
  | (Return a, (t, n)) => (Return a, mkPgOutbox t (if n then S (po_notified s) else po_notified s))
  | (Raise e, _) => (Raise e, s)
  end.
End Publish.

(** A statement sent through the pool is a transaction of its own. *)
Definition pg_statement {A} (m : py pg_messages exn A) : py pg_outbox exn A := fun s =>
  match m (po_table s) with
  | (Return a, t) => (Return a, mkPgOutbox t (po_notified s))
  | (Raise e, _) => (Raise e, s)
  end.

(** ** The listener

    The connection it holds, [_listener_up], and the event [_wake].  Each operation
    answers the connections it gave back to the pool. *)
Record pg_listener : Type := mkPgListener { ln_conn : option nat; ln_up : bool; ln_wake : bool }.

Definition new_listener : pg_listener := mkPgListener None false false.

(** [_open_listener], with the connection of the pool and the answer of
    [add_listener] *)
Definition open_listener (conn : nat) (added : outcome exn unit) (l : pg_listener) :
    outcome exn unit * list nat * pg_listener :=
  match added with
  | Return _ => (Return tt, [], mkPgListener (Some conn) true (ln_wake l))
  | Raise e => (Raise e, [conn], l)
  end.

(** [_close_listener]: what the calls on the connection raise is suppressed. *)
Definition close_listener (l : pg_listener) : list nat * pg_listener :=
  (option_list (ln_conn l), mkPgListener None false (ln_wake l)).

Inductive listener_event : Type := OnNotify | OnListenerLost | WaitNotify.

(** [_on_notify], [_on_listener_lost], and [wait_notify] once it returned *)
Definition listener_step (e : listener_event) (l : pg_listener) : pg_listener :=
  match e with
  | OnNotify => mkPgListener (ln_conn l) (ln_up l) true
  | OnListenerLost => mkPgListener (ln_conn l) false true
  | WaitNotify => if ln_up l then mkPgListener (ln_conn l) (ln_up l) false else l
  end.

(** [wait_notify] returns without waiting. *)
Definition returns_at_once (l : pg_listener) : bool := ln_up l && ln_wake l.

Definition listener_runs (es : list listener_event) (l : pg_listener) : pg_listener :=
  foldl (fun l e => listener_step e l) l es.

Lemma listener_runs_keep es l :
  ln_conn (listener_runs es l) = ln_conn l /\ (ln_up l = false -> ln_up (listener_runs es l) = false).
Proof.
  revert l. induction es as [|e es IH]; intros l; [done|]. destruct (IH (listener_step e l)) as [Hc Hd].
  change (listener_runs (e :: es) l) with (listener_runs es (listener_step e l)). rewrite Hc. split.
  - destruct e; [done..|]. cbn. by destruct (ln_up l).
  - intros Hl. apply Hd. destruct e; [done..|]. cbn. by rewrite Hl.
Qed.

(** Whatever happened to the connection, closing gives it back, and closing again does
    not; once it is lost every wait lasts its timeout. *)
Lemma listener_released conn es :
  let l := listener_runs es (open_listener conn (Return tt) new_listener).2 in
  (close_listener l).1 = [conn] /\ (close_listener (close_listener l).2).1 = [] /\
  (OnListenerLost ∈ es -> returns_at_once l = false).
Proof.
  cbv zeta. set (l0 := (open_listener conn (Return tt) new_listener).2).
  unfold close_listener. cbn [fst snd]. rewrite (proj1 (listener_runs_keep es l0)). split_and!; [done..|].
  intros (es1 & es2 & ->)%list_elem_of_split. unfold listener_runs. rewrite foldl_app.
  change (returns_at_once (listener_runs es2 (listener_step OnListenerLost (listener_runs es1 l0))) = false).
  unfold returns_at_once. by rewrite (proj2 (listener_runs_keep es2 _)).
Qed.

(** ** The store the relay sees *)

Definition row_of (id : Z) (m : pg_message) : Row :=
  mkRow (mkOutboxRecord id (pm_topic m) (pm_payload m) (pm_key m) (pm_headers m) (pm_dedup_key m) 0 None)
    (pm_state m) (pm_attempts m) (pm_available_at m) (pm_created_at m) (pm_last_error m) (pm_delivered_at m).

Definition rows_of (t : pg_messages) : rows := map_imap (fun id m => Some (row_of id m)) t.

Lemma rows_of_lookup t id : rows_of t !! id = row_of id <$> t !! id.
Proof. unfold rows_of. rewrite map_lookup_imap. by destruct (t !! id). Qed.

Lemma rows_of_insert t id m : rows_of (<[id := m]> t) = <[id := row_of id m]> (rows_of t).
Proof.
  apply map_eq. intros j. rewrite rows_of_lookup. destruct (decide (j = id)) as [->|Hne].
  - by rewrite !lookup_insert_eq.
  - by rewrite !lookup_insert_ne, rows_of_lookup by done.
Qed.

Lemma rows_of_delete t id : rows_of (delete id t) = delete id (rows_of t).
Proof.
  apply map_eq. intros j. rewrite rows_of_lookup. destruct (decide (j = id)) as [->|Hne].
  - by rewrite !lookup_delete_eq.
  - by rewrite !lookup_delete_ne, rows_of_lookup by done.
Qed.

Lemma duplicate_rows_of r t : duplicate r (rows_of t) = dedup_conflict (ob_dedup_key r) t.
Proof.
  unfold duplicate, dedup_conflict. destruct (ob_dedup_key r) as [k|]; [|done].
  apply eq_true_iff_eq. rewrite !existsb_exists. unfold has_dedup_key. split.
  - intros ([id row] & Hin & Hk%bool_decide_eq_true). apply list_elem_of_In, elem_of_map_to_list in Hin.
    rewrite rows_of_lookup in Hin. destruct (t !! id) as [m|] eqn:E; [|done]. injection Hin as <-.
    exists (id, m). split; [by apply list_elem_of_In, elem_of_map_to_list|by apply bool_decide_eq_true].
  - intros ([id m] & Hin & Hk%bool_decide_eq_true). apply list_elem_of_In, elem_of_map_to_list in Hin.
    exists (id, row_of id m). split; [|by apply bool_decide_eq_true].
    apply list_elem_of_In, elem_of_map_to_list. by rewrite rows_of_lookup, Hin.
Qed.

(** ** What a claim takes *)

Lemma pg_due_spec topics limit now locked t :
  NoDup (pg_due topics limit now locked t).*1 /\
  (length (pg_due topics limit now locked t) <= Z.to_nat limit)%nat /\
  forall id m, (id, m) ∈ pg_due topics limit now locked t ->
    t !! id = Some m /\ pg_claimable topics now m = true /\ id ∉ locked.
Proof.
  unfold pg_due. set (l := filter (fun p => pg_claimable topics now p.2 = true) (map_to_list t)).
  set (s := merge_sort (fun a b => pg_claim_before a b = true) l).
  assert (s ≡ₚ l) as Hp by apply merge_sort_Permutation.
  set (f := filter (fun p : Z * pg_message => p.1 ∉ locked) s).
  assert (NoDup f.*1) as Hf.
  { apply NoDup_fmap_fst; subst f.
    - intros id m1 m2. rewrite !list_elem_of_filter, Hp. subst l.
      rewrite !list_elem_of_filter, !elem_of_map_to_list. naive_solver.
    - apply NoDup_filter. rewrite Hp. apply NoDup_filter, NoDup_map_to_list. }
  split; [|split; [rewrite length_take; lia|]].
  - rewrite <- (take_drop (Z.to_nat limit) f), fmap_app in Hf. by apply NoDup_app in Hf as [? _].
  - intros id m Hin. eapply elem_of_take in Hin as (i & Hi & _). apply list_elem_of_lookup_2 in Hi.
    subst f. apply list_elem_of_filter in Hi as [Hl Hi]. rewrite Hp in Hi. subst l.
    apply list_elem_of_filter in Hi as [Hc Hi%elem_of_map_to_list]. done.
Qed.

(** With room for every row a claim leaves out none that is due and free. *)
Lemma pg_due_all topics limit now locked t id m :
  t !! id = Some m -> pg_claimable topics now m = true -> id ∉ locked -> Z.of_nat (size t) <= limit ->
  (id, m) ∈ pg_due topics limit now locked t.
Proof.
  intros Hm Hc Hl Hlim. unfold pg_due. rewrite take_ge.
  - apply list_elem_of_filter. split; [done|]. rewrite merge_sort_Permutation. apply list_elem_of_filter.
    split; [done|by apply elem_of_map_to_list].
  - etrans; [apply length_filter|]. rewrite merge_sort_Permutation. etrans; [apply length_filter|].
    rewrite length_map_to_list. lia.
Qed.

Lemma pg_take_rows lease now due t :
  rows_of (pg_take lease now due t) =
  take_rows lease now ((fun p => (p.1, row_of p.1 p.2)) <$> due) (rows_of t).
Proof.
  unfold pg_take, take_rows. revert t. induction due as [|[id m] due IH]; intros t; [done|].
  cbn [fold_left fmap list_fmap fst snd]. by rewrite IH, rows_of_insert.
Qed.

Lemma pg_take_lookup lease now due t id : NoDup due.*1 ->
  pg_take lease now due t !! id =
  match decide (id ∈ due.*1) with
  | left _ => pg_claimed lease now <$> (list_to_map due : pg_messages) !! id
  | right _ => t !! id
  end.
Proof.
  unfold pg_take. revert t. induction due as [|[j m] due IH]; intros t; [done|].
  cbn [fold_left fmap list_fmap fst snd list_to_map foldr uncurry]. intros [Hj Hnd]%NoDup_cons. rewrite IH by done.
  destruct (decide (id ∈ due.*1)) as [Hin|Hout].
  - rewrite decide_True by (by right). rewrite lookup_insert_ne; [done|]. by intros ->.
  - destruct (decide (id = j)) as [->|Hne].
    + rewrite decide_True by (by left). by rewrite !lookup_insert_eq.
    + rewrite decide_False by (by rewrite elem_of_cons; naive_solver). by rewrite lookup_insert_ne.
Qed.

(** ** The adapter is an outbox store *)

Lemma pg_claim_answers returning topics limit lease locked now t :
  (forall l, returning l ≡ₚ l) ->
  let '(res, t') := pg_claim_messages returning topics limit lease locked now t in
  match res with
  | Return records =>
      exists due, due ≡ₚ (if bool_decide (topics = []) then [] else pg_due topics limit now locked t) /\
        records = (fun p => record_of_row (p.1, pg_claimed lease now p.2)) <$> due /\
        t' = pg_take lease now due t
  | Raise _ => t' = t
  end.
Proof.
  intros Hret. unfold pg_claim_messages. destruct (bool_decide (topics = [])); [by exists []|].
  destruct (limit <? 0); [done|]. cbv zeta. destruct (forallb _ _); [|done].
  exists (returning (pg_due topics limit now locked t)). split; [apply Hret|done].
Qed.

Lemma pg_due_claims topics limit now locked t due :
  due ≡ₚ (if bool_decide (topics = []) then [] else pg_due topics limit now locked t) ->
  claims topics limit now (rows_of t) ((fun p => (p.1, row_of p.1 p.2)) <$> due).
Proof.
  intros Hp. destruct (pg_due_spec topics limit now locked t) as (Hnd & Hlen & Hdue).
  assert (((fun p => (p.1, row_of p.1 p.2)) <$> due).*1 = due.*1) as Ek.
  { rewrite <- list_fmap_compose. by apply list_fmap_ext. }
  split.
  - rewrite Ek, Hp. destruct (bool_decide _); [constructor|done].
  - apply Forall_fmap, Forall_forall. intros [id m] Hin. rewrite Hp in Hin.
    destruct (bool_decide _); [by apply elem_of_nil in Hin|]. destruct (Hdue id m Hin) as (Hm & Hc & _).
    cbn. rewrite rows_of_lookup, Hm. done.
  - intros Hl. rewrite length_fmap, Hp. destruct (bool_decide _); cbn; lia.
Qed.

Lemma pg_at_attempt_rows id n f t :
  rows_of (pg_at_attempt id n f t).2 =
  match rows_of t !! id with
  | Some row =>
      if decide (attempts row <> n) then rows_of t
      else if t !! id is Some m then
        match f m with Some m' => <[id := row_of id m']> (rows_of t) | None => delete id (rows_of t) end
      else rows_of t
  | None => rows_of t
  end.
Proof.
  unfold pg_at_attempt. cbn [snd]. rewrite rows_of_lookup. destruct (t !! id) as [m|]; [|done]. cbn.
  destruct (decide (pm_attempts m <> n)) as [Hne|He].
  - by rewrite bool_decide_eq_false_2.
  - rewrite bool_decide_eq_true_2 by (by apply dec_stable). destruct (f m) as [m'|].
    + rewrite <- rows_of_insert. done.
    + rewrite <- rows_of_delete. done.
Qed.

Lemma pg_at_attempt_returns id n f t : pg_at_attempt id n f t = (Return tt, (pg_at_attempt id n f t).2).
Proof. done. Qed.

(** A parameter that does not fit leaves the table as it was. *)
Lemma int4_cases {T A} n (k : Z -> py T exn A) t :
  mbind k (int4 n) t = k n t \/ mbind k (int4 n) t = (Raise out_of_range, t).
Proof. unfold int4. destruct (fits_int n); [by left|by right]. Qed.

Lemma pg_text_cases {T A} s (k : unit -> py T exn A) t :
  mbind k (pg_text s) t = k tt t \/ mbind k (pg_text s) t = (Raise invalid_text, t).
Proof. unfold pg_text. destruct (has_nul s); [by right|by left]. Qed.

Lemma pg_text_or_null_cases {T A} s (k : unit -> py T exn A) t :
  mbind k (pg_text_or_null s) t = k tt t \/ mbind k (pg_text_or_null s) t = (Raise invalid_text, t).
Proof. destruct s as [s|]; [apply pg_text_cases|by left]. Qed.

Lemma of_outcome_cases {T A B} (o : outcome exn A) (k : A -> py T exn B) t :
  (exists a, o = Return a /\ mbind k (of_outcome o) t = k a t) \/
  exists e, mbind k (of_outcome o) t = (Raise e, t).
Proof. destruct o as [a|e]; [left; by exists a|right; by exists e]. Qed.

Section Adapter.
Context (json_dumps_str : list (string * json) -> outcome exn string).
Context (jsonb : string -> outcome exn (list (string * json))).
Context (notify : bool).

(** The guards of a statement: past them, or an exception with the table as it was. *)
Ltac past_guard :=
  match goal with
  | |- context [mbind ?k (pg_text ?s) ?t] => destruct (pg_text_cases s k t) as [->| ->]; [|by left; repeat eexists]
  | |- context [mbind ?k (pg_text_or_null ?s) ?t] =>
      destruct (pg_text_or_null_cases s k t) as [->| ->]; [|by left; repeat eexists]
  | |- context [mbind ?k (of_outcome ?o) ?t] =>
      let a := fresh "a" in let E := fresh "E" in let e := fresh "e" in
      destruct (of_outcome_cases o k t) as [(a & E & ->)|[e ->]]; [|by left; repeat eexists]
  end.

Lemma pg_insert_cases r p q delay now t n :
  let insert := pg_insert jsonb r p q delay now (t, n) in
  (exists e t' n', insert = (Raise e, (t', n'))) \/
  dedup_conflict (ob_dedup_key r) t = true /\ insert = (Return false, (t, n)) \/
  exists payload headers, dedup_conflict (ob_dedup_key r) t = false /\ t !! ob_id r = None /\
    jsonb p = Return payload /\ jsonb q = Return headers /\
    insert = (Return true, (<[ob_id r := pg_staged r payload headers delay now]> t, n)).
Proof.
  cbv zeta. unfold pg_insert. do 5 past_guard. unfold pg_insert_row, pg_staged. cbn [pm_dedup_key].
  destruct (dedup_conflict (ob_dedup_key r) t) eqn:Ed; [right; by left|].
  destruct (t !! ob_id r) eqn:Et; [left; by repeat eexists|]. right. right. by repeat eexists.
Qed.

(** What [enqueue] does to the table. *)
Lemma pg_enqueue_cases h r client_now now t n :
  let enqueue := pg_enqueue json_dumps_str jsonb notify h r client_now now (t, n) in
  (exists e t' n', enqueue = (Raise e, (t', n'))) \/
  dedup_conflict (ob_dedup_key r) t = true /\ enqueue = (Return false, (t, n)) \/
  exists p payload q headers, dedup_conflict (ob_dedup_key r) t = false /\ t !! ob_id r = None /\
    json_dumps_str (ob_payload r) = Return p /\ jsonb p = Return payload /\
    json_dumps_str (ob_headers r) = Return q /\ jsonb q = Return headers /\
    enqueue =
      (Return true,
       (<[ob_id r := pg_staged r payload headers (available_in_seconds r client_now) now]> t, n || notify)).
Proof.
  cbv zeta. unfold pg_enqueue. do 2 past_guard. rename a into p, a0 into q.
  destruct h as [|[]|[]|]; try (left; by repeat eexists).
  all: unfold pg_stage, mbind, py_mbind, py_bind.
  all: destruct (pg_insert_cases r p q (available_in_seconds r client_now) now t n)
    as [(e & t' & n' & ->)|[[Hd ->]|(payload & headers & Hd & Ht & Ep & Eq & ->)]];
    [left; by repeat eexists|right; left; split; [done|]|right; right; exists p, payload, q, headers; by split_and!].
  all: cbn; by rewrite orb_false_r.
Qed.

(** The context of the calls: the offset of the client's clock, the rows that other
    transactions hold, and the order the executor returns rows in. *)
Context (offset : Q) (locked : pg_outbox -> Q -> list Z).
Context (returning : list (Z * pg_message) -> list (Z * pg_message)).
Hypothesis jsonb_keeps : forall o s o',
  json_dumps_str o = Return s -> jsonb s = Return o' -> json_same (JObject o) (JObject o').
Hypothesis returning_all : forall l, returning l ≡ₚ l.

#[local] Obligation Tactic := idtac.

(** A message is published in a transaction of its own, on a connection of asyncpg. *)
Program Definition postgres_outbox : OutboxBackend pg_outbox := {|
  bk_rows s := rows_of (po_table s);
  bk_enqueue r now :=
    pg_transaction (pg_enqueue json_dumps_str jsonb notify (AsyncpgHandle true) r (now + offset) now);
  bk_claim topics limit lease now s :=
    pg_statement (pg_claim_messages returning topics limit lease (locked s now) now) s;
  bk_complete id n keep now := pg_statement (pg_complete id n keep now);
  bk_reschedule id n delay error dead now := pg_statement (pg_reschedule id n delay error dead now);
  bk_redrive topic now := pg_statement (pg_redrive topic now);
  bk_purge before states now := pg_statement (pg_purge before states now);
|}.
Next Obligation.
  intros r now s. unfold pg_transaction.
  destruct (pg_enqueue_cases (AsyncpgHandle true) r (now + offset) now (po_table s) false)
    as [(e & t' & n' & ->)|[[Hd ->]|(p & payload & q & headers & Hd & Ht & Ep & Epl & Eq & Eh & ->)]]; cbn.
  - done.
  - by rewrite duplicate_rows_of.
  - rewrite duplicate_rows_of. split; [done|]. eexists. split; [|apply rows_of_insert].
    repeat (split; try by eapply jsonb_keeps).
Qed.
Next Obligation.
  intros topics limit lease now s. unfold pg_statement.
  pose proof (pg_claim_answers returning topics limit lease (locked s now) now (po_table s) returning_all) as Hc.
  destruct (pg_claim_messages returning topics limit lease (locked s now) now (po_table s)) as [[records|e] t']; cbn.
  - destruct Hc as (due & Hp & -> & ->). exists ((fun p => (p.1, row_of p.1 p.2)) <$> due).
    split; [by eapply pg_due_claims|]. split; [|apply pg_take_rows]. apply Forall2_fmap, Forall_Forall2_diag, Forall_true.
    intros [id m]. repeat (split; try apply json_same_refl).
  - exists []. split; [|by left]. split; [constructor|constructor|cbn; lia].
Qed.
Next Obligation.
  intros id n keep now s. unfold pg_statement, pg_complete.
  match goal with |- context [mbind ?k (int4 n) ?t] => destruct (int4_cases n k t) as [->| ->] end; [|right; by eauto].
  destruct keep; rewrite pg_at_attempt_returns; left; cbn [po_table]; rewrite pg_at_attempt_rows;
    unfold complete_rows; rewrite rows_of_lookup; destruct (po_table s !! id) as [m|]; done.
Qed.
Next Obligation.
  intros id n delay error dead now s. unfold pg_statement, pg_reschedule.
  match goal with |- context [mbind ?k (int4 n) ?t] => destruct (int4_cases n k t) as [->| ->] end; [|right; by eauto].
  match goal with |- context [mbind ?k (pg_text error) ?t] => destruct (pg_text_cases error k t) as [->| ->] end; [|right; by eauto].
  rewrite pg_at_attempt_returns. left. cbn [po_table]. rewrite pg_at_attempt_rows. unfold reschedule_rows.
  rewrite rows_of_lookup. destruct (po_table s !! id) as [m|]; [|done]. cbn. by destruct (decide _), dead.
Qed.
Next Obligation.
  intros topic now s. unfold pg_statement, pg_redrive.
  match goal with |- context [mbind ?k (pg_text_or_null topic) ?t] => destruct (pg_text_or_null_cases topic k t) as [->| ->] end; [|right; by eauto].
  left. cbn. apply map_eq. intros id. unfold redrive_rows. rewrite rows_of_lookup, !lookup_fmap, rows_of_lookup.
  destruct (po_table s !! id) as [m|]; [|done]. cbn. unfold pg_redrivable, redrivable. cbn. by destruct (_ && _).
Qed.
Next Obligation.
  intros before states now s. left. cbn. apply map_eq. intros id. unfold purge_rows. rewrite rows_of_lookup.
  rewrite !map_lookup_filter, rows_of_lookup. destruct (po_table s !! id) as [m|]; [|done]. cbn.
  unfold pg_purgeable, purgeable. cbn. by destruct (_ && _).
Qed.

(** What the relays were proved to do over any store they do over this one: no message
    of the table is lost. *)
Lemma postgres_outbox_loses_nothing {Model Data : Type} (model_name : Model -> string)
    (model_topic : Model -> option string) (validate_python : Model -> list (string * json) -> outcome string Data)
    (s s' : outbox_system) id :
  outbox_init (BK := postgres_outbox) s ->
  rtc (relay_step (BK := postgres_outbox) model_name model_topic validate_python) s s' ->
  id ∈ os_published s' ->
  message_kept (rows_of (po_table (os_store s'))) (os_finished s') (os_discarded s') id.
Proof. intros H0 Hs. exact (lo_kept _ (relay_steps_loss model_name model_topic validate_python s s' H0 Hs) id). Qed.

(** A message that was staged comes back, with the content it was published with, to
    the first claim that has room for every row once it is available. *)
Lemma published_message_comes_back h r client_now now s s' topics limit lease held start :
  pg_transaction (pg_enqueue json_dumps_str jsonb notify h r client_now now) s = (Return true, s') ->
  ob_topic r ∈ topics -> ob_id r ∉ held -> (now + available_in_seconds r client_now <= start)%Q ->
  Z.of_nat (size (po_table s')) <= limit ->
  map_Forall (fun _ m => fits_int (pm_attempts m + 1) = true) (po_table s') ->
  exists records, (pg_claim_messages returning topics limit lease held start (po_table s')).1 = Return records /\
    exists r', r' ∈ records /\ same_message r r' /\ ob_attempts r' = 1.
Proof.
  intros E Ht Hheld Hav Hlim Hfits. unfold pg_transaction in E.
  destruct (pg_enqueue_cases h r client_now now (po_table s) false)
    as [(e & t' & n' & Ee)|[[_ Ee]|(p & payload & q & headers & _ & _ & Ep & Epl & Eq & Eh & Ee)]];
    rewrite Ee in E; [done..|]. injection E as <-. cbn [po_table] in *.
  set (m := pg_staged r payload headers (available_in_seconds r client_now) now) in *.
  set (t := <[ob_id r := m]> (po_table s)) in *.
  assert ((ob_id r, m) ∈ returning (pg_due topics limit start held t)) as Hdue.
  { rewrite returning_all. apply pg_due_all; [by apply lookup_insert_eq| |done..].
    unfold pg_claimable. cbn. rewrite bool_decide_eq_true_2 by done. cbn. by apply Qle_bool_iff. }
  unfold pg_claim_messages. rewrite bool_decide_eq_false_2 by (intros ->; by apply elem_of_nil in Ht).
  rewrite (proj2 (Z.ltb_ge limit 0)) by lia.
  assert (forallb (fun p => fits_int (pm_attempts p.2 + 1)) (returning (pg_due topics limit start held t)) = true) as ->.
  { apply forallb_forall. intros [i m'] Hi%list_elem_of_In. rewrite returning_all in Hi.
    apply pg_due_spec in Hi as (Hi & _). by apply (Hfits i m'). }
  eexists. split; [reflexivity|]. exists (record_of_row (ob_id r, pg_claimed lease start m)). split.
  - apply list_elem_of_fmap. by exists (ob_id r, m).
  - repeat (split; try by eapply jsonb_keeps).
Qed.
End Adapter.

(** ** An error that cannot be recorded

    The text of an exception may hold a zero byte, which a [TEXT] column does not: the
    failure is not settled, so a message that is cancelled or exhausted stays leased,
    and is claimed again when the lease runs out. *)
Lemma unrecordable_error_settles_nothing id n delay error dead now s :
  has_nul error = true ->
  (pg_statement (pg_reschedule id n delay error dead now) s).2 = s.
Proof.
  intros Hn. unfold pg_statement, pg_reschedule, pg_text. rewrite Hn.
  unfold int4. by destruct (fits_int n).
Qed.

(** ** Many processes over one table *)

Inductive pg_outbox_call : Type :=
| PublishAll (messages : list (pg_handle * OutboxRecord * Q))
| Claim (topics : list string) (limit : Z) (lease : Q) (locked : list Z)
| Complete (id n : Z) (keep : bool)
| Reschedule (id n : Z) (delay : Q) (error : string) (dead : bool)
| Redrive (topic : option string)
| Purge (before : option Q) (states : list row_state).

Inductive pg_outbox_answer : Type :=
| Staged (staged : list bool)
| Claimed (records : list OutboxRecord)
| Settled
| Affected (rows : Z).

Section Fleet.
Context (json_dumps_str : list (string * json) -> outcome exn string).
Context (jsonb : string -> outcome exn (list (string * json))).
Context (notify : bool).
Context (returning : list (Z * pg_message) -> list (Z * pg_message)).
Hypothesis returning_all : forall l, returning l ≡ₚ l.

Definition pg_outbox_exec (k : pg_outbox_call) (start now : Q) : py pg_outbox exn pg_outbox_answer :=
  match k with
  | PublishAll ps =>
      staged ← pg_transaction (pg_publish json_dumps_str jsonb notify ps start);
      mret (Staged staged)
  | Claim topics limit lease locked =>
      records ← pg_statement (pg_claim_messages returning topics limit lease locked start);
      mret (Claimed records)
  | Complete id n keep => _ ← pg_statement (pg_complete id n keep start); mret Settled
  | Reschedule id n delay error dead => _ ← pg_statement (pg_reschedule id n delay error dead start); mret Settled
  | Redrive topic => n ← pg_statement (pg_redrive topic start); mret (Affected n)
  | Purge before states => n ← pg_statement (pg_purge before states start); mret (Affected n)
  end.

(** A message is leased: attempt [n] may deliver it until [until]. *)
Definition pg_leased (id n : Z) (until : Q) (t : pg_messages) : Prop :=
  exists m, t !! id = Some m /\ pm_state m = Processing /\ pm_attempts m = n /\ pm_available_at m = until.

(** What [pg_publish] leaves of the rows that were there. *)
Lemma pg_publish_keeps ps now t n res t' n' id m :
  pg_publish json_dumps_str jsonb notify ps now (t, n) = (Return res, (t', n')) ->
  t !! id = Some m -> t' !! id = Some m.
Proof.
  revert t n res. induction ps as [|[[h r] client_now] ps IH]; intros t n res; [by intros [= _ <- _]|].
  cbn [pg_publish]. unfold mbind, py_mbind, py_bind.
  destruct (pg_enqueue_cases json_dumps_str jsonb notify h r client_now now t n)
    as [(e & t1 & n1 & ->)|[[_ ->]|(p & payload & q & headers & _ & Hnone & _ & _ & _ & _ & ->)]]; [done| |].
  - destruct (pg_publish _ _ _ ps now (t, n)) as [[rest|e] [t2 n2]] eqn:E; [|done].
    intros [= _ <- <-]. by eapply IH.
  - destruct (pg_publish _ _ _ ps now _) as [[rest|e] [t2 n2]] eqn:E; [|done].
    intros [= _ <- <-] Hm. eapply IH; [exact E|]. rewrite lookup_insert_ne; [done|]. intros <-. congruence.
Qed.

(** The calls that may touch a leased message. *)
Definition respects_lease (id n : Z) (until : Q) (e : pg_entry pg_outbox_call pg_outbox_answer) : Prop :=
  match pe_call e with
  | Claim _ _ _ _ => (pe_start e < until)%Q
  | Complete i k _ | Reschedule i k _ _ _ => ~ (i = id /\ k = n)
  | Purge _ states => Processing ∉ states
  | _ => True
  end.

(** The answer to a claim has nothing of a message. *)
Definition claims_not (id : Z) (e : pg_entry pg_outbox_call pg_outbox_answer) : Prop :=
  match pe_answer e with
  | Return (Claimed records) => id ∉ ob_id <$> records
  | _ => True
  end.

Lemma pg_at_attempt_keeps id n f t id' m : t !! id' = Some m -> ~ (id = id' /\ n = pm_attempts m) ->
  (pg_at_attempt id n f t).2 !! id' = Some m.
Proof.
  intros Hm Hne. cbn. destruct (decide (id = id')) as [->|Hid].
  - rewrite Hm. rewrite bool_decide_eq_false_2; [done|]. intros <-. by apply Hne.
  - destruct (t !! id); [|done]. destruct (bool_decide _); [|done]. by rewrite lookup_partial_alter_ne.
Qed.

Lemma pg_statement_cases {A B} (st : py pg_messages exn A) (f : A -> B) s :
  let call := mbind (fun a => mret (f a)) (pg_statement st) s in
  (exists e, call = (Raise e, s)) \/
  exists a t, st (po_table s) = (Return a, t) /\ call = (Return (f a), mkPgOutbox t (po_notified s)).
Proof.
  cbv zeta. unfold mbind, py_mbind, py_bind, pg_statement.
  destruct (st (po_table s)) as [[a|e] t] eqn:E; [right; by exists a, t|left; by exists e].
Qed.

Lemma pg_claim_leaves topics limit lease locked start t records t' id n until :
  pg_claim_messages returning topics limit lease locked start t = (Return records, t') ->
  pg_leased id n until t -> (start < until)%Q -> (id ∉ ob_id <$> records) /\ pg_leased id n until t'.
Proof.
  intros E (m & Hm & Hst & Hn & Hav) Hlt.
  pose proof (pg_claim_answers returning topics limit lease locked start t returning_all) as Hc.
  rewrite E in Hc. destruct Hc as (due & Hp & -> & ->).
  destruct (pg_due_spec topics limit start locked t) as (Hnd & _ & Hdue).
  assert (NoDup due.*1) as Hnd' by (rewrite Hp; destruct (bool_decide _); [constructor|done]).
  assert (id ∉ due.*1) as Hout.
  { intros ([i m'] & -> & Hin)%list_elem_of_fmap. rewrite Hp in Hin.
    destruct (bool_decide _); [by apply elem_of_nil in Hin|]. destruct (Hdue _ _ Hin) as (Hm' & Hcl & _).
    cbn in Hm. rewrite Hm' in Hm. injection Hm as ->. unfold pg_claimable in Hcl.
    apply andb_true_iff in Hcl as [_ Hle%Qle_bool_iff]. rewrite Hav in Hle. lra. }
  split.
  - rewrite <- list_fmap_compose. done.
  - exists m. rewrite pg_take_lookup by done. by rewrite decide_False.
Qed.

Lemma pg_at_attempt_leased i k f t id n until : pg_leased id n until t -> ~ (i = id /\ k = n) ->
  pg_leased id n until (pg_at_attempt i k f t).2.
Proof.
  intros (m & Hm & Hst & Hn & Hav) Hne. exists m. split; [|done]. apply pg_at_attempt_keeps; [done|].
  by rewrite Hn.
Qed.

Lemma pg_settles i k f (st : py pg_messages exn unit) t u t' id n until :
  (st t = pg_at_attempt i k f t \/ exists e, st t = (Raise e, t)) -> st t = (Return u, t') ->
  pg_leased id n until t -> ~ (i = id /\ k = n) -> pg_leased id n until t'.
Proof.
  intros [E|[e E]] E' Hl Hne; rewrite E in E'; [|done]. rewrite pg_at_attempt_returns in E'.
  injection E' as _ <-. by apply pg_at_attempt_leased.
Qed.

Lemma pg_complete_settles id n keep now t :
  exists f, pg_complete id n keep now t = pg_at_attempt id n f t \/ exists e, pg_complete id n keep now t = (Raise e, t).
Proof.
  unfold pg_complete.
  match goal with |- context [mbind ?k (int4 n)] => destruct (int4_cases n k t) as [->| ->] end;
    [|by exists (fun _ => None); right; eexists].
  destruct keep; eexists; by left.
Qed.

Lemma pg_reschedule_settles id n delay error dead now t :
  exists f, pg_reschedule id n delay error dead now t = pg_at_attempt id n f t \/
    exists e, pg_reschedule id n delay error dead now t = (Raise e, t).
Proof.
  unfold pg_reschedule.
  match goal with |- context [mbind ?k (int4 n)] => destruct (int4_cases n k t) as [->| ->] end;
    [|by exists (fun _ => None); right; eexists].
  match goal with |- context [mbind ?k (pg_text error)] => destruct (pg_text_cases error k t) as [->| ->] end;
    [|by exists (fun _ => None); right; eexists].
  eexists. by left.
Qed.

Lemma pg_claim_leases topics limit lease locked start t records t' :
  pg_claim_messages returning topics limit lease locked start t = (Return records, t') ->
  NoDup (ob_id <$> records) /\
  forall r, r ∈ records -> pg_leased (ob_id r) (ob_attempts r) (start + lease) t'.
Proof.
  intros E. pose proof (pg_claim_answers returning topics limit lease locked start t returning_all) as Hc.
  rewrite E in Hc. destruct Hc as (due & Hp & -> & ->).
  assert (NoDup due.*1) as Hnd.
  { rewrite Hp. destruct (bool_decide _); [constructor|apply pg_due_spec]. }
  split; [by rewrite <- list_fmap_compose|].
  intros r ([id m] & -> & Hin)%list_elem_of_fmap. exists (pg_claimed lease start m). split; [|done].
  rewrite pg_take_lookup by done. rewrite decide_True by (by apply list_elem_of_fmap; exists (id, m)).
  cbn [ob_id record_of_row fst]. by rewrite (proj1 (elem_of_list_to_map due id m Hnd)).
Qed.

Lemma pg_leased_step id n until conn k start now s :
  pg_leased id n until (po_table s) ->
  respects_lease id n until (mkEntry conn k start now (pg_outbox_exec k start now s).1) ->
  pg_leased id n until (po_table (pg_outbox_exec k start now s).2) /\
  claims_not id (mkEntry conn k start now (pg_outbox_exec k start now s).1).
Proof.
  intros Hl Hok. unfold respects_lease, claims_not in *. cbn [pe_call pe_start pe_answer] in *.
  destruct k as [ps|topics limit lease locked|i k keep|i k delay error dead|topic|before states]; cbn [pg_outbox_exec].
  - unfold mbind, py_mbind, py_bind, pg_transaction.
    destruct (pg_publish _ _ _ ps start _) as [[res|e] [t' n']] eqn:E; [|done]. cbn. split; [|done].
    destruct Hl as (m & Hm & ?). exists m. split; [|done]. by eapply pg_publish_keeps.
  - destruct (pg_statement_cases (pg_claim_messages returning topics limit lease locked start) Claimed s)
      as [[e ->]|(records & t & E & ->)]; [done|]. cbn. apply and_comm. by eapply pg_claim_leaves.
  - destruct (pg_statement_cases (pg_complete i k keep start) (fun _ => Settled) s) as [[e ->]|(u & t & E & ->)]; [done|].
    split; [|done]. destruct (pg_complete_settles i k keep start (po_table s)) as [f Hf]. by eapply pg_settles.
  - destruct (pg_statement_cases (pg_reschedule i k delay error dead start) (fun _ => Settled) s)
      as [[e ->]|(u & t & E & ->)]; [done|].
    split; [|done]. destruct (pg_reschedule_settles i k delay error dead start (po_table s)) as [f Hf].
    by eapply pg_settles.
  - destruct (pg_statement_cases (pg_redrive topic start) Affected s) as [[e ->]|(c & t & E & ->)]; [done|].
    split; [|done]. unfold pg_redrive in E. revert E.
    match goal with |- context [mbind ?k (pg_text_or_null topic)] =>
      destruct (pg_text_or_null_cases topic k (po_table s)) as [->| ->] end; [|done].
    intros [= _ <-]. destruct Hl as (m & Hm & Hst & ?). exists m. split; [|done]. cbn.
    rewrite lookup_fmap, Hm. cbn. unfold pg_redrivable. by rewrite Hst.
  - cbn. split; [|done]. destruct Hl as (m & Hm & Hst & ?). exists m. split; [|done].
    apply map_lookup_filter_Some. split; [done|]. cbn. unfold pg_purgeable.
    by rewrite bool_decide_eq_false_2 by (by rewrite Hst).
Qed.

Lemma pg_lease_stands id n until hi s h hi' s' :
  pg_continues pg_outbox_exec hi s h hi' s' -> pg_leased id n until (po_table s) ->
  Forall (respects_lease id n until) h -> Forall (claims_not id) h /\ pg_leased id n until (po_table s').
Proof.
  induction 1 as [|hi s conn k start now h hi' s' _ _ _ IH]; intros Hl; [done|].
  intros [He Hok]%Forall_cons. destruct (pg_leased_step _ _ _ conn _ _ _ _ Hl He) as [Hl' Hc].
  destruct (IH Hl' Hok). split; [by constructor|done].
Qed.

(** C40 (safety): any number of relays over one table, whatever the interleaving of their
    transactions and whatever rows other transactions hold.  The messages of a claim are
    distinct, and each is leased until the claim's start plus its lease: as long as its
    own attempt is not settled, no transaction that started before the lease ran out
    claims it again, and it stays leased. *)
Theorem postgres_claims_are_disjoint s0 lo h1 g h2 s topics limit lease locked records :
  server_runs pg_outbox_exec (new_server s0 lo) (h1 ++ g :: h2) s ->
  pe_call g = Claim topics limit lease locked -> pe_answer g = Return (Claimed records) ->
  NoDup (ob_id <$> records) /\
  forall r, r ∈ records ->
    Forall (respects_lease (ob_id r) (ob_attempts r) (pe_start g + lease)) h2 ->
    Forall (claims_not (ob_id r)) h2 /\
    pg_leased (ob_id r) (ob_attempts r) (pe_start g + lease) (po_table (pg_tables s)).
Proof.
  intros (hi & Hs%serial_continues & _)%server_serial Ek Ea.
  apply continues_app in Hs as (mid & u & _ & Hs). inversion Hs as [|? ? conn k start now ? ? ? _ _ Hc]; subst.
  cbn [pe_call pe_answer pe_start] in *. subst k. cbn [pg_outbox_exec] in *.
  destruct (pg_statement_cases (pg_claim_messages returning topics limit lease locked start) Claimed u)
    as [[e E]|(records' & t & E & Er)]; [by rewrite E in Ea|].
  rewrite Er in Ea, Hc. injection Ea as ->. destruct (pg_claim_leases _ _ _ _ _ _ _ _ E) as [Hnd Hl].
  split; [done|]. intros r Hr. by apply (pg_lease_stands _ _ _ _ _ _ _ _ Hc), Hl.
Qed.
End Fleet.

(** ** A run

    Two messages; the second relay starts its claim with the first and is served
    later, a stale failure arrives, and a third claim starts just before the lease of the
    first runs out. *)
Definition pg_demo_codec (o : list (string * json)) : outcome exn string :=
  match o with [] => Return "{}" | _ => Raise (mk_exn TypeError NoInfo) end.
Definition pg_demo_jsonb (s : string) : outcome exn (list (string * json)) :=
  if decide (s = "{}") then Return [] else Raise invalid_text.

Definition pg_demo_message (id : Z) : OutboxRecord := mkOutboxRecord id "mail" [] None [] None 0 None.

Definition pg_outbox_demo : list (server_event (K := pg_outbox_call)) :=
  [Begin 0 (PublishAll [(AsyncpgHandle true, pg_demo_message 1, 0%Q); (AsyncpgHandle true, pg_demo_message 2, 0%Q)]); Serve 0;
   Begin 0 (Claim ["mail"] 1 30 []); Begin 1 (Claim ["mail"] 5 30 []); Serve 0; Tick 5; Serve 1;
   Begin 2 (Reschedule 1 0 0 "late" false); Serve 2; Tick 29; Begin 2 (Claim ["mail"] 5 30 []); Serve 2].

Definition pg_outbox_played :
    list (pg_entry pg_outbox_call pg_outbox_answer) * pg_server pg_outbox pg_outbox_call :=
  play (pg_outbox_exec pg_demo_codec pg_demo_jsonb true id) pg_outbox_demo (new_server (mkPgOutbox ∅ 0) 0).

Definition claimed_ids (e : pg_entry pg_outbox_call pg_outbox_answer) : option (list (Z * Z)) :=
  match pe_answer e with
  | Return (Claimed records) => Some ((fun r => (ob_id r, ob_attempts r)) <$> records)
  | _ => None
  end.

Lemma pg_outbox_played_claims :
  claimed_ids <$> pg_outbox_played.1 = [None; Some [(1, 1)]; Some [(2, 1)]; None; Some []].
Proof. by vm_compute. Qed.

Lemma postgres_claims_are_disjoint_witness :
  claimed_ids <$> last pg_outbox_played.1 = Some (Some []) /\
  pg_leased 1 1 30 (po_table (pg_tables pg_outbox_played.2)).
Proof.
  split; [by vm_compute|].
  assert (exists h1 g h2 records r, pg_outbox_played.1 = h1 ++ g :: h2 /\
    pe_call g = Claim ["mail"] 1 30 [] /\ pe_answer g = Return (Claimed records) /\ r ∈ records /\
    ob_id r = 1 /\ ob_attempts r = 1 /\ (pe_start g + 30 = 30)%Q /\ Forall (respects_lease 1 1 30) h2)
    as (h1 & g & h2 & records & r & E & Ek & Ea & Hr & Hid & Hn & Hu & Hok).
  { eexists [_], _, _, _, _. split; [vm_compute; reflexivity|]. split_and!; [done|done|by left|done..|].
    repeat constructor; vm_compute; intuition discriminate. }
  pose proof (play_runs (pg_outbox_exec pg_demo_codec pg_demo_jsonb true id) _ [] _ pg_outbox_demo
    (runs_start _ (new_server (mkPgOutbox ∅ 0) 0))) as Hs.
  change (server_runs (pg_outbox_exec pg_demo_codec pg_demo_jsonb true id) (new_server (mkPgOutbox ∅ 0) 0)
    pg_outbox_played.1 pg_outbox_played.2) in Hs.
  rewrite E in Hs.
  destruct (postgres_claims_are_disjoint pg_demo_codec pg_demo_jsonb true id (fun l => reflexivity l) _ _ _ _ _ _ _ _ _ _ _ Hs Ek Ea)
    as [_ H].
  specialize (H r Hr). rewrite Hid, Hn, Hu in H. by apply H.
Defined.

(** The hypotheses on the codec hold of one. *)
Lemma pg_demo_codec_keeps o s o' :
  pg_demo_codec o = Return s -> pg_demo_jsonb s = Return o' -> json_same (JObject o) (JObject o').
Proof. destruct o; [|done]. intros [= <-]. intros [= <-]. done. Qed.
