(* ===== verification/PostgresCache.v ===== *)
(** * The cache in a PostgreSQL table

    [grelmicro/cache/postgres.py]: the tables have the columns of the ones in a SQLite
    file, so [cache_tables] and what a statement does to them are those of [SqliteCache].
    What differs is here: each call is a transaction of [Postgres] with the expiries
    reckoned by [NOW()], one statement deletes by any of several tags, and [LIKE] tells
    the case of letters.

    A call takes its locks at once: the waiting of [set_many] for several rows is not
    modelled.  [TEXT] parameters are taken to hold no zero byte. *)

From S2P Require Import Prelude Errors PyStr CacheMemory TTLCache SqliteCache Postgres.
From Stdlib Require Import Ascii String.

Local Open Scope Z_scope.

(** PostgreSQL's [LIKE] *)
Definition pg_like (s p : string) : bool :=
  match like_pattern p with Some l => like_match Ascii.eqb l s | None => false end.

(** [_SQL_DELETE_BY_TAGS] *)
Definition delete_by_tags (tags : list string) (t : cache_tables) : cache_tables :=
  delete_where (fun key _ => existsb (fun tag => bool_decide ((key, tag) ∈ ct_tags t)) tags) t.

(** [_SQL_CLEAR_PREFIX] *)
Definition pg_clear_prefix (pattern : string) : cache_tables -> cache_tables :=
  delete_where (fun key _ => pg_like key pattern).

(** ** [PostgresCacheAdapter] *)

Section Adapter.
Context (prefix : string).

(** [get] *)
Definition pgc_get (key : string) (now : Q) : py cache_tables exn (option bytes) := fun t =>
  (Return (select_value (prefixed prefix key) now t), t).

(** The statements for one key of [set] and [set_many] *)
Definition pgc_store (key : string) (value : bytes) (ttl : Q) (tags : list string) (now : Q) :
    py cache_tables exn unit :=
  _ ← py_modify (upsert_value (prefixed prefix key) value (now + ttl));
  _ ← py_modify (delete_tags_of_key (prefixed prefix key));
  if bool_decide (tags = []) then mret tt else py_modify (insert_tags (prefixed prefix key) tags).

Fixpoint pgc_store_all (items : list (string * bytes)) (ttl : Q) (tags : list string) (now : Q) :
    py cache_tables exn unit :=
  match items with
  | [] => mret tt
  | (key, value) :: items =>
      _ ← pgc_store key value ttl tags now;
      pgc_store_all items ttl tags now
  end.

(** [get_many] *)
Definition pgc_get_many (keys : list string) (now : Q) : py cache_tables exn (gmap string bytes) :=
  if bool_decide (keys = []) then mret ∅
  else fun t => (Return (foldl (add_row prefix) ∅ (select_values (prefixed prefix <$> keys) now t)), t).

(** [set_many] *)
Definition pgc_set_many (items : list (string * bytes)) (ttl : Q) (tags : list string) (now : Q) :
    py cache_tables exn unit :=
  if bool_decide (items = []) then mret tt else pgc_store_all items ttl tags now.

(** [delete], [delete_many] and [delete_tags] *)
Definition pgc_delete (key : string) : py cache_tables exn unit := py_modify (delete_keys [prefixed prefix key]).
Definition pgc_delete_many (keys : list string) : py cache_tables exn unit :=
  if bool_decide (keys = []) then mret tt else py_modify (delete_keys (prefixed prefix <$> keys)).
Definition pgc_delete_tags (tags : list string) : py cache_tables exn unit :=
  if bool_decide (tags = []) then mret tt else py_modify (delete_by_tags tags).

(** [clear] *)
Definition pgc_clear : py cache_tables exn unit :=
  if bool_decide (prefix = "") then py_modify clear_all
  else py_modify (pg_clear_prefix (escape_like prefix +:+ "%")).
End Adapter.

(** One turn of [_janitor_loop] *)
Definition pgc_janitor (chose : list string) (now : Q) : py cache_tables exn unit :=
  py_modify (janitor_rows chose (now - 3600) _JANITOR_LIMIT).

(** The calls of the adapters that share the tables. *)
Definition pg_cache_exec (o : shared_op) (start now : Q) : py cache_tables exn cache_result :=
  atomically
    match o with
    | Cached p (CGet key) => v ← pgc_get p key start; mret (CValue v)
    | Cached p (CSet key value ttl tags) => _ ← pgc_store p key value ttl tags start; mret CNone
    | Cached p (CGetMany keys) => m ← pgc_get_many p keys start; mret (CFound m)
    | Cached p (CSetMany items ttl tags) => _ ← pgc_set_many p items ttl tags start; mret CNone
    | Cached p (CDelete key) => _ ← pgc_delete p key; mret CNone
    | Cached p (CDeleteMany keys) => _ ← pgc_delete_many p keys; mret CNone
    | Cached p (CDeleteTags tags) => _ ← pgc_delete_tags tags; mret CNone
    | Cached p CClear => _ ← pgc_clear p; mret CNone
    | Swept chose => _ ← pgc_janitor chose start; mret CNone
    end.

(** ** [LIKE] with an escaped prefix *)

(** The pattern [clear] makes matches the keys that begin with the prefix. *)
Lemma pg_like_escaped_prefix p s :
  pg_like s (escape_like p +:+ "%") = true <-> exists b, s = p +:+ b.
Proof.
  unfold pg_like. rewrite like_pattern_prefix. revert s. induction p as [|c p IH]; intros s; cbn [chars fmap list_fmap app].
  - rewrite like_any. split; [|done]. intros _. by exists s.
  - destruct s as [|d s]; cbn [like_match].
    + split; [done|]. by intros (b & E).
    + rewrite andb_true_iff, Ascii.eqb_eq, IH. split.
      * intros (<- & b & ->). by exists b.
      * intros (b & E). injection E as <- ->. split; [done|]. by exists b.
Qed.

(** ** One dictionary *)

Definition begins_with (p key : string) : Prop := exists b, key = p +:+ b.
#[global] Instance begins_with_dec p key : Decision (begins_with p key).
Proof.
  refine (cast_if (decide (pg_like key (escape_like p +:+ "%") = true)));
    unfold begins_with; by rewrite <- pg_like_escaped_prefix.
Defined.

(** What a call does to the one dictionary: a clear takes the keys that begin with its
    prefix; the other calls do what they do of a SQLite file, at the instant their
    transaction started. *)
Definition pg_cache_do (o : shared_op) (start now : Q) (m : entries) : outcome exn cache_result * entries :=
  match o with
  | Cached p CClear => (Return CNone, filter (fun e => ~ begins_with p e.1) m)
  | _ => let '(r, m) := shared_do o start m in (Return r, m)
  end.

Lemma pgc_store_row p key value ttl tags now t :
  pgc_store p key value ttl tags now t = (Return tt, store_row (prefixed p key) value (now + ttl) tags t).
Proof.
  unfold pgc_store, store_row, insert_tags, mbind, py_mbind, py_bind, py_modify, py_get, py_put.
  destruct tags as [|tag tags]; cbn; [|done]. unfold delete_tags_of_key, upsert_value. cbn. do 2 f_equal. set_solver.
Qed.

Lemma pgc_store_all_rows p items ttl tags now t :
  exists t', pgc_store_all p items ttl tags now t = (Return tt, t') /\
    table_entries t' =
      fold_left (fun m item => spec_put (prefixed p item.1) item.2 (now + ttl) tags m) items (table_entries t) /\
    (tags_have_rows t -> tags_have_rows t').
Proof.
  revert t. induction items as [|[key value] items IH]; intros t; [by exists t|].
  destruct (IH (store_row (prefixed p key) value (now + ttl) tags t)) as (t' & E & H & Ht).
  exists t'. cbn [pgc_store_all]. unfold mbind, py_mbind, py_bind. rewrite pgc_store_row. split; [done|].
  split; [by rewrite H, store_row_entries|]. intros Hr. by apply Ht, store_row_tags.
Qed.

Lemma delete_by_tags_entries tags t :
  table_entries (delete_by_tags tags t) = spec_delete_tags tags (table_entries t).
Proof.
  apply delete_where_filter. intros k v e _. cbn. rewrite <- not_true_iff_false, existsb_exists. split.
  - intros H tag Ht Hin. apply H. exists tag. split; [by apply elem_of_list_to_set, list_elem_of_In in Hin|].
    apply bool_decide_eq_true. by apply elem_of_tags_of.
  - intros H (tag & Hin & Ht%bool_decide_eq_true). apply (H tag); [by apply elem_of_tags_of|].
    by apply elem_of_list_to_set, list_elem_of_In.
Qed.

(** A call does to the tables what it does to the dictionary. *)
Lemma pg_cache_exec_do o start now t :
  (pg_cache_exec o start now t).1 = (pg_cache_do o start now (table_entries t)).1 /\
  table_entries (pg_cache_exec o start now t).2 = (pg_cache_do o start now (table_entries t)).2 /\
  (tags_have_rows t -> tags_have_rows (pg_cache_exec o start now t).2).
Proof.
  unfold pg_cache_exec, atomically.
  destruct o as [p [key|key value ttl tags|keys|items ttl tags|key|keys|tags|]|chose]; cbn [pg_cache_do shared_do];
    unfold mbind, py_mbind, py_bind.
  - cbn. by rewrite select_value_seen, table_entries_lookup.
  - rewrite pgc_store_row. cbn. rewrite store_row_entries. split_and!; [done..|]. apply store_row_tags.
  - unfold pgc_get_many. case_bool_decide as Ek; [by subst|]. cbn. by rewrite found_rows.
  - unfold pgc_set_many. case_bool_decide as Ei; [by subst|].
    destruct (pgc_store_all_rows p items ttl tags start t) as (t' & -> & E & Ht'). cbn. by rewrite E; auto.
  - cbn. rewrite delete_keys_filter. split_and!; [done..|]. apply delete_where_tags.
  - unfold pgc_delete_many. case_bool_decide as Ek.
    + subst. cbn. split_and!; [done| |done]. symmetry. apply map_filter_id. intros k e _. cbn. apply not_elem_of_nil.
    + cbn. rewrite delete_keys_filter. split_and!; [done..|]. apply delete_where_tags.
  - unfold pgc_delete_tags. case_bool_decide as Ek.
    + subst. cbn. split_and!; [done| |done]. symmetry. apply map_filter_id. intros k e _. cbn. set_solver.
    + cbn. rewrite delete_by_tags_entries. split_and!; [done..|]. apply delete_where_tags.
  - unfold pgc_clear. case_bool_decide as Ep.
    + subst. cbn. split_and!; [done| |apply delete_where_tags]. apply delete_where_filter. intros k v e _. cbn.
      split; [done|]. intros H. exfalso. apply H. by exists k.
    + cbn. split_and!; [done| |apply delete_where_tags]. apply delete_where_filter. intros k v e _. cbn.
      unfold begins_with. rewrite <- pg_like_escaped_prefix. by destruct (pg_like _ _).
  - cbn. split_and!; [done| |apply delete_where_tags]. apply delete_where_filter. intros k v e _. cbn.
    rewrite andb_false_iff, bool_decide_eq_false. destruct (_ <? _)%py; naive_solver.
Qed.

(** Any number of processes over one table, with any prefixes and the
    turns of their janitors: whatever the interleaving of their transactions, each call
    answers what one dictionary of the prefixed keys answers, call after call, with the
    lives of entries reckoned from the instants the transactions started; and no tag
    outlives its entry. *)
Lemma postgres_cache_is_one_dictionary t0 lo h s :
  tags_have_rows t0 -> server_runs pg_cache_exec (new_server t0 lo) h s ->
  pe_answer <$> h = (spec_run pg_cache_do h (table_entries t0)).1 /\
  table_entries (pg_tables s) = (spec_run pg_cache_do h (table_entries t0)).2 /\
  tags_have_rows (pg_tables s).
Proof.
  intros Ht (hi & Hs & _)%server_serial.
  destruct (serial_simulated pg_cache_exec pg_cache_do (fun t m => table_entries t = m /\ tags_have_rows t)
    (fun _ => True) t0 lo (table_entries t0) h hi (pg_tables s)) as (Ha & He & Hr); try done.
  - intros k start now t m _ _ [<- Htm]. destruct (pg_cache_exec_do k start now t) as (E1 & E2 & E3). auto.
  - by apply Forall_true.
Qed.

(** ** The interface of the cache *)

(** The calls of an adapter, one at a time. *)
Definition pgc_do (o : shared_op) (now : Q) (t : cache_tables) : outcome exn cache_result * cache_tables :=
  pg_cache_exec o now now t.

Lemma pgc_answers p op now t :
  (pgc_do (Cached p op) now t).1 = Return (shared_do (Cached p op) now (table_entries t)).1.
Proof. unfold pgc_do. rewrite (proj1 (pg_cache_exec_do (Cached p op) now now t)). by destruct op. Qed.

Lemma pgc_leaves p op now t : op <> CClear ->
  table_entries (pgc_do (Cached p op) now t).2 = (shared_do (Cached p op) now (table_entries t)).2.
Proof.
  intros Hop. unfold pgc_do. rewrite (proj1 (proj2 (pg_cache_exec_do (Cached p op) now now t))). by destruct op.
Qed.

Lemma pgc_clears p now t key : table_entries (pgc_do (Cached p CClear) now t).2 !! prefixed p key = None.
Proof.
  unfold pgc_do. rewrite (proj1 (proj2 (pg_cache_exec_do (Cached p CClear) now now t))). cbn.
  rewrite map_lookup_filter. destruct (table_entries t !! prefixed p key); [|done]. cbn.
  rewrite option_guard_False; [done|]. intros H. apply H. by exists key.
Qed.

(** The store that [TTLCache] is proved against *)
Section PostgresStore.
Context (p : string).

Definition postgres_store : Type := cache_tables.

#[export] Instance postgres_cache : CacheBackend postgres_store :=
  table_cache pgc_do p (pgc_answers p) (pgc_leaves p) (pgc_clears p).

#[export] Instance postgres_cache_reliable : ReliableCache postgres_store.
Proof. apply table_cache_reliable. Qed.
End PostgresStore.

(** ** A run

    Two applications on one table, and a reader whose transaction started while
    the entry was alive. *)
Definition pg_cache_demo : list (server_event (K := shared_op)) :=
  [Begin 0 (Cached "app:" (CSet "k" byte_a 10 ["users"])); Serve 0;
   Begin 0 (Cached "App:" (CSet "k" byte_b 60 ["users"])); Serve 0;
   Tick 9; Begin 1 (Cached "app:" (CGet "k")); Tick 11; Serve 1;
   Begin 1 (Cached "app:" (CGet "k")); Serve 1; Begin 1 (Cached "app:" CClear); Serve 1;
   Begin 1 (Cached "App:" (CGetMany ["k"; "l"])); Serve 1;
   Begin 0 (Cached "web:" (CDeleteTags ["users"])); Serve 0; Begin 1 (Cached "App:" (CGet "k")); Serve 1].

Definition pg_cache_played : list (pg_entry shared_op cache_result) * pg_server cache_tables shared_op :=
  play pg_cache_exec pg_cache_demo (new_server empty_tables 0).

Lemma postgres_cache_is_one_dictionary_witness :
  pe_answer <$> pg_cache_played.1 =
    Return <$> [CNone; CNone; CValue (Some byte_a); CValue None; CNone; CFound {["k" := byte_b]}; CNone; CValue None].
Proof.
  assert (tags_have_rows empty_tables) as Ht by (intros key tag Hin; cbn in Hin; set_solver).
  pose proof (play_runs pg_cache_exec _ [] _ pg_cache_demo (runs_start _ (new_server empty_tables 0))) as Hs.
  destruct (postgres_cache_is_one_dictionary empty_tables 0 pg_cache_played.1 pg_cache_played.2 Ht Hs) as [H _].
  rewrite H. by vm_compute.
Defined.
